(* ===== verification/_CoqProject ===== *)
-Q . S2P
Prelude.v
CacheBuffer.v
ChannelBuffer.v
Fusion.v
BoundedQueue.v
UnboundedQueue.v
LockLib.v
AtomicRWLock.v
ReentrantRWLock.v
AtomicHashMap.v
AtomicHashMapConc.v
GlobalData.v
TimingWheel.v
TimingWheelConc.v
Timer.v
Unordered.v
Role.v
Warehouse.v
Graph.v
Manager.v
NodeManager.v
ServiceManager.v
ChannelManager.v
Text.v
TopologyManager.v
CRoutine.v
Contexts.v
Scheduler.v
SchedulerSpec.v
Cpuset.v
Wakeup.v
Signal.v
ListenerHandler.v
Block.v
ShmConf.v
Segment.v
ConditionNotifier.v
Wire.v
Dispatcher.v
ShmTransport.v
DataDispatch.v
ObjectPool.v
ThreadPool.v
Blocker.v
Hybrid.v
Node.v
Service.v
ClassLoader.v
Parameter.v
TaskManager.v
Rate.v
AsyncLogger.v
Poller.v
Component.v
RecordFile.v
RecordWriter.v
RecordViewer.v
RecordReaderLaws.v
RecordWitness.v
Indexed.v
Double.v
Decision.v
Geometry.v
KDTree.v
GridSearch.v
RouteSegments.v
PncMap.v
Deriv.v
Curve1d.v
SpiralPath.v
PiecewiseSpiral.v
Trajectory1d.v
Polygon2d.v
StBoundary.v
PathTimeGraph.v
Lattice.v
LruCache.v
Angle.v
LaneInfo.v
