(* ===== verification/Prelude.v ===== *)
(** * Verification of Apollo Cyber RT

    Apollo is a driving stack; its modules are components of Cyber RT, the
    runtime under src/src/apollo/cyber.  This development models the parts of
    Cyber RT that every message and every task goes through, and proves what the
    rest of the stack relies on, and then goes into the driving modules: the
    spatial index of the map, the route of the planner, the grid search of open
    spaces, and the curves, boundaries and samples of the lattice planner.  Paths
    below are relative to that directory; paths that start with modules/ are
    relative to src/src/apollo.

    ** The program

    A node writes messages to channels and reads them from channels.  A writer's
    hybrid transmitter (transport/transmitter) sends a message to each reader inside
    the process, through shared memory (transport/shm) or by RTPS, depending on
    where the reader is, and keeps a history for late readers
    (transport/message/history.h).  On the other side a dispatcher
    (transport/dispatcher) calls the listeners of the channel
    (transport/message/listener_handler.h, base/signal.h), and the data
    dispatcher (data/data_dispatcher.h) puts the message into the cache buffer of
    each reader of the process
    (data/cache_buffer.h, data/channel_buffer.h, data/fusion); the reader's
    routine is then notified (data/data_notifier.h, scheduler) and, when a
    processor runs it, fetches what it has not seen.  Tasks are coroutines
    (croutine) which the scheduler (scheduler) keeps in priority queues.  Timers
    put their callbacks on a hierarchical timing wheel (timer), which hands them
    to the task queue (base/bounded_queue.h).  Service discovery
    (service_discovery) tells every process which nodes, channels and services
    exist: the managers keep registries of roles (container/*warehouse*,
    container/graph.cc), replicate changes over RTPS, and drop what belongs to a
    process that has disappeared.  The shared structures are built on two
    reader-writer locks (base/atomic_rw_lock.h, base/reentrant_rw_lock.h) and on
    a lock-free hash map (base/atomic_hash_map.h), which also backs the id
    registries of common/global_data.cc.  In simulation mode readers and writers
    of one process exchange messages through blockers (blocker) instead.

    On top of channels, services (service) match responses to requests by
    sequence numbers, and parameters (parameter) are served by a node.  Messages are
    recorded into files and read back (record).  Asynchronous tasks (task) run on
    routines of the scheduler, loops keep their rate (time), and routines wait for
    descriptors through a poller (io).  Modules are loaded as shared libraries
    whose classes register themselves (class_loader), and they log through a
    thread that writes one of two buffers while the other fills (logger).

    Of the driving modules, modules/common/math has the geometry (vectors,
    segments, boxes) and the kd-tree in which the map finds its objects.
    modules/map/pnc_map follows the response of routing: it finds where the
    vehicle is on the route, the waypoint ahead, and the stretch of lanes around the
    vehicle.  Planning (modules/planning) keeps obstacles and frames in
    indexed containers, merges the decisions of its tasks, and plans: in open spaces
    it searches grids (open_space/coarse_trajectory_generator), and on lanes
    the lattice planner (lattice) puts the obstacles into a graph of path
    and time, samples end conditions and fits polynomials between them
    (math/curve1d).

    ** Files

    - [Prelude]: machine integers with their wrap-around, arrays, tactics, the
      hint database [cyber].
    - Data.  [CacheBuffer]: the ring buffer with its head and tail counters.
      [ChannelBuffer]: a reader's view of it (Fetch, FetchMulti, TryFetch) under
      interleaved writes.  [Fusion]: AllLatest, several channels fused on the
      first one.  [DataDispatch]: the dispatcher and the notifier that serve all
      readers of a process.
    - Base.  [BoundedQueue]: the bounded MPMC queue, sequentially and as a step
      relation with one step per atomic access.  [UnboundedQueue]: the lock-free
      linked queue with its reference counts; the address of a deleted node may be
      given out again.  [LockLib]: what the two locks
      share (counters, reachability).  [AtomicRWLock], [ReentrantRWLock]: the
      locks, with their spinning loops cut at every atomic access.
      [AtomicHashMap]: the map, sequentially, with its refinement to a finite
      map.  [AtomicHashMapConc]: one bucket as a heap of nodes changed by CAS.
      [ObjectPool]: the lock-free and the single-threaded object pool.
      [ThreadPool]: ThreadSafeQueue and ThreadPool with waiting consumers.
    - Common.  [GlobalData]: registration of names with probing on collisions.
      [Text]: find, substr, std::to_string, std::stoi.  [AsyncLogger]: the
      double-buffered logger, its thread and Flush.
    - Timer.  [TimingWheel]: AddTask, Tick, Cascade on the two wheels.
      [TimingWheelConc]: the unlocked accesses of AddTask and of the tick thread
      as interleaving steps.
      [Timer]: Start, Stop and the re-arming callback with its error
      correction.
    - Service discovery.  [Unordered]: the unordered containers up to iteration
      order (class [HashOrder]).  [Role]: roles and matching.  [Warehouse]: the
      interface of a warehouse (class [Warehouse]) and its two implementations.
      [Graph]: the node graph.  [Manager]: the base class of the managers, whose
      virtual functions are the class [SpecificManager]; [NodeManager],
      [ServiceManager], [ChannelManager] are its instances, each proved against
      the warehouse interface.  [TopologyManager]: the owner of the three.
    - Scheduler.  [CRoutine]: a routine and the heap of routines.  [Contexts]:
      the queues a processor takes routines from.  [Scheduler]: the base class,
      the processor loop and the two policies (class [Policy]).
      [SchedulerSpec]: what a policy promises (class [PolicySpec]), both
      instances, and the theorems on the base class.  [Cpuset]: ParseCpuset.
      [Wakeup]: writers, processors and a reader's routine as interleaving
      threads.
    - Messages.  [Signal]: slots, connections and signals, whose objects are
      shared.  [ListenerHandler]: who receives the messages of a channel.
    - Transport.  [Block], [ShmConf], [Segment]: the blocks of a shared memory segment
      with their locks, its size classes and layout, and acquiring, growing and
      remapping it.  [ConditionNotifier]: the ring in shared memory through which
      blocks are announced.  [Wire]: MessageInfo, ReadableInfo and raw messages as
      bytes; class [Message] is what is used of a message type.  [Dispatcher]:
      the dispatcher of a process.  [ShmTransport]: transmitting and dispatching
      through the bytes of a segment.  [Hybrid]: the history, the hybrid
      transmitter, whose RTPS publisher may fail to be created, and the hybrid
      receiver.  [Blocker]: blockers, their manager and
      the readers and writers of the simulation mode.
    - Nodes.  [Node]: readers and writers joining and leaving the topology of
      several processes; readers of a channel in one process share a receiver.  [Service]: clients, services and their threads.
      [Parameter]: typed parameters, their server and its clients.
      [ClassLoader]: factories, loaders, objects and the manager of libraries.
      [Component]: the life cycle of components and the module controller.
    - Records.  [RecordFile]: the bytes of a record file, its writer with two
      chunks and a flush thread, its reader.  [RecordWriter]: segmentation into
      files.  [RecordViewer]: a view of several recordings, against the interface of a
      reader (classes [Reader], [ReaderLaws]); [RecordReaderLaws]: record
      files meet it.  [RecordWitness]: recordings as examples.
    - Tasks and descriptors.  [TaskManager]: Async and its pool of routines.
      [Rate]: times, durations and loops with a fixed rate.  [Poller]: the poller
      over epoll (class [Epoll]), poll handlers and the transfer loop of sessions.
    - modules/.  [Indexed]: the indexed list and queue of planning.  [Decision]:
      merging the decisions about an obstacle, and the main stop of a path.
      [LruCache]: the cache of modules/common/util with its linked list.
    - Geometry and map.  [Double]: doubles as rational numbers.  [Geometry]:
      Vec2d, LineSegment2d, AABox2d.  [KDTree]: AABoxKDTree2d and its queries.
      [Angle]: angles as integers and as doubles.  [LaneInfo]: the geometry of a
      lane, with its widths, headings and projections.
      [RouteSegments]: stretches of lanes.  [PncMap]: the route, the
      waypoints and the extension of segments along the lanes of the map.
    - Planning.  [GridSearch]: A* and the dynamic programming map on the grid.
      [Deriv]: derivatives of functions on the rational numbers.
      [Curve1d]: cubic, quartic and quintic polynomials.  [SpiralPath],
      [PiecewiseSpiral]: spirals, their gradients and their chains.
      [Trajectory1d]: trajectories of constant jerk, acceleration and
      deceleration, and stand-still.  [Polygon2d]: building a polygon
      from its points, with its checks.  [StBoundary]: an obstacle as a
      polygon of path and time.  [PathTimeGraph]: the graph of obstacles.
      [Lattice]: the feasible region, end conditions and trajectory bundles.

    ** How code becomes definitions

    A C++ integer is a [Z]; operations that can leave the range of its type go
    through [u64], [u32], [i32] or [i64].  Objects that are shared through
    pointers live in a heap of their own; other objects are records passed along.
    A definition returns [None] where the source has undefined behaviour or
    throws.  Concurrency is a step relation whose steps are the atomic accesses
    of the source, sequentially consistent; the theorems are invariants of all
    reachable states, for any number of threads.  Callbacks, listeners and
    writes to the network are events in a list.  Log statements
    and performance events are left out.

    A double is a rational number ([Double]), computed exactly; rounding,
    infinities and NaN are not represented, and comparisons with an epsilon are kept
    as the source has them.  The square root, hypot and the trigonometric
    functions are parameters; a theorem that needs more of them than that
    they are functions says so in its hypotheses.  A derivative is the limit of
    difference quotients over the rational numbers ([Deriv]).

    Loops without a structural measure run on fuel, and the theorems say how much
    is enough: the probing loop of [GlobalData] needs one more than the number of
    names, the breadth-first search of [Graph] two more than the number of edges;
    more fuel changes nothing.  The search for a free block in [Segment] is bounded
    by 512, the number of blocks of a segment, and every round of it takes another
    block.  Decimal numbers have at most 20 digits.  Reading a record file takes at
    most two rounds per section of the file.  Clear of [UnboundedQueue] runs on
    the number of nodes.  Building a tree of [KDTree] takes at
    most as many levels as objects, when every split separates some; a search
    of [GridSearch] two rounds more than the grid has cells; the binary search of
    [LaneInfo] as many as there are samples; ExtendSegments of
    [PncMap] two rounds per lane and three more; the loops of [PathTimeGraph]
    and [Lattice] that advance by a fixed step as many rounds as steps fit into the
    length and one more.

    ** What the theorems show

    - Data: a reader gets published messages only, in order and at most once;
      FetchMulti returns the newest ones; fusion is the latest of each channel;
      a dispatched message reaches every reader of the channel.
    - Queues and map: the bounded queue and the map are linearizable under any
      interleaving, and refine a list and a finite map; the unbounded queue is in
      order as long as no head is swung on a reused address.  Pooled objects are never handed out twice; waiting
      consumers of a queue are woken; a thread pool starts tasks in order.
    - Locks: mutual exclusion, and that a waiting writer blocks new readers.
    - Timer: a task added while the tick thread sleeps is posted exactly once, at a
      tick that is known when it is added; a stopped timer does not fire.
    - Discovery: both warehouses implement one specification; the graph answers
      by reachability; registries agree between processes and between indexes,
      and a process that disappears leaves nothing behind.
    - Scheduler: registry and run queues agree under both policies; processors
      take the most urgent routine; no notification is lost between writer and
      routine; shutdown stops every task.
    - Signals: emission reaches exactly the connected slots, in order; a message
      handler delivers to the listeners of all senders and of its sender.
    - Transport: the buffers of a segment are large enough and apart, a block is
      read whole, announcements arrive in order, the wire formats round-trip, and
      a message transmitted through shared memory arrives unchanged; a hybrid
      transmitter hands each message once to each peer it has a medium for, and a late reader gets an
      unbroken tail of the messages.  In simulation mode a message reaches every
      subscribed reader, and no subscription outlives its reader.
    - Nodes and services: settled readers, one per channel and process, receive
      every message once; a response reaches the request it answers; parameters are
      served as they were set last; an object's library stays loaded while the object lives;
      components that are cleared leave no task, reader or timer behind.
    - Records: what was recorded is read back, segments hold the recording, and a
      view of several recordings shows their messages in order of time.
    - Tasks, time, descriptors: tasks run once and in order and none is forgotten
      outside of one window; a loop does not drift; epoll watches what is
      requested, and every request is answered as its time limit demands.
    - modules/: an obstacle keeps the safest of its decisions, the main stop is
      the nearest one, the frame history keeps the newest frames, and the linked
      LRU cache is equivalent to a list ordered by recency.
    - Logging: what was logged before a Flush has been written when it returns,
      and messages are written once and in order.
    - Map: a range query of the kd-tree returns the objects within the distance
      and a nearest query one at the least distance; the next waypoint is the first
      one ahead, and an extended route follows the successors of the map.  A point
      taken at a length of a lane is on the lane, a width is interpolated between
      the samples around it, and a projection is onto the nearest segment.
    - Angles: integer angles are rotations, the sine table extends to all angles, and
      slerp takes the shorter arc.
    - Grid search: the dynamic programming map holds exactly the cells from which
      the goal is reachable.
    - Curves and trajectories: a fitted polynomial meets its end conditions, its
      evaluations are derivatives of each other, and deriving undoes
      integrating; the gradients of a spiral are its partial derivatives;
      trajectories of segments are smooth where the segments join, and braking ends
      at the stop point.
    - Lattice planner: a point is in a boundary exactly when it lies between
      the upper and the lower chain; the boundary of an obstacle contains what it was
      built from; the feasible region contains what a vehicle within its limits
      reaches; sampled end conditions are feasible.
    - Where the code does not do what it means to, a theorem shows the execution:
      [early_fire_600], [late_by_a_turn], [reused_address_delivers_twice],
      [shared_receiver_is_cut_off], [flat_boundary_aborts], [reentrancy_can_be_lost], [get_pointer_can_dangle],
      [colliding_keys_lose_an_edge], [second_writer_loses_its_edge],
      [classic_wakeup_can_be_lost], [task_of_missing_processor],
      [remove_task_hits_another_task], [stale_index_escapes],
      [overtaken_listener_is_stuck], [first_announcement_read_early],
      [empty_raw_message_is_dropped], [break_can_be_missed],
      [pool_task_can_be_stranded], [pool_shutdown_can_hang],
      [full_pool_drops_tasks], [intra_iteration_is_empty],
      [failed_reader_silences_the_first], [writer_first_ignores_depth],
      [enabled_twice_resends_history], [history_channels_collide],
      [cleared_history_is_unbounded], [update_changes_nothing],
      [indexed_entries_are_never_evicted], [default_wait_never_looks],
      [unanswered_requests_accumulate], [slow_flush_hides_messages],
      [aborted_recording_shows_the_old_one], [damaged_file_is_read_forever],
      [second_recording_lacks_its_channel], [late_message_is_not_shown],
      [clash_unloads_under_object], [unloaded_loader_is_stuck],
      [missing_library_loads], [unknown_library_poisons_the_manager],
      [unset_parameter_is_invisible], [async_task_can_be_stranded],
      [shutdown_abandons_queued_tasks], [fraction_loses_its_zeros],
      [max_minus_min_is_negative], [twice_registered_is_not_watched],
      [registered_anew_keeps_old_events], [io_wakeup_can_be_lost],
      [short_waits_expire_early], [released_node_is_deleted_twice],
      [overtaken_dequeue_reads_deleted_node], [size_can_wrap],
      [timer_shutdown_removes_a_task], [timer_runs_after_shutdown],
      [full_buffer_drops], [stop_twice_aborts], [coincident_points_never_split],
      [lost_outside_the_range], [revisited_lane_ends_the_route],
      [tiny_circle_never_ends], [circular_lane_is_reversed],
      [open_space_is_searched_forever], [dp_cost_is_not_least],
      [obstacle_is_checked_in_the_wrong_place], [astar_never_returns_a_path],
      [astar_without_dp_map], [start_is_out_of_range],
      [guide_velocity_reads_out_of_range], [acceleration_of_the_segment_before],
      [start_can_be_popped], [accelerations_cannot_be_appended],
      [first_instant_has_no_range], [corners_are_not_read],
      [redundant_points_cut_the_boundary], [graph_never_blocks],
      [obstacle_bounds_two_samples], [long_obstacle_is_driven_into],
      [too_fast_to_cruise], [obstacle_stops_the_sampler],
      [heading_reads_past_the_end], [half_a_turn_is_out_of_range].

    ** What is not modelled

    RTPS (calls of Fast RTPS), the attributes and configuration files of nodes and
    components, log files and performance events, and the protobuf factory of Cyber RT are
    not modelled.  Fast RTPS, protobuf, epoll and the dynamic linker are not part of
    the repository; what is used of them is a parameter.  Seconds as floating point
    numbers, the condition variable of a record's flush thread and the pipe that
    interrupts the poller are left out.  Of the driving modules, the costs and collision
    checks of the lattice planner, the quadratic and nonlinear optimisers and
    smoothers (calls of OSQP, qpOASES and Ipopt), reference lines, the objects of
    the map other than lanes and the queries by distance over all of them, hybrid A*
    and Reeds-Shepp paths, the loading of map files, and prediction are not
    part of this development. *)

From stdpp Require Export base tactics numbers list gmap strings sorting.
From Stdlib Require Export ZArith Lia.

Declare Scope cyber_scope.
Delimit Scope cyber_scope with cyber.

(** ** Machine integers

    A C++ unsigned or signed integer of width w is a [Z]; every operation of
    the source that can leave the range goes through one of these wraps. *)

Definition u64 (z : Z) : Z := (z mod 2 ^ 64)%Z.
Definition u32 (z : Z) : Z := (z mod 2 ^ 32)%Z.
Definition i32 (z : Z) : Z := ((z + 2 ^ 31) mod 2 ^ 32 - 2 ^ 31)%Z.
Definition i64 (z : Z) : Z := ((z + 2 ^ 63) mod 2 ^ 64 - 2 ^ 63)%Z.

Definition is_u64 (z : Z) : Prop := (0 <= z < 2 ^ 64)%Z.
Definition is_u32 (z : Z) : Prop := (0 <= z < 2 ^ 32)%Z.
Definition is_i32 (z : Z) : Prop := (- 2 ^ 31 <= z < 2 ^ 31)%Z.
Definition is_i64 (z : Z) : Prop := (- 2 ^ 63 <= z < 2 ^ 63)%Z.

Notation "x +u64 y" := (u64 (x + y)%Z) (at level 50, left associativity) : cyber_scope.
Notation "x -u64 y" := (u64 (x - y)%Z) (at level 50, left associativity) : cyber_scope.
Notation "x *u64 y" := (u64 (x * y)%Z) (at level 40, left associativity) : cyber_scope.

Create HintDb cyber.

Section words.
Local Open Scope Z_scope.

Lemma u64_small z : is_u64 z -> u64 z = z.
Proof. intros H. unfold u64, is_u64 in *. by apply Z.mod_small. Qed.

Lemma u64_range z : is_u64 (u64 z).
Proof. unfold u64, is_u64. apply Z.mod_pos_bound. lia. Qed.

Lemma u64_idemp z : u64 (u64 z) = u64 z.
Proof. apply u64_small, u64_range. Qed.

Lemma u32_small z : is_u32 z -> u32 z = z.
Proof. intros H. unfold u32, is_u32 in *. by apply Z.mod_small. Qed.

Lemma u32_range z : is_u32 (u32 z).
Proof. unfold u32, is_u32. apply Z.mod_pos_bound. lia. Qed.

Lemma i32_small z : is_i32 z -> i32 z = z.
Proof. intros H. unfold i32, is_i32 in *. rewrite Z.mod_small; lia. Qed.

Lemma i32_range z : is_i32 (i32 z).
Proof.
  unfold i32, is_i32. pose proof (Z.mod_pos_bound (z + 2 ^ 31) (2 ^ 32)). lia.
Qed.

Lemma i64_small z : is_i64 z -> i64 z = z.
Proof. intros H. unfold i64, is_i64 in *. rewrite Z.mod_small; lia. Qed.

(** Two positions of a ring buffer of [m] slots share a slot only when they are
    a multiple of [m] apart. *)
Lemma mod_eq_diff a b m : 0 < m -> a mod m = b mod m -> (a - b) mod m = 0.
Proof. intros Hm H. rewrite Zminus_mod, H, Z.sub_diag. apply Z.mod_0_l. lia. Qed.

Lemma mod_ne_near a b m : 0 < m -> a <> b -> - m < a - b < m -> a mod m <> b mod m.
Proof.
  intros Hm Hne Hr Heq. apply mod_eq_diff in Heq; [|done].
  apply Z.mod_divide in Heq; [|lia]. destruct Heq as [k Hk].
  assert (k = 0) by nia. subst k. lia.
Qed.

Lemma mod_add_self a m : 0 < m -> (a + m) mod m = a mod m.
Proof.
  intros. replace (a + m) with (a + 1 * m) by lia. by rewrite Z.mod_add by lia.
Qed.
End words.

#[export] Hint Resolve u64_range u32_range i32_range : cyber.
#[export] Hint Rewrite u64_idemp : cyber.

(** Erase a wrap whose argument is in range. *)
Ltac wrap64 :=
  repeat match goal with
  | |- context [u64 ?x] => rewrite (u64_small x) by (unfold is_u64; lia)
  end.
Ltac wrap64_in H :=
  repeat match type of H with
  | context [u64 ?x] => rewrite (u64_small x) in H by (unfold is_u64; lia)
  end.

(** Split on the integer comparisons of the goal and the hypotheses. *)
Ltac zcases :=
  repeat match goal with
  | |- context [Z.eqb ?a ?b] => destruct (Z.eqb_spec a b); cbn [andb orb negb]
  | |- context [Z.ltb ?a ?b] => destruct (Z.ltb_spec a b); cbn [andb orb negb]
  | |- context [Z.leb ?a ?b] => destruct (Z.leb_spec a b); cbn [andb orb negb]
  | H : context [Z.eqb ?a ?b] |- _ => destruct (Z.eqb_spec a b); cbn [andb orb negb] in H
  | H : context [Z.ltb ?a ?b] |- _ => destruct (Z.ltb_spec a b); cbn [andb orb negb] in H
  | H : context [Z.leb ?a ?b] |- _ => destruct (Z.leb_spec a b); cbn [andb orb negb] in H
  end.

(** Destruct existentials and conjunctions of the context. *)
Ltac deex :=
  repeat match goal with
  | H : ex _ |- _ => let x := fresh "x" in destruct H as [x H]
  | H : _ /\ _ |- _ => destruct H
  end.

(** ** Arrays

    A C++ array or vector indexed by an unsigned integer; an access out of
    range is undefined behaviour, written [None] / no change. *)

Section arrays.
Local Open Scope Z_scope.
Context {A : Type}.

Definition zget (l : list A) (i : Z) : option A :=
  if 0 <=? i then l !! Z.to_nat i else None.

Definition zset (l : list A) (i : Z) (x : A) : list A :=
  if 0 <=? i then <[Z.to_nat i := x]> l else l.

Definition zlen (l : list A) : Z := Z.of_nat (length l).

Lemma zlen_nonneg l : 0 <= zlen l.
Proof. unfold zlen. lia. Qed.

Lemma zlen_zset l i x : zlen (zset l i x) = zlen l.
Proof. unfold zlen, zset. case_match; by rewrite ?length_insert. Qed.

Lemma zlen_app l k : zlen (l ++ k) = zlen l + zlen k.
Proof. unfold zlen. rewrite length_app. lia. Qed.

Lemma zget_zset_eq l i x : 0 <= i < zlen l -> zget (zset l i x) i = Some x.
Proof.
  unfold zget, zset, zlen. intros. destruct (Z.leb_spec 0 i); [|lia].
  apply list_lookup_insert_eq. lia.
Qed.

Lemma zget_zset_ne l i j x : i <> j -> zget (zset l i x) j = zget l j.
Proof.
  unfold zget, zset. intros.
  destruct (Z.leb_spec 0 i), (Z.leb_spec 0 j); try done.
  apply list_lookup_insert_ne. lia.
Qed.

Lemma zget_Some l i : 0 <= i < zlen l <-> is_Some (zget l i).
Proof.
  unfold zget, zlen. destruct (Z.leb_spec 0 i).
  - rewrite lookup_lt_is_Some. lia.
  - split; [lia|]. by intros [? ?].
Qed.

Lemma zget_app_l l k i : i < zlen l -> zget (l ++ k) i = zget l i.
Proof.
  unfold zget, zlen. intros. destruct (Z.leb_spec 0 i); [|done].
  apply lookup_app_l. lia.
Qed.

Lemma zget_app_r l k i : zlen l <= i -> zget (l ++ k) i = zget k (i - zlen l).
Proof.
  unfold zget, zlen. intros.
  destruct (Z.leb_spec 0 i), (Z.leb_spec 0 (i - Z.of_nat (length l))); try lia.
  rewrite lookup_app_r by lia. f_equal. lia.
Qed.
End arrays.

Arguments zlen {A} l.
