(* ===== verification/CacheBuffer.v ===== *)
(** CacheBuffer.v -- src/src/apollo/cyber/data/cache_buffer.h

    The ring buffer that holds the last messages of a channel, and the relation
    [rep] that says which published sequence a buffer represents.  Every
    operation runs under the buffer's mutex, so it is one atomic function. *)

From S2P Require Import Prelude.
Local Open Scope Z_scope.

Section cache_buffer.
Context {T W : Type}.

(** [fusion_callback_] is an empty std::function or a callback that acts on the
    world [W] around the buffer. *)
Record CacheBuffer := mkCacheBuffer {
  head_ : Z;
  tail_ : Z;
  capacity_ : Z;
  buffer_ : list T;
  fusion_callback_ : option (T -> W -> W)
}.

(** The constructor; [dflt] is the default value of T (a null pointer for the
    shared_ptr instances of the code). *)
Definition New (dflt : T) (size : Z) : CacheBuffer :=
  let capacity := u64 (size + 1) in
  mkCacheBuffer 0 0 capacity (replicate (Z.to_nat capacity) dflt) None.

Definition GetIndex (b : CacheBuffer) (pos : Z) : Z := pos mod capacity_ b.
Definition at_ (b : CacheBuffer) (pos : Z) : option T := zget (buffer_ b) (GetIndex b pos).

Definition Head (b : CacheBuffer) : Z := u64 (head_ b + 1).
Definition Tail (b : CacheBuffer) : Z := tail_ b.
Definition Size (b : CacheBuffer) : Z := u64 (tail_ b - head_ b).
Definition Front (b : CacheBuffer) : option T := at_ b (u64 (head_ b + 1)).
Definition Back (b : CacheBuffer) : option T := at_ b (tail_ b).
Definition Empty (b : CacheBuffer) : bool := tail_ b =? 0.
Definition Full (b : CacheBuffer) : bool :=
  u64 (capacity_ b - 1) =? u64 (tail_ b - head_ b).

Definition SetFusionCallback (b : CacheBuffer) (cb : T -> W -> W) : CacheBuffer :=
  mkCacheBuffer (head_ b) (tail_ b) (capacity_ b) (buffer_ b) (Some cb).

Definition Fill (b : CacheBuffer) (value : T) (w : W) : CacheBuffer * W :=
  match fusion_callback_ b with
  | Some cb => (b, cb value w)
  | None =>
      if Full b then
        (mkCacheBuffer (u64 (head_ b + 1)) (u64 (tail_ b + 1)) (capacity_ b)
           (zset (buffer_ b) (GetIndex b (head_ b)) value) None, w)
      else
        (mkCacheBuffer (head_ b) (u64 (tail_ b + 1)) (capacity_ b)
           (zset (buffer_ b) (GetIndex b (u64 (tail_ b + 1))) value) None, w)
  end.

(** [rep size b xs]: the buffer, created for [size] messages, represents the
    published sequence [xs] (oldest first).  Position p of the buffer is the
    p-th published message, counted from one. *)
Record rep (size : Z) (b : CacheBuffer) (xs : list T) : Prop := mkRep {
  rep_size : 0 <= size;
  rep_capacity : capacity_ b = size + 1;
  rep_capacity64 : size + 1 < 2 ^ 64;
  rep_length : zlen (buffer_ b) = capacity_ b;
  rep_tail : tail_ b = zlen xs;
  rep_head : head_ b = Z.max 0 (zlen xs - size);
  rep_count64 : zlen xs < 2 ^ 64;
  rep_callback : fusion_callback_ b = None;
  rep_slot : forall p, Z.max 0 (zlen xs - capacity_ b) < p <= zlen xs ->
    zget (buffer_ b) (p mod capacity_ b) = zget xs (p - 1)
}.

Lemma rep_New dflt size : 0 <= size -> size + 1 < 2 ^ 64 -> rep size (New dflt size) [].
Proof.
  intros H1 H2. unfold New. wrap64. constructor; simpl; try done; try lia.
  - unfold zlen. rewrite length_replicate. lia.
  - unfold zlen. simpl. lia.
  - unfold zlen. simpl. lia.
Qed.

Lemma rep_Full size b xs : rep size b xs -> Full b = (size <=? zlen xs).
Proof.
  intros []. pose proof (zlen_nonneg xs). unfold Full.
  rewrite rep_capacity0, rep_tail0, rep_head0. wrap64. zcases; lia.
Qed.

(** The slot written by [Fill] is the one of the next position. *)
Lemma rep_write_slot size b xs :
  rep size b xs -> (if Full b then GetIndex b (head_ b) else GetIndex b (tail_ b + 1))
                   = (zlen xs + 1) mod capacity_ b.
Proof.
  intros H. rewrite (rep_Full _ _ _ H). destruct H. pose proof (zlen_nonneg xs).
  unfold GetIndex. rewrite rep_head0, rep_tail0, rep_capacity0. zcases; [|done].
  rewrite <- (mod_add_self (Z.max _ _)) by lia. f_equal. lia.
Qed.

Lemma slot_range (m p : Z) : 0 < m -> 0 <= p mod m < m.
Proof. intros. by apply Z.mod_pos_bound. Qed.

(** The relation between slots and positions after one more value. *)
Lemma rep_slot_step size b xs v p :
  rep size b xs ->
  Z.max 0 (zlen xs + 1 - capacity_ b) < p <= zlen xs + 1 ->
  zget (zset (buffer_ b) ((zlen xs + 1) mod capacity_ b) v) (p mod capacity_ b)
  = zget (xs ++ [v]) (p - 1).
Proof.
  intros H Hp. destruct H. pose proof (slot_range (capacity_ b) (zlen xs + 1)).
  destruct (decide (p = zlen xs + 1)) as [->|Hne].
  - rewrite zget_zset_eq by lia. rewrite zget_app_r by lia.
    by replace (zlen xs + 1 - 1 - zlen xs) with 0 by lia.
  - rewrite zget_zset_ne by (apply mod_ne_near; lia).
    rewrite rep_slot0 by lia. by rewrite zget_app_l by lia.
Qed.

Lemma Fill_rep size b xs v w :
  rep size b xs -> zlen xs + 1 < 2 ^ 64 ->
  rep size (fst (Fill b v w)) (xs ++ [v]) /\ snd (Fill b v w) = w.
Proof.
  intros H Hlt. pose proof (rep_write_slot _ _ _ H) as Hslot.
  pose proof (fun p => rep_slot_step _ _ _ v p H) as Hstep.
  pose proof (rep_Full _ _ _ H) as HF. destruct H. pose proof (zlen_nonneg xs).
  unfold Fill. rewrite rep_callback0, HF in *.
  destruct (Z.leb_spec size (zlen xs)); simpl; (split; [|done]).
  - rewrite Hslot. constructor; simpl; rewrite ?zlen_zset, ?zlen_app; simpl; try done;
      rewrite ?rep_tail0, ?rep_head0; change (zlen [v]) with 1; wrap64; try lia.
    all: intros p Hp; apply Hstep; lia.
  - rewrite (u64_small (tail_ b + 1)) by (unfold is_u64; lia). rewrite Hslot.
    constructor; simpl; rewrite ?zlen_zset, ?zlen_app; simpl; try done;
      rewrite ?rep_tail0, ?rep_head0; change (zlen [v]) with 1; wrap64; try lia.
    all: intros p Hp; apply Hstep; lia.
Qed.

(** What a read at a retained position returns. *)
Lemma rep_at size b xs p :
  rep size b xs -> Z.max 0 (zlen xs - capacity_ b) < p <= zlen xs ->
  at_ b p = zget xs (p - 1).
Proof. intros H Hp. unfold at_, GetIndex. by apply (rep_slot _ _ _ H). Qed.

Lemma rep_Empty size b xs : rep size b xs -> Empty b = match xs with [] => true | _ => false end.
Proof.
  intros []. unfold Empty. rewrite rep_tail0. by destruct xs.
Qed.

Lemma rep_Size size b xs : rep size b xs -> Size b = Z.min size (zlen xs).
Proof.
  intros []. unfold Size. pose proof (zlen_nonneg xs).
  rewrite rep_tail0, rep_head0. wrap64. lia.
Qed.

Lemma rep_Back size b xs x : rep size b (xs ++ [x]) -> Back b = Some x.
Proof.
  intros H. unfold Back. rewrite (rep_tail _ _ _ H).
  rewrite (rep_at _ _ _ _ H).
  - rewrite zlen_app, zget_app_r by (unfold zlen; simpl; lia).
    replace (zlen xs + zlen [x] - 1 - zlen xs) with 0 by (unfold zlen; simpl; lia). done.
  - rewrite (rep_capacity _ _ _ H). pose proof (rep_size _ _ _ H).
    pose proof (zlen_nonneg xs). rewrite zlen_app. unfold zlen at 2 4. simpl. lia.
Qed.

(** Filling a whole list. *)
Fixpoint FillAll (b : CacheBuffer) (vs : list T) (w : W) : CacheBuffer * W :=
  match vs with
  | [] => (b, w)
  | v :: vs => let '(b', w') := Fill b v w in FillAll b' vs w'
  end.

Lemma FillAll_rep size b xs vs w :
  rep size b xs -> zlen xs + zlen vs < 2 ^ 64 ->
  rep size (fst (FillAll b vs w)) (xs ++ vs) /\ snd (FillAll b vs w) = w.
Proof.
  revert b xs w. induction vs as [|v vs IH]; intros b xs w H Hlt; simpl.
  - by rewrite app_nil_r.
  - assert (zlen (v :: vs) = 1 + zlen vs) by (unfold zlen; simpl; lia).
    pose proof (zlen_nonneg vs).
    destruct (Fill_rep size b xs v w H ltac:(lia)) as [Hr Hw].
    destruct (Fill b v w) as [b' w']. simpl in *. subst w'.
    replace (xs ++ v :: vs) with ((xs ++ [v]) ++ vs) by (by rewrite <- app_assoc).
    apply IH; [done|]. rewrite zlen_app. change (zlen [v]) with 1. lia.
Qed.

End cache_buffer.

Arguments CacheBuffer : clear implicits.
#[export] Hint Resolve rep_New : cyber.
