(* ===== verification/ChannelBuffer.v ===== *)
(** ChannelBuffer.v -- src/src/apollo/cyber/data/channel_buffer.h and the
    single-channel DataVisitor of data_visitor.h

    Reading a channel: [Fetch], [Latest] and [FetchMulti] over the ring buffer,
    and the reader that walks it with its own index.  The main results are about
    the reader: for every interleaving of writes and reads it sees published
    messages only, each at most once and in order, and a burst that fits the
    queue is delivered completely. *)

From S2P Require Import Prelude.
From S2P Require Import CacheBuffer.
Local Open Scope Z_scope.

Section channel_buffer.
Context {T W : Type}.
Implicit Types (b : CacheBuffer T W) (xs : list T).

(** [None] is the return value false; [Some (index', m)] is true, with the
    updated index and the message read ([m = None] only for an access outside
    the vector). *)
Definition Fetch b (index : Z) : option (Z * option T) :=
  if Empty b then None
  else if index =? 0 then Some (Tail b, at_ b (Tail b))
  else if index =? u64 (Tail b + 1) then None
  else if index <? Head b then Some (Tail b, at_ b (Tail b))
  else Some (index, at_ b index).

Definition Latest b : option (option T) :=
  if Empty b then None else Some (Back b).

(** The loop of FetchMulti; [None] when the fuel runs out. *)
Fixpoint FetchMulti_loop (fuel : nat) b (index : Z) : option (list (option T)) :=
  match fuel with
  | O => None
  | S fuel =>
      if index <=? Tail b then
        match FetchMulti_loop fuel b (u64 (index + 1)) with
        | Some vec => Some (at_ b index :: vec)
        | None => None
        end
      else Some []
  end.

(** [Some None]: the call returned false; [None]: out of fuel. *)
Definition FetchMulti (fuel : nat) b (fetch_size : Z) : option (option (list (option T))) :=
  if Empty b then Some None
  else
    let num := Z.min (Size b) fetch_size in
    match FetchMulti_loop fuel b (u64 (u64 (Tail b - num) + 1)) with
    | Some vec => Some (Some vec)
    | None => None
    end.

(** The single-channel DataVisitor: its state is the index of the next message. *)
Definition TryFetch b (next_msg_index : Z) : option (option T) * Z :=
  match Fetch b next_msg_index with
  | Some (index, m) => (Some m, u64 (index + 1))
  | None => (None, next_msg_index)
  end.

(** ** Fetch on a represented buffer *)

Lemma rep_Head size b xs : rep size b xs -> zlen xs < 2 ^ 64 - 1 ->
  Head b = Z.max 0 (zlen xs - size) + 1.
Proof.
  intros H Hc. pose proof (zlen_nonneg xs). pose proof (rep_size _ _ _ H).
  unfold Head. rewrite (rep_head _ _ _ H). wrap64. lia.
Qed.

(** The position a successful fetch reads. *)
Definition fetch_position (size n index : Z) : Z :=
  if (index =? 0) || (index <=? n - size) then n else index.

(** What [Fetch] does on a represented buffer, every branch at once. *)
Lemma Fetch_rep size b xs index :
  rep size b xs -> zlen xs < 2 ^ 64 - 1 -> 0 <= index <= zlen xs + 1 ->
  Fetch b index =
    if (zlen xs =? 0) || (index =? zlen xs + 1) then None
    else Some (fetch_position size (zlen xs) index,
               zget xs (fetch_position size (zlen xs) index - 1)).
Proof.
  intros H Hc Hi. unfold Fetch, fetch_position.
  rewrite (rep_Empty _ _ _ H), (rep_Head _ _ _ H Hc). pose proof (zlen_nonneg xs).
  pose proof (rep_size _ _ _ H). pose proof (rep_capacity _ _ _ H).
  pose proof (fun p => rep_at _ _ _ p H) as Hat. unfold Tail. rewrite (rep_tail _ _ _ H).
  wrap64. destruct xs as [|x xs]; [done|].
  assert (zlen (x :: xs) = 1 + zlen xs) as Hl by (unfold zlen; simpl; lia).
  pose proof (zlen_nonneg xs). rewrite Hl in *.
  zcases; try lia; try done; rewrite Hat by lia; done.
Qed.

Lemma Latest_rep size b xs x : rep size b (xs ++ [x]) -> Latest b = Some (Some x).
Proof.
  intros H. unfold Latest. rewrite (rep_Empty _ _ _ H).
  rewrite (rep_Back _ _ _ _ H). by destruct xs.
Qed.

Lemma Latest_rep_nil size b : rep size b [] -> Latest b = None.
Proof. intros H. unfold Latest. by rewrite (rep_Empty _ _ _ H). Qed.

(** ** FetchMulti *)

Lemma FetchMulti_loop_rep size b xs k fuel :
  rep size b xs -> zlen xs < 2 ^ 64 - 1 ->
  Z.of_nat k <= Z.min (size + 1) (zlen xs) -> (k < fuel)%nat ->
  FetchMulti_loop fuel b (zlen xs - Z.of_nat k + 1)
  = Some (Some <$> drop (length xs - k) xs).
Proof.
  intros H Hc. revert fuel. induction k as [|k IH]; intros fuel Hk Hf;
    (destruct fuel as [|fuel]; [lia|]); cbn [FetchMulti_loop]; unfold Tail;
    rewrite (rep_tail _ _ _ H).
  - destruct (Z.leb_spec (zlen xs - Z.of_nat 0 + 1) (zlen xs)); [lia|].
    rewrite drop_ge by lia. done.
  - destruct (Z.leb_spec (zlen xs - Z.of_nat (S k) + 1) (zlen xs)) as [_|]; [|lia].
    wrap64. replace (zlen xs - Z.of_nat (S k) + 1 + 1) with (zlen xs - Z.of_nat k + 1) by lia.
    rewrite IH by lia.
    rewrite (rep_at _ _ _ _ H) by (rewrite (rep_capacity _ _ _ H); lia).
    destruct (lookup_lt_is_Some_2 xs (length xs - S k)) as [y Hy]; [unfold zlen in *; lia|].
    rewrite (drop_S _ _ _ Hy). unfold zget.
    destruct (Z.leb_spec 0 (zlen xs - Z.of_nat (S k) + 1 - 1)); [|lia].
    replace (Z.to_nat (zlen xs - Z.of_nat (S k) + 1 - 1)) with (length xs - S k)%nat
      by (unfold zlen in *; lia).
    rewrite Hy. simpl. by replace (S (length xs - S k)) with (length xs - k)%nat by (unfold zlen in *; lia).
Qed.

(** FetchMulti terminates and returns exactly the newest
    min(fetch_size, queue size, messages published) messages of the channel,
    oldest first; it returns false only when nothing was published. *)
Theorem FetchMulti_newest size b xs fetch_size fuel :
  rep size b xs -> zlen xs < 2 ^ 64 - 1 -> is_u64 fetch_size ->
  (Z.to_nat (Z.min size (zlen xs)) < fuel)%nat ->
  FetchMulti fuel b fetch_size =
    match xs with
    | [] => Some None
    | _ => Some (Some (Some <$>
             drop (length xs - Z.to_nat (Z.min (Z.min size (zlen xs)) fetch_size)) xs))
    end.
Proof.
  intros H Hc [Hf0 Hf1] Hfuel. unfold FetchMulti. rewrite (rep_Empty _ _ _ H).
  destruct xs as [|x xs]; [done|]. set (l := x :: xs) in *.
  rewrite (rep_Size _ _ _ H). unfold Tail. rewrite (rep_tail _ _ _ H).
  pose proof (rep_size _ _ _ H). pose proof (zlen_nonneg l).
  set (num := Z.min (Z.min size (zlen l)) fetch_size).
  assert (0 <= num <= zlen l) by lia. wrap64.
  pose proof (FetchMulti_loop_rep size b l (Z.to_nat num) fuel H Hc) as HL.
  rewrite Z2Nat.id in HL by lia. rewrite HL by lia. done.
Qed.

(** ** The reader against every interleaving of writes and reads *)

Inductive event := EvFill (v : T) | EvFetch.

Record system := mkSystem {
  sys_buffer : CacheBuffer T W;
  sys_next : Z;
  sys_published : list T;          (* ghost: everything written so far *)
  sys_got : list (Z * option T)    (* ghost: what the reader returned *)
}.

Definition system_step (w : W) (s : system) (e : event) : system :=
  match e with
  | EvFill v =>
      mkSystem (fst (Fill (sys_buffer s) v w)) (sys_next s)
        (sys_published s ++ [v]) (sys_got s)
  | EvFetch =>
      match TryFetch (sys_buffer s) (sys_next s) with
      | (Some m, next) =>
          mkSystem (sys_buffer s) next (sys_published s) (sys_got s ++ [(next - 1, m)])
      | (None, next) => mkSystem (sys_buffer s) next (sys_published s) (sys_got s)
      end
  end.

Definition system_run (w : W) (s : system) (es : list event) : system :=
  foldl (system_step w) s es.

Definition system_init (dflt : T) (size : Z) : system :=
  mkSystem (New dflt size) 0 [] [].

(** The invariant of the system: the reader's index never passes the next
    unpublished message, and everything it returned lies before it. *)
Record system_inv (size : Z) (s : system) : Prop := mkSystemInv {
  si_rep : rep size (sys_buffer s) (sys_published s);
  si_next : 0 <= sys_next s <= zlen (sys_published s) + 1;
  si_none : sys_next s = 0 -> sys_got s = [];
  si_got : Forall (fun '(i, m) => 1 <= i < sys_next s /\
                     m = zget (sys_published s) (i - 1)) (sys_got s);
  si_sorted : StronglySorted Z.lt (sys_got s).*1
}.

Lemma StronglySorted_app_last (l : list Z) x :
  StronglySorted Z.lt l -> Forall (fun y => y < x) l -> StronglySorted Z.lt (l ++ [x]).
Proof.
  induction 1; intros HF; simpl; [repeat constructor|]. inversion HF; subst.
  constructor; [by apply IHStronglySorted|]. rewrite Forall_app. split; [done|].
  by repeat constructor.
Qed.

Lemma system_inv_fill size w s v :
  system_inv size s -> zlen (sys_published s) + 1 < 2 ^ 64 ->
  system_inv size (system_step w s (EvFill v)).
Proof.
  intros [] Hlt. destruct (Fill_rep _ _ _ v w si_rep0 Hlt) as [Hr _].
  constructor; simpl; try done.
  - rewrite zlen_app. change (zlen [v]) with 1. lia.
  - eapply Forall_impl; [done|]. intros [i m] [Hi ->]. split; [done|].
    rewrite zget_app_l; [done|]. lia.
Qed.

Lemma system_inv_fetch size w s :
  system_inv size s -> zlen (sys_published s) < 2 ^ 64 - 1 ->
  system_inv size (system_step w s EvFetch).
Proof.
  intros [] Hlt. simpl. unfold TryFetch.
  rewrite (Fetch_rep _ _ _ _ si_rep0 Hlt si_next0).
  destruct ((zlen (sys_published s) =? 0) || (sys_next s =? zlen (sys_published s) + 1)) eqn:E.
  { by constructor. }
  apply orb_false_iff in E as [E1 E2]. apply Z.eqb_neq in E1, E2.
  set (n := zlen (sys_published s)) in *. set (p := fetch_position size n (sys_next s)).
  pose proof (rep_size _ _ _ si_rep0). pose proof (zlen_nonneg (sys_published s)).
  assert (1 <= p <= n /\ (sys_next s <> 0 -> sys_next s <= p)) as [Hp Hnext].
  { unfold p, fetch_position. destruct (Z.eqb_spec (sys_next s) 0); simpl; [lia|].
    destruct (Z.leb_spec (sys_next s) (n - size)); lia. }
  rewrite u64_small by (unfold is_u64; lia).
  assert (Forall (fun '(i, m) => 1 <= i < p /\ m = zget (sys_published s) (i - 1)) (sys_got s))
    as HF.
  { destruct (decide (sys_next s = 0)) as [E|E]; [by rewrite si_none0|].
    eapply Forall_impl; [done|]. intros [i m] [Hi ->]. split; [lia|done]. }
  constructor; simpl; try done; try lia.
  - rewrite Forall_app. split.
    + eapply Forall_impl; [exact HF|]. intros [i m] [Hi ->]. split; [lia|done].
    + constructor; [|constructor]. replace (p + 1 - 1) with p by lia. split; [lia|done].
  - rewrite fmap_app. simpl. apply StronglySorted_app_last; [done|].
    rewrite Forall_fmap. eapply Forall_impl; [exact HF|]. intros [i m] [Hi _]. simpl. lia.
Qed.

Definition fills (es : list event) : Z :=
  zlen (List.filter (fun e => match e with EvFill _ => true | EvFetch => false end) es).

Lemma fills_cons e es :
  fills (e :: es) = (match e with EvFill _ => 1 | EvFetch => 0 end) + fills es.
Proof. unfold fills, zlen. destruct e; simpl; lia. Qed.

Lemma system_inv_run size w es s :
  system_inv size s -> zlen (sys_published s) + fills es < 2 ^ 64 - 1 ->
  system_inv size (system_run w s es).
Proof.
  revert s. induction es as [|e es IH]; intros s H Hlt; [done|].
  rewrite fills_cons in Hlt. pose proof (zlen_nonneg (sys_published s)).
  assert (0 <= fills es) by apply zlen_nonneg.
  change (system_run w s (e :: es)) with (system_run w (system_step w s e) es).
  apply IH; destruct e as [v|].
  - apply system_inv_fill; [done|lia].
  - apply system_inv_fetch; [done|lia].
  - simpl. rewrite zlen_app. change (zlen [v]) with 1. lia.
  - simpl. destruct (TryFetch _ _) as [[?|] ?]; simpl; lia.
Qed.

(** C1. Whatever the interleaving of writes and reads on a channel, the reader
    returns published messages only, each at most once and in publication order:
    the positions it reads are strictly increasing, and what it read at position
    p is the p-th message published. *)
Theorem reader_in_order dflt size w es :
  0 <= size -> size + 1 < 2 ^ 64 -> fills es < 2 ^ 64 - 1 ->
  let s := system_run w (system_init dflt size) es in
  StronglySorted Z.lt (sys_got s).*1 /\
  Forall (fun '(i, m) => 1 <= i <= zlen (sys_published s) /\
            m = zget (sys_published s) (i - 1) /\ is_Some m) (sys_got s).
Proof.
  intros Hs Hs64 Hf s.
  assert (system_inv size s) as [].
  { apply system_inv_run; [|simpl; change (zlen []) with 0; lia].
    constructor; simpl; try done; try lia; [by apply rep_New|constructor]. }
  split; [done|]. eapply Forall_impl; [done|].
  intros [i m] [Hi ->]. split; [lia|]. split; [done|]. apply zget_Some. lia.
Qed.

(** Reading [k] times in a row. *)
Fixpoint TryFetchN (k : nat) b (next : Z) : list (option (option T)) * Z :=
  match k with
  | O => ([], next)
  | S k => let '(r, next') := TryFetch b next in
           let '(rs, next'') := TryFetchN k b next' in (r :: rs, next'')
  end.

Lemma TryFetchN_rep size b xs k next :
  rep size b xs -> zlen xs < 2 ^ 64 - 1 ->
  Z.max 0 (zlen xs - size) < next -> next + Z.of_nat k = zlen xs + 1 ->
  TryFetchN k b next = ((fun x => Some (Some x)) <$> drop (length xs - k) xs, zlen xs + 1).
Proof.
  intros H Hc. revert next. induction k as [|k IH]; intros next Hn Hk; simpl.
  - rewrite drop_ge by lia. f_equal. lia.
  - unfold TryFetch. rewrite (Fetch_rep _ _ _ _ H Hc) by lia. unfold fetch_position.
    destruct (Z.eqb_spec (zlen xs) 0); simpl; [lia|].
    destruct (Z.eqb_spec next (zlen xs + 1)); simpl; [lia|].
    destruct (Z.eqb_spec next 0); simpl; [lia|].
    destruct (Z.leb_spec next (zlen xs - size)); [lia|].
    rewrite u64_small by (unfold is_u64; lia). rewrite IH by lia.
    destruct (lookup_lt_is_Some_2 xs (length xs - S k)) as [y Hy]; [unfold zlen in *; lia|].
    rewrite (drop_S _ _ _ Hy). simpl.
    replace (S (length xs - S k)) with (length xs - k)%nat by (unfold zlen in *; lia).
    unfold zget. destruct (Z.leb_spec 0 (next - 1)); [|lia].
    by replace (Z.to_nat (next - 1)) with (length xs - S k)%nat by (unfold zlen in *; lia); rewrite Hy.
Qed.

(** A reader that has consumed everything published so far receives a burst
    of at most queue-size further messages completely and in order, one per
    TryFetch, and the next TryFetch reports that nothing is left. *)
Theorem burst_delivered size b xs vs w :
  rep size b xs -> zlen vs <= size -> zlen xs + zlen vs < 2 ^ 64 - 1 ->
  let b' := fst (FillAll b vs w) in
  TryFetchN (length vs) b' (zlen xs + 1) =
    ((fun x => Some (Some x)) <$> vs, zlen (xs ++ vs) + 1) /\
  TryFetch b' (zlen (xs ++ vs) + 1) = (None, zlen (xs ++ vs) + 1).
Proof.
  intros H Hv Hlt b'. destruct (FillAll_rep _ _ _ vs w H ltac:(lia)) as [Hr _].
  pose proof (zlen_nonneg xs). pose proof (zlen_nonneg vs).
  assert (zlen (xs ++ vs) < 2 ^ 64 - 1) as Hc by (rewrite zlen_app; lia).
  split.
  - rewrite (TryFetchN_rep _ _ _ _ _ Hr Hc).
    + rewrite length_app. by replace (length xs + length vs - length vs)%nat with (length xs) by lia;
        rewrite drop_app_length.
    + rewrite zlen_app. lia.
    + rewrite zlen_app. unfold zlen. lia.
  - unfold TryFetch. rewrite (Fetch_rep _ _ _ _ Hr Hc) by (pose proof (zlen_nonneg (xs ++ vs)); lia).
    rewrite Z.eqb_refl, orb_true_r. done.
Qed.

End channel_buffer.

(** A concrete channel: queue of two, three writes, reads in between. *)
Definition demo_events : list (event (T:=nat)) :=
  [EvFill 10%nat; EvFetch; EvFill 11%nat; EvFill 12%nat; EvFill 13%nat; EvFetch; EvFetch].

Lemma reader_in_order_witness :
  let s := system_run (W:=unit) tt (system_init 0%nat 2) demo_events in
  sys_got s = [(1, Some 10%nat); (4, Some 13%nat)] /\
  StronglySorted Z.lt (sys_got s).*1.
Proof.
  split; [vm_compute; reflexivity|].
  apply (reader_in_order 0%nat 2 tt demo_events); [lia|lia|vm_compute; reflexivity].
Defined.

Lemma FetchMulti_newest_witness :
  FetchMulti 5 (fst (FillAll (W:=unit) (New 0%nat 2) [7; 8; 9]%nat tt)) 10
  = Some (Some [Some 8; Some 9]%nat).
Proof.
  refine (FetchMulti_newest 2 _ [7; 8; 9]%nat 10 5 _ _ _ _).
  - apply (FillAll_rep 2 (New 0%nat 2) [] [7; 8; 9]%nat tt); [apply rep_New; lia|vm_compute; reflexivity].
  - vm_compute. reflexivity.
  - unfold is_u64. lia.
  - vm_compute. lia.
Defined.

Lemma burst_delivered_witness :
  TryFetchN 2 (fst (FillAll (W:=unit) (New 0%nat 2) [7; 8]%nat tt)) 1
  = ([Some (Some 7); Some (Some 8)]%nat, 3).
Proof.
  refine (proj1 (burst_delivered 2 (New 0%nat 2) [] [7; 8]%nat tt _ _ _)).
  - apply rep_New; lia.
  - vm_compute. discriminate.
  - vm_compute. reflexivity.
Defined.
