(* ===== verification/Fusion.v ===== *)
(** Fusion.v -- src/src/apollo/cyber/data/fusion/all_latest.h and the multi-channel
    DataVisitors of data_visitor.h

    AllLatest installs a fusion callback on the first channel: each message
    arriving there is paired with the latest message of every other channel and
    the tuple goes into a buffer of its own, from which the visitor reads.  The
    specification is a fold over the arriving messages; the theorem says the
    fusion buffer represents exactly the sequence that fold produces. *)

From S2P Require Import Prelude.
From S2P Require Import CacheBuffer ChannelBuffer.
Local Open Scope Z_scope.

(** ** Four channels *)

Section all_latest4.
Context {M0 M1 M2 M3 : Type}.

Definition FusionDataType : Type := option M0 * option M1 * option M2 * option M3.

(** The buffers the callback of channel 0 acts on; messages are shared
    pointers, so [option M]. *)
Record AllLatest := mkAllLatest {
  buffer_m1_ : CacheBuffer (option M1) unit;
  buffer_m2_ : CacheBuffer (option M2) unit;
  buffer_m3_ : CacheBuffer (option M3) unit;
  buffer_fusion_ : CacheBuffer (option FusionDataType) unit
}.

(** [!Latest(m1) || !Latest(m2) || !Latest(m3)] returns; otherwise the tuple is
    filled into the fusion buffer. *)
Definition fusion_callback (m0 : option M0) (a : AllLatest) : AllLatest :=
  match Latest (buffer_m1_ a) with
  | None => a
  | Some m1 =>
    match Latest (buffer_m2_ a) with
    | None => a
    | Some m2 =>
      match Latest (buffer_m3_ a) with
      | None => a
      | Some m3 =>
          let data := (m0, default None m1, default None m2, default None m3) in
          mkAllLatest (buffer_m1_ a) (buffer_m2_ a) (buffer_m3_ a)
            (fst (Fill (buffer_fusion_ a) (Some data) tt))
      end
    end
  end.

(** The DataVisitor: channel 0's own buffer, with the callback installed, and
    the state the callback acts on. *)
Record Visitor := mkVisitor {
  buffer_m0_ : CacheBuffer (option M0) AllLatest;
  rest : AllLatest;
  next_msg_index_ : Z
}.

Definition NewVisitor (q0 q1 q2 q3 : Z) : Visitor :=
  let b0 := New None q0 in
  mkVisitor (SetFusionCallback b0 fusion_callback)
    (mkAllLatest (New None q1) (New None q2) (New None q3) (New None (u64 (capacity_ b0 - 1)))) 0.

(** A message arriving on one of the channels (DataDispatcher::Dispatch fills
    every buffer registered for the channel). *)
Inductive arrival := A0 (m : option M0) | A1 (m : option M1) | A2 (m : option M2) | A3 (m : option M3).

Definition arrive (v : Visitor) (x : arrival) : Visitor :=
  match x with
  | A0 m => let '(b, r) := Fill (buffer_m0_ v) m (rest v) in mkVisitor b r (next_msg_index_ v)
  | A1 m => mkVisitor (buffer_m0_ v)
      (mkAllLatest (fst (Fill (buffer_m1_ (rest v)) m tt)) (buffer_m2_ (rest v))
         (buffer_m3_ (rest v)) (buffer_fusion_ (rest v))) (next_msg_index_ v)
  | A2 m => mkVisitor (buffer_m0_ v)
      (mkAllLatest (buffer_m1_ (rest v)) (fst (Fill (buffer_m2_ (rest v)) m tt))
         (buffer_m3_ (rest v)) (buffer_fusion_ (rest v))) (next_msg_index_ v)
  | A3 m => mkVisitor (buffer_m0_ v)
      (mkAllLatest (buffer_m1_ (rest v)) (buffer_m2_ (rest v))
         (fst (Fill (buffer_m3_ (rest v)) m tt)) (buffer_fusion_ (rest v))) (next_msg_index_ v)
  end.

(** Fusion and TryFetch of the visitor.  [Some (Some data)]: true with the four
    messages; a null or out-of-range tuple would be dereferenced, [Some None]. *)
Definition Fusion (a : AllLatest) (index : Z) : option (Z * option FusionDataType) :=
  match Fetch (buffer_fusion_ a) index with
  | Some (index', m) => Some (index', default None m)
  | None => None
  end.

Definition TryFetch4 (v : Visitor) : option (option FusionDataType) * Visitor :=
  match Fusion (rest v) (next_msg_index_ v) with
  | Some (index, d) => (Some d, mkVisitor (buffer_m0_ v) (rest v) (u64 (index + 1)))
  | None => (None, v)
  end.

(** ** Specification *)

(** The latest message of every side channel and the tuples fused so far. *)
Record fusion_spec := mkSpec {
  spec_m1 : list (option M1); spec_m2 : list (option M2); spec_m3 : list (option M3);
  spec_out : list (option FusionDataType)
}.

Definition spec_step (s : fusion_spec) (x : arrival) : fusion_spec :=
  match x with
  | A0 m =>
      match last (spec_m1 s), last (spec_m2 s), last (spec_m3 s) with
      | Some m1, Some m2, Some m3 =>
          mkSpec (spec_m1 s) (spec_m2 s) (spec_m3 s) (spec_out s ++ [Some (m, m1, m2, m3)])
      | _, _, _ => s
      end
  | A1 m => mkSpec (spec_m1 s ++ [m]) (spec_m2 s) (spec_m3 s) (spec_out s)
  | A2 m => mkSpec (spec_m1 s) (spec_m2 s ++ [m]) (spec_m3 s) (spec_out s)
  | A3 m => mkSpec (spec_m1 s) (spec_m2 s) (spec_m3 s ++ [m]) (spec_out s)
  end.

Definition spec_run (xs : list arrival) : fusion_spec := foldl spec_step (mkSpec [] [] [] []) xs.

Record fusion_rep (q0 q1 q2 q3 : Z) (v : Visitor) (s : fusion_spec) : Prop := mkFusionRep {
  fr_callback : fusion_callback_ (buffer_m0_ v) = Some fusion_callback;
  fr_m1 : rep q1 (buffer_m1_ (rest v)) (spec_m1 s);
  fr_m2 : rep q2 (buffer_m2_ (rest v)) (spec_m2 s);
  fr_m3 : rep q3 (buffer_m3_ (rest v)) (spec_m3 s);
  fr_out : rep q0 (buffer_fusion_ (rest v)) (spec_out s)
}.

(** The length of each specification list grows by at most one per arrival. *)
Definition spec_small (s : fusion_spec) (n : Z) : Prop :=
  zlen (spec_m1 s) <= n /\ zlen (spec_m2 s) <= n /\ zlen (spec_m3 s) <= n /\ zlen (spec_out s) <= n.

Lemma Latest_last {T W} q (b : CacheBuffer T W) xs : rep q b xs -> Latest b = Some <$> last xs.
Proof.
  intros H. destruct xs as [|y ys _] using rev_ind.
  - by apply (Latest_rep_nil q).
  - rewrite last_snoc. by apply (Latest_rep q b ys).
Qed.

Lemma spec_step_small s x n : spec_small s n -> spec_small (spec_step s x) (n + 1).
Proof.
  unfold spec_small, zlen. intros (H1 & H2 & H3 & H4).
  destruct x; simpl; [repeat case_match|..]; simpl; rewrite ?length_app; simpl; lia.
Qed.

Lemma fusion_rep_step q0 q1 q2 q3 v s x n :
  fusion_rep q0 q1 q2 q3 v s -> spec_small s n -> n + 1 < 2 ^ 64 ->
  fusion_rep q0 q1 q2 q3 (arrive v x) (spec_step s x).
Proof.
  intros [] (H1 & H2 & H3 & H4) Hn. destruct x as [m|m|m|m]; simpl.
  - unfold Fill. rewrite fr_callback0. simpl. unfold fusion_callback.
    rewrite (Latest_last _ _ _ fr_m4), (Latest_last _ _ _ fr_m5), (Latest_last _ _ _ fr_m6).
    destruct (last (spec_m1 s)); simpl; [|by constructor].
    destruct (last (spec_m2 s)); simpl; [|by constructor].
    destruct (last (spec_m3 s)); simpl; [|by constructor].
    constructor; simpl; try done. apply Fill_rep; [done|lia].
  - constructor; simpl; try done. apply Fill_rep; [done|lia].
  - constructor; simpl; try done. apply Fill_rep; [done|lia].
  - constructor; simpl; try done. apply Fill_rep; [done|lia].
Qed.

Lemma fusion_rep_run q0 q1 q2 q3 xs v s n :
  fusion_rep q0 q1 q2 q3 v s -> spec_small s n -> n + zlen xs < 2 ^ 64 ->
  fusion_rep q0 q1 q2 q3 (foldl arrive v xs) (foldl spec_step s xs).
Proof.
  revert v s n. induction xs as [|x xs IH]; intros v s n H Hs Hn; [done|].
  assert (zlen (x :: xs) = 1 + zlen xs) by (unfold zlen; simpl; lia).
  pose proof (zlen_nonneg xs). simpl.
  apply (IH _ _ (n + 1)); [eapply fusion_rep_step; [done|done|lia]|by apply spec_step_small|lia].
Qed.

(** After any sequence of arrivals on the four channels, the fusion buffer
    represents exactly the tuples (m0, latest m1, latest m2, latest m3) of the
    channel-0 messages that arrived when every other channel had data, in order;
    channel 0's own buffer is never written. *)
Theorem fusion_refines_spec q0 q1 q2 q3 xs :
  0 <= q0 -> q0 + 1 < 2 ^ 64 -> 0 <= q1 -> q1 + 1 < 2 ^ 64 ->
  0 <= q2 -> q2 + 1 < 2 ^ 64 -> 0 <= q3 -> q3 + 1 < 2 ^ 64 -> zlen xs < 2 ^ 64 ->
  let v := foldl arrive (NewVisitor q0 q1 q2 q3) xs in
  rep q0 (buffer_fusion_ (rest v)) (spec_out (spec_run xs)) /\ tail_ (buffer_m0_ v) = 0.
Proof.
  intros ? ? ? ? ? ? ? ? Hx v. split.
  - apply (fusion_rep_run q0 q1 q2 q3 xs (NewVisitor q0 q1 q2 q3) _ 0).
    + constructor; simpl; try (by apply rep_New); [done|].
      wrap64. replace (q0 + 1 - 1) with q0 by lia. by apply rep_New.
    + unfold spec_small, zlen. simpl. lia.
    + lia.
  - unfold v. clear Hx v. assert (forall w : Visitor,
      fusion_callback_ (buffer_m0_ w) = Some fusion_callback -> tail_ (buffer_m0_ w) = 0 ->
      tail_ (buffer_m0_ (foldl arrive w xs)) = 0) as Hgen; [|by apply Hgen].
    induction xs as [|x xs IH]; intros w Hcb Ht; [done|]. simpl. apply IH.
    + destruct x; simpl; try done. unfold Fill. rewrite Hcb. done.
    + destruct x; simpl; try done. unfold Fill. rewrite Hcb. done.
Qed.

End all_latest4.

Arguments AllLatest : clear implicits.
Arguments Visitor : clear implicits.
Arguments arrival : clear implicits.

Definition demo_arrivals : list (arrival nat nat nat nat) :=
  [A0 (Some 1%nat); A1 (Some 2%nat); A2 (Some 3%nat); A3 (Some 4%nat); A0 (Some 5%nat);
   A1 (Some 6%nat); A0 (Some 7%nat)].

Lemma fusion_refines_spec_witness :
  rep 1 (buffer_fusion_ (rest (foldl arrive (NewVisitor 1 1 1 1) demo_arrivals)))
    [Some (Some 5, Some 2, Some 3, Some 4)%nat; Some (Some 7, Some 6, Some 3, Some 4)%nat].
Proof.
  refine (proj1 (fusion_refines_spec 1 1 1 1 demo_arrivals _ _ _ _ _ _ _ _ _)); try lia.
  vm_compute. reflexivity.
Defined.
