(* ===== verification/BoundedQueue.v ===== *)
(** BoundedQueue.v -- src/src/apollo/cyber/base/bounded_queue.h

    The lock-free multi-producer multi-consumer ring.  First the operations run
    by one thread alone, as functions; then the same code as a step relation on
    any number of threads, one rule per atomic access (the atomics are
    acquire/release, so an interleaving of their accesses), in which every weak
    compare-exchange may also fail spuriously.  Dequeue copies a slot before its
    compare-exchange; the copy is one step here, while a producer that reuses the slot
    could tear it in the source.  The compare-exchange then fails and the copy is made
    anew, so that a torn copy is not returned. *)

From S2P Require Import Prelude.
Local Open Scope Z_scope.

Section bounded_queue.
Context {T : Type}.

Record Queue := mkQueue {
  head_ : Z;
  tail_ : Z;
  commit_ : Z;
  pool_size_ : Z;
  pool_ : list T
}.

(** Init(size): [dflt] is T().  (An allocation failure returns false in the
    code and leaves no queue to use.) *)
Definition Init (dflt : T) (size : Z) : Queue :=
  let pool_size := u64 (size + 2) in
  mkQueue 0 1 1 pool_size (replicate (Z.to_nat pool_size) dflt).

Definition GetIndex (q : Queue) (num : Z) : Z :=
  u64 (num - u64 (num / pool_size_ q * pool_size_ q)).

Definition Size (q : Queue) : Z := u64 (u64 (tail_ q - head_ q) - 1).
Definition Empty (q : Queue) : bool := Size q =? 0.

(** Enqueue by a thread that is not interfered with: the compare-exchanges
    succeed at once.  [None] is false. *)
Definition Enqueue (q : Queue) (element : T) : option Queue :=
  let old_tail := tail_ q in
  let new_tail := u64 (old_tail + 1) in
  if GetIndex q new_tail =? GetIndex q (head_ q) then None
  else Some (mkQueue (head_ q) new_tail new_tail (pool_size_ q)
               (zset (pool_ q) (GetIndex q old_tail) element)).

Definition Dequeue (q : Queue) : option (option T * Queue) :=
  let old_head := head_ q in
  let new_head := u64 (old_head + 1) in
  if new_head =? commit_ q then None
  else Some (zget (pool_ q) (GetIndex q new_head),
             mkQueue new_head (tail_ q) (commit_ q) (pool_size_ q) (pool_ q)).

(** The waiting variants: [waits] is the sequence of answers of
    wait_strategy_->EmptyWait(), [break_all_wait] the flag at every test, and
    [env] what other threads do to the queue while this one waits. *)
Fixpoint WaitEnqueue (break_all_wait : bool) (waits : list bool) (env : Queue -> Queue)
    (q : Queue) (element : T) : bool * Queue :=
  if break_all_wait then (false, q)
  else match Enqueue q element with
  | Some q' => (true, q')
  | None =>
      match waits with
      | true :: waits => WaitEnqueue break_all_wait waits env (env q) element
      | _ => (false, q)
      end
  end.

Fixpoint WaitDequeue (break_all_wait : bool) (waits : list bool) (env : Queue -> Queue)
    (q : Queue) : option (option T) * Queue :=
  if break_all_wait then (None, q)
  else match Dequeue q with
  | Some (x, q') => (Some x, q')
  | None =>
      match waits with
      | true :: waits => WaitDequeue break_all_wait waits env (env q)
      | _ => (None, q)
      end
  end.

Lemma GetIndex_mod q num : 0 < pool_size_ q -> is_u64 num -> GetIndex q num = num mod pool_size_ q.
Proof.
  intros Hp [H0 H1]. unfold GetIndex.
  pose proof (Z.mod_pos_bound num (pool_size_ q) Hp).
  pose proof (Z.mod_le num (pool_size_ q) H0 Hp).
  assert (num / pool_size_ q * pool_size_ q = num - num mod pool_size_ q) as ->.
  { pose proof (Z.div_mod num (pool_size_ q)). lia. }
  wrap64. lia.
Qed.

(** ** Sequential behaviour: a FIFO of at most [size] elements *)

(** [fifo size q xs]: the quiescent queue holds [xs], oldest first. *)
Record fifo (size : Z) (q : Queue) (xs : list T) : Prop := mkFifo {
  ff_size : 0 <= size;
  ff_pool_size : pool_size_ q = size + 2;
  ff_pool_size64 : size + 2 < 2 ^ 64;
  ff_pool : zlen (pool_ q) = pool_size_ q;
  ff_head : 0 <= head_ q;
  ff_tail : tail_ q = head_ q + zlen xs + 1;
  ff_tail64 : tail_ q < 2 ^ 64;
  ff_commit : commit_ q = tail_ q;
  ff_bound : zlen xs <= size;
  ff_slot : forall p, head_ q < p < tail_ q ->
    zget (pool_ q) (p mod pool_size_ q) = zget xs (p - head_ q - 1)
}.

Lemma fifo_Init dflt size : 0 <= size -> size + 2 < 2 ^ 64 -> fifo size (Init dflt size) [].
Proof.
  intros H1 H2. unfold Init. wrap64. constructor; simpl; try done; try lia.
  unfold zlen. rewrite length_replicate. lia.
Qed.

Lemma fifo_full size q xs :
  fifo size q xs -> tail_ q < 2 ^ 64 - 1 ->
  (GetIndex q (u64 (tail_ q + 1)) =? GetIndex q (head_ q)) = (zlen xs =? size).
Proof.
  intros H Ht. destruct H. pose proof (zlen_nonneg xs).
  wrap64. rewrite !GetIndex_mod by (unfold is_u64; lia). rewrite ff_pool_size0.
  destruct (Z.eqb_spec (zlen xs) size) as [E|E].
  - apply Z.eqb_eq. replace (tail_ q + 1) with (head_ q + (size + 2)) by lia.
    apply mod_add_self. lia.
  - apply Z.eqb_neq. apply mod_ne_near; lia.
Qed.

(** With no interference Enqueue appends the element unless the queue
    already holds [size] elements, in which case it returns false. *)
Theorem Enqueue_fifo size q xs x :
  fifo size q xs -> tail_ q < 2 ^ 64 - 1 ->
  if zlen xs <? size then exists q', Enqueue q x = Some q' /\ fifo size q' (xs ++ [x])
  else Enqueue q x = None.
Proof.
  intros H Ht. unfold Enqueue. rewrite (fifo_full _ _ _ H Ht).
  destruct H. pose proof (zlen_nonneg xs).
  destruct (Z.ltb_spec (zlen xs) size); destruct (Z.eqb_spec (zlen xs) size); try lia; [|done].
  eexists. split; [done|]. rewrite GetIndex_mod by (unfold is_u64; lia). wrap64.
  pose proof (Z.mod_pos_bound (tail_ q) (pool_size_ q)).
  constructor; simpl; rewrite ?zlen_zset, ?zlen_app; change (zlen [x]) with 1; try lia; try done.
  intros p Hp. destruct (decide (p = tail_ q)) as [->|Hne].
  - rewrite zget_zset_eq by lia. rewrite zget_app_r by lia.
    by replace (tail_ q - head_ q - 1 - zlen xs) with 0 by lia.
  - rewrite zget_zset_ne by (apply mod_ne_near; lia).
    rewrite ff_slot0 by lia. by rewrite zget_app_l by lia.
Qed.

(** With no interference Dequeue returns the oldest element, or false on
    an empty queue. *)
Theorem Dequeue_fifo size q xs :
  fifo size q xs ->
  match xs with
  | [] => Dequeue q = None
  | x :: xs' => exists q', Dequeue q = Some (Some x, q') /\ fifo size q' xs'
  end.
Proof.
  intros H. destruct H. pose proof (zlen_nonneg xs). unfold Dequeue.
  rewrite (u64_small (head_ q + 1)) by (unfold is_u64; lia).
  rewrite ff_commit0, ff_tail0. destruct xs as [|x xs].
  - change (zlen []) with 0. destruct (Z.eqb_spec (head_ q + 1) (head_ q + 0 + 1)); [done|lia].
  - assert (zlen (x :: xs) = 1 + zlen xs) as Hl by (unfold zlen; simpl; lia).
    pose proof (zlen_nonneg xs). rewrite Hl in *.
    destruct (Z.eqb_spec (head_ q + 1) (head_ q + (1 + zlen xs) + 1)); [lia|].
    eexists. rewrite GetIndex_mod by (unfold is_u64; lia). rewrite ff_slot0 by lia.
    replace (head_ q + 1 - head_ q - 1) with 0 by lia. split; [done|].
    constructor; simpl; try lia. intros p Hp. rewrite ff_slot0 by lia.
    replace (p - head_ q - 1) with (Z.succ (p - (head_ q + 1) - 1)) by lia.
    unfold zget. destruct (Z.leb_spec 0 (p - (head_ q + 1) - 1)); [|lia].
    destruct (Z.leb_spec 0 (Z.succ (p - (head_ q + 1) - 1))); [|lia].
    by rewrite Z2Nat.inj_succ by lia.
Qed.

Lemma Size_fifo size q xs : fifo size q xs -> Size q = zlen xs.
Proof. intros []. pose proof (zlen_nonneg xs). unfold Size. wrap64. lia. Qed.

(** ** Any number of threads *)

(** The program points of Enqueue and Dequeue between two atomic accesses, with
    the local variables live there. *)
Inductive pc :=
| Idle
| EnqLoop (element : T) (old_tail : Z)          (* about to test for full *)
| EnqCas (element : T) (old_tail new_tail : Z)  (* about to CAS tail_ *)
| EnqWrite (element : T) (old_tail new_tail : Z)   (* owns the slot *)
| EnqCommit (element : T) (old_tail new_tail : Z)  (* about to CAS commit_ *)
| DeqLoop (old_head : Z)                        (* about to test for empty *)
| DeqRead (old_head new_head : Z)               (* about to read the slot *)
| DeqCas (old_head new_head : Z) (v : option T). (* about to CAS head_ *)

(** The shared queue, the threads, and two ghost sequences: the elements in the
    order in which producers took their slots, and the elements consumers
    removed. *)
Record conf := mkConf {
  cq : Queue;
  threads : list pc;
  taken : list T;
  removed : list (option T)
}.

Definition set_thread (c : conf) (i : nat) (p : pc) : conf :=
  mkConf (cq c) (<[i := p]> (threads c)) (taken c) (removed c).
Definition with_queue (c : conf) (q : Queue) : conf :=
  mkConf q (threads c) (taken c) (removed c).

Inductive step (c : conf) : conf -> Prop :=
| step_enq_start i e :
    threads c !! i = Some Idle ->
    step c (set_thread c i (EnqLoop e (tail_ (cq c))))
| step_enq_full i e t :
    threads c !! i = Some (EnqLoop e t) ->
    GetIndex (cq c) (u64 (t + 1)) = GetIndex (cq c) (head_ (cq c)) ->
    step c (set_thread c i Idle)
| step_enq_room i e t :
    threads c !! i = Some (EnqLoop e t) ->
    GetIndex (cq c) (u64 (t + 1)) <> GetIndex (cq c) (head_ (cq c)) ->
    step c (set_thread c i (EnqCas e t (u64 (t + 1))))
| step_enq_cas_ok i e t nt :
    threads c !! i = Some (EnqCas e t nt) -> tail_ (cq c) = t ->
    step c (set_thread
      (mkConf (mkQueue (head_ (cq c)) nt (commit_ (cq c)) (pool_size_ (cq c)) (pool_ (cq c)))
         (threads c) (taken c ++ [e]) (removed c)) i (EnqWrite e t nt))
| step_enq_cas_fail i e t nt :
    threads c !! i = Some (EnqCas e t nt) ->
    step c (set_thread c i (EnqLoop e (tail_ (cq c))))
| step_enq_write i e t nt :
    threads c !! i = Some (EnqWrite e t nt) ->
    step c (set_thread
      (with_queue c (mkQueue (head_ (cq c)) (tail_ (cq c)) (commit_ (cq c)) (pool_size_ (cq c))
         (zset (pool_ (cq c)) (GetIndex (cq c) t) e))) i (EnqCommit e t nt))
| step_enq_commit_ok i e t nt :
    threads c !! i = Some (EnqCommit e t nt) -> commit_ (cq c) = t ->
    step c (set_thread
      (with_queue c (mkQueue (head_ (cq c)) (tail_ (cq c)) nt (pool_size_ (cq c)) (pool_ (cq c))))
      i Idle)
| step_enq_commit_fail i e t nt :
    threads c !! i = Some (EnqCommit e t nt) -> step c c
| step_deq_start i :
    threads c !! i = Some Idle ->
    step c (set_thread c i (DeqLoop (head_ (cq c))))
| step_deq_empty i h :
    threads c !! i = Some (DeqLoop h) -> u64 (h + 1) = commit_ (cq c) ->
    step c (set_thread c i Idle)
| step_deq_some i h :
    threads c !! i = Some (DeqLoop h) -> u64 (h + 1) <> commit_ (cq c) ->
    step c (set_thread c i (DeqRead h (u64 (h + 1))))
| step_deq_read i h nh :
    threads c !! i = Some (DeqRead h nh) ->
    step c (set_thread c i (DeqCas h nh (zget (pool_ (cq c)) (GetIndex (cq c) nh))))
| step_deq_cas_ok i h nh v :
    threads c !! i = Some (DeqCas h nh v) -> head_ (cq c) = h ->
    step c (set_thread
      (mkConf (mkQueue nh (tail_ (cq c)) (commit_ (cq c)) (pool_size_ (cq c)) (pool_ (cq c)))
         (threads c) (taken c) (removed c ++ [v])) i Idle)
| step_deq_cas_fail i h nh v :
    threads c !! i = Some (DeqCas h nh v) ->
    step c (set_thread c i (DeqLoop (head_ (cq c)))).

(** The slot a producer owns between its two compare-exchanges. *)
Definition owned (p : pc) : option Z :=
  match p with
  | EnqWrite _ t _ | EnqCommit _ t _ => Some t
  | _ => None
  end.

(** What each program point knows. *)
Definition pc_ok (c : conf) (p : pc) : Prop :=
  let q := cq c in
  match p with
  | Idle => True
  | EnqLoop _ t => 1 <= t <= tail_ q
  | EnqCas _ t nt => 1 <= t <= tail_ q /\ nt = t + 1 /\ (t = tail_ q -> t - head_ q <= pool_size_ q - 2)
  | EnqWrite e t nt => commit_ q <= t < tail_ q /\ nt = t + 1 /\ zget (taken c) (t - 1) = Some e
  | EnqCommit e t nt => commit_ q <= t < tail_ q /\ nt = t + 1 /\ zget (taken c) (t - 1) = Some e /\
                        zget (pool_ q) (t mod pool_size_ q) = Some e
  | DeqLoop h => 0 <= h <= head_ q
  | DeqRead h nh => 0 <= h <= head_ q /\ nh = h + 1 /\ (h = head_ q -> h + 1 < commit_ q)
  | DeqCas h nh v => 0 <= h <= head_ q /\ nh = h + 1 /\
                     (h = head_ q -> h + 1 < commit_ q /\ v = zget (taken c) h)
  end.

Record inv (size : Z) (c : conf) : Prop := mkInv {
  iv_size : 0 <= size;
  iv_ps : pool_size_ (cq c) = size + 2;
  iv_ps64 : size + 2 < 2 ^ 64;
  iv_pool : zlen (pool_ (cq c)) = size + 2;
  iv_head : 0 <= head_ (cq c) < commit_ (cq c);
  iv_commit : commit_ (cq c) <= tail_ (cq c);
  iv_room : tail_ (cq c) - head_ (cq c) <= size + 1;
  iv_taken : zlen (taken c) + 1 = tail_ (cq c);
  iv_removed : removed c = Some <$> take (Z.to_nat (head_ (cq c))) (taken c);
  iv_slot : forall p, head_ (cq c) < p < commit_ (cq c) ->
    zget (pool_ (cq c)) (p mod (size + 2)) = zget (taken c) (p - 1);
  iv_threads : forall i p, threads c !! i = Some p -> pc_ok c p;
  iv_owned : forall i j p p' t, i <> j -> threads c !! i = Some p -> threads c !! j = Some p' ->
    owned p = Some t -> owned p' <> Some t
}.

(** The queue has not yet handed out 2^64 slots. *)
Definition in_range (c : conf) : Prop := tail_ (cq c) < 2 ^ 64 - 1.
Definition bounded_step (c c' : conf) : Prop := step c c' /\ in_range c.

(** Threads after an update of thread [i]. *)
Lemma threads_update_ok (c c' : conf) i p0 p :
  threads c !! i = Some p0 -> threads c' = <[i := p]> (threads c) -> pc_ok c' p ->
  (forall j p', j <> i -> threads c !! j = Some p' -> pc_ok c' p') ->
  forall j p', threads c' !! j = Some p' -> pc_ok c' p'.
Proof.
  intros Hi Ht Hp Ho j p' Hj. rewrite Ht in Hj. destruct (decide (i = j)) as [<-|Hne].
  - rewrite list_lookup_insert_eq in Hj by (by eapply lookup_lt_Some). by simplify_eq.
  - rewrite list_lookup_insert_ne in Hj by done. by eapply Ho.
Qed.

Ltac upd_threads Hi :=
  match goal with
  | |- forall (j : nat) (p' : pc), _ -> pc_ok ?c' p' =>
      eapply (threads_update_ok _ c' _ _ _ Hi eq_refl)
  end.

Definition owned_distinct (ts : list pc) : Prop :=
  forall i j p p' t, i <> j -> ts !! i = Some p -> ts !! j = Some p' ->
    owned p = Some t -> owned p' <> Some t.

Lemma owned_update (ts : list pc) i p :
  owned_distinct ts ->
  (forall t j p', owned p = Some t -> j <> i -> ts !! j = Some p' -> owned p' <> Some t) ->
  owned_distinct (<[i := p]> ts).
Proof.
  intros Hd Hn a b pa pb t Hab Ha Hb Ho Ho'.
  apply list_lookup_insert_Some in Ha as [(-> & <- & _)|[? Ha]];
    apply list_lookup_insert_Some in Hb as [(-> & <- & _)|[? Hb]]; try done.
  - by eapply (Hn t b pb).
  - by eapply (Hn t a pa).
  - by eapply (Hd a b).
Qed.

Lemma owned_same (ts : list pc) i p0 p :
  owned_distinct ts -> ts !! i = Some p0 -> owned p = None \/ owned p = owned p0 ->
  owned_distinct (<[i := p]> ts).
Proof.
  intros Hd Hi Ho. apply owned_update; [done|]. intros t j p' Ht Hne Hj Ht'.
  destruct Ho as [Ho|Ho]; [congruence|]. rewrite Ho in Ht. by eapply (Hd i j p0 p').
Qed.

(** A step that only moves one thread. *)
Lemma inv_set_thread size (c : conf) i p0 p :
  inv size c -> threads c !! i = Some p0 -> pc_ok c p -> owned p = None \/ owned p = owned p0 ->
  inv size (set_thread c i p).
Proof.
  intros [] Hi Hp Ho. constructor; simpl; try done.
  - apply (threads_update_ok c (set_thread c i p) i p0 p); try done.
    intros j p' _ Hj. by apply (iv_threads0 j).
  - by apply (owned_same _ _ p0).
Qed.

Lemma inv_tail_cas size (c : conf) i e t nt :
  inv size c -> in_range c -> threads c !! i = Some (EnqCas e t nt) -> tail_ (cq c) = t ->
  inv size (set_thread
    (mkConf (mkQueue (head_ (cq c)) nt (commit_ (cq c)) (pool_size_ (cq c)) (pool_ (cq c)))
       (threads c) (taken c ++ [e]) (removed c)) i (EnqWrite e t nt)).
Proof.
  intros [] Hr Hi Ht. destruct (iv_threads0 _ _ Hi) as (H1 & -> & H3).
  specialize (H3 (eq_sym Ht)). pose proof (zlen_nonneg (taken c)).
  assert (forall k, k <= zlen (taken c) - 1 -> zget (taken c ++ [e]) k = zget (taken c) k) as Hpre
    by (intros; apply zget_app_l; lia).
  constructor; simpl; try done; try lia.
  - rewrite zlen_app. change (zlen [e]) with 1. lia.
  - rewrite iv_removed0, take_app_le; [done|]. unfold zlen in *. lia.
  - intros p Hp. rewrite Hpre by lia. apply iv_slot0. lia.
  - upd_threads Hi.
    + simpl. repeat split; try lia. rewrite zget_app_r by lia.
      by replace (t - 1 - zlen (taken c)) with 0 by lia.
    + intros j p' Hne Hj. pose proof (iv_threads0 _ _ Hj) as Hok.
      destruct p'; simpl in *; deex; try (repeat split; first [done|lia|idtac]).
      * rewrite Hpre by lia. done.
      * rewrite Hpre by lia. done.
      * match goal with Hd : ?h = head_ _ -> _ |- _ => destruct Hd as [? ->]; [done|] end.
        rewrite Hpre by lia. done.
  - apply owned_update; [exact iv_owned0|]. intros t' j p' Hown Hne Hj Ho'.
    simpl in Hown. simplify_eq. pose proof (iv_threads0 _ _ Hj) as Hok.
    destruct p'; simpl in *; simplify_eq; lia.
Qed.

Lemma inv_write size (c : conf) i e t nt :
  inv size c -> in_range c -> threads c !! i = Some (EnqWrite e t nt) ->
  inv size (set_thread
    (with_queue c (mkQueue (head_ (cq c)) (tail_ (cq c)) (commit_ (cq c)) (pool_size_ (cq c))
       (zset (pool_ (cq c)) (GetIndex (cq c) t) e))) i (EnqCommit e t nt)).
Proof.
  intros [] Hr Hi. unfold in_range in Hr. pose proof (iv_threads0 _ _ Hi) as (H1 & -> & H3).
  rewrite GetIndex_mod by (unfold is_u64; lia).
  pose proof (Z.mod_pos_bound t (size + 2)).
  constructor; simpl; rewrite ?zlen_zset; try done; try lia.
  - intros p Hp. rewrite iv_ps0. rewrite zget_zset_ne by (apply mod_ne_near; lia).
    by apply iv_slot0.
  - upd_threads Hi.
    + simpl. repeat split; try lia; [done|]. rewrite iv_ps0. apply zget_zset_eq. lia.
    + intros j p' Hne Hj. pose proof (iv_threads0 _ _ Hj) as Hok.
      destruct p'; simpl in *; deex; try (repeat split; first [done|lia|idtac]);
        try (match goal with Hd : ?h = head_ _ -> _ |- _ => by apply Hd end).
      assert (t <> old_tail) by (intros <-; by eapply (iv_owned0 i j)).
      rewrite iv_ps0 in *. rewrite zget_zset_ne by (apply mod_ne_near; lia). done.
  - eapply owned_same; [exact iv_owned0|done|]. by right.
Qed.

Lemma inv_commit size (c : conf) i e t nt :
  inv size c -> threads c !! i = Some (EnqCommit e t nt) -> commit_ (cq c) = t ->
  inv size (set_thread
    (with_queue c (mkQueue (head_ (cq c)) (tail_ (cq c)) nt (pool_size_ (cq c)) (pool_ (cq c))))
    i Idle).
Proof.
  intros [] Hi Ht. pose proof (iv_threads0 _ _ Hi) as (H1 & -> & H3 & H4).
  constructor; simpl; try done; try lia.
  - intros p Hp. destruct (decide (p = t)) as [->|]; [|apply iv_slot0; lia].
    by rewrite <- iv_ps0, H3.
  - upd_threads Hi; [done|].
    intros j p' Hne Hj. pose proof (iv_threads0 _ _ Hj) as Hok.
    assert (owned p' <> Some t) by (eapply (iv_owned0 i j); eauto; done).
    destruct p'; simpl in *; deex; try (repeat split; first [done|lia|idtac]).
    + assert (old_tail <> t) by congruence. lia.
    + assert (old_tail <> t) by congruence. lia.
    + match goal with Hd : ?h = head_ _ -> _ |- _ => by apply Hd end.
  - eapply owned_same; [exact iv_owned0|done|]. by left.
Qed.

Lemma inv_head_cas size (c : conf) i h nh v :
  inv size c -> in_range c -> threads c !! i = Some (DeqCas h nh v) -> head_ (cq c) = h ->
  inv size (set_thread
    (mkConf (mkQueue nh (tail_ (cq c)) (commit_ (cq c)) (pool_size_ (cq c)) (pool_ (cq c)))
       (threads c) (taken c) (removed c ++ [v])) i Idle).
Proof.
  intros [] Hr Hi Hh. pose proof (iv_threads0 _ _ Hi) as (H1 & -> & H3).
  destruct (H3 (eq_sym Hh)) as [H4 ->]. subst h.
  constructor; simpl; try done; try lia.
  - destruct (proj1 (zget_Some (taken c) (head_ (cq c))) ltac:(lia)) as [x Hx].
    rewrite iv_removed0, Hx. unfold zget in Hx.
    destruct (Z.leb_spec 0 (head_ (cq c))); [|lia].
    replace (Z.to_nat (head_ (cq c) + 1)) with (S (Z.to_nat (head_ (cq c)))) by lia.
    rewrite (take_S_r _ _ _ Hx), fmap_app. done.
  - intros p Hp. apply iv_slot0. lia.
  - upd_threads Hi; [done|].
    intros j p' Hne Hj. pose proof (iv_threads0 _ _ Hj) as Hok.
    destruct p'; simpl in *; deex; try (repeat split; first [done|lia|idtac]).
  - eapply owned_same; [exact iv_owned0|done|]. by left.
Qed.

Lemma bq_inv_step size (c c' : conf) : inv size c -> bounded_step c c' -> inv size c'.
Proof.
  intros H [Hs Hr]. assert (H' := H). destruct H'.
  assert (forall i p, threads c !! i = Some p -> pc_ok c p) as Hth by done.
  unfold in_range in Hr.
  destruct Hs as [i e Hi|i e t Hi Hx|i e t Hi Hx|i e t nt Hi Hx|i e t nt Hi|i e t nt Hi
    |i e t nt Hi Hx|i e t nt Hi|i Hi|i h Hi Hx|i h Hi Hx|i h nh Hi|i h nh v Hi Hx|i h nh v Hi];
    pose proof (Hth _ _ Hi) as Hok; simpl in Hok.
  - eapply inv_set_thread; [done|done| |by left]. simpl. lia.
  - eapply inv_set_thread; [done|done|done|by left].
  - eapply inv_set_thread; [done|done| |by left]. simpl.
    rewrite (u64_small (t + 1)) in * by (unfold is_u64; lia).
    rewrite !GetIndex_mod in Hx by (unfold is_u64; lia). repeat split; try lia.
    intros ->. rewrite iv_ps0 in *.
    destruct (decide (tail_ (cq c) - head_ (cq c) = size + 1)) as [E|]; [|lia].
    destruct Hx. replace (tail_ (cq c) + 1) with (head_ (cq c) + (size + 2)) by lia.
    apply mod_add_self. lia.
  - by eapply inv_tail_cas.
  - eapply inv_set_thread; [done|done| |by left]. simpl. lia.
  - by eapply inv_write.
  - by eapply inv_commit.
  - done.
  - eapply inv_set_thread; [done|done| |by left]. simpl. lia.
  - eapply inv_set_thread; [done|done|done|by left].
  - eapply inv_set_thread; [done|done| |by left]. simpl.
    rewrite (u64_small (h + 1)) in * by (unfold is_u64; lia). repeat split; try lia.
  - eapply inv_set_thread; [done|done| |by left]. simpl.
    destruct Hok as (Hh & -> & Hc). repeat split; try lia.
    rewrite GetIndex_mod by (unfold is_u64; lia). rewrite iv_ps0.
    rewrite iv_slot0 by lia. f_equal. lia.
  - by eapply inv_head_cas.
  - eapply inv_set_thread; [done|done| |by left]. simpl. lia.
Qed.

Definition conf_init (dflt : T) (size : Z) (n : nat) : conf :=
  mkConf (Init dflt size) (replicate n Idle) [] [].

Lemma bq_inv_init dflt size n : 0 <= size -> size + 2 < 2 ^ 64 -> inv size (conf_init dflt size n).
Proof.
  intros H1 H2. unfold conf_init, Init. wrap64. constructor; simpl; try done; try lia.
  - unfold zlen. rewrite length_replicate. lia.
  - intros i p Hi. by apply lookup_replicate in Hi as [-> _].
  - intros i j p p' t _ Hi Hj. apply lookup_replicate in Hi as [-> _]. done.
Qed.

Lemma bq_inv_reachable size c c' : inv size c -> rtc bounded_step c c' -> inv size c'.
Proof. intros Hi Hs. induction Hs; [done|]. eauto using bq_inv_step. Qed.

(** C2. However many threads run Enqueue and Dequeue, and however their atomic
    accesses interleave, the elements handed to consumers are a prefix of the
    elements in the order in which producers obtained their slots (FIFO, no
    loss, no duplication, no foreign value), and at most [size] elements are in
    the queue or being written at any time. *)
Theorem queue_linearizable dflt size n c :
  0 <= size -> size + 2 < 2 ^ 64 -> rtc bounded_step (conf_init dflt size n) c ->
  removed c = Some <$> take (length (removed c)) (taken c) /\
  0 <= zlen (taken c) - zlen (removed c) <= size.
Proof.
  intros H1 H2 Hr. assert (inv size c) as [] by (eapply bq_inv_reachable; [by apply bq_inv_init|done]).
  assert (zlen (removed c) = head_ (cq c)) as Hlen.
  { rewrite iv_removed0. unfold zlen in *. rewrite length_fmap, length_take. lia. }
  split; [|lia]. rewrite iv_removed0 at 1. do 2 f_equal. unfold zlen in Hlen. lia.
Qed.

(** Two threads: a complete enqueue followed by a complete dequeue. *)
Lemma run_enqueue (c : conf) i e :
  threads c !! i = Some Idle ->
  commit_ (cq c) = tail_ (cq c) ->
  GetIndex (cq c) (u64 (tail_ (cq c) + 1)) <> GetIndex (cq c) (head_ (cq c)) ->
  exists c', rtc step c c' /\ threads c' !! i = Some Idle /\ taken c' = taken c ++ [e] /\
             Enqueue (cq c) e = Some (cq c').
Proof.
  intros Hi Hc Hx. assert (i < length (threads c))%nat as Hlt by (by eapply lookup_lt_Some).
  eexists. split.
  - eapply rtc_l; [by apply (step_enq_start _ i e)|].
    eapply rtc_l; [apply (step_enq_room _ i e (tail_ (cq c))); simpl; [by apply list_lookup_insert_eq|done]|].
    eapply rtc_l; [apply (step_enq_cas_ok _ i e (tail_ (cq c)) (u64 (tail_ (cq c) + 1))); simpl;
      [rewrite !list_insert_insert_eq; by apply list_lookup_insert_eq|done]|].
    eapply rtc_l; [apply (step_enq_write _ i e (tail_ (cq c)) (u64 (tail_ (cq c) + 1))); simpl;
      rewrite !list_insert_insert_eq; by apply list_lookup_insert_eq|].
    eapply rtc_once. apply (step_enq_commit_ok _ i e (tail_ (cq c)) (u64 (tail_ (cq c) + 1))); simpl;
      [rewrite !list_insert_insert_eq; by apply list_lookup_insert_eq|done].
  - simpl. rewrite !list_insert_insert_eq. split; [by apply list_lookup_insert_eq|]. split; [done|].
    unfold Enqueue. destruct (Z.eqb_spec (GetIndex (cq c) (u64 (tail_ (cq c) + 1))) (GetIndex (cq c) (head_ (cq c)))); done.
Qed.
End bounded_queue.

Arguments Queue : clear implicits.
Arguments conf : clear implicits.

Lemma Enqueue_fifo_witness : exists q', Enqueue (Init 0%nat 1) 7%nat = Some q' /\ fifo 1 q' [7%nat].
Proof.
  exact (Enqueue_fifo 1 (Init 0%nat 1) [] 7%nat (fifo_Init 0%nat 1 ltac:(lia) ltac:(lia))
           ltac:(vm_compute; reflexivity)).
Defined.

Lemma Dequeue_fifo_witness : Dequeue (Init 0%nat 1) = None.
Proof.
  exact (Dequeue_fifo 1 (Init 0%nat 1) [] (fifo_Init 0%nat 1 ltac:(lia) ltac:(lia))).
Defined.

Tactic Notation "bstep" uconstr(r) :=
  eapply rtc_l; [split; [apply r; vm_compute; congruence|vm_compute; reflexivity]|].

(** Thread 0 enqueues while thread 1, started earlier on the empty queue,
    dequeues the element. *)
Lemma queue_linearizable_witness :
  exists c : conf nat, rtc bounded_step (conf_init 0%nat 1 2) c /\ removed c = [Some 7%nat] /\
    removed c = Some <$> take (length (removed c)) (taken c).
Proof.
  assert (exists c : conf nat, rtc bounded_step (conf_init 0%nat 1 2) c /\
            removed c = [Some 7%nat]) as (c & Hc & Hr).
  { eexists. split.
    - bstep (step_deq_start (conf_init 0%nat 1 2) 1%nat).
      bstep (step_enq_start _ 0%nat 7%nat).
      bstep (step_enq_room _ 0%nat 7%nat 1).
      bstep (step_enq_cas_ok _ 0%nat 7%nat 1 2).
      bstep (step_enq_write _ 0%nat 7%nat 1 2).
      bstep (step_enq_commit_ok _ 0%nat 7%nat 1 2).
      bstep (step_deq_some _ 1%nat 0).
      bstep (step_deq_read _ 1%nat 0 1).
      eapply rtc_once. split; [apply (step_deq_cas_ok _ 1%nat 0 1 (Some 7%nat)); vm_compute; reflexivity|vm_compute; reflexivity].
    - vm_compute. reflexivity. }
  exists c. split; [exact Hc|]. split; [exact Hr|].
  exact (proj1 (queue_linearizable 0%nat 1 2 c ltac:(lia) ltac:(lia) Hc)).
Defined.
