(* ===== verification/UnboundedQueue.v ===== *)
(** UnboundedQueue.v -- the lock-free unbounded queue (base/unbounded_queue.h)

    A linked list of nodes with a dummy node in front.  Enqueue swaps the tail
    and then links the old tail to the new node; Dequeue swings the head to the
    next node.  A node is deleted when it has been released twice, by the
    Enqueue that linked it and by the Dequeue that passed it.  Threads interleave
    at every access to the shared memory; accesses are sequentially consistent,
    and an access to a deleted node is undefined.

    Every node ever made has its own number here, and the address it was given:
    the allocator may give a new node any address at which no living node is, so
    that addresses are used again, and the compare-and-swaps compare addresses,
    as those of the code do. *)

From S2P Require Import Prelude.
Local Open Scope Z_scope.

Section queue.
Context {T : Type}.

(** ** State *)

(** A node, the address it is at and whether it has been deleted.  Pointers are
    the numbers of the nodes; two nodes may have had the same address. *)
Record Node := mkNode { data : option T; ref_count : Z; next : option nat; deleted : bool; addr : nat }.

(** Where a thread is. *)
Inductive pc :=
| Idle
| EnqTail (x : T) (node : nat)         (* new node filled, at tail_.load() *)
| EnqCas (x : T) (node old : nat)      (* at tail_.compare_exchange_strong *)
| EnqLink (node old : nat)             (* at old_tail->next = node *)
| EnqSub (old : nat)                   (* at ref_count.fetch_sub in old_tail->release() *)
| EnqTest (old : nat)                  (* at ref_count.load() *)
| EnqSize                              (* at size_.fetch_add *)
| DeqNext (old : nat)                  (* at head_next = old_head->next *)
| DeqCas (old nx : nat)                (* at head_.compare_exchange_strong *)
| DeqRead (old nx : nat)               (* at *element = head_next->data *)
| DeqSize (old : nat)                  (* at size_.fetch_sub *)
| DeqSub (old : nat)
| DeqTest (old : nat).

Record Queue := mkQ {
  nodes : list Node;
  head_ : nat;
  tail_ : nat;
  size_ : Z;
  threads : list pc;
  (* what has happened: the nodes in the order of tail_, the elements in that
     order, how many the head has passed, what Dequeue has read, and how often
     it has returned false *)
  order : list nat;
  puts : list T;
  passed : nat;
  reads : list (nat * T);
  empties : nat
}.

Definition UnboundedQueue (n : nat) : Queue :=
  mkQ [mkNode None 2 None false 0] 0 0 0 (replicate n Idle) [0%nat] [] 0 [] 0.

Definition Size (q : Queue) : Z := size_ q.
Definition Empty (q : Queue) : bool := size_ q =? 0.

(** A node one may access. *)
Definition deref (q : Queue) (a : nat) : option Node :=
  match nodes q !! a with Some n => if deleted n then None else Some n | None => None end.

(** The address a pointer holds. *)
Definition addr_of (q : Queue) (a : nat) : option nat := addr <$> nodes q !! a.
(** Two pointers compare equal when they hold the same address. *)
Definition same_address (q : Queue) (a b : nat) : bool := bool_decide (addr_of q a = addr_of q b).

(** The address [new] returns: [a], unless a living node is there. *)
Definition living (n : Node) : bool := negb (deleted n).
Definition allocate (q : Queue) (a : nat) : nat :=
  if existsb (fun n => living n && (addr n =? a)%nat) (nodes q) then S (max_list (addr <$> nodes q)) else a.

Definition set_node (a : nat) (n : Node) (q : Queue) : Queue :=
  mkQ (<[a := n]> (nodes q)) (head_ q) (tail_ q) (size_ q) (threads q) (order q) (puts q) (passed q) (reads q) (empties q).
Definition add_node (n : Node) (q : Queue) : Queue :=
  mkQ (nodes q ++ [n]) (head_ q) (tail_ q) (size_ q) (threads q) (order q) (puts q) (passed q) (reads q) (empties q).
Definition set_size (z : Z) (q : Queue) : Queue :=
  mkQ (nodes q) (head_ q) (tail_ q) z (threads q) (order q) (puts q) (passed q) (reads q) (empties q).
Definition set_pc (i : nat) (p : pc) (q : Queue) : Queue :=
  mkQ (nodes q) (head_ q) (tail_ q) (size_ q) (<[i := p]> (threads q)) (order q) (puts q) (passed q) (reads q) (empties q).
Definition swap_tail (node : nat) (x : T) (q : Queue) : Queue :=
  mkQ (nodes q) (head_ q) node (size_ q) (threads q) (order q ++ [node]) (puts q ++ [x]) (passed q) (reads q) (empties q).
Definition swing_head (nx : nat) (q : Queue) : Queue :=
  mkQ (nodes q) nx (tail_ q) (size_ q) (threads q) (order q) (puts q) (S (passed q)) (reads q) (empties q).
Definition log_read (nx : nat) (x : T) (q : Queue) : Queue :=
  mkQ (nodes q) (head_ q) (tail_ q) (size_ q) (threads q) (order q) (puts q) (passed q) (reads q ++ [(nx, x)]) (empties q).
Definition log_empty (q : Queue) : Queue :=
  mkQ (nodes q) (head_ q) (tail_ q) (size_ q) (threads q) (order q) (puts q) (passed q) (reads q) (S (empties q)).

(** ** Steps *)

(** [a] is the address at which the allocator would like to put the node. *)
Inductive call := CallEnqueue (x : T) (a : nat) | CallDequeue.

(** release(), its two accesses *)
Definition release_sub (old : nat) (q : Queue) : option Queue :=
  n ← deref q old; Some (set_node old (mkNode (data n) (u32 (ref_count n - 1)) (next n) false (addr n)) q).
Definition release_test (old : nat) (q : Queue) : option Queue :=
  n ← deref q old;
  Some (if ref_count n =? 0 then set_node old (mkNode (data n) (ref_count n) (next n) true (addr n)) q else q).

(** One access of a thread; [c] is what an idle thread calls.  The result is the
    memory and the new place of the thread, [None] when a deleted node is accessed.
    After a successful compare-and-swap the old value is the node that is at the
    compared address. *)
Definition step_pc (c : call) (q : Queue) (p : pc) : option (Queue * pc) :=
  match p with
  | Idle =>
      match c with
      | CallEnqueue x a => Some (add_node (mkNode (Some x) 2 None false (allocate q a)) q, EnqTail x (length (nodes q)))
      | CallDequeue => Some (q, DeqNext (head_ q))
      end
  | EnqTail x node => Some (q, EnqCas x node (tail_ q))
  | EnqCas x node old =>
      if same_address q (tail_ q) old then Some (swap_tail node x q, EnqLink node (tail_ q)) else Some (q, EnqCas x node (tail_ q))
  | EnqLink node old =>
      n ← deref q old; Some (set_node old (mkNode (data n) (ref_count n) (Some node) false (addr n)) q, EnqSub old)
  | EnqSub old => q' ← release_sub old q; Some (q', EnqTest old)
  | EnqTest old => q' ← release_test old q; Some (q', EnqSize)
  | EnqSize => Some (set_size (u64 (size_ q + 1)) q, Idle)
  | DeqNext old =>
      n ← deref q old;
      Some (match next n with None => (log_empty q, Idle) | Some nx => (q, DeqCas old nx) end)
  | DeqCas old nx =>
      if same_address q (head_ q) old then Some (swing_head nx q, DeqRead (head_ q) nx) else Some (q, DeqNext (head_ q))
  | DeqRead old nx => n ← deref q nx; x ← data n; Some (log_read nx x q, DeqSize old)
  | DeqSize old => Some (set_size (u64 (size_ q - 1)) q, DeqSub old)
  | DeqSub old => q' ← release_sub old q; Some (q', DeqTest old)
  | DeqTest old => q' ← release_test old q; Some (q', Idle)
  end.

Definition step (i : nat) (c : call) (q : Queue) : option Queue :=
  p ← threads q !! i; '(q', p') ← step_pc c q p; Some (set_pc i p' q').

Fixpoint steps (l : list (nat * call)) (q : Queue) : option Queue :=
  match l with [] => Some q | (i, c) :: l => q' ← step i c q; steps l q' end.

(** The thread swings the head although the node it started from is gone: its
    address is the head's again, with another node. *)
Definition confused (i : nat) (q : Queue) : bool :=
  match threads q !! i with
  | Some (DeqCas old _) => same_address q (head_ q) old && negb (head_ q =? old)%nat
  | _ => false
  end.
(** No thread does so in an execution. *)
Fixpoint unconfused (l : list (nat * call)) (q : Queue) : bool :=
  match l with
  | [] => true
  | (i, c) :: l => negb (confused i q) && match step i c q with Some q' => unconfused l q' | None => true end
  end.

(** Clear, from the destructor, with no other thread: the nodes from the head on
    are deleted.  The fuel is the number of nodes. *)
Fixpoint Clear_from (fuel : nat) (ite : option nat) (q : Queue) : option Queue :=
  match ite, fuel with
  | None, _ => Some q
  | Some _, O => None
  | Some a, S fuel =>
      n ← deref q a; Clear_from fuel (next n) (set_node a (mkNode (data n) (ref_count n) (next n) true (addr n)) q)
  end.
Definition Clear (q : Queue) : option Queue := Clear_from (length (nodes q)) (Some (head_ q)) q.
End queue.
Arguments Node : clear implicits.
Arguments pc : clear implicits.
Arguments Queue : clear implicits.
Arguments call : clear implicits.

(** ** Invariant *)

Section fifo.
Context {T : Type}.
Implicit Types (q : Queue T) (p : pc T).

(** What an address holds, deleted or not. *)
Definition view q (a : nat) : option (option T * option nat) := (fun n => (data n, next n)) <$> nodes q !! a.

(** The node a thread has made and not yet put behind the tail. *)
Definition making p : option nat := match p with EnqTail _ node | EnqCas _ node _ => Some node | _ => None end.
(** The node a thread has taken and not yet read. *)
Definition taking p : option nat := match p with DeqRead _ nx => Some nx | _ => None end.

Definition pc_ok q p : Prop :=
  match p with
  | EnqTail x node | EnqCas x node _ => node ∉ order q /\ view q node = Some (Some x, None)
  | EnqLink node old => exists j, order q !! j = Some old /\ order q !! S j = Some node
  | DeqNext old => exists j, (j <= passed q)%nat /\ order q !! j = Some old
  | DeqCas old nx => exists j, (j <= passed q)%nat /\ order q !! j = Some old /\ order q !! S j = Some nx
  | DeqRead _ nx => exists j, (j < passed q)%nat /\ order q !! S j = Some nx /\ nx ∉ (reads q).*1
  | _ => True
  end.

Record inv q : Prop := mkInv {
  i_head : order q !! passed q = Some (head_ q);
  i_tail : last (order q) = Some (tail_ q);
  i_nodup : NoDup (order q);
  i_puts : length (order q) = S (length (puts q));
  i_alloc a : a ∈ order q -> is_Some (view q a);
  i_data j a x : order q !! S j = Some a -> puts q !! j = Some x -> exists o, view q a = Some (Some x, o);
  i_next j a d b : order q !! j = Some a -> view q a = Some (d, Some b) -> order q !! S j = Some b;
  i_link j a d b : order q !! j = Some a -> view q a = Some (d, None) -> order q !! S j = Some b ->
    exists i, threads q !! i = Some (EnqLink b a);
  i_thr i p : threads q !! i = Some p -> pc_ok q p;
  i_making i j p p' a : threads q !! i = Some p -> threads q !! j = Some p' -> making p = Some a -> making p' = Some a -> i = j;
  i_taking i j p p' a : threads q !! i = Some p -> threads q !! j = Some p' -> taking p = Some a -> taking p' = Some a -> i = j;
  i_reads a x : (a, x) ∈ reads q -> exists j, (j < passed q)%nat /\ order q !! S j = Some a /\ puts q !! j = Some x;
  i_once : NoDup (reads q).*1;
  i_taken j a : (j < passed q)%nat -> order q !! S j = Some a ->
    a ∈ (reads q).*1 \/ exists i old, threads q !! i = Some (DeqRead old a)
}.

(** A taken node is read, or its thread has not moved. *)
Lemma still_taking q i p p' a : threads q !! i = Some p -> taking p = None ->
  a ∈ (reads q).*1 \/ (exists k old, threads q !! k = Some (DeqRead old a)) ->
  a ∈ (reads q).*1 \/ exists k old, <[i := p']> (threads q) !! k = Some (DeqRead old a).
Proof.
  intros Hi Hp [?|(k & old & Hk)]; [by left|right]. exists k, old. rewrite list_lookup_insert_ne; [done|]. intros ->. by simplify_eq.
Qed.

(** A step that changes neither the list nor what is being made or taken. *)
Lemma uq_quiet q q' i p p' : inv q -> threads q !! i = Some p -> threads q' = threads q ->
  (forall a, view q' a = view q a) -> head_ q' = head_ q -> tail_ q' = tail_ q -> order q' = order q -> puts q' = puts q ->
  passed q' = passed q -> reads q' = reads q ->
  pc_ok q p' -> (making p' = making p \/ making p' = None) -> taking p = None -> taking p' = None ->
  (forall b a, p <> EnqLink b a) -> inv (set_pc i p' q').
Proof.
  intros [Hh Ht Hn Hp Ha Hd Hx Hl Hthr Hm Hk Hr Ho Htak] Hi Et Ev Eh Etl Eo Ep Epa Er Hok Hmk Hp0 Htk Hnl.
  assert (forall pp, pc_ok q pp -> pc_ok (set_pc i p' q') pp) as Hpc.
  { intros []; unfold pc_ok; simpl; unfold view in *; simpl; rewrite ?Eo, ?Epa, ?Er; try done; by rewrite Ev. }
  constructor; unfold view in *; simpl; rewrite ?Eo, ?Ep, ?Epa, ?Eh, ?Etl, ?Er, ?Et; try done.
  - intros a. rewrite Ev. apply Ha.
  - intros j a x. rewrite Ev. apply Hd.
  - intros j a d b. rewrite Ev. apply Hx.
  - intros j a d b Hj Hv Hb. rewrite Ev in Hv. destruct (Hl j a d b Hj Hv Hb) as [k Hk']. exists k.
    rewrite list_lookup_insert_ne; [done|]. intros ->. simplify_eq. by apply (Hnl b a).
  - intros j pp Hj. apply Hpc. apply list_lookup_insert_Some in Hj as [(_ & <- & _)|[_ Hj]]; [done|by eapply Hthr].
  - intros j k pj pk a Hj Hk' Ej Ek. apply list_lookup_insert_Some in Hj as [(<- & <- & _)|[? Hj]];
      apply list_lookup_insert_Some in Hk' as [(<- & <- & _)|[? Hk']]; try done.
    + destruct Hmk as [E|E]; [|congruence]. rewrite E in Ej. by eapply Hm.
    + destruct Hmk as [E|E]; [|congruence]. rewrite E in Ek. by eapply Hm.
    + by eapply Hm.
  - intros j k pj pk a Hj Hk' Ej Ek. apply list_lookup_insert_Some in Hj as [(<- & <- & _)|[? Hj]];
      apply list_lookup_insert_Some in Hk' as [(<- & <- & _)|[? Hk']]; try done.
    + congruence.
    + congruence.
    + by eapply Hk.
  - intros j a Hj Hja. apply (still_taking q i p p' a Hi Hp0). by eapply Htak.
Qed.

Lemma deref_Some q a n : deref q a = Some n -> nodes q !! a = Some n.
Proof. unfold deref. destruct (nodes q !! a) as [n'|]; [|done]. by destruct (deleted n'); intros; simplify_eq. Qed.

(** Releasing and deleting leave what a node holds. *)
Lemma view_set q a n n' : nodes q !! a = Some n -> data n' = data n -> next n' = next n ->
  forall b, view (set_node a n' q) b = view q b.
Proof.
  intros Ha Hd Hx b. unfold view. simpl. destruct (decide (b = a)) as [->|Hne].
  - rewrite list_lookup_insert_eq by (by eapply lookup_lt_Some). by rewrite Ha; simpl; rewrite Hd, Hx.
  - by rewrite list_lookup_insert_ne.
Qed.

Lemma uq_release q q' i p p' old : inv q -> threads q !! i = Some p ->
  release_sub old q = Some q' \/ release_test old q = Some q' ->
  pc_ok q p' -> making p' = None -> taking p = None -> taking p' = None -> (forall b a, p <> EnqLink b a) -> inv (set_pc i p' q').
Proof.
  intros Hi Hp Hr Hok Hm Hp0 Ht Hnl. unfold release_sub, release_test in Hr. destruct (deref q old) as [n|] eqn:En; [|by destruct Hr].
  apply deref_Some in En. simpl in Hr.
  destruct Hr as [E|E]; [|destruct (ref_count n =? 0)]; injection E as <-; (eapply uq_quiet; [exact Hi|exact Hp|try done..]);
    try (by right); try (by eapply view_set).
Qed.

(** Split every lookup in an updated list of threads. *)
Ltac moved :=
  repeat match goal with
  | H : <[_ := _]> _ !! _ = Some _ |- _ => apply list_lookup_insert_Some in H as [(? & ? & ?)|[? H]]; simplify_eq/=
  end.

(** Memory grows: what was allocated keeps its place. *)
Lemma view_add q n a o : view q a = Some o -> view (add_node n q) a = Some o.
Proof.
  unfold view. simpl. intros E. destruct (nodes q !! a) as [m|] eqn:Em; [|done]. by rewrite (lookup_app_l_Some _ _ _ _ Em).
Qed.

Lemma view_add_inv q n a o : view (add_node n q) a = Some o -> a <> length (nodes q) -> view q a = Some o.
Proof.
  unfold view. simpl. intros E Hne. destruct (nodes q !! a) as [m|] eqn:Em; [by rewrite (lookup_app_l_Some _ _ _ _ Em) in E|].
  apply lookup_ge_None in Em. rewrite lookup_app_r in E by done.
  destruct (a - length (nodes q))%nat eqn:Ed; [lia|by destruct n0].
Qed.

Lemma view_lt q a o : view q a = Some o -> (a < length (nodes q))%nat.
Proof. unfold view. destruct (nodes q !! a) eqn:E; [|done]. intros _. by eapply lookup_lt_Some. Qed.

Lemma uq_new q i x m : inv q -> threads q !! i = Some Idle ->
  inv (set_pc i (EnqTail x (length (nodes q))) (add_node (mkNode (Some x) 2 None false m) q)).
Proof.
  intros [Hh Ht Hn Hp Ha Hd Hx Hl Hthr Hm Hk Hr Ho Htak] Hi. set (nd := mkNode (Some x) 2 None false m).
  assert (length (nodes q) ∉ order q) as Hfr.
  { intros Hin. destruct (Ha _ Hin) as [o Hv]. apply view_lt in Hv. lia. }
  assert (forall a, a ∈ order q -> view (add_node nd q) a = view q a) as Hsame.
  { intros a Hin. destruct (Ha a Hin) as [o Hv]. by rewrite Hv, (view_add _ _ _ _ Hv). }
  assert (view (add_node nd q) (length (nodes q)) = Some (Some x, None)) as Hnew.
  { unfold view. simpl. by rewrite list_lookup_middle. }
  assert (forall j a, order q !! j = Some a -> a ∈ order q) as Hin by (intros; by eapply list_elem_of_lookup_2).
  constructor; simpl; try done; change (view (set_pc _ _ ?q)) with (view q).
  - intros a Hia. rewrite Hsame by done. by apply Ha.
  - intros j a y Hj Hy. rewrite Hsame by eauto. by eapply Hd.
  - intros j a d b Hj Hv. rewrite Hsame in Hv by eauto. by eapply Hx.
  - intros j a d b Hj Hv Hb. rewrite Hsame in Hv by eauto. destruct (Hl j a d b Hj Hv Hb) as [k Hk']. exists k.
    rewrite list_lookup_insert_ne; [done|]. intros ->. congruence.
  - intros j p Hj. moved; [done|]. specialize (Hthr _ _ Hj).
    destruct p; simpl in *; try done; destruct Hthr as [? Hv]; (split; [done|]); by apply view_add.
  - intros j k p p' a Hj Hk' Ej Ek. assert (forall k p, threads q !! k = Some p -> making p = Some (length (nodes q)) -> False) as Hno.
    { intros k0 p0 Hk0 E0. specialize (Hthr _ _ Hk0). destruct p0; simplify_eq/=; destruct Hthr as [_ Hv%view_lt]; lia. }
    moved; try done; [by exfalso; eapply Hno|by exfalso; eapply Hno|by eapply Hm].
  - intros j k p p' a Hj Hk' Ej Ek. moved; try done. by eapply Hk.
  - intros j a Hj Hja. eapply (still_taking q i Idle); [done|done|by eapply Htak].
Qed.

(** The tail moves to the new node: the element is in the queue. *)
Lemma uq_swap q i x node old0 : inv q -> threads q !! i = Some (EnqCas x node old0) ->
  inv (set_pc i (EnqLink node (tail_ q)) (swap_tail node x q)).
Proof.
  intros [Hh Ht Hn Hp Ha Hd Hx Hl Hthr Hm Hk Hr Ho Htak] Hi. remember (tail_ q) as old eqn:Et. destruct (Hthr _ _ Hi) as [Hni Hv].
  assert (forall j a, order q !! j = Some a -> (order q ++ [node]) !! j = Some a) as Hext by (intros; by apply lookup_app_l_Some).
  assert (order q !! pred (length (order q)) = Some old) as Hlast by (rewrite last_lookup in Ht; congruence).
  assert ((order q ++ [node]) !! length (order q) = Some node) as Hend by (by apply list_lookup_middle).
  assert (length (order q) = S (pred (length (order q)))) as Hlen by lia.
  assert (forall j a, (order q ++ [node]) !! j = Some a -> order q !! j = Some a \/ (j = length (order q) /\ a = node)) as Hinv.
  { intros j a [[? ?]|[? ?]]%lookup_snoc_Some; auto. }
  assert (forall p, pc_ok q p -> making p <> Some node ->
    pc_ok (set_pc i (EnqLink node old) (swap_tail node x q)) p) as Hpc.
  { intros p Hok Hmk.
    assert (forall n, making p = Some n -> n ∉ order q -> n ∉ order q ++ [node]) as Hnot.
    { intros n En Hn' [?| ->%list_elem_of_singleton]%elem_of_app; [done|congruence]. }
    destruct p; simpl in *; try done.
    - destruct Hok. auto.
    - destruct Hok. auto.
    - destruct Hok as (j & ? & ?). exists j. auto.
    - destruct Hok as (j & ? & ?). exists j. auto.
    - destruct Hok as (j & ? & ? & ?). exists j. auto.
    - destruct Hok as (j & ? & ? & ?). exists j. auto. }
  constructor; simpl; try done; change (view (set_pc _ _ ?q)) with (view q); change (view (swap_tail _ _ q)) with (view q).
  - by apply Hext.
  - by rewrite last_snoc.
  - apply NoDup_app. split; [done|]. split; [|apply NoDup_singleton]. intros a Hin ->%list_elem_of_singleton. done.
  - rewrite !length_app, Hp. simpl. lia.
  - intros a [Hin| ->%list_elem_of_singleton]%elem_of_app; [by apply Ha|by rewrite Hv].
  - intros j a y Hj Hy. apply Hinv in Hj as [Hj|[Ej ->]].
    + apply (Hd j); [done|]. apply lookup_snoc_Some in Hy as [[_ Hy]|[Ey _]]; [done|].
      apply lookup_lt_Some in Hj. lia.
    + apply lookup_snoc_Some in Hy as [[Hy _]|[_ ->]]; [lia|]. by eexists.
  - intros j a d b Hj Hvw. apply Hinv in Hj as [Hj|[_ ->]]; [|congruence]. apply Hext. by eapply Hx.
  - intros j a d b Hj Hvw Hb. apply Hinv in Hj as [Hj|[-> ->]].
    + apply Hinv in Hb as [Hb|[Eb ->]].
      * destruct (Hl j a d b Hj Hvw Hb) as [k Hk']. exists k. rewrite list_lookup_insert_ne; [done|]. intros ->. congruence.
      * exists i. rewrite list_lookup_insert_eq by (by eapply lookup_lt_Some). do 2 f_equal.
        replace j with (pred (length (order q))) in Hj by lia. congruence.
    + apply lookup_lt_Some in Hb. rewrite length_app in Hb. simpl in Hb. lia.
  - intros j p Hj. moved.
    + exists (pred (length (order q))). split; [by apply Hext|]. by rewrite <- Hlen.
    + apply Hpc; [by eapply Hthr|]. intros Em. by pose proof (Hm i j _ _ node Hi Hj eq_refl Em).
  - intros j k p p' a Hj Hk' Ej Ek. moved; try done. by eapply Hm.
  - intros j k p p' a Hj Hk' Ej Ek. moved; try done. by eapply Hk.
  - intros a y Hin. destruct (Hr a y Hin) as (j & Hj & Hoj & Hy). exists j. split; [done|]. split; [by apply Hext|].
    by apply lookup_app_l_Some.
  - intros j a Hj Hja. apply (still_taking q i (EnqCas x node old0)); [done|done|]. apply (Htak j); [done|].
    apply Hinv in Hja as [Hja|[Ej _]]; [done|]. apply lookup_lt_Some in Hh. lia.
Qed.

(** The old tail is linked to the new node. *)
Lemma uq_link q i node old n : inv q -> threads q !! i = Some (EnqLink node old) -> nodes q !! old = Some n ->
  inv (set_pc i (EnqSub old) (set_node old (mkNode (data n) (ref_count n) (Some node) false (addr n)) q)).
Proof.
  intros [Hh Ht Hn Hp Ha Hd Hx Hl Hthr Hm Hk Hr Ho Htak] Hi Hnd. destruct (Hthr _ _ Hi) as (jo & Hjo & Hjn).
  set (q1 := set_node old _ q).
  assert (view q1 old = Some (data n, Some node)) as Hvo.
  { unfold view, q1. simpl. by rewrite list_lookup_insert_eq by (by eapply lookup_lt_Some). }
  assert (forall a, a <> old -> view q1 a = view q a) as Hvn.
  { intros a Hne. unfold view, q1. simpl. by rewrite list_lookup_insert_ne. }
  assert (view q old = Some (data n, next n)) as Hv0 by (unfold view; by rewrite Hnd).
  constructor; simpl; try done; change (view (set_pc _ _ ?q)) with (view q).
  - intros a Hin. destruct (decide (a = old)) as [->|Hne]; [by rewrite Hvo|rewrite Hvn by done; by apply Ha].
  - intros j a x Hj Hy. destruct (Hd j a x Hj Hy) as [o Hv]. destruct (decide (a = old)) as [->|Hne].
    + exists (Some node). rewrite Hvo. congruence.
    + exists o. by rewrite Hvn.
  - intros j a d b Hj Hv. destruct (decide (a = old)) as [->|Hne].
    + rewrite Hvo in Hv. simplify_eq. by rewrite (NoDup_lookup _ _ _ _ Hn Hj Hjo).
    + rewrite Hvn in Hv by done. by eapply Hx.
  - intros j a d b Hj Hv Hb. destruct (decide (a = old)) as [->|Hne]; [congruence|]. rewrite Hvn in Hv by done.
    destruct (Hl j a d b Hj Hv Hb) as [k Hk']. exists k. rewrite list_lookup_insert_ne; [done|]. intros ->. congruence.
  - intros j p Hj. moved; [done|]. specialize (Hthr _ _ Hj). destruct p; simpl in *; try done.
    + destruct Hthr as [Hno Hv]. split; [done|]. change (view q1 node0 = Some (Some x, None)). rewrite Hvn; [done|].
      intros ->. by apply Hno, list_elem_of_lookup; eauto.
    + destruct Hthr as [Hno Hv]. split; [done|]. change (view q1 node0 = Some (Some x, None)). rewrite Hvn; [done|].
      intros ->. by apply Hno, list_elem_of_lookup; eauto.
  - intros j k p p' a Hj Hk' Ej Ek. moved; try done. by eapply Hm.
  - intros j k p p' a Hj Hk' Ej Ek. moved; try done. by eapply Hk.
  - intros j a Hj Hja. apply (still_taking q i (EnqLink node old)); [done|done|by eapply Htak].
Qed.

(** The head swings to the next node: its element is taken. *)
Lemma uq_swing q i old nx : inv q -> threads q !! i = Some (DeqCas old nx) -> head_ q = old ->
  inv (set_pc i (DeqRead old nx) (swing_head nx q)).
Proof.
  intros [Hh Ht Hn Hp Ha Hd Hx Hl Hthr Hm Hk Hr Ho Htak] Hi Eh. destruct (Hthr _ _ Hi) as (j0 & Hle & Hj0 & Hjn).
  rewrite Eh in Hh. assert (j0 = passed q) as -> by exact (NoDup_lookup _ _ _ _ Hn Hj0 Hh).
  assert (forall j a, (j < passed q)%nat -> order q !! S j = Some a -> a <> nx) as Hnew.
  { intros j a Hj Hja ->. pose proof (NoDup_lookup _ _ _ _ Hn Hja Hjn). lia. }
  constructor; simpl; try done; change (view (set_pc _ _ ?q)) with (view q); change (view (swing_head _ q)) with (view q); try done.
  - intros j a d b Hj Hv Hb. destruct (Hl j a d b Hj Hv Hb) as [k Hk']. exists k.
    rewrite list_lookup_insert_ne; [done|]. intros ->. congruence.
  - intros j p Hj. moved.
    + exists (passed q). split; [lia|]. split; [done|]. intros Hin. apply list_elem_of_fmap in Hin as ([a x] & -> & Hin).
      destruct (Hr a x Hin) as (j' & Hlt & Hja & _). by eapply Hnew.
    + specialize (Hthr _ _ Hj). destruct p; simpl in *; try done; destruct Hthr as (j' & Hthr);
        exists j'; naive_solver lia.
  - intros j k p p' a Hj Hk' Ej Ek. moved; try done. by eapply Hm.
  - assert (forall k p, threads q !! k = Some p -> taking p = Some nx -> False) as Hno.
    { intros k p Hkp E. specialize (Hthr _ _ Hkp). destruct p; simplify_eq/=. destruct Hthr as (j' & Hlt & Hja & _). by eapply Hnew. }
    intros j k p p' a Hj Hk' Ej Ek. moved; try done; [by destruct (Hno _ _ Hj)|by destruct (Hno _ _ Hk')|by eapply Hk].
  - intros a x Hin. destruct (Hr a x Hin) as (j & Hj & ?). exists j. split; [lia|done].
  - intros j a Hj Hja. destruct (decide (j = passed q)) as [->|Hne].
    + right. exists i, old. rewrite list_lookup_insert_eq by (by eapply lookup_lt_Some). congruence.
    + apply (still_taking q i (DeqCas old nx)); [done|done|]. apply (Htak j); [lia|done].
Qed.

(** The element of a taken node is read. *)
Lemma uq_read q i old nx n x : inv q -> threads q !! i = Some (DeqRead old nx) -> nodes q !! nx = Some n -> data n = Some x ->
  inv (set_pc i (DeqSize old) (log_read nx x q)).
Proof.
  intros [Hh Ht Hn Hp Ha Hd Hx Hl Hthr Hm Hk Hr Ho Htak] Hi Hnd Hdx. destruct (Hthr _ _ Hi) as (j0 & Hlt & Hj0 & Hnr).
  assert (puts q !! j0 = Some x) as Hput.
  { destruct (puts q !! j0) as [y|] eqn:Ey; [|apply lookup_ge_None in Ey; apply lookup_lt_Some in Hj0; lia].
    destruct (Hd _ _ _ Hj0 Ey) as [o Hv]. unfold view in Hv. rewrite Hnd in Hv. simplify_eq/=. congruence. }
  constructor; simpl; try done; change (view (set_pc _ _ ?q)) with (view q); change (view (log_read _ _ q)) with (view q); try done.
  - intros j a d b Hj Hv Hb. destruct (Hl j a d b Hj Hv Hb) as [k Hk']. exists k.
    rewrite list_lookup_insert_ne; [done|]. intros ->. congruence.
  - intros j p Hj. moved; [done|]. pose proof (Hthr _ _ Hj) as Hok. destruct p as [| | | | | | | | |o' nx'| | |]; simpl in *; try done.
    destruct Hok as (j' & Hlt' & Hja & Hnr'). exists j'. split; [done|]. split; [done|]. rewrite fmap_app.
    intros [?|E%list_elem_of_singleton]%elem_of_app; [done|]. simpl in E. subst nx'. by pose proof (Hk _ _ _ _ nx Hi Hj eq_refl eq_refl).
  - intros j k p p' a Hj Hk' Ej Ek. moved; try done. by eapply Hm.
  - intros j k p p' a Hj Hk' Ej Ek. moved; try done. by eapply Hk.
  - intros a y [Hin|E%list_elem_of_singleton]%elem_of_app; [by apply Hr|]. simplify_eq. by exists j0.
  - rewrite fmap_app. apply NoDup_app. split; [done|]. split; [|apply NoDup_singleton].
    intros a Hin ->%list_elem_of_singleton. done.
  - intros j a Hj Hja. rewrite fmap_app. simpl. rewrite elem_of_app, list_elem_of_singleton.
    destruct (Htak j a Hj Hja) as [?|(k & o & Hk')]; [by left; left|]. destruct (decide (k = i)) as [->|Hne].
    + simplify_eq. by left; right.
    + right. exists k, o. by rewrite list_lookup_insert_ne.
Qed.

Lemma uq_step i c q q' : inv q -> confused i q = false -> step i c q = Some q' -> inv q'.
Proof.
  intros Hi Hc Hs. unfold confused in Hc. unfold step in Hs. destruct (threads q !! i) as [p|] eqn:Ep; [|done]. simpl in Hs.
  destruct (step_pc c q p) as [[q1 p1]|] eqn:E; [|done]. simpl in Hs. injection Hs as <-.
  assert (forall p', pc_ok q p' -> making p' = making p \/ making p' = None -> taking p = None -> taking p' = None ->
    (forall b a, p <> EnqLink b a) -> inv (set_pc i p' q)) as Hq by (intros; by eapply uq_quiet).
  pose proof (i_thr _ Hi _ _ Ep) as Hok.
  destruct p as [|x nd|x nd old|nd old|old|old| |old|old nx|old nx|old|old|old]; simpl in E.
  - destruct c as [x m|]; simplify_eq; [by apply uq_new|]. apply Hq; auto. eexists. split; [|apply (i_head _ Hi)]. lia.
  - simplify_eq. apply Hq; auto.
  - destruct (same_address q (tail_ q) old); simplify_eq; [by eapply uq_swap|]. apply Hq; auto.
  - destruct (deref q old) as [n|] eqn:En; simplify_eq/=. apply uq_link; [done|done|by apply deref_Some].
  - destruct (release_sub old q) as [q2|] eqn:Er; simplify_eq/=. eapply uq_release; [exact Hi|exact Ep|by left|done..].
  - destruct (release_test old q) as [q2|] eqn:Er; simplify_eq/=. eapply uq_release; [exact Hi|exact Ep|by right|done..].
  - simplify_eq. eapply uq_quiet; [exact Hi|exact Ep|try done..]; auto.
  - destruct (deref q old) as [n|] eqn:En; simplify_eq/=. destruct (next n) as [nx|] eqn:Ex; simplify_eq.
    + apply Hq; auto. destruct Hok as (j & Hj & Hoj). exists j. split; [done|]. split; [done|].
      eapply (i_next _ Hi); [exact Hoj|]. unfold view. rewrite (deref_Some _ _ _ En). simpl. by rewrite Ex.
    + eapply uq_quiet; [exact Hi|exact Ep|try done..]; auto.
  - destruct (same_address q (head_ q) old); simplify_eq/=.
    { apply negb_false_iff, Nat.eqb_eq in Hc as <-. by apply uq_swing. }
    apply Hq; auto. eexists. split; [|apply (i_head _ Hi)]. lia.
  - destruct (deref q nx) as [n|] eqn:En; simpl in E; [|done]. destruct (data n) as [x|] eqn:Ex; simplify_eq/=.
    eapply uq_read; [exact Hi|exact Ep|by apply deref_Some|done].
  - simplify_eq. eapply uq_quiet; [exact Hi|exact Ep|try done..]; auto.
  - destruct (release_sub old q) as [q2|] eqn:Er; simplify_eq/=. eapply uq_release; [exact Hi|exact Ep|by left|done..].
  - destruct (release_test old q) as [q2|] eqn:Er; simplify_eq/=. eapply uq_release; [exact Hi|exact Ep|by right|done..].
Qed.

Lemma uq_init n : inv (UnboundedQueue n).
Proof.
  assert (forall i p, replicate n (Idle (T:=T)) !! i = Some p -> p = Idle) as Hidle by (intros i p [-> _]%lookup_replicate; done).
  constructor; simpl; try done.
  - apply NoDup_singleton.
  - intros a ->%list_elem_of_singleton. by eexists.
  - intros [|j] a d b Hj Hv; [|by destruct j]. by simplify_eq/=.
  - by intros i p ->%Hidle.
  - by intros i j p p' a ->%Hidle.
  - by intros i j p p' a ->%Hidle.
  - by intros a x ?%elem_of_nil.
  - constructor.
Qed.

Lemma uq_steps l q q' : inv q -> unconfused l q = true -> steps l q = Some q' -> inv q'.
Proof.
  revert q. induction l as [|[i c] l IH]; intros q Hi Hu Hs; simpl in Hs, Hu; [by simplify_eq|].
  apply andb_true_iff in Hu as [Hc%negb_true_iff Hu].
  destruct (step i c q) as [q1|] eqn:E; [|done]. by eapply IH, Hs; [eapply uq_step|].
Qed.

(** *** One consumer *)

(** Dequeue is called by thread [k] alone, and the node it works on is the head. *)
Definition consumes p : bool := match p with DeqNext _ | DeqCas _ _ => true | _ => false end.
Definition lone (k : nat) q : Prop :=
  (forall i p, threads q !! i = Some p -> consumes p = true -> i = k) /\
  (forall old, threads q !! k = Some (DeqNext old) -> head_ q = old) /\
  (forall old nx, threads q !! k = Some (DeqCas old nx) -> head_ q = old).
Definition only_consumer (k : nat) (l : list (nat * call T)) : bool :=
  forallb (fun ic => match ic.2 with CallDequeue => (ic.1 =? k)%nat | _ => true end) l.

Lemma lone_set k i q q1 p' : lone k q -> threads q1 = threads q ->
  (consumes p' = true -> i = k) -> (i <> k -> head_ q1 = head_ q) ->
  (forall old, p' = DeqNext old -> head_ q1 = old) -> (forall old nx, p' = DeqCas old nx -> head_ q1 = old) ->
  lone k (set_pc i p' q1).
Proof.
  intros (H1 & H2 & H3) Et Hp Hh Hn Hc. unfold lone. simpl. rewrite Et. split; [|split].
  - intros j p Hj Hcp. moved; auto. by eapply H1.
  - intros old Hj. moved; [auto|]. rewrite Hh by done. by apply H2.
  - intros old nx Hj. moved; [eauto|]. rewrite Hh by done. by eapply H3.
Qed.

Lemma release_keeps old q q1 : release_sub old q = Some q1 \/ release_test old q = Some q1 -> threads q1 = threads q /\ head_ q1 = head_ q.
Proof.
  unfold release_sub, release_test. destruct (deref q old) as [n|]; [|by intros []]. simpl.
  destruct (ref_count n =? 0); by intros [[= <-]|[= <-]].
Qed.

Lemma lone_step k i c q q' : lone k q -> only_consumer k [(i, c)] = true -> step i c q = Some q' -> confused i q = false /\ lone k q'.
Proof.
  intros Hl Ho Hs. pose proof Hl as (H1 & H2 & H3). unfold step in Hs. unfold confused.
  destruct (threads q !! i) as [p|] eqn:Ep; [|done]. simpl in Hs.
  destruct (step_pc c q p) as [[q1 p1]|] eqn:E; [|done]. simpl in Hs. injection Hs as <-.
  destruct p as [|x nd|x nd old|nd old|old|old| |old|old nx|old nx|old|old|old]; simpl in E.
  all: try (split; [done|]).
  all: try (destruct (release_sub old q) as [q2|] eqn:Er; simplify_eq/=; destruct (release_keeps old q q1) as [Et Eh]; [by auto|];
    by apply (lone_set k i q)).
  all: try (destruct (release_test old q) as [q2|] eqn:Er; simplify_eq/=; destruct (release_keeps old q q1) as [Et Eh]; [by auto|];
    by apply (lone_set k i q)).
  all: try (injection E as <- <-; by apply (lone_set k i q)).
  - destruct c as [x m|]; injection E as <- <-; [by apply (lone_set k i q)|].
    simpl in Ho. rewrite andb_true_r in Ho. apply Nat.eqb_eq in Ho as ->. apply (lone_set k k q); naive_solver.
  - destruct (same_address q (tail_ q) old); injection E as <- <-; by apply (lone_set k i q).
  - destruct (deref q old) as [n|]; [|done]. injection E as <- <-. by apply (lone_set k i q).
  - assert (i = k) as -> by (by eapply H1). pose proof (H2 _ Ep) as <-.
    destruct (deref q (head_ q)) as [n|]; [|done]. simpl in E. destruct (next n) as [nx|]; injection E as <- <-; apply (lone_set k k q); naive_solver.
  - assert (i = k) as -> by (by eapply H1). pose proof (H3 _ _ Ep) as <-. rewrite Nat.eqb_refl, andb_false_r. split; [done|].
    destruct (same_address q (head_ q) (head_ q)); injection E as <- <-; apply (lone_set k k q); naive_solver.
  - destruct (deref q nx) as [n|]; simpl in E; [|done]. destruct (data n) as [x|]; [|done]. injection E as <- <-. by apply (lone_set k i q).
Qed.

(** With one consumer no address that is used again misleads Dequeue. *)
Lemma one_consumer_is_unconfused k n l : only_consumer k l = true -> unconfused l (UnboundedQueue n) = true.
Proof.
  assert (forall q, lone k q -> only_consumer k l = true -> unconfused l q = true) as H.
  { induction l as [|[i c] l IH]; intros q Hl Ho; [done|]. simpl in Ho. apply andb_true_iff in Ho as [Hc Ho]. simpl.
    destruct (step i c q) as [q1|] eqn:E.
    - destruct (lone_step k i c q q1 Hl) as [-> ?]; [by simpl; rewrite Hc|done|]. simpl. auto.
    - rewrite andb_true_r. unfold confused. destruct (threads q !! i) as [[]|] eqn:Ep; try done. exfalso. revert E.
      unfold step. rewrite Ep. simpl. by destruct (same_address q (head_ q) old). }
  apply H. split; [|split]; simpl; [intros i p [-> _]%lookup_replicate|intros old [? _]%lookup_replicate|intros old nx [? _]%lookup_replicate]; done.
Qed.

(** C12. In every execution of any number of threads in which no deleted node is
    accessed and no Dequeue swings the head on an address that has been used again
    since it loaded it (none does when one thread consumes), the queue is
    first in, first out: the nodes Dequeue takes are those Enqueue has put
    behind the tail, in the same order, each taken once; the element read from the
    j-th of them is the j-th that was put, none is read twice, every taken node is
    read or about to be, and Dequeue finds nothing behind its node only when
    all elements are taken or an Enqueue has yet to link its node there. *)
Theorem unbounded_queue_is_fifo n l q : steps l (UnboundedQueue n) = Some q ->
  unconfused l (UnboundedQueue n) = true \/ (exists k, only_consumer k l = true) ->
  (passed q <= length (puts q))%nat /\ NoDup (reads q).*1 /\
  (forall a x, (a, x) ∈ reads q -> exists j, (j < passed q)%nat /\ order q !! S j = Some a /\ puts q !! j = Some x) /\
  (forall j a, (j < passed q)%nat -> order q !! S j = Some a ->
     a ∈ (reads q).*1 \/ exists i old, threads q !! i = Some (DeqRead old a)) /\
  (forall i old nd, threads q !! i = Some (DeqNext old) -> nodes q !! old = Some nd -> next nd = None ->
     passed q = length (puts q) \/ exists k b, threads q !! k = Some (EnqLink b old)).
Proof.
  intros Hs Hu. assert (unconfused l (UnboundedQueue n) = true) as Hc.
  { destruct Hu as [Hu|[k Hu]]; [done|by eapply one_consumer_is_unconfused]. }
  destruct (uq_steps _ _ _ (uq_init n) Hc Hs) as [Hh Ht Hn Hp Ha Hd Hx Hl Hthr Hm Hk Hr Ho Htak].
  split; [apply lookup_lt_Some in Hh; lia|]. do 3 (split; [done|]).
  intros i old nd Hi Hnd Hnx. destruct (Hthr _ _ Hi) as (j & Hj & Hjo).
  destruct (order q !! S j) as [b|] eqn:Eb.
  - right. destruct (Hl j old (data nd) b Hjo) as [k Hk']; [|done|by exists k, b].
    unfold view. rewrite Hnd. simpl. by rewrite Hnx.
  - left. apply lookup_ge_None in Eb. apply lookup_lt_Some in Hh. lia.
Qed.
End fifo.

(** ** Examples *)

Section examples.
Notation enq i x a := (i%nat, CallEnqueue (T := Z) x a).
Notation deq i := (i%nat, CallDequeue (T := Z)).

(** Enqueue and Dequeue by a thread that is not disturbed. *)
Definition enqueue (i : nat) (x : Z) (a : nat) : list (nat * call Z) := replicate 7 (enq i x a).
Definition dequeue (i : nat) : list (nat * call Z) := replicate 7 (deq i).

(** Two consumers take turns, and the address of the first node is used again. *)
Lemma unbounded_queue_is_fifo_witness :
  exists q, steps (enqueue 0 10 1 ++ enqueue 0 20 2 ++ dequeue 1 ++ enqueue 0 30 0 ++ dequeue 2 ++ dequeue 1) (UnboundedQueue 3) = Some q /\
    (passed q <= length (puts q))%nat /\ addr <$> nodes q = [0; 1; 2; 0]%nat /\ puts q = [10; 20; 30] /\ (reads q).*2 = [10; 20; 30].
Proof.
  destruct (steps (enqueue 0 10 1 ++ enqueue 0 20 2 ++ dequeue 1 ++ enqueue 0 30 0 ++ dequeue 2 ++ dequeue 1) (UnboundedQueue 3)) as [q|] eqn:E;
    [|vm_compute in E; discriminate].
  exists q. split; [reflexivity|].
  split; [refine (proj1 (unbounded_queue_is_fifo _ _ _ E _)); left; vm_compute; reflexivity|].
  vm_compute in E. injection E as <-. repeat split; reflexivity.
Defined.

(** The destructor deletes the dummy and the elements that are left. *)
Lemma clear_deletes_the_rest :
  deleted <$> nodes (default (UnboundedQueue 0) (steps (enqueue 0 10 1 ++ enqueue 0 20 2 ++ dequeue 1) (UnboundedQueue 2) ≫= Clear)) =
    [true; true; true].
Proof. by vm_compute. Qed.

(** Both releases of a node may count it down before either looks at the count:
    both find it 0, and the second deletes a deleted node, with one producer and one consumer. *)
Theorem released_node_is_deleted_twice :
  exists q, steps (replicate 4 (enq 0 10 1) ++ replicate 5 (deq 1) ++ [enq 0 10 1; deq 1]) (UnboundedQueue 2) = Some q /\
    threads q = [EnqTest 0; DeqTest 0] /\ ref_count <$> nodes q !! 0%nat = Some 0 /\
    step 0 CallDequeue q ≫= step 1 CallDequeue = None /\ step 1 CallDequeue q ≫= step 0 CallDequeue = None.
Proof. eexists. split; [vm_compute; reflexivity|]. by vm_compute. Qed.

(** A consumer that has loaded the head is overtaken by another one, which
    deletes the node; the first then follows its pointer. *)
Theorem overtaken_dequeue_reads_deleted_node :
  exists q, steps (enqueue 0 10 1 ++ [deq 1] ++ dequeue 2) (UnboundedQueue 3) = Some q /\
    threads q = [Idle; DeqNext 0; Idle] /\ step 1 CallDequeue q = None.
Proof. eexists. split; [vm_compute; reflexivity|]. by vm_compute. Qed.

(** The address of a deleted node is used again.  Thread 1 has loaded the head and
    its next node; thread 2 takes the element 10 and deletes the old head; 20
    is put into a node at the same address, and thread 2 takes it too,
    which makes that node the head.  Then the compare-and-swap of thread 1
    succeeds, the head goes back by a node, and the element 10 is delivered a
    second time.  No deleted node has been accessed. *)
Theorem reused_address_delivers_twice :
  exists q, steps (enqueue 0 10 1 ++ replicate 2 (deq 1) ++ dequeue 2 ++ enqueue 0 20 0 ++ replicate 4 (deq 2) ++ replicate 2 (deq 1))
    (UnboundedQueue 3) = Some q /\
    addr <$> nodes q = [0; 1; 0]%nat /\ deleted <$> nodes q = [true; false; false] /\
    puts q = [10; 20] /\ reads q = [(1%nat, 10); (2%nat, 20); (1%nat, 10)] /\ head_ q = 1%nat.
Proof. eexists. split; [vm_compute; reflexivity|]. by vm_compute. Qed.

(** An element can be taken before it is counted: the size of the empty queue is 2^64 - 1. *)
Theorem size_can_wrap :
  exists q, steps (replicate 4 (enq 0 10 1) ++ replicate 5 (deq 1)) (UnboundedQueue 2) = Some q /\
    passed q = length (puts q) /\ Size q = 2 ^ 64 - 1 /\ Empty q = false.
Proof. eexists. split; [vm_compute; reflexivity|]. by vm_compute. Qed.
End examples.
