(* ===== verification/LockLib.v ===== *)
(** LockLib.v -- the bookkeeping shared by the reader-writer locks

    AtomicRWLock, ReentrantRWLock and the shared-memory Block keep one signed
    counter.  [held] records what each thread has contributed to it: +1 per read
    lock, -1 per write lock.  The lemmas here say how the sum and the exclusion
    property of such a vector change when one thread's entry changes. *)

From S2P Require Import Prelude.
Local Open Scope Z_scope.

Definition sumZ (l : list Z) : Z := foldr Z.add 0 l.

(** Either nobody holds the write side, or one thread does and nobody else
    holds anything. *)
Definition exclusive (l : list Z) : Prop :=
  (forall i h, l !! i = Some h -> 0 <= h) \/
  (exists i h, l !! i = Some h /\ h < 0 /\ forall j h', l !! j = Some h' -> j <> i -> h' = 0).

Lemma sumZ_insert l i h h' :
  l !! i = Some h -> sumZ (<[i := h']> l) = sumZ l - h + h'.
Proof.
  revert i. induction l as [|x l IH]; intros [|i] Hi; simpl in *; simplify_eq; [lia|].
  rewrite (IH _ Hi). lia.
Qed.

Lemma sumZ_nonneg l : (forall i h, l !! i = Some h -> 0 <= h) -> 0 <= sumZ l.
Proof.
  induction l as [|x l IH]; intros H; simpl; [lia|].
  pose proof (H 0%nat x eq_refl). assert (0 <= sumZ l); [|lia].
  apply IH. intros i h Hi. by apply (H (S i)).
Qed.

Lemma sumZ_zero l : (forall i h, l !! i = Some h -> h = 0) -> sumZ l = 0.
Proof.
  induction l as [|x l IH]; intros H; simpl; [lia|].
  rewrite (H 0%nat x eq_refl), IH; [lia|]. intros i h Hi. by apply (H (S i)).
Qed.

Lemma sumZ_single l i h :
  l !! i = Some h -> (forall j h', l !! j = Some h' -> j <> i -> h' = 0) -> sumZ l = h.
Proof.
  intros Hi Ho. assert (sumZ (<[i := 0]> l) = 0) as E.
  { apply sumZ_zero. intros j h' Hj.
    apply list_lookup_insert_Some in Hj as [(-> & <- & _)|[? Hj]]; [done|by eapply Ho]. }
  rewrite (sumZ_insert _ _ _ _ Hi) in E. lia.
Qed.

Lemma sumZ_member l i h : (forall j h', l !! j = Some h' -> 0 <= h') -> l !! i = Some h -> h <= sumZ l.
Proof.
  intros Hn Hi. assert (0 <= sumZ (<[i := 0]> l)).
  { apply sumZ_nonneg. intros j h' Hj.
    apply list_lookup_insert_Some in Hj as [(-> & <- & _)|[? Hj]]; [done|by eapply Hn]. }
  rewrite (sumZ_insert _ _ _ _ Hi) in *. lia.
Qed.

(** A counter of value zero or more means there is no writer; zero means that
    nobody holds anything. *)
Lemma exclusive_nonneg l : exclusive l -> 0 <= sumZ l -> forall i h, l !! i = Some h -> 0 <= h.
Proof.
  intros [H|(i & h & Hi & Hh & Ho)] Hs; [done|].
  rewrite (sumZ_single _ _ _ Hi Ho) in Hs. lia.
Qed.

Lemma exclusive_zero l : exclusive l -> sumZ l = 0 -> forall i h, l !! i = Some h -> h = 0.
Proof.
  intros He Hs i h Hi. pose proof (exclusive_nonneg l He ltac:(lia)) as Hn.
  pose proof (sumZ_member l i h Hn Hi). pose proof (Hn _ _ Hi). lia.
Qed.

(** The three ways a thread's entry may change. *)
Lemma exclusive_read l i h h' :
  exclusive l -> 0 <= sumZ l -> l !! i = Some h -> 0 <= h' -> exclusive (<[i := h']> l).
Proof.
  intros He Hs Hi Hh. left. intros j x Hj.
  apply list_lookup_insert_Some in Hj as [(-> & <- & _)|[? Hj]]; [done|].
  by eapply exclusive_nonneg.
Qed.

Lemma exclusive_write l i h h' :
  exclusive l -> sumZ l = 0 -> l !! i = Some h -> h' < 0 -> exclusive (<[i := h']> l).
Proof.
  intros He Hs Hi Hh. right. exists i, h'. split; [|split; [done|]].
  - apply list_lookup_insert_eq. by eapply lookup_lt_Some.
  - intros j x Hj Hne. rewrite list_lookup_insert_ne in Hj by done. by eapply exclusive_zero.
Qed.

(** The holder of the write side changes its own depth, or a reader drops. *)
Lemma exclusive_own l i h h' :
  exclusive l -> l !! i = Some h -> h < 0 -> exclusive (<[i := h']> l).
Proof.
  intros [H|(k & x & Hk & Hx & Ho)] Hi Hh; [specialize (H _ _ Hi); lia|].
  assert (k = i) as ->.
  { destruct (decide (k = i)) as [|Hne]; [done|]. specialize (Ho i h Hi ltac:(congruence)). lia. }
  destruct (decide (h' < 0)).
  - right. exists i, h'. split; [apply list_lookup_insert_eq; by eapply lookup_lt_Some|].
    split; [done|]. intros j y Hj Hne. rewrite list_lookup_insert_ne in Hj by done. by eapply Ho.
  - left. intros j y Hj. apply list_lookup_insert_Some in Hj as [(-> & <- & _)|[? Hj]]; [lia|].
    specialize (Ho j y Hj ltac:(congruence)). lia.
Qed.

Lemma exclusive_drop l i h h' :
  exclusive l -> l !! i = Some h -> 0 < h -> 0 <= h' -> exclusive (<[i := h']> l).
Proof.
  intros [H|(k & x & Hk & Hx & Ho)] Hi Hh Hh'.
  - left. intros j y Hj. apply list_lookup_insert_Some in Hj as [(-> & <- & _)|[? Hj]]; [lia|]. eauto.
  - destruct (decide (k = i)) as [->|Hne]; [simplify_eq; lia|].
    specialize (Ho i h Hi ltac:(congruence)). lia.
Qed.

(** Exclusion as the locks promise it. *)
Definition mutual_exclusion (l : list Z) : Prop :=
  forall i j hi hj, i <> j -> l !! i = Some hi -> l !! j = Some hj -> hi < 0 -> hj = 0.

Lemma exclusive_mutual l : exclusive l -> mutual_exclusion l.
Proof.
  intros [H|(k & x & Hk & Hx & Ho)] i j hi hj Hne Hi Hj Hh; [specialize (H _ _ Hi); lia|].
  destruct (decide (i = k)) as [->|Hik]; [by eapply Ho|]. specialize (Ho i hi Hi Hik). lia.
Qed.

Lemma exclusive_replicate n : exclusive (replicate n 0).
Proof. left. intros i h Hi. by apply lookup_replicate in Hi as [-> _]. Qed.

Lemma sumZ_replicate n : sumZ (replicate n 0) = 0.
Proof. induction n; simpl; lia. Qed.

#[export] Hint Resolve exclusive_replicate sumZ_replicate : cyber.
