(* ===== verification/AtomicRWLock.v ===== *)
(** AtomicRWLock.v -- src/src/apollo/cyber/base/atomic_rw_lock.h

    The spinning reader-writer lock, one rule per atomic access, for any number
    of threads.  [std::this_thread::yield] and the retry counter that decides
    when to yield have no effect on the shared state and are left out. *)

From S2P Require Import Prelude.
From S2P Require Import LockLib.
Local Open Scope Z_scope.

Definition RW_LOCK_FREE : Z := 0.
Definition WRITE_EXCLUSIVE : Z := -1.

Record Lock := mkLock {
  write_lock_wait_num_ : Z;
  lock_num_ : Z;
  write_first_ : bool
}.

(** Where a thread is.  [RdTest n]: in ReadLock, about to test the loaded value
    n; [RdCas n]: about to compare-exchange; [WrCas]: in WriteLock, counted as a
    waiting writer; [WrDone]: has the lock, about to leave the waiting count. *)
Inductive pc := Run | RdTest (n : Z) | RdCas (n : Z) | WrCas | WrDone.

Record conf := mkConf {
  lock : Lock;
  pcs : list pc;
  held : list Z
}.

Definition set_lock_num (l : Lock) (n : Z) : Lock := mkLock (write_lock_wait_num_ l) n (write_first_ l).
Definition set_wait_num (l : Lock) (n : Z) : Lock := mkLock n (lock_num_ l) (write_first_ l).

(** The condition of the inner while of ReadLock. *)
Definition must_wait (l : Lock) (n : Z) : bool :=
  if write_first_ l then (n <? RW_LOCK_FREE) || (0 <? write_lock_wait_num_ l)
  else n <? RW_LOCK_FREE.

Inductive step (c : conf) : conf -> Prop :=
(* ReadLock *)
| rd_load i :
    pcs c !! i = Some Run ->
    step c (mkConf (lock c) (<[i := RdTest (lock_num_ (lock c))]> (pcs c)) (held c))
| rd_spin i n :
    pcs c !! i = Some (RdTest n) -> must_wait (lock c) n = true ->
    step c (mkConf (lock c) (<[i := RdTest (lock_num_ (lock c))]> (pcs c)) (held c))
| rd_go i n :
    pcs c !! i = Some (RdTest n) -> must_wait (lock c) n = false ->
    step c (mkConf (lock c) (<[i := RdCas n]> (pcs c)) (held c))
| rd_cas_ok i n h :
    pcs c !! i = Some (RdCas n) -> held c !! i = Some h -> lock_num_ (lock c) = n ->
    step c (mkConf (set_lock_num (lock c) (i32 (n + 1))) (<[i := Run]> (pcs c)) (<[i := h + 1]> (held c)))
| rd_cas_fail i n :
    pcs c !! i = Some (RdCas n) ->
    step c (mkConf (lock c) (<[i := RdTest (lock_num_ (lock c))]> (pcs c)) (held c))
(* WriteLock *)
| wr_enter i :
    pcs c !! i = Some Run ->
    step c (mkConf (set_wait_num (lock c) (u32 (write_lock_wait_num_ (lock c) + 1)))
              (<[i := WrCas]> (pcs c)) (held c))
| wr_cas_ok i h :
    pcs c !! i = Some WrCas -> held c !! i = Some h -> lock_num_ (lock c) = RW_LOCK_FREE ->
    step c (mkConf (set_lock_num (lock c) WRITE_EXCLUSIVE) (<[i := WrDone]> (pcs c)) (<[i := h - 1]> (held c)))
| wr_cas_fail i :
    pcs c !! i = Some WrCas -> step c c
| wr_done i :
    pcs c !! i = Some WrDone ->
    step c (mkConf (set_wait_num (lock c) (u32 (write_lock_wait_num_ (lock c) - 1)))
              (<[i := Run]> (pcs c)) (held c))
(* ReadUnlock, WriteUnlock: called by the guards, so by a holder *)
| rd_unlock i h :
    pcs c !! i = Some Run -> held c !! i = Some h -> 0 < h ->
    step c (mkConf (set_lock_num (lock c) (i32 (lock_num_ (lock c) - 1))) (pcs c) (<[i := h - 1]> (held c)))
| wr_unlock i h :
    pcs c !! i = Some Run -> held c !! i = Some h -> h < 0 ->
    step c (mkConf (set_lock_num (lock c) (i32 (lock_num_ (lock c) + 1))) (pcs c) (<[i := h + 1]> (held c))).

Definition init (write_first : bool) (n : nat) : conf :=
  mkConf (mkLock 0 0 write_first) (replicate n Run) (replicate n 0).

(** Fewer than 2^31 - 1 read locks are held. *)
Definition in_range (c : conf) : Prop := lock_num_ (lock c) < 2 ^ 31 - 1.
Definition bounded_step (c c' : conf) : Prop := step c c' /\ in_range c.

(** A thread counted as a waiting writer. *)
Definition waiting (p : pc) : Z := match p with WrCas | WrDone => 1 | _ => 0 end.

Record inv (c : conf) : Prop := mkInv {
  iv_sum : lock_num_ (lock c) = sumZ (held c);
  iv_excl : exclusive (held c);
  iv_min : -1 <= lock_num_ (lock c);
  iv_cas : forall i n, pcs c !! i = Some (RdCas n) -> 0 <= n;
  iv_wait : write_lock_wait_num_ (lock c) = u32 (sumZ (waiting <$> pcs c))
}.

Lemma cas_update (ps : list pc) i p :
  (forall j n, ps !! j = Some (RdCas n) -> 0 <= n) -> (forall n, p = RdCas n -> 0 <= n) ->
  forall j n, <[i := p]> ps !! j = Some (RdCas n) -> 0 <= n.
Proof.
  intros H Hp j n Hj. apply list_lookup_insert_Some in Hj as [(-> & -> & _)|[? Hj]]; eauto.
Qed.

Lemma wait_update (ps : list pc) i p p' :
  ps !! i = Some p -> sumZ (waiting <$> <[i := p']> ps) = sumZ (waiting <$> ps) - waiting p + waiting p'.
Proof.
  intros H. rewrite list_fmap_insert. apply sumZ_insert. by rewrite list_lookup_fmap, H.
Qed.

Lemma wait_same (ps : list pc) i p p' :
  ps !! i = Some p -> waiting p' = waiting p -> sumZ (waiting <$> <[i := p']> ps) = sumZ (waiting <$> ps).
Proof. intros H E. rewrite (wait_update _ _ _ _ H), E. lia. Qed.

(** A step that moves one thread and touches no shared variable. *)
Lemma inv_pc c i p p' :
  inv c -> pcs c !! i = Some p -> waiting p' = waiting p -> (forall n, p' = RdCas n -> 0 <= n) ->
  inv (mkConf (lock c) (<[i := p']> (pcs c)) (held c)).
Proof.
  intros [] Hi Hw Hp. constructor; simpl; try done; [by apply cas_update|].
  by rewrite (wait_same _ _ _ _ Hi Hw).
Qed.

(** A step that changes the counter by what thread [i] acquires or releases. *)
Lemma inv_count c i p p' h d :
  inv c -> pcs c !! i = Some p -> waiting p' = waiting p -> (forall n, p' = RdCas n -> 0 <= n) ->
  held c !! i = Some h -> exclusive (<[i := h + d]> (held c)) -> -1 <= lock_num_ (lock c) + d ->
  inv (mkConf (set_lock_num (lock c) (lock_num_ (lock c) + d)) (<[i := p']> (pcs c)) (<[i := h + d]> (held c))).
Proof.
  intros [] Hi Hw Hp Hh He Hm. constructor; simpl; try done; [|by apply cas_update|].
  - rewrite (sumZ_insert _ _ _ _ Hh). lia.
  - by rewrite (wait_same _ _ _ _ Hi Hw).
Qed.

Lemma rw_held_positive l i h : exclusive l -> l !! i = Some h -> 0 < h -> 0 < sumZ l.
Proof.
  intros [He|(k & x & Hk & Hx & Ho)] Hi Hp; [pose proof (sumZ_member l i h He Hi); lia|].
  destruct (decide (i = k)) as [->|Hne]; [simplify_eq; lia|]. specialize (Ho i h Hi Hne). lia.
Qed.

Lemma rw_inv_step c c' : inv c -> bounded_step c c' -> inv c'.
Proof.
  intros H [Hs Hr]. assert (H' := H). destruct H'. unfold in_range in Hr.
  destruct Hs as [i Hi|i n Hi Hm|i n Hi Hm|i n h Hi Hh Hn|i n Hi|i Hi|i h Hi Hh Hn|i Hi|i Hi
                 |i h Hi Hh Hp|i h Hi Hh Hp]; try done; try (by eapply inv_pc).
  - eapply inv_pc; [done|done|done|]. intros m [= <-]. unfold must_wait, RW_LOCK_FREE in Hm.
    destruct (write_first_ (lock c)); zcases; try done; lia.
  - pose proof (iv_cas0 _ _ Hi). subst n. rewrite i32_small by (unfold is_i32; lia).
    eapply inv_count; [done|done|done|done|done| |lia].
    eapply exclusive_read; [done|lia|done|].
    pose proof (exclusive_nonneg _ iv_excl0 ltac:(lia) _ _ Hh). lia.
  - constructor; simpl; [done|done|done|by apply cas_update|].
    rewrite (wait_update _ _ _ _ Hi), iv_wait0. unfold u32. rewrite Zplus_mod_idemp_l. f_equal. simpl. lia.
  - unfold RW_LOCK_FREE, WRITE_EXCLUSIVE in *.
    replace (-1) with (lock_num_ (lock c) + -1) by lia. replace (h - 1) with (h + -1) by lia.
    assert (h = 0) as -> by (eapply exclusive_zero; [done|lia|done]).
    eapply inv_count; [done|done|done|done|done| |lia]. eapply exclusive_write; [done|lia|done|lia].
  - constructor; simpl; [done|done|done|by apply cas_update|].
    rewrite (wait_update _ _ _ _ Hi), iv_wait0. unfold u32. rewrite Zminus_mod_idemp_l. f_equal. simpl. lia.
  - pose proof (rw_held_positive _ _ _ iv_excl0 Hh Hp). rewrite i32_small by (unfold is_i32; lia).
    rewrite <- (list_insert_id _ _ _ Hi) at 1.
    eapply (inv_count c i Run Run h (-1)); [done|done|done|done|done| |lia]. eapply exclusive_drop; [done|done|done|lia].
  - rewrite i32_small by (unfold is_i32; lia). rewrite <- (list_insert_id _ _ _ Hi) at 1.
    eapply (inv_count c i Run Run h 1); [done|done|done|done|done| |lia]. by eapply exclusive_own.
Qed.

Lemma rw_inv_init wf n : inv (init wf n).
Proof.
  constructor; simpl; [by rewrite sumZ_replicate|apply exclusive_replicate|lia|..].
  - intros i m Hi. by apply lookup_replicate in Hi as [? _].
  - rewrite fmap_replicate. simpl. by rewrite sumZ_replicate.
Qed.

Lemma rw_inv_reachable c c' : inv c -> rtc bounded_step c c' -> inv c'.
Proof. intros Hi Hs. induction Hs; [done|]. eauto using rw_inv_step. Qed.

(** C9. Mutual exclusion of AtomicRWLock: in every state any number of threads
    can reach, the counter equals the number of read locks held, or is -1 when
    one thread holds the write lock; and then no other thread holds anything. *)
Theorem rw_lock_mutual_exclusion write_first n c :
  rtc bounded_step (init write_first n) c ->
  mutual_exclusion (held c) /\ lock_num_ (lock c) = sumZ (held c) /\ -1 <= lock_num_ (lock c).
Proof.
  intros Hr. assert (inv c) as [] by (eapply rw_inv_reachable; [apply rw_inv_init|done]).
  split; [by apply exclusive_mutual|done].
Qed.

(** Writer preference: with [write_first_] a reader that tests while a
    writer is waiting does not proceed to take the lock; it re-reads the counter
    and tests again. *)
Theorem write_first_blocks_readers c i n c' :
  write_first_ (lock c) = true -> 0 < write_lock_wait_num_ (lock c) ->
  pcs c !! i = Some (RdTest n) -> step c c' ->
  pcs c' !! i = Some (RdTest n) \/ pcs c' !! i = Some (RdTest (lock_num_ (lock c))).
Proof.
  intros Hwf Hw Hi Hs.
  assert (forall k p, k <> i -> <[k := p]> (pcs c) !! i = Some (RdTest n)) as Hother
    by (intros; by rewrite list_lookup_insert_ne).
  destruct Hs as [k Hk|k m Hk Hm|k m Hk Hm|k m h Hk Hh Hn|k m Hk|k Hk|k h Hk Hh Hn|k Hk|k Hk
                 |k h Hk Hh Hp|k h Hk Hh Hp]; simpl; try (left; done);
    (destruct (decide (k = i)) as [->|Hne]; [|left; by apply Hother]); simplify_eq.
  - right. apply list_lookup_insert_eq. by eapply lookup_lt_Some.
  - unfold must_wait in Hm. rewrite Hwf in Hm. apply orb_false_iff in Hm as [_ Hm].
    apply Z.ltb_ge in Hm. lia.
Qed.

(** ** Concrete runs *)

Tactic Notation "lstep" uconstr(r) :=
  eapply rtc_l; [split; [apply r; vm_compute; congruence|vm_compute; reflexivity]|].

(** Thread 0 takes the write lock while thread 1 spins. *)
Lemma rw_lock_mutual_exclusion_witness :
  exists c, rtc bounded_step (init true 2) c /\ held c = [-1; 0] /\ mutual_exclusion (held c).
Proof.
  assert (exists c, rtc bounded_step (init true 2) c /\ held c = [-1; 0]) as (c & Hc & Hh).
  { eexists. split.
    - lstep (wr_enter _ 0%nat). lstep (rd_load _ 1%nat). lstep (wr_cas_ok _ 0%nat 0).
      lstep (rd_spin _ 1%nat 0). lstep (wr_done _ 0%nat). apply rtc_refl.
    - reflexivity. }
  exists c. split; [exact Hc|]. split; [exact Hh|].
  exact (proj1 (rw_lock_mutual_exclusion true 2 c Hc)).
Defined.

Definition waiting_writer : conf := mkConf (mkLock 1 0 true) [WrCas; RdTest 0] [0; 0].

Lemma write_first_blocks_readers_witness :
  pcs (mkConf (lock waiting_writer) [WrCas; RdTest 0] [0; 0]) !! 1%nat = Some (RdTest 0) \/
  pcs (mkConf (lock waiting_writer) [WrCas; RdTest 0] [0; 0]) !! 1%nat = Some (RdTest 0).
Proof.
  refine (write_first_blocks_readers waiting_writer 1%nat 0
            (mkConf (lock waiting_writer) [WrCas; RdTest 0] [0; 0]) eq_refl _ eq_refl _).
  - vm_compute. reflexivity.
  - exact (rd_spin waiting_writer 1%nat 0 eq_refl eq_refl).
Defined.
