(* ===== verification/ReentrantRWLock.v ===== *)
(** ReentrantRWLock.v -- src/src/apollo/cyber/base/reentrant_rw_lock.h

    The lock whose writer may lock again.  [write_thread_id_] is an ordinary
    variable: WriteLock sets it after it acquired the counter and WriteUnlock
    clears it after it released the counter, so those are steps of their own.
    Mutual exclusion survives; reentrancy does not (see
    [reentrancy_can_be_lost]). *)

From S2P Require Import Prelude.
From S2P Require Import LockLib.
Local Open Scope Z_scope.

Definition RW_LOCK_FREE : Z := 0.
Definition WRITE_EXCLUSIVE : Z := -1.

Record Lock := mkLock {
  write_thread_id_ : option nat;   (* None: NULL_THREAD_ID *)
  write_lock_wait_num_ : Z;
  lock_num_ : Z;
  write_first_ : bool
}.

(** [WrSetId]: acquired, about to store the thread id; [WrDone]: about to leave
    the waiting count; [WrNull]: released, about to clear the thread id. *)
Inductive pc := Run | RdTest (n : Z) | RdCas (n : Z) | WrCas | WrSetId | WrDone | WrNull.

Record conf := mkConf { lock : Lock; pcs : list pc; held : list Z }.

Definition set_lock_num (l : Lock) (n : Z) : Lock :=
  mkLock (write_thread_id_ l) (write_lock_wait_num_ l) n (write_first_ l).
Definition set_wait_num (l : Lock) (n : Z) : Lock :=
  mkLock (write_thread_id_ l) n (lock_num_ l) (write_first_ l).
Definition set_id (l : Lock) (t : option nat) : Lock :=
  mkLock t (write_lock_wait_num_ l) (lock_num_ l) (write_first_ l).

Definition must_wait (l : Lock) (n : Z) : bool :=
  if write_first_ l then (n <? RW_LOCK_FREE) || (0 <? write_lock_wait_num_ l)
  else n <? RW_LOCK_FREE.

Inductive step (c : conf) : conf -> Prop :=
(* ReadLock *)
| rd_self i :
    pcs c !! i = Some Run -> write_thread_id_ (lock c) = Some i -> step c c
| rd_load i :
    pcs c !! i = Some Run -> write_thread_id_ (lock c) <> Some i ->
    step c (mkConf (lock c) (<[i := RdTest (lock_num_ (lock c))]> (pcs c)) (held c))
| rd_spin i n :
    pcs c !! i = Some (RdTest n) -> must_wait (lock c) n = true ->
    step c (mkConf (lock c) (<[i := RdTest (lock_num_ (lock c))]> (pcs c)) (held c))
| rd_go i n :
    pcs c !! i = Some (RdTest n) -> must_wait (lock c) n = false ->
    step c (mkConf (lock c) (<[i := RdCas n]> (pcs c)) (held c))
| rd_cas_ok i n h :
    pcs c !! i = Some (RdCas n) -> held c !! i = Some h -> lock_num_ (lock c) = n ->
    step c (mkConf (set_lock_num (lock c) (i32 (n + 1))) (<[i := Run]> (pcs c)) (<[i := h + 1]> (held c)))
| rd_cas_fail i n :
    pcs c !! i = Some (RdCas n) ->
    step c (mkConf (lock c) (<[i := RdTest (lock_num_ (lock c))]> (pcs c)) (held c))
(* WriteLock *)
| wr_self i h :
    pcs c !! i = Some Run -> write_thread_id_ (lock c) = Some i -> held c !! i = Some h ->
    step c (mkConf (set_lock_num (lock c) (i32 (lock_num_ (lock c) - 1))) (<[i := Run]> (pcs c))
              (<[i := h - 1]> (held c)))
| wr_enter i :
    pcs c !! i = Some Run -> write_thread_id_ (lock c) <> Some i ->
    step c (mkConf (set_wait_num (lock c) (u32 (write_lock_wait_num_ (lock c) + 1)))
              (<[i := WrCas]> (pcs c)) (held c))
| wr_cas_ok i h :
    pcs c !! i = Some WrCas -> held c !! i = Some h -> lock_num_ (lock c) = RW_LOCK_FREE ->
    step c (mkConf (set_lock_num (lock c) WRITE_EXCLUSIVE) (<[i := WrSetId]> (pcs c)) (<[i := h - 1]> (held c)))
| wr_cas_fail i :
    pcs c !! i = Some WrCas -> step c c
| wr_set_id i :
    pcs c !! i = Some WrSetId ->
    step c (mkConf (set_id (lock c) (Some i)) (<[i := WrDone]> (pcs c)) (held c))
| wr_done i :
    pcs c !! i = Some WrDone ->
    step c (mkConf (set_wait_num (lock c) (u32 (write_lock_wait_num_ (lock c) - 1)))
              (<[i := Run]> (pcs c)) (held c))
(* ReadUnlock *)
| ru_self i :
    pcs c !! i = Some Run -> write_thread_id_ (lock c) = Some i -> step c c
| ru i h :
    pcs c !! i = Some Run -> write_thread_id_ (lock c) <> Some i -> held c !! i = Some h -> h <> 0 ->
    step c (mkConf (set_lock_num (lock c) (i32 (lock_num_ (lock c) - 1))) (<[i := Run]> (pcs c))
              (<[i := h - 1]> (held c)))
(* WriteUnlock *)
| wu_last i h :
    pcs c !! i = Some Run -> held c !! i = Some h -> h < 0 -> lock_num_ (lock c) = WRITE_EXCLUSIVE ->
    step c (mkConf (set_lock_num (lock c) (i32 (lock_num_ (lock c) + 1))) (<[i := WrNull]> (pcs c))
              (<[i := h + 1]> (held c)))
| wu_nested i h :
    pcs c !! i = Some Run -> held c !! i = Some h -> h < 0 -> lock_num_ (lock c) <> WRITE_EXCLUSIVE ->
    step c (mkConf (set_lock_num (lock c) (i32 (lock_num_ (lock c) + 1))) (<[i := Run]> (pcs c))
              (<[i := h + 1]> (held c)))
| wr_null i :
    pcs c !! i = Some WrNull ->
    step c (mkConf (set_id (lock c) None) (<[i := Run]> (pcs c)) (held c)).

Definition init (write_first : bool) (n : nat) : conf :=
  mkConf (mkLock None 0 0 write_first) (replicate n Run) (replicate n 0).

Definition in_range (c : conf) : Prop := - 2 ^ 31 < lock_num_ (lock c) < 2 ^ 31 - 1.
Definition bounded_step (c c' : conf) : Prop := step c c' /\ in_range c.

(** What a program point implies about what its thread holds. *)
Definition pc_ok (p : pc) (h : Z) : Prop :=
  match p with
  | RdCas n => 0 <= n
  | WrSetId | WrDone => h < 0
  | _ => True
  end.

(** The stored thread id belongs to a thread that holds the write lock, or that
    is about to clear it. *)
Definition thread_ok (id : option nat) (i : nat) (p : pc) (h : Z) : Prop :=
  pc_ok p h /\ (id = Some i -> p = WrNull \/ h < 0).

Record inv (c : conf) : Prop := mkInv {
  iv_sum : lock_num_ (lock c) = sumZ (held c);
  iv_excl : exclusive (held c);
  iv_len : length (pcs c) = length (held c);
  iv_ok : forall i p h, pcs c !! i = Some p -> held c !! i = Some h ->
    thread_ok (write_thread_id_ (lock c)) i p h
}.

(** Pointwise properties after thread [i] moved to [p'] holding [h']. *)
Lemma pcs_update (P : nat -> pc -> Z -> Prop) (ps : list pc) (hs : list Z) i p' h' :
  (forall j p h, j <> i -> ps !! j = Some p -> hs !! j = Some h -> P j p h) -> P i p' h' ->
  forall j p h, <[i := p']> ps !! j = Some p -> <[i := h']> hs !! j = Some h -> P j p h.
Proof.
  intros Ho Hi j p h Hp Hh.
  apply list_lookup_insert_Some in Hp as [(-> & <- & _)|[Hne Hp]];
    apply list_lookup_insert_Some in Hh as [(E & <- & _)|[Hne' Hh]]; try done.
  by apply Ho.
Qed.

(** Every step moves one thread to [p'], adds [d] to the counter and to what the
    thread holds, and stores no id but the thread's own. *)
Lemma inv_move c i p p' h d l' n' :
  inv c -> pcs c !! i = Some p -> held c !! i = Some h ->
  exclusive (<[i := n']> (held c)) -> n' = h + d -> lock_num_ l' = lock_num_ (lock c) + d ->
  thread_ok (write_thread_id_ l') i p' n' ->
  (forall j, write_thread_id_ l' = Some j -> j = i \/ write_thread_id_ (lock c) = Some j) ->
  inv (mkConf l' (<[i := p']> (pcs c)) (<[i := n']> (held c))).
Proof.
  intros [] Hi Hh He -> El Hp Hid. constructor; simpl; [|done|by rewrite !length_insert|].
  - rewrite (sumZ_insert _ _ _ _ Hh). lia.
  - apply pcs_update; [|done]. intros j q x Hne Hq Hx.
    destruct (iv_ok0 _ _ _ Hq Hx) as [H1 H2]. split; [done|]. intros E.
    destruct (Hid j E) as [|E']; [done|by apply H2].
Qed.

(** The same when the thread acquires and releases nothing. *)
Lemma re_inv_quiet c i p p' h l' :
  inv c -> pcs c !! i = Some p -> held c !! i = Some h -> lock_num_ l' = lock_num_ (lock c) ->
  thread_ok (write_thread_id_ l') i p' h ->
  (forall j, write_thread_id_ l' = Some j -> j = i \/ write_thread_id_ (lock c) = Some j) ->
  inv (mkConf l' (<[i := p']> (pcs c)) (held c)).
Proof.
  intros H Hi Hh El Hp Hid. rewrite <- (list_insert_id (held c) i h Hh) at 1.
  apply (inv_move c i p p' h 0 l' h); try done; [|lia|lia].
  rewrite list_insert_id by done. by destruct H.
Qed.

(** A thread that holds the write lock is the only contributor. *)
Lemma held_negative c i h : inv c -> held c !! i = Some h -> h < 0 -> lock_num_ (lock c) = h.
Proof.
  intros [] Hh Hn. rewrite iv_sum0.
  destruct iv_excl0 as [He|(k & x & Hk & Hx & Ho)]; [specialize (He _ _ Hh); lia|].
  destruct (decide (i = k)) as [->|Hne]; [by eapply sumZ_single|].
  specialize (Ho i h Hh Hne). lia.
Qed.

Lemma re_held_positive c i h : inv c -> held c !! i = Some h -> 0 < h -> 0 < lock_num_ (lock c).
Proof.
  intros [] Hh Hp. rewrite iv_sum0.
  destruct iv_excl0 as [He|(k & x & Hk & Hx & Ho)]; [pose proof (sumZ_member _ i h He Hh); lia|].
  destruct (decide (i = k)) as [->|Hne]; [simplify_eq; lia|]. specialize (Ho i h Hh Hne). lia.
Qed.

Lemma held_exists c i p : inv c -> pcs c !! i = Some p -> exists h, held c !! i = Some h.
Proof.
  intros [] Hi. destruct (lookup_lt_is_Some_2 (held c) i) as [h Hh]; [|eauto].
  rewrite <- iv_len0. by eapply lookup_lt_Some.
Qed.

(** A step that leaves the id alone keeps what the id says, whatever the thread
    moves to, unless it leaves [WrNull]. *)
Lemma thread_ok_stay id i p p' h :
  thread_ok id i p h -> p <> WrNull -> pc_ok p' h -> thread_ok id i p' h.
Proof. intros [Hp Hq] Hn Hp'. split; [done|]. intros E. by destruct (Hq E); [|right]. Qed.

Lemma thread_ok_neg id i p h : pc_ok p h -> h < 0 -> thread_ok id i p h.
Proof. intros. split; [done|by right]. Qed.

Lemma thread_ok_other id i p h : pc_ok p h -> id <> Some i -> thread_ok id i p h.
Proof. intros. by split. Qed.

Lemma must_wait_false l n : must_wait l n = false -> 0 <= n.
Proof. unfold must_wait, RW_LOCK_FREE. destruct (write_first_ l); intros; zcases; try done; lia. Qed.

Local Ltac quiet := eapply re_inv_quiet; [done|done|done|done| |by right].

Lemma re_inv_step c c' : inv c -> bounded_step c c' -> inv c'.
Proof.
  intros H [Hs Hr]. unfold in_range in Hr. pose proof (iv_sum _ H) as Hsum. pose proof (iv_excl _ H) as Hex.
  destruct Hs as [i Hi Hid|i Hi Hid|i n Hi Hm|i n Hi Hm|i n h Hi Hh Hn|i n Hi|i h Hi Hid Hh|i Hi Hid
    |i h Hi Hh Hn|i Hi|i Hi|i Hi|i Hi Hid|i h Hi Hid Hh H0|i h Hi Hh H0 Hn|i h Hi Hh H0 Hn|i Hi];
    try done;
    destruct (held_exists c i _ H Hi) as [h0 Hh0];
    try (assert (h = h0) by congruence; subst h; clear Hh);
    pose proof (iv_ok _ H _ _ _ Hi Hh0) as Hok;
    rewrite ?i32_small by (unfold is_i32, WRITE_EXCLUSIVE in *; lia).
  - quiet. by apply thread_ok_other.
  - quiet. by eapply thread_ok_stay.
  - quiet. eapply thread_ok_stay; [done|done|]. by eapply must_wait_false.
  - destruct Hok as [Hp Hq]. simpl in Hp. subst n.
    pose proof (exclusive_nonneg _ Hex ltac:(lia) _ _ Hh0).
    eapply inv_move; [done|done|done| |done|done| |by right].
    + eapply exclusive_read; [done|lia|done|lia].
    + split; [done|]. intros E. destruct (Hq E); [done|lia].
  - quiet. by eapply thread_ok_stay.
  - destruct (proj2 Hok Hid) as [|Hneg]; [done|].
    eapply (inv_move c i Run Run h0 (-1)); [done|done|done| |lia|simpl; lia| |by right].
    + by eapply exclusive_own.
    + apply thread_ok_neg; [done|lia].
  - quiet. by apply thread_ok_other.
  - unfold RW_LOCK_FREE, WRITE_EXCLUSIVE in *.
    assert (h0 = 0) as -> by (eapply exclusive_zero; [done|lia|done]).
    eapply (inv_move c i WrCas WrSetId 0 (-1)); [done|done|done| |lia|simpl; lia| |by right].
    + eapply exclusive_write; [done|lia|done|lia].
    + apply thread_ok_neg; simpl; lia.
  - eapply re_inv_quiet; [done|done|done|done| |]; [by apply thread_ok_neg; apply Hok|].
    intros j [= <-]. by left.
  - quiet. by apply thread_ok_neg; [|apply Hok].
  - eapply (inv_move c i Run Run h0 (-1)); [done|done|done| |lia|simpl; lia|by apply thread_ok_other|by right].
    destruct (decide (0 < h0)); [eapply exclusive_drop|eapply exclusive_own]; done || lia.
  - eapply (inv_move c i Run WrNull h0 1); [done|done|done| |done|done|split; [done|by left]|by right].
    by eapply exclusive_own.
  - pose proof (held_negative c i h0 H Hh0 H0) as E. unfold WRITE_EXCLUSIVE in Hn.
    eapply (inv_move c i Run Run h0 1); [done|done|done| |done|done|apply thread_ok_neg; [done|lia]|by right].
    by eapply exclusive_own.
  - eapply re_inv_quiet; [done|done|done|done|by split|done].
Qed.

Lemma re_inv_init wf n : inv (init wf n).
Proof.
  constructor; simpl; [by rewrite sumZ_replicate|apply exclusive_replicate|by rewrite !length_replicate|].
  intros i p h Hi Hh. apply lookup_replicate in Hi as [-> _]. by split.
Qed.

Lemma re_inv_reachable c c' : inv c -> rtc bounded_step c c' -> inv c'.
Proof. intros Hi Hs. induction Hs; [done|]. eauto using re_inv_step. Qed.

(** C10. Mutual exclusion of ReentrantRWLock holds in every reachable state, in
    spite of the unsynchronised thread id: a thread that contributes write locks
    to the counter is the only one that contributes anything. *)
Theorem reentrant_mutual_exclusion write_first n c :
  rtc bounded_step (init write_first n) c ->
  mutual_exclusion (held c) /\ lock_num_ (lock c) = sumZ (held c).
Proof.
  intros Hr. assert (inv c) as [] by (eapply re_inv_reachable; [apply re_inv_init|done]).
  split; [by apply exclusive_mutual|done].
Qed.

(** A holder of the write lock that waits for it again waits forever. *)
Lemma self_wait_step c c' i h :
  inv c -> pcs c !! i = Some WrCas -> held c !! i = Some h -> h < 0 -> bounded_step c c' ->
  pcs c' !! i = Some WrCas /\ held c' !! i = Some h.
Proof.
  intros H Hi Hh Hn [Hs _]. pose proof (held_negative c i h H Hh Hn) as E.
  assert (forall k p, k <> i -> <[k := p]> (pcs c) !! i = Some WrCas) as Hpc
    by (intros; by rewrite list_lookup_insert_ne).
  assert (forall k x, k <> i -> <[k := x]> (held c) !! i = Some h) as Hhe
    by (intros; by rewrite list_lookup_insert_ne).
  destruct Hs as [k Hk|k Hk|k n Hk|k n Hk|k n x Hk Hx|k n Hk|k x Hk ? Hx|k Hk|k x Hk Hx Hz|k Hk|k Hk|k Hk
    |k Hk|k x Hk ? Hx|k x Hk Hx|k x Hk Hx|k Hk]; simpl; try done;
    (destruct (decide (k = i)) as [->|Hne]; [|by split; [apply Hpc|try apply Hhe]]);
    simplify_eq; unfold RW_LOCK_FREE in *; lia.
Qed.

Lemma self_wait_forever c c' i h :
  inv c -> pcs c !! i = Some WrCas -> held c !! i = Some h -> h < 0 -> rtc bounded_step c c' ->
  pcs c' !! i = Some WrCas.
Proof.
  intros H Hi Hh Hn Hs. revert H Hi Hh. induction Hs as [|a b d Hab Hbd IH]; intros H Hi Hh; [done|].
  destruct (self_wait_step a b i h H Hi Hh Hn Hab). apply IH; [by eapply re_inv_step|done|done].
Qed.

Tactic Notation "rstep" uconstr(r) :=
  eapply rtc_l; [split; [apply r; vm_compute; congruence|vm_compute; split; reflexivity]|];
  match goal with |- rtc _ ?c _ => let v := eval vm_compute in c in change c with v end.

(** Thread 1 holds the write lock, the id is gone, and it locks again. *)
Definition wiped : conf := mkConf (mkLock None 1 (-1) true) [Run; WrCas] [0; -1].

(** Reentrancy can be lost: WriteUnlock clears the thread id after it
    released the counter, so it can wipe the id of the next writer.  Two threads
    reach a state where thread 1 holds the write lock, calls WriteLock again
    (which the class promises to allow) and waits forever, whatever happens
    next. *)
Theorem reentrancy_can_be_lost :
  exists c, rtc bounded_step (init true 2) c /\ held c = [0; -1] /\
    pcs c !! 1%nat = Some WrCas /\
    forall c', rtc bounded_step c c' -> pcs c' !! 1%nat = Some WrCas.
Proof.
  exists wiped. split; [|split; [|split]].
  - (* thread 0 locks and starts to unlock *)
    rstep (wr_enter _ 0%nat). rstep (wr_cas_ok _ 0%nat 0). rstep (wr_set_id _ 0%nat).
    rstep (wr_done _ 0%nat). rstep (wu_last _ 0%nat (-1)).
    (* thread 1 locks, then thread 0 clears the id *)
    rstep (wr_enter _ 1%nat). rstep (wr_cas_ok _ 1%nat 0). rstep (wr_set_id _ 1%nat).
    rstep (wr_done _ 1%nat). rstep (wr_null _ 0%nat).
    (* thread 1 locks again *)
    rstep (wr_enter _ 1%nat). apply rtc_refl.
  - reflexivity.
  - reflexivity.
  - intros c' Hc. eapply (self_wait_forever wiped c' 1%nat (-1)); [|reflexivity|reflexivity|lia|exact Hc].
    constructor; [reflexivity| |reflexivity|].
    + right. exists 1%nat, (-1). split; [reflexivity|]. split; [lia|].
      intros [|[|j]] h Hj; simpl in *; intros; simplify_eq; done.
    + intros [|[|i]] p h Hp Hh; simpl in *; simplify_eq; by split.
Qed.

Lemma reentrant_mutual_exclusion_witness :
  exists c, rtc bounded_step (init true 2) c /\ held c = [-2; 0] /\ mutual_exclusion (held c).
Proof.
  assert (exists c, rtc bounded_step (init true 2) c /\ held c = [-2; 0]) as (c & Hc & Hh).
  { eexists. split.
    - rstep (wr_enter _ 0%nat). rstep (wr_cas_ok _ 0%nat 0). rstep (wr_set_id _ 0%nat).
      rstep (wr_done _ 0%nat). rstep (wr_self _ 0%nat (-1)). apply rtc_refl.
    - reflexivity. }
  exists c. split; [exact Hc|]. split; [exact Hh|].
  exact (proj1 (reentrant_mutual_exclusion true 2 c Hc)).
Defined.
