(* ===== verification/AtomicHashMap.v ===== *)
(** AtomicHashMap.v -- src/src/apollo/cyber/base/atomic_hash_map.h

    The hash table of GlobalData and DataDispatcher: TableSize buckets, each a
    singly linked list of entries in ascending key order behind a sentinel.
    This file has the operations as one thread sees them and their refinement to
    a finite map; AtomicHashMapConc.v interleaves them.

    A bucket is the list of its entries after the sentinel [head_].  Keys are
    uint64_t. *)

From S2P Require Import Prelude.
Local Open Scope Z_scope.

Section bucket.
Context {V : Type}.

Record Entry := mkEntry { key : Z; value : V }.
Notation Bucket := (list Entry).

(** Bucket::Has *)
Fixpoint BHas (k : Z) (m_target : Bucket) : bool :=
  match m_target with
  | [] => false
  | target :: next => if key target <? k then BHas k next else key target =? k
  end.

(** Bucket::Find: the flag, the entries up to and including [prev], and the list
    that starts at [target]. *)
Fixpoint Find (k : Z) (m_target : Bucket) : bool * Bucket * Bucket :=
  match m_target with
  | [] => (false, [], [])
  | target :: next =>
      if key target =? k then (true, [], m_target)
      else if k <? key target then (false, [], m_target)
      else let '(b, prev, rest) := Find k next in (b, target :: prev, rest)
  end.

(** Bucket::Insert: update the found entry or link a new one between [prev] and
    [target]. *)
Definition BInsert (k : Z) (v : V) (b : Bucket) : Bucket :=
  match Find k b with
  | (true, prev, target :: next) => prev ++ mkEntry (key target) v :: next
  | (_, prev, rest) => prev ++ mkEntry k v :: rest
  end.

(** Bucket::Get *)
Definition BGet (k : Z) (b : Bucket) : option V :=
  match Find k b with
  | (true, _, target :: _) => Some (value target)
  | _ => None
  end.

(** ** The table *)

Record AtomicHashMap := mkMap { table_ : list Bucket; mode_num_ : Z }.

Definition NewMap (TableSize : Z) : AtomicHashMap :=
  mkMap (replicate (Z.to_nat TableSize) []) (TableSize - 1).

Definition index (m : AtomicHashMap) (k : Z) : Z := Z.land k (mode_num_ m).
Definition bucket (m : AtomicHashMap) (k : Z) : Bucket := default [] (zget (table_ m) (index m k)).

Definition Has (m : AtomicHashMap) (k : Z) : bool := BHas k (bucket m k).
Definition Get (m : AtomicHashMap) (k : Z) : option V := BGet k (bucket m k).
Definition Set_ (m : AtomicHashMap) (k : Z) (v : V) : AtomicHashMap :=
  mkMap (zset (table_ m) (index m k) (BInsert k v (bucket m k))) (mode_num_ m).

(** ** Buckets are sorted *)

Definition sorted (b : Bucket) : Prop := StronglySorted Z.lt (key <$> b).

(** Find splits a sorted bucket around the key. *)
Lemma Find_split k b f prev rest :
  sorted b -> Find k b = (f, prev, rest) ->
  b = prev ++ rest /\ (forall e, e ∈ prev -> key e < k) /\
  match f, rest with
  | true, e :: _ => key e = k
  | true, [] => False
  | false, e :: _ => k < key e
  | false, [] => True
  end.
Proof.
  intros Hs. revert f prev rest. induction b as [|e b IH]; intros f prev rest E; simpl in E.
  { simplify_eq. split_and!; [done|by intros ? ?%not_elem_of_nil|done]. }
  inversion Hs as [|? ? Hs' Hf]; subst.
  destruct (Z.eqb_spec (key e) k) as [<-|Hne]; [simplify_eq; split_and!; [done|by intros ? ?%not_elem_of_nil|done]|].
  destruct (Z.ltb_spec k (key e)) as [Hlt|Hge]; [simplify_eq; split_and!; [done|by intros ? ?%not_elem_of_nil|done]|].
  destruct (Find k b) as [[f0 p0] r0]. simplify_eq.
  destruct (IH Hs' _ _ _ eq_refl) as (-> & Hlt & Hr). split_and!; [done| |done].
  intros e' He'. apply elem_of_cons in He' as [->|He']; [lia|auto].
Qed.

(** The entries after the split are above the key. *)
Lemma sorted_app_lt b1 e b2 : sorted (b1 ++ e :: b2) -> forall e', e' ∈ b2 -> key e < key e'.
Proof.
  unfold sorted. rewrite fmap_app. intros Hs e' He'.
  apply StronglySorted_app_1_r in Hs. simpl in Hs. inversion Hs as [|? ? _ Hf]; subst.
  rewrite Forall_forall in Hf. apply Hf. by apply list_elem_of_fmap_2.
Qed.

Lemma sorted_insert prev rest k v :
  sorted (prev ++ rest) -> (forall e, e ∈ prev -> key e < k) ->
  (match rest with e :: _ => k < key e | [] => True end) -> sorted (prev ++ mkEntry k v :: rest).
Proof.
  unfold sorted. intros Hs Hp Hr. induction prev as [|e prev IH]; simpl in *.
  - constructor; [done|]. destruct rest as [|e rest]; simpl in *; [done|].
    inversion Hs as [|? ? Hs' Hf]; subst. constructor; [done|]. eapply Forall_impl; [done|]. simpl. lia.
  - inversion Hs as [|? ? Hs' Hf]; subst. constructor; [apply IH; [done|]; intros e' He'; apply Hp; by right|].
    rewrite fmap_app in *. simpl. apply Forall_app in Hf as [Hf1 Hf2]. apply Forall_app. split; [done|].
    constructor; [|done]. apply Hp. by left.
Qed.

(** What a bucket maps a key to. *)
Definition holds (b : Bucket) (k : Z) (v : V) : Prop := mkEntry k v ∈ b.

Lemma holds_key b k v : holds b k v -> k ∈ key <$> b.
Proof. intros Hv. apply list_elem_of_fmap. by exists (mkEntry k v). Qed.

Lemma holds_unique b k v v' : sorted b -> holds b k v -> holds b k v' -> v = v'.
Proof.
  unfold holds, sorted. induction b as [|e b IH]; intros Hs H1 H2; [by apply not_elem_of_nil in H1|].
  inversion Hs as [|? ? Hs' Hf]; subst. rewrite Forall_forall in Hf.
  apply elem_of_cons in H1, H2. destruct H1 as [<-|H1], H2 as [E|H2]; try (by inversion E || by simplify_eq); [| |auto].
  - pose proof (Hf k (holds_key _ _ _ H2)). simpl in *. lia.
  - subst e. pose proof (Hf k (holds_key _ _ _ H1)). simpl in *. lia.
Qed.

Lemma BGet_spec b k : sorted b -> match BGet k b with Some v => holds b k v | None => forall v, ~ holds b k v end.
Proof.
  intros Hs. unfold BGet. destruct (Find k b) as [[f prev] rest] eqn:E.
  destruct (Find_split _ _ _ _ _ Hs E) as (-> & Hp & Hr). unfold holds.
  assert (forall v, mkEntry k v ∉ prev) as Hnp by (intros v Hv; apply Hp in Hv; simpl in Hv; lia).
  destruct f; [destruct rest as [|e rest]; [done|]|].
  - destruct e as [k' v]. simpl in *. subst k'. set_solver.
  - intros v Hv. apply elem_of_app in Hv as [Hv|Hv]; [by apply (Hnp v)|].
    destruct rest as [|e rest]; [by apply not_elem_of_nil in Hv|].
    apply elem_of_cons in Hv as [<-|Hv]; simpl in Hr; [lia|].
    pose proof (sorted_app_lt _ _ _ Hs _ Hv). simpl in *. lia.
Qed.

Lemma BHas_spec b k : sorted b -> BHas k b = true <-> exists v, holds b k v.
Proof.
  unfold sorted, holds. induction b as [|e b IH]; intros Hs; simpl.
  { split; [done|]. intros [v Hv]. by apply not_elem_of_nil in Hv. }
  inversion Hs as [|? ? Hs' Hf]; subst. rewrite Forall_forall in Hf.
  destruct (Z.ltb_spec (key e) k) as [Hlt|Hge].
  - rewrite (IH Hs'). setoid_rewrite elem_of_cons. split; [naive_solver|].
    intros [v [<-|Hv]]; [simpl in Hlt; lia|eauto].
  - rewrite Z.eqb_eq. split; [intros <-; exists (value e); destruct e; by left|].
    intros [v Hv]. apply elem_of_cons in Hv as [<-|Hv]; [done|].
    pose proof (Hf k (holds_key _ _ _ Hv)). lia.
Qed.

Lemma BInsert_spec b k v :
  sorted b -> sorted (BInsert k v b) /\
  forall k' v', holds (BInsert k v b) k' v' <-> (k' = k /\ v' = v) \/ (k' <> k /\ holds b k' v').
Proof.
  intros Hs. unfold BInsert. destruct (Find k b) as [[f prev] rest] eqn:E.
  destruct (Find_split _ _ _ _ _ Hs E) as (-> & Hp & Hr). unfold holds.
  assert (forall k' v', mkEntry k' v' ∈ prev -> k' <> k) as Hnp by (intros k' v' Hv%Hp; simpl in Hv; lia).
  destruct f; [destruct rest as [|e rest]; [done|]|].
  - destruct e as [k0 v0]. simpl in *. subst k0. split.
    + unfold sorted in *. by rewrite fmap_app in *.
    + intros k' v'. assert (mkEntry k' v' ∈ rest -> k' <> k) as Hnr
        by (intros Hx; apply (sorted_app_lt _ _ _ Hs) in Hx; simpl in Hx; lia).
      rewrite !elem_of_app, !elem_of_cons. specialize (Hnp k' v').
      split; [intros [?|[[= -> ->]|?]]; auto 10|intros [[-> ->]|[Hne [?|[[= -> ->]|?]]]]; auto; done].
  - split; [by apply sorted_insert|]. intros k' v'.
    assert (mkEntry k' v' ∈ rest -> k' <> k) as Hnr.
    { intros Hx. destruct rest as [|e rest]; [by apply not_elem_of_nil in Hx|].
      apply elem_of_cons in Hx as [<-|Hx]; simpl in Hr; [lia|].
      pose proof (sorted_app_lt _ _ _ Hs _ Hx). simpl in *. lia. }
    rewrite !elem_of_app, !elem_of_cons. specialize (Hnp k' v').
    split; [intros [?|[[= -> ->]|?]]; auto 10|intros [[-> ->]|[Hne [?|?]]]; auto].
Qed.

(** ** The table refines a finite map *)

Record wf (n : Z) (m : AtomicHashMap) : Prop := mkWf {
  wf_n : 0 <= n;
  wf_mode : mode_num_ m = 2 ^ n - 1;
  wf_len : zlen (table_ m) = 2 ^ n;
  wf_sorted : forall i b, zget (table_ m) i = Some b -> sorted b
}.

Lemma index_range n m k : wf n m -> 0 <= index m k < zlen (table_ m).
Proof.
  intros []. unfold index. rewrite wf_mode0, wf_len0. replace (2 ^ n - 1) with (Z.ones n) by (rewrite Z.ones_equiv; lia).
  rewrite Z.land_ones by done. apply Z.mod_pos_bound. lia.
Qed.

Lemma bucket_get n m k : wf n m -> zget (table_ m) (index m k) = Some (bucket m k).
Proof.
  intros Hw. unfold bucket. destruct (proj1 (zget_Some (table_ m) (index m k)) (index_range n m k Hw)) as [b Hb].
  by rewrite Hb.
Qed.

Lemma bucket_sorted n m k : wf n m -> sorted (bucket m k).
Proof. intros Hw. eapply wf_sorted; [done|]. by apply (bucket_get n). Qed.

Lemma NewMap_wf n : 0 <= n -> wf n (NewMap (2 ^ n)).
Proof.
  intros Hn. constructor; simpl; [done|done| |].
  - unfold zlen. rewrite length_replicate. lia.
  - intros i b. unfold zget. destruct (0 <=? i); [|done]. intros Hb.
    apply lookup_replicate in Hb as [-> _]. constructor.
Qed.

Lemma Set_wf n m k v : wf n m -> wf n (Set_ m k v).
Proof.
  intros Hw. pose proof (index_range n m k Hw) as Hr. pose proof (bucket_sorted n m k Hw) as Hs.
  destruct Hw. constructor; simpl; [done|done|by rewrite zlen_zset|].
  intros i b Hb. destruct (decide (index m k = i)) as [<-|Hne].
  - rewrite zget_zset_eq in Hb by done. simplify_eq. by apply BInsert_spec.
  - rewrite zget_zset_ne in Hb by done. by eapply wf_sorted0.
Qed.

Lemma bucket_Set n m k v k' :
  wf n m -> bucket (Set_ m k v) k' = if decide (index m k = index m k') then BInsert k v (bucket m k) else bucket m k'.
Proof.
  intros Hw. pose proof (index_range n m k Hw). unfold bucket, index. simpl. fold (index m k) (index m k').
  destruct (decide _) as [<-|Hne]; [by rewrite zget_zset_eq|by rewrite zget_zset_ne].
Qed.

Lemma BGet_eq b k o : sorted b -> (forall v, holds b k v <-> o = Some v) -> BGet k b = o.
Proof.
  intros Hs Ho. pose proof (BGet_spec b k Hs) as Hg. destruct (BGet k b) as [v|].
  - symmetry. by apply Ho.
  - destruct o as [v|]; [|done]. exfalso. by apply (Hg v), Ho.
Qed.

Lemma BGet_holds b k v : sorted b -> BGet k b = Some v <-> holds b k v.
Proof.
  intros Hs. pose proof (BGet_spec b k Hs) as Hg. destruct (BGet k b) as [w|].
  - split; [by intros [= <-]|]. intros Hv. f_equal. by eapply holds_unique.
  - split; [done|]. intros Hv. by apply Hg in Hv.
Qed.

Lemma Get_Set n m k v k' : wf n m -> Get (Set_ m k v) k' = if decide (k = k') then Some v else Get m k'.
Proof.
  intros Hw. unfold Get. pose proof (bucket_sorted n m k Hw) as Hs. pose proof (bucket_sorted n m k' Hw) as Hs'.
  destruct (BInsert_spec (bucket m k) k v Hs) as [Hsi Hin].
  rewrite (bucket_Set n) by done. destruct (decide (k = k')) as [<-|Hne].
  - rewrite decide_True by done. apply BGet_eq; [done|]. intros w. rewrite Hin. naive_solver.
  - destruct (decide (index m k = index m k')) as [E|]; [|done].
    assert (bucket m k = bucket m k') as Eb by (unfold bucket; by rewrite E).
    apply BGet_eq; [done|]. intros w. rewrite Hin, <- BGet_holds, Eb by done. naive_solver.
Qed.

Lemma Has_Get n m k : wf n m -> Has m k = bool_decide (is_Some (Get m k)).
Proof.
  intros Hw. pose proof (bucket_sorted n m k Hw) as Hs. apply eq_true_iff_eq. unfold Has, Get.
  rewrite BHas_spec, bool_decide_eq_true by done. setoid_rewrite <- BGet_holds; [|done..].
  split; [intros [v ->]; eauto|intros [v Hv]; eauto].
Qed.

Lemma Get_New n k : 0 <= n -> Get (NewMap (2 ^ n)) k = None.
Proof.
  intros Hn. unfold Get, bucket. pose proof (bucket_get n _ k (NewMap_wf n Hn)) as E. simpl in *.
  unfold zget in *. destruct (0 <=? _); [|done]. apply lookup_replicate in E as [E _].
  by destruct (replicate _ _ !! _) eqn:E2; [apply lookup_replicate in E2 as [-> _]|].
Qed.

Lemma sets_wf n m ops : wf n m -> wf n (foldl (fun m kv => Set_ m kv.1 kv.2) m ops).
Proof. revert m. induction ops as [|o ops IH]; intros m Hw; simpl; [done|]. by apply IH, Set_wf. Qed.

Lemma sets_get n m ops (g : gmap Z V) k :
  wf n m -> (forall k, Get m k = g !! k) ->
  Get (foldl (fun m kv => Set_ m kv.1 kv.2) m ops) k = foldl (fun g kv => <[kv.1 := kv.2]> g) g ops !! k.
Proof.
  revert m g. induction ops as [|[k0 v] ops IH]; intros m g Hw Hg; simpl; [done|].
  apply IH; [by apply Set_wf|]. intros k'. rewrite (Get_Set n) by done.
  destruct (decide (k0 = k')) as [<-|]; [by rewrite lookup_insert_eq|by rewrite lookup_insert_ne].
Qed.
End bucket.

Arguments AtomicHashMap : clear implicits.
Arguments Entry : clear implicits.

(** AtomicHashMap refines a finite map: for a table of any power of two
    buckets, after any sequence of Set calls, Get returns the value last set for
    the key and Has tells whether there is one. *)
Theorem hash_map_refines {V} n (ops : list (Z * V)) k :
  0 <= n ->
  let m := foldl (fun m kv => Set_ m kv.1 kv.2) (NewMap (2 ^ n)) ops in
  let g : gmap Z V := foldl (fun g kv => <[kv.1 := kv.2]> g) ∅ ops in
  Get m k = g !! k /\ Has m k = bool_decide (is_Some (g !! k)).
Proof.
  intros Hn m g.
  assert (Get m k = g !! k) as E.
  { apply (sets_get n); [by apply NewMap_wf|]. intros k'. by rewrite lookup_empty, Get_New. }
  split; [done|]. rewrite <- E. apply (Has_Get n). by apply sets_wf, NewMap_wf.
Qed.

(** Keys 3 and 515 share the bucket of a table of 512. *)
Lemma hash_map_refines_witness :
  let ops := [(515, "b"); (3, "a"); (515, "c")]%string in
  let m := foldl (fun m kv => Set_ m kv.1 kv.2) (NewMap (2 ^ 9)) ops in
  Get m 515 = Some "c"%string /\ Has m 4 = false /\
  Get m 3 = (foldl (fun g kv => <[kv.1 := kv.2]> g) ∅ ops : gmap Z string) !! 3.
Proof.
  split; [vm_compute; reflexivity|]. split; [vm_compute; reflexivity|].
  exact (proj1 (hash_map_refines 9 [(515, "b"); (3, "a"); (515, "c")]%string 3 ltac:(lia))).
Defined.
