(* ===== verification/AtomicHashMapConc.v ===== *)
(** AtomicHashMapConc.v -- src/src/apollo/cyber/base/atomic_hash_map.h

    The bucket of AtomicHashMap as the lock-free list it is, for any number of
    threads, one rule per atomic access.  Entries are never unlinked; a
    value that is replaced is deleted.  [vals] has the values that are allocated
    and not deleted, so a pointer not in it dangles.

    An entry is allocated in the same step that links it, and a new value in the
    step that stores it: nobody sees them before.  The location of a [next]
    field is the sentinel [None] or an entry [Some a]. *)

From S2P Require Import Prelude.
Local Open Scope Z_scope.

Section conc.
Context {V : Type}.

Record Node := mkNode { nkey : Z; value_ptr : nat; next : option nat }.
Record Mem := mkMem { nodes : gmap nat Node; head_next : option nat; vals : gmap nat V }.

Inductive op := OInsert (k : Z) (v : V) | OGet (k : Z) | OHas (k : Z).
Definition okey (o : op) : Z := match o with OInsert k _ | OGet k | OHas k => k end.

Inductive pc :=
| Idle
| Finding (o : op) (prev tgt : option nat)     (* in the loop of Find or Has *)
| Hit (o : op) (t : nat)                       (* Find returned true *)
| Upd (k : Z) (v : V) (t old : nat)            (* Insert: old_val_ptr loaded *)
| Miss (k : Z) (v : V) (prev tgt : option nat) (* Insert: Find returned false *)
| GotPtr (k : Z) (p : nat)                     (* Get returned this pointer *)
| Ret (k : Z) (b : bool).                      (* Has or Get returns b *)

Record conf := mkConf { mem : Mem; pcs : list pc }.

Definition next_of (m : Mem) (p : option nat) : option nat :=
  match p with
  | None => head_next m
  | Some a => match nodes m !! a with Some n => next n | None => None end
  end.

(** prev->next = x *)
Definition set_next (m : Mem) (p : option nat) (x : option nat) : Mem :=
  match p with
  | None => mkMem (nodes m) x (vals m)
  | Some a => match nodes m !! a with
              | Some n => mkMem (<[a := mkNode (nkey n) (value_ptr n) x]> (nodes m)) (head_next m) (vals m)
              | None => m
              end
  end.

(** Find stops without a hit: at the end or at a larger key. *)
Definition beyond (m : Mem) (k : Z) (tgt : option nat) : Prop :=
  match tgt with None => True | Some t => exists n, nodes m !! t = Some n /\ k < nkey n end.

(** The label of a step is the insertion that takes effect in it. *)
Inductive step (c : conf) : option (Z * V) -> conf -> Prop :=
| s_start i o :
    pcs c !! i = Some Idle -> 0 <= okey o ->
    step c None (mkConf (mem c) (<[i := Finding o None (head_next (mem c))]> (pcs c)))
| s_next i o prev t n :
    pcs c !! i = Some (Finding o prev (Some t)) -> nodes (mem c) !! t = Some n -> nkey n < okey o ->
    step c None (mkConf (mem c) (<[i := Finding o (Some t) (next n)]> (pcs c)))
| s_hit i o prev t n :
    pcs c !! i = Some (Finding o prev (Some t)) -> nodes (mem c) !! t = Some n -> nkey n = okey o ->
    step c None (mkConf (mem c) (<[i := Hit o t]> (pcs c)))
| s_miss_insert i k v prev tgt :
    pcs c !! i = Some (Finding (OInsert k v) prev tgt) -> beyond (mem c) k tgt ->
    step c None (mkConf (mem c) (<[i := Miss k v prev tgt]> (pcs c)))
| s_miss_get i k prev tgt :
    pcs c !! i = Some (Finding (OGet k) prev tgt) -> beyond (mem c) k tgt ->
    step c None (mkConf (mem c) (<[i := Ret k false]> (pcs c)))
| s_miss_has i k prev tgt :
    pcs c !! i = Some (Finding (OHas k) prev tgt) -> beyond (mem c) k tgt ->
    step c None (mkConf (mem c) (<[i := Ret k false]> (pcs c)))
| s_has i k t :
    pcs c !! i = Some (Hit (OHas k) t) ->
    step c None (mkConf (mem c) (<[i := Ret k true]> (pcs c)))
| s_get i k t n :
    pcs c !! i = Some (Hit (OGet k) t) -> nodes (mem c) !! t = Some n ->
    step c None (mkConf (mem c) (<[i := GotPtr k (value_ptr n)]> (pcs c)))
| s_load i k v t n :
    pcs c !! i = Some (Hit (OInsert k v) t) -> nodes (mem c) !! t = Some n ->
    step c None (mkConf (mem c) (<[i := Upd k v t (value_ptr n)]> (pcs c)))
| s_upd_ok i k v t old n pv :
    pcs c !! i = Some (Upd k v t old) -> nodes (mem c) !! t = Some n -> value_ptr n = old ->
    vals (mem c) !! pv = None ->
    step c (Some (k, v))
      (mkConf (mkMem (<[t := mkNode (nkey n) pv (next n)]> (nodes (mem c))) (head_next (mem c))
                 (delete old (<[pv := v]> (vals (mem c)))))
         (<[i := Idle]> (pcs c)))
| s_upd_fail i k v t old n :
    pcs c !! i = Some (Upd k v t old) -> nodes (mem c) !! t = Some n -> value_ptr n <> old ->
    step c None (mkConf (mem c) (<[i := Finding (OInsert k v) None (head_next (mem c))]> (pcs c)))
| s_cas_ok i k v prev tgt a pv :
    pcs c !! i = Some (Miss k v prev tgt) -> next_of (mem c) prev = tgt ->
    nodes (mem c) !! a = None -> vals (mem c) !! pv = None ->
    step c (Some (k, v))
      (mkConf (let m := set_next (mem c) prev (Some a) in
               mkMem (<[a := mkNode k pv tgt]> (nodes m)) (head_next m) (<[pv := v]> (vals m)))
         (<[i := Idle]> (pcs c)))
| s_cas_fail i k v prev tgt :
    pcs c !! i = Some (Miss k v prev tgt) -> next_of (mem c) prev <> tgt ->
    step c None (mkConf (mem c) (<[i := Finding (OInsert k v) None (head_next (mem c))]> (pcs c)))
| s_deref i k p v :
    pcs c !! i = Some (GotPtr k p) -> vals (mem c) !! p = Some v ->
    step c None (mkConf (mem c) (<[i := Ret k true]> (pcs c)))
| s_ret i k b :
    pcs c !! i = Some (Ret k b) -> step c None (mkConf (mem c) (<[i := Idle]> (pcs c))).

Definition init (n : nat) : conf := mkConf (mkMem ∅ None ∅) (replicate n Idle).

Definition apply_label (l : option (Z * V)) (g : gmap Z V) : gmap Z V :=
  match l with Some (k, v) => <[k := v]> g | None => g end.

(** Runs, with the map that the labels of their steps build. *)
Inductive run : conf -> gmap Z V -> conf -> gmap Z V -> Prop :=
| run_refl c g : run c g c g
| run_step c g l c1 c2 g2 : step c l c1 -> run c1 (apply_label l g) c2 g2 -> run c g c2 g2.

(** ** The invariant *)

(** The key at a location; the sentinel is below every key. *)
Definition lkey (m : Mem) (p : option nat) : Z :=
  match p with None => -1 | Some a => match nodes m !! a with Some n => nkey n | None => -1 end end.
Definition is_loc (m : Mem) (p : option nat) : Prop :=
  match p with None => True | Some a => is_Some (nodes m !! a) end.

Record mem_ok (m : Mem) : Prop := mkMemOk {
  mo_pos : forall a n, nodes m !! a = Some n -> 0 <= nkey n;
  (* ascending *)
  mo_asc : forall p t, is_loc m p -> next_of m p = Some t ->
    exists n, nodes m !! t = Some n /\ lkey m p < nkey n;
  (* no entry is skipped *)
  mo_skip : forall p a n, is_loc m p -> nodes m !! a = Some n -> lkey m p < nkey n ->
    exists t nt, next_of m p = Some t /\ nodes m !! t = Some nt /\ nkey nt <= nkey n;
  (* one entry per key *)
  mo_inj : forall a b na nb, nodes m !! a = Some na -> nodes m !! b = Some nb -> nkey na = nkey nb -> a = b;
  (* every entry owns its value *)
  mo_val : forall a n, nodes m !! a = Some n -> is_Some (vals m !! value_ptr n);
  mo_own : forall a b na nb, nodes m !! a = Some na -> nodes m !! b = Some nb ->
    value_ptr na = value_ptr nb -> a = b
}.

Definition has_key (m : Mem) (t : nat) (k : Z) : Prop := exists n, nodes m !! t = Some n /\ nkey n = k.

Definition pc_ok (m : Mem) (p : pc) : Prop :=
  match p with
  | Idle | Ret _ false => True
  | GotPtr k _ | Ret k true => exists t, has_key m t k
  | Finding o prev tgt => 0 <= okey o /\ is_loc m prev /\ lkey m prev < okey o /\ is_loc m tgt
  | Hit o t => 0 <= okey o /\ has_key m t (okey o)
  | Upd k v t old => 0 <= k /\ has_key m t k
  | Miss k v prev tgt => 0 <= k /\ is_loc m prev /\ lkey m prev < k /\ beyond m k tgt
  end.

Record inv (c : conf) : Prop := mkInv {
  iv_mem : mem_ok (mem c);
  iv_pc : forall i p, pcs c !! i = Some p -> pc_ok (mem c) p
}.

(** What the list holds. *)
Definition holds (m : Mem) (k : Z) (v : V) : Prop :=
  exists a n, nodes m !! a = Some n /\ nkey n = k /\ vals m !! value_ptr n = Some v.

(** Keys stay: memory only grows, and entries keep their keys. *)
Definition grows (m m' : Mem) : Prop :=
  forall a n, nodes m !! a = Some n -> exists n', nodes m' !! a = Some n' /\ nkey n' = nkey n.

Lemma grows_refl m : grows m m.
Proof. intros a n H. eauto. Qed.

Lemma grows_loc m m' p : grows m m' -> is_loc m p -> is_loc m' p /\ lkey m' p = lkey m p.
Proof.
  intros Hg. destruct p as [a|]; simpl; [|done]. intros [n Hn]. destruct (Hg _ _ Hn) as (n' & Hn' & E).
  rewrite Hn, Hn'. eauto.
Qed.

Lemma grows_has m m' t k : grows m m' -> has_key m t k -> has_key m' t k.
Proof. intros Hg (n & Hn & <-). destruct (Hg _ _ Hn) as (n' & Hn' & E). exists n'. eauto. Qed.

Lemma grows_beyond m m' k tgt : grows m m' -> beyond m k tgt -> beyond m' k tgt.
Proof.
  intros Hg. destruct tgt as [t|]; simpl; [|done]. intros (n & Hn & Hk).
  destruct (Hg _ _ Hn) as (n' & Hn' & E). exists n'. split; [done|lia].
Qed.

Lemma pc_ok_grows m m' p : grows m m' -> pc_ok m p -> pc_ok m' p.
Proof.
  intros Hg. destruct p as [|o prev tgt|o t|k v t old|k v prev tgt|k p|k []]; simpl; try done.
  - intros (? & Hp & ? & Ht). destruct (grows_loc _ _ _ Hg Hp) as [? ->], (grows_loc _ _ _ Hg Ht). eauto.
  - intros [? ?]. eauto using grows_has.
  - intros [? ?]. eauto using grows_has.
  - intros (? & Hp & ? & ?). destruct (grows_loc _ _ _ Hg Hp) as [? ->]. eauto using grows_beyond.
  - intros [t ?]. eauto using grows_has.
  - intros [t ?]. eauto using grows_has.
Qed.

Lemma pcs_ok_update m m' (ps : list pc) i p' :
  grows m m' -> (forall j p, ps !! j = Some p -> pc_ok m p) -> pc_ok m' p' ->
  forall j p, <[i := p']> ps !! j = Some p -> pc_ok m' p.
Proof.
  intros Hg Ho Hp j p Hj. apply list_lookup_insert_Some in Hj as [(-> & <- & _)|[? Hj]]; [done|].
  eauto using pc_ok_grows.
Qed.

(** ** Replacing a value *)

Definition mem_upd (m : Mem) (t : nat) (n : Node) (pv : nat) (v : V) : Mem :=
  mkMem (<[t := mkNode (nkey n) pv (next n)]> (nodes m)) (head_next m)
    (delete (value_ptr n) (<[pv := v]> (vals m))).

Section upd.
Context (m : Mem) (t : nat) (n : Node) (pv : nat) (v : V).
Hypothesis Hok : mem_ok m.
Hypothesis Ht : nodes m !! t = Some n.
Hypothesis Hpv : vals m !! pv = None.

Lemma upd_node b n' :
  nodes (mem_upd m t n pv v) !! b = Some n' <->
  (b = t /\ n' = mkNode (nkey n) pv (next n)) \/ (b <> t /\ nodes m !! b = Some n').
Proof. simpl. rewrite lookup_insert_Some. naive_solver. Qed.

Lemma upd_grows : grows m (mem_upd m t n pv v).
Proof.
  intros b nb Hb. destruct (decide (b = t)) as [->|Hne].
  - exists (mkNode (nkey n) pv (next n)). rewrite upd_node. simplify_eq. eauto.
  - exists nb. rewrite upd_node. eauto.
Qed.

Lemma upd_next p : next_of (mem_upd m t n pv v) p = next_of m p.
Proof.
  destruct p as [b|]; simpl; [|done]. destruct (decide (b = t)) as [->|Hne].
  - by rewrite lookup_insert_eq, Ht.
  - by rewrite lookup_insert_ne.
Qed.

Lemma upd_loc p : is_loc (mem_upd m t n pv v) p -> is_loc m p.
Proof.
  destruct p as [b|]; simpl; [|done]. rewrite lookup_insert_is_Some. intros [->|[_ ?]]; [by rewrite Ht|done].
Qed.

Lemma upd_back b n' : nodes (mem_upd m t n pv v) !! b = Some n' ->
  exists nb, nodes m !! b = Some nb /\ nkey nb = nkey n'.
Proof. intros [[-> ->]|[_ Hb]]%upd_node; eauto. Qed.

(** The new value is not one that is in use. *)
Lemma live_not_pv a na : nodes m !! a = Some na -> value_ptr na <> pv.
Proof. intros Ha E. destruct (mo_val _ Hok _ _ Ha) as [x Hx]. rewrite E in Hx. congruence. Qed.

Lemma upd_ok : mem_ok (mem_upd m t n pv v).
Proof.
  constructor.
  - intros b n' (nb & Hb & <-)%upd_back. by eapply mo_pos.
  - intros p x Hp Hx. rewrite upd_next in Hx. apply upd_loc in Hp.
    destruct (grows_loc _ _ p upd_grows Hp) as [_ ->].
    destruct (mo_asc _ Hok _ _ Hp Hx) as (nx & Hnx & Hl).
    destruct (upd_grows _ _ Hnx) as (n' & Hn' & E). exists n'. split; [done|lia].
  - intros p b n' Hp (nb & Hb & E)%upd_back Hl. apply upd_loc in Hp.
    destruct (grows_loc _ _ p upd_grows Hp) as [_ Ek]. rewrite Ek in Hl. rewrite upd_next.
    destruct (mo_skip _ Hok p b nb Hp Hb ltac:(lia)) as (x & nx & Hx & Hnx & Hle).
    destruct (upd_grows _ _ Hnx) as (nx' & Hnx' & E'). exists x, nx'. split; [done|]. split; [done|lia].
  - intros b1 b2 n1 n2 (m1 & H1 & E1)%upd_back (m2 & H2 & E2)%upd_back E.
    eapply mo_inj; [done|done|done|congruence].
  - intros b n' [[-> ->]|[Hne Hb]]%upd_node; simpl.
    + rewrite lookup_delete_ne by (by eapply live_not_pv). rewrite lookup_insert_eq. eauto.
    + rewrite lookup_delete_ne by (intros E; apply Hne; by eapply mo_own).
      rewrite lookup_insert_ne by (symmetry; by eapply live_not_pv). by eapply mo_val.
  - intros b1 b2 n1 n2 [[-> ->]|[Hn1 H1]]%upd_node [[-> ->]|[Hn2 H2]]%upd_node; simpl; intros E; [done|..].
    + by apply live_not_pv in H2.
    + by apply live_not_pv in H1.
    + by eapply mo_own.
Qed.

Lemma upd_holds k' v' :
  holds (mem_upd m t n pv v) k' v' <-> (k' = nkey n /\ v' = v) \/ (k' <> nkey n /\ holds m k' v').
Proof.
  assert (value_ptr n <> pv) as Hnp by (by eapply live_not_pv).
  split.
  - intros (b & n' & [[-> ->]|[Hne Hb]]%upd_node & <- & Hv); simpl in *.
    + left. rewrite lookup_delete_ne, lookup_insert_eq in Hv by done. naive_solver.
    + right. assert (value_ptr n <> value_ptr n') as Hvp by (intros E; apply Hne; by eapply mo_own).
      rewrite lookup_delete_ne in Hv by done.
      rewrite lookup_insert_ne in Hv by (symmetry; by eapply live_not_pv).
      split; [intros E; apply Hne; by eapply mo_inj|]. by exists b, n'.
  - intros [[-> ->]|[Hne (b & n' & Hb & <- & Hv)]].
    + exists t, (mkNode (nkey n) pv (next n)). rewrite upd_node. simpl.
      rewrite lookup_delete_ne, lookup_insert_eq by done. auto.
    + assert (b <> t) as Hbt by (intros ->; simplify_eq; done).
      exists b, n'. rewrite upd_node. split; [auto|]. split; [done|]. simpl.
      rewrite lookup_delete_ne by (intros E; apply Hbt; by eapply mo_own).
      by rewrite lookup_insert_ne by (symmetry; by eapply live_not_pv).
Qed.
End upd.

(** ** Linking an entry *)

Definition mem_link (m : Mem) (prev tgt : option nat) (a pv : nat) (k : Z) (v : V) : Mem :=
  let m := set_next m prev (Some a) in
  mkMem (<[a := mkNode k pv tgt]> (nodes m)) (head_next m) (<[pv := v]> (vals m)).

Section link.
Context (m : Mem) (prev tgt : option nat) (a pv : nat) (k : Z) (v : V).
Hypothesis Hok : mem_ok m.
Hypothesis Hk : 0 <= k.
Hypothesis Hprev : is_loc m prev.
Hypothesis Hlt : lkey m prev < k.
Hypothesis Htgt : beyond m k tgt.
Hypothesis Hnext : next_of m prev = tgt.
Hypothesis Ha : nodes m !! a = None.
Hypothesis Hpv : vals m !! pv = None.
Notation m' := (mem_link m prev tgt a pv k v).

Lemma link_fwd b nb : nodes m !! b = Some nb ->
  b <> a /\ exists n', nodes m' !! b = Some n' /\ nkey n' = nkey nb /\ value_ptr n' = value_ptr nb.
Proof.
  intros Hb. assert (b <> a) as Hne by congruence. split; [done|]. simpl.
  rewrite lookup_insert_ne by done. unfold set_next. destruct prev as [q|]; simpl; [|eauto].
  destruct Hprev as [nq Hq]. rewrite Hq. simpl. destruct (decide (b = q)) as [->|].
  - rewrite lookup_insert_eq. eexists. split; [done|]. simpl. simplify_eq. done.
  - rewrite lookup_insert_ne by done. eauto.
Qed.

Lemma link_back b n' : nodes m' !! b = Some n' ->
  (b = a /\ n' = mkNode k pv tgt) \/
  exists nb, nodes m !! b = Some nb /\ nkey n' = nkey nb /\ value_ptr n' = value_ptr nb.
Proof.
  simpl. rewrite lookup_insert_Some. intros [[<- <-]|[Hne Hb]]; [by left|right].
  unfold set_next in Hb. destruct prev as [q|]; simpl in Hb; [|eauto].
  destruct Hprev as [nq Hq]. rewrite Hq in Hb. simpl in Hb.
  apply lookup_insert_Some in Hb as [[<- <-]|[_ Hb]]; eauto.
Qed.

Lemma link_grows : grows m m'.
Proof. intros b nb (_ & n' & Hb & E & _)%link_fwd. eauto. Qed.

Lemma link_new : nodes m' !! a = Some (mkNode k pv tgt).
Proof. simpl. by rewrite lookup_insert_eq. Qed.

Lemma link_next p : is_loc m p -> next_of m' p = if decide (p = prev) then Some a else next_of m p.
Proof.
  destruct p as [b|].
  - intros [nb Hb]. unfold next_of at 1. simpl. rewrite lookup_insert_ne by congruence. unfold set_next.
    destruct prev as [q|]; simpl.
    + destruct Hprev as [nq Hq]. rewrite Hq. simpl. destruct (decide (b = q)) as [->|Hne].
      * rewrite lookup_insert_eq. by rewrite decide_True.
      * rewrite lookup_insert_ne by done. by rewrite decide_False by congruence.
    + done.
  - intros _. simpl. unfold set_next. destruct prev as [q|]; simpl; [|done].
    destruct Hprev as [nq ->]. done.
Qed.

Lemma link_loc p : is_loc m' p -> p = Some a \/ is_loc m p.
Proof.
  destruct p as [b|]; [|by right]. intros [n' Hb]. apply link_back in Hb as [[-> _]|(nb & Hb & _)]; [by left|right].
  simpl. eauto.
Qed.

Lemma link_lkey p : is_loc m p -> lkey m' p = lkey m p.
Proof. intros Hp. by destruct (grows_loc _ _ p link_grows Hp). Qed.

Lemma link_lkey_new : lkey m' (Some a) = k.
Proof. unfold lkey. by rewrite link_new. Qed.

(** The key was not there: the list would have shown it. *)
Lemma link_fresh b nb : nodes m !! b = Some nb -> nkey nb <> k.
Proof.
  intros Hb E. destruct (mo_skip _ Hok prev b nb Hprev Hb ltac:(lia)) as (x & nx & Hx & Hnx & Hle).
  rewrite Hnext in Hx. rewrite Hx in Htgt. destruct Htgt as (n2 & Hn2 & Hk2). simplify_eq. lia.
Qed.

(** An entry above [prev] is at or after the target. *)
Lemma link_above b nb : nodes m !! b = Some nb -> lkey m prev < nkey nb ->
  exists x nx, tgt = Some x /\ nodes m !! x = Some nx /\ nkey nx <= nkey nb /\ k < nkey nx.
Proof.
  intros Hb Hl. destruct (mo_skip _ Hok prev b nb Hprev Hb Hl) as (x & nx & Hx & Hnx & Hle).
  rewrite Hnext in Hx. rewrite Hx in Htgt. destruct Htgt as (n2 & Hn2 & Hk2). simplify_eq. eauto 10.
Qed.

Lemma link_asc p t : is_loc m' p -> next_of m' p = Some t ->
  exists n, nodes m' !! t = Some n /\ lkey m' p < nkey n.
Proof.
  intros Hp Hn. destruct (link_loc p Hp) as [->|Hp'].
  - unfold next_of in Hn. rewrite link_new in Hn. simpl in Hn. rewrite link_lkey_new.
    pose proof Htgt as Hb. rewrite Hn in Hb. destruct Hb as (nt & Hnt & Hkt).
    destruct (link_grows _ _ Hnt) as (n' & Hn' & E). exists n'. split; [done|lia].
  - rewrite link_next in Hn by done. rewrite link_lkey by done. destruct (decide (p = prev)) as [->|].
    + injection Hn as <-. exists (mkNode k pv tgt). split; [apply link_new|done].
    + destruct (mo_asc _ Hok _ _ Hp' Hn) as (nt & Hnt & Hl).
      destruct (link_grows _ _ Hnt) as (n' & Hn' & E). exists n'. split; [done|lia].
Qed.

(** Locations with the same key are the same. *)
Lemma loc_inj p q : is_loc m p -> is_loc m q -> lkey m p = lkey m q -> p = q.
Proof.
  destruct p as [b|], q as [b'|]; simpl; try done.
  - intros [n Hn] [n' Hn']. rewrite Hn, Hn'. intros E. f_equal. by eapply mo_inj.
  - intros [n Hn] _. rewrite Hn. intros E. pose proof (mo_pos _ Hok _ _ Hn). lia.
  - intros _ [n Hn]. rewrite Hn. intros E. pose proof (mo_pos _ Hok _ _ Hn). lia.
Qed.

(** A location below the new key and other than [prev] still leads to an entry
    at or below [prev]. *)
Lemma link_below p : is_loc m p -> p <> prev -> lkey m p < k ->
  exists t nt, next_of m p = Some t /\ nodes m !! t = Some nt /\ nkey nt <= lkey m prev.
Proof.
  intros Hp Hne Hl. destruct (Z.lt_total (lkey m p) (lkey m prev)) as [Hc|[Hc|Hc]].
  - destruct prev as [q|]; simpl in *.
    + destruct Hprev as [nq Hq]. rewrite Hq in *. by apply (mo_skip _ Hok p q nq).
    + destruct p as [b|]; simpl in *; [|done]. destruct Hp as [nb Hb]. rewrite Hb in Hc.
      pose proof (mo_pos _ Hok _ _ Hb). lia.
  - by apply loc_inj in Hc.
  - destruct p as [b|]; simpl in *.
    + destruct Hp as [nb Hb]. rewrite Hb in *. destruct (link_above b nb Hb Hc) as (x & nx & _ & _ & ? & ?). lia.
    + destruct prev as [q|]; simpl in *; [|done]. destruct Hprev as [nq Hq]. rewrite Hq in Hc.
      pose proof (mo_pos _ Hok _ _ Hq). lia.
Qed.

Lemma link_skip p b n : is_loc m' p -> nodes m' !! b = Some n -> lkey m' p < nkey n ->
  exists t nt, next_of m' p = Some t /\ nodes m' !! t = Some nt /\ nkey nt <= nkey n.
Proof.
  intros Hp Hb Hl. destruct (link_loc p Hp) as [->|Hp'].
  - rewrite link_lkey_new in Hl. unfold next_of. rewrite link_new. simpl.
    apply link_back in Hb as [[-> ->]|(nb & Hb & E & _)]; [simpl in Hl; lia|].
    destruct (link_above b nb Hb ltac:(lia)) as (x & nx & Et & Hx & Hle & _).
    destruct (link_grows _ _ Hx) as (nx' & Hx' & E'). exists x, nx'. split; [done|]. split; [done|lia].
  - rewrite link_lkey in Hl by done. rewrite link_next by done. destruct (decide (p = prev)) as [->|Hne].
    + exists a, (mkNode k pv tgt). split; [done|]. split; [apply link_new|]. simpl.
      apply link_back in Hb as [[-> ->]|(nb & Hb & E & _)]; [done|].
      destruct (link_above b nb Hb ltac:(lia)) as (x & nx & _ & _ & ? & ?). lia.
    + assert (exists t nt, next_of m p = Some t /\ nodes m !! t = Some nt /\ nkey nt <= nkey n)
        as (t & nt & Ht & Hnt & Hle).
      { apply link_back in Hb as [[-> ->]|(nb & Hb & E & _)]; simpl in *.
        - destruct (link_below p Hp' Hne Hl) as (t & nt & ? & ? & ?). exists t, nt. split; [done|]. split; [done|lia].
        - destruct (mo_skip _ Hok p b nb Hp' Hb ltac:(lia)) as (t & nt & ? & ? & ?). exists t, nt.
          split; [done|]. split; [done|lia]. }
      destruct (link_grows _ _ Hnt) as (nt' & Hnt' & E'). exists t, nt'. split; [done|]. split; [done|lia].
Qed.

Lemma link_ok : mem_ok m'.
Proof.
  constructor; [|exact link_asc|exact link_skip|..].
  - intros b n' [[-> ->]|(nb & Hb & E & _)]%link_back; [done|]. rewrite E. by eapply mo_pos.
  - intros b1 b2 n1 n2 [[-> ->]|(m1 & H1 & E1 & _)]%link_back [[-> ->]|(m2 & H2 & E2 & _)]%link_back E; simpl in *.
    + done.
    + exfalso. apply (link_fresh _ _ H2). congruence.
    + exfalso. apply (link_fresh _ _ H1). congruence.
    + eapply mo_inj; [done|done|done|congruence].
  - intros b n' [[-> ->]|(nb & Hb & _ & E)]%link_back.
    + simpl. rewrite lookup_insert_eq. eauto.
    + rewrite E. pose proof (live_not_pv _ _ Hok Hpv _ _ Hb) as Hnp.
      simpl. rewrite lookup_insert_ne by done. unfold set_next. destruct prev as [q|]; simpl.
      * destruct Hprev as [nq ->]. simpl. by eapply mo_val.
      * by eapply mo_val.
  - intros b1 b2 n1 n2 [[-> ->]|(m1 & H1 & _ & E1)]%link_back [[-> ->]|(m2 & H2 & _ & E2)]%link_back E; simpl in *.
    + done.
    + exfalso. apply (live_not_pv _ _ Hok Hpv _ _ H2). congruence.
    + exfalso. apply (live_not_pv _ _ Hok Hpv _ _ H1). congruence.
    + eapply mo_own; [done|done|done|congruence].
Qed.

Lemma link_vals : vals m' = <[pv := v]> (vals m).
Proof.
  simpl. unfold set_next. destruct prev as [q|]; simpl; [|done]. destruct Hprev as [nq ->]. done.
Qed.

Lemma link_holds k' v' : holds m' k' v' <-> (k' = k /\ v' = v) \/ (k' <> k /\ holds m k' v').
Proof.
  split.
  - intros (b & n' & Hb & <- & Hv). rewrite link_vals in Hv.
    apply link_back in Hb as [[-> ->]|(nb & Hb & Ek & Ev)]; simpl in *.
    + rewrite lookup_insert_eq in Hv. left. naive_solver.
    + right. rewrite Ev in Hv. rewrite lookup_insert_ne in Hv by (symmetry; by eapply live_not_pv).
      split; [rewrite Ek; by eapply link_fresh|]. exists b, nb. rewrite Ek. eauto.
  - intros [[-> ->]|[Hne (b & nb & Hb & <- & Hv)]].
    + exists a, (mkNode k pv tgt). split; [apply link_new|]. split; [done|].
      rewrite link_vals. simpl. by rewrite lookup_insert_eq.
    + destruct (link_fwd _ _ Hb) as (_ & n' & Hb' & Ek & Ev). exists b, n'. split; [done|]. split; [done|].
      rewrite link_vals, Ev. by rewrite lookup_insert_ne by (symmetry; by eapply live_not_pv).
Qed.
End link.

(** ** Refinement of the finite map *)

Definition represents (c : conf) (g : gmap Z V) : Prop :=
  inv c /\ forall k v, holds (mem c) k v <-> g !! k = Some v.

(** A step that leaves the memory alone. *)
Lemma hm_inv_quiet c i p' :
  inv c -> pc_ok (mem c) p' -> inv (mkConf (mem c) (<[i := p']> (pcs c))).
Proof. intros [Hm Hp] Hp'. constructor; [done|]. eapply pcs_ok_update; [apply grows_refl|done|done]. Qed.

Lemma start_ok (m : Mem) o : mem_ok m -> 0 <= okey o -> pc_ok m (Finding o None (head_next m)).
Proof.
  intros Hm Hk. simpl. split; [done|]. split; [done|]. split; [lia|].
  destruct (head_next m) as [t|] eqn:E; [|done]. simpl.
  destruct (mo_asc _ Hm None t I E) as (n & Hn & _). eauto.
Qed.

Lemma next_ok (m : Mem) o t n :
  mem_ok m -> 0 <= okey o -> nodes m !! t = Some n -> nkey n < okey o -> pc_ok m (Finding o (Some t) (next n)).
Proof.
  intros Hm Hk Ht Hl. simpl. rewrite Ht. split; [done|]. split; [eauto|]. split; [done|].
  destruct (next n) as [x|] eqn:E; [|done]. simpl.
  destruct (mo_asc _ Hm (Some t) x) as (nx & Hx & _); simpl; [eauto|by rewrite Ht|eauto].
Qed.

Lemma step_inv c l c' : inv c -> step c l c' -> inv c'.
Proof.
  intros H Hs. pose proof (iv_mem _ H) as Hm.
  destruct Hs as [i o Hi Hk|i o prev t n Hi Hn Hk|i o prev t n Hi Hn Hk|i k v prev tgt Hi Hb|i k prev tgt Hi Hb
    |i k prev tgt Hi Hb|i k t Hi|i k t n Hi Hn|i k v t n Hi Hn|i k v t old n pv Hi Hn Ho Hpv
    |i k v t old n Hi Hn Ho|i k v prev tgt a pv Hi Hn Ha Hpv|i k v prev tgt Hi Hn|i k p v Hi Hv|i k b Hi];
    pose proof (iv_pc _ H _ _ Hi) as Hp; simpl in Hp.
  - apply hm_inv_quiet; [done|]. by apply start_ok.
  - apply hm_inv_quiet; [done|]. apply next_ok; [done|apply Hp|done|done].
  - apply hm_inv_quiet; [done|]. split; [apply Hp|]. exists n. eauto.
  - apply hm_inv_quiet; [done|]. naive_solver.
  - by apply hm_inv_quiet.
  - by apply hm_inv_quiet.
  - apply hm_inv_quiet; [done|]. destruct Hp as [_ Hp]. by exists t.
  - apply hm_inv_quiet; [done|]. destruct Hp as [_ Hp]. by exists t.
  - by apply hm_inv_quiet.
  - destruct Hp as (? & n0 & Hn0 & E). subst old. simplify_eq.
    constructor; simpl; [by apply upd_ok|]. eapply pcs_ok_update; [by eapply upd_grows|by apply iv_pc|done].
  - apply hm_inv_quiet; [done|]. apply start_ok; [done|apply Hp].
  - destruct Hp as (? & Hl & Hlt & Hbe).
    constructor; [by apply (link_ok (mem c) prev tgt a pv k v)|].
    eapply pcs_ok_update; [by apply link_grows|by apply iv_pc|done].
  - apply hm_inv_quiet; [done|]. apply start_ok; [done|apply Hp].
  - apply hm_inv_quiet; [done|]. destruct Hp as [t Ht]. by exists t.
  - by apply hm_inv_quiet.
Qed.

Lemma step_refines c l c' g : represents c g -> step c l c' -> represents c' (apply_label l g).
Proof.
  intros [H Hg] Hs. split; [by eapply step_inv|].
  pose proof (iv_mem _ H) as Hm. intros k' v'.
  assert (forall k v, (k' = k /\ v' = v) \/ (k' <> k /\ holds (mem c) k' v') <-> <[k := v]> g !! k' = Some v') as Hins.
  { intros k v. rewrite lookup_insert_Some, Hg. naive_solver. }
  destruct Hs as [i o Hi Hk|i o prev t n Hi Hn Hk|i o prev t n Hi Hn Hk|i k v prev tgt Hi Hb|i k prev tgt Hi Hb
    |i k prev tgt Hi Hb|i k t Hi|i k t n Hi Hn|i k v t n Hi Hn|i k v t old n pv Hi Hn Ho Hpv
    |i k v t old n Hi Hn Ho|i k v prev tgt a pv Hi Hn Ha Hpv|i k v prev tgt Hi Hn|i k p v Hi Hv|i k b Hi];
    try apply Hg; pose proof (iv_pc _ H _ _ Hi) as Hp; simpl in Hp; simpl apply_label; rewrite <- Hins.
  - destruct Hp as (_ & n0 & Hn0 & E). subst old. simplify_eq. by apply (upd_holds (mem c) t n pv v).
  - destruct Hp as (? & Hl & Hlt & Hbe). by apply (link_holds (mem c) prev tgt a pv k v).
Qed.

Lemma run_refines c g c' g' : represents c g -> run c g c' g' -> represents c' g'.
Proof.
  intros Hr Hs. revert Hr. induction Hs; intros Hr; [done|]. eauto using step_refines.
Qed.

Lemma init_represents n : represents (init n) ∅.
Proof.
  split; [constructor; [constructor|]|]; simpl.
  - intros a x Hx. by rewrite lookup_empty in Hx.
  - intros [a|] t Hp Hn; simpl in *; [destruct Hp as [? Hp]; by rewrite lookup_empty in Hp|done].
  - intros p a x _ Hx. by rewrite lookup_empty in Hx.
  - intros a b na nb Hx. by rewrite lookup_empty in Hx.
  - intros a x Hx. by rewrite lookup_empty in Hx.
  - intros a b na nb Hx. by rewrite lookup_empty in Hx.
  - intros i p Hi. by apply lookup_replicate in Hi as [-> _].
  - intros k v. rewrite lookup_empty. split; [|done]. intros (a & x & Hx & _). simpl in Hx. by rewrite lookup_empty in Hx.
Qed.

(** ** A key that is there is found *)

(** Thread [i] is not about to miss key [k]. *)
Definition on_track (m : Mem) (k : Z) (p : pc) : Prop :=
  match p with
  | Finding o prev tgt => okey o = k -> exists t n, tgt = Some t /\ nodes m !! t = Some n /\ nkey n <= k
  | Miss k' _ _ _ => k' <> k
  | Ret k' b => k' = k -> b = true
  | _ => True
  end.

Definition present (m : Mem) (k : Z) : Prop := exists a, has_key m a k.

Lemma on_track_grows m m' k p : grows m m' -> on_track m k p -> on_track m' k p.
Proof.
  intros Hg. destruct p; simpl; try done. intros Ho E. destruct (Ho E) as (t & n & -> & Hn & Hk).
  destruct (Hg _ _ Hn) as (n' & Hn' & E'). exists t, n'. split; [done|]. split; [done|lia].
Qed.

Lemma on_track_start m k o : mem_ok m -> present m k -> on_track m k (Finding o None (head_next m)).
Proof.
  intros Hm (a & n & Hn & <-) E. pose proof (mo_pos _ Hm _ _ Hn).
  destruct (mo_skip _ Hm None a n I Hn) as (t & nt & ? & ? & ?); [simpl; lia|]. eauto.
Qed.

Lemma on_track_next m k o t n :
  mem_ok m -> present m k -> nodes m !! t = Some n -> nkey n < okey o -> on_track m k (Finding o (Some t) (next n)).
Proof.
  intros Hm (a & na & Hna & <-) Ht Hl E.
  destruct (mo_skip _ Hm (Some t) a na) as (x & nx & Hx & Hnx & Hle); simpl; [eauto|done|rewrite Ht; lia|].
  simpl in Hx. rewrite Ht in Hx. eauto.
Qed.

Lemma beyond_off m k prev tgt o : on_track m k (Finding o prev tgt) -> beyond m k tgt -> okey o = k -> False.
Proof.
  intros Ht Hb E. destruct (Ht E) as (t & n & -> & Hn & Hk). destruct Hb as (n' & Hn' & Hl). simplify_eq. lia.
Qed.

Lemma step_grows c l c' : inv c -> step c l c' -> grows (mem c) (mem c').
Proof.
  intros H Hs. destruct Hs as [| | | | | | | | |i k v t old n pv Hi Hn Ho Hpv| |i k v prev tgt a pv Hi Hn Ha Hpv| | |];
    try apply grows_refl; pose proof (iv_pc _ H _ _ Hi) as Hp; simpl in Hp.
  - subst old. by apply upd_grows.
  - destruct Hp as (? & Hl & Hlt & Hbe). by apply link_grows.
Qed.

Lemma present_grows m m' k : grows m m' -> present m k -> present m' k.
Proof. intros Hg [a Ha]. exists a. by eapply grows_has. Qed.

(** Every other thread's step keeps thread [j] on track, and so do its own. *)
Lemma on_track_step c l c' k j :
  inv c -> present (mem c) k -> (forall p, pcs c !! j = Some p -> on_track (mem c) k p) ->
  step c l c' -> forall p, pcs c' !! j = Some p -> on_track (mem c') k p.
Proof.
  intros H Hpr Hall Hs. pose proof (iv_mem _ H) as Hm. pose proof (step_grows _ _ _ H Hs) as Hgr.
  assert (forall i p', (i = j -> on_track (mem c') k p') -> pcs c' = <[i := p']> (pcs c) ->
    forall p, pcs c' !! j = Some p -> on_track (mem c') k p) as Hupd.
  { intros i p' Hp' -> p Hj. apply list_lookup_insert_Some in Hj as [(-> & <- & _)|[? Hj]]; [by apply Hp'|].
    eapply on_track_grows; [done|by apply Hall]. }
  destruct Hs as [i o Hi Hk|i o prev t n Hi Hn Hk|i o prev t n Hi Hn Hk|i k0 v prev tgt Hi Hb|i k0 prev tgt Hi Hb
    |i k0 prev tgt Hi Hb|i k0 t Hi|i k0 t n Hi Hn|i k0 v t n Hi Hn|i k0 v t old n pv Hi Hn Ho Hpv
    |i k0 v t old n Hi Hn Ho|i k0 v prev tgt a pv Hi Hn Ha Hpv|i k0 v prev tgt Hi Hn|i k0 p v Hi Hv|i k0 b Hi];
    (eapply (Hupd i); [|reflexivity]); intros ->; try done; pose proof (Hall _ Hi) as Ht.
  - by apply on_track_start.
  - by eapply on_track_next.
  - intros ->. exact (beyond_off _ _ _ _ _ Ht Hb eq_refl).
  - intros ->. destruct (beyond_off _ _ _ _ _ Ht Hb eq_refl).
  - intros ->. destruct (beyond_off _ _ _ _ _ Ht Hb eq_refl).
  - by apply (on_track_start _ _ (OInsert k0 v)).
  - by apply (on_track_start _ _ (OInsert k0 v)).
Qed.
End conc.

Arguments conf : clear implicits.
Arguments Mem : clear implicits.
Arguments pc : clear implicits.

(** C3. Concurrent insertions linearize: in every state that any number of
    threads running Insert, Get and Has on a bucket can reach, in any
    interleaving, the list holds exactly what the completed insertions, in the
    order of their compare-and-swap, put there; no insertion is lost and no key
    has two entries. *)
Theorem concurrent_inserts_linearize {V} n (c : conf V) (g : gmap Z V) :
  run (init n) ∅ c g ->
  (forall k v, holds (mem c) k v <-> g !! k = Some v) /\
  (forall a b na nb, nodes (mem c) !! a = Some na -> nodes (mem c) !! b = Some nb -> nkey na = nkey nb -> a = b).
Proof.
  intros Hr. destruct (run_refines _ _ _ _ (init_represents n) Hr) as [[Hm _] Hg].
  split; [done|apply Hm].
Qed.

Lemma run_on_track {V} (c : conf V) g c' g' k i :
  inv c -> present (mem c) k -> (forall p, pcs c !! i = Some p -> on_track (mem c) k p) ->
  run c g c' g' -> forall p, pcs c' !! i = Some p -> on_track (mem c') k p.
Proof.
  intros Hi Hp Ht Hr. revert Hi Hp Ht. induction Hr as [|c g l c1 c2 g2 Hs Hr IH]; intros Hi Hp Ht; [done|].
  apply IH; [by eapply step_inv|eapply present_grows; [by eapply step_grows|done]|by eapply on_track_step].
Qed.

(** A Has or Get that starts after a key was inserted finds it, whatever
    the other threads do meanwhile; and one that answers true is right. *)
Theorem inserted_key_is_found {V} n (c c' : conf V) g g' i k b :
  run (init n) ∅ c g -> is_Some (g !! k) -> pcs c !! i = Some Idle ->
  run c g c' g' -> pcs c' !! i = Some (Ret k b) -> b = true /\ is_Some (g' !! k).
Proof.
  intros H0 Hp Hidle Hr Hi. destruct (run_refines _ _ _ _ (init_represents n) H0) as [Hinv Hg].
  assert (present (mem c) k) as Hpr.
  { destruct Hp as [v Hv]. apply Hg in Hv as (a & na & Ha & Hk & _). by exists a, na. }
  assert (on_track (mem c') k (Ret k b)) as Ht.
  { eapply run_on_track; [exact Hinv|exact Hpr| |exact Hr|exact Hi]. intros p Hj. by simplify_eq. }
  rewrite (Ht eq_refl) in *. split; [done|].
  destruct (run_refines _ _ _ _ (conj Hinv Hg) Hr) as [Hinv' Hg'].
  destruct (iv_pc _ Hinv' _ _ Hi) as (t & n' & Hn & <-).
  destruct (mo_val _ (iv_mem _ Hinv') _ _ Hn) as [v Hv]. exists v. apply Hg'. by exists t, n'.
Qed.

(** ** Concrete runs *)

Tactic Notation "hstep" uconstr(r) :=
  eapply run_step; [eapply r; vm_compute; try reflexivity; try discriminate|
  match goal with |- run ?c ?g _ _ =>
    let v := eval vm_compute in c in change c with v end].

Definition one_entry : conf Z := mkConf (mkMem {[0%nat := mkNode 5 0 None]} (Some 0%nat) {[0%nat := 7]}) [Idle; Idle].

Lemma one_entry_run : run (init 2) ∅ one_entry {[5 := 7]}.
Proof.
  hstep (s_start _ 0%nat (OInsert 5 7)). hstep (s_miss_insert _ 0%nat 5 7 None None).
  hstep (s_cas_ok _ 0%nat 5 7 None None 0%nat 0%nat). apply run_refl.
Qed.

Lemma concurrent_inserts_linearize_witness :
  run (init 2) ∅ one_entry {[5 := 7]} /\ holds (mem one_entry) 5 7.
Proof.
  split; [exact one_entry_run|].
  apply (proj1 (concurrent_inserts_linearize 2 one_entry {[5 := 7]} one_entry_run) 5 7).
  vm_compute. reflexivity.
Defined.

(** Thread 1 looks key 5 up and reaches its return. *)
Lemma inserted_key_is_found_witness :
  exists c' g', run one_entry {[5 := 7]} c' g' /\ pcs c' !! 1%nat = Some (Ret 5 true) /\ is_Some (g' !! 5).
Proof.
  assert (exists c', run one_entry {[5 := 7]} c' {[5 := 7]} /\ pcs c' !! 1%nat = Some (Ret 5 true)) as (c' & Hr & Hi).
  { eexists. split.
    - hstep (s_start _ 1%nat (OHas 5)). hstep (s_hit _ 1%nat (OHas 5) None 0%nat (mkNode 5 0 None)).
      hstep (s_has _ 1%nat 5 0%nat). apply run_refl.
    - reflexivity. }
  exists c', {[5 := 7]}. split; [exact Hr|]. split; [exact Hi|].
  exact (proj2 (inserted_key_is_found 2 one_entry c' _ _ 1%nat 5 true one_entry_run (ex_intro _ 7 eq_refl)
                  eq_refl Hr Hi)).
Defined.

(** A pointer that Get returned can dangle: thread 0 looks a key up, thread
    1 sets the same key, which deletes the value, and thread 0 still holds the
    old pointer.  GlobalData::RegisterNode does both for every call, so two
    threads that register the same name race. *)
Theorem get_pointer_can_dangle :
  exists (c : conf Z) g p, run (init 2) ∅ c g /\ pcs c !! 0%nat = Some (GotPtr 5 p) /\ vals (mem c) !! p = None.
Proof.
  eexists _, _, 0%nat. split; [|split].
  - hstep (s_start _ 0%nat (OInsert 5 7)). hstep (s_miss_insert _ 0%nat 5 7 None None).
    hstep (s_cas_ok _ 0%nat 5 7 None None 0%nat 0%nat).
    hstep (s_start _ 0%nat (OGet 5)). hstep (s_hit _ 0%nat (OGet 5) None 0%nat (mkNode 5 0 None)).
    hstep (s_get _ 0%nat 5 0%nat (mkNode 5 0 None)).
    hstep (s_start _ 1%nat (OInsert 5 7)). hstep (s_hit _ 1%nat (OInsert 5 7) None 0%nat (mkNode 5 0 None)).
    hstep (s_load _ 1%nat 5 7 0%nat (mkNode 5 0 None)).
    hstep (s_upd_ok _ 1%nat 5 7 0%nat 0%nat (mkNode 5 0 None) 1%nat). apply run_refl.
  - reflexivity.
  - reflexivity.
Qed.
