(* ===== verification/GlobalData.v ===== *)
(** GlobalData.v -- src/src/apollo/cyber/common/global_data.{h,cc}

    The registries that give nodes, channels, services and tasks their 64-bit
    ids: the hash of the name, and the next free id when the hash is taken by
    another name.  RegisterNode, RegisterChannel, RegisterService and
    RegisterTaskName have the same body on four tables; [Register] is that body.
    std::hash is a parameter, of which only the range is assumed.  The probing
    loop runs on fuel; one more than the number of registered names is enough. *)

From S2P Require Import Prelude.
From S2P Require Import AtomicHashMap.
Local Open Scope Z_scope.

Section register.
Variable Hash : string -> Z.
Hypothesis Hash_range : forall s, is_u64 (Hash s).

Notation Registry := (AtomicHashMap string).

(** The sizes of the four tables. *)
Definition node_id_map_ : Registry := NewMap (2 ^ 9).
Definition channel_id_map_ : Registry := NewMap (2 ^ 8).
Definition service_id_map_ : Registry := NewMap (2 ^ 8).
Definition task_id_map_ : Registry := NewMap (2 ^ 8).

(** while (map.Has(id)) { Get; if (name == *p) break; ++id; } *)
Fixpoint probe (fuel : nat) (m : Registry) (id : Z) (name : string) : option Z :=
  match fuel with
  | O => None
  | S fuel =>
      if Has m id then
        match Get m id with
        | Some other => if bool_decide (name = other) then Some id else probe fuel m (u64 (id + 1)) name
        | None => None
        end
      else Some id
  end.

Definition Register (fuel : nat) (m : Registry) (name : string) : option (Z * Registry) :=
  match probe fuel m (Hash name) name with
  | Some id => Some (id, Set_ m id name)
  | None => None
  end.

Definition GetById (m : Registry) (id : Z) : string :=
  match Get m id with Some name => name | None => "" end.

(** The calls of a process, in order. *)
Fixpoint register_all (fuel : nat) (m : Registry) (names : list string) : option (list Z * Registry) :=
  match names with
  | [] => Some ([], m)
  | name :: names =>
      match Register fuel m name with
      | None => None
      | Some (id, m) =>
          match register_all fuel m names with
          | None => None
          | Some (ids, m) => Some (id :: ids, m)
          end
      end
  end.

(** ** Probing, on the finite map the table refines *)

Fixpoint gprobe (fuel : nat) (g : gmap Z string) (id : Z) (name : string) : option Z :=
  match fuel with
  | O => None
  | S fuel =>
      match g !! id with
      | Some other => if bool_decide (name = other) then Some id else gprobe fuel g (u64 (id + 1)) name
      | None => Some id
      end
  end.

Definition abstracts (n : Z) (m : Registry) (g : gmap Z string) : Prop :=
  wf n m /\ forall k, Get m k = g !! k.

Lemma probe_gprobe n m g fuel id name :
  abstracts n m g -> probe fuel m id name = gprobe fuel g id name.
Proof.
  intros [Hw Hg]. revert id. induction fuel as [|fuel IH]; intros id; simpl; [done|].
  rewrite (Has_Get n) by done. rewrite Hg. destruct (g !! id) as [other|]; simpl; [|done].
  by rewrite IH.
Qed.

Lemma abstracts_Set n m g id name : abstracts n m g -> abstracts n (Set_ m id name) (<[id := name]> g).
Proof.
  intros [Hw Hg]. split; [by apply Set_wf|]. intros k. rewrite (Get_Set n) by done.
  destruct (decide (id = k)) as [<-|]; [by rewrite lookup_insert_eq|by rewrite lookup_insert_ne].
Qed.

(** The ids probed one after the other. *)
Definition probed (id : Z) (j : nat) : Z := u64 (id + Z.of_nat j).

Lemma gprobe_None fuel g id name :
  is_u64 id -> gprobe fuel g id name = None -> forall j, (j < fuel)%nat -> probed id j ∈ dom g.
Proof.
  revert id. induction fuel as [|fuel IH]; intros id Hid Hp j Hj; simpl in Hp; [lia|].
  destruct (g !! id) as [other|] eqn:E; [|done]. destruct (bool_decide (name = other)); [done|].
  destruct j as [|j].
  - unfold probed. rewrite Z.add_0_r, u64_small by done. by apply elem_of_dom_2 in E.
  - replace (probed id (S j)) with (probed (u64 (id + 1)) j).
    + apply IH; [apply u64_range|done|lia].
    + unfold probed, u64. rewrite Zplus_mod_idemp_l. f_equal. lia.
Qed.

Lemma probed_inj id j j' :
  (Z.of_nat j < 2 ^ 64) -> (Z.of_nat j' < 2 ^ 64) -> probed id j = probed id j' -> j = j'.
Proof.
  unfold probed, u64. intros Hj Hj' E. destruct (decide (j = j')) as [|Hne]; [done|].
  exfalso. revert E. apply mod_ne_near; lia.
Qed.

(** Fewer entries than fuel: some probed id is free or has the name. *)
Lemma gprobe_total fuel g id name :
  is_u64 id -> (size g < fuel)%nat -> Z.of_nat fuel <= 2 ^ 64 -> exists x, gprobe fuel g id name = Some x.
Proof.
  intros Hid Hf Hb. destruct (gprobe fuel g id name) as [x|] eqn:E; [eauto|]. exfalso.
  pose proof (gprobe_None _ _ _ _ Hid E) as Hall.
  assert (list_to_set (probed id <$> seq 0 fuel) ⊆ dom g) as Hsub.
  { intros x Hx. apply elem_of_list_to_set, list_elem_of_fmap in Hx as (j & -> & Hj).
    apply elem_of_seq in Hj. apply Hall. lia. }
  apply subseteq_size in Hsub. rewrite size_dom in Hsub.
  rewrite size_list_to_set in Hsub.
  - rewrite length_fmap, length_seq in Hsub. lia.
  - apply NoDup_fmap_2_strong; [|apply NoDup_seq].
    intros j j' Hj Hj'. apply elem_of_seq in Hj, Hj'. apply probed_inj; lia.
Qed.

(** A found id is free or has the name. *)
Lemma gprobe_Some fuel g id name x :
  gprobe fuel g id name = Some x -> g !! x = None \/ g !! x = Some name.
Proof.
  revert id. induction fuel as [|fuel IH]; intros id Hp; simpl in Hp; [done|].
  destruct (g !! id) as [other|] eqn:E; [|simplify_eq; by left].
  case_bool_decide; simplify_eq; [by right|eauto].
Qed.

(** A later registration does not change where a registered name is found. *)
Lemma gprobe_stable fuel g id name x y other :
  gprobe fuel g id name = Some x -> g !! x = Some name -> (g !! y = None \/ g !! y = Some other) ->
  gprobe fuel (<[y := other]> g) id name = Some x.
Proof.
  intros Hp Hx Hy. revert id Hp. induction fuel as [|fuel IH]; intros id Hp; simpl in *; [done|].
  destruct (decide (y = id)) as [<-|Hne].
  - rewrite lookup_insert_eq. destruct Hy as [Hy|Hy]; rewrite Hy in Hp.
    + simplify_eq.
    + case_bool_decide; [done|]. auto.
  - rewrite lookup_insert_ne by done. destruct (g !! id) as [o|]; [|done]. case_bool_decide; [done|]. auto.
Qed.

(** And its own registration makes it found there. *)
Lemma gprobe_own fuel g id name x :
  gprobe fuel g id name = Some x -> gprobe fuel (<[x := name]> g) id name = Some x.
Proof.
  revert id. induction fuel as [|fuel IH]; intros id Hp; simpl in *; [done|].
  destruct (decide (x = id)) as [<-|Hne].
  - rewrite lookup_insert_eq. by rewrite bool_decide_true.
  - rewrite lookup_insert_ne by done. destruct (g !! id) as [o|]; [|simplify_eq].
    case_bool_decide; simplify_eq. auto.
Qed.

(** The registered names and their ids. *)
Definition registered (fuel : nat) (g : gmap Z string) (name : string) (id : Z) : Prop :=
  gprobe fuel g (Hash name) name = Some id /\ g !! id = Some name.

Lemma register_all_spec n fuel names m g :
  abstracts n m g -> (size g + length names < fuel)%nat -> Z.of_nat fuel <= 2 ^ 64 ->
  exists ids m' g', register_all fuel m names = Some (ids, m') /\ abstracts n m' g' /\
    length ids = length names /\
    (forall i name id, names !! i = Some name -> ids !! i = Some id -> registered fuel g' name id) /\
    (forall name id, registered fuel g name id -> registered fuel g' name id).
Proof.
  revert m g. induction names as [|name names IH]; intros m g Ha Hf Hb; simpl in *.
  { exists [], m, g. split_and!; try done. }
  unfold Register. rewrite (probe_gprobe n m g) by done.
  destruct (gprobe_total fuel g (Hash name) name (Hash_range name) ltac:(lia) Hb) as [x Hx]. rewrite Hx.
  pose proof (gprobe_Some _ _ _ _ _ Hx) as Hfree.
  assert (size (<[x := name]> g) <= S (size g))%nat as Hsz.
  { destruct Hfree as [E|E]; [by rewrite map_size_insert_None|]. rewrite insert_id by done. lia. }
  destruct (IH (Set_ m x name) (<[x := name]> g)) as (ids & m' & g' & -> & Ha' & Hl & Hids & Hkeep);
    [by apply abstracts_Set|lia|done|].
  exists (x :: ids), m', g'. split_and!; [done|done|simpl; lia| |].
  - intros [|i] nm id Hn Hi; simpl in *; simplify_eq; [|eauto].
    apply Hkeep. split; [by apply gprobe_own|apply lookup_insert_eq].
  - intros nm id [Hp Hg]. apply Hkeep. split; [by apply gprobe_stable|].
    destruct (decide (x = id)) as [->|]; [|by rewrite lookup_insert_ne].
    rewrite lookup_insert_eq. destruct Hfree as [E|E]; congruence.
Qed.
End register.

(** C24. The registries are injective and stable: any sequence of registrations
    from an empty table terminates and succeeds; two calls return the same id
    exactly when the names are equal, even when their hashes collide; and the
    id maps back to the name. *)
Theorem register_bijective (Hash : string -> Z) (names : list string) :
  (forall s, is_u64 (Hash s)) -> Z.of_nat (length names) < 2 ^ 64 ->
  exists ids m, register_all Hash (S (length names)) node_id_map_ names = Some (ids, m) /\
    length ids = length names /\
    (forall i a x, names !! i = Some a -> ids !! i = Some x -> GetById m x = a) /\
    (forall i j a b x y, names !! i = Some a -> names !! j = Some b -> ids !! i = Some x -> ids !! j = Some y ->
       (x = y <-> a = b)).
Proof.
  intros Hr Hb.
  destruct (register_all_spec Hash Hr 9 (S (length names)) names node_id_map_ ∅)
    as (ids & m & g & E & [Hw Hg] & Hl & Hids & _).
  - split; [by apply NewMap_wf|]. intros k. rewrite lookup_empty. by apply (Get_New 9).
  - rewrite map_size_empty. lia.
  - lia.
  - exists ids, m. split_and!; [done|done| |].
    + intros i a x Ha Hx. destruct (Hids _ _ _ Ha Hx) as [_ Hgx]. unfold GetById. by rewrite Hg, Hgx.
    + intros i j a b x y Ha Hb' Hx Hy. destruct (Hids _ _ _ Ha Hx) as [Hp Hgx], (Hids _ _ _ Hb' Hy) as [Hp' Hgy].
      split; intros <-; congruence.
Qed.

(** Every name hashes to 7: the ids are 7, 8 and again 7. *)
Lemma register_bijective_witness :
  (exists m, register_all (fun _ => 7) 4 node_id_map_ ["a"; "b"; "a"]%string = Some ([7; 8; 7], m)) /\
  exists ids m, register_all (fun _ => 7) 4 node_id_map_ ["a"; "b"; "a"]%string = Some (ids, m) /\ length ids = 3%nat.
Proof.
  split; [eexists; vm_compute; reflexivity|].
  destruct (register_bijective (fun _ => 7) ["a"; "b"; "a"]%string) as (ids & m & E & Hl & _).
  - intros s. unfold is_u64. lia.
  - simpl. lia.
  - exists ids, m. split; [exact E|exact Hl].
Defined.
