(* ===== verification/TimingWheel.v ===== *)
(** TimingWheel.v -- src/src/apollo/cyber/timer/timing_wheel.{h,cc},
    timer_bucket.h and timer_task.h

    The two-level wheel that drives every timer.  A bucket holds weak pointers:
    the model has a store of the task objects still owned by a timer, and a
    bucket is a list of keys of that store.  Here AddTask and the part of the tick
    thread between two sleeps are single steps; [TimingWheelConc] interleaves their
    accesses. *)

From S2P Require Import Prelude.
Local Open Scope Z_scope.

Definition WORK_WHEEL_SIZE : Z := 512.
Definition ASSISTANT_WHEEL_SIZE : Z := 64.
Definition TIMER_MAX_INTERVAL_MS : Z := WORK_WHEEL_SIZE * ASSISTANT_WHEEL_SIZE.

(** The callback is kept by its timer and is not part of the wheel's state. *)
Record TimerTask := mkTimerTask {
  timer_id_ : Z;
  interval_ms : Z;
  remainder_interval_ms : Z;
  next_fire_duration_ms : Z;
  accumulated_error_ns_ : Z;
  last_execute_time_ns_ : Z
}.

Definition set_remainder (t : TimerTask) (r : Z) : TimerTask :=
  mkTimerTask (timer_id_ t) (interval_ms t) r (next_fire_duration_ms t)
    (accumulated_error_ns_ t) (last_execute_time_ns_ t).

(** A bucket: list of weak pointers to tasks. *)
Definition TimerBucket : Type := list nat.

(** [tasks]: the task objects some shared pointer still owns. *)
Record TimingWheel := mkTimingWheel {
  running_ : bool;
  work_wheel_ : list TimerBucket;
  assistant_wheel_ : list TimerBucket;
  current_work_wheel_index_ : Z;
  current_assistant_wheel_index_ : Z;
  tasks : gmap nat TimerTask
}.

Definition GetWorkWheelIndex (index : Z) : Z := Z.land index (WORK_WHEEL_SIZE - 1).
Definition GetAssistantWheelIndex (index : Z) : Z := Z.land index (ASSISTANT_WHEEL_SIZE - 1).

(** TimerBucket::AddTask on bucket [i] of a wheel. *)
Definition bucket_add (wheel : list TimerBucket) (i : Z) (task : nat) : list TimerBucket :=
  match zget wheel i with
  | Some l => zset wheel i (l ++ [task])
  | None => wheel
  end.

Definition Start (w : TimingWheel) : TimingWheel :=
  if running_ w then w
  else mkTimingWheel true (work_wheel_ w) (assistant_wheel_ w) (current_work_wheel_index_ w)
         (current_assistant_wheel_index_ w) (tasks w).

Definition Shutdown (w : TimingWheel) : TimingWheel :=
  if running_ w then
    mkTimingWheel false (work_wheel_ w) (assistant_wheel_ w) (current_work_wheel_index_ w)
      (current_assistant_wheel_index_ w) (tasks w)
  else w.

Definition alive (ts : gmap nat TimerTask) (t : nat) : bool :=
  match ts !! t with Some _ => true | None => false end.

(** Tick: the tasks of the current bucket whose weak pointer can be locked are
    posted (in order), and the bucket is emptied. *)
Definition Tick (w : TimingWheel) : TimingWheel * list nat :=
  let i := current_work_wheel_index_ w in
  let bucket := default [] (zget (work_wheel_ w) i) in
  (mkTimingWheel (running_ w) (zset (work_wheel_ w) i []) (assistant_wheel_ w) i
     (current_assistant_wheel_index_ w) (tasks w),
   List.filter (alive (tasks w)) bucket).

(** AddTask(task, current_work_wheel_index).  A null task would be
    dereferenced; the model leaves the wheel unchanged. *)
Definition AddTask_at (w0 : TimingWheel) (task : nat) (current_work_wheel_index : Z) : TimingWheel :=
  let w := Start w0 in
  match tasks w !! task with
  | None => w
  | Some o =>
    let work_wheel_index := u64 (current_work_wheel_index + next_fire_duration_ms o) in
    if WORK_WHEEL_SIZE <=? work_wheel_index then
      let real_work_wheel_index := GetWorkWheelIndex work_wheel_index in
      let ts := <[task := set_remainder o real_work_wheel_index]> (tasks w) in
      let assistant_ticks := work_wheel_index / WORK_WHEEL_SIZE in
      if (assistant_ticks =? 1) && negb (real_work_wheel_index =? current_work_wheel_index_ w) then
        mkTimingWheel (running_ w) (bucket_add (work_wheel_ w) real_work_wheel_index task)
          (assistant_wheel_ w) (current_work_wheel_index_ w)
          (current_assistant_wheel_index_ w) ts
      else
        let assistant_wheel_index :=
          GetAssistantWheelIndex (u64 (current_assistant_wheel_index_ w + assistant_ticks)) in
        mkTimingWheel (running_ w) (work_wheel_ w)
          (bucket_add (assistant_wheel_ w) assistant_wheel_index task)
          (current_work_wheel_index_ w) (current_assistant_wheel_index_ w) ts
    else
      mkTimingWheel (running_ w) (bucket_add (work_wheel_ w) work_wheel_index task)
        (assistant_wheel_ w) (current_work_wheel_index_ w)
        (current_assistant_wheel_index_ w) (tasks w)
  end.

Definition AddTask (w : TimingWheel) (task : nat) : TimingWheel :=
  AddTask_at w task (current_work_wheel_index_ w).

(** The loop of Cascade over the bucket's list. *)
Fixpoint cascade_list (ts : gmap nat TimerTask) (l : list nat) (work : list TimerBucket) : list TimerBucket :=
  match l with
  | [] => work
  | t :: l =>
      cascade_list ts l
        match ts !! t with
        | Some o => bucket_add work (remainder_interval_ms o) t
        | None => work
        end
  end.

Definition Cascade (w : TimingWheel) (assistant_wheel_index : Z) : TimingWheel :=
  let bucket := default [] (zget (assistant_wheel_ w) assistant_wheel_index) in
  mkTimingWheel (running_ w) (cascade_list (tasks w) bucket (work_wheel_ w))
    (zset (assistant_wheel_ w) assistant_wheel_index []) (current_work_wheel_index_ w)
    (current_assistant_wheel_index_ w) (tasks w).

(** The part of the loop of TickFunc after the sleep. *)
Definition advance (w : TimingWheel) : TimingWheel :=
  let c := GetWorkWheelIndex (u64 (current_work_wheel_index_ w + 1)) in
  let w1 := mkTimingWheel (running_ w) (work_wheel_ w) (assistant_wheel_ w) c
              (current_assistant_wheel_index_ w) (tasks w) in
  if c =? 0 then
    let a := GetAssistantWheelIndex (u64 (current_assistant_wheel_index_ w + 1)) in
    Cascade (mkTimingWheel (running_ w) (work_wheel_ w) (assistant_wheel_ w) c a (tasks w)) a
  else w1.

(** TickFunc for at most [n] rounds: the tasks posted in each round. *)
Fixpoint TickFunc (n : nat) (w : TimingWheel) : TimingWheel * list (list nat) :=
  match n with
  | O => (w, [])
  | S n =>
      if running_ w then
        let '(w1, fired) := Tick w in
        let '(w2, log) := TickFunc n (advance w1) in (w2, fired :: log)
      else (w, [])
  end.

(** What happens to the wheel between two ticks: time advances to the next
    tick, a timer adds or re-adds a task, a timer creates or drops its task. *)
Inductive wheel_event :=
| EvTick                          (* end of the sleep, then the next Tick *)
| EvAdd (task : nat)
| EvCreate (task : nat) (o : TimerTask)
| EvDrop (task : nat).

#[export] Instance TimerTask_eq_dec : EqDecision TimerTask.
Proof. solve_decision. Defined.
#[export] Instance wheel_event_eq_dec : EqDecision wheel_event.
Proof. solve_decision. Defined.

Definition set_tasks (w : TimingWheel) (ts : gmap nat TimerTask) : TimingWheel :=
  mkTimingWheel (running_ w) (work_wheel_ w) (assistant_wheel_ w) (current_work_wheel_index_ w)
    (current_assistant_wheel_index_ w) ts.

Fixpoint wheel_run (w : TimingWheel) (es : list wheel_event) : TimingWheel * list (list nat) :=
  match es with
  | [] => (w, [])
  | EvTick :: es =>
      let '(w1, fired) := Tick (advance w) in
      let '(w2, log) := wheel_run w1 es in (w2, fired :: log)
  | EvAdd t :: es => wheel_run (AddTask w t) es
  | EvCreate t o :: es => wheel_run (set_tasks w (<[t := o]> (tasks w))) es
  | EvDrop t :: es => wheel_run (set_tasks w (delete t (tasks w))) es
  end.

Definition about (t : nat) (e : wheel_event) : bool :=
  match e with
  | EvTick => false
  | EvAdd t' | EvCreate t' _ | EvDrop t' => bool_decide (t = t')
  end.

(** ** Well-formed wheels *)

Record wf (w : TimingWheel) : Prop := mkWf {
  wf_work : zlen (work_wheel_ w) = WORK_WHEEL_SIZE;
  wf_assistant : zlen (assistant_wheel_ w) = ASSISTANT_WHEEL_SIZE;
  wf_c : 0 <= current_work_wheel_index_ w < WORK_WHEEL_SIZE;
  wf_a : 0 <= current_assistant_wheel_index_ w < ASSISTANT_WHEEL_SIZE
}.

Lemma GetWorkWheelIndex_mod i : GetWorkWheelIndex i = i mod 512.
Proof. unfold GetWorkWheelIndex, WORK_WHEEL_SIZE. exact (Z.land_ones i 9 ltac:(lia)). Qed.

Lemma GetAssistantWheelIndex_mod i : GetAssistantWheelIndex i = i mod 64.
Proof. unfold GetAssistantWheelIndex, ASSISTANT_WHEEL_SIZE. exact (Z.land_ones i 6 ltac:(lia)). Qed.

(** ** Occurrences of a task in the wheels *)

Definition cnt (t : nat) (l : list nat) : nat := length (List.filter (Nat.eqb t) l).
Definition occ (wheel : list TimerBucket) (t : nat) (j : Z) : nat :=
  match zget wheel j with Some l => cnt t l | None => 0%nat end.

Lemma cnt_app t l k : cnt t (l ++ k) = (cnt t l + cnt t k)%nat.
Proof. unfold cnt. rewrite List.filter_app, length_app. done. Qed.

Lemma cnt_filter t f l : cnt t (List.filter f l) = if f t then cnt t l else 0%nat.
Proof.
  unfold cnt. induction l as [|x l IH]; simpl; [by destruct (f t)|].
  destruct (f x) eqn:Ef; simpl; destruct (Nat.eqb_spec t x); subst; simpl; rewrite IH, ?Ef; done.
Qed.

Lemma zlen_bucket_add wheel i t : zlen (bucket_add wheel i t) = zlen wheel.
Proof. unfold bucket_add. case_match; [apply zlen_zset|done]. Qed.

Lemma occ_bucket_add wheel i t u j :
  occ (bucket_add wheel i t) u j =
    (occ wheel u j + (if ((j =? i) && (0 <=? i) && (i <? zlen wheel))%Z && Nat.eqb u t then 1 else 0))%nat.
Proof.
  unfold bucket_add, occ. destruct (zget wheel i) as [l|] eqn:E.
  - assert (0 <= i < zlen wheel) by (apply zget_Some; eauto).
    destruct (Z.leb_spec 0 i), (Z.ltb_spec i (zlen wheel)); try lia.
    destruct (Z.eqb_spec j i) as [->|Hne]; simpl.
    + rewrite zget_zset_eq by done. rewrite E, cnt_app. unfold cnt at 2. simpl.
      by destruct (Nat.eqb u t).
    + rewrite zget_zset_ne by done. lia.
  - assert (~ (0 <= i < zlen wheel)) by (rewrite zget_Some, E; intros [? ?]; done).
    destruct (Z.leb_spec 0 i), (Z.ltb_spec i (zlen wheel)); try lia;
      destruct (Z.eqb_spec j i); simpl; lia.
Qed.

Lemma occ_clear wheel i u j : occ (zset wheel i []) u j = if j =? i then 0%nat else occ wheel u j.
Proof.
  unfold occ. destruct (Z.eqb_spec j i) as [->|Hne]; [|by rewrite zget_zset_ne].
  destruct (decide (0 <= i < zlen wheel)) as [H|H].
  - by rewrite zget_zset_eq.
  - destruct (zget _ i) eqn:E; [|done]. destruct H.
    rewrite <- (zlen_zset wheel i []). apply zget_Some. eauto.
Qed.

Lemma zlen_cascade_list ts l work : zlen (cascade_list ts l work) = zlen work.
Proof.
  revert work. induction l as [|t l IH]; intros work; simpl; [done|].
  rewrite IH. destruct (ts !! t); [apply zlen_bucket_add|done].
Qed.

Lemma occ_cascade_list ts l work u j :
  occ (cascade_list ts l work) u j =
    (occ work u j +
     match ts !! u with
     | Some o => if ((j =? remainder_interval_ms o) && (0 <=? remainder_interval_ms o) &&
                     (remainder_interval_ms o <? zlen work))%Z then cnt u l else 0
     | None => 0
     end)%nat.
Proof.
  revert work. induction l as [|t l IH]; intros work; simpl.
  - unfold cnt. simpl. destruct (ts !! u); [case_match|]; lia.
  - rewrite IH. unfold cnt. simpl. destruct (Nat.eqb_spec u t) as [<-|Hne].
    + destruct (ts !! u) as [o|] eqn:E; [|done].
      rewrite occ_bucket_add, zlen_bucket_add, Nat.eqb_refl, andb_true_r.
      case_match; simpl; lia.
    + replace (occ match ts !! t with Some o => bucket_add work (remainder_interval_ms o) t
                   | None => work end u j) with (occ work u j).
      * replace (zlen match ts !! t with Some o => bucket_add work (remainder_interval_ms o) t
                   | None => work end) with (zlen work); [done|].
        destruct (ts !! t); [by rewrite zlen_bucket_add|done].
      * destruct (ts !! t); [|done]. rewrite occ_bucket_add.
        destruct (Nat.eqb_spec u t); [done|]. rewrite andb_false_r. lia.
Qed.

(** ** A pending task and its remaining ticks

    [pending w t r]: task [t] is alive, sits in exactly one bucket, and that
    bucket is the one the wheel reaches in [r] ticks. *)

Definition in_work (w : TimingWheel) (t : nat) (i : Z) : Prop :=
  (forall j, occ (work_wheel_ w) t j = if j =? i then 1%nat else 0%nat) /\
  (forall j, occ (assistant_wheel_ w) t j = 0%nat).

Definition in_assistant (w : TimingWheel) (t : nat) (i : Z) : Prop :=
  (forall j, occ (work_wheel_ w) t j = 0%nat) /\
  (forall j, occ (assistant_wheel_ w) t j = if j =? i then 1%nat else 0%nat).

Definition absent (w : TimingWheel) (t : nat) : Prop :=
  (forall j, occ (work_wheel_ w) t j = 0%nat) /\ (forall j, occ (assistant_wheel_ w) t j = 0%nat).

Inductive pending (w : TimingWheel) (t : nat) (r : Z) : Prop :=
| pending_work :
    is_Some (tasks w !! t) -> 1 <= r <= 512 ->
    in_work w t ((current_work_wheel_index_ w + r) mod 512) -> pending w t r
| pending_assistant o k :
    tasks w !! t = Some o -> 1 <= k <= 64 -> 0 <= remainder_interval_ms o < 512 ->
    r = 512 * k - current_work_wheel_index_ w + remainder_interval_ms o ->
    in_assistant w t ((current_assistant_wheel_index_ w + k) mod 64) -> pending w t r.

Lemma wf_advance w : wf w -> wf (advance w).
Proof.
  intros []. unfold advance. rewrite GetWorkWheelIndex_mod, GetAssistantWheelIndex_mod.
  pose proof (Z.mod_pos_bound (u64 (current_work_wheel_index_ w + 1)) 512).
  pose proof (Z.mod_pos_bound (u64 (current_assistant_wheel_index_ w + 1)) 64).
  unfold WORK_WHEEL_SIZE, ASSISTANT_WHEEL_SIZE in *.
  case_match; unfold Cascade; constructor; simpl; rewrite ?zlen_cascade_list, ?zlen_zset; unfold WORK_WHEEL_SIZE, ASSISTANT_WHEEL_SIZE; lia.
Qed.

Lemma wf_Tick w : wf w -> wf (fst (Tick w)).
Proof. intros []. constructor; simpl; rewrite ?zlen_zset; done. Qed.

Lemma wf_AddTask_at w t c : wf w -> wf (AddTask_at w t c).
Proof.
  intros []. unfold AddTask_at, Start. destruct (running_ w); simpl;
    (destruct (tasks w !! t); [|by constructor]); repeat case_match;
    constructor; simpl; rewrite ?zlen_bucket_add; done.
Qed.

(** The next indices. *)
Lemma advance_c w : wf w ->
  current_work_wheel_index_ (advance w) = (current_work_wheel_index_ w + 1) mod 512.
Proof.
  intros []. unfold advance. rewrite GetWorkWheelIndex_mod. unfold WORK_WHEEL_SIZE in *.
  rewrite u64_small by (unfold is_u64; lia). by case_match.
Qed.

Lemma advance_wrap w : wf w -> current_work_wheel_index_ w = 511 ->
  let a := (current_assistant_wheel_index_ w + 1) mod 64 in
  advance w = Cascade (mkTimingWheel (running_ w) (work_wheel_ w) (assistant_wheel_ w) 0 a (tasks w)) a.
Proof.
  intros [] E a. unfold advance. rewrite GetWorkWheelIndex_mod, GetAssistantWheelIndex_mod, E.
  unfold ASSISTANT_WHEEL_SIZE in *. rewrite !u64_small by (unfold is_u64; lia). done.
Qed.

Lemma advance_nowrap w : wf w -> current_work_wheel_index_ w < 511 ->
  advance w = mkTimingWheel (running_ w) (work_wheel_ w) (assistant_wheel_ w)
    (current_work_wheel_index_ w + 1) (current_assistant_wheel_index_ w) (tasks w).
Proof.
  intros [] E. unfold advance. rewrite GetWorkWheelIndex_mod. unfold WORK_WHEEL_SIZE in *.
  rewrite u64_small by (unfold is_u64; lia). rewrite Z.mod_small by lia.
  destruct (Z.eqb_spec (current_work_wheel_index_ w + 1) 0); [lia|done].
Qed.

Lemma occ_cascade_other w t a j :
  occ (assistant_wheel_ w) t a = 0%nat ->
  occ (work_wheel_ (Cascade w a)) t j = occ (work_wheel_ w) t j.
Proof.
  intros H. unfold Cascade. simpl. rewrite occ_cascade_list.
  assert (cnt t (default [] (zget (assistant_wheel_ w) a)) = 0%nat) as ->.
  { unfold occ in H. by destruct (zget (assistant_wheel_ w) a). }
  destruct (tasks w !! t); [case_match|]; lia.
Qed.

Lemma occ_cascade_assistant w t a j :
  occ (assistant_wheel_ (Cascade w a)) t j = if j =? a then 0%nat else occ (assistant_wheel_ w) t j.
Proof. unfold Cascade. simpl. apply occ_clear. Qed.

(** Advancing does not move a task of the work wheel, nor an absent one. *)
Lemma advance_no_assistant w t :
  wf w -> (forall j, occ (assistant_wheel_ w) t j = 0%nat) ->
  (forall j, occ (work_wheel_ (advance w)) t j = occ (work_wheel_ w) t j) /\
  (forall j, occ (assistant_wheel_ (advance w)) t j = 0%nat) /\
  tasks (advance w) = tasks w.
Proof.
  intros Hwf Ha. destruct (decide (current_work_wheel_index_ w = 511)) as [E|E].
  - rewrite (advance_wrap w Hwf E). split; [|split]; try done; intros j.
    + rewrite occ_cascade_other; done.
    + rewrite occ_cascade_assistant. simpl. rewrite Ha. by case_match.
  - destruct Hwf. unfold WORK_WHEEL_SIZE in *. rewrite advance_nowrap; [done|by constructor|lia].
Qed.

Lemma advance_in_work w t i : wf w -> in_work w t i -> in_work (advance w) t i.
Proof.
  intros Hwf [H1 H2]. destruct (advance_no_assistant w t Hwf H2) as (H3 & H4 & _).
  split; [|done]. intros j. by rewrite H3.
Qed.

Lemma advance_tasks w : wf w -> tasks (advance w) = tasks w.
Proof. intros _. unfold advance. by case_match. Qed.

(** A task of the assistant bucket that is cascaded lands in its work bucket. *)
Lemma cascade_in_work w t o a :
  zlen (work_wheel_ w) = 512 -> tasks w !! t = Some o -> 0 <= remainder_interval_ms o < 512 ->
  in_assistant w t a -> in_work (Cascade w a) t (remainder_interval_ms o).
Proof.
  intros Hlen Ho Hrem [Hw Ha]. split; intros j.
  - unfold Cascade. simpl. rewrite occ_cascade_list, Hw, Ho, Hlen.
    specialize (Ha a). rewrite Z.eqb_refl in Ha. unfold occ in Ha.
    destruct (zget (assistant_wheel_ w) a) as [l|]; [|done]. simpl.
    destruct (Z.leb_spec 0 (remainder_interval_ms o)), (Z.ltb_spec (remainder_interval_ms o) 512); try lia.
    rewrite !andb_true_r. destruct (j =? remainder_interval_ms o); lia.
  - rewrite occ_cascade_assistant, Ha. by destruct (j =? a).
Qed.

(** A task of another assistant bucket stays where it is. *)
Lemma cascade_in_assistant w t a i :
  a <> i -> in_assistant w t i -> in_assistant (Cascade w a) t i.
Proof.
  intros Hne [Hw Ha]. split; intros j.
  - rewrite occ_cascade_other; [done|]. rewrite Ha. by destruct (Z.eqb_spec a i).
  - rewrite occ_cascade_assistant, Ha. destruct (Z.eqb_spec j a) as [->|]; [|done].
    by destruct (Z.eqb_spec a i).
Qed.

Lemma in_work_elsewhere w t i j : in_work w t i -> j <> i -> occ (work_wheel_ w) t j = 0%nat.
Proof. intros [H _] Hne. rewrite H. by destruct (Z.eqb_spec j i). Qed.

(** Where a pending task is after the indices moved: in the bucket about to be
    ticked when one tick remained, pending for one tick less otherwise. *)
Lemma advance_pending w t r :
  wf w -> pending w t r ->
  if r =? 1 then in_work (advance w) t (current_work_wheel_index_ (advance w))
  else pending (advance w) t (r - 1) /\
       occ (work_wheel_ (advance w)) t (current_work_wheel_index_ (advance w)) = 0%nat.
Proof.
  intros Hwf Hp. destruct Hp as [Hl Hr Hw|o k Ho Hk Hrem -> Hin].
  - pose proof (advance_in_work _ _ _ Hwf Hw) as Hw'.
    rewrite (advance_c w Hwf). destruct (Z.eqb_spec r 1) as [->|]; [done|].
    split; [|by apply (in_work_elsewhere _ _ _ _ Hw'), mod_ne_near; lia].
    constructor 1; [by rewrite (advance_tasks w Hwf)|lia|]. rewrite (advance_c w Hwf).
    rewrite Zplus_mod_idemp_l. by replace (current_work_wheel_index_ w + 1 + (r - 1)) with
      (current_work_wheel_index_ w + r) by lia.
  - assert (Hwf' := Hwf). destruct Hwf'. unfold WORK_WHEEL_SIZE, ASSISTANT_WHEEL_SIZE in *.
    destruct (decide (current_work_wheel_index_ w = 511)) as [E|E].
    + set (a := (current_assistant_wheel_index_ w + 1) mod 64).
      assert (0 <= a < 64) by (apply Z.mod_pos_bound; lia).
      rewrite (advance_wrap w Hwf E). fold a. rewrite E. set (w1 := mkTimingWheel _ _ _ _ _ _).
      destruct (decide (k = 1)) as [->|Hk1].
      * pose proof (cascade_in_work w1 t o a wf_work0 Ho Hrem Hin) as Hc.
        destruct (Z.eqb_spec (512 * 1 - 511 + remainder_interval_ms o) 1) as [E1|E1].
        { simpl. by replace 0 with (remainder_interval_ms o) by lia. }
        split; [|simpl; apply (in_work_elsewhere _ _ _ _ Hc); lia].
        constructor 1; simpl; [rewrite Ho; eauto|lia|].
        cut (forall x, x = remainder_interval_ms o -> in_work (Cascade w1 a) t x); [|by intros ? ->].
        intros Hx. apply Hx. rewrite Z.mod_small; lia.
      * assert (a <> (current_assistant_wheel_index_ w + k) mod 64) as Hne
          by (apply mod_ne_near; lia).
        destruct (Z.eqb_spec (512 * k - 511 + remainder_interval_ms o) 1); [lia|].
        pose proof (cascade_in_assistant w1 t a _ Hne Hin) as Hc. split; [|apply Hc].
        eapply (pending_assistant _ _ _ o (k - 1)); simpl; try done; try lia.
        unfold a. rewrite Zplus_mod_idemp_l. fold a.
        replace (current_assistant_wheel_index_ w + 1 + (k - 1)) with (current_assistant_wheel_index_ w + k) by lia.
        done.
    + rewrite advance_nowrap by (done || lia).
      destruct (Z.eqb_spec (512 * k - current_work_wheel_index_ w + remainder_interval_ms o) 1); [lia|].
      split; [|apply Hin].
      eapply (pending_assistant _ _ _ o k); simpl; try done; lia.
Qed.

(** The tick of a bucket: how often the task is posted, and what is left. *)
Lemma Tick_fired w t :
  cnt t (snd (Tick w)) =
    if alive (tasks w) t then occ (work_wheel_ w) t (current_work_wheel_index_ w) else 0%nat.
Proof.
  unfold Tick, occ. simpl. rewrite cnt_filter. case_match; [|done].
  by destruct (zget (work_wheel_ w) (current_work_wheel_index_ w)).
Qed.

Lemma Tick_absent w t :
  (forall j, j <> current_work_wheel_index_ w -> occ (work_wheel_ w) t j = 0%nat) ->
  (forall j, occ (assistant_wheel_ w) t j = 0%nat) -> absent (fst (Tick w)) t.
Proof.
  intros H1 H2. split; simpl; [|done]. intros j. rewrite occ_clear.
  destruct (Z.eqb_spec j (current_work_wheel_index_ w)); [done|by apply H1].
Qed.

Lemma Tick_pending w t r :
  pending w t r -> occ (work_wheel_ w) t (current_work_wheel_index_ w) = 0%nat ->
  pending (fst (Tick w)) t r.
Proof.
  intros Hp H0.
  assert (forall j, occ (work_wheel_ (fst (Tick w))) t j = occ (work_wheel_ w) t j) as Hs.
  { intros j. unfold Tick. simpl. rewrite occ_clear.
    destruct (Z.eqb_spec j (current_work_wheel_index_ w)) as [->|]; done. }
  destruct Hp as [Hl Hr [H1 H2]|o k Ho Hk Hrem -> [H1 H2]].
  - constructor 1; [done|done|]. split; [|done]. intros j. by rewrite Hs, H1.
  - eapply (pending_assistant _ _ _ o k); try done. split; [|done]. intros j. by rewrite Hs, H1.
Qed.

(** ** One tick of the wheel *)

Lemma pending_alive w t r : pending w t r -> alive (tasks w) t = true.
Proof. unfold alive. by intros [[? ->]|? ? ->]. Qed.

Lemma tick_step w t r :
  wf w -> pending w t r ->
  let '(w', fired) := Tick (advance w) in
  wf w' /\ cnt t fired = (if (r =? 1)%Z then 1 else 0)%nat /\
  if r =? 1 then absent w' t else pending w' t (r - 1).
Proof.
  intros Hwf Hp. pose proof (advance_pending w t r Hwf Hp) as Ha.
  pose proof (wf_Tick _ (wf_advance w Hwf)) as Hwf2.
  pose proof (Tick_fired (advance w) t) as Hf.
  rewrite (advance_tasks w Hwf), (pending_alive _ _ _ Hp) in Hf.
  destruct (Z.eqb_spec r 1) as [->|Hr].
  - pose proof (Tick_absent (advance w) t) as HA.
    destruct (Tick (advance w)) as [w' fired]. simpl in *. split; [done|].
    rewrite Hf. destruct Ha as [H1 H2]. split; [by rewrite H1, Z.eqb_refl|].
    apply HA; [|done]. intros j Hj. by apply (in_work_elsewhere _ _ (current_work_wheel_index_ (advance w))).
  - destruct Ha as [Ha H0]. pose proof (Tick_pending (advance w) t (r - 1) Ha H0) as HP.
    destruct (Tick (advance w)) as [w' fired]. simpl in *. split; [done|].
    split; [by rewrite Hf|done].
Qed.

Lemma tick_step_absent w t :
  wf w -> absent w t ->
  let '(w', fired) := Tick (advance w) in wf w' /\ cnt t fired = 0%nat /\ absent w' t.
Proof.
  intros Hwf [H1 H2]. destruct (advance_no_assistant w t Hwf H2) as (H3 & H4 & _).
  pose proof (wf_Tick _ (wf_advance w Hwf)) as Hwf2.
  pose proof (Tick_fired (advance w) t) as Hf. rewrite H3, H1 in Hf.
  pose proof (Tick_absent (advance w) t) as HA.
  destruct (Tick (advance w)) as [w' fired]. simpl in *. split; [done|].
  split; [rewrite Hf; by case_match|]. apply HA; [|done]. intros j _. by rewrite H3.
Qed.

(** ** The other timers do not disturb a task *)

(** The parts of the wheel that concern task [t]. *)
Definition same_for (t : nat) (w w' : TimingWheel) : Prop :=
  (forall j, occ (work_wheel_ w') t j = occ (work_wheel_ w) t j) /\
  (forall j, occ (assistant_wheel_ w') t j = occ (assistant_wheel_ w) t j) /\
  tasks w' !! t = tasks w !! t /\
  current_work_wheel_index_ w' = current_work_wheel_index_ w /\
  current_assistant_wheel_index_ w' = current_assistant_wheel_index_ w.

Lemma occ_bucket_add_ne wheel i t u j : u <> t -> occ (bucket_add wheel i t) u j = occ wheel u j.
Proof.
  intros H. rewrite occ_bucket_add. apply Nat.eqb_neq in H. rewrite H, andb_false_r. lia.
Qed.

Lemma AddTask_at_other w t u c : t <> u -> same_for t w (AddTask_at w u c).
Proof.
  intros Hne. unfold AddTask_at, Start, same_for.
  destruct (running_ w); simpl; (destruct (tasks w !! u) as [o|] eqn:E; [|done]);
    repeat case_match; simpl; repeat split; try done;
    try (intros j; by rewrite occ_bucket_add_ne); by rewrite lookup_insert_ne.
Qed.

Lemma same_for_absent t w w' : same_for t w w' -> absent w t -> absent w' t.
Proof. intros (H1 & H2 & _) [H3 H4]. split; intros j; [by rewrite H1|by rewrite H2]. Qed.

Lemma same_for_pending t w w' r : same_for t w w' -> pending w t r -> pending w' t r.
Proof.
  intros (H1 & H2 & H3 & H4 & H5) [Hl Hr [Hw Ha]|o k Ho Hk Hrem -> [Hw Ha]].
  - constructor 1; [by rewrite H3|done|]. rewrite H4. split; intros j; by rewrite ?H1, ?H2.
  - eapply (pending_assistant _ _ _ o k); [by rewrite H3|done|done|by rewrite H4|].
    rewrite H5. split; intros j; by rewrite ?H1, ?H2.
Qed.

Lemma set_tasks_other w t ts : ts !! t = tasks w !! t -> same_for t w (set_tasks w ts).
Proof. intros H. by repeat split. Qed.

(** [due k log t]: in the tick-by-tick log, [t] is posted exactly once, at tick
    number [k] (counted from one), if the log is that long. *)
Definition due (k : Z) (log : list (list nat)) (t : nat) : Prop :=
  forall n l, log !! n = Some l -> cnt t l = if (Z.of_nat n + 1 =? k)%Z then 1%nat else 0%nat.

Lemma due_cons k fired log t :
  cnt t fired = (if (k =? 1)%Z then 1%nat else 0%nat) -> due (k - 1) log t -> due k (fired :: log) t.
Proof.
  intros Hf Hd [|n] l Hl; simpl in Hl; simplify_eq.
  - rewrite Hf. change (Z.of_nat 0 + 1) with 1. by destruct (Z.eqb_spec k 1), (Z.eqb_spec 1 k); try lia.
  - rewrite (Hd n l Hl). by destruct (Z.eqb_spec (Z.of_nat n + 1) (k - 1)), (Z.eqb_spec (Z.of_nat (S n) + 1) k); try lia.
Qed.

(** An event of another timer leaves everything about [t] as it was. *)
Lemma other_event w t e :
  wf w -> about t e = false -> e <> EvTick ->
  exists w', wf w' /\ same_for t w w' /\ forall es, wheel_run w (e :: es) = wheel_run w' es.
Proof.
  intros Hwf Ha He. destruct e as [|u|u o|u]; [done|..]; simpl in Ha; apply bool_decide_eq_false in Ha.
  - exists (AddTask w u). split; [by apply wf_AddTask_at|]. split; [by apply AddTask_at_other|done].
  - eexists. split; [|split; [|intros es; reflexivity]]; [by destruct Hwf|].
    apply set_tasks_other. by rewrite lookup_insert_ne.
  - eexists. split; [|split; [|intros es; reflexivity]]; [by destruct Hwf|].
    apply set_tasks_other. by rewrite lookup_delete_ne.
Qed.

Lemma wheel_run_tick w es :
  wheel_run w (EvTick :: es) =
    let '(w1, fired) := Tick (advance w) in
    let '(w2, log) := wheel_run w1 es in (w2, fired :: log).
Proof. done. Qed.

Lemma run_absent es t : forall w k,
  wf w -> absent w t -> k <= 0 -> forallb (fun e => negb (about t e)) es = true ->
  due k (snd (wheel_run w es)) t.
Proof.
  induction es as [|e es IH]; intros w k Hwf Ha Hk Hes; [by intros n l Hl|].
  simpl in Hes. apply andb_true_iff in Hes as [He Hes]. apply negb_true_iff in He.
  destruct (decide (e = EvTick)) as [->|Hne].
  - rewrite wheel_run_tick. pose proof (tick_step_absent w t Hwf Ha) as Ht.
    destruct (Tick (advance w)) as [w1 fired]. destruct Ht as (Hwf1 & Hc & Ha1).
    specialize (IH w1 (k - 1) Hwf1 Ha1 ltac:(lia) Hes).
    destruct (wheel_run w1 es) as [w2 log]. simpl in *.
    apply due_cons; [|done]. rewrite Hc. by destruct (Z.eqb_spec k 1); try lia.
  - destruct (other_event w t e Hwf He Hne) as (w' & Hwf' & Hs & ->).
    apply IH; try done. by eapply same_for_absent.
Qed.

Lemma run_pending es t : forall w r,
  wf w -> pending w t r -> forallb (fun e => negb (about t e)) es = true ->
  due r (snd (wheel_run w es)) t.
Proof.
  induction es as [|e es IH]; intros w r Hwf Hp Hes; [by intros n l Hl|].
  simpl in Hes. apply andb_true_iff in Hes as [He Hes]. apply negb_true_iff in He.
  destruct (decide (e = EvTick)) as [->|Hne].
  - rewrite wheel_run_tick. pose proof (tick_step w t r Hwf Hp) as Ht.
    pose proof (fun w k => run_absent es t w k) as HA.
    destruct (Tick (advance w)) as [w1 fired]. destruct Ht as (Hwf1 & Hc & Ha1).
    specialize (HA w1 (r - 1) Hwf1). specialize (IH w1 (r - 1) Hwf1).
    destruct (wheel_run w1 es) as [w2 log]. simpl in *. apply due_cons; [done|].
    destruct (Z.eqb_spec r 1) as [->|]; [by apply HA|by apply IH].
  - destruct (other_event w t e Hwf He Hne) as (w' & Hwf' & Hs & ->).
    apply IH; try done. by eapply same_for_pending.
Qed.

(** ** Adding a task *)

(** The number of ticks after which a task added at work index [c] with
    duration [d] fires: [d], except that a duration of more than one turn of
    the work wheel that ends within the next turn loses a whole turn. *)
Definition effective_delay (c d : Z) : Z :=
  if (512 <? d) && (c + d <? 1024) then d - 512 else d.

Lemma occ_add_absent wheel t i :
  (forall j, occ wheel t j = 0%nat) -> 0 <= i < zlen wheel ->
  forall j, occ (bucket_add wheel i t) t j = if j =? i then 1%nat else 0%nat.
Proof.
  intros H Hi j. rewrite occ_bucket_add, H, Nat.eqb_refl.
  destruct (Z.leb_spec 0 i), (Z.ltb_spec i (zlen wheel)); try lia. by destruct (j =? i).
Qed.

Lemma Start_fields w :
  work_wheel_ (Start w) = work_wheel_ w /\ assistant_wheel_ (Start w) = assistant_wheel_ w /\
  tasks (Start w) = tasks w /\
  current_work_wheel_index_ (Start w) = current_work_wheel_index_ w /\
  current_assistant_wheel_index_ (Start w) = current_assistant_wheel_index_ w.
Proof. unfold Start. by destruct (running_ w). Qed.

Lemma AddTask_pending w t o :
  wf w -> absent w t -> tasks w !! t = Some o ->
  1 <= next_fire_duration_ms o < TIMER_MAX_INTERVAL_MS ->
  pending (AddTask w t) t (effective_delay (current_work_wheel_index_ w) (next_fire_duration_ms o)).
Proof.
  intros [] [Hw Ha] Ho Hd. unfold TIMER_MAX_INTERVAL_MS, WORK_WHEEL_SIZE, ASSISTANT_WHEEL_SIZE in *.
  set (c := current_work_wheel_index_ w) in *. set (d := next_fire_duration_ms o) in *.
  unfold AddTask, AddTask_at, effective_delay.
  destruct (Start_fields w) as (-> & -> & -> & -> & ->). rewrite Ho. fold d c.
  rewrite GetWorkWheelIndex_mod, GetAssistantWheelIndex_mod.
  rewrite (u64_small (c + d)) by (unfold is_u64; lia). unfold WORK_WHEEL_SIZE.
  pose proof (Z.div_mod (c + d) 512 ltac:(lia)) as Hdm.
  pose proof (Z.mod_pos_bound (c + d) 512 ltac:(lia)) as Hm.
  set (q := (c + d) / 512) in *. set (m := (c + d) mod 512) in *.
  destruct (Z.leb_spec 512 (c + d)) as [Hge|Hlt].
  - destruct ((q =? 1) && negb (m =? c)) eqn:B.
    + (* work wheel, next turn *)
      set (r := if (512 <? d) && (c + d <? 1024) then d - 512 else d).
      assert (1 <= r <= 512 /\ (c + r) mod 512 = m) as [Hr Hrm].
      { unfold r. zcases; try lia. split; [lia|]. rewrite Z.mod_small; lia. }
      constructor 1; simpl; [rewrite lookup_insert_eq; eauto|done|]. fold c. rewrite Hrm.
      split; simpl; [|done]. apply occ_add_absent; [done|lia].
    + (* assistant wheel *)
      replace ((512 <? d) && (c + d <? 1024)) with false by (zcases; lia).
      eapply (pending_assistant _ _ _ (set_remainder o m) q); simpl;
        [apply lookup_insert_eq|lia|lia|fold c; lia|]. split; simpl; [done|].
      rewrite u64_small by (unfold is_u64; lia).
      apply occ_add_absent; [done|]. rewrite wf_assistant0. apply Z.mod_pos_bound. lia.
  - replace ((512 <? d) && (c + d <? 1024)) with false by (zcases; lia).
    constructor 1; simpl; [rewrite Ho; eauto|lia|]. fold c.
    rewrite Z.mod_small by lia. split; simpl; [|done]. apply occ_add_absent; [done|lia].
Qed.

(** A task added to the wheel is posted exactly once, whatever the other
    timers do between the ticks: at tick number [effective_delay c d] after the addition
    and at no other, where c is the current work index and d the requested
    duration (1 <= d < TIMER_MAX_INTERVAL_MS).  The delay is d except when
    d > 512 and c + d < 1024: then the task goes straight into the work wheel
    and fires 512 ticks early. *)
Theorem task_of_whole_steps_fires_once w t o es :
  wf w -> absent w t -> tasks w !! t = Some o ->
  1 <= next_fire_duration_ms o < TIMER_MAX_INTERVAL_MS ->
  forallb (fun e => negb (about t e)) es = true ->
  due (effective_delay (current_work_wheel_index_ w) (next_fire_duration_ms o))
      (snd (wheel_run (AddTask w t) es)) t.
Proof.
  intros Hwf Ha Ho Hd Hes. apply run_pending; [by apply wf_AddTask_at| |done].
  by eapply AddTask_pending.
Qed.

(** The wheel as the singleton's constructor leaves it. *)
Definition wheel_init (ts : gmap nat TimerTask) : TimingWheel :=
  mkTimingWheel false (replicate 512 []) (replicate 64 []) 0 0 ts.

Lemma wf_wheel_init ts : wf (wheel_init ts).
Proof. constructor; vm_compute; try done; split; discriminate || done. Qed.

Lemma occ_replicate n t j : occ (replicate n []) t j = 0%nat.
Proof.
  unfold occ, zget. destruct (0 <=? j); [|done].
  destruct (_ !! _) as [l|] eqn:E; [|done].
  by apply lookup_replicate in E as [-> _].
Qed.

Lemma absent_wheel_init ts t : absent (wheel_init ts) t.
Proof.
  split; intros j; apply occ_replicate.
Qed.

(** A timer of 600 ms added at index 0 fires after 88 ticks. *)
Definition slow_task : TimerTask := mkTimerTask 7 600 0 600 0 0.

Lemma task_of_whole_steps_fires_once_witness :
  due 88 (snd (wheel_run (AddTask (wheel_init {[1%nat := slow_task]}) 1%nat)
                 (replicate 100 EvTick))) 1%nat.
Proof.
  refine (task_of_whole_steps_fires_once (wheel_init {[1%nat := slow_task]}) 1%nat slow_task (replicate 100 EvTick)
            _ _ _ _ _).
  - apply wf_wheel_init.
  - apply absent_wheel_init.
  - reflexivity.
  - vm_compute. split; [discriminate|reflexivity].
  - reflexivity.
Defined.

(** The wheel fires a timer of 600 ms, added while the work index is 0,
    after 88 ticks: 512 ticks before it is due. *)
Theorem early_fire_600 :
  let log := snd (wheel_run (AddTask (wheel_init {[1%nat := slow_task]}) 1%nat) (replicate 100 EvTick)) in
  log !! 87%nat = Some [1%nat].
Proof. vm_compute. reflexivity. Qed.
