(* ===== verification/TimingWheelConc.v ===== *)
(** TimingWheelConc.v -- the timing wheel and its threads

    - src/src/apollo/cyber/timer/timing_wheel.{h,cc}

    AddTask reads the indices of the wheels without a lock, the work index up to
    twice, while the tick thread moves them; only the buckets have locks.  Here every
    access is a step: of the threads that add tasks, and of the tick thread, which moves the
    work index, then the assistant index, empties an assistant bucket task by task,
    and posts a work bucket, whose lock it holds.  Accesses are sequentially consistent. *)

From S2P Require Import Prelude.
From S2P Require Import TimingWheel.
Local Open Scope Z_scope.

(** ** State *)

(** Where the tick thread is: not there; at the loop's test and Tick; asleep; at the
    write of the assistant index; inside Cascade, holding the lock of a bucket. *)
Inductive phase := POff | PTick | PSleep | PAssist | PCascade (bucket : Z).

(** Where a thread in AddTask is: the index is read; at the second read of it; at the
    read of the assistant index; at the lock of a work or an assistant bucket. *)
Inductive apc :=
| AIdle
| AGot (task : nat) (current_work_wheel_index : Z)
| ACheck (task : nat) (real_work_wheel_index : Z)
| AAssist (task : nat) (assistant_ticks : Z)
| AWork (task : nat) (bucket : Z)
| AAssistant (task : nat) (bucket : Z).

#[export] Instance phase_eq_dec : EqDecision phase.
Proof. solve_decision. Defined.

(** [posted]: what each Tick has posted, oldest first. *)
Record Threads := mkThreads { wheel : TimingWheel; ph : phase; adders : list apc; posted : list (list nat) }.

Definition set_wheel (s : Threads) (w : TimingWheel) : Threads := mkThreads w (ph s) (adders s) (posted s).
Definition set_phase (s : Threads) (p : phase) : Threads := mkThreads (wheel s) p (adders s) (posted s).
Definition set_adder (s : Threads) (i : nat) (p : apc) : Threads := mkThreads (wheel s) (ph s) (<[i := p]> (adders s)) (posted s).
Definition set_indices (w : TimingWheel) (c a : Z) : TimingWheel :=
  mkTimingWheel (running_ w) (work_wheel_ w) (assistant_wheel_ w) c a (tasks w).
Definition set_wheels (w : TimingWheel) (work assistant : list TimerBucket) : TimingWheel :=
  mkTimingWheel (running_ w) work assistant (current_work_wheel_index_ w) (current_assistant_wheel_index_ w) (tasks w).

(** ** Steps; [None] is a step that cannot be taken *)

(** Start, with the mutex that Shutdown holds until the thread has ended. *)
Definition Start_thread (s : Threads) : option Threads :=
  if running_ (wheel s) then Some s
  else match ph s with POff => Some (set_phase (set_wheel s (Start (wheel s))) PTick) | _ => None end.

Definition Shutdown_threads (s : Threads) : Threads := set_wheel s (Shutdown (wheel s)).

(** A step of AddTask; an idle thread calls it with [task]. *)
Definition add_step (s : Threads) (p : apc) (task : nat) : option (Threads * apc) :=
  let w := wheel s in
  match p with
  | AIdle => Some (s, AGot task (current_work_wheel_index_ w))
  | AGot t c =>
      s ← Start_thread s;
      let w := wheel s in
      match tasks w !! t with
      | None => Some (s, AIdle)
      | Some o =>
          let work_wheel_index := u64 (c + next_fire_duration_ms o) in
          if WORK_WHEEL_SIZE <=? work_wheel_index then
            let real_work_wheel_index := GetWorkWheelIndex work_wheel_index in
            let assistant_ticks := work_wheel_index / WORK_WHEEL_SIZE in
            Some (set_wheel s (set_tasks w (<[t := set_remainder o real_work_wheel_index]> (tasks w))),
                  if assistant_ticks =? 1 then ACheck t real_work_wheel_index else AAssist t assistant_ticks)
          else Some (s, AWork t work_wheel_index)
      end
  | ACheck t real => Some (s, if real =? current_work_wheel_index_ w then AAssist t 1 else AWork t real)
  | AAssist t ticks => Some (s, AAssistant t (GetAssistantWheelIndex (u64 (current_assistant_wheel_index_ w + ticks))))
  | AWork t i => Some (set_wheel s (set_wheels w (bucket_add (work_wheel_ w) i t) (assistant_wheel_ w)), AIdle)
  | AAssistant t i =>
      match ph s with
      | PCascade b => if b =? i then None else Some (set_wheel s (set_wheels w (work_wheel_ w) (bucket_add (assistant_wheel_ w) i t)), AIdle)
      | _ => Some (set_wheel s (set_wheels w (work_wheel_ w) (bucket_add (assistant_wheel_ w) i t)), AIdle)
      end
  end.

(** A step of the tick thread. *)
Definition tick_thread_step (s : Threads) : option Threads :=
  let w := wheel s in
  match ph s with
  | POff => None
  | PTick =>
      if running_ w then let '(w', fired) := Tick w in Some (mkThreads w' PSleep (adders s) (posted s ++ [fired]))
      else Some (set_phase s POff)
  | PSleep =>
      let c := GetWorkWheelIndex (u64 (current_work_wheel_index_ w + 1)) in
      Some (set_phase (set_wheel s (set_indices w c (current_assistant_wheel_index_ w))) (if c =? 0 then PAssist else PTick))
  | PAssist =>
      let a := GetAssistantWheelIndex (u64 (current_assistant_wheel_index_ w + 1)) in
      Some (set_phase (set_wheel s (set_indices w (current_work_wheel_index_ w) a)) (PCascade a))
  | PCascade a =>
      match zget (assistant_wheel_ w) a with
      | Some (u :: l) =>
          let work := match tasks w !! u with Some o => bucket_add (work_wheel_ w) (remainder_interval_ms o) u | None => work_wheel_ w end in
          Some (set_wheel s (set_wheels w work (zset (assistant_wheel_ w) a l)))
      | _ => Some (set_phase s PTick)
      end
  end.

(** What runs: the tick thread, a thread that adds, a timer that makes or drops its
    task, Shutdown. *)
Inductive label := Ticker | Adder (i task : nat) | Create (task : nat) (o : TimerTask) | Drop (task : nat) | Stop.

Definition cstep (l : label) (s : Threads) : option Threads :=
  match l with
  | Ticker => tick_thread_step s
  | Adder i task => p ← adders s !! i; '(s', p') ← add_step s p task; Some (set_adder s' i p')
  | Create t o => Some (set_wheel s (set_tasks (wheel s) (<[t := o]> (tasks (wheel s)))))
  | Drop t => Some (set_wheel s (set_tasks (wheel s) (delete t (tasks (wheel s)))))
  | Stop => Some (Shutdown_threads s)
  end.
Fixpoint csteps (ls : list label) (s : Threads) : option Threads :=
  match ls with [] => Some s | l :: ls => s' ← cstep l s; csteps ls s' end.

(** ** The other threads do not disturb a task *)

Definition holds (t : nat) (p : apc) : bool :=
  match p with
  | AIdle => false
  | AGot u _ | ACheck u _ | AAssist u _ | AWork u _ | AAssistant u _ => (u =? t)%nat
  end.
Definition concerns (t : nat) (l : label) : bool :=
  match l with Adder _ u | Create u _ | Drop u => (u =? t)%nat | _ => false end.

Lemma same_for_refl t w : same_for t w w.
Proof. by repeat split. Qed.
Lemma same_for_trans t w1 w2 w3 : same_for t w1 w2 -> same_for t w2 w3 -> same_for t w1 w3.
Proof. intros (A1 & A2 & A3 & A4 & A5) (B1 & B2 & B3 & B4 & B5). split_and!; try (intros j); congruence. Qed.

Lemma wf_set_tasks w ts : wf w -> wf (set_tasks w ts).
Proof. by intros []. Qed.
Lemma wf_set_wheels w work assistant : wf w -> zlen work = zlen (work_wheel_ w) -> zlen assistant = zlen (assistant_wheel_ w) ->
  wf (set_wheels w work assistant).
Proof. intros [] ? ?. constructor; simpl; congruence. Qed.
Lemma wf_Start w : wf w -> wf (Start w).
Proof. intros []. unfold Start. by destruct (running_ w). Qed.
Lemma same_for_Start t w : same_for t w (Start w).
Proof. unfold Start. by destruct (running_ w); repeat split. Qed.

(** What a step of another thread keeps. *)
Definition frame (t : nat) (s s' : Threads) : Prop :=
  same_for t (wheel s) (wheel s') /\ wf (wheel s') /\ (ph s' = ph s \/ ph s = POff /\ ph s' = PTick) /\ posted s' = posted s /\ adders s' = adders s.

Lemma Start_frame t s s' : wf (wheel s) -> Start_thread s = Some s' -> frame t s s'.
Proof.
  intros Hwf. unfold Start_thread. destruct (running_ (wheel s)) eqn:E; [intros [= <-]; split_and!; auto; apply same_for_refl|].
  destruct (ph s) eqn:Ep; [|done..]. intros [= <-]. split_and!; simpl; auto; [apply same_for_Start|by apply wf_Start].
Qed.

Lemma add_other t s p u s' p' : wf (wheel s) -> holds t p = false -> u <> t -> add_step s p u = Some (s', p') ->
  frame t s s' /\ holds t p' = false.
Proof.
  intros Hwf Hp Hu E. assert (frame t s s) as Hs by (split_and!; auto; apply same_for_refl).
  assert (forall i v, v <> t -> frame t s (set_wheel s (set_wheels (wheel s) (bucket_add (work_wheel_ (wheel s)) i v) (assistant_wheel_ (wheel s))))) as Hw.
  { intros i v Hv. split_and!; simpl; auto; [|apply wf_set_wheels; rewrite ?zlen_bucket_add; done].
    split_and!; simpl; auto. intros j. apply occ_bucket_add_ne. congruence. }
  assert (forall i v, v <> t -> frame t s (set_wheel s (set_wheels (wheel s) (work_wheel_ (wheel s)) (bucket_add (assistant_wheel_ (wheel s)) i v)))) as Ha.
  { intros i v Hv. split_and!; simpl; auto; [|apply wf_set_wheels; rewrite ?zlen_bucket_add; done].
    split_and!; simpl; auto. intros j. apply occ_bucket_add_ne. congruence. }
  destruct p as [|v c|v real|v ticks|v i|v i]; simpl in E, Hp; try apply Nat.eqb_neq in Hp.
  - simplify_eq/=. split; [done|]. by apply Nat.eqb_neq.
  - destruct (Start_thread s) as [s1|] eqn:Es; [|done]. simpl in E. pose proof (Start_frame t s s1 Hwf Es) as (F1 & F2 & F3 & F4 & F5).
    destruct (tasks (wheel s1) !! v) as [o|]; [|by simplify_eq/=]. destruct (WORK_WHEEL_SIZE <=? _); simplify_eq/=.
    + split; [|destruct (_ =? 1); simpl; by apply Nat.eqb_neq]. split_and!; simpl; auto; [|by apply wf_set_tasks].
      eapply same_for_trans; [exact F1|]. apply set_tasks_other. by rewrite lookup_insert_ne.
    + split; [done|]. by apply Nat.eqb_neq.
  - simplify_eq/=. split; [done|]. destruct (_ =? _); simpl; by apply Nat.eqb_neq.
  - simplify_eq/=. split; [done|]. by apply Nat.eqb_neq.
  - simplify_eq/=. auto.
  - destruct (ph s); simplify_eq/=; auto. destruct (_ =? _); simplify_eq/=. auto.
Qed.

(** A label of another thread or timer. *)
Lemma cstep_other t l s s' : wf (wheel s) -> Forall (fun p => holds t p = false) (adders s) -> concerns t l = false -> l <> Ticker ->
  cstep l s = Some s' ->
  same_for t (wheel s) (wheel s') /\ wf (wheel s') /\ (ph s' = ph s \/ ph s = POff /\ ph s' = PTick) /\ posted s' = posted s /\
  Forall (fun p => holds t p = false) (adders s').
Proof.
  intros Hwf Hno Hc Hl E. destruct l as [|i u|u o|u|]; [done|..]; simpl in E, Hc.
  - apply Nat.eqb_neq in Hc. destruct (adders s !! i) as [p|] eqn:Ei; [|done]. simpl in E.
    destruct (add_step s p u) as [[s1 p1]|] eqn:Ea; [|done]. simplify_eq/=. pose proof (Forall_lookup_1 _ _ _ _ Hno Ei) as Hp.
    destruct (add_other t s p u s1 p1 Hwf Hp Hc Ea) as [(F1 & F2 & F3 & F4 & F5) Hp1]. split_and!; auto. rewrite F5. by apply Forall_insert.
  - apply Nat.eqb_neq in Hc. simplify_eq/=. split_and!; auto; [|by apply wf_set_tasks]. apply set_tasks_other. by rewrite lookup_insert_ne.
  - apply Nat.eqb_neq in Hc. simplify_eq/=. split_and!; auto; [|by apply wf_set_tasks]. apply set_tasks_other. by rewrite lookup_delete_ne.
  - simplify_eq/=. unfold Shutdown. destruct (running_ (wheel s)); split_and!; auto; try (by repeat split). by destruct Hwf.
Qed.

(** ** The tick thread

    Between two sleeps the wheel is on the way from a wheel [w0] to [Tick (advance w0)],
    as far as the task [t] is concerned. *)
Definition moved (w0 w : TimingWheel) (t : nat) (a : Z) (j : Z) : nat :=
  match tasks w0 !! t with
  | Some o => if (j =? remainder_interval_ms o) && (0 <=? remainder_interval_ms o) && (remainder_interval_ms o <? 512)
              then (occ (assistant_wheel_ w0) t a - occ (assistant_wheel_ w) t a)%nat else 0%nat
  | None => 0%nat
  end.

Definition on_the_way (t : nat) (p : phase) (w0 w : TimingWheel) : Prop :=
  match p with
  | PSleep => same_for t w0 w
  | PAssist => current_work_wheel_index_ w0 = 511 /\ same_for t (set_indices w0 0 (current_assistant_wheel_index_ w0)) w
  | PCascade a => current_work_wheel_index_ w0 = 511 /\ a = (current_assistant_wheel_index_ w0 + 1) mod 64 /\
      current_work_wheel_index_ w = 0 /\ current_assistant_wheel_index_ w = a /\ tasks w !! t = tasks w0 !! t /\
      (forall j, j <> a -> occ (assistant_wheel_ w) t j = occ (assistant_wheel_ w0) t j) /\
      (occ (assistant_wheel_ w) t a <= occ (assistant_wheel_ w0) t a)%nat /\
      (forall j, occ (work_wheel_ w) t j = (occ (work_wheel_ w0) t j + moved w0 w t a j)%nat)
  | PTick | POff => same_for t (advance w0) w
  end.

(** A step of another thread stays on the way. *)
Lemma on_the_way_frame t s s' w0 : on_the_way t (ph s) w0 (wheel s) -> same_for t (wheel s) (wheel s') ->
  ph s' = ph s \/ ph s = POff /\ ph s' = PTick -> on_the_way t (ph s') w0 (wheel s').
Proof.
  intros Ho Hs Hp. assert (on_the_way t (ph s') w0 (wheel s)) as Ho'.
  { destruct Hp as [->|[E ->]]; [done|]. by rewrite E in Ho. }
  clear Ho Hp. destruct (ph s') as [| | | |a]; simpl in *; try (by eapply same_for_trans).
  - destruct Ho' as [? ?]. split; [done|]. by eapply same_for_trans.
  - destruct Ho' as (E & Ea & Hc & Ha & Ht & Hj & Hle & Hw). destruct Hs as (S1 & S2 & S3 & S4 & S5).
    split_and!; auto; try congruence.
    + intros j Hne. rewrite S2. auto.
    + intros j. rewrite S1, Hw. unfold moved. by rewrite S2.
Qed.

Lemma occ_bucket wheel t i l : zget wheel i = Some l -> occ wheel t i = cnt t l.
Proof. unfold occ. by intros ->. Qed.

(** The end of Cascade. *)
Lemma cascaded t a w0 w : wf w0 -> on_the_way t (PCascade a) w0 w -> occ (assistant_wheel_ w) t a = 0%nat -> same_for t (advance w0) w.
Proof.
  intros Hwf (E & Ea & Hc & Ha & Ht & Hj & Hle & Hw) H0. rewrite (advance_wrap w0 Hwf E), <-Ea. set (w1 := mkTimingWheel _ _ _ _ _ _).
  split_and!; simpl; auto.
  - intros j. rewrite Hw, occ_cascade_list. unfold moved. rewrite H0, Nat.sub_0_r. f_equal. destruct (tasks w0 !! t) as [o|]; [|done].
    rewrite (wf_work _ Hwf). unfold occ. destruct (_ && _); [|done]. by destruct (zget (assistant_wheel_ w0) a).
  - intros j. rewrite occ_clear. destruct (Z.eqb_spec j a) as [->|Hne]; [done|by apply Hj].
Qed.

(** A step of the tick thread that posts nothing. *)
Lemma ticker_moves t s s' w0 : wf w0 -> wf (wheel s) -> on_the_way t (ph s) w0 (wheel s) -> ph s <> PTick ->
  tick_thread_step s = Some s' -> on_the_way t (ph s') w0 (wheel s') /\ wf (wheel s') /\ posted s' = posted s /\ adders s' = adders s.
Proof.
  intros Hw0 Hw Ho Hp E. unfold tick_thread_step in E. destruct (ph s) as [| | | |a] eqn:Ep; simpl in Ho; [done|done|..].
  - pose proof Ho as (S1 & S2 & S3 & S4 & S5). pose proof (wf_c _ Hw) as Hc. unfold WORK_WHEEL_SIZE in Hc.
    rewrite GetWorkWheelIndex_mod, u64_small in E by (unfold is_u64; lia). pose proof (Z.mod_pos_bound (current_work_wheel_index_ (wheel s) + 1) 512 ltac:(lia)) as Hb.
    simplify_eq/=. split_and!; auto; [|by destruct Hw; constructor].
    destruct (Z.eqb_spec ((current_work_wheel_index_ (wheel s) + 1) mod 512) 0) as [E0|E0]; simpl.
    + assert (current_work_wheel_index_ w0 = 511) as E1.
      { rewrite S4 in *. pose proof (Z.div_mod (current_work_wheel_index_ w0 + 1) 512 ltac:(lia)). nia. }
      split; [done|]. split_and!; simpl; auto.
    + assert (current_work_wheel_index_ w0 < 511) as E1.
      { rewrite S4 in *. destruct (decide (current_work_wheel_index_ w0 = 511)) as [E1|]; [by rewrite E1 in E0|lia]. }
      rewrite (advance_nowrap w0 Hw0 E1). split_and!; simpl; auto. rewrite S4, Z.mod_small; [done|]. rewrite <-S4. lia.
  - destruct Ho as [E1 (S1 & S2 & S3 & S4 & S5)]. simpl in *. pose proof (wf_a _ Hw) as Ha. unfold ASSISTANT_WHEEL_SIZE in Ha.
    rewrite GetAssistantWheelIndex_mod, u64_small in E by (unfold is_u64; lia).
    pose proof (Z.mod_pos_bound (current_assistant_wheel_index_ (wheel s) + 1) 64 ltac:(lia)) as Hb.
    simplify_eq/=. split; [|split; [by destruct Hw; constructor|done]].
    split_and!; auto.
    + by rewrite S5.
    + by rewrite S2.
    + intros j. rewrite S1. unfold moved. simpl. rewrite S2, Nat.sub_diag. by destruct (tasks w0 !! t); [case_match|]; rewrite Nat.add_0_r.
  - pose proof Ho as (E1 & Ea & Hc & Ha & Ht & Hj & Hle & Hwk).
    assert (on_the_way t (PCascade a) w0 (wheel s)) as Ho' by done.
    destruct (zget (assistant_wheel_ (wheel s)) a) as [[|u l]|] eqn:Eb; injection E as <-; cbn [ph wheel posted adders set_phase set_wheel].
    + split_and!; auto. apply (cascaded t _ w0 (wheel s) Hw0 Ho'). by rewrite (occ_bucket _ _ _ _ Eb).
    + rewrite Ep. pose proof (occ_bucket _ t _ _ Eb) as Hcnt.
      assert (0 <= a < zlen (assistant_wheel_ (wheel s))) as Hin by (apply zget_Some; eauto).
      split; [|split; [|done]].
      2:{ apply wf_set_wheels; [done| |by rewrite zlen_zset]. destruct (tasks (wheel s) !! u); [by rewrite zlen_bucket_add|done]. }
      assert (occ (zset (assistant_wheel_ (wheel s)) a l) t a = cnt t l) as Hl.
      { apply occ_bucket. by apply zget_zset_eq. }
      assert (cnt t (u :: l) = ((if Nat.eqb t u then 1 else 0) + cnt t l)%nat) as Hcons by (unfold cnt; simpl; by destruct (Nat.eqb t u)).
      do 5 (split; [done|]). split; [|split].
      * intros j Hne. unfold occ. simpl. rewrite zget_zset_ne by done. by apply Hj.
      * simpl. rewrite Hl. lia.
      * intros j. unfold moved in *. simpl. rewrite Hl. specialize (Hwk j).
        destruct (Nat.eqb_spec t u) as [<-|Hne].
        -- rewrite Ht. destruct (tasks w0 !! t) as [o|] eqn:Eo; [|lia].
           rewrite occ_bucket_add, Nat.eqb_refl, andb_true_r, Hwk. rewrite (wf_work _ Hw). change WORK_WHEEL_SIZE with 512. destruct (_ && _); lia.
        -- replace (occ _ t j) with (occ (work_wheel_ (wheel s)) t j); [rewrite Hwk; destruct (tasks w0 !! t); [case_match|]; lia|].
           destruct (tasks (wheel s) !! u); [|done]. by rewrite occ_bucket_add_ne.
    + split_and!; auto. apply (cascaded t _ w0 (wheel s) Hw0 Ho'). unfold occ. by rewrite Eb.
Qed.

(** Tick posts what it posts in [w0]'s next tick, as far as the task is concerned. *)
Lemma ticker_posts t s s' w0 : wf w0 -> wf (wheel s) -> on_the_way t PTick w0 (wheel s) -> ph s = PTick -> running_ (wheel s) = true ->
  tick_thread_step s = Some s' ->
  let '(w1, fired) := Tick (advance w0) in
  ph s' = PSleep /\ same_for t w1 (wheel s') /\ wf (wheel s') /\ adders s' = adders s /\
  exists fired', posted s' = posted s ++ [fired'] /\ cnt t fired' = cnt t fired.
Proof.
  intros Hw0 Hw (S1 & S2 & S3 & S4 & S5) Ep Er E. unfold tick_thread_step in E. rewrite Ep, Er in E.
  pose proof (Tick_fired (wheel s) t) as F1. pose proof (Tick_fired (advance w0) t) as F2. pose proof (wf_Tick _ Hw) as Hwt.
  destruct (Tick (wheel s)) as [w' fired'] eqn:Et'. destruct (Tick (advance w0)) as [w1 fired] eqn:Et. simplify_eq/=. split_and!; auto.
  - unfold Tick in Et, Et'. simplify_eq/=. split_and!; simpl; auto. intros j. rewrite !occ_clear, S4, S1. done.
  - exists fired'. split; [done|]. rewrite F1, F2. unfold alive. by rewrite S1, S3, S4.
Qed.

(** ** A pending task is posted at its tick *)

Lemma run_due t ls : forall s s' w0 k, wf w0 -> wf (wheel s) -> on_the_way t (ph s) w0 (wheel s) ->
  pending w0 t k \/ absent w0 t /\ k <= 0 -> Forall (fun p => holds t p = false) (adders s) ->
  forallb (fun l => negb (concerns t l)) ls = true -> csteps ls s = Some s' ->
  exists new, posted s' = posted s ++ new /\ due k new t.
Proof.
  induction ls as [|l ls IH]; intros s s' w0 k Hw0 Hw Ho Hk Hno Hl E.
  { injection E as <-. exists []. rewrite app_nil_r. split; [done|]. by intros n x Hx. }
  simpl in Hl, E. apply andb_true_iff in Hl as [Hc%negb_true_iff Hl]. destruct (cstep l s) as [s1|] eqn:E1; [|done]. simpl in E.
  assert (l = Ticker \/ l <> Ticker) as [->|Hne] by (destruct l; auto).
  2:{ destruct (cstep_other t l s s1 Hw Hno Hc Hne E1) as (F1 & F2 & F3 & F4 & F5). rewrite <-F4. eapply (IH s1 s' w0); eauto. by eapply on_the_way_frame. }
  simpl in E1. destruct (decide (ph s = PTick)) as [Ep|Ep].
  2:{ destruct (ticker_moves t s s1 w0 Hw0 Hw Ho Ep E1) as (F1 & F2 & F3 & F4). rewrite <-F3. rewrite <-F4 in Hno. by eapply (IH s1 s' w0). }
  destruct (running_ (wheel s)) eqn:Er.
  2:{ unfold tick_thread_step in E1. rewrite Ep, Er in E1. injection E1 as <-. apply (IH (set_phase s POff) s' w0 k); auto. rewrite Ep in Ho. exact Ho. }
  rewrite Ep in Ho. pose proof (ticker_posts t s s1 w0 Hw0 Hw Ho Ep Er E1) as HT. pose proof (tick_step w0 t k Hw0) as HS. pose proof (tick_step_absent w0 t Hw0) as HA.
  destruct (Tick (advance w0)) as [w1 fired]. destruct HT as (Ep1 & Hs & Hw1 & Ead & fired' & Epo & Ec). rewrite <-Ead in Hno.
  assert (wf w1 /\ cnt t fired = (if (k =? 1)%Z then 1 else 0)%nat /\ (pending w1 t (k - 1) \/ absent w1 t /\ k - 1 <= 0)) as (H1 & H2 & H3).
  { destruct Hk as [Hp|[Hab Hk]].
    - destruct (HS Hp) as (G1 & G2 & G3). split_and!; auto. destruct (Z.eqb_spec k 1); [right; split; [done|lia]|by left].
    - destruct (HA Hab) as (G1 & G2 & G3). split_and!; auto; [|right; split; [done|lia]]. rewrite G2. by destruct (Z.eqb_spec k 1); [lia|]. }
  destruct (IH s1 s' w1 (k - 1)) as (new & En & Hd); auto; [by rewrite Ep1|].
  exists (fired' :: new). rewrite En, Epo, <-app_assoc. split; [done|]. apply due_cons; [|done]. by rewrite Ec, H2.
Qed.

(** ** AddTask while the tick thread is asleep *)

Definition put_work (w : TimingWheel) (t : nat) (i : Z) : TimingWheel := set_wheels w (bucket_add (work_wheel_ w) i t) (assistant_wheel_ w).
Definition put_assistant (w : TimingWheel) (t : nat) (i : Z) : TimingWheel := set_wheels w (work_wheel_ w) (bucket_add (assistant_wheel_ w) i t).
(** The wheel when a thread in AddTask goes through the rest of it at once. *)
Definition finish (p : apc) (w : TimingWheel) : TimingWheel :=
  match p with
  | AIdle => w
  | AGot t c => AddTask_at w t c
  | ACheck t real =>
      if real =? current_work_wheel_index_ w then put_assistant w t (GetAssistantWheelIndex (u64 (current_assistant_wheel_index_ w + 1)))
      else put_work w t real
  | AAssist t ticks => put_assistant w t (GetAssistantWheelIndex (u64 (current_assistant_wheel_index_ w + ticks)))
  | AWork t i => put_work w t i
  | AAssistant t i => put_assistant w t i
  end.

Lemma Start_thread_wheel s s' : Start_thread s = Some s' -> wheel s' = Start (wheel s).
Proof.
  unfold Start_thread, Start. destruct (running_ (wheel s)) eqn:E; [by intros [= <-]|]. destruct (ph s); [|done..]. intros [= <-]. simpl. unfold Start. by rewrite ?E.
Qed.
Lemma Start_Start w : Start (Start w) = Start w.
Proof. unfold Start. destruct (running_ w) eqn:E; simpl; by rewrite ?E. Qed.

(** A step of its own does not change where it leads. *)
Lemma add_own t s p u s' p' : wf (wheel s) -> ph s = PSleep -> holds t p = true -> add_step s p u = Some (s', p') ->
  finish p' (wheel s') = finish p (wheel s) /\ wf (wheel s') /\ ph s' = PSleep /\ posted s' = posted s /\ adders s' = adders s /\
  (holds t p' = true \/ p' = AIdle).
Proof.
  intros Hwf Hph Hp E. destruct p as [|v c|v real|v ticks|v i|v i]; simpl in E, Hp; [done|..]; apply Nat.eqb_eq in Hp as ->.
  - destruct (Start_thread s) as [s1|] eqn:Es; [|done]. simpl in E. destruct (Start_frame t s s1 Hwf Es) as (_ & F2 & F3 & F4 & F5).
    assert (ph s1 = PSleep) as F6 by (destruct F3 as [->|[? _]]; congruence).
    unfold finish, AddTask_at. rewrite <-(Start_thread_wheel _ _ Es).
    destruct (tasks (wheel s1) !! t) as [o|] eqn:Eo; [|by injection E as <- <-; split_and!; auto].
    destruct (WORK_WHEEL_SIZE <=? _); injection E as <- <-; split_and!; simpl; auto.
    + unfold put_assistant, put_work, set_wheels. simpl. destruct (u64 (c + next_fire_duration_ms o) / WORK_WHEEL_SIZE =? 1) eqn:E1; simpl; [|done].
      apply Z.eqb_eq in E1. rewrite E1. by destruct (GetWorkWheelIndex _ =? _).
    + by apply wf_set_tasks.
    + left. destruct (_ =? 1); apply Nat.eqb_refl.
    + left. apply Nat.eqb_refl.
  - injection E as <- <-. split_and!; auto; [by simpl; destruct (real =? _)|]. left. destruct (real =? _); apply Nat.eqb_refl.
  - injection E as <- <-. split_and!; auto. left. apply Nat.eqb_refl.
  - injection E as <- <-. split_and!; simpl; auto. apply wf_set_wheels; rewrite ?zlen_bucket_add; done.
  - rewrite Hph in E. injection E as <- <-. split_and!; simpl; auto. apply wf_set_wheels; rewrite ?zlen_bucket_add; done.
Qed.

(** What others do does not change where it leads, for its own task. *)
Lemma occ_bucket_add_same w w' i t j : zlen w' = zlen w -> (forall j, occ w' t j = occ w t j) -> occ (bucket_add w' i t) t j = occ (bucket_add w i t) t j.
Proof. intros Hl H. by rewrite !occ_bucket_add, Hl, H. Qed.

Lemma same_for_put t w w' i : wf w -> wf w' -> same_for t w w' -> same_for t (put_work w t i) (put_work w' t i) /\ same_for t (put_assistant w t i) (put_assistant w' t i).
Proof.
  intros [] [] (S1 & S2 & S3 & S4 & S5). split; split_and!; simpl; auto; intros j; apply occ_bucket_add_same; auto; congruence.
Qed.

Lemma same_for_set_remainder t w w' o : same_for t w w' -> same_for t (set_tasks w (<[t := o]> (tasks w))) (set_tasks w' (<[t := o]> (tasks w'))).
Proof. intros (S1 & S2 & S3 & S4 & S5). split_and!; simpl; auto. by rewrite !lookup_insert_eq. Qed.

Lemma AddTask_at_parts w t c : AddTask_at w t c =
  match tasks (Start w) !! t with
  | None => Start w
  | Some o =>
      let idx := u64 (c + next_fire_duration_ms o) in let real := GetWorkWheelIndex idx in let ticks := idx / WORK_WHEEL_SIZE in
      let w1 := set_tasks (Start w) (<[t := set_remainder o real]> (tasks (Start w))) in
      if WORK_WHEEL_SIZE <=? idx then
        if (ticks =? 1) && negb (real =? current_work_wheel_index_ w) then put_work w1 t real
        else put_assistant w1 t (GetAssistantWheelIndex (u64 (current_assistant_wheel_index_ w + ticks)))
      else put_work (Start w) t idx
  end.
Proof.
  unfold AddTask_at, put_work, put_assistant, set_wheels, set_tasks. destruct (Start_fields w) as (_ & _ & _ & E4 & E5). cbv zeta.
  destruct (tasks (Start w) !! t) as [o|]; [|done]. destruct (WORK_WHEEL_SIZE <=? _); [|done]. rewrite !E4, !E5. simpl. by destruct (_ && _).
Qed.

Lemma same_for_finish t p w w' : wf w -> wf w' -> holds t p = true -> same_for t w w' -> same_for t (finish p w) (finish p w').
Proof.
  intros Hw Hw' Hp Hs. pose proof Hs as (S1 & S2 & S3 & S4 & S5). pose proof (fun i => same_for_put t w w' i Hw Hw' Hs) as HP.
  destruct p as [|v c|v real|v ticks|v i|v i]; simpl in Hp; [done|..]; apply Nat.eqb_eq in Hp as ->; cbn [finish]; rewrite ?S4, ?S5.
  - pose proof (wf_Start _ Hw) as H1. pose proof (wf_Start _ Hw') as H2.
    assert (same_for t (Start w) (Start w')) as Hst by (unfold Start; by destruct (running_ w), (running_ w'); repeat split).
    pose proof Hst as (_ & _ & T3 & _). rewrite !AddTask_at_parts, S4, S5, T3. destruct (tasks (Start w) !! t) as [o|]; [|done]. cbv zeta.
    destruct (WORK_WHEEL_SIZE <=? _); [|by apply same_for_put].
    destruct (_ && _); apply same_for_put; auto using wf_set_tasks, same_for_set_remainder.
  - destruct (real =? _); apply HP.
  - apply HP.
  - apply HP.
  - apply HP.
Qed.

(** From here on thread [i] is in AddTask for [t], until it returns at the end of the
    list; the tick thread does not run, and no other step concerns [t]. *)
Fixpoint calling (i t : nat) (ls : list label) (s : Threads) : bool :=
  match adders s !! i with
  | None => false
  | Some p =>
      match ls with
      | [] => match p with AIdle => true | _ => false end
      | l :: ls =>
          match p with AIdle => false | _ => true end
          && match l with Ticker => false | Adder j u => (j =? i)%nat || negb (u =? t)%nat | _ => negb (concerns t l) end
          && match cstep l s with Some s' => calling i t ls s' | None => false end
      end
  end.

(** No other thread has the task. *)
Definition alone (i t : nat) (s : Threads) : Prop := forall j p, j <> i -> adders s !! j = Some p -> holds t p = false.

Lemma call_finishes i t ls : forall s s' p w1, wf (wheel s) -> ph s = PSleep -> alone i t s -> adders s !! i = Some p -> holds t p = true \/ p = AIdle ->
  same_for t w1 (finish p (wheel s)) -> calling i t ls s = true -> csteps ls s = Some s' ->
  same_for t w1 (wheel s') /\ wf (wheel s') /\ ph s' = PSleep /\ posted s' = posted s /\ Forall (fun p => holds t p = false) (adders s').
Proof.
  induction ls as [|l ls IH]; intros s s' p w1 Hw Hph Hal Hi Hp Hs Hc E; cbn [calling] in Hc; rewrite Hi in Hc.
  - simpl in E. injection E as <-. destruct p; try done. split_and!; auto. apply Forall_lookup_2. intros j q Hj.
    destruct (decide (j = i)) as [->|]; [by simplify_eq|by eapply Hal].
  - apply andb_true_iff in Hc as [[Hn Hl]%andb_true_iff Hc]. simpl in E. destruct (cstep l s) as [s1|] eqn:E1; [|done]. simpl in E.
    assert (holds t p = true) as Hpt by (destruct Hp as [?| ->]; done). clear Hn.
    assert (forall w', wf w' -> same_for t (wheel s) w' -> calling i t ls (set_wheel s w') = true -> csteps ls (set_wheel s w') = Some s' ->
      same_for t w1 (wheel s') /\ wf (wheel s') /\ ph s' = PSleep /\ posted s' = posted s /\ Forall (fun p => holds t p = false) (adders s')) as Hset.
    { intros w' Hw' Hsw. apply (IH (set_wheel s w') s' p w1); auto. eapply same_for_trans; [exact Hs|]. by apply same_for_finish. }
    destruct l as [|j u|u o|u|]; [done|..]; simpl in E1.
    + destruct (adders s !! j) as [q|] eqn:Ej; [|done]. simpl in E1. destruct (add_step s q u) as [[s2 q']|] eqn:Ea; [|done]. injection E1 as <-.
      destruct (decide (j = i)) as [->|Hji].
      * simplify_eq. destruct (add_own t s p u s2 q' Hw Hph Hpt Ea) as (F1 & F2 & F3 & F4 & F5 & F6). rewrite <-F4.
        apply (IH (set_adder s2 i q') s' q'); auto; simpl.
        -- intros j r Hj Hr. simpl in Hr. rewrite F5, list_lookup_insert_ne in Hr by done. by eapply Hal.
        -- rewrite F5. apply list_lookup_insert_eq. by eapply lookup_lt_Some.
        -- by rewrite F1.
      * apply orb_true_iff in Hl as [Hl%Nat.eqb_eq|Hl%negb_true_iff%Nat.eqb_neq]; [done|].
        destruct (add_other t s q u s2 q' Hw) as [(F1 & F2 & F3 & F4 & F5) Hq']; auto; [by eapply Hal|]. rewrite <-F4.
        assert (ph s2 = PSleep) as F6 by (destruct F3 as [->|[? _]]; congruence).
        apply (IH (set_adder s2 j q') s' p); auto; simpl.
        -- intros k r Hk Hr. simpl in Hr. rewrite F5 in Hr. apply list_lookup_insert_Some in Hr as [(_ & <- & _)|[_ Hr]]; [done|by eapply Hal].
        -- by rewrite F5, list_lookup_insert_ne.
        -- eapply same_for_trans; [exact Hs|]. by apply same_for_finish.
    + apply negb_true_iff, Nat.eqb_neq in Hl. injection E1 as <-. eapply Hset; [by apply wf_set_tasks| |exact Hc|exact E]. apply set_tasks_other. by rewrite lookup_insert_ne.
    + apply negb_true_iff, Nat.eqb_neq in Hl. injection E1 as <-. eapply Hset; [by apply wf_set_tasks| |exact Hc|exact E]. apply set_tasks_other. by rewrite lookup_delete_ne.
    + injection E1 as <-. eapply Hset; [..|exact Hc|exact E]; unfold Shutdown; destruct (running_ (wheel s)); try done; by destruct Hw.
Qed.

(** C21. A task is posted exactly once and at a known tick.  Thread [i] calls AddTask for
    the task while the tick thread is asleep, and the tick thread does not wake up before the call
    returns; other threads may be in AddTask for other tasks, at any of its accesses, before, during
    and after the call, other timers make and drop their tasks, and afterwards the tick
    thread's accesses interleave with all of theirs in any way.  Then the task is posted at
    tick number [effective_delay c d] after the call and at no other, where c is the work index
    at the call and d the requested duration (1 <= d < TIMER_MAX_INTERVAL_MS): d, except
    when d > 512 and c + d < 1024, where the task goes straight into the work wheel and
    fires 512 ticks early. *)
Theorem task_fires_once i t o s s0 ls s1 ls' s2 :
  wf (wheel s) -> ph s = PSleep -> absent (wheel s) t -> tasks (wheel s) !! t = Some o ->
  Forall (fun p => holds t p = false) (adders s) ->
  1 <= next_fire_duration_ms o < TIMER_MAX_INTERVAL_MS ->
  adders s !! i = Some AIdle -> cstep (Adder i t) s = Some s0 -> calling i t ls s0 = true -> csteps ls s0 = Some s1 ->
  forallb (fun l => negb (concerns t l)) ls' = true -> csteps ls' s1 = Some s2 ->
  exists new, posted s2 = posted s ++ new /\ due (effective_delay (current_work_wheel_index_ (wheel s)) (next_fire_duration_ms o)) new t.
Proof.
  intros Hw Hph Hab Ho Hno Hd Hi E0 Hc E1 Hl E2. simpl in E0. rewrite Hi in E0. simpl in E0. injection E0 as <-.
  set (p := AGot t (current_work_wheel_index_ (wheel s))) in *.
  destruct (call_finishes i t ls (set_adder s i p) s1 p (AddTask (wheel s) t)) as (F1 & F2 & F3 & F4 & F5); auto.
  - intros j q Hj Hq. simpl in Hq. rewrite list_lookup_insert_ne in Hq by done. by eapply (Forall_lookup_1 _ _ _ _ Hno Hq).
  - simpl. apply list_lookup_insert_eq. by eapply lookup_lt_Some.
  - left. apply Nat.eqb_refl.
  - apply same_for_refl.
  - simpl in F4. rewrite <-F4. eapply (run_due t ls' s1 s2 (AddTask (wheel s) t)); eauto.
    + by apply wf_AddTask_at.
    + by rewrite F3.
    + left. by apply AddTask_pending.
Qed.

(** ** Examples *)

(** A wheel whose thread is asleep and [n] threads that may add. *)
Definition asleep (ts : gmap nat TimerTask) (n : nat) : Threads := mkThreads (Start (wheel_init ts)) PSleep (replicate n AIdle) [].
Definition quick_task : TimerTask := mkTimerTask 8 1 0 1 0 0.
Definition both_tasks : gmap nat TimerTask := <[1%nat := slow_task]> {[2%nat := quick_task]}.

(** Thread 0 adds the task of 600 ms, while thread 1 is between reading the index for another
    task and putting it away, which it does two ticks later. *)
Definition first_read : Threads := default (asleep ∅ 0) (cstep (Adder 1 2) (asleep both_tasks 2)).
Definition call_begun : Threads := default first_read (cstep (Adder 0 1) first_read).
Definition rest_of_call : list label := replicate 3 (Adder 0 1).
Definition call_ended : Threads := default first_read (csteps rest_of_call call_begun).
Definition afterwards : list label := replicate 4 Ticker ++ [Adder 1 2; Adder 1 2] ++ replicate 200 Ticker.
Definition at_the_end : Threads := default first_read (csteps afterwards call_ended).

Lemma task_fires_once_witness : zlen (posted at_the_end) = 102 /\
  exists new, posted at_the_end = posted first_read ++ new /\ due 88 new 1%nat.
Proof.
  split; [vm_compute; reflexivity|].
  apply (task_fires_once 0 1 slow_task first_read call_begun rest_of_call call_ended afterwards at_the_end).
  - apply wf_Start, wf_wheel_init.
  - reflexivity.
  - apply (absent_wheel_init both_tasks).
  - reflexivity.
  - repeat constructor.
  - vm_compute. split; [discriminate|reflexivity].
  - reflexivity.
  - vm_compute. reflexivity.
  - vm_compute. reflexivity.
  - vm_compute. reflexivity.
  - vm_compute. reflexivity.
  - vm_compute. reflexivity.
Defined.

(** A task of 1 ms whose AddTask reads the index before the tick thread moves it, and puts the
    task into its bucket after the bucket was posted: the task is posted a whole turn
    of the wheel late, after 512 further ticks. *)
Theorem late_by_a_turn : exists s1 s2,
  csteps [Adder 0 2; Adder 0 2; Ticker; Ticker; Adder 0 2] (asleep both_tasks 1) = Some s1 /\ adders s1 = [AIdle] /\ posted s1 = [[]] /\
  csteps (replicate 1026 Ticker) s1 = Some s2 /\
  posted s2 !! 511%nat = Some [] /\ posted s2 !! 512%nat = Some [2%nat].
Proof.
  eexists _, _. split; [vm_compute; reflexivity|]. split; [vm_compute; reflexivity|]. split; [vm_compute; reflexivity|].
  split; [vm_compute; reflexivity|]. by vm_compute.
Qed.
