(* ===== verification/Timer.v ===== *)
(** Timer.v -- src/src/apollo/cyber/timer/timer.cc

    The life cycle of a timer over the timing wheel, and the callback that
    re-arms a periodic timer.  The conversion of a nanosecond count to
    milliseconds, std::llround(static_cast<double>(ns) / 1000000), is a
    parameter of the model; what the code relies on is stated as a hypothesis
    (the result is within half a millisecond). *)

From S2P Require Import Prelude.
From S2P Require Import TimingWheel.
Local Open Scope Z_scope.

Record TimerOption := mkTimerOption { period : Z; oneshot : bool }.

Record Timer := mkTimer {
  timer_id : Z;
  timer_opt_ : TimerOption;
  started_ : bool;
  task_ : option nat
}.

(** The wheel, the id counter of GenerateTimerId, the next heap address and
    GlobalData's IsRealityMode(). *)
Record World := mkWorld {
  wheel : TimingWheel;
  global_timer_id : Z;
  next_ptr : nat;
  reality_mode : bool
}.

Definition NewTimer (w : World) (opt : TimerOption) : Timer * World :=
  (mkTimer (global_timer_id w) opt false None,
   mkWorld (wheel w) (u64 (global_timer_id w + 1)) (next_ptr w) (reality_mode w)).

Definition with_wheel (w : World) (tw : TimingWheel) : World :=
  mkWorld tw (global_timer_id w) (next_ptr w) (reality_mode w).

(** task_.reset(): the object dies with its only owner. *)
Definition drop_task (t : Timer) (w : World) : World :=
  match task_ t with
  | Some p => with_wheel w (set_tasks (wheel w) (delete p (tasks (wheel w))))
  | None => w
  end.

Definition InitTimerTask (t : Timer) (w : World) : bool * Timer * World :=
  if period (timer_opt_ t) =? 0 then (false, t, w)
  else if TIMER_MAX_INTERVAL_MS <=? period (timer_opt_ t) then (false, t, w)
  else
    let w1 := drop_task t w in
    let p := next_ptr w1 in
    let o := mkTimerTask (timer_id t) (period (timer_opt_ t)) 0 (period (timer_opt_ t)) 0 0 in
    (true, mkTimer (timer_id t) (timer_opt_ t) (started_ t) (Some p),
     mkWorld (set_tasks (wheel w1) (<[p := o]> (tasks (wheel w1)))) (global_timer_id w1)
       (S p) (reality_mode w1)).

Definition Start (t : Timer) (w : World) : Timer * World :=
  if negb (reality_mode w) then (t, w)
  else if started_ t then (t, w)
  else
    let t1 := mkTimer (timer_id t) (timer_opt_ t) true (task_ t) in
    match InitTimerTask t1 w with
    | (true, t2, w2) =>
        (t2, match task_ t2 with
             | Some p => with_wheel w2 (AddTask (wheel w2) p)
             | None => w2
             end)
    | (false, t2, w2) => (t2, w2)
    end.

Definition Stop (t : Timer) (w : World) : Timer * World :=
  if started_ t then
    (mkTimer (timer_id t) (timer_opt_ t) false None, drop_task t w)
  else (t, w).

Section periodic.
Variable llround_ms : Z -> Z.

(** The lambda of a periodic timer, on the task it locked, with the two readings
    of the monotonic clock around the user callback. *)
Definition rearm (o : TimerTask) (start end_ : Z) : TimerTask :=
  let execute_time_ns := u64 (end_ - start) in
  let execute_time_ms := u64 (llround_ms execute_time_ns) in
  let err :=
    if last_execute_time_ns_ o =? 0 then accumulated_error_ns_ o
    else i64 (accumulated_error_ns_ o + u64 (start - last_execute_time_ns_ o - interval_ms o * 1000000)) in
  let next :=
    if interval_ms o <=? execute_time_ms then 1
    else
      let accumulated_error_ms := llround_ms err in
      if accumulated_error_ms <=? i64 (u64 (interval_ms o - execute_time_ms - 1)) then
        u64 (interval_ms o - execute_time_ms - accumulated_error_ms)
      else 1 in
  mkTimerTask (timer_id_ o) (interval_ms o) (remainder_interval_ms o) next err start.

(** The whole callback: it does nothing when the task is gone, otherwise it
    updates the task and adds it to the wheel again. *)
Definition periodic_callback (tw : TimingWheel) (p : nat) (start end_ : Z) : TimingWheel :=
  match tasks tw !! p with
  | None => tw
  | Some o => AddTask (set_tasks tw (<[p := rearm o start end_]> (tasks tw))) p
  end.

Hypothesis llround_near : forall ns, - 2 ^ 63 <= ns < 2 ^ 63 ->
  - 500000 <= llround_ms ns * 1000000 - ns <= 500000.

(** The next duration as a function of the execution time and the accumulated
    error, in unbounded integers. *)
Definition next_duration (interval exec err : Z) : Z :=
  if interval <=? exec then 1 else Z.max 1 (interval - exec - err).

Lemma rearm_next o start end_ :
  0 < interval_ms o < TIMER_MAX_INTERVAL_MS -> 0 <= start <= end_ -> end_ < 2 ^ 63 ->
  is_i64 (accumulated_error_ns_ (rearm o start end_)) ->
  next_fire_duration_ms (rearm o start end_) =
    next_duration (interval_ms o) (llround_ms (end_ - start))
      (llround_ms (accumulated_error_ns_ (rearm o start end_))).
Proof.
  intros Hi Hs He Herr. unfold TIMER_MAX_INTERVAL_MS, WORK_WHEEL_SIZE, ASSISTANT_WHEEL_SIZE in *.
  set (e := accumulated_error_ns_ (rearm o start end_)) in *.
  pose proof (llround_near e Herr) as H1. pose proof (llround_near (end_ - start) ltac:(lia)) as H2.
  unfold is_i64 in Herr.
  assert (next_fire_duration_ms (rearm o start end_) =
    if interval_ms o <=? u64 (llround_ms (u64 (end_ - start))) then 1
    else if llround_ms e <=? i64 (u64 (interval_ms o - u64 (llround_ms (u64 (end_ - start))) - 1))
    then u64 (interval_ms o - u64 (llround_ms (u64 (end_ - start))) - llround_ms e) else 1) as -> by done.
  wrap64. unfold next_duration. destruct (Z.leb_spec (interval_ms o) (llround_ms (end_ - start))); [done|].
  rewrite (u64_small (interval_ms o - llround_ms (end_ - start) - 1)) by (unfold is_u64; lia).
  rewrite i64_small by (unfold is_i64; lia).
  destruct (Z.leb_spec (llround_ms e) (interval_ms o - llround_ms (end_ - start) - 1)).
  - rewrite u64_small by (unfold is_u64; lia). lia.
  - lia.
Qed.

(** A periodic timer always re-arms itself with a duration of at least one
    millisecond, and with at most its interval when it has not been running
    early; so the task is accepted by the wheel again. *)
Theorem rearm_in_range o start end_ :
  0 < interval_ms o < TIMER_MAX_INTERVAL_MS -> 0 <= start <= end_ -> end_ < 2 ^ 63 ->
  0 <= accumulated_error_ns_ (rearm o start end_) < 2 ^ 63 ->
  1 <= next_fire_duration_ms (rearm o start end_) <= interval_ms o.
Proof.
  intros Hi Hs He Herr. rewrite rearm_next by (done || unfold is_i64; lia).
  pose proof (llround_near (end_ - start) ltac:(lia)).
  pose proof (llround_near (accumulated_error_ns_ (rearm o start end_)) ltac:(lia)).
  unfold next_duration. zcases; lia.
Qed.
End periodic.

(** ** A stopped timer *)

Lemma dead_not_fired w t : tasks w !! t = None -> cnt t (snd (Tick w)) = 0%nat.
Proof. intros H. rewrite Tick_fired. unfold alive. by rewrite H. Qed.

Lemma tasks_AddTask_dead w t u : tasks w !! t = None -> tasks (AddTask w u) !! t = None.
Proof.
  intros H. unfold AddTask, AddTask_at.
  destruct (Start_fields w) as (-> & -> & -> & -> & ->).
  destruct (tasks w !! u) as [o|] eqn:E; [|by destruct (Start_fields w) as (_ & _ & -> & _)].
  assert (u <> t) by congruence.
  repeat case_match; simpl; rewrite ?lookup_insert_ne; done.
Qed.

Definition creates (t : nat) (e : wheel_event) : bool :=
  match e with EvCreate u _ => bool_decide (t = u) | _ => false end.

Lemma dead_run es t : forall w,
  tasks w !! t = None -> forallb (fun e => negb (creates t e)) es = true ->
  Forall (fun l => cnt t l = 0%nat) (snd (wheel_run w es)).
Proof.
  induction es as [|e es IH]; intros w H Hes; [constructor|].
  simpl in Hes. apply andb_true_iff in Hes as [He Hes].
  destruct e as [|u|u o|u].
  - rewrite wheel_run_tick. assert (tasks (advance w) !! t = None) as Ha.
    { unfold advance. by case_match. }
    pose proof (dead_not_fired (advance w) t Ha) as Hd.
    assert (tasks (fst (Tick (advance w))) !! t = None) as Ht by done.
    destruct (Tick (advance w)) as [w1 fired]. specialize (IH w1 Ht Hes).
    destruct (wheel_run w1 es) as [w2 log]. by constructor.
  - apply IH; [by apply tasks_AddTask_dead|done].
  - apply IH; [|done]. simpl in *. apply negb_true_iff, bool_decide_eq_false in He.
    by rewrite lookup_insert_ne.
  - apply IH; [|done]. simpl. rewrite lookup_delete. by case_decide.
Qed.

(** Once a timer is stopped its task is never posted again: no tick of the
    wheel after Stop fires it, whatever the other timers do, although the wheel
    still holds pointers to it. *)
Theorem stopped_never_fires t w p es :
  started_ t = true -> task_ t = Some p ->
  forallb (fun e => negb (creates p e)) es = true ->
  let '(t', w') := Stop t w in
  task_ t' = None /\ Forall (fun l => cnt p l = 0%nat) (snd (wheel_run (wheel w') es)).
Proof.
  intros Hst Hp Hes. unfold Stop, drop_task. rewrite Hst, Hp. split; [done|].
  apply dead_run; [|done]. simpl. apply lookup_delete_eq.
Qed.

(** Start arms a valid timer once: it creates a task whose first duration
    is the period and adds it to the wheel; with period 0 or a period of
    TIMER_MAX_INTERVAL_MS or more nothing is added; a second Start changes
    nothing. *)
Theorem Start_spec t w :
  reality_mode w = true -> started_ t = false -> is_u32 (period (timer_opt_ t)) ->
  let '(t', w') := Start t w in
  started_ t' = true /\ Start t' w' = (t', w') /\
  if (1 <=? period (timer_opt_ t)) && (period (timer_opt_ t) <? TIMER_MAX_INTERVAL_MS)
  then task_ t' = Some (next_ptr w) /\
       wheel w' = AddTask (set_tasks (wheel (drop_task t w))
         (<[next_ptr w := mkTimerTask (timer_id t) (period (timer_opt_ t)) 0 (period (timer_opt_ t)) 0 0]>
            (tasks (wheel (drop_task t w))))) (next_ptr w)
  else task_ t' = task_ t /\ w' = w.
Proof.
  intros Hr Hs [Hd _]. unfold Start, InitTimerTask. rewrite Hr, Hs. cbn [negb period timer_opt_].
  assert (reality_mode (drop_task t w) = true) as Hr' by (unfold drop_task; by destruct (task_ t)).
  assert (next_ptr (drop_task t w) = next_ptr w) as Hn by (unfold drop_task; by destruct (task_ t)).
  change (drop_task (mkTimer (timer_id t) (timer_opt_ t) true (task_ t)) w) with (drop_task t w).
  destruct (Z.eqb_spec (period (timer_opt_ t)) 0); [|destruct (Z.leb_spec TIMER_MAX_INTERVAL_MS (period (timer_opt_ t)))].
  - cbn. rewrite Hr. zcases; try lia; done.
  - cbn. rewrite Hr. zcases; try lia; done.
  - cbn. rewrite Hr', Hn. zcases; try lia; done.
Qed.

(** ** Concrete timers *)

(** Rounding to the nearest millisecond, halves away from zero. *)
Definition round_ms (ns : Z) : Z :=
  if 0 <=? ns then (ns + 500000) / 1000000 else - ((- ns + 500000) / 1000000).

Lemma round_ms_near ns : - 500000 <= round_ms ns * 1000000 - ns <= 500000.
Proof.
  unfold round_ms. destruct (Z.leb_spec 0 ns).
  - pose proof (Z.div_mod (ns + 500000) 1000000). pose proof (Z.mod_pos_bound (ns + 500000) 1000000). lia.
  - pose proof (Z.div_mod (- ns + 500000) 1000000). pose proof (Z.mod_pos_bound (- ns + 500000) 1000000). lia.
Qed.

Lemma rearm_in_range_witness :
  1 <= next_fire_duration_ms (rearm round_ms (mkTimerTask 1 10 0 10 0 1000000000) 1011000000 1013000000) <= 10.
Proof.
  refine (rearm_in_range round_ms _ (mkTimerTask 1 10 0 10 0 1000000000) 1011000000 1013000000 _ _ _ _).
  - intros ns _. apply round_ms_near.
  - vm_compute. split; [reflexivity|reflexivity].
  - lia.
  - vm_compute. reflexivity.
  - vm_compute. split; [discriminate|reflexivity].
Defined.

Definition demo_world : World := mkWorld (wheel_init {[1%nat := slow_task]}) 0 2 true.
Definition demo_timer : Timer := mkTimer 7 (mkTimerOption 600 false) true (Some 1%nat).

Lemma stopped_never_fires_witness :
  Forall (fun l => cnt 1%nat l = 0%nat)
    (snd (wheel_run (wheel (snd (Stop demo_timer demo_world))) [EvAdd 1%nat; EvTick; EvTick])).
Proof.
  exact (proj2 (stopped_never_fires demo_timer demo_world 1%nat [EvAdd 1%nat; EvTick; EvTick]
                  eq_refl eq_refl eq_refl)).
Defined.

Lemma Start_spec_witness :
  task_ (fst (Start (mkTimer 7 (mkTimerOption 600 false) false None) demo_world)) = Some 2%nat.
Proof.
  refine (proj1 (proj2 (proj2 (Start_spec (mkTimer 7 (mkTimerOption 600 false) false None) demo_world
    eq_refl eq_refl _)))). unfold is_u32. simpl. lia.
Defined.
