(* ===== verification/Unordered.v ===== *)
(** Unordered.v -- std::unordered_map, std::unordered_multimap and their order

    The C++ standard leaves the iteration order of the unordered containers
    open.  An unordered_map is a [gmap]; an unordered_multimap is the list of its
    elements in iteration order.  [HashOrder] is what the sources may rely on:
    iteration visits every element once, and an insertion adds one element
    (wherever it lands, and however a rehash moves the others).  All theorems of
    the clients hold for every instance. *)

From S2P Require Import Prelude.

Class HashOrder := {
  iter : forall {K : Type} `{Countable K} {A : Type}, gmap K A -> list (K * A);
  iter_perm : forall {K : Type} `{Countable K} {A : Type} (m : gmap K A),
    iter m ≡ₚ map_to_list m;
  place : forall {K A : Type}, K * A -> list (K * A) -> list (K * A);
  place_perm : forall {K A : Type} (x : K * A) (l : list (K * A)), place x l ≡ₚ x :: l
}.

(** One order, to evaluate the definitions with: new elements come first. *)
#[refine] Instance front_order : HashOrder := {
  iter := fun K _ _ A m => map_to_list m;
  place := fun K A x l => x :: l
}.
Proof. all: done. Defined.

Section unordered.
Context `{HashOrder}.

Lemma elem_of_iter `{Countable K} {A} (m : gmap K A) k x :
  (k, x) ∈ iter m <-> m !! k = Some x.
Proof. rewrite iter_perm. apply elem_of_map_to_list. Qed.

Lemma elem_of_iter_values `{Countable K} {A} (m : gmap K A) x :
  x ∈ (iter m).*2 <-> exists k, m !! k = Some x.
Proof.
  rewrite list_elem_of_fmap. split.
  - intros ([k y] & -> & Hk). exists k. by apply elem_of_iter.
  - intros [k Hk]. exists (k, x). split; [done|]. by apply elem_of_iter.
Qed.

Lemma NoDup_iter_keys `{Countable K} {A} (m : gmap K A) : NoDup (iter m).*1.
Proof. rewrite iter_perm. apply NoDup_fst_map_to_list. Qed.

Lemma length_iter `{Countable K} {A} (m : gmap K A) : length (iter m) = size m.
Proof. by rewrite iter_perm, length_map_to_list. Qed.

Lemma iter_empty `{Countable K} {A} : iter (∅ : gmap K A) = [].
Proof. apply Permutation_nil_r. by rewrite iter_perm, map_to_list_empty. Qed.

(** A loop over a map whose body commutes is a fold, whatever the order. *)
Lemma foldl_iter_ind `{Countable K} {A B} (m : gmap K A) (f : B -> K * A -> B)
    (P : gmap K A -> B -> Prop) (b : B) :
  P ∅ b ->
  (forall m0 c k x, m0 ⊆ m -> m0 !! k = None -> m !! k = Some x -> P m0 c -> P (<[k := x]> m0) (f c (k, x))) ->
  P m (foldl f b (iter m)).
Proof.
  intros Hbase Hs.
  assert (forall l m0 c, NoDup (m0 ++ l).*1 -> (forall k x, (k, x) ∈ m0 ++ l -> m !! k = Some x) ->
    P (list_to_map m0) c -> P (list_to_map (m0 ++ l)) (foldl f c l)) as HG.
  { induction l as [|[k x] l IH]; intros m0 c Hd Hin HP; simpl; [by rewrite app_nil_r|].
    assert (P (list_to_map (m0 ++ [(k, x)])) (f c (k, x))) as HP'.
    { rewrite fmap_app in Hd. simpl in Hd.
      assert (k ∉ m0.*1) as Hk.
      { apply NoDup_app in Hd as (_ & Hd & _). intros Hx. apply (Hd k Hx). by left. }
      assert (list_to_map (M:=gmap K A) (m0 ++ [(k, x)]) = <[k := x]> (list_to_map m0)) as ->.
      { rewrite <- (list_to_map_proper ((k, x) :: m0) (m0 ++ [(k, x)])); [done| |].
        - simpl. constructor; [done|]. by apply NoDup_app in Hd as [Hd _].
        - by rewrite Permutation_cons_append. }
      apply Hs; [| |by apply Hin; set_solver|done].
      - apply map_subseteq_spec. intros k' y Hy. apply elem_of_list_to_map_2 in Hy. apply Hin. set_solver.
      - by apply not_elem_of_list_to_map_1. }
    replace (m0 ++ (k, x) :: l) with ((m0 ++ [(k, x)]) ++ l) by (by rewrite <- app_assoc).
    apply IH; [by rewrite <- app_assoc|by rewrite <- app_assoc|done]. }
  specialize (HG (iter m) [] b). simpl in HG.
  assert (list_to_map (iter m) = m) as E.
  { rewrite (list_to_map_proper _ (map_to_list m)); [apply list_to_map_to_list|apply NoDup_iter_keys|apply iter_perm]. }
  rewrite E in HG. apply HG; [apply NoDup_iter_keys| |done]. intros k x. by rewrite elem_of_iter.
Qed.
End unordered.
