(* ===== verification/Role.v ===== *)
(** Role.v -- src/src/apollo/cyber/service_discovery/role/role.{h,cc}

    The participants of the topology: nodes, writers and readers of channels,
    servers and clients of services, with the matching predicate each class
    overrides.  [RoleAttributes] is the protobuf message of
    cyber/proto/role_attributes.proto: an optional field is an [option], its
    getter returns the default when the field is not set. *)

From S2P Require Import Prelude.
Local Open Scope Z_scope.

Inductive QosHistoryPolicy := HISTORY_SYSTEM_DEFAULT | HISTORY_KEEP_LAST | HISTORY_KEEP_ALL.
Inductive QosReliabilityPolicy :=
  RELIABILITY_SYSTEM_DEFAULT | RELIABILITY_RELIABLE | RELIABILITY_BEST_EFFORT.
Inductive QosDurabilityPolicy :=
  DURABILITY_SYSTEM_DEFAULT | DURABILITY_TRANSIENT_LOCAL | DURABILITY_VOLATILE.

Record QosProfile := mkQos {
  history : option QosHistoryPolicy;
  depth : option Z;
  mps : option Z;
  reliability : option QosReliabilityPolicy;
  durability : option QosDurabilityPolicy
}.

#[export] Instance QosHistoryPolicy_eq_dec : EqDecision QosHistoryPolicy.
Proof. solve_decision. Defined.
#[export] Instance QosReliabilityPolicy_eq_dec : EqDecision QosReliabilityPolicy.
Proof. solve_decision. Defined.
#[export] Instance QosDurabilityPolicy_eq_dec : EqDecision QosDurabilityPolicy.
Proof. solve_decision. Defined.
#[export] Instance QosProfile_eq_dec : EqDecision QosProfile.
Proof. solve_decision. Defined.

Record RoleAttributes := mkAttr {
  host_name : option string;
  host_ip : option string;
  process_id : option Z;
  node_name : option string;
  node_id : option Z;
  channel_name : option string;
  channel_id : option Z;
  message_type : option string;
  proto_desc : option string;
  id : option Z;
  qos_profile : option QosProfile;
  socket_addr : option (option string * option Z);
  service_name : option string;
  service_id : option Z
}.

Definition no_attr : RoleAttributes :=
  mkAttr None None None None None None None None None None None None None None.

(** The getters of protobuf: the default of an unset field. *)
Definition str (o : option string) : string := default ""%string o.
Definition num (o : option Z) : Z := default 0 o.

#[export] Instance RoleAttributes_eq_dec : EqDecision RoleAttributes.
Proof. solve_decision. Defined.

Inductive RoleKind := RoleBase | RoleWriter | RoleServer.

#[export] Instance RoleKind_eq_dec : EqDecision RoleKind.
Proof. solve_decision. Defined.

(** RoleNode is RoleBase, RoleReader is RoleWriter, RoleClient is RoleServer. *)
Record Role := mkRole {
  kind : RoleKind;
  attributes_ : RoleAttributes;
  timestamp_ns_ : Z
}.

#[export] Instance Role_eq_dec : EqDecision Role.
Proof. solve_decision. Defined.

(** [has_x target && target.x != attributes_.x] negated: the field is not set in
    the target or equal to the getter of ours. *)
Definition field_ok {A} `{EqDecision A} (target : option A) (ours : A) : bool :=
  match target with
  | Some x => bool_decide (x = ours)
  | None => true
  end.

Definition RoleBase_Match (attributes target_attr : RoleAttributes) : bool :=
  if negb (field_ok (node_id target_attr) (num (node_id attributes))) then false
  else if negb (field_ok (process_id target_attr) (num (process_id attributes))) then false
  else if negb (field_ok (host_name target_attr) (str (host_name attributes))) then false
  else true.

Definition RoleWriter_Match (attributes target_attr : RoleAttributes) : bool :=
  if negb (field_ok (channel_id target_attr) (num (channel_id attributes))) then false
  else if negb (field_ok (id target_attr) (num (id attributes))) then false
  else RoleBase_Match attributes target_attr.

Definition RoleServer_Match (attributes target_attr : RoleAttributes) : bool :=
  if negb (field_ok (service_id target_attr) (num (service_id attributes))) then false
  else RoleBase_Match attributes target_attr.

(** The virtual call [role->Match(target_attr)]. *)
Definition Match (r : Role) (target_attr : RoleAttributes) : bool :=
  match kind r with
  | RoleBase => RoleBase_Match (attributes_ r) target_attr
  | RoleWriter => RoleWriter_Match (attributes_ r) target_attr
  | RoleServer => RoleServer_Match (attributes_ r) target_attr
  end.

Definition IsEarlierThan (r other : Role) : bool := timestamp_ns_ r <? timestamp_ns_ other.

Lemma field_ok_true {A} `{EqDecision A} (target : option A) (ours : A) :
  field_ok target ours = true <-> (forall x, target = Some x -> x = ours).
Proof.
  destruct target as [x|]; simpl; [|by split].
  rewrite bool_decide_eq_true. split; [by intros -> ? [= <-]|auto].
Qed.

(** What each Match promises. *)
Lemma RoleBase_Match_spec a t :
  RoleBase_Match a t = true <->
  (forall x, node_id t = Some x -> x = num (node_id a)) /\
  (forall x, process_id t = Some x -> x = num (process_id a)) /\
  (forall x, host_name t = Some x -> x = str (host_name a)).
Proof.
  unfold RoleBase_Match. rewrite <- !field_ok_true.
  repeat destruct (field_ok _ _); naive_solver.
Qed.

Lemma RoleWriter_Match_spec a t :
  RoleWriter_Match a t = true <->
  (forall x, channel_id t = Some x -> x = num (channel_id a)) /\
  (forall x, id t = Some x -> x = num (id a)) /\ RoleBase_Match a t = true.
Proof.
  unfold RoleWriter_Match. rewrite <- !field_ok_true.
  destruct (field_ok (channel_id t) _), (field_ok (id t) _); naive_solver.
Qed.

Lemma RoleServer_Match_spec a t :
  RoleServer_Match a t = true <->
  (forall x, service_id t = Some x -> x = num (service_id a)) /\ RoleBase_Match a t = true.
Proof.
  unfold RoleServer_Match. rewrite <- !field_ok_true.
  destruct (field_ok (service_id t) _); naive_solver.
Qed.

(** A role always matches its own attributes, so removing a role by the
    attributes it was added with removes it. *)
Lemma Match_self r : Match r (attributes_ r) = true.
Proof.
  assert (RoleBase_Match (attributes_ r) (attributes_ r) = true) as Hb
    by (apply RoleBase_Match_spec; repeat split; intros x ->; done).
  unfold Match. destruct (kind r); [done|..].
  - apply RoleWriter_Match_spec. repeat split; [by intros x ->|by intros x ->|done].
  - apply RoleServer_Match_spec. split; [by intros x ->|done].
Qed.
#[export] Hint Resolve Match_self : cyber.
