(* ===== verification/Warehouse.v ===== *)
(** Warehouse.v -- src/src/apollo/cyber/service_discovery/container/
    {warehouse_base.h, single_value_warehouse.cc, multi_value_warehouse.cc}

    The two containers of roles and the interface WarehouseBase they implement.
    [WarehouseOps] has the virtual functions; [Warehouse] adds what every
    implementation promises, in terms of the multiset of its (key, role) items,
    which is all the managers rely on.  Every function body is guarded by the
    class's rw_lock_, so an operation is one atomic step.  An output pointer is
    part of the result: [option Role] when it is written only on success, the
    extended vector when results are appended. *)

From S2P Require Import Prelude.
From S2P Require Import Unordered.
From S2P Require Import Role.
Local Open Scope Z_scope.

Class WarehouseOps (W : Type) := {
  NewWarehouse : W;
  Add : W -> Z -> Role -> bool -> bool * W;
  Clear : W -> W;
  Size : W -> nat;
  RemoveKey : W -> Z -> W;
  RemoveRole : W -> Z -> Role -> W;
  RemoveAttr : W -> RoleAttributes -> W;
  SearchKeyRole : W -> Z -> option Role;
  SearchKeyRoles : W -> Z -> list Role -> bool * list Role;
  SearchKeyAttrs : W -> Z -> list RoleAttributes -> bool * list RoleAttributes;
  SearchAttrRole : W -> RoleAttributes -> option Role;
  SearchAttrRoles : W -> RoleAttributes -> list Role -> bool * list Role;
  SearchAttrAttrs : W -> RoleAttributes -> list RoleAttributes -> bool * list RoleAttributes;
  GetAllRoles : W -> list Role -> list Role;
  GetAllAttrs : W -> list RoleAttributes -> list RoleAttributes
}.

(** The overloads that both classes define by calling another one. *)
Section overloads.
Context {W : Type} `{WarehouseOps W}.
Definition SearchKey (w : W) (key : Z) : bool :=
  match SearchKeyRole w key with Some _ => true | None => false end.
Definition SearchKeyAttr (w : W) (key : Z) : option RoleAttributes :=
  match SearchKeyRole w key with Some role => Some (attributes_ role) | None => None end.
Definition SearchAttr (w : W) (target : RoleAttributes) : bool :=
  match SearchAttrRole w target with Some _ => true | None => false end.
Definition SearchAttrAttr (w : W) (target : RoleAttributes) : option RoleAttributes :=
  match SearchAttrRole w target with Some role => Some (attributes_ role) | None => None end.
End overloads.

(** The items of key [k], the items that match [t], and both. *)
Definition at_key (k : Z) (i : Z * Role) : bool := bool_decide (i.1 = k).
Definition matching (t : RoleAttributes) (i : Z * Role) : bool := Match i.2 t.
Definition keep (f : Z * Role -> bool) (l : list (Z * Role)) : list (Z * Role) :=
  List.filter (fun i => negb (f i)) l.
Definition select (f : Z * Role -> bool) (l : list (Z * Role)) : list Role := (List.filter f l).*2.

(** What an implementation promises. *)
Class Warehouse (W : Type) `{WarehouseOps W} := {
  multi : bool;
  items : W -> list (Z * Role);
  items_new : items NewWarehouse = [];
  items_add w k r ign : ign = true \/ k ∉ (items w).*1 ->
    (Add w k r ign).1 = true /\
    items (Add w k r ign).2 ≡ₚ (k, r) :: (if multi then items w else keep (at_key k) (items w));
  items_add_refused w k r : k ∈ (items w).*1 -> Add w k r false = (false, w);
  items_clear w : items (Clear w) = [];
  items_size w : Size w = length (items w);
  items_remove_key w k : items (RemoveKey w k) ≡ₚ keep (at_key k) (items w);
  items_remove_role w k r :
    items (RemoveRole w k r) ≡ₚ
    keep (fun i => at_key k i && matching (attributes_ r) i) (items w);
  items_remove_attr w t : items (RemoveAttr w t) ≡ₚ keep (matching t) (items w);
  items_search_key w k :
    match SearchKeyRole w k with
    | Some r => (k, r) ∈ items w
    | None => k ∉ (items w).*1
    end;
  items_search_key_roles w k out : exists found,
    found ≡ₚ select (at_key k) (items w) /\
    SearchKeyRoles w k out = (bool_decide (found <> []), out ++ found) /\
    forall out', SearchKeyAttrs w k out' = (bool_decide (found <> []), out' ++ (attributes_ <$> found));
  items_search_attr w t :
    match SearchAttrRole w t with
    | Some r => r ∈ select (matching t) (items w)
    | None => select (matching t) (items w) = []
    end;
  items_search_attr_roles w t out : exists found,
    found ≡ₚ select (matching t) (items w) /\
    SearchAttrRoles w t out = (bool_decide (found <> []), out ++ found) /\
    forall out', SearchAttrAttrs w t out' = (bool_decide (found <> []), out' ++ (attributes_ <$> found));
  items_all w out : exists found,
    found ≡ₚ (items w).*2 /\ GetAllRoles w out = out ++ found /\
    forall out', GetAllAttrs w out' = out' ++ (attributes_ <$> found)
}.

(** ** Facts about item lists *)

#[export] Instance filter_perm f : Proper (Permutation ==> Permutation) (@List.filter (Z * Role) f).
Proof.
  intros l l' Hl. induction Hl as [|x l l' _ IH|x y l|l1 l2 l3 _ IH1 _ IH2]; simpl.
  - done.
  - destruct (f x); [by constructor|done].
  - destruct (f x), (f y); try done. apply perm_swap.
  - by etrans.
Qed.

#[export] Instance keep_perm f : Proper (Permutation ==> Permutation) (keep f).
Proof. apply filter_perm. Qed.

#[export] Instance select_perm f : Proper (Permutation ==> Permutation) (select f).
Proof. unfold select. intros l l' Hl. by rewrite Hl. Qed.

Lemma elem_of_filter_b {A} (f : A -> bool) l x : x ∈ List.filter f l <-> x ∈ l /\ f x = true.
Proof. rewrite !list_elem_of_In. apply filter_In. Qed.

Lemma elem_of_keep f l x : x ∈ keep f l <-> x ∈ l /\ f x = false.
Proof. unfold keep. rewrite elem_of_filter_b, negb_true_iff. done. Qed.

Lemma elem_of_select f l r : r ∈ select f l <-> exists k, (k, r) ∈ l /\ f (k, r) = true.
Proof.
  unfold select. rewrite list_elem_of_fmap. split.
  - intros ([k x] & -> & Hx). apply elem_of_filter_b in Hx. eauto.
  - intros (k & Hk & Hf). exists (k, r). split; [done|]. by apply elem_of_filter_b.
Qed.

Lemma elem_of_keys (l : list (Z * Role)) k : k ∈ l.*1 <-> exists r, (k, r) ∈ l.
Proof.
  rewrite list_elem_of_fmap. split; [intros ([? r] & -> & ?); eauto|intros [r Hr]; by exists (k, r)].
Qed.

Lemma at_key_true k i : at_key k i = true <-> i.1 = k.
Proof. unfold at_key. apply bool_decide_eq_true. Qed.

Lemma keep_none f l : (forall x, x ∈ l -> f x = false) -> keep f l = l.
Proof.
  unfold keep. induction l as [|x l IH]; intros Hf; simpl; [done|].
  rewrite (Hf x) by set_solver. simpl. f_equal. apply IH. set_solver.
Qed.

Lemma filter_ext_in {A} (f g : A -> bool) l : (forall x, x ∈ l -> f x = g x) -> List.filter f l = List.filter g l.
Proof.
  induction l as [|a l IH]; intros Hfg; simpl; [done|]. rewrite (Hfg a) by (by left).
  rewrite IH; [done|]. intros x Hx. apply Hfg. by right.
Qed.

Lemma filter_filter {A} (f g : A -> bool) l :
  List.filter f (List.filter g l) = List.filter (fun x => g x && f x) l.
Proof. induction l as [|a l IH]; simpl; [done|]. destruct (g a); simpl; [by destruct (f a); rewrite IH|done]. Qed.

Lemma keep_ext f g l : (forall x, x ∈ l -> f x = g x) -> keep f l = keep g l.
Proof. intros Hfg. apply filter_ext_in. intros x Hx. by rewrite Hfg. Qed.

Lemma keep_keep f g l : keep f (keep g l) = keep (fun x => g x || f x) l.
Proof. unfold keep. rewrite filter_filter. apply filter_ext_in. intros x _. by destruct (g x), (f x). Qed.

Lemma keep_keys_NoDup f (l : list (Z * Role)) : NoDup l.*1 -> NoDup (keep f l).*1.
Proof.
  unfold keep. induction l as [|i l IH]; simpl; [done|]. intros Hd. apply NoDup_cons in Hd as [Hi Hd].
  destruct (f i); simpl; [by apply IH|]. apply NoDup_cons. split; [|by apply IH].
  intros Hx. apply Hi. apply list_elem_of_fmap in Hx as (j & Ej & Hj). apply list_elem_of_fmap.
  exists j. split; [done|]. by apply elem_of_filter_b in Hj as [Hj _].
Qed.

Lemma Forall_keep {P : Z * Role -> Prop} f l : Forall P l -> Forall P (keep f l).
Proof.
  intros Hl. apply Forall_forall. intros x Hx. apply elem_of_keep in Hx as [Hx _].
  by eapply Forall_forall in Hl.
Qed.

Lemma keys_unique (l : list (Z * Role)) k r r' : NoDup l.*1 -> (k, r) ∈ l -> (k, r') ∈ l -> r = r'.
Proof.
  induction l as [|[k0 r0] l IH]; intros Hd H1 H2; [by apply not_elem_of_nil in H1|].
  simpl in Hd. apply NoDup_cons in Hd as [Hn Hd].
  apply elem_of_cons in H1, H2. destruct H1 as [E1|H1], H2 as [E2|H2]; [congruence| | |auto].
  - injection E1 as -> ->. exfalso. apply Hn, elem_of_keys. eauto.
  - injection E2 as -> ->. exfalso. apply Hn, elem_of_keys. eauto.
Qed.

(** ** Loops over the roles a query found *)
Section found.
Context {W : Type} `{Warehouse W}.

Lemma remove_keys_items (key : Role -> Z) rs (w : W) :
  items (foldl (fun w r => RemoveKey w (key r)) w rs) ≡ₚ
  keep (fun i => existsb (fun r => at_key (key r) i) rs) (items w).
Proof.
  revert w. induction rs as [|r rs IH]; intros w; simpl; [by rewrite keep_none|].
  rewrite IH, items_remove_key, keep_keep. done.
Qed.

Lemma remove_roles_items (key : Role -> Z) rs (w : W) :
  items (foldl (fun w r => RemoveRole w (key r) r) w rs) ≡ₚ
  keep (fun i => existsb (fun r => at_key (key r) i && matching (attributes_ r) i) rs) (items w).
Proof.
  revert w. induction rs as [|r rs IH]; intros w; simpl; [by rewrite keep_none|].
  rewrite IH, items_remove_role, keep_keep. done.
Qed.

(** Removing the key of every role that matches [t] removes exactly those. *)
Lemma remove_found_keys key (w : W) t found :
  NoDup (items w).*1 -> (forall k r, (k, r) ∈ items w -> k = key r) ->
  found ≡ₚ select (matching t) (items w) ->
  items (foldl (fun w r => RemoveKey w (key r)) w found) ≡ₚ keep (matching t) (items w).
Proof.
  intros Hd Hk Hf. rewrite remove_keys_items.
  rewrite (keep_ext _ (matching t)); [done|]. intros [k r] Hi. apply eq_true_iff_eq.
  rewrite existsb_exists. setoid_rewrite <- list_elem_of_In. setoid_rewrite at_key_true. split.
  - intros (r' & Hr' & Ek). rewrite Hf in Hr'. apply elem_of_select in Hr' as (k' & Hi' & Hm). simpl in Ek.
    assert (k' = k) as -> by (rewrite (Hk _ _ Hi'); congruence). by rewrite (keys_unique _ k r r' Hd Hi Hi').
  - intros Hm. exists r. split; [rewrite Hf; apply elem_of_select; eauto|]. by apply Hk.
Qed.

(** Removing every role that matches [t] by its key and attributes, when what
    matches such a role matches [t] too. *)
Lemma remove_found_roles key (w : W) t found :
  (forall k r, (k, r) ∈ items w -> k = key r) ->
  (forall k r k' r', (k, r) ∈ items w -> (k', r') ∈ items w ->
     Match r t = true -> Match r' (attributes_ r) = true -> Match r' t = true) ->
  found ≡ₚ select (matching t) (items w) ->
  items (foldl (fun w r => RemoveRole w (key r) r) w found) ≡ₚ keep (matching t) (items w).
Proof.
  intros Hk Hsame Hf. rewrite remove_roles_items.
  rewrite (keep_ext _ (matching t)); [done|]. intros [k r] Hi. apply eq_true_iff_eq.
  rewrite existsb_exists. setoid_rewrite <- list_elem_of_In. setoid_rewrite andb_true_iff.
  setoid_rewrite at_key_true. split.
  - intros (r' & Hr' & _ & Hm'). rewrite Hf in Hr'. apply elem_of_select in Hr' as (k' & Hi' & Hm).
    by apply (Hsame k' r' k r).
  - intros Hm. exists r. split; [rewrite Hf; apply elem_of_select; eauto|].
    split; [by apply Hk|]. apply Match_self.
Qed.
End found.

(** ** SingleValueWarehouse: std::unordered_map<uint64_t, RolePtr> *)
Module SingleValueWarehouse.
Section ops.
Context `{HashOrder}.

Record t := mk { roles_ : gmap Z Role }.

Definition add (w : t) (key : Z) (role : Role) (ignore_if_exist : bool) : bool * t :=
  if negb ignore_if_exist && bool_decide (is_Some (roles_ w !! key)) then (false, w)
  else (true, mk (<[key := role]> (roles_ w))).

Definition clear (w : t) : t := mk ∅.
Definition size_ (w : t) : nat := size (roles_ w).
Definition remove_key (w : t) (key : Z) : t := mk (delete key (roles_ w)).

Definition remove_role (w : t) (key : Z) (role : Role) : t :=
  match roles_ w !! key with
  | None => w
  | Some found => if negb (Match found (attributes_ role)) then w else mk (delete key (roles_ w))
  end.

(** The erasing loop over the map. *)
Definition remove_attr (w : t) (target_attr : RoleAttributes) : t :=
  mk (foldl (fun m i => if Match i.2 target_attr then delete i.1 m else m) (roles_ w) (iter (roles_ w))).

Definition search_key_role (w : t) (key : Z) : option Role := roles_ w !! key.

Definition search_key_roles (w : t) (key : Z) (matched_roles : list Role) : bool * list Role :=
  match search_key_role w key with
  | None => (false, matched_roles)
  | Some role => (true, matched_roles ++ [role])
  end.
Definition search_key_attrs (w : t) (key : Z) (out : list RoleAttributes) : bool * list RoleAttributes :=
  match search_key_role w key with
  | None => (false, out)
  | Some role => (true, out ++ [attributes_ role])
  end.

(** The loop that returns at the first match. *)
Fixpoint first_match (target_attr : RoleAttributes) (l : list (Z * Role)) : option Role :=
  match l with
  | [] => None
  | i :: l => if Match i.2 target_attr then Some i.2 else first_match target_attr l
  end.
Definition search_attr_role (w : t) (target_attr : RoleAttributes) : option Role :=
  first_match target_attr (iter (roles_ w)).

(** The loops that append every match and set [find]. *)
Definition collect {A} (f : Role -> A) (p : Z * Role -> bool) (l : list (Z * Role)) (out : list A) : bool * list A :=
  foldl (fun s i => if p i then (true, s.2 ++ [f i.2]) else s) (false, out) l.
Definition search_attr_roles (w : t) (target_attr : RoleAttributes) (out : list Role) : bool * list Role :=
  collect (fun r => r) (matching target_attr) (iter (roles_ w)) out.
Definition search_attr_attrs (w : t) (target_attr : RoleAttributes) (out : list RoleAttributes)
    : bool * list RoleAttributes :=
  collect attributes_ (matching target_attr) (iter (roles_ w)) out.

Definition get_all_roles (w : t) (out : list Role) : list Role :=
  foldl (fun acc i => acc ++ [i.2]) out (iter (roles_ w)).
Definition get_all_attrs (w : t) (out : list RoleAttributes) : list RoleAttributes :=
  foldl (fun acc i => acc ++ [attributes_ i.2]) out (iter (roles_ w)).
End ops.
End SingleValueWarehouse.

(** ** MultiValueWarehouse: std::unordered_multimap<uint64_t, RolePtr> *)
Module MultiValueWarehouse.
Section ops.
Context `{HashOrder}.

Record t := mk { roles_ : list (Z * Role) }.

(** roles_.find(key) and roles_.equal_range(key) *)
Definition find_key (w : t) (key : Z) : option Role := head (select (at_key key) (roles_ w)).
Definition equal_range (w : t) (key : Z) : list (Z * Role) := List.filter (at_key key) (roles_ w).

Definition add (w : t) (key : Z) (role : Role) (ignore_if_exist : bool) : bool * t :=
  if negb ignore_if_exist && bool_decide (is_Some (find_key w key)) then (false, w)
  else (true, mk (place (key, role) (roles_ w))).

Definition clear (w : t) : t := mk [].
Definition size_ (w : t) : nat := length (roles_ w).
Definition remove_key (w : t) (key : Z) : t := mk (keep (at_key key) (roles_ w)).

(** The erasing loop over equal_range(key): erase(it) keeps the order of the
    other elements. *)
Definition remove_role (w : t) (key : Z) (role : Role) : t :=
  mk (keep (fun i => at_key key i && Match i.2 (attributes_ role)) (roles_ w)).
Definition remove_attr (w : t) (target_attr : RoleAttributes) : t :=
  mk (keep (fun i => Match i.2 target_attr) (roles_ w)).

Definition search_key_roles (w : t) (key : Z) (out : list Role) : bool * list Role :=
  SingleValueWarehouse.collect (fun r => r) (fun _ => true) (equal_range w key) out.
Definition search_key_attrs (w : t) (key : Z) (out : list RoleAttributes) : bool * list RoleAttributes :=
  SingleValueWarehouse.collect attributes_ (fun _ => true) (equal_range w key) out.
Definition search_attr_role (w : t) (target_attr : RoleAttributes) : option Role :=
  SingleValueWarehouse.first_match target_attr (roles_ w).
Definition search_attr_roles (w : t) (target_attr : RoleAttributes) (out : list Role) : bool * list Role :=
  SingleValueWarehouse.collect (fun r => r) (matching target_attr) (roles_ w) out.
Definition search_attr_attrs (w : t) (target_attr : RoleAttributes) (out : list RoleAttributes)
    : bool * list RoleAttributes :=
  SingleValueWarehouse.collect attributes_ (matching target_attr) (roles_ w) out.

Definition get_all_roles (w : t) (out : list Role) : list Role :=
  foldl (fun acc i => acc ++ [i.2]) out (roles_ w).
Definition get_all_attrs (w : t) (out : list RoleAttributes) : list RoleAttributes :=
  foldl (fun acc i => acc ++ [attributes_ i.2]) out (roles_ w).
End ops.
End MultiValueWarehouse.

(** ** The laws *)

Section loops.
Lemma collect_spec {A} (f : Role -> A) p l out :
  SingleValueWarehouse.collect f p l out =
  (bool_decide (List.filter p l <> []), out ++ (f <$> (List.filter p l).*2)).
Proof.
  unfold SingleValueWarehouse.collect.
  assert (forall b, foldl (fun s i => if p i then (true, s.2 ++ [f i.2]) else s) (b, out) l =
    (b || bool_decide (List.filter p l <> []), out ++ (f <$> (List.filter p l).*2))) as HG.
  { revert out. induction l as [|i l IH]; intros out b; simpl.
    - by rewrite app_nil_r, orb_false_r.
    - destruct (p i); simpl; rewrite IH; simpl; [|done]. by rewrite orb_true_r, <- app_assoc. }
  apply (HG false).
Qed.

Lemma append_spec {A} (f : Role -> A) (l : list (Z * Role)) out :
  foldl (fun acc i => acc ++ [f i.2]) out l = out ++ (f <$> l.*2).
Proof.
  revert out. induction l as [|i l IH]; intros out; simpl; [by rewrite app_nil_r|].
  by rewrite IH, <- app_assoc.
Qed.

Lemma first_match_spec t l :
  match SingleValueWarehouse.first_match t l with
  | Some r => r ∈ select (matching t) l
  | None => select (matching t) l = []
  end.
Proof.
  unfold select, matching. induction l as [|i l IH]; simpl; [done|].
  destruct (Match i.2 t); simpl; [|done]. by left.
Qed.

Lemma nonempty_select f l : bool_decide (List.filter f l <> []) = bool_decide (select f l <> []).
Proof. unfold select. by destruct (List.filter f l). Qed.

Lemma filter_true {A} (l : list A) : List.filter (fun _ => true) l = l.
Proof. induction l; simpl; congruence. Qed.
End loops.

Section single.
Context `{HashOrder}.
Import SingleValueWarehouse.

#[export] Instance single_ops : WarehouseOps t := {
  NewWarehouse := mk ∅; Add := add; Clear := clear; Size := size_;
  RemoveKey := remove_key; RemoveRole := remove_role; RemoveAttr := remove_attr;
  SearchKeyRole := search_key_role; SearchKeyRoles := search_key_roles;
  SearchKeyAttrs := search_key_attrs; SearchAttrRole := search_attr_role;
  SearchAttrRoles := search_attr_roles; SearchAttrAttrs := search_attr_attrs;
  GetAllRoles := get_all_roles; GetAllAttrs := get_all_attrs
}.

Definition single_items (w : t) : list (Z * Role) := iter (roles_ w).

Lemma single_keys w k : k ∈ (single_items w).*1 <-> is_Some (roles_ w !! k).
Proof.
  rewrite elem_of_keys. split; [intros [r Hr]; exists r|intros [r Hr]; exists r]; by apply elem_of_iter.
Qed.

(** Two maps with the same items up to a filter. *)
Lemma iter_filter (m m' : gmap Z Role) f :
  (forall k r, m' !! k = Some r <-> m !! k = Some r /\ f (k, r) = false) ->
  iter m' ≡ₚ keep f (iter m).
Proof.
  intros Hm. apply NoDup_Permutation.
  - eapply NoDup_fmap_1, NoDup_iter_keys.
  - apply NoDup_ListNoDup, List.NoDup_filter, NoDup_ListNoDup. eapply NoDup_fmap_1, NoDup_iter_keys.
  - intros [k r]. by rewrite elem_of_keep, !elem_of_iter, Hm.
Qed.

Lemma single_delete w k : iter (delete k (roles_ w)) ≡ₚ keep (at_key k) (single_items w).
Proof.
  apply iter_filter. intros k' r. unfold at_key. simpl. rewrite lookup_delete_Some, bool_decide_eq_false. naive_solver.
Qed.

Lemma single_insert w k r : iter (<[k := r]> (roles_ w)) ≡ₚ (k, r) :: keep (at_key k) (single_items w).
Proof.
  rewrite <- single_delete, !iter_perm, <- map_to_list_insert by apply lookup_delete_eq.
  by rewrite insert_delete_eq.
Qed.

(** A map holds at most one item per key. *)
Lemma single_at_key w k : select (at_key k) (single_items w) = option_list (roles_ w !! k).
Proof.
  assert (forall x, x ∈ select (at_key k) (single_items w) -> roles_ w !! k = Some x) as Hin.
  { intros x Hx. apply elem_of_select in Hx as (k' & Hx & Hk).
    apply at_key_true in Hk. simpl in Hk. subst k'. by apply elem_of_iter in Hx. }
  destruct (roles_ w !! k) as [r|] eqn:Ek; simpl.
  - apply Permutation_length_1_inv. unfold single_items.
    rewrite <- (insert_delete_id _ _ _ Ek), iter_perm, map_to_list_insert by apply lookup_delete_eq.
    unfold select. simpl. unfold at_key at 1. simpl. rewrite bool_decide_true by done. simpl. constructor.
    assert (List.filter (at_key k) (map_to_list (delete k (roles_ w))) = []) as ->; [|done].
    apply elem_of_nil_inv. intros [k' x] Hx. apply elem_of_filter_b in Hx as [Hx Hk].
    apply at_key_true in Hk. simpl in Hk. subst k'. apply elem_of_map_to_list in Hx. by rewrite lookup_delete_eq in Hx.
  - apply elem_of_nil_inv. intros x Hx. by apply Hin in Hx.
Qed.

Lemma single_remove_role w k r :
  single_items (remove_role w k r) ≡ₚ
  keep (fun i => at_key k i && matching (attributes_ r) i) (single_items w).
Proof.
  unfold remove_role. destruct (roles_ w !! k) as [found|] eqn:Ek.
  - destruct (Match found (attributes_ r)) eqn:Em; simpl.
    + apply iter_filter. intros k' x. unfold at_key, matching. simpl.
      rewrite lookup_delete_Some, andb_false_iff, bool_decide_eq_false.
      split; [intros [? ?]; split; [done|left; congruence]|].
      intros [Hx [Hne|Hm]]; (split; [|done]); [congruence|]. intros <-. congruence.
    + rewrite keep_none; [done|]. intros [k' x] Hx. apply elem_of_iter in Hx. unfold at_key, matching. simpl.
      case_bool_decide; by simplify_eq/=.
  - rewrite keep_none; [done|]. intros [k' x] Hx. apply elem_of_iter in Hx. unfold at_key. simpl.
    case_bool_decide; by simplify_eq/=.
Qed.

Lemma single_remove_attr w ta : single_items (remove_attr w ta) ≡ₚ keep (matching ta) (single_items w).
Proof.
  apply iter_filter. unfold remove_attr. simpl.
  assert (forall k r, foldl (fun m i => if Match i.2 ta then delete i.1 m else m) (roles_ w) (iter (roles_ w)) !! k = Some r <->
    roles_ w !! k = Some r /\ ((roles_ w !! k = None) \/ Match r ta = false)) as HG.
  { apply (foldl_iter_ind (roles_ w) _ (fun m0 m => forall k r, m !! k = Some r <->
      roles_ w !! k = Some r /\ (m0 !! k = None \/ Match r ta = false))).
    - intros k r. rewrite lookup_empty. naive_solver.
    - intros m0 c k x Hsub Hk Hx IH k' r. simpl. destruct (decide (k = k')) as [<-|Hne].
      + rewrite lookup_insert_eq. destruct (Match x ta) eqn:Em.
        * rewrite lookup_delete_eq. split; [done|]. intros [? [?|?]]; congruence.
        * rewrite IH. split; (intros [E _]; split; [done|right; congruence]).
      + rewrite lookup_insert_ne by done. destruct (Match x ta); [rewrite lookup_delete_ne by done|]; apply IH. }
  intros k r. rewrite HG. unfold matching. simpl. split; intros [E Ho]; (split; [done|]); [|by right].
  destruct Ho; [congruence|done].
Qed.

#[export, refine] Instance single_warehouse : Warehouse t := { multi := false; items := single_items }.
Proof.
  - apply iter_empty.
  - intros w k r ign Hk. simpl. unfold add.
    assert (negb ign && bool_decide (is_Some (roles_ w !! k)) = false) as ->.
    { destruct Hk as [->|Hk]; [done|]. rewrite single_keys in Hk. rewrite andb_false_iff, bool_decide_eq_false. by right. }
    split; [done|]. apply single_insert.
  - intros w k r Hk. simpl. unfold add. apply single_keys in Hk. by rewrite bool_decide_eq_true_2.
  - intros w. apply iter_empty.
  - intros w. symmetry. apply length_iter.
  - intros w k. apply single_delete.
  - apply single_remove_role.
  - apply single_remove_attr.
  - intros w k. simpl. unfold search_key_role. destruct (roles_ w !! k) as [r|] eqn:Ek.
    + by apply elem_of_iter.
    + rewrite single_keys, Ek. by intros [].
  - intros w k out. exists (select (at_key k) (single_items w)). split; [done|].
    rewrite single_at_key. simpl. unfold search_key_roles, search_key_attrs, search_key_role.
    destruct (roles_ w !! k); simpl; [done|]. split; [by rewrite app_nil_r|]. intros out'. by rewrite app_nil_r.
  - intros w ta. apply first_match_spec.
  - intros w ta out. exists (select (matching ta) (single_items w)). split; [done|].
    simpl. unfold search_attr_roles, search_attr_attrs.
    split; [|intros out']; rewrite collect_spec, nonempty_select; [|done]. by rewrite list_fmap_id.
  - intros w out. exists (single_items w).*2. split; [done|]. simpl. unfold get_all_roles, get_all_attrs.
    split; [|intros out'; by rewrite append_spec].
    rewrite (append_spec (fun r => r)). by rewrite list_fmap_id.
Defined.
End single.

Section multi_value.
Context `{HashOrder}.
Import MultiValueWarehouse.

#[export] Instance multi_ops : WarehouseOps t := {
  NewWarehouse := mk []; Add := add; Clear := clear; Size := size_;
  RemoveKey := remove_key; RemoveRole := remove_role; RemoveAttr := remove_attr;
  SearchKeyRole := find_key; SearchKeyRoles := search_key_roles;
  SearchKeyAttrs := search_key_attrs; SearchAttrRole := search_attr_role;
  SearchAttrRoles := search_attr_roles; SearchAttrAttrs := search_attr_attrs;
  GetAllRoles := get_all_roles; GetAllAttrs := get_all_attrs
}.

Lemma find_key_spec w k :
  match find_key w k with Some r => (k, r) ∈ roles_ w | None => k ∉ (roles_ w).*1 end.
Proof.
  unfold find_key. destruct (select (at_key k) (roles_ w)) as [|r l] eqn:E; simpl.
  - intros Hk. apply elem_of_keys in Hk as [r Hr].
    assert (r ∈ select (at_key k) (roles_ w)) as Hs by (apply elem_of_select; exists k; split; [done|by apply at_key_true]).
    rewrite E in Hs. by apply not_elem_of_nil in Hs.
  - assert (r ∈ select (at_key k) (roles_ w)) as Hs by (rewrite E; by left).
    apply elem_of_select in Hs as (k' & Hr & Hk). apply at_key_true in Hk. simpl in Hk. by subst.
Qed.

#[export, refine] Instance multi_warehouse : Warehouse t := { multi := true; items := roles_ }.
Proof.
  - done.
  - intros w k r ign Hk. simpl. unfold add.
    assert (negb ign && bool_decide (is_Some (find_key w k)) = false) as ->.
    { destruct Hk as [->|Hk]; [done|]. rewrite andb_false_iff, bool_decide_eq_false. right.
      intros [x Hx]. pose proof (find_key_spec w k) as Hs. rewrite Hx in Hs. apply Hk, elem_of_keys. eauto. }
    split; [done|]. apply place_perm.
  - intros w k r Hk. simpl. unfold add. pose proof (find_key_spec w k) as Hs.
    destruct (find_key w k); [|done]. by rewrite bool_decide_eq_true_2.
  - done.
  - done.
  - done.
  - done.
  - done.
  - apply find_key_spec.
  - intros w k out. exists (select (at_key k) (roles_ w)). split; [done|].
    simpl. unfold search_key_roles, search_key_attrs, equal_range.
    split; [|intros out']; rewrite collect_spec, filter_true, nonempty_select; [|done]. by rewrite list_fmap_id.
  - intros w ta. apply first_match_spec.
  - intros w ta out. exists (select (matching ta) (roles_ w)). split; [done|].
    simpl. unfold search_attr_roles, search_attr_attrs.
    split; [|intros out']; rewrite collect_spec, nonempty_select; [|done]. by rewrite list_fmap_id.
  - intros w out. exists (roles_ w).*2. split; [done|]. simpl. unfold get_all_roles, get_all_attrs.
    split; [|intros out'; by rewrite append_spec].
    rewrite (append_spec (fun r => r)). by rewrite list_fmap_id.
Defined.
End multi_value.

Lemma single_keeps_one `{HashOrder} : multi (W := SingleValueWarehouse.t) = false.
Proof. reflexivity. Qed.
Lemma multi_keeps_all `{HashOrder} : multi (W := MultiValueWarehouse.t) = true.
Proof. reflexivity. Qed.

(** ** Abstract specification

    A warehouse is a multiset of items; [spec_op] is what each mutating call
    does to it. *)
Inductive WOp :=
| OAdd (key : Z) (role : Role) (ignore_if_exist : bool)
| OClear
| ORemoveKey (key : Z)
| ORemoveRole (key : Z) (role : Role)
| ORemoveAttr (target : RoleAttributes).

Definition run_op {W} `{WarehouseOps W} (w : W) (o : WOp) : W :=
  match o with
  | OAdd k r ign => (Add w k r ign).2
  | OClear => Clear w
  | ORemoveKey k => RemoveKey w k
  | ORemoveRole k r => RemoveRole w k r
  | ORemoveAttr t => RemoveAttr w t
  end.

Definition spec_op (multi : bool) (s : list (Z * Role)) (o : WOp) : list (Z * Role) :=
  match o with
  | OAdd k r ign =>
      if negb ign && bool_decide (k ∈ s.*1) then s
      else (k, r) :: (if multi then s else keep (at_key k) s)
  | OClear => []
  | ORemoveKey k => keep (at_key k) s
  | ORemoveRole k r => keep (fun i => at_key k i && matching (attributes_ r) i) s
  | ORemoveAttr t => keep (matching t) s
  end.

#[export] Instance spec_op_perm m : Proper (Permutation ==> eq ==> Permutation) (spec_op m).
Proof.
  intros s s' Hs o _ <-. destruct o as [k r ign| | | |]; simpl; try by rewrite ?Hs.
  assert (bool_decide (k ∈ s.*1) = bool_decide (k ∈ s'.*1)) as ->
    by (apply bool_decide_ext; by rewrite Hs).
  destruct (_ && _); [done|]. constructor. destruct m; [done|by rewrite Hs].
Qed.

Section refinement.
Context {W : Type} `{Warehouse W}.

Lemma run_op_spec (w : W) o : items (run_op w o) ≡ₚ spec_op multi (items w) o.
Proof.
  destruct o as [k r ign| | | |]; simpl.
  - destruct (decide (k ∈ (items w).*1)) as [Hk|Hk].
    + rewrite (bool_decide_eq_true_2 _ Hk), andb_true_r. destruct ign; simpl.
      * by apply items_add; left.
      * by rewrite items_add_refused.
    + rewrite (bool_decide_eq_false_2 _ Hk), andb_false_r. by apply items_add; right.
  - by rewrite items_clear.
  - apply items_remove_key.
  - apply items_remove_role.
  - apply items_remove_attr.
Qed.

Lemma run_ops_spec (w : W) ops s :
  items w ≡ₚ s -> items (foldl run_op w ops) ≡ₚ foldl (spec_op multi) s ops.
Proof.
  revert w s. induction ops as [|o ops IH]; intros w s Hs; simpl; [done|].
  apply IH. by rewrite run_op_spec, Hs.
Qed.

(** What a query returns, in terms of the specification. *)
Definition answers (w : W) (s : list (Z * Role)) : Prop :=
  Size w = length s /\
  (forall k, SearchKey w k = bool_decide (k ∈ s.*1)) /\
  (forall k out, exists found, found ≡ₚ select (at_key k) s /\
     SearchKeyAttrs w k out = (bool_decide (found <> []), out ++ (attributes_ <$> found))) /\
  (forall t out, exists found, found ≡ₚ select (matching t) s /\
     SearchAttrAttrs w t out = (bool_decide (found <> []), out ++ (attributes_ <$> found))) /\
  (forall out, exists found, found ≡ₚ s.*2 /\ GetAllAttrs w out = out ++ (attributes_ <$> found)).

Lemma SearchKey_spec w k : SearchKey w k = bool_decide (k ∈ (items w).*1).
Proof.
  unfold SearchKey. pose proof (items_search_key w k) as Hk. destruct (SearchKeyRole w k) as [r|].
  - symmetry. apply bool_decide_eq_true_2, elem_of_keys. eauto.
  - symmetry. by apply bool_decide_eq_false_2.
Qed.

Lemma items_answer w s : items w ≡ₚ s -> answers w s.
Proof.
  intros Hs. repeat split.
  - by rewrite items_size, Hs.
  - intros k. rewrite SearchKey_spec. apply bool_decide_ext. by rewrite Hs.
  - intros k out. destruct (items_search_key_roles w k []) as (found & Hf & _ & Ha).
    exists found. split; [by rewrite Hf, Hs|done].
  - intros t out. destruct (items_search_attr_roles w t []) as (found & Hf & _ & Ha).
    exists found. split; [by rewrite Hf, Hs|done].
  - intros out. destruct (items_all w []) as (found & Hf & _ & Ha). exists found. split; [by rewrite Hf, Hs|done].
Qed.
End refinement.

(** Both warehouses implement the multiset specification: after any
    sequence of mutating calls from the empty container, with any hash order,
    every query answers as the specification's state says; Single replaces the
    role of a key and so never has two, Multi accumulates. *)
Theorem warehouses_refine_spec `{HashOrder} ops :
  answers (foldl run_op NewWarehouse ops : SingleValueWarehouse.t) (foldl (spec_op false) [] ops) /\
  answers (foldl run_op NewWarehouse ops : MultiValueWarehouse.t) (foldl (spec_op true) [] ops).
Proof.
  split; apply items_answer.
  - change false with (multi (W := SingleValueWarehouse.t)). apply run_ops_spec. by rewrite items_new.
  - change true with (multi (W := MultiValueWarehouse.t)). apply run_ops_spec. by rewrite items_new.
Qed.
