(* ===== verification/Graph.v ===== *)
(** Graph.v -- src/src/apollo/cyber/service_discovery/container/graph.{h,cc}

    The graph of nodes (vertices) connected by channels (edge values).  An edge
    given to Insert or Delete is usually half of one: a writer joins with a
    source only, a reader with a destination only.  [edges_] records the halves
    per channel, [list_] the adjacency list of the complete edges, which
    GetDirectionOf searches breadth first.

    The specification keeps the two sets of halves; a complete edge is a pair of
    halves on one channel.  LevelTraverse runs on fuel; one more than the number
    of edges plus the start vertex is enough ([traverse_total]). *)

From S2P Require Import Prelude.
From S2P Require Import Unordered.

(** class Vertice *)
Record Vertice := mkVertice { value_ : string }.

#[export] Instance Vertice_eq_dec : EqDecision Vertice.
Proof. solve_decision. Defined.

Definition Vertice_IsDummy (v : Vertice) : bool := bool_decide (value_ v = ""%string).
Definition Vertice_GetKey (v : Vertice) : string := value_ v.

(** class Edge *)
Record Edge := mkEdge { src : Vertice; dst : Vertice; value : string }.

Definition edge_key (val : string) (d : Vertice) : string := (val +:+ "_" +:+ Vertice_GetKey d)%string.
Definition Edge_GetKey (e : Edge) : string := edge_key (value e) (dst e).

Definition Edge_IsValid (e : Edge) : bool :=
  if bool_decide (value e = ""%string) then false
  else if Vertice_IsDummy (src e) && Vertice_IsDummy (dst e) then false
  else true.

Inductive FlowDirection := UNREACHABLE | UPSTREAM | DOWNSTREAM.

(** class Graph *)
Notation VerticeSet := (gmap string Vertice).
Record RelatedVertices := mkRelated { rsrc : VerticeSet; rdst : VerticeSet }.
Record Graph := mkGraph {
  edges_ : gmap string RelatedVertices;
  list_ : gmap string VerticeSet
}.

Definition NewGraph : Graph := mkGraph ∅ ∅.

Section graph.
Context `{HashOrder}.

(** edges_[e_v] and list_[k]: operator[] creates an empty entry. *)
Definition related (g : Graph) (e_v : string) : RelatedVertices :=
  default (mkRelated ∅ ∅) (edges_ g !! e_v).
Definition row (l : gmap string VerticeSet) (k : string) : VerticeSet := default ∅ (l !! k).

(** if (list_.find(k) == list_.end()) list_[k] = VerticeSet(); *)
Definition ensure_row (l : gmap string VerticeSet) (k : string) : gmap string VerticeSet :=
  match l !! k with None => <[k := ∅]> l | Some _ => l end.

Definition InsertCompleteEdge (g : Graph) (e : Edge) : Graph :=
  let src_v_k := Vertice_GetKey (src e) in
  let l := ensure_row (list_ g) src_v_k in
  let dst_v_k := Vertice_GetKey (dst e) in
  let l := ensure_row l dst_v_k in
  mkGraph (edges_ g) (<[src_v_k := <[Edge_GetKey e := dst e]> (row l src_v_k)]> l).

Definition InsertOutgoingEdge (g : Graph) (e : Edge) : Graph :=
  let e_v := value e in
  let r := related g e_v in
  let v_k := Vertice_GetKey (src e) in
  match rsrc r !! v_k with
  | Some _ => g
  | None =>
      let r := mkRelated (<[v_k := src e]> (rsrc r)) (rdst r) in
      let g := mkGraph (<[e_v := r]> (edges_ g)) (list_ g) in
      foldl (fun g item => InsertCompleteEdge g (mkEdge (src e) (snd item) e_v)) g (iter (rdst r))
  end.

Definition InsertIncomingEdge (g : Graph) (e : Edge) : Graph :=
  let e_v := value e in
  let r := related g e_v in
  let v_k := Vertice_GetKey (dst e) in
  match rdst r !! v_k with
  | Some _ => g
  | None =>
      let r := mkRelated (rsrc r) (<[v_k := dst e]> (rdst r)) in
      let g := mkGraph (<[e_v := r]> (edges_ g)) (list_ g) in
      foldl (fun g item => InsertCompleteEdge g (mkEdge (snd item) (dst e) e_v)) g (iter (rsrc r))
  end.

Definition Insert (g : Graph) (e : Edge) : Graph :=
  if negb (Edge_IsValid e) then g
  else
    let e_v := value e in
    let g := match edges_ g !! e_v with
             | None => mkGraph (<[e_v := mkRelated ∅ ∅]> (edges_ g)) (list_ g)
             | Some _ => g
             end in
    let g := if negb (Vertice_IsDummy (src e)) then InsertOutgoingEdge g e else g in
    if negb (Vertice_IsDummy (dst e)) then InsertIncomingEdge g e else g.

Definition DeleteCompleteEdge (g : Graph) (e : Edge) : Graph :=
  let src_v_k := Vertice_GetKey (src e) in
  mkGraph (edges_ g) (<[src_v_k := delete (Edge_GetKey e) (row (list_ g) src_v_k)]> (list_ g)).

Definition DeleteOutgoingEdge (g : Graph) (e : Edge) : Graph :=
  let e_v := value e in
  let r := related g e_v in
  let v_k := Vertice_GetKey (src e) in
  match rsrc r !! v_k with
  | None => g
  | Some _ =>
      let r := mkRelated (delete v_k (rsrc r)) (rdst r) in
      let g := mkGraph (<[e_v := r]> (edges_ g)) (list_ g) in
      foldl (fun g item => DeleteCompleteEdge g (mkEdge (src e) (snd item) e_v)) g (iter (rdst r))
  end.

Definition DeleteIncomingEdge (g : Graph) (e : Edge) : Graph :=
  let e_v := value e in
  let r := related g e_v in
  let v_k := Vertice_GetKey (dst e) in
  match rdst r !! v_k with
  | None => g
  | Some _ =>
      let r := mkRelated (rsrc r) (delete v_k (rdst r)) in
      let g := mkGraph (<[e_v := r]> (edges_ g)) (list_ g) in
      foldl (fun g item => DeleteCompleteEdge g (mkEdge (snd item) (dst e) e_v)) g (iter (rsrc r))
  end.

Definition Delete (g : Graph) (e : Edge) : Graph :=
  if negb (Edge_IsValid e) then g
  else match edges_ g !! value e with
  | None => g
  | Some _ =>
      let g := if negb (Vertice_IsDummy (src e)) then DeleteOutgoingEdge g e else g in
      if negb (Vertice_IsDummy (dst e)) then DeleteIncomingEdge g e else g
  end.

Definition num_edges (l : gmap string VerticeSet) : nat :=
  map_fold (fun _ s n => (size s + n)%nat) 0%nat l.

Definition GetNumOfEdge (g : Graph) : Z :=
  foldl (fun num item => u32 (num + i32 (Z.of_nat (size (snd item))))) 0%Z (iter (list_ g)).

(** The while loop of LevelTraverse.  [list_[curr.GetKey()]] is an operator[] on
    the member, so the adjacency list is part of the state. *)
Fixpoint traverse (fuel : nat) (end_ : Vertice) (l : gmap string VerticeSet)
    (visited : gmap string bool) (unvisited : list Vertice)
    : option (gmap string bool * gmap string VerticeSet) :=
  match fuel with
  | O => None
  | S fuel =>
      match unvisited with
      | [] => Some (visited, l)
      | curr :: unvisited =>
          let k := Vertice_GetKey curr in
          if default false (visited !! k) then traverse fuel end_ l visited unvisited
          else
            let visited := <[k := true]> visited in
            if bool_decide (curr = end_) then Some (visited, l)
            else
              let l := <[k := row l k]> l in
              traverse fuel end_ l visited (unvisited ++ (iter (row l k)).*2)
      end
  end.

Definition LevelTraverse (g : Graph) (start end_ : Vertice) : option (bool * Graph) :=
  let visited := {[ Vertice_GetKey end_ := false ]} in
  match traverse (S (S (num_edges (list_ g)))) end_ (list_ g) visited [start] with
  | None => None
  | Some (visited, l) => Some (default false (visited !! Vertice_GetKey end_), mkGraph (edges_ g) l)
  end.

Definition GetDirectionOf (g : Graph) (lhs rhs : Vertice) : option (FlowDirection * Graph) :=
  if Vertice_IsDummy lhs || Vertice_IsDummy rhs then Some (UNREACHABLE, g)
  else match list_ g !! Vertice_GetKey lhs, list_ g !! Vertice_GetKey rhs with
  | Some _, Some _ =>
      match LevelTraverse g lhs rhs with
      | Some (true, g) => Some (UPSTREAM, g)
      | Some (false, g) =>
          match LevelTraverse g rhs lhs with
          | Some (true, g) => Some (DOWNSTREAM, g)
          | Some (false, g) => Some (UNREACHABLE, g)
          | None => None
          end
      | None => None
      end
  | _, _ => Some (UNREACHABLE, g)
  end.

(** ** Complete edges *)

(** The entry of the adjacency list for vertex [s] under key [x]. *)
Definition adj (g : Graph) (s x : string) : option Vertice := row (list_ g) s !! x.

(** Every vertex that appears in a row has a row. *)
Definition closed (g : Graph) : Prop :=
  forall s x y, adj g s x = Some y -> is_Some (list_ g !! value_ y).

Lemma edge_key_inj val a b : edge_key val a = edge_key val b -> a = b.
Proof.
  unfold edge_key, Vertice_GetKey. intros E. destruct a as [a], b as [b]. simpl in E. f_equal.
  apply (inj (String.append val)) in E. by apply (inj (String.append "_")) in E.
Qed.

Lemma lookup_ensure_row l k k' : row (ensure_row l k) k' = row l k'.
Proof.
  unfold ensure_row, row. destruct (l !! k) eqn:E; [done|].
  destruct (decide (k = k')) as [<-|]; [by rewrite lookup_insert_eq, E|by rewrite lookup_insert_ne].
Qed.

Lemma ensure_row_dom l k k' : is_Some (ensure_row l k !! k') <-> is_Some (l !! k') \/ k = k'.
Proof.
  unfold ensure_row. destruct (l !! k) eqn:E.
  - split; [by left|]. intros [|<-]; [done|by rewrite E].
  - rewrite lookup_insert_is_Some. destruct (decide (k = k')); naive_solver.
Qed.

Lemma row_insert l k s k' : row (<[k := s]> l) k' = if decide (k = k') then s else row l k'.
Proof.
  unfold row. destruct (decide _) as [<-|]; [by rewrite lookup_insert_eq|by rewrite lookup_insert_ne].
Qed.

Lemma adj_InsertComplete g e s x :
  adj (InsertCompleteEdge g e) s x =
  if decide (value_ (src e) = s /\ Edge_GetKey e = x) then Some (dst e) else adj g s x.
Proof.
  unfold adj, InsertCompleteEdge. simpl. rewrite row_insert, !lookup_ensure_row. unfold Vertice_GetKey.
  destruct (decide (value_ (src e) = s)) as [<-|Hs]; rewrite ?lookup_ensure_row;
    [|by rewrite decide_False by tauto].
  destruct (decide (Edge_GetKey e = x)) as [<-|Hx].
  - rewrite lookup_insert_eq. by rewrite decide_True.
  - rewrite lookup_insert_ne by done. by rewrite decide_False by tauto.
Qed.

Lemma adj_DeleteComplete g e s x :
  adj (DeleteCompleteEdge g e) s x =
  if decide (value_ (src e) = s /\ Edge_GetKey e = x) then None else adj g s x.
Proof.
  unfold adj, DeleteCompleteEdge. simpl. rewrite row_insert. unfold Vertice_GetKey.
  destruct (decide (value_ (src e) = s)) as [<-|Hs]; [|by rewrite decide_False by tauto].
  destruct (decide (Edge_GetKey e = x)) as [<-|Hx].
  - rewrite lookup_delete_eq. by rewrite decide_True.
  - rewrite lookup_delete_ne by done. by rewrite decide_False by tauto.
Qed.

(** The loops insert or delete a list of complete edges. *)
Lemma foldl_map {A B C} (f : B -> C -> B) (h : A -> C) l b :
  foldl (fun b a => f b (h a)) b l = foldl f b (h <$> l).
Proof. revert b. induction l; intros b; simpl; auto. Qed.

Lemma edges_insert_all es g : edges_ (foldl InsertCompleteEdge g es) = edges_ g.
Proof. revert g. induction es as [|e es IH]; intros g; simpl; [done|by rewrite IH]. Qed.

Lemma edges_delete_all es g : edges_ (foldl DeleteCompleteEdge g es) = edges_ g.
Proof. revert g. induction es as [|e es IH]; intros g; simpl; [done|by rewrite IH]. Qed.

Lemma rows_insert_all es g k :
  is_Some (list_ (foldl InsertCompleteEdge g es) !! k) <->
  is_Some (list_ g !! k) \/ exists e, e ∈ es /\ (value_ (src e) = k \/ value_ (dst e) = k).
Proof.
  revert g. induction es as [|e es IH]; intros g; simpl.
  - split; [by left|]. intros [|(e & He & _)]; [done|by apply not_elem_of_nil in He].
  - rewrite IH. unfold InsertCompleteEdge. simpl.
    rewrite lookup_insert_is_Some, !ensure_row_dom. unfold Vertice_GetKey. setoid_rewrite elem_of_cons. split.
    + intros [[?|[? [[?|?]|?]]]|(e' & ? & ?)]; eauto 10.
    + intros [?|(e' & [->|?] & [?|?])]; eauto 10; left;
        destruct (decide (value_ (src e) = k)); eauto 10.
Qed.

Lemma rows_delete_all es g k :
  is_Some (list_ g !! k) -> is_Some (list_ (foldl DeleteCompleteEdge g es) !! k).
Proof.
  revert g. induction es as [|e es IH]; intros g Hk; simpl; [done|]. apply IH. simpl.
  rewrite lookup_insert_is_Some. destruct (decide (Vertice_GetKey (src e) = k)); auto.
Qed.

Lemma adj_insert_all es g s x y :
  (forall e e', e ∈ es -> e' ∈ es -> Edge_GetKey e = Edge_GetKey e' -> dst e = dst e') ->
  (forall e y', e ∈ es -> adj g (value_ (src e)) (Edge_GetKey e) = Some y' -> y' = dst e) ->
  adj (foldl InsertCompleteEdge g es) s x = Some y <->
  adj g s x = Some y \/ exists e, e ∈ es /\ value_ (src e) = s /\ Edge_GetKey e = x /\ dst e = y.
Proof.
  revert g. induction es as [|e es IH]; intros g Hinj Hcomp; simpl.
  - split; [by left|]. intros [|(e & He & _)]; [done|by apply not_elem_of_nil in He].
  - rewrite IH; clear IH.
    + rewrite adj_InsertComplete. setoid_rewrite elem_of_cons.
      destruct (decide _) as [[Hs Hx]|Hn]; [|naive_solver]. split; [naive_solver|].
      intros [Ha|(e' & [->|He'] & ?)]; [|naive_solver|naive_solver].
      subst. rewrite (Hcomp e y) by (done || by left). by left.
    + intros a b Ha Hb. apply Hinj; by right.
    + intros a y' Ha. rewrite adj_InsertComplete. destruct (decide _) as [[_ Hx]|_].
      * intros [= <-]. apply Hinj; [by left|by right|done].
      * intros. apply Hcomp; [by right|done].
Qed.

Lemma adj_delete_all es g s x y :
  adj (foldl DeleteCompleteEdge g es) s x = Some y <->
  adj g s x = Some y /\ ~ exists e, e ∈ es /\ value_ (src e) = s /\ Edge_GetKey e = x.
Proof.
  revert g. induction es as [|e es IH]; intros g; simpl.
  - split; [|by intros []]. intros Ha. split; [done|]. intros (e & He & _). by apply not_elem_of_nil in He.
  - rewrite IH, adj_DeleteComplete. setoid_rewrite elem_of_cons. destruct (decide _) as [[Hs Hx]|Hn].
    + split; [by intros []|]. intros [_ Hno]. exfalso. apply Hno. exists e. auto.
    + split; intros [Ha Hno]; (split; [done|]); intros (e' & He' & Hs & Hx); apply Hno; [|by eauto].
      destruct He' as [->|He']; [by exfalso; apply Hn|by eauto].
Qed.

(** ** The specification: the halves of edges

    [outs]: (channel, source) pairs, [ins]: (channel, destination) pairs. *)
Record Halves := mkHalves { outs : gset (string * string); ins : gset (string * string) }.

Definition spec_Insert (a : Halves) (e : Edge) : Halves :=
  if negb (Edge_IsValid e) then a
  else mkHalves
    (if negb (Vertice_IsDummy (src e)) then {[(value e, value_ (src e))]} ∪ outs a else outs a)
    (if negb (Vertice_IsDummy (dst e)) then {[(value e, value_ (dst e))]} ∪ ins a else ins a).

Definition spec_Delete (a : Halves) (e : Edge) : Halves :=
  if negb (Edge_IsValid e) then a
  else mkHalves
    (if negb (Vertice_IsDummy (src e)) then outs a ∖ {[(value e, value_ (src e))]} else outs a)
    (if negb (Vertice_IsDummy (dst e)) then ins a ∖ {[(value e, value_ (dst e))]} else ins a).

(** The complete edges: a source and a destination on one channel. *)
Definition spec_edge (a : Halves) (s d : string) : Prop := exists v, (v, s) ∈ outs a /\ (v, d) ∈ ins a.

(** No two (channel, destination) pairs have the same key "channel_destination". *)
Definition keys_distinct (p : gset (string * string)) : Prop :=
  forall v d v' d', (v, d) ∈ p -> (v', d') ∈ p ->
    edge_key v (mkVertice d) = edge_key v' (mkVertice d') -> v = v' /\ d = d'.

Record rep (g : Graph) (a : Halves) : Prop := mkRep {
  rp_src : forall v s y, rsrc (related g v) !! s = Some y <-> (v, s) ∈ outs a /\ y = mkVertice s;
  rp_dst : forall v d y, rdst (related g v) !! d = Some y <-> (v, d) ∈ ins a /\ y = mkVertice d;
  rp_adj : forall s x y, adj g s x = Some y <->
    exists v, (v, s) ∈ outs a /\ (v, value_ y) ∈ ins a /\ x = edge_key v y;
  rp_rows : forall v s d, (v, s) ∈ outs a -> (v, d) ∈ ins a ->
    is_Some (list_ g !! s) /\ is_Some (list_ g !! d)
}.

Lemma rep_closed g a : rep g a -> closed g.
Proof. intros [] s x y Ha. apply rp_adj0 in Ha as (v & Hs & Hd & _). by eapply rp_rows0. Qed.

Lemma rep_new : rep NewGraph (mkHalves ∅ ∅).
Proof.
  constructor; unfold related, adj, row; simpl.
  - intros v s y. rewrite !lookup_empty. simpl. rewrite lookup_empty. set_solver.
  - intros v s y. rewrite !lookup_empty. simpl. rewrite lookup_empty. set_solver.
  - intros s x y. rewrite lookup_empty. simpl. rewrite lookup_empty. set_solver.
  - set_solver.
Qed.

Lemma related_insert g v r l v' :
  related (mkGraph (<[v := r]> (edges_ g)) l) v' = if decide (v = v') then r else related g v'.
Proof.
  unfold related. simpl. destruct (decide _) as [<-|]; [by rewrite lookup_insert_eq|by rewrite lookup_insert_ne].
Qed.

Lemma related_edges g g' v : edges_ g' = edges_ g -> related g' v = related g v.
Proof. unfold related. by intros ->. Qed.

(** The edges the loops visit. *)
Lemma elem_of_fan {A} (m : VerticeSet) (f : Vertice -> A) x :
  x ∈ (fun item : string * Vertice => f (snd item)) <$> iter m <-> exists k y, m !! k = Some y /\ x = f y.
Proof.
  rewrite list_elem_of_fmap. split.
  - intros ([k y] & -> & Hy). apply elem_of_iter in Hy. eauto.
  - intros (k & y & Hy & ->). exists (k, y). split; [done|]. by apply elem_of_iter.
Qed.

(** [related] agrees with the halves. *)
Definition halves_ok (g : Graph) (a : Halves) : Prop :=
  (forall v s y, rsrc (related g v) !! s = Some y <-> (v, s) ∈ outs a /\ y = mkVertice s) /\
  (forall v d y, rdst (related g v) !! d = Some y <-> (v, d) ∈ ins a /\ y = mkVertice d).

Lemma halves_ok_edges g g' a : edges_ g' = edges_ g -> halves_ok g a -> halves_ok g' a.
Proof. unfold halves_ok, related. by intros ->. Qed.

Lemma rep_halves g a : rep g a -> halves_ok g a.
Proof. by intros []. Qed.

Definition complete (a : Halves) (e : Edge) : Prop :=
  (value e, value_ (src e)) ∈ outs a /\ (value e, value_ (dst e)) ∈ ins a.

(** Inserting the complete edges that are new in [a'] follows the halves. *)
Lemma rep_insert_all g g1 a a' es :
  rep g a -> keys_distinct (ins a') -> list_ g1 = list_ g -> halves_ok g1 a' ->
  (forall e, complete a e -> complete a' e) -> (forall e, e ∈ es -> complete a' e) ->
  (forall e, complete a' e -> complete a e \/ e ∈ es) ->
  rep (foldl InsertCompleteEdge g1 es) a'.
Proof.
  intros [_ _ Hadj Hrows] Hk El [Hsrc Hdst] Hmono Hes Hnew.
  assert (forall s x, adj g1 s x = adj g s x) as Ea by (intros; unfold adj; by rewrite El).
  destruct (halves_ok_edges g1 (foldl InsertCompleteEdge g1 es) a' (edges_insert_all _ _) (conj Hsrc Hdst)).
  constructor; [done|done|..].
  - intros s x y. rewrite adj_insert_all.
    + rewrite Ea, Hadj. split.
      * intros [(v & Ho & Hi & ->)|(e & He & <- & <- & <-)].
        -- exists v. by destruct (Hmono (mkEdge (mkVertice s) y v)).
        -- exists (value e). by destruct (Hes e He).
      * intros (v & Ho & Hi & ->). destruct (Hnew (mkEdge (mkVertice s) y v)) as [[? ?]|He]; [done|left; eauto|].
        right. by exists (mkEdge (mkVertice s) y v).
    + intros e e' He He' E. destruct (Hes e He) as [_ Hi], (Hes e' He') as [_ Hi'].
      destruct e as [? [d] v], e' as [? [d'] v']. destruct (Hk _ _ _ _ Hi Hi' E) as [_ Ed]. simpl in *. by rewrite Ed.
    + intros e z He Hz. rewrite Ea in Hz. apply Hadj in Hz as (v & Ho & Hi & E).
      destruct (Hmono (mkEdge (src e) z v)) as [_ Hi']; [done|]. destruct (Hes e He) as [_ Hi2].
      destruct e as [? [d] v2], z as [d']. destruct (Hk _ _ _ _ Hi2 Hi' E) as [_ Ed]. simpl in *. by rewrite Ed.
  - intros v s d Ho Hi. rewrite !rows_insert_all, El.
    destruct (Hnew (mkEdge (mkVertice s) (mkVertice d) v)) as [[Ho' Hi']|He]; [done| |].
    + destruct (Hrows _ _ _ Ho' Hi'). auto.
    + split; right; exists (mkEdge (mkVertice s) (mkVertice d) v); simpl; auto.
Qed.

(** Deleting the complete edges that are not in [a'] any more follows it. *)
Lemma rep_delete_all g g1 a a' es :
  rep g a -> keys_distinct (ins a) -> list_ g1 = list_ g -> halves_ok g1 a' ->
  (forall e, complete a' e -> complete a e) -> (forall e, e ∈ es -> complete a e /\ ~ complete a' e) ->
  (forall e, complete a e -> complete a' e \/ e ∈ es) ->
  rep (foldl DeleteCompleteEdge g1 es) a'.
Proof.
  intros [_ _ Hadj Hrows] Hk El [Hsrc Hdst] Hmono Hes Hold.
  assert (forall s x, adj g1 s x = adj g s x) as Ea by (intros; unfold adj; by rewrite El).
  destruct (halves_ok_edges g1 (foldl DeleteCompleteEdge g1 es) a' (edges_delete_all _ _) (conj Hsrc Hdst)).
  constructor; [done|done|..].
  - intros s x y. rewrite adj_delete_all, Ea, Hadj. split.
    + intros [(v & Ho & Hi & ->) Hno]. exists v.
      destruct (Hold (mkEdge (mkVertice s) y v)) as [[? ?]|He]; [done|done|].
      exfalso. apply Hno. by exists (mkEdge (mkVertice s) y v).
    + intros (v & Ho & Hi & ->). destruct (Hmono (mkEdge (mkVertice s) y v)) as [Ho' Hi']; [done|].
      split; [by eauto|]. intros (e & He & Es & E). destruct (Hes e He) as [[_ Hi2] Hn].
      destruct e as [[s2] [d2] v2], y as [d]. destruct (Hk _ _ _ _ Hi2 Hi' E) as [Ev Ed]. simpl in *.
      subst. by apply Hn.
  - intros v s d Ho Hi. destruct (Hmono (mkEdge (mkVertice s) (mkVertice d) v)) as [Ho' Hi']; [done|].
    destruct (Hrows _ _ _ Ho' Hi'). split; apply rows_delete_all; by rewrite El.
Qed.

Lemma complete_mk a s d v : complete a (mkEdge s d v) <-> (v, value_ s) ∈ outs a /\ (v, value_ d) ∈ ins a.
Proof. done. Qed.

Lemma Vertice_eta y : mkVertice (value_ y) = y.
Proof. by destruct y. Qed.

(** Each half-edge operation follows the halves. *)
Ltac halves Hsrc Hdst v :=
  split; intros v' ? ?; rewrite related_insert; destruct (decide (v = v')) as [<-|Hv]; simpl;
  rewrite ?lookup_insert_Some, ?lookup_delete_Some, ?Hsrc, ?Hdst; set_solver.

Lemma insert_out_rep g a e :
  rep g a -> keys_distinct (ins a) ->
  rep (InsertOutgoingEdge g e) (mkHalves ({[(value e, value_ (src e))]} ∪ outs a) (ins a)).
Proof.
  intros Hr Hk. destruct (rep_halves _ _ Hr) as [Hsrc Hdst].
  unfold InsertOutgoingEdge, Vertice_GetKey. destruct e as [[s] d0 v]. simpl.
  destruct (rsrc (related g v) !! s) as [y|] eqn:Es.
  { apply Hsrc in Es as [Hin _]. replace ({[(v, s)]} ∪ outs a) with (outs a) by set_solver. by destruct a. }
  rewrite (foldl_map InsertCompleteEdge (fun item : string * Vertice => mkEdge (mkVertice s) (snd item) v)).
  eapply (rep_insert_all g _ a); [done|done|done|halves Hsrc Hdst v|..]; intros [[s'] [d] v']; rewrite ?complete_mk; simpl.
  - set_solver.
  - rewrite (elem_of_fan _ (fun y => mkEdge (mkVertice s) y v)). intros (k & y & Hy & [= -> <- ->]).
    apply Hdst in Hy as [Hd [= ->]]. set_solver.
  - rewrite (elem_of_fan _ (fun y => mkEdge (mkVertice s) y v)). intros [Ho Hi].
    apply elem_of_union in Ho as [Ho|Ho]; [|by left]. apply elem_of_singleton in Ho as [= -> ->].
    right. exists d, (mkVertice d). split; [by apply Hdst|done].
Qed.

Lemma insert_in_rep g a e :
  rep g a -> keys_distinct ({[(value e, value_ (dst e))]} ∪ ins a) ->
  rep (InsertIncomingEdge g e) (mkHalves (outs a) ({[(value e, value_ (dst e))]} ∪ ins a)).
Proof.
  intros Hr Hk. destruct (rep_halves _ _ Hr) as [Hsrc Hdst].
  unfold InsertIncomingEdge, Vertice_GetKey. destruct e as [s0 [d] v]. simpl.
  destruct (rdst (related g v) !! d) as [y|] eqn:Es.
  { apply Hdst in Es as [Hin _]. replace ({[(v, d)]} ∪ ins a) with (ins a) by set_solver. by destruct a. }
  rewrite (foldl_map InsertCompleteEdge (fun item : string * Vertice => mkEdge (snd item) (mkVertice d) v)).
  eapply (rep_insert_all g _ a); [done|done|done|halves Hsrc Hdst v|..]; intros [[s] [d'] v']; rewrite ?complete_mk; simpl.
  - set_solver.
  - rewrite (elem_of_fan _ (fun y => mkEdge y (mkVertice d) v)). intros (k & y & Hy & [= <- -> ->]).
    apply Hsrc in Hy as [Hd [= ->]]. set_solver.
  - rewrite (elem_of_fan _ (fun y => mkEdge y (mkVertice d) v)). intros [Ho Hi].
    apply elem_of_union in Hi as [Hi|Hi]; [|by left]. apply elem_of_singleton in Hi as [= -> ->].
    right. exists s, (mkVertice s). split; [by apply Hsrc|done].
Qed.

Lemma delete_out_rep g a e :
  rep g a -> keys_distinct (ins a) ->
  rep (DeleteOutgoingEdge g e) (mkHalves (outs a ∖ {[(value e, value_ (src e))]}) (ins a)).
Proof.
  intros Hr Hk. destruct (rep_halves _ _ Hr) as [Hsrc Hdst].
  unfold DeleteOutgoingEdge, Vertice_GetKey. destruct e as [[s] d0 v]. simpl.
  destruct (rsrc (related g v) !! s) as [y0|] eqn:Es.
  2:{ assert ((v, s) ∉ outs a) by (intros Hin; by rewrite (proj2 (Hsrc v s (mkVertice s))) in Es).
      replace (outs a ∖ {[(v, s)]}) with (outs a) by set_solver. by destruct a. }
  apply Hsrc in Es as [Hs _].
  rewrite (foldl_map DeleteCompleteEdge (fun item : string * Vertice => mkEdge (mkVertice s) (snd item) v)).
  eapply (rep_delete_all g _ a); [done|done|done|halves Hsrc Hdst v|..]; intros [[s'] [d] v']; rewrite ?complete_mk; simpl.
  - set_solver.
  - rewrite (elem_of_fan _ (fun y => mkEdge (mkVertice s) y v)). intros (k & y & Hy & [= -> <- ->]).
    apply Hdst in Hy as [Hd [= ->]]. set_solver.
  - rewrite (elem_of_fan _ (fun y => mkEdge (mkVertice s) y v)). intros [Ho Hi].
    destruct (decide ((v', s') = (v, s))) as [[= -> ->]|Hne]; [|left; set_solver].
    right. exists d, (mkVertice d). split; [by apply Hdst|done].
Qed.

Lemma delete_in_rep g a e :
  rep g a -> keys_distinct (ins a) ->
  rep (DeleteIncomingEdge g e) (mkHalves (outs a) (ins a ∖ {[(value e, value_ (dst e))]})).
Proof.
  intros Hr Hk. destruct (rep_halves _ _ Hr) as [Hsrc Hdst].
  unfold DeleteIncomingEdge, Vertice_GetKey. destruct e as [s0 [d] v]. simpl.
  destruct (rdst (related g v) !! d) as [y0|] eqn:Es.
  2:{ assert ((v, d) ∉ ins a) by (intros Hin; by rewrite (proj2 (Hdst v d (mkVertice d))) in Es).
      replace (ins a ∖ {[(v, d)]}) with (ins a) by set_solver. by destruct a. }
  apply Hdst in Es as [Hd _].
  rewrite (foldl_map DeleteCompleteEdge (fun item : string * Vertice => mkEdge (snd item) (mkVertice d) v)).
  eapply (rep_delete_all g _ a); [done|done|done|halves Hsrc Hdst v|..]; intros [[s] [d'] v']; rewrite ?complete_mk; simpl.
  - set_solver.
  - rewrite (elem_of_fan _ (fun y => mkEdge y (mkVertice d) v)). intros (k & y & Hy & [= <- -> ->]).
    apply Hsrc in Hy as [Hs [= ->]]. set_solver.
  - rewrite (elem_of_fan _ (fun y => mkEdge y (mkVertice d) v)). intros [Ho Hi].
    destruct (decide ((v', d') = (v, d))) as [[= -> ->]|Hne]; [|left; set_solver].
    right. exists s, (mkVertice s). split; [by apply Hsrc|done].
Qed.

Lemma keys_distinct_mono p q : p ⊆ q -> keys_distinct q -> keys_distinct p.
Proof. intros Hpq Hq v d v' d' ? ?. apply Hq; set_solver. Qed.

Lemma rep_same g g' a : (forall v, related g' v = related g v) -> list_ g' = list_ g -> rep g a -> rep g' a.
Proof.
  intros Er El []. constructor; try (intros; rewrite Er; auto); unfold adj in *; by rewrite El.
Qed.

Lemma rep_Insert g a e :
  rep g a -> keys_distinct (ins (spec_Insert a e)) -> rep (Insert g e) (spec_Insert a e).
Proof.
  unfold Insert, spec_Insert. destruct (Edge_IsValid e); simpl; [|done]. intros Hr Hk.
  set (g0 := match edges_ g !! value e with Some _ => g | None => _ end).
  assert (rep g0 a) as Hr0.
  { subst g0. destruct (edges_ g !! value e) eqn:E; [done|]. apply (rep_same g); [|done|done].
    intros v. rewrite related_insert. destruct (decide (value e = v)) as [<-|]; [|done].
    unfold related. by rewrite E. }
  set (g1 := if negb (Vertice_IsDummy (src e)) then _ else _).
  set (o := if negb (Vertice_IsDummy (src e)) then _ else _) in Hk |- *.
  assert (rep g1 (mkHalves o (ins a))) as Hr1.
  { subst g1 o. destruct (Vertice_IsDummy (src e)); simpl; [by destruct a|].
    apply insert_out_rep; [done|]. eapply keys_distinct_mono; [|done]. destruct (negb _); set_solver. }
  destruct (Vertice_IsDummy (dst e)); simpl in *; [done|]. by apply (insert_in_rep g1 (mkHalves o (ins a))).
Qed.

Lemma rep_Delete g a e :
  rep g a -> keys_distinct (ins a) -> rep (Delete g e) (spec_Delete a e).
Proof.
  unfold Delete, spec_Delete. destruct (Edge_IsValid e); simpl; [|done]. intros Hr Hk.
  destruct (edges_ g !! value e) as [r|] eqn:E.
  - set (g1 := if negb (Vertice_IsDummy (src e)) then _ else _).
    set (o := if negb (Vertice_IsDummy (src e)) then _ else _).
    assert (rep g1 (mkHalves o (ins a))) as Hr1.
    { subst g1 o. destruct (Vertice_IsDummy (src e)); simpl; [by destruct a|]. by apply delete_out_rep. }
    destruct (Vertice_IsDummy (dst e)); simpl; [done|]. by apply (delete_in_rep g1 (mkHalves o (ins a))).
  - destruct (rep_halves _ _ Hr) as [Hsrc Hdst].
    assert (forall s, (value e, s) ∉ outs a) as Ho.
    { intros s Hs. pose proof (proj2 (Hsrc (value e) s (mkVertice s)) (conj Hs eq_refl)) as Hx.
      unfold related in Hx. rewrite E in Hx. simpl in Hx. by rewrite lookup_empty in Hx. }
    assert (forall s, (value e, s) ∉ ins a) as Hi.
    { intros s Hs. pose proof (proj2 (Hdst (value e) s (mkVertice s)) (conj Hs eq_refl)) as Hx.
      unfold related in Hx. rewrite E in Hx. simpl in Hx. by rewrite lookup_empty in Hx. }
    replace (outs a ∖ {[(value e, value_ (src e))]}) with (outs a) by set_solver.
    replace (ins a ∖ {[(value e, value_ (dst e))]}) with (ins a) by set_solver.
    destruct a as [o i]. by destruct (Vertice_IsDummy (src e)), (Vertice_IsDummy (dst e)).
Qed.

(** ** Sequences of operations *)

Inductive GOp := GInsert (e : Edge) | GDelete (e : Edge).
Definition run_gop (g : Graph) (o : GOp) : Graph :=
  match o with GInsert e => Insert g e | GDelete e => Delete g e end.
Definition spec_gop (a : Halves) (o : GOp) : Halves :=
  match o with GInsert e => spec_Insert a e | GDelete e => spec_Delete a e end.

(** The (channel, destination) pairs a history inserts. *)
Definition dests (ops : list GOp) : gset (string * string) :=
  foldr (fun o u => match o with GInsert e => {[(value e, value_ (dst e))]} ∪ u | GDelete _ => u end) ∅ ops.

Definition no_halves : Halves := mkHalves ∅ ∅.

Lemma spec_Delete_ins a e : ins (spec_Delete a e) ⊆ ins a.
Proof. unfold spec_Delete. destruct (negb (Edge_IsValid e)); [done|]. simpl. destruct (negb _); set_solver. Qed.

Lemma rep_ops ops g a :
  rep g a -> keys_distinct (ins a ∪ dests ops) -> rep (foldl run_gop g ops) (foldl spec_gop a ops).
Proof.
  revert g a. induction ops as [|[e|e] ops IH]; intros g a Hr Hk; simpl in *; [done|..].
  - assert (ins (spec_Insert a e) ⊆ {[(value e, value_ (dst e))]} ∪ ins a).
    { unfold spec_Insert. destruct (negb (Edge_IsValid e)); [set_solver|]. simpl. destruct (negb _); set_solver. }
    apply IH; [apply rep_Insert; [done|]|]; (eapply keys_distinct_mono; [|exact Hk]); set_solver.
  - pose proof (spec_Delete_ins a e).
    apply IH; [apply rep_Delete; [done|]|]; (eapply keys_distinct_mono; [|exact Hk]); set_solver.
Qed.

(** ** Breadth-first search *)

Definition edge (g : Graph) (s d : string) : Prop := exists x, adj g s x = Some (mkVertice d).

Lemma elem_of_row g k y : y ∈ (iter (row (list_ g) k)).*2 <-> edge g k (value_ y).
Proof. rewrite elem_of_iter_values. unfold edge, adj. by rewrite Vertice_eta. Qed.

(** The edges of the rows not visited yet. *)
Definition seen (visited : gmap string bool) (k : string) : bool := default false (visited !! k).
Definition pending (l : gmap string VerticeSet) (visited : gmap string bool) : gmap string VerticeSet :=
  filter (fun i => seen visited i.1 = false) l.

Lemma pending_visit l visited k :
  seen visited k = false -> pending l (<[k := true]> visited) = delete k (pending l visited).
Proof.
  intros Hk. apply map_eq. intros i. apply option_eq. intros s. unfold pending.
  rewrite lookup_delete_Some, !map_lookup_filter_Some. simpl. unfold seen.
  destruct (decide (k = i)) as [<-|Hne].
  - rewrite lookup_insert_eq. simpl. split; [by intros [? ?]|by intros []].
  - rewrite lookup_insert_ne by done. naive_solver.
Qed.

Lemma num_edges_delete (m : gmap string VerticeSet) k s :
  m !! k = Some s -> num_edges m = (size s + num_edges (delete k m))%nat.
Proof.
  intros Hk. unfold num_edges. apply (map_fold_delete_L (fun _ (s : VerticeSet) n => (size s + n)%nat) 0%nat k s m); [|done].
  intros. lia.
Qed.

(** The loop ends: what is queued and the edges of the rows still to be
    expanded bound the number of iterations. *)
Lemma num_edges_visit l visited k :
  seen visited k = false ->
  (num_edges (pending l visited) = size (row l k) + num_edges (pending l (<[k := true]> visited)))%nat.
Proof.
  intros Hk. rewrite pending_visit by done. unfold row.
  destruct (l !! k) as [s|] eqn:E; simpl.
  - apply num_edges_delete. unfold pending. by rewrite map_lookup_filter_Some.
  - rewrite map_size_empty. rewrite delete_id; [done|]. unfold pending. apply map_lookup_filter_None. by left.
Qed.

Lemma seen_visit visited k k' : seen (<[k := true]> visited) k' = true <-> k = k' \/ seen visited k' = true.
Proof.
  unfold seen. destruct (decide (k = k')) as [<-|]; [rewrite lookup_insert_eq|rewrite lookup_insert_ne by done];
    simpl; naive_solver.
Qed.

(** A visited vertex has its successors visited or queued. *)
Definition expanded (g : Graph) (visited : gmap string bool) (q : list Vertice) : Prop :=
  forall k d, seen visited k = true -> edge g k d -> seen visited d = true \/ mkVertice d ∈ q.

(** What the loop has when it ends: the end vertex, or everything. *)
Definition explored (g : Graph) (end_ : Vertice) (visited : gmap string bool) (q : list Vertice)
    (visited' : gmap string bool) : Prop :=
  seen visited' (value_ end_) = true \/
  (expanded g visited' [] /\ forall k, seen visited k = true \/ mkVertice k ∈ q -> seen visited' k = true).

Lemma traverse_total fuel g end_ visited q (P : string -> Prop) :
  closed g -> (forall y, y ∈ q -> is_Some (list_ g !! value_ y)) ->
  (length q + num_edges (pending (list_ g) visited) < fuel)%nat ->
  (forall s d, P s -> edge g s d -> P d) -> (forall k, seen visited k = true \/ mkVertice k ∈ q -> P k) ->
  expanded g visited q ->
  exists visited', traverse fuel end_ (list_ g) visited q = Some (visited', list_ g) /\
    (forall k, seen visited' k = true -> P k) /\ explored g end_ visited q visited'.
Proof.
  intros Hc Hrow Hf HP. revert visited q Hrow Hf.
  induction fuel as [|fuel IH]; intros visited q Hq Hf HV HE; [lia|].
  destruct q as [|curr q]; simpl.
  { exists visited. split; [done|]. split; [auto|]. right. split; [done|].
    intros k [|Hk]; [done|by apply not_elem_of_nil in Hk]. }
  fold (seen visited (Vertice_GetKey curr)). unfold Vertice_GetKey.
  destruct (seen visited (value_ curr)) eqn:Es.
  - destruct (IH visited q) as (v' & E & Hs & Hx).
    + set_solver.
    + simpl in Hf. lia.
    + intros k [Hk|Hk]; apply HV; set_solver.
    + intros k d Hk Hd. destruct (HE k d Hk Hd) as [|Hin]; [by left|].
      apply elem_of_cons in Hin as [<-|?]; [by left|by right].
    + exists v'. split; [done|]. split; [done|]. destruct Hx as [|[He Hall]]; [by left|right].
      split; [done|]. intros k [Hk|Hk]; [by auto|]. apply elem_of_cons in Hk as [<-|Hk]; auto.
  - destruct (bool_decide_reflect (curr = end_)) as [->|Hne].
    { exists (<[value_ end_ := true]> visited). split; [done|]. split.
      - intros k Hk. apply seen_visit in Hk as [<-|Hk]; apply HV; [right; rewrite Vertice_eta; by left|by left].
      - left. apply seen_visit. by left. }
    assert (is_Some (list_ g !! value_ curr)) as [r Hr] by (apply Hq; set_solver).
    assert (<[value_ curr := row (list_ g) (value_ curr)]> (list_ g) = list_ g) as ->
      by (apply insert_id; unfold row; by rewrite Hr).
    assert (P (value_ curr)) as HPc by (apply HV; right; rewrite Vertice_eta; by left).
    destruct (IH (<[value_ curr := true]> visited) (q ++ (iter (row (list_ g) (value_ curr))).*2))
      as (v' & E & Hs & Hx).
    + intros y Hy. apply elem_of_app in Hy as [Hy|Hy]; [apply Hq; set_solver|].
      apply elem_of_row in Hy as [x Hx]. by apply Hc in Hx.
    + rewrite length_app, length_fmap, length_iter. simpl in Hf.
      rewrite (num_edges_visit _ _ _ Es) in Hf. lia.
    + intros k [Hk|Hk].
      * apply seen_visit in Hk as [<-|Hk]; [done|by apply HV; left].
      * apply elem_of_app in Hk as [Hk|Hk]; [apply HV; right; by right|].
        apply elem_of_row in Hk. by apply (HP (value_ curr)).
    + intros k d Hk Hd. rewrite seen_visit, elem_of_app, elem_of_row.
      apply seen_visit in Hk as [<-|Hk]; [by right; right|].
      destruct (HE k d Hk Hd) as [|Hin]; [by left; right|].
      apply elem_of_cons in Hin as [<-|?]; [by left; left|by right; left].
    + exists v'. split; [done|]. split; [done|]. destruct Hx as [|[He Hall]]; [by left|right].
      split; [done|]. intros k Hk. apply Hall. rewrite seen_visit, elem_of_app.
      destruct Hk as [Hk|Hk]; [by left; right|]. apply elem_of_cons in Hk as [<-|Hk]; [by left; left|by right; left].
Qed.

Lemma num_edges_filter_le l visited : (num_edges (pending l visited) <= num_edges l)%nat.
Proof.
  unfold pending. induction l as [|k s l Hk IH] using map_ind; [by rewrite map_filter_empty|].
  rewrite (num_edges_delete (<[k := s]> l) k s) by apply lookup_insert_eq.
  rewrite delete_insert_id by done. destruct (decide (seen visited k = false)) as [E|E].
  - rewrite map_filter_insert_True by done.
    rewrite (num_edges_delete (<[k := s]> _) k s) by apply lookup_insert_eq.
    rewrite delete_insert_id; [lia|]. apply map_lookup_filter_None. by left.
  - rewrite map_filter_insert_False by done. rewrite delete_id by done. lia.
Qed.

Lemma LevelTraverse_spec g start end_ :
  closed g -> is_Some (list_ g !! value_ start) ->
  exists b, LevelTraverse g start end_ = Some (b, g) /\
    (b = true <-> rtc (edge g) (value_ start) (value_ end_)).
Proof.
  intros Hc Hrow. unfold LevelTraverse, Vertice_GetKey.
  assert (forall k, seen {[value_ end_ := false]} k = false) as Hs0.
  { intros k. unfold seen. destruct (decide (value_ end_ = k)) as [<-|].
    - by rewrite lookup_singleton_eq. - by rewrite lookup_singleton_ne. }
  destruct (traverse_total (S (S (num_edges (list_ g)))) g end_ {[value_ end_ := false]} [start]
              (rtc (edge g) (value_ start))) as (v' & E & Hsound & Hx).
  - done.
  - intros y Hy. apply list_elem_of_singleton in Hy as ->. done.
  - pose proof (num_edges_filter_le (list_ g) {[value_ end_ := false]}). simpl. lia.
  - intros s d Hs Hd. by eapply rtc_r.
  - intros k [Hk|Hk]; [by rewrite Hs0 in Hk|]. apply list_elem_of_singleton in Hk as <-. done.
  - intros k d Hk. by rewrite Hs0 in Hk.
  - rewrite E. fold (seen v' (value_ end_)). exists (seen v' (value_ end_)).
    split; [by destruct g|]. split; [apply Hsound|]. intros Hreach.
    destruct Hx as [|[He Hall]]; [done|].
    assert (forall a b, rtc (edge g) a b -> seen v' a = true -> seen v' b = true) as HR.
    { intros a b Hab. induction Hab as [|a c b Hac _ IH]; intros Ha; [done|].
      apply IH. destruct (He _ _ Ha Hac) as [|Hn]; [done|by apply not_elem_of_nil in Hn]. }
    apply (HR _ _ Hreach), Hall. right. rewrite Vertice_eta. by left.
Qed.

Lemma rep_edge g a s d : rep g a -> edge g s d <-> spec_edge a s d.
Proof.
  intros [_ _ Hadj _]. unfold edge, spec_edge. split.
  - intros [x Hx]. apply Hadj in Hx as (v & ? & ? & _). eauto.
  - intros (v & Ho & Hi). exists (edge_key v (mkVertice d)). apply Hadj. eauto.
Qed.

Lemma rep_reach g a s d : rep g a -> rtc (edge g) s d <-> rtc (spec_edge a) s d.
Proof.
  intros Hr. split; intros Hx; (induction Hx as [|x y z Hxy _ IH]; [done|]);
    (eapply rtc_l; [|done]); by apply (rep_edge g a).
Qed.
End graph.

(** ** What the graph promises *)

Section theorems.
Context `{HashOrder}.

Definition graph_of (ops : list GOp) : Graph := foldl run_gop NewGraph ops.
Definition halves_of (ops : list GOp) : Halves := foldl spec_gop no_halves ops.

Lemma graph_of_rep ops : keys_distinct (dests ops) -> rep (graph_of ops) (halves_of ops).
Proof.
  intros Hk. apply rep_ops; [apply rep_new|]. eapply keys_distinct_mono; [|done]. simpl. set_solver.
Qed.

(** Two different vertices with a path between them have rows. *)
Lemma reach_rows g a s d :
  rep g a -> rtc (spec_edge a) s d -> s <> d -> is_Some (list_ g !! s) /\ is_Some (list_ g !! d).
Proof.
  intros [_ _ _ Hrows] Hr Hne. split.
  - inversion Hr as [|? y ? (v & Ho & Hi) _]; subst; [done|]. apply (Hrows v s y Ho Hi).
  - apply rtc_inv_r in Hr as [->|(y & _ & v & Ho & Hi)]; [done|]. apply (Hrows v y d Ho Hi).
Qed.

(** C7. The adjacency list refines the halves: after any history of insertions
    and deletions in which no two (channel, destination) pairs share a key,
    vertex s has an edge to vertex d exactly when some channel has s as a source
    and d as a destination, whatever the order the halves came and went in. *)
Theorem graph_refines_halves ops s d :
  keys_distinct (dests ops) -> edge (graph_of ops) s d <-> spec_edge (halves_of ops) s d.
Proof. intros Hk. apply rep_edge. by apply graph_of_rep. Qed.

(** C6. After any history of insertions and deletions in which no two (channel,
    destination) pairs share a key, and for two different nodes whose names are not
    empty, GetDirectionOf returns (the search terminates), answers by reachability
    and leaves the graph as it is, which it must because it only holds the read
    lock: UPSTREAM when data flows from the left node to the right one, DOWNSTREAM
    when it flows only the other way, UNREACHABLE otherwise. *)
Theorem GetDirectionOf_spec ops l r :
  keys_distinct (dests ops) -> l <> ""%string -> r <> ""%string -> l <> r ->
  exists dir, GetDirectionOf (graph_of ops) (mkVertice l) (mkVertice r) = Some (dir, graph_of ops) /\
    match dir with
    | UPSTREAM => rtc (spec_edge (halves_of ops)) l r
    | DOWNSTREAM => ~ rtc (spec_edge (halves_of ops)) l r /\ rtc (spec_edge (halves_of ops)) r l
    | UNREACHABLE => ~ rtc (spec_edge (halves_of ops)) l r /\ ~ rtc (spec_edge (halves_of ops)) r l
    end.
Proof.
  intros Hk Hl Hr Hne. pose proof (graph_of_rep ops Hk) as Hrep.
  unfold GetDirectionOf, Vertice_IsDummy. simpl.
  rewrite !bool_decide_eq_false_2 by done. simpl. unfold Vertice_GetKey. simpl.
  assert (forall b (P : Prop), (b = true <-> P) -> b = false -> ~ P) as Hn by (intros [] P HP E; [done|]; by rewrite <- HP).
  destruct (list_ (graph_of ops) !! l) as [rl|] eqn:El; [destruct (list_ (graph_of ops) !! r) as [rr|] eqn:Er|].
  - destruct (LevelTraverse_spec (graph_of ops) (mkVertice l) (mkVertice r)) as (b & -> & Hb);
      [by eapply rep_closed|by exists rl|]. simpl in Hb. rewrite (rep_reach _ _ _ _ Hrep) in Hb.
    destruct b; [exists UPSTREAM; by rewrite <- Hb|].
    destruct (LevelTraverse_spec (graph_of ops) (mkVertice r) (mkVertice l)) as (b & -> & Hb');
      [by eapply rep_closed|by exists rr|]. simpl in Hb'. rewrite (rep_reach _ _ _ _ Hrep) in Hb'.
    destruct b; [exists DOWNSTREAM|exists UNREACHABLE]; (split; [done|split; [by apply (Hn _ _ Hb)|]]);
      [by apply Hb'|by apply (Hn _ _ Hb')].
  - exists UNREACHABLE. split; [done|].
    split; intros Hx; apply (reach_rows _ _ _ _ Hrep) in Hx as [[? ?] [? ?]]; congruence.
  - exists UNREACHABLE. split; [done|].
    split; intros Hx; apply (reach_rows _ _ _ _ Hrep) in Hx as [[? ?] [? ?]]; congruence.
Qed.
End theorems.

(** ** Concrete histories *)

Definition writer (n c : string) : GOp := GInsert (mkEdge (mkVertice n) (mkVertice "") c).
Definition reader (n c : string) : GOp := GInsert (mkEdge (mkVertice "") (mkVertice n) c).

(** A writes channel c1, which B reads; B writes c2, which C reads. *)
Definition chain : list GOp := [writer "A" "c1"; reader "B" "c1"; reader "C" "c2"; writer "B" "c2"].

Lemma chain_distinct : keys_distinct (dests chain).
Proof.
  intros v d v' d' Hv Hd. unfold dests in Hv, Hd. simpl in Hv, Hd.
  rewrite !elem_of_union, !elem_of_singleton, elem_of_empty in Hv, Hd.
  destruct Hv as [[= -> ->]|[[= -> ->]|[[= -> ->]|[[= -> ->]|[]]]]],
    Hd as [[= -> ->]|[[= -> ->]|[[= -> ->]|[[= -> ->]|[]]]]]; vm_compute; by try intros [=].
Qed.

Lemma graph_refines_halves_witness :
  keys_distinct (dests chain) /\
  (edge (graph_of chain) "A" "B" <-> spec_edge (halves_of chain) "A" "B") /\
  edge (graph_of chain) "A" "B".
Proof.
  split; [exact chain_distinct|]. split; [exact (graph_refines_halves chain "A" "B" chain_distinct)|].
  exists "c1_B"%string. vm_compute. reflexivity.
Defined.

Lemma GetDirectionOf_spec_witness :
  (exists dir, GetDirectionOf (graph_of chain) (mkVertice "A") (mkVertice "C") = Some (dir, graph_of chain) /\
    match dir with
    | UPSTREAM => rtc (spec_edge (halves_of chain)) "A" "C"
    | DOWNSTREAM => ~ rtc (spec_edge (halves_of chain)) "A" "C" /\ rtc (spec_edge (halves_of chain)) "C" "A"
    | UNREACHABLE => ~ rtc (spec_edge (halves_of chain)) "A" "C" /\ ~ rtc (spec_edge (halves_of chain)) "C" "A"
    end)%string /\
  fst <$> GetDirectionOf (graph_of chain) (mkVertice "A") (mkVertice "C") = Some UPSTREAM.
Proof.
  split; [|vm_compute; reflexivity].
  apply (GetDirectionOf_spec chain "A" "C" chain_distinct); discriminate.
Defined.

(** Channel "a" to node "b_c" and channel "a_b" to node "c" share the key "a_b_c". *)
Definition collision : list GOp := [writer "A" "a"; reader "b_c" "a"; writer "A" "a_b"; reader "c" "a_b"].

(** Edge::GetKey is not injective, so an edge can be lost: node A writes a
    channel that node b_c reads, yet GetDirectionOf says UNREACHABLE, because the
    key of another edge of A overwrote it. *)
Theorem colliding_keys_lose_an_edge :
  spec_edge (halves_of collision) "A" "b_c" /\
  fst <$> GetDirectionOf (graph_of collision) (mkVertice "A") (mkVertice "b_c") = Some UNREACHABLE.
Proof.
  split; [|vm_compute; reflexivity].
  exists "a"%string. split; apply (bool_decide_unpack _); vm_compute; exact I.
Qed.
