(* ===== verification/Manager.v ===== *)
(** Manager.v -- src/src/apollo/cyber/service_discovery/specific_manager/manager.{h,cc}

    The base class of the node, channel and service managers: join and leave the
    topology, publish the change to the other processes, apply the changes they
    publish.  The virtual functions are the class [SpecificManager]; Join, Leave
    and OnRemoteChange are defined and proved once, against that interface.

    Effects are events: a message passed to signal_, bytes written by the RTPS
    publisher, the disconnection of all listeners, and the process shutting
    itself down.  Fast RTPS and protobuf are not part of the sources: whether a
    publisher or subscriber can be created, what write returns, and the two
    conversions between messages and bytes are parameters. *)

From S2P Require Import Prelude.
From S2P Require Import Role.
Local Open Scope Z_scope.

Inductive ChangeType := CHANGE_NODE | CHANGE_CHANNEL | CHANGE_SERVICE | CHANGE_PARTICIPANT.
Inductive OperateType := OPT_JOIN | OPT_LEAVE.
Inductive RoleType := ROLE_NODE | ROLE_WRITER | ROLE_READER | ROLE_SERVER | ROLE_CLIENT | ROLE_PARTICIPANT.

#[export] Instance OperateType_eq_dec : EqDecision OperateType.
Proof. solve_decision. Defined.
#[export] Instance RoleType_eq_dec : EqDecision RoleType.
Proof. solve_decision. Defined.

(** The enum values, for [1 << role]. *)
Definition role_number (r : RoleType) : Z :=
  match r with
  | ROLE_NODE => 1 | ROLE_WRITER => 2 | ROLE_READER => 3
  | ROLE_SERVER => 4 | ROLE_CLIENT => 5 | ROLE_PARTICIPANT => 6
  end.

(** A message, by the values its getters return. *)
Record ChangeMsg := mkMsg {
  timestamp : Z;
  change_type : ChangeType;
  operate_type : OperateType;
  role_type : RoleType;
  role_attr : RoleAttributes
}.

Inductive Event :=
| Notified (msg : ChangeMsg)       (* signal_(msg) *)
| Written (bytes : string)         (* publisher_->write *)
| SlotsDisconnected                (* signal_.DisconnectAllSlots() *)
| AsyncShutdown.

(** The members of Manager; the three handles by whether they are non-null. *)
Record Base := mkBase {
  is_shutdown_ : bool;
  is_discovery_started_ : bool;
  allowed_role_ : Z;
  change_type_ : ChangeType;
  host_name_ : string;
  process_id_ : Z;
  channel_name_ : string;
  publisher_ : bool;
  subscriber_ : bool;
  listener_ : bool
}.

Definition NewBase (allowed : Z) (ct : ChangeType) (host : string) (pid : Z) (channel : string) : Base :=
  mkBase false false allowed ct host pid channel false false false.

Definition with_started (b : Base) (s : bool) : Base :=
  mkBase (is_shutdown_ b) s (allowed_role_ b) (change_type_ b) (host_name_ b) (process_id_ b)
    (channel_name_ b) (publisher_ b) (subscriber_ b) (listener_ b).
Definition with_handles (b : Base) (p s l : bool) : Base :=
  mkBase (is_shutdown_ b) (is_discovery_started_ b) (allowed_role_ b) (change_type_ b) (host_name_ b)
    (process_id_ b) (channel_name_ b) p s l.

(** What creating an RTPS endpoint comes to. *)
Inductive creation := AttrFailed | NullHandle | Created.

Definition CreatePublisher (b : Base) (o : creation) : bool * Base :=
  match o with
  | AttrFailed => (false, b)
  | NullHandle => (false, with_handles b false (subscriber_ b) (listener_ b))
  | Created => (true, with_handles b true (subscriber_ b) (listener_ b))
  end.

Definition CreateSubscriber (b : Base) (o : creation) : bool * Base :=
  match o with
  | AttrFailed => (false, b)
  | NullHandle => (false, with_handles b (publisher_ b) false true)
  | Created => (true, with_handles b (publisher_ b) true true)
  end.

Definition StopDiscovery (b : Base) : Base :=
  if negb (is_discovery_started_ b) then with_started b false
  else
    let b := with_started b false in
    let b := if publisher_ b then with_handles b false (subscriber_ b) (listener_ b) else b in
    let b := if subscriber_ b then with_handles b (publisher_ b) false (listener_ b) else b in
    if listener_ b then with_handles b (publisher_ b) (subscriber_ b) false else b.

Definition StartDiscovery (b : Base) (participant : bool) (pub sub : creation) : bool * Base :=
  if negb participant then (false, b)
  else if is_discovery_started_ b then (true, b)
  else
    let b := with_started b true in
    let '(ok, b) := CreatePublisher b pub in
    let '(ok, b) := if ok then CreateSubscriber b sub else (false, b) in
    if ok then (true, b) else (false, StopDiscovery b).

Definition Shutdown (b : Base) : Base * list Event :=
  if is_shutdown_ b then (b, [])
  else
    let b := mkBase true (is_discovery_started_ b) (allowed_role_ b) (change_type_ b) (host_name_ b)
               (process_id_ b) (channel_name_ b) (publisher_ b) (subscriber_ b) (listener_ b) in
    (StopDiscovery b, [SlotsDisconnected]).

Definition Convert (b : Base) (now : Z) (attr : RoleAttributes) (role : RoleType) (opt : OperateType) : ChangeMsg :=
  mkMsg now (change_type_ b) opt role
    (mkAttr (match host_name attr with Some h => Some h | None => Some (host_name_ b) end)
       (host_ip attr)
       (match process_id attr with Some p => Some p | None => Some (process_id_ b) end)
       (node_name attr) (node_id attr) (channel_name attr) (channel_id attr) (message_type attr)
       (proto_desc attr) (id attr) (qos_profile attr) (socket_addr attr) (service_name attr) (service_id attr)).

Definition IsFromSameProcess (b : Base) (msg : ChangeMsg) : bool :=
  if negb (num (process_id (role_attr msg)) =? process_id_ b) ||
     negb (bool_decide (str (host_name (role_attr msg)) = host_name_ b))
  then false else true.

(** ** The virtual functions *)
Class SpecificManager (S : Type) := {
  Check : RoleAttributes -> bool;
  Dispose : Base -> S -> ChangeMsg -> S * list Event;
  OnTopoModuleLeave : Base -> S -> (nat -> Z) -> string -> Z -> S * list Event;
  (* Check does not look at the fields Convert fills in *)
  Check_Convert : forall b now attr role opt, Check (role_attr (Convert b now attr role opt)) = Check attr
}.

Record Manager (S : Type) := mkManager { base : Base; specific : S }.
Arguments mkManager {S} _ _.
Arguments base {S} _.
Arguments specific {S} _.

Section manager.
Context {S : Type} `{SpecificManager S}.
Variable SerializeToString : ChangeMsg -> option string.
Variable ParseFromString : string -> option ChangeMsg.
Variable write : string -> bool.

Definition allowed (b : Base) (role : RoleType) : bool :=
  negb (Z.land (Z.shiftl 1 (role_number role)) (allowed_role_ b) =? 0).

Definition NeedPublish (msg : ChangeMsg) : bool := true.

Definition Publish (b : Base) (msg : ChangeMsg) : bool * list Event :=
  if negb (is_discovery_started_ b) then (true, [])
  else match SerializeToString msg with
  | None => (false, [])
  | Some data => if publisher_ b then (write data, [Written data]) else (true, [])
  end.

Definition Join (m : Manager S) (now : Z) (attr : RoleAttributes) (role : RoleType) (need_publish : bool)
    : bool * Manager S * list Event :=
  if is_shutdown_ (base m) then (false, m, [])
  else if negb (allowed (base m) role) then (false, m, [])
  else if negb (Check attr) then (false, m, [])
  else
    let msg := Convert (base m) now attr role OPT_JOIN in
    let '(s, ev) := Dispose (base m) (specific m) msg in
    if need_publish then
      let '(ok, ev') := Publish (base m) msg in (ok, mkManager (base m) s, ev ++ ev')
    else (true, mkManager (base m) s, ev).

Definition Leave (m : Manager S) (now : Z) (attr : RoleAttributes) (role : RoleType)
    : bool * Manager S * list Event :=
  if is_shutdown_ (base m) then (false, m, [])
  else if negb (allowed (base m) role) then (false, m, [])
  else if negb (Check attr) then (false, m, [])
  else
    let msg := Convert (base m) now attr role OPT_LEAVE in
    let '(s, ev) := Dispose (base m) (specific m) msg in
    if NeedPublish msg then
      let '(ok, ev') := Publish (base m) msg in (ok, mkManager (base m) s, ev ++ ev')
    else (true, mkManager (base m) s, ev).

Definition OnRemoteChange (m : Manager S) (msg_str : string) : Manager S * list Event :=
  if is_shutdown_ (base m) then (m, [])
  else match ParseFromString msg_str with
  | None => (m, [])
  | Some msg =>
      if IsFromSameProcess (base m) msg then (m, [])
      else if negb (Check (role_attr msg)) then (m, [])
      else let '(s, ev) := Dispose (base m) (specific m) msg in (mkManager (base m) s, ev)
  end.

Definition TopoModuleLeave (m : Manager S) (now : nat -> Z) (host : string) (pid : Z) : Manager S * list Event :=
  let '(s, ev) := OnTopoModuleLeave (base m) (specific m) now host pid in (mkManager (base m) s, ev).
End manager.

(** ** Discovery *)

(** The handles exist only while discovery runs, and then all of them do. *)
Definition handles_ok (b : Base) : Prop :=
  publisher_ b = is_discovery_started_ b /\ subscriber_ b = is_discovery_started_ b /\
  listener_ b = is_discovery_started_ b.

Lemma StopDiscovery_ok b : handles_ok b -> handles_ok (StopDiscovery b) /\ is_discovery_started_ (StopDiscovery b) = false.
Proof.
  unfold handles_ok, StopDiscovery. destruct b as [sd st al ct h p ch pu su li]. simpl.
  intros (-> & -> & ->). by destruct st.
Qed.

(** Discovery starts completely or not at all. *)
Lemma StartDiscovery_ok b participant pub sub :
  handles_ok b ->
  let '(ok, b') := StartDiscovery b participant pub sub in
  handles_ok b' /\ (ok = true -> is_discovery_started_ b' = true) /\
  (participant = true -> ok = false -> is_discovery_started_ b' = false).
Proof.
  unfold handles_ok, StartDiscovery. destruct b as [sd st al ct h p ch pu su li]. simpl.
  intros (-> & -> & ->). destruct participant, st, pub, sub; done.
Qed.

(** ** Joining, leaving and replicating *)

Section laws.
Context {S : Type} `{SpecificManager S}.
Variable SerializeToString : ChangeMsg -> option string.
Variable ParseFromString : string -> option ChangeMsg.
Variable write : string -> bool.
Notation Join := (Join (S := S) SerializeToString write).
Notation Leave := (Leave (S := S) SerializeToString write).
Notation OnRemoteChange := (OnRemoteChange (S := S) ParseFromString).

(** A join or leave is accepted exactly when the manager is up, the role is one
    it manages and the attributes are complete. *)
Definition accepts (m : Manager S) (attr : RoleAttributes) (role : RoleType) : bool :=
  negb (is_shutdown_ (base m)) && allowed (base m) role && Check attr.

Lemma Join_refused m now attr role np : accepts m attr role = false -> Join m now attr role np = (false, m, []).
Proof.
  unfold accepts, Join. destruct (is_shutdown_ (base m)), (allowed (base m) role), (Check attr); done.
Qed.

Lemma Leave_refused m now attr role : accepts m attr role = false -> Leave m now attr role = (false, m, []).
Proof.
  unfold accepts, Leave. destruct (is_shutdown_ (base m)), (allowed (base m) role), (Check attr); done.
Qed.

Lemma Join_accepted m now attr role (np : bool) :
  accepts m attr role = true ->
  let msg := Convert (base m) now attr role OPT_JOIN in
  let '(s, ev) := Dispose (base m) (specific m) msg in
  let '(ok, ev') := if np then Publish SerializeToString write (base m) msg else (true, []) in
  Join m now attr role np = (ok, mkManager (base m) s, ev ++ ev').
Proof.
  unfold accepts, Join. destruct (is_shutdown_ (base m)), (allowed (base m) role), (Check attr); try done.
  intros _. simpl. destruct (Dispose _ _ _) as [s ev].
  destruct np; [by destruct (Publish _ _ _ _)|by rewrite app_nil_r].
Qed.

Lemma Leave_accepted m now attr role :
  accepts m attr role = true ->
  let msg := Convert (base m) now attr role OPT_LEAVE in
  let '(s, ev) := Dispose (base m) (specific m) msg in
  let '(ok, ev') := Publish SerializeToString write (base m) msg in
  Leave m now attr role = (ok, mkManager (base m) s, ev ++ ev').
Proof.
  unfold accepts, Leave. destruct (is_shutdown_ (base m)), (allowed (base m) role), (Check attr); try done.
  intros _. simpl. destruct (Dispose _ _ _) as [s ev]. by destruct (Publish _ _ _ _).
Qed.

(** The receiving side of a published message. *)
Lemma OnRemoteChange_foreign m msg data :
  ParseFromString data = Some msg -> is_shutdown_ (base m) = false ->
  IsFromSameProcess (base m) msg = false -> Check (role_attr msg) = true ->
  OnRemoteChange m data =
    (let '(s, ev) := Dispose (base m) (specific m) msg in (mkManager (base m) s, ev)).
Proof. intros Hp Hs Hi Hc. unfold OnRemoteChange. by rewrite Hs, Hp, Hi, Hc. Qed.

Lemma IsFromSameProcess_true b msg :
  IsFromSameProcess b msg = true <->
  num (process_id (role_attr msg)) = process_id_ b /\ str (host_name (role_attr msg)) = host_name_ b.
Proof.
  unfold IsFromSameProcess. destruct (Z.eqb_spec (num (process_id (role_attr msg))) (process_id_ b)); simpl.
  - case_bool_decide; simpl; naive_solver.
  - naive_solver.
Qed.

(** Convert stamps a message with its process unless the attributes name one. *)
Lemma Convert_process b now attr role opt :
  process_id attr = None -> host_name attr = None ->
  IsFromSameProcess b (Convert b now attr role opt) = true.
Proof. intros Hp Hh. apply IsFromSameProcess_true. simpl. by rewrite Hp, Hh. Qed.
End laws.

(** A change is replicated: when a manager accepts a join while discovery
    runs and the message serializes to some bytes, it writes exactly those bytes
    and disposes the message itself; the same manager of another process that
    receives the bytes disposes the same message; and when the bytes come back
    to the process that wrote them they are ignored. *)
Theorem change_replicates {S} `{SpecificManager S}
    (SerializeToString : ChangeMsg -> option string) (ParseFromString : string -> option ChangeMsg)
    (write : string -> bool) (here there : Manager S) now attr role data :
  (forall msg bytes, SerializeToString msg = Some bytes -> ParseFromString bytes = Some msg) ->
  accepts here attr role = true -> is_discovery_started_ (base here) = true -> publisher_ (base here) = true ->
  let msg := Convert (base here) now attr role OPT_JOIN in
  SerializeToString msg = Some data ->
  is_shutdown_ (base there) = false -> IsFromSameProcess (base there) msg = false ->
  process_id attr = None -> host_name attr = None ->
  exists ev, Join SerializeToString write here now attr role true =
    (write data, mkManager (base here) (Dispose (base here) (specific here) msg).1, ev ++ [Written data]) /\
  OnRemoteChange ParseFromString there data =
    (mkManager (base there) (Dispose (base there) (specific there) msg).1,
     (Dispose (base there) (specific there) msg).2) /\
  (forall s, OnRemoteChange ParseFromString (mkManager (base here) s) data = (mkManager (base here) s, [])).
Proof.
  intros Hrt Ha Hd Hp msg Hs Hup Hne Hpid Hhost.
  pose proof (Hrt _ _ Hs) as Hparse.
  assert (Check (role_attr msg) = true) as Hc.
  { subst msg. rewrite Check_Convert. unfold accepts in Ha. by apply andb_true_iff in Ha as [_ Ha]. }
  exists (Dispose (base here) (specific here) msg).2. split_and!.
  - pose proof (Join_accepted SerializeToString write here now attr role true Ha) as E.
    cbv zeta in E. fold msg in E. destruct (Dispose (base here) (specific here) msg) as [s ev]. simpl in E |- *.
    unfold Publish in E. rewrite Hd, Hs, Hp in E. exact E.
  - rewrite (OnRemoteChange_foreign _ _ msg) by done. by destruct (Dispose _ _ _).
  - intros s. unfold OnRemoteChange. simpl. destruct (is_shutdown_ (base here)); [done|].
    rewrite Hparse. subst msg. by rewrite Convert_process.
Qed.

(** A manager that was shut down is inert: discovery is stopped and its
    handles are gone, it refuses to join and leave, ignores what other processes
    publish, notifies nobody and writes nothing; a second Shutdown does
    nothing. *)
Theorem shut_down_is_inert {S} `{SpecificManager S}
    (SerializeToString : ChangeMsg -> option string) (ParseFromString : string -> option ChangeMsg)
    (write : string -> bool) (b : Base) (s : S) :
  is_shutdown_ b = false -> handles_ok b ->
  let '(b', ev) := Shutdown b in
  let m := mkManager b' s in
  ev = [SlotsDisconnected] /\ publisher_ b' = false /\ subscriber_ b' = false /\ listener_ b' = false /\
  (forall now attr role np, Join SerializeToString write m now attr role np = (false, m, [])) /\
  (forall now attr role, Leave SerializeToString write m now attr role = (false, m, [])) /\
  (forall data, OnRemoteChange ParseFromString m data = (m, [])) /\
  Shutdown b' = (b', []).
Proof.
  intros Hup (Hp & Hsu & Hl). unfold Shutdown. rewrite Hup. simpl.
  destruct b as [sd st al ct h p ch pu su li]. simpl in *. subst. by destruct st.
Qed.
