(* ===== verification/NodeManager.v ===== *)
(** NodeManager.v -- src/src/apollo/cyber/service_discovery/specific_manager/node_manager.{h,cc}

    The registry of nodes.  A node name may be used by one process only: of two
    nodes with the same id the one that joined earlier stays, and the process of
    the other one shuts itself down.  The registry is proved against the
    warehouse interface, for any implementation that keeps one role per key. *)

From S2P Require Import Prelude.
From S2P Require Import AtomicHashMap.
From S2P Require Import GlobalData.
From S2P Require Import Unordered.
From S2P Require Import Role.
From S2P Require Import Warehouse.
From S2P Require Import Manager.
Local Open Scope Z_scope.

Section node_manager.
Context {W : Type} `{Warehouse W}.
Hypothesis one_per_key : multi (W := W) = false.

(** NodeManager::NodeManager *)
Definition NewNodeBase (host : string) (pid : Z) : Base :=
  NewBase (Z.lor 0 (Z.shiftl 1 (role_number ROLE_NODE))) CHANGE_NODE host pid "node_change_broadcast".

Definition HasNode (Hash : string -> Z) (fuel : nat) (reg : AtomicHashMap string) (nodes_ : W) (name : string)
    : option (bool * AtomicHashMap string) :=
  match Register Hash fuel reg name with
  | Some (key, reg) => Some (SearchKey nodes_ key, reg)
  | None => None
  end.

Definition GetNodes (nodes_ : W) (nodes : list RoleAttributes) : list RoleAttributes := GetAllAttrs nodes_ nodes.

Definition NodeCheck (attr : RoleAttributes) : bool :=
  if negb (bool_decide (is_Some (node_name attr))) then false
  else if negb (bool_decide (is_Some (node_id attr))) then false
  else true.

Definition node_role (msg : ChangeMsg) : Role := mkRole RoleBase (role_attr msg) (timestamp msg).
Definition node_key (r : Role) : Z := num (node_id (attributes_ r)).

Definition DisposeJoin (b : Base) (nodes_ : W) (msg : ChangeMsg) : W * list Event :=
  let node := node_role msg in
  let key := node_key node in
  let '(added, nodes_) := Add nodes_ key node false in
  if negb added then
    match SearchKeyRole nodes_ key with
    | None => ((Add nodes_ key node true).2, [])
    | Some existing_node =>
        let newer_node := existing_node in
        let '(nodes_, newer_node) :=
          if IsEarlierThan node newer_node then ((Add nodes_ key node true).2, newer_node)
          else (nodes_, node) in
        if (num (process_id (attributes_ newer_node)) =? process_id_ b) &&
           bool_decide (str (host_name (attributes_ newer_node)) = host_name_ b)
        then (nodes_, [AsyncShutdown]) else (nodes_, [])
    end
  else (nodes_, []).

Definition DisposeLeave (nodes_ : W) (msg : ChangeMsg) : W :=
  let node := node_role msg in RemoveKey nodes_ (node_key node).

Definition NodeDispose (b : Base) (nodes_ : W) (msg : ChangeMsg) : W * list Event :=
  let '(nodes_, ev) :=
    if bool_decide (operate_type msg = OPT_JOIN) then DisposeJoin b nodes_ msg
    else (DisposeLeave nodes_ msg, []) in
  (nodes_, ev ++ [Notified msg]).

(** The attributes that match every role of a process. *)
Definition of_process (host : string) (pid : Z) : RoleAttributes :=
  mkAttr (Some host) None (Some pid) None None None None None None None None None None None.

Definition NodeTopoLeave (b : Base) (nodes_ : W) (now : nat -> Z) (host : string) (pid : Z) : W * list Event :=
  if negb (is_discovery_started_ b) then (nodes_, [])
  else
    let attr := of_process host pid in
    let nodes_to_remove := (SearchAttrRoles nodes_ attr []).2 in
    let nodes_ := foldl (fun w node => RemoveKey w (node_key node)) nodes_ nodes_to_remove in
    (nodes_, imap (fun i node => Notified (Convert b (now i) (attributes_ node) ROLE_NODE OPT_LEAVE)) nodes_to_remove).

#[export] Instance node_manager : SpecificManager W := {
  Check := NodeCheck; Dispose := NodeDispose; OnTopoModuleLeave := NodeTopoLeave;
  Check_Convert := fun b now attr role opt => eq_refl
}.

(** ** The registry keeps one role per node id *)

Definition nodes_ok (w : W) : Prop :=
  NoDup (items w).*1 /\ forall k r, (k, r) ∈ items w -> k = node_key r.

Lemma nodes_ok_perm w l : items w ≡ₚ l -> NoDup l.*1 -> (forall k r, (k, r) ∈ l -> k = node_key r) -> nodes_ok w.
Proof. intros Hp Hd Hk. split; [by rewrite Hp|]. intros k r. rewrite Hp. apply Hk. Qed.

(** Adding over what is there. *)
Lemma add_ok w r : nodes_ok w -> nodes_ok (Add w (node_key r) r true).2.
Proof.
  intros [Hd Hk]. destruct (items_add w (node_key r) r true (or_introl eq_refl)) as [_ Hp].
  rewrite one_per_key in Hp. eapply nodes_ok_perm; [exact Hp| |].
  - simpl. apply NoDup_cons. split; [|by apply keep_keys_NoDup].
    intros [x Hx]%elem_of_keys. apply elem_of_keep in Hx as [_ Hx]. by apply bool_decide_eq_false in Hx.
  - intros k x Hx. apply elem_of_cons in Hx as [[= -> ->]|Hx]; [done|]. apply elem_of_keep in Hx as [Hx _]. auto.
Qed.

Lemma add_items w k r k' r' :
  (k', r') ∈ items (Add w k r true).2 <-> (k' = k /\ r' = r) \/ (k' <> k /\ (k', r') ∈ items w).
Proof.
  destruct (items_add w k r true (or_introl eq_refl)) as [_ Hp]. rewrite one_per_key in Hp.
  rewrite Hp, elem_of_cons, elem_of_keep. unfold at_key. simpl. rewrite bool_decide_eq_false. naive_solver.
Qed.

Lemma add_new_items w k r k' r' :
  k ∉ (items w).*1 -> (Add w k r false).1 = true /\
  ((k', r') ∈ items (Add w k r false).2 <-> (k' = k /\ r' = r) \/ (k' <> k /\ (k', r') ∈ items w)).
Proof.
  intros Hk. destruct (items_add w k r false (or_intror Hk)) as [Ha Hp]. rewrite one_per_key in Hp.
  split; [done|]. rewrite Hp, elem_of_cons, elem_of_keep. unfold at_key. simpl. rewrite bool_decide_eq_false. naive_solver.
Qed.

Lemma add_new_ok w r : nodes_ok w -> node_key r ∉ (items w).*1 -> nodes_ok (Add w (node_key r) r false).2.
Proof.
  intros [Hd Hk] Hn. destruct (items_add w (node_key r) r false (or_intror Hn)) as [_ Hp].
  rewrite one_per_key in Hp. eapply nodes_ok_perm; [exact Hp| |].
  - simpl. apply NoDup_cons. split; [|by apply keep_keys_NoDup].
    intros [x Hx]%elem_of_keys. apply elem_of_keep in Hx as [_ Hx]. by apply bool_decide_eq_false in Hx.
  - intros k x Hx. apply elem_of_cons in Hx as [[= -> ->]|Hx]; [done|]. apply elem_of_keep in Hx as [Hx _]. auto.
Qed.

Lemma nodes_unique w k r r' : nodes_ok w -> (k, r) ∈ items w -> (k, r') ∈ items w -> r = r'.
Proof. intros [Hd _]. by apply keys_unique. Qed.

(** What a join does to the registry: the earlier role stays. *)
Lemma DisposeJoin_items b w msg :
  nodes_ok w -> let r := node_role msg in let w' := (DisposeJoin b w msg).1 in
  nodes_ok w' /\ forall k' r', (k', r') ∈ items w' <->
    (k' <> node_key r /\ (k', r') ∈ items w) \/
    (k' = node_key r /\ ((node_key r ∉ (items w).*1 /\ r' = r) \/
       exists e, (node_key r, e) ∈ items w /\ r' = if timestamp_ns_ r <? timestamp_ns_ e then r else e)).
Proof.
  intros Hok r w'. subst w'. unfold DisposeJoin. fold r. clearbody r.
  destruct (decide (node_key r ∈ (items w).*1)) as [Hin|Hnew].
  - rewrite items_add_refused by done. simpl.
    pose proof (items_search_key w (node_key r)) as Hs.
    destruct (SearchKeyRole w (node_key r)) as [e|]; [|done].
    assert (forall r', (exists e0, (node_key r, e0) ∈ items w /\ r' = if timestamp_ns_ r <? timestamp_ns_ e0 then r else e0)
      <-> r' = if timestamp_ns_ r <? timestamp_ns_ e then r else e) as He.
    { intros r'. split; [|by eauto]. intros (e0 & He0 & ->). by rewrite (nodes_unique _ _ _ _ Hok He0 Hs). }
    unfold IsEarlierThan. destruct (timestamp_ns_ r <? timestamp_ns_ e).
    + assert (forall A B : list Event, (if (num (process_id (attributes_ e)) =? process_id_ b) &&
         bool_decide (str (host_name (attributes_ e)) = host_name_ b)
         then ((Add w (node_key r) r true).2, A) else ((Add w (node_key r) r true).2, B)).1
         = (Add w (node_key r) r true).2) as -> by (intros; by destruct (_ && _)).
      split; [by apply add_ok|]. intros k' r'. rewrite add_items, (He r'). naive_solver.
    + assert (forall A B : list Event, (if (num (process_id (attributes_ r)) =? process_id_ b) &&
         bool_decide (str (host_name (attributes_ r)) = host_name_ b) then (w, A) else (w, B)).1 = w) as ->
        by (intros; by destruct (_ && _)).
      split; [done|]. intros k' r'. rewrite (He r'). destruct (decide (k' = node_key r)) as [->|]; [|naive_solver].
      split; [intros Hx; right; split; [done|right]; by eapply nodes_unique|].
      intros [[? _]|[_ [[? _]| ->]]]; done.
  - destruct (Add w (node_key r) r false) as [ok w1] eqn:Ea.
    pose proof (add_new_ok w r Hok Hnew) as Hok1.
    assert (ok = true) as -> by (by destruct (add_new_items w (node_key r) r 0 r Hnew) as [E _]; rewrite Ea in E).
    rewrite Ea in Hok1. simpl in *. split; [done|]. intros k' r'.
    destruct (add_new_items w (node_key r) r k' r' Hnew) as [_ Hi]. rewrite Ea in Hi. simpl in Hi. rewrite Hi.
    split; [naive_solver|]. intros [?|[-> [[_ ->]|(e & He & _)]]]; [by right|by left|].
    exfalso. apply Hnew, elem_of_keys. eauto.
Qed.

(** ** Which of several nodes with one id stays *)

Definition dispose_all (b : Base) (w : W) (ms : list ChangeMsg) : W :=
  foldl (fun w m => (NodeDispose b w m).1) w ms.

Lemma NodeDispose_join b w m : operate_type m = OPT_JOIN -> (NodeDispose b w m).1 = (DisposeJoin b w m).1.
Proof. intros E. unfold NodeDispose. rewrite bool_decide_true by done. by destruct (DisposeJoin b w m). Qed.

Definition msg_key (m : ChangeMsg) : Z := node_key (node_role m).

(** No two joins of one node id carry the same time. *)
Definition distinct_times (ms : list ChangeMsg) : Prop :=
  forall m m', m ∈ ms -> m' ∈ ms -> msg_key m = msg_key m' -> timestamp m = timestamp m' -> m = m'.

(** The role of the earliest join of node [k]. *)
Definition earliest (ms : list ChangeMsg) (k : Z) (r : Role) : Prop :=
  exists m, m ∈ ms /\ r = node_role m /\ msg_key m = k /\
    forall m', m' ∈ ms -> msg_key m' = k -> timestamp m <= timestamp m'.

Lemma earliest_exists ms m : m ∈ ms -> exists r, earliest ms (msg_key m) r.
Proof.
  intros Hm. set (k := msg_key m). assert (Exists (fun x => msg_key x = k) ms) as Hex.
  { apply Exists_exists. by exists m. }
  clear Hm. clearbody k. induction ms as [|a l IH]; [by apply Exists_nil in Hex|].
  destruct (decide (Exists (fun x => msg_key x = k) l)) as [Hl|Hl].
  - destruct (IH Hl) as (r & z & Hz & -> & Ez & Hle).
    destruct (decide (msg_key a = k /\ timestamp a <= timestamp z)) as [[Ea Hza]|Hn].
    + exists (node_role a), a. split_and!; [by left|done|done|]. intros y Hy Ey.
      apply elem_of_cons in Hy as [->|Hy]; [lia|]. specialize (Hle y Hy Ey). lia.
    + exists (node_role z), z. split_and!; [by right|done|done|]. intros y Hy Ey.
      apply elem_of_cons in Hy as [->|Hy]; [|auto].
      destruct (Z.le_gt_cases (timestamp z) (timestamp a)); [done|]. exfalso. apply Hn. split; [done|lia].
  - apply Exists_cons in Hex as [Ea|]; [|done]. exists (node_role a), a. split_and!; [by left|done|done|].
    intros y Hy Ey. apply elem_of_cons in Hy as [->|Hy]; [done|].
    exfalso. apply Hl, Exists_exists. by exists y.
Qed.

Lemma earliest_other ms m k r : k <> msg_key m -> earliest (ms ++ [m]) k r <-> earliest ms k r.
Proof.
  intros Hne. split; intros (m0 & Hm0 & -> & Hk & Hle); exists m0.
  - apply elem_of_app in Hm0 as [Hm0|Hm0%list_elem_of_singleton]; [|congruence].
    split_and!; [done|done|done|]. intros m' Hm'. apply Hle. set_solver.
  - split_and!; [set_solver|done|done|].
    intros m' [Hm'|E%list_elem_of_singleton]%elem_of_app Hk'; [auto|congruence].
Qed.

(** A join against the earliest one so far. *)
Lemma earliest_snoc ms m e :
  distinct_times (ms ++ [m]) -> earliest ms (msg_key m) e ->
  forall r, earliest (ms ++ [m]) (msg_key m) r <->
    r = if timestamp m <? timestamp_ns_ e then node_role m else e.
Proof.
  intros Hd (z & Hz & -> & Ez & Hle) r. simpl. split.
  - intros (m0 & Hm0 & -> & Hk & Hmin). apply elem_of_app in Hm0 as [Hm0|Hm0%list_elem_of_singleton].
    + pose proof (Hle m0 Hm0 Hk). pose proof (Hmin z ltac:(set_solver) Ez).
      pose proof (Hmin m ltac:(set_solver) eq_refl). destruct (Z.ltb_spec (timestamp m) (timestamp z)); [lia|].
      f_equal. apply Hd; [set_solver|set_solver|congruence|lia].
    + subst m0. pose proof (Hmin z ltac:(set_solver) Ez).
      destruct (Z.ltb_spec (timestamp m) (timestamp z)); [done|].
      f_equal. apply Hd; [set_solver|set_solver|congruence|lia].
  - intros ->. destruct (Z.ltb_spec (timestamp m) (timestamp z)).
    + exists m. split_and!; [set_solver|done|done|].
      intros m' [Hm'|E%list_elem_of_singleton]%elem_of_app Hk'; [|by subst]. specialize (Hle m' Hm' Hk'). lia.
    + exists z. split_and!; [set_solver|done|done|].
      intros m' [Hm'|E%list_elem_of_singleton]%elem_of_app Hk'; [auto|by subst].
Qed.

Lemma dispose_joins b ms :
  Forall (fun m => operate_type m = OPT_JOIN) ms -> distinct_times ms ->
  let w := dispose_all b NewWarehouse ms in
  nodes_ok w /\ forall k r, (k, r) ∈ items w <-> earliest ms k r.
Proof.
  induction ms as [|m ms IH] using rev_ind; intros Hj Hd; cbv zeta.
  { unfold nodes_ok, dispose_all. simpl. rewrite items_new. split; [split; [constructor|]|].
    - by intros k r ?%not_elem_of_nil.
    - intros k r. split; [by intros ?%not_elem_of_nil|]. intros (m & Hm & _). by apply not_elem_of_nil in Hm. }
  apply Forall_app in Hj as [Hj Hjm]. apply Forall_cons in Hjm as [Hjm _].
  destruct IH as [Hok Hitems]; [done|by intros x y Hx Hy; apply Hd; set_solver|].
  unfold dispose_all in *. rewrite foldl_app. simpl. rewrite NodeDispose_join by done.
  set (w := foldl _ _ ms) in *. destruct (DisposeJoin_items b w m Hok) as [Hok' Hi].
  change (node_key (node_role m)) with (msg_key m) in Hi. split; [done|]. intros k r. rewrite Hi.
  destruct (decide (k = msg_key m)) as [->|Hne]; [|rewrite earliest_other, Hitems by done; naive_solver].
  destruct (decide (msg_key m ∈ (items w).*1)) as [[e He]%elem_of_keys|Hn].
  - assert (earliest ms (msg_key m) e) as Hearly by (by apply Hitems).
    rewrite (earliest_snoc ms m e Hd Hearly r). simpl. split.
    + intros [[? _]|[_ [[Hn _]|(e0 & He0 & ->)]]]; [done|exfalso; apply Hn, elem_of_keys; eauto|].
      by rewrite (nodes_unique w _ _ _ Hok He0 He).
    + intros ->. right. split; [done|]. right. eauto.
  - assert (forall m', m' ∈ ms -> msg_key m' <> msg_key m) as Hnone.
    { intros m' Hm' E. destruct (earliest_exists ms m' Hm') as [r0 Hr0]. apply Hn, elem_of_keys.
      exists r0. apply Hitems. by rewrite <- E. }
    split.
    + intros [[? _]|[_ [[_ ->]|(e0 & He0 & _)]]]; [done| |exfalso; apply Hn, elem_of_keys; eauto].
      exists m. split_and!; [set_solver|done|done|].
      intros m' [Hm'|E%list_elem_of_singleton]%elem_of_app Hk'; [|by subst]. by apply Hnone in Hm'.
    + intros (m0 & [Hm0|E%list_elem_of_singleton]%elem_of_app & -> & Hk & _); [by apply Hnone in Hm0|].
      subst m0. right. split; [done|]. by left.
Qed.

Lemma earliest_perm ms ms' k r : ms ≡ₚ ms' -> earliest ms k r -> earliest ms' k r.
Proof. intros Hp (m & Hm & -> & Hk & Hle). exists m. setoid_rewrite <- Hp. done. Qed.

(** ** A process that disappears *)

Lemma NodeTopoLeave_items b w now host pid :
  nodes_ok w -> is_discovery_started_ b = true ->
  let '(w', ev) := NodeTopoLeave b w now host pid in
  items w' ≡ₚ keep (matching (of_process host pid)) (items w) /\
  exists gone, gone ≡ₚ select (matching (of_process host pid)) (items w) /\
    ev = imap (fun i node => Notified (Convert b (now i) (attributes_ node) ROLE_NODE OPT_LEAVE)) gone.
Proof.
  intros Hok Hst. unfold NodeTopoLeave. rewrite Hst. simpl.
  destruct (items_search_attr_roles w (of_process host pid) []) as (found & Hf & Hs & _).
  rewrite Hs. simpl. split; [|eauto]. destruct Hok as [Hd Hk]. by apply remove_found_keys.
Qed.
End node_manager.

(** All processes agree on who owns a node name: whatever the order in which
    the join messages of a set of nodes reach two processes, their registries
    answer every lookup alike, with the node that joined earliest. *)
Theorem duplicate_nodes_agree `{HashOrder} b b' ms ms' k :
  Forall (fun m => operate_type m = OPT_JOIN) ms -> distinct_times ms -> ms ≡ₚ ms' ->
  let here := dispose_all b (NewWarehouse : SingleValueWarehouse.t) ms in
  let there := dispose_all b' (NewWarehouse : SingleValueWarehouse.t) ms' in
  SearchKeyRole here k = SearchKeyRole there k /\
  match SearchKeyRole here k with
  | Some r => earliest ms k r
  | None => forall m, m ∈ ms -> msg_key m <> k
  end.
Proof.
  intros Hj Hd Hp here there.
  assert (distinct_times ms') as Hd' by (unfold distinct_times; by setoid_rewrite <- Hp).
  destruct (dispose_joins (W := SingleValueWarehouse.t) single_keeps_one b ms Hj Hd) as [Hok Hi].
  destruct (dispose_joins (W := SingleValueWarehouse.t) single_keeps_one b' ms' ltac:(by rewrite <- Hp) Hd') as [Hok' Hi'].
  fold here in Hok, Hi. fold there in Hok', Hi'.
  assert (forall r, (k, r) ∈ items here <-> (k, r) ∈ items there) as Heq.
  { intros r. rewrite Hi, Hi'. split; apply earliest_perm; [done|by symmetry]. }
  pose proof (items_search_key here k) as Hs. pose proof (items_search_key there k) as Hs'.
  destruct (SearchKeyRole here k) as [r|], (SearchKeyRole there k) as [r'|].
  - split; [|by apply Hi]. f_equal. apply (nodes_unique here k); [done|done|by apply Heq].
  - exfalso. apply Hs', elem_of_keys. exists r. by apply Heq.
  - exfalso. apply Hs, elem_of_keys. exists r'. by apply Heq.
  - split; [done|]. intros m Hm E. destruct (earliest_exists ms m Hm) as [r Hr].
    apply Hs, elem_of_keys. exists r. apply Hi. by rewrite <- E.
Qed.

(** ** Concrete messages *)

Definition node_attr (name host : string) (pid nid : Z) : RoleAttributes :=
  mkAttr (Some host) None (Some pid) (Some name) (Some nid) None None None None None None None None None.
Definition join_at (t : Z) (a : RoleAttributes) : ChangeMsg := mkMsg t CHANGE_NODE OPT_JOIN ROLE_NODE a.

(** The node "planning" (id 7) joins from process 1 at time 20 and from process 2
    at time 10. *)
Definition first_join : ChangeMsg := join_at 10 (node_attr "planning" "car" 2 7).
Definition late_join : ChangeMsg := join_at 20 (node_attr "planning" "car" 1 7).
Definition here_base : Base := with_started (NewNodeBase "car" 1) true.
Definition there_base : Base := with_started (NewNodeBase "car" 2) true.

Lemma duplicate_nodes_agree_witness :
  let here := dispose_all here_base (NewWarehouse : SingleValueWarehouse.t) [late_join; first_join] in
  let there := dispose_all there_base (NewWarehouse : SingleValueWarehouse.t) [first_join; late_join] in
  SearchKeyRole here 7 = SearchKeyRole there 7 /\ SearchKeyRole here 7 = Some (node_role first_join).
Proof.
  cbv zeta. split; [|vm_compute; reflexivity].
  refine (proj1 (duplicate_nodes_agree here_base there_base [late_join; first_join] [first_join; late_join] 7 _ _ _)).
  - repeat constructor.
  - intros m m' Hm Hm' _ E. rewrite !elem_of_cons, elem_of_nil in Hm, Hm'.
    destruct Hm as [->|[->|[]]], Hm' as [->|[->|[]]]; done.
  - apply perm_swap.
Defined.

(** A wire format for the messages of one node: its join and its leave. *)
#[local] Instance RoleAttributes_eq_dec : EqDecision RoleAttributes.
Proof. solve_decision. Defined.
#[local] Instance ChangeType_eq_dec : EqDecision ChangeType.
Proof. solve_decision. Defined.
#[local] Instance ChangeMsg_eq_dec : EqDecision ChangeMsg.
Proof. solve_decision. Defined.

Definition wire (join leave : ChangeMsg) (msg : ChangeMsg) : option string :=
  if decide (msg = join) then Some "J"%string else if decide (msg = leave) then Some "L"%string else None.
Definition unwire (join leave : ChangeMsg) (bytes : string) : option ChangeMsg :=
  if String.eqb bytes "J" then Some join else if String.eqb bytes "L" then Some leave else None.

Lemma unwire_wire join leave msg bytes : wire join leave msg = Some bytes -> unwire join leave bytes = Some msg.
Proof. unfold wire, unwire. repeat case_decide; intros [= <-]; by subst. Qed.

Definition control_attr : RoleAttributes :=
  mkAttr None None None (Some "control"%string) (Some 8) None None None None None None None None None.
Definition sender_base : Base := with_handles here_base true true true.
Definition receiver_base : Base := with_handles there_base true true true.
Definition control_msg (op : OperateType) : ChangeMsg := Convert sender_base 5 control_attr ROLE_NODE op.

(** Process 1 joins node "control"; process 2 learns of it. *)
Lemma change_replicates_witness :
  let here : Manager SingleValueWarehouse.t := mkManager sender_base NewWarehouse in
  let there : Manager SingleValueWarehouse.t := mkManager receiver_base NewWarehouse in
  (exists ev, (Join (wire (control_msg OPT_JOIN) (control_msg OPT_LEAVE)) (fun _ => true)
     here 5 control_attr ROLE_NODE true).2 = ev ++ [Written "J"]) /\
  SearchKeyRole (specific (OnRemoteChange (unwire (control_msg OPT_JOIN) (control_msg OPT_LEAVE)) there "J").1) 8
    = Some (node_role (control_msg OPT_JOIN)).
Proof.
  cbv zeta.
  destruct (change_replicates (wire (control_msg OPT_JOIN) (control_msg OPT_LEAVE))
              (unwire (control_msg OPT_JOIN) (control_msg OPT_LEAVE)) (fun _ => true)
              (mkManager sender_base (NewWarehouse : SingleValueWarehouse.t))
              (mkManager receiver_base (NewWarehouse : SingleValueWarehouse.t))
              5 control_attr ROLE_NODE "J") as (ev & Ej & Er & _).
  - apply unwire_wire.
  - vm_compute. reflexivity.
  - reflexivity.
  - reflexivity.
  - vm_compute. reflexivity.
  - reflexivity.
  - vm_compute. reflexivity.
  - reflexivity.
  - reflexivity.
  - split; [exists ev; by rewrite Ej|]. rewrite Er. vm_compute. reflexivity.
Defined.

Lemma shut_down_is_inert_witness :
  let b := (Shutdown sender_base).1 in
  publisher_ b = false /\ Shutdown b = (b, []).
Proof.
  pose proof (shut_down_is_inert (S := SingleValueWarehouse.t) (fun _ => None) (fun _ => None) (fun _ => true)
                sender_base NewWarehouse eq_refl) as Hs.
  cbv zeta. destruct (Shutdown sender_base) as [b ev].
  destruct Hs as (_ & Hp & _ & _ & _ & _ & _ & Hsd); [split_and!; reflexivity|]. by split.
Defined.
