(* ===== verification/ServiceManager.v ===== *)
(** ServiceManager.v -- src/src/apollo/cyber/service_discovery/specific_manager/service_manager.{h,cc}

    The registry of services: one server per service id, any number of clients.
    Proved against the warehouse interface. *)

From S2P Require Import Prelude.
From S2P Require Import Unordered.
From S2P Require Import Role.
From S2P Require Import Warehouse.
From S2P Require Import Manager.
From S2P Require Import NodeManager.
Local Open Scope Z_scope.

Section service_manager.
Context {WS WC : Type} `{Warehouse WS} `{Warehouse WC}.
Hypothesis one_server : multi (W := WS) = false.
Hypothesis many_clients : multi (W := WC) = true.

Record Services := mkServices { servers_ : WS; clients_ : WC }.

(** ServiceManager::ServiceManager *)
Definition NewServiceBase (host : string) (pid : Z) : Base :=
  NewBase (Z.lor (Z.lor 0 (Z.shiftl 1 (role_number ROLE_SERVER))) (Z.shiftl 1 (role_number ROLE_CLIENT)))
    CHANGE_SERVICE host pid "service_change_broadcast".

Definition HasService (Hash : string -> Z) (s : Services) (name : string) : bool :=
  SearchKey (servers_ s) (Hash name).
Definition GetServers (s : Services) (servers : list RoleAttributes) : list RoleAttributes :=
  GetAllAttrs (servers_ s) servers.
Definition GetClients (Hash : string -> Z) (s : Services) (name : string) (clients : list RoleAttributes)
    : list RoleAttributes :=
  (SearchKeyAttrs (clients_ s) (Hash name) clients).2.

Definition ServiceCheck (attr : RoleAttributes) : bool :=
  if negb (bool_decide (is_Some (service_name attr))) then false
  else if negb (bool_decide (is_Some (service_id attr))) then false
  else true.

(** std::make_shared<RoleServer>(msg.role_attr()), with timestamp 0. *)
Definition service_role (attr : RoleAttributes) : Role := mkRole RoleServer attr 0.
Definition service_key (r : Role) : Z := num (service_id (attributes_ r)).

Definition ServiceJoin (s : Services) (msg : ChangeMsg) : Services :=
  let role := service_role (role_attr msg) in
  if bool_decide (role_type msg = ROLE_SERVER) then
    mkServices (Add (servers_ s) (service_key role) role true).2 (clients_ s)
  else mkServices (servers_ s) (Add (clients_ s) (service_key role) role true).2.

Definition ServiceLeave (s : Services) (msg : ChangeMsg) : Services :=
  let role := service_role (role_attr msg) in
  if bool_decide (role_type msg = ROLE_SERVER) then
    mkServices (RemoveKey (servers_ s) (service_key role)) (clients_ s)
  else mkServices (servers_ s) (RemoveRole (clients_ s) (service_key role) role).

Definition ServiceDispose (b : Base) (s : Services) (msg : ChangeMsg) : Services * list Event :=
  (if bool_decide (operate_type msg = OPT_JOIN) then ServiceJoin s msg else ServiceLeave s msg, [Notified msg]).

Definition ServiceTopoLeave (b : Base) (s : Services) (now : nat -> Z) (host : string) (pid : Z)
    : Services * list Event :=
  if negb (is_discovery_started_ b) then (s, [])
  else
    let attr := of_process host pid in
    let servers_to_remove := (SearchAttrRoles (servers_ s) attr []).2 in
    let servers := foldl (fun w server => RemoveKey w (service_key server)) (servers_ s) servers_to_remove in
    let clients_to_remove := (SearchAttrRoles (clients_ s) attr []).2 in
    let clients := foldl (fun w client => RemoveRole w (service_key client) client) (clients_ s) clients_to_remove in
    (mkServices servers clients,
     imap (fun i server => Notified (Convert b (now i) (attributes_ server) ROLE_SERVER OPT_LEAVE)) servers_to_remove ++
     imap (fun i client => Notified (Convert b (now (length servers_to_remove + i)%nat) (attributes_ client) ROLE_CLIENT OPT_LEAVE))
       clients_to_remove).

#[export] Instance service_manager : SpecificManager Services := {
  Check := ServiceCheck; Dispose := ServiceDispose; OnTopoModuleLeave := ServiceTopoLeave;
  Check_Convert := fun b now attr role opt => eq_refl
}.

(** ** Well-formed registries *)

(** A role that says which process it belongs to. *)
Definition stamped (r : Role) : Prop :=
  is_Some (process_id (attributes_ r)) /\ is_Some (host_name (attributes_ r)).

Definition service_item (i : Z * Role) : Prop :=
  i.1 = service_key i.2 /\ kind i.2 = RoleServer /\ stamped i.2.

Record services_ok (s : Services) : Prop := mkServicesOk {
  so_unique : NoDup (items (servers_ s)).*1;
  so_servers : Forall service_item (items (servers_ s));
  so_clients : Forall service_item (items (clients_ s))
}.

Lemma ServiceDispose_ok b s msg :
  is_Some (process_id (role_attr msg)) -> is_Some (host_name (role_attr msg)) ->
  services_ok s -> services_ok (ServiceDispose b s msg).1.
Proof.
  intros Hp Hh [Hu Hs Hc]. unfold ServiceDispose. simpl.
  set (role := service_role (role_attr msg)).
  assert (service_item (service_key role, role)) as Hr by done.
  case_bool_decide; unfold ServiceJoin, ServiceLeave; fold role; case_bool_decide; constructor; simpl; try done.
  - destruct (items_add (servers_ s) (service_key role) role true (or_introl eq_refl)) as [_ Hi].
    rewrite one_server in Hi. rewrite Hi. simpl. apply NoDup_cons. split; [|by apply keep_keys_NoDup].
    intros [x Hx]%elem_of_keys. apply elem_of_keep in Hx as [_ Hx]. by apply bool_decide_eq_false in Hx.
  - destruct (items_add (servers_ s) (service_key role) role true (or_introl eq_refl)) as [_ Hi].
    rewrite one_server in Hi. rewrite Hi. constructor; [done|by apply Forall_keep].
  - destruct (items_add (clients_ s) (service_key role) role true (or_introl eq_refl)) as [_ Hi].
    rewrite many_clients in Hi. rewrite Hi. by constructor.
  - rewrite items_remove_key. by apply keep_keys_NoDup.
  - rewrite items_remove_key. by apply Forall_keep.
  - rewrite items_remove_role. by apply Forall_keep.
Qed.

(** ** A process that disappears *)

Lemma Match_of_process r host pid :
  kind r = RoleServer -> Match r (of_process host pid) = true <->
  num (process_id (attributes_ r)) = pid /\ str (host_name (attributes_ r)) = host.
Proof.
  intros Ek. unfold Match. rewrite Ek. rewrite RoleServer_Match_spec, RoleBase_Match_spec. simpl. split.
  - intros (_ & _ & Hp & Hh). split; symmetry; auto.
  - intros [<- <-]. split; [done|]. split; [done|]. split; by intros x [= <-].
Qed.

(** What matches the attributes of a stamped role is of the same process. *)
Lemma Match_same_process r r' host pid :
  service_item r -> service_item r' -> Match r.2 (of_process host pid) = true ->
  Match r'.2 (attributes_ r.2) = true -> Match r'.2 (of_process host pid) = true.
Proof.
  intros (_ & Ek & [p Hp] & [h Hh]) (_ & Ek' & _) Hm Hm'.
  apply Match_of_process in Hm as [<- <-]; [|done]. apply Match_of_process; [done|].
  unfold Match in Hm'. rewrite Ek' in Hm'. apply RoleServer_Match_spec in Hm' as [_ Hm'].
  apply RoleBase_Match_spec in Hm' as (_ & Hpid & Hhost). rewrite Hp, Hh in *. simpl. split; symmetry; auto.
Qed.

Lemma ServiceTopoLeave_items b s now host pid :
  services_ok s -> is_discovery_started_ b = true ->
  let s' := (ServiceTopoLeave b s now host pid).1 in
  items (servers_ s') ≡ₚ keep (matching (of_process host pid)) (items (servers_ s)) /\
  items (clients_ s') ≡ₚ keep (matching (of_process host pid)) (items (clients_ s)).
Proof.
  intros [Hu Hs Hc] Hst. unfold ServiceTopoLeave. rewrite Hst. simpl.
  destruct (items_search_attr_roles (servers_ s) (of_process host pid) []) as (fs & Hfs & Es & _).
  destruct (items_search_attr_roles (clients_ s) (of_process host pid) []) as (fc & Hfc & Ec & _).
  rewrite Es, Ec. simpl. rewrite Forall_forall in Hs, Hc. split.
  - apply remove_found_keys; [done| |done]. intros k r Hr. by apply Hs in Hr as [Hr _].
  - apply remove_found_roles; [| |done].
    + intros k r Hr. by apply Hc in Hr as [Hr _].
    + intros k r k' r' Hr Hr'. apply (Match_same_process (k, r) (k', r')); auto.
Qed.

Lemma services_ok_new : services_ok (mkServices NewWarehouse NewWarehouse).
Proof. constructor; simpl; rewrite items_new; constructor. Qed.

Lemma services_run_ok b ms s :
  Forall (fun m => is_Some (process_id (role_attr m)) /\ is_Some (host_name (role_attr m))) ms ->
  services_ok s -> services_ok (foldl (fun s m => (ServiceDispose b s m).1) s ms).
Proof.
  revert s. induction ms as [|m ms IH]; intros s Hm Hs; [done|]. apply Forall_cons in Hm as [[Hp Hh] Hm].
  simpl. apply IH; [done|]. by apply (ServiceDispose_ok b).
Qed.
End service_manager.

Arguments Services : clear implicits.

(** The service registry is right when a process disappears: after any
    sequence of joins and leaves that say which process they come from, exactly
    the servers and clients of that process are removed. *)
Theorem vanished_process_leaves_no_services `{HashOrder} b ms now host pid :
  Forall (fun m => is_Some (process_id (role_attr m)) /\ is_Some (host_name (role_attr m))) ms ->
  is_discovery_started_ b = true ->
  let s : Services SingleValueWarehouse.t MultiValueWarehouse.t :=
    foldl (fun s m => (ServiceDispose b s m).1) (mkServices NewWarehouse NewWarehouse) ms in
  let s' := (ServiceTopoLeave b s now host pid).1 in
  items (servers_ s') ≡ₚ keep (matching (of_process host pid)) (items (servers_ s)) /\
  items (clients_ s') ≡ₚ keep (matching (of_process host pid)) (items (clients_ s)).
Proof.
  intros Hm Hst s s'. apply ServiceTopoLeave_items; [|done].
  apply services_run_ok; [apply single_keeps_one|apply multi_keeps_all|done|apply services_ok_new].
Qed.

(** ** Concrete messages *)

Definition service_attr (host : string) (pid sid : Z) : RoleAttributes :=
  mkAttr (Some host) None (Some pid) None None None None None None None None None (Some "routing"%string) (Some sid).
Definition service_msg (op : OperateType) (role : RoleType) (pid : Z) : ChangeMsg :=
  mkMsg 0 CHANGE_SERVICE op role (service_attr "car" pid 9).

(** Process 1 serves, processes 1 and 2 are clients; process 1 disappears. *)
Definition service_history : list ChangeMsg :=
  [service_msg OPT_JOIN ROLE_SERVER 1; service_msg OPT_JOIN ROLE_CLIENT 1; service_msg OPT_JOIN ROLE_CLIENT 2].

Lemma vanished_process_leaves_no_services_witness :
  let b := with_started (NewServiceBase "car" 3) true in
  let s : Services SingleValueWarehouse.t MultiValueWarehouse.t :=
    foldl (fun s m => (ServiceDispose b s m).1) (mkServices NewWarehouse NewWarehouse) service_history in
  let s' := (ServiceTopoLeave b s (fun _ => 0) "car" 1).1 in
  items (servers_ s') ≡ₚ [] /\ items (clients_ s') ≡ₚ [(9, service_role (service_attr "car" 2 9))].
Proof.
  cbv zeta.
  destruct (vanished_process_leaves_no_services (with_started (NewServiceBase "car" 3) true) service_history
              (fun _ => 0) "car" 1) as [Hs Hc].
  - repeat constructor; eexists; reflexivity.
  - reflexivity.
  - rewrite Hs, Hc. vm_compute. split; reflexivity.
Defined.
