(* ===== verification/ChannelManager.v ===== *)
(** ChannelManager.v -- src/src/apollo/cyber/service_discovery/specific_manager/channel_manager.{h,cc}

    The registry of writers and readers, indexed by node and by channel, and the
    graph of nodes.  [RegisterNode] and [RegisterChannel] are the ids the
    registries of GlobalData.v give to a name, a stable injective function of
    it.  Registering a message type with the protobuf factory is an event of its
    own list; the mismatches that ScanMessageType logs are its result. *)

From S2P Require Import Prelude.
From S2P Require Import Unordered.
From S2P Require Import Role.
From S2P Require Import Warehouse.
From S2P Require Import Graph.
From S2P Require Import Manager.
From S2P Require Import NodeManager.
From S2P Require Import ServiceManager.
Local Open Scope Z_scope.

Section channel_manager.
Context `{HashOrder} {W : Type} `{Warehouse W}.
Hypothesis many : multi (W := W) = true.
Variable RegisterNode RegisterChannel : string -> Z.
Variable exempted_msg_types_ : list string.

Record Channels := mkChannels {
  node_writers_ : W;
  node_readers_ : W;
  channel_writers_ : W;
  channel_readers_ : W;
  node_graph_ : Graph;
  registered_descs : list string   (* ProtobufFactory::RegisterMessage calls *)
}.

Definition NewChannels : Channels :=
  mkChannels NewWarehouse NewWarehouse NewWarehouse NewWarehouse NewGraph [].

(** ChannelManager::ChannelManager *)
Definition NewChannelBase (host : string) (pid : Z) : Base :=
  NewBase (Z.lor (Z.lor 0 (Z.shiftl 1 (role_number ROLE_WRITER))) (Z.shiftl 1 (role_number ROLE_READER)))
    CHANGE_CHANNEL host pid "channel_change_broadcast".

(** ** Queries *)

(** The elements of an unordered_set of strings. *)
Definition string_set (l : list string) : gmap string unit := list_to_map ((fun s => (s, tt)) <$> l).

Definition GetChannelNames (s : Channels) (channels : list string) : list string :=
  let roles := GetAllRoles (channel_readers_ s) (GetAllRoles (channel_writers_ s) []) in
  channels ++ (iter (string_set ((fun r => str (channel_name (attributes_ r))) <$> roles))).*1.

Definition GetProtoDesc (s : Channels) (name desc : string) : string :=
  match SearchKeyRole (channel_writers_ s) (RegisterChannel name) with
  | None => desc
  | Some writer => match proto_desc (attributes_ writer) with Some d => d | None => desc end
  end.

Definition GetMsgType (s : Channels) (name msg_type : string) : string :=
  match SearchKeyRole (channel_writers_ s) (RegisterChannel name) with
  | None => msg_type
  | Some writer => match message_type (attributes_ writer) with Some t => t | None => msg_type end
  end.

Definition HasWriter (s : Channels) (name : string) : bool := SearchKey (channel_writers_ s) (RegisterChannel name).
Definition GetWriters (s : Channels) (out : list RoleAttributes) : list RoleAttributes :=
  GetAllAttrs (channel_writers_ s) out.
Definition GetWritersOfNode (s : Channels) (name : string) (out : list RoleAttributes) : list RoleAttributes :=
  (SearchKeyAttrs (node_writers_ s) (RegisterNode name) out).2.
Definition GetWritersOfChannel (s : Channels) (name : string) (out : list RoleAttributes) : list RoleAttributes :=
  (SearchKeyAttrs (channel_writers_ s) (RegisterChannel name) out).2.
Definition HasReader (s : Channels) (name : string) : bool := SearchKey (channel_readers_ s) (RegisterChannel name).
Definition GetReaders (s : Channels) (out : list RoleAttributes) : list RoleAttributes :=
  GetAllAttrs (channel_readers_ s) out.
Definition GetReadersOfNode (s : Channels) (name : string) (out : list RoleAttributes) : list RoleAttributes :=
  (SearchKeyAttrs (node_readers_ s) (RegisterNode name) out).2.
Definition GetReadersOfChannel (s : Channels) (name : string) (out : list RoleAttributes) : list RoleAttributes :=
  (SearchKeyAttrs (channel_readers_ s) (RegisterChannel name) out).2.

(** The attributes that identify the node of a role. *)
Definition node_of (a : RoleAttributes) : RoleAttributes :=
  mkAttr (Some (str (host_name a))) None (Some (num (process_id a))) (Some (str (node_name a)))
    (Some (num (node_id a))) None None None None None None None None None.

(** The nodes of [others], one entry per node name, the last one wins. *)
Definition nodes_by_name (others : list RoleAttributes) : gmap string RoleAttributes :=
  foldl (fun m a => <[str (node_name (node_of a)) := node_of a]> m) ∅ others.

Definition GetUpstreamOfNode (s : Channels) (name : string) (upstream_nodes : list RoleAttributes) : list RoleAttributes :=
  match GetReadersOfNode s name [] with
  | [] => upstream_nodes
  | readers =>
      let channels := string_set ((fun r => str (channel_name r)) <$> readers) in
      let writers := foldl (fun out c => GetWritersOfChannel s c out) [] (iter channels).*1 in
      upstream_nodes ++ (iter (nodes_by_name writers)).*2
  end.

Definition GetDownstreamOfNode (s : Channels) (name : string) (downstream_nodes : list RoleAttributes) : list RoleAttributes :=
  match GetWritersOfNode s name [] with
  | [] => downstream_nodes
  | writers =>
      let channels := string_set ((fun w => str (channel_name w)) <$> writers) in
      let readers := foldl (fun out c => GetReadersOfChannel s c out) [] (iter channels).*1 in
      downstream_nodes ++ (iter (nodes_by_name readers)).*2
  end.

Definition GetFlowDirection (s : Channels) (lhs rhs : string) : option (FlowDirection * Graph) :=
  GetDirectionOf (node_graph_ s) (mkVertice lhs) (mkVertice rhs).

Definition IsMessageTypeMatching (lhs rhs : string) : bool :=
  if bool_decide (lhs = rhs) then true
  else if bool_decide (lhs ∈ exempted_msg_types_) then true
  else if bool_decide (rhs ∈ exempted_msg_types_) then true
  else false.

(** ** Updates *)

Definition ChannelCheck (attr : RoleAttributes) : bool :=
  if negb (bool_decide (is_Some (channel_name attr))) then false
  else if negb (bool_decide (is_Some (channel_id attr))) then false
  else if negb (bool_decide (is_Some (id attr))) then false
  else true.

(** The existing writers and readers whose type does not match the newcomer's. *)
Definition ScanMessageType (s : Channels) (msg : ChangeMsg) : list RoleAttributes :=
  let key := num (channel_id (role_attr msg)) in
  let mismatch a := negb (IsMessageTypeMatching (str (message_type (role_attr msg))) (str (message_type a))) in
  List.filter mismatch (SearchKeyAttrs (channel_writers_ s) key []).2 ++
  List.filter mismatch (SearchKeyAttrs (channel_readers_ s) key []).2.

Definition rw_role (attr : RoleAttributes) (t : Z) : Role := mkRole RoleWriter attr t.
Definition rw_node_key (r : Role) : Z := num (node_id (attributes_ r)).
Definition channel_key (r : Role) : Z := num (channel_id (attributes_ r)).

(** DisposeJoin; the ScanMessageType it starts with only logs. *)
Definition ChannelJoin (s : Channels) (msg : ChangeMsg) : Channels :=
  let v := mkVertice (str (node_name (role_attr msg))) in
  let e_v := str (channel_name (role_attr msg)) in
  let role := rw_role (role_attr msg) (timestamp msg) in
  if bool_decide (role_type msg = ROLE_WRITER) then
    let descs := match proto_desc (role_attr msg) with
                 | Some d => if bool_decide (d = ""%string) then registered_descs s else registered_descs s ++ [d]
                 | None => registered_descs s
                 end in
    mkChannels (Add (node_writers_ s) (rw_node_key role) role true).2 (node_readers_ s)
      (Add (channel_writers_ s) (channel_key role) role true).2 (channel_readers_ s)
      (Insert (node_graph_ s) (mkEdge v (mkVertice "") e_v)) descs
  else
    mkChannels (node_writers_ s) (Add (node_readers_ s) (rw_node_key role) role true).2
      (channel_writers_ s) (Add (channel_readers_ s) (channel_key role) role true).2
      (Insert (node_graph_ s) (mkEdge (mkVertice "") v e_v)) (registered_descs s).

Definition ChannelLeave (s : Channels) (msg : ChangeMsg) : Channels :=
  let v := mkVertice (str (node_name (role_attr msg))) in
  let e_v := str (channel_name (role_attr msg)) in
  let role := rw_role (role_attr msg) 0 in
  if bool_decide (role_type msg = ROLE_WRITER) then
    mkChannels (RemoveRole (node_writers_ s) (rw_node_key role) role) (node_readers_ s)
      (RemoveRole (channel_writers_ s) (channel_key role) role) (channel_readers_ s)
      (Delete (node_graph_ s) (mkEdge v (mkVertice "") e_v)) (registered_descs s)
  else
    mkChannels (node_writers_ s) (RemoveRole (node_readers_ s) (rw_node_key role) role)
      (channel_writers_ s) (RemoveRole (channel_readers_ s) (channel_key role) role)
      (Delete (node_graph_ s) (mkEdge (mkVertice "") v e_v)) (registered_descs s).

Definition ChannelDispose (b : Base) (s : Channels) (msg : ChangeMsg) : Channels * list Event :=
  (if bool_decide (operate_type msg = OPT_JOIN) then ChannelJoin s msg else ChannelLeave s msg, [Notified msg]).

(** The two loops of OnTopoModuleLeave: convert, dispose, notify. *)
Definition leave_each (b : Base) (now : nat -> Z) (first : nat) (role : RoleType) (s : Channels) (rs : list Role)
    : Channels * list Event :=
  let msgs := imap (fun i r => Convert b (now (first + i)%nat) (attributes_ r) role OPT_LEAVE) rs in
  (foldl ChannelLeave s msgs, Notified <$> msgs).

Definition ChannelTopoLeave (b : Base) (s : Channels) (now : nat -> Z) (host : string) (pid : Z)
    : Channels * list Event :=
  if negb (is_discovery_started_ b) then (s, [])
  else
    let attr := of_process host pid in
    let writers_to_remove := (SearchAttrRoles (channel_writers_ s) attr []).2 in
    let readers_to_remove := (SearchAttrRoles (channel_readers_ s) attr []).2 in
    let '(s, ev) := leave_each b now 0 ROLE_WRITER s writers_to_remove in
    let '(s, ev') := leave_each b now (length writers_to_remove) ROLE_READER s readers_to_remove in
    (s, ev ++ ev').

#[export] Instance channel_manager : SpecificManager Channels := {
  Check := ChannelCheck; Dispose := ChannelDispose; OnTopoModuleLeave := ChannelTopoLeave;
  Check_Convert := fun b now attr role opt => eq_refl
}.

(** ** The two indexes hold the same roles *)

(** Attributes with everything a writer or reader is registered under. *)
Definition complete_attr (a : RoleAttributes) : Prop :=
  is_Some (node_id a) /\ is_Some (channel_id a) /\ is_Some (id a) /\
  is_Some (process_id a) /\ is_Some (host_name a).

Definition rw_item (key : Role -> Z) (i : Z * Role) : Prop :=
  i.1 = key i.2 /\ kind i.2 = RoleWriter /\ complete_attr (attributes_ i.2).

Definition roles (w : W) : list Role := (items w).*2.

Record index_ok (key : Role -> Z) (w : W) (rs : list Role) : Prop := mkIndexOk {
  ix_items : Forall (rw_item key) (items w);
  ix_roles : roles w ≡ₚ rs
}.

(** Both keys of a role are fixed by the attributes it matches. *)
Definition keyed (key : Role -> Z) : Prop :=
  forall r r', kind r = RoleWriter -> complete_attr (attributes_ r') ->
    Match r (attributes_ r') = true -> key r = key r'.

Lemma keyed_node : keyed rw_node_key.
Proof.
  intros r r' Ek ([n Hn] & _) Hm. unfold Match in Hm. rewrite Ek in Hm.
  apply RoleWriter_Match_spec in Hm as (_ & _ & Hm). apply RoleBase_Match_spec in Hm as [Hm _].
  unfold rw_node_key. rewrite Hn. simpl. symmetry. auto.
Qed.

Lemma keyed_channel : keyed channel_key.
Proof.
  intros r r' Ek (_ & [n Hn] & _) Hm. unfold Match in Hm. rewrite Ek in Hm.
  apply RoleWriter_Match_spec in Hm as (Hm & _). unfold channel_key. rewrite Hn. simpl. symmetry. auto.
Qed.

Lemma index_add key w rs r :
  index_ok key w rs -> kind r = RoleWriter -> complete_attr (attributes_ r) ->
  index_ok key (Add w (key r) r true).2 (r :: rs).
Proof.
  intros [Hi Hr] Ek Hc. destruct (items_add w (key r) r true (or_introl eq_refl)) as [_ Hp].
  rewrite many in Hp. constructor; [rewrite Hp; by constructor|]. unfold roles in *. rewrite Hp. simpl. by rewrite Hr.
Qed.

Definition others (t : RoleAttributes) (rs : list Role) : list Role := List.filter (fun r => negb (Match r t)) rs.

Lemma filter_role_perm (f : Role -> bool) : Proper (Permutation ==> Permutation) (List.filter f).
Proof.
  intros l l' Hl. induction Hl as [|x l l' _ IH|x y l|l1 l2 l3 _ IH1 _ IH2]; simpl.
  - done.
  - destruct (f x); [by constructor|done].
  - destruct (f x), (f y); try done. apply perm_swap.
  - by etrans.
Qed.

Lemma others_perm t rs rs' : rs ≡ₚ rs' -> others t rs ≡ₚ others t rs'.
Proof. intros Hp. unfold others. by apply filter_role_perm. Qed.

Lemma roles_keep t l : (keep (matching t) l).*2 = others t l.*2.
Proof.
  unfold keep, others, matching. induction l as [|i l IH]; simpl; [done|].
  destruct (Match i.2 t); simpl; [exact IH|]. f_equal. exact IH.
Qed.

Lemma index_remove key w rs r :
  keyed key -> index_ok key w rs -> complete_attr (attributes_ r) ->
  index_ok key (RemoveRole w (key r) r) (others (attributes_ r) rs).
Proof.
  intros Hk [Hi Hr] Hc.
  assert (items (RemoveRole w (key r) r) ≡ₚ keep (matching (attributes_ r)) (items w)) as E.
  { rewrite items_remove_role. rewrite (keep_ext _ (matching (attributes_ r))); [done|].
    intros [k x] Hx. rewrite Forall_forall in Hi. apply Hi in Hx as (Ekey & Ek & _). simpl in *.
    unfold at_key, matching. simpl. destruct (Match x (attributes_ r)) eqn:Em; [|by rewrite andb_false_r].
    rewrite bool_decide_true; [done|]. rewrite Ekey. by apply Hk. }
  constructor; [rewrite E; by apply Forall_keep|]. unfold roles. rewrite E, roles_keep. by apply others_perm.
Qed.

(** Writers [ws] and readers [rs] are registered, each under both keys. *)
Record channels_ok (s : Channels) (ws rs : list Role) : Prop := mkChannelsOk {
  co_nw : index_ok rw_node_key (node_writers_ s) ws;
  co_cw : index_ok channel_key (channel_writers_ s) ws;
  co_nr : index_ok rw_node_key (node_readers_ s) rs;
  co_cr : index_ok channel_key (channel_readers_ s) rs
}.

(** The registered roles as two lists, and what a message does to them. *)
Definition spec_dispose (st : list Role * list Role) (msg : ChangeMsg) : list Role * list Role :=
  let '(ws, rs) := st in
  match operate_type msg, bool_decide (role_type msg = ROLE_WRITER) with
  | OPT_JOIN, true => (rw_role (role_attr msg) (timestamp msg) :: ws, rs)
  | OPT_JOIN, false => (ws, rw_role (role_attr msg) (timestamp msg) :: rs)
  | OPT_LEAVE, true => (others (role_attr msg) ws, rs)
  | OPT_LEAVE, false => (ws, others (role_attr msg) rs)
  end.

Lemma ChannelDispose_ok b s ws rs msg :
  complete_attr (role_attr msg) -> channels_ok s ws rs ->
  channels_ok (ChannelDispose b s msg).1 (spec_dispose (ws, rs) msg).1 (spec_dispose (ws, rs) msg).2.
Proof.
  intros Hc [Hnw Hcw Hnr Hcr]. unfold ChannelDispose, spec_dispose. simpl.
  destruct (operate_type msg); simpl; unfold ChannelJoin, ChannelLeave;
    case_bool_decide; constructor; simpl; try done;
    (by apply index_add) || (apply (index_remove _ _ _ (rw_role (role_attr msg) 0)); [|done|done];
      apply keyed_node || apply keyed_channel).
Qed.

Lemma channels_run_ok b ms s ws rs :
  Forall (fun m => complete_attr (role_attr m)) ms -> channels_ok s ws rs ->
  let st := foldl spec_dispose (ws, rs) ms in
  channels_ok (foldl (fun s m => (ChannelDispose b s m).1) s ms) st.1 st.2.
Proof.
  revert s ws rs. induction ms as [|m ms IH]; intros s ws rs Hm Hs; [done|]. apply Forall_cons in Hm as [Hm Hms].
  pose proof (ChannelDispose_ok b s ws rs m Hm Hs) as Hs'. cbn [foldl].
  destruct (spec_dispose (ws, rs) m) as [ws' rs']. by apply IH.
Qed.

Lemma channels_ok_new : channels_ok NewChannels [] [].
Proof. constructor; constructor; unfold roles; simpl; rewrite items_new; constructor. Qed.

(** ** A process that disappears *)

Lemma rw_of_process r host pid :
  kind r = RoleWriter -> Match r (of_process host pid) = true <->
  num (process_id (attributes_ r)) = pid /\ str (host_name (attributes_ r)) = host.
Proof.
  intros Ek. unfold Match. rewrite Ek. rewrite RoleWriter_Match_spec, RoleBase_Match_spec. simpl. split.
  - intros (_ & _ & _ & Hp & Hh). split; symmetry; auto.
  - intros [<- <-]. split; [done|]. split; [done|]. split; [done|]. split; by intros x [= <-].
Qed.

Lemma rw_same_process r r' host pid :
  kind r = RoleWriter -> kind r' = RoleWriter -> complete_attr (attributes_ r) ->
  Match r (of_process host pid) = true -> Match r' (attributes_ r) = true -> Match r' (of_process host pid) = true.
Proof.
  intros Ek Ek' (_ & _ & _ & [p Hp] & [h Hh]) Hm Hm'.
  apply rw_of_process in Hm as [<- <-]; [|done]. apply rw_of_process; [done|].
  unfold Match in Hm'. rewrite Ek' in Hm'. apply RoleWriter_Match_spec in Hm' as (_ & _ & Hm').
  apply RoleBase_Match_spec in Hm' as (_ & Hpid & Hhost). rewrite Hp, Hh in *. simpl. split; symmetry; auto.
Qed.

(** Leaving on behalf of every role found removes the process. *)
Lemma others_found (found rs : list Role) host pid :
  (forall r, r ∈ rs -> kind r = RoleWriter /\ complete_attr (attributes_ r)) ->
  (forall r, r ∈ found <-> r ∈ rs /\ Match r (of_process host pid) = true) ->
  foldl (fun rs r => others (attributes_ r) rs) rs found = others (of_process host pid) rs.
Proof.
  intros Hok Hf.
  assert (forall l rs0, foldl (fun rs r => others (attributes_ r) rs) rs0 l =
    List.filter (fun x => negb (existsb (fun r => Match x (attributes_ r)) l)) rs0) as E.
  { induction l as [|r l IH]; intros rs0; simpl; [by rewrite filter_true|].
    rewrite IH. unfold others. rewrite filter_filter. apply filter_ext_in. intros x _.
    by destruct (Match x (attributes_ r)), (existsb _ l). }
  rewrite E. unfold others. apply filter_ext_in. intros x Hx. f_equal. apply eq_true_iff_eq.
  rewrite existsb_exists. setoid_rewrite <- list_elem_of_In. split.
  - intros (r & Hr & Hm). apply Hf in Hr as [Hr Hp]. destruct (Hok r Hr), (Hok x Hx).
    by apply (rw_same_process r x).
  - intros Hm. exists x. split; [by apply Hf|apply Match_self].
Qed.

Lemma Convert_complete b now a role opt : complete_attr a -> role_attr (Convert b now a role opt) = a.
Proof.
  intros (_ & _ & _ & [p Hp] & [h Hh]). destruct a as [hn ? pi]. simpl in *. by subst hn pi.
Qed.

Definition leave_one (role : RoleType) (st : list Role * list Role) (r : Role) : list Role * list Role :=
  if bool_decide (role = ROLE_WRITER) then (others (attributes_ r) st.1, st.2)
  else (st.1, others (attributes_ r) st.2).

Lemma leave_each_ok b now first role s st found :
  Forall (fun r => complete_attr (attributes_ r)) found -> channels_ok s st.1 st.2 ->
  let st' := foldl (leave_one role) st found in
  channels_ok (leave_each b now first role s found).1 st'.1 st'.2.
Proof.
  unfold leave_each. simpl. revert s st first.
  induction found as [|r found IH]; intros s st first Hc Hs; [done|]. apply Forall_cons in Hc as [Hc Hcs].
  cbn [imap foldl].
  set (m := Convert b (now (first + 0)%nat) (attributes_ r) role OPT_LEAVE).
  assert (channels_ok (ChannelLeave s m) (leave_one role st r).1 (leave_one role st r).2) as Hs'.
  { assert (role_attr m = attributes_ r) as Ea by (by apply Convert_complete).
    assert (role_type m = role /\ operate_type m = OPT_LEAVE) as [Er Eo] by done. clearbody m.
    pose proof (ChannelDispose_ok b s st.1 st.2 m ltac:(by rewrite Ea) Hs) as Hd. destruct st as [ws rs].
    unfold ChannelDispose, spec_dispose in Hd. rewrite Ea, Er, Eo in Hd. unfold leave_one. simpl in *.
    by destruct (bool_decide (role = ROLE_WRITER)). }
  rewrite (imap_ext _ (fun i r => Convert b (now (S first + i)%nat) (attributes_ r) role OPT_LEAVE)).
  - by apply (IH _ (leave_one role st r) (S first)).
  - intros i x _. simpl. do 2 f_equal. lia.
Qed.

Lemma leave_one_writers found st :
  foldl (leave_one ROLE_WRITER) st found = (foldl (fun rs r => others (attributes_ r) rs) st.1 found, st.2).
Proof. revert st. induction found as [|r l IH]; intros [ws rs]; simpl; [done|]. by rewrite IH. Qed.

Lemma leave_one_readers found st :
  foldl (leave_one ROLE_READER) st found = (st.1, foldl (fun rs r => others (attributes_ r) rs) st.2 found).
Proof. revert st. induction found as [|r l IH]; intros [ws rs]; simpl; [done|]. by rewrite IH. Qed.

Lemma index_roles key w rs : index_ok key w rs -> forall r, r ∈ rs -> kind r = RoleWriter /\ complete_attr (attributes_ r).
Proof.
  intros [Hi Hr] r Hin. rewrite <- Hr in Hin. unfold roles in Hin. apply list_elem_of_fmap in Hin as (i & -> & Hin).
  rewrite Forall_forall in Hi. apply Hi in Hin as (_ & ? & ?). done.
Qed.

Lemma found_roles key w rs t found :
  index_ok key w rs -> found ≡ₚ select (matching t) (items w) ->
  forall r, r ∈ found <-> r ∈ rs /\ Match r t = true.
Proof.
  intros [_ Hr] Hf r. rewrite Hf, elem_of_select, <- Hr. unfold roles, matching. simpl. split.
  - intros (k & Hk & Hm). split; [|done]. apply list_elem_of_fmap. by exists (k, r).
  - intros [Hin Hm]. apply list_elem_of_fmap in Hin as ([k x] & -> & Hin). eauto.
Qed.

Lemma ChannelTopoLeave_ok b s ws rs now host pid :
  channels_ok s ws rs -> is_discovery_started_ b = true ->
  channels_ok (ChannelTopoLeave b s now host pid).1 (others (of_process host pid) ws) (others (of_process host pid) rs).
Proof.
  intros Hok Hst. unfold ChannelTopoLeave. rewrite Hst. simpl negb. cbv iota zeta.
  pose proof (co_cw _ _ _ Hok) as Hcw. pose proof (co_cr _ _ _ Hok) as Hcr.
  destruct (items_search_attr_roles (channel_writers_ s) (of_process host pid) []) as (fw & Hfw & Ew & _).
  destruct (items_search_attr_roles (channel_readers_ s) (of_process host pid) []) as (fr & Hfr & Er & _).
  rewrite Ew, Er. cbn [snd app].
  pose proof (found_roles _ _ _ _ _ Hcw Hfw) as Hw. pose proof (found_roles _ _ _ _ _ Hcr Hfr) as Hr.
  assert (Forall (fun r => complete_attr (attributes_ r)) fw) as Hcfw.
  { apply Forall_forall. intros r Hin. apply Hw in Hin as [Hin _]. by apply (index_roles _ _ _ Hcw). }
  assert (Forall (fun r => complete_attr (attributes_ r)) fr) as Hcfr.
  { apply Forall_forall. intros r Hin. apply Hr in Hin as [Hin _]. by apply (index_roles _ _ _ Hcr). }
  pose proof (leave_each_ok b now 0 ROLE_WRITER s (ws, rs) fw Hcfw Hok) as H1'.
  destruct (leave_each b now 0 ROLE_WRITER s fw) as [s1 ev1]. cbv zeta in H1'. rewrite leave_one_writers in H1'.
  pose proof (leave_each_ok b now (length fw) ROLE_READER s1 _ fr Hcfr H1') as H2'.
  destruct (leave_each b now (length fw) ROLE_READER s1 fr) as [s2 ev2]. cbv zeta in H2'. rewrite leave_one_readers in H2'.
  simpl in H2' |- *.
  rewrite (others_found fw ws host pid (index_roles _ _ _ Hcw) Hw) in H2'.
  by rewrite (others_found fr rs host pid (index_roles _ _ _ Hcr) Hr) in H2'.
Qed.

(** ** The graph *)

Definition graph_op (msg : ChangeMsg) : GOp :=
  let v := mkVertice (str (node_name (role_attr msg))) in
  let e := if bool_decide (role_type msg = ROLE_WRITER) then mkEdge v (mkVertice "") (str (channel_name (role_attr msg)))
           else mkEdge (mkVertice "") v (str (channel_name (role_attr msg))) in
  if bool_decide (operate_type msg = OPT_JOIN) then GInsert e else GDelete e.

Lemma node_graph_run b ms s :
  node_graph_ (foldl (fun s m => (ChannelDispose b s m).1) s ms) = foldl run_gop (node_graph_ s) (graph_op <$> ms).
Proof.
  revert s. induction ms as [|m ms IH]; intros s; [done|]. cbn [foldl fmap list_fmap]. rewrite IH. f_equal.
  unfold ChannelDispose, graph_op, ChannelJoin, ChannelLeave. simpl. by repeat case_bool_decide.
Qed.

(** ** Upstream and downstream nodes *)

Lemma elem_of_string_set l c : c ∈ (iter (string_set l)).*1 <-> c ∈ l.
Proof.
  rewrite list_elem_of_fmap. unfold string_set. split.
  - intros ([x []] & -> & Hx). apply elem_of_iter, elem_of_list_to_map_2, list_elem_of_fmap in Hx as (y & [= ->] & Hy). done.
  - intros Hc. exists (c, tt). split; [done|]. apply elem_of_iter.
    destruct (list_to_map (M := gmap string unit) ((fun s => (s, tt)) <$> l) !! c) as [[]|] eqn:E; [done|].
    apply not_elem_of_list_to_map_2 in E. exfalso. apply E. rewrite <- list_fmap_compose.
    apply list_elem_of_fmap. by exists c.
Qed.

Lemma nodes_by_name_spec l n a :
  nodes_by_name l !! n = Some a -> str (node_name a) = n /\ exists x, x ∈ l /\ a = node_of x.
Proof.
  unfold nodes_by_name. induction l as [|x l IH] using rev_ind; simpl; [by rewrite lookup_empty|].
  rewrite foldl_app. simpl. rewrite lookup_insert_Some. intros [[<- <-]|[_ Ha]].
  - split; [done|]. exists x. set_solver.
  - destruct (IH Ha) as (? & y & Hy & ->). split; [done|]. exists y. set_solver.
Qed.

Lemma nodes_by_name_dom l x : x ∈ l -> is_Some (nodes_by_name l !! str (node_name x)).
Proof.
  unfold nodes_by_name. induction l as [|y l IH] using rev_ind; [by intros ?%not_elem_of_nil|].
  rewrite foldl_app. simpl. rewrite lookup_insert_is_Some. intros [Hx|Hx%list_elem_of_singleton]%elem_of_app.
  - destruct (decide (str (node_name y) = str (node_name x))); [by left|right; auto].
  - subst. by left.
Qed.

(** The node names a list of roles stands for, each once. *)
Lemma nodes_by_name_names l :
  NoDup ((fun a => str (node_name a)) <$> (iter (nodes_by_name l)).*2) /\
  forall n, n ∈ ((fun a => str (node_name a)) <$> (iter (nodes_by_name l)).*2) <-> exists x, x ∈ l /\ str (node_name x) = n.
Proof.
  assert ((fun a => str (node_name a)) <$> (iter (nodes_by_name l)).*2 = (iter (nodes_by_name l)).*1) as ->.
  { rewrite <- list_fmap_compose. apply list_fmap_ext. intros i [k a] Hi. simpl.
    apply list_elem_of_lookup_2, elem_of_iter in Hi. by apply nodes_by_name_spec in Hi as [? _]. }
  split; [apply NoDup_iter_keys|]. intros n. rewrite list_elem_of_fmap. split.
  - intros ([k a] & -> & Hi). apply elem_of_iter in Hi. destruct (nodes_by_name_spec _ _ _ Hi) as (<- & x & Hx & ->). eauto.
  - intros (x & Hx & <-). destruct (nodes_by_name_dom l x Hx) as [a Ha]. exists (str (node_name x), a).
    split; [done|]. by apply elem_of_iter.
Qed.

(** The roles of index [w] under the id of a name. *)
Definition under (w : W) (k : Z) (a : RoleAttributes) : Prop := exists r, (k, r) ∈ items w /\ a = attributes_ r.

Lemma elem_of_search w k out a : a ∈ (SearchKeyAttrs w k out).2 <-> a ∈ out \/ under w k a.
Proof.
  destruct (items_search_key_roles w k []) as (found & Hf & _ & Ha). rewrite Ha. simpl.
  rewrite elem_of_app, list_elem_of_fmap. setoid_rewrite Hf. setoid_rewrite elem_of_select. setoid_rewrite at_key_true. simpl.
  unfold under. split; (intros [?|Hx]; [by left|right]).
  - destruct Hx as (r & -> & k' & Hi & ->). eauto.
  - destruct Hx as (r & Hi & ->). eauto.
Qed.

Lemma elem_of_searches w cs out a :
  a ∈ foldl (fun out c => (SearchKeyAttrs w (RegisterChannel c) out).2) out cs <->
  a ∈ out \/ exists c, c ∈ cs /\ under w (RegisterChannel c) a.
Proof.
  revert out. induction cs as [|c cs IH]; intros out; simpl.
  - split; [by left|]. intros [|(c & Hc & _)]; [done|by apply not_elem_of_nil in Hc].
  - rewrite IH, elem_of_search. setoid_rewrite elem_of_cons. naive_solver.
Qed.

(** [n] names a node with a role in [far] on a channel on which the node has a
    role in [near]. *)
Definition across (near far : W) (key : Z) (n : string) : Prop :=
  exists a x, under near key a /\ under far (RegisterChannel (str (channel_name a))) x /\ str (node_name x) = n.

Lemma across_names near far key (l : list RoleAttributes) :
  (forall a, a ∈ l <-> under near key a) ->
  let others := foldl (fun out c => (SearchKeyAttrs far (RegisterChannel c) out).2) []
                  (iter (string_set ((fun r => str (channel_name r)) <$> l))).*1 in
  let names := (fun a => str (node_name a)) <$> (iter (nodes_by_name others)).*2 in
  NoDup names /\ forall n, n ∈ names <-> across near far key n.
Proof.
  intros Hl others0 names. destruct (nodes_by_name_names others0) as [Hd Hn]. split; [done|].
  intros n. unfold names. rewrite Hn. unfold others0, across. setoid_rewrite elem_of_searches. split.
  - intros (x & [Hx|(c & Hc & Hx)] & En); [by apply not_elem_of_nil in Hx|].
    rewrite elem_of_string_set in Hc. apply list_elem_of_fmap in Hc as (a & -> & Ha). apply Hl in Ha. eauto 10.
  - intros (a & x & Ha & Hx & En). exists x. split; [right|done]. exists (str (channel_name a)). split; [|done].
    rewrite elem_of_string_set. apply list_elem_of_fmap. exists a. split; [done|]. by apply Hl.
Qed.

Lemma across_none near far key : (forall a, ~ under near key a) -> forall n, ~ across near far key n.
Proof. intros Hno n (a & x & Ha & _). by apply (Hno a). Qed.

Lemma upstream_names s name :
  let names := (fun a => str (node_name a)) <$> GetUpstreamOfNode s name [] in
  NoDup names /\ forall n, n ∈ names <-> across (node_readers_ s) (channel_writers_ s) (RegisterNode name) n.
Proof.
  unfold GetUpstreamOfNode, GetReadersOfNode, GetWritersOfChannel.
  pose proof (fun a => elem_of_search (node_readers_ s) (RegisterNode name) [] a) as Hs.
  destruct (SearchKeyAttrs (node_readers_ s) (RegisterNode name) []).2 as [|a0 l] eqn:E; cbv zeta.
  - split; [constructor|]. intros n. split; [by intros ?%not_elem_of_nil|]. intros Hx.
    exfalso. eapply across_none; [|done]. intros a Ha. apply (not_elem_of_nil a), Hs. by right.
  - apply (across_names (node_readers_ s) (channel_writers_ s) (RegisterNode name) (a0 :: l)). intros a. rewrite Hs. split; [by intros [?%not_elem_of_nil|]|by right].
Qed.

Lemma downstream_names s name :
  let names := (fun a => str (node_name a)) <$> GetDownstreamOfNode s name [] in
  NoDup names /\ forall n, n ∈ names <-> across (node_writers_ s) (channel_readers_ s) (RegisterNode name) n.
Proof.
  unfold GetDownstreamOfNode, GetWritersOfNode, GetReadersOfChannel.
  pose proof (fun a => elem_of_search (node_writers_ s) (RegisterNode name) [] a) as Hs.
  destruct (SearchKeyAttrs (node_writers_ s) (RegisterNode name) []).2 as [|a0 l] eqn:E; cbv zeta.
  - split; [constructor|]. intros n. split; [by intros ?%not_elem_of_nil|]. intros Hx.
    exfalso. eapply across_none; [|done]. intros a Ha. apply (not_elem_of_nil a), Hs. by right.
  - apply (across_names (node_writers_ s) (channel_readers_ s) (RegisterNode name) (a0 :: l)). intros a. rewrite Hs. split; [by intros [?%not_elem_of_nil|]|by right].
Qed.
End channel_manager.

Arguments Channels : clear implicits.

(** C23. The channel registry refines two plain lists of roles: after any
    sequence of joins and leaves with complete attributes, the writers (and the
    readers) registered under their nodes and those registered under their
    channels are the same roles, namely those that joined and did not leave, and
    each is filed under its own node id and channel id. *)
Theorem channel_indexes_agree `{HashOrder} b ms :
  Forall (fun m => complete_attr (role_attr m)) ms ->
  let s : Channels MultiValueWarehouse.t := foldl (fun s m => (ChannelDispose b s m).1) NewChannels ms in
  let '(ws, rs) := foldl spec_dispose ([], []) ms in
  roles (node_writers_ s) ≡ₚ ws /\ roles (channel_writers_ s) ≡ₚ ws /\
  roles (node_readers_ s) ≡ₚ rs /\ roles (channel_readers_ s) ≡ₚ rs /\
  Forall (fun i => i.1 = rw_node_key i.2) (items (node_writers_ s) ++ items (node_readers_ s)) /\
  Forall (fun i => i.1 = channel_key i.2) (items (channel_writers_ s) ++ items (channel_readers_ s)).
Proof.
  intros Hm s. pose proof (channels_run_ok multi_keeps_all b ms NewChannels [] [] Hm channels_ok_new) as Hok.
  fold s in Hok. cbv zeta in Hok. destruct (foldl spec_dispose ([], []) ms) as [ws rs]. simpl in Hok.
  destruct Hok as [[I1 R1] [I2 R2] [I3 R3] [I4 R4]]. split_and!; try done; apply Forall_app;
    split; (eapply Forall_impl; [eassumption|]); by intros i [? _].
Qed.

(** When a process disappears exactly its writers and readers leave all four
    indexes. *)
Theorem vanished_process_leaves_no_channels `{HashOrder} b ms now host pid :
  Forall (fun m => complete_attr (role_attr m)) ms -> is_discovery_started_ b = true ->
  let s : Channels MultiValueWarehouse.t := foldl (fun s m => (ChannelDispose b s m).1) NewChannels ms in
  let s' := (ChannelTopoLeave b s now host pid).1 in
  let t := of_process host pid in
  roles (node_writers_ s') ≡ₚ others t (roles (channel_writers_ s)) /\
  roles (channel_writers_ s') ≡ₚ others t (roles (channel_writers_ s)) /\
  roles (node_readers_ s') ≡ₚ others t (roles (channel_readers_ s)) /\
  roles (channel_readers_ s') ≡ₚ others t (roles (channel_readers_ s)).
Proof.
  intros Hm Hst s s' t. pose proof (channels_run_ok multi_keeps_all b ms NewChannels [] [] Hm channels_ok_new) as Hok.
  fold s in Hok. cbv zeta in Hok. set (st := foldl spec_dispose ([], []) ms) in Hok.
  destruct (ChannelTopoLeave_ok multi_keeps_all b s st.1 st.2 now host pid Hok Hst) as [[_ R1] [_ R2] [_ R3] [_ R4]].
  destruct Hok as [_ [_ Rw] _ [_ Rr]]. fold s' t in R1, R2, R3, R4.
  split_and!; (etrans; [eassumption|]); apply others_perm; by symmetry.
Qed.

(** GetUpstreamOfNode lists exactly the nodes that have a writer on a channel
    the given node reads, each once; GetDownstreamOfNode exactly those that have
    a reader on a channel it writes. *)
Theorem neighbours_of_node `{HashOrder} (RegisterNode RegisterChannel : string -> Z)
    (s : Channels MultiValueWarehouse.t) name :
  let up := (fun a => str (node_name a)) <$> GetUpstreamOfNode RegisterNode RegisterChannel s name [] in
  let down := (fun a => str (node_name a)) <$> GetDownstreamOfNode RegisterNode RegisterChannel s name [] in
  NoDup up /\ NoDup down /\
  (forall n, n ∈ up <-> across RegisterChannel (node_readers_ s) (channel_writers_ s) (RegisterNode name) n) /\
  (forall n, n ∈ down <-> across RegisterChannel (node_writers_ s) (channel_readers_ s) (RegisterNode name) n).
Proof.
  destruct (upstream_names multi_keeps_all RegisterNode RegisterChannel s name) as [Hu Hun].
  destruct (downstream_names multi_keeps_all RegisterNode RegisterChannel s name) as [Hd Hdn]. done.
Qed.

(** ** Concrete messages *)

Definition rw_attr (node channel : string) (pid nid cid rid : Z) : RoleAttributes :=
  mkAttr (Some "car"%string) None (Some pid) (Some node) (Some nid) (Some channel) (Some cid) None None (Some rid)
    None None None None.
Definition rw_msg (op : OperateType) (role : RoleType) (a : RoleAttributes) : ChangeMsg :=
  mkMsg 0 CHANGE_CHANNEL op role a.

(** Node A has two writers of channel c, node B a reader. *)
Definition writer1 : RoleAttributes := rw_attr "A" "c" 1 10 20 1.
Definition writer2 : RoleAttributes := rw_attr "A" "c" 1 10 20 2.
Definition reader3 : RoleAttributes := rw_attr "B" "c" 2 11 20 3.
Definition two_writers : list ChangeMsg :=
  [rw_msg OPT_JOIN ROLE_WRITER writer1; rw_msg OPT_JOIN ROLE_WRITER writer2; rw_msg OPT_JOIN ROLE_READER reader3].
Definition channel_base : Base := with_started (NewChannelBase "car" 3) true.

Lemma two_writers_complete : Forall (fun m => complete_attr (role_attr m)) two_writers.
Proof. repeat constructor; eexists; reflexivity. Qed.

Lemma channel_indexes_agree_witness :
  let s : Channels MultiValueWarehouse.t :=
    foldl (fun s m => (ChannelDispose channel_base s m).1) NewChannels two_writers in
  roles (node_writers_ s) ≡ₚ [rw_role writer2 0; rw_role writer1 0] /\ length (roles (channel_writers_ s)) = 2%nat.
Proof.
  cbv zeta. split; [|vm_compute; reflexivity].
  exact (proj1 (channel_indexes_agree channel_base two_writers two_writers_complete)).
Defined.

Lemma vanished_process_leaves_no_channels_witness :
  let s : Channels MultiValueWarehouse.t :=
    foldl (fun s m => (ChannelDispose channel_base s m).1) NewChannels two_writers in
  let s' := (ChannelTopoLeave channel_base s (fun _ => 0) "car" 1).1 in
  roles (node_writers_ s') ≡ₚ [] /\ roles (channel_readers_ s') = [rw_role reader3 0].
Proof.
  cbv zeta. split; [|vm_compute; reflexivity].
  etrans; [exact (proj1 (vanished_process_leaves_no_channels channel_base two_writers (fun _ => 0) "car" 1
                           two_writers_complete eq_refl))|]. vm_compute. reflexivity.
Defined.

(** A node with two writers on a channel loses its edge when one of them
    leaves: the other writer is still registered, yet the flow direction from
    its node to the reader becomes UNREACHABLE. *)
Theorem second_writer_loses_its_edge :
  let s : Channels MultiValueWarehouse.t :=
    foldl (fun s m => (ChannelDispose channel_base s m).1) NewChannels
      (two_writers ++ [rw_msg OPT_LEAVE ROLE_WRITER writer1]) in
  roles (channel_writers_ s) = [rw_role writer2 0] /\ roles (channel_readers_ s) = [rw_role reader3 0] /\
  fst <$> GetFlowDirection s "A" "B" = Some UNREACHABLE.
Proof. vm_compute. done. Qed.
