(* ===== verification/Text.v ===== *)
(** Text.v -- what the sources use of std::string

    find, substr, std::to_string and std::stoi, on Rocq strings.  std::stoi skips
    leading white space, accepts a sign, reads as many digits as there are and
    ignores the rest; it throws std::invalid_argument when there is no digit and
    std::out_of_range when the value does not fit an int, both of which are
    [None]. *)

From S2P Require Import Prelude.
From Stdlib Require Import Ascii String.
Local Open Scope Z_scope.

Fixpoint find (c : ascii) (s : string) : option nat :=
  match s with
  | EmptyString => None
  | String a s => if Ascii.eqb a c then Some 0%nat else match find c s with Some n => Some (S n) | None => None end
  end.

(** s.substr(0, n) and s.substr(n) *)
Fixpoint take_str (n : nat) (s : string) : string :=
  match n, s with
  | S n, String a s => String a (take_str n s)
  | _, _ => EmptyString
  end.
Fixpoint drop_str (n : nat) (s : string) : string :=
  match n, s with
  | S n, String _ s => drop_str n s
  | O, _ => s
  | _, EmptyString => EmptyString
  end.

(** Decimal digits. *)
Definition digit_of (c : ascii) : option Z :=
  let n := Z.of_nat (nat_of_ascii c) in
  if (48 <=? n) && (n <=? 57) then Some (n - 48) else None.
Definition char_of (d : Z) : ascii := ascii_of_nat (Z.to_nat (d + 48)).

(** The digits of [z], most significant first, in front of [acc]. *)
Fixpoint digits (fuel : nat) (z : Z) (acc : string) : string :=
  match fuel with
  | O => acc
  | S fuel =>
      let acc := String (char_of (z mod 10)) acc in
      if z <? 10 then acc else digits fuel (z / 10) acc
  end.

(** std::to_string of an int; a 64-bit number has at most 20 digits. *)
Definition to_string (z : Z) : string :=
  if z <? 0 then String "-" (digits 20 (- z) "") else digits 20 z "".

(** The value of the leading digits and whether there is one. *)
Fixpoint read_digits (s : string) (seen : bool) (acc : Z) : option Z :=
  match s with
  | EmptyString => if seen then Some acc else None
  | String c s' =>
      match digit_of c with
      | Some d => read_digits s' true (acc * 10 + d)
      | None => if seen then Some acc else None
      end
  end.

Definition is_space (c : ascii) : bool :=
  let n := Z.of_nat (nat_of_ascii c) in (n =? 32) || ((9 <=? n) && (n <=? 13)).

Fixpoint skip_space (s : string) : string :=
  match s with
  | String c s' => if is_space c then skip_space s' else s
  | EmptyString => EmptyString
  end.

Definition stoi (s : string) : option Z :=
  let s := skip_space s in
  let '(neg, s) := match s with
                   | String c s' => if Ascii.eqb c "-" then (true, s')
                                    else if Ascii.eqb c "+" then (false, s') else (false, s)
                   | EmptyString => (false, s)
                   end in
  match read_digits s false 0 with
  | None => None
  | Some n =>
      let n := if neg then - n else n in
      if (- 2 ^ 31 <=? n) && (n <? 2 ^ 31) then Some n else None
  end.

(** ** Round trips *)

Lemma digit_of_char d : 0 <= d < 10 -> digit_of (char_of d) = Some d.
Proof.
  intros Hd. assert (d = 0 \/ d = 1 \/ d = 2 \/ d = 3 \/ d = 4 \/ d = 5 \/ d = 6 \/ d = 7 \/ d = 8 \/ d = 9) as Hc by lia.
  repeat destruct Hc as [->|Hc]; by subst.
Qed.

Lemma char_of_plain d : 0 <= d < 10 ->
  is_space (char_of d) = false /\ Ascii.eqb (char_of d) "-" = false /\ Ascii.eqb (char_of d) "+" = false.
Proof.
  intros Hd. assert (d = 0 \/ d = 1 \/ d = 2 \/ d = 3 \/ d = 4 \/ d = 5 \/ d = 6 \/ d = 7 \/ d = 8 \/ d = 9) as Hc by lia.
  repeat destruct Hc as [->|Hc]; by subst.
Qed.

(** Reading back the digits of [z] followed by [acc]. *)
Lemma read_digits_digits fuel z acc seen a :
  (0 < fuel)%nat -> 0 <= z < 10 ^ Z.of_nat fuel ->
  exists k, 0 <= k /\ z < 10 ^ k /\ read_digits (digits fuel z acc) seen a = read_digits acc true (a * 10 ^ k + z).
Proof.
  revert z acc seen. induction fuel as [|fuel IH]; intros z acc seen Hf Hz; [lia|]. cbn [digits].
  pose proof (Z.mod_pos_bound z 10 ltac:(lia)) as Hm.
  destruct (Z.ltb_spec z 10) as [Hlt|Hge].
  - exists 1. split; [lia|]. split; [lia|]. cbn [read_digits]. rewrite digit_of_char by done.
    rewrite Z.mod_small by lia. f_equal; lia.
  - rewrite Nat2Z.inj_succ, Z.pow_succ_r in Hz by lia.
    assert (0 < fuel)%nat as Hf'. { destruct fuel; [simpl in Hz; lia|lia]. }
    assert (0 <= z / 10 < 10 ^ Z.of_nat fuel) as Hz'.
    { split; [apply Z.div_pos; lia|]. apply Z.div_lt_upper_bound; lia. }
    destruct (IH (z / 10) (String (char_of (z mod 10)) acc) seen Hf' Hz') as (k & Hk & Hlt & E).
    exists (k + 1). split; [lia|]. pose proof (Z.div_mod z 10 ltac:(lia)) as Hdm.
    rewrite Z.pow_add_r, Z.pow_1_r by lia. split; [lia|]. rewrite E. cbn [read_digits].
    rewrite digit_of_char by done. f_equal; lia.
Qed.

(** The first character of a decimal is a digit. *)
Lemma digits_head fuel z acc : (0 < fuel)%nat -> 0 <= z ->
  exists d s, 0 <= d < 10 /\ digits fuel z acc = String (char_of d) s.
Proof.
  revert z acc. induction fuel as [|fuel IH]; intros z acc Hf Hz; [lia|]. cbn [digits].
  pose proof (Z.mod_pos_bound z 10 ltac:(lia)) as Hm.
  destruct (z <? 10); [eauto|]. destruct fuel as [|fuel]; [cbn [digits]; eauto|].
  apply IH; [lia|]. apply Z.div_pos; lia.
Qed.

Lemma stoi_to_string z : - 2 ^ 31 <= z < 2 ^ 31 -> stoi (to_string z) = Some z.
Proof.
  intros Hz. unfold to_string.
  assert (forall n, 0 <= n <= 2 ^ 31 -> read_digits (digits 20 n "") false 0 = Some n) as Hrd.
  { intros n Hn. destruct (read_digits_digits 20 n "" false 0) as (k & _ & _ & E); [lia|lia|]. rewrite E. simpl. f_equal. }
  destruct (Z.ltb_spec z 0) as [Hneg|Hpos].
  - change (stoi (String "-" (digits 20 (- z) ""))) with
      (match read_digits (digits 20 (- z) "") false 0 with
       | None => None
       | Some n => if (- 2 ^ 31 <=? - n) && (- n <? 2 ^ 31) then Some (- n) else None
       end).
    rewrite Hrd by lia. zcases; try (f_equal; lia); lia.
  - unfold stoi. destruct (digits_head 20 z "") as (d & s & Hd & E); [lia|lia|].
    destruct (char_of_plain d Hd) as (Hsp & Hmi & Hpl).
    assert (skip_space (digits 20 z "") = digits 20 z "") as -> by (rewrite E; cbn [skip_space]; by rewrite Hsp).
    rewrite E, Hmi, Hpl, <- E, Hrd by lia. zcases; try done; lia.
Qed.

Lemma find_app c s t : find c s = None -> find c (s ++ String c t) = Some (String.length s).
Proof.
  induction s as [|a s IH]; simpl; [by rewrite Ascii.eqb_refl|].
  destruct (Ascii.eqb a c); [done|]. destruct (find c s); [done|]. intros _. by rewrite IH.
Qed.

Lemma take_str_app s t : take_str (String.length s) (s ++ t) = s.
Proof. induction s as [|a s IH]; simpl; [by destruct t|by rewrite IH]. Qed.

Lemma drop_str_app s c t : drop_str (S (String.length s)) (s ++ String c t) = t.
Proof. induction s as [|a s IH]; simpl; [by destruct t|exact IH]. Qed.
