(* ===== verification/TopologyManager.v ===== *)
(** TopologyManager.v -- src/src/apollo/cyber/service_discovery/topology_manager.{h,cc}

    The owner of the three managers.  It starts their discovery on one RTPS
    participant, named after the host and the process, and turns the
    participants that Fast RTPS sees come and go into topology changes: when a
    participant is gone, its name tells which process has disappeared.

    The managers are used through the interface of Manager.v.  GUID_t is a type
    of Fast RTPS, and so are the results of creating endpoints. *)

From S2P Require Import Prelude.
From S2P Require Import Unordered.
From S2P Require Import Role.
From S2P Require Import Warehouse.
From S2P Require Import Manager.
From S2P Require Import NodeManager.
From S2P Require Import ServiceManager.
From S2P Require Import ChannelManager.
From S2P Require Import Text.
From Stdlib Require Import Ascii.
Local Open Scope Z_scope.

(** DISCOVERY_STATUS of Fast RTPS *)
Inductive DISCOVERY_STATUS :=
| DISCOVERED_RTPSPARTICIPANT | CHANGED_QOS_RTPSPARTICIPANT | REMOVED_RTPSPARTICIPANT | DROPPED_RTPSPARTICIPANT.

(** Which member a manager event comes from, and the effects of this class. *)
Inductive TopoEvent :=
| OfNode (e : Event) | OfChannel (e : Event) | OfService (e : Event)
| TopologyChanged (msg : ChangeMsg)  (* change_signal_(msg) *)
| ParticipantShutdown                (* participant_->Shutdown() *)
| ListenersDisconnected.             (* change_signal_.DisconnectAllSlots() *)

(** What creating a publisher and a subscriber comes to, for one manager. *)
Record Endpoints := mkEndpoints { pub_of : creation; sub_of : creation }.

Definition participant_name (host : string) (pid : Z) : string := (host ++ String "+"%char (to_string pid))%string.

Definition ParseParticipantName (name : string) : option (string * Z) :=
  match find "+"%char name with
  | None => None
  | Some pos =>
      let host_name := take_str pos name in
      match stoi (drop_str (S pos) name) with
      | None => None
      | Some process_id => Some (host_name, process_id)
      end
  end.

(** The attributes of a message that names a process. *)
Definition participant_attr (host : string) (pid : Z) : RoleAttributes :=
  mkAttr (Some host) None (Some pid) None None None None None None None None None None None.

Section topology_manager.
Context {GUID : Type} `{Countable GUID}.
Context {N C V : Type} `{SpecificManager N} `{SpecificManager C} `{SpecificManager V}.

Record PartInfo := mkPartInfo { m_guid : GUID; m_status : DISCOVERY_STATUS; m_RTPSParticipantName : string }.

(** The three managers are absent when their pointers are null. *)
Record TopologyManager := mkTopology {
  init_ : bool;
  node_manager_ : option (Manager N);
  channel_manager_ : option (Manager C);
  service_manager_ : option (Manager V);
  participant_ : option string;
  participant_listener_ : bool;
  participant_names_ : gmap GUID string
}.

(** The members before the constructor runs Init. *)
Definition NewTopology : TopologyManager := mkTopology false None None None None false ∅.

Definition CreateParticipant (host : string) (pid : Z) (t : TopologyManager) : TopologyManager :=
  mkTopology (init_ t) (node_manager_ t) (channel_manager_ t) (service_manager_ t)
    (Some (participant_name host pid)) true (participant_names_ t).

(** StartDiscovery of one manager; a null pointer is undefined behaviour and
    cannot occur in Init. *)
Definition InitManager {S} (m : Manager S) (fastrtps : bool) (e : Endpoints) : bool * Manager S :=
  let '(ok, b) := StartDiscovery (base m) fastrtps (pub_of e) (sub_of e) in (ok, mkManager b (specific m)).

(** [n], [c], [v] are the managers std::make_shared returns; [fastrtps] says
    whether the participant has an RTPS participant. *)
Definition Init (host : string) (pid : Z) (fastrtps : bool) (n : Manager N) (c : Manager C) (v : Manager V)
    (en ec ev : Endpoints) (t : TopologyManager) : bool * TopologyManager :=
  if init_ t then (true, t)
  else
    let t := CreateParticipant host pid
               (mkTopology true (Some n) (Some c) (Some v) (participant_ t) (participant_listener_ t)
                  (participant_names_ t)) in
    let '(ok, n) := InitManager n fastrtps en in
    let '(ok, c) := if ok then InitManager c fastrtps ec else (false, c) in
    let '(ok, v) := if ok then InitManager v fastrtps ev else (false, v) in
    if negb ok then (false, mkTopology false None None None None false (participant_names_ t))
    else (true, mkTopology true (Some n) (Some c) (Some v) (participant_ t) (participant_listener_ t)
                  (participant_names_ t)).

(** [None] is a call on a null pointer. *)
Definition Shutdown (t : TopologyManager) : option (TopologyManager * list TopoEvent) :=
  if negb (init_ t) then Some (t, [])
  else
    match node_manager_ t, channel_manager_ t, service_manager_ t, participant_ t with
    | Some n, Some c, Some v, Some p =>
        let '(bn, evn) := Manager.Shutdown (base n) in
        let '(bc, evc) := Manager.Shutdown (base c) in
        let '(bv, evv) := Manager.Shutdown (base v) in
        Some (mkTopology false (Some (mkManager bn (specific n))) (Some (mkManager bc (specific c)))
                (Some (mkManager bv (specific v))) (Some p) false (participant_names_ t),
              (OfNode <$> evn) ++ (OfChannel <$> evc) ++ (OfService <$> evv) ++
              [ParticipantShutdown; ListenersDisconnected])
    | _, _, _, _ => None
    end.

Definition with_names (t : TopologyManager) (names : gmap GUID string) : TopologyManager :=
  mkTopology (init_ t) (node_manager_ t) (channel_manager_ t) (service_manager_ t) (participant_ t)
    (participant_listener_ t) names.

(** TopologyManager::Convert *)
Definition ConvertInfo (t : TopologyManager) (now : Z) (info : PartInfo) : option ChangeMsg * TopologyManager :=
  let guid := m_guid info in
  let '(name, opt_type, names) :=
    match m_status info with
    | DISCOVERED_RTPSPARTICIPANT =>
        (m_RTPSParticipantName info, OPT_JOIN, <[guid := m_RTPSParticipantName info]> (participant_names_ t))
    | REMOVED_RTPSPARTICIPANT | DROPPED_RTPSPARTICIPANT =>
        match participant_names_ t !! guid with
        | Some name => (name, OPT_LEAVE, delete guid (participant_names_ t))
        | None => (""%string, OPT_LEAVE, participant_names_ t)
        end
    | CHANGED_QOS_RTPSPARTICIPANT => (""%string, OPT_JOIN, participant_names_ t)
    end in
  let t := with_names t names in
  match ParseParticipantName name with
  | None => (None, t)
  | Some (host, pid) => (Some (mkMsg now CHANGE_PARTICIPANT opt_type ROLE_PARTICIPANT (participant_attr host pid)), t)
  end.

(** OnParticipantChange; [now], [nn], [nc] and [nv] are the clock of Convert and of
    the three managers, [None] is a call on a null pointer. *)
Definition OnParticipantChange (t : TopologyManager) (now : Z) (nn nc nv : nat -> Z) (info : PartInfo)
    : option (TopologyManager * list TopoEvent) :=
  let '(msg, t) := ConvertInfo t now info in
  match msg with
  | None => Some (t, [])
  | Some msg =>
      if negb (init_ t) then Some (t, [])
      else if bool_decide (operate_type msg = OPT_LEAVE) then
        let host_name := str (host_name (role_attr msg)) in
        let process_id := num (process_id (role_attr msg)) in
        match node_manager_ t, channel_manager_ t, service_manager_ t with
        | Some n, Some c, Some v =>
            let '(n, evn) := TopoModuleLeave n nn host_name process_id in
            let '(c, evc) := TopoModuleLeave c nc host_name process_id in
            let '(v, evv) := TopoModuleLeave v nv host_name process_id in
            Some (mkTopology (init_ t) (Some n) (Some c) (Some v) (participant_ t) (participant_listener_ t)
                    (participant_names_ t),
                  (OfNode <$> evn) ++ (OfChannel <$> evc) ++ (OfService <$> evv) ++ [TopologyChanged msg])
        | _, _, _ => None
        end
      else Some (t, [TopologyChanged msg])
  end.

(** ** Lifecycle *)

(** While initialised, every pointer is set. *)
Definition topology_ok (t : TopologyManager) : Prop :=
  init_ t = true ->
  is_Some (node_manager_ t) /\ is_Some (channel_manager_ t) /\ is_Some (service_manager_ t) /\
  is_Some (participant_ t) /\ participant_listener_ t = true.

Lemma Init_topology_ok host pid f n c v en ec ev t :
  topology_ok t -> topology_ok (Init host pid f n c v en ec ev t).2.
Proof.
  unfold topology_ok, Init. destruct (init_ t) eqn:E; [by intros Ht _; apply Ht|]. intros _.
  repeat case_match; simpl; try done; intros _; split_and!; eauto.
Qed.

Lemma ConvertInfo_names t now info :
  exists names, (ConvertInfo t now info).2 = with_names t names.
Proof. unfold ConvertInfo. repeat case_match; simpl; eauto. Qed.

Lemma with_names_ok t names : topology_ok t -> topology_ok (with_names t names).
Proof. done. Qed.

(** No null pointer is ever followed. *)
Lemma OnParticipantChange_total t now nn nc nv info :
  topology_ok t -> exists t' ev, OnParticipantChange t now nn nc nv info = Some (t', ev) /\ topology_ok t' /\
    init_ t' = init_ t.
Proof.
  intros Hok. unfold OnParticipantChange. destruct (ConvertInfo_names t now info) as [names E].
  destruct (ConvertInfo t now info) as [[msg|] t1]; simpl in E; subst t1; [|by eauto 6].
  change (init_ (with_names t names)) with (init_ t).
  destruct (init_ t) eqn:Ei; [|by eauto 6]. simpl. case_bool_decide; [|by eauto 6].
  destruct (Hok Ei) as ([n Hn] & [c Hc] & [v Hv] & Hp & Hl). rewrite Hn, Hc, Hv.
  destruct (TopoModuleLeave n _ _ _), (TopoModuleLeave c _ _ _), (TopoModuleLeave v _ _ _).
  eexists _, _. split; [done|]. split; [|done]. unfold topology_ok. simpl. by eauto 6.
Qed.

Lemma Shutdown_total t :
  topology_ok t -> exists t' ev, Shutdown t = Some (t', ev) /\ init_ t' = false /\ topology_ok t'.
Proof.
  intros Hok. unfold Shutdown. destruct (init_ t) eqn:Ei; simpl.
  - destruct (Hok Ei) as ([n Hn] & [c Hc] & [v Hv] & [p Hp] & Hl). rewrite Hn, Hc, Hv, Hp.
    repeat case_match; eexists _, _; split; try done.
  - eexists _, _. done.
Qed.

(** ** Names *)

Lemma ParseParticipantName_round host pid :
  find "+"%char host = None -> is_i32 pid -> ParseParticipantName (participant_name host pid) = Some (host, pid).
Proof.
  intros Hh Hp. unfold ParseParticipantName, participant_name.
  rewrite find_app, take_str_app, drop_str_app by done. by rewrite stoi_to_string.
Qed.

(** A participant that was seen and is now gone is reported as its process. *)
Lemma ConvertInfo_gone t now guid name status host pid :
  status = REMOVED_RTPSPARTICIPANT \/ status = DROPPED_RTPSPARTICIPANT ->
  participant_names_ t !! guid = Some name -> ParseParticipantName name = Some (host, pid) ->
  forall any, ConvertInfo t now (mkPartInfo guid status any) =
    (Some (mkMsg now CHANGE_PARTICIPANT OPT_LEAVE ROLE_PARTICIPANT (participant_attr host pid)),
     with_names t (delete guid (participant_names_ t))).
Proof. intros Hs Hn Hp any. unfold ConvertInfo. by destruct Hs as [-> | ->]; simpl; rewrite Hn, Hp. Qed.

Lemma ConvertInfo_seen t now guid name host pid :
  ParseParticipantName name = Some (host, pid) ->
  ConvertInfo t now (mkPartInfo guid DISCOVERED_RTPSPARTICIPANT name) =
    (Some (mkMsg now CHANGE_PARTICIPANT OPT_JOIN ROLE_PARTICIPANT (participant_attr host pid)),
     with_names t (<[guid := name]> (participant_names_ t))).
Proof. intros Hp. unfold ConvertInfo. simpl. by rewrite Hp. Qed.

(** A participant that was not seen, or is forgotten, changes nothing. *)
Lemma OnParticipantChange_unknown t now nn nc nv guid status any :
  status <> DISCOVERED_RTPSPARTICIPANT -> participant_names_ t !! guid = None ->
  OnParticipantChange t now nn nc nv (mkPartInfo guid status any) = Some (t, []).
Proof.
  intros Hs Hn. unfold OnParticipantChange, ConvertInfo. destruct t as [i n c v p l names]. simpl in *.
  destruct status; [done| |rewrite Hn|rewrite Hn]; done.
Qed.

Lemma OnParticipantChange_gone t now nn nc nv guid name status any host pid n c v :
  init_ t = true -> node_manager_ t = Some n -> channel_manager_ t = Some c -> service_manager_ t = Some v ->
  status = REMOVED_RTPSPARTICIPANT \/ status = DROPPED_RTPSPARTICIPANT ->
  participant_names_ t !! guid = Some name -> ParseParticipantName name = Some (host, pid) ->
  OnParticipantChange t now nn nc nv (mkPartInfo guid status any) =
    Some (mkTopology true (Some (TopoModuleLeave n nn host pid).1) (Some (TopoModuleLeave c nc host pid).1)
            (Some (TopoModuleLeave v nv host pid).1) (participant_ t) (participant_listener_ t)
            (delete guid (participant_names_ t)),
          (OfNode <$> (TopoModuleLeave n nn host pid).2) ++ (OfChannel <$> (TopoModuleLeave c nc host pid).2) ++
          (OfService <$> (TopoModuleLeave v nv host pid).2) ++
          [TopologyChanged (mkMsg now CHANGE_PARTICIPANT OPT_LEAVE ROLE_PARTICIPANT (participant_attr host pid))]).
Proof.
  intros Hi Hn Hc Hv Hs Hname Hp. unfold OnParticipantChange.
  rewrite (ConvertInfo_gone _ _ _ _ _ _ _ Hs Hname Hp). simpl. rewrite Hi, Hn, Hc, Hv. simpl.
  by destruct (TopoModuleLeave n _ _ _), (TopoModuleLeave c _ _ _), (TopoModuleLeave v _ _ _).
Qed.
End topology_manager.
Arguments TopologyManager GUID {_ _} N C V.
Arguments PartInfo GUID : clear implicits.

(** ** What the table of names holds *)

Section names.
Context {GUID : Type} `{Countable GUID}.
Context {N C V : Type} `{SpecificManager N} `{SpecificManager C} `{SpecificManager V}.
Notation T := (TopologyManager GUID N C V).

(** The name under which [guid] was last discovered, unless it is gone since. *)
Definition name_step (known : option string) (guid : GUID) (info : PartInfo GUID) : option string :=
  if bool_decide (m_guid info = guid) then
    match m_status info with
    | DISCOVERED_RTPSPARTICIPANT => Some (m_RTPSParticipantName info)
    | CHANGED_QOS_RTPSPARTICIPANT => known
    | REMOVED_RTPSPARTICIPANT | DROPPED_RTPSPARTICIPANT => None
    end
  else known.
Definition known_name (infos : list (PartInfo GUID)) (guid : GUID) : option string :=
  foldl (fun known info => name_step known guid info) None infos.

(** A sequence of reports from Fast RTPS, at time [now]. *)
Fixpoint reports (t : T) (now : nat -> Z) (infos : list (PartInfo GUID)) : option (T * list TopoEvent) :=
  match infos with
  | [] => Some (t, [])
  | info :: infos =>
      match OnParticipantChange t (now 0%nat) now now now info with
      | None => None
      | Some (t, ev) => match reports t now infos with
                        | None => None
                        | Some (t, ev') => Some (t, ev ++ ev')
                        end
      end
  end.

Lemma names_step (t : T) now nn nc nv info t' ev guid :
  OnParticipantChange t now nn nc nv info = Some (t', ev) ->
  participant_names_ t' !! guid = name_step (participant_names_ t !! guid) guid info.
Proof.
  unfold OnParticipantChange, ConvertInfo, name_step. destruct info as [g st nm]; simpl.
  intros E. case_bool_decide as Hg.
  - subst g. destruct st; [| |destruct (participant_names_ t !! guid) eqn:El..]; simpl in E;
      repeat case_match; simplify_eq/=; rewrite ?lookup_insert_eq, ?lookup_delete_eq; done.
  - destruct st; [| |destruct (participant_names_ t !! g) eqn:El..]; simpl in E;
      repeat case_match; simplify_eq/=; rewrite ?lookup_insert_ne, ?lookup_delete_ne by done; done.
Qed.

Lemma reports_names infos (t : T) now t' ev guid :
  reports t now infos = Some (t', ev) ->
  participant_names_ t' !! guid = foldl (fun known info => name_step known guid info) (participant_names_ t !! guid) infos.
Proof.
  revert t ev. induction infos as [|info infos IH]; intros t ev; cbn [reports foldl]; [by intros [= <- _]|].
  destruct (OnParticipantChange t _ _ _ _ info) as [[t1 ev1]|] eqn:E1; [|done].
  destruct (reports t1 now infos) as [[t2 ev2]|] eqn:E2; [|done]. intros [= -> <-].
  rewrite <- (names_step _ _ _ _ _ _ _ _ guid E1). by apply (IH t1 ev2).
Qed.

Lemma reports_total infos (t : T) now :
  topology_ok t -> exists t' ev, reports t now infos = Some (t', ev) /\ topology_ok t' /\ init_ t' = init_ t.
Proof.
  revert t. induction infos as [|info infos IH]; intros t Hok; cbn [reports]; [by eauto|].
  destruct (OnParticipantChange_total t (now 0%nat) now now now info Hok) as (t1 & ev1 & -> & Hok1 & Hi1).
  destruct (IH t1 Hok1) as (t2 & ev2 & -> & Hok2 & Hi2). rewrite Hi1 in Hi2. by eauto.
Qed.
End names.

(** The topology manager never follows a null pointer and its table of names
    is exact: any sequence of reports about participants is processed, before,
    during and after its lifetime, and afterwards a participant is in the table
    under the name it was last discovered with, unless it has gone since. *)
Theorem participant_table_exact {GUID} `{Countable GUID} {N C V : Type}
    `{SpecificManager N} `{SpecificManager C} `{SpecificManager V}
    host pid fastrtps (n : Manager N) (c : Manager C) (v : Manager V) en ec ev now infos :
  exists (t : TopologyManager GUID N C V) evs,
    reports (Init host pid fastrtps n c v en ec ev NewTopology).2 now infos = Some (t, evs) /\
    (forall guid, participant_names_ t !! guid = known_name infos guid) /\
    exists t' evs', Shutdown t = Some (t', evs') /\ init_ t' = false /\
      forall more, exists t'' evs'', reports t' now more = Some (t'', evs'').
Proof.
  set (t0 := (Init host pid fastrtps n c v en ec ev NewTopology).2).
  assert (topology_ok t0) as Hok by (by apply Init_topology_ok).
  assert (participant_names_ t0 = ∅) as E0 by (subst t0; unfold Init; repeat case_match; done).
  destruct (reports_total infos t0 now Hok) as (t & evs & Hr & Hok1 & _). exists t, evs. split; [done|]. split.
  - intros guid. rewrite (reports_names infos t0 now t evs guid Hr), E0. unfold known_name. f_equal; apply (lookup_empty (M := gmap GUID)).
  - destruct (Shutdown_total t Hok1) as (t' & evs' & Hs & Hi & Hok2). exists t', evs'. split; [done|]. split; [done|].
    intros more. destruct (reports_total more t' now Hok2) as (t'' & evs'' & Hm & _). eauto.
Qed.

(** C8. A process that disappears is removed from every registry: when the
    participant of process [pid] of [host] (named by the process itself as in
    CreateParticipant) is reported removed or dropped, then exactly its nodes,
    its servers and clients, and its writers and readers under both indexes are
    gone, and its departure is announced. *)
Theorem vanished_participant_leaves_nothing `{HashOrder} {GUID} `{Countable GUID}
    (t : TopologyManager GUID SingleValueWarehouse.t (Channels MultiValueWarehouse.t)
           (Services SingleValueWarehouse.t MultiValueWarehouse.t))
    now nn nc nv guid status host pid n c v ws rs :
  init_ t = true -> node_manager_ t = Some n -> channel_manager_ t = Some c -> service_manager_ t = Some v ->
  is_discovery_started_ (base n) = true -> is_discovery_started_ (base c) = true -> is_discovery_started_ (base v) = true ->
  nodes_ok (specific n) -> channels_ok (specific c) ws rs -> services_ok (specific v) ->
  find "+"%char host = None -> is_i32 pid ->
  participant_names_ t !! guid = Some (participant_name host pid) ->
  status = REMOVED_RTPSPARTICIPANT \/ status = DROPPED_RTPSPARTICIPANT ->
  let gone := of_process host pid in
  exists t' ev n' c' v',
    OnParticipantChange t now nn nc nv (mkPartInfo guid status "") =
      Some (t', ev ++ [TopologyChanged (mkMsg now CHANGE_PARTICIPANT OPT_LEAVE ROLE_PARTICIPANT (participant_attr host pid))]) /\
    node_manager_ t' = Some n' /\ channel_manager_ t' = Some c' /\ service_manager_ t' = Some v' /\
    items (specific n') ≡ₚ keep (matching gone) (items (specific n)) /\
    channels_ok (specific c') (others gone ws) (others gone rs) /\
    items (servers_ (specific v')) ≡ₚ keep (matching gone) (items (servers_ (specific v))) /\
    items (clients_ (specific v')) ≡ₚ keep (matching gone) (items (clients_ (specific v))) /\
    participant_names_ t' !! guid = None.
Proof.
  intros Hi Hn Hc Hv Dn Dc Dv On Oc Ov Hh Hp Hname Hs gone.
  pose proof (OnParticipantChange_gone t now nn nc nv guid _ status "" host pid n c v Hi Hn Hc Hv Hs Hname
                (ParseParticipantName_round host pid Hh Hp)) as E.
  eexists _, ((OfNode <$> _) ++ (OfChannel <$> _) ++ (OfService <$> _)), _, _, _.
  split; [rewrite E, <- !app_assoc; reflexivity|]. cbn. split; [done|]. split; [done|]. split; [done|].
  pose proof (NodeTopoLeave_items (W := SingleValueWarehouse.t) (base n) (specific n) nn host pid On Dn) as Ln.
  pose proof (ChannelTopoLeave_ok multi_keeps_all (base c) (specific c) ws rs nc host pid Oc Dc) as Lc.
  pose proof (ServiceTopoLeave_items (base v) (specific v) nv host pid Ov Dv) as [Ls Lk].
  unfold TopoModuleLeave. cbn.
  destruct (NodeTopoLeave _ _ _ _ _) as [w' ev']. destruct (ChannelTopoLeave _ _ _ _ _) as [s' ev''].
  destruct (ServiceTopoLeave _ _ _ _ _) as [u' ev'''].
  destruct Ln as [Ln _]. split_and!; [exact Ln|exact Lc|exact Ls|exact Lk|apply lookup_delete_eq].
Qed.

(** ** A concrete departure

    Process 3 of "car" knows a node of process 2, the services of
    [service_history] and the writers and readers of [two_writers]; then the
    participant of process 2 is dropped. *)

Definition topology_example :
    TopologyManager Z SingleValueWarehouse.t (Channels MultiValueWarehouse.t)
      (Services SingleValueWarehouse.t MultiValueWarehouse.t) :=
  mkTopology true
    (Some (mkManager (with_started (NewNodeBase "car" 3) true) (dispose_all here_base NewWarehouse [first_join])))
    (Some (mkManager channel_base (foldl (fun s m => (ChannelDispose channel_base s m).1) NewChannels two_writers)))
    (Some (mkManager (with_started (NewServiceBase "car" 3) true)
       (foldl (fun s m => (ServiceDispose here_base s m).1) (mkServices NewWarehouse NewWarehouse) service_history)))
    (Some (participant_name "car" 3)) true {[ 77 := participant_name "car" 2 ]}.

Lemma first_join_ok : nodes_ok (dispose_all here_base (NewWarehouse : SingleValueWarehouse.t) [first_join]).
Proof.
  apply (dispose_joins (W := SingleValueWarehouse.t) single_keeps_one here_base [first_join]).
  - repeat constructor.
  - intros m m' Hm Hm' _ _. apply list_elem_of_singleton in Hm as ->, Hm' as ->. reflexivity.
Qed.

Lemma vanished_participant_leaves_nothing_witness :
  exists t' ev n', OnParticipantChange topology_example 9 (fun _ => 9) (fun _ => 9) (fun _ => 9)
      (mkPartInfo 77 DROPPED_RTPSPARTICIPANT "") = Some (t', ev) /\
    node_manager_ t' = Some n' /\ items (specific n') ≡ₚ [].
Proof.
  destruct (vanished_participant_leaves_nothing topology_example 9 (fun _ => 9) (fun _ => 9) (fun _ => 9) 77
              DROPPED_RTPSPARTICIPANT "car" 2 _ _ _ _ _
              eq_refl eq_refl eq_refl eq_refl eq_refl eq_refl eq_refl first_join_ok
              (channels_run_ok multi_keeps_all channel_base two_writers NewChannels [] [] two_writers_complete channels_ok_new)
              (services_run_ok single_keeps_one multi_keeps_all here_base service_history _
                 ltac:(repeat constructor; eexists; reflexivity) services_ok_new)
              eq_refl ltac:(unfold is_i32; lia) ltac:(vm_compute; reflexivity) (or_intror eq_refl))
    as (t' & ev & n' & c' & v' & E & En & _ & _ & Hn & _).
  eexists t', _, n'. split; [exact E|]. split; [exact En|]. rewrite Hn. vm_compute. constructor.
Defined.
