(* ===== verification/CRoutine.v ===== *)
(** CRoutine.v -- src/src/apollo/cyber/croutine/croutine.{h,cc}

    A coroutine as the scheduler sees it: its scheduling state, the two atomic
    flags and its attributes.  Routines are shared objects (the registry of the
    scheduler and the run queues point to the same ones), so they live in a heap
    and a std::shared_ptr<CRoutine> is a position in it.

    The code that runs between the two SwapContext calls of Resume is the user's
    function.  What the scheduler can observe of it is how it gives the
    processor back: [yielded]. *)

From S2P Require Import Prelude.
Local Open Scope Z_scope.

Inductive RoutineState := READY | FINISHED | SLEEP | IO_WAIT | DATA_WAIT.

#[export] Instance RoutineState_eq_dec : EqDecision RoutineState.
Proof. solve_decision. Defined.

Record CRoutine := mkCRoutine {
  name_ : string;
  id_ : Z;
  state_ : RoutineState;
  lock_ : bool;          (* atomic_flag: held by a processor *)
  updated_ : bool;       (* atomic_flag: clear when an event has arrived *)
  force_stop_ : bool;
  processor_id_ : Z;
  priority_ : Z;
  group_name_ : string;
  wake_time_ : Z
}.

(** CRoutine::CRoutine at time [now] *)
Definition NewCRoutine (now : Z) : CRoutine := mkCRoutine "" 0 READY false true false (-1) 0 "" now.

Definition set_id (i : Z) (c : CRoutine) : CRoutine :=
  mkCRoutine (name_ c) i (state_ c) (lock_ c) (updated_ c) (force_stop_ c) (processor_id_ c) (priority_ c) (group_name_ c) (wake_time_ c).
Definition set_name (n : string) (c : CRoutine) : CRoutine :=
  mkCRoutine n (id_ c) (state_ c) (lock_ c) (updated_ c) (force_stop_ c) (processor_id_ c) (priority_ c) (group_name_ c) (wake_time_ c).
Definition set_state (s : RoutineState) (c : CRoutine) : CRoutine :=
  mkCRoutine (name_ c) (id_ c) s (lock_ c) (updated_ c) (force_stop_ c) (processor_id_ c) (priority_ c) (group_name_ c) (wake_time_ c).
Definition set_priority (p : Z) (c : CRoutine) : CRoutine :=
  mkCRoutine (name_ c) (id_ c) (state_ c) (lock_ c) (updated_ c) (force_stop_ c) (processor_id_ c) (u32 p) (group_name_ c) (wake_time_ c).
Definition set_processor_id (p : Z) (c : CRoutine) : CRoutine :=
  mkCRoutine (name_ c) (id_ c) (state_ c) (lock_ c) (updated_ c) (force_stop_ c) (i32 p) (priority_ c) (group_name_ c) (wake_time_ c).
Definition set_group_name (g : string) (c : CRoutine) : CRoutine :=
  mkCRoutine (name_ c) (id_ c) (state_ c) (lock_ c) (updated_ c) (force_stop_ c) (processor_id_ c) (priority_ c) g (wake_time_ c).
Definition with_lock (b : bool) (c : CRoutine) : CRoutine :=
  mkCRoutine (name_ c) (id_ c) (state_ c) b (updated_ c) (force_stop_ c) (processor_id_ c) (priority_ c) (group_name_ c) (wake_time_ c).
Definition with_updated (b : bool) (c : CRoutine) : CRoutine :=
  mkCRoutine (name_ c) (id_ c) (state_ c) (lock_ c) b (force_stop_ c) (processor_id_ c) (priority_ c) (group_name_ c) (wake_time_ c).
Definition with_wake_time (t : Z) (c : CRoutine) : CRoutine :=
  mkCRoutine (name_ c) (id_ c) (state_ c) (lock_ c) (updated_ c) (force_stop_ c) (processor_id_ c) (priority_ c) (group_name_ c) t.

Definition Stop (c : CRoutine) : CRoutine :=
  mkCRoutine (name_ c) (id_ c) (state_ c) (lock_ c) (updated_ c) true (processor_id_ c) (priority_ c) (group_name_ c) (wake_time_ c).
Definition Wake (c : CRoutine) : CRoutine := set_state READY c.

(** !lock_.test_and_set() *)
Definition Acquire (c : CRoutine) : bool * CRoutine := (negb (lock_ c), with_lock true c).
Definition Release (c : CRoutine) : CRoutine := with_lock false c.
Definition SetUpdateFlag (c : CRoutine) : CRoutine := with_updated false c.

Definition UpdateState (now : Z) (c : CRoutine) : RoutineState * CRoutine :=
  if bool_decide (state_ c = SLEEP) && (wake_time_ c <? now) then
    let c := set_state READY c in (state_ c, c)
  else if negb (updated_ c) then
    let c := with_updated true c in
    let c := if bool_decide (state_ c = DATA_WAIT) || bool_decide (state_ c = IO_WAIT) then set_state READY c else c in
    (state_ c, c)
  else let c := with_updated true c in (state_ c, c).

(** How the function of a routine returns to the main stack. *)
Inductive yielded :=
| YieldPlain                     (* CRoutine::Yield() *)
| YieldState (s : RoutineState)  (* CRoutine::Yield(state) *)
| SleepFor (now d : Z)           (* Sleep(d) at time now *)
| Returned.                      (* the end of CRoutineEntry *)

Definition HangUp : yielded := YieldState DATA_WAIT.

Definition run (y : yielded) (c : CRoutine) : CRoutine :=
  match y with
  | YieldPlain => c
  | YieldState s => set_state s c
  | SleepFor now d => set_state SLEEP (with_wake_time (now + d) c)
  | Returned => set_state FINISHED c
  end.

(** [body] is what the routine does with itself while it runs. *)
Definition Resume (body : CRoutine -> CRoutine) (c : CRoutine) : RoutineState * CRoutine :=
  if force_stop_ c then let c := set_state FINISHED c in (state_ c, c)
  else if negb (bool_decide (state_ c = READY)) then (state_ c, c)
  else let c := body c in (state_ c, c).

(** ** Heap of routines *)

Notation Heap := (list CRoutine).
Notation Ptr := nat.

Definition alloc (h : Heap) (c : CRoutine) : Ptr * Heap := (length h, h ++ [c]).
Definition upd (h : Heap) (p : Ptr) (f : CRoutine -> CRoutine) : Heap := alter f p h.

(** ** Facts *)

(** What UpdateState decides, and that it changes nothing but the state and the
    flag. *)
Definition runnable (now : Z) (c : CRoutine) : bool :=
  match state_ c with
  | READY => true
  | SLEEP => wake_time_ c <? now
  | DATA_WAIT | IO_WAIT => negb (updated_ c)
  | FINISHED => false
  end.

Lemma UpdateState_runnable now c :
  bool_decide ((UpdateState now c).1 = READY) = runnable now c.
Proof.
  unfold UpdateState, runnable. destruct c as [nm i st l u f pid pr g w]; simpl.
  destruct st, u, (w <? now); reflexivity.
Qed.

(** A routine that is not runnable keeps its state; its flag is set. *)
Lemma UpdateState_waits now c :
  runnable now c = false -> UpdateState now c = (state_ c, with_updated true c).
Proof.
  unfold UpdateState, runnable. destruct c as [nm i st l u f pid pr g w]; simpl.
  destruct st, u, (w <? now); done.
Qed.

Lemma UpdateState_runs now c :
  runnable now c = true -> exists u, UpdateState now c = (READY, with_updated u (set_state READY c)).
Proof.
  unfold UpdateState, runnable. destruct c as [nm i st l u f pid pr g w]; simpl.
  destruct st, u, (w <? now); try done; intros _; unfold with_updated, set_state; simpl; eauto.
Qed.

Lemma upd_lookup_eq h p f c : h !! p = Some c -> upd h p f !! p = Some (f c).
Proof. intros E. unfold upd. rewrite list_lookup_alter_eq, E. done. Qed.

Lemma upd_lookup_ne h p q f : p <> q -> upd h p f !! q = h !! q.
Proof. intros E. unfold upd. by rewrite list_lookup_alter_ne. Qed.

Lemma length_upd h p f : length (upd h p f) = length h.
Proof. unfold upd. apply length_alter. Qed.

Lemma upd_upd h p f g : upd (upd h p f) p g = upd h p (fun c => g (f c)).
Proof.
  apply list_eq. intros i. destruct (decide (p = i)) as [<-|Hn]; [|by rewrite !upd_lookup_ne].
  unfold upd. rewrite !list_lookup_alter_eq. by destruct (h !! p).
Qed.

Lemma upd_id h p f c : h !! p = Some c -> f c = c -> upd h p f = h.
Proof.
  intros E Ef. apply list_eq. intros i. destruct (decide (p = i)) as [<-|Hn].
  - rewrite (upd_lookup_eq _ _ _ _ E), Ef. done.
  - by rewrite upd_lookup_ne.
Qed.

#[export] Hint Rewrite length_upd : cyber.
