(* ===== verification/Contexts.v ===== *)
(** Contexts.v -- src/src/apollo/cyber/scheduler/policy/classic_context.{h,cc} and
    choreography_context.{h,cc}

    Where a processor takes its next routine from: the run queues of a group,
    one per priority and shared by all processors of the group, or the one
    queue of a processor, ordered by priority.  Both walk their routines in
    order, take the lock of each, let it update its state and return the first
    one that is ready, still locked.

    [clock p] is the time read when routine [p] is looked at; any function is
    allowed, so nothing is assumed on how much time the walk takes. *)

From S2P Require Import Prelude.
From S2P Require Import CRoutine.
Local Open Scope Z_scope.

Definition MAX_PRIO : nat := 20.
Definition DEFAULT_GROUP_NAME : string := "default_grp".

(** ** The walk *)

Section scan.
Context {A : Type} (on_wait : A -> CRoutine -> A) (clock : Ptr -> Z).

(** [on_wait] is what the context notes about a routine that is not ready.  A
    pointer outside the heap ends the walk; the queues hold none. *)
Fixpoint scan (q : list Ptr) (h : Heap) (a : A) : option Ptr * Heap * A :=
  match q with
  | [] => (None, h, a)
  | p :: q =>
      match h !! p with
      | None => (None, h, a)
      | Some c =>
          let '(acquired, c) := Acquire c in
          if negb acquired then scan q (<[p := c]> h) a
          else
            let '(st, c) := UpdateState (clock p) c in
            if bool_decide (st = READY) then (Some p, <[p := c]> h, a)
            else scan q (<[p := Release c]> h) (on_wait a c)
      end
  end.

(** A routine the walk would return when it gets to it. *)
Definition available (h : Heap) (p : Ptr) : Prop :=
  exists c, h !! p = Some c /\ lock_ c = false /\ runnable (clock p) c = true.

#[export] Instance available_dec h p : Decision (available h p).
Proof.
  destruct (h !! p) as [c|] eqn:E.
  - destruct (lock_ c) eqn:El, (runnable (clock p) c) eqn:Er;
      [right|right|left|right]; try (intros (c' & E' & ? & ?); congruence). by exists c.
  - right. intros (c & E' & _). congruence.
Defined.

(** The only change to a routine that is passed over: its event flag is set. *)
Definition passed (c : CRoutine) : CRoutine := if lock_ c then c else with_updated true c.

Definition queue_ok (h : Heap) (q : list Ptr) : Prop := NoDup q /\ Forall (fun p => is_Some (h !! p)) q.

(** The routines that wait, in the order they are looked at. *)
Definition waiting (h : Heap) (q : list Ptr) : list CRoutine :=
  flat_map (fun p => match h !! p with
                     | Some c => if lock_ c then [] else [with_lock true (with_updated true c)]
                     | None => []
                     end) q.

Lemma with_lock_same c b : lock_ c = b -> with_lock b c = c.
Proof. intros <-. by destruct c. Qed.

Lemma queue_ok_cons h p q f c :
  queue_ok h (p :: q) -> h !! p = Some c -> queue_ok (<[p := f]> h) q /\
    (forall x, x ∈ q -> x <> p).
Proof.
  intros [Hnd Hf] E. apply NoDup_cons in Hnd as [Hp Hnd]. apply Forall_cons in Hf as [_ Hf].
  assert (forall x, x ∈ q -> x <> p) as Hne by (intros x Hx ->; done). split; [|done]. split; [done|].
  rewrite Forall_forall in *. intros x Hx. rewrite list_lookup_insert_ne by (symmetry; auto). auto.
Qed.

Lemma waiting_agree h h' q : (forall p, p ∈ q -> h' !! p = h !! p) -> waiting h' q = waiting h q.
Proof.
  unfold waiting. induction q as [|p q IH]; intros Ha; [done|]. simpl. rewrite Ha by left.
  rewrite IH; [done|]. intros x Hx. apply Ha. by right.
Qed.

(** The walk over routines none of which is available. *)
Lemma scan_none q h a :
  queue_ok h q -> (forall p, p ∈ q -> ~ available h p) ->
  exists h', scan q h a = (None, h', foldl on_wait a (waiting h q)) /\
    forall p, h' !! p = if decide (p ∈ q) then passed <$> h !! p else h !! p.
Proof.
  revert h a. induction q as [|p q IH]; intros h a Hok Hn.
  { exists h. split; [done|]. intros p. rewrite decide_False; [done|by apply not_elem_of_nil]. }
  destruct Hok as [Hnd Hf] eqn:Eok. clear Eok. pose proof Hf as Hf0.
  apply Forall_cons in Hf0 as [[c Hc] _]. cbn [scan]. rewrite Hc.
  assert (lock_ c = true \/ (lock_ c = false /\ runnable (clock p) c = false)) as Hcase.
  { destruct (lock_ c) eqn:El; [by left|]. right. split; [done|]. destruct (runnable (clock p) c) eqn:Er; [|done].
    exfalso. apply (Hn p); [left|]. by exists c. }
  set (c' := passed c).
  destruct (queue_ok_cons h p q c' c (conj Hnd Hf) Hc) as [Hok' Hne].
  assert (forall x, x ∈ q -> (<[p := c']> h : Heap) !! x = h !! x) as Hag.
  { intros x Hx. apply list_lookup_insert_ne. intros <-. by apply (Hne p). }
  assert (forall x, x ∈ q -> ~ available (<[p := c']> h) x) as Hn'.
  { intros x Hx (d & Hd & Hl & Hr). rewrite Hag in Hd by done. apply (Hn x); [by right|]. by exists d. }
  assert (forall a', exists h', scan q (<[p := c']> h) a' = (None, h', foldl on_wait a' (waiting h q)) /\
    forall x, h' !! x = if decide (x ∈ p :: q) then passed <$> h !! x else h !! x) as HG.
  { intros a'. destruct (IH (<[p := c']> h) a' Hok' Hn') as (h' & E & Hh'). exists h'.
    rewrite E, (waiting_agree h (<[p := c']> h) q Hag). split; [done|]. intros x. rewrite Hh'.
    destruct (decide (x = p)) as [->|Hxp].
    - rewrite (decide_True (P := p ∈ p :: q)) by left. rewrite decide_False by (by intros Hx; apply (Hne p)).
      rewrite Hc. apply list_lookup_insert_eq. by eapply lookup_lt_Some.
    - rewrite list_lookup_insert_ne by done. destruct (decide (x ∈ q)) as [Hx|Hx].
      + rewrite decide_True by (by right). done.
      + rewrite decide_False; [done|]. rewrite elem_of_cons. tauto. }
  unfold Acquire, c', passed, waiting in *. simpl. rewrite Hc. destruct Hcase as [El|[El Er]]; rewrite El in *; simpl.
  - rewrite with_lock_same by done. apply HG.
  - rewrite UpdateState_waits by (destruct c; done). simpl.
    assert (bool_decide (state_ c = READY) = false) as -> by (unfold runnable in Er; by destruct (state_ c)).
    replace (Release (with_updated true (with_lock true c))) with (with_updated true c) by (destruct c; simpl in El; by subst).
    replace (with_updated true (with_lock true c)) with (with_lock true (with_updated true c)) by by destruct c.
    apply HG.
Qed.

Lemma scan_app pre q h a :
  Forall (fun x => is_Some (h !! x)) pre ->
  scan (pre ++ q) h a = match scan pre h a with
                        | (None, h', a') => scan q h' a'
                        | r => r
                        end.
Proof.
  revert h a. induction pre as [|x pre IH]; intros h a Hf; simpl; [done|].
  apply Forall_cons in Hf as [[c E] Hf]. rewrite E.
  assert (forall f : CRoutine, Forall (fun y => is_Some ((<[x := f]> h : Heap) !! y)) pre) as Hf'.
  { intros f. rewrite !Forall_forall in *. setoid_rewrite lookup_lt_is_Some. rewrite length_insert.
    intros y Hy. by apply lookup_lt_is_Some, Hf. }
  destruct (negb _); [by apply IH|]. destruct (UpdateState _ _) as [st c']. destruct (bool_decide _); [done|].
  by apply IH.
Qed.

(** The walk up to the first available routine. *)
Lemma scan_found pre p post h a :
  queue_ok h (pre ++ p :: post) -> (forall x, x ∈ pre -> ~ available h x) -> available h p ->
  exists h' c u, scan (pre ++ p :: post) h a = (Some p, h', foldl on_wait a (waiting h pre)) /\
    h !! p = Some c /\ h' !! p = Some (with_lock true (with_updated u (set_state READY c))) /\
    forall x, x <> p -> h' !! x = if decide (x ∈ pre) then passed <$> h !! x else h !! x.
Proof.
  intros [Hnd Hf] Hpre Hav.
  assert (p ∉ pre) as Hp. { apply NoDup_app in Hnd as (_ & Hd & _). intros Hx. apply (Hd p Hx). left. }
  destruct (scan_none pre h a) as (h1 & E1 & Hh1).
  { apply NoDup_app in Hnd as [Hnd _]. apply Forall_app in Hf as [Hf _]. done. }
  { done. }
  rewrite scan_app, E1 by (by apply Forall_app in Hf as [Hf _]).
  destruct Hav as (c & Hc & Hl & Hr). cbn [scan].
  assert (h1 !! p = Some c) as Hc1 by (by rewrite Hh1, decide_False).
  rewrite Hc1. unfold Acquire. simpl. rewrite Hl. simpl.
  destruct (UpdateState_runs (clock p) (with_lock true c)) as [u Eu]; [by destruct c|]. rewrite Eu. simpl.
  eexists _, c, u. split; [done|]. split; [done|]. split.
  - rewrite list_lookup_insert_eq by (by eapply lookup_lt_Some). f_equal.
  - intros x Hx. by rewrite list_lookup_insert_ne, Hh1.
Qed.

(** Either some routine is available, and there is a first one, or none is. *)
Lemma first_available h q :
  (exists pre p post, q = pre ++ p :: post /\ (forall x, x ∈ pre -> ~ available h x) /\ available h p) \/
  (forall p, p ∈ q -> ~ available h p).
Proof.
  induction q as [|p q IH]; [right; by intros p ?%not_elem_of_nil|].
  destruct (decide (available h p)) as [Ha|Ha].
  - left. exists [], p, q. split; [done|]. split; [by intros x ?%not_elem_of_nil|done].
  - destruct IH as [(pre & x & post & -> & Hp & Hx)|Hn].
    + left. exists (p :: pre), x, post. split; [done|]. split; [|done].
      intros y [->|Hy]%elem_of_cons; auto.
    + right. intros y [->|Hy]%elem_of_cons; auto.
Qed.
End scan.

(** ** ClassicContext *)

(** The run queues of a group, one per priority. *)
Notation MULTI_PRIO_QUEUE := (list (list Ptr)).
Definition empty_queues : MULTI_PRIO_QUEUE := replicate MAX_PRIO [].

(** cr_group_[name]: the subscript creates a group that is not there. *)
Definition group_at (groups : gmap string MULTI_PRIO_QUEUE) (name : string) : MULTI_PRIO_QUEUE :=
  default empty_queues (groups !! name).

(** The context of a processor; the group says which queues it uses. *)
Record ClassicContext := mkClassic {
  cc_stop_ : bool;
  need_sleep_ : bool;
  cc_wake_time_ : Z;
  cc_group : string
}.
Definition NewClassic (group : string) : ClassicContext := mkClassic false false 0 group.

(** The branch for a routine that stays asleep. *)
Definition note_sleep (ctx : ClassicContext) (c : CRoutine) : ClassicContext :=
  if bool_decide (state_ c = SLEEP) then
    if negb (need_sleep_ ctx) || (wake_time_ c <? cc_wake_time_ ctx) then
      mkClassic (cc_stop_ ctx) true (wake_time_ c) (cc_group ctx)
    else ctx
  else ctx.

(** for (i = MAX_PRIO - 1; i >= 0; --i) *)
Fixpoint prio_loop (clock : Ptr -> Z) (i : nat) (mq : MULTI_PRIO_QUEUE) (h : Heap) (ctx : ClassicContext)
    : option Ptr * Heap * ClassicContext :=
  match i with
  | O => (None, h, ctx)
  | S i =>
      match scan note_sleep clock (default [] (mq !! i)) h ctx with
      | (None, h, ctx) => prio_loop clock i mq h ctx
      | r => r
      end
  end.

Definition Classic_NextRoutine (clock : Ptr -> Z) (mq : MULTI_PRIO_QUEUE) (h : Heap) (ctx : ClassicContext)
    : option Ptr * Heap * ClassicContext :=
  if cc_stop_ ctx then (None, h, ctx) else prio_loop clock MAX_PRIO mq h ctx.

(** How long Wait blocks when nobody notifies: not at all, up to a time, or
    without limit. *)
Inductive waits := NoWait | WaitFor (d : Z) | WaitForever.

Definition Classic_Wait (now : Z) (ctx : ClassicContext) : waits * ClassicContext :=
  if cc_stop_ ctx then (NoWait, ctx)
  else if need_sleep_ ctx then
    (WaitFor (cc_wake_time_ ctx - now), mkClassic (cc_stop_ ctx) false (cc_wake_time_ ctx) (cc_group ctx))
  else (WaitForever, ctx).

Definition Classic_Shutdown (ctx : ClassicContext) : ClassicContext :=
  if negb (cc_stop_ ctx) then mkClassic true (need_sleep_ ctx) (cc_wake_time_ ctx) (cc_group ctx) else ctx.

(** The routines of a group in the order of the walk: highest priority first. *)
Definition walk_order (n : nat) (mq : MULTI_PRIO_QUEUE) : list Ptr := concat (rev (take n mq)).

Lemma walk_order_S n mq q : mq !! n = Some q -> walk_order (S n) mq = q ++ walk_order n mq.
Proof. intros E. unfold walk_order. rewrite (take_S_r mq n q E), rev_unit. done. Qed.

Lemma scan_keeps_heap {A} (w : A -> CRoutine -> A) clock q h a :
  length (scan w clock q h a).1.2 = length h.
Proof.
  revert h a. induction q as [|p q IH]; intros h a; cbn [scan]; [done|]. destruct (h !! p); [|done].
  unfold Acquire. destruct (negb _); [by rewrite IH, length_insert|].
  destruct (UpdateState _ _). destruct (bool_decide _); [apply length_insert|by rewrite IH, length_insert].
Qed.

Lemma prio_loop_scan clock n mq h ctx :
  (n <= length mq)%nat -> Forall (fun p => is_Some (h !! p)) (walk_order n mq) ->
  prio_loop clock n mq h ctx = scan note_sleep clock (walk_order n mq) h ctx.
Proof.
  revert h ctx. induction n as [|n IH]; intros h ctx Hn Hf; [done|]. cbn [prio_loop].
  destruct (lookup_lt_is_Some_2 mq n ltac:(lia)) as [q Hq]. rewrite Hq. simpl.
  rewrite (walk_order_S _ _ _ Hq) in *. apply Forall_app in Hf as [Hf1 Hf2].
  rewrite scan_app by done. pose proof (scan_keeps_heap note_sleep clock q h ctx) as Hlen.
  destruct (scan note_sleep clock q h ctx) as [[[p|] h'] ctx']; [done|]. simpl in Hlen. apply IH; [lia|].
  rewrite !Forall_forall in *. setoid_rewrite lookup_lt_is_Some. rewrite Hlen.
  intros p Hp. by apply lookup_lt_is_Some, Hf2.
Qed.

(** Where a position of the walk lies in the queues. *)
Lemma walk_order_split n mq pre p post :
  (n <= length mq)%nat -> walk_order n mq = pre ++ p :: post ->
  exists i q before after, (i < n)%nat /\ mq !! i = Some q /\ q = before ++ p :: after /\
    (forall x, x ∈ before -> x ∈ pre) /\
    forall j q' x, (i < j < n)%nat -> mq !! j = Some q' -> x ∈ q' -> x ∈ pre.
Proof.
  revert pre. induction n as [|n IH]; intros pre Hn E.
  { unfold walk_order in E. simpl in E. by destruct pre. }
  destruct (lookup_lt_is_Some_2 mq n ltac:(lia)) as [q Hq]. rewrite (walk_order_S _ _ _ Hq) in E.
  apply app_eq_app in E as (l & [[-> E]|[-> E]]).
  - destruct l as [|y l]; simpl in E.
    + rewrite app_nil_r in Hq. destruct (IH [] ltac:(lia)) as (i & q' & b & af & Hi & Hq' & -> & Hb & Hj).
      { by rewrite <- E. }
      exists i, (b ++ p :: af), b, af. split; [lia|]. split; [exact Hq'|]. split; [done|]. split.
      * intros x Hx. by apply Hb, not_elem_of_nil in Hx.
      * intros j q'' x Hij Hq'' Hx. destruct (decide (j = n)) as [->|]; [by rewrite Hq in Hq''; simplify_eq|].
        apply (Hj j q'' x) in Hx as Hx'; [by apply not_elem_of_nil in Hx'|lia|done].
    + injection E as <- E. exists n, (pre ++ p :: l), pre, l. split; [lia|]. split; [done|]. split; [done|].
      split; [done|]. lia.
  - destruct (IH l ltac:(lia) E) as (i & q' & b & af & Hi & Hq' & -> & Hb & Hj).
    exists i, (b ++ p :: af), b, af. split; [lia|]. split; [exact Hq'|]. split; [done|]. split.
    + intros x Hx. apply elem_of_app. right. auto.
    + intros j q'' x Hij Hq'' Hx. apply elem_of_app. destruct (decide (j = n)) as [->|]; [left; by rewrite Hq in Hq''; simplify_eq|].
      right. apply (Hj j q'' x); [lia|done|done].
Qed.

Lemma elem_of_walk n mq p : (n <= length mq)%nat ->
  p ∈ walk_order n mq <-> exists i q, (i < n)%nat /\ mq !! i = Some q /\ p ∈ q.
Proof.
  intros Hn. split.
  - intros (pre & post & E)%list_elem_of_split.
    destruct (walk_order_split _ _ _ _ _ Hn E) as (i & q & b & af & Hi & Hq & -> & _).
    eexists i, _. split; [done|]. split; [done|]. set_solver.
  - intros (i & q & Hi & Hq & Hp). induction n as [|n IH]; [lia|].
    destruct (lookup_lt_is_Some_2 mq n ltac:(lia)) as [q' Hq']. rewrite (walk_order_S _ _ _ Hq'), elem_of_app.
    destruct (decide (i = n)) as [->|]; [left; by simplify_eq|]. right. apply IH; lia.
Qed.

(** What the walk notes about sleepers. *)
Lemma note_sleep_fold l ctx :
  let ctx' := foldl note_sleep ctx l in
  cc_stop_ ctx' = cc_stop_ ctx /\ cc_group ctx' = cc_group ctx /\
  (need_sleep_ ctx = true -> need_sleep_ ctx' = true /\ cc_wake_time_ ctx' <= cc_wake_time_ ctx) /\
  forall c, c ∈ l -> state_ c = SLEEP -> need_sleep_ ctx' = true /\ cc_wake_time_ ctx' <= wake_time_ c.
Proof.
  revert ctx. induction l as [|d l IH]; intros ctx ctx'; subst ctx'; simpl.
  { split_and!; [done|done|by intros ->|by intros c ?%not_elem_of_nil]. }
  destruct (IH (note_sleep ctx d)) as (Hs & Hg & Hk & Hc).
  assert (cc_stop_ (note_sleep ctx d) = cc_stop_ ctx /\ cc_group (note_sleep ctx d) = cc_group ctx /\
    (need_sleep_ ctx = true -> need_sleep_ (note_sleep ctx d) = true /\ cc_wake_time_ (note_sleep ctx d) <= cc_wake_time_ ctx) /\
    (state_ d = SLEEP -> need_sleep_ (note_sleep ctx d) = true /\ cc_wake_time_ (note_sleep ctx d) <= wake_time_ d))
    as (H1 & H2 & H3 & H4).
  { unfold note_sleep. case_bool_decide; [|by split_and!; try done; intros ->].
    destruct (need_sleep_ ctx) eqn:En; simpl; [|done].
    destruct (Z.ltb_spec (wake_time_ d) (cc_wake_time_ ctx)); simpl; rewrite ?En; split_and!; try done; intros; split; try done; lia. }
  rewrite Hs, Hg. split_and!; [done|done| |].
  - intros Hn. destruct (H3 Hn) as [Hn' Hle]. destruct (Hk Hn') as [? ?]. split; [done|lia].
  - intros c [->|Hin]%elem_of_cons Hst; [|auto]. destruct (H4 Hst) as [Hn' Hle]. destruct (Hk Hn') as [? ?]. split; [done|lia].
Qed.

(** The queues of a group: one per priority, every routine in one of them. *)
Definition group_ok (h : Heap) (mq : MULTI_PRIO_QUEUE) : Prop :=
  length mq = MAX_PRIO /\ queue_ok h (walk_order MAX_PRIO mq).

(** The result of the walk over a group that was not stopped. *)
Lemma Classic_NextRoutine_found clock mq h ctx pre p post :
  group_ok h mq -> cc_stop_ ctx = false -> walk_order MAX_PRIO mq = pre ++ p :: post ->
  (forall x, x ∈ pre -> ~ available clock h x) -> available clock h p ->
  exists h' c u, Classic_NextRoutine clock mq h ctx = (Some p, h', foldl note_sleep ctx (waiting h pre)) /\
    h !! p = Some c /\ h' !! p = Some (with_lock true (with_updated u (set_state READY c))) /\
    forall x, x <> p -> h' !! x = if decide (x ∈ pre) then passed <$> h !! x else h !! x.
Proof.
  intros [Hlen Hok] Hs E Hpre Hp. unfold Classic_NextRoutine. rewrite Hs.
  rewrite prio_loop_scan by (try apply Hok; lia). rewrite E in *. by apply scan_found.
Qed.

Lemma Classic_NextRoutine_none clock mq h ctx :
  group_ok h mq -> cc_stop_ ctx = false ->
  (forall x, x ∈ walk_order MAX_PRIO mq -> ~ available clock h x) ->
  exists h', Classic_NextRoutine clock mq h ctx =
      (None, h', foldl note_sleep ctx (waiting h (walk_order MAX_PRIO mq))) /\
    forall x, h' !! x = if decide (x ∈ walk_order MAX_PRIO mq) then passed <$> h !! x else h !! x.
Proof.
  intros [Hlen Hok] Hs Hn. unfold Classic_NextRoutine. rewrite Hs.
  rewrite prio_loop_scan by (try apply Hok; lia). by apply scan_none.
Qed.

(** ** ChoreographyContext *)

(** cr_queue_ is a multimap ordered by decreasing priority; equal priorities
    stay in the order of insertion. *)
Record ChoreographyContext := mkChoreo { ch_stop_ : bool; notified_ : bool; cr_queue_ : list (Z * Ptr) }.
Definition NewChoreo : ChoreographyContext := mkChoreo false false [].

Fixpoint emplace (prio : Z) (p : Ptr) (q : list (Z * Ptr)) : list (Z * Ptr) :=
  match q with
  | [] => [(prio, p)]
  | (k, x) :: q' => if prio <=? k then (k, x) :: emplace prio p q' else (prio, p) :: q
  end.

Definition Choreo_Enqueue (h : Heap) (ctx : ChoreographyContext) (p : Ptr) : bool * ChoreographyContext :=
  match h !! p with
  | Some c => (true, mkChoreo (ch_stop_ ctx) (notified_ ctx) (emplace (priority_ c) p (cr_queue_ ctx)))
  | None => (true, ctx)
  end.

Definition Choreo_NextRoutine (clock : Ptr -> Z) (h : Heap) (ctx : ChoreographyContext)
    : option Ptr * Heap * ChoreographyContext :=
  if ch_stop_ ctx then (None, h, ctx)
  else
    match scan (fun u _ => u) clock (cr_queue_ ctx).*2 h tt with
    | (Some p, h, _) => (Some p, h, ctx)
    | (None, h, _) => (None, h, mkChoreo (ch_stop_ ctx) false (cr_queue_ ctx))
    end.

(** Whether Notify wakes a waiting processor up. *)
Definition Choreo_Notify (ctx : ChoreographyContext) : bool * ChoreographyContext :=
  (negb (notified_ ctx), mkChoreo (ch_stop_ ctx) true (cr_queue_ ctx)).

(** At most a millisecond, in nanoseconds. *)
Definition Choreo_Wait : waits := WaitFor 1000000.

Definition Choreo_Shutdown (ctx : ChoreographyContext) : ChoreographyContext :=
  mkChoreo true (notified_ ctx) (cr_queue_ ctx).

(** The first entry of routine [crid]: stopped, unlinked and released. *)
Fixpoint unlink {K : Type} (ptr_of : K -> Ptr) (crid : Z) (q : list K) (h : Heap) : bool * list K * Heap :=
  match q with
  | [] => (false, [], h)
  | x :: q =>
      match h !! ptr_of x with
      | Some c =>
          if id_ c =? crid then (true, q, upd h (ptr_of x) (fun c => Release (Stop c)))
          else let '(found, q, h) := unlink ptr_of crid q h in (found, x :: q, h)
      | None => let '(found, q, h) := unlink ptr_of crid q h in (found, x :: q, h)
      end
  end.

Definition Choreo_RemoveCRoutine (crid : Z) (h : Heap) (ctx : ChoreographyContext) : Heap * ChoreographyContext :=
  let '(_, q, h) := unlink snd crid (cr_queue_ ctx) h in (h, mkChoreo (ch_stop_ ctx) (notified_ ctx) q).

(** The queue stays ordered. *)
Definition prio_sorted (q : list (Z * Ptr)) : Prop := StronglySorted (fun a b => b.1 <= a.1) q.

Lemma emplace_perm prio p q : emplace prio p q ≡ₚ (prio, p) :: q.
Proof.
  induction q as [|[k x] q IH]; simpl; [done|]. destruct (prio <=? k); [|done].
  rewrite IH. apply perm_swap.
Qed.

Lemma emplace_sorted prio p q : prio_sorted q -> prio_sorted (emplace prio p q).
Proof.
  unfold prio_sorted. induction q as [|[k x] q IH]; simpl; intros Hs; [by repeat constructor|].
  apply StronglySorted_inv in Hs as [Hs Hf]. destruct (Z.leb_spec prio k) as [Hle|Hgt].
  - constructor; [auto|]. rewrite emplace_perm. by constructor.
  - constructor; [by constructor|]. constructor; [simpl; lia|].
    eapply Forall_impl; [exact Hf|]. intros [k' x']; simpl; lia.
Qed.

(** A new entry goes behind the entries of its priority. *)
Lemma emplace_behind prio p q :
  prio_sorted q -> exists before after, emplace prio p q = before ++ (prio, p) :: after /\ q = before ++ after /\
    Forall (fun e => prio <= e.1) before /\ Forall (fun e => e.1 < prio) after.
Proof.
  induction q as [|[k x] q IH]; intros Hs; simpl; [by exists [], []|].
  apply StronglySorted_inv in Hs as [Hs Hf]. destruct (Z.leb_spec prio k) as [Hle|Hgt].
  - destruct (IH Hs) as (b & a & -> & -> & Hb & Ha). exists ((k, x) :: b), a. split_and!; try done. by constructor.
  - exists [], ((k, x) :: q). split_and!; [done|done|done|]. constructor; [done|].
    eapply Forall_impl; [exact Hf|]. intros [k' x']; simpl; lia.
Qed.

(** Unlinking removes the first entry of the id, and only that. *)
Lemma unlink_spec {K} (ptr_of : K -> Ptr) crid q h :
  (exists before x after c, q = before ++ x :: after /\ h !! ptr_of x = Some c /\ id_ c = crid /\
     (forall y d, y ∈ before -> h !! ptr_of y = Some d -> id_ d <> crid) /\
     unlink ptr_of crid q h = (true, before ++ after, upd h (ptr_of x) (fun c => Release (Stop c)))) \/
  ((forall y d, y ∈ q -> h !! ptr_of y = Some d -> id_ d <> crid) /\ unlink ptr_of crid q h = (false, q, h)).
Proof.
  induction q as [|x q IH]; [right; split; [by intros y d ?%not_elem_of_nil|done]|].
  cbn [unlink]. destruct (h !! ptr_of x) as [c|] eqn:E; [destruct (Z.eqb_spec (id_ c) crid) as [Ec|Ec]|].
  - left. exists [], x, q, c. split_and!; try done. by intros y d ?%not_elem_of_nil.
  - destruct IH as [(b & y & a & d & -> & Hd & Hid & Hb & ->)|[Hn ->]].
    + left. exists (x :: b), y, a, d. split_and!; try done. intros z e [->|Hz]%elem_of_cons He; [congruence|eauto].
    + right. split; [|done]. intros z e [->|Hz]%elem_of_cons He; [congruence|eauto].
  - destruct IH as [(b & y & a & d & -> & Hd & Hid & Hb & ->)|[Hn ->]].
    + left. exists (x :: b), y, a, d. split_and!; try done. intros z e [->|Hz]%elem_of_cons He; [congruence|eauto].
    + right. split; [|done]. intros z e [->|Hz]%elem_of_cons He; [congruence|eauto].
Qed.

(** What a walk may change in the routines it does not return. *)
Definition same_routine (c c' : CRoutine) : Prop :=
  lock_ c' = lock_ c /\ state_ c' = state_ c /\ id_ c' = id_ c /\ force_stop_ c' = force_stop_ c /\
  priority_ c' = priority_ c /\ processor_id_ c' = processor_id_ c /\ group_name_ c' = group_name_ c /\
  wake_time_ c' = wake_time_ c /\ name_ c' = name_ c.

Lemma passed_same c : same_routine c (passed c).
Proof. unfold passed. destruct (lock_ c) eqn:E; split_and!; done. Qed.

Lemma passed_some (P : Prop) `{Decision P} (o : option CRoutine) c' :
  (if decide P then passed <$> o else o) = Some c' -> exists c, o = Some c /\ same_routine c c'.
Proof.
  destruct o as [c|]; [|by case_decide]. intros E. exists c. split; [done|]. case_decide; simplify_eq/=; [apply passed_same|by split_and!].
Qed.

Lemma waiting_sleeper h q p c :
  p ∈ q -> h !! p = Some c -> lock_ c = false -> state_ c = SLEEP ->
  exists c', c' ∈ waiting h q /\ state_ c' = SLEEP /\ wake_time_ c' = wake_time_ c.
Proof.
  intros Hp Hc Hl Hs. exists (with_lock true (with_updated true c)). split; [|done].
  unfold waiting. apply list_elem_of_In, in_flat_map. exists p. split; [by apply list_elem_of_In|].
  rewrite Hc, Hl. by left.
Qed.


(** A processor of the choreography policy takes the first available routine
    of its queue, and the queue is ordered: no routine of a higher priority and
    no earlier one of the same priority was available; Enqueue keeps the order.
    When it returns nothing, none was available and the notification flag is
    clear again. *)
Theorem choreo_next_is_most_urgent clock h ctx :
  prio_sorted (cr_queue_ ctx) -> queue_ok h (cr_queue_ ctx).*2 -> ch_stop_ ctx = false ->
  (forall p, prio_sorted (cr_queue_ (Choreo_Enqueue h ctx p).2)) /\
  match Choreo_NextRoutine clock h ctx with
  | (Some p, h', ctx') =>
      ctx' = ctx /\ available clock h p /\ (exists c', h' !! p = Some c' /\ lock_ c' = true /\ state_ c' = READY) /\
      exists prio before after, cr_queue_ ctx = before ++ (prio, p) :: after /\
        (forall e, e ∈ before -> prio <= e.1 /\ ~ available clock h e.2) /\ (forall e, e ∈ after -> e.1 <= prio)
  | (None, _, ctx') =>
      (forall e, e ∈ cr_queue_ ctx -> ~ available clock h e.2) /\
      cr_queue_ ctx' = cr_queue_ ctx /\ notified_ ctx' = false
  end.
Proof.
  intros Hsort Hok Hs. split.
  { intros p. unfold Choreo_Enqueue. destruct (h !! p); [by apply emplace_sorted|done]. }
  unfold Choreo_NextRoutine. rewrite Hs.
  destruct (first_available clock h (cr_queue_ ctx).*2) as [(pre & p & post & E & Hpre & Hp)|Hn].
  - rewrite E in Hok |- *.
    destruct (scan_found (fun u _ => u) clock pre p post h tt Hok Hpre Hp) as (h' & c & u & -> & Hc & Hc' & _).
    split; [done|]. split; [done|]. split; [by eexists|].
    apply fmap_app_inv in E as (b & rest & -> & Hrest & Eq).
    destruct rest as [|[prio x] a]; [done|]. injection Hrest as -> ->.
    exists prio, b, a. split; [done|]. rewrite Eq in Hsort.
    assert (forall e, e ∈ b -> prio <= e.1) as Hb.
    { clear -Hsort. intros e He. induction b as [|y b IH]; [by apply not_elem_of_nil in He|].
      apply StronglySorted_inv in Hsort as [Hs' Hf]. apply elem_of_cons in He as [->|He]; [|auto].
      rewrite Forall_forall in Hf. apply (Hf (prio, x)). set_solver. }
    split.
    + intros e He. split; [auto|]. apply Hpre, list_elem_of_fmap. eauto.
    + intros e He. clear -Hsort He. induction b as [|y b IH]; apply StronglySorted_inv in Hsort as [Hs' Hf]; [|auto].
      rewrite Forall_forall in Hf. by apply (Hf e).
  - destruct (scan_none (fun u _ => u) clock (cr_queue_ ctx).*2 h tt Hok Hn) as (h' & -> & _).
    split; [|done]. intros e He. apply Hn, list_elem_of_fmap. eauto.
Qed.

(** ** A concrete group

    Routine 0 (priority 3) waits for data, routine 1 (priority 5) sleeps until
    time 100, routine 2 (priority 3) is ready. *)

Definition demo_heap : Heap :=
  [set_priority 3 (set_state DATA_WAIT (NewCRoutine 0));
   set_priority 5 (set_state SLEEP (with_wake_time 100 (NewCRoutine 0)));
   set_priority 3 (NewCRoutine 0)].
Definition demo_queues : MULTI_PRIO_QUEUE := <[3%nat := [0%nat; 2%nat]]> (<[5%nat := [1%nat]]> empty_queues).

Lemma demo_group_ok : group_ok demo_heap demo_queues.
Proof.
  split; [reflexivity|]. unfold walk_order. simpl. split.
  - apply (bool_decide_unpack _). vm_compute. exact I.
  - repeat constructor; eexists; reflexivity.
Qed.


Lemma choreo_next_is_most_urgent_witness :
  let ctx := mkChoreo false true [(5, 1%nat); (3, 0%nat); (3, 2%nat)] in
  (Choreo_NextRoutine (fun _ => 50) demo_heap ctx).1.1 = Some 2%nat /\ available (fun _ => 50) demo_heap 2%nat.
Proof.
  cbv zeta. set (ctx := mkChoreo _ _ _).
  assert (prio_sorted (cr_queue_ ctx)) as Hs by (repeat constructor; simpl; lia).
  assert (queue_ok demo_heap (cr_queue_ ctx).*2) as Hq.
  { split; [apply (bool_decide_unpack _); vm_compute; exact I|]. repeat constructor; eexists; reflexivity. }
  destruct (choreo_next_is_most_urgent (fun _ => 50) demo_heap ctx Hs Hq eq_refl) as [_ Hn].
  assert ((Choreo_NextRoutine (fun _ => 50) demo_heap ctx).1.1 = Some 2%nat) as E by (vm_compute; reflexivity).
  destruct (Choreo_NextRoutine _ _ _) as [[r h'] ctx']. simpl in E. subst r. destruct Hn as (_ & Hav & _). by split.
Defined.
