(* ===== verification/Scheduler.v ===== *)
(** Scheduler.v -- src/src/apollo/cyber/scheduler: scheduler.{h,cc}, processor.cc,
    policy/scheduler_classic.cc and policy/scheduler_choreography.cc

    The registry of routines and the run queues.  The base class creates,
    notifies and shuts down; dispatching, notifying and removing a routine is up
    to the policy, which is the class [Policy].

    The multi-key mutex id_map_mutex_ makes the operations on one id atomic, and
    id_cr_lock_ and the queue locks protect the containers; each operation is one
    step here.  [None] is undefined behaviour of the source: an index out of
    range, or a context cast to the wrong class.  CPU affinity and thread
    priorities are the operating system's. *)

From S2P Require Import Prelude.
From S2P Require Import AtomicHashMap.
From S2P Require Import GlobalData.
From S2P Require Import Unordered.
From S2P Require Import CRoutine.
From S2P Require Import Contexts.
Local Open Scope Z_scope.

(** ** State *)

Inductive ProcessorContext := PClassic (c : ClassicContext) | PChoreo (c : ChoreographyContext).

(** Effects on waiting processors: notify_one on the group, or on a context. *)
Inductive Wakeup := NotifyGroup (name : string) | NotifyContext (pid : nat).

Record Sched := mkSched {
  heap : Heap;
  id_cr_ : gmap Z Ptr;
  cr_group_ : gmap string MULTI_PRIO_QUEUE;   (* static member of ClassicContext *)
  pctxs_ : list ProcessorContext;
  stop_ : bool
}.

Definition with_heap (s : Sched) (h : Heap) : Sched := mkSched h (id_cr_ s) (cr_group_ s) (pctxs_ s) (stop_ s).
Definition with_ids (s : Sched) (m : gmap Z Ptr) : Sched := mkSched (heap s) m (cr_group_ s) (pctxs_ s) (stop_ s).
Definition with_groups (s : Sched) (g : gmap string MULTI_PRIO_QUEUE) : Sched :=
  mkSched (heap s) (id_cr_ s) g (pctxs_ s) (stop_ s).
Definition with_pctxs (s : Sched) (l : list ProcessorContext) : Sched :=
  mkSched (heap s) (id_cr_ s) (cr_group_ s) l (stop_ s).

Class Policy := {
  DispatchTask : Sched -> Ptr -> option (bool * Sched * list Wakeup);
  NotifyProcessor : Sched -> Z -> option (bool * Sched * list Wakeup);
  RemoveCRoutine : Sched -> Z -> option (bool * Sched)
}.

(** ** The base class *)

Section scheduler.
Context `{Policy} `{HashOrder}.

(** A routine with its id and name. *)
Definition named_routine (now : Z) (task_id : Z) (name : string) : CRoutine :=
  set_name name (set_id task_id (NewCRoutine now)).

(** CreateTask; [reg] is the task registry of GlobalData, and the callback that
    is registered with the visitor runs NotifyTask. *)
Definition CreateTask (Hash : string -> Z) (fuel : nat) (reg : AtomicHashMap string) (now : Z) (s : Sched) (name : string)
    : option (bool * Sched * AtomicHashMap string * list Wakeup) :=
  if stop_ s then Some (false, s, reg, [])
  else
    match Register Hash fuel reg name with
    | None => None
    | Some (task_id, reg) =>
        let '(p, h) := alloc (heap s) (named_routine now task_id name) in
        match DispatchTask (with_heap s h) p with
        | None => None
        | Some (ok, s, w) => Some (ok, s, reg, w)
        end
    end.

Definition NotifyTask (s : Sched) (crid : Z) : option (bool * Sched * list Wakeup) :=
  if stop_ s then Some (true, s, []) else NotifyProcessor s crid.

(** RemoveTask is the same in both policies. *)
Definition RemoveTask (Hash : string -> Z) (s : Sched) (name : string) : option (bool * Sched) :=
  if stop_ s then Some (true, s) else RemoveCRoutine s (Hash name).

Definition shutdown_context (c : ProcessorContext) : ProcessorContext :=
  match c with
  | PClassic c => PClassic (Classic_Shutdown c)
  | PChoreo c => PChoreo (Choreo_Shutdown c)
  end.

Fixpoint remove_all (s : Sched) (ids : list Z) : option Sched :=
  match ids with
  | [] => Some s
  | i :: ids => match RemoveCRoutine s i with
                | None => None
                | Some (_, s) => remove_all s ids
                end
  end.

(** Shutdown; the ids are read from the routines themselves. *)
Definition Shutdown (s : Sched) : option Sched :=
  if stop_ s then Some s
  else
    let s := mkSched (heap s) (id_cr_ s) (cr_group_ s) (shutdown_context <$> pctxs_ s) true in
    let cr_list := omap (fun p => id_ <$> heap s !! p) (iter (id_cr_ s)).*2 in
    match remove_all s cr_list with
    | None => None
    | Some s => Some (with_pctxs s [])
    end.
End scheduler.

(** ** Processor::Run: one round of the loop

    [y] is how the routine gives the processor back.  The result of waiting is
    not part of the state. *)
Definition run_routine (y : yielded) (h : Heap) (p : Ptr) : Heap :=
  upd h p (fun c => Release (Resume (run y) c).2).

Definition Run_once (clock : Ptr -> Z) (y : yielded) (pid : nat) (s : Sched) : Sched :=
  match pctxs_ s !! pid with
  | None => s
  | Some (PClassic c) =>
      let '(r, h, c) := Classic_NextRoutine clock (group_at (cr_group_ s) (cc_group c)) (heap s) c in
      let s := with_pctxs (with_heap s h) (<[pid := PClassic c]> (pctxs_ s)) in
      match r with
      | Some p => with_heap s (run_routine y (heap s) p)
      | None => with_pctxs s (<[pid := PClassic (Classic_Wait (clock 0%nat) c).2]> (pctxs_ s))
      end
  | Some (PChoreo c) =>
      let '(r, h, c) := Choreo_NextRoutine clock (heap s) c in
      let s := with_pctxs (with_heap s h) (<[pid := PChoreo c]> (pctxs_ s)) in
      match r with
      | Some p => with_heap s (run_routine y (heap s) p)
      | None => s
      end
  end.

(** ** The classic policy *)

Record ClassicTask := mkClassicTask { ct_prio : Z; ct_group_name : string }.
(** A group with its tasks: name and priority. *)
Record SchedGroup := mkSchedGroup { sg_name : string; sg_processor_num : Z; sg_tasks : list (string * Z) }.

(** cr_group_[group].at(prio).emplace_back(p) *)
Definition enqueue (groups : gmap string MULTI_PRIO_QUEUE) (group : string) (prio : Z) (p : Ptr)
    : option (gmap string MULTI_PRIO_QUEUE) :=
  let mq := group_at groups group in
  match zget mq prio with
  | None => None
  | Some q => Some (<[group := zset mq prio (q ++ [p])]> groups)
  end.

(** The loop that erases [crid] from cr_group_[group].at(prio). *)
Definition dequeue (s : Sched) (group : string) (prio : Z) (crid : Z) : option (bool * Sched) :=
  let mq := group_at (cr_group_ s) group in
  match zget mq prio with
  | None => None
  | Some q =>
      let '(found, q, h) := unlink (fun p => p) crid q (heap s) in
      Some (found, with_groups (with_heap s h) (<[group := zset mq prio q]> (cr_group_ s)))
  end.

(** A priority beyond the last queue. *)
Definition clamp_priority (c : CRoutine) : CRoutine :=
  if Z.of_nat MAX_PRIO <=? priority_ c then set_priority (Z.of_nat MAX_PRIO - 1) c else c.

(** SchedulerClassic::SchedulerClassic: the task table, the groups and the size of
    the task pool, from the groups of the configuration file if there is one. *)
Definition task_table (groups : list SchedGroup) : gmap string ClassicTask :=
  foldl (fun m g => foldl (fun m '(name, prio) => <[name := mkClassicTask prio (sg_name g)]> m) m (sg_tasks g)) ∅ groups.

Definition classic_config (cfg : option (list SchedGroup)) (default_proc_num : option Z)
    : gmap string ClassicTask * list SchedGroup * Z :=
  match cfg with
  | Some groups => (task_table groups, groups, 0)
  | None =>
      let proc_num := default 2 default_proc_num in
      (∅, [mkSchedGroup DEFAULT_GROUP_NAME proc_num []], proc_num)
  end.

Section classic.
Variable cr_confs_ : gmap string ClassicTask.
Variable groups : list SchedGroup.  (* classic_conf_.groups() *)

(** CreateProcessor: one context per processor of a group, and the size of the
    task pool. *)
Definition Classic_CreateProcessor (task_pool_size_ : Z) : Z * list ProcessorContext :=
  foldl (fun '(n, l) g =>
           (if n =? 0 then sg_processor_num g else n,
            l ++ replicate (Z.to_nat (sg_processor_num g)) (PClassic (NewClassic (sg_name g)))))
    (task_pool_size_, []) groups.

(** The group and priority a routine gets. *)
Definition classic_assign (c : CRoutine) : option CRoutine :=
  match cr_confs_ !! name_ c with
  | Some task => Some (clamp_priority (set_group_name (ct_group_name task) (set_priority (ct_prio task) c)))
  | None => match groups with
            | [] => None
            | g :: _ => Some (clamp_priority (set_group_name (sg_name g) c))
            end
  end.

Definition Classic_DispatchTask (s : Sched) (p : Ptr) : option (bool * Sched * list Wakeup) :=
  match heap s !! p with
  | None => None
  | Some c =>
      if bool_decide (is_Some (id_cr_ s !! id_ c)) then Some (false, s, [])
      else
        let s := with_ids s (<[id_ c := p]> (id_cr_ s)) in
        match classic_assign c with
        | None => None
        | Some c =>
            let s := with_heap s (<[p := c]> (heap s)) in
            match enqueue (cr_group_ s) (group_name_ c) (priority_ c) p with
            | None => None
            | Some g => Some (true, with_groups s g, [NotifyGroup (group_name_ c)])
            end
        end
  end.

(** The flag of a routine that waits for data. *)
Definition flag_data (c : CRoutine) : CRoutine :=
  if bool_decide (state_ c = DATA_WAIT) then SetUpdateFlag c else c.

Definition Classic_NotifyProcessor (s : Sched) (crid : Z) : option (bool * Sched * list Wakeup) :=
  if stop_ s then Some (true, s, [])
  else
    match id_cr_ s !! crid with
    | None => Some (false, s, [])
    | Some p =>
        match heap s !! p with
        | None => None
        | Some c => Some (true, with_heap s (upd (heap s) p flag_data), [NotifyGroup (group_name_ c)])
        end
    end.

Definition Classic_RemoveCRoutine (s : Sched) (crid : Z) : option (bool * Sched) :=
  match id_cr_ s !! crid with
  | None => Some (false, s)
  | Some p =>
      match heap s !! p with
      | None => None
      | Some c =>
          let s := with_ids (with_heap s (upd (heap s) p Stop)) (delete crid (id_cr_ s)) in
          dequeue s (group_name_ c) (priority_ c) crid
      end
  end.

Definition classic_policy : Policy := {|
  DispatchTask := Classic_DispatchTask;
  NotifyProcessor := Classic_NotifyProcessor;
  RemoveCRoutine := Classic_RemoveCRoutine
|}.
End classic.

(** ** The choreography policy *)

Record ChoreographyTask := mkChoreoTask { cht_processor : option Z; cht_prio : Z }.

(** The part of ChoreographyConf that the scheduler uses. *)
Record ChoreographyConf := mkChoreoConf {
  choreography_processor_num : Z;
  pool_processor_num : Z;
  ch_tasks : list (string * ChoreographyTask)
}.

(** SchedulerChoreography::SchedulerChoreography: proc_num_, task_pool_size_ and
    cr_confs_. *)
Definition choreography_config (cfg : option ChoreographyConf) (default_proc_num : option Z)
    : Z * Z * gmap string ChoreographyTask :=
  let '(proc_num, pool, confs) :=
    match cfg with
    | Some c => (choreography_processor_num c, pool_processor_num c,
                 foldl (fun m '(name, t) => <[name := t]> m) ∅ (ch_tasks c))
    | None => (0, 0, ∅)
    end in
  if proc_num =? 0 then let n := default 2 default_proc_num in (n, n, confs) else (proc_num, pool, confs).

Section choreography.
Variable cr_confs_ : gmap string ChoreographyTask.
Variable proc_num_ : Z.

Definition Choreo_CreateProcessor (task_pool_size_ : Z) : list ProcessorContext :=
  replicate (Z.to_nat proc_num_) (PChoreo NewChoreo) ++
  replicate (Z.to_nat task_pool_size_) (PClassic (NewClassic DEFAULT_GROUP_NAME)).

Definition choreo_assign (c : CRoutine) : CRoutine :=
  match cr_confs_ !! name_ c with
  | None => c
  | Some taskconf =>
      let c := set_priority (cht_prio taskconf) c in
      match cht_processor taskconf with
      | Some n => set_processor_id n c
      | None => c
      end
  end.

(** static_cast<ChoreographyContext*>(pctxs_[pid].get()) *)
Definition choreo_at (s : Sched) (pid : Z) : option ChoreographyContext :=
  match zget (pctxs_ s) pid with
  | Some (PChoreo ctx) => Some ctx
  | _ => None
  end.

Definition Choreo_DispatchTask (s : Sched) (p : Ptr) : option (bool * Sched * list Wakeup) :=
  match heap s !! p with
  | None => None
  | Some c =>
      let c := choreo_assign c in
      let s := with_heap s (<[p := c]> (heap s)) in
      if bool_decide (is_Some (id_cr_ s !! id_ c)) then Some (false, s, [])
      else
        let s := with_ids s (<[id_ c := p]> (id_cr_ s)) in
        let pid := u32 (processor_id_ c) in
        if pid <? proc_num_ then
          match choreo_at s pid with
          | None => None
          | Some ctx =>
              let '(_, ctx) := Choreo_Enqueue (heap s) ctx p in
              Some (true, with_pctxs s (zset (pctxs_ s) pid (PChoreo ctx)), [])
          end
        else
          let c := set_group_name DEFAULT_GROUP_NAME (clamp_priority c) in
          let s := with_heap s (<[p := c]> (heap s)) in
          match enqueue (cr_group_ s) DEFAULT_GROUP_NAME (priority_ c) p with
          | None => None
          | Some g => Some (true, with_groups s g, [])
          end
  end.

Definition Choreo_RemoveTaskCRoutine (s : Sched) (crid : Z) : option (bool * Sched) :=
  match id_cr_ s !! crid with
  | None => Some (false, s)
  | Some p =>
      match heap s !! p with
      | None => None
      | Some c =>
          let s := with_ids (with_heap s (upd (heap s) p Stop)) (delete crid (id_cr_ s)) in
          if processor_id_ c =? -1 then dequeue s (group_name_ c) (priority_ c) crid
          else
            match choreo_at s (processor_id_ c) with
            | None => None
            | Some ctx =>
                let '(h, ctx) := Choreo_RemoveCRoutine crid (heap s) ctx in
                Some (true, with_pctxs (with_heap s h) (zset (pctxs_ s) (processor_id_ c) (PChoreo ctx)))
            end
      end
  end.

Definition Choreo_NotifyProcessor (s : Sched) (crid : Z) : option (bool * Sched * list Wakeup) :=
  if stop_ s then Some (true, s, [])
  else
    match id_cr_ s !! crid with
    | None => Some (false, s, [])
    | Some p =>
        match heap s !! p with
        | None => None
        | Some c =>
            let s := with_heap s (upd (heap s) p flag_data) in
            if negb (processor_id_ c =? -1) then
              match choreo_at s (processor_id_ c) with
              | None => None
              | Some ctx =>
                  let '(wake, ctx) := Choreo_Notify ctx in
                  Some (true, with_pctxs s (zset (pctxs_ s) (processor_id_ c) (PChoreo ctx)),
                        if wake then [NotifyContext (Z.to_nat (processor_id_ c))] else [])
              end
            else Some (true, s, [NotifyGroup (group_name_ c)])
        end
    end.

Definition choreography_policy : Policy := {|
  DispatchTask := Choreo_DispatchTask;
  NotifyProcessor := Choreo_NotifyProcessor;
  RemoveCRoutine := Choreo_RemoveTaskCRoutine
|}.
End choreography.
