(* ===== verification/SchedulerSpec.v ===== *)
(** SchedulerSpec.v -- what the scheduler promises

    The invariant that ties the registry id_cr_ to the run queues, what a policy
    promises to the base class ([PolicySpec]), the proofs that both policies
    keep it, and the theorems on the base class proved against it. *)

From S2P Require Import Prelude.
From S2P Require Import Unordered.
From S2P Require Import GlobalData.
From S2P Require Import CRoutine.
From S2P Require Import Contexts.
From S2P Require Import Scheduler.
Local Open Scope Z_scope.

(** ** Where a routine is queued *)

Inductive Loc := Pool (group : string) (prio : nat) | Ctx (pid : nat).
#[export] Instance Loc_eq_dec : EqDecision Loc.
Proof. solve_decision. Defined.

Definition loc_of (c : CRoutine) : Loc :=
  if processor_id_ c =? -1 then Pool (group_name_ c) (Z.to_nat (priority_ c)) else Ctx (Z.to_nat (processor_id_ c)).

Definition contents (s : Sched) (l : Loc) : list Ptr :=
  match l with
  | Pool g i => default [] (group_at (cr_group_ s) g !! i)
  | Ctx pid => match pctxs_ s !! pid with Some (PChoreo ctx) => (cr_queue_ ctx).*2 | _ => [] end
  end.

(** [n] processors have a queue of their own, the first [n] contexts. *)
Record inv (n : Z) (s : Sched) : Prop := mkInv {
  inv_queued : forall i p, id_cr_ s !! i = Some p ->
    exists c, heap s !! p = Some c /\ id_ c = i /\ p ∈ contents s (loc_of c) /\
      (processor_id_ c = -1 /\ 0 <= priority_ c < Z.of_nat MAX_PRIO \/ 0 <= processor_id_ c < n);
  inv_registered : forall l p, p ∈ contents s l ->
    exists c, heap s !! p = Some c /\ loc_of c = l /\ id_cr_ s !! id_ c = Some p;
  inv_once : forall l, NoDup (contents s l);
  inv_groups : forall g mq, cr_group_ s !! g = Some mq -> length mq = MAX_PRIO;
  inv_ctxs : forall pid, 0 <= pid < n -> exists ctx, choreo_at s pid = Some ctx;
  inv_ctxs' : forall pid ctx, pctxs_ s !! pid = Some (PChoreo ctx) -> Z.of_nat pid < n
}.

(** Two heaps that differ in what running routines changes only. *)
Definition same_static (c c' : CRoutine) : Prop :=
  id_ c' = id_ c /\ priority_ c' = priority_ c /\ group_name_ c' = group_name_ c /\ processor_id_ c' = processor_id_ c.
Definition heap_eq (h h' : Heap) : Prop := Forall2 same_static h h'.

#[export] Instance same_static_preorder : PreOrder same_static.
Proof. split; [by intros c|]. intros a b c (?&?&?&?) (?&?&?&?). split_and!; congruence. Qed.

Lemma loc_of_static c c' : same_static c c' -> loc_of c' = loc_of c.
Proof. intros (_ & Hp & Hg & Hn). unfold loc_of. by rewrite Hp, Hg, Hn. Qed.

Lemma heap_eq_upd h p f : (forall c, same_static c (f c)) -> heap_eq h (upd h p f).
Proof.
  intros Hf. apply Forall2_same_length_lookup. split; [by rewrite length_upd|].
  intros i x y Hx Hy. destruct (decide (p = i)) as [<-|].
  - rewrite (upd_lookup_eq _ _ _ _ Hx) in Hy. by simplify_eq.
  - rewrite upd_lookup_ne in Hy by done. by simplify_eq.
Qed.

Lemma heap_eq_insert h p c c' : h !! p = Some c -> same_static c c' -> heap_eq h (<[p := c']> h).
Proof.
  intros Hc Hs. apply Forall2_same_length_lookup. split; [by rewrite length_insert|].
  intros i x y Hx Hy. destruct (decide (p = i)) as [<-|].
  - rewrite list_lookup_insert_eq in Hy by (by eapply lookup_lt_Some). by simplify_eq.
  - rewrite list_lookup_insert_ne in Hy by done. by simplify_eq.
Qed.

Lemma heap_eq_refl h : heap_eq h h.
Proof. apply Forall2_same_length_lookup. split; [done|]. intros i x y Hx Hy. by simplify_eq. Qed.

Lemma heap_eq_trans h1 h2 h3 : heap_eq h1 h2 -> heap_eq h2 h3 -> heap_eq h1 h3.
Proof. apply (transitivity (R := Forall2 same_static)). Qed.

Lemma heap_eq_lookup h h' p c : heap_eq h h' -> h !! p = Some c -> exists c', h' !! p = Some c' /\ same_static c c'.
Proof. intros Hh Hc. by eapply Forall2_lookup_l in Hh. Qed.

(** The invariant speaks of the static part, the registry and the queues. *)
Lemma inv_ext n s s' :
  heap_eq (heap s) (heap s') -> id_cr_ s' = id_cr_ s -> (forall l, contents s' l = contents s l) ->
  (forall g mq, cr_group_ s' !! g = Some mq -> length mq = MAX_PRIO) ->
  (forall pid, 0 <= pid < n -> exists ctx, choreo_at s' pid = Some ctx) ->
  (forall pid ctx, pctxs_ s' !! pid = Some (PChoreo ctx) -> Z.of_nat pid < n) ->
  inv n s -> inv n s'.
Proof.
  intros Hh Hi Hc Hg Hx Hx' [H1 H2 H3 _ _ _]. constructor; try done.
  - intros i p Hp. rewrite Hi in Hp. destruct (H1 i p Hp) as (c & Hpc & Hid & Hin & Hk).
    destruct (heap_eq_lookup _ _ _ _ Hh Hpc) as (c' & Hpc' & Hst). exists c'.
    rewrite (loc_of_static _ _ Hst), Hc. destruct Hst as (E1 & E2 & E3 & E4). rewrite E1, E2, E4. done.
  - intros l p Hp. rewrite Hc in Hp. destruct (H2 l p Hp) as (c & Hpc & Hl & Hid).
    destruct (heap_eq_lookup _ _ _ _ Hh Hpc) as (c' & Hpc' & Hst). exists c'.
    rewrite (loc_of_static _ _ Hst), Hi. destruct Hst as (-> & _). done.
  - intros l. rewrite Hc. done.
Qed.

Lemma inv_heap n s h : heap_eq (heap s) h -> inv n s -> inv n (with_heap s h).
Proof. intros Hh Hi. eapply inv_ext; [exact Hh|done|done|apply Hi..|exact Hi]. Qed.

(** ** What a policy promises *)

Class PolicySpec `{Policy} (n : Z) := {
  dispatch_spec : forall s p c, inv n s -> heap s !! p = Some c -> processor_id_ c = -1 -> 0 <= priority_ c ->
    (forall i, id_cr_ s !! i <> Some p) ->
    exists s' w, DispatchTask s p = Some (bool_decide (id_cr_ s !! id_ c = None), s', w) /\ inv n s' /\ stop_ s' = stop_ s /\
      id_cr_ s' = if bool_decide (id_cr_ s !! id_ c = None) then <[id_ c := p]> (id_cr_ s) else id_cr_ s;
  notify_spec : forall s crid, inv n s -> stop_ s = false ->
    exists s' w, NotifyProcessor s crid = Some (bool_decide (is_Some (id_cr_ s !! crid)), s', w) /\
      inv n s' /\ stop_ s' = stop_ s /\ id_cr_ s' = id_cr_ s /\
      forall p c, id_cr_ s !! crid = Some p -> heap s !! p = Some c -> heap s' !! p = Some (flag_data c);
  remove_spec : forall s crid, inv n s ->
    exists s', RemoveCRoutine s crid = Some (bool_decide (is_Some (id_cr_ s !! crid)), s') /\
      inv n s' /\ stop_ s' = stop_ s /\ id_cr_ s' = delete crid (id_cr_ s) /\ length (heap s') = length (heap s) /\
      (forall p c, heap s !! p = Some c -> force_stop_ c = true -> exists c', heap s' !! p = Some c' /\ force_stop_ c' = true) /\
      forall p, id_cr_ s !! crid = Some p -> exists c', heap s' !! p = Some c' /\ force_stop_ c' = true;
  run_spec : forall s clock y pid, inv n s -> inv n (Run_once clock y pid s) /\ id_cr_ (Run_once clock y pid s) = id_cr_ s /\
    stop_ (Run_once clock y pid s) = stop_ s /\ heap_eq (heap s) (heap (Run_once clock y pid s))
}.

(** ** Keeping the invariant *)

(** A new routine goes into its queue. *)
Lemma inv_add n s s' p c :
  inv n s -> (forall i, id_cr_ s !! i <> Some p) -> id_cr_ s !! id_ c = None ->
  heap s' !! p = Some c -> (forall q, q <> p -> heap s' !! q = heap s !! q) ->
  id_cr_ s' = <[id_ c := p]> (id_cr_ s) ->
  contents s' (loc_of c) ≡ₚ p :: contents s (loc_of c) ->
  (forall l, l <> loc_of c -> contents s' l = contents s l) ->
  (processor_id_ c = -1 /\ 0 <= priority_ c < Z.of_nat MAX_PRIO \/ 0 <= processor_id_ c < n) ->
  (forall g mq, cr_group_ s' !! g = Some mq -> length mq = MAX_PRIO) ->
  (forall pid, 0 <= pid < n -> exists ctx, choreo_at s' pid = Some ctx) ->
  (forall pid ctx, pctxs_ s' !! pid = Some (PChoreo ctx) -> Z.of_nat pid < n) ->
  inv n s'.
Proof.
  intros [H1 H2 H3 _ _ _] Hnew Hid Hp Hq Hids Hadd Hrest Hk Hg Hx Hx'.
  assert (forall l, p ∉ contents s l) as Hfresh.
  { intros l Hl. destruct (H2 l p Hl) as (d & _ & _ & Hd). by apply Hnew in Hd. }
  constructor; try done.
  - intros i q Hi. rewrite Hids in Hi. apply lookup_insert_Some in Hi as [[<- <-]|[Hne Hi]].
    + exists c. rewrite Hadd. split_and!; try done. by left.
    + assert (q <> p) as Hqp by (intros ->; by apply Hnew in Hi).
      destruct (H1 i q Hi) as (d & Hd & Hdi & Hin & Hdk). exists d. rewrite Hq by done. split_and!; try done.
      destruct (decide (loc_of d = loc_of c)) as [E|E]; [rewrite E, Hadd in *; by right|by rewrite Hrest].
  - intros l q Hin. assert (l = loc_of c /\ q = p \/ q ∈ contents s l) as [[-> ->]|Hin'].
    { destruct (decide (l = loc_of c)) as [->|E]; [|rewrite Hrest in Hin by done; by right].
      rewrite Hadd in Hin. apply elem_of_cons in Hin as [->|Hin]; [by left|by right]. }
    + exists c. rewrite Hids, lookup_insert_eq. done.
    + destruct (H2 l q Hin') as (d & Hd & Hl & Hdi). assert (q <> p) as Hqp by (intros ->; by apply Hnew in Hdi).
      exists d. rewrite Hq, Hids by done. rewrite lookup_insert_ne by congruence. done.
  - intros l. destruct (decide (l = loc_of c)) as [->|E]; [|by rewrite Hrest].
    rewrite Hadd. apply NoDup_cons. done.
Qed.

(** A routine leaves its queue and the registry. *)
Lemma inv_del n s s' p c crid :
  inv n s -> id_cr_ s !! crid = Some p -> heap s !! p = Some c ->
  heap_eq (heap s) (heap s') -> id_cr_ s' = delete crid (id_cr_ s) ->
  contents s (loc_of c) ≡ₚ p :: contents s' (loc_of c) ->
  (forall l, l <> loc_of c -> contents s' l = contents s l) ->
  (forall g mq, cr_group_ s' !! g = Some mq -> length mq = MAX_PRIO) ->
  (forall pid, 0 <= pid < n -> exists ctx, choreo_at s' pid = Some ctx) ->
  (forall pid ctx, pctxs_ s' !! pid = Some (PChoreo ctx) -> Z.of_nat pid < n) ->
  inv n s'.
Proof.
  intros [H1 H2 H3 _ _ _] Hid Hc Hh Hids Hdel Hrest Hg Hx Hx'.
  destruct (H1 crid p Hid) as (c0 & Hc0 & Hcid & _ & _). simplify_eq.
  pose proof (H3 (loc_of c)) as Hnd. rewrite Hdel in Hnd. apply NoDup_cons in Hnd as [Hnotin Hnd].
  constructor; try done.
  - intros i q Hi. rewrite Hids in Hi. apply lookup_delete_Some in Hi as [Hne Hi].
    destruct (H1 i q Hi) as (d & Hd & Hdi & Hin & Hdk). destruct (heap_eq_lookup _ _ _ _ Hh Hd) as (d' & Hd' & Hst).
    exists d'. rewrite (loc_of_static _ _ Hst). pose proof Hst as (E1 & E2 & E3 & E4). rewrite E1, E2, E4. split_and!; try done.
    destruct (decide (loc_of d = loc_of c)) as [E|E]; [|by rewrite Hrest].
    rewrite E in *. rewrite Hdel in Hin. apply elem_of_cons in Hin as [->|Hin]; [|done]. congruence.
  - intros l q Hin.
    assert (q ∈ contents s l /\ q <> p) as [Hin' Hqp].
    { destruct (decide (l = loc_of c)) as [->|E].
      - rewrite Hdel. split; [by right|]. intros ->. done.
      - rewrite Hrest in Hin by done. split; [done|]. intros ->.
        destruct (H2 l p Hin) as (d & Hd & Hl & _). congruence. }
    destruct (H2 l q Hin') as (d & Hd & Hl & Hdi). destruct (heap_eq_lookup _ _ _ _ Hh Hd) as (d' & Hd' & Hst).
    exists d'. rewrite (loc_of_static _ _ Hst), Hids. destruct Hst as (-> & _). split_and!; try done.
    apply lookup_delete_Some. split; [|done]. intros E. rewrite <- E in Hdi. congruence.
  - intros l. destruct (decide (l = loc_of c)) as [->|E]; [done|by rewrite Hrest].
Qed.

(** Updating one queue of a group, or the queue of one context. *)
Lemma group_at_length s g : (forall g mq, cr_group_ s !! g = Some mq -> length mq = MAX_PRIO) ->
  length (group_at (cr_group_ s) g) = MAX_PRIO.
Proof.
  intros Hg. unfold group_at. destruct (cr_group_ s !! g) as [mq|] eqn:E; simpl; [by eapply Hg|]. reflexivity.
Qed.

Lemma contents_set_queue s g i q l :
  (forall g mq, cr_group_ s !! g = Some mq -> length mq = MAX_PRIO) -> 0 <= i < Z.of_nat MAX_PRIO ->
  contents (with_groups s (<[g := zset (group_at (cr_group_ s) g) i q]> (cr_group_ s))) l =
  if decide (l = Pool g (Z.to_nat i)) then q else contents s l.
Proof.
  intros Hg Hi. pose proof (group_at_length s g Hg) as Hlen. destruct l as [g' j|pid]; [|by rewrite decide_False].
  simpl. unfold group_at at 1. destruct (decide (g' = g)) as [->|Hne].
  - rewrite lookup_insert_eq. simpl. unfold zset. destruct (Z.leb_spec 0 i); [|lia].
    destruct (decide (j = Z.to_nat i)) as [->|Hj].
    + rewrite decide_True by done. rewrite list_lookup_insert_eq by lia. done.
    + rewrite decide_False by congruence. rewrite list_lookup_insert_ne by done. done.
  - rewrite decide_False by congruence. rewrite lookup_insert_ne by done. done.
Qed.

Lemma groups_set_queue s g i q :
  (forall g mq, cr_group_ s !! g = Some mq -> length mq = MAX_PRIO) ->
  forall g' mq, (<[g := zset (group_at (cr_group_ s) g) i q]> (cr_group_ s)) !! g' = Some mq -> length mq = MAX_PRIO.
Proof.
  intros Hg g' mq. rewrite lookup_insert_Some. intros [[<- <-]|[_ E]]; [|by eapply Hg].
  unfold zset. destruct (0 <=? i); rewrite ?length_insert; by apply group_at_length.
Qed.

Lemma zget_queue s g i :
  (forall g mq, cr_group_ s !! g = Some mq -> length mq = MAX_PRIO) -> 0 <= i < Z.of_nat MAX_PRIO ->
  zget (group_at (cr_group_ s) g) i = Some (contents s (Pool g (Z.to_nat i))).
Proof.
  intros Hg Hi. pose proof (group_at_length s g Hg) as Hlen. unfold zget. destruct (Z.leb_spec 0 i); [|lia].
  simpl. destruct (lookup_lt_is_Some_2 (group_at (cr_group_ s) g) (Z.to_nat i)) as [q Hq]; [lia|]. by rewrite Hq.
Qed.

Lemma choreo_at_Some s pid ctx :
  choreo_at s pid = Some ctx -> 0 <= pid /\ pctxs_ s !! Z.to_nat pid = Some (PChoreo ctx).
Proof. unfold choreo_at, zget. destruct (Z.leb_spec 0 pid); [|done]. case_match; [|done]. case_match; naive_solver. Qed.

Lemma contents_ctx s pid ctx : choreo_at s pid = Some ctx -> contents s (Ctx (Z.to_nat pid)) = (cr_queue_ ctx).*2.
Proof. intros [_ E]%choreo_at_Some. simpl. by rewrite E. Qed.

Lemma pctxs_set s pid ctx ctx' j :
  choreo_at s pid = Some ctx ->
  zset (pctxs_ s) pid (PChoreo ctx') !! j = if decide (j = Z.to_nat pid) then Some (PChoreo ctx') else pctxs_ s !! j.
Proof.
  intros [Hp E]%choreo_at_Some. unfold zset. destruct (Z.leb_spec 0 pid); [|lia].
  destruct (decide (j = Z.to_nat pid)) as [->|]; [|by apply list_lookup_insert_ne].
  apply list_lookup_insert_eq. by eapply lookup_lt_Some.
Qed.

Lemma contents_set_ctx s pid ctx ctx' l :
  choreo_at s pid = Some ctx ->
  contents (with_pctxs s (zset (pctxs_ s) pid (PChoreo ctx'))) l =
  if decide (l = Ctx (Z.to_nat pid)) then (cr_queue_ ctx').*2 else contents s l.
Proof.
  intros E. destruct l as [g j|j]; [by rewrite decide_False|]. simpl. rewrite (pctxs_set _ _ _ _ _ E).
  destruct (decide (j = Z.to_nat pid)) as [->|]; [by rewrite decide_True|by rewrite decide_False by congruence].
Qed.

Lemma ctxs_set n s pid ctx ctx' :
  inv n s -> choreo_at s pid = Some ctx ->
  (forall j, 0 <= j < n -> exists x, choreo_at (with_pctxs s (zset (pctxs_ s) pid (PChoreo ctx'))) j = Some x) /\
  (forall j x, zset (pctxs_ s) pid (PChoreo ctx') !! j = Some (PChoreo x) -> Z.of_nat j < n).
Proof.
  intros Hi E. split.
  - intros j Hj. destruct (inv_ctxs n s Hi j Hj) as [x Hx]. apply choreo_at_Some in Hx as [_ Hx].
    unfold choreo_at, zget. destruct (Z.leb_spec 0 j); [|lia]. simpl. rewrite (pctxs_set _ _ _ _ _ E).
    destruct (decide _); [by eexists|]. rewrite Hx. by eexists.
  - intros j x. rewrite (pctxs_set _ _ _ _ _ E). destruct (decide _) as [->|]; [|by apply (inv_ctxs' n s Hi)].
    intros _. apply choreo_at_Some in E as [_ E]. by apply (inv_ctxs' n s Hi _ _ E).
Qed.

(** Unlinking a registered routine finds it. *)
Lemma unlink_registered {K} (ptr_of : K -> Ptr) crid q h p c :
  p ∈ ptr_of <$> q -> h !! p = Some c -> id_ c = crid ->
  (forall x d, x ∈ q -> h !! ptr_of x = Some d -> id_ d = crid -> ptr_of x = p) ->
  exists before x after, q = before ++ x :: after /\ ptr_of x = p /\
    unlink ptr_of crid q h = (true, before ++ after, upd h p (fun c => Release (Stop c))).
Proof.
  intros Hp Hc Hid Hu. destruct (unlink_spec ptr_of crid q h) as [(b & x & a & d & -> & Hd & Hdi & _ & E)|[Hn _]].
  - assert (ptr_of x = p) as Ep by (eapply Hu; [|exact Hd|done]; set_solver).
    exists b, x, a. split; [done|]. split; [done|]. by rewrite E, Ep.
  - exfalso. apply list_elem_of_fmap in Hp as (x & -> & Hx). by eapply Hn.
Qed.

(** The entries of a queue that have a registered id. *)
Lemma queued_unique n s l crid p : inv n s -> id_cr_ s !! crid = Some p ->
  forall h, heap_eq (heap s) h -> forall x d, x ∈ contents s l -> h !! x = Some d -> id_ d = crid -> x = p.
Proof.
  intros Hi Hp h Hh x d Hx Hd Hid. destruct (inv_registered n s Hi l x Hx) as (e & He & _ & Hreg).
  destruct (heap_eq_lookup _ _ _ _ Hh He) as (e' & He' & Hst & _). congruence.
Qed.

Lemma static_stop c : same_static c (Stop c). Proof. done. Qed.
Lemma static_release c : same_static c (Release c). Proof. done. Qed.
Lemma static_flag c : same_static c (flag_data c). Proof. unfold flag_data. by case_bool_decide. Qed.
Lemma static_update now c : same_static c (UpdateState now c).2.
Proof. unfold UpdateState. repeat case_match; done. Qed.
Lemma static_resume y c : same_static c (Resume (run y) c).2.
Proof. unfold Resume. destruct y; repeat case_match; done. Qed.
#[export] Hint Resolve static_stop static_release static_flag static_update static_resume : cyber.

(** What removing leaves in the heap: stopped routines stay stopped. *)
Lemma stopped_upd h p f c q :
  (forall c, force_stop_ c = true -> force_stop_ (f c) = true) ->
  h !! q = Some c -> force_stop_ c = true -> exists c', upd h p f !! q = Some c' /\ force_stop_ c' = true.
Proof.
  intros Hf Hq Hc. destruct (decide (p = q)) as [->|Hn]; [|rewrite upd_lookup_ne by done; eauto].
  rewrite (upd_lookup_eq _ _ _ _ Hq). eauto.
Qed.

(** Removing [crid] from the run queue of the pool. *)
Lemma dequeue_spec n s crid p c :
  inv n s -> id_cr_ s !! crid = Some p -> heap s !! p = Some c -> processor_id_ c = -1 ->
  exists s', dequeue (with_ids (with_heap s (upd (heap s) p Stop)) (delete crid (id_cr_ s)))
               (group_name_ c) (priority_ c) crid = Some (true, s') /\
    inv n s' /\ stop_ s' = stop_ s /\ id_cr_ s' = delete crid (id_cr_ s) /\
    heap s' = upd (upd (heap s) p Stop) p (fun c => Release (Stop c)).
Proof.
  intros Hi Hp Hc Hpid. destruct (inv_queued n s Hi crid p Hp) as (c0 & Hc0 & Hcid & Hin & Hk). simplify_eq.
  destruct Hk as [[_ Hprio]|Hk]; [|lia].
  assert (loc_of c = Pool (group_name_ c) (Z.to_nat (priority_ c))) as El by (unfold loc_of; by rewrite Hpid).
  rewrite El in Hin. set (s1 := with_ids _ _).
  assert (heap_eq (heap s) (upd (heap s) p Stop)) as Hh1 by (apply heap_eq_upd; auto with cyber).
  unfold dequeue. rewrite (zget_queue s1) by (try apply (inv_groups n s Hi); done).
  change (contents s1 (Pool (group_name_ c) (Z.to_nat (priority_ c))))
    with (contents s (Pool (group_name_ c) (Z.to_nat (priority_ c)))).
  destruct (unlink_registered (fun p => p) (id_ c) (contents s (Pool (group_name_ c) (Z.to_nat (priority_ c))))
              (heap s1) p (Stop c)) as (b & x & a & Eq & -> & ->).
  { by rewrite list_fmap_id. } { by apply upd_lookup_eq. } { done. }
  { intros x d Hx Hd Hid. by apply (queued_unique n s _ (id_ c) p Hi Hp (heap s1) Hh1 x d Hx Hd). }
  eexists. split; [done|].
  assert (heap_eq (heap s) (upd (upd (heap s) p Stop) p (fun c => Release (Stop c)))) as Hh2.
  { eapply heap_eq_trans; [exact Hh1|]. by apply heap_eq_upd. }
  split; [|done].
  eapply (inv_del n s _ p c (id_ c)); [exact Hi|exact Hp|exact Hc|exact Hh2|reflexivity|..].
  - rewrite El. rewrite (contents_set_queue (with_heap s1 _)) by (try apply (inv_groups n s Hi); done).
    rewrite decide_True by done. rewrite Eq. by rewrite Permutation_middle.
  - intros l Hl. rewrite (contents_set_queue (with_heap s1 _)) by (try apply (inv_groups n s Hi); done).
    rewrite decide_False by congruence. by destruct l.
  - apply (groups_set_queue s), (inv_groups n s Hi).
  - apply (inv_ctxs n s Hi).
  - apply (inv_ctxs' n s Hi).
Qed.

(** Appending to a run queue of the pool. *)
Lemma enqueue_spec n s s1 p c :
  inv n s -> (forall i, id_cr_ s !! i <> Some p) -> id_cr_ s !! id_ c = None ->
  processor_id_ c = -1 -> 0 <= priority_ c < Z.of_nat MAX_PRIO ->
  heap s1 !! p = Some c -> (forall q, q <> p -> heap s1 !! q = heap s !! q) ->
  id_cr_ s1 = <[id_ c := p]> (id_cr_ s) -> cr_group_ s1 = cr_group_ s -> pctxs_ s1 = pctxs_ s ->
  exists g, enqueue (cr_group_ s1) (group_name_ c) (priority_ c) p = Some g /\ inv n (with_groups s1 g).
Proof.
  intros Hi Hnew Hid Hpid Hprio Hp Hq Hids Hgr Hpc. unfold enqueue. rewrite Hgr.
  rewrite (zget_queue s) by (try apply (inv_groups n s Hi); done). eexists. split; [done|].
  assert (loc_of c = Pool (group_name_ c) (Z.to_nat (priority_ c))) as El by (unfold loc_of; by rewrite Hpid).
  set (s2 := with_groups s1 _).
  assert (forall l, contents s2 l = if decide (l = Pool (group_name_ c) (Z.to_nat (priority_ c)))
     then contents s (Pool (group_name_ c) (Z.to_nat (priority_ c))) ++ [p] else contents s l) as Hcont.
  { intros l. rewrite <- (contents_set_queue s) by (try apply (inv_groups n s Hi); done).
    destruct l; simpl; [done|by rewrite Hpc]. }
  apply (inv_add n s s2 p c Hi Hnew Hid Hp Hq Hids).
  - rewrite El, Hcont, decide_True by done. rewrite Permutation_app_comm. done.
  - intros l Hl. rewrite Hcont, decide_False by congruence. done.
  - by left.
  - apply (groups_set_queue s), (inv_groups n s Hi).
  - intros pid Hb. destruct (inv_ctxs n s Hi pid Hb) as [x Hx]. exists x. unfold choreo_at. simpl. by rewrite Hpc.
  - simpl. rewrite Hpc. apply (inv_ctxs' n s Hi).
Qed.

(** ** A round of a processor *)

Lemma scan_heap_eq {A} (w : A -> CRoutine -> A) clock q h a : heap_eq h (scan w clock q h a).1.2.
Proof.
  revert h a. induction q as [|p q IH]; intros h a; cbn [scan]; [apply heap_eq_refl|].
  destruct (h !! p) as [c|] eqn:E; [|apply heap_eq_refl].
  unfold Acquire. destruct (negb _); [eapply heap_eq_trans; [|apply IH]; by apply (heap_eq_insert _ _ c)|].
  pose proof (static_update (clock p) (with_lock true c)) as Hst. destruct (UpdateState _ _) as [st c'].
  destruct (bool_decide _); [by apply (heap_eq_insert _ _ c)|].
  eapply heap_eq_trans; [|apply IH]. by apply (heap_eq_insert _ _ c).
Qed.

Lemma prio_loop_heap_eq clock i mq h ctx :
  heap_eq h (prio_loop clock i mq h ctx).1.2 /\ cc_group (prio_loop clock i mq h ctx).2 = cc_group ctx /\
  cc_stop_ (prio_loop clock i mq h ctx).2 = cc_stop_ ctx.
Proof.
  assert (forall c x, cc_group (note_sleep c x) = cc_group c /\ cc_stop_ (note_sleep c x) = cc_stop_ c) as Hns.
  { intros c x. unfold note_sleep. repeat case_match; done. }
  assert (forall q h ctx, cc_group (scan note_sleep clock q h ctx).2 = cc_group ctx /\
    cc_stop_ (scan note_sleep clock q h ctx).2 = cc_stop_ ctx) as Hscan.
  { induction q as [|p q IH]; intros h' c'; cbn [scan]; [done|]. destruct (h' !! p); [|done]. unfold Acquire.
    destruct (negb _); [apply IH|]. destruct (UpdateState _ _). destruct (bool_decide _); [done|].
    destruct (IH (<[p := Release c0]> h') (note_sleep c' c0)) as [-> ->]. apply Hns. }
  revert h ctx. induction i as [|i IH]; intros h ctx; cbn [prio_loop].
  { split; [apply heap_eq_refl|done]. }
  pose proof (scan_heap_eq note_sleep clock (default [] (mq !! i)) h ctx) as Hh.
  destruct (Hscan (default [] (mq !! i)) h ctx) as [Hg Hs].
  destruct (scan _ _ _ _ _) as [[[p|] h'] ctx']; simpl in *; [done|].
  destruct (IH h' ctx') as (Hh' & -> & ->). split; [|done]. by eapply heap_eq_trans.
Qed.

Lemma inv_swap_classic n s pid c c' h :
  inv n s -> pctxs_ s !! pid = Some (PClassic c) -> heap_eq (heap s) h ->
  inv n (with_pctxs (with_heap s h) (<[pid := PClassic c']> (pctxs_ s))).
Proof.
  intros Hi E Hh. assert (forall j x, (<[pid := PClassic c']> (pctxs_ s)) !! j = Some (PChoreo x) <-> pctxs_ s !! j = Some (PChoreo x)) as Hx.
  { intros j x. destruct (decide (pid = j)) as [<-|].
    - rewrite list_lookup_insert_eq by (by eapply lookup_lt_Some). rewrite E. done.
    - by rewrite list_lookup_insert_ne. }
  apply (inv_ext n s); try done; [|apply Hi| |].
  - intros [g i|j]; simpl; [done|]. destruct (decide (pid = j)) as [<-|].
    + rewrite list_lookup_insert_eq by (by eapply lookup_lt_Some). by rewrite E.
    + by rewrite list_lookup_insert_ne.
  - intros j Hj. destruct (inv_ctxs n s Hi j Hj) as [x Hx']. apply choreo_at_Some in Hx' as [_ Hx']. apply Hx in Hx'.
    exists x. unfold choreo_at, zget. destruct (Z.leb_spec 0 j); [|lia]. simpl. by rewrite Hx'.
  - intros j x Hj. apply Hx in Hj. by apply (inv_ctxs' n s Hi _ _ Hj).
Qed.

Lemma inv_swap_choreo n s pid c c' h :
  inv n s -> pctxs_ s !! pid = Some (PChoreo c) -> cr_queue_ c' = cr_queue_ c -> heap_eq (heap s) h ->
  inv n (with_pctxs (with_heap s h) (<[pid := PChoreo c']> (pctxs_ s))).
Proof.
  intros Hi E Hq Hh.
  assert (choreo_at (with_heap s h) (Z.of_nat pid) = Some c) as Hc.
  { unfold choreo_at, zget. destruct (Z.leb_spec 0 (Z.of_nat pid)); [|lia]. rewrite Nat2Z.id. simpl. by rewrite E. }
  pose proof (inv_heap n s h Hh Hi) as Hi'.
  replace (<[pid := PChoreo c']> (pctxs_ s)) with (zset (pctxs_ (with_heap s h)) (Z.of_nat pid) (PChoreo c')).
  2:{ unfold zset. destruct (Z.leb_spec 0 (Z.of_nat pid)); [|lia]. by rewrite Nat2Z.id. }
  destruct (ctxs_set n (with_heap s h) (Z.of_nat pid) c c' Hi' Hc) as [Hx Hx'].
  apply (inv_ext n (with_heap s h)); try done; [apply heap_eq_refl| |apply Hi'].
  intros l. rewrite (contents_set_ctx _ _ _ _ _ Hc). destruct (decide _) as [->|]; [|done].
  rewrite Hq. by rewrite (contents_ctx _ _ _ Hc).
Qed.

Lemma run_routine_heap_eq y h p : heap_eq h (run_routine y h p).
Proof. apply heap_eq_upd. intros c. etrans; [apply (static_resume y)|apply static_release]. Qed.

Lemma Run_once_spec n s clock y pid : inv n s ->
  inv n (Run_once clock y pid s) /\ id_cr_ (Run_once clock y pid s) = id_cr_ s /\
  stop_ (Run_once clock y pid s) = stop_ s /\ heap_eq (heap s) (heap (Run_once clock y pid s)).
Proof.
  intros Hi. unfold Run_once. destruct (pctxs_ s !! pid) as [[c|c]|] eqn:E; [| |split_and!; try done; apply heap_eq_refl].
  - unfold Classic_NextRoutine. set (mq := group_at _ _).
    assert (heap_eq (heap s) (if cc_stop_ c then (None, heap s, c) else prio_loop clock MAX_PRIO mq (heap s) c).1.2) as Hh.
    { destruct (cc_stop_ c); [apply heap_eq_refl|apply prio_loop_heap_eq]. }
    destruct (if cc_stop_ c then _ else _) as [[[p|] h'] c']; simpl in Hh |- *.
    + pose proof (heap_eq_trans _ _ _ Hh (run_routine_heap_eq y h' p)) as Hh'.
      split; [|done]. by apply (inv_swap_classic n s pid c c').
    + split; [|done]. rewrite list_insert_insert_eq. by apply (inv_swap_classic n s pid c).
  - unfold Choreo_NextRoutine. pose proof (scan_heap_eq (fun u _ => u) clock (cr_queue_ c).*2 (heap s) tt) as Hh.
    destruct (ch_stop_ c).
    { split_and!; try done; [apply (inv_swap_choreo n s pid c c); try done|]; apply heap_eq_refl. }
    destruct (scan _ _ _ _ _) as [[[p|] h'] c']; simpl in Hh |- *.
    + pose proof (heap_eq_trans _ _ _ Hh (run_routine_heap_eq y h' p)) as Hh'.
      split; [|done]. by apply (inv_swap_choreo n s pid c c).
    + split; [|done]. by apply (inv_swap_choreo n s pid c).
Qed.

(** ** The classic policy keeps its promise *)

Lemma clamp_range c : 0 <= priority_ c -> 0 <= priority_ (clamp_priority c) < Z.of_nat MAX_PRIO.
Proof.
  intros Hp. unfold clamp_priority. destruct (Z.leb_spec (Z.of_nat MAX_PRIO) (priority_ c)); [|lia].
  simpl. rewrite u32_small; unfold is_u32, MAX_PRIO in *; lia.
Qed.

Lemma clamp_fields c : id_ (clamp_priority c) = id_ c /\ processor_id_ (clamp_priority c) = processor_id_ c /\
  group_name_ (clamp_priority c) = group_name_ c.
Proof. unfold clamp_priority. by destruct (_ <=? _). Qed.

(** Both notifications set the flag and nothing else. *)
Lemma notify_heap n s crid p c : inv n s -> id_cr_ s !! crid = Some p -> heap s !! p = Some c ->
  inv n (with_heap s (upd (heap s) p flag_data)) /\
  forall p' c', id_cr_ s !! crid = Some p' -> heap s !! p' = Some c' ->
    upd (heap s) p flag_data !! p' = Some (flag_data c').
Proof.
  intros Hi Hp Hc. split; [apply inv_heap; [apply heap_eq_upd; auto with cyber|done]|].
  intros p' c' Hp' Hc'. simplify_eq. by apply upd_lookup_eq.
Qed.

Lemma stopped_twice h p c f :
  h !! p = Some c -> (forall c, force_stop_ (f (Stop c)) = true) ->
  exists c', upd (upd h p Stop) p f !! p = Some c' /\ force_stop_ c' = true.
Proof. intros Hc Hf. rewrite upd_upd, (upd_lookup_eq _ _ _ _ Hc). eauto. Qed.

Lemma remove_heap_facts h p c crid (ids : gmap Z Ptr) :
  ids !! crid = Some p -> h !! p = Some c ->
  let h' := upd (upd h p Stop) p (fun c => Release (Stop c)) in
  length h' = length h /\
  (forall q d, h !! q = Some d -> force_stop_ d = true -> exists d', h' !! q = Some d' /\ force_stop_ d' = true) /\
  (forall q, ids !! crid = Some q -> exists d', h' !! q = Some d' /\ force_stop_ d' = true).
Proof.
  intros Hp Hc h'. subst h'. split; [by rewrite !length_upd|]. rewrite upd_upd. split.
  - intros q d Hq Hd. by apply (stopped_upd _ _ _ d).
  - intros q Hq. simplify_eq. rewrite (upd_lookup_eq _ _ _ _ Hc). eauto.
Qed.

Lemma lookup_unregistered (ids : gmap Z Ptr) i :
  ids !! i = None -> bool_decide (is_Some (ids !! i)) = false /\ delete i ids = ids.
Proof. intros E. split; [rewrite E; apply bool_decide_false; by intros [? ?]|by apply delete_id]. Qed.

Section classic.
Variable cr_confs_ : gmap string ClassicTask.
Variable groups : list SchedGroup.
Hypothesis some_group : groups <> [].

Lemma classic_assign_spec c : processor_id_ c = -1 -> 0 <= priority_ c ->
  exists c', classic_assign cr_confs_ groups c = Some c' /\ id_ c' = id_ c /\ processor_id_ c' = -1 /\
    0 <= priority_ c' < Z.of_nat MAX_PRIO.
Proof.
  intros Hp Hr. unfold classic_assign. destruct (cr_confs_ !! name_ c) as [t|]; [|destruct groups as [|g l]; [done|]].
  - eexists. split; [done|]. destruct (clamp_fields (set_group_name (ct_group_name t) (set_priority (ct_prio t) c))) as (-> & -> & _).
    split; [done|]. split; [done|]. apply clamp_range. simpl. apply u32_range.
  - eexists. split; [done|]. destruct (clamp_fields (set_group_name (sg_name g) c)) as (-> & -> & _).
    split; [done|]. split; [done|]. by apply clamp_range.
Qed.

#[export, refine] Instance classic_spec : PolicySpec (H := classic_policy cr_confs_ groups) 0 := {}.
Proof.
  - intros s p c Hi Hc Hpid Hprio Hnew. simpl. unfold Classic_DispatchTask. rewrite Hc.
    destruct (id_cr_ s !! id_ c) as [q|] eqn:Eid.
    { rewrite bool_decide_true, bool_decide_false by done. eauto 10. }
    rewrite bool_decide_false by (by intros [? ?]). rewrite bool_decide_true by done.
    destruct (classic_assign_spec c Hpid Hprio) as (c' & -> & Eid' & Hpid' & Hprio').
    set (s1 := with_heap _ _).
    destruct (enqueue_spec 0 s s1 p c' Hi Hnew) as (g & -> & Hinv); try done.
    + by rewrite Eid'.
    + simpl. apply list_lookup_insert_eq. by eapply lookup_lt_Some.
    + intros q Hq. simpl. by rewrite list_lookup_insert_ne.
    + simpl. by rewrite Eid'.
    + eexists _, _. split; [done|]. done.
  - intros s crid Hi Hs. simpl. unfold Classic_NotifyProcessor. rewrite Hs.
    destruct (id_cr_ s !! crid) as [p|] eqn:Ep.
    + destruct (inv_queued 0 s Hi crid p Ep) as (c & Hc & _). rewrite Hc.
      destruct (notify_heap 0 s crid p c Hi Ep Hc) as [Hi' Hf]. rewrite bool_decide_true by done.
      eexists _, _. split; [done|]. split; [done|]. split; [done|]. split; [done|]. by rewrite Ep in Hf.
    + rewrite bool_decide_false by (by intros [? ?]). exists s, []. by split_and!.
  - intros s crid Hi. simpl. unfold Classic_RemoveCRoutine. destruct (id_cr_ s !! crid) as [p|] eqn:Ep.
    + destruct (inv_queued 0 s Hi crid p Ep) as (c & Hc & _ & _ & Hk). rewrite Hc.
      destruct Hk as [[Hpid _]|Hk]; [|lia]. destruct (dequeue_spec 0 s crid p c Hi Ep Hc Hpid) as (s' & -> & Hi' & Hst & Hids & Hh).
      rewrite bool_decide_true by done. exists s'. split; [done|]. rewrite Hh, Hids.
      rewrite <- Ep. split; [done|]. split; [done|]. split; [done|]. by apply (remove_heap_facts _ _ c).
    + destruct (lookup_unregistered _ _ Ep) as [_ Hd]. exists s. rewrite bool_decide_false by (by intros [? ?]).
      split; [done|]. rewrite Hd. split_and!; try done. by eauto.
  - intros s clock y pid Hi. by apply Run_once_spec.
Qed.
End classic.

(** ** The choreography policy, when every configured processor exists *)

Section choreography.
Variable cr_confs_ : gmap string ChoreographyTask.
Variable proc_num_ : Z.
Hypothesis proc_num_range : 0 <= proc_num_ < 2 ^ 31.
Hypothesis processors_exist : forall name t k,
  cr_confs_ !! name = Some t -> cht_processor t = Some k -> 0 <= k < proc_num_.

Lemma choreo_assign_spec c : processor_id_ c = -1 -> 0 <= priority_ c ->
  let c' := choreo_assign cr_confs_ c in
  id_ c' = id_ c /\ 0 <= priority_ c' /\ (processor_id_ c' = -1 \/ 0 <= processor_id_ c' < proc_num_).
Proof.
  intros Hp Hr c'. subst c'. unfold choreo_assign. destruct (cr_confs_ !! name_ c) as [t|] eqn:E; [|by auto].
  pose proof (u32_range (cht_prio t)) as Hu. destruct (cht_processor t) as [k|] eqn:Ek; simpl.
  - pose proof (processors_exist _ _ _ E Ek). rewrite i32_small by (unfold is_i32; lia). split; [done|].
    split; [apply Hu|]. by right.
  - split; [done|]. split; [apply Hu|]. by left.
Qed.

(** A second routine with a registered id changes its own attributes only. *)
Lemma choreo_dup n s p c : inv n s -> (forall i, id_cr_ s !! i <> Some p) -> inv n (with_heap s (<[p := c]> (heap s))).
Proof.
  intros Hi Hnew. constructor; try apply Hi; simpl.
  - intros i x Hx. destruct (inv_queued _ s Hi i x Hx) as (d & Hd & Hrest). exists d.
    rewrite list_lookup_insert_ne by (intros ->; by apply Hnew in Hx). done.
  - intros l x Hx. destruct (inv_registered _ s Hi l x Hx) as (d & Hd & Hl & Hdi). exists d.
    rewrite list_lookup_insert_ne by (intros ->; by apply Hnew in Hdi). done.
Qed.

(** A new routine in the queue of its processor. *)
Lemma choreo_enqueue_inv n s p c ctx :
  inv n s -> (forall i, id_cr_ s !! i <> Some p) -> id_cr_ s !! id_ c = None -> is_Some (heap s !! p) ->
  0 <= processor_id_ c < n -> choreo_at s (processor_id_ c) = Some ctx ->
  inv n (with_pctxs (with_ids (with_heap s (<[p := c]> (heap s))) (<[id_ c := p]> (id_cr_ s)))
           (zset (pctxs_ s) (processor_id_ c)
              (PChoreo (mkChoreo (ch_stop_ ctx) (notified_ ctx) (emplace (priority_ c) p (cr_queue_ ctx)))))).
Proof.
  intros Hi Hnew Hid [c0 Hc0] Hin Hctx. set (s1 := with_ids _ _). set (ctx' := mkChoreo _ _ _).
  assert (choreo_at s1 (processor_id_ c) = Some ctx) as E by exact Hctx.
  destruct (ctxs_set n s (processor_id_ c) ctx ctx' Hi Hctx) as [Hx Hx'].
  assert (loc_of c = Ctx (Z.to_nat (processor_id_ c))) as El.
  { unfold loc_of. destruct (Z.eqb_spec (processor_id_ c) (-1)); [lia|done]. }
  eapply (inv_add n s _ p c Hi Hnew Hid).
  - simpl. apply list_lookup_insert_eq. by eapply lookup_lt_Some.
  - intros q Hq. simpl. by rewrite list_lookup_insert_ne.
  - done.
  - rewrite El. rewrite (contents_set_ctx s1 _ ctx) by exact E. rewrite decide_True by done.
    rewrite (contents_ctx s _ ctx Hctx). simpl. by rewrite emplace_perm.
  - intros l Hl. rewrite (contents_set_ctx s1 _ ctx) by exact E. rewrite decide_False by congruence. by destruct l.
  - by right.
  - apply (inv_groups _ s Hi).
  - exact Hx.
  - exact Hx'.
Qed.

Lemma Choreo_Dispatch_spec s p c : inv proc_num_ s -> heap s !! p = Some c -> processor_id_ c = -1 -> 0 <= priority_ c ->
  (forall i, id_cr_ s !! i <> Some p) ->
  exists s' w, Choreo_DispatchTask cr_confs_ proc_num_ s p = Some (bool_decide (id_cr_ s !! id_ c = None), s', w) /\
    inv proc_num_ s' /\ stop_ s' = stop_ s /\
    id_cr_ s' = if bool_decide (id_cr_ s !! id_ c = None) then <[id_ c := p]> (id_cr_ s) else id_cr_ s.
Proof.
  intros Hi Hc Hpid Hprio Hnew. unfold Choreo_DispatchTask. rewrite Hc.
  destruct (choreo_assign_spec c Hpid Hprio) as (Eid & Hpr & Hproc). set (c' := choreo_assign cr_confs_ c) in *.
  rewrite Eid. set (s1 := with_heap s _).
  assert (heap s1 !! p = Some c') as Hp1 by (apply list_lookup_insert_eq; by eapply lookup_lt_Some).
  destruct (id_cr_ s !! id_ c) as [q|] eqn:Eidc; change (id_cr_ s1) with (id_cr_ s); rewrite Eidc.
  { rewrite bool_decide_true, bool_decide_false by done. eexists _, _. split; [done|]. split; [|done]. by apply choreo_dup. }
  rewrite (bool_decide_false (is_Some None)) by (by intros [? ?]). rewrite bool_decide_true by done.
  destruct Hproc as [Hm1|Hin].
  - rewrite Hm1. change (u32 (-1)) with 4294967295. destruct (Z.ltb_spec 4294967295 proc_num_); [lia|].
    set (c2 := set_group_name DEFAULT_GROUP_NAME (clamp_priority c')). destruct (clamp_fields c') as (F1 & F2 & _).
    destruct (enqueue_spec proc_num_ s (with_heap (with_ids s1 (<[id_ c := p]> (id_cr_ s))) (<[p := c2]> (heap s1))) p c2 Hi Hnew)
      as (g & Eg & Hinv); simpl; rewrite ?F1, ?Eid, ?F2; try done.
    + apply clamp_range. exact Hpr.
    + apply list_lookup_insert_eq. rewrite length_insert. by eapply lookup_lt_Some.
    + intros q Hq. by rewrite !list_lookup_insert_ne.
    + simpl in Eg |- *. rewrite Eg. eexists _, _. split; [done|]. done.
  - rewrite u32_small by (unfold is_u32; lia). destruct (Z.ltb_spec (processor_id_ c') proc_num_); [|lia].
    destruct (inv_ctxs _ s Hi (processor_id_ c') Hin) as [ctx Hctx].
    assert (choreo_at (with_ids s1 (<[id_ c := p]> (id_cr_ s))) (processor_id_ c') = Some ctx) as -> by exact Hctx.
    unfold Choreo_Enqueue. cbn [heap with_ids]. rewrite Hp1. eexists _, _. split; [done|]. split; [|done].
    rewrite <- Eid in Eidc |- *. by apply (choreo_enqueue_inv proc_num_ s p c' ctx Hi Hnew Eidc (ex_intro _ _ Hc)).
Qed.

Lemma Choreo_Notify_spec s crid : inv proc_num_ s -> stop_ s = false ->
  exists s' w, Choreo_NotifyProcessor s crid = Some (bool_decide (is_Some (id_cr_ s !! crid)), s', w) /\
    inv proc_num_ s' /\ stop_ s' = stop_ s /\ id_cr_ s' = id_cr_ s /\
    forall p c, id_cr_ s !! crid = Some p -> heap s !! p = Some c -> heap s' !! p = Some (flag_data c).
Proof.
  intros Hi Hs. unfold Choreo_NotifyProcessor. rewrite Hs.
  destruct (id_cr_ s !! crid) as [p|] eqn:Ep.
  - destruct (inv_queued _ s Hi crid p Ep) as (c & Hc & _ & _ & Hk). rewrite Hc.
    destruct (notify_heap _ s crid p c Hi Ep Hc) as [Hi' Hf]. rewrite bool_decide_true by done. rewrite Ep in Hf.
    destruct Hk as [[-> _]|Hk]; simpl; [by eexists _, _|].
    destruct (Z.eqb_spec (processor_id_ c) (-1)); [lia|]. simpl.
    destruct (inv_ctxs _ s Hi (processor_id_ c) Hk) as [ctx Hctx].
    assert (choreo_at (with_heap s (upd (heap s) p flag_data)) (processor_id_ c) = Some ctx) as E by exact Hctx.
    rewrite E. eexists _, _. split; [done|]. split; [|done].
    pose proof (proj2 (choreo_at_Some _ _ _ E)) as El. simpl in El.
    destruct (inv_swap_choreo proc_num_ _ _ ctx (mkChoreo (ch_stop_ ctx) true (cr_queue_ ctx)) _ Hi' El eq_refl (heap_eq_refl _)).
    unfold zset. destruct (Z.leb_spec 0 (processor_id_ c)); [|lia]. by constructor.
  - rewrite bool_decide_false by (by intros [? ?]). exists s, []. by split_and!.
Qed.

Lemma Choreo_Remove_spec s crid : inv proc_num_ s ->
  exists s', Choreo_RemoveTaskCRoutine s crid = Some (bool_decide (is_Some (id_cr_ s !! crid)), s') /\
    inv proc_num_ s' /\ stop_ s' = stop_ s /\ id_cr_ s' = delete crid (id_cr_ s) /\ length (heap s') = length (heap s) /\
    (forall p c, heap s !! p = Some c -> force_stop_ c = true -> exists c', heap s' !! p = Some c' /\ force_stop_ c' = true) /\
    forall p, id_cr_ s !! crid = Some p -> exists c', heap s' !! p = Some c' /\ force_stop_ c' = true.
Proof.
  intros Hi. unfold Choreo_RemoveTaskCRoutine. destruct (id_cr_ s !! crid) as [p|] eqn:Ep.
  - destruct (inv_queued _ s Hi crid p Ep) as (c & Hc & Hcid & Hin & Hk). rewrite Hc. rewrite bool_decide_true by done.
    destruct Hk as [[Hpid _]|Hk].
    { rewrite Hpid. simpl. destruct (dequeue_spec _ s crid p c Hi Ep Hc Hpid) as (s' & -> & Hi' & Hst & Hids & Hh).
      exists s'. split; [done|]. rewrite Hh, Hids, <- Ep. split; [done|]. split; [done|]. split; [done|].
      by apply (remove_heap_facts _ _ c). }
    destruct (Z.eqb_spec (processor_id_ c) (-1)); [lia|]. simpl.
    destruct (inv_ctxs _ s Hi (processor_id_ c) Hk) as [ctx Hctx]. set (s1 := with_ids _ _).
    assert (choreo_at s1 (processor_id_ c) = Some ctx) as E by exact Hctx. rewrite E.
    assert (loc_of c = Ctx (Z.to_nat (processor_id_ c))) as El.
    { unfold loc_of. destruct (Z.eqb_spec (processor_id_ c) (-1)); [lia|done]. }
    rewrite El, (contents_ctx s _ ctx Hctx) in Hin.
    assert (heap_eq (heap s) (upd (heap s) p Stop)) as Hh1 by (apply heap_eq_upd; auto with cyber).
    unfold Choreo_RemoveCRoutine. change (heap s1) with (upd (heap s) p Stop) in *.
    destruct (unlink_registered snd crid (cr_queue_ ctx) (upd (heap s) p Stop) p (Stop c)) as (b & x & a & Eq & Ex & ->).
    { done. } { by apply upd_lookup_eq. } { done. }
    { intros x d Hx Hd Hid. apply (queued_unique _ s (Ctx (Z.to_nat (processor_id_ c))) crid p Hi Ep _ Hh1 x.2 d); try done.
      rewrite (contents_ctx s _ ctx Hctx). apply list_elem_of_fmap. eauto. }
    eexists. split; [done|].
    assert (heap_eq (heap s) (upd (upd (heap s) p Stop) p (fun c => Release (Stop c)))) as Hh2.
    { eapply heap_eq_trans; [exact Hh1|]. by apply heap_eq_upd. }
    rewrite <- Ep. split; [|split; [done|]; split; [done|]; by apply (remove_heap_facts _ _ c)].
    set (ctx' := mkChoreo _ _ _).
    destruct (ctxs_set proc_num_ s (processor_id_ c) ctx ctx' Hi Hctx) as [Hx Hx'].
    eapply (inv_del proc_num_ s _ p c crid); [exact Hi|exact Ep|exact Hc|exact Hh2|reflexivity|..].
    * rewrite El, (contents_ctx s _ ctx Hctx). rewrite (contents_set_ctx (with_heap s1 _) _ ctx) by exact E.
      rewrite decide_True by done. simpl. rewrite Eq, !fmap_app. simpl. rewrite Ex. by rewrite Permutation_middle.
    * intros l Hl. rewrite (contents_set_ctx (with_heap s1 _) _ ctx) by exact E. rewrite decide_False by congruence. by destruct l.
    * apply (inv_groups _ s Hi).
    * exact Hx.
    * exact Hx'.
  - destruct (lookup_unregistered _ _ Ep) as [_ Hd]. exists s. rewrite bool_decide_false by (by intros [? ?]).
    split; [done|]. rewrite Hd. split_and!; try done. by eauto.
Qed.

#[export] Instance choreography_spec : PolicySpec (H := choreography_policy cr_confs_ proc_num_) proc_num_ := {
  dispatch_spec := Choreo_Dispatch_spec;
  notify_spec := Choreo_Notify_spec;
  remove_spec := Choreo_Remove_spec;
  run_spec := Run_once_spec proc_num_
}.
End choreography.

(** ** Sequences of operations *)

(** Routines of priority 0 and no processor are dispatched, as CreateTask makes
    them; processors may run in between. *)
Inductive Op :=
| ODispatch (now : Z) (task_id : Z) (name : string)
| ONotify (crid : Z)
| ORemove (crid : Z)
| ORun (clock : Ptr -> Z) (y : yielded) (pid : nat).

Section operations.
Context {n : Z} `{PolicySpec n}.

Definition exec (s : Sched) (op : Op) : option (bool * Sched) :=
  match op with
  | ODispatch now task_id name =>
      let '(p, h) := alloc (heap s) (named_routine now task_id name) in
      fst <$> DispatchTask (with_heap s h) p
  | ONotify crid => fst <$> NotifyTask s crid
  | ORemove crid => RemoveCRoutine s crid
  | ORun clock y pid => Some (true, Run_once clock y pid s)
  end.

Fixpoint exec_all (s : Sched) (ops : list Op) : option (list bool * Sched) :=
  match ops with
  | [] => Some ([], s)
  | op :: ops =>
      match exec s op with
      | None => None
      | Some (b, s) => match exec_all s ops with
                       | None => None
                       | Some (bs, s) => Some (b :: bs, s)
                       end
      end
  end.

(** The scheduler as a set of ids. *)
Definition spec_exec (ids : gset Z) (op : Op) : bool * gset Z :=
  match op with
  | ODispatch _ i _ => (bool_decide (i ∉ ids), {[ i ]} ∪ ids)
  | ONotify i => (bool_decide (i ∈ ids), ids)
  | ORemove i => (bool_decide (i ∈ ids), ids ∖ {[ i ]})
  | ORun _ _ _ => (true, ids)
  end.

Fixpoint spec_all (ids : gset Z) (ops : list Op) : list bool :=
  match ops with
  | [] => []
  | op :: ops => let '(b, ids) := spec_exec ids op in b :: spec_all ids ops
  end.

Lemma registered_valid s i p : inv n s -> id_cr_ s !! i = Some p -> (p < length (heap s))%nat.
Proof. intros Hi Hp. destruct (inv_queued n s Hi i p Hp) as (c & Hc & _). by eapply lookup_lt_Some. Qed.

Lemma inv_alloc s c : inv n s -> inv n (with_heap s (heap s ++ [c])).
Proof.
  intros Hi. constructor; try apply Hi; simpl.
  - intros i p Hp. destruct (inv_queued n s Hi i p Hp) as (d & Hd & Hr). exists d.
    rewrite lookup_app_l by (by eapply lookup_lt_Some). done.
  - intros l p Hp. destruct (inv_registered n s Hi l p Hp) as (d & Hd & Hr). exists d.
    rewrite lookup_app_l by (by eapply lookup_lt_Some). done.
Qed.

Lemma exec_spec s op : inv n s -> stop_ s = false ->
  exists b s', exec s op = Some (b, s') /\ inv n s' /\ stop_ s' = false /\
    spec_exec (dom (id_cr_ s)) op = (b, dom (id_cr_ s')).
Proof.
  intros Hi Hs. destruct op as [now i name|i|i|clock y pid]; simpl.
  - set (s1 := with_heap s _).
    destruct (dispatch_spec s1 (length (heap s)) (named_routine now i name)) as (s' & w & -> & Hi' & Hs' & Hids).
    { by apply inv_alloc. } { simpl. rewrite lookup_app_r by lia. by rewrite Nat.sub_diag. } { done. } { done. }
    { intros j Hj. pose proof (registered_valid s j _ Hi Hj). lia. }
    simpl in *. eexists _, s'. split; [done|]. split; [done|]. split; [congruence|]. rewrite Hids.
    rewrite (bool_decide_ext (i ∉ dom (id_cr_ s)) (id_cr_ s !! i = None)) by apply not_elem_of_dom.
    f_equal. case_bool_decide as E; [by rewrite dom_insert_L|].
    assert (i ∈ dom (id_cr_ s)) by (apply elem_of_dom; by destruct (id_cr_ s !! i)). set_solver.
  - unfold NotifyTask. rewrite Hs. destruct (notify_spec s i Hi Hs) as (s' & w & -> & Hi' & Hs' & Hids & _).
    simpl. eexists _, s'. split; [done|]. split; [done|]. split; [congruence|]. rewrite Hids.
    f_equal. apply bool_decide_ext, elem_of_dom.
  - destruct (remove_spec s i Hi) as (s' & -> & Hi' & Hs' & Hids & _).
    eexists _, s'. split; [done|]. split; [done|]. split; [congruence|]. rewrite Hids, dom_delete_L.
    f_equal. apply bool_decide_ext, elem_of_dom.
  - destruct (run_spec s clock y pid Hi) as (Hi' & Hids & Hs' & _). eexists _, _. split; [done|].
    rewrite Hids. split; [done|]. split; [congruence|done].
Qed.

Lemma exec_all_spec ops s : inv n s -> stop_ s = false ->
  exists bs s', exec_all s ops = Some (bs, s') /\ inv n s' /\ stop_ s' = false /\ bs = spec_all (dom (id_cr_ s)) ops.
Proof.
  revert s. induction ops as [|op ops IH]; intros s Hi Hs; [by eexists _, s|].
  cbn [exec_all spec_all]. destruct (exec_spec s op Hi Hs) as (b & s1 & -> & Hi1 & Hs1 & ->).
  destruct (IH s1 Hi1 Hs1) as (bs & s2 & -> & Hi2 & Hs2 & ->). by eexists _, s2.
Qed.

(** ** Shutdown *)

Lemma remove_all_spec ids s : inv n s ->
  exists s', remove_all s ids = Some s' /\ inv n s' /\ stop_ s' = stop_ s /\
    (forall i, id_cr_ s' !! i = if decide (i ∈ ids) then None else id_cr_ s !! i) /\
    (forall p c, heap s !! p = Some c -> force_stop_ c = true -> exists c', heap s' !! p = Some c' /\ force_stop_ c' = true) /\
    (forall i p, i ∈ ids -> id_cr_ s !! i = Some p -> exists c', heap s' !! p = Some c' /\ force_stop_ c' = true).
Proof.
  revert s. induction ids as [|j ids IH]; intros s Hi; cbn [remove_all].
  { exists s. split_and!; try done; [eauto|]. by intros i p ?%not_elem_of_nil. }
  destruct (remove_spec s j Hi) as (s1 & -> & Hi1 & Hs1 & Hids1 & _ & Hkeep1 & Hstop1).
  destruct (IH s1 Hi1) as (s2 & -> & Hi2 & Hs2 & Hids2 & Hkeep2 & Hstop2). exists s2.
  split; [done|]. split; [done|]. split; [congruence|]. split_and!.
  - intros i. rewrite Hids2, Hids1. destruct (decide (i = j)) as [->|Hne].
    + rewrite (decide_True (P := j ∈ j :: ids)) by left. rewrite lookup_delete_eq. by destruct (decide _).
    + rewrite lookup_delete_ne by done. destruct (decide (i ∈ ids)); [rewrite decide_True by (by right); done|].
      rewrite decide_False by (rewrite elem_of_cons; tauto). done.
  - intros p c Hp Hc. destruct (Hkeep1 p c Hp Hc) as (c1 & Hp1 & Hc1). eauto.
  - intros i p Hin Hp. destruct (decide (i = j)) as [->|Hne].
    + destruct (Hstop1 p Hp) as (c1 & Hp1 & Hc1). eauto.
    + apply elem_of_cons in Hin as [->|Hin]; [done|]. apply (Hstop2 i); [done|]. by rewrite Hids1, lookup_delete_ne.
Qed.

Lemma inv_shutdown s : inv n s ->
  inv n (mkSched (heap s) (id_cr_ s) (cr_group_ s) (shutdown_context <$> pctxs_ s) true).
Proof.
  intros Hi. apply (inv_ext n s); try done; try apply Hi; [apply heap_eq_refl| | |].
  - intros [g i|pid]; simpl; [done|]. rewrite list_lookup_fmap. by destruct (pctxs_ s !! pid) as [[c|c]|].
  - intros pid Hp. destruct (inv_ctxs n s Hi pid Hp) as [ctx [Hpos E]%choreo_at_Some].
    exists (Choreo_Shutdown ctx). unfold choreo_at, zget. destruct (Z.leb_spec 0 pid); [|lia]. simpl.
    by rewrite list_lookup_fmap, E.
  - intros pid ctx. simpl. rewrite list_lookup_fmap. destruct (pctxs_ s !! pid) as [[c|c]|] eqn:E; try done.
    intros _. by apply (inv_ctxs' n s Hi _ _ E).
Qed.

Lemma Shutdown_spec `{HashOrder} s : inv n s -> stop_ s = false ->
  exists s', Shutdown s = Some s' /\ stop_ s' = true /\ id_cr_ s' = ∅ /\ pctxs_ s' = [] /\
    (forall l, contents s' l = []) /\
    forall i p, id_cr_ s !! i = Some p -> exists c, heap s' !! p = Some c /\ force_stop_ c = true.
Proof.
  intros Hi Hs. unfold Shutdown. rewrite Hs. set (s1 := mkSched _ _ _ _ _). set (ids := omap _ _).
  assert (forall i p, id_cr_ s !! i = Some p -> i ∈ ids) as Hin.
  { intros i p Hp. destruct (inv_queued n s Hi i p Hp) as (c & Hc & Hid & _).
    apply list_elem_of_omap. exists p. split; [apply elem_of_iter_values; by exists i|]. simpl. by rewrite Hc, <- Hid. }
  destruct (remove_all_spec ids s1 (inv_shutdown s Hi)) as (s2 & -> & Hi2 & Hs2 & Hids2 & _ & Hstop2).
  assert (id_cr_ s2 = ∅) as Hempty.
  { apply map_eq. intros i. rewrite Hids2, lookup_empty. destruct (decide (i ∈ ids)) as [|Hn]; [done|].
    destruct (id_cr_ s1 !! i) as [p|] eqn:E; [|done]. by apply Hin in E. }
  eexists. split; [done|]. split; [done|]. split; [done|]. split; [done|]. split.
  - intros [g j|pid]; [|done]. change (contents s2 (Pool g j) = []).
    destruct (contents s2 (Pool g j)) as [|p q] eqn:E; [done|].
    destruct (inv_registered n s2 Hi2 (Pool g j) p) as (c & _ & _ & Hr); [rewrite E; left|].
    by rewrite Hempty, lookup_empty in Hr.
  - intros i p Hp. apply (Hstop2 i p); [by eapply Hin|done].
Qed.
End operations.

(** ** The two schedulers *)

(** A scheduler with its contexts and no routines. *)
Definition started (ctxs : list ProcessorContext) : Sched := mkSched [] ∅ ∅ ctxs false.

Lemma inv_started n ctxs :
  (forall pid, 0 <= pid < n -> exists ctx, zget ctxs pid = Some (PChoreo ctx)) ->
  (forall pid ctx, ctxs !! pid = Some (PChoreo ctx) -> Z.of_nat pid < n /\ cr_queue_ ctx = []) -> inv n (started ctxs).
Proof.
  intros Hn Hx. assert (forall l, contents (started ctxs) l = []) as He.
  { intros [g i|pid]; simpl.
    - unfold group_at. rewrite lookup_empty. simpl. destruct (empty_queues !! i) as [q|] eqn:E; [|done].
      unfold empty_queues in E. by apply lookup_replicate in E as [-> _].
    - destruct (ctxs !! pid) as [[c|c]|] eqn:E; try done. destruct (Hx _ _ E) as [_ ->]. done. }
  constructor; simpl.
  - intros i p. by rewrite lookup_empty.
  - intros l p Hp. rewrite He in Hp. by apply not_elem_of_nil in Hp.
  - intros l. rewrite He. constructor.
  - intros g mq. by rewrite lookup_empty.
  - intros pid Hp. destruct (Hn pid Hp) as [ctx E]. exists ctx. unfold choreo_at. simpl. by rewrite E.
  - intros pid ctx E. by apply Hx in E as [? _].
Qed.

Lemma classic_started groups : inv 0 (started (Classic_CreateProcessor groups 0).2).
Proof.
  assert (forall ctxs pool, (forall pid x, ctxs !! pid <> Some (PChoreo x)) ->
    forall pid x, (foldl (fun '(n, l) g => (if n =? 0 then sg_processor_num g else n,
       l ++ replicate (Z.to_nat (sg_processor_num g)) (PClassic (NewClassic (sg_name g))))) (pool, ctxs) groups).2 !! pid
      <> Some (PChoreo x)) as Hno.
  { induction groups as [|g l IH]; intros ctxs pool Hc pid x; simpl; [apply Hc|]. apply IH. intros j y E.
    apply lookup_app_Some in E as [E|[_ E]]; [by apply Hc in E|]. by apply lookup_replicate in E as [E _]. }
  apply inv_started; [lia|]. intros pid ctx E. exfalso. by eapply (Hno []), E.
Qed.

Lemma choreo_started n pool : 0 <= n -> inv n (started (Choreo_CreateProcessor n pool)).
Proof.
  intros Hn. unfold Choreo_CreateProcessor. apply inv_started.
  - intros pid Hp. exists NewChoreo. unfold zget. destruct (Z.leb_spec 0 pid); [|lia].
    rewrite lookup_app_l by (rewrite length_replicate; lia). apply lookup_replicate. split; [done|lia].
  - intros pid ctx E. apply lookup_app_Some in E as [E|[_ E]]; apply lookup_replicate in E as [E Hlt]; [|done].
    injection E as ->. split; [lia|done].
Qed.

(** C5. The scheduler is a set of tasks, under the classic policy with at least one
    group and under the choreography policy with n processors, 0 <= n < 2^31, when
    every processor that a task is configured for exists (it has a number from 0 to
    n - 1): any sequence of dispatches, notifications, removals and processor rounds
    is defined and returns what the same operations on a set of ids return, and
    afterwards the run queues and the registry agree: every registered routine is in
    the one queue that its group and priority, or its processor, name, once, and
    nothing else is queued. *)
Theorem scheduler_is_task_set :
  (forall confs groups ops, groups <> [] ->
     exists bs s, exec_all (H := classic_policy confs groups) (started (Classic_CreateProcessor groups 0).2) ops
                    = Some (bs, s) /\ bs = spec_all ∅ ops /\ inv 0 s) /\
  (forall confs n pool ops, 0 <= n < 2 ^ 31 ->
     (forall name t k, confs !! name = Some t -> cht_processor t = Some k -> 0 <= k < n) ->
     exists bs s, exec_all (H := choreography_policy confs n) (started (Choreo_CreateProcessor n pool)) ops
                    = Some (bs, s) /\ bs = spec_all ∅ ops /\ inv n s).
Proof.
  split.
  - intros confs groups ops Hg.
    destruct (exec_all_spec (H0 := classic_spec confs groups Hg) ops _ (classic_started groups) eq_refl) as (bs & s & E & Hi & _ & Hbs).
    exists bs, s. split; [exact E|]. split; [|done]. rewrite Hbs. by simpl; rewrite dom_empty_L.
  - intros confs n pool ops Hn Hp.
    destruct (exec_all_spec (H0 := choreography_spec confs n Hn Hp) ops _ (choreo_started n pool ltac:(lia)) eq_refl) as (bs & s & E & Hi & _ & Hbs).
    exists bs, s. split; [exact E|]. split; [|done]. rewrite Hbs. by simpl; rewrite dom_empty_L.
Qed.

Lemma scheduler_is_task_set_witness :
  let confs : gmap string ChoreographyTask := {[ "lidar"%string := mkChoreoTask (Some 1) 30 ]} in
  exists s, exec_all (H := choreography_policy confs 2) (started (Choreo_CreateProcessor 2 2))
      [ODispatch 0 7 "lidar"; ODispatch 0 8 "radar"; ORun (fun _ => 0) HangUp 1; ONotify 7; ORemove 7; ORemove 7]
    = Some ([true; true; true; true; true; false], s) /\ inv 2 s.
Proof.
  cbv zeta. set (confs := {[ "lidar"%string := mkChoreoTask (Some 1) 30 ]} : gmap string ChoreographyTask).
  destruct (proj2 scheduler_is_task_set confs 2 2
    [ODispatch 0 7 "lidar"; ODispatch 0 8 "radar"; ORun (fun _ => 0) HangUp 1; ONotify 7; ORemove 7; ORemove 7])
    as (bs & s & E & -> & Hi).
  - lia.
  - intros name t k Ht Hk. apply lookup_singleton_Some in Ht as [_ <-]. injection Hk as <-. lia.
  - exists s. split; [exact E|exact Hi].
Defined.

(** Shutdown stops every task: after any sequence of operations on the
    classic scheduler it empties the registry and all run queues and marks every
    registered routine stopped, so that it finishes when it is next resumed;
    afterwards no task can be created, and notifying or removing does
    nothing. *)
Theorem shutdown_stops_every_task `{HashOrder} confs groups ops Hash fuel reg now :
  groups <> [] ->
  exists bs s s', exec_all (H := classic_policy confs groups) (started (Classic_CreateProcessor groups 0).2) ops = Some (bs, s) /\
    Shutdown (H := classic_policy confs groups) s = Some s' /\ id_cr_ s' = ∅ /\ (forall l, contents s' l = []) /\
    (forall i p, id_cr_ s !! i = Some p -> exists c, heap s' !! p = Some c /\ (Resume (fun c => c) c).1 = FINISHED) /\
    (forall name, CreateTask (H := classic_policy confs groups) Hash fuel reg now s' name = Some (false, s', reg, [])) /\
    (forall crid, NotifyTask (H := classic_policy confs groups) s' crid = Some (true, s', [])) /\
    (forall name, RemoveTask (H := classic_policy confs groups) Hash s' name = Some (true, s')).
Proof.
  intros Hg.
  destruct (exec_all_spec (H0 := classic_spec confs groups Hg) ops _ (classic_started groups) eq_refl) as (bs & s & E & Hi & Hs & _).
  destruct (Shutdown_spec (H0 := classic_spec confs groups Hg) s Hi Hs) as (s' & Esd & Hst & Hids & _ & Hc & Hf).
  exists bs, s, s'. split; [exact E|]. split; [exact Esd|]. split; [done|]. split; [done|]. split_and!.
  - intros i p Hp. destruct (Hf i p Hp) as (c & Hpc & Hfs). exists c. split; [done|]. unfold Resume. by rewrite Hfs.
  - intros name. unfold CreateTask. by rewrite Hst.
  - intros crid. unfold NotifyTask. by rewrite Hst.
  - intros name. unfold RemoveTask. by rewrite Hst.
Qed.

Lemma shutdown_stops_every_task_witness :
  exists bs s s', exec_all (H := classic_policy ∅ [mkSchedGroup "g" 1 []])
      (started (Classic_CreateProcessor [mkSchedGroup "g" 1 []] 0).2)
      [ODispatch 0 7 "planner"; ORun (fun _ => 0) HangUp 0; ODispatch 0 7 "planner"; ONotify 7] = Some (bs, s) /\
    bs = [true; true; false; true] /\
    Shutdown (H := classic_policy ∅ [mkSchedGroup "g" 1 []]) s = Some s' /\ id_cr_ s' = ∅.
Proof.
  destruct (shutdown_stops_every_task ∅ [mkSchedGroup "g" 1 []]
              [ODispatch 0 7 "planner"; ORun (fun _ => 0) HangUp 0; ODispatch 0 7 "planner"; ONotify 7]
              (fun _ => 7) 1 GlobalData.task_id_map_ 0 ltac:(discriminate)) as (bs & s & s' & E & Esd & Hids & _).
  exists bs, s, s'. split; [exact E|]. split; [|by split]. vm_compute in E. by injection E as <- _.
Defined.

(** ** Where the code goes wrong *)

(** A task configured for a processor that does not exist is put into the
    pool, but removing or notifying it indexes the contexts with that processor:
    with two choreography processors and processor 5 configured, dispatching
    succeeds and both later operations are undefined. *)
Theorem task_of_missing_processor :
  let confs : gmap string ChoreographyTask := {[ "lidar"%string := mkChoreoTask (Some 5) 1 ]} in
  let policy := choreography_policy confs 2 in
  exists s, exec (H := policy) (started (Choreo_CreateProcessor 2 2)) (ODispatch 0 7 "lidar") = Some (true, s) /\
    contents s (Pool DEFAULT_GROUP_NAME 1) = [0%nat] /\
    exec (H := policy) s (ONotify 7) = None /\ exec (H := policy) s (ORemove 7) = None.
Proof. eexists. split; [vm_compute; reflexivity|]. vm_compute. done. Qed.

(** RemoveTask looks a task up by the hash of its name, although its id is
    another one when the hash was taken: of two tasks whose names collide,
    removing the second removes the first and leaves the second running. *)
Theorem remove_task_hits_another_task :
  let policy := classic_policy ∅ [mkSchedGroup "g" 1 []] in
  let Hash := fun _ : string => 7 in
  exists s1 r1 s2 r2 s3,
    (exists w, CreateTask (H := policy) Hash 2 GlobalData.task_id_map_ 0 (started (Classic_CreateProcessor [mkSchedGroup "g" 1 []] 0).2) "camera"
               = Some (true, s1, r1, w)) /\
    (exists w, CreateTask (H := policy) Hash 2 r1 0 s1 "radar" = Some (true, s2, r2, w)) /\
    RemoveTask (H := policy) Hash s2 "radar" = Some (true, s3) /\
    name_ <$> (id_cr_ s3 !! 8 ≫= fun p => heap s3 !! p) = Some "radar"%string /\ id_cr_ s3 !! 7 = None.
Proof.
  eexists _, _, _, _, _. split; [eexists; vm_compute; reflexivity|].
  split; [eexists; vm_compute; reflexivity|]. split; [vm_compute; reflexivity|]. vm_compute. done.
Qed.
