(* ===== verification/Cpuset.v ===== *)
(** Cpuset.v -- Scheduler::ParseCpuset of src/src/apollo/cyber/scheduler/scheduler.cc

    A CPU set is written as a comma-separated list of numbers and ranges.  The
    parser splits with std::getline and reads numbers with std::stoi.  It ends
    with the list, by leaving the process (exit(0) after a format error), or
    with an exception of std::stoi. *)

From S2P Require Import Prelude.
From S2P Require Import Text.
From Stdlib Require Import Ascii String.
Local Open Scope Z_scope.

(** The strings that while (getline(ss, l, sep)) collects: the separators end the
    fields, and what follows the last one is a field unless it is empty. *)
Fixpoint getlines (sep : ascii) (s : string) (field : string) : list string :=
  match s with
  | EmptyString => if String.eqb field "" then [] else [field]
  | String c s =>
      if Ascii.eqb c sep then field :: getlines sep s ""
      else getlines sep s (field ++ String c "")
  end.

Inductive parsed := Cpus (l : list Z) | Exits | Throws.

(** for (int i = a; i <= e; i++) push_back(i) *)
Definition upto (a e : Z) : list Z := (fun k => a + Z.of_nat k) <$> seq 0 (Z.to_nat (e - a + 1)).

Fixpoint parse_lines (lines : list string) (cpuset : list Z) : parsed :=
  match lines with
  | [] => Cpus cpuset
  | line :: lines =>
      match getlines "-" line "" with
      | [x] => match stoi x with
               | Some a => parse_lines lines (cpuset ++ [a])
               | None => Throws
               end
      | [x; y] => match stoi x, stoi y with
                  | Some a, Some e => parse_lines lines (cpuset ++ upto a e)
                  | _, _ => Throws
                  end
      | _ => Exits
      end
  end.

Definition ParseCpuset (str : string) (cpuset : list Z) : parsed := parse_lines (getlines "," str "") cpuset.

(** ** Printing *)

Inductive item := One (a : Z) | Range (a e : Z).

Definition item_string (i : item) : string :=
  match i with
  | One a => to_string a
  | Range a e => (to_string a ++ String "-" (to_string e))%string
  end.
Definition item_cpus (i : item) : list Z := match i with One a => [a] | Range a e => upto a e end.

(** Ends of ranges stay below INT_MAX, so that the loop variable does not
    overflow. *)
Definition item_ok (i : item) : Prop :=
  match i with
  | One a => 0 <= a < 2 ^ 31
  | Range a e => 0 <= a < 2 ^ 31 /\ 0 <= e < 2 ^ 31 - 1
  end.

Fixpoint cpuset_string (l : list item) : string :=
  match l with
  | [] => ""
  | [i] => item_string i
  | i :: l => (item_string i ++ String "," (cpuset_string l))%string
  end.

(** ** Round trip *)

Lemma str_app_cons a s t : (String a s ++ t = String a (s ++ t))%string.
Proof. done. Qed.
Lemma str_app_nil_r s : (s ++ "" = s)%string.
Proof. induction s as [|a s IH]; [done|]. by rewrite str_app_cons, IH. Qed.
Lemma str_app_assoc (a b c : string) : ((a ++ b) ++ c = a ++ b ++ c)%string.
Proof. induction a as [|x a IH]; [done|]. by rewrite !str_app_cons, IH. Qed.

(** Splitting a field that does not hold the separator. *)
Lemma getlines_field sep f s acc : find sep f = None -> (acc ++ f <> "")%string ->
  getlines sep (f ++ String sep s) acc = (acc ++ f)%string :: getlines sep s "" /\
  getlines sep f acc = [(acc ++ f)%string].
Proof.
  revert acc. induction f as [|c f IH]; intros acc Hf Hne; simpl in *.
  - rewrite Ascii.eqb_refl, str_app_nil_r in *. split; [done|]. destruct (String.eqb_spec acc ""); [done|done].
  - destruct (Ascii.eqb c sep); [done|]. destruct (find sep f) eqn:E; [done|].
    destruct (IH (acc ++ String c "")%string eq_refl) as [-> ->].
    { rewrite str_app_assoc. done. }
    rewrite !str_app_assoc. done.
Qed.

Lemma getlines_first sep f s : find sep f = None -> f <> ""%string ->
  getlines sep (f ++ String sep s) "" = f :: getlines sep s "" /\ getlines sep f "" = [f].
Proof. apply (getlines_field sep f s ""). Qed.

Lemma digits_char d sep : 0 <= d < 10 -> sep = ","%char \/ sep = "-"%char -> Ascii.eqb (char_of d) sep = false.
Proof.
  intros Hd Hs. assert (d = 0 \/ d = 1 \/ d = 2 \/ d = 3 \/ d = 4 \/ d = 5 \/ d = 6 \/ d = 7 \/ d = 8 \/ d = 9) as Hc by lia.
  destruct Hs as [-> | ->]; repeat destruct Hc as [->|Hc]; by subst.
Qed.

Lemma find_digits sep fuel z acc : 0 <= z -> sep = ","%char \/ sep = "-"%char -> find sep acc = None ->
  find sep (digits fuel z acc) = None.
Proof.
  revert z acc. induction fuel as [|fuel IH]; intros z acc Hz Hs Ha; cbn [digits]; [done|].
  pose proof (Z.mod_pos_bound z 10 ltac:(lia)) as Hm.
  assert (find sep (String (char_of (z mod 10)) acc) = None) as Hc by (simpl; by rewrite digits_char, Ha).
  destruct (z <? 10); [done|]. apply IH; [|done|done]. apply Z.div_pos; lia.
Qed.

Lemma to_string_plain sep z : 0 <= z -> sep = ","%char \/ sep = "-"%char ->
  find sep (to_string z) = None /\ to_string z <> ""%string.
Proof.
  intros Hz Hs. unfold to_string. destruct (Z.ltb_spec z 0); [lia|]. split; [by apply find_digits|].
  destruct (digits_head 20 z "") as (d & s & _ & ->); [lia|lia|done].
Qed.

Lemma find_cat c s t : find c s = None -> find c t = None -> find c (s ++ t) = None.
Proof.
  induction s as [|a s IH]; simpl; [done|]. destruct (Ascii.eqb a c); [done|]. destruct (find c s); [done|].
  intros _ Ht. by rewrite IH.
Qed.

Lemma item_string_plain i : item_ok i -> find "," (item_string i) = None /\ item_string i <> ""%string.
Proof.
  destruct i as [a|a e]; simpl; intros Hi; [by apply to_string_plain; [lia|left]|].
  destruct (to_string_plain "," a) as [Ha Hn]; [lia|by left|]. destruct (to_string_plain "," e) as [He _]; [lia|by left|].
  split; [apply find_cat; [done|simpl; by rewrite He]|]. by destruct (to_string a).
Qed.

Lemma parse_item i lines cpuset : item_ok i ->
  parse_lines (item_string i :: lines) cpuset = parse_lines lines (cpuset ++ item_cpus i).
Proof.
  destruct i as [a|a e]; simpl; intros Hi.
  - destruct (to_string_plain "-" a) as [Hf Hn]; [lia|by right|].
    destruct (getlines_first "-" (to_string a) "" Hf Hn) as [_ ->]. simpl. by rewrite stoi_to_string by lia.
  - destruct Hi as [Ha He]. destruct (to_string_plain "-" a) as [Hfa Hna]; [lia|by right|].
    destruct (to_string_plain "-" e) as [Hfe Hne]; [lia|by right|].
    destruct (getlines_first "-" (to_string a) (to_string e) Hfa Hna) as [-> _].
    destruct (getlines_first "-" (to_string e) "" Hfe Hne) as [_ ->]. simpl.
    by rewrite !stoi_to_string by lia.
Qed.

(** A printed CPU set parses back to its numbers: numbers and ranges come
    back in order, and a range whose end is below its start is empty. *)
Theorem cpuset_round_trip (l : list item) cpuset :
  Forall item_ok l -> ParseCpuset (cpuset_string l) cpuset = Cpus (cpuset ++ mjoin (item_cpus <$> l)).
Proof.
  unfold ParseCpuset. intros Hl. revert cpuset. induction Hl as [|i l Hi Hl IH]; intros cpuset.
  { simpl. by rewrite app_nil_r. }
  destruct (item_string_plain i Hi) as [Hf Hn]. cbn [cpuset_string fmap list_fmap mjoin list_join].
  destruct l as [|j l].
  - destruct (getlines_first "," (item_string i) "" Hf Hn) as [_ ->]. simpl app.
    rewrite parse_item by done. simpl. by rewrite app_nil_r.
  - destruct (getlines_first "," (item_string i) (cpuset_string (j :: l)) Hf Hn) as [-> _].
    rewrite parse_item by done. rewrite IH, <- app_assoc. done.
Qed.

Lemma cpuset_round_trip_witness : ParseCpuset "0-3,8,10-11" [] = Cpus [0; 1; 2; 3; 8; 10; 11].
Proof.
  change "0-3,8,10-11"%string with (cpuset_string [Range 0 3; One 8; Range 10 11]).
  rewrite (cpuset_round_trip [Range 0 3; One 8; Range 10 11] []); [reflexivity|].
  repeat constructor; simpl; lia.
Defined.
