(* ===== verification/Wakeup.v ===== *)
(** Wakeup.v -- how a message wakes a reader's routine

    The routine of a reader (croutine/routine_factory.h), the processors that may
    run it (processor.cc, classic_context.cc, croutine.h) and the writers that
    notify it (data_dispatcher.h, scheduler_classic.cc), as threads that
    interleave at every access to the state and the flags of the routine.
    Accesses are sequentially consistent.

    A writer puts a message into the buffer, then reads the state of the routine
    and, if it waits for data, clears its flag; then it notifies the processors.
    The routine declares that it waits for data, and only then looks for a
    message.  A processor takes the routine's lock, updates its state, runs it
    when it is ready and releases it, and waits when it found nothing to run. *)

From S2P Require Import Prelude.
From S2P Require Import CRoutine.
From S2P Require Import Contexts.
Local Open Scope Z_scope.

(** ** State *)

(** Where a processor is. *)
Inductive ppc :=
| Scan        (* at NextRoutine *)
| Update      (* has the lock, at updated_.test_and_set() *)
| Woken       (* the flag was clear, at the test of state_ *)
| Decide      (* at the comparison of the new state with READY *)
| LoopTop     (* resumed, at set_state(DATA_WAIT) *)
| Fetch       (* at TryFetch *)
| Callback    (* has a message: runs f, then Yield(READY) *)
| Swapped     (* the routine has yielded, at Release *)
| Unready     (* the routine is not ready, at Release *)
| ToWait      (* NextRoutine has returned nullptr, at Wait *)
| Blocked.    (* waits on the condition variable *)

(** Where a writer is. *)
Inductive wpc :=
| Quiet
| Written     (* the buffer is filled, at the test of state() *)
| Flag        (* it was DATA_WAIT, at SetUpdateFlag() *)
| Signal.     (* at notify_one *)

(** [sent] messages were put into the buffer, the reader has got to [got]. *)
Record St := mkSt { cr : CRoutine; procs : list ppc; writers : list wpc; sent : Z; got : Z }.

Definition unread (s : St) : Prop := got s < sent s.

(** ** Steps

    [timed] says whether Wait has a time limit, as in ChoreographyContext. *)

Inductive pstep (timed : bool) : CRoutine * Z * Z -> ppc -> CRoutine * Z * Z -> ppc -> Prop :=
| p_acquire c n g : (Acquire c).1 = true -> pstep timed (c, n, g) Scan ((Acquire c).2, n, g) Update
| p_busy c n g : (Acquire c).1 = false -> pstep timed (c, n, g) Scan ((Acquire c).2, n, g) ToWait
| p_flagged c n g : updated_ c = false -> pstep timed (c, n, g) Update (with_updated true c, n, g) Woken
| p_unflagged c n g : updated_ c = true -> pstep timed (c, n, g) Update (with_updated true c, n, g) Decide
| p_wake c n g : pstep timed (c, n, g) Woken
    (if bool_decide (state_ c = DATA_WAIT) || bool_decide (state_ c = IO_WAIT) then set_state READY c else c, n, g) Decide
| p_ready c n g : state_ c = READY -> pstep timed (c, n, g) Decide (c, n, g) LoopTop
| p_unready c n g : state_ c <> READY -> pstep timed (c, n, g) Decide (c, n, g) Unready
| p_top c n g : pstep timed (c, n, g) LoopTop (set_state DATA_WAIT c, n, g) Fetch
| p_got c n g g' : g < g' <= n -> pstep timed (c, n, g) Fetch (c, n, g') Callback
| p_empty c n g : n <= g -> pstep timed (c, n, g) Fetch (c, n, g) Swapped
| p_yield c n g : pstep timed (c, n, g) Callback (set_state READY c, n, g) Swapped
| p_release c n g : pstep timed (c, n, g) Swapped (Release c, n, g) Scan
| p_release' c n g : pstep timed (c, n, g) Unready (Release c, n, g) ToWait
| p_wait c n g : pstep timed (c, n, g) ToWait (c, n, g) Blocked
| p_timeout c n g : timed = true -> pstep timed (c, n, g) Blocked (c, n, g) Scan.

Inductive step (timed : bool) : St -> St -> Prop :=
| s_proc s i pc pc' c n g : procs s !! i = Some pc ->
    pstep timed (cr s, sent s, got s) pc (c, n, g) pc' ->
    step timed s (mkSt c (<[i := pc']> (procs s)) (writers s) n g)
| s_fill s i : writers s !! i = Some Quiet ->
    step timed s (mkSt (cr s) (procs s) (<[i := Written]> (writers s)) (sent s + 1) (got s))
| s_look s i : writers s !! i = Some Written ->
    step timed s (mkSt (cr s) (procs s)
      (<[i := if bool_decide (state_ (cr s) = DATA_WAIT) then Flag else Signal]> (writers s)) (sent s) (got s))
| s_flag s i : writers s !! i = Some Flag ->
    step timed s (mkSt (SetUpdateFlag (cr s)) (procs s) (<[i := Signal]> (writers s)) (sent s) (got s))
| s_signal_one s i j : writers s !! i = Some Signal -> procs s !! j = Some Blocked ->
    step timed s (mkSt (cr s) (<[j := Scan]> (procs s)) (<[i := Quiet]> (writers s)) (sent s) (got s))
| s_signal_none s i : writers s !! i = Some Signal -> (forall j, procs s !! j <> Some Blocked) ->
    step timed s (mkSt (cr s) (procs s) (<[i := Quiet]> (writers s)) (sent s) (got s)).

Definition initial (s : St) : Prop :=
  state_ (cr s) = READY /\ lock_ (cr s) = false /\ updated_ (cr s) = true /\
  Forall (eq Scan) (procs s) /\ Forall (eq Quiet) (writers s) /\ sent s = 0 /\ got s = 0.

Inductive reachable (timed : bool) : St -> Prop :=
| r_init s : initial s -> reachable timed s
| r_step s s' : reachable timed s -> step timed s s' -> reachable timed s'.

(** ** Invariant *)

Definition holds_lock (pc : ppc) : bool :=
  match pc with Scan | ToWait | Blocked => false | _ => true end.
(** A processor that will look for messages before it releases the routine, or
    leave it READY. *)
Definition will_serve (pc : ppc) : bool :=
  match pc with Woken | LoopTop | Fetch | Callback => true | _ => false end.
(** A writer that has yet to look at the routine, or to flag it. *)
Definition will_flag (w : wpc) : bool := match w with Written | Flag => true | _ => false end.

Definition served (s : St) : Prop :=
  state_ (cr s) = READY \/ updated_ (cr s) = false \/
  (exists i pc, procs s !! i = Some pc /\ will_serve pc = true) \/
  (exists i w, writers s !! i = Some w /\ will_flag w = true).

Record wake_inv (s : St) : Prop := mkWakeInv {
  wi_one : forall i j pc pc', procs s !! i = Some pc -> procs s !! j = Some pc' ->
    holds_lock pc = true -> holds_lock pc' = true -> i = j;
  wi_lock : lock_ (cr s) = true <-> exists i pc, procs s !! i = Some pc /\ holds_lock pc = true;
  wi_state : state_ (cr s) = READY \/ state_ (cr s) = DATA_WAIT;
  wi_top : forall i, procs s !! i = Some LoopTop -> state_ (cr s) = READY;
  wi_got : got s <= sent s;
  wi_served : unread s -> served s
}.

(** Moving one processor keeps the lock discipline when the flag moves with it. *)
Lemma lock_moves (ps : list ppc) i pc pc' (l l' : bool) :
  ps !! i = Some pc ->
  (forall i j pc pc', ps !! i = Some pc -> ps !! j = Some pc' -> holds_lock pc = true -> holds_lock pc' = true -> i = j) ->
  (l = true <-> exists i pc, ps !! i = Some pc /\ holds_lock pc = true) ->
  (holds_lock pc' = holds_lock pc /\ l' = l \/
   holds_lock pc = false /\ holds_lock pc' = true /\ l = false /\ l' = true \/
   holds_lock pc = true /\ holds_lock pc' = false /\ l' = false) ->
  (forall j k a b, <[i := pc']> ps !! j = Some a -> <[i := pc']> ps !! k = Some b ->
     holds_lock a = true -> holds_lock b = true -> j = k) /\
  (l' = true <-> exists j a, <[i := pc']> ps !! j = Some a /\ holds_lock a = true).
Proof.
  intros Hi H1 Hl Hcase. assert (i < length ps)%nat as Hlt by (by eapply lookup_lt_Some).
  assert (forall j a, <[i := pc']> ps !! j = Some a <-> (j = i /\ a = pc') \/ (j <> i /\ ps !! j = Some a)) as Hins.
  { intros j a. destruct (decide (j = i)) as [->|Hn].
    - rewrite list_lookup_insert_eq by done. naive_solver.
    - rewrite list_lookup_insert_ne by done. naive_solver. }
  destruct Hcase as [[Eh ->]|[(Ef & Et & -> & ->)|(Et & Ef & ->)]].
  - split.
    + intros j k a b Ha Hb Hja Hkb. apply Hins in Ha as [[-> ->]|[? Ha]], Hb as [[-> ->]|[? Hb]]; try done.
      * eapply (H1 i k pc b); congruence.
      * eapply (H1 j i a pc); congruence.
      * by eapply H1.
    + rewrite Hl. split.
      * intros (j & a & Ha & Hh). destruct (decide (j = i)) as [->|Hn].
        -- exists i, pc'. rewrite Hins. split; [by left|congruence].
        -- exists j, a. rewrite Hins. naive_solver.
      * intros (j & a & Ha & Hh). apply Hins in Ha as [[-> ->]|[Hn Ha]]; [exists i, pc; by rewrite <- Eh|eauto].
  - assert (forall j a, ps !! j = Some a -> holds_lock a = false) as Hnone.
    { intros j a Ha. destruct (holds_lock a) eqn:Eh; [|done]. exfalso.
      assert (false = true) by (apply Hl; eauto). done. }
    split.
    + intros j k a b Ha Hb Hja Hkb. apply Hins in Ha as [[-> ->]|[? Ha]], Hb as [[-> ->]|[? Hb]]; try done.
      * by rewrite (Hnone _ _ Hb) in Hkb.
      * by rewrite (Hnone _ _ Ha) in Hja.
      * by rewrite (Hnone _ _ Ha) in Hja.
    + split; [|done]. intros _. exists i, pc'. rewrite Hins. split; [by left|done].
  - split.
    + intros j k a b Ha Hb Hja Hkb. apply Hins in Ha as [[-> ->]|[? Ha]], Hb as [[-> ->]|[? Hb]]; try congruence. by eapply H1.
    + split; [done|]. intros (j & a & Ha & Hh). apply Hins in Ha as [[-> ->]|[Hn Ha]]; [congruence|].
      exfalso. apply Hn. by eapply (H1 j i a pc).
Qed.

Lemma insert_keeps {A} (l : list A) i x j y : l !! j = Some y -> j <> i -> <[i := x]> l !! j = Some y.
Proof. intros Hj Hn. by rewrite list_lookup_insert_ne. Qed.

Lemma insert_here {A} (l : list A) i x y : l !! i = Some y -> <[i := x]> l !! i = Some x.
Proof. intros Hi. apply list_lookup_insert_eq. by eapply lookup_lt_Some. Qed.

(** What a processor's step does to whoever serves the routine: it serves it
    itself afterwards, or it changes nothing that matters. *)
Lemma pstep_served timed c n g pc c' n' g' pc' :
  pstep timed (c, n, g) pc (c', n', g') pc' -> g <= n -> state_ c = READY \/ state_ c = DATA_WAIT ->
  n' = n /\ g <= g' <= n /\ (state_ c' = READY \/ state_ c' = DATA_WAIT) /\
  (g' < n' -> will_serve pc' = true \/ state_ c' = READY \/
     (will_serve pc = false /\ (updated_ c = false -> updated_ c' = false) /\ (state_ c = READY -> state_ c' = READY))).
Proof.
  intros H Hg Hs. inversion H; subst; simpl; (split; [done|]); (split; [lia|]); split; auto; try (intros; by auto).
  - intros _. right; right. split; [done|]. split; [congruence|done].
  - destruct Hs as [E|E]; rewrite E; simpl; auto.
  - intros _. destruct Hs as [E|E]; rewrite E; simpl; auto.
  - intros Hu. lia.
Qed.

Lemma wake_step_inv timed s s' : wake_inv s -> step timed s s' -> wake_inv s'.
Proof.
  intros [H1 Hl Hs Ht Hg Hv] Hstep.
  destruct Hstep as [s i pc pc' c n g Hpc Hp|s i Hw|s i Hw|s i Hw|s i j Hw Hj|s i Hw Hj].
  - destruct (pstep_served _ _ _ _ _ _ _ _ _ Hp Hg Hs) as (-> & Hgg & Hs' & Hsv).
    assert (holds_lock pc' = holds_lock pc /\ lock_ c = lock_ (cr s) \/
      holds_lock pc = false /\ holds_lock pc' = true /\ lock_ (cr s) = false /\ lock_ c = true \/
      holds_lock pc = true /\ holds_lock pc' = false /\ lock_ c = false) as Hlock.
    { clear -Hp. inversion Hp; subst; simpl in *; auto 6; try (by repeat case_match; auto).
      - right; left. by destruct (lock_ (cr s)).
      - left. by destruct (lock_ (cr s)). }
    destruct (lock_moves _ _ _ pc' _ (lock_ c) Hpc H1 Hl Hlock) as [H1' Hl'].
    constructor; simpl; try done; [|lia|].
    + intros j Hj. destruct (decide (j = i)) as [->|Hn].
      * rewrite (insert_here _ _ _ _ Hpc) in Hj. injection Hj as ->. by inversion Hp; subst.
      * rewrite list_lookup_insert_ne in Hj by done.
        assert (holds_lock pc = false) as Hf.
        { destruct (holds_lock pc) eqn:E; [|done]. exfalso. apply Hn. by eapply (H1 j i LoopTop pc). }
        specialize (Ht j Hj). clear -Hp Ht Hf. inversion Hp; subst; simpl in *; done.
    + intros Hu. unfold unread in *. simpl in *. destruct (Hsv Hu) as [Hw|[Hr|(Hns & Hup & Hst)]].
      * right; right; left. exists i, pc'. split; [by eapply insert_here|done].
      * by left.
      * destruct (Hv ltac:(lia)) as [Hr|[Hf|[(j & a & Ha & Haw)|Hww]]]; [left; auto|right; left; auto| |].
        -- right; right; left. exists j, a. split; [|done]. apply insert_keeps; [done|]. intros ->. congruence.
        -- by right; right; right.
  - constructor; simpl; try done; [lia|]. intros _. right; right; right. exists i, Written.
    split; [by eapply insert_here|done].
  - constructor; simpl; try done. intros Hu. destruct (Hv Hu) as [Hr|[Hf|[Hx|(j & w & Hj & Hwf)]]]; [by left|by right; left|by right; right; left|].
    case_bool_decide as Ed.
    + right; right; right. exists i, Flag. split; [by eapply insert_here|done].
    + left. simpl. by destruct Hs.
  - constructor; simpl; try done. intros Hu. by right; left.
  - destruct (lock_moves (procs s) j Blocked Scan (lock_ (cr s)) (lock_ (cr s)) Hj H1 Hl (or_introl (conj eq_refl eq_refl))) as [H1' Hl'].
    constructor; simpl; try done.
    + intros k Hk. apply (Ht k). destruct (decide (k = j)) as [->|Hn].
      * by rewrite (insert_here _ _ _ _ Hj) in Hk.
      * by rewrite list_lookup_insert_ne in Hk.
    + intros Hu. destruct (Hv Hu) as [Hr|[Hf|[(k & a & Ha & Haw)|(k & w & Hk & Hwf)]]]; [by left|by right; left| |].
      * right; right; left. exists k, a. split; [|done]. apply insert_keeps; [done|]. intros ->. by simplify_eq.
      * right; right; right. exists k, w. split; [|done]. apply insert_keeps; [done|]. intros ->. by simplify_eq.
  - constructor; simpl; try done. intros Hu. destruct (Hv Hu) as [Hr|[Hf|[Hx|(k & w & Hk & Hwf)]]]; [by left|by right; left|by right; right; left|].
    right; right; right. exists k, w. split; [|done]. apply insert_keeps; [done|]. intros ->. by simplify_eq.
Qed.

Lemma initial_inv s : initial s -> wake_inv s.
Proof.
  intros (Hs & Hl & Hu & Hp & Hw & Hn & Hg). rewrite Forall_lookup in Hp.
  assert (forall i pc, procs s !! i = Some pc -> holds_lock pc = false) as Hno by (by intros i pc E; apply Hp in E as <-).
  constructor; [| |by left| |lia|unfold unread; lia].
  - intros i j pc pc' Hi _ E. by rewrite (Hno _ _ Hi) in E.
  - rewrite Hl. split; [done|]. intros (i & pc & Hi & E). by rewrite (Hno _ _ Hi) in E.
  - by intros i E%Hp.
Qed.

Lemma reachable_inv timed s : reachable timed s -> wake_inv s.
Proof. induction 1; [by apply initial_inv|by eapply wake_step_inv]. Qed.

(** ** Notifications *)

(** An unread message and nobody about to flag: the free routine is runnable. *)
Lemma free_runnable s :
  wake_inv s -> unread s -> (forall i w, writers s !! i = Some w -> will_flag w = false) ->
  lock_ (cr s) = false -> state_ (cr s) = READY \/ (state_ (cr s) = DATA_WAIT /\ updated_ (cr s) = false).
Proof.
  intros [H1 Hl Hs Ht Hg Hv] Hu Hq Hfree. destruct (Hv Hu) as [Hr|[Hf|[(i & pc & Hi & Hw)|(i & w & Hi & Hw)]]].
  - by left.
  - destruct Hs as [E|E]; auto.
  - assert (lock_ (cr s) = true) as E; [|congruence]. apply Hl. exists i, pc. split; [done|]. by destruct pc.
  - by rewrite (Hq i w Hi) in Hw.
Qed.

(** C4. No notification is lost between a writer and the routine, for any number
    of processors and writers: at most one processor has the routine, and in
    every reachable state with an unread message in which no writer still has to
    look at the routine and no processor has it, UpdateState makes it READY. *)
Theorem no_notification_is_lost timed s :
  reachable timed s ->
  (forall i j pc pc', procs s !! i = Some pc -> procs s !! j = Some pc' ->
     holds_lock pc = true -> holds_lock pc' = true -> i = j) /\
  (unread s -> (forall i w, writers s !! i = Some w -> will_flag w = false) -> lock_ (cr s) = false ->
   forall now, (UpdateState now (cr s)).1 = READY).
Proof.
  intros Hr%reachable_inv. split; [apply Hr|]. intros Hu Hq Hf now.
  assert (runnable now (cr s) = true) as Hrun.
  { unfold runnable. destruct (free_runnable s Hr Hu Hq Hf) as [-> |[-> ->]]; done. }
  pose proof (UpdateState_runnable now (cr s)) as E. rewrite Hrun in E. by apply bool_decide_eq_true in E.
Qed.

(** ** Delivery *)

(** Steps of processors only. *)
Inductive psteps (timed : bool) : St -> St -> Prop :=
| ps_refl s : psteps timed s s
| ps_step s i pc pc' c n g s' : procs s !! i = Some pc ->
    pstep timed (cr s, sent s, got s) pc (c, n, g) pc' ->
    psteps timed (mkSt c (<[i := pc']> (procs s)) (writers s) n g) s' -> psteps timed s s'.

(** The processors alone can get a message to the reader. *)
Definition delivers (timed : bool) (s : St) : Prop := exists s', psteps timed s s' /\ got s < got s'.

Lemma delivers_step timed s i pc pc' c :
  procs s !! i = Some pc -> pstep timed (cr s, sent s, got s) pc (c, sent s, got s) pc' ->
  delivers timed (mkSt c (<[i := pc']> (procs s)) (writers s) (sent s) (got s)) -> delivers timed s.
Proof. intros Hi Hp (s' & Hs' & Hg). exists s'. split; [by eapply ps_step|done]. Qed.

Definition quiet (s : St) : Prop := forall i w, writers s !! i = Some w -> will_flag w = false.

Section delivery.
Variable timed : bool.
Notation at_ s i pc := (procs s !! i = Some pc).

(** Take one step of processor [i] and look at the next point. *)
Ltac go constr :=
  eapply delivers_step; [eassumption|by apply constr|].

Lemma from_fetch s i : unread s -> at_ s i Fetch -> delivers timed s.
Proof.
  intros Hu Hi. eexists. split.
  - eapply ps_step; [exact Hi|apply (p_got _ _ _ _ (sent s)); unfold unread in Hu; lia|apply ps_refl].
  - exact Hu.
Qed.

Lemma from_top s i : unread s -> at_ s i LoopTop -> delivers timed s.
Proof. intros Hu Hi. go p_top. apply (from_fetch _ i); [done|]. by eapply insert_here. Qed.

Lemma from_decide s i : unread s -> at_ s i Decide -> state_ (cr s) = READY -> delivers timed s.
Proof. intros Hu Hi Hr. go p_ready. apply (from_top _ i); [done|]. by eapply insert_here. Qed.

(** The routine has the lock and is ready or flagged. *)
Lemma from_update s i : unread s -> at_ s i Update ->
  state_ (cr s) = READY \/ (state_ (cr s) = DATA_WAIT /\ updated_ (cr s) = false) -> delivers timed s.
Proof.
  intros Hu Hi Hst. destruct (updated_ (cr s)) eqn:E.
  - destruct Hst as [Hr|[_ ?]]; [|done]. go p_unflagged. apply (from_decide _ i); [done| |done]. by eapply insert_here.
  - go p_flagged. eapply delivers_step; [eapply insert_here; exact Hi|apply p_wake|].
    apply (from_decide _ i); [done|eapply insert_here, insert_here; exact Hi|].
    simpl. destruct Hst as [E'|[E' _]]; rewrite E'; simpl; by rewrite ?E'.
Qed.

Lemma from_scan s i : wake_inv s -> unread s -> quiet s -> lock_ (cr s) = false -> at_ s i Scan -> delivers timed s.
Proof.
  intros Hinv Hu Hq Hf Hi. pose proof (free_runnable s Hinv Hu Hq Hf) as Hst.
  eapply delivers_step; [exact Hi|apply p_acquire; simpl; by rewrite Hf|].
  apply (from_update _ i); [done|by eapply insert_here|done].
Qed.

Hypothesis time_limit : timed = true.

(** With a time limit, a processor that waits gets back to NextRoutine. *)
Lemma from_free s i pc : wake_inv s -> unread s -> quiet s -> lock_ (cr s) = false -> at_ s i pc -> delivers timed s.
Proof.
  intros Hinv Hu Hq Hf Hi.
  assert (holds_lock pc = false) as Hh.
  { destruct (holds_lock pc) eqn:E; [|done]. exfalso. assert (lock_ (cr s) = true) by (apply Hinv; eauto). congruence. }
  assert (forall s0, wake_inv s0 -> unread s0 -> quiet s0 -> lock_ (cr s0) = false -> at_ s0 i Blocked -> delivers timed s0) as Hb.
  { intros s0 Hinv0 Hu0 Hq0 Hf0 Hi0. eapply delivers_step; [exact Hi0|by apply p_timeout|].
    apply (from_scan _ i); [|done|done|done|by eapply insert_here].
    eapply (wake_step_inv timed); [exact Hinv0|]. eapply s_proc; [exact Hi0|by apply p_timeout]. }
  destruct pc; try done; [by apply (from_scan s i)| |by apply Hb].
  go p_wait. apply Hb; [|done|done|done|by eapply insert_here].
  eapply (wake_step_inv timed); [exact Hinv|]. eapply s_proc; [exact Hi|by apply p_wait].
Qed.

Lemma from_holder s i pc : wake_inv s -> unread s -> quiet s -> at_ s i pc -> holds_lock pc = true -> delivers timed s.
Proof.
  intros Hinv Hu Hq Hi Hh.
  assert (forall s0 pc0, wake_inv s0 -> unread s0 -> quiet s0 -> at_ s0 i pc0 -> pc0 = Swapped \/ pc0 = Unready ->
    delivers timed s0) as Hrel.
  { intros s0 pc0 Hinv0 Hu0 Hq0 Hi0 [-> | ->].
    - eapply delivers_step; [exact Hi0|apply p_release|]. apply (from_free _ i Scan); [|done|done|done|by eapply insert_here].
      eapply (wake_step_inv timed); [exact Hinv0|]. eapply s_proc; [exact Hi0|apply p_release].
    - eapply delivers_step; [exact Hi0|apply p_release'|]. apply (from_free _ i ToWait); [|done|done|done|by eapply insert_here].
      eapply (wake_step_inv timed); [exact Hinv0|]. eapply s_proc; [exact Hi0|apply p_release']. }
  assert (forall s0, wake_inv s0 -> unread s0 -> quiet s0 -> at_ s0 i Decide -> delivers timed s0) as Hdec.
  { intros s0 Hinv0 Hu0 Hq0 Hi0. destruct (decide (state_ (cr s0) = READY)); [by apply (from_decide s0 i)|].
    eapply delivers_step; [exact Hi0|by apply p_unready|]. eapply (Hrel _ Unready); [|done|done|by eapply insert_here|by right].
    eapply (wake_step_inv timed); [exact Hinv0|]. eapply s_proc; [exact Hi0|by apply p_unready]. }
  destruct pc; try done.
  - destruct (updated_ (cr s)) eqn:E.
    + go p_unflagged. apply Hdec; [|done|done|by eapply insert_here].
      eapply (wake_step_inv timed); [exact Hinv|]. eapply s_proc; [exact Hi|by apply p_unflagged].
    + apply (from_update s i); [done|done|]. destruct (wi_state s Hinv); auto.
  - go p_wake. apply Hdec; [|done|done|by eapply insert_here].
    eapply (wake_step_inv timed); [exact Hinv|]. eapply s_proc; [exact Hi|apply p_wake].
  - by apply Hdec.
  - by apply (from_top s i).
  - by apply (from_fetch s i).
  - go p_yield. eapply (Hrel _ Swapped); [|done|done|by eapply insert_here|by left].
    eapply (wake_step_inv timed); [exact Hinv|]. eapply s_proc; [exact Hi|apply p_yield].
  - eapply Hrel; eauto.
  - eapply Hrel; eauto.
Qed.
End delivery.

(** C28. When Wait has a time limit (the choreography policy), an unread message can
    be delivered without the help of a writer: from every reachable state with at
    least one processor and in which no writer is in the middle of notifying the
    routine, the processors alone can bring the reader to a message it has not seen. *)
Theorem timed_wait_delivers s :
  reachable true s -> procs s <> [] -> unread s -> quiet s -> delivers true s.
Proof.
  intros Hr%reachable_inv Hp Hu Hq. destruct (lock_ (cr s)) eqn:E.
  - apply (wi_lock s Hr) in E as (i & pc & Hi & Hh). by apply (from_holder true eq_refl s i pc).
  - destruct (procs s) as [|pc ps] eqn:Ep; [done|]. apply (from_free true eq_refl s 0 pc); [done|done|done|done|by rewrite Ep].
Qed.

(** ** Executions

    One processor and one writer. *)

Definition idle_start : St := mkSt (NewCRoutine 0) [Scan] [Quiet] 0 0.

Lemma idle_start_reachable timed : reachable timed idle_start.
Proof. apply r_init. split_and!; try done; by repeat constructor. Qed.

(** A step of the processor, to a state that is given by evaluation. *)
Lemma proc_moves timed s pc pc' c n g :
  reachable timed s -> procs s !! 0%nat = Some pc -> pstep timed (cr s, sent s, got s) pc (c, n, g) pc' ->
  reachable timed (mkSt c (<[0%nat := pc']> (procs s)) (writers s) n g).
Proof. intros Hr Hp Hs. eapply r_step; [exact Hr|]. by eapply s_proc. Qed.

Definition waiting_routine : CRoutine := set_state DATA_WAIT (NewCRoutine 0).

(** The routine has found no message and waits for data; the processor is back
    at NextRoutine. *)
Lemma hung_up timed : reachable timed (mkSt waiting_routine [Scan] [Quiet] 0 0).
Proof.
  pose proof (idle_start_reachable timed) as H.
  eapply proc_moves in H; [|reflexivity|by apply p_acquire]. eapply proc_moves in H; [|reflexivity|by apply p_unflagged].
  eapply proc_moves in H; [|reflexivity|by apply p_ready]. eapply proc_moves in H; [|reflexivity|apply p_top].
  eapply proc_moves in H; [|reflexivity|by apply p_empty]. eapply proc_moves in H; [|reflexivity|apply p_release].
  exact H.
Qed.

(** The processor has scanned the routine again and is about to wait. *)
Lemma about_to_wait timed : reachable timed (mkSt waiting_routine [ToWait] [Quiet] 0 0).
Proof.
  pose proof (hung_up timed) as H.
  eapply proc_moves in H; [|reflexivity|by apply p_acquire]. eapply proc_moves in H; [|reflexivity|by apply p_unflagged].
  eapply proc_moves in H; [|reflexivity|by apply p_unready]. eapply proc_moves in H; [|reflexivity|apply p_release'].
  exact H.
Qed.

Definition lost_state : St := mkSt (SetUpdateFlag waiting_routine) [Blocked] [Quiet] 1 0.

Lemma lost_state_reachable timed : reachable timed lost_state.
Proof.
  pose proof (about_to_wait timed) as H.
  eapply r_step in H; [|by apply (s_fill _ _ 0)]. eapply r_step in H; [|by apply (s_look _ _ 0)].
  eapply r_step in H; [|by apply (s_flag _ _ 0)].
  eapply r_step in H; [|apply (s_signal_none _ _ 0); [done|by intros [|j]]].
  eapply proc_moves in H; [|reflexivity|apply p_wait]. exact H.
Qed.

(** Under the classic policy a wake-up can be lost between NextRoutine and
    Wait: the processor finds nothing to run, the writer flags the routine and
    notifies while nobody waits, and then the processor waits without a time
    limit and without looking again.  The message is unread, the routine is
    runnable, every writer is done, and no processor can move until another
    message arrives. *)
Theorem classic_wakeup_can_be_lost :
  reachable false lost_state /\ unread lost_state /\ quiet lost_state /\
  (UpdateState 0 (cr lost_state)).1 = READY /\ (Classic_Wait 0 (NewClassic "g")).1 = WaitForever /\
  forall s', step false lost_state s' -> sent s' = 2.
Proof.
  split; [apply lost_state_reachable|]. split; [done|]. split; [by intros [|i] w; [intros [= <-]|]|].
  split; [done|]. split; [done|]. intros s' H.
  inversion H as [s i pc pc' c n g Hpc Hp|s i Hw|s i Hw|s i Hw|s i j Hw Hj|s i Hw Hj]; subst; simpl in *; try done;
    destruct i as [|i]; try done.
  - injection Hpc as <-. inversion Hp. done.
Qed.

Lemma no_notification_is_lost_witness :
  reachable false lost_state /\ forall now, (UpdateState now (cr lost_state)).1 = READY.
Proof.
  split; [apply lost_state_reachable|]. apply (no_notification_is_lost false lost_state (lost_state_reachable false)).
  - reflexivity.
  - intros [|i] w; [intros [= <-]; reflexivity|discriminate].
  - reflexivity.
Defined.

Lemma timed_wait_delivers_witness : delivers true lost_state.
Proof.
  apply (timed_wait_delivers lost_state (lost_state_reachable true)).
  - discriminate.
  - reflexivity.
  - intros [|i] w; [intros [= <-]; reflexivity|discriminate].
Defined.
