(* ===== verification/Signal.v ===== *)
(** Signal.v -- src/src/apollo/cyber/base/signal.h

    Signals, slots and connections.  A slot is a shared object: the signal's list
    and every connection made from it point to the same slot, so that
    disconnecting is seen by an emission that already holds the slot.  Slots
    live in a heap; a signal holds the positions of its slots in the order of
    connection, and a connection is a position, or null.

    operator() copies the list under the mutex, calls the slots outside it and
    then drops the disconnected ones.  The callbacks run between these steps and
    may use the signal themselves; [emit_with] lets each callback act on the heap
    and the list.  An empty std::function is no callback. *)

From S2P Require Import Prelude.

Section signal.
Context {Args : Type}.

(** A callback by its name; calls are recorded in order. *)
Record Slot := mkSlot { cb_ : option nat; connected_ : bool }.
Definition NewSlot (cb : option nat) : Slot := mkSlot cb true.

Definition Call : Type := nat * Args.
Record World := mkWorld { slots_heap : list Slot; calls : list Call }.

(** Slot::operator() *)
Definition call_slot (s : Slot) (args : Args) : list Call :=
  if connected_ s then match cb_ s with Some f => [(f, args)] | None => [] end else [].

Definition disconnect_slot (s : Slot) : Slot := mkSlot (cb_ s) false.

(** A signal is its list of slots. *)
Notation Signal := (list nat).

Definition is_connected (w : World) (p : nat) : bool :=
  match slots_heap w !! p with Some s => connected_ s | None => false end.

Definition ClearDisconnectedSlots (w : World) (sig : Signal) : Signal := List.filter (is_connected w) sig.

Definition Connect (w : World) (sig : Signal) (cb : option nat) : nat * World * Signal :=
  let p := length (slots_heap w) in
  (p, mkWorld (slots_heap w ++ [NewSlot cb]) (calls w), sig ++ [p]).

(** Connection::HasSlot; a connection is null or points to a slot. *)
Definition HasSlot (conn : option nat) (p : nat) : bool :=
  match conn with Some q => bool_decide (q = p) | None => false end.

Definition IsConnected (w : World) (conn : option nat) : bool :=
  match conn with Some p => is_connected w p | None => false end.

(** The loop of Signal::Disconnect over the list. *)
Fixpoint disconnect_loop (h : list Slot) (conn : option nat) (sig : Signal) (find : bool) : bool * list Slot :=
  match sig with
  | [] => (find, h)
  | p :: sig =>
      if HasSlot conn p then disconnect_loop (alter disconnect_slot p h) conn sig true
      else disconnect_loop h conn sig find
  end.

Definition Disconnect (w : World) (sig : Signal) (conn : option nat) : bool * World * Signal :=
  let '(find, h) := disconnect_loop (slots_heap w) conn sig false in
  let w := mkWorld h (calls w) in
  (find, w, if find then ClearDisconnectedSlots w sig else sig).

(** Connection::Disconnect with the signal it was made from, or null. *)
Definition Connection_Disconnect (w : World) (sig : Signal) (conn : option nat) : bool * World * Signal :=
  match conn with
  | Some _ => Disconnect w sig conn
  | None => (false, w, sig)
  end.

Definition DisconnectAllSlots (w : World) (sig : Signal) : World * Signal :=
  (mkWorld (foldl (fun h p => alter disconnect_slot p h) (slots_heap w) sig) (calls w), []).

(** The calls of operator() over the copy [local], when callback [f] does
    [act f] to the slots and the list while it runs. *)
Fixpoint emit_loop (act : nat -> World * Signal -> World * Signal) (w : World) (sig : Signal) (local : Signal) (args : Args)
    : World * Signal :=
  match local with
  | [] => (w, sig)
  | p :: local =>
      match slots_heap w !! p with
      | None => emit_loop act w sig local args
      | Some s =>
          let w' := mkWorld (slots_heap w) (calls w ++ call_slot s args) in
          let '(w', sig') := match call_slot s args with
                             | (f, _) :: _ => act f (w', sig)
                             | [] => (w', sig)
                             end in
          emit_loop act w' sig' local args
      end
  end.

Definition emit_with (act : nat -> World * Signal -> World * Signal) (w : World) (sig : Signal) (args : Args) : World * Signal :=
  let '(w, sig) := emit_loop act w sig sig args in (w, ClearDisconnectedSlots w sig).

(** Callbacks that leave the signal alone. *)
Definition emit (w : World) (sig : Signal) (args : Args) : World * Signal := emit_with (fun _ x => x) w sig args.

(** ** Well-formed signals *)

Definition sig_ok (w : World) (sig : Signal) : Prop :=
  NoDup sig /\ Forall (fun p => exists s, slots_heap w !! p = Some s /\ connected_ s = true) sig.

(** The callbacks of a signal, in order. *)
Fixpoint callbacks (w : World) (sig : Signal) : list nat :=
  match sig with
  | [] => []
  | p :: sig => match slots_heap w !! p with Some s => option_list (cb_ s) | None => [] end ++ callbacks w sig
  end.

Lemma callbacks_app w a b : callbacks w (a ++ b) = callbacks w a ++ callbacks w b.
Proof. induction a as [|p a IH]; simpl; [done|]. by rewrite IH, app_assoc. Qed.

Lemma callbacks_agree w w' sig : (forall p, p ∈ sig -> slots_heap w' !! p = slots_heap w !! p) ->
  callbacks w' sig = callbacks w sig.
Proof.
  induction sig as [|p sig IH]; intros Ha; simpl; [done|]. rewrite Ha by left. f_equal. apply IH.
  intros q Hq. apply Ha. by right.
Qed.

Lemma sig_ok_lt w sig p : sig_ok w sig -> p ∈ sig -> (p < length (slots_heap w))%nat.
Proof. intros [_ Hf] Hp. rewrite Forall_forall in Hf. destruct (Hf p Hp) as (s & Hs & _). by eapply lookup_lt_Some. Qed.

Lemma Connect_ok w sig cb : sig_ok w sig -> let '(p, w', sig') := Connect w sig cb in
  sig_ok w' sig' /\ IsConnected w' (Some p) = true /\ callbacks w' sig' = callbacks w sig ++ option_list cb /\
  (forall q, q ∈ sig -> slots_heap w' !! q = slots_heap w !! q) /\ p ∉ sig.
Proof.
  intros Hok. pose proof Hok as [Hnd Hf]. simpl.
  assert (length (slots_heap w) ∉ sig) as Hnew by (intros Hp; pose proof (sig_ok_lt _ _ _ Hok Hp); lia).
  assert (forall q, q ∈ sig -> (slots_heap w ++ [NewSlot cb]) !! q = slots_heap w !! q) as Hold.
  { intros q Hq. apply lookup_app_l. by eapply sig_ok_lt. }
  assert ((slots_heap w ++ [NewSlot cb]) !! length (slots_heap w) = Some (NewSlot cb)) as Hp.
  { rewrite lookup_app_r by lia. by rewrite Nat.sub_diag. }
  split_and!; try done.
  - split.
    + apply NoDup_app. split; [done|]. split; [|apply NoDup_singleton]. intros x Hx ->%list_elem_of_singleton. done.
    + apply Forall_app. split; [|apply Forall_singleton; by eexists].
      rewrite Forall_forall in *. intros q Hq. rewrite Hold by done. auto.
  - unfold IsConnected, is_connected. simpl. by rewrite Hp.
  - rewrite callbacks_app. simpl. rewrite Hp. simpl. rewrite app_nil_r. f_equal. by apply callbacks_agree.
Qed.

Lemma disconnect_loop_absent h q sig find : q ∉ sig -> disconnect_loop h (Some q) sig find = (find, h).
Proof.
  revert find. induction sig as [|p sig IH]; intros find Hq; simpl; [done|]. apply not_elem_of_cons in Hq as [Hne Hq].
  rewrite bool_decide_false by done. auto.
Qed.

Lemma disconnect_loop_spec h q sig : NoDup sig ->
  disconnect_loop h (Some q) sig false =
  if decide (q ∈ sig) then (true, alter disconnect_slot q h) else (false, h).
Proof.
  intros Hnd. destruct (decide (q ∈ sig)) as [Hq|Hq]; [|by apply disconnect_loop_absent].
  induction Hnd as [|p sig Hp Hnd IH]; [by apply not_elem_of_nil in Hq|]. cbn [disconnect_loop HasSlot].
  destruct (decide (q = p)) as [->|Hne].
  - rewrite bool_decide_true by done. by apply disconnect_loop_absent.
  - rewrite bool_decide_false by done. apply IH. set_solver.
Qed.

(** Only slot [q] loses its connection. *)
Lemma is_connected_alter w q p :
  is_connected (mkWorld (alter disconnect_slot q (slots_heap w)) (calls w)) p =
  if decide (p = q) then false else is_connected w p.
Proof.
  unfold is_connected. simpl. destruct (decide (p = q)) as [->|Hne].
  - rewrite list_lookup_alter_eq. by destruct (slots_heap w !! q).
  - by rewrite list_lookup_alter_ne.
Qed.

Definition without (q : nat) (sig : Signal) : Signal := List.filter (fun p => negb (bool_decide (p = q))) sig.

Lemma elem_of_without q sig p : p ∈ without q sig <-> p ∈ sig /\ p <> q.
Proof.
  unfold without. rewrite !list_elem_of_In, filter_In. rewrite negb_true_iff, bool_decide_eq_false. done.
Qed.

Lemma NoDup_without q sig : NoDup sig -> NoDup (without q sig).
Proof. rewrite !NoDup_ListNoDup. apply List.NoDup_filter. Qed.

Lemma Disconnect_ok w sig q : sig_ok w sig -> q ∈ sig ->
  exists w', Disconnect w sig (Some q) = (true, w', without q sig) /\ sig_ok w' (without q sig) /\
    calls w' = calls w /\ length (slots_heap w') = length (slots_heap w) /\
    forall p, p <> q -> slots_heap w' !! p = slots_heap w !! p.
Proof.
  intros [Hnd Hf] Hq. unfold Disconnect. rewrite disconnect_loop_spec, decide_True by done.
  set (w' := mkWorld _ _). assert (ClearDisconnectedSlots w' sig = without q sig) as E.
  { unfold ClearDisconnectedSlots, without. apply filter_ext_in. intros p Hp. subst w'. rewrite is_connected_alter.
    destruct (decide (p = q)) as [->|Hne]; [by rewrite bool_decide_true|]. rewrite bool_decide_false by done.
    rewrite Forall_forall in Hf. destruct (Hf p) as (s & Hs & Hc); [by apply list_elem_of_In|].
    unfold is_connected. by rewrite Hs, Hc. }
  exists w'. rewrite E. split; [done|].
  assert (forall p, p <> q -> slots_heap w' !! p = slots_heap w !! p) as Hother.
  { intros p Hp. simpl. by apply list_lookup_alter_ne. }
  split_and!; try done; [|by apply length_alter]. split; [by apply NoDup_without|].
  rewrite Forall_forall in *. intros p [Hp Hne]%elem_of_without. rewrite Hother by done. auto.
Qed.

(** An emission calls exactly the connected callbacks, in the order they were
    connected, and drops nothing. *)
Lemma emit_spec w sig args : sig_ok w sig ->
  emit w sig args = (mkWorld (slots_heap w) (calls w ++ ((fun f => (f, args)) <$> callbacks w sig)), sig).
Proof.
  intros Hok. unfold emit, emit_with.
  assert (forall local c, (forall p, p ∈ local -> exists s, slots_heap w !! p = Some s /\ connected_ s = true) ->
    emit_loop (fun _ x => x) (mkWorld (slots_heap w) c) sig local args =
    (mkWorld (slots_heap w) (c ++ ((fun f => (f, args)) <$> callbacks w local)), sig)) as Hloop.
  { induction local as [|p local IH]; intros c Hl; cbn [emit_loop].
    { simpl. by rewrite app_nil_r. }
    destruct (Hl p) as (s & Hs & Hc); [left|]. cbn [slots_heap calls callbacks]. rewrite Hs. unfold call_slot. rewrite Hc.
    destruct (cb_ s) as [f|]; simpl; rewrite IH by (intros q Hq; apply Hl; by right); [|by rewrite app_nil_r].
    by rewrite <- app_assoc. }
  destruct Hok as [Hnd Hf]. rewrite Forall_forall in Hf. replace w with (mkWorld (slots_heap w) (calls w)) at 1 by by destruct w.
  rewrite Hloop by done. f_equal. unfold ClearDisconnectedSlots.
  assert (forall p, p ∈ sig -> is_connected (mkWorld (slots_heap w) (calls w ++ ((fun f => (f, args)) <$> callbacks w sig))) p = true) as Hall.
  { intros p Hp. destruct (Hf p Hp) as (s & Hs & Hc). unfold is_connected. simpl. by rewrite Hs. }
  clear -Hall. induction sig as [|p sig IH]; [done|]. simpl. rewrite Hall by left. f_equal. apply IH.
  intros q Hq. apply (Hall q). by right.
Qed.

(** A callback that disconnects a later slot silences it within the emission. *)
Lemma call_disconnected s args : connected_ s = false -> call_slot s args = [].
Proof. intros E. unfold call_slot. by rewrite E. Qed.
End signal.
Arguments World Args : clear implicits.
Arguments Call Args : clear implicits.
