(* ===== verification/ListenerHandler.v ===== *)
(** ListenerHandler.v -- src/src/apollo/cyber/transport/message/listener_handler.h

    Who receives the messages of a channel: listeners that take every message,
    and listeners that take the messages of one sender.  Listeners are slots of
    signals ([Signal]); the handler keeps their connections by the id of the
    receiver, to disconnect them again.  The lock rw_lock_ makes each operation
    on the tables atomic. *)

From S2P Require Import Prelude.
From S2P Require Import Signal.
Local Open Scope Z_scope.

Section handler.
Context {Args : Type}.

Record Handler := mkHandler {
  world : World Args;
  signal_ : list nat;
  signal_conns_ : gmap Z nat;              (* key: self_id *)
  signals_ : gmap Z (list nat);            (* key: oppo_id *)
  signals_conns_ : gmap Z (gmap Z nat)     (* key: oppo_id, then self_id *)
}.
Definition NewHandler : Handler := mkHandler (mkWorld [] []) [] ∅ ∅ ∅.

Definition Handler_Connect (h : Handler) (self_id : Z) (listener : nat) : Handler :=
  let '(p, w, sig) := Connect (world h) (signal_ h) (Some listener) in
  if negb (IsConnected w (Some p)) then mkHandler w sig (signal_conns_ h) (signals_ h) (signals_conns_ h)
  else mkHandler w sig (<[self_id := p]> (signal_conns_ h)) (signals_ h) (signals_conns_ h).

Definition Handler_ConnectTo (h : Handler) (self_id oppo_id : Z) (listener : nat) : Handler :=
  let sigs := match signals_ h !! oppo_id with Some _ => signals_ h | None => <[oppo_id := []]> (signals_ h) end in
  let '(p, w, sig) := Connect (world h) (default [] (sigs !! oppo_id)) (Some listener) in
  let sigs := <[oppo_id := sig]> sigs in
  if negb (IsConnected w (Some p)) then mkHandler w (signal_ h) (signal_conns_ h) sigs (signals_conns_ h)
  else
    let conns := default ∅ (signals_conns_ h !! oppo_id) in
    mkHandler w (signal_ h) (signal_conns_ h) sigs (<[oppo_id := <[self_id := p]> conns]> (signals_conns_ h)).

Definition Handler_Disconnect (h : Handler) (self_id : Z) : Handler :=
  match signal_conns_ h !! self_id with
  | None => h
  | Some p =>
      let '(_, w, sig) := Connection_Disconnect (world h) (signal_ h) (Some p) in
      mkHandler w sig (delete self_id (signal_conns_ h)) (signals_ h) (signals_conns_ h)
  end.

Definition Handler_DisconnectFrom (h : Handler) (self_id oppo_id : Z) : Handler :=
  match signals_conns_ h !! oppo_id with
  | None => h
  | Some conns =>
      match conns !! self_id with
      | None => h
      | Some p =>
          let '(_, w, sig) := Connection_Disconnect (world h) (default [] (signals_ h !! oppo_id)) (Some p) in
          mkHandler w (signal_ h) (signal_conns_ h) (<[oppo_id := sig]> (signals_ h))
            (<[oppo_id := delete self_id conns]> (signals_conns_ h))
      end
  end.

(** [oppo_id] is msg_info.sender_id().HashValue(). *)
Definition Run (h : Handler) (args : Args) (oppo_id : Z) : Handler :=
  let '(w, sig) := emit (world h) (signal_ h) args in
  match signals_ h !! oppo_id with
  | None => mkHandler w sig (signal_conns_ h) (signals_ h) (signals_conns_ h)
  | Some s =>
      let '(w, s) := emit w s args in
      mkHandler w sig (signal_conns_ h) (<[oppo_id := s]> (signals_ h)) (signals_conns_ h)
  end.

(** ** Specification: the listeners in the order they were connected *)

Record Entry := mkEntry { from : option Z; owner : Z; listener : nat; slot : nat }.

Definition of_sender (o : option Z) (es : list Entry) : list Entry :=
  List.filter (fun e => bool_decide (from e = o)) es.

Definition sig_at (h : Handler) (o : option Z) : list nat :=
  match o with None => signal_ h | Some k => default [] (signals_ h !! k) end.
Definition conn_at (h : Handler) (o : option Z) (s : Z) : option nat :=
  match o with None => signal_conns_ h !! s | Some k => signals_conns_ h !! k ≫= fun m => m !! s end.

Record handler_ok (h : Handler) (es : list Entry) : Prop := mkHandlerOk {
  ho_sigs : forall o, sig_at h o = slot <$> of_sender o es;
  ho_conns : forall o s p, conn_at h o s = Some p <-> exists f, mkEntry o s f p ∈ es;
  ho_heap : forall e, e ∈ es -> slots_heap (world h) !! slot e = Some (mkSlot (Some (listener e)) true);
  ho_slots : NoDup (slot <$> es)
}.

Lemma elem_of_sender o es e : e ∈ of_sender o es <-> e ∈ es /\ from e = o.
Proof. unfold of_sender. rewrite !list_elem_of_In, filter_In, bool_decide_eq_true. done. Qed.

Lemma of_sender_app o es es' : of_sender o (es ++ es') = of_sender o es ++ of_sender o es'.
Proof. apply List.filter_app. Qed.

Lemma NoDup_slots_sender o es : NoDup (slot <$> es) -> NoDup (slot <$> of_sender o es).
Proof.
  unfold of_sender. induction es as [|e es IH]; simpl; [done|]. intros [Hn Hd]%NoDup_cons.
  destruct (bool_decide (from e = o)); [|auto]. simpl. apply NoDup_cons. split; [|auto].
  intros (x & E & Hx)%list_elem_of_fmap. apply Hn, list_elem_of_fmap. exists x. split; [done|].
  by apply (elem_of_sender o).
Qed.

Lemma handler_sig_ok h es o : handler_ok h es -> sig_ok (world h) (sig_at h o).
Proof.
  intros [Hs _ Hh Hd]. rewrite Hs. split; [by apply NoDup_slots_sender|]. apply Forall_forall.
  intros p (e & -> & [He _]%elem_of_sender)%list_elem_of_fmap. rewrite (Hh e He). by eexists.
Qed.

Lemma handler_callbacks h es o : handler_ok h es -> callbacks (world h) (sig_at h o) = listener <$> of_sender o es.
Proof.
  intros [Hs _ Hh _]. rewrite Hs. assert (forall l, (forall e, e ∈ l -> e ∈ es) ->
    callbacks (world h) (slot <$> l) = listener <$> l) as HG.
  { induction l as [|e l IH]; intros Hl; [done|]. cbn [fmap list_fmap callbacks].
    rewrite (Hh e) by (apply Hl; left). cbn [cb_ option_list]. rewrite IH; [done|]. intros x Hx. apply Hl. by right. }
  apply HG. intros e He. by apply elem_of_sender in He as [? _].
Qed.

(** A new entry at the end. *)
Lemma handler_add h h' es o s f p :
  handler_ok h es -> conn_at h o s = None -> p = length (slots_heap (world h)) ->
  slots_heap (world h') = slots_heap (world h) ++ [NewSlot (Some f)] ->
  sig_at h' o = sig_at h o ++ [p] -> (forall o', o' <> o -> sig_at h' o' = sig_at h o') ->
  (forall o' s', conn_at h' o' s' = if decide (o' = o /\ s' = s) then Some p else conn_at h o' s') ->
  handler_ok h' (es ++ [mkEntry o s f p]).
Proof.
  intros [Hs Hc Hh Hd] Hnew Ep Eh Eo Eo' Ec.
  assert (forall e, e ∈ es -> (slot e < length (slots_heap (world h)))%nat) as Hlt.
  { intros e He. eapply lookup_lt_Some, Hh, He. }
  constructor.
  - intros o'. rewrite of_sender_app, fmap_app. unfold of_sender at 2. simpl. destruct (decide (o' = o)) as [->|Hne].
    + rewrite bool_decide_true by done. by rewrite Eo, Hs.
    + rewrite bool_decide_false by done. rewrite Eo' by done. by rewrite app_nil_r, Hs.
  - intros o' s' q. rewrite Ec. setoid_rewrite elem_of_app. setoid_rewrite list_elem_of_singleton.
    destruct (decide (o' = o /\ s' = s)) as [[-> ->]|Hne].
    + split; [intros [= <-]; exists f; by right|]. intros (f' & [He|[= -> ->]]); [|done].
      assert (conn_at h o s = Some q) by (apply Hc; eauto). congruence.
    + rewrite Hc. split; [intros (f' & He); eauto|]. intros (f' & [He|E]); [eauto|]. simplify_eq. naive_solver.
  - intros e [He|Ee%list_elem_of_singleton]%elem_of_app; rewrite Eh.
    + rewrite lookup_app_l by auto. auto.
    + subst. simpl. rewrite lookup_app_r by lia. by rewrite Nat.sub_diag.
  - rewrite fmap_app. apply NoDup_app. split; [done|]. split; [|apply NoDup_singleton].
    intros q (e & -> & He)%list_elem_of_fmap E%list_elem_of_singleton. specialize (Hlt e He). simpl in E. lia.
Qed.

(** The entry of a connection goes away. *)
Definition drop_slot (p : nat) (es : list Entry) : list Entry :=
  List.filter (fun e => negb (bool_decide (slot e = p))) es.

Lemma elem_of_drop p es e : e ∈ drop_slot p es <-> e ∈ es /\ slot e <> p.
Proof. unfold drop_slot. rewrite !list_elem_of_In, filter_In, negb_true_iff, bool_decide_eq_false. done. Qed.

Lemma sender_drop o p es : slot <$> of_sender o (drop_slot p es) = without p (slot <$> of_sender o es).
Proof.
  unfold of_sender, drop_slot, without. induction es as [|e es IH]; [done|]. simpl.
  destruct (bool_decide (slot e = p)) eqn:Ep; simpl; destruct (bool_decide (from e = o)) eqn:Eo; simpl; rewrite ?Ep; simpl; first [exact IH | f_equal; exact IH].
Qed.

Lemma without_id p l : p ∉ l -> without p l = l.
Proof.
  unfold without. induction l as [|x l IH]; [done|]. intros [Hne Hl]%not_elem_of_cons. simpl.
  rewrite bool_decide_false by done. simpl. by rewrite IH.
Qed.

Lemma handler_drop h h' es o s p :
  handler_ok h es -> conn_at h o s = Some p ->
  (forall q, q <> p -> slots_heap (world h') !! q = slots_heap (world h) !! q) ->
  sig_at h' o = without p (sig_at h o) -> (forall o', o' <> o -> sig_at h' o' = sig_at h o') ->
  (forall o' s', conn_at h' o' s' = if decide (o' = o /\ s' = s) then None else conn_at h o' s') ->
  handler_ok h' (drop_slot p es).
Proof.
  intros [Hs Hc Hh Hd] Hp Eh Eo Eo' Ec. pose proof (proj1 (Hc o s p) Hp) as (f & He).
  assert (forall e, e ∈ es -> slot e = p -> e = mkEntry o s f p) as Huniq.
  { intros e He' E. apply list_elem_of_lookup in He as [i Hi]. apply list_elem_of_lookup in He' as [j Hj].
    assert (i = j) as ->; [|congruence]. eapply (NoDup_lookup _ _ _ p Hd); rewrite list_lookup_fmap; [by rewrite Hi|by rewrite Hj, <- E]. }
  constructor.
  - intros o'. rewrite sender_drop, <- Hs. destruct (decide (o' = o)) as [->|Hne]; [done|]. rewrite Eo' by done.
    rewrite without_id; [done|]. rewrite Hs. intros (e & E & [He' Ho]%elem_of_sender)%list_elem_of_fmap.
    rewrite (Huniq e He' (eq_sym E)) in Ho. done.
  - intros o' s' q. rewrite Ec. setoid_rewrite elem_of_drop. simpl. destruct (decide (o' = o /\ s' = s)) as [[-> ->]|Hne].
    + split; [done|]. intros (f' & He' & Hq). assert (conn_at h o s = Some q) by (apply Hc; eauto). congruence.
    + rewrite Hc. split; [|naive_solver]. intros (f' & He'). exists f'. split; [done|]. intros ->.
      apply Huniq in He'; [|done]. simplify_eq. naive_solver.
  - intros e [He' Hne]%elem_of_drop. rewrite Eh by done. auto.
  - clear -Hd. induction es as [|e es IH]; [done|]. apply NoDup_cons in Hd as [Hn Hd]. unfold drop_slot. simpl.
    destruct (bool_decide (slot e = p)); simpl; [auto|]. apply NoDup_cons. split; [|auto].
    intros (x & E & [Hx _]%elem_of_drop)%list_elem_of_fmap. apply Hn, list_elem_of_fmap. eauto.
Qed.

(** ** The operations keep the correspondence *)

Lemma Connect_entry h es s f : handler_ok h es -> conn_at h None s = None ->
  handler_ok (Handler_Connect h s f) (es ++ [mkEntry None s f (length (slots_heap (world h)))]) /\
  calls (world (Handler_Connect h s f)) = calls (world h).
Proof.
  intros Hok Hnew. unfold Handler_Connect. simpl.
  assert (is_connected (mkWorld (slots_heap (world h) ++ [NewSlot (Some f)]) (calls (world h))) (length (slots_heap (world h))) = true) as Hc.
  { unfold is_connected. simpl. rewrite lookup_app_r by lia. by rewrite Nat.sub_diag. }
  unfold is_connected in *. simpl in *. rewrite Hc. simpl. split; [|done].
  apply (handler_add h); try done.
  - by intros [k|].
  - intros [k|] s'; cbn [conn_at signal_conns_ signals_conns_]; [by rewrite decide_False by naive_solver|]. destruct (decide (s' = s)) as [->|Hne].
    + rewrite decide_True by done. by rewrite lookup_insert_eq.
    + rewrite decide_False by naive_solver. by rewrite lookup_insert_ne.
Qed.

Lemma ConnectTo_entry h es s k f : handler_ok h es -> conn_at h (Some k) s = None ->
  handler_ok (Handler_ConnectTo h s k f) (es ++ [mkEntry (Some k) s f (length (slots_heap (world h)))]) /\
  calls (world (Handler_ConnectTo h s k f)) = calls (world h).
Proof.
  intros Hok Hnew. unfold Handler_ConnectTo.
  set (sigs := match signals_ h !! k with Some _ => _ | None => _ end).
  assert (forall j, default [] (sigs !! j) = default [] (signals_ h !! j)) as Esig.
  { intros j. subst sigs. destruct (signals_ h !! k) eqn:E; [done|]. destruct (decide (j = k)) as [->|].
    - by rewrite lookup_insert_eq, E.
    - by rewrite lookup_insert_ne. }
  simpl. assert (is_connected (mkWorld (slots_heap (world h) ++ [NewSlot (Some f)]) (calls (world h))) (length (slots_heap (world h))) = true) as Hc.
  { unfold is_connected. simpl. rewrite lookup_app_r by lia. by rewrite Nat.sub_diag. }
  rewrite Hc. simpl. split; [|done]. apply (handler_add h); try done.
  - simpl. by rewrite lookup_insert_eq, Esig.
  - intros [j|] Hj; simpl; [|done]. rewrite lookup_insert_ne by congruence. apply Esig.
  - intros [j|] s'; cbn [conn_at signal_conns_ signals_conns_]; [|by rewrite decide_False by naive_solver]. destruct (decide (j = k)) as [->|Hne].
    + rewrite lookup_insert_eq. simpl. destruct (decide (s' = s)) as [->|Hne].
      * rewrite decide_True by done. by rewrite lookup_insert_eq.
      * rewrite decide_False by naive_solver. rewrite lookup_insert_ne by done. by destruct (signals_conns_ h !! k).
    + rewrite lookup_insert_ne by done. by rewrite decide_False by naive_solver.
Qed.

(** Disconnecting the slot of an entry. *)
Lemma disconnect_entry h es o s p : handler_ok h es -> conn_at h o s = Some p ->
  exists w, Connection_Disconnect (world h) (sig_at h o) (Some p) = (true, w, without p (sig_at h o)) /\
    calls w = calls (world h) /\ forall q, q <> p -> slots_heap w !! q = slots_heap (world h) !! q.
Proof.
  intros Hok Hc. destruct (proj1 (ho_conns h es Hok o s p) Hc) as (f & He).
  destruct (Disconnect_ok (world h) (sig_at h o) p (handler_sig_ok h es o Hok)) as (w & E & _ & Hcalls & _ & Hheap).
  { rewrite (ho_sigs h es Hok). apply list_elem_of_fmap. exists (mkEntry o s f p). split; [done|]. by apply elem_of_sender. }
  exists w. by split_and!.
Qed.

Lemma Disconnect_entry h es s :
  handler_ok h es -> exists es', handler_ok (Handler_Disconnect h s) es' /\
    calls (world (Handler_Disconnect h s)) = calls (world h) /\
    match conn_at h None s with Some p => es' = drop_slot p es | None => es' = es end.
Proof.
  intros Hok. simpl. unfold Handler_Disconnect. destruct (signal_conns_ h !! s) as [p|] eqn:E; [|by eauto].
  destruct (disconnect_entry h es None s p Hok E) as (w & Ed & Hcalls & Hheap). cbn [sig_at] in Ed. rewrite Ed.
  eexists. split; [|done]. apply (handler_drop h _ es None s p); try done.
  - by intros [k|].
  - intros [k|] s'; cbn [conn_at signal_conns_ signals_conns_]; [by rewrite decide_False by naive_solver|]. destruct (decide (s' = s)) as [->|Hne].
    + rewrite decide_True by done. by rewrite lookup_delete_eq.
    + rewrite decide_False by naive_solver. by rewrite lookup_delete_ne.
Qed.

Lemma DisconnectFrom_entry h es s k :
  handler_ok h es -> exists es', handler_ok (Handler_DisconnectFrom h s k) es' /\
    calls (world (Handler_DisconnectFrom h s k)) = calls (world h) /\
    match conn_at h (Some k) s with Some p => es' = drop_slot p es | None => es' = es end.
Proof.
  intros Hok. unfold Handler_DisconnectFrom. cbn [conn_at].
  destruct (signals_conns_ h !! k) as [conns|] eqn:Ek; cbn [mbind option_bind]; [|by eauto].
  destruct (conns !! s) as [p|] eqn:E; [|by eauto].
  destruct (disconnect_entry h es (Some k) s p Hok) as (w & Ed & Hcalls & Hheap).
  { simpl. by rewrite Ek. }
  cbn [sig_at] in Ed. rewrite Ed. eexists. split; [|done]. apply (handler_drop h _ es (Some k) s p); try done.
  - simpl. by rewrite Ek.
  - simpl. by rewrite lookup_insert_eq.
  - intros [j|] Hj; simpl; [|done]. by rewrite lookup_insert_ne by congruence.
  - intros [j|] s'; cbn [conn_at signal_conns_ signals_conns_]; [|by rewrite decide_False by naive_solver]. destruct (decide (j = k)) as [->|Hne].
    + rewrite lookup_insert_eq, Ek. simpl. destruct (decide (s' = s)) as [->|Hne].
      * rewrite decide_True by done. by rewrite lookup_delete_eq.
      * rewrite decide_False by naive_solver. by rewrite lookup_delete_ne.
    + rewrite lookup_insert_ne by done. by rewrite decide_False by naive_solver.
Qed.

Lemma Run_entry h es args k : handler_ok h es ->
  handler_ok (Run h args k) es /\
  calls (world (Run h args k)) = calls (world h) ++
    ((fun f => (f, args)) <$> (listener <$> of_sender None es) ++ (listener <$> of_sender (Some k) es)).
Proof.
  intros Hok. unfold Run.
  pose proof (emit_spec (world h) (sig_at h None) args (handler_sig_ok h es None Hok)) as E1. simpl in E1. rewrite E1.
  pose proof (handler_callbacks h es None Hok) as Hcb. simpl in Hcb. rewrite Hcb. set (w := mkWorld _ _).
  destruct (signals_ h !! k) as [sg|] eqn:Ek.
  - assert (sig_at h (Some k) = sg) as Esg by (simpl; by rewrite Ek).
    assert (sig_ok w sg) as Hsg by (rewrite <- Esg; apply (handler_sig_ok h es (Some k) Hok)).
    rewrite (emit_spec w sg args Hsg). assert (callbacks w sg = listener <$> of_sender (Some k) es) as ->.
    { rewrite <- (handler_callbacks h es (Some k) Hok), Esg. by apply callbacks_agree. }
    split; [|simpl; by rewrite fmap_app, app_assoc]. destruct Hok as [Hs Hc Hh Hd]. constructor; simpl; try done.
    intros [j|]; simpl; [|apply (Hs None)]. rewrite <- Hs. simpl. destruct (decide (j = k)) as [->|].
    + by rewrite lookup_insert_eq, Ek.
    + by rewrite lookup_insert_ne.
  - assert (of_sender (Some k) es = []) as ->.
    { pose proof (ho_sigs h es Hok (Some k)) as E. simpl in E. rewrite Ek in E. simpl in E. by destruct (of_sender (Some k) es). }
    split; [|simpl; by rewrite app_nil_r]. destruct Hok as [Hs Hc Hh Hd]. by constructor.
Qed.

(** ** Sequences of operations *)

Inductive HOp :=
| HConnect (self_id : Z) (f : nat)
| HConnectTo (self_id oppo_id : Z) (f : nat)
| HDisconnect (self_id : Z)
| HDisconnectFrom (self_id oppo_id : Z)
| HRun (args : Args) (sender : Z).

Definition exec_handler (h : Handler) (op : HOp) : Handler :=
  match op with
  | HConnect s f => Handler_Connect h s f
  | HConnectTo s k f => Handler_ConnectTo h s k f
  | HDisconnect s => Handler_Disconnect h s
  | HDisconnectFrom s k => Handler_DisconnectFrom h s k
  | HRun args k => Run h args k
  end.

(** The listeners: sender, receiver and callback, in the order of connection. *)
Notation Registered := (list (option Z * Z * nat)).
Definition remove_key (o : option Z) (s : Z) (r : Registered) : Registered :=
  List.filter (fun '(o', s', _) => negb (bool_decide (o' = o /\ s' = s))) r.
Definition takers (o : option Z) (r : Registered) : list nat :=
  (fun '(_, _, f) => f) <$> List.filter (fun '(o', _, _) => bool_decide (o' = o)) r.

Definition spec_handler (st : Registered * list (Call Args)) (op : HOp) : Registered * list (Call Args) :=
  let '(r, cs) := st in
  match op with
  | HConnect s f => (r ++ [(None, s, f)], cs)
  | HConnectTo s k f => (r ++ [(Some k, s, f)], cs)
  | HDisconnect s => (remove_key None s r, cs)
  | HDisconnectFrom s k => (remove_key (Some k) s r, cs)
  | HRun args k => (r, cs ++ ((fun f => (f, args)) <$> takers None r ++ takers (Some k) r))
  end.

(** A receiver does not connect twice for the same messages. *)
Definition connects_once (r : Registered) (op : HOp) : Prop :=
  match op with
  | HConnect s _ => forall f, (None, s, f) ∉ r
  | HConnectTo s k _ => forall f, (Some k, s, f) ∉ r
  | _ => True
  end.
Fixpoint well_used (st : Registered * list (Call Args)) (ops : list HOp) : Prop :=
  match ops with
  | [] => True
  | op :: ops => connects_once st.1 op /\ well_used (spec_handler st op) ops
  end.

Definition triple (e : Entry) : option Z * Z * nat := (from e, owner e, listener e).

Lemma takers_entries o es : takers o (triple <$> es) = listener <$> of_sender o es.
Proof.
  unfold takers, of_sender. induction es as [|e es IH]; [done|]. simpl.
  destruct (bool_decide (from e = o)); simpl; first [exact IH | f_equal; exact IH].
Qed.

Lemma remove_key_entries h es o s : handler_ok h es ->
  remove_key o s (triple <$> es) =
  triple <$> match conn_at h o s with Some p => drop_slot p es | None => es end.
Proof.
  intros [_ Hc _ Hd].
  assert (forall e, e ∈ es -> (from e = o /\ owner e = s) <-> conn_at h o s = Some (slot e)) as Hiff.
  { intros [o' s' f p] He. simpl. split; [intros [-> ->]; apply Hc; eauto|].
    intros (f' & He')%Hc. apply list_elem_of_lookup in He as [i Hi]. apply list_elem_of_lookup in He' as [j Hj].
    assert (i = j) as ->; [|rewrite Hi in Hj; by simplify_eq].
    eapply (NoDup_lookup _ _ _ p Hd); rewrite list_lookup_fmap; [by rewrite Hi|by rewrite Hj]. }
  clear -Hiff. unfold remove_key, drop_slot. induction es as [|e es IH]; [by destruct (conn_at h o s)|]. simpl.
  assert (forall x, x ∈ es -> (from x = o /\ owner x = s) <-> conn_at h o s = Some (slot x)) as Hiff' by (intros x Hx; apply Hiff; by right).
  specialize (IH Hiff'). pose proof (Hiff e ltac:(left)) as He.
  destruct (conn_at h o s) as [p|].
  - rewrite (bool_decide_ext _ (slot e = p)) by (rewrite He; naive_solver).
    destruct (bool_decide (slot e = p)); simpl; first [exact IH | f_equal; exact IH].
  - rewrite bool_decide_false by (rewrite He; done). simpl. f_equal. exact IH.
Qed.

Lemma handler_step h es cs op :
  handler_ok h es -> calls (world h) = cs -> connects_once (triple <$> es) op ->
  exists es', handler_ok (exec_handler h op) es' /\
    spec_handler (triple <$> es, cs) op = (triple <$> es', calls (world (exec_handler h op))).
Proof.
  intros Hok Ecs Hop.
  assert (forall o s, (forall f, (o, s, f) ∉ triple <$> es) -> conn_at h o s = None) as Hfree.
  { intros o s Hn. destruct (conn_at h o s) as [p|] eqn:E; [|done]. apply (ho_conns h es Hok) in E as (f & He).
    exfalso. apply (Hn f), list_elem_of_fmap. by exists (mkEntry o s f p). }
  destruct op as [s f|s k f|s|s k|args k]; simpl in *.
  - destruct (Connect_entry h es s f Hok) as [Hok' Hc]; [by apply (Hfree None)|].
    eexists. split; [exact Hok'|]. rewrite Hc, Ecs, fmap_app. done.
  - destruct (ConnectTo_entry h es s k f Hok) as [Hok' Hc]; [by apply (Hfree (Some k))|].
    eexists. split; [exact Hok'|]. rewrite Hc, Ecs, fmap_app. done.
  - destruct (Disconnect_entry h es s Hok) as (es' & Hok' & Hc & He). exists es'. split; [done|].
    rewrite Hc, Ecs, (remove_key_entries h es None s Hok). f_equal. by destruct (conn_at h None s); subst.
  - destruct (DisconnectFrom_entry h es s k Hok) as (es' & Hok' & Hc & He). exists es'. split; [done|].
    rewrite Hc, Ecs, (remove_key_entries h es (Some k) s Hok). f_equal. by destruct (conn_at h (Some k) s); subst.
  - destruct (Run_entry h es args k Hok) as [Hok' Hc]. exists es. split; [done|].
    by rewrite Hc, Ecs, !takers_entries.
Qed.

Lemma NewHandler_ok : handler_ok NewHandler [].
Proof.
  constructor; [by intros [k|]| |by intros e ?%not_elem_of_nil|constructor].
  intros o s p. split; [by destruct o|]. intros (f & ?%not_elem_of_nil). done.
Qed.
End handler.
Arguments Handler Args : clear implicits.
Arguments HOp Args : clear implicits.

(** For any sequence of connections, disconnections and messages in which no
    receiver connects twice for the same messages, the callbacks are, for each
    message in turn, those connected for all senders and then those connected for
    its sender, each group in the order of connection, and no disconnected one. *)
Lemma handler_calls {Args} (ops : list (HOp Args)) :
  well_used ([], []) ops ->
  calls (world (foldl exec_handler NewHandler ops)) = (foldl spec_handler ([], []) ops).2.
Proof.
  assert (forall h es, handler_ok h es -> well_used (triple <$> es, calls (world h)) ops ->
    calls (world (foldl exec_handler h ops)) = (foldl spec_handler (triple <$> es, calls (world h)) ops).2) as HG.
  { induction ops as [|op ops IH]; intros h es Hok Hw; [done|]. destruct Hw as [Hop Hw].
    destruct (handler_step h es _ op Hok eq_refl Hop) as (es' & Hok' & E). simpl in *. rewrite E in Hw |- *. by apply IH. }
  apply (HG NewHandler []). apply NewHandler_ok.
Qed.

(** A receiver that connects twice keeps a listener that nothing disconnects. *)
Theorem reconnecting_leaks_a_listener :
  let h := foldl exec_handler (NewHandler : Handler string) [HConnect 1 10; HConnect 1 11; HDisconnect 1; HRun "a" 9] in
  calls (world h) = [(10%nat, "a"%string)] /\ signal_conns_ h = ∅.
Proof. by vm_compute. Qed.
