(* ===== verification/Block.v ===== *)
(** Block.v -- src/src/apollo/cyber/transport/shm/block.{h,cc}

    One block of a shared memory segment: a lock counter and a message buffer,
    used by any number of processes.  A writer that has the lock fills the buffer
    in several stores; a reader that has it reads the buffer.  One rule per
    atomic access; compare_exchange_weak may fail for no reason. *)

From S2P Require Import Prelude.
From S2P Require Import LockLib.
Local Open Scope Z_scope.

Definition kRWLockFree : Z := 0.
Definition kWriteExclusive : Z := -1.
Definition kMaxTryLockTimes : Z := 5.

Section block.
Context {M : Type}.

(** The buffer holds a complete message, or one that is being written. *)
Inductive Buffer := Whole (m : M) | Torn.

(** Where a process is: [RdTest n t] and [RdCas n t] are in TryLockForRead, with
    the loaded value and the number of tries; [Reading] has the read lock;
    [Filling], [Filled] and [WrDone] have the write lock. *)
Inductive pc :=
| Idle | RdTest (n t : Z) | RdCas (n t : Z) | Reading
| Filling (m : M) | Filled (m : M) | WrDone.

Record Block := mkBlock { lock_num_ : Z; buffer : Buffer; pcs : list pc }.

Inductive step (b : Block) : Block -> Prop :=
(* TryLockForRead *)
| rd_load i : pcs b !! i = Some Idle ->
    step b (mkBlock (lock_num_ b) (buffer b) (<[i := RdTest (lock_num_ b) 0]> (pcs b)))
| rd_written i n t : pcs b !! i = Some (RdTest n t) -> n < kRWLockFree ->
    step b (mkBlock (lock_num_ b) (buffer b) (<[i := Idle]> (pcs b)))
| rd_free i n t : pcs b !! i = Some (RdTest n t) -> kRWLockFree <= n ->
    step b (mkBlock (lock_num_ b) (buffer b) (<[i := RdCas n t]> (pcs b)))
| rd_cas_ok i n t : pcs b !! i = Some (RdCas n t) -> lock_num_ b = n ->
    step b (mkBlock (i32 (n + 1)) (buffer b) (<[i := Reading]> (pcs b)))
| rd_cas_retry i n t : pcs b !! i = Some (RdCas n t) -> t + 1 <> kMaxTryLockTimes ->
    step b (mkBlock (lock_num_ b) (buffer b) (<[i := RdTest (lock_num_ b) (t + 1)]> (pcs b)))
| rd_give_up i n t : pcs b !! i = Some (RdCas n t) -> t + 1 = kMaxTryLockTimes ->
    step b (mkBlock (lock_num_ b) (buffer b) (<[i := Idle]> (pcs b)))
(* ReleaseReadLock *)
| rd_release i : pcs b !! i = Some Reading ->
    step b (mkBlock (i32 (lock_num_ b - 1)) (buffer b) (<[i := Idle]> (pcs b)))
(* TryLockForWrite *)
| wr_lock i m : pcs b !! i = Some Idle -> lock_num_ b = kRWLockFree ->
    step b (mkBlock kWriteExclusive (buffer b) (<[i := Filling m]> (pcs b)))
| wr_refused i : pcs b !! i = Some Idle -> step b b
(* the writer's stores *)
| wr_first_store i m : pcs b !! i = Some (Filling m) ->
    step b (mkBlock (lock_num_ b) Torn (<[i := Filled m]> (pcs b)))
| wr_last_store i m : pcs b !! i = Some (Filled m) ->
    step b (mkBlock (lock_num_ b) (Whole m) (<[i := WrDone]> (pcs b)))
(* ReleaseWriteLock *)
| wr_release i : pcs b !! i = Some WrDone ->
    step b (mkBlock (i32 (lock_num_ b + 1)) (buffer b) (<[i := Idle]> (pcs b))).

Definition init (m : M) (n : nat) : Block := mkBlock 0 (Whole m) (replicate n Idle).

(** Fewer than 2^31 - 1 readers. *)
Definition bounded_step (b b' : Block) : Prop := step b b' /\ lock_num_ b < 2 ^ 31 - 1.

(** What a process has added to the counter. *)
Definition weight (p : pc) : Z :=
  match p with Reading => 1 | Filling _ | Filled _ | WrDone => -1 | _ => 0 end.

Record block_inv (b : Block) : Prop := mkBlockInv {
  bi_sum : lock_num_ b = sumZ (weight <$> pcs b);
  bi_excl : exclusive (weight <$> pcs b);
  bi_min : -1 <= lock_num_ b;
  bi_cas : forall i n t, pcs b !! i = Some (RdCas n t) -> 0 <= n;
  bi_torn : buffer b = Torn -> exists i m, pcs b !! i = Some (Filled m)
}.

Lemma weight_at (ps : list pc) i p : ps !! i = Some p -> (weight <$> ps) !! i = Some (weight p).
Proof. intros E. by rewrite list_lookup_fmap, E. Qed.

(** One process moves; the counter follows its weight. *)
Lemma block_move b i p p' n buf :
  block_inv b -> pcs b !! i = Some p -> n = lock_num_ b + weight p' - weight p -> -1 <= n ->
  exclusive (<[i := weight p']> (weight <$> pcs b)) ->
  (forall m t, p' = RdCas m t -> 0 <= m) ->
  (buf = Torn -> exists j m, <[i := p']> (pcs b) !! j = Some (Filled m)) ->
  block_inv (mkBlock n buf (<[i := p']> (pcs b))).
Proof.
  intros [Hs He Hm Hc _] Hi -> Hn Hx Hp Ht. pose proof (weight_at _ _ _ Hi) as Hw. constructor; simpl; try done.
  - rewrite list_fmap_insert, (sumZ_insert _ _ _ _ Hw). lia.
  - by rewrite list_fmap_insert.
  - intros j m t Hj. apply list_lookup_insert_Some in Hj as [(-> & -> & _)|[_ Hj]]; eauto.
Qed.

(** A move that neither takes nor releases the lock and leaves the buffer. *)
Lemma block_stay b i p p' :
  block_inv b -> pcs b !! i = Some p -> weight p' = weight p -> (forall m, p <> Filled m) ->
  (forall m t, p' = RdCas m t -> 0 <= m) -> block_inv (mkBlock (lock_num_ b) (buffer b) (<[i := p']> (pcs b))).
Proof.
  intros Hb Hi Ew Hf Hp. pose proof (weight_at _ _ _ Hi) as Hw. pose proof Hb as [Hs He Hm Hc Ht].
  apply (block_move b i p p'); try done; [lia| |].
  - rewrite Ew. by rewrite list_insert_id.
  - intros E. destruct (Ht E) as (j & m & Hj). exists j, m. rewrite list_lookup_insert_ne; [done|].
    intros ->. rewrite Hi in Hj. by injection Hj as ->; eapply Hf.
Qed.

Lemma block_held_positive (ps : list pc) i p : exclusive (weight <$> ps) -> ps !! i = Some p -> 0 < weight p ->
  0 < sumZ (weight <$> ps) /\ forall j q, ps !! j = Some q -> 0 <= weight q.
Proof.
  intros He Hi Hp. assert (forall j h, (weight <$> ps) !! j = Some h -> 0 <= h) as Hn.
  { intros j h Hj. destruct He as [He|(k & x & Hk & Hx & Ho)]; [by eapply He|].
    assert (i = k) as ->; [|rewrite (weight_at _ _ _ Hi) in Hk; injection Hk as <-; lia].
    destruct (decide (i = k)) as [|Hne]; [done|]. specialize (Ho i _ (weight_at _ _ _ Hi) Hne). lia. }
  split; [|intros j q Hj; by eapply Hn, weight_at].
  pose proof (sumZ_member _ i _ Hn (weight_at _ _ _ Hi)). lia.
Qed.

Lemma block_step_inv b b' : block_inv b -> bounded_step b b' -> block_inv b'.
Proof.
  intros Hb [Hs Hr]. pose proof Hb as [Hsum He Hm Hc Ht].
  destruct Hs as [i Hi|i n t Hi Hn|i n t Hi Hn|i n t Hi En|i n t Hi Ht'|i n t Hi Ht'|i Hi|i m Hi En|i Hi|i m Hi|i m Hi|i Hi];
    unfold kRWLockFree, kWriteExclusive in *; try done; try (by eapply block_stay).
  - eapply block_stay; try done. by intros m t' [= <- <-].
  - pose proof (Hc _ _ _ Hi). subst n. rewrite i32_small by (unfold is_i32; lia).
    eapply block_move; [done|done|simpl; lia|lia| |done|].
    + eapply exclusive_read; [done|lia|by apply weight_at|simpl; lia].
    + intros E. destruct (Ht E) as (j & m & Hj). exists j, m. rewrite list_lookup_insert_ne; [done|]. intros ->. congruence.
  - destruct (block_held_positive _ i Reading He Hi ltac:(simpl; lia)) as [Hpos _].
    rewrite i32_small by (unfold is_i32; lia). eapply block_move; [done|done|simpl; lia|lia| |done|].
    + eapply exclusive_drop; [done|by apply weight_at|simpl; lia|simpl; lia].
    + intros E. destruct (Ht E) as (j & m & Hj). exists j, m. rewrite list_lookup_insert_ne; [done|]. intros ->. congruence.
  - eapply block_move; [done|done|simpl; lia|lia| |done|].
    + eapply exclusive_write; [done|lia|by apply weight_at|simpl; lia].
    + intros E. destruct (Ht E) as (j & m' & Hj). exists j, m'. rewrite list_lookup_insert_ne; [done|]. intros ->. congruence.
  - eapply block_move; [done|done|simpl; lia|lia| |done|].
    + simpl. by rewrite list_insert_id by (by apply weight_at in Hi).
    + intros _. exists i, m. apply list_lookup_insert_eq. by eapply lookup_lt_Some.
  - eapply block_move; [done|done|simpl; lia|lia| |done|done].
    simpl. by rewrite list_insert_id by (by apply weight_at in Hi).
  - rewrite i32_small by (unfold is_i32; lia). eapply block_move; [done|done|simpl; lia|lia| |done|].
    + eapply exclusive_own; [done|by apply weight_at|simpl; lia].
    + intros E. destruct (Ht E) as (j & m & Hj). exists j, m. rewrite list_lookup_insert_ne; [done|]. intros ->. congruence.
Qed.

Lemma block_init_inv m n : block_inv (init m n).
Proof.
  constructor; simpl; rewrite ?fmap_replicate; simpl; rewrite ?sumZ_replicate; auto with cyber; try lia; try done.
  intros i k t Hi. by apply lookup_replicate in Hi as [? _].
Qed.
End block.
Arguments Buffer M : clear implicits.
Arguments Block M : clear implicits.

(** Messages in shared memory are read whole: whatever the processes that
    share a block do, a process that has the read lock finds a complete message
    in the buffer, nobody has the write lock meanwhile, at most one process has
    the write lock at a time, and the counter is the number of readers or -1. *)
Theorem block_reads_are_whole {M} (m0 : M) n (b : Block M) :
  rtc bounded_step (init m0 n) b ->
  (forall i, pcs b !! i = Some Reading -> exists m, buffer b = Whole m) /\
  mutual_exclusion (weight <$> pcs b) /\ lock_num_ b = sumZ (weight <$> pcs b) /\ -1 <= lock_num_ b.
Proof.
  intros Hr. assert (block_inv b) as [Hs He Hm Hc Ht].
  { pose proof (block_init_inv m0 n) as Hi. clear -Hr Hi. induction Hr; [done|]. eauto using block_step_inv. }
  split_and!; [|by apply exclusive_mutual|done|done].
  intros i Hi. destruct (buffer b) as [m|] eqn:E; [by eauto|]. exfalso. destruct (Ht eq_refl) as (j & m & Hj).
  destruct (block_held_positive _ i Reading He Hi ltac:(simpl; lia)) as [_ Hn]. specialize (Hn j _ Hj). simpl in Hn. lia.
Qed.

(** Two processes: the first writes "b", then the second reads. *)
Definition reading_state : Block string := mkBlock 1 (Whole "b"%string) [Idle; Reading].

Lemma reading_reachable : rtc bounded_step (init "a"%string 2) reading_state.
Proof.
  eapply rtc_l; [split; [by apply (wr_lock _ 0 "b"%string)|simpl; lia]|].
  eapply rtc_l; [split; [by apply (wr_first_store _ 0 "b"%string)|simpl; unfold kWriteExclusive; lia]|].
  eapply rtc_l; [split; [by apply (wr_last_store _ 0 "b"%string)|simpl; unfold kWriteExclusive; lia]|].
  eapply rtc_l; [split; [by apply (wr_release _ 0)|simpl; unfold kWriteExclusive; lia]|].
  eapply rtc_l; [split; [by apply (rd_load _ 1)|simpl; unfold kWriteExclusive; vm_compute; done]|].
  eapply rtc_l; [split; [by apply (rd_free _ 1 0 0)|simpl; vm_compute; done]|].
  eapply rtc_l; [split; [by apply (rd_cas_ok _ 1 0 0)|simpl; vm_compute; done]|].
  apply rtc_refl.
Qed.

Lemma block_reads_are_whole_witness :
  rtc bounded_step (init "a"%string 2) reading_state /\ exists m, buffer reading_state = Whole m.
Proof.
  split; [apply reading_reachable|].
  apply (proj1 (block_reads_are_whole "a"%string 2 reading_state reading_reachable) 1%nat). reflexivity.
Defined.
