(* ===== verification/ShmConf.v ===== *)
(** ShmConf.v -- src/src/apollo/cyber/transport/shm/shm_conf.{h,cc}

    The sizes of a shared memory segment.  The state comes first, then the array
    of blocks, then the message buffers; OpenOrCreate and OpenOnly of segment.cc
    compute the addresses with sizeof(State) and sizeof(Block), which depend on
    the compiler and are parameters here. *)

From S2P Require Import Prelude.
Local Open Scope Z_scope.

Definition EXTRA_SIZE : Z := 1024 * 4.
Definition STATE_SIZE : Z := 1024.
Definition BLOCK_SIZE : Z := 1024.
Definition MESSAGE_INFO_SIZE : Z := 1024.
Definition BLOCK_NUM_16K : Z := 512.
Definition MESSAGE_SIZE_16K : Z := 1024 * 16.
Definition BLOCK_NUM_128K : Z := 128.
Definition MESSAGE_SIZE_128K : Z := 1024 * 128.
Definition BLOCK_NUM_1M : Z := 64.
Definition MESSAGE_SIZE_1M : Z := 1024 * 1024.
Definition BLOCK_NUM_8M : Z := 32.
Definition MESSAGE_SIZE_8M : Z := 1024 * 1024 * 8.
Definition BLOCK_NUM_16M : Z := 16.
Definition MESSAGE_SIZE_16M : Z := 1024 * 1024 * 16.
Definition BLOCK_NUM_MORE : Z := 8.
Definition MESSAGE_SIZE_MORE : Z := 1024 * 1024 * 32.

Record ShmConf := mkConf {
  ceiling_msg_size_ : Z;
  block_buf_size_ : Z;
  block_num_ : Z;
  managed_shm_size_ : Z
}.

Definition GetCeilingMessageSize (real_msg_size : Z) : Z :=
  if real_msg_size <=? MESSAGE_SIZE_16K then MESSAGE_SIZE_16K
  else if real_msg_size <=? MESSAGE_SIZE_128K then MESSAGE_SIZE_128K
  else if real_msg_size <=? MESSAGE_SIZE_1M then MESSAGE_SIZE_1M
  else if real_msg_size <=? MESSAGE_SIZE_8M then MESSAGE_SIZE_8M
  else if real_msg_size <=? MESSAGE_SIZE_16M then MESSAGE_SIZE_16M
  else MESSAGE_SIZE_MORE.

Definition GetBlockBufSize (ceiling_msg_size : Z) : Z := u64 (ceiling_msg_size + MESSAGE_INFO_SIZE).

Definition GetBlockNum (ceiling_msg_size : Z) : Z :=
  if ceiling_msg_size =? MESSAGE_SIZE_16K then BLOCK_NUM_16K
  else if ceiling_msg_size =? MESSAGE_SIZE_128K then BLOCK_NUM_128K
  else if ceiling_msg_size =? MESSAGE_SIZE_1M then BLOCK_NUM_1M
  else if ceiling_msg_size =? MESSAGE_SIZE_8M then BLOCK_NUM_8M
  else if ceiling_msg_size =? MESSAGE_SIZE_16M then BLOCK_NUM_16M
  else if ceiling_msg_size =? MESSAGE_SIZE_MORE then BLOCK_NUM_MORE
  else 0.

Definition Update (real_msg_size : Z) : ShmConf :=
  let ceiling := GetCeilingMessageSize real_msg_size in
  let buf := GetBlockBufSize ceiling in
  let num := GetBlockNum ceiling in
  mkConf ceiling buf num (u64 (EXTRA_SIZE + STATE_SIZE + (BLOCK_SIZE + buf) * num)).

(** ShmConf::ShmConf() *)
Definition NewConf : ShmConf := Update MESSAGE_SIZE_16K.

(** ** Layout *)

Section layout.
Variable sizeof_State sizeof_Block : Z.

(** The offset of block [i] and of its buffer, as segment.cc computes them. *)
Definition block_offset (i : Z) : Z := sizeof_State + i * sizeof_Block.
Definition buf_offset (c : ShmConf) (i : Z) : Z :=
  u64 (sizeof_State + block_num_ c * sizeof_Block + i * block_buf_size_ c).
End layout.

(** The configurations there are. *)
Lemma Update_cases n :
  exists k, 3 <= k <= 9 /\ block_num_ (Update n) = 2 ^ k /\
    MESSAGE_SIZE_16K <= ceiling_msg_size_ (Update n) <= MESSAGE_SIZE_MORE /\
    block_buf_size_ (Update n) = ceiling_msg_size_ (Update n) + MESSAGE_INFO_SIZE /\
    managed_shm_size_ (Update n) = EXTRA_SIZE + STATE_SIZE + (BLOCK_SIZE + block_buf_size_ (Update n)) * block_num_ (Update n) /\
    Z.min n MESSAGE_SIZE_MORE <= ceiling_msg_size_ (Update n).
Proof.
  unfold Update, GetCeilingMessageSize.
  destruct (Z.leb_spec n MESSAGE_SIZE_16K); [exists 9|]; [|destruct (Z.leb_spec n MESSAGE_SIZE_128K); [exists 7|]];
    [| |destruct (Z.leb_spec n MESSAGE_SIZE_1M); [exists 6|]]; [| | |destruct (Z.leb_spec n MESSAGE_SIZE_8M); [exists 5|]];
    [| | | |destruct (Z.leb_spec n MESSAGE_SIZE_16M); [exists 4|exists 3]];
    cbn [ceiling_msg_size_ block_buf_size_ block_num_ managed_shm_size_];
    (split; [lia|]); (split; [reflexivity|]); (split; [unfold MESSAGE_SIZE_16K, MESSAGE_SIZE_128K, MESSAGE_SIZE_1M, MESSAGE_SIZE_8M, MESSAGE_SIZE_16M, MESSAGE_SIZE_MORE in *; lia|]);
    (split; [reflexivity|]); (split; [reflexivity|]);
    unfold MESSAGE_SIZE_16K, MESSAGE_SIZE_128K, MESSAGE_SIZE_1M, MESSAGE_SIZE_8M, MESSAGE_SIZE_16M, MESSAGE_SIZE_MORE in *; lia.
Qed.

(** Between 8 and 512 blocks, and the offsets do not overflow. *)
Lemma block_num_range n : 8 <= block_num_ (Update n) <= 512.
Proof.
  destruct (Update_cases n) as (k & Hk & -> & _).
  split; [change 8 with (2 ^ 3)|change 512 with (2 ^ 9)]; apply Z.pow_le_mono_r; lia.
Qed.

Lemma buf_offset_val sizeof_State sizeof_Block n i :
  0 < sizeof_State <= STATE_SIZE -> 0 < sizeof_Block <= BLOCK_SIZE -> 0 <= i <= block_num_ (Update n) ->
  buf_offset sizeof_State sizeof_Block (Update n) i =
    sizeof_State + block_num_ (Update n) * sizeof_Block + i * block_buf_size_ (Update n).
Proof.
  intros Hs Hb Hi. pose proof (block_num_range n). destruct (Update_cases n) as (_ & _ & _ & Hc & Eb & _).
  unfold buf_offset. apply u64_small. unfold is_u64, STATE_SIZE, BLOCK_SIZE, MESSAGE_INFO_SIZE, MESSAGE_SIZE_16K, MESSAGE_SIZE_MORE in *. nia.
Qed.

(** Buffers are apart. *)
Lemma buf_apart sizeof_State sizeof_Block n i j :
  0 < sizeof_State <= STATE_SIZE -> 0 < sizeof_Block <= BLOCK_SIZE ->
  0 <= i < block_num_ (Update n) -> 0 <= j < block_num_ (Update n) -> i <> j ->
  let c := Update n in
  buf_offset sizeof_State sizeof_Block c i + block_buf_size_ c <= buf_offset sizeof_State sizeof_Block c j \/
  buf_offset sizeof_State sizeof_Block c j + block_buf_size_ c <= buf_offset sizeof_State sizeof_Block c i.
Proof.
  intros Hs Hb Hi Hj Hne c. unfold c. rewrite !buf_offset_val by lia. destruct (Update_cases n) as (_ & _ & _ & Hc & Eb & _).
  unfold MESSAGE_INFO_SIZE, MESSAGE_SIZE_16K in *. nia.
Qed.

(** The layout of a segment is sound, for any message size: the number of
    blocks is a power of two, blocks and buffers lie inside the segment without
    overlapping, no size computation overflows, and a buffer has room for the
    message information and for the message the segment was made for exactly when
    that message has at most 32 MiB. *)
Theorem segment_layout_sound sizeof_State sizeof_Block n :
  0 < sizeof_State <= STATE_SIZE -> 0 < sizeof_Block <= BLOCK_SIZE ->
  let c := Update n in
  (exists k, 3 <= k <= 9 /\ block_num_ c = 2 ^ k) /\
  (forall i, 0 <= i < block_num_ c ->
     sizeof_State <= block_offset sizeof_State sizeof_Block i /\
     block_offset sizeof_State sizeof_Block i + sizeof_Block <= buf_offset sizeof_State sizeof_Block c 0 /\
     buf_offset sizeof_State sizeof_Block c i + block_buf_size_ c <= managed_shm_size_ c /\
     (forall j, i < j < block_num_ c ->
        block_offset sizeof_State sizeof_Block i + sizeof_Block <= block_offset sizeof_State sizeof_Block j /\
        buf_offset sizeof_State sizeof_Block c i + block_buf_size_ c <= buf_offset sizeof_State sizeof_Block c j)) /\
  (n + MESSAGE_INFO_SIZE <= block_buf_size_ c <-> n <= MESSAGE_SIZE_MORE).
Proof.
  intros Hs Hb c. destruct (Update_cases n) as (k & Hk & Enum & Hceil & Ebuf & Esz & Hmin). fold c in Enum, Hceil, Ebuf, Esz, Hmin.
  pose proof (block_num_range n : 8 <= block_num_ c <= 512) as Hnum.
  split; [by exists k|].
  pose proof (fun i => buf_offset_val sizeof_State sizeof_Block n i Hs Hb) as Eoff. fold c in Eoff.
  unfold STATE_SIZE, BLOCK_SIZE, EXTRA_SIZE, MESSAGE_INFO_SIZE, MESSAGE_SIZE_16K, MESSAGE_SIZE_MORE in *.
  split; [|rewrite Ebuf; lia]. intros i Hi. unfold block_offset. rewrite !Eoff by lia. split_and!; [nia|nia|nia|].
  intros j Hj. rewrite Eoff by lia. split; nia.
Qed.

Lemma segment_layout_sound_witness :
  let c := Update 100000 in
  block_num_ c = 128 /\ buf_offset 32 32 c 127 + block_buf_size_ c <= managed_shm_size_ c.
Proof.
  cbv zeta. split; [reflexivity|].
  destruct (segment_layout_sound 32 32 100000) as (_ & Hl & _).
  - unfold STATE_SIZE. lia.
  - unfold BLOCK_SIZE. lia.
  - apply (Hl 127). change (block_num_ (Update 100000)) with 128. lia.
Defined.
