(* ===== verification/Segment.v ===== *)
(** Segment.v -- src/src/apollo/cyber/transport/shm/segment.{h,cc} and state.h

    A segment as one process sees it, over shared memory objects that other
    processes may have mapped too.  The objects live in a heap: an object that
    was removed from the key table stays usable for those who have it mapped.
    What the system calls return is an argument ([Os]); a freshly created object
    is given its state and its blocks by placement new.

    Locks are taken with the operations of block.cc, here in one step each:
    [Block] is about their interleaving.  The attempts of a block's lock at
    its compare-exchange are one try per block.  [None] is undefined behaviour: a null
    pointer or a block outside the array. *)

From S2P Require Import Prelude.
From S2P Require Import ShmConf.
Local Open Scope Z_scope.

(** State of state.h, and the lock counters of the blocks. *)
Record Shm := mkShm {
  need_remap_ : bool;
  wrote_num_ : Z;
  reference_count_ : Z;
  st_ceiling : Z;
  locks : list Z
}.

Definition IncreaseWroteNum (m : Shm) : Shm :=
  mkShm (need_remap_ m) (u32 (wrote_num_ m + 1)) (reference_count_ m) (st_ceiling m) (locks m).
Definition IncreaseReferenceCounts (m : Shm) : Shm :=
  mkShm (need_remap_ m) (wrote_num_ m) (u32 (reference_count_ m + 1)) (st_ceiling m) (locks m).
Definition DecreaseReferenceCounts (m : Shm) : Shm :=
  if reference_count_ m =? 0 then m
  else mkShm (need_remap_ m) (wrote_num_ m) (u32 (reference_count_ m - 1)) (st_ceiling m) (locks m).
Definition set_need_remap (need : bool) (m : Shm) : Shm :=
  mkShm need (wrote_num_ m) (reference_count_ m) (st_ceiling m) (locks m).
Definition with_locks (m : Shm) (l : list Z) : Shm :=
  mkShm (need_remap_ m) (wrote_num_ m) (reference_count_ m) (st_ceiling m) l.

(** TryLockForWrite and TryLockForRead without interference. *)
Definition try_write (l : list Z) (i : Z) : option (bool * list Z) :=
  match zget l i with
  | None => None
  | Some n => if n =? 0 then Some (true, zset l i (-1)) else Some (false, l)
  end.
Definition try_read (l : list Z) (i : Z) : option (bool * list Z) :=
  match zget l i with
  | None => None
  | Some n => if n <? 0 then Some (false, l) else Some (true, zset l i (n + 1))
  end.

Inductive ReadWriteMode := READ_ONLY | WRITE_ONLY.

(** The members of Segment; state_, blocks_ and managed_shm_ are set together. *)
Record Segment := mkSegment {
  init_ : bool;
  mode_ : ReadWriteMode;
  conf_ : ShmConf;
  shm_ : option nat;
  block_buf_addrs_ : gmap Z Z
}.
Definition NewSegment (mode : ReadWriteMode) : Segment := mkSegment false mode NewConf None ∅.

(** What shmget with IPC_CREAT | IPC_EXCL, shmget and shmat come to. *)
Inductive shmget_result := NewId | EINVAL | EEXIST | EOTHER.
Record Os := mkOs {
  create : nat -> shmget_result;   (* by the number of retries *)
  attach_new : bool;
  existing : option nat;           (* the object under the key *)
  attach_existing : bool
}.

Record World := mkWorld { objs : list Shm; removals : nat  (* Remove() calls *) }.

Section segment.
Variable sizeof_State sizeof_Block : Z.

(** The addresses of all buffers, as offsets. *)
Definition buf_addrs (c : ShmConf) : gmap Z Z :=
  list_to_map ((fun k => (Z.of_nat k, buf_offset sizeof_State sizeof_Block c (Z.of_nat k))) <$> seq 0 (Z.to_nat (block_num_ c))).

Definition OpenOnly (os : Os) (w : World) (s : Segment) : bool * World * Segment :=
  if init_ s then (true, w, s)
  else match existing os with
  | None => (false, w, s)
  | Some o =>
      if negb (attach_existing os) then (false, w, s)
      else match objs w !! o with
      | None => (false, w, s)
      | Some m =>
          let conf := Update (st_ceiling m) in
          (true, mkWorld (<[o := IncreaseReferenceCounts m]> (objs w)) (removals w),
           mkSegment true (mode_ s) conf (Some o) (buf_addrs conf ∪ block_buf_addrs_ s))
      end
  end.

Definition Reset (s : Segment) : Segment := mkSegment (init_ s) (mode_ s) (conf_ s) None ∅.
Definition Remove (w : World) : World := mkWorld (objs w) (S (removals w)).

(** The loop of OpenOrCreate over shmget. *)
Fixpoint create_loop (fuel : nat) (os : Os) (retry : nat) (w : World) (s : Segment)
    : shmget_result * World * Segment :=
  match fuel with
  | O => (EINVAL, w, s)
  | S fuel =>
      match create os retry with
      | EINVAL => create_loop fuel os (S retry) (Remove w) (Reset s)
      | r => (r, w, s)
      end
  end.

Definition OpenOrCreate (os : Os) (w : World) (s : Segment) : bool * World * Segment :=
  if init_ s then (true, w, s)
  else
    let '(r, w, s) := create_loop 2 os 0 w s in
    match r with
    | EEXIST => OpenOnly os w s
    | EINVAL | EOTHER => (false, w, s)
    | NewId =>
        if negb (attach_new os) then (false, w, s)
        else
          let conf := Update (ceiling_msg_size_ (conf_ s)) in
          let m := mkShm false 0 0 (ceiling_msg_size_ (conf_ s)) (replicate (Z.to_nat (block_num_ conf)) 0) in
          (true, mkWorld (objs w ++ [IncreaseReferenceCounts m]) (removals w),
           mkSegment true (mode_ s) conf (Some (length (objs w))) (buf_addrs conf ∪ block_buf_addrs_ s))
    end.

Definition Init (os : Os) (w : World) (s : Segment) : bool * World * Segment :=
  match mode_ s with READ_ONLY => OpenOnly os w s | WRITE_ONLY => OpenOrCreate os w s end.

Definition uninit (s : Segment) : Segment := mkSegment false (mode_ s) (conf_ s) (shm_ s) (block_buf_addrs_ s).

Definition Remap (os : Os) (w : World) (s : Segment) : bool * World * Segment :=
  OpenOnly os w (Reset (uninit s)).

Definition Recreate (os : Os) (w : World) (s : Segment) : option (bool * World * Segment) :=
  match shm_ s with
  | None => None
  | Some o =>
      let w := mkWorld (alter (set_need_remap true) o (objs w)) (removals w) in
      Some (OpenOrCreate os (Remove w) (Reset (uninit s)))
  end.

(** The loop of GetNextWritableBlockIndex; every try locks or moves on. *)
Fixpoint next_block (fuel : nat) (num : Z) (l : list Z) (try_idx : Z) : option (Z * list Z) :=
  match fuel with
  | O => None
  | S fuel =>
      let try_idx := if num <=? try_idx then Z.land try_idx (u32 (num - 1)) else try_idx in
      match try_write l try_idx with
      | None => None
      | Some (true, l) => Some (try_idx, l)
      | Some (false, l) => next_block fuel num l (u32 (try_idx + 1))
      end
  end.

Definition GetNextWritableBlockIndex (fuel : nat) (w : World) (s : Segment) : option (Z * World) :=
  match shm_ s with
  | None => None
  | Some o =>
      match objs w !! o with
      | None => None
      | Some m =>
          match next_block fuel (block_num_ (conf_ s)) (locks m) (wrote_num_ m) with
          | None => None
          | Some (i, l) => Some (i, mkWorld (<[o := IncreaseWroteNum (with_locks m l)]> (objs w)) (removals w))
          end
      end
  end.

(** The object a segment has mapped. *)
Definition mapped (w : World) (s : Segment) : option Shm := shm_ s ≫= fun o => objs w !! o.

(** A block handed out: its index and the offset of its buffer, or null. *)
Record Handle := mkHandle { index : Z; buf : option Z }.

Definition AcquireBlockToWrite (os1 os2 os3 : Os) (fuel : nat) (w : World) (s : Segment) (msg_size : Z)
    : option (option Handle * World * Segment) :=
  let '(ok, w, s) := if init_ s then (true, w, s) else Init os1 w s in
  if negb ok then Some (None, w, s)
  else
    match mapped w s with
    | None => None
    | Some m =>
        let '(result, w, s) := if need_remap_ m then Remap os2 w s else (true, w, s) in
        let r :=
          if ceiling_msg_size_ (conf_ s) <? msg_size then
            Recreate os3 w (mkSegment (init_ s) (mode_ s) (Update msg_size) (shm_ s) (block_buf_addrs_ s))
          else Some (result, w, s) in
        match r with
        | None => None
        | Some (false, w, s) => Some (None, w, s)
        | Some (true, w, s) =>
            match GetNextWritableBlockIndex fuel w s with
            | None => None
            | Some (i, w) => Some (Some (mkHandle i (block_buf_addrs_ s !! i)), w, s)
            end
        end
    end.

(** fetch_add on the counter of block [i] of the mapped object. *)
Definition add_lock (d : Z) (i : Z) (w : World) (s : Segment) : option World :=
  match shm_ s with
  | None => None
  | Some o =>
      match objs w !! o with
      | None => None
      | Some m =>
          match zget (locks m) i with
          | None => None
          | Some n => Some (mkWorld (<[o := with_locks m (zset (locks m) i (i32 (n + d)))]> (objs w)) (removals w))
          end
      end
  end.

Definition ReleaseWrittenBlock (w : World) (s : Segment) (i : Z) : option World :=
  if block_num_ (conf_ s) <=? i then Some w else add_lock 1 i w s.

Definition AcquireBlockToRead (os1 os2 : Os) (w : World) (s : Segment) (i : Z)
    : option (option Handle * World * Segment) :=
  let '(ok, w, s) := if init_ s then (true, w, s) else Init os1 w s in
  if negb ok then Some (None, w, s)
  else if block_num_ (conf_ s) <=? i then Some (None, w, s)
  else
    match mapped w s with
    | None => None
    | Some m =>
        let '(result, w, s) := if need_remap_ m then Remap os2 w s else (true, w, s) in
        if negb result then Some (None, w, s)
        else
          match shm_ s with
          | None => None
          | Some o =>
              match objs w !! o with
              | None => None
              | Some m =>
                  match try_read (locks m) i with
                  | None => None
                  | Some (false, _) => Some (None, w, s)
                  | Some (true, l) =>
                      Some (Some (mkHandle i (block_buf_addrs_ s !! i)),
                            mkWorld (<[o := with_locks m l]> (objs w)) (removals w), s)
                  end
              end
          end
    end.

Definition ReleaseReadBlock (w : World) (s : Segment) (i : Z) : option World :=
  if block_num_ (conf_ s) <=? i then Some w else add_lock (-1) i w s.

Definition Destroy (w : World) (s : Segment) : option (World * Segment) :=
  if negb (init_ s) then Some (w, s)
  else
    let s := uninit s in
    match shm_ s with
    | None => None
    | Some o =>
        match objs w !! o with
        | None => None
        | Some m =>
            let m := DecreaseReferenceCounts m in
            let w := mkWorld (<[o := m]> (objs w)) (removals w) in
            Some (if reference_count_ m =? 0 then Remove w else w, s)
        end
    end.
End segment.

(** ** Looking for a free block *)

Lemma mask_mod num k x : num = 2 ^ k -> 0 <= k <= 31 -> 0 <= x ->
  (if num <=? x then Z.land x (u32 (num - 1)) else x) = x mod num.
Proof.
  intros -> Hk Hx. assert (2 ^ k <= 2 ^ 31) by (apply Z.pow_le_mono_r; lia).
  assert (0 < 2 ^ k) by (apply Z.pow_pos_nonneg; lia).
  rewrite u32_small by (unfold is_u32; lia). replace (2 ^ k - 1) with (Z.ones k) by (rewrite Z.ones_equiv; lia).
  destruct (Z.leb_spec (2 ^ k) x); [by apply Z.land_ones; lia|by rewrite Z.mod_small].
Qed.

(** From position [j] the search takes the first free block in cyclic order. *)
Lemma next_block_first num k l t : forall fuel j,
  num = 2 ^ k -> 0 <= k <= 31 -> zlen l = num -> 0 <= j -> (t < fuel)%nat ->
  zget l ((j + Z.of_nat t) mod num) = Some 0 ->
  (forall t', (t' < t)%nat -> zget l ((j + Z.of_nat t') mod num) <> Some 0) ->
  next_block fuel num l j =
    Some ((j + Z.of_nat t) mod num, zset l ((j + Z.of_nat t) mod num) (-1)).
Proof.
  induction t as [|t IH]; intros fuel j En Hk Hl Hj Hf Hfree Hbusy; (destruct fuel as [|fuel]; [lia|]);
    cbn [next_block]; rewrite (mask_mod num k) by done; unfold try_write.
  - rewrite Z.add_0_r in *. by rewrite Hfree.
  - assert (0 < num <= 2 ^ 31) as Hnum.
    { subst num. split; [apply Z.pow_pos_nonneg; lia|apply Z.pow_le_mono_r; lia]. }
    pose proof (Z.mod_pos_bound j num ltac:(lia)) as Hm.
    pose proof (Hbusy 0%nat ltac:(lia)) as Hb. rewrite Z.add_0_r in Hb.
    destruct (proj1 (zget_Some l (j mod num)) ltac:(lia)) as [n Hn]. rewrite Hn in Hb |- *.
    destruct (Z.eqb_spec n 0) as [->|_]; [done|]. rewrite u32_small by (unfold is_u32; lia).
    assert (forall i, (j mod num + 1 + i) mod num = (j + (1 + i)) mod num) as Eshift.
    { intros i. rewrite <- Z.add_assoc. apply Zplus_mod_idemp_l. }
    replace (Z.of_nat (S t)) with (1 + Z.of_nat t) in * by lia. rewrite <- Eshift in Hfree |- *.
    apply (IH fuel (j mod num + 1)); try done; [lia|lia|]. intros t' Ht'. rewrite Eshift.
    replace (1 + Z.of_nat t') with (Z.of_nat (S t')) by lia. apply Hbusy. lia.
Qed.

(** Only a free block is handed out. *)
Lemma next_block_free num fuel : forall l j i l', next_block fuel num l j = Some (i, l') -> zget l i = Some 0.
Proof.
  induction fuel as [|fuel IH]; intros l j i l' E; [done|]. cbn [next_block] in E. unfold try_write in E.
  destruct (zget l _) as [n|] eqn:Hn; [|done]. destruct (Z.eqb_spec n 0) as [->|_]; [by injection E as <- <-|by eapply IH].
Qed.

Lemma writable_was_free fuel w s o m i w' :
  GetNextWritableBlockIndex fuel w s = Some (i, w') -> shm_ s = Some o -> objs w !! o = Some m -> zget (locks m) i = Some 0.
Proof.
  unfold GetNextWritableBlockIndex. intros E Hs Ho. rewrite Hs, Ho in E.
  destruct (next_block _ _ _ _) as [[? ?]|] eqn:En; [|done]. injection E as -> _. by eapply next_block_free.
Qed.

(** Undoing an update. *)
Lemma zset_back {A} (l : list A) i x y : zget l i = Some x -> zset (zset l i y) i x = l.
Proof.
  unfold zget, zset. destruct (Z.leb_spec 0 i); [|done]. intros E. rewrite list_insert_insert_eq. by apply list_insert_id.
Qed.

(** When a block is free the search finds one within one round. *)
Lemma next_block_total num k l j : num = 2 ^ k -> 0 <= k <= 31 -> zlen l = num -> 0 <= j ->
  (exists i, zget l i = Some 0) ->
  exists t, (t < Z.to_nat num)%nat /\ zget l ((j + Z.of_nat t) mod num) = Some 0 /\
    (forall t', (t' < t)%nat -> zget l ((j + Z.of_nat t') mod num) <> Some 0).
Proof.
  intros En Hk Hl Hj [i Hi]. assert (0 < num) as Hnum by (subst num; apply Z.pow_pos_nonneg; lia).
  assert (0 <= i < num) as Hin by (rewrite <- Hl; apply zget_Some; by eexists).
  set (P := fun t : nat => zget l ((j + Z.of_nat t) mod num) = Some 0).
  assert (P (Z.to_nat ((i - j) mod num))) as HP.
  { unfold P. pose proof (Z.mod_pos_bound (i - j) num ltac:(lia)). rewrite Z2Nat.id by lia.
    rewrite Zplus_mod_idemp_r. replace (j + (i - j)) with i by lia. by rewrite Z.mod_small. }
  assert (Z.to_nat ((i - j) mod num) < Z.to_nat num)%nat as Hlt.
  { pose proof (Z.mod_pos_bound (i - j) num ltac:(lia)). lia. }
  assert (forall n, P n -> exists t, (t <= n)%nat /\ P t /\ forall t', (t' < t)%nat -> ~ P t') as Hleast.
  { intros n. induction n as [n IHn] using lt_wf_ind. intros Hn.
    destruct (decide (Exists P (seq 0 n))) as [Hex|Hno].
    - apply Exists_exists in Hex as (m & Hm%elem_of_seq & HPm). destruct (IHn m ltac:(lia) HPm) as (t & Ht & Hpt & Hmin).
      exists t. split; [lia|done].
    - exists n. split; [lia|]. split; [done|]. intros t' Ht' HPt. apply Hno, Exists_exists. exists t'.
      split; [apply elem_of_seq; lia|done]. }
  destruct (Hleast _ HP) as (t & Ht & HPt & Hmin). exists t. split; [lia|]. split; [exact HPt|exact Hmin].
Qed.

(** ** Segments *)

Section laws.
Variable sizeof_State sizeof_Block : Z.
Notation buf_addrs := (buf_addrs sizeof_State sizeof_Block).

(** The size classes. *)
Definition is_ceiling (n : Z) : Prop := ceiling_msg_size_ (Update n) = n.

Lemma ceiling_values n :
  GetCeilingMessageSize n ∈ [MESSAGE_SIZE_16K; MESSAGE_SIZE_128K; MESSAGE_SIZE_1M; MESSAGE_SIZE_8M; MESSAGE_SIZE_16M; MESSAGE_SIZE_MORE].
Proof.
  unfold GetCeilingMessageSize. repeat (destruct (Z.leb n _); [by repeat constructor|]). by repeat constructor.
Qed.

Lemma ceiling_idem n : is_ceiling (ceiling_msg_size_ (Update n)).
Proof.
  unfold is_ceiling. change (GetCeilingMessageSize (GetCeilingMessageSize n) = GetCeilingMessageSize n).
  pose proof (ceiling_values n) as Hv. rewrite !elem_of_cons in Hv.
  destruct Hv as [->|[->|[->|[->|[->|[->|Hn]]]]]]; try reflexivity. by apply elem_of_nil in Hn.
Qed.

(** A segment that is mapped: its configuration, its buffer addresses and the
    array of blocks fit the object. *)
Record seg_ok (w : World) (s : Segment) (o : nat) (m : Shm) : Prop := mkSegOk {
  sg_init : init_ s = true;
  sg_shm : shm_ s = Some o;
  sg_obj : objs w !! o = Some m;
  sg_conf : conf_ s = Update (st_ceiling m);
  sg_ceiling : is_ceiling (st_ceiling m);
  sg_locks : zlen (locks m) = block_num_ (conf_ s);
  sg_wrote : is_u32 (wrote_num_ m);
  sg_bufs : forall i, 0 <= i < block_num_ (conf_ s) -> block_buf_addrs_ s !! i = Some (buf_offset sizeof_State sizeof_Block (conf_ s) i)
}.

Lemma buf_addrs_at c i : 0 <= i < block_num_ c -> buf_addrs c !! i = Some (buf_offset sizeof_State sizeof_Block c i).
Proof.
  intros Hi. unfold Segment.buf_addrs. apply elem_of_list_to_map_1.
  - rewrite <- list_fmap_compose. apply NoDup_fmap_2_strong; [|apply NoDup_seq]. intros x y _ _ E. simpl in E. lia.
  - apply list_elem_of_fmap. exists (Z.to_nat i). split; [f_equal; [lia|f_equal; lia]|]. apply elem_of_seq. lia.
Qed.

(** Taking a block of a mapped segment. *)
Lemma GetNextWritableBlockIndex_spec w s o m fuel :
  seg_ok w s o m -> (exists i, zget (locks m) i = Some 0) -> (Z.to_nat (block_num_ (conf_ s)) <= fuel)%nat ->
  exists i m', GetNextWritableBlockIndex fuel w s = Some (i, mkWorld (<[o := m']> (objs w)) (removals w)) /\
    0 <= i < block_num_ (conf_ s) /\ zget (locks m) i = Some 0 /\ locks m' = zset (locks m) i (-1) /\
    seg_ok (mkWorld (<[o := m']> (objs w)) (removals w)) s o m' /\ need_remap_ m' = need_remap_ m.
Proof.
  intros [Hi Hs Ho Hc Hceil Hl Hw Hb] Hfree Hfuel. unfold GetNextWritableBlockIndex. rewrite Hs, Ho.
  destruct (Update_cases (st_ceiling m)) as (k & Hk & Enum & _). rewrite <- Hc in Enum.
  destruct (next_block_total _ k (locks m) (wrote_num_ m) Enum ltac:(lia) Hl ltac:(destruct Hw; lia) Hfree) as (t & Ht & Hf & Hb').
  assert (0 < block_num_ (conf_ s)) as Hpos by (rewrite Enum; apply Z.pow_pos_nonneg; lia).
  rewrite (next_block_first _ k (locks m) t fuel (wrote_num_ m) Enum ltac:(lia) Hl ltac:(destruct Hw; lia) ltac:(lia) Hf Hb').
  set (i := (wrote_num_ m + Z.of_nat t) mod block_num_ (conf_ s)) in *.
  eexists i, _. split; [done|]. split; [by apply Z.mod_pos_bound|]. split; [done|]. split; [done|]. split; [|done].
  constructor; simpl; try done.
  - apply list_lookup_insert_eq. by eapply lookup_lt_Some.
  - by rewrite zlen_zset.
  - apply u32_range.
Qed.

(** A new object, just created. *)
Lemma OpenOrCreate_new os w s :
  init_ s = false -> create os 0 = NewId -> attach_new os = true -> is_ceiling (ceiling_msg_size_ (conf_ s)) ->
  exists m s', OpenOrCreate sizeof_State sizeof_Block os w s = (true, mkWorld (objs w ++ [m]) (removals w), s') /\
    seg_ok (mkWorld (objs w ++ [m]) (removals w)) s' (length (objs w)) m /\ need_remap_ m = false /\
    conf_ s' = Update (ceiling_msg_size_ (conf_ s)) /\ zget (locks m) 0 = Some 0.
Proof.
  intros Hi Hc Ha Hceil. unfold OpenOrCreate. rewrite Hi. cbn [create_loop]. rewrite Hc, Ha. simpl.
  destruct (Update_cases (ceiling_msg_size_ (conf_ s))) as (k & Hk & Enum & _).
  assert (0 < block_num_ (Update (ceiling_msg_size_ (conf_ s)))) as Hpos by (rewrite Enum; apply Z.pow_pos_nonneg; lia).
  eexists _, _. split; [reflexivity|]. split; [|split; [done|]; split; [done|]].
  - constructor; simpl; try done.
    + rewrite lookup_app_r by lia. by rewrite Nat.sub_diag.
    + unfold zlen. rewrite length_replicate. simpl in *. lia.
    + intros i Hin. apply lookup_union_Some_l. by apply buf_addrs_at.
  - unfold zget. simpl. apply lookup_replicate. simpl in *. split; [done|lia].
Qed.

(** Taking a block for a message of the segment's class. *)
Lemma AcquireBlockToWrite_fits os1 os2 os3 fuel w s o m msg_size :
  seg_ok w s o m -> need_remap_ m = false -> (exists i, zget (locks m) i = Some 0) ->
  (512 <= fuel)%nat -> msg_size <= ceiling_msg_size_ (conf_ s) ->
  exists i m', AcquireBlockToWrite sizeof_State sizeof_Block os1 os2 os3 fuel w s msg_size =
      Some (Some (mkHandle i (Some (buf_offset sizeof_State sizeof_Block (conf_ s) i))),
            mkWorld (<[o := m']> (objs w)) (removals w), s) /\
    0 <= i < block_num_ (conf_ s) /\ zget (locks m) i = Some 0 /\ locks m' = zset (locks m) i (-1) /\
    seg_ok (mkWorld (<[o := m']> (objs w)) (removals w)) s o m' /\ need_remap_ m' = false.
Proof.
  intros Hok Hnr Hfree Hfuel Hfits. pose proof Hok as [Hi Hs Ho Hc Hceil Hl Hw Hb].
  unfold AcquireBlockToWrite, mapped. rewrite Hi. cbn [negb]. rewrite Hs. cbn [mbind option_bind]. rewrite Ho, Hnr.
  destruct (Z.ltb_spec (ceiling_msg_size_ (conf_ s)) msg_size) as [|_]; [lia|].
  assert (Z.to_nat (block_num_ (conf_ s)) <= fuel)%nat as Hf.
  { rewrite Hc. pose proof (block_num_range (st_ceiling m)). lia. }
  destruct (GetNextWritableBlockIndex_spec _ _ _ _ fuel Hok Hfree Hf) as (i & m' & -> & Hin & Hfr & Hlk & Hok' & Hn).
  exists i, m'. rewrite Hb by done. split; [reflexivity|]. by rewrite Hn.
Qed.

(** Taking a block that no writer has, and giving it back. *)
Lemma AcquireBlockToRead_fits os1 os2 w s o m i n :
  seg_ok w s o m -> need_remap_ m = false -> zget (locks m) i = Some n -> 0 <= n < 2 ^ 31 - 1 ->
  let m' := with_locks m (zset (locks m) i (n + 1)) in
  let w' := mkWorld (<[o := m']> (objs w)) (removals w) in
  AcquireBlockToRead sizeof_State sizeof_Block os1 os2 w s i =
    Some (Some (mkHandle i (Some (buf_offset sizeof_State sizeof_Block (conf_ s) i))), w', s) /\
  objs w' !! o = Some m' /\ zget (locks m') i = Some (n + 1) /\ seg_ok w' s o m' /\ ReleaseReadBlock w' s i = Some w.
Proof.
  intros Hok Hnr Hn Hrange. pose proof Hok as [Hi Hs Ho Hc Hceil Hl Hw Hb].
  assert (0 <= i < block_num_ (conf_ s)) as Hin by (rewrite <- Hl; apply zget_Some; by eexists).
  intros m' w'.
  assert (objs w' !! o = Some m') as Ho' by (apply list_lookup_insert_eq; by eapply lookup_lt_Some).
  assert (zget (locks m') i = Some (n + 1)) as Hn' by (apply zget_zset_eq, zget_Some; by eexists).
  split_and!; try done.
  - unfold AcquireBlockToRead, mapped, try_read. rewrite Hi. cbn [negb].
    destruct (Z.leb_spec (block_num_ (conf_ s)) i); [lia|]. rewrite Hs. cbn [mbind option_bind]. rewrite Ho, Hnr. cbn [negb].
    rewrite Hs, Ho, Hn. destruct (Z.ltb_spec n 0); [lia|]. by rewrite Hb.
  - constructor; try done. change (zlen (zset (locks m) i (n + 1)) = block_num_ (conf_ s)). by rewrite zlen_zset.
  - unfold ReleaseReadBlock, add_lock. destruct (Z.leb_spec (block_num_ (conf_ s)) i); [lia|].
    rewrite Hs, Ho', Hn', i32_small by (unfold is_i32; lia). subst w' m'. simpl.
    replace (n + 1 + -1) with n by lia. rewrite zset_back, list_insert_insert_eq by done.
    rewrite list_insert_id; [by destruct w|]. rewrite Ho. by destruct m.
Qed.
End laws.

(** A writer gets room for its message: on a mapped segment with a free
    block, AcquireBlockToWrite for a message of at most 32 MiB terminates and
    hands out a block that was free and is now write-locked, with the buffer of
    that block, large enough for the message and its information.  When the
    message does not fit the size class of the segment, a new segment is created
    and the old one is flagged for its readers to remap. *)
Theorem writer_gets_room sizeof_State sizeof_Block os1 os2 os3 fuel w s o m msg_size :
  seg_ok sizeof_State sizeof_Block w s o m -> need_remap_ m = false -> (exists i, zget (locks m) i = Some 0) ->
  (512 <= fuel)%nat -> msg_size <= MESSAGE_SIZE_MORE -> create os3 0 = NewId -> attach_new os3 = true ->
  exists h w' s' o' m',
    AcquireBlockToWrite sizeof_State sizeof_Block os1 os2 os3 fuel w s msg_size = Some (Some h, w', s') /\
    seg_ok sizeof_State sizeof_Block w' s' o' m' /\ 0 <= index h < block_num_ (conf_ s') /\
    zget (locks m') (index h) = Some (-1) /\
    buf h = Some (buf_offset sizeof_State sizeof_Block (conf_ s') (index h)) /\
    msg_size + MESSAGE_INFO_SIZE <= block_buf_size_ (conf_ s') /\
    (if ceiling_msg_size_ (conf_ s) <? msg_size
     then objs w' !! o = Some (set_need_remap true m)
     else o' = o /\ zget (locks m) (index h) = Some 0).
Proof.
  intros Hok Hnr Hfree Hfuel Hsz Hcr Hat. pose proof Hok as [Hi Hs Ho Hc Hceil Hl Hw Hb].
  destruct (Z.ltb_spec (ceiling_msg_size_ (conf_ s)) msg_size) as [Hbig|Hfits].
  - unfold AcquireBlockToWrite, mapped. rewrite Hi. cbn [negb]. rewrite Hs. simpl. rewrite Ho, Hnr.
    destruct (Z.ltb_spec (ceiling_msg_size_ (conf_ s)) msg_size) as [_|]; [|lia]. unfold Recreate. simpl. rewrite Hs. set (s1 := Reset _). set (w1 := Remove _).
    destruct (OpenOrCreate_new sizeof_State sizeof_Block os3 w1 s1 eq_refl Hcr Hat (ceiling_idem msg_size))
      as (m1 & s' & -> & Hok1 & _ & Econf & Hf1).
    destruct (Update_cases (ceiling_msg_size_ (conf_ s1))) as (k & Hk & Enum & _ & Ebuf & _). rewrite <- Econf in Enum, Ebuf.
    assert (2 ^ k <= 2 ^ 9) by (apply Z.pow_le_mono_r; lia).
    destruct (GetNextWritableBlockIndex_spec _ _ _ _ _ _ fuel Hok1 (ex_intro _ 0 Hf1) ltac:(lia))
      as (i & m' & -> & Hin & Hfr & Hlk & Hok' & _).
    eexists _, _, s', _, m'. split; [reflexivity|]. simpl. split; [exact Hok'|]. split; [done|].
    split; [rewrite Hlk; apply zget_zset_eq; apply zget_Some; by eexists|].
    split; [by apply (sg_bufs _ _ _ _ _ _ Hok')|]. split.
    + rewrite Ebuf. destruct (Update_cases msg_size) as (_ & _ & _ & _ & _ & _ & Hmin).
      pose proof (ceiling_idem msg_size) as Ei. unfold is_ceiling in Ei.
      rewrite Econf. change (conf_ s1) with (Update msg_size). rewrite Ei. lia.
    + rewrite list_lookup_insert_ne by (intros E; apply lookup_lt_Some in Ho; simpl in E; rewrite length_alter in E; lia).
      rewrite lookup_app_l by (rewrite length_alter; by eapply lookup_lt_Some).
      rewrite list_lookup_alter_eq, Ho. done.
  - destruct (AcquireBlockToWrite_fits _ _ os1 os2 os3 fuel w s o m msg_size Hok Hnr Hfree Hfuel Hfits)
      as (i & m' & E & Hin & Hfr & Hlk & Hok' & _).
    eexists _, _, s, o, m'. split; [exact E|]. cbn [index buf]. split; [exact Hok'|]. split; [done|].
    split; [rewrite Hlk; apply zget_zset_eq; apply zget_Some; by eexists|].
    split; [done|]. split; [|done].
    destruct (Update_cases (st_ceiling m)) as (_ & _ & _ & _ & Ebuf & _). rewrite <- Hc in Ebuf. lia.
Qed.

(** A segment of the smallest class with one block taken. *)
Definition some_world : World :=
  mkWorld [mkShm false 1 1 MESSAGE_SIZE_16K ((-1) :: replicate 511 0)] 0.
Definition some_segment : Segment :=
  mkSegment true WRITE_ONLY NewConf (Some 0%nat) (buf_addrs 32 32 NewConf).
Definition some_os : Os := mkOs (fun _ => NewId) true (Some 0%nat) true.

Lemma some_segment_ok :
  seg_ok 32 32 some_world some_segment 0 (mkShm false 1 1 MESSAGE_SIZE_16K ((-1) :: replicate 511 0)).
Proof.
  constructor; try reflexivity.
  - unfold is_u32. simpl. lia.
  - intros i Hi. by apply buf_addrs_at.
Qed.

Lemma writer_gets_room_witness :
  exists h w' s', AcquireBlockToWrite 32 32 some_os some_os some_os 512 some_world some_segment 1000000 = Some (Some h, w', s') /\
    1000000 + MESSAGE_INFO_SIZE <= block_buf_size_ (conf_ s') /\ need_remap_ <$> objs w' !! 0%nat = Some true.
Proof.
  destruct (writer_gets_room 32 32 some_os some_os some_os 512 some_world some_segment 0 _ 1000000 some_segment_ok)
    as (h & w' & s' & o' & m' & E & _ & _ & _ & _ & Hroom & Hold);
    [reflexivity|by exists 1|lia|unfold MESSAGE_SIZE_MORE; lia|reflexivity|reflexivity|].
  exists h, w', s'. split; [exact E|]. split; [exact Hroom|].
  change (ceiling_msg_size_ (conf_ some_segment) <? 1000000) with true in Hold. by rewrite Hold.
Defined.

(** A reader of a mapped segment, when no remapping is due and no writer is in
    the block, gets the block and its buffer with one reader more counted on it;
    while it reads, no writer is given the block; and releasing it puts the
    memory back as it was. *)
Theorem reader_gets_block sizeof_State sizeof_Block os1 os2 w s o m i n :
  seg_ok sizeof_State sizeof_Block w s o m -> need_remap_ m = false ->
  zget (locks m) i = Some n -> 0 <= n < 2 ^ 31 - 1 ->
  exists w' m',
    AcquireBlockToRead sizeof_State sizeof_Block os1 os2 w s i =
      Some (Some (mkHandle i (Some (buf_offset sizeof_State sizeof_Block (conf_ s) i))), w', s) /\
    seg_ok sizeof_State sizeof_Block w' s o m' /\ zget (locks m') i = Some (n + 1) /\
    (forall fuel j w'', GetNextWritableBlockIndex fuel w' s = Some (j, w'') -> j <> i) /\
    ReleaseReadBlock w' s i = Some w.
Proof.
  intros Hok Hnr Hn Hrange.
  destruct (AcquireBlockToRead_fits _ _ os1 os2 w s o m i n Hok Hnr Hn Hrange) as (E & Ho' & Hn' & Hok' & Hr).
  eexists _, _. split; [exact E|]. split; [exact Hok'|]. split; [exact Hn'|]. split; [|exact Hr].
  intros fuel j w'' Ej ->. pose proof (writable_was_free _ _ _ _ _ _ _ Ej (sg_shm _ _ _ _ _ _ Hok) Ho') as Hf.
  rewrite Hn' in Hf. injection Hf. lia.
Qed.

Lemma reader_gets_block_witness :
  exists w' m', AcquireBlockToRead 32 32 some_os some_os some_world some_segment 7 =
    Some (Some (mkHandle 7 (Some (buf_offset 32 32 NewConf 7))), w', some_segment) /\
    zget (locks m') 7 = Some 1 /\ ReleaseReadBlock w' some_segment 7 = Some some_world.
Proof.
  destruct (reader_gets_block 32 32 some_os some_os some_world some_segment 0 _ 7 0 some_segment_ok)
    as (w' & m' & E & _ & Hn & _ & Hr); [reflexivity|reflexivity|lia|].
  exists w', m'. split; [exact E|]. split; [exact Hn|exact Hr].
Defined.

(** A reader that still maps the old object while the key leads to one of the
    8 MiB class, with 32 blocks. *)
Definition replaced_world : World :=
  mkWorld [mkShm true 201 1 MESSAGE_SIZE_16K (replicate 512 0);
           mkShm false 0 1 MESSAGE_SIZE_8M (replicate 32 0)] 1.
Definition replaced_os : Os := mkOs (fun _ => EEXIST) true (Some 1%nat) true.

(** A reader can go out of the array of blocks: AcquireBlockToRead checks the
    index against the configuration it had before remapping.  A reader told of
    block 200 of a segment with 512 blocks remaps to the segment of 32 blocks that
    replaced it and then accesses block 200 of that one, whereas a reader that
    had remapped before is refused. *)
Theorem stale_index_escapes :
  let s := mkSegment true READ_ONLY NewConf (Some 0%nat) (buf_addrs 32 32 NewConf) in
  AcquireBlockToRead 32 32 replaced_os replaced_os replaced_world s 200 = None /\
  (let '(ok, w, s) := Remap 32 32 replaced_os replaced_world s in
   ok = true /\ AcquireBlockToRead 32 32 replaced_os replaced_os w s 200 = Some (None, w, s)).
Proof. split; [vm_compute; reflexivity|]. vm_compute. by split. Qed.
