(* ===== verification/ConditionNotifier.v ===== *)
(** ConditionNotifier.v -- src/src/apollo/cyber/transport/shm/condition_notifier.{h,cc}

    The ring in shared memory through which writers of any process announce
    blocks that can be read.  Notify and Listen are modelled twice: as functions,
    when nothing interferes, and as a step relation with one step per access to
    the shared memory, for any number of notifying threads and one listener
    (a listener changes nothing that others see).  The ghost [log] lists what was
    announced, in the order of the sequence numbers.

    Creating and mapping the memory is the same code as in segment.cc and is not
    repeated here. *)

From S2P Require Import Prelude.
Local Open Scope Z_scope.

Definition kBufLength : Z := 4096.

Section notifier.
Context {I : Type}.

(** What a notifying thread does next in Notify. *)
Inductive wpc := WIdle | WInfo (seq : Z) (x : I) | WSeq (seq : Z).
(** What the listener does next in Listen. *)
Inductive lpc := LLoad | LTest (seq : Z) | LRead.

(** Indicator, the listener's next_seq_ ([pos]), and what Listen has returned. *)
Record Notifier := mkN {
  next_seq : Z;
  infos : list I;
  seqs : list Z;
  writers : list wpc;
  pc : lpc;
  pos : Z;
  got : list I;
  log : list I
}.

Definition slot (s : Z) : Z := s mod kBufLength.

Inductive step (n : Notifier) : Notifier -> Prop :=
(* Notify *)
| n_fetch i x : writers n !! i = Some WIdle ->
    step n (mkN (u64 (next_seq n + 1)) (infos n) (seqs n) (<[i := WInfo (next_seq n) x]> (writers n))
              (pc n) (pos n) (got n) (log n ++ [x]))
| n_info i s x : writers n !! i = Some (WInfo s x) ->
    step n (mkN (next_seq n) (zset (infos n) (slot s) x) (seqs n) (<[i := WSeq s]> (writers n))
              (pc n) (pos n) (got n) (log n))
| n_seq i s : writers n !! i = Some (WSeq s) ->
    step n (mkN (next_seq n) (infos n) (zset (seqs n) (slot s) s) (<[i := WIdle]> (writers n))
              (pc n) (pos n) (got n) (log n))
(* Listen; a call that times out is followed by the next one *)
| l_load : pc n = LLoad ->
    step n (mkN (next_seq n) (infos n) (seqs n) (writers n) (LTest (next_seq n)) (pos n) (got n) (log n))
| l_nothing s : pc n = LTest s -> s = pos n ->
    step n (mkN (next_seq n) (infos n) (seqs n) (writers n) LLoad (pos n) (got n) (log n))
| l_writing s : pc n = LTest s -> s <> pos n -> zget (seqs n) (slot (pos n)) <> Some (pos n) ->
    step n (mkN (next_seq n) (infos n) (seqs n) (writers n) LLoad (pos n) (got n) (log n))
| l_ready s : pc n = LTest s -> s <> pos n -> zget (seqs n) (slot (pos n)) = Some (pos n) ->
    step n (mkN (next_seq n) (infos n) (seqs n) (writers n) LRead (pos n) (got n) (log n))
| l_read x : pc n = LRead -> zget (infos n) (slot (pos n)) = Some x ->
    step n (mkN (next_seq n) (infos n) (seqs n) (writers n) LLoad (u64 (pos n + 1)) (got n ++ [x]) (log n)).

(** ** The functions, without interference *)

Record Mem := mkMem { m_next_seq : Z; m_infos : list I; m_seqs : list Z }.

Definition Notify (is_shutdown : bool) (m : Mem) (info : I) : bool * Mem :=
  if is_shutdown then (false, m)
  else
    let seq := m_next_seq m in
    let idx := slot seq in
    (true, mkMem (u64 (seq + 1)) (zset (m_infos m) idx info) (zset (m_seqs m) idx seq)).

(** The loop of Listen.  [fuel] is one more than the number of sleeps. *)
Fixpoint listen_loop (fuel : nat) (m : Mem) (next_seq_ : Z) (timeout_us : Z) : option I * Z :=
  match fuel with
  | O => (None, next_seq_)
  | S fuel =>
      let again := if 0 <? timeout_us then listen_loop fuel m next_seq_ (timeout_us - 50) else (None, next_seq_) in
      if m_next_seq m =? next_seq_ then again
      else match zget (m_seqs m) (slot next_seq_) with
      | Some s => if s =? next_seq_ then (zget (m_infos m) (slot next_seq_), u64 (next_seq_ + 1)) else again
      | None => again
      end
  end.
Definition Listen (is_shutdown : bool) (m : Mem) (next_seq_ : Z) (timeout_ms : Z) : option I * Z :=
  if is_shutdown then (None, next_seq_)
  else let timeout_us := i32 (timeout_ms * 1000) in
       listen_loop (S (Z.to_nat ((timeout_us + 49) / 50))) m next_seq_ timeout_us.

Definition mem (n : Notifier) : Mem := mkMem (next_seq n) (infos n) (seqs n).

(** Notify is the run of its three steps. *)
Lemma Notify_steps n i x m : writers n !! i = Some WIdle -> Notify false (mem n) x = (true, m) ->
  rtc step n (mkN (m_next_seq m) (m_infos m) (m_seqs m) (writers n) (pc n) (pos n) (got n) (log n ++ [x])).
Proof.
  intros Hi [= <-]. assert (i < length (writers n))%nat as Hlt by (by eapply lookup_lt_Some).
  eapply rtc_l; [by apply (n_fetch _ i x)|].
  eapply rtc_l; [apply (n_info _ i (next_seq n) x); by apply list_lookup_insert_eq|]. simpl.
  eapply rtc_l; [apply (n_seq _ i (next_seq n)); apply list_lookup_insert_eq; by rewrite length_insert|]. simpl.
  rewrite !list_insert_insert_eq, (list_insert_id _ i) by done. apply rtc_refl.
Qed.

(** ** Invariant *)

Definition seq_of (w : wpc) : option Z :=
  match w with WIdle => None | WInfo s _ => Some s | WSeq s => Some s end.

(** The listener is never a whole buffer behind, and the counter does not wrap. *)
Definition in_reach (n : Notifier) : Prop := next_seq n - pos n <= kBufLength /\ next_seq n < 2 ^ 64 - 1.
Definition near_step (n n' : Notifier) : Prop := step n n' /\ in_reach n /\ in_reach n'.

(** What a thread in the middle of Notify has still to do. *)
Definition pending (base : Z) (n : Notifier) (w : wpc) : Prop :=
  match w with
  | WIdle => True
  | WInfo s x => zget (log n) (s - base) = Some x
  | WSeq s => zget (infos n) (slot s) = zget (log n) (s - base)
  end.

Record inv (base : Z) (n : Notifier) : Prop := mkInv {
  iv_infos : zlen (infos n) = kBufLength;
  iv_seqs_len : zlen (seqs n) = kBufLength;
  iv_range : 0 <= base <= pos n /\ pos n <= next_seq n;
  iv_log : zlen (log n) = next_seq n - base;
  iv_seqs : forall j s, zget (seqs n) j = Some s -> s < next_seq n;
  iv_fly : forall i w s, writers n !! i = Some w -> seq_of w = Some s ->
    pos n <= s < next_seq n /\ zget (seqs n) (slot s) <> Some s /\ pending base n w;
  iv_uniq : forall i j w w' s, writers n !! i = Some w -> writers n !! j = Some w' ->
    seq_of w = Some s -> seq_of w' = Some s -> i = j;
  iv_done : forall s, pos n <= s < next_seq n ->
    zget (seqs n) (slot s) = Some s /\ zget (infos n) (slot s) = zget (log n) (s - base) \/
    exists i w, writers n !! i = Some w /\ seq_of w = Some s;
  iv_got : got n = take (Z.to_nat (pos n - base)) (log n);
  iv_pc : pc n = LRead -> zget (seqs n) (slot (pos n)) = Some (pos n)
}.

Lemma slot_in_ring s : 0 <= slot s < kBufLength.
Proof. apply Z.mod_pos_bound. unfold kBufLength. lia. Qed.

Lemma slot_ne s s' : s <> s' -> - kBufLength < s - s' < kBufLength -> slot s <> slot s'.
Proof. apply mod_ne_near. unfold kBufLength. lia. Qed.

Lemma inv_fetch base n i x :
  inv base n -> in_reach n -> writers n !! i = Some WIdle ->
  inv base (mkN (u64 (next_seq n + 1)) (infos n) (seqs n) (<[i := WInfo (next_seq n) x]> (writers n))
              (pc n) (pos n) (got n) (log n ++ [x])).
Proof.
  intros [Hi Hl Hr Hlog Hsq Hf Hu Hd Hg Hp] [_ Hb] Hw. rewrite u64_small by (unfold is_u64; lia).
  assert (forall s, s < next_seq n -> base <= s -> zget (log n ++ [x]) (s - base) = zget (log n) (s - base)) as Hold.
  { intros s Hs Hs'. apply zget_app_l. lia. }
  constructor; simpl; try done; [lia|rewrite zlen_app; unfold zlen in *; simpl; lia| | | | |].
  - intros j s E. specialize (Hsq _ _ E). lia.
  - intros j w s Hj Hs. apply list_lookup_insert_Some in Hj as [(-> & <- & _)|[Hne Hj]].
    + injection Hs as <-. split; [lia|]. split; [intros E; specialize (Hsq _ _ E); lia|]. simpl.
      rewrite zget_app_r by lia. by replace (next_seq n - base - zlen (log n)) with 0 by lia.
    + destruct (Hf _ _ _ Hj Hs) as (Hin & Hn & Hpe). split; [lia|]. split; [done|].
      destruct w as [|s' y|s']; simpl in *; try done; injection Hs as ->; rewrite Hold by lia; done.
  - intros j k w w' s Hj Hk Es Es'.
    apply list_lookup_insert_Some in Hj as [(-> & <- & _)|[Hne Hj]]; apply list_lookup_insert_Some in Hk as [(<- & <- & _)|[Hne' Hk]].
    + done.
    + injection Es as <-. destruct (Hf _ _ _ Hk Es'). lia.
    + injection Es' as <-. destruct (Hf _ _ _ Hj Es). lia.
    + by eapply Hu.
  - intros s Hs. destruct (decide (s = next_seq n)) as [->|Hne].
    + right. exists i, (WInfo (next_seq n) x). split; [|done]. apply list_lookup_insert_eq. by eapply lookup_lt_Some.
    + destruct (Hd s ltac:(lia)) as [[E1 E2]|(j & w & Hj & Ew)]; [left; rewrite Hold by lia; done|].
      right. exists j, w. split; [|done]. rewrite list_lookup_insert_ne; [done|]. intros ->. rewrite Hw in Hj. by injection Hj as <-.
  - rewrite Hg. symmetry. apply take_app_le. unfold zlen in Hlog. lia.
Qed.

Lemma inv_info base n i s x :
  inv base n -> in_reach n -> writers n !! i = Some (WInfo s x) ->
  inv base (mkN (next_seq n) (zset (infos n) (slot s) x) (seqs n) (<[i := WSeq s]> (writers n))
              (pc n) (pos n) (got n) (log n)).
Proof.
  intros [Hi Hl Hr Hlog Hsq Hf Hu Hd Hg Hp] [Hb _] Hw. destruct (Hf _ _ _ Hw eq_refl) as (Hin & Hn & Hx). simpl in Hx.
  assert (forall s', pos n <= s' < next_seq n -> s' <> s -> zget (zset (infos n) (slot s) x) (slot s') = zget (infos n) (slot s')) as Hother.
  { intros s' Hs' Hne. apply zget_zset_ne, slot_ne; lia. }
  assert (zget (zset (infos n) (slot s) x) (slot s) = Some x) as Hself by (apply zget_zset_eq; rewrite Hi; apply slot_in_ring).
  constructor; simpl; try done; [by rewrite zlen_zset| | |].
  - intros j w s' Hj Hs. apply list_lookup_insert_Some in Hj as [(-> & <- & _)|[Hne Hj]].
    + injection Hs as <-. split; [done|]. split; [done|]. simpl. by rewrite Hself.
    + destruct (Hf _ _ _ Hj Hs) as (Hin' & Hn' & Hpe). split; [done|]. split; [done|].
      destruct w as [| |s1]; simpl in *; try done. injection Hs as ->. rewrite Hother; [done|done|].
      intros ->. by apply Hne, (Hu i j _ _ s Hw Hj).
  - intros j k w w' s' Hj Hk Es Es'.
    apply list_lookup_insert_Some in Hj as [(-> & <- & _)|[Hne Hj]]; apply list_lookup_insert_Some in Hk as [(<- & <- & _)|[Hne' Hk]]; try done.
    + by apply (Hu j k _ _ s' Hw Hk).
    + by apply (Hu j i _ _ s' Hj Hw).
    + by eapply Hu.
  - intros s' Hs'. destruct (Hd s' Hs') as [[E1 E2]|(j & w & Hj & Ew)].
    + left. split; [done|]. rewrite Hother; [done|done|]. by intros ->.
    + right. destruct (decide (j = i)) as [->|Hne].
      * exists i, (WSeq s). rewrite Hw in Hj. injection Hj as <-. split; [|done]. apply list_lookup_insert_eq. by eapply lookup_lt_Some.
      * exists j, w. split; [|done]. by rewrite list_lookup_insert_ne.
Qed.

Lemma inv_seq base n i s :
  inv base n -> in_reach n -> writers n !! i = Some (WSeq s) ->
  inv base (mkN (next_seq n) (infos n) (zset (seqs n) (slot s) s) (<[i := WIdle]> (writers n))
              (pc n) (pos n) (got n) (log n)).
Proof.
  intros [Hi Hl Hr Hlog Hsq Hf Hu Hd Hg Hp] [Hb _] Hw. destruct (Hf _ _ _ Hw eq_refl) as (Hin & Hn & Hx). simpl in Hx.
  assert (forall s', pos n <= s' < next_seq n -> s' <> s -> zget (zset (seqs n) (slot s) s) (slot s') = zget (seqs n) (slot s')) as Hother.
  { intros s' Hs' Hne. apply zget_zset_ne, slot_ne; lia. }
  assert (zget (zset (seqs n) (slot s) s) (slot s) = Some s) as Hself by (apply zget_zset_eq; rewrite Hl; apply slot_in_ring).
  constructor; simpl; try done; [by rewrite zlen_zset| | | | |].
  - intros j s' E. destruct (decide (j = slot s)) as [->|Hne]; [rewrite Hself in E; injection E; lia|].
    rewrite zget_zset_ne in E by done. by eapply Hsq.
  - intros j w s' Hj Hs. apply list_lookup_insert_Some in Hj as [(-> & <- & _)|[Hne Hj]]; [done|].
    destruct (Hf _ _ _ Hj Hs) as (Hin' & Hn' & Hpe). split; [done|]. split; [|done]. rewrite Hother; [done|done|].
    intros ->. by apply Hne, (Hu i j _ _ s Hw Hj).
  - intros j k w w' s' Hj Hk Es Es'.
    apply list_lookup_insert_Some in Hj as [(-> & <- & _)|[Hne Hj]]; apply list_lookup_insert_Some in Hk as [(<- & <- & _)|[Hne' Hk]]; try done.
    by eapply Hu.
  - intros s' Hs'. destruct (decide (s' = s)) as [->|Hne]; [left; by rewrite Hself|].
    destruct (Hd s' Hs') as [[E1 E2]|(j & w & Hj & Ew)]; [left; rewrite Hother by done; done|].
    right. exists j, w. split; [|done]. rewrite list_lookup_insert_ne; [done|]. intros ->. rewrite Hw in Hj. injection Hj as <-.
    by injection Ew as ->.
  - intros E. specialize (Hp E). pose proof (Hsq _ _ Hp). destruct (decide (pos n = s)) as [->|Hne]; [done|].
    by rewrite Hother by lia.
Qed.

Lemma inv_read base n x :
  inv base n -> in_reach n -> pc n = LRead -> zget (infos n) (slot (pos n)) = Some x ->
  inv base (mkN (next_seq n) (infos n) (seqs n) (writers n) LLoad (u64 (pos n + 1)) (got n ++ [x]) (log n)).
Proof.
  intros [Hi Hl Hr Hlog Hsq Hf Hu Hd Hg Hp] [Hb Hb'] Hpc Hx. pose proof (Hp Hpc) as Hs. pose proof (Hsq _ _ Hs).
  rewrite u64_small by (unfold is_u64; lia).
  assert (zget (log n) (pos n - base) = Some x) as Elog.
  { destruct (Hd (pos n) ltac:(lia)) as [[_ E]|(i & w & Hw & Ew)]; [by rewrite <- E|].
    destruct (Hf _ _ _ Hw Ew) as (_ & Hn & _). done. }
  constructor; simpl; try done; [lia| | |].
  - intros i w s Hw Ew. destruct (Hf _ _ _ Hw Ew) as (Hin & Hn & Hpe). split; [|done].
    assert (s <> pos n) by (by intros ->). lia.
  - intros s Hs'. destruct (Hd s ltac:(lia)) as [E|E]; [by left|by right].
  - unfold zget in Elog. destruct (Z.leb_spec 0 (pos n - base)); [|done].
    replace (Z.to_nat (pos n + 1 - base)) with (S (Z.to_nat (pos n - base))) by lia.
    by rewrite (take_S_r _ _ x), Hg.
Qed.

Lemma inv_step base n n' : inv base n -> near_step n n' -> inv base n'.
Proof.
  intros Hv (Hs & Hb & _). destruct Hs as [i x Hw|i s x Hw|i s Hw|Hp|s Hp E|s Hp E E2|s Hp E E2|x Hp E].
  - by apply inv_fetch.
  - by apply inv_info.
  - by apply inv_seq.
  - destruct Hv. by constructor.
  - destruct Hv. by constructor.
  - destruct Hv. by constructor.
  - destruct Hv. by constructor.
  - by apply inv_read.
Qed.

(** A listener that starts when nobody is in the middle of Notify. *)
Definition start (base : Z) (infos : list I) (seqs : list Z) (threads : nat) : Notifier :=
  mkN base infos seqs (replicate threads WIdle) LLoad base [] [].

Lemma inv_start base infos seqs threads :
  0 <= base -> zlen infos = kBufLength -> zlen seqs = kBufLength -> (forall j s, zget seqs j = Some s -> s < base) ->
  inv base (start base infos seqs threads).
Proof.
  intros Hb Hi Hs Hlt. constructor; simpl; try done; try lia.
  - unfold zlen. simpl. lia.
  - intros i w s Hw Ew. apply lookup_replicate in Hw as [-> _]. done.
  - intros i j w w' s Hw _ Ew. apply lookup_replicate in Hw as [-> _]. done.
  - by rewrite Z.sub_diag.
Qed.
End notifier.
Arguments Notifier I : clear implicits.
Arguments wpc I : clear implicits.
Arguments Mem I : clear implicits.

(** ** A listener that keeps up *)

Section progress.
Context {I : Type}.
Implicit Types n : Notifier I.

(** With nobody in the middle of Notify, one round of the loop returns the next
    announcement. *)
Lemma listen_round base n :
  inv base n -> in_reach n -> pc n = LLoad -> (forall i w, writers n !! i = Some w -> w = WIdle) -> pos n < next_seq n ->
  exists x, zget (log n) (pos n - base) = Some x /\
    rtc near_step n (mkN (next_seq n) (infos n) (seqs n) (writers n) LLoad (pos n + 1) (got n ++ [x]) (log n)).
Proof.
  intros Hv Hb Hpc Hidle Hlt. pose proof Hv as [Hi Hl Hr Hlog Hsq Hf Hu Hd Hg Hp].
  destruct (Hd (pos n) ltac:(lia)) as [[E1 E2]|(i & w & Hw & Ew)]; [|by rewrite (Hidle _ _ Hw) in Ew].
  destruct (proj1 (zget_Some (infos n) (slot (pos n)))) as [x Hx]; [rewrite Hi; apply slot_in_ring|].
  exists x. split; [by rewrite <- E2|]. destruct Hb as [Hb Hb'].
  eapply rtc_l; [split; [by apply l_load|split; [done|by split]]|].
  eapply rtc_l; [split; [by eapply l_ready; [reflexivity|simpl; lia|exact E1]|by repeat split]|]. simpl.
  eapply rtc_l; [split; [by eapply l_read; [reflexivity|exact Hx]|]|]; simpl.
  - split; [by split|]. rewrite u64_small by (unfold is_u64; lia). split; simpl; lia.
  - rewrite u64_small by (unfold is_u64; lia). apply rtc_refl.
Qed.

(** The listener catches up. *)
Lemma listen_all base n :
  inv base n -> in_reach n -> pc n = LLoad -> (forall i w, writers n !! i = Some w -> w = WIdle) ->
  exists n', rtc near_step n n' /\ got n' = log n.
Proof.
  remember (Z.to_nat (next_seq n - pos n)) as k eqn:Ek. revert n Ek. induction k as [|k IH]; intros n Ek Hv Hb Hpc Hidle.
  - exists n. split; [apply rtc_refl|]. pose proof (iv_range _ _ Hv). pose proof (iv_log _ _ Hv) as Hlog.
    rewrite (iv_got _ _ Hv). apply take_ge. unfold zlen in Hlog. lia.
  - pose proof (iv_range _ _ Hv). destruct (listen_round base n Hv Hb Hpc Hidle ltac:(lia)) as (x & Hx & Hsteps).
    set (n1 := mkN _ _ _ _ _ _ _ _) in Hsteps.
    assert (inv base n1) as Hv1.
    { clear -Hv Hsteps. induction Hsteps; [done|]. eauto using inv_step. }
    destruct (IH n1) as (n' & Hs & Hg); try done; [simpl; lia| |].
    + destruct Hb as [Hb1 Hb2]. split; simpl; lia.
    + exists n'. split; [by etrans|done].
Qed.
End progress.

(** Announcements arrive once and in order: a listener that starts when nobody
    is in the middle of Notify, after at least one announcement was made in the
    memory, and that is never a whole buffer behind, has received at any time a
    prefix of what was announced, under any interleaving of any number of
    notifying threads; and when no thread is in the middle of Notify it can
    receive all of it. *)
Theorem announcements_in_order {I} base (infos : list I) seqs threads n :
  0 < base -> zlen infos = kBufLength -> zlen seqs = kBufLength -> (forall j s, zget seqs j = Some s -> s < base) ->
  rtc near_step (start base infos seqs threads) n ->
  got n = take (Z.to_nat (pos n - base)) (log n) /\ zlen (log n) = next_seq n - base /\
  (in_reach n -> pc n = LLoad -> (forall i w, writers n !! i = Some w -> w = WIdle) ->
     exists n', rtc near_step n n' /\ got n' = log n).
Proof.
  intros Hb Hi Hs Hlt Hr. assert (inv base n) as Hv.
  { pose proof (inv_start base infos seqs threads ltac:(lia) Hi Hs Hlt) as H0. clear -Hr H0. induction Hr; [done|]. eauto using inv_step. }
  split; [apply (iv_got _ _ Hv)|]. split; [apply (iv_log _ _ Hv)|]. intros. by eapply listen_all.
Qed.

(** A memory in which one announcement was made before; two threads. *)
Definition used_start : Notifier string := start 1 (replicate 4096 "-"%string) (replicate 4096 0) 2.
Definition after_one : Notifier string :=
  mkN 2 (zset (replicate 4096 "-"%string) 1 "a"%string) (zset (replicate 4096 0) 1 1) [WIdle; WIdle] LLoad 1 [] ["a"%string].

Lemma after_one_reachable : rtc near_step used_start after_one.
Proof.
  assert (forall a b c d e f g, 0 <= a < 3 -> in_reach (mkN (I := string) a b c d e 1 f g)) as Hr.
  { intros. unfold in_reach, kBufLength. simpl. lia. }
  eapply rtc_l; [split; [by apply (n_fetch _ 1 "a"%string)|split; apply Hr; [lia|done]]|].
  eapply rtc_l; [split; [by apply (n_info _ 1 1 "a"%string)|split; apply Hr; done]|].
  eapply rtc_l; [split; [by apply (n_seq _ 1 1)|split; apply Hr; done]|].
  apply rtc_refl.
Qed.

Lemma announcements_in_order_witness :
  rtc near_step used_start after_one /\ exists n', rtc near_step after_one n' /\ got n' = ["a"%string].
Proof.
  split; [apply after_one_reachable|].
  destruct (announcements_in_order 1 (replicate 4096 "-"%string) (replicate 4096 0) 2 after_one) as (_ & _ & Hall);
    [lia|reflexivity|reflexivity| |apply after_one_reachable|].
  - intros j s Hj. unfold zget in Hj. destruct (0 <=? j); [|done]. apply lookup_replicate in Hj as [-> _]. lia.
  - apply Hall; [unfold in_reach, kBufLength; simpl; lia|reflexivity|].
    intros i w Hw. destruct i as [|[|i]]; simpl in Hw; [by injection Hw as <-|by injection Hw as <-|done].
Defined.

(** ** A listener that is overtaken *)

(** The slot of the next announcement holds another number and nobody is about to
    store the right one. *)
Definition lapped {I} (n : Notifier I) : Prop :=
  pc n <> LRead /\ pos n < next_seq n /\ zget (seqs n) (slot (pos n)) <> Some (pos n) /\
  forall i w, writers n !! i = Some w -> seq_of w <> Some (pos n).

Lemma zget_zset_cases {A} (l : list A) i j x y : zget (zset l i x) j = Some y -> y = x \/ zget l j = Some y.
Proof.
  destruct (decide (i = j)) as [->|Hne]; [|rewrite zget_zset_ne by done; by right].
  intros E. left. rewrite zget_zset_eq in E; [by injection E as <-|].
  rewrite <- (zlen_zset l j x). apply zget_Some. by eexists.
Qed.

Definition counted_step {I} (n n' : Notifier I) : Prop := step n n' /\ next_seq n < 2 ^ 64 - 1.

Lemma lapped_step {I} (n n' : Notifier I) :
  lapped n -> 0 <= next_seq n -> counted_step n n' -> lapped n' /\ got n' = got n /\ 0 <= next_seq n'.
Proof.
  intros (Hpc & Hlt & Hs & Hw) H0 [Hst Hb]. destruct Hst as [i x Hi|i s x Hi|i s Hi|Hp|s Hp E|s Hp E E2|s Hp E E2|x Hp E]; try done.
  - rewrite u64_small by (unfold is_u64; lia). split; [|simpl; split; [done|lia]]. split_and!; simpl; [done|lia|done|].
    intros j w Hj. apply list_lookup_insert_Some in Hj as [(-> & <- & _)|[_ Hj]]; [simpl; intros [=]; lia|by eapply Hw].
  - split; [|done]. split_and!; try done. simpl.
    intros j w Hj. apply list_lookup_insert_Some in Hj as [(-> & <- & _)|[_ Hj]]; [apply (Hw _ _ Hi)|by eapply Hw].
  - split; [|done]. split_and!; try done; simpl.
    + intros E. apply zget_zset_cases in E as [E|E]; [|done]. apply (Hw _ _ Hi). simpl. by rewrite E.
    + intros j w Hj. apply list_lookup_insert_Some in Hj as [(-> & <- & _)|[_ Hj]]; [done|by eapply Hw].
Qed.

Lemma lapped_forever {I} (n n' : Notifier I) : lapped n -> 0 <= next_seq n -> rtc counted_step n n' -> got n' = got n.
Proof.
  intros Hl H0 Hr. revert Hl H0. induction Hr as [|n n1 n' Hs _ IH]; intros Hl H0; [done|].
  destruct (lapped_step _ _ Hl H0 Hs) as (Hl1 & <- & H1). by apply IH.
Qed.

(** Announcements made one after the other. *)
Definition notify_all {I} (m : Mem I) (xs : list I) : Mem I := foldl (fun m x => (Notify false m x).2) m xs.

Lemma notify_all_steps {I} i (xs : list I) : forall n, writers n !! i = Some WIdle ->
  let m := notify_all (mem n) xs in
  rtc step n (mkN (m_next_seq m) (m_infos m) (m_seqs m) (writers n) (pc n) (pos n) (got n) (log n ++ xs)).
Proof.
  induction xs as [|x xs IH]; intros n Hi.
  - rewrite app_nil_r. destruct n. apply rtc_refl.
  - etrans; [by eapply (Notify_steps n i x)|]. rewrite (app_assoc _ [x] xs : log n ++ x :: xs = (log n ++ [x]) ++ xs).
    by apply (IH (mkN _ _ _ _ _ _ _ _)).
Qed.

(** The last [kBufLength] announcements are in their slots. *)
Lemma notify_all_recent {I} (m : Mem I) xs :
  0 <= m_next_seq m -> m_next_seq m + zlen xs < 2 ^ 64 -> zlen (m_seqs m) = kBufLength ->
  m_next_seq (notify_all m xs) = m_next_seq m + zlen xs /\ zlen (m_seqs (notify_all m xs)) = kBufLength /\
  forall s, m_next_seq m <= s < m_next_seq m + zlen xs -> m_next_seq m + zlen xs - kBufLength <= s ->
    zget (m_seqs (notify_all m xs)) (slot s) = Some s.
Proof.
  intros H0. induction xs as [|x xs IH] using rev_ind; intros Hb Hl.
  - unfold zlen. simpl. split; [lia|]. split; [done|]. lia.
  - rewrite zlen_app in Hb |- *. unfold zlen at 2 in Hb. unfold zlen at 2 4 5. simpl length in *.
    destruct IH as (En & El & Hs); [lia|done|]. unfold notify_all in *. rewrite foldl_app.
    set (m' := foldl _ m xs) in *. cbn [foldl Notify snd m_next_seq m_seqs].
    rewrite En, zlen_zset. unfold zlen in *. split; [rewrite u64_small by (unfold is_u64; lia); lia|]. split; [done|].
    intros s Hs1 Hs2. destruct (decide (s = m_next_seq m + Z.of_nat (length xs))) as [->|Hne].
    + apply zget_zset_eq. unfold zlen. rewrite El. apply slot_in_ring.
    + rewrite zget_zset_ne; [apply Hs; lia|]. simpl length in *. unfold kBufLength in *. apply slot_ne; unfold kBufLength; lia.
Qed.

(** C29. A listener can be overtaken for good: for every list of more than 4096
    announcements there is an execution that makes them one after another, while a
    listener that has not yet listened does not run, and after which, in every
    continuation in which the sequence numbers stay below 2^64, that listener
    receives nothing, although announcements keep coming. *)
Theorem overtaken_listener_is_stuck {I} base (infos : list I) seqs threads xs :
  0 <= base -> base + zlen xs < 2 ^ 64 -> zlen seqs = kBufLength -> (0 < threads)%nat -> kBufLength < zlen xs ->
  exists n, rtc step (start base infos seqs threads) n /\ log n = xs /\ got n = [] /\
    forall n', rtc counted_step n n' -> got n' = [].
Proof.
  intros H0 Hb Hl Ht Hx. pose proof (zlen_nonneg xs). set (n0 := start base infos seqs threads). set (m := notify_all (mem n0) xs).
  assert (writers n0 !! 0%nat = Some WIdle) as Hw by (by apply lookup_replicate).
  eexists. split; [apply (notify_all_steps 0 xs n0 Hw)|]. split; [done|]. split; [done|].
  intros n' Hr. destruct (notify_all_recent (mem n0) xs H0 Hb Hl) as (En & _ & Hs). fold m in En, Hs. simpl in En, Hs.
  refine (lapped_forever _ n' _ _ Hr); [|simpl; fold m; rewrite En; lia]. split_and!; simpl; [done|fold m; rewrite En; unfold kBufLength in *; lia| |].
  - fold m. set (q := (zlen xs - 1) / kBufLength).
    assert (0 <= (zlen xs - 1) - kBufLength * q < kBufLength) as Hq.
    { pose proof (Z.div_mod (zlen xs - 1) kBufLength ltac:(done)). pose proof (Z.mod_pos_bound (zlen xs - 1) kBufLength ltac:(done)). lia. }
    assert (1 <= q) by (apply Z.div_le_lower_bound; unfold kBufLength in *; lia).
    specialize (Hs (base + q * kBufLength)). unfold slot in Hs. rewrite Z.mod_add in Hs by done.
    unfold slot. rewrite Hs by (unfold kBufLength in *; lia). intros [=]. unfold kBufLength in *. lia.
  - intros i w Hi. apply lookup_replicate in Hi as [-> _]. done.
Qed.

Lemma overtaken_listener_is_stuck_witness :
  exists n, rtc step (start 1 (replicate 4096 0%nat) (replicate 4096 0) 1) n /\ length (log n) = 4097%nat /\
    forall n', rtc counted_step n n' -> got n' = [].
Proof.
  destruct (overtaken_listener_is_stuck 1 (replicate 4096 0%nat) (replicate 4096 0) 1 (replicate 4097 7%nat))
    as (n & Hr & Hlog & _ & Hstuck); [lia|vm_compute; reflexivity|reflexivity|lia|vm_compute; reflexivity|].
  exists n. split; [exact Hr|]. split; [|exact Hstuck]. rewrite Hlog. reflexivity.
Defined.

Lemma zget_replicate {A} (x : A) n i : 0 <= i < n -> zget (replicate (Z.to_nat n) x) i = Some x.
Proof. intros Hi. unfold zget. destruct (Z.leb_spec 0 i); [|lia]. apply lookup_replicate_2. lia. Qed.

(** The first announcement in a new memory can be received before it is
    written: the slots hold 0, which is also the number of the first announcement,
    so a listener returns the default ReadableInfo as soon as the counter is
    raised. *)
Theorem first_announcement_read_early {I} (default a : I) :
  exists n, rtc near_step (start 0 (replicate (Z.to_nat kBufLength) default) (replicate (Z.to_nat kBufLength) 0) 1) n /\
    log n = [a] /\ got n = [default].
Proof.
  assert (forall n b c d e p f g, 0 <= n < 3 -> 0 <= p < 3 -> in_reach (mkN (I := I) n b c d e p f g)) as Hr.
  { intros. unfold in_reach, kBufLength. simpl. lia. }
  set (infos := replicate (Z.to_nat kBufLength) default). set (seqs := replicate (Z.to_nat kBufLength) 0).
  assert (zget infos (slot 0) = Some default) as Ei by (apply zget_replicate, slot_in_ring).
  assert (zget seqs (slot 0) = Some 0) as Es by (apply zget_replicate, slot_in_ring).
  clearbody infos seqs. eexists. split.
  - eapply rtc_l; [split; [by apply (n_fetch _ 0 a)|split; apply Hr; done]|].
    eapply rtc_l; [split; [by apply l_load|split; apply Hr; done]|].
    eapply rtc_l; [split; [by eapply (l_ready _ 1)|split; apply Hr; done]|].
    eapply rtc_l; [split; [by eapply l_read|split; apply Hr; done]|].
    apply rtc_refl.
  - by split.
Qed.
