(* ===== verification/Wire.v ===== *)
(** Wire.v -- what goes over shared memory and the network as bytes

    - src/src/apollo/cyber/transport/common/identity.{h,cc}
    - src/src/apollo/cyber/transport/message/message_info.{h,cc}
    - src/src/apollo/cyber/transport/shm/readable_info.{h,cc}
    - src/src/apollo/cyber/message/raw_message.h

    A char array is a list of bytes, integers 0 to 255; memcpy of an integer copies
    its bytes in the order of a little-endian machine. *)

From S2P Require Import Prelude.
From S2P Require Import Text.
Local Open Scope Z_scope.

(** ** Integers as bytes *)

Fixpoint le_bytes (n : nat) (z : Z) : list Z :=
  match n with O => [] | S n => z mod 256 :: le_bytes n (z / 256) end.
Fixpoint le_value (bs : list Z) : Z :=
  match bs with [] => 0 | b :: bs => b + 256 * le_value bs end.

Definition is_byte (b : Z) : Prop := 0 <= b < 256.

Lemma le_bytes_length n z : length (le_bytes n z) = n.
Proof. revert z. induction n as [|n IH]; intros z; simpl; [done|by rewrite IH]. Qed.

Lemma le_bytes_are_bytes n z : Forall is_byte (le_bytes n z).
Proof. revert z. induction n as [|n IH]; intros z; constructor; [apply Z.mod_pos_bound; lia|apply IH]. Qed.

Lemma le_value_bytes n z : 0 <= z < 256 ^ Z.of_nat n -> le_value (le_bytes n z) = z.
Proof.
  revert z. induction n as [|n IH]; intros z Hz; [simpl in *; lia|]. cbn [le_bytes le_value].
  rewrite Nat2Z.inj_succ, Z.pow_succ_r in Hz by lia.
  rewrite IH; [pose proof (Z.div_mod z 256 ltac:(lia)); lia|].
  split; [apply Z.div_pos; lia|apply Z.div_lt_upper_bound; lia].
Qed.

Lemma le_bytes_value bs : Forall is_byte bs -> le_bytes (length bs) (le_value bs) = bs.
Proof.
  induction 1 as [|b bs Hb _ IH]; [done|]. cbn [length le_bytes le_value]. unfold is_byte in Hb.
  replace (b + 256 * le_value bs) with (b + le_value bs * 256) by lia.
  rewrite Z.mod_add, Z.mod_small, Z.div_add, Z.div_small by lia. by rewrite Z.add_0_l, IH.
Qed.

Lemma le_value_range bs : Forall is_byte bs -> 0 <= le_value bs < 256 ^ Z.of_nat (length bs).
Proof.
  induction 1 as [|b bs Hb _ IH]; [simpl; lia|]. cbn [length le_value]. unfold is_byte in Hb.
  rewrite Nat2Z.inj_succ, Z.pow_succ_r by lia. lia.
Qed.

(** The integer types that are copied. *)
Lemma u64_bytes z : is_u64 z -> le_value (le_bytes 8 z) = z.
Proof. intros [? ?]. apply le_value_bytes. change (256 ^ Z.of_nat 8) with (2 ^ 64). lia. Qed.
Lemma u32_bytes z : is_u32 z -> le_value (le_bytes 4 z) = z.
Proof. intros [? ?]. apply le_value_bytes. change (256 ^ Z.of_nat 4) with (2 ^ 32). lia. Qed.

#[export] Hint Resolve le_bytes_are_bytes u64_bytes u32_bytes : cyber.

(** ** ReadableInfo *)

Module ReadableInfo.
Record t := mk { host_id_ : Z; block_index_ : Z; channel_id_ : Z }.
Definition New : t := mk 0 0 0.
Definition kSize : Z := 8 * 2 + 4.

Definition SerializeTo (r : t) : list Z :=
  le_bytes 8 (host_id_ r) ++ le_bytes 4 (block_index_ r) ++ le_bytes 8 (channel_id_ r).

Definition DeserializeFrom (r : t) (src : list Z) (len : Z) : bool * t :=
  if negb (len =? kSize) then (false, r)
  else (true, mk (le_value (take 8 src)) (le_value (take 4 (drop 8 src))) (le_value (take 8 (drop 12 src)))).

Definition ok (r : t) : Prop := is_u64 (host_id_ r) /\ is_u32 (block_index_ r) /\ is_u64 (channel_id_ r).
End ReadableInfo.

(** ** Identity and MessageInfo *)

Definition ID_SIZE : nat := 8.

Section identity.
(** common::Hash of the bytes, and std::to_string of it. *)
Variable Hash : list Z -> Z.

Record Identity := mkIdentity { data_ : list Z; hash_value_ : Z; hash_value_str_ : string }.

(** Identity(false); Identity(true) with the bytes uuid_generate gave. *)
Definition EmptyIdentity : Identity := mkIdentity (replicate ID_SIZE 0) 0 "".
Definition Update (data : list Z) : Identity := mkIdentity data (Hash data) (to_string (Hash data)).
Definition GenIdentity (uuid : list Z) : Identity := Update (take ID_SIZE uuid).

Definition set_data (data : list Z) : Identity := Update (take ID_SIZE data).

Definition Identity_eqb (a b : Identity) : bool := bool_decide (data_ a = data_ b).

(** An identity has eight bytes; its hash is that of its bytes unless it was never
    given any. *)
Definition identity_ok (a : Identity) : Prop :=
  length (data_ a) = ID_SIZE /\ Forall is_byte (data_ a) /\ (a = EmptyIdentity \/ a = Update (data_ a)).

Record MessageInfo := mkInfo { sender_id_ : Identity; seq_num_ : Z; spare_id_ : Identity }.
Definition NewInfo : MessageInfo := mkInfo EmptyIdentity 0 EmptyIdentity.
Definition kSize : Z := 2 * Z.of_nat ID_SIZE + 8.

Definition Info_eqb (a b : MessageInfo) : bool :=
  if negb (Identity_eqb (sender_id_ a) (sender_id_ b)) then false
  else if negb (seq_num_ a =? seq_num_ b) then false
  else if negb (Identity_eqb (spare_id_ a) (spare_id_ b)) then false
  else true.

(** Both overloads write the same bytes; the second one checks the room. *)
Definition SerializeTo (i : MessageInfo) : list Z :=
  take ID_SIZE (data_ (sender_id_ i)) ++ le_bytes 8 (seq_num_ i) ++ take ID_SIZE (data_ (spare_id_ i)).
Definition SerializeToArray (i : MessageInfo) (len : Z) : option (list Z) :=
  if len <? kSize then None else Some (SerializeTo i).

Definition DeserializeFrom (i : MessageInfo) (src : list Z) (len : Z) : bool * MessageInfo :=
  if negb (len =? kSize) then (false, i)
  else (true, mkInfo (set_data src) (le_value (take 8 (drop ID_SIZE src))) (set_data (drop (ID_SIZE + 8) src))).

Definition info_ok (i : MessageInfo) : Prop :=
  identity_ok (sender_id_ i) /\ is_u64 (seq_num_ i) /\ identity_ok (spare_id_ i).

(** *** Equality of messages infos is an equivalence that ignores cached hashes *)

#[export] Instance identity_equiv : Equiv Identity := fun a b => data_ a = data_ b.
#[export] Instance info_equiv : Equiv MessageInfo := fun a b =>
  sender_id_ a ≡ sender_id_ b /\ seq_num_ a = seq_num_ b /\ spare_id_ a ≡ spare_id_ b.

#[export] Instance identity_equivalence : Equivalence (≡@{Identity}).
Proof. split; unfold equiv, identity_equiv; [by intros a|by intros a b|by intros a b c -> ->]. Qed.
#[export] Instance info_equivalence : Equivalence (≡@{MessageInfo}).
Proof.
  split; unfold equiv, info_equiv; [by intros a|intros a b (E1 & E2 & E3); by rewrite E1, E2, E3|].
  intros a b c (E1 & E2 & E3) (F1 & F2 & F3). by rewrite E1, E2, E3.
Qed.

Lemma Info_eqb_equiv a b : Info_eqb a b = true <-> a ≡ b.
Proof.
  unfold Info_eqb, Identity_eqb, equiv, info_equiv. unfold equiv, identity_equiv.
  destruct (bool_decide_reflect (data_ (sender_id_ a) = data_ (sender_id_ b))), (Z.eqb_spec (seq_num_ a) (seq_num_ b)),
    (bool_decide_reflect (data_ (spare_id_ a) = data_ (spare_id_ b))); simpl; intuition done.
Qed.

#[export] Instance SerializeTo_proper : Proper ((≡) ==> (=)) SerializeTo.
Proof. intros a b (E1 & E2 & E3). unfold SerializeTo. unfold equiv, identity_equiv in *. by rewrite E1, E2, E3. Qed.

Lemma SerializeTo_length i : info_ok i -> length (SerializeTo i) = Z.to_nat kSize.
Proof.
  intros ((L1 & _) & _ & (L2 & _)). unfold SerializeTo. rewrite !length_app, !length_take, le_bytes_length, L1, L2. done.
Qed.

(** Decoding what was encoded, with anything behind it. *)
Lemma Deserialize_Serialize i j rest : info_ok i ->
  DeserializeFrom j (SerializeTo i ++ rest) kSize =
    (true, mkInfo (Update (data_ (sender_id_ i))) (seq_num_ i) (Update (data_ (spare_id_ i)))).
Proof.
  intros ((L1 & _) & Hs & (L2 & _)). unfold DeserializeFrom, SerializeTo, set_data. rewrite Z.eqb_refl. cbn [negb].
  rewrite !(take_ge (data_ _)) by lia. rewrite <- !app_assoc.
  rewrite (take_app_length' (data_ (sender_id_ i))) by done.
  rewrite (drop_app_length' (data_ (sender_id_ i))) by done.
  rewrite (take_app_length' (le_bytes 8 _)) by (by rewrite le_bytes_length). rewrite u64_bytes by done.
  rewrite <- drop_drop, (drop_app_length' (data_ (sender_id_ i))) by done.
  rewrite (drop_app_length' (le_bytes 8 _)) by (by rewrite le_bytes_length).
  rewrite (take_app_length' (data_ (spare_id_ i))) by done. done.
Qed.
End identity.

(** Message information survives the wire: decoding an encoded MessageInfo gives
    an equal one whose identities have the hash of their bytes (and for an
    identity that was generated, the very same identity), encoding a decoded
    block of 24 bytes gives it back, and a block of another size is refused and
    changes nothing. *)
Theorem message_info_round_trip (Hash : list Z -> Z) :
  (forall i j, info_ok Hash i ->
     exists i', DeserializeFrom Hash j (SerializeTo i) (zlen (SerializeTo i)) = (true, i') /\ Info_eqb i' i = true /\
       hash_value_ (sender_id_ i') = Hash (data_ (sender_id_ i)) /\
       (sender_id_ i = EmptyIdentity \/ sender_id_ i' = sender_id_ i)) /\
  (forall bs j i, Forall is_byte bs -> DeserializeFrom Hash j bs (zlen bs) = (true, i) -> SerializeTo i = bs /\ info_ok Hash i) /\
  (forall bs j, zlen bs <> kSize -> DeserializeFrom Hash j bs (zlen bs) = (false, j)).
Proof.
  split_and!.
  - intros i j Hi. pose proof (SerializeTo_length Hash i Hi) as Hl. pose proof (Deserialize_Serialize Hash i j [] Hi) as Hd.
    rewrite app_nil_r in Hd. unfold zlen. rewrite Hl. change (Z.of_nat (Z.to_nat kSize)) with kSize.
    eexists. split; [exact Hd|]. split; [apply Info_eqb_equiv; repeat split|]. split; [reflexivity|].
    destruct Hi as ((_ & _ & [->|E]) & _); [by left|right; by rewrite E].
  - intros bs j i Hb. unfold DeserializeFrom. destruct (Z.eqb_spec (zlen bs) kSize) as [El|]; [|done]. cbn [negb].
    intros [= <-]. unfold zlen, kSize, ID_SIZE in El. assert (length bs = 24)%nat as Hl by lia.
    assert (forall n k, Forall is_byte (take n (drop k bs))) as Hf by (intros; by apply Forall_take, Forall_drop).
    pose proof (le_value_range _ (Hf 8 8)%nat) as Hv. pose proof (le_bytes_value _ (Hf 8 8)%nat) as Hl8.
    rewrite length_take, length_drop, Hl in Hv, Hl8. change (8 `min` (24 - 8))%nat with 8%nat in *.
    unfold SerializeTo, info_ok, identity_ok, set_data, Update, ID_SIZE. cbn [Nat.add data_ sender_id_ seq_num_ spare_id_].
    rewrite !take_take, Hl8, (take_ge (drop 16 bs)) by (rewrite length_drop; lia).
    split; [change 16%nat with (8 + 8)%nat; by rewrite <- drop_drop, !take_drop|].
    rewrite ?length_take, ?length_drop, Hl. split_and!; try done; try (by right); try (by apply (Hf 8 0)%nat); try (by apply Forall_drop).
  - intros bs j Hl. unfold DeserializeFrom. by destruct (Z.eqb_spec (zlen bs) kSize).
Qed.

(** ReadableInfo survives the wire: 20 bytes decode to what was encoded, and any
    other length is refused. *)
Theorem readable_info_round_trip r r' :
  ReadableInfo.ok r ->
  zlen (ReadableInfo.SerializeTo r) = ReadableInfo.kSize /\
  ReadableInfo.DeserializeFrom r' (ReadableInfo.SerializeTo r) (zlen (ReadableInfo.SerializeTo r)) = (true, r) /\
  (forall src len, len <> ReadableInfo.kSize -> ReadableInfo.DeserializeFrom r' src len = (false, r')).
Proof.
  intros (Hh & Hb & Hc). assert (zlen (ReadableInfo.SerializeTo r) = ReadableInfo.kSize) as El.
  { unfold zlen, ReadableInfo.SerializeTo. by rewrite !length_app, !le_bytes_length. }
  split; [done|]. rewrite El. split.
  - unfold ReadableInfo.DeserializeFrom, ReadableInfo.SerializeTo. rewrite Z.eqb_refl. cbn [negb].
    change (drop 12) with (fun l : list Z => drop (8 + 4) l). cbv beta. rewrite <- drop_drop.
    rewrite (take_app_length' (le_bytes 8 _)), (drop_app_length' (le_bytes 8 _)) by (by rewrite le_bytes_length).
    rewrite (take_app_length' (le_bytes 4 _)), (drop_app_length' (le_bytes 4 _)) by (by rewrite le_bytes_length).
    rewrite (take_ge (le_bytes 8 _)) by (by rewrite le_bytes_length).
    rewrite !u64_bytes, u32_bytes by done. by destruct r.
  - intros src len Hl. unfold ReadableInfo.DeserializeFrom. by destruct (Z.eqb_spec len ReadableInfo.kSize).
Qed.

Lemma readable_info_round_trip_witness :
  let r := ReadableInfo.mk 1234567890123 511 77 in
  ReadableInfo.DeserializeFrom ReadableInfo.New (ReadableInfo.SerializeTo r) 20 = (true, r).
Proof.
  intros r. destruct (readable_info_round_trip r ReadableInfo.New) as (_ & E & _); [by repeat split|exact E].
Defined.

(** ** Messages

    What message_traits.h calls on a message.  [SerializeMsg m size] are the bytes
    written to the array, [None] when it returns false. *)

Class Message (M : Type) := {
  ByteSize : M -> Z;
  SerializeMsg : M -> Z -> option (list Z);
  ParseMsg : list Z -> Z -> option M
}.

Record RawMessage := mkRaw { message : list Z; timestamp : Z }.

#[export] Instance raw_message : Message RawMessage := {
  ByteSize m := i32 (zlen (message m));
  SerializeMsg m size := if size <? i32 (zlen (message m)) then None else Some (message m);
  ParseMsg data size := if size <=? 0 then None else Some (mkRaw (take (Z.to_nat size) data) 0)
}.

(** Serialization fills exactly the size it announces. *)
Definition serializes {M} `{Message M} (m : M) (bs : list Z) : Prop :=
  SerializeMsg m (ByteSize m) = Some bs /\ zlen bs = ByteSize m.

Lemma raw_serializes m : zlen (message m) < 2 ^ 31 -> serializes m (message m).
Proof.
  intros Hl. pose proof (zlen_nonneg (message m)). unfold serializes. simpl.
  rewrite i32_small by (unfold is_i32; lia). by rewrite Z.ltb_irrefl.
Qed.

Lemma raw_parses m : 0 < zlen (message m) < 2 ^ 31 ->
  ParseMsg (message m) (zlen (message m)) = Some (mkRaw (message m) 0).
Proof.
  intros Hl. simpl. destruct (Z.leb_spec (zlen (message m)) 0); [lia|]. rewrite take_ge by (unfold zlen; lia). done.
Qed.
