(* ===== verification/Dispatcher.v ===== *)
(** Dispatcher.v -- src/src/apollo/cyber/transport/dispatcher/dispatcher.{h,cc} and
    intra_dispatcher.h

    The listeners of all channels: a hash map from channel ids to the handlers of
    [ListenerHandler].  The map holds shared pointers, so changing a handler does
    not change the map; here the changed handler is stored again under its key.
    The type of a handler's messages is a tag, which dynamic_pointer_cast tests. *)

From S2P Require Import Prelude.
From S2P Require Import AtomicHashMap.
From S2P Require Import Signal.
From S2P Require Import ListenerHandler.
Local Open Scope Z_scope.

(** The tag of message::RawMessage. *)
Definition RawType : Z := 0.

Section dispatcher.
Context {Args : Type}.

Record HandlerBase := mkBase { msg_type : Z; handler : Handler Args }.
Record Dispatcher := mkDispatcher { is_shutdown_ : bool; msg_listeners_ : AtomicHashMap HandlerBase }.

(** AtomicHashMap has 128 buckets by default. *)
Definition NewDispatcher : Dispatcher := mkDispatcher false (NewMap 128).
Definition Shutdown (d : Dispatcher) : Dispatcher := mkDispatcher true (msg_listeners_ d).
Definition HasChannel (d : Dispatcher) (channel_id : Z) : bool := Has (msg_listeners_ d) channel_id.

Definition store (d : Dispatcher) (channel_id : Z) (b : HandlerBase) : Dispatcher :=
  mkDispatcher (is_shutdown_ d) (Set_ (msg_listeners_ d) channel_id b).

Definition AddListener (d : Dispatcher) (channel_id type self_id : Z) (listener : nat) : Dispatcher :=
  if is_shutdown_ d then d
  else match Get (msg_listeners_ d) channel_id with
  | Some b => if msg_type b =? type then store d channel_id (mkBase type (Handler_Connect (handler b) self_id listener)) else d
  | None => store d channel_id (mkBase type (Handler_Connect NewHandler self_id listener))
  end.

Definition AddListenerTo (d : Dispatcher) (channel_id type self_id oppo_id : Z) (listener : nat) : Dispatcher :=
  if is_shutdown_ d then d
  else match Get (msg_listeners_ d) channel_id with
  | Some b => if msg_type b =? type then store d channel_id (mkBase type (Handler_ConnectTo (handler b) self_id oppo_id listener)) else d
  | None => store d channel_id (mkBase type (Handler_ConnectTo NewHandler self_id oppo_id listener))
  end.

Definition RemoveListener (d : Dispatcher) (channel_id self_id : Z) : Dispatcher :=
  if is_shutdown_ d then d
  else match Get (msg_listeners_ d) channel_id with
  | Some b => store d channel_id (mkBase (msg_type b) (Handler_Disconnect (handler b) self_id))
  | None => d
  end.

Definition RemoveListenerFrom (d : Dispatcher) (channel_id self_id oppo_id : Z) : Dispatcher :=
  if is_shutdown_ d then d
  else match Get (msg_listeners_ d) channel_id with
  | Some b => store d channel_id (mkBase (msg_type b) (Handler_DisconnectFrom (handler b) self_id oppo_id))
  | None => d
  end.

(** IntraDispatcher::OnMessage; [raw] serializes a message for the listeners of raw
    messages. *)
Definition OnMessage (raw : Args -> Args) (d : Dispatcher) (channel_id type : Z) (args : Args) (sender : Z) : Dispatcher :=
  if is_shutdown_ d then d
  else match Get (msg_listeners_ d) channel_id with
  | Some b =>
      if msg_type b =? RawType then store d channel_id (mkBase (msg_type b) (Run (handler b) (raw args) sender))
      else if msg_type b =? type then store d channel_id (mkBase (msg_type b) (Run (handler b) args sender))
      else d
  | None => d
  end.

(** ** Specification: each channel by itself *)

Inductive DOp :=
| DAdd (channel_id type self_id : Z) (f : nat)
| DAddTo (channel_id type self_id oppo_id : Z) (f : nat)
| DRemove (channel_id self_id : Z)
| DRemoveFrom (channel_id self_id oppo_id : Z)
| DMessage (channel_id type : Z) (args : Args) (sender : Z)
| DShutdown.

Definition exec (raw : Args -> Args) (d : Dispatcher) (op : DOp) : Dispatcher :=
  match op with
  | DAdd c t s f => AddListener d c t s f
  | DAddTo c t s k f => AddListenerTo d c t s k f
  | DRemove c s => RemoveListener d c s
  | DRemoveFrom c s k => RemoveListenerFrom d c s k
  | DMessage c t a s => OnMessage raw d c t a s
  | DShutdown => Shutdown d
  end.

(** What an operation means for a channel of messages of type [ty]. *)
Definition channel_op (raw : Args -> Args) (c ty : Z) (op : DOp) : option (HOp Args) :=
  match op with
  | DAdd c' t s f => if (c' =? c) && (t =? ty) then Some (HConnect s f) else None
  | DAddTo c' t s k f => if (c' =? c) && (t =? ty) then Some (HConnectTo s k f) else None
  | DRemove c' s => if c' =? c then Some (HDisconnect s) else None
  | DRemoveFrom c' s k => if c' =? c then Some (HDisconnectFrom s k) else None
  | DMessage c' t a s =>
      if c' =? c then if ty =? RawType then Some (HRun (raw a) s) else if ty =? t then Some (HRun a s) else None else None
  | DShutdown => None
  end.

Fixpoint channel_ops (raw : Args -> Args) (c ty : Z) (ops : list DOp) : list (HOp Args) :=
  match ops with
  | [] => []
  | DShutdown :: _ => []
  | op :: ops => option_list (channel_op raw c ty op) ++ channel_ops raw c ty ops
  end.

(** The first listener of a channel decides the type of its messages. *)
Definition op_type (c : Z) (op : DOp) : option Z :=
  match op with
  | DAdd c' t _ _ | DAddTo c' t _ _ _ => if c' =? c then Some t else None
  | _ => None
  end.
Fixpoint first_type (c : Z) (ops : list DOp) : option Z :=
  match ops with
  | [] => None
  | DShutdown :: _ => None
  | op :: ops => match op_type c op with Some t => Some t | None => first_type c ops end
  end.

Definition handler_at (d : Dispatcher) (c : Z) : Handler Args :=
  match Get (msg_listeners_ d) c with Some b => handler b | None => NewHandler end.
Definition type_at (d : Dispatcher) (c : Z) : option Z := msg_type <$> Get (msg_listeners_ d) c.

Definition wf_dispatcher (d : Dispatcher) : Prop := wf 7 (msg_listeners_ d).

Lemma NewDispatcher_wf : wf_dispatcher NewDispatcher.
Proof. apply (NewMap_wf 7). lia. Qed.

Lemma store_wf d c b : wf_dispatcher d -> wf_dispatcher (store d c b).
Proof. apply Set_wf. Qed.

Lemma store_get d c b c' : wf_dispatcher d ->
  Get (msg_listeners_ (store d c b)) c' = if decide (c = c') then Some b else Get (msg_listeners_ d) c'.
Proof. apply Get_Set. Qed.

Lemma is_shutdown_op (op : DOp) : {op = DShutdown} + {op <> DShutdown}.
Proof. destruct op; by (left + right). Defined.

(** Every operation either leaves the dispatcher or stores one handler. *)
Ltac dispatch_cases :=
  repeat match goal with
  | |- context [match Get (msg_listeners_ ?d) ?c with _ => _ end] => destruct (Get (msg_listeners_ d) c) eqn:?
  | |- context [Z.eqb ?a ?b] => destruct (Z.eqb_spec a b); subst; cbn [andb]
  end.

Lemma exec_wf raw d op : wf_dispatcher d -> wf_dispatcher (exec raw d op).
Proof.
  intros Hw. destruct op; simpl; unfold AddListener, AddListenerTo, RemoveListener, RemoveListenerFrom, OnMessage;
    try destruct (is_shutdown_ d); try done; dispatch_cases; try done; by apply store_wf.
Qed.

Lemma exec_shut raw d op : is_shutdown_ d = true -> is_shutdown_ (exec raw d op) = true /\ msg_listeners_ (exec raw d op) = msg_listeners_ d.
Proof.
  intros Hs. destruct op; simpl; unfold AddListener, AddListenerTo, RemoveListener, RemoveListenerFrom, OnMessage;
    by rewrite ?Hs.
Qed.

Lemma exec_running raw d op : is_shutdown_ d = false -> op <> DShutdown -> is_shutdown_ (exec raw d op) = false.
Proof.
  intros Hs. destruct op; intros Hop; try done; simpl; unfold AddListener, AddListenerTo, RemoveListener, RemoveListenerFrom, OnMessage;
    rewrite Hs; dispatch_cases; done.
Qed.

(** A channel that has a handler. *)
Lemma exec_known raw d op c b :
  wf_dispatcher d -> is_shutdown_ d = false -> Get (msg_listeners_ d) c = Some b ->
  Get (msg_listeners_ (exec raw d op)) c =
    Some (mkBase (msg_type b) (foldl exec_handler (handler b) (option_list (channel_op raw c (msg_type b) op)))).
Proof.
  intros Hw Hs Hb. destruct b as [ty h]. destruct op as [c' t s f|c' t s k f|c' s|c' s k|c' t a s|]; simpl;
    unfold AddListener, AddListenerTo, RemoveListener, RemoveListenerFrom, OnMessage; rewrite ?Hs; try done;
    (destruct (Z.eqb_spec c' c) as [->|Hc]; [rewrite Hb; simpl|]);
    try (by repeat case_match; rewrite ?store_get, ?decide_False by done);
    dispatch_cases; rewrite ?store_get, ?decide_True by done; try done; try congruence;
    by rewrite (Get_Set 7), decide_True.
Qed.

(** A channel that has none yet. *)
Lemma exec_unknown raw d op c :
  wf_dispatcher d -> is_shutdown_ d = false -> Get (msg_listeners_ d) c = None ->
  Get (msg_listeners_ (exec raw d op)) c =
    match op_type c op with
    | Some ty => Some (mkBase ty (foldl exec_handler NewHandler (option_list (channel_op raw c ty op))))
    | None => None
    end.
Proof.
  intros Hw Hs Hb. destruct op as [c' t s f|c' t s k f|c' s|c' s k|c' t a s|]; simpl;
    unfold AddListener, AddListenerTo, RemoveListener, RemoveListenerFrom, OnMessage; rewrite ?Hs; try done;
    (destruct (Z.eqb_spec c' c) as [->|Hc]; [rewrite Hb; simpl; rewrite ?Z.eqb_refl|]);
    try (by repeat case_match; rewrite ?store_get, ?decide_False by done);
    try done; rewrite ?Z.eqb_refl; by rewrite (Get_Set 7), decide_True.
Qed.

(** Without listeners the other operations do nothing. *)
Lemma channel_op_idle raw c ty op : op_type c op = None ->
  foldl exec_handler NewHandler (option_list (channel_op raw c ty op)) = NewHandler.
Proof.
  destruct op as [c' t s f|c' t s k f|c' s|c' s k|c' t a s|]; simpl; try done; (destruct (Z.eqb_spec c' c); [|done]); try done.
  intros _. by destruct (ty =? RawType); [|destruct (ty =? t)].
Qed.

Lemma run_shut raw ops : forall d, is_shutdown_ d = true -> msg_listeners_ (foldl (exec raw) d ops) = msg_listeners_ d.
Proof.
  induction ops as [|op ops IH]; intros d Hs; [done|]. destruct (exec_shut raw d op Hs) as [Hs' E]. simpl. by rewrite IH.
Qed.

Lemma run_known raw c ops : forall d b, wf_dispatcher d -> is_shutdown_ d = false -> Get (msg_listeners_ d) c = Some b ->
  Get (msg_listeners_ (foldl (exec raw) d ops)) c =
    Some (mkBase (msg_type b) (foldl exec_handler (handler b) (channel_ops raw c (msg_type b) ops))).
Proof.
  induction ops as [|op ops IH]; intros d b Hw Hs Hb; [simpl; rewrite Hb; by destruct b|].
  destruct (is_shutdown_op op) as [->|Hop].
  - simpl. rewrite run_shut by done. simpl. rewrite Hb. by destruct b.
  - pose proof (exec_known raw d op c b Hw Hs Hb) as E.
    assert (channel_ops raw c (msg_type b) (op :: ops) = option_list (channel_op raw c (msg_type b) op) ++ channel_ops raw c (msg_type b) ops) as ->
      by (by destruct op).
    rewrite foldl_app. exact (IH _ _ (exec_wf raw d op Hw) (exec_running raw d op Hs Hop) E).
Qed.

Lemma run_unknown raw c ops : forall d, wf_dispatcher d -> is_shutdown_ d = false -> Get (msg_listeners_ d) c = None ->
  Get (msg_listeners_ (foldl (exec raw) d ops)) c =
    match first_type c ops with
    | Some ty => Some (mkBase ty (foldl exec_handler NewHandler (channel_ops raw c ty ops)))
    | None => None
    end.
Proof.
  induction ops as [|op ops IH]; intros d Hw Hs Hb; [done|].
  destruct (is_shutdown_op op) as [->|Hop]; [simpl; rewrite run_shut by done; exact Hb|].
  pose proof (exec_unknown raw d op c Hw Hs Hb) as E.
  assert (first_type c (op :: ops) = match op_type c op with Some t => Some t | None => first_type c ops end) as -> by (by destruct op).
  assert (forall ty, channel_ops raw c ty (op :: ops) = option_list (channel_op raw c ty op) ++ channel_ops raw c ty ops) as Eops
    by (by destruct op).
  destruct (op_type c op) as [ty|] eqn:Et.
  - rewrite Eops, foldl_app. exact (run_known raw c ops _ _ (exec_wf raw d op Hw) (exec_running raw d op Hs Hop) E).
  - cbn [foldl]. rewrite (IH _ (exec_wf raw d op Hw) (exec_running raw d op Hs Hop) E).
    destruct (first_type c ops) as [ty|]; [|done]. by rewrite Eops, foldl_app, channel_op_idle.
Qed.
End dispatcher.
Arguments Dispatcher Args : clear implicits.
Arguments HandlerBase Args : clear implicits.
Arguments DOp Args : clear implicits.

(** Messages reach exactly their listeners, channel by channel: for any sequence
    of operations on a dispatcher, the callbacks made for a channel are those of
    the specification for the operations on that channel alone.  The first
    listener of the channel decides the type of its messages; listeners and
    messages of another type are refused, listeners of raw messages get every
    message serialized, and nothing happens after Shutdown. *)
Theorem dispatched_messages_reach_their_listeners {Args} (raw : Args -> Args) (ops : list (DOp Args)) c ty :
  first_type c ops = Some ty -> well_used ([], []) (channel_ops raw c ty ops) ->
  calls (world (handler_at (foldl (exec raw) NewDispatcher ops) c)) =
    (foldl spec_handler ([], []) (channel_ops raw c ty ops)).2.
Proof.
  intros Ht Hu. unfold handler_at. rewrite (run_unknown raw c ops _ NewDispatcher_wf eq_refl) by (by apply (Get_New 7)).
  rewrite Ht. by apply handler_calls.
Qed.

(** Two channels; a listener of the wrong type; a raw listener. *)
Definition dispatcher_demo : list (DOp string) :=
  [DAdd 5 1 100 10; DAdd 6 RawType 100 20; DAdd 5 2 101 11; DMessage 5 1 "a" 9; DMessage 6 1 "b" 9;
   DMessage 5 2 "c" 9; DRemove 5 100; DMessage 5 1 "d" 9; DShutdown; DMessage 6 1 "e" 9]%string.

Lemma dispatched_messages_reach_their_listeners_witness :
  calls (world (handler_at (foldl (exec (String.append "raw:")) NewDispatcher dispatcher_demo) 5)) = [(10%nat, "a"%string)] /\
  calls (world (handler_at (foldl (exec (String.append "raw:")) NewDispatcher dispatcher_demo) 6)) = [(20%nat, "raw:b"%string)].
Proof.
  split.
  - rewrite (dispatched_messages_reach_their_listeners (String.append "raw:") dispatcher_demo 5 1); [reflexivity|reflexivity|].
    simpl. split_and!; try exact I. intros f; apply not_elem_of_nil.
  - rewrite (dispatched_messages_reach_their_listeners (String.append "raw:") dispatcher_demo 6 RawType); [reflexivity|reflexivity|].
    simpl. split_and!; try exact I. intros f; apply not_elem_of_nil.
Defined.
