(* ===== verification/ShmTransport.v ===== *)
(** ShmTransport.v -- a message from one process to another through shared memory

    - src/src/apollo/cyber/transport/transmitter/shm_transmitter.h: Transmit
    - src/src/apollo/cyber/transport/dispatcher/shm_dispatcher.{h,cc}

    The bytes of a segment are added to the model of [Segment]: a new object is
    filled with zeros, and a buffer is where its offset says.  A store beyond the
    end of a buffer goes to what lies there.  The listeners that AddListener
    connects parse the bytes while the block is locked; a call of such a listener
    is recorded with the bytes it finds, and [listened] is what the user's
    callbacks are called with. *)

From S2P Require Import Prelude.
From S2P Require Import AtomicHashMap.
From S2P Require Import Signal.
From S2P Require Import ListenerHandler.
From S2P Require Import Dispatcher.
From S2P Require Import Wire.
From S2P Require Import ShmConf.
From S2P Require Import Segment.
Local Open Scope Z_scope.

(** ** Memory *)

Notation Memory := (gmap (nat * Z) Z).

Fixpoint write_at (o : nat) (off : Z) (bs : list Z) (mem : Memory) : Memory :=
  match bs with [] => mem | b :: bs => write_at o (off + 1) bs (<[(o, off) := b]> mem) end.
Fixpoint read_at (o : nat) (off : Z) (n : nat) (mem : Memory) : list Z :=
  match n with O => [] | S n => default 0 (mem !! (o, off)) :: read_at o (off + 1) n mem end.

Lemma write_at_out o off bs mem o' off' :
  o' <> o \/ off' < off \/ off + zlen bs <= off' -> write_at o off bs mem !! (o', off') = mem !! (o', off').
Proof.
  unfold zlen. revert off mem. induction bs as [|b bs IH]; intros off mem Hout; [done|]. cbn [write_at length] in *.
  rewrite IH by lia. apply lookup_insert_ne. intros [= -> ->]. lia.
Qed.

Lemma read_at_ext o off n mem mem' :
  (forall i, off <= i < off + Z.of_nat n -> mem !! (o, i) = mem' !! (o, i)) -> read_at o off n mem = read_at o off n mem'.
Proof.
  revert off. induction n as [|n IH]; intros off Hext; [done|]. cbn [read_at]. rewrite Hext by lia. f_equal.
  apply IH. intros i Hi. apply Hext. lia.
Qed.

Lemma read_write o off bs mem : read_at o off (length bs) (write_at o off bs mem) = bs.
Proof.
  revert off mem. induction bs as [|b bs IH]; intros off mem; [done|]. cbn [length read_at write_at].
  rewrite write_at_out by lia. rewrite lookup_insert_eq. cbn [default]. by rewrite IH.
Qed.

(** Two writes next to each other, and what is apart from a write. *)
Lemma read_write_first o off bs bs' mem :
  read_at o off (length bs) (write_at o (off + zlen bs) bs' (write_at o off bs mem)) = bs.
Proof.
  etrans; [|apply (read_write o off bs mem)]. apply read_at_ext. intros i Hi. apply write_at_out. unfold zlen. lia.
Qed.

Lemma read_write_apart o off bs off' n mem :
  off' + Z.of_nat n <= off \/ off + zlen bs <= off' -> read_at o off' n (write_at o off bs mem) = read_at o off' n mem.
Proof. intros Hap. apply read_at_ext. intros i Hi. apply write_at_out. lia. Qed.

Record Shared := mkShared { segs : Segment.World; bytes : Memory; sizes : gmap (nat * Z) (Z * Z) }.
Definition block_sizes (w : Shared) (o : nat) (i : Z) : Z * Z := default (0, 0) (sizes w !! (o, i)).

Section transport.
Variable Hash : list Z -> Z.
Variable sizeof_State sizeof_Block : Z.
Context {M : Type} `{Message M}.

(** ** ShmTransmitter::Transmit

    [notified] is what notifier_->Notify returns; the last result is what it was
    given. *)
Definition Transmit (os1 os2 os3 : Os) (fuel : nat) (notified enabled : bool) (host_id channel_id : Z)
    (w : Shared) (s : Segment) (msg : M) (msg_info : MessageInfo)
    : option (bool * Shared * Segment * option ReadableInfo.t) :=
  if negb enabled then Some (false, w, s, None)
  else
    let msg_size := u64 (ByteSize msg) in
    match AcquireBlockToWrite sizeof_State sizeof_Block os1 os2 os3 fuel (segs w) s msg_size with
    | None => None
    | Some (None, g, s) => Some (false, mkShared g (bytes w) (sizes w), s, None)
    | Some (Some h, g, s) =>
        match buf h, shm_ s with
        | Some off, Some o =>
            let release w :=
              match ReleaseWrittenBlock (segs w) s (index h) with
              | Some g => Some (mkShared g (bytes w) (sizes w))
              | None => None
              end in
            match SerializeMsg msg (i32 msg_size) with
            | None =>
                match release (mkShared g (bytes w) (sizes w)) with Some w => Some (false, w, s, None) | None => None end
            | Some bs =>
                let mem := write_at o off bs (bytes w) in
                let szs := <[(o, index h) := (msg_size, snd (block_sizes w o (index h)))]> (sizes w) in
                match SerializeToArray msg_info kSize with
                | None => match release (mkShared g mem szs) with Some w => Some (false, w, s, None) | None => None end
                | Some ib =>
                    let mem := write_at o (off + msg_size) ib mem in
                    let szs := <[(o, index h) := (msg_size, kSize)]> szs in
                    match release (mkShared g mem szs) with
                    | Some w => Some (notified, w, s, Some (ReadableInfo.mk host_id (index h) channel_id))
                    | None => None
                    end
                end
            end
        | _, _ => None
        end
    end.

(** ** ShmDispatcher *)

Notation Listened := (list Z * MessageInfo)%type.
(** The tag of ReadableBlock. *)
Definition BlockType : Z := 1.
Definition UINT32_MAX : Z := 2 ^ 32 - 1.

Record ShmDispatcher := mkShmD {
  base : Dispatcher Listened;
  host_id_ : Z;
  segments_ : gmap Z Segment;
  previous_indexes_ : gmap Z Z
}.
Definition NewShmDispatcher (host_id : Z) : ShmDispatcher := mkShmD NewDispatcher host_id ∅ ∅.

Definition AddSegment (d : ShmDispatcher) (channel_id : Z) : ShmDispatcher :=
  match segments_ d !! channel_id with
  | Some _ => d
  | None => mkShmD (base d) (host_id_ d) (<[channel_id := NewSegment READ_ONLY]> (segments_ d))
              (<[channel_id := UINT32_MAX]> (previous_indexes_ d))
  end.

Definition with_base (d : ShmDispatcher) (b : Dispatcher Listened) : ShmDispatcher :=
  mkShmD b (host_id_ d) (segments_ d) (previous_indexes_ d).

Definition Shm_AddListener (d : ShmDispatcher) (channel_id self_id : Z) (listener : nat) : ShmDispatcher :=
  AddSegment (with_base d (AddListener (base d) channel_id BlockType self_id listener)) channel_id.
Definition Shm_AddListenerTo (d : ShmDispatcher) (channel_id self_id oppo_id : Z) (listener : nat) : ShmDispatcher :=
  AddSegment (with_base d (AddListenerTo (base d) channel_id BlockType self_id oppo_id listener)) channel_id.

Definition Shm_Shutdown (d : ShmDispatcher) : ShmDispatcher :=
  if is_shutdown_ (base d) then d else mkShmD (Shutdown (base d)) (host_id_ d) ∅ (previous_indexes_ d).

Definition Shm_OnMessage (d : ShmDispatcher) (channel_id : Z) (rb : list Z) (msg_info : MessageInfo) : ShmDispatcher :=
  if is_shutdown_ (base d) then d
  else match Get (msg_listeners_ (base d)) channel_id with
  | Some b => with_base d (store (base d) channel_id
      (mkBase (msg_type b) (Run (handler b) (rb, msg_info) (hash_value_ (sender_id_ msg_info)))))
  | None => d
  end.

Definition with_segment (d : ShmDispatcher) (channel_id : Z) (s : Segment) : ShmDispatcher :=
  mkShmD (base d) (host_id_ d) (<[channel_id := s]> (segments_ d)) (previous_indexes_ d).

Definition ReadMessage (os1 os2 : Os) (w : Shared) (d : ShmDispatcher) (channel_id block_index : Z)
    : option (Shared * ShmDispatcher) :=
  match segments_ d !! channel_id with
  | None => None
  | Some s =>
      match AcquireBlockToRead sizeof_State sizeof_Block os1 os2 (segs w) s block_index with
      | None => None
      | Some (None, g, s) => Some (mkShared g (bytes w) (sizes w), with_segment d channel_id s)
      | Some (Some h, g, s) =>
          match buf h, shm_ s with
          | Some off, Some o =>
              let '(msg_size, msg_info_size) := block_sizes w o block_index in
              let rb := read_at o off (Z.to_nat msg_size) (bytes w) in
              let '(ok, msg_info) := DeserializeFrom Hash NewInfo
                (read_at o (off + msg_size) (Z.to_nat kSize) (bytes w)) msg_info_size in
              let d := with_segment d channel_id s in
              let d := if ok then Shm_OnMessage d channel_id rb msg_info else d in
              match ReleaseReadBlock g s block_index with
              | Some g => Some (mkShared g (bytes w) (sizes w), d)
              | None => None
              end
          | _, _ => None
          end
      end
  end.

(** One round of ThreadFunc with what Listen returned. *)
Definition ThreadFunc_round (os1 os2 : Os) (w : Shared) (d : ShmDispatcher) (readable_info : option ReadableInfo.t)
    : option (Shared * ShmDispatcher) :=
  if is_shutdown_ (base d) then Some (w, d)
  else match readable_info with
  | None => Some (w, d)
  | Some r =>
      if negb (ReadableInfo.host_id_ r =? host_id_ d) then Some (w, d)
      else
        let channel_id := ReadableInfo.channel_id_ r in
        match segments_ d !! channel_id with
        | None => Some (w, d)
        | Some _ =>
            let d := mkShmD (base d) (host_id_ d) (segments_ d) (<[channel_id := ReadableInfo.block_index_ r]> (previous_indexes_ d)) in
            ReadMessage os1 os2 w d channel_id (ReadableInfo.block_index_ r)
        end
  end.

(** The adapter around a listener. *)
Definition listened (c : nat * Listened) : option (nat * (M * MessageInfo)) :=
  let '(f, (rb, msg_info)) := c in
  match ParseMsg rb (i32 (zlen rb)) with Some m => Some (f, (m, msg_info)) | None => None end.

(** ** Delivery *)

Hypothesis State_fits : 0 < sizeof_State <= STATE_SIZE.
Hypothesis Block_fits : 0 < sizeof_Block <= BLOCK_SIZE.

Notation seg_ok := (seg_ok sizeof_State sizeof_Block).

(** A segment that maps the same object as another one. *)
Lemma seg_ok_shared w w' s s' o m m' :
  seg_ok w s o m -> seg_ok w' s' o m' -> st_ceiling m = st_ceiling m' -> seg_ok w' s o m'.
Proof.
  intros [] [] E. constructor; try done; [by rewrite <- E|]. by rewrite sg_conf, E, <- sg_conf0.
Qed.

Lemma seg_ok_ceiling w w' s o m m' : seg_ok w s o m -> seg_ok w' s o m' -> st_ceiling m = st_ceiling m'.
Proof.
  intros Ha Hb. rewrite <- (sg_ceiling _ _ _ _ _ _ Ha), <- (sg_ceiling _ _ _ _ _ _ Hb).
  by rewrite <- (sg_conf _ _ _ _ _ _ Ha), <- (sg_conf _ _ _ _ _ _ Hb).
Qed.

(** Releasing a written block makes it free. *)
Lemma ReleaseWrittenBlock_frees w s o m i :
  seg_ok w s o m -> zget (locks m) i = Some (-1) ->
  let m' := with_locks m (zset (locks m) i 0) in
  let w' := Segment.mkWorld (<[o := m']> (objs w)) (removals w) in
  ReleaseWrittenBlock w s i = Some w' /\ seg_ok w' s o m' /\ zget (locks m') i = Some 0.
Proof.
  intros Hok Hi. pose proof Hok as [Hin Hs Ho Hc Hceil Hl Hw Hb].
  assert (0 <= i < zlen (locks m)) as Hr by (apply zget_Some; by eexists).
  intros m' w'. split_and!.
  - unfold ReleaseWrittenBlock, add_lock. destruct (Z.leb_spec (block_num_ (conf_ s)) i); [lia|]. by rewrite Hs, Ho, Hi.
  - constructor; try done; [apply list_lookup_insert_eq; by eapply lookup_lt_Some|].
    change (zlen (zset (locks m) i 0) = block_num_ (conf_ s)). by rewrite zlen_zset.
  - by apply zget_zset_eq.
Qed.

(** What a block holds. *)
Definition holds_message (w : Shared) (s : Segment) (o : nat) (i : Z) (bs : list Z) (info : MessageInfo) : Prop :=
  block_sizes w o i = (zlen bs, kSize) /\
  read_at o (buf_offset sizeof_State sizeof_Block (conf_ s) i) (length bs) (bytes w) = bs /\
  read_at o (buf_offset sizeof_State sizeof_Block (conf_ s) i + zlen bs) (Z.to_nat kSize) (bytes w) = SerializeTo info.

Lemma Transmit_fits os1 os2 os3 fuel notified host chan w s o m msg bs info :
  seg_ok (segs w) s o m -> need_remap_ m = false -> (exists i, zget (locks m) i = Some 0) -> (512 <= fuel)%nat ->
  serializes msg bs -> zlen bs <= ceiling_msg_size_ (conf_ s) -> info_ok Hash info ->
  exists i w' m', Transmit os1 os2 os3 fuel notified true host chan w s msg info =
      Some (notified, w', s, Some (ReadableInfo.mk host i chan)) /\
    zget (locks m) i = Some 0 /\ seg_ok (segs w') s o m' /\ need_remap_ m' = false /\ zget (locks m') i = Some 0 /\
    st_ceiling m' = st_ceiling m /\ holds_message w' s o i bs info /\
    (forall j bs' info', j <> i -> 0 <= j < block_num_ (conf_ s) -> info_ok Hash info' -> zlen bs' <= ceiling_msg_size_ (conf_ s) ->
       holds_message w s o j bs' info' -> holds_message w' s o j bs' info').
Proof.
  intros Hok Hnr Hfree Hfuel [Hser Hlen] Hfits Hinfo.
  pose proof (sg_conf _ _ _ _ _ _ Hok) as Hc. destruct (Update_cases (st_ceiling m)) as (_ & _ & _ & Hceil & Ebuf & _ & _).
  rewrite <- Hc in Hceil, Ebuf. pose proof (zlen_nonneg bs) as Hnn.
  assert (zlen bs <= MESSAGE_SIZE_MORE) as Hmax by lia. unfold MESSAGE_SIZE_MORE in Hmax.
  unfold Transmit. cbn [negb]. rewrite <- Hlen, (u64_small (zlen bs)) by (unfold is_u64; lia).
  rewrite (i32_small (zlen bs)), Hlen, Hser, <- Hlen by (unfold is_i32; lia).
  destruct (AcquireBlockToWrite_fits _ _ os1 os2 os3 fuel _ _ _ _ (zlen bs) Hok Hnr Hfree Hfuel Hfits)
    as (i & m1 & -> & Hin & Hfr & Hlk & Hok1 & Hn1). cbn [buf index].
  rewrite (sg_shm _ _ _ _ _ _ Hok1). cbn [segs].
  assert (zget (locks m1) i = Some (-1)) as Hi1 by (rewrite Hlk; apply zget_zset_eq, zget_Some; by eexists).
  destruct (ReleaseWrittenBlock_frees _ _ _ _ _ Hok1 Hi1) as (Hrel & Hok2 & Hi2).
  unfold SerializeToArray. rewrite Z.ltb_irrefl. cbn [segs bytes sizes]. rewrite Hrel.
  eexists i, _, _. split; [reflexivity|]. split; [done|]. cbn [segs]. split; [exact Hok2|]. split; [done|]. split; [exact Hi2|].
  split; [symmetry; by eapply seg_ok_ceiling|].
  set (off := buf_offset sizeof_State sizeof_Block (conf_ s)). pose proof (SerializeTo_length Hash info Hinfo) as Hil. split.
  - split_and!; cbn [bytes]; unfold block_sizes; cbn [sizes].
    + by rewrite lookup_insert_eq.
    + apply read_write_first.
    + rewrite <- Hil. apply read_write.
  - intros j bs' info' Hj Hjn Hinfo' Hlen' (Hs' & Hb' & Hi').
    assert (zlen (SerializeTo info) = kSize) as Hk by (unfold zlen; by rewrite Hil).
    assert (off i + zlen bs + kSize <= off j \/ off j + zlen bs' + kSize <= off i) as Hap.
    { pose proof (buf_apart sizeof_State sizeof_Block (st_ceiling m) i j State_fits Block_fits) as Ha.
      rewrite <- Hc in Ha. specialize (Ha Hin Hjn (not_eq_sym Hj)). unfold off, kSize, ID_SIZE, MESSAGE_INFO_SIZE in *. cbn zeta in Ha. lia. }
    assert (kSize = 24) as Hk24 by done. pose proof (zlen_nonneg bs').
    subst off. cbn beta in Hap. split_and!; cbn [bytes]; unfold block_sizes; cbn [sizes].
    + rewrite !lookup_insert_ne by (by intros [= ]). exact Hs'.
    + rewrite !read_write_apart; [exact Hb'|unfold zlen in *; lia|rewrite Hk; unfold zlen in *; lia].
    + rewrite !read_write_apart; [exact Hi'|unfold zlen in *; lia|rewrite Hk; unfold zlen in *; lia].
Qed.

(** The information a reader sees: equal, with the hashes of the identities. *)
Definition received (info : MessageInfo) : MessageInfo :=
  mkInfo (Wire.Update Hash (data_ (sender_id_ info))) (seq_num_ info) (Wire.Update Hash (data_ (spare_id_ info))).

Lemma ReadMessage_holds os1 os2 w d chan s o m i n bs info :
  segments_ d !! chan = Some s -> seg_ok (segs w) s o m -> need_remap_ m = false ->
  zget (locks m) i = Some n -> 0 <= n < 2 ^ 31 - 1 -> holds_message w s o i bs info -> info_ok Hash info ->
  ReadMessage os1 os2 w d chan i = Some (w, Shm_OnMessage d chan bs (received info)).
Proof.
  intros Hd Hok Hnr Hi Hn (Hs & Hb & Hm) Hinfo. unfold ReadMessage. rewrite Hd.
  destruct (AcquireBlockToRead_fits _ _ os1 os2 _ _ _ _ _ _ Hok Hnr Hi Hn) as (-> & _ & _ & _ & Hrel).
  cbn [buf]. rewrite (sg_shm _ _ _ _ _ _ Hok), Hs.
  pose proof (Deserialize_Serialize Hash info NewInfo [] Hinfo) as Hde. rewrite app_nil_r in Hde.
  cbv iota beta zeta. replace (Z.to_nat (zlen bs)) with (length bs) by (unfold zlen; lia). rewrite Hb, Hm, Hde, Hrel.
  assert (with_segment d chan s = d) as ->.
  { unfold with_segment. rewrite insert_id by done. by destruct d. }
  by destruct w.
Qed.

(** A reader of the channel that is connected to the object. *)
Record listens (d : ShmDispatcher) (g : Segment.World) (host chan : Z) (o : nat) (m : Shm) (b : HandlerBase Listened) : Prop := mkListens {
  li_running : is_shutdown_ (base d) = false;
  li_host : host_id_ d = host;
  li_wf : wf_dispatcher (base d);
  li_handler : Get (msg_listeners_ (base d)) chan = Some b;
  li_segment : exists s, segments_ d !! chan = Some s /\ seg_ok g s o m
}.

Lemma Shm_OnMessage_runs d g host chan o m b bs info :
  listens d g host chan o m b ->
  handler_at (base (Shm_OnMessage d chan bs info)) chan = Run (handler b) (bs, info) (hash_value_ (sender_id_ info)).
Proof.
  intros [Hr _ Hw Hb _]. unfold Shm_OnMessage. rewrite Hr, Hb. unfold handler_at. cbn [base with_base].
  by rewrite store_get, decide_True.
Qed.
End transport.

(** C26. A message sent through shared memory arrives. The writer is connected to
    the segment, no remapping is pending, some block is free, the fuel covers one
    round over the at most 512 blocks, and the message is within the current
    ceiling. Then Transmit stores the message and its information in a free block
    and announces it; every dispatcher connected to the same segment that handles
    the announcement in the state Transmit leaves passes on exactly the transmitted
    bytes with equal information to the listeners of the channel, and leaves the
    shared memory as it found it; and every message within the ceiling that another
    block holds is still there. *)
Theorem shared_memory_delivers (Hash : list Z -> Z) sizeof_State sizeof_Block {M} `{Message M}
    os1 os2 os3 fuel host chan w s o m (msg : M) bs info :
  0 < sizeof_State <= STATE_SIZE -> 0 < sizeof_Block <= BLOCK_SIZE ->
  seg_ok sizeof_State sizeof_Block (segs w) s o m -> need_remap_ m = false ->
  (exists i, zget (locks m) i = Some 0) -> (512 <= fuel)%nat ->
  serializes msg bs -> zlen bs <= ceiling_msg_size_ (conf_ s) -> info_ok Hash info ->
  exists r w', Transmit sizeof_State sizeof_Block os1 os2 os3 fuel true true host chan w s msg info = Some (true, w', s, Some r) /\
    Info_eqb (received Hash info) info = true /\
    (forall d b os4 os5, listens sizeof_State sizeof_Block d (segs w) host chan o m b ->
       exists d', ThreadFunc_round Hash sizeof_State sizeof_Block os4 os5 w' d (Some r) = Some (w', d') /\
         handler_at (base d') chan = Run (handler b) (bs, received Hash info) (Hash (data_ (sender_id_ info)))) /\
    (forall j bs' info', j <> ReadableInfo.block_index_ r -> 0 <= j < block_num_ (conf_ s) -> info_ok Hash info' ->
       zlen bs' <= ceiling_msg_size_ (conf_ s) ->
       holds_message sizeof_State sizeof_Block w s o j bs' info' -> holds_message sizeof_State sizeof_Block w' s o j bs' info').
Proof.
  intros Hst Hbl Hok Hnr Hfree Hfuel Hser Hfits Hinfo.
  destruct (Transmit_fits Hash _ _ Hst Hbl os1 os2 os3 fuel true host chan w s o m msg bs info Hok Hnr Hfree Hfuel Hser Hfits Hinfo)
    as (i & w' & m' & -> & Hi & Hok' & Hnr' & Hi' & Hceil & Hholds & Hframe).
  eexists _, w'. split; [reflexivity|]. split; [by apply Info_eqb_equiv|]. split; [|exact Hframe].
  intros d b os4 os5 Hd. pose proof Hd as [Hrun Hhost Hwf Hb (rs & Hrs & Hrok)].
  pose proof (seg_ok_shared _ _ _ _ _ _ _ _ _ Hrok Hok' (eq_sym Hceil)) as Hrok'.
  unfold ThreadFunc_round. cbn [ReadableInfo.host_id_ ReadableInfo.channel_id_ ReadableInfo.block_index_].
  rewrite Hrun, Hhost, Z.eqb_refl. cbn [negb]. rewrite Hrs. set (d1 := mkShmD _ _ _ _).
  assert (holds_message sizeof_State sizeof_Block w' rs o i bs info) as Hholds'.
  { unfold holds_message in *. by rewrite (sg_conf _ _ _ _ _ _ Hrok'), <- (sg_conf _ _ _ _ _ _ Hok'). }
  rewrite (ReadMessage_holds Hash _ _ os4 os5 w' d1 chan rs o m' i 0 bs info Hrs Hrok' Hnr' Hi' ltac:(lia) Hholds' Hinfo).
  eexists. split; [reflexivity|].
  apply (Shm_OnMessage_runs sizeof_State sizeof_Block d1 (segs w) host chan o m b). by constructor; [..|exists rs].
Qed.

(** A reader with one listener of channel 9, on the segment of [some_world]. *)
Definition demo_hash (bs : list Z) : Z := le_value bs.
Definition demo_shared : Shared := mkShared some_world ∅ ∅.
Definition demo_base : HandlerBase (list Z * MessageInfo) := mkBase BlockType (Handler_Connect NewHandler 70 10).
Definition demo_reader : ShmDispatcher :=
  mkShmD (store NewDispatcher 9 demo_base) 5 {[9 := mkSegment true READ_ONLY NewConf (Some 0%nat) (buf_addrs 32 32 NewConf)]} ∅.
Definition demo_info : MessageInfo := mkInfo (GenIdentity demo_hash [1; 2; 3; 4; 5; 6; 7; 8; 9]) 42 EmptyIdentity.

Lemma demo_info_ok : info_ok demo_hash demo_info.
Proof.
  split_and!; try (by split_and!); unfold identity_ok; split_and!; try done; try (by left); try (by right);
    repeat constructor; done.
Qed.

Lemma demo_listens : listens 32 32 demo_reader some_world 5 9 0 (mkShm false 1 1 MESSAGE_SIZE_16K ((-1) :: replicate 511 0)) demo_base.
Proof.
  constructor; try done.
  - apply store_wf, NewDispatcher_wf.
  - eexists. split; [apply lookup_singleton_eq|]. constructor; try reflexivity.
    + unfold is_u32. simpl. lia.
    + intros i Hi. by apply buf_addrs_at.
Qed.

Lemma shared_memory_delivers_witness :
  exists r w' d', Transmit 32 32 some_os some_os some_os 512 true true 5 9 demo_shared some_segment (mkRaw [104; 105] 7) demo_info
      = Some (true, w', some_segment, Some r) /\
    ThreadFunc_round demo_hash 32 32 some_os some_os w' demo_reader (Some r) = Some (w', d') /\
    omap listened (calls (world (handler_at (base d') 9))) = [(10%nat, (mkRaw [104; 105] 0, received demo_hash demo_info))].
Proof.
  destruct (shared_memory_delivers demo_hash 32 32 some_os some_os some_os 512 5 9 demo_shared some_segment 0
    (mkShm false 1 1 MESSAGE_SIZE_16K ((-1) :: replicate 511 0)) (mkRaw [104; 105] 7) [104; 105] demo_info)
    as (r & w' & E & _ & Hd & _).
  - unfold STATE_SIZE. lia.
  - unfold BLOCK_SIZE. lia.
  - exact some_segment_ok.
  - reflexivity.
  - by exists 1.
  - lia.
  - by split.
  - vm_compute. discriminate.
  - apply demo_info_ok.
  - destruct (Hd demo_reader demo_base some_os some_os demo_listens) as (d' & E' & Eh).
    exists r, w', d'. split; [exact E|]. split; [exact E'|]. rewrite Eh. reflexivity.
Defined.

(** An empty raw message is transmitted but refused by the listeners. *)
Theorem empty_raw_message_is_dropped f info : listened (M := RawMessage) (f, ([], info)) = None.
Proof. reflexivity. Qed.
