(* ===== verification/DataDispatch.v ===== *)
(** DataDispatch.v -- from a received message to the buffers and callbacks of its readers

    - src/src/apollo/cyber/data/data_dispatcher.h
    - src/src/apollo/cyber/data/data_notifier.h
    - src/src/apollo/cyber/data/data_visitor_base.h and the construction of the
      single-channel DataVisitor (data_visitor.h)

    Buffers live in a heap because the dispatcher only holds weak pointers to them:
    the buffer of a visitor that was destroyed is [None].  Notifiers are shared and
    never freed, the notifier's table holds them.  A callback is a name, and the
    calls are recorded. *)

From S2P Require Import Prelude.
From S2P Require Import CacheBuffer.
From S2P Require Import AtomicHashMap.
Local Open Scope Z_scope.

Section dispatch.
Context {T : Type} (dflt : T).

Notation Buffer := (CacheBuffer T unit).

Record Data := mkData {
  buffers : list (option Buffer);                  (* the heap of buffers *)
  buffers_map_ : AtomicHashMap (list nat);
  notifiers : list (option nat);                   (* Notifier::callback *)
  notifies_map_ : AtomicHashMap (list (option nat));
  called : list nat
}.
Definition NewData : Data := mkData [] (NewMap 128) [] (NewMap 128) [].

(** DataDispatcher::AddBuffer; the vector is changed in place. *)
Definition AddBuffer (d : Data) (channel_id : Z) (p : nat) : Data :=
  let bs := match Get (buffers_map_ d) channel_id with Some bs => bs ++ [p] | None => [p] end in
  mkData (buffers d) (Set_ (buffers_map_ d) channel_id bs) (notifiers d) (notifies_map_ d) (called d).

(** DataNotifier::AddNotifier *)
Definition AddNotifier (d : Data) (channel_id : Z) (n : option nat) : Data :=
  let ns := match Get (notifies_map_ d) channel_id with Some ns => ns ++ [n] | None => [n] end in
  mkData (buffers d) (buffers_map_ d) (notifiers d) (Set_ (notifies_map_ d) channel_id ns) (called d).

(** The loop of Notify over the notifiers of the channel. *)
Definition notify_calls (d : Data) (ns : list (option nat)) : list nat :=
  omap (fun n => n ≫= fun p => notifiers d !! p ≫= id) ns.

Definition Notify (d : Data) (channel_id : Z) : bool * Data :=
  match Get (notifies_map_ d) channel_id with
  | Some ns => (true, mkData (buffers d) (buffers_map_ d) (notifiers d) (notifies_map_ d) (called d ++ notify_calls d ns))
  | None => (false, d)
  end.

(** The loop of Dispatch over the weak pointers. *)
Definition fill_one (msg : T) (h : list (option Buffer)) (p : nat) : list (option Buffer) :=
  match h !! p with
  | Some (Some b) => <[p := Some (fst (Fill b msg tt))]> h
  | _ => h
  end.

Definition Dispatch (is_shutdown : bool) (d : Data) (channel_id : Z) (msg : T) : bool * Data :=
  if is_shutdown then (false, d)
  else match Get (buffers_map_ d) channel_id with
  | None => (false, d)
  | Some bs =>
      Notify (mkData (foldl (fill_one msg) (buffers d) bs) (buffers_map_ d) (notifiers d) (notifies_map_ d) (called d)) channel_id
  end.

(** The constructor of a visitor, its callback, and its destruction. *)
Definition NewVisitor (d : Data) (channel_id queue_size : Z) : Data :=
  let n := length (notifiers d) in
  let p := length (buffers d) in
  let d := mkData (buffers d ++ [Some (New dflt queue_size)]) (buffers_map_ d) (notifiers d ++ [None]) (notifies_map_ d) (called d) in
  AddNotifier (AddBuffer d channel_id p) channel_id (Some n).

Definition RegisterNotifyCallback (d : Data) (n : nat) (callback : nat) : Data :=
  mkData (buffers d) (buffers_map_ d) (<[n := Some callback]> (notifiers d)) (notifies_map_ d) (called d).

Definition DestroyVisitor (d : Data) (p : nat) : Data :=
  mkData (<[p := None]> (buffers d)) (buffers_map_ d) (notifiers d) (notifies_map_ d) (called d).

(** ** Specification: the visitors in the order of their creation *)

Inductive Op :=
| OVisit (channel_id queue_size : Z)
| ORegister (n : nat) (callback : nat)
| ODestroy (p : nat)
| ODispatch (channel_id : Z) (msg : T).

Definition exec (d : Data) (op : Op) : Data :=
  match op with
  | OVisit c q => NewVisitor d c q
  | ORegister n f => RegisterNotifyCallback d n f
  | ODestroy p => DestroyVisitor d p
  | ODispatch c m => snd (Dispatch false d c m)
  end.

Record Visitor := mkVisitor { v_channel : Z; v_size : Z; v_alive : bool; v_callback : option nat; v_got : list T }.

Definition spec (st : list Visitor * list nat) (op : Op) : list Visitor * list nat :=
  let '(vs, cs) := st in
  match op with
  | OVisit c q => (vs ++ [mkVisitor c q true None []], cs)
  | ORegister n f => (alter (fun v => mkVisitor (v_channel v) (v_size v) (v_alive v) (Some f) (v_got v)) n vs, cs)
  | ODestroy p => (alter (fun v => mkVisitor (v_channel v) (v_size v) false (v_callback v) (v_got v)) p vs, cs)
  | ODispatch c m =>
      ((fun v => if (v_channel v =? c) && v_alive v
                 then mkVisitor (v_channel v) (v_size v) true (v_callback v) (v_got v ++ [m]) else v) <$> vs,
       cs ++ omap v_callback (List.filter (fun v => v_channel v =? c) vs))
  end.

(** The positions of the visitors of a channel. *)
Fixpoint positions (c : Z) (k : nat) (vs : list Visitor) : list nat :=
  match vs with
  | [] => []
  | v :: vs => if v_channel v =? c then k :: positions c (S k) vs else positions c (S k) vs
  end.

Definition some_list {A} (l : list A) : option (list A) := match l with [] => None | _ => Some l end.

Definition buffer_rep (v : Visitor) (b : option Buffer) : Prop :=
  if v_alive v then exists b', b = Some b' /\ rep (v_size v) b' (v_got v) else b = None.

Record data_rep (d : Data) (vs : list Visitor) (n : Z) : Prop := mkDataRep {
  dr_bwf : wf 7 (buffers_map_ d);
  dr_nwf : wf 7 (notifies_map_ d);
  dr_bmap : forall c, Get (buffers_map_ d) c = some_list (positions c 0 vs);
  dr_nmap : forall c, Get (notifies_map_ d) c = some_list (Some <$> positions c 0 vs);
  dr_notifiers : notifiers d = v_callback <$> vs;
  dr_buffers : Forall2 buffer_rep vs (buffers d);
  dr_count : forall v, v ∈ vs -> zlen (v_got v) <= n
}.

Lemma elem_of_positions c k j vs : k ∈ positions c j vs <-> (j <= k)%nat /\ exists v, vs !! (k - j)%nat = Some v /\ v_channel v = c.
Proof.
  revert j. induction vs as [|v vs IH]; intros j; simpl; [rewrite elem_of_nil; naive_solver|].
  assert (k ∈ positions c (S j) vs <-> (j < k)%nat /\ exists v', (v :: vs) !! (k - j)%nat = Some v' /\ v_channel v' = c) as E.
  { rewrite IH. split; intros (Hle & v' & Hv & Ec); (split; [lia|]); exists v'; (split; [|done]).
    - by replace (k - j)%nat with (S (k - S j)) by lia.
    - by replace (k - j)%nat with (S (k - S j)) in Hv by lia. }
  destruct (Z.eqb_spec (v_channel v) c) as [Ec|Ec]; rewrite ?elem_of_cons, E; split.
  - intros [->|[Hl Hv]]; [split; [lia|]; exists v; by rewrite Nat.sub_diag|split; [lia|done]].
  - intros [Hl Hv]. destruct (decide (k = j)) as [->|]; [by left|right; split; [lia|done]].
  - intros [Hl Hv]. split; [lia|done].
  - intros [Hl (v' & Hv & Ec')]. split; [|by exists v']. destruct (decide (k = j)) as [->|]; [|lia].
    rewrite Nat.sub_diag in Hv. by injection Hv as <-.
Qed.

Lemma NoDup_positions c j vs : NoDup (positions c j vs).
Proof.
  revert j. induction vs as [|v vs IH]; intros j; simpl; [constructor|].
  destruct (v_channel v =? c); [|done]. constructor; [|done]. rewrite elem_of_positions. lia.
Qed.

Lemma positions_snoc c j vs v :
  positions c j (vs ++ [v]) = positions c j vs ++ (if v_channel v =? c then [(j + length vs)%nat] else []).
Proof.
  revert j. induction vs as [|v' vs IH]; intros j; simpl.
  - rewrite Nat.add_0_r. by destruct (v_channel v =? c).
  - rewrite IH. replace (S j + length vs)%nat with (j + S (length vs))%nat by lia. by destruct (v_channel v' =? c).
Qed.

Lemma positions_ext c j vs vs' : v_channel <$> vs = v_channel <$> vs' -> positions c j vs = positions c j vs'.
Proof.
  revert j vs'. induction vs as [|v vs IH]; intros j [|v' vs'] E; try done. injection E as Ev E. simpl.
  by rewrite Ev, (IH (S j) vs').
Qed.

(** Each buffer of the list is filled once. *)
Lemma fill_all_lookup msg ps : forall h k, NoDup ps ->
  foldl (fill_one msg) h ps !! k =
    if decide (k ∈ ps) then (fun b => (fun b => fst (Fill b msg tt)) <$> b) <$> h !! k else h !! k.
Proof.
  induction ps as [|p ps IH]; intros h k Hnd; [done|]. apply NoDup_cons in Hnd as [Hp Hnd]. simpl. rewrite IH by done.
  assert (fill_one msg h p !! k = if decide (k = p) then (fun b => (fun b => fst (Fill b msg tt)) <$> b) <$> h !! k else h !! k) as E.
  { unfold fill_one. destruct (decide (k = p)) as [->|Hne].
    - destruct (h !! p) as [[b|]|] eqn:Hh; rewrite ?Hh; [|done|done]. apply list_lookup_insert_eq. by eapply lookup_lt_Some.
    - destruct (h !! p) as [[b|]|]; try done. by apply list_lookup_insert_ne. }
  rewrite E. destruct (decide (k = p)) as [->|Hne].
  - rewrite (decide_False (P := p ∈ ps)), (decide_True (P := p ∈ p :: ps)) by (done || left). done.
  - destruct (decide (k ∈ ps)) as [Hin|Hin].
    + rewrite decide_True by (by right). done.
    + rewrite decide_False; [done|]. rewrite elem_of_cons. tauto.
Qed.

Lemma fill_all_length msg ps h : length (foldl (fill_one msg) h ps) = length h.
Proof.
  revert h. induction ps as [|p ps IH]; intros h; [done|]. simpl. rewrite IH. unfold fill_one.
  destruct (h !! p) as [[b|]|]; [apply length_insert|done|done].
Qed.

(** The callbacks of a channel. *)
Lemma notify_calls_spec d c pre vs :
  notifiers d = v_callback <$> (pre ++ vs) ->
  notify_calls d (Some <$> positions c (length pre) vs) = omap v_callback (List.filter (fun v => v_channel v =? c) vs).
Proof.
  revert pre. induction vs as [|v vs IH]; intros pre Hn; [done|]. simpl.
  assert (notifiers d !! length pre = Some (v_callback v)) as Hl.
  { rewrite Hn, list_lookup_fmap, lookup_app_r, Nat.sub_diag by lia. done. }
  specialize (IH (pre ++ [v])). rewrite length_app in IH. simpl in IH. rewrite Nat.add_1_r in IH.
  rewrite <- app_assoc in IH. specialize (IH Hn).
  destruct (v_channel v =? c); [|exact IH]. unfold notify_calls in *. simpl. rewrite Hl. simpl.
  destruct (v_callback v); [f_equal; exact IH|exact IH].
Qed.

(** The operations keep the relation. *)
Lemma rep_visit d vs n c q : data_rep d vs n -> 0 <= n -> 0 <= q -> q + 1 < 2 ^ 64 ->
  data_rep (NewVisitor d c q) (vs ++ [mkVisitor c q true None []]) n.
Proof.
  intros [Hb Hn Hbm Hnm Hno Hbu Hc] H0 Hq Hq'. pose proof (Forall2_length _ _ _ Hbu) as Hlen.
  assert (length (notifiers d) = length vs) as Hlen' by (by rewrite Hno, length_fmap).
  constructor; simpl; [by apply Set_wf|by apply Set_wf| | | | |].
  - intros c'. rewrite (Get_Set 7), !Hbm, positions_snoc by done. simpl. rewrite <- Hlen.
    destruct (decide (c = c')) as [->|Hne]; [rewrite Z.eqb_refl; by destruct (positions c' 0 vs)|].
    destruct (Z.eqb_spec c c'); [done|]. by rewrite app_nil_r.
  - intros c'. rewrite (Get_Set 7), !Hnm, positions_snoc by done. simpl. rewrite <- Hlen', fmap_app.
    destruct (decide (c = c')) as [->|Hne]; [rewrite Z.eqb_refl; by destruct (positions c' 0 vs)|].
    destruct (Z.eqb_spec c c'); [done|]. by rewrite app_nil_r.
  - by rewrite Hno, fmap_app.
  - apply Forall2_app; [done|]. repeat constructor. eexists. split; [done|]. by apply rep_New.
  - intros v [Hv|Hv%list_elem_of_singleton]%elem_of_app; [by apply Hc|]. subst v. done.
Qed.

(** An update of one visitor that keeps its channel. *)
Lemma alter_channels (f : Visitor -> Visitor) (k : nat) (vs : list Visitor) : (forall v, v_channel (f v) = v_channel v) -> v_channel <$> alter f k vs = v_channel <$> vs.
Proof.
  intros Hf. apply list_eq. intros i. rewrite !list_lookup_fmap, list_lookup_alter.
  destruct (decide (k = i)) as [->|]; [|done]. destruct (vs !! i); simpl; [by rewrite Hf|done].
Qed.

Lemma alter_elem (f : Visitor -> Visitor) (k : nat) (vs : list Visitor) v :
  v ∈ alter f k vs -> exists v', v' ∈ vs /\ (v = v' \/ v = f v').
Proof.
  intros (i & Hi)%list_elem_of_lookup. rewrite list_lookup_alter in Hi.
  destruct (decide (k = i)) as [->|]; [|exists v; split; [apply list_elem_of_lookup; eauto|by left]].
  destruct (vs !! i) as [v'|] eqn:Hv'; [|done]. injection Hi as <-. exists v'.
  split; [apply list_elem_of_lookup; eauto|by right].
Qed.

Lemma rep_register d vs n k f : data_rep d vs n ->
  data_rep (RegisterNotifyCallback d k f)
    (alter (fun v => mkVisitor (v_channel v) (v_size v) (v_alive v) (Some f) (v_got v)) k vs) n.
Proof.
  intros [Hb Hn Hbm Hnm Hno Hbu Hc]. set (g := fun v => _).
  assert (forall c, positions c 0 (alter g k vs) = positions c 0 vs) as Ep by (intros c; apply positions_ext, alter_channels; done).
  constructor; simpl; try done.
  - intros c. by rewrite Ep.
  - intros c. by rewrite Ep.
  - rewrite Hno. apply list_eq. intros i. rewrite list_lookup_fmap, list_lookup_alter.
    destruct (decide (k = i)) as [->|Hne]; [|by rewrite list_lookup_insert_ne, list_lookup_fmap].
    destruct (vs !! i) eqn:Hv; simpl.
    + apply list_lookup_insert_eq. rewrite length_fmap. by eapply lookup_lt_Some.
    + apply lookup_ge_None. rewrite length_insert, length_fmap. by apply lookup_ge_None.
  - apply Forall2_same_length_lookup. rewrite length_alter. split; [by eapply Forall2_length|].
    intros i v b Hv Hi. rewrite list_lookup_alter in Hv.
    destruct (decide (k = i)) as [->|]; [|by eapply Forall2_lookup_lr].
    destruct (vs !! i) as [v'|] eqn:Hv'; [|done]. injection Hv as <-.
    pose proof (Forall2_lookup_lr _ _ _ _ _ _ Hbu Hv' Hi) as Hr. exact Hr.
  - intros v (v' & Hv & [->| ->])%alter_elem; by apply (Hc v').
Qed.

Lemma rep_destroy d vs n k : data_rep d vs n ->
  data_rep (DestroyVisitor d k)
    (alter (fun v => mkVisitor (v_channel v) (v_size v) false (v_callback v) (v_got v)) k vs) n.
Proof.
  intros [Hb Hn Hbm Hnm Hno Hbu Hc]. set (g := fun v => _).
  assert (forall c, positions c 0 (alter g k vs) = positions c 0 vs) as Ep by (intros c; apply positions_ext, alter_channels; done).
  constructor; simpl; try done.
  - intros c. by rewrite Ep.
  - intros c. by rewrite Ep.
  - rewrite Hno. apply list_eq. intros i. rewrite !list_lookup_fmap, list_lookup_alter.
    destruct (decide (k = i)) as [->|Hne]; [by destruct (vs !! i)|done].
  - apply Forall2_same_length_lookup. rewrite length_alter, length_insert. split; [by eapply Forall2_length|].
    intros i v b Hv Hi. rewrite list_lookup_alter in Hv.
    destruct (decide (k = i)) as [->|Hne]; [|rewrite list_lookup_insert_ne in Hi by done; by eapply Forall2_lookup_lr].
    destruct (vs !! i) as [v'|] eqn:Hv'; [|done]. injection Hv as <-.
    apply list_lookup_insert_Some in Hi as [(_ & <- & _)|[? _]]; done.
  - intros v (v' & Hv & [->| ->])%alter_elem; by apply (Hc v').
Qed.

Definition deliver (c : Z) (m : T) (v : Visitor) : Visitor :=
  if (v_channel v =? c) && v_alive v
  then mkVisitor (v_channel v) (v_size v) true (v_callback v) (v_got v ++ [m]) else v.

Lemma deliver_same c m vs : positions c 0 vs = [] -> deliver c m <$> vs = vs.
Proof.
  intros E. apply list_eq. intros i. rewrite list_lookup_fmap. destruct (vs !! i) as [v|] eqn:Hv; [|done]. simpl. f_equal.
  unfold deliver. destruct (Z.eqb_spec (v_channel v) c) as [Ec|]; [|done]. exfalso.
  assert (i ∈ positions c 0 vs) as Hin by (apply elem_of_positions; split; [lia|exists v; by rewrite Nat.sub_0_r]).
  rewrite E in Hin. by apply elem_of_nil in Hin.
Qed.

Lemma positions_existsb c j vs : existsb (fun v => v_channel v =? c) vs = match positions c j vs with [] => false | _ => true end.
Proof. revert j. induction vs as [|v vs IH]; intros j; simpl; [done|]. rewrite (IH (S j)). by destruct (v_channel v =? c). Qed.

Lemma filter_none c vs : positions c 0 vs = [] -> List.filter (fun v => v_channel v =? c) vs = [].
Proof.
  intros E. assert (forall l j, positions c j l = [] -> List.filter (fun v => v_channel v =? c) l = []) as HG; [|by apply (HG vs 0%nat)].
  induction l as [|v l IH]; intros j Hj; [done|]. simpl in *. destruct (v_channel v =? c); [done|by eapply IH].
Qed.

Lemma rep_filled vs h c m n : n + 1 < 2 ^ 64 -> (forall v, v ∈ vs -> zlen (v_got v) <= n) -> Forall2 buffer_rep vs h ->
  Forall2 buffer_rep (deliver c m <$> vs) (foldl (fill_one m) h (positions c 0 vs)).
Proof.
  intros Hn Hc Hbu. apply Forall2_same_length_lookup. rewrite length_fmap, fill_all_length. split; [by eapply Forall2_length|].
  intros i v b Hv Hi. rewrite list_lookup_fmap in Hv. destruct (vs !! i) as [v'|] eqn:Hv'; [|done]. injection Hv as <-.
  rewrite fill_all_lookup in Hi by apply NoDup_positions.
  destruct (h !! i) as [b'|] eqn:Hh; [|by destruct (decide _)].
  pose proof (Forall2_lookup_lr _ _ _ _ _ _ Hbu Hv' Hh) as Hr. unfold deliver.
  assert (i ∈ positions c 0 vs <-> v_channel v' = c) as Hin.
  { rewrite elem_of_positions, Nat.sub_0_r, Hv'. naive_solver lia. }
  unfold buffer_rep in *. destruct (decide (i ∈ positions c 0 vs)) as [Hp|Hp]; rewrite Hin in Hp.
  - rewrite (proj2 (Z.eqb_eq _ _) Hp). injection Hi as <-. destruct (v_alive v') eqn:Ea; simpl; [|rewrite Ea; by subst b'].
    destruct Hr as (b0 & -> & Hr). eexists. split; [reflexivity|].
    apply Fill_rep; [done|]. pose proof (Hc v' ltac:(by eapply list_elem_of_lookup_2)). lia.
  - injection Hi as <-. destruct (Z.eqb_spec (v_channel v') c); done.
Qed.

Lemma rep_dispatch d vs n c m : data_rep d vs n -> n + 1 < 2 ^ 64 ->
  let d' := snd (Dispatch false d c m) in
  data_rep d' (deliver c m <$> vs) (n + 1) /\
  called d' = called d ++ omap v_callback (List.filter (fun v => v_channel v =? c) vs) /\
  fst (Dispatch false d c m) = existsb (fun v => v_channel v =? c) vs.
Proof.
  intros [Hb Hn Hbm Hnm Hno Hbu Hc] Hlt. unfold Dispatch, Notify. rewrite Hbm. simpl notifies_map_.
  assert (v_channel <$> (deliver c m <$> vs) = v_channel <$> vs) as Ech.
  { rewrite <- list_fmap_compose. apply list_fmap_ext. intros i v _. unfold compose, deliver. by destruct (_ && _). }
  assert (forall v, v ∈ deliver c m <$> vs -> zlen (v_got v) <= n + 1) as Hc'.
  { intros v (v' & -> & Hv')%list_elem_of_fmap. specialize (Hc v' Hv'). unfold deliver. destruct (_ && _); simpl; [|lia].
    rewrite zlen_app. unfold zlen at 2. simpl. lia. }
  destruct (positions c 0 vs) as [|p ps] eqn:Ep; cbn [some_list].
  - rewrite (deliver_same c m vs Ep) in *. split_and!; [by constructor|by rewrite filter_none, app_nil_r|].
    by rewrite (positions_existsb c 0 vs), Ep.
  - rewrite Hnm, Ep. cbn [some_list fmap list_fmap]. cbn [fst snd]. split_and!.
    + constructor; cbn [buffers buffers_map_ notifiers notifies_map_]; try done.
      * intros c'. by rewrite Hbm, (positions_ext c' 0 _ vs Ech).
      * intros c'. by rewrite Hnm, (positions_ext c' 0 _ vs Ech).
      * rewrite Hno, <- list_fmap_compose. apply list_fmap_ext. intros i v _. unfold compose, deliver. by destruct (_ && _).
      * rewrite <- Ep. by eapply rep_filled.
    + cbn [called]. f_equal. rewrite <- (notify_calls_spec (mkData (foldl (fill_one m) (buffers d) (p :: ps)) (buffers_map_ d) (notifiers d) (notifies_map_ d) (called d)) c [] vs Hno).
      simpl length. by rewrite Ep.
    + by rewrite (positions_existsb c 0 vs), Ep.
Qed.

(** Queue sizes of at most 32 bits, as VisitorConfig has them. *)
Definition op_ok (op : Op) : Prop := match op with OVisit _ q => is_u32 q | _ => True end.

Lemma exec_rep d vs n op : data_rep d vs n -> 0 <= n -> n + 1 < 2 ^ 64 -> op_ok op ->
  data_rep (exec d op) (spec (vs, called d) op).1 (n + 1) /\ called (exec d op) = (spec (vs, called d) op).2.
Proof.
  intros Hr H0 Hn Hop.
  assert (forall d' vs', data_rep d' vs' n -> data_rep d' vs' (n + 1)) as Hmono.
  { intros d' vs' []. constructor; try done. intros v Hv. specialize (dr_count0 v Hv). lia. }
  destruct op as [c q|k f|k|c m]; simpl.
  - unfold op_ok, is_u32 in Hop. split; [|done]. apply Hmono, rep_visit; try done; lia.
  - split; [|done]. by apply Hmono, rep_register.
  - split; [|done]. by apply Hmono, rep_destroy.
  - destruct (rep_dispatch d vs n c m Hr Hn) as (Hd & Hc & _). by split.
Qed.

Lemma NewData_rep : data_rep NewData [] 0.
Proof.
  constructor; simpl; try done; try (by apply (NewMap_wf 7)); try (by intros c; apply (Get_New 7)).
  intros v Hv. by apply elem_of_nil in Hv.
Qed.
End dispatch.

(** C25. A message reaches the buffer of every reader of its channel and wakes each
    of them: for any sequence (of fewer than 2^64 - 1 operations, with buffer sizes
    the code can allocate) of creations and destructions of visitors, registrations
    of callbacks and dispatched messages, the buffer of every living visitor is the
    ring of that visitor's size filled with the messages dispatched on its channel
    since it was created, so it holds the newest of them that it has room for, in
    order; and the callbacks called are, for each message in turn, those of the
    visitors of its channel in the order of their creation. Dispatch returns whether
    the channel has a visitor. *)
Theorem dispatch_reaches_every_reader {T} (dflt : T) (ops : list (@Op T)) :
  Forall op_ok ops -> zlen ops < 2 ^ 64 - 1 ->
  let d := foldl (exec dflt) NewData ops in
  let '(vs, cs) := foldl spec ([], []) ops in
  Forall2 buffer_rep vs (buffers d) /\ called d = cs /\
  forall c m, fst (Dispatch false d c m) = existsb (fun v => v_channel v =? c) vs.
Proof.
  intros Hok Hlen. cbv zeta.
  assert (forall d vs n, data_rep d vs n -> 0 <= n -> n + zlen ops < 2 ^ 64 - 1 ->
    let st := foldl spec (vs, called d) ops in
    data_rep (foldl (exec dflt) d ops) st.1 (n + zlen ops) /\ called (foldl (exec dflt) d ops) = st.2) as HG.
  { clear Hlen. induction Hok as [|op ops Hop _ IH]; intros d vs n Hr H0 Hn.
    - unfold zlen. simpl. by rewrite Z.add_0_r.
    - assert (zlen (op :: ops) = 1 + zlen ops) as El by (unfold zlen; simpl; lia). pose proof (zlen_nonneg ops).
      destruct (exec_rep dflt d vs n op Hr H0 ltac:(lia) Hop) as [Hr' Hc]. cbn [foldl].
      destruct (IH _ _ _ Hr' ltac:(lia) ltac:(lia)) as [Hr2 Hc2].
      destruct (spec (vs, called d) op) as [vs' cs'] eqn:Es. simpl in Hc, Hr2, Hc2. rewrite Hc in Hr2, Hc2.
      replace (n + zlen (op :: ops)) with (n + 1 + zlen ops) by lia. by split. }
  destruct (HG NewData [] 0 NewData_rep ltac:(lia) ltac:(lia)) as [Hr Hc]. simpl called in Hr, Hc.
  destruct (foldl spec ([], []) ops) as [vs cs]. simpl in Hr, Hc. split_and!; [apply (dr_buffers _ _ _ Hr)|exact Hc|].
  intros c m. apply (rep_dispatch _ _ _ c m Hr). lia.
Qed.

(** Two readers of channel 5, one of channel 6; the first is destroyed in between. *)
Definition dispatch_demo : list (@Op string) :=
  [OVisit 5 2; OVisit 6 1; OVisit 5 4; ORegister 0 10; ORegister 2 12; ODispatch 5 "a"; ODestroy 0; ODispatch 5 "b"; ODispatch 6 "c"]%string.

Lemma dispatch_reaches_every_reader_witness :
  let d := foldl (exec ""%string) NewData dispatch_demo in
  called d = [10; 12; 10; 12]%nat /\ exists b, buffers d !! 2%nat = Some (Some b) /\ rep 4 b ["a"; "b"]%string.
Proof.
  pose proof (dispatch_reaches_every_reader ""%string dispatch_demo) as HT.
  assert (Forall op_ok dispatch_demo) as Hok by (repeat constructor; unfold is_u32; simpl; lia).
  specialize (HT Hok ltac:(vm_compute; reflexivity)). cbv zeta.
  change (foldl spec ([], []) dispatch_demo) with
    ([mkVisitor 5 2 false (Some 10%nat) ["a"%string]; mkVisitor 6 1 true None ["c"%string];
      mkVisitor 5 4 true (Some 12%nat) ["a"; "b"]%string], [10; 12; 10; 12]%nat) in HT.
  destruct HT as (Hf & Hc & _). split; [exact Hc|].
  destruct (Forall2_lookup_l _ _ _ 2%nat _ Hf eq_refl) as (b & Eb & b' & -> & Hr). exists b'. split; [exact Eb|exact Hr].
Defined.
