(* ===== verification/ObjectPool.v ===== *)
(** ObjectPool.v -- src/src/apollo/cyber/base/concurrent_object_pool.h (and object_pool.h)

    The pool that routine contexts are taken from (croutine.cc).  Free objects form
    a list through their nodes; its head is a pair of a counter and a pointer that
    is exchanged as one word.  Objects are their positions in the arena.

    CCObjectPool is a step relation with one step per access to the head or to a
    node, for any number of threads: FindFreeHead, used by GetObject and
    ConstructObject, and ReleaseObject, which the deleter of a handed-out pointer
    calls.  compare_exchange_weak may fail for no reason.  [out] is what the
    users hold; any thread may drop any of it.  ObjectPool, for one thread, is a
    pair of functions. *)

From S2P Require Import Prelude.
Local Open Scope Z_scope.

(** A thread: idle; in FindFreeHead with the head it knows, before and after
    reading the next node; in ReleaseObject with its node and the head it knows,
    before and after storing the next node. *)
Inductive pc :=
| Idle
| GetTest (count : Z) (node : option nat)
| GetCas (count : Z) (node : nat) (next : option nat)
| RelNext (object : nat) (count : Z) (node : option nat)
| RelCas (object : nat) (count : Z) (node : option nat).

Record Pool := mkPool {
  head_count : Z;
  head_node : option nat;
  nexts : list (option nat);
  pcs : list pc;
  out : list nat
}.

Inductive step (p : Pool) : Pool -> Prop :=
(* FindFreeHead *)
| get_load i : pcs p !! i = Some Idle ->
    step p (mkPool (head_count p) (head_node p) (nexts p) (<[i := GetTest (head_count p) (head_node p)]> (pcs p)) (out p))
| get_empty i c : pcs p !! i = Some (GetTest c None) ->
    step p (mkPool (head_count p) (head_node p) (nexts p) (<[i := Idle]> (pcs p)) (out p))
| get_next i c n x : pcs p !! i = Some (GetTest c (Some n)) -> nexts p !! n = Some x ->
    step p (mkPool (head_count p) (head_node p) (nexts p) (<[i := GetCas c n x]> (pcs p)) (out p))
| get_ok i c n x : pcs p !! i = Some (GetCas c n x) -> head_count p = c -> head_node p = Some n ->
    step p (mkPool (u64 (c + 1)) x (nexts p) (<[i := Idle]> (pcs p)) (out p ++ [n]))
| get_again i c n x : pcs p !! i = Some (GetCas c n x) ->
    step p (mkPool (head_count p) (head_node p) (nexts p) (<[i := GetTest (head_count p) (head_node p)]> (pcs p)) (out p))
(* ReleaseObject *)
| rel_load i n o1 o2 : pcs p !! i = Some Idle -> out p = o1 ++ n :: o2 ->
    step p (mkPool (head_count p) (head_node p) (nexts p) (<[i := RelNext n (head_count p) (head_node p)]> (pcs p)) (o1 ++ o2))
| rel_next i n c h : pcs p !! i = Some (RelNext n c h) ->
    step p (mkPool (head_count p) (head_node p) (<[n := h]> (nexts p)) (<[i := RelCas n c h]> (pcs p)) (out p))
| rel_ok i n c h : pcs p !! i = Some (RelCas n c h) -> head_count p = c -> head_node p = h ->
    step p (mkPool (u64 (c + 1)) (Some n) (nexts p) (<[i := Idle]> (pcs p)) (out p))
| rel_again i n c h : pcs p !! i = Some (RelCas n c h) ->
    step p (mkPool (head_count p) (head_node p) (nexts p) (<[i := RelNext n (head_count p) (head_node p)]> (pcs p)) (out p)).

(** CCObjectPool::CCObjectPool(size), for a positive size. *)
Definition link_all (size : nat) : list (option nat) := (Some <$> seq 1 (pred size)) ++ [None].
Definition NewPool (size threads : nat) : Pool := mkPool 0 (Some 0%nat) (link_all size) (replicate threads Idle) [].

(** The counter does not come round. *)
Definition counted (p p' : Pool) : Prop := step p p' /\ head_count p < 2 ^ 64 - 1.

(** ** The free list *)

Fixpoint chain (nx : list (option nat)) (h : option nat) (l : list nat) : Prop :=
  match l with
  | [] => h = None
  | n :: l => h = Some n /\ exists h', nx !! n = Some h' /\ chain nx h' l
  end.

Lemma chain_insert nx h l n x : n ∉ l -> chain nx h l -> chain (<[n := x]> nx) h l.
Proof.
  revert h. induction l as [|m l IH]; intros h Hn Hc; [done|]. rewrite elem_of_cons in Hn. destruct Hc as (-> & h' & Hm & Hc).
  split; [done|]. exists h'. split; [rewrite list_lookup_insert_ne by naive_solver; done|]. apply IH; naive_solver.
Qed.

Lemma chain_links_from k size : forall j, (size = j + k)%nat -> (0 < k)%nat -> chain (link_all size) (Some j) (seq j k).
Proof.
  induction k as [|k IH]; intros j Hs Hk; [lia|]. cbn [seq chain]. split; [done|]. unfold link_all.
  destruct k as [|k].
  - exists None. split; [|done]. rewrite lookup_app_r; rewrite length_fmap, length_seq; [|lia].
    by replace (j - pred size)%nat with 0%nat by lia.
  - exists (Some (S j)). split; [|apply IH; lia].
    rewrite lookup_app_l by (rewrite length_fmap, length_seq; lia).
    rewrite list_lookup_fmap, lookup_seq_lt by lia. done.
Qed.

(** What a thread that releases still holds. *)
Definition releasing (c : pc) : list nat := match c with RelNext n _ _ | RelCas n _ _ => [n] | _ => [] end.
Definition all_releasing (cs : list pc) : list nat := concat (releasing <$> cs).

Lemma all_releasing_move cs i c c' : cs !! i = Some c -> releasing c = releasing c' ->
  all_releasing (<[i := c']> cs) = all_releasing cs.
Proof.
  intros Hi E. unfold all_releasing. rewrite list_fmap_insert, <- E, list_insert_id; [done|]. by rewrite list_lookup_fmap, Hi.
Qed.

Lemma all_releasing_begin cs i n c' : cs !! i = Some Idle -> releasing c' = [n] ->
  Permutation (all_releasing (<[i := c']> cs)) (n :: all_releasing cs).
Proof.
  intros Hi E. unfold all_releasing. rewrite list_fmap_insert, E. revert i Hi. induction cs as [|c cs IH]; intros [|i] Hi; try done; simpl.
  - injection Hi as ->. done.
  - rewrite IH by done. by rewrite Permutation_middle.
Qed.

Lemma all_releasing_end cs i n c : cs !! i = Some c -> releasing c = [n] ->
  Permutation (n :: all_releasing (<[i := Idle]> cs)) (all_releasing cs).
Proof.
  intros Hi E. assert (i < length cs)%nat as Hlt by (by eapply lookup_lt_Some).
  pose proof (all_releasing_begin (<[i := Idle]> cs) i n c) as Hp.
  rewrite list_insert_insert_eq, (list_insert_id cs i c Hi) in Hp. symmetry. apply Hp; [by apply list_lookup_insert_eq|done].
Qed.

Lemma releasing_elem cs i c n : cs !! i = Some c -> n ∈ releasing c -> n ∈ all_releasing cs.
Proof.
  intros Hi Hn. unfold all_releasing. apply list_elem_of_In, in_concat. exists (releasing c). split; apply list_elem_of_In; [|done].
  apply list_elem_of_fmap. exists c. split; [done|]. by eapply list_elem_of_lookup_2.
Qed.

(** What a thread knows holds as long as the counter has not moved on. *)
Definition known (p : Pool) (c : pc) : Prop :=
  match c with
  | Idle => True
  | GetTest k h => k <= head_count p /\ (k = head_count p -> h = head_node p)
  | GetCas k n x => k <= head_count p /\ (k = head_count p -> head_node p = Some n /\ nexts p !! n = Some x)
  | RelNext n k h => k <= head_count p /\ (k = head_count p -> h = head_node p)
  | RelCas n k h => k <= head_count p /\ (k = head_count p -> h = head_node p) /\ nexts p !! n = Some h
  end.

Record pool_inv (size : nat) (p : Pool) (l : list nat) : Prop := mkPoolInv {
  pi_chain : chain (nexts p) (head_node p) l;
  pi_perm : Permutation (l ++ out p ++ all_releasing (pcs p)) (seq 0 size);
  pi_len : length (nexts p) = size;
  pi_count : 0 <= head_count p;
  pi_known : forall i c, pcs p !! i = Some c -> known p c
}.

Lemma pool_nodup size p l : pool_inv size p l -> NoDup (l ++ out p ++ all_releasing (pcs p)).
Proof. intros Hi. rewrite (pi_perm _ _ _ Hi). apply NoDup_seq. Qed.

(** An object being released is in nobody else's hands. *)
Lemma releasing_apart size p l i c n : pool_inv size p l -> pcs p !! i = Some c -> releasing c = [n] ->
  n ∉ l /\ (n < size)%nat /\ forall j c', pcs p !! j = Some c' -> j <> i -> n ∉ releasing c'.
Proof.
  intros Hv Hi Hr. pose proof (pool_nodup _ _ _ Hv) as Hnd.
  assert (n ∈ all_releasing (pcs p)) as Hn by (eapply releasing_elem; [done|rewrite Hr; left]).
  split_and!.
  - intros Hl. apply NoDup_app in Hnd as (_ & Hd & _). apply (Hd n Hl). apply elem_of_app. by right.
  - assert (n ∈ seq 0 size) as Hs by (rewrite <- (pi_perm _ _ _ Hv), !elem_of_app; tauto). apply elem_of_seq in Hs. lia.
  - intros j c' Hj Hne Hn'. apply NoDup_app in Hnd as (_ & _ & Hnd). apply NoDup_app in Hnd as (_ & _ & Hnd).
    rewrite <- (all_releasing_end _ _ _ _ Hi Hr) in Hnd. apply NoDup_cons in Hnd as [Hno _]. apply Hno.
    eapply releasing_elem; [|exact Hn']. by rewrite list_lookup_insert_ne.
Qed.

(** A thread moves without changing the pool or what it holds. *)
Lemma pool_inv_move size p l i c c' : pool_inv size p l -> pcs p !! i = Some c -> releasing c = releasing c' -> known p c' ->
  pool_inv size (mkPool (head_count p) (head_node p) (nexts p) (<[i := c']> (pcs p)) (out p)) l.
Proof.
  intros [Hc Hp Hl H0 Hk] Hi Hr Hk'. constructor; simpl; try done.
  - by rewrite (all_releasing_move _ _ c c').
  - intros j d Hj. apply list_lookup_insert_Some in Hj as [(_ & <- & _)|[_ Hj]]; [exact Hk'|exact (Hk _ _ Hj)].
Qed.

(** The head was exchanged: nobody knows the new one yet. *)
Lemma known_later p p' c : head_count p < head_count p' -> nexts p' = nexts p -> known p c -> known p' c.
Proof. intros Hlt En. destruct c; simpl; rewrite ?En; intuition lia. Qed.

Lemma inv_get_ok size p l i n x :
  pool_inv size p l -> head_count p < 2 ^ 64 - 1 -> pcs p !! i = Some (GetCas (head_count p) n x) ->
  exists l', pool_inv size (mkPool (u64 (head_count p + 1)) x (nexts p) (<[i := Idle]> (pcs p)) (out p ++ [n])) l'.
Proof.
  intros [Hc Hp Hl H0 Hk] Hlt Hi. destruct (Hk _ _ Hi) as [_ Hh]. destruct (Hh eq_refl) as [Eh Ex].
  destruct l as [|m l]; [simpl in Hc; congruence|]. destruct Hc as (Em & h' & Em' & Hc). rewrite Eh in Em. injection Em as <-.
  rewrite Ex in Em'. injection Em' as <-. rewrite u64_small by (unfold is_u64; lia). exists l. constructor; simpl; try done; [|lia|].
  - rewrite (all_releasing_move _ _ _ Idle Hi) by done. rewrite <- Hp, <- app_assoc. simpl. by rewrite !Permutation_middle.
  - intros j d Hj. apply list_lookup_insert_Some in Hj as [(_ & <- & _)|[_ Hj]]; [done|].
    eapply known_later; [| |exact (Hk _ _ Hj)]; simpl; [lia|done].
Qed.

Lemma inv_rel_load size p l i n o1 o2 :
  pool_inv size p l -> pcs p !! i = Some Idle -> out p = o1 ++ n :: o2 ->
  pool_inv size (mkPool (head_count p) (head_node p) (nexts p) (<[i := RelNext n (head_count p) (head_node p)]> (pcs p)) (o1 ++ o2)) l.
Proof.
  intros [Hc Hp Hl H0 Hk] Hi Ho. constructor; simpl; try done.
  - rewrite <- Hp, Ho. rewrite (all_releasing_begin _ _ n) by done. apply Permutation_app_head.
    rewrite <- !app_assoc. simpl. apply Permutation_app_head. by rewrite Permutation_middle.
  - intros j d Hj. apply list_lookup_insert_Some in Hj as [(_ & <- & _)|[_ Hj]]; [simpl; split; [lia|done]|exact (Hk _ _ Hj)].
Qed.

Lemma chain_head nx n l : chain nx (Some n) l -> n ∈ l.
Proof. destruct l as [|m l]; [done|]. intros ([= ->] & _). left. Qed.

Lemma inv_rel_next size p l i n c h :
  pool_inv size p l -> pcs p !! i = Some (RelNext n c h) ->
  pool_inv size (mkPool (head_count p) (head_node p) (<[n := h]> (nexts p)) (<[i := RelCas n c h]> (pcs p)) (out p)) l.
Proof.
  intros Hv Hi. destruct (releasing_apart _ _ _ _ _ _ Hv Hi eq_refl) as (Hnl & Hns & Hno).
  pose proof Hv as [Hc Hp Hl H0 Hk]. constructor; simpl; try done.
  - by apply chain_insert.
  - by rewrite (all_releasing_move _ _ _ (RelCas n c h) Hi).
  - by rewrite length_insert.
  - intros j d Hj. apply list_lookup_insert_Some in Hj as [(_ & <- & _)|[Hne Hj]].
    + destruct (Hk _ _ Hi) as [? ?]. simpl. split_and!; try done. apply list_lookup_insert_eq. lia.
    + pose proof (Hk _ _ Hj) as Hd. specialize (Hno j d Hj (not_eq_sym Hne)).
      destruct d as [|k h'|k m x|m k h'|m k h']; simpl in *; try done.
      * destruct Hd as [? Hd]. split; [done|]. intros E. destruct (Hd E) as [Eh Ex]. split; [done|].
        rewrite list_lookup_insert_ne; [done|]. intros <-. apply Hnl. rewrite Eh in Hc. by eapply chain_head.
      * destruct Hd as (? & ? & Hd). split_and!; try done. rewrite list_lookup_insert_ne; [done|]. intros <-. apply Hno. left.
Qed.

Lemma inv_rel_ok size p l i n :
  pool_inv size p l -> head_count p < 2 ^ 64 - 1 -> pcs p !! i = Some (RelCas n (head_count p) (head_node p)) ->
  pool_inv size (mkPool (u64 (head_count p + 1)) (Some n) (nexts p) (<[i := Idle]> (pcs p)) (out p)) (n :: l).
Proof.
  intros [Hc Hp Hl H0 Hk] Hlt Hi. destruct (Hk _ _ Hi) as (_ & _ & Hn). rewrite u64_small by (unfold is_u64; lia).
  constructor; simpl; try done; [by eauto| |lia|].
  - rewrite <- Hp, <- (all_releasing_end _ _ n _ Hi) by done. by rewrite !Permutation_middle.
  - intros j d Hj. apply list_lookup_insert_Some in Hj as [(_ & <- & _)|[_ Hj]]; [done|].
    eapply known_later; [| |exact (Hk _ _ Hj)]; simpl; [lia|done].
Qed.

Lemma pool_step size p p' l : pool_inv size p l -> counted p p' -> exists l', pool_inv size p' l'.
Proof.
  intros Hv [Hs Hlt]. pose proof (pi_known _ _ _ Hv) as Hk.
  destruct Hs as [i Hi|i c Hi|i c n x Hi Hx|i c n x Hi Ec Eh|i c n x Hi|i n o1 o2 Hi Ho|i n c h Hi|i n c h Hi Ec Eh|i n c h Hi].
  - exists l. eapply pool_inv_move; try done; simpl; try (split; [lia|done]).
  - exists l. by eapply pool_inv_move.
  - exists l. eapply pool_inv_move; try done. destruct (Hk _ _ Hi) as [? Hd]. simpl. split; [done|]. intros E. by rewrite <- (Hd E).
  - subst c. by eapply inv_get_ok.
  - exists l. eapply pool_inv_move; try done; simpl; try (split; [lia|done]).
  - exists l. by eapply inv_rel_load.
  - exists l. by apply inv_rel_next.
  - subst c h. exists (n :: l). by apply inv_rel_ok.
  - exists l. eapply pool_inv_move; try done; simpl; try (split; [lia|done]).
Qed.

Lemma pool_new size threads : (0 < size)%nat -> pool_inv size (NewPool size threads) (seq 0 size).
Proof.
  intros Hs. constructor; simpl; try done.
  - by apply chain_links_from.
  - replace (all_releasing (replicate threads Idle)) with (@nil nat); [by rewrite app_nil_r|].
    unfold all_releasing. induction threads; [done|by simpl].
  - unfold link_all. rewrite length_app, length_fmap, length_seq. simpl. lia.
  - intros i c Hc. apply lookup_replicate in Hc as [-> _]. done.
Qed.

(** An object of the pool is never in two hands: under any interleaving of any
    number of threads that take and release objects, every object of the arena is
    exactly once in the free list, with a user, or with a thread that is
    releasing it, so no object is handed out twice and none is lost; with all
    threads at rest the pool is empty exactly when the users hold everything. *)
Theorem pool_objects_are_exclusive size threads p :
  (0 < size)%nat -> rtc counted (NewPool size threads) p ->
  NoDup (out p) /\
  (exists free, chain (nexts p) (head_node p) free /\ Permutation (free ++ out p ++ all_releasing (pcs p)) (seq 0 size)) /\
  ((forall i c, pcs p !! i = Some c -> c = Idle) -> (head_node p = None <-> length (out p) = size)).
Proof.
  intros Hs Hr. assert (exists l, pool_inv size p l) as [l Hv].
  { pose proof (pool_new size threads Hs) as H0. revert H0. generalize (seq 0 size). clear Hs.
    induction Hr as [|p1 p2 p3 Hst _ IH]; intros l Hl; [by exists l|]. destruct (pool_step _ _ _ _ Hl Hst) as [l' Hl']. by eapply IH. }
  pose proof (pool_nodup _ _ _ Hv) as Hnd. pose proof Hv as [Hc Hp _ _ _]. split_and!.
  - apply NoDup_app in Hnd as (_ & _ & Hnd). by apply NoDup_app in Hnd as (Hnd & _).
  - by exists l.
  - intros Hidle. assert (all_releasing (pcs p) = []) as Er.
    { unfold all_releasing. clear -Hidle. induction (pcs p) as [|c cs IH]; [done|]. simpl. rewrite (Hidle 0%nat c eq_refl).
      apply IH. intros i d Hd. by apply (Hidle (S i)). }
    rewrite Er, app_nil_r in Hp. pose proof (Permutation_length Hp) as Hlen. rewrite length_app, length_seq in Hlen.
    destruct l as [|n l]; simpl in *; [rewrite Hc; split; [lia|done]|]. destruct Hc as [-> _]. split; [done|lia].
Qed.

(** Two threads; the first takes both objects of a pool, the second gives the first
    one back. *)
Definition pool_demo : Pool := mkPool 3 (Some 0%nat) [None; None] [Idle; Idle] [1%nat].

(** Evaluate the state an execution has reached. *)
Ltac evaluate := match goal with |- rtc _ ?a _ => let b := eval vm_compute in a in change a with b end.

Lemma pool_demo_reachable : rtc counted (NewPool 2 2) pool_demo.
Proof.
  eapply rtc_l; [split; [by apply (get_load _ 0)|done]|]; evaluate.
  eapply rtc_l; [split; [by apply (get_next _ 0 0 0 (Some 1%nat))|done]|]; evaluate.
  eapply rtc_l; [split; [by apply (get_ok _ 0 0 0 (Some 1%nat))|done]|]; evaluate.
  eapply rtc_l; [split; [by apply (get_load _ 0)|done]|]; evaluate.
  eapply rtc_l; [split; [by apply (get_next _ 0 1 1 None)|done]|]; evaluate.
  eapply rtc_l; [split; [by apply (get_ok _ 0 1 1 None)|done]|]; evaluate.
  eapply rtc_l; [split; [by apply (rel_load _ 1 0 [] [1%nat])|done]|]; evaluate.
  eapply rtc_l; [split; [by apply (rel_next _ 1 0 2 None)|done]|]; evaluate.
  eapply rtc_l; [split; [by apply (rel_ok _ 1 0 2 None)|done]|]; evaluate.
  apply rtc_refl.
Qed.

Lemma pool_objects_are_exclusive_witness :
  rtc counted (NewPool 2 2) pool_demo /\ NoDup (out pool_demo) /\
  exists free, chain (nexts pool_demo) (head_node pool_demo) free /\ Permutation (free ++ [1%nat]) [0; 1]%nat.
Proof.
  split; [apply pool_demo_reachable|].
  destruct (pool_objects_are_exclusive 2 2 pool_demo ltac:(lia) pool_demo_reachable) as (Hn & (free & Hc & Hp) & _).
  split; [exact Hn|]. exists free. split; [exact Hc|exact Hp].
Defined.

(** ** Without threads *)

(** ObjectPool: the constructor leaves the last object at the front. *)
Record Pool1 := mkPool1 { free_head_ : option nat; nodes : list (option nat) }.
Fixpoint construct (num i : nat) (p : Pool1) : Pool1 :=
  match num with
  | O => p
  | S num => construct num (S i) (mkPool1 (Some i) (nodes p ++ [free_head_ p]))
  end.
Definition NewPool1 (num_objects : nat) : Pool1 := construct num_objects 0 (mkPool1 None []).

(** [None] is a null pointer, or a read outside the arena. *)
Definition GetObject (p : Pool1) : option nat * Pool1 :=
  match free_head_ p with
  | None => (None, p)
  | Some n => (Some n, mkPool1 (nodes p !! n ≫= id) (nodes p))
  end.
Definition ReleaseObject (p : Pool1) (object : option nat) : Pool1 :=
  match object with
  | None => p
  | Some n => mkPool1 (Some n) (<[n := free_head_ p]> (nodes p))
  end.

Definition pool1_rep (p : Pool1) (l : list nat) : Prop := chain (nodes p) (free_head_ p) l.

(** The pool is a stack. *)
Lemma GetObject_spec p n l : pool1_rep p (n :: l) -> exists p', GetObject p = (Some n, p') /\ pool1_rep p' l.
Proof.
  unfold pool1_rep, GetObject. intros (-> & h & Hn & Hc). eexists. split; [done|]. simpl. by rewrite Hn.
Qed.
Lemma ReleaseObject_spec p n l : pool1_rep p l -> n ∉ l -> (n < length (nodes p))%nat -> pool1_rep (ReleaseObject p (Some n)) (n :: l).
Proof.
  unfold pool1_rep. intros Hc Hn Hlt. simpl. split; [done|]. eexists. split; [by apply list_lookup_insert_eq|]. by apply chain_insert.
Qed.

Lemma chain_app nx h l k : chain nx h l -> chain (nx ++ k) h l.
Proof.
  revert h. induction l as [|n l IH]; intros h Hc; [done|]. destruct Hc as (-> & h' & Hn & Hc). split; [done|].
  exists h'. split; [by apply lookup_app_l_Some|by apply IH].
Qed.

Lemma construct_rep num : forall i p l, length (nodes p) = i -> pool1_rep p l -> pool1_rep (construct num i p) (rev (seq i num) ++ l).
Proof.
  unfold pool1_rep. induction num as [|num IH]; intros i p l Hl Hc; [done|]. cbn [construct seq rev]. rewrite <- app_assoc.
  apply IH; simpl; [rewrite length_app; simpl; lia|]. split; [done|]. exists (free_head_ p).
  split; [rewrite lookup_app_r by lia; by rewrite Hl, Nat.sub_diag|by apply chain_app].
Qed.

Lemma NewPool1_rep n : pool1_rep (NewPool1 n) (rev (seq 0 n)).
Proof. rewrite <- (app_nil_r (rev _)). by apply construct_rep. Qed.
