(* ===== verification/ThreadPool.v ===== *)
(** ThreadPool.v -- consumers that wait

    - src/src/apollo/cyber/base/thread_safe_queue.h: [SafeQueue]
    - src/src/apollo/cyber/base/thread_pool.h, and of
      src/src/apollo/cyber/base/{bounded_queue.h,wait_strategy.h} the way the workers
      wait: [Pool]

    Both are threads that interleave.  A section under a mutex is one step; a
    thread between the test of its condition and cv_.wait is a state of its own.
    notify_one wakes a waiting thread if there is one, and spurious wake-ups, which the
    standard allows but does not promise, are left out. *)

From S2P Require Import Prelude.
Local Open Scope Z_scope.

Section queues.
Context {T : Type}.

(** ** ThreadSafeQueue *)

(** A thread: not in the queue, about to lock and test, found nothing and still has
    the lock, waits on the condition variable. *)
Inductive spc := Idle | Testing | Missed | Asleep.

#[export] Instance spc_eq_dec : EqDecision spc.
Proof. solve_decision. Defined.

Record SafeQueue := mkSafe {
  queue_ : list T;
  break_all_wait_ : bool;
  locked : bool;
  consumers : list spc;
  put_ : list T;   (* all elements enqueued *)
  got_ : list T    (* all elements dequeued, in order *)
}.

Definition NewSafeQueue (n : nat) : SafeQueue := mkSafe [] false false (replicate n Idle) [] [].
Definition set_consumer (s : SafeQueue) (i : nat) (p : spc) : SafeQueue :=
  mkSafe (queue_ s) (break_all_wait_ s) (locked s) (<[i := p]> (consumers s)) (put_ s) (got_ s).
Definition set_locked (s : SafeQueue) (l : bool) : SafeQueue := mkSafe (queue_ s) (break_all_wait_ s) l (consumers s) (put_ s) (got_ s).
Definition push (s : SafeQueue) (x : T) : SafeQueue :=
  mkSafe (queue_ s ++ [x]) (break_all_wait_ s) (locked s) (consumers s) (put_ s ++ [x]) (got_ s).
Definition pop (s : SafeQueue) (x : T) (q : list T) : SafeQueue :=
  mkSafe q (break_all_wait_ s) (locked s) (consumers s) (put_ s) (got_ s ++ [x]).
Definition wake (p : spc) : spc := match p with Asleep => Testing | _ => p end.

(** [brk]: whether BreakAllWait may be called. *)
Inductive sstep (brk : bool) (s : SafeQueue) : SafeQueue -> Prop :=
  | s_enqueue_wake x i : locked s = false -> consumers s !! i = Some Asleep -> sstep brk s (set_consumer (push s x) i Testing)
  | s_enqueue_none x : locked s = false -> Forall (fun p => p <> Asleep) (consumers s) -> sstep brk s (push s x)
  | s_dequeue x q : locked s = false -> queue_ s = x :: q -> sstep brk s (pop s x q)
  | s_wait_dequeue i : consumers s !! i = Some Idle -> sstep brk s (set_consumer s i Testing)
  | s_broken i : locked s = false -> consumers s !! i = Some Testing -> break_all_wait_ s = true -> sstep brk s (set_consumer s i Idle)
  | s_found i x q : locked s = false -> consumers s !! i = Some Testing -> break_all_wait_ s = false -> queue_ s = x :: q ->
      sstep brk s (set_consumer (pop s x q) i Idle)
  | s_missed i : locked s = false -> consumers s !! i = Some Testing -> break_all_wait_ s = false -> queue_ s = [] ->
      sstep brk s (set_locked (set_consumer s i Missed) true)
  | s_sleep i : consumers s !! i = Some Missed -> sstep brk s (set_locked (set_consumer s i Asleep) false)
  | s_break : brk = true -> sstep brk s (mkSafe (queue_ s) true (locked s) (consumers s) (put_ s) (got_ s))
  | s_notify_all : brk = true -> break_all_wait_ s = true ->
      sstep brk s (mkSafe (queue_ s) (break_all_wait_ s) (locked s) (wake <$> consumers s) (put_ s) (got_ s)).

Definition count (p : spc) (l : list spc) : nat := length (List.filter (fun x => bool_decide (x = p)) l).

Definition one_if (p x : spc) : nat := if decide (x = p) then 1 else 0.

Lemma count_cons p x l : count p (x :: l) = (one_if p x + count p l)%nat.
Proof. unfold count, one_if. simpl. destruct (decide (x = p)) as [->|Hn]; [by rewrite bool_decide_true|by rewrite bool_decide_false]. Qed.

Lemma count_insert p l i a b : l !! i = Some a -> (count p (<[i := b]> l) + one_if p a = count p l + one_if p b)%nat.
Proof.
  revert i. induction l as [|x l IH]; intros [|i] Hi; simpl in *; try done.
  - injection Hi as ->. rewrite !count_cons. lia.
  - rewrite !count_cons. specialize (IH i Hi). lia.
Qed.

Lemma count_pos p l : (0 < count p l)%nat <-> exists i, l !! i = Some p.
Proof.
  induction l as [|x l IH]; [split; [unfold count; simpl; lia|by intros [i ?]]|]. rewrite count_cons. unfold one_if. destruct (decide (x = p)) as [->|Hn].
  - split; [intros _; by exists 0%nat|lia].
  - simpl. rewrite IH. split; [intros [i Hi]; by exists (S i)|]. intros [[|i] Hi]; simpl in *; [congruence|eauto].
Qed.

Lemma count_none p l : Forall (fun x => x <> p) l -> count p l = 0%nat.
Proof. intros Hl. destruct (count p l) eqn:E; [done|]. destruct (proj1 (count_pos p l)) as [i Hi]; [lia|]. rewrite Forall_lookup in Hl. by destruct (Hl _ _ Hi). Qed.

(** Without BreakAllWait: elements leave in the order they came, the lock is held
    only by a consumer that found the queue empty, and either nobody sleeps or every
    element has a consumer that is about to test. *)
Record sinv (s : SafeQueue) : Prop := {
  si_fifo : put_ s = got_ s ++ queue_ s;
  si_break : break_all_wait_ s = false;
  si_lock : count Missed (consumers s) = if locked s then 1%nat else 0%nat;
  si_empty : locked s = true -> queue_ s = [];
  si_awake : count Asleep (consumers s) = 0%nat \/ (length (queue_ s) <= count Testing (consumers s))%nat
}.

Ltac counts i a b Hi :=
  let Hc := fresh "Hc" in
  pose proof (count_insert Missed _ i a b Hi) as Hc; pose proof (count_insert Asleep _ i a b Hi);
  pose proof (count_insert Testing _ i a b Hi); unfold one_if in *; simpl in *.

Lemma sinv_step s s' : sinv s -> sstep false s s' -> sinv s'.
Proof.
  intros [HF HB HL HE HA] Hs. destruct Hs as [x i Hl Hi|x Hl Hn|x q Hl Hq|i Hi|i Hl Hi Hb|i x q Hl Hi Hb Hq|i Hl Hi Hb Hq|i Hi|Hb|Hb]; try done;
    try (rewrite Hl in HL); constructor; simpl; try done; try congruence.
  - by rewrite HF, app_assoc.
  - counts i Asleep Testing Hi. rewrite Hl. lia.
  - counts i Asleep Testing Hi. rewrite length_app. simpl. lia.
  - by rewrite HF, app_assoc.
  - by rewrite Hl.
  - left. by apply count_none.
  - by rewrite HF, Hq, <-app_assoc.
  - by rewrite Hl.
  - rewrite Hq in HA. simpl in HA. lia.
  - counts i Idle Testing Hi. lia.
  - counts i Idle Testing Hi. lia.
  - by rewrite HF, Hq, <-app_assoc.
  - counts i Testing Idle Hi. rewrite Hl. lia.
  - counts i Testing Idle Hi. rewrite Hq in HA. simpl in HA. lia.
  - counts i Testing Missed Hi. lia.
  - right. rewrite Hq. simpl. lia.
  - counts i Missed Asleep Hi. destruct (locked s); lia.
  - right. rewrite HE; [simpl; lia|]. destruct (locked s); [done|]. assert (0 < count Missed (consumers s))%nat by (apply count_pos; eauto). lia.
Qed.

Lemma sinv_init n : sinv (NewSafeQueue n).
Proof.
  assert (forall p, p <> Idle -> count p (replicate n Idle) = 0%nat) as HC.
  { intros p Hp. apply count_none. apply Forall_replicate. congruence. }
  constructor; simpl; try done; [by apply HC|left; by apply HC].
Qed.

(** In every execution of any number of producers and consumers of a
    ThreadSafeQueue in which BreakAllWait is not called, the elements leave the queue in
    the order they came, none lost and none twice, and no wake-up is lost: when
    an element is in the queue while a consumer sleeps, another consumer is
    awake and about to take the free lock, at least one for every element. *)
Theorem waiting_consumers_are_woken n s :
  rtc (sstep false) (NewSafeQueue n) s ->
  put_ s = got_ s ++ queue_ s /\
  (queue_ s <> [] -> (exists i, consumers s !! i = Some Asleep) ->
    locked s = false /\ (length (queue_ s) <= count Testing (consumers s))%nat).
Proof.
  intros Hs. assert (sinv s) as [HF HB HL HE HA].
  { revert Hs. apply (rtc_ind_r (fun s => sinv s)); [apply sinv_init|]. intros; by eapply sinv_step. }
  split; [done|]. intros Hq Hsl. apply count_pos in Hsl. split; [|lia]. destruct (locked s); [by destruct Hq; apply HE|done].
Qed.

(** BreakAllWait sets its flag without the lock: a consumer that has tested it and
    not yet gone to sleep misses the notification and sleeps on, although the flag
    is set and everything was notified. *)
Theorem break_can_be_missed :
  rtc (sstep true) (NewSafeQueue 1) (mkSafe [] true false [Asleep] [] []).
Proof.
  eapply rtc_l; [by apply (s_wait_dequeue true _ 0)|].
  eapply rtc_l; [by apply (s_missed true _ 0)|].
  eapply rtc_l; [by apply s_break|].
  eapply rtc_l; [by apply s_notify_all|].
  eapply rtc_l; [by apply (s_sleep true _ 0)|]. apply rtc_refl.
Qed.

(** ** ThreadPool

    The task queue is the FIFO queue that BoundedQueue implements, of at most
    [max_task_num] tasks.  A worker: at the test of stop_, at the test of
    break_all_wait_ in WaitDequeue, at Dequeue, at EmptyWait, in cv_.wait,
    running a task, returned. *)
Inductive wpc := Top | Loop | Try | ToWait | Blocked | Running (task : T) | Returned.

Record Pool := mkPool {
  task_queue_ : list T;
  max_task_num : nat;
  stop_ : bool;
  broken : bool;
  workers_ : list wpc;
  notifications : nat;   (* NotifyOne calls still to come *)
  accepted : list T;
  rejected : list T;     (* tasks for which Enqueue found the queue full *)
  started : list T
}.
Definition NewPool (threads max : nat) : Pool := mkPool [] max false false (replicate threads Top) 0 [] [] [].

Definition set_worker (p : Pool) (i : nat) (w : wpc) : Pool :=
  mkPool (task_queue_ p) (max_task_num p) (stop_ p) (broken p) (<[i := w]> (workers_ p)) (notifications p) (accepted p) (rejected p) (started p).
Definition start (p : Pool) (x : T) (q : list T) : Pool :=
  mkPool q (max_task_num p) (stop_ p) (broken p) (workers_ p) (notifications p) (accepted p) (rejected p) (started p ++ [x]).
Definition set_notifications (p : Pool) (n : nat) : Pool :=
  mkPool (task_queue_ p) (max_task_num p) (stop_ p) (broken p) (workers_ p) n (accepted p) (rejected p) (started p).
(** ThreadPool::Enqueue when stop_ is not set; the result of the queue is ignored. *)
Definition Pool_Enqueue (p : Pool) (x : T) : Pool :=
  if decide (length (task_queue_ p) < max_task_num p)%nat
  then mkPool (task_queue_ p ++ [x]) (max_task_num p) (stop_ p) (broken p) (workers_ p) (S (notifications p)) (accepted p ++ [x]) (rejected p) (started p)
  else mkPool (task_queue_ p) (max_task_num p) (stop_ p) (broken p) (workers_ p) (notifications p) (accepted p) (rejected p ++ [x]) (started p).
Definition wake_worker (w : wpc) : wpc := match w with Blocked => Loop | _ => w end.

Inductive pstep (p : Pool) : Pool -> Prop :=
  | p_go i : workers_ p !! i = Some Top -> stop_ p = false -> pstep p (set_worker p i Loop)
  | p_return i : workers_ p !! i = Some Top -> stop_ p = true -> pstep p (set_worker p i Returned)
  | p_wait i : workers_ p !! i = Some Loop -> broken p = false -> pstep p (set_worker p i Try)
  | p_broken i : workers_ p !! i = Some Loop -> broken p = true -> pstep p (set_worker p i Top)
  | p_take i x q : workers_ p !! i = Some Try -> task_queue_ p = x :: q -> pstep p (set_worker (start p x q) i (Running x))
  | p_none i : workers_ p !! i = Some Try -> task_queue_ p = [] -> pstep p (set_worker p i ToWait)
  | p_block i : workers_ p !! i = Some ToWait -> pstep p (set_worker p i Blocked)
  | p_done i x : workers_ p !! i = Some (Running x) -> pstep p (set_worker p i Top)
  | p_enqueue x : stop_ p = false -> pstep p (Pool_Enqueue p x)
  | p_notify_one n i : notifications p = S n -> workers_ p !! i = Some Blocked -> pstep p (set_worker (set_notifications p n) i Loop)
  | p_notify_none n : notifications p = S n -> Forall (fun w => w <> Blocked) (workers_ p) -> pstep p (set_notifications p n)
  | p_stop : pstep p (mkPool (task_queue_ p) (max_task_num p) true (broken p) (workers_ p) (notifications p) (accepted p) (rejected p) (started p))
  | p_break : stop_ p = true -> pstep p (mkPool (task_queue_ p) (max_task_num p) (stop_ p) true (workers_ p) (notifications p) (accepted p) (rejected p) (started p))
  | p_notify_all : broken p = true ->
      pstep p (mkPool (task_queue_ p) (max_task_num p) (stop_ p) (broken p) (wake_worker <$> workers_ p) (notifications p) (accepted p) (rejected p) (started p)).

Definition running (w : wpc) : option T := match w with Running x => Some x | _ => None end.

Record pinv (max : nat) (p : Pool) : Prop := {
  pi_fifo : accepted p = started p ++ task_queue_ p;
  pi_max : max_task_num p = max /\ (length (task_queue_ p) <= max)%nat;
  pi_broken : broken p = true -> stop_ p = true;
  pi_run : forall i x, workers_ p !! i = Some (Running x) -> x ∈ started p
}.

Lemma pinv_worker max p i w : pinv max p -> (forall x, w = Running x -> x ∈ started p) -> pinv max (set_worker p i w).
Proof.
  intros [HF HM HB HR] Hw. constructor; simpl; try done. intros j x. destruct (decide (j = i)) as [->|Hne]; [|by rewrite list_lookup_insert_ne; eauto].
  destruct (decide (i < length (workers_ p))%nat) as [Hlt|Hge]; [rewrite list_lookup_insert_eq by done; naive_solver|].
  rewrite list_insert_ge by lia. apply HR.
Qed.

Lemma pinv_step max p p' : pinv max p -> pstep p p' -> pinv max p'.
Proof.
  intros Hi Hs. pose proof Hi as [HF HM HB HR].
  destruct Hs as [i Hw Hst|i Hw Hst|i Hw Hb|i Hw Hb|i x q Hw Hq|i Hw Hq|i Hw|i x Hw|x Hst|n i Hn Hw|n Hn Hw| |Hst|Hb]; try (by apply pinv_worker).
  - apply (pinv_worker max (start p x q)); [|intros y [= ->]; simpl; set_solver]. destruct HM as [HM1 HM2]. rewrite Hq in *. constructor; simpl in *; try done.
    + by rewrite HF, <-app_assoc.
    + split; [done|lia].
    + intros j y Hj. apply elem_of_app. left. by eapply HR.
  - unfold Pool_Enqueue. destruct HM as [HM1 HM2]. case_decide; constructor; simpl; try done.
    + by rewrite HF, app_assoc.
    + rewrite length_app. simpl. lia.
  - by constructor.
  - by constructor.
  - by constructor.
  - constructor; simpl; try done. intros i x. rewrite list_lookup_fmap_Some. intros (w & Hw & Hi'). destruct w; simplify_eq/=; eauto.
Qed.

(** In every execution of a thread pool of any number of workers, Enqueue calls
    and the destructor, the tasks accepted by the queue are started in the order they
    were accepted, each once: what was accepted is what was started followed by
    what still waits, at most max_task_num of them, and a worker runs only a task that
    was started so. *)
Theorem pool_starts_tasks_in_order threads max p :
  rtc pstep (NewPool threads max) p ->
  accepted p = started p ++ task_queue_ p /\ (length (task_queue_ p) <= max)%nat /\
  (forall i x, workers_ p !! i = Some (Running x) -> x ∈ started p).
Proof.
  intros Hs. assert (pinv max p) as [HF HM HB HR]; [|naive_solver]. revert Hs.
  apply (rtc_ind_r (fun p => pinv max p)); [|intros; by eapply pinv_step].
  constructor; simpl; try done; [lia|]. intros i x Hi. by apply lookup_replicate in Hi as [? _].
Qed.

(** The workers test the queue and go to sleep without a lock in between: an
    accepted task can wait while every worker sleeps and no notification is left. *)
Theorem pool_task_can_be_stranded x : rtc pstep (NewPool 1 1) (mkPool [x] 1 false false [Blocked] 0 [x] [] []).
Proof.
  eapply rtc_l; [by apply (p_go _ 0)|]. eapply rtc_l; [by apply (p_wait _ 0)|]. eapply rtc_l; [by apply (p_none _ 0)|].
  eapply rtc_l; [by apply (p_enqueue _ x)|]. eapply rtc_l; [apply (p_notify_none _ 0); [done|by repeat constructor]|].
  eapply rtc_l; [by apply (p_block _ 0)|]. apply rtc_refl.
Qed.

(** For the same reason the destructor can wait for ever: stopped, broken and
    notified, the worker it joins sleeps. *)
Theorem pool_shutdown_can_hang : rtc pstep (NewPool 1 1) (mkPool [] 1 true true [Blocked] 0 [] [] []).
Proof.
  eapply rtc_l; [by apply (p_go _ 0)|]. eapply rtc_l; [by apply (p_wait _ 0)|]. eapply rtc_l; [by apply (p_none _ 0)|].
  eapply rtc_l; [by apply p_stop|]. eapply rtc_l; [by apply p_break|]. eapply rtc_l; [by apply p_notify_all|].
  eapply rtc_l; [by apply (p_block _ 0)|]. apply rtc_refl.
Qed.

(** A task for which there is no room is dropped, and the caller is told nothing: it
    gets the future of the task as in every other case. *)
Theorem full_pool_drops_tasks p x : length (task_queue_ p) = max_task_num p ->
  task_queue_ (Pool_Enqueue p x) = task_queue_ p /\ rejected (Pool_Enqueue p x) = rejected p ++ [x].
Proof. intros Hl. unfold Pool_Enqueue. by rewrite decide_False by lia. Qed.
End queues.

Lemma waiting_consumers_are_woken_witness : exists s : SafeQueue (T := nat),
  rtc (sstep false) (NewSafeQueue 2) s /\ consumers s = [Testing; Asleep] /\ queue_ s = [7%nat] /\ locked s = false.
Proof.
  assert (rtc (sstep false) (NewSafeQueue 2) (mkSafe [7%nat] false false [Testing; Asleep] [7%nat] [])) as Hs.
  { eapply rtc_l; [by apply (s_wait_dequeue false _ 0)|]. eapply rtc_l; [by apply (s_missed false _ 0)|]. eapply rtc_l; [by apply (s_sleep false _ 0)|].
    eapply rtc_l; [by apply (s_wait_dequeue false _ 1)|]. eapply rtc_l; [by apply (s_missed false _ 1)|]. eapply rtc_l; [by apply (s_sleep false _ 1)|].
    eapply rtc_l; [by apply (s_enqueue_wake false _ 7%nat 0)|]. apply rtc_refl. }
  destruct (waiting_consumers_are_woken 2 _ Hs) as [_ Ha]. eexists. split_and!; [exact Hs|done|done|].
  apply Ha; [done|by exists 1%nat].
Defined.

Lemma pool_starts_tasks_in_order_witness : exists p : Pool (T := nat),
  rtc pstep (NewPool 1 2) p /\ started p = [7%nat] /\ accepted p = [7%nat; 8%nat].
Proof.
  assert (rtc pstep (NewPool 1 2) (mkPool [8%nat] 2 false false [Running 7%nat] 2 [7%nat; 8%nat] [] [7%nat])) as Hs.
  { eapply rtc_l; [by apply (p_enqueue _ 7%nat)|]. eapply rtc_l; [by apply (p_enqueue _ 8%nat)|]. eapply rtc_l; [by apply (p_go _ 0)|].
    eapply rtc_l; [by apply (p_wait _ 0)|]. eapply rtc_l; [by apply (p_take _ 0 7%nat [8%nat])|]. apply rtc_refl. }
  destruct (pool_starts_tasks_in_order 1 2 _ Hs) as [Ha _]. eexists. split_and!; [exact Hs|done|done].
Defined.
