(* ===== verification/Blocker.v ===== *)
(** Blocker.v -- src/src/apollo/cyber/blocker/{blocker.h,blocker_manager.h,
    blocker_manager.cc,intra_reader.h,intra_writer.h}

    Readers and writers of a simulated process: messages go through one blocker per
    channel, which keeps the newest messages and calls the subscribed readers.
    A blocker carries the message type it was made for, which the dynamic casts of
    the manager test.  A callback is the bound IntraReader, by its address; what the
    user's functions are called with is recorded in [calls]. *)

From S2P Require Import Prelude Unordered.
Local Open Scope Z_scope.

Section blocker.
Context `{HashOrder} {Ty : Type} `{EqDecision Ty} {M Tm : Type}.

(** ** Blocker *)

Record BlockerAttr := mkAttr { capacity : Z; channel_name : string }.
Definition DefaultAttr (channel : string) : BlockerAttr := mkAttr 10 channel.

Record Blocker := mkBlocker {
  type_ : Ty;
  attr_ : BlockerAttr;
  observed_msg_queue_ : list M;
  published_msg_queue_ : list M;
  published_callbacks_ : gmap string nat
}.
Definition NewBlocker (ty : Ty) (attr : BlockerAttr) : Blocker := mkBlocker ty attr [] [] ∅.

Definition set_queues (b : Blocker) (obs pub : list M) : Blocker := mkBlocker (type_ b) (attr_ b) obs pub (published_callbacks_ b).
Definition set_callbacks (b : Blocker) (cbs : gmap string nat) : Blocker :=
  mkBlocker (type_ b) (attr_ b) (observed_msg_queue_ b) (published_msg_queue_ b) cbs.

(** while (queue.size() > capacity) queue.pop_back(); at most one round per element. *)
Fixpoint pop_back_loop (fuel : nat) (cap : Z) (q : list M) : list M :=
  match fuel with
  | O => q
  | S fuel => if cap <? zlen q then pop_back_loop fuel cap (removelast q) else q
  end.
Definition trim (cap : Z) (q : list M) : list M := pop_back_loop (length q) cap q.

Definition Enqueue (b : Blocker) (msg : M) : Blocker :=
  if capacity (attr_ b) =? 0 then b
  else set_queues b (observed_msg_queue_ b) (trim (capacity (attr_ b)) (msg :: published_msg_queue_ b)).
Definition Blocker_Reset (b : Blocker) : Blocker := set_callbacks (set_queues b [] []) ∅.
Definition ClearObserved (b : Blocker) : Blocker := set_queues b [] (published_msg_queue_ b).
Definition ClearPublished (b : Blocker) : Blocker := set_queues b (observed_msg_queue_ b) [].
Definition Blocker_Observe (b : Blocker) : Blocker := set_queues b (published_msg_queue_ b) (published_msg_queue_ b).
Definition IsObservedEmpty (b : Blocker) : bool := match observed_msg_queue_ b with [] => true | _ => false end.
Definition IsPublishedEmpty (b : Blocker) : bool := match published_msg_queue_ b with [] => true | _ => false end.
Definition Blocker_Subscribe (b : Blocker) (callback_id : string) (callback : nat) : bool * Blocker :=
  match published_callbacks_ b !! callback_id with
  | Some _ => (false, b)
  | None => (true, set_callbacks b (<[callback_id := callback]> (published_callbacks_ b)))
  end.
Definition Blocker_Unsubscribe (b : Blocker) (callback_id : string) : bool * Blocker :=
  (bool_decide (is_Some (published_callbacks_ b !! callback_id)), set_callbacks b (delete callback_id (published_callbacks_ b))).
Definition GetLatestObservedPtr (b : Blocker) : option M := head (observed_msg_queue_ b).
Definition GetOldestObservedPtr (b : Blocker) : option M := last (observed_msg_queue_ b).
Definition GetLatestPublishedPtr (b : Blocker) : option M := head (published_msg_queue_ b).
(** Iterators into the observed queue, as positions. *)
Definition ObservedBegin (b : Blocker) : nat := 0%nat.
Definition ObservedEnd (b : Blocker) : nat := length (observed_msg_queue_ b).
Definition set_capacity (b : Blocker) (cap : Z) : Blocker :=
  mkBlocker (type_ b) (mkAttr cap (channel_name (attr_ b))) (observed_msg_queue_ b) (trim cap (published_msg_queue_ b)) (published_callbacks_ b).

(** ** The readers and writers, and the manager's table *)

Record IntraReader := mkReader {
  rd_type : Ty;
  rd_channel : string; rd_node : string; rd_depth : Z;
  msg_callback_ : option nat;
  rd_init : bool;
  latest_recv_time_sec_ : Tm; second_to_lastest_recv_time_sec_ : Tm
}.
Record IntraWriter := mkWriter { wr_type : Ty; wr_channel : string; wr_init : bool; has_manager : bool }.

Definition set_rd_init (r : IntraReader) (i : bool) : IntraReader :=
  mkReader (rd_type r) (rd_channel r) (rd_node r) (rd_depth r) (msg_callback_ r) i (latest_recv_time_sec_ r) (second_to_lastest_recv_time_sec_ r).

Record World := mkWorld {
  blockers_ : gmap string Blocker;
  readers : gmap nat IntraReader;
  writers : gmap nat IntraWriter;
  calls : list (nat * M)
}.
Definition set_blockers (w : World) (bs : gmap string Blocker) : World := mkWorld bs (readers w) (writers w) (calls w).
Definition set_reader (w : World) (p : nat) (r : IntraReader) : World := mkWorld (blockers_ w) (<[p := r]> (readers w)) (writers w) (calls w).
Definition set_writer (w : World) (p : nat) (x : IntraWriter) : World := mkWorld (blockers_ w) (readers w) (<[p := x]> (writers w)) (calls w).

(** IntraReader::OnMessage on the object at [p]; a call through a dangling pointer
    is undefined, and leaves the world alone here. *)
Definition OnMessage (now : Tm) (msg : M) (w : World) (p : nat) : World :=
  match readers w !! p with
  | None => w
  | Some r =>
      let r' := mkReader (rd_type r) (rd_channel r) (rd_node r) (rd_depth r) (msg_callback_ r) (rd_init r) now (latest_recv_time_sec_ r) in
      mkWorld (blockers_ w) (<[p := r']> (readers w)) (writers w)
        (calls w ++ match msg_callback_ r with Some f => [(f, msg)] | None => [] end)
  end.

Definition Notify (now : Tm) (w : World) (b : Blocker) (msg : M) : World :=
  foldl (fun w item => OnMessage now msg w item.2) w (iter (published_callbacks_ b)).

Definition GetBlocker (w : World) (ty : Ty) (channel : string) : option Blocker :=
  match blockers_ w !! channel with
  | Some b => if bool_decide (type_ b = ty) then Some b else None
  | None => None
  end.

Definition GetOrCreateBlocker (w : World) (ty : Ty) (attr : BlockerAttr) : option Blocker * World :=
  match blockers_ w !! channel_name attr with
  | Some b => (if bool_decide (type_ b = ty) then Some b else None, w)
  | None => let b := NewBlocker ty attr in (Some b, set_blockers w (<[channel_name attr := b]> (blockers_ w)))
  end.

(** A member function of the blocker of [channel]. *)
Definition update (w : World) (channel : string) (b : Blocker) : World := set_blockers w (<[channel := b]> (blockers_ w)).

Definition Manager_Publish (now : Tm) (w : World) (ty : Ty) (channel : string) (msg : M) : bool * World :=
  let '(ob, w) := GetOrCreateBlocker w ty (DefaultAttr channel) in
  match ob with
  | None => (false, w)
  | Some b => let b := Enqueue b msg in (true, Notify now (update w channel b) b msg)
  end.

Definition Manager_Subscribe (w : World) (ty : Ty) (channel : string) (cap : Z) (callback_id : string) (callback : nat) : bool * World :=
  let '(ob, w) := GetOrCreateBlocker w ty (mkAttr cap channel) in
  match ob with
  | None => (false, w)
  | Some b => let '(ok, b) := Blocker_Subscribe b callback_id callback in (ok, update w channel b)
  end.

Definition Manager_Unsubscribe (w : World) (ty : Ty) (channel callback_id : string) : bool * World :=
  match GetBlocker w ty channel with
  | None => (false, w)
  | Some b => let '(ok, b) := Blocker_Unsubscribe b callback_id in (ok, update w channel b)
  end.

Definition Manager_Observe (w : World) : World := set_blockers w (Blocker_Observe <$> blockers_ w).
(** Every blocker is reset, then the table is cleared. *)
Definition Manager_Reset (w : World) : World := set_blockers w ∅.

(** ** IntraReader *)

Definition Reader_Init (w : World) (p : nat) (r : IntraReader) : bool * World :=
  let w := set_reader w p (set_rd_init r true) in
  if rd_init r then (true, w) else Manager_Subscribe w (rd_type r) (rd_channel r) (rd_depth r) (rd_node r) p.

Definition Reader_Shutdown (w : World) (p : nat) (r : IntraReader) : World :=
  let w := set_reader w p (set_rd_init r false) in
  if negb (rd_init r) then w else snd (Manager_Unsubscribe w (rd_type r) (rd_channel r) (rd_node r)).

(** ~IntraReader *)
Definition Reader_Destroy (w : World) (p : nat) (r : IntraReader) : World :=
  let w := Reader_Shutdown w p r in mkWorld (blockers_ w) (delete p (readers w)) (writers w) (calls w).

Definition with_blocker (w : World) (r : IntraReader) (f : Blocker -> Blocker) : World :=
  match GetBlocker w (rd_type r) (rd_channel r) with Some b => update w (rd_channel r) (f b) | None => w end.
Definition Reader_ClearData (w : World) (r : IntraReader) : World := with_blocker w r (fun b => ClearPublished (ClearObserved b)).
Definition Reader_Observe (w : World) (r : IntraReader) : World := with_blocker w r Blocker_Observe.
Definition SetHistoryDepth (w : World) (r : IntraReader) (depth : Z) : World := with_blocker w r (fun b => set_capacity b depth).
Definition Reader_Enqueue (now : Tm) (w : World) (r : IntraReader) (msg : M) : World :=
  snd (Manager_Publish now w (rd_type r) (rd_channel r) msg).

Definition of_blocker {A : Type} (w : World) (r : IntraReader) (f : Blocker -> A) (d : A) : A :=
  match GetBlocker w (rd_type r) (rd_channel r) with Some b => f b | None => d end.
Definition Reader_Empty (w : World) (r : IntraReader) : bool := of_blocker w r IsObservedEmpty true.
Definition HasReceived (w : World) (r : IntraReader) : bool := of_blocker w r (fun b => negb (IsPublishedEmpty b)) false.
Definition GetHistoryDepth (w : World) (r : IntraReader) : Z := of_blocker w r (fun b => u32 (capacity (attr_ b))) 0.
Definition Reader_GetLatestObserved (w : World) (r : IntraReader) : option M := of_blocker w r GetLatestObservedPtr None.
Definition Reader_GetOldestObserved (w : World) (r : IntraReader) : option M := of_blocker w r GetOldestObservedPtr None.
(** [None]: the ACHECK fails. *)
Definition Begin (w : World) (r : IntraReader) : option nat := of_blocker w r (fun b => Some (ObservedBegin b)) None.
Definition End_ (w : World) (r : IntraReader) : option nat := of_blocker w r (fun b => Some (ObservedBegin b)) None.

(** ** IntraWriter *)

Definition Writer_Init (w : World) (p : nat) (x : IntraWriter) : bool * World :=
  if wr_init x then (true, w)
  else
    let '(_, w) := GetOrCreateBlocker w (wr_type x) (DefaultAttr (wr_channel x)) in
    (true, set_writer w p (mkWriter (wr_type x) (wr_channel x) true true)).
Definition Writer_Shutdown (w : World) (p : nat) (x : IntraWriter) : World :=
  if negb (wr_init x) then w else set_writer w p (mkWriter (wr_type x) (wr_channel x) false false).
Definition Write (now : Tm) (w : World) (x : IntraWriter) (msg : M) : bool * World :=
  if negb (wr_init x) then (false, w) else Manager_Publish now w (wr_type x) (wr_channel x) msg.

(** ** Executions *)

Inductive op :=
  | NewReader (p : nat) (ty : Ty) (channel node : string) (depth : Z) (cb : option nat) (t0 : Tm)
  | NewWriter (p : nat) (ty : Ty) (channel : string)
  | RInit (p : nat) | RShutdown (p : nat) | RDestroy (p : nat) | RClearData (p : nat) | RObserve (p : nat)
  | RSetHistoryDepth (p : nat) (d : Z) | REnqueue (p : nat) (now : Tm) (msg : M)
  | WInit (p : nat) | WShutdown (p : nat) | WWrite (p : nat) (now : Tm) (msg : M)
  | MPublish (now : Tm) (ty : Ty) (channel : string) (msg : M) | MObserve | MReset.

Definition on_reader (w : World) (p : nat) (f : IntraReader -> World) : World := match readers w !! p with Some r => f r | None => w end.
Definition on_writer (w : World) (p : nat) (f : IntraWriter -> World) : World := match writers w !! p with Some x => f x | None => w end.

Definition step (w : World) (o : op) : World :=
  match o with
  | NewReader p ty ch nd d cb t0 => match readers w !! p with Some _ => w | None => set_reader w p (mkReader ty ch nd d cb false t0 t0) end
  | NewWriter p ty ch => match writers w !! p with Some _ => w | None => set_writer w p (mkWriter ty ch false false) end
  | RInit p => on_reader w p (fun r => snd (Reader_Init w p r))
  | RShutdown p => on_reader w p (Reader_Shutdown w p)
  | RDestroy p => on_reader w p (Reader_Destroy w p)
  | RClearData p => on_reader w p (Reader_ClearData w)
  | RObserve p => on_reader w p (Reader_Observe w)
  | RSetHistoryDepth p d => on_reader w p (fun r => SetHistoryDepth w r d)
  | REnqueue p now m => on_reader w p (fun r => Reader_Enqueue now w r m)
  | WInit p => on_writer w p (fun x => snd (Writer_Init w p x))
  | WShutdown p => on_writer w p (Writer_Shutdown w p)
  | WWrite p now m => on_writer w p (fun x => snd (Write now w x m))
  | MPublish now ty ch m => snd (Manager_Publish now w ty ch m)
  | MObserve => Manager_Observe w
  | MReset => Manager_Reset w
  end.

Definition EmptyWorld : World := mkWorld ∅ ∅ ∅ [].

(** ** Queues *)

Lemma trim_take cap q : 0 <= cap -> trim cap q = take (Z.to_nat cap) q.
Proof.
  intros Hc. unfold trim. assert (forall n q, (length q <= n)%nat -> pop_back_loop n cap q = take (Z.to_nat cap) q) as HG; [|by apply HG].
  clear q. induction n as [|n IH]; intros q Hl; [destruct q; simpl in *; [by rewrite take_nil|lia]|]. simpl.
  destruct (Z.ltb_spec cap (zlen q)) as [Hlt|Hge]; unfold zlen in *; [|by rewrite take_ge by lia].
  destruct q as [|a q _] using rev_ind; [simpl in *; lia|]. rewrite removelast_last. rewrite length_app in *. simpl in *.
  rewrite IH by lia. rewrite take_app_le by lia. done.
Qed.

Lemma Enqueue_queue b m : 0 <= capacity (attr_ b) -> zlen (published_msg_queue_ b) <= capacity (attr_ b) ->
  published_msg_queue_ (Enqueue b m) = take (Z.to_nat (capacity (attr_ b))) (m :: published_msg_queue_ b).
Proof.
  intros Hc Hl. unfold Enqueue. destruct (Z.eqb_spec (capacity (attr_ b)) 0) as [E|]; simpl.
  - destruct (published_msg_queue_ b) eqn:Eq; [by rewrite E|unfold zlen in Hl; simpl in Hl; lia].
  - by rewrite trim_take.
Qed.

(** ** Subscriptions point to live readers *)

(** What OnMessage leaves alone. *)
Definition ident (r : IntraReader) := (rd_type r, rd_channel r, rd_node r, rd_depth r, msg_callback_ r, rd_init r).
Definition same_readers (w w' : World) : Prop := forall p, ident <$> readers w' !! p = ident <$> readers w !! p.

Record wf (w : World) : Prop := {
  wf_live : forall ch b id p, blockers_ w !! ch = Some b -> published_callbacks_ b !! id = Some p ->
    exists r, readers w !! p = Some r /\ rd_init r = true /\ rd_channel r = ch /\ rd_node r = id /\ rd_type r = type_ b;
  wf_queue : forall ch b, blockers_ w !! ch = Some b -> channel_name (attr_ b) = ch /\
    (0 <= capacity (attr_ b) -> zlen (published_msg_queue_ b) <= capacity (attr_ b))
}.

Definition call_of (w : World) (m : M) (p : nat) : list (nat * M) :=
  match readers w !! p with Some r => match msg_callback_ r with Some f => [(f, m)] | None => [] end | None => [] end.

Lemma OnMessage_spec now m w p : same_readers w (OnMessage now m w p) /\ blockers_ (OnMessage now m w p) = blockers_ w /\
  writers (OnMessage now m w p) = writers w /\ calls (OnMessage now m w p) = calls w ++ call_of w m p.
Proof.
  unfold OnMessage, call_of. destruct (readers w !! p) as [r|] eqn:E; [|by rewrite app_nil_r]. split_and!; try done.
  intros q. simpl. destruct (decide (q = p)) as [->|]; [by rewrite lookup_insert_eq, E|by rewrite lookup_insert_ne].
Qed.

Lemma call_of_same w w' m p : same_readers w w' -> call_of w' m p = call_of w m p.
Proof.
  intros Hs. specialize (Hs p). unfold call_of. destruct (readers w !! p) as [r|], (readers w' !! p) as [r'|]; try done. simpl in Hs.
  injection Hs as _ _ _ _ -> _. done.
Qed.

Lemma Notify_spec now w b m : same_readers w (Notify now w b m) /\ blockers_ (Notify now w b m) = blockers_ w /\
  writers (Notify now w b m) = writers w /\
  calls (Notify now w b m) = calls w ++ concat (call_of w m <$> (iter (published_callbacks_ b)).*2).
Proof.
  unfold Notify. generalize (iter (published_callbacks_ b)) as l. intros l. revert w.
  induction l as [|[id p] l IH]; intros w; simpl; [by rewrite app_nil_r|].
  destruct (OnMessage_spec now m w p) as (S1 & B1 & W1 & C1), (IH (OnMessage now m w p)) as (S2 & B2 & W2 & C2). split; [|split; [congruence|split; [congruence|]]].
  - intros q. rewrite S2. apply S1.
  - assert (call_of (OnMessage now m w p) m <$> l.*2 = call_of w m <$> l.*2) as E by (apply list_fmap_ext; intros; by apply call_of_same).
    by rewrite C2, C1, E, <-app_assoc.
Qed.

Lemma wf_same w w' : wf w -> same_readers w w' -> blockers_ w' = blockers_ w -> wf w'.
Proof.
  intros [H1 H2] Hs Hb. constructor; rewrite Hb; [|done]. intros ch b id p Hch Hid. destruct (H1 _ _ _ _ Hch Hid) as (r & Hr & Hp).
  specialize (Hs p). rewrite Hr in Hs. destruct (readers w' !! p) as [r'|] eqn:E; [|done]. exists r'. split; [done|].
  unfold ident in Hs. simpl in Hs. injection Hs as -> -> -> _ _ ->. done.
Qed.

(** [b'] subscribes no reader that the blocker of its channel does not subscribe. *)
Definition queue_ok (b : Blocker) : Prop := 0 <= capacity (attr_ b) -> zlen (published_msg_queue_ b) <= capacity (attr_ b).
Lemma wf_update w ch b' : wf w -> channel_name (attr_ b') = ch -> queue_ok b' ->
  (forall id p, published_callbacks_ b' !! id = Some p -> exists r, readers w !! p = Some r /\ rd_init r = true /\ rd_channel r = ch /\ rd_node r = id /\ rd_type r = type_ b') ->
  wf (update w ch b').
Proof.
  intros [H1 H2] Hc Hq Hp. constructor; simpl; intros ch' b; (destruct (decide (ch' = ch)) as [->|];
    [rewrite lookup_insert_eq|rewrite lookup_insert_ne by done]); eauto; try naive_solver.
Qed.

Lemma wf_new ty w attr : wf w -> blockers_ w !! channel_name attr = None -> wf (update w (channel_name attr) (NewBlocker ty attr)).
Proof. intros Hw _. apply wf_update; [done|done|by intros Hc|]. intros id p. simpl. by rewrite lookup_empty. Qed.

Lemma queue_ok_Enqueue b m : queue_ok b -> queue_ok (Enqueue b m).
Proof.
  intros Hq. assert (capacity (attr_ (Enqueue b m)) = capacity (attr_ b)) as E by (unfold Enqueue; by case_match).
  intros Hc. rewrite E in *. rewrite Enqueue_queue by auto. unfold zlen. rewrite length_take. lia.
Qed.

Lemma Enqueue_frame b m : type_ (Enqueue b m) = type_ b /\ attr_ (Enqueue b m) = attr_ b /\ published_callbacks_ (Enqueue b m) = published_callbacks_ b /\
  observed_msg_queue_ (Enqueue b m) = observed_msg_queue_ b.
Proof. unfold Enqueue. by case_match. Qed.

Lemma GetOrCreate_wf w ty attr ob w' : wf w -> GetOrCreateBlocker w ty attr = (ob, w') ->
  wf w' /\ readers w' = readers w /\ writers w' = writers w /\ calls w' = calls w /\
  (forall b, ob = Some b -> blockers_ w' !! channel_name attr = Some b /\ type_ b = ty).
Proof.
  intros Hw. unfold GetOrCreateBlocker. destruct (blockers_ w !! channel_name attr) as [b|] eqn:E; intros [= <- <-].
  - split_and!; try done. intros b'. case_bool_decide; naive_solver.
  - split_and!; try done; [by apply wf_new|]. intros b' [= <-]. simpl. by rewrite lookup_insert_eq.
Qed.

Lemma GetBlocker_Some w ty ch b : GetBlocker w ty ch = Some b <-> blockers_ w !! ch = Some b /\ type_ b = ty.
Proof. unfold GetBlocker. destruct (blockers_ w !! ch); [|naive_solver]. case_bool_decide; naive_solver. Qed.

Lemma wf_Publish now w ty ch m : wf w -> wf (snd (Manager_Publish now w ty ch m)).
Proof.
  intros Hw. unfold Manager_Publish. destruct (GetOrCreateBlocker w ty (DefaultAttr ch)) as [ob w1] eqn:E.
  destruct (GetOrCreate_wf _ _ _ _ _ Hw E) as (W1 & R1 & _ & _ & B1). destruct ob as [b|]; [|done]. simpl.
  destruct (B1 b eq_refl) as [Hb Ht]. simpl in Hb. destruct (Notify_spec now (update w1 ch (Enqueue b m)) (Enqueue b m) m) as (S & Bl & _).
  refine (wf_same _ _ _ S Bl). destruct (Enqueue_frame b m) as (T & A & P & _). destruct (wf_queue _ W1 _ _ Hb) as [Hc Hq].
  apply wf_update; [done|by rewrite A|by apply queue_ok_Enqueue|]. rewrite P, T. intros id p. by apply (wf_live _ W1).
Qed.

Lemma wf_with_blocker w r f : wf w ->
  (forall b, type_ (f b) = type_ b /\ channel_name (attr_ (f b)) = channel_name (attr_ b) /\ published_callbacks_ (f b) = published_callbacks_ b) ->
  (forall b, queue_ok b -> queue_ok (f b)) -> wf (with_blocker w r f).
Proof.
  intros Hw Hf Hq. unfold with_blocker. destruct (GetBlocker w (rd_type r) (rd_channel r)) as [b|] eqn:E; [|done].
  apply GetBlocker_Some in E as [Hb _]. destruct (Hf b) as (T & C & P). destruct (wf_queue _ Hw _ _ Hb) as [Hc Hb'].
  apply wf_update; [done|by rewrite C|by apply Hq|]. rewrite P, T. intros id p. by apply (wf_live _ Hw).
Qed.

(** A reader that changes only its init_ flag. *)
Lemma wf_set_init w p r : wf w -> readers w !! p = Some r -> wf (set_reader w p (set_rd_init r true)).
Proof.
  intros [H1 H2] Hr. constructor; [|done]. intros ch b id q Hch Hid. destruct (H1 _ _ _ _ Hch Hid) as (r' & Hr' & Hp). simpl.
  destruct (decide (q = p)) as [->|]; [|rewrite lookup_insert_ne by done; eauto]. rewrite lookup_insert_eq. eexists. split; [done|]. simpl.
  naive_solver.
Qed.

Lemma wf_RInit w p r : wf w -> readers w !! p = Some r -> wf (snd (Reader_Init w p r)).
Proof.
  intros Hw Hr. unfold Reader_Init. pose proof (wf_set_init _ _ _ Hw Hr) as Hw1. destruct (rd_init r); [done|].
  unfold Manager_Subscribe. set (w1 := set_reader w p (set_rd_init r true)) in *.
  destruct (GetOrCreateBlocker w1 (rd_type r) (mkAttr (rd_depth r) (rd_channel r))) as [ob w2] eqn:E.
  destruct (GetOrCreate_wf _ _ _ _ _ Hw1 E) as (W2 & R2 & _ & _ & B2). destruct ob as [b|]; [|done]. destruct (B2 b eq_refl) as [Hb Ht]. simpl in Hb.
  destruct (wf_queue _ W2 _ _ Hb) as [Hc Hq]. unfold Blocker_Subscribe. destruct (published_callbacks_ b !! rd_node r) eqn:Es; simpl.
  - apply wf_update; [done..|]. intros id q. by apply (wf_live _ W2).
  - apply wf_update; [done..|]. simpl. intros id q. destruct (decide (id = rd_node r)) as [->|]; [|rewrite lookup_insert_ne by done; by apply (wf_live _ W2)].
    rewrite lookup_insert_eq. intros [= <-]. rewrite R2. simpl. rewrite lookup_insert_eq. eexists. split; [done|]. by simpl.
Qed.

Lemma Shutdown_blocker w p r ch b : blockers_ (Reader_Shutdown w p r) !! ch = Some b ->
  exists b0, blockers_ w !! ch = Some b0 /\ type_ b = type_ b0 /\ attr_ b = attr_ b0 /\ published_msg_queue_ b = published_msg_queue_ b0 /\
    published_callbacks_ b = if rd_init r && bool_decide (ch = rd_channel r /\ type_ b0 = rd_type r)
                             then delete (rd_node r) (published_callbacks_ b0) else published_callbacks_ b0.
Proof.
  unfold Reader_Shutdown, Manager_Unsubscribe. destruct (rd_init r); simpl; [|intros Hb; by exists b].
  assert (GetBlocker (set_reader w p (set_rd_init r false)) (rd_type r) (rd_channel r) = GetBlocker w (rd_type r) (rd_channel r)) as -> by done.
  destruct (GetBlocker w (rd_type r) (rd_channel r)) as [b0|] eqn:Eb; simpl.
  - apply GetBlocker_Some in Eb as [Eb Et]. destruct (decide (ch = rd_channel r)) as [->|Hne].
    + rewrite lookup_insert_eq. intros [= <-]. exists b0. by rewrite bool_decide_true.
    + rewrite lookup_insert_ne by done. intros Hb. exists b. rewrite bool_decide_false by tauto. done.
  - intros Hb. exists b. rewrite bool_decide_false; [done|]. intros [-> Ht]. assert (GetBlocker w (rd_type r) (rd_channel r) = Some b); [by apply GetBlocker_Some|congruence].
Qed.

Lemma Shutdown_readers w p r : readers (Reader_Shutdown w p r) = <[p := set_rd_init r false]> (readers w).
Proof. unfold Reader_Shutdown, Manager_Unsubscribe. destruct (rd_init r); [|done]. simpl. by case_match. Qed.

(** After Shutdown no subscription points to the reader. *)
Lemma Shutdown_unsubscribed w p r ch b id : wf w -> readers w !! p = Some r ->
  blockers_ (Reader_Shutdown w p r) !! ch = Some b -> published_callbacks_ b !! id <> Some p.
Proof.
  intros Hw Hr Hb Hid. destruct (Shutdown_blocker _ _ _ _ _ Hb) as (b0 & Hb0 & Ht & _ & _ & Ec). rewrite Ec in Hid.
  assert (published_callbacks_ b0 !! id = Some p) as Hid0 by (case_match; [by apply lookup_delete_Some in Hid as [_ ?]|done]).
  destruct (wf_live _ Hw _ _ _ _ Hb0 Hid0) as (r' & Hr' & Hi & Hc & Hn & Hty). rewrite Hr in Hr'. injection Hr' as <-.
  rewrite Hi, bool_decide_true in Hid by done. simpl in Hid. rewrite Hn, lookup_delete_eq in Hid. done.
Qed.

Lemma wf_RShutdown w p r : wf w -> readers w !! p = Some r -> wf (Reader_Shutdown w p r).
Proof.
  intros Hw Hr. constructor.
  - intros ch b id q Hb Hid. destruct (Shutdown_blocker _ _ _ _ _ Hb) as (b0 & Hb0 & Ht & _ & _ & Ec).
    assert (q <> p) as Hne by (intros ->; by eapply Shutdown_unsubscribed).
    rewrite Shutdown_readers, lookup_insert_ne, Ht by done. apply (wf_live _ Hw); [done|]. rewrite Ec in Hid.
    case_match; [by apply lookup_delete_Some in Hid as [_ ?]|done].
  - intros ch b Hb. destruct (Shutdown_blocker _ _ _ _ _ Hb) as (b0 & Hb0 & _ & -> & -> & _). by apply (wf_queue _ Hw).
Qed.

Lemma wf_step w o : wf w -> wf (step w o).
Proof.
  intros Hw. destruct o as [p ty ch nd d cb t0|p ty ch|p|p|p|p|p|p d|p now m|p|p|p now m|now ty ch m| |]; simpl; unfold on_reader, on_writer.
  - destruct (readers w !! p) eqn:E; [done|]. constructor; [|apply (wf_queue _ Hw)]. intros ch' b id q Hb Hid.
    destruct (wf_live _ Hw _ _ _ _ Hb Hid) as (r & Hr & Hp). simpl. rewrite lookup_insert_ne by congruence. eauto.
  - destruct (writers w !! p); [done|]. by apply (wf_same w).
  - destruct (readers w !! p) eqn:E; [by apply wf_RInit|done].
  - destruct (readers w !! p) eqn:E; [by apply wf_RShutdown|done].
  - destruct (readers w !! p) as [r|] eqn:E; [|done]. pose proof (wf_RShutdown _ _ _ Hw E) as Hs. constructor; [|apply (wf_queue _ Hs)].
    simpl. intros ch b id q Hb Hid. assert (q <> p) as Hne by (intros ->; exact (Shutdown_unsubscribed _ _ _ _ _ _ Hw E Hb Hid)).
    rewrite lookup_delete_ne by done. by apply (wf_live _ Hs).
  - destruct (readers w !! p); [|done]. apply wf_with_blocker; [done..|]. intros b _ ?. simpl in *. unfold zlen. simpl. lia.
  - destruct (readers w !! p); [|done]. by apply wf_with_blocker.
  - destruct (readers w !! p); [|done]. apply wf_with_blocker; [done..|]. intros b _ Hd. simpl in *. rewrite trim_take by done.
    unfold zlen. rewrite length_take. lia.
  - destruct (readers w !! p); [|done]. by apply wf_Publish.
  - destruct (writers w !! p) as [x|]; [|done]. unfold Writer_Init. destruct (wr_init x); [done|].
    destruct (GetOrCreateBlocker _ _ _) as [ob w1] eqn:E. destruct (GetOrCreate_wf _ _ _ _ _ Hw E) as (W1 & _). simpl. by apply (wf_same w1).
  - destruct (writers w !! p) as [x|]; [|done]. unfold Writer_Shutdown. destruct (wr_init x); [|done]. by apply (wf_same w).
  - destruct (writers w !! p) as [x|]; [|done]. unfold Write. destruct (wr_init x); [by apply wf_Publish|done].
  - by apply wf_Publish.
  - constructor; simpl.
    + intros ch b id p. rewrite lookup_fmap_Some. intros (b0 & <- & Hb) Hid. by apply (wf_live _ Hw _ b0).
    + intros ch b. rewrite lookup_fmap_Some. intros (b0 & <- & Hb). by apply (wf_queue _ Hw _ b0).
  - constructor; simpl; intros ch b; by rewrite lookup_empty.
Qed.

Lemma wf_reachable ops : wf (foldl step EmptyWorld ops).
Proof.
  assert (forall w, wf w -> wf (foldl step w ops)) as HG; [|apply HG; constructor; simpl; intros ch b; by rewrite lookup_empty].
  induction ops as [|o ops IH]; intros w Hw; [done|]. simpl. by apply IH, wf_step.
Qed.

(** In every execution of readers, writers and the manager (creation, Init,
    Shutdown, destruction, publishing, observing, resets, in any order), a Write by
    an initialised writer whose channel has a blocker of its type returns true, calls
    the user function of every subscribed reader once with the message and no
    other function, and leaves the newest messages, at most the capacity, newest first,
    in the published queue while the observed queue keeps its snapshot; every
    subscription is a live, initialised reader of that channel and type, so that
    no call goes to a destroyed reader. *)
Theorem intra_write_reaches_subscribers ops p x b now m :
  let w := foldl step EmptyWorld ops in
  writers w !! p = Some x -> wr_init x = true -> GetBlocker w (wr_type x) (wr_channel x) = Some b -> 0 <= capacity (attr_ b) ->
  let '(ok, w') := Write now w x m in
  ok = true /\
  (exists cs, calls w' = calls w ++ cs /\ cs ≡ₚ concat (call_of w m <$> (map_to_list (published_callbacks_ b)).*2)) /\
  (forall id q, published_callbacks_ b !! id = Some q ->
    exists r, readers w !! q = Some r /\ rd_init r = true /\ rd_channel r = wr_channel x /\ rd_node r = id /\ rd_type r = wr_type x) /\
  exists b', blockers_ w' !! wr_channel x = Some b' /\ observed_msg_queue_ b' = observed_msg_queue_ b /\
    published_msg_queue_ b' = take (Z.to_nat (capacity (attr_ b))) (m :: published_msg_queue_ b).
Proof.
  intros w Hx Hi Hb Hc. pose proof (wf_reachable ops) as Hw. fold w in Hw. apply GetBlocker_Some in Hb as [Hb Ht].
  unfold Write. rewrite Hi. simpl. unfold Manager_Publish, GetOrCreateBlocker. simpl. rewrite Hb, bool_decide_true by done.
  destruct (Enqueue_frame b m) as (T & A & P & O).
  destruct (Notify_spec now (update w (wr_channel x) (Enqueue b m)) (Enqueue b m) m) as (_ & HB & _ & HC). split_and!.
  - done.
  - eexists. split; [exact HC|]. rewrite P. by rewrite iter_perm.
  - intros id q Hid. rewrite <-Ht. by apply (wf_live _ Hw _ b).
  - exists (Enqueue b m). rewrite HB. simpl. rewrite lookup_insert_eq. split_and!; try done. apply Enqueue_queue; [done|]. by apply (wf_queue _ Hw _ _ Hb).
Qed.

(** IntraReader::End returns ObservedBegin: iterating over the observed messages of
    an intra-process reader visits none, however many there are. *)
Theorem intra_iteration_is_empty (w : World) (r : IntraReader) : Begin w r = End_ w r.
Proof. done. Qed.
End blocker.

(** With one message type and numbers for times and messages. *)
Notation exec ops := (foldl (step (Ty := unit) (M := Z) (Tm := Z)) EmptyWorld ops).

Lemma intra_write_reaches_subscribers_witness :
  (Write 7 (exec [NewWriter 0 () "a"; WInit 0; NewReader 1 () "a" "n1" 5 (Some 11%nat) 0; RInit 1; NewReader 2 () "a" "n2" 5 (Some 12%nat) 0; RInit 2])
     (mkWriter () "a" true true) 42).1 = true.
Proof.
  set (ops := [NewWriter 0 () "a"; WInit 0; NewReader 1 () "a" "n1" 5 (Some 11%nat) 0; RInit 1; NewReader 2 () "a" "n2" 5 (Some 12%nat) 0; RInit 2]).
  pose proof (intra_write_reaches_subscribers (Ty := unit) (M := Z) (Tm := Z) ops 0%nat (mkWriter () "a" true true)
    (mkBlocker () (mkAttr 10 "a") [] [] {["n1" := 1%nat; "n2" := 2%nat]}) 7 42) as Hw.
  cbv zeta in Hw. specialize (Hw ltac:(vm_compute; reflexivity)). specialize (Hw eq_refl). specialize (Hw ltac:(vm_compute; reflexivity)).
  specialize (Hw ltac:(simpl; lia)).
  fold ops. destruct (Write 7 (exec ops) (mkWriter () "a" true true) 42) as [ok w']. destruct Hw as [-> _]. reflexivity.
Defined.

(** A reader of the same node name and channel fails to subscribe, and its destructor
    then removes the subscription of the first reader: a message written before is
    delivered, one written after is not. *)
Theorem failed_reader_silences_the_first :
  let first := [NewWriter 0 () "a"; WInit 0; NewReader 1 () "a" "n" 5 (Some 11%nat) 0; RInit 1] in
  calls (exec (first ++ [WWrite 0 1 41])) = [(11%nat, 41)] /\
  calls (exec (first ++ [NewReader 2 () "a" "n" 5 (Some 12%nat) 0; RInit 2; RDestroy 2; WWrite 0 1 41])) = [] /\
  exists r, readers (exec (first ++ [NewReader 2 () "a" "n" 5 (Some 12%nat) 0; RInit 2; RDestroy 2])) !! 1%nat = Some r /\ rd_init r = true.
Proof. split_and!; [vm_compute; reflexivity..|]. eexists. split; vm_compute; reflexivity. Qed.

(** The depth a reader asks for is ignored once a writer has made the blocker. *)
Theorem writer_first_ignores_depth :
  let r := mkReader () "a" "n" 5 None true 0 0 in
  GetHistoryDepth (exec [NewReader 1 () "a" "n" 5 None 0; RInit 1; NewWriter 0 () "a"; WInit 0]) r = 5 /\
  GetHistoryDepth (exec [NewWriter 0 () "a"; WInit 0; NewReader 1 () "a" "n" 5 None 0; RInit 1]) r = 10.
Proof. split; vm_compute; reflexivity. Qed.
