(* ===== verification/Hybrid.v ===== *)
(** Hybrid.v -- the transport between one writer and its readers

    - src/src/apollo/cyber/transport/message/history.h
    - src/src/apollo/cyber/transport/transmitter/{transmitter.h,hybrid_transmitter.h}
    - src/src/apollo/cyber/transport/receiver/hybrid_receiver.h
    - Enable and Disable of the intra-process, shared memory and RTPS transmitters and
      receivers

    A hybrid transmitter owns one transmitter per communication mode and enables the
    one its relation to a reader asks for; a hybrid receiver does the same for its
    writers.  Creating the publisher of the RTPS transmitter may fail, and then it stays
    without one; whether an endpoint has an RTPS subscription is an argument of
    [deliveries].  What an enabled transmitter hands to its medium is recorded in [sent];
    the media themselves are in [ShmTransport] and [Dispatcher].  The asynchronous
    transfers of the history are recorded with the messages they carry. *)

From S2P Require Import Prelude Role Text.
Local Open Scope Z_scope.

Inductive OptionalMode := HYBRID | INTRA | SHM | RTPS.
Inductive Relation := NO_RELATION | DIFF_HOST | DIFF_PROC | SAME_PROC.

Definition mode_code (m : OptionalMode) : nat := match m with HYBRID => 0 | INTRA => 1 | SHM => 2 | RTPS => 3 end.
Definition mode_of (n : nat) : option OptionalMode :=
  match n with O => Some HYBRID | 1%nat => Some INTRA | 2%nat => Some SHM | 3%nat => Some RTPS | _ => None end.
#[export] Instance OptionalMode_eq_dec : EqDecision OptionalMode.
Proof. solve_decision. Defined.
#[export] Instance OptionalMode_countable : Countable OptionalMode.
Proof. apply (inj_countable mode_code mode_of). by intros []. Defined.
#[export] Instance Relation_eq_dec : EqDecision Relation.
Proof. solve_decision. Defined.

(** ** History *)

Section hybrid.
Context {M Info : Type}.
(** resource_limit().max_history_depth() and communication_mode() of the global
    configuration, where they are set. *)
Record CommunicationMode := mkMode { same_proc : OptionalMode; diff_proc : OptionalMode; diff_host : OptionalMode }.
Record Config := mkConfig { conf_max_depth : option Z; conf_mode : option CommunicationMode }.

Record History := mkHistory { hist_enabled : bool; depth_ : Z; max_depth_ : Z; msgs_ : list (M * Info) }.
Definition NewHistory (conf : Config) (policy : QosHistoryPolicy) (d : Z) : History :=
  let max_depth := default 1000 (conf_max_depth conf) in
  mkHistory false (if bool_decide (policy = HISTORY_KEEP_ALL) then max_depth else if max_depth <? d then max_depth else d) max_depth [].
Definition History_Enable (h : History) : History := mkHistory true (depth_ h) (max_depth_ h) (msgs_ h).

(** while (msgs_.size() > depth_) msgs_.pop_front(); *)
Fixpoint pop_front_loop (d : Z) (q : list (M * Info)) : list (M * Info) :=
  match q with
  | [] => []
  | _ :: q' => if d <? zlen q then pop_front_loop d q' else q
  end.
Definition History_Add (h : History) (x : M * Info) : History :=
  if negb (hist_enabled h) then h else mkHistory (hist_enabled h) (depth_ h) (max_depth_ h) (pop_front_loop (depth_ h) (msgs_ h ++ [x])).
Definition History_Clear (h : History) : History := mkHistory (hist_enabled h) (depth_ h) (max_depth_ h) [].
(** msgs->insert(msgs->begin(), ...) *)
Definition GetCachedMessage (h : History) (msgs : list (M * Info)) : list (M * Info) := msgs_ h ++ msgs.

(** ** The transmitters and receivers of one mode *)

(** [sent] is what was handed to the medium, oldest first. *)
Record SubTransmitter := mkSubT { enabled_ : bool; sent : list (M * Info) }.
(** Whether an RTPS publisher can be made: the participant exists and createPublisher
    succeeds. *)
Definition SubT_Enable (rtps_ok : bool) (m : OptionalMode) (t : SubTransmitter) : SubTransmitter :=
  if enabled_ t then t
  else match m with INTRA | SHM => mkSubT true (sent t) | _ => if rtps_ok then mkSubT true (sent t) else t end.
Definition SubT_Disable (t : SubTransmitter) : SubTransmitter := mkSubT false (sent t).
Definition SubT_Transmit (t : SubTransmitter) (x : M * Info) : bool * SubTransmitter :=
  if negb (enabled_ t) then (false, t) else (true, mkSubT true (sent t ++ [x])).

(** The writers the dispatcher calls the receiver for. *)
Record SubReceiver := mkSubR { rcv_enabled : bool; listening : gset Z }.
Definition SubR_EnableFor (r : SubReceiver) (oppo_id : Z) : SubReceiver := mkSubR (rcv_enabled r) ({[oppo_id]} ∪ listening r).
Definition SubR_DisableFor (r : SubReceiver) (oppo_id : Z) : SubReceiver := mkSubR (rcv_enabled r) (listening r ∖ {[oppo_id]}).

Definition GetRelation (attr opposite_attr : RoleAttributes) : Relation :=
  if negb (bool_decide (str (channel_name opposite_attr) = str (channel_name attr))) then NO_RELATION
  else if negb (bool_decide (str (host_ip opposite_attr) = str (host_ip attr))) then DIFF_HOST
  else if negb (bool_decide (num (process_id opposite_attr) = num (process_id attr))) then DIFF_PROC
  else SAME_PROC.

Definition DefaultMode : CommunicationMode := mkMode INTRA SHM RTPS.
(** InitMode, then ObtainConfig. *)
Definition mode (conf : Config) : CommunicationMode := default DefaultMode (conf_mode conf).
(** mapping_table_[relation]; a missing entry is made with the value zero. *)
Definition mapping_table (conf : Config) (r : Relation) : OptionalMode :=
  match r with
  | SAME_PROC => same_proc (mode conf) | DIFF_PROC => diff_proc (mode conf) | DIFF_HOST => diff_host (mode conf)
  | NO_RELATION => HYBRID
  end.
Definition modes (conf : Config) : gset OptionalMode := {[same_proc (mode conf); diff_proc (mode conf); diff_host (mode conf)]}.

(** ** HybridTransmitter *)

Record HybridTransmitter := mkHT {
  ht_attr : RoleAttributes;
  history_ : History;
  transmitters_ : gmap OptionalMode SubTransmitter;
  receivers_ : gmap OptionalMode (gset Z);
  tasks : list (Z * list (M * Info))
}.

Definition qos (a : RoleAttributes) : QosProfile := default (mkQos None None None None None) (qos_profile a).
Definition transient_local (a : RoleAttributes) : bool :=
  bool_decide (default DURABILITY_VOLATILE (durability (qos a)) = DURABILITY_TRANSIENT_LOCAL).

Definition InitHistory (conf : Config) (attr : RoleAttributes) : History :=
  let h := NewHistory conf (default HISTORY_KEEP_LAST (history (qos attr))) (default 1 (depth (qos attr))) in
  if transient_local attr then History_Enable h else h.

Definition NewHT (conf : Config) (attr : RoleAttributes) : HybridTransmitter :=
  mkHT attr (InitHistory conf attr) (gset_to_gmap (mkSubT false []) (modes conf)) (gset_to_gmap ∅ (modes conf)) [].

Definition set_sub (t : HybridTransmitter) (m : OptionalMode) (f : SubTransmitter -> SubTransmitter) : HybridTransmitter :=
  mkHT (ht_attr t) (history_ t) (alter f m (transmitters_ t)) (receivers_ t) (tasks t).
Definition set_receivers (t : HybridTransmitter) (m : OptionalMode) (ids : gset Z) : HybridTransmitter :=
  mkHT (ht_attr t) (history_ t) (transmitters_ t) (<[m := ids]> (receivers_ t)) (tasks t).

Definition TransmitHistoryMsg (t : HybridTransmitter) (opposite_id : Z) : HybridTransmitter :=
  if negb (transient_local (ht_attr t)) then t
  else match GetCachedMessage (history_ t) [] with
       | [] => t
       | unsent_msgs => mkHT (ht_attr t) (history_ t) (transmitters_ t) (receivers_ t) (tasks t ++ [(opposite_id, unsent_msgs)])
       end.

Definition HT_EnableFor (conf : Config) (rtps_ok : bool) (t : HybridTransmitter) (opposite_attr : RoleAttributes) : HybridTransmitter :=
  match GetRelation (ht_attr t) opposite_attr with
  | NO_RELATION => t
  | relation =>
      let m := mapping_table conf relation in
      let t := set_receivers t m ({[num (id opposite_attr)]} ∪ default ∅ (receivers_ t !! m)) in
      let t := set_sub t m (SubT_Enable rtps_ok m) in
      TransmitHistoryMsg t (num (id opposite_attr))
  end.

Definition HT_DisableFor (conf : Config) (t : HybridTransmitter) (opposite_attr : RoleAttributes) : HybridTransmitter :=
  match GetRelation (ht_attr t) opposite_attr with
  | NO_RELATION => t
  | relation =>
      let m := mapping_table conf relation in
      let ids := default ∅ (receivers_ t !! m) ∖ {[num (id opposite_attr)]} in
      let t := set_receivers t m ids in
      if bool_decide (ids = ∅) then set_sub t m SubT_Disable else t
  end.

(** Every transmitter is called; their results are ignored. *)
Definition HT_Transmit (t : HybridTransmitter) (x : M * Info) : bool * HybridTransmitter :=
  (true, mkHT (ht_attr t) (History_Add (history_ t) x) ((fun s => snd (SubT_Transmit s x)) <$> transmitters_ t) (receivers_ t) (tasks t)).

Definition HT_Enable (rtps_ok : bool) (t : HybridTransmitter) : HybridTransmitter :=
  mkHT (ht_attr t) (history_ t) (map_imap (fun m s => Some (SubT_Enable rtps_ok m s)) (transmitters_ t)) (receivers_ t) (tasks t).
Definition HT_Disable (t : HybridTransmitter) : HybridTransmitter :=
  mkHT (ht_attr t) (history_ t) (SubT_Disable <$> transmitters_ t) (receivers_ t) (tasks t).

(** ThreadFunc of either side: the channel the history is sent on. *)
Definition history_channel (writer_id reader_id : Z) : string := (to_string writer_id ++ to_string reader_id)%string.

(** ** HybridReceiver *)

Definition SubR_Enable (r : SubReceiver) : SubReceiver := mkSubR true (listening r).
Definition SubR_Disable (r : SubReceiver) : SubReceiver := mkSubR false (listening r).

Record HybridReceiver := mkHR {
  hr_attr : RoleAttributes;
  sub_receivers : gmap OptionalMode SubReceiver;
  upper_reaches : gmap OptionalMode (gmap Z RoleAttributes);
  history_receivers : list Z
}.
Definition NewHR (conf : Config) (attr : RoleAttributes) : HybridReceiver :=
  mkHR attr (gset_to_gmap (mkSubR false ∅) (modes conf)) (gset_to_gmap ∅ (modes conf)) [].

Definition HR_EnableFor (conf : Config) (r : HybridReceiver) (opposite_attr : RoleAttributes) : HybridReceiver :=
  match GetRelation (hr_attr r) opposite_attr with
  | NO_RELATION => r
  | relation =>
      let m := mapping_table conf relation in
      let i := num (id opposite_attr) in
      let ups := default ∅ (upper_reaches r !! m) in
      match ups !! i with
      | Some _ => r
      | None =>
          mkHR (hr_attr r) (alter (fun s => SubR_EnableFor s i) m (sub_receivers r)) (<[m := <[i := opposite_attr]> ups]> (upper_reaches r))
            (if transient_local opposite_attr then history_receivers r ++ [i] else history_receivers r)
      end
  end.

Definition HR_DisableFor (conf : Config) (r : HybridReceiver) (opposite_attr : RoleAttributes) : HybridReceiver :=
  match GetRelation (hr_attr r) opposite_attr with
  | NO_RELATION => r
  | relation =>
      let m := mapping_table conf relation in
      let i := num (id opposite_attr) in
      let ups := default ∅ (upper_reaches r !! m) in
      match ups !! i with
      | None => r
      | Some _ => mkHR (hr_attr r) (alter (fun s => SubR_DisableFor s i) m (sub_receivers r)) (<[m := delete i ups]> (upper_reaches r)) (history_receivers r)
      end
  end.

Definition HR_Enable (r : HybridReceiver) : HybridReceiver :=
  mkHR (hr_attr r) (SubR_Enable <$> sub_receivers r) (upper_reaches r) (history_receivers r).
Definition HR_Disable (r : HybridReceiver) : HybridReceiver :=
  mkHR (hr_attr r) (SubR_Disable <$> sub_receivers r) (upper_reaches r) (history_receivers r).

(** ClearTransmitters, then ClearReceivers: the destructor. *)
Definition HR_ClearTransmitters (r : HybridReceiver) : HybridReceiver :=
  mkHR (hr_attr r)
    (map_imap (fun m s => Some (foldl (fun s i => SubR_DisableFor s i) s (elements (dom (default ∅ (upper_reaches r !! m)))))) (sub_receivers r))
    ∅ (history_receivers r).

(** ** Executions: peers are named by their ids *)

Variable conf : Config.
Variable at_ : Z -> RoleAttributes.
Hypothesis at_id : forall i, num (id (at_ i)) = i.

(** [ok] tells whether an RTPS publisher could be made at that moment. *)
Inductive event := EEnable (i : Z) (ok : bool) | EDisable (i : Z) | ETransmit (x : M * Info).

Definition HT_step (t : HybridTransmitter) (e : event) : HybridTransmitter :=
  match e with
  | EEnable i ok => HT_EnableFor conf ok t (at_ i)
  | EDisable i => HT_DisableFor conf t (at_ i)
  | ETransmit x => snd (HT_Transmit t x)
  end.
Definition HR_step (r : HybridReceiver) (e : event) : HybridReceiver :=
  match e with
  | EEnable i _ => HR_EnableFor conf r (at_ i)
  | EDisable i => HR_DisableFor conf r (at_ i)
  | ETransmit _ => r
  end.

(** Abstractly, an endpoint has a set of peers. *)
Definition related (a : RoleAttributes) (i : Z) : Prop := GetRelation a (at_ i) <> NO_RELATION.
#[local] Instance related_dec a i : Decision (related a i).
Proof. unfold related. apply _. Defined.
Definition mode_for (a : RoleAttributes) (i : Z) : OptionalMode := mapping_table conf (GetRelation a (at_ i)).
Definition peers_step (a : RoleAttributes) (P : gset Z) (e : event) : gset Z :=
  match e with
  | EEnable i _ => if decide (related a i) then {[i]} ∪ P else P
  | EDisable i => if decide (related a i) then P ∖ {[i]} else P
  | ETransmit _ => P
  end.
Definition peers (a : RoleAttributes) (es : list event) : gset Z := foldl (peers_step a) ∅ es.

(** The modes whose transmitter carries messages: one of shared memory or of the own
    process while it has a peer, one of RTPS from the first publisher that could be made
    for a peer until its last peer is disabled. *)
Definition by_rtps (m : OptionalMode) : bool := match m with INTRA | SHM => false | _ => true end.
Definition on_mode (a : RoleAttributes) (m : OptionalMode) (P : gset Z) : gset Z := filter (fun j => mode_for a j = m) P.
Definition carried_step (a : RoleAttributes) (PQ : gset Z * gset OptionalMode) (e : event) : gset Z * gset OptionalMode :=
  let '(P, Q) := PQ in
  (peers_step a P e,
   match e with
   | EEnable i ok => if decide (related a i) then (if ok || negb (by_rtps (mode_for a i)) then {[mode_for a i]} ∪ Q else Q) else Q
   | EDisable i => if decide (related a i) then (if decide (on_mode a (mode_for a i) (P ∖ {[i]}) = ∅) then Q ∖ {[mode_for a i]} else Q) else Q
   | ETransmit _ => Q
   end).
Definition carried (a : RoleAttributes) (es : list event) : gset OptionalMode := snd (foldl (carried_step a) (∅, ∅) es).

Lemma elem_of_on_mode a m P j : j ∈ on_mode a m P <-> j ∈ P /\ mode_for a j = m.
Proof. unfold on_mode. rewrite elem_of_filter. tauto. Qed.

Record inv_t (a : RoleAttributes) (t : HybridTransmitter) (P : gset Z) (Q : gset OptionalMode) : Prop := {
  it_attr : ht_attr t = a;
  it_related : forall i, i ∈ P -> related a i;
  it_recv : forall m i, i ∈ default ∅ (receivers_ t !! m) <-> i ∈ P /\ mode_for a i = m;
  it_dom : dom (transmitters_ t) = modes conf;
  it_enabled : forall m s, transmitters_ t !! m = Some s -> enabled_ s = true <-> m ∈ Q;
  it_local : forall i, i ∈ P -> by_rtps (mode_for a i) = false -> mode_for a i ∈ Q
}.

Lemma mode_in_modes a i : related a i -> mode_for a i ∈ modes conf.
Proof. unfold related, mode_for, modes. destruct (GetRelation a (at_ i)); [done|set_solver..]. Qed.

Lemma HT_EnableFor_eq ok t i : related (ht_attr t) i ->
  HT_EnableFor conf ok t (at_ i) =
  TransmitHistoryMsg (set_sub (set_receivers t (mode_for (ht_attr t) i) ({[i]} ∪ default ∅ (receivers_ t !! mode_for (ht_attr t) i)))
    (mode_for (ht_attr t) i) (SubT_Enable ok (mode_for (ht_attr t) i))) i.
Proof. unfold related, HT_EnableFor, mode_for. rewrite at_id. by destruct (GetRelation (ht_attr t) (at_ i)). Qed.

Lemma HT_DisableFor_eq t i : related (ht_attr t) i ->
  let m := mode_for (ht_attr t) i in let ids := default ∅ (receivers_ t !! m) ∖ {[i]} in
  HT_DisableFor conf t (at_ i) = if bool_decide (ids = ∅) then set_sub (set_receivers t m ids) m SubT_Disable else set_receivers t m ids.
Proof. unfold related, HT_DisableFor, mode_for. rewrite at_id. by destruct (GetRelation (ht_attr t) (at_ i)). Qed.

Lemma not_related ok t i : ~ related (ht_attr t) i -> HT_EnableFor conf ok t (at_ i) = t /\ HT_DisableFor conf t (at_ i) = t.
Proof. unfold related, HT_EnableFor, HT_DisableFor. intros Hn. destruct (GetRelation (ht_attr t) (at_ i)); [done|exfalso; by apply Hn..]. Qed.

Lemma TransmitHistoryMsg_frame t i : ht_attr (TransmitHistoryMsg t i) = ht_attr t /\ history_ (TransmitHistoryMsg t i) = history_ t /\
  transmitters_ (TransmitHistoryMsg t i) = transmitters_ t /\ receivers_ (TransmitHistoryMsg t i) = receivers_ t.
Proof. unfold TransmitHistoryMsg. case_match; [done|]. by case_match. Qed.

Ltac history_frame :=
  match goal with |- context [TransmitHistoryMsg ?t ?i] =>
    let F1 := fresh in let F2 := fresh in let F3 := fresh in let F4 := fresh in
    destruct (TransmitHistoryMsg_frame t i) as (F1 & F2 & F3 & F4); rewrite ?F1, ?F2, ?F3, ?F4; simpl
  end.

Lemma SubT_Enable_enabled ok m s : enabled_ (SubT_Enable ok m s) = enabled_ s || ok || negb (by_rtps m).
Proof. unfold SubT_Enable. destruct (enabled_ s) eqn:E; simpl; [by rewrite E|]. by destruct m, ok; simpl; rewrite ?E. Qed.
Lemma SubT_Enable_sent ok m s : sent (SubT_Enable ok m s) = sent s.
Proof. unfold SubT_Enable. destruct (enabled_ s); [done|]. by destruct m, ok. Qed.

Lemma inv_t_enable a t P Q i ok : inv_t a t P Q -> related a i -> inv_t a (HT_EnableFor conf ok t (at_ i)) ({[i]} ∪ P)
  (if ok || negb (by_rtps (mode_for a i)) then {[mode_for a i]} ∪ Q else Q).
Proof.
  intros [<- HR HV HD HE HL] Hr. rewrite HT_EnableFor_eq by done. set (m := mode_for (ht_attr t) i).
  destruct (TransmitHistoryMsg_frame (set_sub (set_receivers t m ({[i]} ∪ default ∅ (receivers_ t !! m))) m (SubT_Enable ok m)) i) as (F1 & _ & F3 & F4).
  constructor; rewrite ?F1, ?F3, ?F4; simpl.
  - done.
  - intros j. rewrite elem_of_union, elem_of_singleton. intros [->|]; auto.
  - intros m' j. destruct (decide (m' = m)) as [->|Hne].
    + rewrite lookup_insert_eq. simpl. rewrite !elem_of_union, !elem_of_singleton, HV. unfold m. naive_solver.
    + rewrite lookup_insert_ne by done. rewrite HV, elem_of_union, elem_of_singleton. unfold m in *. naive_solver.
  - by rewrite dom_alter_L.
  - intros m' s. destruct (decide (m' = m)) as [->|Hne].
    + rewrite lookup_alter_eq. intros (s0 & Hs & ->)%fmap_Some. rewrite SubT_Enable_enabled, <-orb_assoc, orb_true_iff, (HE _ _ Hs).
      destruct (ok || negb (by_rtps m)); set_solver.
    + rewrite lookup_alter_ne by done. intros Hs. rewrite (HE _ _ Hs). destruct (ok || negb (by_rtps m)); set_solver.
  - intros j. rewrite elem_of_union, elem_of_singleton. intros [->|Hj] Hm; [fold m in Hm |- *; rewrite Hm, orb_true_r; set_solver|].
    specialize (HL j Hj Hm). destruct (ok || negb (by_rtps m)); set_solver.
Qed.

Lemma inv_t_disable a t P Q i : inv_t a t P Q -> related a i -> inv_t a (HT_DisableFor conf t (at_ i)) (P ∖ {[i]})
  (if decide (on_mode a (mode_for a i) (P ∖ {[i]}) = ∅) then Q ∖ {[mode_for a i]} else Q).
Proof.
  intros [<- HR HV HD HE HL] Hr. rewrite HT_DisableFor_eq by done. set (m := mode_for (ht_attr t) i). set (ids := default ∅ (receivers_ t !! m) ∖ {[i]}).
  assert (ids = on_mode (ht_attr t) m (P ∖ {[i]})) as Hids by (apply set_eq; intros j; unfold ids; rewrite elem_of_on_mode, !elem_of_difference, HV; tauto).
  assert (HV' : forall m' j, j ∈ default ∅ (<[m := ids]> (receivers_ t) !! m') <-> j ∈ P ∖ {[i]} /\ mode_for (ht_attr t) j = m').
  { intros m' j. destruct (decide (m' = m)) as [->|Hne]; [rewrite lookup_insert_eq; simpl; by rewrite Hids, elem_of_on_mode|]. rewrite lookup_insert_ne by done.
    rewrite HV, elem_of_difference, elem_of_singleton. unfold m in *. naive_solver. }
  assert (HR' : forall j, j ∈ P ∖ {[i]} -> related (ht_attr t) j) by (intros j [? _]%elem_of_difference; auto).
  rewrite <-Hids. case_bool_decide as He; [rewrite decide_True by done|rewrite decide_False by done]; constructor; simpl; try done.
  - by rewrite dom_alter_L.
  - intros m' s. destruct (decide (m' = m)) as [->|Hne]; [|rewrite lookup_alter_ne by done; intros Hs; rewrite (HE _ _ Hs); set_solver].
    rewrite lookup_alter_eq. intros (s0 & Hs & ->)%fmap_Some. simpl. split; [done|]. set_solver.
  - intros j Hj Hm. apply elem_of_difference. split; [apply HL; set_solver|]. rewrite elem_of_singleton. intros E.
    assert (j ∈ ids) by (rewrite Hids, elem_of_on_mode; done). set_solver.
  - intros j Hj Hm. apply HL; set_solver.
Qed.

Lemma inv_t_new a : inv_t a (NewHT conf a) ∅ ∅.
Proof.
  constructor; simpl; try done.
  - intros m i. rewrite lookup_gset_to_gmap. destruct (decide (m ∈ modes conf)); [rewrite option_guard_True by done|rewrite option_guard_False by done]; set_solver.
  - by rewrite dom_gset_to_gmap.
  - intros m s. rewrite lookup_gset_to_gmap_Some. intros [_ <-]. set_solver.
Qed.

Lemma inv_t_step a t P Q e : inv_t a t P Q -> inv_t a (HT_step t e) (carried_step a (P, Q) e).1 (carried_step a (P, Q) e).2.
Proof.
  intros Hi. pose proof (it_attr _ _ _ _ Hi) as <-. destruct e as [i ok|i|x]; simpl.
  - case_decide; [by apply inv_t_enable|]. by destruct (not_related ok t i) as [-> _].
  - case_decide as Hr; [by apply inv_t_disable|]. by destruct (not_related true t i) as [_ ->].
  - destruct Hi as [_ HR HV HD HE HL]. constructor; simpl; try done; [by rewrite dom_fmap_L|].
    intros m s. rewrite lookup_fmap_Some. intros (s0 & <- & Hs). rewrite <-(HE _ _ Hs). unfold SubT_Transmit. destruct (enabled_ s0) eqn:E; simpl; by rewrite ?E.
Qed.

Lemma carried_peers a es PQ : fst (foldl (carried_step a) PQ es) = foldl (peers_step a) (fst PQ) es.
Proof. revert PQ. induction es as [|e es IH]; intros [P Q]; [done|]. simpl. by rewrite IH. Qed.

Lemma inv_t_run a es : inv_t a (foldl HT_step (NewHT conf a) es) (peers a es) (carried a es).
Proof.
  unfold peers, carried. pose proof (carried_peers a es (∅, ∅)) as E. cbn [fst] in E. rewrite <-E. clear E. generalize (inv_t_new a). generalize (NewHT conf a), (∅ : gset Z), (∅ : gset OptionalMode).
  induction es as [|e es IH]; intros t P Q Hi; simpl; [done|]. by apply IH, inv_t_step.
Qed.

Record inv_r (a : RoleAttributes) (r : HybridReceiver) (P : gset Z) : Prop := {
  ir_attr : hr_attr r = a;
  ir_dom : dom (sub_receivers r) = modes conf;
  ir_ups : forall m i, is_Some (default ∅ (upper_reaches r !! m) !! i) <-> i ∈ P /\ mode_for a i = m;
  ir_listen : forall m s, sub_receivers r !! m = Some s -> forall i, i ∈ listening s <-> i ∈ P /\ mode_for a i = m
}.

Lemma inv_r_new a : inv_r a (NewHR conf a) ∅.
Proof.
  constructor; simpl; try done.
  - by rewrite dom_gset_to_gmap.
  - intros m i. rewrite lookup_gset_to_gmap. destruct (decide (m ∈ modes conf)); [rewrite option_guard_True by done|rewrite option_guard_False by done];
      simpl; rewrite lookup_empty; split; [intros []; done|set_solver|intros []; done|set_solver].
  - intros m s. rewrite lookup_gset_to_gmap_Some. intros [_ <-] i. set_solver.
Qed.

Lemma HR_EnableFor_eq r i : related (hr_attr r) i ->
  let m := mode_for (hr_attr r) i in let ups := default ∅ (upper_reaches r !! m) in
  HR_EnableFor conf r (at_ i) = match ups !! i with Some _ => r | None =>
    mkHR (hr_attr r) (alter (fun s => SubR_EnableFor s i) m (sub_receivers r)) (<[m := <[i := at_ i]> ups]> (upper_reaches r))
      (if transient_local (at_ i) then history_receivers r ++ [i] else history_receivers r) end.
Proof. unfold related, HR_EnableFor, mode_for. rewrite at_id. by destruct (GetRelation (hr_attr r) (at_ i)). Qed.

Lemma HR_DisableFor_eq r i : related (hr_attr r) i ->
  let m := mode_for (hr_attr r) i in let ups := default ∅ (upper_reaches r !! m) in
  HR_DisableFor conf r (at_ i) = match ups !! i with None => r | Some _ =>
    mkHR (hr_attr r) (alter (fun s => SubR_DisableFor s i) m (sub_receivers r)) (<[m := delete i ups]> (upper_reaches r)) (history_receivers r) end.
Proof. unfold related, HR_DisableFor, mode_for. rewrite at_id. by destruct (GetRelation (hr_attr r) (at_ i)). Qed.

Lemma HR_not_related r i : ~ related (hr_attr r) i -> HR_EnableFor conf r (at_ i) = r /\ HR_DisableFor conf r (at_ i) = r.
Proof. unfold related, HR_EnableFor, HR_DisableFor. intros Hn. destruct (GetRelation (hr_attr r) (at_ i)); [done|exfalso; by apply Hn..]. Qed.

(** Changing what one mode listens to. *)
Lemma inv_r_set a r P P' m f ups h : inv_r a r P ->
  (forall i, is_Some (ups !! i) <-> i ∈ P' /\ mode_for a i = m) ->
  (forall s i, (forall j, j ∈ listening s <-> j ∈ P /\ mode_for a j = m) -> i ∈ listening (f s) <-> i ∈ P' /\ mode_for a i = m) ->
  (forall i, mode_for a i <> m -> i ∈ P' <-> i ∈ P) ->
  inv_r a (mkHR (hr_attr r) (alter f m (sub_receivers r)) (<[m := ups]> (upper_reaches r)) h) P'.
Proof.
  intros [<- HD HU HL] Hups Hf HP. constructor; simpl; try done.
  - by rewrite dom_alter_L.
  - intros m' i. destruct (decide (m' = m)) as [->|Hne]; [by rewrite lookup_insert_eq|]. rewrite lookup_insert_ne, HU by done. naive_solver.
  - intros m' s. destruct (decide (m' = m)) as [->|Hne].
    + rewrite lookup_alter_eq. intros (s0 & Hs & ->)%fmap_Some i. apply Hf. by apply HL.
    + rewrite lookup_alter_ne by done. intros Hs i. rewrite (HL _ _ Hs). naive_solver.
Qed.

Lemma inv_r_step a r P e : inv_r a r P -> inv_r a (HR_step r e) (peers_step a P e).
Proof.
  intros Hi. pose proof (ir_attr _ _ _ Hi) as <-. destruct e as [i ok|i|x]; simpl; [| |done]; (case_decide as Hr; [|by destruct (HR_not_related r i) as [E1 E2]; rewrite ?E1, ?E2]).
  - rewrite HR_EnableFor_eq by done. pose proof (ir_ups _ _ _ Hi (mode_for (hr_attr r) i)) as HU. simpl. destruct (default ∅ _ !! i) eqn:E.
    + replace ({[i]} ∪ P) with P; [done|]. assert (i ∈ P) by (apply (HU i); by rewrite E). set_solver.
    + apply (inv_r_set _ _ P).
      * done.
      * intros j. destruct (decide (j = i)) as [->|]; [rewrite lookup_insert_eq; set_solver|]. rewrite lookup_insert_ne, HU by done. set_solver.
      * intros s j Hs. simpl. rewrite elem_of_union, elem_of_singleton, Hs. set_solver.
      * set_solver.
  - rewrite HR_DisableFor_eq by done. pose proof (ir_ups _ _ _ Hi (mode_for (hr_attr r) i)) as HU. simpl. destruct (default ∅ _ !! i) eqn:E.
    + apply (inv_r_set _ _ P).
      * done.
      * intros j. destruct (decide (j = i)) as [->|]; [rewrite lookup_delete_eq; split; [intros []; done|set_solver]|]. rewrite lookup_delete_ne, HU by done. set_solver.
      * intros s j Hs. simpl. rewrite elem_of_difference, elem_of_singleton, Hs. set_solver.
      * set_solver.
    + replace (P ∖ {[i]}) with P; [done|]. assert (i ∉ P); [|set_solver]. intros HiP. assert (is_Some (None : option RoleAttributes)) as []; [|done].
      rewrite <-E. by apply HU.
Qed.

Lemma inv_r_run a es : inv_r a (foldl HR_step (NewHR conf a) es) (peers a es).
Proof.
  unfold peers. generalize (inv_r_new a). generalize (NewHR conf a), (∅ : gset Z).
  induction es as [|e es IH]; intros r P Hi; simpl; [done|]. by apply IH, inv_r_step.
Qed.

(** ** Delivery *)

(** What a medium reaches; [subscribed] tells whether the reader's process has an RTPS
    subscriber of the channel. *)
Definition reaches (subscribed : bool) (m : OptionalMode) (r : Relation) : bool :=
  match m, r with
  | _, NO_RELATION => false
  | INTRA, SAME_PROC => true
  | INTRA, _ => false
  | SHM, DIFF_HOST => false
  | SHM, _ => true
  | _, _ => subscribed
  end.

(** The modes by which a message transmitted now reaches the receiver: the mode's
    transmitter hands it over, the medium gets there, and the receiver listens
    to the writer on that mode.  Transfers of the history are not among them. *)
Definition deliveries (subscribed : bool) (t : HybridTransmitter) (r : HybridReceiver) (writer : Z) (x : M * Info) : list OptionalMode :=
  List.filter (fun m =>
    match transmitters_ t !! m with Some s => (SubT_Transmit s x).1 | None => false end &&
    match sub_receivers r !! m with Some s => bool_decide (writer ∈ listening s) | None => false end &&
    reaches subscribed m (GetRelation (ht_attr t) (hr_attr r))) (elements (modes conf)).

(** The comments of CommunicationMode: SHM or RTPS between processes, RTPS between
    hosts. *)
Definition well_configured : Prop := diff_proc (mode conf) <> INTRA /\ diff_host (mode conf) <> INTRA /\ diff_host (mode conf) <> SHM.

Lemma GetRelation_sym a b : GetRelation a b = GetRelation b a.
Proof.
  assert (forall (A : Type) (D : EqDecision A) (x y : A), bool_decide (x = y) = bool_decide (y = x)) as Hs by (intros; by apply bool_decide_ext).
  unfold GetRelation. by rewrite (Hs _ _ (str (channel_name b))), (Hs _ _ (str (host_ip b))), (Hs _ _ (num (process_id b))).
Qed.

Lemma mode_reaches sub a i : well_configured -> related a i ->
  reaches sub (mode_for a i) (GetRelation a (at_ i)) = sub || negb (by_rtps (mode_for a i)).
Proof.
  intros (H1 & H2 & H3). unfold related, mode_for. destruct (GetRelation a (at_ i)); simpl; [done|..]; intros _.
  - by destruct (diff_host (mode conf)), sub.
  - by destruct (diff_proc (mode conf)), sub.
  - by destruct (same_proc (mode conf)), sub.
Qed.

Lemma filter_one (p : OptionalMode -> bool) (m : OptionalMode) l : NoDup l -> (forall x, x ∈ l -> p x = true <-> x = m /\ p m = true) ->
  List.filter p l = if decide (m ∈ l) then (if p m then [m] else []) else [].
Proof.
  induction l as [|x l IH]; intros Hnd Hp; [by rewrite decide_False by set_solver|].
  apply NoDup_cons in Hnd as [Hx Hl]. simpl. rewrite IH; [|done|intros y Hy; apply Hp; set_solver].
  pose proof (Hp x ltac:(set_solver)) as Hpx. destruct (decide (x = m)) as [->|Hne].
  - rewrite (decide_False (P := m ∈ l)) by done. rewrite decide_True by set_solver. by destruct (p m).
  - replace (p x) with false by (destruct (p x); naive_solver). destruct (decide (m ∈ l)); [rewrite decide_True by set_solver|rewrite decide_False by set_solver]; done.
Qed.

(** Whether a message for the reader gets through: RTPS needs a publisher and a subscriber. *)
Definition through (subscribed : bool) (w r : Z) (es_w : list event) : bool :=
  negb (by_rtps (mode_for (at_ w) r)) || (subscribed && bool_decide (mode_for (at_ w) r ∈ carried (at_ w) es_w)).

Lemma hybrid_delivery sub w r es_w es_r x :
  well_configured ->
  let t := foldl HT_step (NewHT conf (at_ w)) es_w in
  let rc := foldl HR_step (NewHR conf (at_ r)) es_r in
  (r ∈ peers (at_ w) es_w -> w ∈ peers (at_ r) es_r ->
   deliveries sub t rc w x = if through sub w r es_w then [mode_for (at_ w) r] else []) /\
  (w ∉ peers (at_ r) es_r -> deliveries sub t rc w x = []).
Proof.
  intros Hc t rc. pose proof (inv_t_run (at_ w) es_w) as It. fold t in It. pose proof (inv_r_run (at_ r) es_r) as Ir. fold rc in Ir.
  assert (Esym : mode_for (at_ r) w = mode_for (at_ w) r) by (unfold mode_for; by rewrite GetRelation_sym).
  unfold deliveries. rewrite (it_attr _ _ _ _ It), (ir_attr _ _ _ Ir).
  rewrite (filter_one _ (mode_for (at_ w) r)).
  - split.
    + intros Hr Hw. pose proof (it_related _ _ _ _ It _ Hr) as Hrel. pose proof (mode_in_modes _ _ Hrel) as Hm. rewrite decide_True by (by apply elem_of_elements).
      pose proof Hm as Hm1. rewrite <-(it_dom _ _ _ _ It) in Hm1. apply elem_of_dom in Hm1 as [s Hs]. rewrite Hs.
      pose proof Hm as Hm2. rewrite <-(ir_dom _ _ _ Ir) in Hm2. apply elem_of_dom in Hm2 as [s' Hs']. rewrite Hs'.
      pose proof (it_enabled _ _ _ _ It _ _ Hs) as He. pose proof (it_local _ _ _ _ It _ Hr) as Hl.
      rewrite (bool_decide_true (w ∈ listening s')) by (apply (ir_listen _ _ _ Ir _ _ Hs'); by rewrite Esym). rewrite mode_reaches by done.
      replace (SubT_Transmit s x).1 with (bool_decide (mode_for (at_ w) r ∈ carried (at_ w) es_w)).
      2:{ unfold SubT_Transmit. destruct (enabled_ s); simpl; [rewrite bool_decide_true by (by apply He)|rewrite bool_decide_false by (by intros ?%He)]; done. }
      unfold through. destruct (by_rtps (mode_for (at_ w) r)); simpl.
      * rewrite orb_false_r, andb_true_r, andb_comm. done.
      * rewrite bool_decide_true by (by apply Hl). by rewrite orb_true_r.
    + intros Hw. case_decide; [|done]. destruct (sub_receivers rc !! mode_for (at_ w) r) as [s'|] eqn:Es; [|by rewrite andb_false_r].
      rewrite (bool_decide_false (w ∈ listening s')); [by rewrite andb_false_r|]. intros Hin. apply (ir_listen _ _ _ Ir _ _ Es) in Hin. tauto.
  - apply NoDup_elements.
  - intros m _. split; [|by intros [-> ?]]. intros Hp. assert (m = mode_for (at_ w) r) as <-; [|done].
    apply andb_true_iff in Hp as [Hp _]. apply andb_true_iff in Hp as [_ Hp]. destruct (sub_receivers rc !! m) as [s'|] eqn:Es; [|done].
    apply bool_decide_eq_true in Hp. by apply (ir_listen _ _ _ Ir _ _ Es) in Hp as [_ <-].
Qed.

(** C27. Let a hybrid transmitter (writer [w]) and a hybrid receiver (reader [r]) of
    any attributes go through any sequence of Enable and Disable of peers and of
    transmissions, in which making an RTPS publisher may fail at any Enable, under a
    configuration that follows the comments of CommunicationMode.  While the reader
    is a peer of the writer and the writer a peer of the reader, one call of Transmit hands
    the message over on the mode of their relation and on no other, once, and on that
    mode always when it is that of the process or shared memory; when it is RTPS,
    exactly when the reader's process has a subscriber and some Enable of an RTPS peer has made a
    publisher since the writer last had no RTPS peer.  While the reader has not enabled the writer, it is
    not delivered at all.  The transfers of the history to late readers are separate
    ([late_joiner_misses_nothing], [enabled_twice_resends_history]). *)
Theorem hybrid_delivers_once sub w r es_w es_r x :
  well_configured ->
  let t := foldl HT_step (NewHT conf (at_ w)) es_w in
  let rc := foldl HR_step (NewHR conf (at_ r)) es_r in
  let m := mode_for (at_ w) r in
  (r ∈ peers (at_ w) es_w -> w ∈ peers (at_ r) es_r ->
   deliveries sub t rc w x =
     if by_rtps m then (if sub && bool_decide (m ∈ carried (at_ w) es_w) then [m] else []) else [m]) /\
  (w ∉ peers (at_ r) es_r -> deliveries sub t rc w x = []).
Proof.
  intros Hc t rc m. destruct (hybrid_delivery sub w r es_w es_r x Hc) as [H1 H2]. split; [|done]. intros Hr Hw.
  unfold t, rc, m. rewrite (H1 Hr Hw). unfold through. by destruct (by_rtps (mode_for (at_ w) r)).
Qed.

(** ** History *)

Definition transmitted (es : list event) : list (M * Info) := omap (fun e => match e with ETransmit x => Some x | _ => None end) es.
Definition lastn (n : nat) (l : list (M * Info)) : list (M * Info) := drop (length l - n) l.

Lemma pop_front_lastn d q : 0 <= d -> pop_front_loop d q = lastn (Z.to_nat d) q.
Proof.
  intros Hd. induction q as [|y q IH]; [done|]. simpl. unfold zlen, lastn in *. simpl length. destruct (Z.ltb_spec d (Z.of_nat (S (length q)))).
  - rewrite IH. replace (S (length q) - Z.to_nat d)%nat with (S (length q - Z.to_nat d)) by lia. done.
  - replace (S (length q) - Z.to_nat d)%nat with 0%nat by lia. done.
Qed.

Lemma lastn_snoc d q y : lastn d (lastn d q ++ [y]) = lastn d (q ++ [y]).
Proof.
  unfold lastn. rewrite !length_app, length_drop. simpl. destruct (decide (length q <= d)%nat) as [Hle|Hgt].
  - replace (length q - d)%nat with 0%nat by lia. rewrite drop_0. do 2 f_equal. lia.
  - rewrite !skipn_app, drop_drop, !length_drop. f_equal; f_equal; lia.
Qed.

Lemma HT_step_history t e : history_ (HT_step t e) = match e with ETransmit x => History_Add (history_ t) x | _ => history_ t end /\
  ht_attr (HT_step t e) = ht_attr t.
Proof.
  destruct e as [i ok|i|x]; simpl; [| |done].
  - destruct (decide (related (ht_attr t) i)) as [Hr|Hn]; [rewrite HT_EnableFor_eq by done; by history_frame|by destruct (not_related ok t i Hn) as [-> _]].
  - destruct (decide (related (ht_attr t) i)) as [Hr|Hn]; [rewrite HT_DisableFor_eq by done; simpl; by case_match|by destruct (not_related true t i Hn) as [_ ->]].
Qed.

Lemma HT_run_history a es : transient_local a = true -> let h := history_ (foldl HT_step (NewHT conf a) es) in
  0 <= depth_ (InitHistory conf a) -> hist_enabled h = true /\ depth_ h = depth_ (InitHistory conf a) /\
  msgs_ h = lastn (Z.to_nat (depth_ (InitHistory conf a))) (transmitted es).
Proof.
  intros Ht h Hd. subst h. induction es as [|e es IH] using rev_ind.
  - simpl. unfold InitHistory. by rewrite Ht.
  - rewrite foldl_app. simpl. destruct IH as (I1 & I2 & I3). destruct (HT_step_history (foldl HT_step (NewHT conf a) es) e) as [-> _].
    unfold transmitted in *. rewrite omap_app. destruct e as [i ok|i|x]; simpl; [by rewrite app_nil_r..|].
    unfold History_Add. rewrite I1. simpl. split_and!; [done|done|]. rewrite I2, I3, pop_front_lastn by done. apply lastn_snoc.
Qed.

Definition sent_on (t : HybridTransmitter) (m : OptionalMode) : list (M * Info) := match transmitters_ t !! m with Some s => sent s | None => [] end.

Lemma HT_step_sent a t P Q e m : inv_t a t P Q -> sent_on (HT_step t e) m = sent_on t m ++
  match e, transmitters_ t !! m with ETransmit x, Some s => if enabled_ s then [x] else [] | _, _ => [] end.
Proof.
  intros [<- _ _ _ _ _]. unfold sent_on. destruct e as [i ok|i|x]; simpl; rewrite ?app_nil_r.
  - destruct (decide (related (ht_attr t) i)) as [Hr|Hn]; [|by destruct (not_related ok t i Hn) as [-> _]]. rewrite HT_EnableFor_eq by done.
    history_frame.
    destruct (decide (m = mode_for (ht_attr t) i)) as [->|]; [rewrite lookup_alter_eq|by rewrite lookup_alter_ne].
    destruct (transmitters_ t !! _); [|done]. simpl. apply SubT_Enable_sent.
  - destruct (decide (related (ht_attr t) i)) as [Hr|Hn]; [|by destruct (not_related true t i Hn) as [_ ->]]. rewrite HT_DisableFor_eq by done. simpl. case_bool_decide; [|done].
    simpl. destruct (decide (m = mode_for (ht_attr t) i)) as [->|]; [rewrite lookup_alter_eq|by rewrite lookup_alter_ne]. by destruct (transmitters_ t !! _).
  - rewrite lookup_fmap. destruct (transmitters_ t !! m) as [s|]; [|done]. simpl. unfold SubT_Transmit. destruct (enabled_ s); simpl; by rewrite ?app_nil_r.
Qed.

Lemma HT_run_sent a es : forall t P Q i, inv_t a t P Q -> i ∈ P -> mode_for a i ∈ Q -> EDisable i ∉ es ->
  sent_on (foldl HT_step t es) (mode_for a i) = sent_on t (mode_for a i) ++ transmitted es.
Proof.
  induction es as [|e es IH]; intros t P Q i Hi HP HQ Hno; [by rewrite app_nil_r|]. apply not_elem_of_cons in Hno as [Hne Hno]. simpl.
  rewrite (IH _ (carried_step a (P, Q) e).1 (carried_step a (P, Q) e).2); [|by apply inv_t_step| | |done].
  - rewrite (HT_step_sent a t P Q) by done. rewrite <-app_assoc. f_equal. unfold transmitted. simpl.
    pose proof (mode_in_modes _ _ (it_related _ _ _ _ Hi _ HP)) as Hm. rewrite <-(it_dom _ _ _ _ Hi) in Hm. apply elem_of_dom in Hm as [s Hs]. rewrite Hs.
    assert (enabled_ s = true) as -> by (by apply (it_enabled _ _ _ _ Hi _ _ Hs)). by destruct e.
  - destruct e as [j ok|j|x]; simpl; [case_decide; set_solver| |done]. case_decide; [|done]. assert (i <> j) by congruence. set_solver.
  - destruct e as [j ok|j|x]; simpl; [case_decide; [|done]; case_match; set_solver| |done]. case_decide; [|done]. assert (i <> j) by congruence.
    case_decide as Hem; [|done]. apply elem_of_difference. split; [done|]. rewrite elem_of_singleton. intros E.
    assert (i ∈ on_mode a (mode_for a j) (P ∖ {[j]})) by (rewrite elem_of_on_mode; set_solver). set_solver.
Qed.

(** A transmitter of a transient-local writer that has sent any messages to any
    peers, and then enables a reader of its channel: the history it transfers to
    that reader is the last depth messages sent so far (nothing if there are none),
    and from then on, until the reader is disabled and if its mode carries messages
    (it does unless it is RTPS and no publisher could be made), every message goes
    out on the reader's mode.  Together they are an unbroken tail of the messages of the
    writer. *)
Theorem late_joiner_misses_nothing a pre i ok post :
  transient_local a = true -> 0 <= depth_ (InitHistory conf a) -> related a i ->
  mode_for a i ∈ carried a (pre ++ [EEnable i ok]) -> EDisable i ∉ post ->
  let d := Z.to_nat (depth_ (InitHistory conf a)) in
  let t0 := foldl HT_step (NewHT conf a) pre in
  let t1 := HT_step t0 (EEnable i ok) in
  let t2 := foldl HT_step t1 post in
  tasks t1 = tasks t0 ++ match lastn d (transmitted pre) with [] => [] | l => [(i, l)] end /\
  sent_on t2 (mode_for a i) = sent_on t0 (mode_for a i) ++ transmitted post /\
  (exists missed, transmitted (pre ++ post) = missed ++ lastn d (transmitted pre) ++ transmitted post).
Proof.
  intros Ht Hd Hr Hca Hno d t0 t1 t2. pose proof (inv_t_run a pre) as Hi. fold t0 in Hi. destruct (HT_run_history a pre Ht Hd) as (_ & _ & Hm). fold t0 in Hm.
  pose proof (it_attr _ _ _ _ Hi) as Ha. split_and!.
  - unfold t1. simpl. rewrite HT_EnableFor_eq by (by rewrite Ha). unfold TransmitHistoryMsg. simpl. rewrite Ha, Ht. simpl.
    unfold GetCachedMessage. simpl. rewrite app_nil_r, Hm. fold d. by destruct (lastn d (transmitted pre)); [rewrite app_nil_r|].
  - pose proof (inv_t_run a (pre ++ [EEnable i ok])) as Hi1. rewrite foldl_app in Hi1.
    assert (i ∈ peers a (pre ++ [EEnable i ok])) as HP by (unfold peers; rewrite foldl_app; simpl; rewrite decide_True by done; set_solver).
    unfold t2. rewrite (HT_run_sent a post t1 _ _ i Hi1 HP Hca Hno).
    unfold t1. by rewrite (HT_step_sent a t0 _ _ _ _ Hi), app_nil_r.
  - exists (take (length (transmitted pre) - d) (transmitted pre)). unfold transmitted, lastn. rewrite omap_app, app_assoc. by rewrite take_drop.
Qed.
End hybrid.

(** Readers and writers of one channel, each in a process of its own; writers keep
    their last two messages for late readers. *)
Definition demo_peer (i : Z) : RoleAttributes :=
  mkAttr None (Some "10.0.0.1") (Some i) None None (Some "chatter") None None None (Some i)
    (Some (mkQos (Some HISTORY_KEEP_LAST) (Some 2) None None (Some DURABILITY_TRANSIENT_LOCAL))) None None None.
Definition demo_conf : Config := mkConfig None None.

Lemma hybrid_delivers_once_witness :
  deliveries demo_conf false (foldl (HT_step demo_conf demo_peer) (NewHT demo_conf (demo_peer 1)) [EEnable 2 false; EEnable 3 false; EDisable 2])
    (foldl (HR_step (M := Z) (Info := Z) demo_conf demo_peer) (NewHR demo_conf (demo_peer 3)) [EEnable 1 false]) 1 (7, 7) = [SHM].
Proof.
  apply (hybrid_delivers_once (M := Z) (Info := Z) demo_conf demo_peer (fun i => eq_refl) false 1 3 [EEnable 2 false; EEnable 3 false; EDisable 2] [EEnable 1 false] (7, 7)).
  - by vm_compute.
  - vm_compute; reflexivity.
  - vm_compute; reflexivity.
Defined.

Lemma late_joiner_misses_nothing_witness :
  tasks (HT_step demo_conf demo_peer
    (foldl (HT_step demo_conf demo_peer) (NewHT demo_conf (demo_peer 1)) [ETransmit (5, 1); ETransmit (6, 2); ETransmit (7, 3)]) (EEnable 2 false))
  = [(2, [(6, 2); (7, 3)])].
Proof.
  pose proof (late_joiner_misses_nothing (M := Z) (Info := Z) demo_conf demo_peer (fun i => eq_refl) (demo_peer 1)
    [ETransmit (5, 1); ETransmit (6, 2); ETransmit (7, 3)] 2 false [ETransmit (8, 4)] eq_refl ltac:(vm_compute; discriminate)
    ltac:(vm_compute; discriminate) ltac:(vm_compute; reflexivity) ltac:(set_solver)) as [E _].
  rewrite E. vm_compute. reflexivity.
Defined.

(** Enable does not test whether the reader is known already: the history goes out
    again.  Writer::JoinTheTopology registers for changes before it enables
    the present readers, so a reader that joins in between is enabled twice. *)
Theorem enabled_twice_resends_history :
  tasks (foldl (HT_step demo_conf demo_peer) (NewHT demo_conf (demo_peer 1)) [ETransmit (5, 1); EEnable 2 true; EEnable 2 true])
  = [(2, [(5, 1)]); (2, [(5, 1)])].
Proof. vm_compute. reflexivity. Qed.

(** The channel of a history transfer is named by the two ids written one after the
    other: different pairs share a channel. *)
Theorem history_channels_collide : history_channel 1 23 = history_channel 12 3.
Proof. reflexivity. Qed.
