(* ===== verification/Node.v ===== *)
(** Node.v -- writers and readers find each other

    - src/src/apollo/cyber/node/writer.h, reader.h: Init, Shutdown, JoinTheTopology,
      LeaveTheTopology, OnChannelChange
    - what they use of the channel manager of their process
      (service_discovery/specific_manager/manager.cc, channel_manager.cc)

    Writers and readers are endpoints in processes.  Each process has a registry of
    endpoints, kept by its channel manager.  A change is first put into the
    registry, then passed to the listeners of the process, and, in the process it
    comes from, then published to the other processes, which receive the changes
    of one process in order.  These are separate steps of threads that interleave.
    What an endpoint does with its transmitter or receiver is recorded as events
    of [Hybrid].

    Every writer has a transmitter of its own, but a process has one receiver per channel
    (ReceiverManager of node/reader_base.h, for the message type of the channel): all readers of a
    channel in a process share it, and have its id in their attributes. *)

From S2P Require Import Prelude Role Manager Hybrid.
From stdpp Require Import functions.
Local Open Scope Z_scope.

Section node.
Context {M Info : Type}.
Variable conf : Config.
Variable at_ : Z -> RoleAttributes.
Hypothesis at_id : forall i, num (id (at_ i)) = i.
(** The id of the transmitter or receiver of an endpoint: [at_] has the attributes that go
    with it, as far as the transport reads them. *)
Variable hnd : Z -> Z.
Variable is_writer : Z -> bool.
Variable proc : Z -> nat.
Variable procs : list nat.
Hypothesis proc_in : forall e, proc e ∈ procs.
(** The endpoints there are, in the order in which listeners are called. *)
Variable endpoints : list Z.
Hypothesis endpoints_once : NoDup endpoints.

Local Notation ev := (@event M Info).

(** Where an endpoint is: not initialised; its listener is connected; it has enabled
    the peers it found; its Join is in the own registry, or published; its
    listener is disconnected; its Leave is in the own registry, or published. *)
Inductive Status := Fresh | Listening | Fetched | Joining | Joined | Deaf | Leaving | Gone.

Record Sys := mkSys {
  status : Z -> Status;
  registry : nat -> gset Z;
  queue : nat -> nat -> list (OperateType * Z);      (* published changes, by sender and receiver *)
  pending : Z -> nat -> option OperateType;          (* changes in a registry that its listeners are still to see *)
  events : Z -> list ev                              (* what was called of a transmitter or receiver, by its id *)
}.

Definition same_channel (e f : Z) : bool := bool_decide (str (channel_name (at_ (hnd e))) = str (channel_name (at_ (hnd f)))).
(** GetReceiver: readers share a receiver when they have process and channel in common.
    Transmitters are not shared. *)
Definition share (e f : Z) : Prop :=
  e = f \/ is_writer e = false /\ is_writer f = false /\ proc e = proc f /\ same_channel e f = true.
(** GetReadersOfChannel and GetWritersOfChannel. *)
Definition peer (e f : Z) : bool := negb (Bool.eqb (is_writer e) (is_writer f)) && same_channel e f.
Definition peers_in (e : Z) (R : gset Z) : list Z := List.filter (fun f => peer e f) (elements R).

Definition hears (st : Status) : bool := match st with Listening | Fetched | Joining | Joined => true | _ => false end.
(** OnChannelChange of the endpoint [e] for a change of [f]: what it calls of its
    transmitter or receiver; [ok] is as in [Hybrid]. *)
Definition OnChannelChange (e f : Z) (op : OperateType) (ok : bool) : list ev :=
  if negb (peer e f) then [] else [match op with OPT_JOIN => EEnable (hnd f) ok | OPT_LEAVE => EDisable (hnd f) end].

Definition dispose (R : gset Z) (x : OperateType * Z) : gset Z := match x.1 with OPT_JOIN => {[x.2]} ∪ R | OPT_LEAVE => R ∖ {[x.2]} end.
Definition publish (q : nat -> nat -> list (OperateType * Z)) (src : nat) (x : OperateType * Z) : nat -> nat -> list (OperateType * Z) :=
  fun a b => if bool_decide (a = src /\ b <> src /\ b ∈ procs) then q a b ++ [x] else q a b.

Definition set_status (s : Sys) (e : Z) (st : Status) : Sys := mkSys (<[e := st]> (status s)) (registry s) (queue s) (pending s) (events s).
(** The change is in the registry of [p], the listeners are still to be called. *)
Definition enter (s : Sys) (p : nat) (x : OperateType * Z) : Sys :=
  mkSys (status s) (<[p := dispose (registry s p) x]> (registry s)) (queue s) (<[x.2 := <[p := Some x.1]> (pending s x.2)]> (pending s)) (events s).
(** What the listeners of [p] call of the transmitter or receiver [i]. *)
Definition called (s : Sys) (p : nat) (f : Z) (op : OperateType) (ok : Z -> bool) (i : Z) : list ev :=
  flat_map (fun e => if bool_decide (hnd e = i /\ proc e = p) && hears (status s e) then OnChannelChange e f op (ok e) else []) endpoints.
Definition notify (s : Sys) (p : nat) (f : Z) (op : OperateType) (ok : Z -> bool) : Sys :=
  mkSys (status s) (registry s) (queue s) (<[f := <[p := None]> (pending s f)]> (pending s))
    (fun i => events s i ++ called s p f op ok i).
(** The peers an endpoint finds are enabled. *)
Definition enable_all (ok : Z -> bool) (l : list Z) : list ev := (fun f => EEnable (hnd f) (ok f)) <$> l.

Inductive step (s : Sys) : Sys -> Prop :=
  | n_listen e : e ∈ endpoints -> status s e = Fresh -> step s (set_status s e Listening)
  | n_fetch e ok : status s e = Listening ->
      step s (mkSys (<[e := Fetched]> (status s)) (registry s) (queue s) (pending s)
        (<[hnd e := events s (hnd e) ++ enable_all ok (peers_in e (registry s (proc e)))]> (events s)))
  | n_join e : status s e = Fetched -> step s (enter (set_status s e Joining) (proc e) (OPT_JOIN, e))
  | n_joined e : status s e = Joining -> pending s e (proc e) = None ->
      step s (mkSys (<[e := Joined]> (status s)) (registry s) (publish (queue s) (proc e) (OPT_JOIN, e)) (pending s) (events s))
  | n_unlisten e : status s e = Joined -> step s (set_status s e Deaf)
  | n_leave e : status s e = Deaf -> step s (enter (set_status s e Leaving) (proc e) (OPT_LEAVE, e))
  | n_left e : status s e = Leaving -> pending s e (proc e) = None ->
      step s (mkSys (<[e := Gone]> (status s)) (registry s) (publish (queue s) (proc e) (OPT_LEAVE, e)) (pending s) (events s))
  | n_receive src dst x q : queue s src dst = x :: q -> pending s x.2 dst = None ->
      step s (enter (mkSys (status s) (registry s) (<[src := <[dst := q]> (queue s src)]> (queue s)) (pending s) (events s)) dst x)
  | n_notify f p op ok : pending s f p = Some op -> step s (notify s p f op ok)
  | n_write e x : hears (status s e) = true -> is_writer e = true ->
      step s (mkSys (status s) (registry s) (queue s) (pending s) (<[hnd e := events s (hnd e) ++ [ETransmit x]]> (events s))).

Definition NewSys : Sys := mkSys (fun _ => Fresh) (fun _ => ∅) (fun _ _ => []) (fun _ _ => None) (fun _ => []).

(** ** Invariant

    Each endpoint has its transmitter or receiver for itself. *)
Section exclusive.
Hypothesis hnd_inj : forall e f, hnd e = hnd f -> e = f.

(** A lookup at another endpoint. *)
Ltac elsewhere := rewrite ?fn_lookup_insert_ne by (done || (intros ?%hnd_inj; congruence)).

Definition here (st : Status) : Prop := st = Joining \/ st = Joined \/ st = Deaf.
Definition there (st : Status) : Prop := st = Joined \/ st = Deaf \/ st = Leaving.

Record inv (s : Sys) : Prop := {
  n_src : forall a b x, x ∈ queue s a b -> proc x.2 = a;
  n_own : forall a b, a = b \/ b ∉ procs -> queue s a b = [];
  n_local : forall e, e ∈ registry s (proc e) <-> here (status s e);
  n_remote : forall e p, p ∈ procs -> p <> proc e -> e ∈ foldl dispose (registry s p) (queue s (proc e) p) <-> there (status s e);
  n_peers : forall e f, pending s f (proc e) = None -> hears (status s e) = true ->
    (hnd f ∈ peers at_ (at_ (hnd e)) (events s (hnd e)) -> f ∈ registry s (proc e) /\ peer e f = true) /\
    (status s e <> Listening -> f ∈ registry s (proc e) -> peer e f = true -> hnd f ∈ peers at_ (at_ (hnd e)) (events s (hnd e)));
  n_only : forall e f, hnd f ∈ peers at_ (at_ (hnd e)) (events s (hnd e)) -> peer e f = true;
  n_fresh : forall e, status s e = Fresh -> events s (hnd e) = [];
  n_there : forall e, status s e <> Fresh -> e ∈ endpoints;
  n_pend : forall f p, match pending s f p with Some OPT_JOIN => f ∈ registry s p | Some OPT_LEAVE => f ∉ registry s p | None => True end;
  n_quiet : forall e, status s e <> Joining -> status s e <> Leaving -> pending s e (proc e) = None
}.

Lemma peer_related e f : peer e f = true -> related at_ (at_ (hnd e)) (hnd f).
Proof.
  unfold peer, same_channel, related, GetRelation. intros [_ Hc]%andb_true_iff. apply bool_decide_eq_true in Hc. rewrite bool_decide_true by done. simpl.
  by repeat case_match.
Qed.

Lemma peers_app a es es' : peers at_ a (es ++ es' : list ev) = foldl (peers_step at_ a) (peers at_ a es) es'.
Proof. unfold peers. by rewrite foldl_app. Qed.

Lemma peers_enable_all a R ok (l : list Z) g : (forall f, f ∈ l -> related at_ a (hnd f)) ->
  hnd g ∈ foldl (peers_step at_ a) R (enable_all ok l) <-> hnd g ∈ R \/ g ∈ l.
Proof.
  revert R. induction l as [|f l IH]; intros R Hl; simpl; [set_solver|]. assert (hnd g = hnd f <-> g = f) as Hgf by (split; [apply hnd_inj|by intros ->]). rewrite IH by (intros; apply Hl; set_solver).
  rewrite decide_True by (apply Hl; set_solver). set_solver.
Qed.

Lemma elem_of_peers_in e R f : f ∈ peers_in e R <-> f ∈ R /\ peer e f = true.
Proof. unfold peers_in. rewrite list_elem_of_In, filter_In, <-list_elem_of_In, elem_of_elements. done. Qed.

Lemma dispose_other R x e : e <> x.2 -> e ∈ dispose R x <-> e ∈ R.
Proof. unfold dispose. destruct x as [[] f]; simpl; set_solver. Qed.

Lemma foldl_dispose_ext R R' q e : (e ∈ R <-> e ∈ R') -> e ∈ foldl dispose R q <-> e ∈ foldl dispose R' q.
Proof. revert R R'. induction q as [|[[] f] q IH]; intros R R' HR; simpl; [done| |]; apply IH; unfold dispose; simpl; set_solver. Qed.

Lemma peer_irrefl e : peer e e = false.
Proof. unfold peer. by rewrite eqb_reflx. Qed.

(** A status that changes without the registries. *)
Lemma node_inv_status s e st : inv s ->
  (here st <-> here (status s e)) -> (there st <-> there (status s e)) ->
  (hears st = true -> hears (status s e) = true \/ st = Listening /\ events s (hnd e) = []) -> (hears st = true -> st <> Listening -> status s e <> Listening) ->
  st <> Fresh -> e ∈ endpoints -> (st <> Joining -> st <> Leaving -> pending s e (proc e) = None) ->
  inv (set_status s e st).
Proof.
  intros [H1 H2 H3 H4 H5 H6 H7 H0 H8 H9] Eh Et Er El Hf Hep Hq. constructor; simpl; try done.
  - intros f. destruct (decide (f = e)) as [->|Hne]; [rewrite fn_lookup_insert, Eh|rewrite fn_lookup_insert_ne by done]; apply H3.
  - intros f p Hp Hpf. destruct (decide (f = e)) as [->|Hne]; [rewrite fn_lookup_insert, Et|rewrite fn_lookup_insert_ne by done]; by apply H4.
  - intros g f. destruct (decide (g = e)) as [->|Hne]; [rewrite fn_lookup_insert|rewrite fn_lookup_insert_ne by done; apply H5].
    intros Hp Hh. destruct (Er Hh) as [Hh'|[-> ->]]; [|split; [by intros ?%elem_of_empty|done]]. destruct (H5 e f Hp Hh') as [A B]. split; [done|].
    intros Hl. apply B. by apply El.
  - intros g. destruct (decide (g = e)) as [->|Hne]; [rewrite fn_lookup_insert; by intros ->|rewrite fn_lookup_insert_ne by done; apply H7].
  - intros g. destruct (decide (g = e)) as [->|Hne]; [done|rewrite fn_lookup_insert_ne by done; apply H0].
  - intros g. destruct (decide (g = e)) as [->|Hne]; [rewrite fn_lookup_insert; done|rewrite fn_lookup_insert_ne by done; apply H9].
Qed.

(** An endpoint that records events without gaining or losing peers it knows of. *)
Lemma node_inv_events s e st es : inv s -> status s e <> Fresh ->
  hears (status s e) = hears st -> (here st <-> here (status s e)) -> (there st <-> there (status s e)) -> st <> Fresh ->
  (st <> Joining -> st <> Leaving -> pending s e (proc e) = None) ->
  (forall f, hnd f ∈ peers at_ (at_ (hnd e)) es -> hnd f ∈ peers at_ (at_ (hnd e)) (events s (hnd e)) \/ f ∈ registry s (proc e) /\ peer e f = true) ->
  (forall f, hnd f ∈ peers at_ (at_ (hnd e)) (events s (hnd e)) -> hnd f ∈ peers at_ (at_ (hnd e)) es) ->
  (st <> Listening -> status s e <> Listening \/ forall f, f ∈ registry s (proc e) -> peer e f = true -> hnd f ∈ peers at_ (at_ (hnd e)) es) ->
  inv (mkSys (<[e := st]> (status s)) (registry s) (queue s) (pending s) (<[hnd e := es]> (events s))).
Proof.
  intros [H1 H2 H3 H4 H5 H6 H7 H0 H8 H9] Hnf Eh Eh' Et Hf Hq Hnew Hold Hall. constructor; simpl; try done.
  - intros f. destruct (decide (f = e)) as [->|Hne]; [rewrite fn_lookup_insert, Eh'|rewrite fn_lookup_insert_ne by done]; apply H3.
  - intros f p Hp Hpf. destruct (decide (f = e)) as [->|Hne]; [rewrite fn_lookup_insert, Et|rewrite fn_lookup_insert_ne by done]; by apply H4.
  - intros g f. destruct (decide (g = e)) as [->|Hne]; [|elsewhere; apply H5]. rewrite !fn_lookup_insert, <-Eh. intros Hp Hh.
    destruct (H5 e f Hp Hh) as [A B]. split; [intros [?|?]%Hnew; auto|]. intros Hl Hreg Hpe. destruct (Hall Hl) as [Hl'|Hl']; auto.
  - intros g f. destruct (decide (g = e)) as [->|Hne]; [|elsewhere; apply H6]. rewrite fn_lookup_insert. intros [?|[??]]%Hnew; eauto.
  - intros g. destruct (decide (g = e)) as [->|Hne]; [rewrite fn_lookup_insert; by intros ->|elsewhere; apply H7].
  - intros g. destruct (decide (g = e)) as [->|Hne]; [intros _; by apply H0|rewrite fn_lookup_insert_ne by done; apply H0].
  - intros g. destruct (decide (g = e)) as [->|Hne]; [rewrite fn_lookup_insert; done|rewrite fn_lookup_insert_ne by done; apply H9].
Qed.

Lemma node_inv_fetch s e ok : inv s -> status s e = Listening ->
  inv (mkSys (<[e := Fetched]> (status s)) (registry s) (queue s) (pending s) (<[hnd e := events s (hnd e) ++ enable_all ok (peers_in e (registry s (proc e)))]> (events s))).
Proof.
  intros Hi Hst. assert (forall f, hnd f ∈ peers at_ (at_ (hnd e)) (events s (hnd e) ++ enable_all ok (peers_in e (registry s (proc e)))) <->
    hnd f ∈ peers at_ (at_ (hnd e)) (events s (hnd e)) \/ f ∈ registry s (proc e) /\ peer e f = true) as HP.
  { intros f. rewrite peers_app, peers_enable_all, elem_of_peers_in; [done|]. intros g [_ Hg]%elem_of_peers_in. by apply peer_related. }
  apply node_inv_events; rewrite ?Hst; try done.
  - unfold here. naive_solver.
  - unfold there. naive_solver.
  - intros _ _. apply (n_quiet _ Hi); by rewrite Hst.
  - intros f. by rewrite HP.
  - intros f Hf. rewrite HP. by left.
  - intros _. right. intros f Hr Hp. rewrite HP. by right.
Qed.

Lemma node_inv_write s e x : inv s -> hears (status s e) = true ->
  inv (mkSys (status s) (registry s) (queue s) (pending s) (<[hnd e := events s (hnd e) ++ [ETransmit x]]> (events s))).
Proof.
  intros Hi Hh. assert (forall f, hnd f ∈ peers at_ (at_ (hnd e)) (events s (hnd e) ++ [ETransmit x]) <-> hnd f ∈ peers at_ (at_ (hnd e)) (events s (hnd e))) as HP by (intros f; by rewrite peers_app).
  destruct Hi as [H1 H2 H3 H4 H5 H6 H7 H0 H8 H9]. constructor; simpl; try done.
  - intros g f. destruct (decide (g = e)) as [->|]; [|elsewhere; apply H5]. rewrite fn_lookup_insert, HP. apply H5.
  - intros g f. destruct (decide (g = e)) as [->|]; [|elsewhere; apply H6]. rewrite fn_lookup_insert, HP. apply H6.
  - intros g Hg. destruct (decide (g = e)) as [->|]; [by rewrite Hg in Hh|]. elsewhere. by apply H7.
Qed.

(** Peers only depend on what is not pending. *)
Lemma peers_enter s p x e f : inv s -> pending s x.2 p = None ->
  pending (enter s p x) f (proc e) = None -> hears (status s e) = true ->
  (hnd f ∈ peers at_ (at_ (hnd e)) (events s (hnd e)) -> f ∈ registry (enter s p x) (proc e) /\ peer e f = true) /\
  (status s e <> Listening -> f ∈ registry (enter s p x) (proc e) -> peer e f = true -> hnd f ∈ peers at_ (at_ (hnd e)) (events s (hnd e))).
Proof.
  intros Hi Hpx. simpl. intros Hp Hh.
  assert (pending s f (proc e) = None /\ (f ∈ (<[p := dispose (registry s p) x]> (registry s)) (proc e) <-> f ∈ registry s (proc e))) as [Hp' HR].
  { destruct (decide (f = x.2)) as [->|Hne].
    - rewrite fn_lookup_insert in Hp. destruct (decide (proc e = p)) as [<-|Hpe]; [by rewrite fn_lookup_insert in Hp|].
      rewrite fn_lookup_insert_ne in Hp by done. split; [done|]. by rewrite fn_lookup_insert_ne.
    - rewrite fn_lookup_insert_ne in Hp by done. split; [done|]. destruct (decide (proc e = p)) as [<-|Hpe]; [rewrite fn_lookup_insert; by apply dispose_other|].
      by rewrite fn_lookup_insert_ne. }
  destruct (n_peers _ Hi e f Hp' Hh) as [A B]. rewrite HR. done.
Qed.

Lemma pend_enter s p x f q : inv s ->
  match pending (enter s p x) f q with Some OPT_JOIN => f ∈ registry (enter s p x) q | Some OPT_LEAVE => f ∉ registry (enter s p x) q | None => True end.
Proof.
  intros Hi. simpl. pose proof (n_pend _ Hi f q) as Hq. destruct (decide (f = x.2)) as [->|Hne]; [rewrite fn_lookup_insert|rewrite fn_lookup_insert_ne by done].
  - destruct (decide (q = p)) as [->|]; [rewrite !fn_lookup_insert|by rewrite !fn_lookup_insert_ne]. unfold dispose. destruct x as [[] g]; simpl; set_solver.
  - destruct (decide (q = p)) as [->|]; [rewrite fn_lookup_insert|by rewrite fn_lookup_insert_ne]. destruct (pending s f p) as [[]|]; rewrite ?dispose_other; done.
Qed.

(** Join and Leave put the change into the own registry. *)
Lemma node_inv_enter_own s e op st : inv s ->
  (op = OPT_JOIN /\ status s e = Fetched /\ st = Joining \/ op = OPT_LEAVE /\ status s e = Deaf /\ st = Leaving) ->
  inv (enter (set_status s e st) (proc e) (op, e)).
Proof.
  intros Hi Hop. assert (Hpe : pending s e (proc e) = None) by (apply (n_quiet _ Hi); destruct Hop as [(_ & -> & _)|(_ & -> & _)]; done).
  pose proof Hi as [H1 H2 H3 H4 H5 H6 H7 H0 H8 H9]. constructor.
  - done.
  - done.
  - intros f. simpl. destruct (decide (f = e)) as [->|Hne].
    + rewrite !fn_lookup_insert. unfold dispose, here. destruct Hop as [(-> & _ & ->)|(-> & _ & ->)]; simpl; set_solver.
    + rewrite (fn_lookup_insert_ne (status s)) by done. rewrite <-H3. destruct (decide (proc f = proc e)) as [->|]; [rewrite fn_lookup_insert; by apply dispose_other|by rewrite fn_lookup_insert_ne].
  - intros f p Hp Hpf. simpl. assert (there (<[e := st]> (status s) f) <-> there (status s f)) as ->.
    { destruct (decide (f = e)) as [->|]; [rewrite fn_lookup_insert|by rewrite fn_lookup_insert_ne]. unfold there. destruct Hop as [(_ & -> & ->)|(_ & -> & ->)]; intuition congruence. }
    rewrite <-(H4 f p Hp Hpf). apply foldl_dispose_ext. destruct (decide (p = proc e)) as [->|]; [|by rewrite fn_lookup_insert_ne].
    rewrite fn_lookup_insert. apply dispose_other. simpl. congruence.
  - intros g f Hp. simpl. destruct (decide (g = e)) as [->|Hne].
    + rewrite fn_lookup_insert. intros Hh. destruct Hop as [(-> & Hs & ->)|(-> & Hs & ->)]; [|done]. destruct (peers_enter s (proc e) (OPT_JOIN, e) e f Hi Hpe Hp) as [A B]; [by rewrite Hs|].
      split; [done|]. intros _. apply B. by rewrite Hs.
    + rewrite fn_lookup_insert_ne by done. by apply (peers_enter s (proc e) (op, e)).
  - done.
  - intros g. simpl. destruct (decide (g = e)) as [->|]; [rewrite fn_lookup_insert; by destruct Hop as [(_ & _ & ->)|(_ & _ & ->)]|rewrite fn_lookup_insert_ne by done; apply H7].
  - intros g. simpl. destruct (decide (g = e)) as [->|]; [intros _; apply H0; by destruct Hop as [(_ & -> & _)|(_ & -> & _)]|rewrite fn_lookup_insert_ne by done; apply H0].
  - intros f p. by apply (pend_enter s).
  - intros g. simpl. destruct (decide (g = e)) as [->|]; [rewrite fn_lookup_insert; by destruct Hop as [(_ & _ & ->)|(_ & _ & ->)]|rewrite !fn_lookup_insert_ne by done; apply H9].
Qed.

(** Publishing. *)
Lemma node_inv_publish s e op st : inv s -> pending s e (proc e) = None ->
  (op = OPT_JOIN /\ status s e = Joining /\ st = Joined \/ op = OPT_LEAVE /\ status s e = Leaving /\ st = Gone) ->
  inv (mkSys (<[e := st]> (status s)) (registry s) (publish (queue s) (proc e) (op, e)) (pending s) (events s)).
Proof.
  intros [H1 H2 H3 H4 H5 H6 H7 H0 H8 H9] Hpe Hop. constructor; simpl; try done.
  - intros a b x. unfold publish. case_bool_decide as Hab; [|apply H1]. destruct Hab as (-> & _ & _). rewrite elem_of_app, list_elem_of_singleton.
    intros [Hx| ->]; [by eapply H1|done].
  - intros a b Hab. unfold publish. rewrite bool_decide_false by (intros (-> & Hb & Hb'); destruct Hab; by subst). by apply H2.
  - intros f. rewrite H3. destruct (decide (f = e)) as [->|]; [rewrite fn_lookup_insert; unfold here; destruct Hop as [(_ & -> & ->)|(_ & -> & ->)]; intuition congruence|by rewrite fn_lookup_insert_ne].
  - intros f p Hp Hpf. unfold publish. destruct (decide (proc f = proc e)) as [E|Hne].
    + rewrite bool_decide_true by (by rewrite <-E). rewrite foldl_app. simpl. destruct (decide (f = e)) as [->|Hfe].
      * rewrite fn_lookup_insert. unfold dispose, there. destruct Hop as [(-> & _ & ->)|(-> & _ & ->)]; simpl; set_solver.
      * rewrite dispose_other by done. rewrite fn_lookup_insert_ne by done. by apply H4.
    + rewrite bool_decide_false by (by intros [? _]). rewrite fn_lookup_insert_ne by congruence. by apply H4.
  - intros g f Hp. destruct (decide (g = e)) as [->|]; [|rewrite fn_lookup_insert_ne by done; by apply H5]. rewrite fn_lookup_insert. intros Hh.
    destruct Hop as [(-> & Hs & ->)|(-> & Hs & ->)]; [|done]. destruct (H5 e f Hp) as [A B]; [by rewrite Hs|]. split; [done|]. intros _. apply B. by rewrite Hs.
  - intros g. destruct (decide (g = e)) as [->|]; [rewrite fn_lookup_insert; by destruct Hop as [(_ & _ & ->)|(_ & _ & ->)]|rewrite fn_lookup_insert_ne by done; apply H7].
  - intros g. destruct (decide (g = e)) as [->|]; [intros _; apply H0; by destruct Hop as [(_ & -> & _)|(_ & -> & _)]|rewrite fn_lookup_insert_ne by done; apply H0].
  - intros g. destruct (decide (g = e)) as [->|]; [done|rewrite fn_lookup_insert_ne by done; apply H9].
Qed.

Lemma node_inv_receive s src dst x q : inv s -> queue s src dst = x :: q -> pending s x.2 dst = None ->
  inv (enter (mkSys (status s) (registry s) (<[src := <[dst := q]> (queue s src)]> (queue s)) (pending s) (events s)) dst x).
Proof.
  intros Hi Hq Hpx. pose proof Hi as [H1 H2 H3 H4 H5 H6 H7 H0 H8 H9].
  assert (Hsd : src <> dst) by (intros ->; by rewrite H2 in Hq by (by left)).
  assert (Hx : proc x.2 = src) by (apply (H1 src dst); rewrite Hq; by left).
  assert (HQ : forall a b, (<[src := <[dst := q]> (queue s src)]> (queue s)) a b = if decide (a = src /\ b = dst) then q else queue s a b).
  { intros a b. destruct (decide (a = src)) as [->|]; [rewrite fn_lookup_insert|rewrite fn_lookup_insert_ne by done; by rewrite decide_False by tauto].
    destruct (decide (b = dst)) as [->|]; [rewrite fn_lookup_insert; by rewrite decide_True|rewrite fn_lookup_insert_ne by done; by rewrite decide_False by tauto]. }
  constructor.
  - intros a b y. simpl. rewrite HQ. case_decide as E; [destruct E as [-> ->]; intros Hy; apply (H1 src dst); rewrite Hq; by right|apply H1].
  - intros a b Hab. simpl. rewrite HQ. case_decide as E; [|by apply H2]. destruct E as [-> ->]. by rewrite H2 in Hq.
  - intros f. simpl. rewrite <-H3. destruct (decide (proc f = dst)) as [<-|]; [|by rewrite fn_lookup_insert_ne]. rewrite fn_lookup_insert. apply dispose_other. congruence.
  - intros f p Hp Hpf. simpl. rewrite HQ. destruct (decide (p = dst)) as [->|Hpd].
    + rewrite fn_lookup_insert. case_decide as E.
      * destruct E as [E _]. rewrite <-(H4 f dst Hp Hpf), E, Hq. done.
      * rewrite <-(H4 f dst Hp Hpf). apply foldl_dispose_ext, dispose_other. intros ->. by apply E.
    + rewrite fn_lookup_insert_ne by done. rewrite decide_False by tauto. by apply H4.
  - intros g f Hp. simpl in *. intros Hh. by apply (peers_enter s dst x).
  - done.
  - done.
  - done.
  - intros f p. by apply (pend_enter s).
  - intros g Ha Hb. simpl in *. rewrite <-(H9 g Ha Hb). destruct (decide (g = x.2)) as [->|]; [rewrite fn_lookup_insert|by rewrite fn_lookup_insert_ne].
    rewrite fn_lookup_insert_ne; [done|congruence].
Qed.

Lemma peers_change e f op ok (es : list ev) g : peer e f = true ->
  hnd g ∈ peers at_ (at_ (hnd e)) (es ++ OnChannelChange e f op ok) <-> if decide (g = f) then op = OPT_JOIN else hnd g ∈ peers at_ (at_ (hnd e)) es.
Proof.
  intros Hp. unfold OnChannelChange. rewrite Hp. simpl. rewrite peers_app. simpl. pose proof (peer_related _ _ Hp).
  assert (hnd g = hnd f <-> g = f) as Hgf by (split; [apply hnd_inj|by intros ->]). destruct op; simpl; rewrite decide_True by done.
  - rewrite elem_of_union, elem_of_singleton, Hgf. case_decide; naive_solver.
  - rewrite elem_of_difference, elem_of_singleton, Hgf. case_decide; naive_solver.
Qed.

(** Of an endpoint's own transmitter or receiver nobody else calls anything. *)
Lemma called_own s p f op ok e : inv s ->
  called s p f op ok (hnd e) = if bool_decide (proc e = p) && hears (status s e) then OnChannelChange e f op (ok e) else [].
Proof.
  intros Hi. unfold called.
  assert (forall l, e ∉ l -> flat_map (fun e' => if bool_decide (hnd e' = hnd e /\ proc e' = p) && hears (status s e') then OnChannelChange e' f op (ok e') else []) l = []) as Hno.
  { induction l as [|x l IH]; intros Hl; [done|]. apply not_elem_of_cons in Hl as [Hx Hl]. simpl. rewrite IH by done.
    rewrite bool_decide_false; [done|]. intros [?%hnd_inj _]. congruence. }
  destruct (decide (e ∈ endpoints)) as [Hin|Hin].
  - pose proof endpoints_once as Hnd. apply list_elem_of_split in Hin as (l1 & l2 & E). rewrite E in Hnd |- *.
    apply list.NoDup_app in Hnd as (_ & N1 & [N2 _]%list.NoDup_cons).
    rewrite flat_map_app. simpl. rewrite (Hno l2) by done. rewrite (Hno l1) by (intros H; apply (N1 e H); set_solver). rewrite app_nil_r. simpl.
    replace (bool_decide (hnd e = hnd e /\ proc e = p)) with (bool_decide (proc e = p)); [done|]. apply bool_decide_ext. tauto.
  - rewrite Hno by done. destruct (hears (status s e)) eqn:Hh; [|by rewrite andb_false_r]. exfalso. apply Hin, (n_there _ Hi). by intros Hf; rewrite Hf in Hh.
Qed.

Lemma node_inv_notify s f p op ok : inv s -> pending s f p = Some op -> inv (notify s p f op ok).
Proof.
  intros Hi Hpf. pose proof Hi as [H1 H2 H3 H4 H5 H6 H7 H0 H8 H9]. pose proof (H8 f p) as Hreg. rewrite Hpf in Hreg.
  assert (HO : forall e g, hnd g ∈ peers at_ (at_ (hnd e)) (events s (hnd e) ++ OnChannelChange e f op (ok e)) -> peer e g = true).
  { intros e g. destruct (peer e f) eqn:Ep; [rewrite peers_change by done; case_decide as Hg; [by rewrite Hg|apply H6]|].
    unfold OnChannelChange. rewrite Ep, app_nil_r. apply H6. }
  assert (HE : forall e, events s (hnd e) ++ called s p f op ok (hnd e) = events s (hnd e) ++ OnChannelChange e f op (ok e) /\ proc e = p /\ hears (status s e) = true \/
    events s (hnd e) ++ called s p f op ok (hnd e) = events s (hnd e) /\ ~ (proc e = p /\ hears (status s e) = true)).
  { intros e. rewrite called_own by done. case_bool_decide; simpl; [destruct (hears (status s e)); simpl; [by left|right]|right]; rewrite app_nil_r; split; try done; by intros []. }
  constructor; simpl; try done.
  - intros e g Hp Hh. destruct (HE e) as [(-> & <- & _)|[-> Hn]].
    + destruct (peer e f) eqn:Ep.
      * rewrite peers_change by done. destruct (decide (g = f)) as [->|Hne].
        -- destruct op; split; naive_solver.
        -- rewrite fn_lookup_insert_ne in Hp by done. by apply H5.
      * replace (OnChannelChange e f op (ok e)) with ([] : list ev) by (unfold OnChannelChange; by rewrite Ep). rewrite app_nil_r.
        destruct (decide (g = f)) as [->|Hne]; [split; [intros Hg; apply H6 in Hg; congruence|congruence]|]. rewrite fn_lookup_insert_ne in Hp by done. by apply H5.
    + apply H5; [|done]. destruct (decide (g = f)) as [->|Hne]; [|by rewrite fn_lookup_insert_ne in Hp]. rewrite fn_lookup_insert in Hp.
      rewrite fn_lookup_insert_ne in Hp; [done|]. intros E. by apply Hn.
  - intros e g. destruct (HE e) as [(-> & _)|[-> _]]; [apply HO|apply H6].
  - intros e Hf. destruct (HE e) as [(_ & _ & Hh)|[-> _]]; [by rewrite Hf in Hh|by apply H7].
  - intros g q. destruct (decide (g = f)) as [->|]; [rewrite fn_lookup_insert|rewrite fn_lookup_insert_ne by done; apply H8].
    destruct (decide (q = p)) as [->|]; [by rewrite fn_lookup_insert|rewrite fn_lookup_insert_ne by done; apply H8].
  - intros g Ha Hb. rewrite <-(H9 g Ha Hb). destruct (decide (g = f)) as [->|]; [rewrite fn_lookup_insert|by rewrite fn_lookup_insert_ne].
    destruct (decide (proc f = p)) as [<-|]; [rewrite fn_lookup_insert; by rewrite H9|by rewrite fn_lookup_insert_ne].
Qed.

Lemma node_inv_step s s' : inv s -> step s s' -> inv s'.
Proof.
  intros Hi Hs. destruct Hs as [e Hep He|e ok He|e He|e He Hp|e He|e He|e He Hp|src dst x q Hq Hp|f p op ok Hp|e x He Hw].
  - apply node_inv_status; rewrite ?He; try done; [unfold here; intuition congruence|unfold there; intuition congruence| |].
    + intros _. right. split; [done|]. by apply (n_fresh _ Hi).
    + intros _ _. apply (n_quiet _ Hi); by rewrite He.
  - by apply node_inv_fetch.
  - apply node_inv_enter_own; [done|]. left. done.
  - apply node_inv_publish; [done|done|]. left. done.
  - apply node_inv_status; rewrite ?He; try done; [unfold here; intuition congruence|unfold there; intuition congruence|apply (n_there _ Hi); by rewrite He|].
    intros _ _. apply (n_quiet _ Hi); by rewrite He.
  - apply node_inv_enter_own; [done|]. right. done.
  - apply node_inv_publish; [done|done|]. right. done.
  - by apply node_inv_receive.
  - by apply node_inv_notify.
  - by apply node_inv_write.
Qed.

Lemma node_inv_new : inv NewSys.
Proof.
  constructor; simpl; try done; unfold here, there; intros.
  - set_solver.
  - split; [set_solver|intuition congruence].
  - split; [set_solver|intuition congruence].
Qed.

(** All changes have arrived, and no Join or Leave is under way. *)
Definition settled (s : Sys) : Prop :=
  (forall a b, queue s a b = []) /\ (forall e p, pending s e p = None) /\ (forall e, status s e <> Joining /\ status s e <> Deaf /\ status s e <> Leaving).

Lemma settled_peers s e f : inv s -> settled s -> status s e = Joined ->
  hnd f ∈ peers at_ (at_ (hnd e)) (events s (hnd e)) <-> status s f = Joined /\ peer e f = true.
Proof.
  intros Hi (Hq & Hp & Hst) He.
  assert (f ∈ registry s (proc e) <-> status s f = Joined) as HR.
  { destruct (decide (proc e = proc f)) as [->|Hne].
    - rewrite (n_local _ Hi). unfold here. specialize (Hst f). tauto.
    - pose proof (n_remote _ Hi f (proc e) (proc_in e) Hne) as HR. rewrite Hq in HR. simpl in HR. rewrite HR. unfold there. specialize (Hst f). tauto. }
  destruct (n_peers _ Hi e f (Hp f (proc e))) as [A B]; [by rewrite He|]. rewrite HR in *. split; [done|]. intros [? ?]. apply B; [by rewrite He|done|done].
Qed.

End exclusive.

(** The ids are those of the transmitters and receivers the code makes. *)
Hypothesis hnd_shared : forall e f, hnd e = hnd f <-> share e f.

End node.

(** A writer in process 1 and readers in process 2 of the same host.  Everybody who is not
    reader 2 or 3 is a writer. *)
Definition node_demo (i : Z) : RoleAttributes :=
  mkAttr None (Some "10.0.0.1") (Some i) None None (Some "chatter") None None None (Some i) None None None None.
Definition demo_proc (e : Z) : nat := if bool_decide (e = 1) then 1 else 2.
Definition one_reader (e : Z) : bool := negb (bool_decide (e = 2)).
Definition two_readers (e : Z) : bool := negb (bool_decide (e = 2 \/ e = 3)).
(** Readers 2 and 3 share receiver 2. *)
Definition shared_hnd (e : Z) : Z := if bool_decide (e = 3) then 2 else e.

Notation demo_step := (step node_demo (fun e => e) one_reader demo_proc [1%nat; 2%nat] [1; 2]).
Notation shared_step := (step node_demo shared_hnd two_readers demo_proc [1%nat; 2%nat] [1; 2; 3]).

(** Continue the execution that ends in hypothesis [H] by one step, and name its state. *)
Tactic Notation "walk" hyp(H) uconstr(c) :=
  let H' := fresh in
  match type of H with rtc ?R ?a _ =>
    eassert (rtc R a _) as H'; [eapply rtc_r; [exact H|eapply c; first [vm_compute; reflexivity|set_solver]]|];
    clear H; rename H' into H;
    match type of H with rtc _ _ ?b => let s := fresh "s" in set (s := b) in H end
  end.

(** Nothing is on its way in a state that was reached by walking. *)
Ltac all_settled :=
  split_and!;
  [intros [|[|[|a]]] [|[|[|b]]]; vm_compute; reflexivity
  |intros e p; cbn; unfold insert, fn_insert; cbn; repeat case_decide; done
  |intros e; cbn; unfold insert, fn_insert; cbn; repeat case_decide; done].

(** The writer and reader 2 initialise one after the other, and everything arrives. *)
Lemma demo_settles : exists s : Sys (M := Z) (Info := Z),
  rtc demo_step NewSys s /\ settled s /\ status s 1 = Joined /\ status s 2 = Joined.
Proof.
  assert (rtc demo_step NewSys (NewSys (M := Z) (Info := Z))) as H by apply rtc_refl.
  walk H (n_listen _ _ _ _ _ _ _ 1). walk H (n_fetch _ _ _ _ _ _ _ 1 (fun _ => false)). walk H (n_join _ _ _ _ _ _ _ 1).
  walk H (n_notify _ _ _ _ _ _ _ 1 1 OPT_JOIN (fun _ => false)). walk H (n_joined _ _ _ _ _ _ _ 1).
  walk H (n_receive _ _ _ _ _ _ _ 1 2 (OPT_JOIN, 1) []). walk H (n_notify _ _ _ _ _ _ _ 1 2 OPT_JOIN (fun _ => false)).
  walk H (n_listen _ _ _ _ _ _ _ 2). walk H (n_fetch _ _ _ _ _ _ _ 2 (fun _ => false)). walk H (n_join _ _ _ _ _ _ _ 2).
  walk H (n_notify _ _ _ _ _ _ _ 2 2 OPT_JOIN (fun _ => false)). walk H (n_joined _ _ _ _ _ _ _ 2).
  walk H (n_receive _ _ _ _ _ _ _ 2 1 (OPT_JOIN, 2) []). walk H (n_notify _ _ _ _ _ _ _ 2 1 OPT_JOIN (fun _ => false)).
  eexists. split; [exact H|]. split_and!; [|vm_compute; reflexivity..]. all_settled.
Qed.

Lemma one_reader_alone e f : one_reader e = false -> one_reader f = false -> e = f.
Proof. unfold one_reader. do 2 case_bool_decide; simpl; congruence. Qed.
Lemma one_reader_shares e f : e = f <-> share node_demo (fun e => e) one_reader demo_proc e f.
Proof. split; [by left|]. intros [?|(? & ? & _)]; [done|by apply one_reader_alone]. Qed.


(** Readers 2 and 3 of one process share a receiver.  When 3 shuts down, the writer erases the
    id the two have in common and stops transmitting: everything has arrived, reader 2 is
    initialised and on the writer's channel, and gets nothing. *)
Theorem shared_receiver_is_cut_off : exists s : Sys (M := Z) (Info := Z),
  rtc shared_step NewSys s /\ settled s /\ status s 1 = Joined /\ status s 2 = Joined /\ status s 3 = Gone /\
  same_channel node_demo shared_hnd 1 2 = true /\
  deliveries (mkConfig None None) true (foldl (HT_step (mkConfig None None) node_demo) (NewHT (mkConfig None None) (node_demo 1)) (events s 1))
    (foldl (HR_step (mkConfig None None) node_demo) (NewHR (mkConfig None None) (node_demo 2)) (events s 2)) 1 (7, 7) = [].
Proof.
  assert (rtc shared_step NewSys (NewSys (M := Z) (Info := Z))) as H by apply rtc_refl.
  walk H (n_listen _ _ _ _ _ _ _ 1). walk H (n_fetch _ _ _ _ _ _ _ 1 (fun _ => true)). walk H (n_join _ _ _ _ _ _ _ 1).
  walk H (n_notify _ _ _ _ _ _ _ 1 1 OPT_JOIN (fun _ => true)). walk H (n_joined _ _ _ _ _ _ _ 1).
  walk H (n_receive _ _ _ _ _ _ _ 1 2 (OPT_JOIN, 1) []). walk H (n_notify _ _ _ _ _ _ _ 1 2 OPT_JOIN (fun _ => true)).
  walk H (n_listen _ _ _ _ _ _ _ 2). walk H (n_fetch _ _ _ _ _ _ _ 2 (fun _ => true)). walk H (n_join _ _ _ _ _ _ _ 2).
  walk H (n_notify _ _ _ _ _ _ _ 2 2 OPT_JOIN (fun _ => true)). walk H (n_joined _ _ _ _ _ _ _ 2).
  walk H (n_receive _ _ _ _ _ _ _ 2 1 (OPT_JOIN, 2) []). walk H (n_notify _ _ _ _ _ _ _ 2 1 OPT_JOIN (fun _ => true)).
  walk H (n_listen _ _ _ _ _ _ _ 3). walk H (n_fetch _ _ _ _ _ _ _ 3 (fun _ => true)). walk H (n_join _ _ _ _ _ _ _ 3).
  walk H (n_notify _ _ _ _ _ _ _ 3 2 OPT_JOIN (fun _ => true)). walk H (n_joined _ _ _ _ _ _ _ 3).
  walk H (n_receive _ _ _ _ _ _ _ 2 1 (OPT_JOIN, 3) []). walk H (n_notify _ _ _ _ _ _ _ 3 1 OPT_JOIN (fun _ => true)).
  walk H (n_unlisten _ _ _ _ _ _ _ 3). walk H (n_leave _ _ _ _ _ _ _ 3). walk H (n_notify _ _ _ _ _ _ _ 3 2 OPT_LEAVE (fun _ => true)).
  walk H (n_left _ _ _ _ _ _ _ 3). walk H (n_receive _ _ _ _ _ _ _ 2 1 (OPT_LEAVE, 3) []). walk H (n_notify _ _ _ _ _ _ _ 3 1 OPT_LEAVE (fun _ => true)).
  eexists. split; [exact H|]. split_and!; [all_settled|vm_compute; reflexivity..].
Qed.
(** These readers share as GetReceiver has it. *)
Lemma two_readers_share e f : shared_hnd e = shared_hnd f <-> share node_demo shared_hnd two_readers demo_proc e f.
Proof.
  unfold share. assert (same_channel node_demo shared_hnd e f = true) as -> by (unfold same_channel; by rewrite bool_decide_true).
  unfold shared_hnd, two_readers, demo_proc. split.
  - repeat case_bool_decide; simpl; intros E; subst; try (by left); try lia; right; intuition lia.
  - intros [->|H]; [done|]. revert H. repeat case_bool_decide; simpl; intuition (congruence || lia).
Qed.
