(* ===== verification/Service.v ===== *)
(** Service.v -- requests and responses

    - src/src/apollo/cyber/service/client.h, client_base.h: [Client]
    - src/src/apollo/cyber/service/service.h: [Service]

    Clients send requests on one channel and receive responses on another; every
    client sees every response and picks its own by the identity of its writer and
    the sequence number.  The two channels are the messages in flight; they may be
    delivered in any order, twice or not at all.  What a service does with a
    request is a parameter.  A promise is a cell in a heap, shared by the pending
    table and the future of the caller. *)

From S2P Require Import Prelude Wire.
Local Open Scope Z_scope.

Section service.
Context {Req Resp : Type}.
(** The callback of service [i]. *)
Variable service_callback : nat -> Req -> Resp.

(** ** Client *)

Record Client := mkClient {
  cl_init : bool;   (* response_receiver_ != nullptr *)
  writer_id_ : Identity;
  sequence_number_ : Z;
  pending_requests_ : gmap Z (nat * nat)   (* promise, callback *)
}.

(** The first result is what is transmitted; the promise is the cell [p]. *)
Definition AsyncSendRequest (cl : Client) (p cb : nat) (request : Req) : option (Req * MessageInfo) * Client :=
  if cl_init cl then
    let n := u64 (sequence_number_ cl + 1) in
    (Some (request, mkInfo (writer_id_ cl) n (writer_id_ cl)),
     mkClient (cl_init cl) (writer_id_ cl) n (<[n := (p, cb)]> (pending_requests_ cl)))
  else (None, cl).

(** The promise to fulfil and the callback to call. *)
Definition HandleResponse (cl : Client) (request_header : MessageInfo) : option (nat * nat) * Client :=
  if negb (Identity_eqb (spare_id_ request_header) (writer_id_ cl)) then (None, cl)
  else match pending_requests_ cl !! seq_num_ request_header with
       | None => (None, cl)
       | Some e => (Some e, mkClient (cl_init cl) (writer_id_ cl) (sequence_number_ cl) (delete (seq_num_ request_header) (pending_requests_ cl)))
       end.

(** ** Service *)

Record Service := mkService {
  svc_init : bool;   (* request_receiver_ != nullptr *)
  response_writer : Identity;
  tasks_ : list (Req * MessageInfo)
}.
Definition Svc_Enqueue (s : Service) (x : Req * MessageInfo) : Service := mkService (svc_init s) (response_writer s) (tasks_ s ++ [x]).

(** HandleRequest, with SendResponse: what is transmitted. *)
Definition HandleRequest (i : nat) (s : Service) (x : Req * MessageInfo) : option (Resp * MessageInfo) :=
  if negb (svc_init s) then None
  else Some (service_callback i x.1, mkInfo (response_writer s) (seq_num_ x.2) (spare_id_ x.2)).

(** ** The system *)

Record System := mkSystem {
  clients : list Client;
  services : list Service;
  requests : list (Req * MessageInfo);    (* in flight *)
  responses : list (Resp * MessageInfo);  (* in flight *)
  promises : list (option Resp);
  calls : list (nat * nat);               (* callbacks called, with the future they got *)
  asked : gmap (nat * Z) (Req * nat)      (* request and promise of each call, for the statements *)
}.

(** set_value on a promise. *)
Definition fulfil (ps : list (option Resp)) (p : nat) (r : Resp) : list (option Resp) := <[p := Some r]> ps.

(** A response reaches all clients. *)
Fixpoint respond (cls : list Client) (r : Resp * MessageInfo) (ps : list (option Resp)) (cs : list (nat * nat))
    : list Client * list (option Resp) * list (nat * nat) :=
  match cls with
  | [] => ([], ps, cs)
  | cl :: cls =>
      let '(e, cl') := HandleResponse cl r.2 in
      let '(ps', cs') := match e with Some (p, cb) => (fulfil ps p r.1, cs ++ [(cb, p)]) | None => (ps, cs) end in
      let '(cls', ps'', cs'') := respond cls r ps' cs' in
      (cl' :: cls', ps'', cs'')
  end.

Inductive step (lossy : bool) (s : System) : System -> Prop :=
  | st_call c cl cb req x cl' :
      clients s !! c = Some cl -> sequence_number_ cl + 1 < 2 ^ 64 ->
      AsyncSendRequest cl (length (promises s)) cb req = (Some x, cl') ->
      step lossy s (mkSystem (<[c := cl']> (clients s)) (services s) (requests s ++ [x]) (responses s) (promises s ++ [None]) (calls s)
        (<[(c, sequence_number_ cl') := (req, length (promises s))]> (asked s)))
  | st_receive i svc l1 x l2 (keep : bool) :
      services s !! i = Some svc -> requests s = l1 ++ x :: l2 ->
      step lossy s (mkSystem (clients s) (<[i := Svc_Enqueue svc x]> (services s)) (if keep then requests s else l1 ++ l2)
        (responses s) (promises s) (calls s) (asked s))
  | st_process i svc x ts r :
      services s !! i = Some svc -> tasks_ svc = x :: ts -> HandleRequest i svc x = Some r ->
      step lossy s (mkSystem (clients s) (<[i := mkService (svc_init svc) (response_writer svc) ts]> (services s)) (requests s)
        (responses s ++ [r]) (promises s) (calls s) (asked s))
  | st_respond l1 r l2 (keep : bool) cls ps cs :
      responses s = l1 ++ r :: l2 -> respond (clients s) r (promises s) (calls s) = (cls, ps, cs) ->
      step lossy s (mkSystem cls (services s) (requests s) (if keep then responses s else l1 ++ l2) ps cs (asked s))
  | st_lose_request l1 x l2 : lossy = true -> requests s = l1 ++ x :: l2 ->
      step lossy s (mkSystem (clients s) (services s) (l1 ++ l2) (responses s) (promises s) (calls s) (asked s))
  | st_lose_response l1 r l2 : lossy = true -> responses s = l1 ++ r :: l2 ->
      step lossy s (mkSystem (clients s) (services s) (requests s) (l1 ++ l2) (promises s) (calls s) (asked s))
  | st_destroy i svc : lossy = true -> services s !! i = Some svc ->
      step lossy s (mkSystem (clients s) (<[i := mkService (svc_init svc) (response_writer svc) []]> (services s)) (requests s)
        (responses s) (promises s) (calls s) (asked s)).

Definition NewClient (w : Identity) : Client := mkClient true w 0 ∅.
Definition NewService (w : Identity) : Service := mkService true w [].
Definition NewSystem (ws svs : list Identity) : System := mkSystem (NewClient <$> ws) (NewService <$> svs) [] [] [] [] ∅.

(** ** Invariant *)

Definition owner (cls : list Client) (info : MessageInfo) (c : nat) : Prop :=
  exists cl, cls !! c = Some cl /\ data_ (spare_id_ info) = data_ (writer_id_ cl).
Definition carried (s : System) (c : nat) (n : Z) : Prop :=
  (exists x, (x ∈ requests s \/ exists i svc, services s !! i = Some svc /\ x ∈ tasks_ svc) /\ owner (clients s) x.2 c /\ seq_num_ x.2 = n) \/
  (exists r, r ∈ responses s /\ owner (clients s) r.2 c /\ seq_num_ r.2 = n).

Record inv (lossy : bool) (s : System) : Prop := {
  i_ids : NoDup ((fun cl => data_ (writer_id_ cl)) <$> clients s);
  i_asked : forall c n req p, asked s !! (c, n) = Some (req, p) ->
    (exists cl, clients s !! c = Some cl /\ 1 <= n <= sequence_number_ cl) /\ (p < length (promises s))%nat;
  i_inj : forall k k' req req' p, asked s !! k = Some (req, p) -> asked s !! k' = Some (req', p) -> k = k';
  i_req : forall x, (x ∈ requests s \/ exists i svc, services s !! i = Some svc /\ x ∈ tasks_ svc) ->
    exists c p, owner (clients s) x.2 c /\ asked s !! (c, seq_num_ x.2) = Some (x.1, p);
  i_resp : forall r, r ∈ responses s ->
    exists c p i req, owner (clients s) r.2 c /\ asked s !! (c, seq_num_ r.2) = Some (req, p) /\ r.1 = service_callback i req;
  i_pend : forall c cl n p cb, clients s !! c = Some cl -> pending_requests_ cl !! n = Some (p, cb) ->
    (exists req, asked s !! (c, n) = Some (req, p)) /\ promises s !! p = Some None;
  i_done : forall c n req p, asked s !! (c, n) = Some (req, p) ->
    (exists cl cb, clients s !! c = Some cl /\ pending_requests_ cl !! n = Some (p, cb)) \/
    (exists i, promises s !! p = Some (Some (service_callback i req)));
  i_calls : NoDup (calls s).*2 /\ forall p, p ∈ (calls s).*2 <-> exists r, promises s !! p = Some (Some r);
  i_seq : forall c cl, clients s !! c = Some cl -> cl_init cl = true /\ 0 <= sequence_number_ cl < 2 ^ 64;
  i_live : lossy = false -> forall c cl n e, clients s !! c = Some cl -> pending_requests_ cl !! n = Some e -> carried s c n
}.

Lemma HandleResponse_None cl h cl' : HandleResponse cl h = (None, cl') -> cl' = cl.
Proof. unfold HandleResponse. repeat case_match; naive_solver. Qed.

Lemma HandleResponse_Some cl h e cl' : HandleResponse cl h = (Some e, cl') ->
  data_ (spare_id_ h) = data_ (writer_id_ cl) /\ pending_requests_ cl !! seq_num_ h = Some e /\ cl_init cl' = cl_init cl /\
  writer_id_ cl' = writer_id_ cl /\ sequence_number_ cl' = sequence_number_ cl /\ pending_requests_ cl' = delete (seq_num_ h) (pending_requests_ cl).
Proof.
  unfold HandleResponse, Identity_eqb. case_bool_decide; simpl; [|done]. destruct (pending_requests_ cl !! seq_num_ h) eqn:E; [|done].
  intros [= <- <-]. done.
Qed.

(** At most one client takes the response. *)
Lemma respond_spec cls r : forall ps cs, NoDup ((fun cl => data_ (writer_id_ cl)) <$> cls) ->
  (respond cls r ps cs = (cls, ps, cs) /\ forall c cl, cls !! c = Some cl -> (HandleResponse cl r.2).1 = None) \/
  (exists c cl cl' p cb, cls !! c = Some cl /\ HandleResponse cl r.2 = (Some (p, cb), cl') /\
    respond cls r ps cs = (<[c := cl']> cls, fulfil ps p r.1, cs ++ [(cb, p)])).
Proof.
  induction cls as [|cl cls IH]; intros ps cs Hn; [left; by split|]. rewrite fmap_cons in Hn. apply NoDup_cons in Hn as [Hh Hn]. simpl.
  destruct (HandleResponse cl r.2) as [[[p cb]|] cl'] eqn:E.
  - right. exists 0%nat, cl, cl', p, cb. split_and!; [done|done|]. destruct (IH (fulfil ps p r.1) (cs ++ [(cb, p)]) Hn) as [[-> _]|(c & cl1 & cl2 & p1 & cb1 & Hc & E1 & _)]; [done|].
    exfalso. apply Hh. apply HandleResponse_Some in E as (E & _). apply HandleResponse_Some in E1 as (E1 & _).
    apply list_elem_of_fmap. exists cl1. split; [congruence|]. by eapply list_elem_of_lookup_2.
  - apply HandleResponse_None in E as Ecl. subst cl'. destruct (IH ps cs Hn) as [[-> Hno]|(c & cl1 & cl2 & p1 & cb1 & Hc & E1 & ->)].
    + left. split; [done|]. intros [|c] cl1 Hc; simpl in Hc; [injection Hc as <-; by rewrite E|eauto].
    + right. by exists (S c), cl1, cl2, p1, cb1.
Qed.

(** Owners and identities do not change. *)
Lemma owner_insert cls c cl cl' info d : cls !! c = Some cl -> writer_id_ cl' = writer_id_ cl -> owner (<[c := cl']> cls) info d <-> owner cls info d.
Proof.
  intros Hc Hw. unfold owner. destruct (decide (d = c)) as [->|Hne]; [|by rewrite list_lookup_insert_ne].
  rewrite list_lookup_insert_eq by (by eapply lookup_lt_Some). split; [intros (x & [= <-] & Hx); exists cl; by rewrite <-Hw|].
  intros (x & Hx & E). exists cl'. rewrite Hc in Hx. injection Hx as <-. by rewrite Hw.
Qed.

Lemma ids_insert (cls : list Client) (c : nat) cl cl' : cls !! c = Some cl -> writer_id_ cl' = writer_id_ cl ->
  (fun cl => data_ (writer_id_ cl)) <$> <[c := cl']> cls = (fun cl => data_ (writer_id_ cl)) <$> cls.
Proof. intros Hc Hw. rewrite list_fmap_insert, Hw. apply list_insert_id. by rewrite list_lookup_fmap, Hc. Qed.

Lemma owner_unique cls info c d : NoDup ((fun cl => data_ (writer_id_ cl)) <$> cls) -> owner cls info c -> owner cls info d -> c = d.
Proof.
  intros Hn (cl & Hc & E) (cl' & Hd & E'). eapply NoDup_lookup; [done| |]; rewrite list_lookup_fmap, ?Hc, ?Hd; simpl; [done|congruence].
Qed.

Definition in_request (s : System) (x : Req * MessageInfo) : Prop :=
  x ∈ requests s \/ exists i svc, services s !! i = Some svc /\ x ∈ tasks_ svc.

(** Steps of the channels and services only. *)
Lemma svc_inv_flight lossy s s' : inv lossy s ->
  clients s' = clients s -> promises s' = promises s -> calls s' = calls s -> asked s' = asked s ->
  (forall x, in_request s' x -> in_request s x) ->
  (forall r, r ∈ responses s' -> r ∈ responses s \/
    exists i x, in_request s x /\ r.1 = service_callback i x.1 /\ seq_num_ r.2 = seq_num_ x.2 /\ spare_id_ r.2 = spare_id_ x.2) ->
  (lossy = false -> forall x, in_request s x -> in_request s' x \/
    exists r, r ∈ responses s' /\ seq_num_ r.2 = seq_num_ x.2 /\ spare_id_ r.2 = spare_id_ x.2) ->
  (lossy = false -> forall r, r ∈ responses s -> r ∈ responses s') ->
  inv lossy s'.
Proof.
  intros [H1 H2 H3 H4 H5 H6 H7 H8 H9 H10] Ec Ep El Ea Hr Hs Hl1 Hl2. constructor; rewrite ?Ec, ?Ep, ?El, ?Ea; try done.
  - intros x Hx. by apply H4, Hr.
  - intros r [Hx|(i & x & Hx & E1 & E2 & E3)]%Hs; [by apply H5|]. destruct (H4 x Hx) as (c & p & Ho & Hk). exists c, p, i, x.1.
    rewrite E2. split_and!; try done. unfold owner in *. by rewrite E3.
  - intros Hlo c cl n e Hc Hn. unfold carried, owner. rewrite Ec. destruct (H10 Hlo c cl n e Hc Hn) as [(x & Hx & Ho & En)|(r & Hx & Ho & En)].
    + destruct (Hl1 Hlo x Hx) as [Hx'|(r & Hx' & E2 & E3)]; [left; by exists x|]. right. exists r. rewrite E2. unfold owner in Ho. by rewrite E3.
    + right. exists r. auto.
Qed.

Lemma in_split {A} (x y : A) l1 l2 : y ∈ l1 ++ l2 -> y ∈ l1 ++ x :: l2.
Proof. rewrite !elem_of_app, elem_of_cons. tauto. Qed.

(** A task queue that changes. *)
Lemma in_tasks (svs : list Service) i svc svc' x : svs !! i = Some svc ->
  (exists j v, <[i := svc']> svs !! j = Some v /\ x ∈ tasks_ v) <-> x ∈ tasks_ svc' \/ (exists j v, j <> i /\ svs !! j = Some v /\ x ∈ tasks_ v).
Proof.
  intros Hi. split.
  - intros (j & v & Hj & Hx). destruct (decide (j = i)) as [->|Hne]; [rewrite list_lookup_insert_eq in Hj by (by eapply lookup_lt_Some); injection Hj as <-; by left|].
    rewrite list_lookup_insert_ne in Hj by done. right. eauto.
  - intros [Hx|(j & v & Hne & Hj & Hx)]; [exists i, svc'; rewrite list_lookup_insert_eq by (by eapply lookup_lt_Some)|exists j, v; rewrite list_lookup_insert_ne by done]; done.
Qed.
Lemma in_tasks_same (svs : list Service) i svc x : svs !! i = Some svc ->
  (exists j v, svs !! j = Some v /\ x ∈ tasks_ v) <-> x ∈ tasks_ svc \/ (exists j v, j <> i /\ svs !! j = Some v /\ x ∈ tasks_ v).
Proof. intros Hi. rewrite <-(in_tasks svs i svc svc x Hi), list_insert_id by done. done. Qed.

Lemma svc_inv_receive lossy s i svc l1 x l2 (keep : bool) : inv lossy s -> services s !! i = Some svc -> requests s = l1 ++ x :: l2 ->
  inv lossy (mkSystem (clients s) (<[i := Svc_Enqueue svc x]> (services s)) (if keep then requests s else l1 ++ l2) (responses s) (promises s) (calls s) (asked s)).
Proof.
  intros Hi Hsv Hx. apply (svc_inv_flight lossy s); try done; unfold in_request; simpl.
  - intros y. rewrite (in_tasks _ _ _ _ _ Hsv), (in_tasks_same _ _ _ _ Hsv). simpl. rewrite elem_of_app, list_elem_of_singleton.
    assert (y ∈ (if keep then requests s else l1 ++ l2) -> y ∈ requests s) by (destruct keep; [done|rewrite Hx; apply in_split]).
    assert (y = x -> y ∈ requests s) by (intros ->; rewrite Hx; set_solver). tauto.
  - tauto.
  - intros _ y. rewrite (in_tasks _ _ _ _ _ Hsv), (in_tasks_same _ _ _ _ Hsv). simpl. rewrite elem_of_app, list_elem_of_singleton. intros Hy. left.
    destruct Hy as [Hy|Hy]; [|tauto]. destruct keep; [tauto|]. rewrite Hx, elem_of_app, elem_of_cons in Hy. rewrite elem_of_app. tauto.
Qed.

Lemma svc_inv_process lossy s i svc x ts r : inv lossy s -> services s !! i = Some svc -> tasks_ svc = x :: ts -> HandleRequest i svc x = Some r ->
  inv lossy (mkSystem (clients s) (<[i := mkService (svc_init svc) (response_writer svc) ts]> (services s)) (requests s) (responses s ++ [r]) (promises s) (calls s) (asked s)).
Proof.
  intros Hi Hsv Ht Hh. unfold HandleRequest in Hh. destruct (svc_init svc); [|done]. injection Hh as <-.
  apply (svc_inv_flight lossy s); try done; unfold in_request; simpl.
  - intros y. rewrite (in_tasks _ _ _ _ _ Hsv), (in_tasks_same _ _ _ _ Hsv), Ht, elem_of_cons. simpl. tauto.
  - intros y. rewrite elem_of_app, list_elem_of_singleton. intros [Hy|Hy]; [by left|]. right. exists i, x. rewrite Hy. split; [|done].
    right. exists i, svc. rewrite Ht. split; [done|by left].
  - intros _ y. rewrite (in_tasks _ _ _ _ _ Hsv), (in_tasks_same _ _ _ _ Hsv), Ht, elem_of_cons. simpl.
    intros [Hy|[[Hy|Hy]|Hy]]; [tauto| |tauto|tauto]. right. eexists. split; [apply elem_of_app; right; by apply list_elem_of_singleton|]. by rewrite Hy.
  - intros _ y Hy. apply elem_of_app. by left.
Qed.

Lemma svc_inv_call lossy s c cl cb req x cl' : inv lossy s ->
  clients s !! c = Some cl -> sequence_number_ cl + 1 < 2 ^ 64 -> AsyncSendRequest cl (length (promises s)) cb req = (Some x, cl') ->
  inv lossy (mkSystem (<[c := cl']> (clients s)) (services s) (requests s ++ [x]) (responses s) (promises s ++ [None]) (calls s)
    (<[(c, sequence_number_ cl') := (req, length (promises s))]> (asked s))).
Proof.
  intros [H1 H2 H3 H4 H5 H6 H7 H8 H9 H10] Hc Hb. unfold AsyncSendRequest. destruct (H9 _ _ Hc) as [Hin Hsq]. rewrite Hin.
  rewrite u64_small by (unfold is_u64; lia). set (n := sequence_number_ cl + 1). intros [= <- <-]. simpl.
  set (cl' := mkClient _ _ _ _). assert (Hlt : (c < length (clients s))%nat) by (by eapply lookup_lt_Some).
  assert (Hw : writer_id_ cl' = writer_id_ cl) by done.
  assert (HO : forall info d, owner (<[c := cl']> (clients s)) info d <-> owner (clients s) info d) by (intros; by eapply owner_insert).
  assert (Hfresh : forall m, sequence_number_ cl < m -> asked s !! (c, m) = None).
  { intros m Hm. destruct (asked s !! (c, m)) as [[rq p]|] eqn:E; [|done]. destruct (H2 _ _ _ _ E) as ((cl1 & Hc1 & Hm1) & _). rewrite Hc in Hc1. injection Hc1 as <-. lia. }
  assert (HK : forall k v, asked s !! k = Some v -> <[(c, n) := (req, length (promises s))]> (asked s) !! k = Some v).
  { intros k v Hk. rewrite lookup_insert_ne; [done|]. intros <-. rewrite Hfresh in Hk; [done|unfold n; lia]. }
  assert (HP : forall p v, promises s !! p = Some v -> (promises s ++ [None]) !! p = Some v) by (intros; by apply lookup_app_l_Some).
  constructor; simpl.
  - by rewrite (ids_insert _ _ cl).
  - intros d m rq p. rewrite length_app. simpl. destruct (decide ((d, m) = (c, n))) as [E|Hne].
    + injection E as -> ->. rewrite lookup_insert_eq. intros [= <- <-]. split; [|lia]. exists cl'. rewrite list_lookup_insert_eq by done. split; [done|]. simpl. unfold n. lia.
    + rewrite lookup_insert_ne by done. intros Hk. destruct (H2 _ _ _ _ Hk) as ((cl1 & Hd & Hm) & Hp). split; [|lia].
      destruct (decide (d = c)) as [->|]; [|exists cl1; by rewrite list_lookup_insert_ne]. exists cl'. rewrite list_lookup_insert_eq by done. split; [done|].
      rewrite Hc in Hd. injection Hd as <-. simpl. unfold n. lia.
  - intros k k' rq rq' p. destruct (decide (k = (c, n))) as [->|Hne], (decide (k' = (c, n))) as [->|Hne']; try done;
      rewrite ?lookup_insert_eq, ?lookup_insert_ne by done; [| |apply H3].
    + intros [= <- <-] Hk. destruct k'. destruct (H2 _ _ _ _ Hk) as [_ Hp]. lia.
    + intros Hk [= <- <-]. destruct k. destruct (H2 _ _ _ _ Hk) as [_ Hp]. lia.
  - intros y Hy. assert (in_request s y \/ y = (req, mkInfo (writer_id_ cl) n (writer_id_ cl))) as [Hy'| ->].
    { unfold in_request. rewrite elem_of_app, list_elem_of_singleton in Hy. tauto. }
    + destruct (H4 y Hy') as (d & p & Ho & Hk). exists d, p. rewrite HO. split; [done|by apply HK].
    + exists c, (length (promises s)). rewrite HO. simpl. rewrite lookup_insert_eq. split; [|done]. by exists cl.
  - intros r Hr. destruct (H5 r Hr) as (d & p & i & rq & Ho & Hk & E). exists d, p, i, rq. rewrite HO. split_and!; [done|by apply HK|done].
  - intros d cl1 m p b. destruct (decide (d = c)) as [->|Hne].
    + rewrite list_lookup_insert_eq by done. intros [= <-]. simpl. destruct (decide (m = n)) as [->|Hm].
      * rewrite lookup_insert_eq. intros [= <- <-]. rewrite lookup_insert_eq. split; [by eexists|]. by rewrite lookup_app_r, Nat.sub_diag by lia.
      * rewrite lookup_insert_ne by done. intros Hp. destruct (H6 _ _ _ _ _ Hc Hp) as [[rq Hk] Hv]. split; [exists rq; by apply HK|by apply HP].
    + rewrite list_lookup_insert_ne by done. intros Hd Hp. destruct (H6 _ _ _ _ _ Hd Hp) as [[rq Hk] Hv]. split; [exists rq; by apply HK|by apply HP].
  - intros d m rq p. destruct (decide ((d, m) = (c, n))) as [E|Hne].
    + injection E as -> ->. rewrite lookup_insert_eq. intros [= <- <-]. left. exists cl', cb. rewrite list_lookup_insert_eq by done. split; [done|]. simpl. by rewrite lookup_insert_eq.
    + rewrite lookup_insert_ne by done. intros Hk. destruct (H7 _ _ _ _ Hk) as [(cl1 & b & Hd & Hp)|(i & Hp)]; [left|right; exists i; by apply HP].
      destruct (decide (d = c)) as [->|]; [|exists cl1, b; by rewrite list_lookup_insert_ne]. exists cl', b. rewrite list_lookup_insert_eq by done. split; [done|].
      rewrite Hc in Hd. injection Hd as <-. simpl. rewrite lookup_insert_ne; [done|]. intros <-. by destruct Hne.
  - destruct H8 as [Hnd Hcl]. split; [done|]. intros p. rewrite Hcl. split; intros [r Hp]; [exists r; by apply HP|].
    exists r. apply lookup_app_Some in Hp as [?|[? Hp]]; [done|]. apply list_lookup_singleton_Some in Hp as [_ ?]. done.
  - intros d cl1. destruct (decide (d = c)) as [->|]; [rewrite list_lookup_insert_eq by done; intros [= <-]; simpl; unfold n; split; [done|lia]|].
    rewrite list_lookup_insert_ne by done. apply H9.
  - intros Hlo d cl1 m e. unfold carried. setoid_rewrite HO. simpl. setoid_rewrite elem_of_app. setoid_rewrite list_elem_of_singleton.
    assert (forall d cl1 e, clients s !! d = Some cl1 -> pending_requests_ cl1 !! m = Some e -> carried s d m) as HC by (intros; by eapply H10).
    destruct (decide (d = c)) as [->|].
    + rewrite list_lookup_insert_eq by done. intros [= <-]. simpl. destruct (decide (m = n)) as [->|].
      * intros _. left. eexists. split; [left; right; reflexivity|]. simpl. split; [by exists cl|done].
      * rewrite lookup_insert_ne by done. intros Hp. destruct (HC _ _ _ Hc Hp) as [(y & Hy & Hrest)|Hr]; [left; exists y; tauto|by right].
    + rewrite list_lookup_insert_ne by done. intros Hd Hp. destruct (HC _ _ _ Hd Hp) as [(y & Hy & Hrest)|Hr]; [left; exists y; tauto|by right].
Qed.

(** A response that no client takes. *)
Lemma svc_inv_unclaimed lossy s l1 r l2 : inv lossy s -> responses s = l1 ++ r :: l2 ->
  (lossy = false -> forall c cl, clients s !! c = Some cl -> (HandleResponse cl r.2).1 = None) ->
  inv lossy (mkSystem (clients s) (services s) (requests s) (l1 ++ l2) (promises s) (calls s) (asked s)).
Proof.
  intros [H1 H2 H3 H4 H5 H6 H7 H8 H9 H10] Hr Hno. constructor; simpl; try done.
  - intros y Hy. apply H5. rewrite Hr. by apply in_split.
  - intros Hlo c cl n e Hc Hn. destruct (H10 Hlo c cl n e Hc Hn) as [Hq|(y & Hy & Ho & En)]; [by left|]. right. exists y. split; [|done].
    rewrite Hr in Hy. simpl. rewrite elem_of_app, elem_of_cons in Hy. rewrite elem_of_app. destruct Hy as [?|[->|?]]; [tauto| |tauto].
    exfalso. specialize (Hno Hlo c cl Hc). unfold HandleResponse, Identity_eqb in Hno. destruct Ho as (cl1 & Hc1 & Eo). rewrite Hc in Hc1. injection Hc1 as <-.
    rewrite bool_decide_true in Hno by done. simpl in Hno. rewrite En, Hn in Hno. done.
Qed.

(** The client that takes the response. *)
Lemma svc_inv_taken lossy s c cl cl' r p cb : inv lossy s -> r ∈ responses s ->
  clients s !! c = Some cl -> HandleResponse cl r.2 = (Some (p, cb), cl') ->
  inv lossy (mkSystem (<[c := cl']> (clients s)) (services s) (requests s) (responses s) (fulfil (promises s) p r.1) (calls s ++ [(cb, p)]) (asked s)).
Proof.
  intros [H1 H2 H3 H4 H5 H6 H7 H8 H9 H10] Hr Hc Hh. apply HandleResponse_Some in Hh as (Eo & Hp & Ei & Ew & Es & Ep). set (n := seq_num_ r.2) in *.
  assert (Hlt : (c < length (clients s))%nat) by (by eapply lookup_lt_Some). destruct (H6 _ _ _ _ _ Hc Hp) as [[req Hk] Hv].
  assert (Hpl : (p < length (promises s))%nat) by (by eapply lookup_lt_Some).
  assert (HO : forall info d, owner (<[c := cl']> (clients s)) info d <-> owner (clients s) info d) by (intros; by eapply owner_insert).
  assert (exists i, r.1 = service_callback i req) as [i Er].
  { destruct (H5 r Hr) as (d & p' & i & rq & Ho & Hk' & E). assert (d = c) as -> by (eapply owner_unique; [done|done|by exists cl]). fold n in Hk'. rewrite Hk in Hk'. exists i. congruence. }
  assert (HL : forall d x m e, <[c := cl']> (clients s) !! d = Some x -> pending_requests_ x !! m = Some e ->
    (d, m) <> (c, n) /\ exists x0, clients s !! d = Some x0 /\ pending_requests_ x0 !! m = Some e).
  { intros d x m e Hd Hm. destruct (decide (d = c)) as [->|Hne]; [|rewrite list_lookup_insert_ne in Hd by done; split; [congruence|eauto]].
    rewrite list_lookup_insert_eq in Hd by done. injection Hd as <-. rewrite Ep in Hm. apply lookup_delete_Some in Hm as [Hm1 Hm2]. split; [congruence|eauto]. }
  constructor; simpl.
  - by rewrite (ids_insert _ _ cl).
  - intros d m rq q Hq. destruct (H2 _ _ _ _ Hq) as ((x & Hd & Hm) & Hql). unfold fulfil. rewrite length_insert. split; [|done].
    destruct (decide (d = c)) as [->|]; [exists cl'; rewrite list_lookup_insert_eq by done; split; [done|]|exists x; by rewrite list_lookup_insert_ne].
    rewrite Es. rewrite Hc in Hd. by injection Hd as <-.
  - done.
  - intros y Hy. destruct (H4 y Hy) as (d & q & Ho & Hq). exists d, q. by rewrite HO.
  - intros y Hy. destruct (H5 y Hy) as (d & q & j & rq & Ho & Hq). exists d, q, j, rq. by rewrite HO.
  - intros d x m q b Hd Hm. destruct (HL _ _ _ _ Hd Hm) as (Hne & x0 & Hd0 & Hm0). destruct (H6 _ _ _ _ _ Hd0 Hm0) as [[rq Hq] Hqv]. split; [eauto|].
    unfold fulfil. rewrite list_lookup_insert_ne; [done|]. intros <-. apply Hne. by eapply H3.
  - intros d m rq q Hq. unfold fulfil. destruct (decide ((d, m) = (c, n))) as [E|Hne].
    + injection E as -> ->. rewrite Hk in Hq. injection Hq as <- <-. right. exists i. rewrite list_lookup_insert_eq by done. by rewrite Er.
    + assert (q <> p) as Hqp by (intros ->; apply Hne; by eapply H3). rewrite (list_lookup_insert_ne (promises s)) by congruence.
      destruct (H7 _ _ _ _ Hq) as [(x & b & Hd & Hm)|?]; [left|by right]. destruct (decide (d = c)) as [->|]; [|exists x, b; by rewrite list_lookup_insert_ne].
      exists cl', b. rewrite list_lookup_insert_eq by done. split; [done|]. rewrite Ep. rewrite Hc in Hd. injection Hd as <-. rewrite lookup_delete_ne; [done|congruence].
  - destruct H8 as [Hnd Hcl]. rewrite fmap_app. simpl. split.
    + apply NoDup_app. split_and!; [done| |apply NoDup_singleton]. intros q Hq ->%list_elem_of_singleton. apply Hcl in Hq as [v Hq]. congruence.
    + intros q. rewrite elem_of_app, list_elem_of_singleton, Hcl. unfold fulfil. destruct (decide (q = p)) as [->|Hne].
      * rewrite list_lookup_insert_eq by done. split; [eauto|by right].
      * rewrite list_lookup_insert_ne by done. split; [intros [?|?]; [done|by destruct Hne]|by left].
  - intros d x Hd. destruct (decide (d = c)) as [->|]; [|rewrite list_lookup_insert_ne in Hd by done; by apply (H9 d)].
    rewrite list_lookup_insert_eq in Hd by done. injection Hd as <-. rewrite Ei, Es. by apply (H9 c).
  - intros Hlo d x m e Hd Hm. destruct (HL _ _ _ _ Hd Hm) as (_ & x0 & Hd0 & Hm0). pose proof (H10 Hlo _ _ _ _ Hd0 Hm0) as Hca.
    unfold carried in *. simpl. setoid_rewrite HO. done.
Qed.

Lemma svc_inv_step lossy s s' : inv lossy s -> step lossy s s' -> inv lossy s'.
Proof.
  intros Hi Hs. destruct Hs as [c cl cb req x cl' Hc Hb Ha|i svc l1 x l2 keep Hsv Hx|i svc x ts r Hsv Ht Hh|l1 r l2 keep cls ps cs Hr Hrs|l1 x l2 Hl Hx|l1 r l2 Hl Hr|i svc Hl Hsv].
  - by eapply svc_inv_call.
  - by apply svc_inv_receive.
  - by eapply svc_inv_process.
  - pose proof (respond_spec (clients s) r (promises s) (calls s) (i_ids _ _ Hi)) as [[E Hno]|(c & cl & cl' & p & cb & Hc & Hh & E)]; rewrite E in Hrs; injection Hrs as <- <- <-.
    + destruct keep; [by destruct s|]. apply (svc_inv_unclaimed lossy s l1 r l2); auto.
    + assert (r ∈ responses s) as Hin by (rewrite Hr; set_solver). pose proof (svc_inv_taken _ _ _ _ _ _ _ _ Hi Hin Hc Hh) as Hi'. destruct keep; [done|].
      apply (svc_inv_unclaimed lossy _ l1 r l2) in Hi'; [done|done|]. intros _ d x Hd. simpl in Hd. apply HandleResponse_Some in Hh as (Eo & Hp & _ & Ew & _ & Ep).
      destruct (HandleResponse x r.2) as [[[q b]|] x'] eqn:Ex; [|done]. apply HandleResponse_Some in Ex as (Eo' & Hq & _). exfalso.
      assert (d = c) as ->.
      { eapply (owner_unique _ r.2); [exact (i_ids _ _ Hi')| |]; simpl; [by exists x|]. exists cl'. rewrite list_lookup_insert_eq by (by eapply lookup_lt_Some). by rewrite Ew. }
      rewrite list_lookup_insert_eq in Hd by (by eapply lookup_lt_Some). injection Hd as <-. by rewrite Ep, lookup_delete_eq in Hq.
  - subst lossy. apply (svc_inv_flight true s); try done; unfold in_request; simpl; [|tauto]. intros y. rewrite Hx. intros [Hy|Hy]; [left; by apply in_split|tauto].
  - by apply (svc_inv_unclaimed lossy s l1 r l2); [..|subst].
  - subst lossy. apply (svc_inv_flight true s); try done; unfold in_request; simpl; [|tauto]. intros y. rewrite (in_tasks _ _ _ _ _ Hsv), (in_tasks_same _ _ _ _ Hsv). simpl.
    rewrite elem_of_nil. tauto.
Qed.

Lemma svc_inv_new lossy ws svs : NoDup (data_ <$> ws) -> inv lossy (NewSystem ws svs).
Proof.
  intros Hn. assert (forall c cl, (NewClient <$> ws) !! c = Some cl -> exists w, cl = NewClient w) as HC.
  { intros c cl. rewrite list_lookup_fmap_Some. naive_solver. }
  constructor; simpl.
  - by rewrite <-list_fmap_compose.
  - intros c n req p. by rewrite lookup_empty.
  - intros k k' req req' p. by rewrite lookup_empty.
  - intros x [Hx|(i & svc & Hi & Hx)]; [set_solver|]. apply list_lookup_fmap_Some in Hi as (w & -> & _). set_solver.
  - intros r Hr. set_solver.
  - intros c cl n p cb Hc. apply HC in Hc as [w ->]. simpl. by rewrite lookup_empty.
  - intros c n req p. by rewrite lookup_empty.
  - split; [constructor|]. intros p. split; [set_solver|]. by intros [r Hp].
  - intros c cl Hc. apply HC in Hc as [w ->]. simpl. split; [done|lia].
  - intros _ c cl n e Hc. apply HC in Hc as [w ->]. simpl. by rewrite lookup_empty.
Qed.

(** C14. For any number of clients and services, and channels that deliver requests and
    responses in any order, more than once, or (when [lossy]) not at all: a future
    is empty while its request is pending, or holds the answer of some service to
    the very request it was returned for, and then the request's callback was
    called, exactly once.  When nothing is lost and nothing is in flight or queued,
    no request is pending. *)
Theorem responses_match_requests lossy ws svs s :
  NoDup (data_ <$> ws) -> rtc (step lossy) (NewSystem ws svs) s ->
  (forall c n req p, asked s !! (c, n) = Some (req, p) ->
    (promises s !! p = Some None /\ p ∉ (calls s).*2 /\ exists cl cb, clients s !! c = Some cl /\ pending_requests_ cl !! n = Some (p, cb)) \/
    (p ∈ (calls s).*2 /\ exists i, promises s !! p = Some (Some (service_callback i req)))) /\
  NoDup (calls s).*2 /\
  (lossy = false -> requests s = [] -> responses s = [] -> (forall i svc, services s !! i = Some svc -> tasks_ svc = []) ->
    forall c cl, clients s !! c = Some cl -> pending_requests_ cl = ∅).
Proof.
  intros Hn Hs. assert (inv lossy s) as Hi.
  { revert Hs. apply (rtc_ind_r (fun s => inv lossy s)); [by apply svc_inv_new|]. intros; by eapply svc_inv_step. }
  destruct (i_calls _ _ Hi) as [Hnd Hcl]. split_and!; [|done|].
  - intros c n req p Hk. destruct (i_done _ _ Hi _ _ _ _ Hk) as [(cl & cb & Hc & Hp)|(i & Hp)].
    + left. destruct (i_pend _ _ Hi _ _ _ _ _ Hc Hp) as [_ Hv]. split_and!; [done| |eauto]. rewrite Hcl. intros [r Hr]. congruence.
    + right. split; [apply Hcl|]; eauto.
  - intros Hlo Hr Hp Ht c cl Hc. apply map_empty. intros n. destruct (pending_requests_ cl !! n) as [e|] eqn:E; [|done].
    destruct (i_live _ _ Hi Hlo _ _ _ _ Hc E) as [(x & [Hx|(i & svc & Hsv & Hx)] & _)|(r & Hx & _)].
    + rewrite Hr in Hx. by apply elem_of_nil in Hx.
    + rewrite (Ht _ _ Hsv) in Hx. by apply elem_of_nil in Hx.
    + rewrite Hp in Hx. by apply elem_of_nil in Hx.
Qed.

(** A request whose answer never comes stays in the table: SendRequest returns after
    its time-out and leaves the entry, so a client of a lost service grows. *)
Theorem unanswered_requests_accumulate cl rqs : cl_init cl = true ->
  0 <= sequence_number_ cl -> sequence_number_ cl + zlen rqs < 2 ^ 64 -> (forall n, sequence_number_ cl < n -> pending_requests_ cl !! n = None) ->
  size (pending_requests_ (foldl (fun cl rq => snd (AsyncSendRequest cl 0 0 rq)) cl rqs)) = (size (pending_requests_ cl) + length rqs)%nat.
Proof.
  revert cl. induction rqs as [|rq rqs IH]; intros cl Hin Hs Hb Hf; simpl; [lia|]. unfold zlen in *. simpl length in *.
  unfold AsyncSendRequest at 2. rewrite Hin. rewrite u64_small by (unfold is_u64; lia). simpl. rewrite IH; simpl; [|done|lia|lia|].
  - rewrite map_size_insert_None by (apply Hf; lia). lia.
  - intros n Hlt. rewrite lookup_insert_ne by lia. apply Hf. lia.
Qed.
End service.

(** ** ClientBase::WaitForServiceNanoseconds

    [has k] is the answer of HasService at the [k]th poll.  Each round takes 5 ms
    off the time-out, so [fuel] rounds are enough when 5 ms times [fuel] reaches the
    time-out. *)
Definition step_duration : Z := 5 * 1000 * 1000.
Fixpoint wait_loop (fuel : nat) (has : nat -> bool) (k : nat) (time_out : Z) (has_service : bool) : bool :=
  match fuel with
  | O => has_service
  | S fuel =>
      if 0 <? time_out then
        if has k then true else wait_loop fuel has (S k) (time_out - step_duration) false
      else has_service
  end.
Definition WaitForServiceNanoseconds (has : nat -> bool) (time_out : Z) : bool :=
  wait_loop (Z.to_nat (time_out / step_duration) + 1) has 0 time_out false.

Lemma wait_loop_spec fuel has k t : (t <= Z.of_nat fuel * step_duration)%Z ->
  wait_loop fuel has k t false = true <-> exists j, (Z.of_nat j * step_duration < t)%Z /\ has (k + j)%nat = true.
Proof.
  revert k t. induction fuel as [|fuel IH]; intros k t Ht; simpl; unfold step_duration in *.
  - split; [done|]. intros (j & Hj & _). lia.
  - destruct (Z.ltb_spec 0 t) as [Hp|Hn].
    + destruct (has k) eqn:E; [split; [|done]; intros _; exists 0%nat; rewrite Nat.add_0_r; split; [lia|done]|]. rewrite IH by lia. split.
      * intros (j & Hj & Hh). exists (S j). replace (k + S j)%nat with (S k + j)%nat by lia. split; [lia|done].
      * intros ([|j] & Hj & Hh); [rewrite Nat.add_0_r in Hh; congruence|]. exists j. replace (S k + j)%nat with (k + S j)%nat by lia. split; [lia|done].
    + split; [done|]. intros (j & Hj & _). lia.
Qed.

(** WaitForService reports the service exactly when a poll within the time-out finds
    it; it ends after one poll per 5 ms. *)
Theorem wait_for_service_polls has t :
  WaitForServiceNanoseconds has t = true <-> exists j, (Z.of_nat j * step_duration < t)%Z /\ has j = true.
Proof.
  apply (wait_loop_spec _ has 0). pose proof (Z.mul_succ_div_gt t step_duration ltac:(done)). unfold step_duration in *. lia.
Qed.

(** The default time-out of -1 ms never polls: the answer is false even if the
    service is there. *)
Theorem default_wait_never_looks has : WaitForServiceNanoseconds has (-1 * 1000 * 1000) = false.
Proof. reflexivity. Qed.

(** ** The thread of a service: Enqueue, Process and destroy

    One thread takes the requests; destroy and the destructor clear the flag, take
    the lock to empty the queue, and notify.  As in [ThreadPool] a section under
    the lock is one step, and the thread between its test and the wait has the
    lock. *)
Section thread.
Context {T : Type}.

Inductive tpc := Test | Missed | Asleep | Run (x : T) | Exit.
Inductive dpc := Alive | Flagged | Cleared | Notified.
Record Thread := mkThread { tq : list T; inited_ : bool; worker : tpc; destroyer : dpc; taken : list T; put : list T }.
Definition NewThread : Thread := mkThread [] true Test Alive [] [].

Definition unlocked (t : Thread) : Prop := worker t <> Missed.
Definition set_worker (t : Thread) (w : tpc) : Thread := mkThread (tq t) (inited_ t) w (destroyer t) (taken t) (put t).
Definition wake (w : tpc) : tpc := match w with Asleep => Test | _ => w end.

Inductive tstep (t : Thread) : Thread -> Prop :=
  | t_enqueue x : unlocked t -> tstep t (mkThread (tq t ++ [x]) (inited_ t) (wake (worker t)) (destroyer t) (taken t) (put t ++ [x]))
  | t_exit : worker t = Test -> inited_ t = false -> tstep t (set_worker t Exit)
  | t_take x q : worker t = Test -> inited_ t = true -> tq t = x :: q ->
      tstep t (mkThread q (inited_ t) (Run x) (destroyer t) (taken t ++ [x]) (put t))
  | t_miss : worker t = Test -> inited_ t = true -> tq t = [] -> tstep t (set_worker t Missed)
  | t_sleep : worker t = Missed -> tstep t (set_worker t Asleep)
  | t_done x : worker t = Run x -> tstep t (set_worker t Test)
  | t_flag : destroyer t = Alive -> tstep t (mkThread (tq t) false (worker t) Flagged (taken t) (put t))
  | t_clear : destroyer t = Flagged -> unlocked t -> tstep t (mkThread [] (inited_ t) (worker t) Cleared (taken t) (put t))
  | t_notify : destroyer t = Cleared -> tstep t (mkThread (tq t) (inited_ t) (wake (worker t)) Notified (taken t) (put t)).

Record tinv (t : Thread) : Prop := {
  ti_flag : inited_ t = true <-> destroyer t = Alive;
  ti_fifo : (destroyer t = Alive \/ destroyer t = Flagged) -> put t = taken t ++ tq t;
  ti_prefix : exists rest, put t = taken t ++ rest;
  ti_awake : worker t = Asleep \/ worker t = Missed -> tq t = [];
  ti_lock : destroyer t = Cleared \/ destroyer t = Notified -> worker t <> Missed;
  ti_woken : destroyer t = Notified -> worker t <> Asleep
}.

Lemma tinv_step t t' : tinv t -> tstep t t' -> tinv t'.
Proof.
  intros [H1 H2 H3 H4 H5 H6] Hs. destruct t as [q ini w d tk pt]; unfold unlocked in *; simpl in *. destruct H3 as [rest H3].
  assert (Hwk : wake w <> Asleep /\ (wake w = Missed -> w = Missed)) by (by destruct w).
  destruct Hs as [x Hu|Hw Hi|x q' Hw Hi Hq|Hw Hi Hq|Hw|x Hw|Hd|Hd Hu|Hd]; simpl in *; unfold unlocked in *; simpl in *; subst;
    constructor; simpl; try done; try (eauto; fail); try (intuition congruence).
  - intros Hd. rewrite (H2 Hd). by rewrite app_assoc.
  - exists (rest ++ [x]). by rewrite app_assoc.
  - intros Hd. rewrite (H2 Hd). by rewrite <-app_assoc.
  - exists q'. rewrite H2 by (left; by apply H1). by rewrite <-app_assoc.
Qed.

(** In every execution the thread takes requests in the order they came; it does not
    sleep while a request waits; and once destroy has notified it, it neither sleeps
    nor is about to, so that its next test ends it and the join returns. *)
Theorem service_thread_is_woken t :
  rtc tstep NewThread t ->
  (exists rest, put t = taken t ++ rest) /\
  (tq t <> [] -> worker t <> Asleep) /\
  (destroyer t = Notified -> worker t = Exit \/ (exists x, worker t = Run x) \/ (worker t = Test /\ forall t', tstep t t' -> worker t' = Exit \/ worker t' = Test)).
Proof.
  intros Hs. assert (tinv t) as [H1 H2 H3 H4 H5 H6].
  { revert Hs. apply (rtc_ind_r (fun t => tinv t)); [|intros; by eapply tinv_step]. constructor; simpl; try done; try (intuition congruence). by exists []. }
  split_and!; [done|tauto|]. intros Hd. destruct (worker t) as [| | |x|] eqn:Ew.
  - right. right. split; [done|]. intros t' Ht. assert (inited_ t = false) as Hi by (destruct (inited_ t); [exfalso; destruct H1 as [H1 _]; by rewrite H1 in Hd|done]).
    destruct Ht; simpl; try congruence; rewrite ?Ew; auto.
  - exfalso. apply H5; [by right|done].
  - exfalso. by apply H6.
  - right. left. eauto.
  - by left.
Qed.
End thread.

Lemma responses_match_requests_witness :
  let id k := mkIdentity [k] k "" in
  exists s, rtc (step (fun _ x => x + 1) false) (NewSystem (Req := Z) (Resp := Z) [id 1; id 2] [id 9]) s /\
    promises s = [Some 42] /\ calls s = [(5%nat, 0%nat)] /\ forall c cl, clients s !! c = Some cl -> pending_requests_ cl = ∅.
Proof.
  intros id. set (f := fun (_ : nat) (x : Z) => x + 1).
  assert (exists s, rtc (step f false) (NewSystem [id 1; id 2] [id 9]) s /\ promises s = [Some 42] /\ calls s = [(5%nat, 0%nat)] /\
    requests s = [] /\ responses s = [] /\ services s = [NewService (id 9)]) as (s & Hs & Hp & Hc & Hr & Hq & Hv).
  { eexists. split.
    - eapply rtc_l; [eapply (st_call f false _ 0 (NewClient (id 1)) 5 41); reflexivity|].
      eapply rtc_l; [eapply (st_receive f false _ 0 (NewService (id 9)) [] _ [] false); reflexivity|].
      eapply rtc_l; [eapply (st_process f false _ 0); reflexivity|].
      eapply rtc_l; [eapply (st_respond f false _ [] _ [] false); reflexivity|]. apply rtc_refl.
    - done. }
  exists s. split_and!; [done..|]. apply (responses_match_requests f false [id 1; id 2] [id 9] s); try done.
  - repeat constructor; simpl; set_solver.
  - intros i svc Hi. rewrite Hv in Hi. apply list_lookup_singleton_Some in Hi as [_ <-]. done.
Defined.
