(* ===== verification/ClassLoader.v ===== *)
(** ClassLoader.v -- class loaders and their registry

    - src/src/apollo/cyber/class_loader/class_loader.{h,cc}
    - src/src/apollo/cyber/class_loader/class_loader_manager.{h,cc}
    - src/src/apollo/cyber/class_loader/utility/class_factory.{h,cc}
    - src/src/apollo/cyber/class_loader/utility/class_loader_utility.{h,cc}

    A class loader opens a shared library, whose static objects register factories
    in a table of the process; loaders of the same library share its factories
    and own them together.  The table, the libraries that are open, the loaders and
    the objects that were made and not yet deleted are one state.  A loader
    is a positive number, 0 is nullptr; the name and the loader that are current while
    a library is loaded are arguments of [RegisterClass].  Which classes a library
    registers, and whether it can be opened at all, is the parameter [lib_classes].
    What dereferences nullptr or a deleted loader has no result. *)

From stdpp Require Import sorting.
From S2P Require Import Prelude.
Local Open Scope Z_scope.

(** ** Class factories *)

Record Factory := mkFactory {
  relative_class_loaders_ : list nat;
  relative_library_path_ : string;
  base_class_name_ : string;
  class_name_ : string
}.
Definition set_owners (f : Factory) (o : list nat) : Factory := mkFactory o (relative_library_path_ f) (base_class_name_ f) (class_name_ f).
Definition IsOwnedBy (f : Factory) (l : nat) : bool := bool_decide (l ∈ relative_class_loaders_ f).
Definition AddOwnedClassLoader (f : Factory) (l : nat) : Factory :=
  if IsOwnedBy f l then f else set_owners f (relative_class_loaders_ f ++ [l]).
Fixpoint erase_first (l : nat) (o : list nat) : list nat :=
  match o with [] => [] | x :: o => if decide (x = l) then o else x :: erase_first l o end.
Definition RemoveOwnedClassLoader (f : Factory) (l : nat) : Factory := set_owners f (erase_first l (relative_class_loaders_ f)).
Definition IsOwnedByAnybody (f : Factory) : bool := negb (bool_decide (relative_class_loaders_ f = [])).

(** ** The state *)

Record Loader := mkLoader { library_path_ : string; loadlib_ref_count_ : Z; classobj_ref_count_ : Z }.
(** An object: the loader it was made by and the factory. *)
Record Obj := mkObj { o_loader : nat; o_base : string; o_class : string; o_lib : string }.
#[export] Instance Obj_eq_dec : EqDecision Obj.
Proof. solve_decision. Defined.
Record World := mkWorld {
  factories : gmap (string * string) Factory;   (* by base class, then class *)
  opened : list string;                         (* LibpathPocolibVector *)
  loaders : gmap nat Loader;
  objs : list Obj;
  next_loader : nat
}.
Definition NewWorld : World := mkWorld ∅ [] ∅ [] 1.
Definition set_registry (w : World) (f : gmap (string * string) Factory) (o : list string) : World :=
  mkWorld f o (loaders w) (objs w) (next_loader w).
Definition set_loader (w : World) (l : nat) (x : Loader) : World :=
  mkWorld (factories w) (opened w) (<[l := x]> (loaders w)) (objs w) (next_loader w).

Section class_loader.
Variable lib_classes : string -> option (list (string * string)).

(** ** The registry *)

Definition RegisterClass (lib : string) (l : nat) (fs : gmap (string * string) Factory) (key : string * string) : gmap (string * string) Factory :=
  <[key := mkFactory [l] lib (fst key) (snd key)]> fs.
Definition of_library (lib : string) (f : Factory) : bool := bool_decide (relative_library_path_ f = lib).
Definition GetAllClassFactoryObjectsOfLibrary (w : World) (lib : string) : list Factory :=
  filter (fun f => relative_library_path_ f = lib) ((map_to_list (factories w)).*2).

Definition destroy_one (lib : string) (l : nat) (f : Factory) : option Factory :=
  if of_library lib f && IsOwnedBy f l then
    let f := RemoveOwnedClassLoader f l in if IsOwnedByAnybody f then Some f else None
  else Some f.
Definition DestroyClassFactoryObjectsOfLibrary (w : World) (lib : string) (l : nat) : World :=
  set_registry w (omap (destroy_one lib l) (factories w)) (opened w).

Definition IsLibraryLoadedByAnybody (w : World) (lib : string) : bool := bool_decide (lib ∈ opened w).
Definition IsLibraryLoaded (w : World) (lib : string) (l : nat) : bool :=
  let anyone := IsLibraryLoadedByAnybody w lib in
  let fs := GetAllClassFactoryObjectsOfLibrary w lib in
  if anyone && bool_decide (length fs = 0%nat) then true
  else anyone && bool_decide (length (filter (fun f => IsOwnedBy f l = true) fs) <= length fs)%nat.

Definition utility_LoadLibrary (w : World) (lib : string) (l : nat) : bool * World :=
  if IsLibraryLoadedByAnybody w lib then
    (true, set_registry w ((fun f => if of_library lib f then AddOwnedClassLoader f l else f) <$> factories w) (opened w))
  else
    match lib_classes lib with
    | None => (false, w)
    | Some cs => (true, set_registry w (foldl (RegisterClass lib l) (factories w) cs) (opened w ++ [lib]))
    end.

Fixpoint erase_lib (lib : string) (o : list string) : list string :=
  match o with [] => [] | x :: o => if decide (x = lib) then o else x :: erase_lib lib o end.
Definition utility_UnloadLibrary (w : World) (lib : string) (l : nat) : World :=
  if negb (IsLibraryLoadedByAnybody w lib) then w
  else
    let w := DestroyClassFactoryObjectsOfLibrary w lib l in
    if bool_decide (GetAllClassFactoryObjectsOfLibrary w lib = []) then set_registry w (factories w) (erase_lib lib (opened w)) else w.

(** ** ClassLoader *)

Definition LoadLibrary (w : World) (l : nat) : option (bool * World) :=
  match loaders w !! l with
  | None => None
  | Some x =>
      let w := set_loader w l (mkLoader (library_path_ x) (loadlib_ref_count_ x + 1) (classobj_ref_count_ x)) in
      Some (utility_LoadLibrary w (library_path_ x) l)
  end.
(** new ClassLoader(library_path) *)
Definition NewLoader (w : World) (lib : string) : option (nat * World) :=
  let l := next_loader w in
  let w := mkWorld (factories w) (opened w) (<[l := mkLoader lib 0 0]> (loaders w)) (objs w) (S l) in
  match LoadLibrary w l with None => None | Some (_, w) => Some (l, w) end.

Definition UnloadLibrary (w : World) (l : nat) : option (Z * World) :=
  match loaders w !! l with
  | None => None
  | Some x =>
      if 0 <? classobj_ref_count_ x then Some (loadlib_ref_count_ x, w)
      else
        let n := loadlib_ref_count_ x - 1 in
        let set n := set_loader w l (mkLoader (library_path_ x) n (classobj_ref_count_ x)) in
        if n =? 0 then Some (0, utility_UnloadLibrary (set 0) (library_path_ x) l)
        else if n <? 0 then Some (0, set 0) else Some (n, set n)
  end.
(** delete of a ClassLoader: its destructor unloads. *)
Definition DeleteLoader (w : World) (l : nat) : option World :=
  match UnloadLibrary w l with
  | None => None
  | Some (_, w) => Some (mkWorld (factories w) (opened w) (delete l (loaders w)) (objs w) (next_loader w))
  end.

Definition utility_CreateClassObj (w : World) (base cls : string) (l : nat) : option Obj :=
  match factories w !! (base, cls) with
  | Some f => if IsOwnedBy f l then Some (mkObj l base cls (relative_library_path_ f)) else None
  | None => None
  end.
(** GetValidClassNames, in the order of the map. *)
Definition string_le (a b : string) : Prop := String.leb a b = true.
#[local] Instance string_le_dec a b : Decision (string_le a b) := decide (String.leb a b = true).
Definition GetValidClassNames (w : World) (base : string) (l : nat) : list string :=
  merge_sort string_le (snd <$> (filter (fun kf => kf.1.1 = base /\ IsOwnedBy kf.2 l = true) (map_to_list (factories w))).*1).
Definition IsClassValid (w : World) (base cls : string) (l : nat) : bool := bool_decide (cls ∈ GetValidClassNames w base l).

(** CreateClassObj; [None] inside when it returns an empty pointer. *)
Definition CreateClassObj (w : World) (l : nat) (base cls : string) : option (option Obj * World) :=
  match loaders w !! l with
  | None => None
  | Some x =>
      let loaded := if IsLibraryLoaded w (library_path_ x) l then Some w else snd <$> LoadLibrary w l in
      match loaded with
      | None => None
      | Some w =>
          match utility_CreateClassObj w base cls l with
          | None => Some (None, w)
          | Some o =>
              match loaders w !! l with
              | None => None
              | Some x =>
                  let w := set_loader w l (mkLoader (library_path_ x) (loadlib_ref_count_ x) (classobj_ref_count_ x + 1)) in
                  Some (Some o, mkWorld (factories w) (opened w) (loaders w) (o :: objs w) (next_loader w))
              end
          end
      end
  end.
(** OnClassObjDeleter of the i-th object that lives; it uses the loader. *)
Definition DeleteObj (w : World) (i : nat) : option World :=
  match objs w !! i with
  | None => None
  | Some o =>
      match loaders w !! o_loader o with
      | None => None
      | Some x =>
          let w := set_loader w (o_loader o) (mkLoader (library_path_ x) (loadlib_ref_count_ x) (classobj_ref_count_ x - 1)) in
          Some (mkWorld (factories w) (opened w) (loaders w) (take i (objs w) ++ drop (S i) (objs w)) (next_loader w))
      end
  end.

(** ** What a process does with class loaders *)

Inductive op :=
  | OpNew (lib : string)
  | OpLoad (l : nat)
  | OpUnload (l : nat)
  | OpDelete (l : nat)
  | OpCreate (l : nat) (base cls : string)
  | OpDeleteObj (i : nat).
Definition exec (w : World) (o : op) : option World :=
  match o with
  | OpNew lib => snd <$> NewLoader w lib
  | OpLoad l => snd <$> LoadLibrary w l
  | OpUnload l => snd <$> UnloadLibrary w l
  | OpDelete l => DeleteLoader w l
  | OpCreate l base cls => snd <$> CreateClassObj w l base cls
  | OpDeleteObj i => DeleteObj w i
  end.
Inductive reachable : World -> Prop :=
  | reach_new : reachable NewWorld
  | reach_step w o w' : reachable w -> exec w o = Some w' -> reachable w'.

(** ** ClassLoaderManager *)

Record Manager := mkManager { libpath_loader_map_ : gmap string nat; world : World }.
Definition paths (m : Manager) : list string := merge_sort string_le (map_to_list (libpath_loader_map_ m)).*1.
(** operator[]: a path that is not there comes into the map with nullptr. *)
Definition GetClassLoaderByLibPath (m : Manager) (p : string) : nat * Manager :=
  match libpath_loader_map_ m !! p with
  | Some l => (l, m)
  | None => (0%nat, mkManager (<[p := 0%nat]> (libpath_loader_map_ m)) (world m))
  end.
Definition GetAllValidClassLoaders (m : Manager) : list nat := (fun p => default 0%nat (libpath_loader_map_ m !! p)) <$> paths m.
Definition GetAllValidLibPath (m : Manager) : list string :=
  filter (fun p => default 0%nat (libpath_loader_map_ m !! p) <> 0%nat) (paths m).
Definition IsLibraryValid (m : Manager) (p : string) : bool := bool_decide (p ∈ GetAllValidLibPath m).
Definition M_LoadLibrary (m : Manager) (p : string) : option (bool * Manager) :=
  if IsLibraryValid m p then Some (true, m)
  else
    match NewLoader (world m) p with
    | None => None
    | Some (l, w) => let m := mkManager (<[p := l]> (libpath_loader_map_ m)) w in Some (IsLibraryValid m p, m)
    end.
Definition M_UnloadLibrary (m : Manager) (p : string) : option (Z * Manager) :=
  if IsLibraryValid m p then
    let '(l, m) := GetClassLoaderByLibPath m p in
    match UnloadLibrary (world m) l with
    | None => None
    | Some (n, w) =>
        if n =? 0 then
          match DeleteLoader w l with
          | None => None
          | Some w => Some (n, mkManager (<[p := 0%nat]> (libpath_loader_map_ m)) w)
          end
        else Some (n, mkManager (libpath_loader_map_ m) w)
    end
  else Some (0, m).
Definition UnloadAllLibrary (m : Manager) : option Manager :=
  foldl (fun m p => m ≫= fun m => snd <$> M_UnloadLibrary m p) (Some m) (GetAllValidLibPath m).

(** CreateClassObj by class name: the first loader that has the class. *)
Fixpoint create_by_name (w : World) (ls : list nat) (base cls : string) : option (option Obj * World) :=
  match ls with
  | [] => Some (None, w)
  | l :: ls =>
      if bool_decide (l = 0%nat) then None
      else if IsClassValid w base cls l then CreateClassObj w l base cls else create_by_name w ls base cls
  end.
Definition M_CreateByName (m : Manager) (base cls : string) : option (option Obj * Manager) :=
  match create_by_name (world m) (GetAllValidClassLoaders m) base cls with
  | Some (o, w) => Some (o, mkManager (libpath_loader_map_ m) w)
  | None => None
  end.
Definition M_Create (m : Manager) (base cls p : string) : option (option Obj * Manager) :=
  let '(l, m) := GetClassLoaderByLibPath m p in
  if bool_decide (l = 0%nat) then Some (None, m)
  else
    match CreateClassObj (world m) l base cls with
    | Some (o, w) => Some (o, mkManager (libpath_loader_map_ m) w)
    | None => None
    end.
(** GetValidClassNames and IsClassValid of the manager. *)
Definition M_GetValidClassNames (m : Manager) (base : string) : option (list string) :=
  foldl (fun r l => r ≫= fun r => if bool_decide (l = 0%nat) then None else Some (r ++ GetValidClassNames (world m) base l))
    (Some []) (GetAllValidClassLoaders m).
Definition M_IsClassValid (m : Manager) (base cls : string) : option bool :=
  (fun l => bool_decide (cls ∈ l)) <$> M_GetValidClassNames m base.

(** ** Lemmas *)

Lemma erase_first_other l k o : l <> k -> l ∈ erase_first k o <-> l ∈ o.
Proof.
  intros N. induction o as [|x o IH]; [done|]. cbn. case_decide; subst; set_solver.
Qed.
Lemma erase_lib_other p q o : p <> q -> p ∈ erase_lib q o <-> p ∈ o.
Proof. intros N. induction o as [|x o IH]; [done|]. cbn. case_decide; subst; set_solver. Qed.
Lemma erase_first_sub k o l : l ∈ erase_first k o -> l ∈ o.
Proof. induction o as [|x o IH]; [done|]. cbn. case_decide; set_solver. Qed.
Lemma AddOwned_elem f l k : k ∈ relative_class_loaders_ (AddOwnedClassLoader f l) <-> k = l \/ k ∈ relative_class_loaders_ f.
Proof. unfold AddOwnedClassLoader, IsOwnedBy. case_bool_decide; cbn; set_solver. Qed.
Lemma AddOwned_lib f l : relative_library_path_ (AddOwnedClassLoader f l) = relative_library_path_ f.
Proof. unfold AddOwnedClassLoader. by destruct (IsOwnedBy f l). Qed.

Lemma register_lookup lib l cs : forall fs k f, foldl (RegisterClass lib l) fs cs !! k = Some f ->
  fs !! k = Some f /\ k ∉ cs \/ k ∈ cs /\ relative_library_path_ f = lib /\ relative_class_loaders_ f = [l].
Proof.
  induction cs as [|c cs IH]; intros fs k f; [by left; split; [|set_solver]|]. cbn [foldl]. intros E.
  destruct (IH _ _ _ E) as [[E' N]|[? ?]]; [|right; set_solver]. unfold RegisterClass in E'.
  destruct (decide (c = k)) as [->|Ne]; [rewrite lookup_insert_eq in E'; injection E' as <-; right; set_solver|].
  rewrite lookup_insert_ne in E' by done. left. split; [done|set_solver].
Qed.
Lemma register_keeps lib l cs : forall fs k, k ∉ cs -> foldl (RegisterClass lib l) fs cs !! k = fs !! k.
Proof.
  induction cs as [|c cs IH]; intros fs k N; [done|]. cbn [foldl]. rewrite IH by set_solver. unfold RegisterClass. apply lookup_insert_ne. set_solver.
Qed.

Definition count_objs (l : nat) (os : list Obj) : Z := zlen (filter (fun o => o_loader o = l) os).
Lemma count_objs_cons l o os : count_objs l (o :: os) = (if decide (o_loader o = l) then 1 else 0) + count_objs l os.
Proof. unfold count_objs. rewrite filter_cons. case_decide; unfold zlen; cbn [length]; lia. Qed.
Lemma count_objs_delete l i os o : os !! i = Some o -> count_objs l (take i os ++ drop (S i) os) = count_objs l os - if decide (o_loader o = l) then 1 else 0.
Proof.
  intros E. rewrite <- (take_drop_middle os i o E) at 3. unfold count_objs. rewrite !filter_app, filter_cons.
  unfold zlen. case_decide; rewrite ?length_app; cbn [length]; lia.
Qed.
Lemma count_objs_zero l os o : count_objs l os <= 0 -> o ∈ os -> o_loader o <> l.
Proof.
  unfold count_objs, zlen. intros Hc Ho E. assert (X : o ∈ filter (fun o => o_loader o = l) os) by (by apply list_elem_of_filter).
  destruct (filter _ os); [by apply elem_of_nil in X|]. cbn [length] in Hc. lia.
Qed.

Lemma count_objs_none l os : (forall o, o ∈ os -> o_loader o <> l) -> count_objs l os = 0.
Proof.
  induction os as [|o os IH]; intros N; [done|]. rewrite count_objs_cons, decide_False by (apply N; set_solver).
  rewrite IH; [done|set_solver].
Qed.

(** ** The invariant *)

Record inv (w : World) : Prop := {
  in_open : forall k f, factories w !! k = Some f -> relative_library_path_ f ∈ opened w;
  in_class : forall k f, factories w !! k = Some f -> exists cs, lib_classes (relative_library_path_ f) = Some cs /\ k ∈ cs;
  in_objs : forall o, o ∈ objs w -> exists f, factories w !! (o_base o, o_class o) = Some f /\ relative_library_path_ f = o_lib o /\
    o_loader o ∈ relative_class_loaders_ f;
  in_count : forall l x, loaders w !! l = Some x -> classobj_ref_count_ x = count_objs l (objs w);
  in_owner : forall k f l, factories w !! k = Some f -> l ∈ relative_class_loaders_ f -> (l < next_loader w)%nat;
  in_fresh : forall l x, loaders w !! l = Some x -> (0 < l < next_loader w)%nat;
  in_next : (0 < next_loader w)%nat
}.

(** No class is in two libraries. *)
Hypothesis disjoint : forall p q cs ds k, lib_classes p = Some cs -> lib_classes q = Some ds -> k ∈ cs -> k ∈ ds -> p = q.

Lemma inv_new : inv NewWorld.
Proof. split; cbn; try (intros *; rewrite lookup_empty; done); [set_solver|lia]. Qed.

(** Only the counters of a loader change. *)
Lemma inv_set_loader w l x y : inv w -> loaders w !! l = Some x -> classobj_ref_count_ y = classobj_ref_count_ x -> inv (set_loader w l y).
Proof.
  intros [I1 I2 I3 I4 I5 I6 I7] E C. split; try done; cbn.
  - intros k z. rewrite lookup_insert. case_decide; [intros [= <-]; subst; rewrite C; by apply I4|apply I4].
  - intros k z. rewrite lookup_insert. case_decide; [intros _; subst; by eapply I6|apply I6].
Qed.

Lemma inv_load w lib l : inv w -> (l < next_loader w)%nat -> inv (snd (utility_LoadLibrary w lib l)).
Proof.
  intros [I1 I2 I3 I4 I5 I6 I7] Hl. unfold utility_LoadLibrary, IsLibraryLoadedByAnybody. case_bool_decide as Op; cbn [snd].
  - assert (A : forall k f, ((fun f => if of_library lib f then AddOwnedClassLoader f l else f) <$> factories w) !! k = Some f ->
      exists g, factories w !! k = Some g /\ relative_library_path_ f = relative_library_path_ g /\
        forall x, x ∈ relative_class_loaders_ f -> x = l \/ x ∈ relative_class_loaders_ g).
    { intros k f. rewrite lookup_fmap. destruct (factories w !! k) as [g|]; [|done]. cbn. intros [= <-]. exists g. split; [done|].
      destruct (of_library lib g); [|by split; [|right]]. rewrite AddOwned_lib. split; [done|]. intros x. by rewrite AddOwned_elem. }
    split; cbn; try done.
    + intros k f E. destruct (A k f E) as (g & Eg & -> & _). by eapply I1.
    + intros k f E. destruct (A k f E) as (g & Eg & -> & _). by eapply I2.
    + intros o Ho. destruct (I3 o Ho) as (f & E & Ep & Eo). rewrite lookup_fmap, E. cbn. eexists. split; [done|].
      destruct (of_library lib f); [|done]. rewrite AddOwned_lib, AddOwned_elem. by split; [|right].
    + intros k f x E Hx. destruct (A k f E) as (g & Eg & _ & Ho). destruct (Ho x Hx) as [->|]; [done|by eapply I5].
  - destruct (lib_classes lib) as [cs|] eqn:EL; [|by split]. cbn.
    assert (New : forall k f, factories w !! k = Some f -> k ∉ cs).
    { intros k f E Hk. destruct (I2 k f E) as (ds & Ed & Hd). apply Op. rewrite (disjoint lib _ cs ds k EL Ed Hk Hd). by eapply I1. }
    split; cbn; try done.
    + intros k f [[E _]|(_ & -> & _)]%register_lookup; [|set_solver]. apply elem_of_app. left. by eapply I1.
    + intros k f [[E _]|(Hk & -> & _)]%register_lookup; [by eapply I2|eauto].
    + intros o Ho. destruct (I3 o Ho) as (f & E & C). exists f. rewrite register_keeps by (by eapply New). done.
    + intros k f x [[E _]|(_ & _ & ->)]%register_lookup Hx; [by eapply I5|]. apply list_elem_of_singleton in Hx as ->. done.
Qed.

Lemma inv_unload w lib l : inv w -> (forall o, o ∈ objs w -> o_loader o <> l) -> inv (utility_UnloadLibrary w lib l).
Proof.
  intros [I1 I2 I3 I4 I5 I6 I7] No. unfold utility_UnloadLibrary. destruct (IsLibraryLoadedByAnybody w lib) eqn:Lo; [|by split]. cbn [negb].
  set (w1 := DestroyClassFactoryObjectsOfLibrary w lib l).
  assert (A : forall k f, factories w1 !! k = Some f -> exists g, factories w !! k = Some g /\
    relative_library_path_ f = relative_library_path_ g /\ forall x, x ∈ relative_class_loaders_ f -> x ∈ relative_class_loaders_ g).
  { intros k f. cbn. rewrite lookup_omap. destruct (factories w !! k) as [g|]; [|done]. cbn. unfold destroy_one.
    destruct (of_library lib g && IsOwnedBy g l); [|intros [= <-]; eauto]. destruct (IsOwnedByAnybody _); [|done]. intros [= <-].
    exists g. split_and!; [done|done|]. intros x. apply erase_first_sub. }
  assert (B : forall o, o ∈ objs w -> exists f, factories w1 !! (o_base o, o_class o) = Some f /\ relative_library_path_ f = o_lib o /\
    o_loader o ∈ relative_class_loaders_ f).
  { intros o Ho. destruct (I3 o Ho) as (f & E & Ep & Eo). cbn. rewrite lookup_omap, E. cbn. unfold destroy_one.
    destruct (of_library lib f && IsOwnedBy f l); [|eauto].
    assert (X : o_loader o ∈ relative_class_loaders_ (RemoveOwnedClassLoader f l)) by (cbn; rewrite erase_first_other; [done|by apply No]).
    unfold IsOwnedByAnybody. rewrite bool_decide_eq_false_2 by (intros Em; rewrite Em in X; by apply elem_of_nil in X). eauto. }
  assert (I' : inv w1).
  { split; try done; cbn.
    - intros k f E. destruct (A k f E) as (g & Eg & -> & _). by eapply I1.
    - intros k f E. destruct (A k f E) as (g & Eg & -> & _). by eapply I2.
    - intros k f x E Hx. destruct (A k f E) as (g & Eg & _ & Ho). eapply I5; eauto. }
  case_bool_decide as Em; [|done]. destruct I' as [J1 J2 J3 J4 J5 J6 J7]. split; try done; cbn.
  intros k f E. apply erase_lib_other; [|by eapply J1]. intros Eq.
  assert (X : f ∈ GetAllClassFactoryObjectsOfLibrary w1 lib).
  { apply list_elem_of_filter. split; [done|]. apply list_elem_of_fmap. exists (k, f). split; [done|]. by apply elem_of_map_to_list. }
  rewrite Em in X. by apply elem_of_nil in X.
Qed.

Lemma inv_LoadLibrary w l b w' : inv w -> LoadLibrary w l = Some (b, w') -> inv w'.
Proof.
  intros I. unfold LoadLibrary. destruct (loaders w !! l) as [x|] eqn:E; [|done]. intros [= Eq].
  change w' with (snd (b, w')). rewrite <- Eq. apply inv_load; [by eapply inv_set_loader|]. cbn. by eapply in_fresh.
Qed.
Lemma inv_UnloadLibrary w l n w' : inv w -> UnloadLibrary w l = Some (n, w') -> inv w'.
Proof.
  intros I. unfold UnloadLibrary. destruct (loaders w !! l) as [x|] eqn:E; [|done].
  destruct (Z.ltb_spec 0 (classobj_ref_count_ x)) as [|Hc]; [by intros [= _ <-]|].
  rewrite (in_count _ I _ _ E) in Hc.
  assert (S : forall n, inv (set_loader w l (mkLoader (library_path_ x) n (classobj_ref_count_ x)))) by (intros m; by eapply inv_set_loader).
  destruct (_ =? 0); [intros [= _ <-]|destruct (_ <? 0); by intros [= _ <-]]. apply inv_unload; [done|].
  intros o Ho. by apply (count_objs_zero l (objs w)).
Qed.

Lemma exec_inv w o w' : inv w -> exec w o = Some w' -> inv w'.
Proof.
  intros I. destruct o as [lib|l|l|l|l base cls|i]; cbn [exec].
  - unfold NewLoader. set (w1 := mkWorld _ _ _ _ _). assert (I1 : inv w1).
    { destruct I as [I1 I2 I3 I4 I5 I6 I7]. split; try done; cbn.
      - intros k z. rewrite lookup_insert. case_decide; [intros [= <-]; cbn|apply I4]. subst k. symmetry. apply count_objs_none.
        intros o Ho. destruct (I3 o Ho) as (f & E & _ & Eo). pose proof (I5 _ _ _ E Eo). lia.
      - intros k f x E Hx. pose proof (I5 k f x E Hx). lia.
      - intros k z. rewrite lookup_insert. case_decide; [lia|]. intros E. pose proof (I6 k z E). lia.
      - lia. }
    destruct (LoadLibrary w1 (next_loader w)) as [[b w2]|] eqn:E; [|done]. intros [= <-]. by eapply inv_LoadLibrary.
  - destruct (LoadLibrary w l) as [[b w1]|] eqn:E; [|done]. intros [= <-]. by eapply inv_LoadLibrary.
  - destruct (UnloadLibrary w l) as [[n w1]|] eqn:E; [|done]. intros [= <-]. by eapply inv_UnloadLibrary.
  - unfold DeleteLoader. destruct (UnloadLibrary w l) as [[n w1]|] eqn:E; [|done]. intros [= <-].
    destruct (inv_UnloadLibrary _ _ _ _ I E) as [I1 I2 I3 I4 I5 I6 I7]. split; try done; cbn.
    + intros k z [_ Ez]%lookup_delete_Some. by apply I4.
    + intros k z [_ Ez]%lookup_delete_Some. by eapply I6.
  - unfold CreateClassObj. destruct (loaders w !! l) as [x|]; [|done].
    destruct (if IsLibraryLoaded w (library_path_ x) l then Some w else snd <$> LoadLibrary w l) as [w1|] eqn:E1; [|done].
    assert (I1 : inv w1).
    { destruct (IsLibraryLoaded _ _ _); [by injection E1 as <-|]. destruct (LoadLibrary w l) as [[b w2]|] eqn:E; [|done]. injection E1 as <-. by eapply inv_LoadLibrary. }
    unfold utility_CreateClassObj. destruct (factories w1 !! (base, cls)) as [f|] eqn:Ef; [|by intros [= <-]].
    unfold IsOwnedBy. case_bool_decide as Ow; [|by intros [= <-]]. destruct (loaders w1 !! l) as [y|] eqn:Ey; [|done]. intros [= <-].
    destruct I1 as [J1 J2 J3 J4 J5 J6 J7]. split; try done; cbn.
    + intros o [->|Ho]%elem_of_cons; [|by apply J3]. cbn. eauto.
    + intros k z. rewrite lookup_insert, count_objs_cons. cbn. case_decide; [intros [= <-]; subst; cbn; rewrite (J4 _ _ Ey); lia|].
      intros Ez. rewrite (J4 _ _ Ez). lia.
    + intros k z. rewrite lookup_insert. case_decide; [intros _; subst; by eapply J6|apply J6].
  - unfold DeleteObj. destruct (objs w !! i) as [o|] eqn:Eo; [|done]. destruct (loaders w !! o_loader o) as [x|] eqn:Ex; [|done]. intros [= <-].
    destruct I as [J1 J2 J3 J4 J5 J6 J7]. split; try done; cbn.
    + intros q Hq. apply J3. rewrite <- (take_drop_middle _ _ _ Eo). set_solver.
    + intros k z. rewrite lookup_insert, (count_objs_delete _ _ _ _ Eo). case_decide; [intros [= <-]; subst; cbn; rewrite (J4 _ _ Ex); lia|].
      intros Ez. rewrite (J4 _ _ Ez). lia.
    + intros k z. rewrite lookup_insert. case_decide; [intros _; subst; by eapply J6|apply J6].
Qed.

(** C16. An object's library stays, provided that no class is in two libraries (the
    section's hypothesis): whatever loaders a process makes, loads, unloads and
    deletes, and whatever objects it creates and deletes, the library of every
    object that lives is open and the factory it came from is still there, owned by
    the object's loader. *)
Theorem live_objects_keep_their_library w o : reachable w -> o ∈ objs w ->
  o_lib o ∈ opened w /\
  exists f, factories w !! (o_base o, o_class o) = Some f /\ relative_library_path_ f = o_lib o /\ IsOwnedBy f (o_loader o) = true.
Proof.
  intros R Ho. assert (I : inv w) by (clear Ho; induction R as [|w1 op w2 _ IH E]; [apply inv_new|by eapply exec_inv]).
  destruct (in_objs _ I o Ho) as (f & E & P & Ow). split; [rewrite <- P; by eapply in_open|]. exists f. split_and!; try done.
  unfold IsOwnedBy. by apply bool_decide_eq_true.
Qed.

(** The last owner takes the library with it. *)
Lemma last_owner_unloads w lib l : NoDup (opened w) -> lib ∈ opened w ->
  (forall k f, factories w !! k = Some f -> relative_library_path_ f = lib -> relative_class_loaders_ f = [l]) ->
  let w' := utility_UnloadLibrary w lib l in
  lib ∉ opened w' /\ (forall k f, factories w' !! k = Some f -> factories w !! k = Some f /\ relative_library_path_ f <> lib).
Proof.
  intros N Hl Ow w'. assert (D : forall k f, omap (destroy_one lib l) (factories w) !! k = Some f -> factories w !! k = Some f /\ relative_library_path_ f <> lib).
  { intros k f. rewrite lookup_omap. destruct (factories w !! k) as [g|] eqn:E; [|done]. cbn. unfold destroy_one, of_library.
    case_bool_decide as P; cbn [andb]; [|by intros [= <-]]. unfold IsOwnedBy. rewrite (Ow k g E P), bool_decide_eq_true_2 by set_solver.
    unfold RemoveOwnedClassLoader. rewrite (Ow k g E P). cbn. by rewrite decide_True. }
  unfold w', utility_UnloadLibrary, IsLibraryLoadedByAnybody. rewrite bool_decide_eq_true_2 by done. cbn [negb].
  rewrite bool_decide_eq_true_2; [split; [|exact D]|].
  - cbn. clear -N. induction N as [|p o Hp _ IH]; cbn; [set_solver|]. case_decide; [by subst|set_solver].
  - unfold GetAllClassFactoryObjectsOfLibrary. cbn. destruct (filter _ _) as [|f fs] eqn:E; [done|]. exfalso.
    assert (X : f ∈ f :: fs) by left. rewrite <- E in X. apply list_elem_of_filter in X as [P X].
    apply list_elem_of_fmap in X as ([k g] & -> & Hk). apply elem_of_map_to_list in Hk. by apply D in Hk as [_ ?].
Qed.
End class_loader.

(** ** Examples *)

Definition libs (p : string) : option (list (string * string)) :=
  if decide (p = "a.so"%string) then Some [("Base", "A"); ("Base", "A2")]%string
  else if decide (p = "b.so"%string) then Some [("Base", "B")]%string
  else None.
Lemma libs_disjoint p q cs ds k : libs p = Some cs -> libs q = Some ds -> k ∈ cs -> k ∈ ds -> p = q.
Proof. unfold libs. repeat case_decide; subst; try done; intros [= <-] [= <-]; set_solver. Qed.

(** Two loaders of one library, an object of the first; the second unloads. *)
Definition run (l : string -> option (list (string * string))) (ops : list op) : option World :=
  foldl (fun w o => w ≫= fun w => exec l w o) (Some NewWorld) ops.
Lemma run_reachable l ops w : run l ops = Some w -> reachable l w.
Proof.
  revert w. induction ops as [|o ops IH] using rev_ind; intros w; [intros [= <-]; constructor|].
  unfold run. rewrite foldl_app. cbn. fold (run l ops). destruct (run l ops) as [w0|]; [|done]. cbn. intros E. eapply reach_step; [by apply IH|done].
Qed.
Definition shared_ops : list op := [OpNew "a.so"; OpNew "a.so"; OpCreate 1 "Base" "A"; OpUnload 2; OpUnload 1].
Definition shared : World := default NewWorld (run libs shared_ops).

Lemma live_objects_keep_their_library_witness : o_lib (mkObj 1 "Base" "A" "a.so") ∈ opened shared.
Proof.
  apply (live_objects_keep_their_library libs libs_disjoint shared (mkObj 1 "Base" "A" "a.so")).
  - apply (run_reachable libs shared_ops). by vm_compute.
  - apply (bool_decide_unpack _). by vm_compute.
Defined.

(** If two libraries have a class of the same name, the second takes the place of the first in
    the table, and the first is unloaded under the object. *)
Definition clash (p : string) : option (list (string * string)) :=
  if decide (p = "a.so"%string) then Some [("Base", "A")]%string
  else if decide (p = "c.so"%string) then Some [("Base", "A")]%string else None.
Lemma clash_unloads_under_object :
  (fun w => (o_lib <$> objs w, opened w)) <$>
    run clash [OpNew "a.so"; OpNew "a.so"; OpCreate 1 "Base" "A"; OpNew "c.so"; OpUnload 2] = Some (["a.so"%string], ["c.so"%string]).
Proof. by vm_compute. Qed.

(** A loader that has unloaded its library while another still uses it is told that the library is
    loaded, does not load it again, and cannot make objects. *)
Lemma unloaded_loader_is_stuck :
  (w ← run libs [OpNew "a.so"; OpNew "a.so"; OpUnload 2];
   Some (IsLibraryLoaded w "a.so" 2, fst <$> CreateClassObj libs w 2 "Base" "A")) = Some (true, Some None).
Proof. by vm_compute. Qed.

(** *** The manager *)

Definition NewManager : Manager := mkManager ∅ NewWorld.

(** Loading a library that does not exist succeeds. *)
Lemma missing_library_loads : fst <$> M_LoadLibrary libs NewManager "missing.so" = Some true.
Proof. by vm_compute. Qed.

(** After a request that names a library that is not loaded, a request by class name, which worked
    before, uses nullptr. *)
Lemma unknown_library_poisons_the_manager :
  (m ← snd <$> M_LoadLibrary libs NewManager "b.so"; Some (fst <$> M_CreateByName libs m "Base" "B")) = Some (Some (Some (mkObj 1 "Base" "B" "b.so"))) /\
  (m ← snd <$> M_LoadLibrary libs NewManager "b.so"; m ← snd <$> M_Create libs m "Base" "A" "a.so"; Some (fst <$> M_CreateByName libs m "Base" "B")) = Some None.
Proof. by vm_compute. Qed.
