(* ===== verification/Parameter.v ===== *)
(** Parameter.v -- parameters, their server and their clients

    - src/src/apollo/cyber/parameter/parameter.{h,cc}
    - src/src/apollo/cyber/parameter/parameter_server.cc
    - src/src/apollo/cyber/parameter/parameter_client.cc

    A parameter is a name, a tag and a value.  The server keeps one value per
    name behind three services; a client's call is answered, is handled without an answer
    that comes in time, or does not arrive (Service.v has the services).  Doubles are an abstract
    type. *)

From S2P Require Import Prelude Unordered Text.
Local Open Scope Z_scope.

Inductive ParamType := NOT_SET | BOOL | INT | DOUBLE | STRING | PROTOBUF.
#[export] Instance ParamType_eq_dec : EqDecision ParamType.
Proof. solve_decision. Defined.

Section parameter.
Context {double : Type} (zero : double).
Context `{HashOrder}.

Inductive oneof_value := VNone | VBool (b : bool) | VInt (i : Z) | VDouble (d : double) | VString (s : string).
Record Param := mkParam { name : string; type : ParamType; type_name : string; val : oneof_value; proto_desc : string }.
(** A message in which nothing is set. *)
Definition NewParam : Param := mkParam "" NOT_SET "" VNone "".
Definition bool_value (p : Param) : bool := match val p with VBool b => b | _ => false end.
Definition int_value (p : Param) : Z := match val p with VInt i => i | _ => 0 end.
Definition double_value (p : Param) : double := match val p with VDouble d => d | _ => zero end.
Definition string_value (p : Param) : string := match val p with VString s => s | _ => "" end.

(** ** Parameter *)

Definition Parameter_name (n : string) : Param := mkParam n NOT_SET "" VNone "".
Definition Parameter_bool (n : string) (b : bool) : Param := mkParam n BOOL "BOOL" (VBool b) "".
Definition Parameter_int (n : string) (i : Z) : Param := mkParam n INT "INT" (VInt i) "".
Definition Parameter_double (n : string) (d : double) : Param := mkParam n DOUBLE "DOUBLE" (VDouble d) "".
Definition Parameter_string (n s : string) : Param := mkParam n STRING "STRING" (VString s) "".
Definition Parameter_msg (n msg_str full_name desc : string) : Param := mkParam n PROTOBUF full_name (VString msg_str) desc.

(** The values come whatever the tag says; a wrong tag is only logged. *)
Definition AsBool (p : Param) : bool := bool_value p.
Definition AsInt64 (p : Param) : Z := int_value p.
Definition value_int (width : Z) (p : Param) : Z := (int_value p + 2 ^ (width - 1)) mod 2 ^ width - 2 ^ (width - 1).
Definition AsDouble (p : Param) : double := double_value p.
Definition AsString (p : Param) : string := string_value p.

(** DebugString; what protobuf and std::to_string print is up to them. *)
Variables (print_double : double -> string) (print_message : string -> string -> string -> option string).
Definition quote : string := String (Ascii.ascii_of_nat 34) EmptyString.
Definition DebugString (p : Param) : string :=
  ("{name: " ++ quote ++ name p ++ quote ++ ", type: " ++ quote ++ type_name p ++ quote ++ ", value: " ++
   match type p with
   | BOOL => if AsBool p then "true" else "false"
   | INT => to_string (AsInt64 p)
   | DOUBLE => print_double (AsDouble p)
   | STRING => quote ++ AsString p ++ quote
   | PROTOBUF => match print_message (proto_desc p) (type_name p) (AsString p) with Some s => quote ++ s ++ quote | None => "" end
   | NOT_SET => "not set"
   end ++ "}")%string.

(** ** ParameterServer *)

Notation Server := (gmap string Param).
Definition SetParameter (s : Server) (p : Param) : Server := <[name p := p]> s.
Definition GetParameter (s : Server) (n : string) : option Param := s !! n.
Definition ListParameters (s : Server) : list Param := (iter s).*2.
(** The handlers of the services, with the response as it comes in. *)
Definition handle_get (s : Server) (n : string) (response : Param) : Param := match s !! n with Some p => p | None => response end.
Definition handle_set (s : Server) (p : Param) : bool * Server := (true, <[name p := p]> s).
Definition handle_list (s : Server) (response : list Param) : list Param := response ++ (iter s).*2.

(** ** ParameterClient *)

Inductive call := Answered | Handled | Lost.
Definition Client_GetParameter (s : Server) (c : call) (n : string) : option Param :=
  match c with
  | Answered => let response := handle_get s n NewParam in if decide (type response = NOT_SET) then None else Some response
  | _ => None
  end.
Definition Client_SetParameter (s : Server) (c : call) (p : Param) : bool * Server :=
  match c with
  | Answered => handle_set s p
  | Handled => (false, snd (handle_set s p))
  | Lost => (false, s)
  end.
Definition Client_ListParameters (s : Server) (c : call) (parameters : list Param) : bool * list Param :=
  match c with
  | Answered => (true, parameters ++ handle_list s [])
  | _ => (false, parameters)
  end.

(** ** Histories *)

Inductive pop := PSet (p : Param) | PClientSet (c : call) (p : Param).
Definition pexec (s : Server) (o : pop) : Server :=
  match o with PSet p => SetParameter s p | PClientSet c p => snd (Client_SetParameter s c p) end.
(** What reached the server. *)
Definition reached (o : pop) : option Param :=
  match o with PSet p => Some p | PClientSet Lost _ => None | PClientSet _ p => Some p end.
(** The last parameter of a name. *)
Fixpoint latest (n : string) (ps : list Param) : option Param :=
  match ps with [] => None | p :: ps => match latest n ps with Some q => Some q | None => if decide (name p = n) then Some p else None end end.

Lemma latest_snoc n ps p : latest n (ps ++ [p]) = if decide (name p = n) then Some p else latest n ps.
Proof. induction ps as [|q ps IH]; cbn; [done|]. rewrite IH. by case_decide. Qed.

(** ** What the server has *)

(** A parameter as a program makes it. *)
Inductive constructed : Param -> Prop :=
  | c_new : constructed NewParam
  | c_name n : constructed (Parameter_name n)
  | c_bool n b : constructed (Parameter_bool n b)
  | c_int n i : constructed (Parameter_int n i)
  | c_double n d : constructed (Parameter_double n d)
  | c_string n s : constructed (Parameter_string n s)
  | c_msg n m f d : constructed (Parameter_msg n m f d).
Lemma run_latest ops n : foldl pexec (∅ : Server) ops !! n = latest n (omap reached ops).
Proof.
  assert (S : forall (s : Server) ps p, s !! n = latest n ps -> <[name p := p]> s !! n = latest n (ps ++ [p])).
  { intros s ps p E. rewrite latest_snoc, lookup_insert. by case_decide. }
  induction ops as [|o ops IH] using rev_ind; [apply lookup_empty|]. rewrite foldl_app, omap_app.
  destruct o as [p|[] p]; [by apply S..|]. etransitivity; [exact IH|]. f_equal. symmetry. apply app_nil_r.
Qed.

(** The server has the last value: after any sets by the server's own program and by its clients, asking for
    a parameter, at the server or as a client, gives the one that reached the server last under that
    name, or none if there was none (a client also gets none for a parameter whose type is not set); and
    the list has each name's parameter once. *)
Theorem server_has_the_latest ops : let s := foldl pexec ∅ ops in
  (forall n, GetParameter s n = latest n (omap reached ops)) /\
  (forall n, Client_GetParameter s Answered n =
     match latest n (omap reached ops) with Some p => if decide (type p = NOT_SET) then None else Some p | None => None end) /\
  (forall p ps, (p ∈ snd (Client_ListParameters s Answered ps) <-> p ∈ ps \/ latest (name p) (omap reached ops) = Some p)) /\
  NoDup (name <$> ListParameters s).
Proof.
  intros s. assert (L : forall n, s !! n = latest n (omap reached ops)) by (intros n; apply run_latest).
  assert (Nm : forall n p, s !! n = Some p -> name p = n).
  { intros n p. rewrite L. clear L. induction (omap reached ops) as [|q ps IH]; cbn; [done|]. destruct (latest n ps) as [p'|]; [exact IH|].
    case_decide; [by intros [= <-]|done]. }
  assert (Ml : forall p, p ∈ ListParameters s <-> s !! name p = Some p).
  { intros p. unfold ListParameters. rewrite elem_of_iter_values. split; [|by eauto]. intros [k Hk]. by rewrite (Nm k p Hk). }
  split_and!; [done| | |].
  - intros n. cbn. unfold handle_get. rewrite L. by destruct (latest n _).
  - intros p ps. cbn. unfold handle_list. cbn. rewrite elem_of_app, <- L. by rewrite <- Ml.
  - unfold ListParameters. assert (E : name <$> (iter s).*2 = (iter s).*1); [|rewrite E; apply NoDup_iter_keys].
    rewrite <- list_fmap_compose. assert (F : Forall (fun kp => name kp.2 = kp.1) (iter s)).
    { apply Forall_forall. intros [k p] Hk. apply elem_of_iter in Hk. cbn. by apply Nm. }
    induction F as [|kp l Hk _ IH]; [done|]. rewrite !fmap_cons, IH. by rewrite <- Hk.
Qed.

(** Which one the last is. *)
Lemma latest_Some n ps p : latest n ps = Some p <-> exists l1 l2, ps = l1 ++ p :: l2 /\ name p = n /\ n ∉ name <$> l2.
Proof.
  clear print_double print_message. induction ps as [|q ps IH] using rev_ind; [split; [done|]; intros ([] & l2 & ? & _); done|]. rewrite latest_snoc. case_decide as E.
  - split.
    + intros [= <-]. exists ps, []. split_and!; [done|done|apply not_elem_of_nil].
    + intros (l1 & l2 & El & _ & Hn). destruct l2 as [|r l2 _] using rev_ind; [by apply app_inj_tail in El as [_ ->]|].
      rewrite app_comm_cons, app_assoc in El. apply app_inj_tail in El as [_ ->]. rewrite fmap_app in Hn. set_solver.
  - rewrite IH. split.
    + intros (l1 & l2 & -> & Hp & Hn). exists l1, (l2 ++ [q]). split_and!; [by rewrite <- app_assoc|done|]. rewrite fmap_app. set_solver.
    + intros (l1 & l2 & El & Hp & Hn). destruct l2 as [|r l2 _] using rev_ind; [apply app_inj_tail in El as [_ ->]; done|].
      rewrite app_comm_cons, app_assoc in El. apply app_inj_tail in El as [-> ->]. exists l1, l2. split_and!; [done|done|].
      rewrite fmap_app in Hn. set_solver.
Qed.

Lemma reached_constructed ops : Forall (fun o => match o with PSet p | PClientSet _ p => constructed p end) ops -> Forall constructed (omap reached ops).
Proof. intros F. induction F as [|o ops Ho _ IH]; [constructor|]. destruct o as [q|[] q]; cbn; by try constructor. Qed.

(** C17. What was set is what is served.  After any sets by the server's own program and by its clients, some of whose
    calls are answered, some handled without an answer and some lost, of parameters made by the constructors:
    the server has, under a name, the parameter that reached it last under that name and nothing
    else, and a client that is answered gets the same one unless its type is not set; the list
    the client gets has each name's parameter and each name once; and the parameter's tag says which value it has,
    so that reading it by its tag gives the value that was set and not a default. *)
Theorem parameters_are_served_as_set ops : Forall (fun o => match o with PSet p | PClientSet _ p => constructed p end) ops ->
  let s := foldl pexec ∅ ops in
  (forall n p, GetParameter s n = Some p <-> exists l1 l2, omap reached ops = l1 ++ p :: l2 /\ name p = n /\ n ∉ name <$> l2) /\
  (forall n p, Client_GetParameter s Answered n = Some p <-> GetParameter s n = Some p /\ type p <> NOT_SET) /\
  (forall p, p ∈ snd (Client_ListParameters s Answered []) <-> GetParameter s (name p) = Some p) /\
  NoDup (name <$> ListParameters s) /\
  (forall n p, GetParameter s n = Some p ->
     match type p with
     | NOT_SET => val p = VNone
     | BOOL => val p = VBool (AsBool p)
     | INT => val p = VInt (AsInt64 p)
     | DOUBLE => val p = VDouble (AsDouble p)
     | STRING | PROTOBUF => val p = VString (AsString p)
     end).
Proof.
  clear print_double print_message. intros F s. destruct (server_has_the_latest ops) as (Hg & Hc & Hl & Hn). fold s in Hg, Hc, Hl, Hn. split_and!.
  - intros n p. rewrite Hg. apply latest_Some.
  - intros n p. rewrite Hc, Hg. destruct (latest n _) as [q|]; [|naive_solver]. case_decide; naive_solver.
  - intros p. rewrite Hl, Hg. set_solver.
  - done.
  - intros n p. rewrite Hg, latest_Some. intros (l1 & l2 & E & _). pose proof (reached_constructed ops F) as C. rewrite E in C.
    apply Forall_app in C as [_ C]. by destruct (Forall_inv C).
Qed.
End parameter.

Definition pops0 : list (pop (double := Z)) :=
  [PSet (Parameter_int "speed" 5); PClientSet Answered (Parameter_bool "on" true); PClientSet Handled (Parameter_string "speed" "fast"); PClientSet Lost (Parameter_int "on" 3)].
Lemma parameters_are_served_as_set_witness : let s := foldl pexec ∅ pops0 in
  GetParameter s "speed" = Some (Parameter_string "speed" "fast") /\ GetParameter s "on" = Some (Parameter_bool "on" true).
Proof.
  pose proof (parameters_are_served_as_set 0 pops0 ltac:(repeat constructor)) as (Hg & _). split; apply Hg.
  - exists [Parameter_int "speed" 5; Parameter_bool "on" true], []. split_and!; [done|done|apply not_elem_of_nil].
  - exists [Parameter_int "speed" 5], [Parameter_string "speed" "fast"]. split_and!; [done|done|].
    intros E%list_elem_of_singleton. discriminate.
Defined.

(** A parameter that was made with a name only can be set by a client but, unlike at the server, not
    got. *)
Lemma unset_parameter_is_invisible :
  let s := snd (Client_SetParameter (double := Z) ∅ Answered (Parameter_name "flag")) in
  GetParameter s "flag" = Some (Parameter_name "flag") /\ Client_GetParameter s Answered "flag" = None.
Proof. by vm_compute. Qed.
