(* ===== verification/TaskManager.v ===== *)
(** TaskManager.v -- asynchronous tasks (task/task_manager.cc, task/task.h)

    Async makes a packaged task and hands it to the task manager, which puts it
    into a bounded queue and notifies the routines of its pool.  A routine takes
    tasks until the queue is empty and then hangs up.  The callers of Enqueue,
    the routines with the processors that run them, and Shutdown are threads that
    interleave at every access to the queue, to the flag stop_ and to the state
    and the flags of a routine; accesses are sequentially consistent.  The queue
    is a list of at most 1000 tasks, which is what file BoundedQueue shows of
    its class. *)

From S2P Require Import Prelude.
From S2P Require Import CRoutine.
Local Open Scope Z_scope.

(** ** State *)

(** The shared state of a future: its task has not run, has run, or was
    destroyed without running. *)
Inductive fut := Pending | Ready | Broken.

#[export] Instance fut_eq_dec : EqDecision fut.
Proof. solve_decision. Defined.

Notation task := nat (only parsing).

(** Where the processor is that has a routine. *)
Inductive rpc :=
| Free                  (* no processor has it *)
| Waking                (* acquired, at the test for SLEEP in UpdateState *)
| Update                (* at updated_.test_and_set() *)
| Woken                 (* the flag was clear, at the test of state_ *)
| Decide                (* at the comparison of the new state with READY *)
| Resumed               (* at Resume *)
| Loop                  (* in the routine, at while (!stop_) *)
| Deq                   (* at Dequeue *)
| Running (t : task)    (* in task() *)
| Hang                  (* Dequeue has failed, at HangUp *)
| Back.                 (* on the main stack again, at Release *)

#[export] Instance rpc_eq_dec : EqDecision rpc.
Proof. solve_decision. Defined.

(** A routine of the pool: [cont] is the task it is suspended in, [reg] whether
    the scheduler knows its id, [queued] whether it is in a run queue. *)
Record RT := mkRT { rc : CRoutine; pc : rpc; cont : option task; reg : bool; queued : bool }.

(** Where a caller of Enqueue is; [own] says that the queue holds its task too. *)
Inductive cpc :=
| CIdle
| CHas (t : task)                          (* at stop_.load() *)
| CPut (t : task)                          (* at task_queue_->Enqueue *)
| CNotify (t : task) (own : bool) (k : nat) (* at NotifyTask(tasks_[k]) *)
| CFlag (t : task) (own : bool) (k : nat)   (* routine k waits for data, at SetUpdateFlag *)
| CRet (t : task) (own : bool).             (* at the return *)

(** Where Shutdown is. *)
Inductive spc :=
| SIdle                 (* not called *)
| SStop (k : nat)       (* at RemoveTask of routine k: erased from id_cr_ and stopped *)
| SErase (k : nat).     (* erased from its run queue *)

(** What the threads share.  [accepted] and [started] are the tasks the queue
    has taken and given so far. *)
Record Sh := mkSh { stop_ : bool; queue : list task; futs : list fut; accepted : list task; started : list task }.

Record TM := mkTM { sh : Sh; routines : list RT; callers : list cpc; shut : spc }.

Definition task_queue_size_ : nat := 1000.

Definition with_futs (f : list fut) (s : Sh) : Sh := mkSh (stop_ s) (queue s) f (accepted s) (started s).

(** ** A routine of the pool *)

(** What is left open: the clock, and how a task goes on. *)
Inductive choice := Go | Clock (now : Z) | Suspend (y : yielded).

Definition goto (p : rpc) (r : RT) : RT := mkRT (rc r) p (cont r) (reg r) (queued r).
Definition with_rc (c : CRoutine) (r : RT) : RT := mkRT c (pc r) (cont r) (reg r) (queued r).
Definition with_cont (o : option task) (r : RT) : RT := mkRT (rc r) (pc r) o (reg r) (queued r).

(** A task gives up its processor by Yield, SleepFor or USleep. *)
Definition may_suspend (y : yielded) : bool :=
  match y with YieldPlain | SleepFor _ _ => true | _ => false end.

(** The loop of the routine *)
Definition body_step (ch : choice) (s : Sh) (r : RT) : option (Sh * RT) :=
  match pc r, ch with
  | Loop, Go =>
      if stop_ s then Some (s, goto Back (with_rc (run Returned (rc r)) r)) else Some (s, goto Deq r)
  | Deq, Go =>
      match queue s with
      | [] => Some (s, goto Hang r)
      | t :: q => Some (mkSh (stop_ s) q (futs s) (accepted s) (started s ++ [t]), goto (Running t) r)
      end
  | Running t, Go => Some (with_futs (<[t := Ready]> (futs s)) s, goto Loop r)
  | Running t, Suspend y =>
      if may_suspend y then Some (s, goto Back (with_cont (Some t) (with_rc (run y (rc r)) r))) else None
  | Hang, Go => Some (s, goto Back (with_rc (run HangUp (rc r)) r))
  | _, _ => None
  end.

(** The processor: NextRoutine with UpdateState, Resume, Release *)
Definition rstep (ch : choice) (s : Sh) (r : RT) : option (Sh * RT) :=
  match pc r, ch with
  | Free, Go =>
      if queued r && (Acquire (rc r)).1 then Some (s, goto Waking (with_rc (Acquire (rc r)).2 r)) else None
  | Waking, Clock now =>
      if bool_decide (state_ (rc r) = SLEEP) && (wake_time_ (rc r) <? now)
      then Some (s, goto Decide (with_rc (set_state READY (rc r)) r)) else Some (s, goto Update r)
  | Update, Go => Some (s, goto (if updated_ (rc r) then Decide else Woken) (with_rc (with_updated true (rc r)) r))
  | Woken, Go =>
      Some (s, goto Decide (with_rc (if bool_decide (state_ (rc r) = DATA_WAIT) || bool_decide (state_ (rc r) = IO_WAIT)
                                     then set_state READY (rc r) else rc r) r))
  | Decide, Go => Some (s, if bool_decide (state_ (rc r) = READY) then goto Resumed r
                           else goto Free (with_rc (Release (rc r)) r))
  | Resumed, Go =>
      if force_stop_ (rc r) then Some (s, goto Back (with_rc (set_state FINISHED (rc r)) r))
      else Some (s, match cont r with None => goto Loop r | Some t => goto (Running t) (with_cont None r) end)
  | Back, Go => Some (s, goto Free (with_rc (Release (rc r)) r))
  | _, _ => body_step ch s r
  end.

(** ** TaskManager::Enqueue *)

Definition flag_rt (r : RT) : RT := with_rc (SetUpdateFlag (rc r)) r.

Definition cstep (s : Sh) (rs : list RT) (p : cpc) : Sh * list RT * cpc :=
  match p with
  | CIdle => (with_futs (futs s ++ [Pending]) s, rs, CHas (length (futs s)))
  | CHas t => (s, rs, if stop_ s then CRet t false else CPut t)
  | CPut t =>
      if bool_decide (length (queue s) < task_queue_size_)%nat
      then (mkSh (stop_ s) (queue s ++ [t]) (futs s) (accepted s ++ [t]) (started s), rs, CNotify t true 0)
      else (s, rs, CNotify t false 0)
  | CNotify t own k =>
      match rs !! k with
      | None => (s, rs, CRet t own)
      | Some r => (s, rs, if reg r && bool_decide (state_ (rc r) = DATA_WAIT) then CFlag t own k else CNotify t own (S k))
      end
  | CFlag t own k => (s, alter flag_rt k rs, CNotify t own (S k))
  | CRet t own => (if own then s else with_futs (<[t := Broken]> (futs s)) s, rs, CIdle)
  end.

(** ** TaskManager::Shutdown *)

(** A processor looks at the routines of a run queue under its read lock. *)
Definition scanned (p : rpc) : bool := match p with Waking | Update | Woken | Decide => true | _ => false end.

Definition stop_rt (r : RT) : RT := mkRT (Stop (rc r)) (pc r) (cont r) false (queued r).
Definition erase_rt (r : RT) : RT := mkRT (Release (Stop (rc r))) (pc r) (cont r) (reg r) false.

Definition shut_step (s : Sh) (rs : list RT) (p : spc) : option (Sh * list RT * spc) :=
  match p with
  | SIdle => Some (mkSh true (queue s) (futs s) (accepted s) (started s), rs, SStop 0)
  | SStop k => if bool_decide (k < length rs)%nat then Some (s, alter stop_rt k rs, SErase k) else None
  | SErase k =>
      match rs !! k with
      | Some r => if scanned (pc r) then None else Some (s, alter erase_rt k rs, SStop (S k))
      | None => None
      end
  end.

(** ** The system *)

Inductive actor := Routine (i : nat) (ch : choice) | Caller (i : nat) | Shutdown.

Definition tstep (a : actor) (s : TM) : option TM :=
  match a with
  | Routine i ch =>
      r ← routines s !! i; '(s', r') ← rstep ch (sh s) r; Some (mkTM s' (<[i := r']> (routines s)) (callers s) (shut s))
  | Caller i =>
      p ← callers s !! i;
      let '(s', rs, p') := cstep (sh s) (routines s) p in Some (mkTM s' rs (<[i := p']> (callers s)) (shut s))
  | Shutdown => '(s', rs, p') ← shut_step (sh s) (routines s) (shut s); Some (mkTM s' rs (callers s) p')
  end.

Fixpoint tsteps (l : list actor) (s : TM) : option TM :=
  match l with [] => Some s | a :: l => s' ← tstep a s; tsteps l s' end.

(** TaskManager::TaskManager: [n] routines, created ready; [m] threads may call Enqueue. *)
Definition NewRT (now : Z) : RT := mkRT (NewCRoutine now) Free None true true.
Definition NewTM (now : Z) (n m : nat) : TM :=
  mkTM (mkSh false [] [] [] []) (replicate n (NewRT now)) (replicate m CIdle) SIdle.

Definition reachable (s : TM) : Prop := exists now n m l, tsteps l (NewTM now n m) = Some s.

(** ** Where the tasks are *)

(** The task a routine is in, and the task a caller holds. *)
Definition has (r : RT) : option task := match pc r with Running t => Some t | _ => cont r end.
Definition carries (p : cpc) : option (task * bool) :=
  match p with
  | CIdle => None
  | CHas t | CPut t => Some (t, false)
  | CNotify t own _ | CFlag t own _ | CRet t own => Some (t, own)
  end.

(** A routine that runs its function is not suspended in a task. *)
Definition cont_ok (r : RT) : Prop :=
  match pc r with Loop | Deq | Hang | Running _ => cont r = None | _ => True end.

(** [hs] are the tasks of the routines, [ks] those of the callers. *)
Record acc (s : Sh) (hs : list (option task)) (ks : list (option (task * bool))) : Prop := mkAcc {
  a_split : accepted s = started s ++ queue s;
  a_nodup : NoDup (accepted s);
  a_len : (length (queue s) <= task_queue_size_)%nat;
  a_has i t : hs !! i = Some (Some t) -> t ∈ started s /\ futs s !! t = Some Pending;
  a_uniq i j t : hs !! i = Some (Some t) -> hs !! j = Some (Some t) -> i = j;
  a_started t : t ∈ started s -> futs s !! t = Some Ready \/ exists i, hs !! i = Some (Some t);
  a_queue t : t ∈ queue s -> futs s !! t = Some Pending;
  a_true i t : ks !! i = Some (Some (t, true)) -> t ∈ accepted s;
  a_false i t : ks !! i = Some (Some (t, false)) -> t ∉ accepted s /\ futs s !! t = Some Pending;
  a_cuniq i j t b b' : ks !! i = Some (Some (t, b)) -> ks !! j = Some (Some (t, b')) -> i = j;
  a_ready t : futs s !! t = Some Ready -> t ∈ started s;
  a_broken t : futs s !! t = Some Broken -> t ∉ accepted s;
  a_pending t : futs s !! t = Some Pending ->
    t ∈ queue s \/ (exists i, hs !! i = Some (Some t)) \/ (exists i, ks !! i = Some (Some (t, false)))
}.

(** How a step of a routine moves tasks. *)
Inductive rmove (s : Sh) : option task -> Sh -> option task -> Prop :=
| rm_stay o : rmove s o s o
| rm_take t q : queue s = t :: q ->
    rmove s None (mkSh (stop_ s) q (futs s) (accepted s) (started s ++ [t])) (Some t)
| rm_finish t : rmove s (Some t) (with_futs (<[t := Ready]> (futs s)) s) None.

(** How a step of a caller moves tasks. *)
Inductive cmove (s : Sh) : option (task * bool) -> Sh -> option (task * bool) -> Prop :=
| cm_stay o : cmove s o s o
| cm_new : cmove s None (with_futs (futs s ++ [Pending]) s) (Some (length (futs s), false))
| cm_put t : (length (queue s) < task_queue_size_)%nat ->
    cmove s (Some (t, false)) (mkSh (stop_ s) (queue s ++ [t]) (futs s) (accepted s ++ [t]) (started s)) (Some (t, true))
| cm_return t : cmove s (Some (t, true)) s None
| cm_break t : cmove s (Some (t, false)) (with_futs (<[t := Broken]> (futs s)) s) None.

Lemma rstep_moves ch s r s' r' : rstep ch s r = Some (s', r') -> cont_ok r -> cont_ok r' /\ rmove s (has r) s' (has r').
Proof.
  unfold rstep, body_step, cont_ok, has. destruct r as [c p o g q], p; destruct ch; simpl; intros Hs Ho; try done;
    repeat case_match; simplify_eq/=; auto using rmove.
  all: split; [done|]; try by constructor.
Qed.

Lemma cstep_moves s rs p s' rs' p' : cstep s rs p = (s', rs', p') -> cmove s (carries p) s' (carries p').
Proof.
  unfold cstep. destruct p; intros E; repeat (case_match || case_bool_decide); simplify_eq/=; by constructor.
Qed.

(** Split every lookup in an updated list. *)
Ltac updated :=
  repeat match goal with
  | H : <[_ := _]> _ !! _ = Some _ |- _ =>
      apply list_lookup_insert_Some in H as [(? & ? & ?)|[? H]]; simplify_eq/=
  | H : (_ ++ [_]) !! _ = Some _ |- _ => apply lookup_snoc_Some in H as [[? H]|[? ?]]; simplify_eq/=
  end.

(** Somebody who still has a task after somebody else's move. *)
Lemma still {A} (l : list A) i x y (z : A) : l !! i = Some x -> x <> z -> (exists j, l !! j = Some z) ->
  exists j, <[i := y]> l !! j = Some z.
Proof.
  intros Hi Hx [j Hj]. exists j. rewrite list_lookup_insert_ne; [done|]. intros ->. congruence.
Qed.

Lemma now_has {A} (l : list A) i x y : l !! i = Some x -> exists j, <[i := y]> l !! j = Some y.
Proof. intros Hi. exists i. apply list_lookup_insert_eq. by eapply lookup_lt_Some. Qed.

Lemma acc_take s hs ks i t q : acc s hs ks -> hs !! i = Some None -> queue s = t :: q ->
  acc (mkSh (stop_ s) q (futs s) (accepted s) (started s ++ [t])) (<[i := Some t]> hs) ks.
Proof.
  intros [Hs Hn Hl Hh Hu Ht Hq Hkt Hkf Hku Hr Hb Hp] Hi Eq. rewrite Eq in *.
  assert (t ∉ started s) as Hnt.
  { rewrite Hs in Hn. apply NoDup_app in Hn as (_ & Hd & _). intros Hin. by apply (Hd t Hin), elem_of_cons; left. }
  constructor; simpl; try done.
  - by rewrite Hs, <- app_assoc.
  - simpl in Hl. lia.
  - intros j u Hj. updated.
    + split; [apply elem_of_app; right; by apply list_elem_of_singleton|]. apply Hq. by left.
    + destruct (Hh _ _ Hj). split; [by apply elem_of_app; left|done].
  - intros j k u Hj Hk. updated; try done; try (by eapply Hu).
    + by destruct (Hh _ _ Hj).
    + by destruct (Hh _ _ Hk).
  - intros u [Hu'| ->%list_elem_of_singleton]%elem_of_app.
    + destruct (Ht _ Hu') as [?|?]; [by left|right]. by eapply still.
    + right. by eapply now_has.
  - intros u Hu'. apply Hq. by right.
  - intros u Hu'. apply elem_of_app. left. by apply Hr.
  - intros u Hu'. destruct (Hp u Hu') as [[->|Hin]%elem_of_cons|[Hx|Hx]]; [|by left| |by right; right].
    + right; left. by eapply now_has.
    + right; left. by eapply still.
Qed.

Lemma acc_finish s hs ks i t : acc s hs ks -> hs !! i = Some (Some t) ->
  acc (with_futs (<[t := Ready]> (futs s)) s) (<[i := None]> hs) ks.
Proof.
  intros [Hs Hn Hl Hh Hu Ht Hq Hkt Hkf Hku Hr Hb Hp] Hi. destruct (Hh _ _ Hi) as [Hst Hpe].
  assert (t ∈ accepted s) as Hacc by (rewrite Hs; apply elem_of_app; by left).
  assert (forall u f, u <> t -> futs s !! u = Some f -> <[t:=Ready]> (futs s) !! u = Some f) as Hoth.
  { intros u f Hne Hf. by rewrite list_lookup_insert_ne. }
  constructor; simpl; try done.
  - intros j u Hj. updated. destruct (Hh _ _ Hj). split; [done|]. apply Hoth; [|done].
    intros ->. by rewrite (Hu _ _ _ Hi Hj) in *.
  - intros j k u Hj Hk. updated. by eapply Hu.
  - intros u Hin. destruct (decide (u = t)) as [->|Hne].
    + left. apply list_lookup_insert_eq. by eapply lookup_lt_Some.
    + destruct (Ht u Hin) as [?|?]; [left; by apply Hoth|right]. eapply still; [exact Hi| |done]. congruence.
  - intros u Hin. apply Hoth; [|by apply Hq]. intros ->. rewrite Hs in Hn. apply NoDup_app in Hn as (_ & Hd & _).
    by apply (Hd t).
  - intros j u Hj. destruct (Hkf _ _ Hj). split; [done|]. apply Hoth; [|done]. by intros ->.
  - intros u Hu'. updated; [done|by apply Hr].
  - intros u Hu'. updated. by apply Hb.
  - intros u Hu'. updated. destruct (Hp u Hu') as [?|[?|?]]; [by left|right; left|by right; right].
    eapply still; [exact Hi| |done]. congruence.
Qed.

Lemma acc_new s hs ks i : acc s hs ks -> ks !! i = Some None ->
  acc (with_futs (futs s ++ [Pending]) s) hs (<[i := Some (length (futs s), false)]> ks).
Proof.
  intros [Hs Hn Hl Hh Hu Ht Hq Hkt Hkf Hku Hr Hb Hp] Hi.
  assert (forall u f, futs s !! u = Some f -> (futs s ++ [Pending]) !! u = Some f) as Hold by (intros; by apply lookup_app_l_Some).
  assert (forall u f, futs s !! u = Some f -> u <> length (futs s)) as Hlt by (intros u f Hf%lookup_lt_Some; lia).
  assert (length (futs s) ∉ accepted s) as Hfresh.
  { rewrite Hs. intros [Hin|Hin]%elem_of_app.
    - destruct (Ht _ Hin) as [Hf|[j Hf]]; [|apply Hh in Hf as [_ Hf]]; by apply Hlt in Hf.
    - by apply Hq, Hlt in Hin. }
  assert (forall j b, ks !! j <> Some (Some (length (futs s), b))) as Hnk.
  { intros j [] Hj; [by apply Hkt in Hj|]. apply Hkf in Hj as [_ Hf]. by apply Hlt in Hf. }
  constructor; simpl; try done.
  - intros j u Hj. destruct (Hh _ _ Hj). auto.
  - intros u Hin. destruct (Ht _ Hin); auto.
  - auto.
  - intros j u Hj. updated. by eapply Hkt.
  - intros j u Hj. updated.
    + split; [done|]. by apply list_lookup_middle.
    + destruct (Hkf _ _ Hj). auto.
  - intros j k u b b' Hj Hk. updated; try done.
    + by apply Hnk in Hj.
    + by apply Hnk in Hk.
    + by eapply Hku.
  - intros u Hf. updated. by apply Hr.
  - intros u Hf. updated. by apply Hb.
  - intros u Hf. updated.
    + destruct (Hp u Hf) as [?|[?|?]]; [by left|by right; left|right; right; by eapply still].
    + right; right. by eapply now_has.
Qed.

Lemma acc_put s hs ks i t : acc s hs ks -> ks !! i = Some (Some (t, false)) -> (length (queue s) < task_queue_size_)%nat ->
  acc (mkSh (stop_ s) (queue s ++ [t]) (futs s) (accepted s ++ [t]) (started s)) hs (<[i := Some (t, true)]> ks).
Proof.
  intros [Hs Hn Hl Hh Hu Ht Hq Hkt Hkf Hku Hr Hb Hp] Hi Hlen. destruct (Hkf _ _ Hi) as [Hni Hpe].
  constructor; simpl; try done.
  - by rewrite Hs, app_assoc.
  - apply NoDup_app. split; [done|]. split; [|apply NoDup_singleton]. intros u Hin ->%list_elem_of_singleton. done.
  - rewrite length_app. simpl. lia.
  - intros u [Hin| ->%list_elem_of_singleton]%elem_of_app; auto.
  - intros j u Hj. apply elem_of_app. updated; [right; by apply list_elem_of_singleton|left; by eapply Hkt].
  - intros j u Hj. updated. destruct (Hkf _ _ Hj). split; [|done].
    intros [?| ->%list_elem_of_singleton]%elem_of_app; [done|]. by pose proof (Hku _ _ _ _ _ Hi Hj).
  - intros j k u b b' Hj Hk. updated; try done; by eapply Hku.
  - intros u Hf [?| ->%list_elem_of_singleton]%elem_of_app; [by eapply Hb|congruence].
  - intros u Hf. destruct (decide (u = t)) as [->|Hne].
    + left. apply elem_of_app. right. by apply list_elem_of_singleton.
    + destruct (Hp u Hf) as [?|[?|?]]; [left; by apply elem_of_app; left|by right; left|right; right].
      eapply still; [exact Hi| |done]. congruence.
Qed.

Lemma acc_return s hs ks i t : acc s hs ks -> ks !! i = Some (Some (t, true)) -> acc s hs (<[i := None]> ks).
Proof.
  intros [Hs Hn Hl Hh Hu Ht Hq Hkt Hkf Hku Hr Hb Hp] Hi. constructor; try done.
  - intros j u Hj. updated. by eapply Hkt.
  - intros j u Hj. updated. by eapply Hkf.
  - intros j k u b b' Hj Hk. updated. by eapply Hku.
  - intros u Hf. destruct (Hp u Hf) as [?|[?|?]]; [by left|by right; left|right; right; by eapply still].
Qed.

Lemma acc_break s hs ks i t : acc s hs ks -> ks !! i = Some (Some (t, false)) ->
  acc (with_futs (<[t := Broken]> (futs s)) s) hs (<[i := None]> ks).
Proof.
  intros [Hs Hn Hl Hh Hu Ht Hq Hkt Hkf Hku Hr Hb Hp] Hi. destruct (Hkf _ _ Hi) as [Hni Hpe].
  assert (forall u f, u <> t -> futs s !! u = Some f -> <[t:=Broken]> (futs s) !! u = Some f) as Hoth.
  { intros u f Hne Hf. by rewrite list_lookup_insert_ne. }
  assert (t ∉ started s /\ t ∉ queue s) as [Hns Hnq] by (rewrite Hs in Hni; by apply not_elem_of_app in Hni).
  constructor; simpl; try done.
  - intros j u Hj. destruct (Hh _ _ Hj). split; [done|]. apply Hoth; [|done]. by intros ->.
  - intros u Hin. destruct (Ht u Hin) as [?|?]; [left|by right]. apply Hoth; [|done]. by intros ->.
  - intros u Hin. apply Hoth; [|by apply Hq]. by intros ->.
  - intros j u Hj. updated. by eapply Hkt.
  - intros j u Hj. updated. destruct (Hkf _ _ Hj). split; [done|]. apply Hoth; [|done].
    intros ->. by rewrite (Hku _ _ _ _ _ Hi Hj) in *.
  - intros j k u b b' Hj Hk. updated. by eapply Hku.
  - intros u Hf. updated. by apply Hr.
  - intros u Hf. updated; [done|by apply Hb].
  - intros u Hf. updated. destruct (Hp u Hf) as [?|[?|?]]; [by left|by right; left|right; right].
    eapply still; [exact Hi| |done]. congruence.
Qed.

(** ** The tasks of a reachable state *)

Definition tasks_ok (s : TM) : Prop :=
  acc (sh s) (has <$> routines s) (carries <$> callers s) /\ Forall cont_ok (routines s).

(** Flags and stops do not touch what a routine is doing. *)
Lemma alter_has (f : RT -> RT) k rs : (forall r, pc (f r) = pc r /\ cont (f r) = cont r) ->
  has <$> alter f k rs = has <$> rs /\ (Forall cont_ok rs -> Forall cont_ok (alter f k rs)).
Proof.
  intros Hf. split.
  - apply list_eq. intros j. rewrite !list_lookup_fmap. destruct (decide (j = k)) as [->|Hne].
    + rewrite list_lookup_alter_eq. destruct (rs !! k) as [r|]; simpl; [|done]. unfold has. by destruct (Hf r) as [-> ->].
    + by rewrite list_lookup_alter_ne.
  - intros HF. apply Forall_alter; [done|]. intros r _. unfold cont_ok. by destruct (Hf r) as [-> ->].
Qed.

Lemma tasks_rmove s rs ks i r s' r' : rs !! i = Some r -> acc s (has <$> rs) ks -> rmove s (has r) s' (has r') ->
  acc s' (has <$> <[i := r']> rs) ks.
Proof.
  intros Hi Ha Hm. rewrite list_fmap_insert.
  assert ((has <$> rs) !! i = Some (has r)) as Hh by (by rewrite list_lookup_fmap, Hi).
  inversion Hm as [o E1 E2 E3|t q Eq E1 E2 E3|t E1 E2 E3]; subst.
  - by rewrite E3 in *; rewrite list_insert_id.
  - rewrite <- E1 in Hh. by apply acc_take.
  - rewrite <- E1 in Hh. by apply acc_finish.
Qed.

Lemma tasks_cmove s hs ps i p s' p' : ps !! i = Some p -> acc s hs (carries <$> ps) -> cmove s (carries p) s' (carries p') ->
  acc s' hs (carries <$> <[i := p']> ps).
Proof.
  intros Hi Ha Hm. rewrite list_fmap_insert.
  assert ((carries <$> ps) !! i = Some (carries p)) as Hh by (by rewrite list_lookup_fmap, Hi).
  inversion Hm as [o E1 E2 E3|E1 E2 E3|t Hl E1 E2 E3|t E1 E2 E3|t E1 E2 E3]; subst.
  - by rewrite E3 in *; rewrite list_insert_id.
  - rewrite <- E1 in Hh. by apply acc_new.
  - rewrite <- E1 in Hh. by apply acc_put.
  - rewrite <- E1 in Hh. by eapply acc_return.
  - rewrite <- E1 in Hh. by apply acc_break.
Qed.

Lemma cstep_routines s rs p s' rs' p' : cstep s rs p = (s', rs', p') -> rs' = rs \/ exists k, rs' = alter flag_rt k rs.
Proof. unfold cstep. destruct p; intros E; repeat (case_match || case_bool_decide); simplify_eq/=; eauto. Qed.

Lemma shut_routines s rs p s' rs' p' : shut_step s rs p = Some (s', rs', p') ->
  queue s' = queue s /\ futs s' = futs s /\ accepted s' = accepted s /\ started s' = started s /\
  (rs' = rs \/ exists k, rs' = alter stop_rt k rs \/ rs' = alter erase_rt k rs).
Proof. unfold shut_step. destruct p; intros E; repeat (case_match || case_bool_decide); simplify_eq/=; eauto 10. Qed.

Lemma acc_ext s s' hs ks : queue s' = queue s -> futs s' = futs s -> accepted s' = accepted s -> started s' = started s ->
  acc s hs ks -> acc s' hs ks.
Proof.
  intros E1 E2 E3 E4 []. by constructor; rewrite ?E1, ?E2, ?E3, ?E4.
Qed.

Lemma tasks_step a s s' : tasks_ok s -> tstep a s = Some s' -> tasks_ok s'.
Proof.
  intros [Ha HF] Hs. destruct a as [i ch|i|]; simpl in Hs.
  - destruct (routines s !! i) as [r|] eqn:Ei; simpl in Hs; [|done].
    destruct (rstep ch (sh s) r) as [[s1 r1]|] eqn:E; simplify_eq/=.
    destruct (rstep_moves _ _ _ _ _ E (Forall_lookup_1 _ _ _ _ HF Ei)) as [Hc Hm].
    split; simpl; [by eapply tasks_rmove|by apply Forall_insert].
  - destruct (callers s !! i) as [p|] eqn:Ei; simpl in Hs; [|done].
    destruct (cstep (sh s) (routines s) p) as [[s1 rs] p1] eqn:E; simplify_eq/=.
    pose proof (cstep_moves _ _ _ _ _ _ E) as Hm.
    destruct (cstep_routines _ _ _ _ _ _ E) as [-> |[k ->]]; split; simpl; try done; try by eapply tasks_cmove.
    + rewrite (proj1 (alter_has flag_rt k (routines s) ltac:(done))). by eapply tasks_cmove.
    + by apply (alter_has flag_rt k).
  - destruct (shut_step (sh s) (routines s) (shut s)) as [[[s1 rs] p1]|] eqn:E; simplify_eq/=.
    destruct (shut_routines _ _ _ _ _ _ E) as (E1 & E2 & E3 & E4 & [-> |[k [-> | ->]]]); split; simpl; try done;
      try (by eapply acc_ext); try (by apply alter_has).
    + rewrite (proj1 (alter_has stop_rt k (routines s) ltac:(done))). by eapply acc_ext.
    + rewrite (proj1 (alter_has erase_rt k (routines s) ltac:(done))). by eapply acc_ext.
Qed.

Lemma tsteps_app l l' s : tsteps (l ++ l') s = tsteps l s ≫= tsteps l'.
Proof.
  revert s. induction l as [|a l IH]; intros s; [done|]. simpl. destruct (tstep a s) as [s1|]; simpl; [apply IH|done].
Qed.

Lemma tsteps_ind (P : TM -> Prop) l s s' : (forall a s s', P s -> tstep a s = Some s' -> P s') ->
  P s -> tsteps l s = Some s' -> P s'.
Proof.
  intros HP. revert s. induction l as [|a l IH]; intros s Hs E; simpl in E; [by simplify_eq|].
  destruct (tstep a s) as [s1|] eqn:Ea; [|done]. by eapply IH, E; eapply HP.
Qed.

Lemma tasks_init now n m : tasks_ok (NewTM now n m).
Proof.
  split; [|by apply Forall_replicate].
  assert (forall i o, (carries <$> replicate m CIdle) !! i = Some o -> o = None) as Hk.
  { intros i o. rewrite fmap_replicate. by intros [-> _]%lookup_replicate. }
  assert (forall i o, (has <$> replicate n (NewRT now)) !! i = Some o -> o = None) as Hh.
  { intros i o. rewrite fmap_replicate. by intros [-> _]%lookup_replicate. }
  constructor; simpl; try done; try (intros ? ? E%Hk; done); try (intros ? ? E%Hh; done).
  - constructor.
  - unfold task_queue_size_. lia.
  - intros ? ? ? E%Hh. done.
  - by intros t ?%elem_of_nil.
  - by intros t ?%elem_of_nil.
  - intros ? ? ? ? ? E%Hk. done.
Qed.

Lemma tasks_reachable s : reachable s -> tasks_ok s.
Proof. intros (now & n & m & l & E). eapply tsteps_ind; [apply tasks_step|apply tasks_init|exact E]. Qed.

(** In every reachable state, for any number of callers and routines, with or
    without Shutdown: the queue holds at most 1000 tasks, tasks are started in
    the order in which the queue accepted them and none twice, no two routines are
    in the same task, and a future is exactly what its task has come to: ready when the
    task was started and no routine is in it any more, broken only when the queue
    never accepted it, and pending when the task is queued, in a routine, or
    still in the hands of its caller. *)
Theorem async_tasks_run_once_in_order s : reachable s ->
  accepted (sh s) = started (sh s) ++ queue (sh s) /\ NoDup (accepted (sh s)) /\
  (length (queue (sh s)) <= task_queue_size_)%nat /\
  (forall i j r r' t, routines s !! i = Some r -> routines s !! j = Some r' -> has r = Some t -> has r' = Some t -> i = j) /\
  (forall t f, futs (sh s) !! t = Some f ->
     match f with
     | Ready => t ∈ started (sh s) /\ forall i r, routines s !! i = Some r -> has r <> Some t
     | Broken => t ∉ accepted (sh s)
     | Pending => t ∈ queue (sh s) \/ (exists i r, routines s !! i = Some r /\ has r = Some t) \/
         exists i p, callers s !! i = Some p /\ carries p = Some (t, false)
     end).
Proof.
  intros [[Hs Hn Hl Hh Hu Ht Hq Hkt Hkf Hku Hr Hb Hp] _]%tasks_reachable.
  assert (forall i r t, routines s !! i = Some r -> has r = Some t -> (has <$> routines s) !! i = Some (Some t)) as Hlook.
  { intros i r t Hi E. by rewrite list_lookup_fmap, Hi; simpl; rewrite E. }
  repeat split; try done.
  - intros i j r r' t Hi Hj E E'. eapply Hu; eauto.
  - intros t [] Hf; [|split|by apply Hb].
    + destruct (Hp t Hf) as [?|[[i Hi]|[i Hi]]]; [by left|right; left|right; right].
      * apply list_lookup_fmap_Some in Hi as (r & E & Hi). by exists i, r.
      * apply list_lookup_fmap_Some in Hi as (p & E & Hi). by exists i, p.
    + by apply Hr.
    + intros i r Hi E. destruct (Hh i t (Hlook _ _ _ Hi E)). congruence.
Qed.

(** ** Waking the routines *)

(** The routine found the queue empty and has not yet said that it waits: a
    caller that looks at it now does not notify it. *)
Definition in_window (a : actor) (s : TM) : bool :=
  match a with
  | Caller i =>
      match callers s !! i with
      | Some (CNotify _ _ k) => match routines s !! k with Some r => bool_decide (pc r = Hang) | None => false end
      | _ => false
      end
  | _ => false
  end.

(** An execution in which no caller does that. *)
Fixpoint careful (l : list actor) (s : TM) : bool :=
  match l with
  | [] => true
  | a :: l => negb (in_window a s) && match tstep a s with Some s' => careful l s' | None => true end
  end.

(** The caller will still look at routine [i]. *)
Definition will_look (i : nat) (p : cpc) : Prop :=
  match p with CNotify _ _ k | CFlag _ _ k => (k <= i)%nat | _ => False end.

(** A routine of a running manager. *)
Record live (r : RT) : Prop := mkLive {
  l_reg : reg r = true;
  l_queued : queued r = true;
  l_stop : force_stop_ (rc r) = false;
  l_lock : lock_ (rc r) = negb (bool_decide (pc r = Free));
  l_state : state_ (rc r) = READY \/ state_ (rc r) = DATA_WAIT \/ state_ (rc r) = SLEEP;
  l_body : match pc r with Resumed | Loop | Deq | Running _ | Hang => state_ (rc r) = READY | _ => True end
}.

(** A routine that will look into the queue, or that [looked] at by a caller. *)
Definition serves (looked : Prop) (r : RT) : Prop :=
  looked \/ updated_ (rc r) = false \/ pc r = Woken \/ (state_ (rc r) <> DATA_WAIT /\ pc r <> Hang).

Record awake (s : TM) : Prop := mkAwake {
  w_stop : stop_ (sh s) = false;
  w_live : Forall live (routines s);
  w_serves i r : routines s !! i = Some r -> queue (sh s) <> [] ->
    serves (exists j p, callers s !! j = Some p /\ will_look i p) r
}.

Lemma rstep_live ch s r s' r' : live r -> stop_ s = false -> rstep ch s r = Some (s', r') ->
  live r' /\ stop_ s' = false /\ (queue s' <> [] -> queue s <> []) /\
  forall P, queue s <> [] -> serves P r -> serves P r'.
Proof.
  intros [Hg Hq Hf Hl Hst Hb] Hs. unfold rstep, body_step.
  destruct r as [c p o g q], p; destruct ch; simpl in *; intros E; try done;
    repeat (case_bool_decide || case_match); simplify_eq/=.
  all: split; [constructor; simpl; auto; try done; try (by destruct y; simpl in *; auto)|].
  all: split; [done|]; split; [done|]; unfold serves; simpl; try tauto.
  all: try destruct y; simpl in *; try done; intros P _ [?|[?|[?|[? ?]]]]; auto 6; try congruence.
  all: right; right; right; split; congruence.
Qed.

Lemma serves_mono (P Q : Prop) r : (P -> Q) -> serves P r -> serves Q r.
Proof. unfold serves. tauto. Qed.

(** The other callers still look at routine [i] after caller [j] has moved. *)
Lemma look_insert (ps : list cpc) j p p' i : ps !! j = Some p ->
  (will_look i p -> will_look i p') ->
  (exists k q, ps !! k = Some q /\ will_look i q) -> exists k q, <[j := p']> ps !! k = Some q /\ will_look i q.
Proof.
  intros Hj Hw (k & q & Hk & Hq). destruct (decide (k = j)) as [->|Hne].
  - simplify_eq. exists j, p'. split; [|auto]. apply list_lookup_insert_eq. by eapply lookup_lt_Some.
  - exists k, q. by rewrite list_lookup_insert_ne.
Qed.

Lemma flag_live r : live r -> live (flag_rt r).
Proof. intros []. by constructor. Qed.

Lemma awake_caller s j p s' rs p' : awake s -> callers s !! j = Some p -> in_window (Caller j) s = false ->
  cstep (sh s) (routines s) p = (s', rs, p') -> awake (mkTM s' rs (<[j := p']> (callers s)) (shut s)).
Proof.
  intros [Hs Hl Hv] Hj Hw E. simpl in Hw. rewrite Hj in Hw. rewrite Forall_lookup in Hl.
  destruct p as [|t|t|t own k|t own k|t own]; simpl in E.
  - simplify_eq. constructor; simpl; [done|by apply Forall_lookup|]. intros i r Hi Hq.
    eapply serves_mono; [|by apply Hv]. by apply (look_insert _ j CIdle).
  - simplify_eq. constructor; simpl; [done|by apply Forall_lookup|]. intros i r Hi Hq.
    eapply serves_mono; [|by apply Hv]. by apply (look_insert _ j (CHas t)).
  - case_bool_decide; simplify_eq; constructor; simpl; try done; try (by apply Forall_lookup); intros i r Hi Hq.
    all: left; exists j; eexists; split; [apply list_lookup_insert_eq; by eapply lookup_lt_Some|simpl; lia].
  - destruct (routines s !! k) as [rk|] eqn:Ek; simplify_eq; constructor; simpl; try done; try (by apply Forall_lookup);
      intros i r Hi Hq; specialize (Hv i r Hi Hq).
    + case_bool_decide as Hh; [done|]. destruct (reg rk && _) eqn:Ed.
      * eapply serves_mono; [|exact Hv]. by apply (look_insert _ j (CNotify t own k)).
      * destruct (decide (i = k)) as [->|Hne].
        -- simplify_eq. right; right; right. split; [|done]. destruct (Hl _ _ Ek) as [Hg _ _ _ _ _].
           rewrite Hg in Ed. by apply bool_decide_eq_false in Ed.
        -- eapply serves_mono; [|exact Hv]. apply (look_insert _ j (CNotify t own k)); [done|]. simpl. lia.
    + eapply serves_mono; [|exact Hv]. apply (look_insert _ j (CNotify t own k)); [done|]. simpl.
      apply lookup_ge_None in Ek. apply lookup_lt_Some in Hi. lia.
  - simplify_eq. constructor; simpl; [done| |].
    + apply Forall_alter; [by apply Forall_lookup|]. intros r _. apply flag_live.
    + intros i r Hi Hq. destruct (decide (i = k)) as [->|Hne].
      * rewrite list_lookup_alter_eq in Hi. apply fmap_Some in Hi as (r0 & _ & ->). by right; left.
      * rewrite list_lookup_alter_ne in Hi by done. eapply serves_mono; [|by apply Hv].
        apply (look_insert _ j (CFlag t own k)); [done|]. simpl. lia.
  - simplify_eq. constructor; simpl; [by destruct own|by apply Forall_lookup|]. intros i r Hi Hq.
    eapply serves_mono; [|apply Hv; [done|by destruct own]]. by apply (look_insert _ j (CRet t own)).
Qed.

Lemma awake_step a s s' : awake s -> in_window a s = false -> shut s' = SIdle -> tstep a s = Some s' -> awake s'.
Proof.
  intros Ha Hw Hsh Hs. destruct a as [i ch|i|]; simpl in Hs.
  - destruct (routines s !! i) as [r|] eqn:Ei; simpl in Hs; [|done].
    destruct (rstep ch (sh s) r) as [[s1 r1]|] eqn:E; simplify_eq/=. destruct Ha as [Hst Hl Hv].
    destruct (rstep_live _ _ _ _ _ (Forall_lookup_1 _ _ _ _ Hl Ei) Hst E) as (Hl1 & Hst1 & Hq & Hs1).
    constructor; simpl; [done|by apply Forall_insert|]. intros j r' Hj Hne.
    apply list_lookup_insert_Some in Hj as [(-> & -> & _)|[Hn Hj]]; auto.
  - destruct (callers s !! i) as [p|] eqn:Ei; [|done]. simpl in Hs.
    destruct (cstep (sh s) (routines s) p) as [[s1 rs] p1] eqn:E; simplify_eq. by eapply awake_caller.
  - destruct (shut s); simpl in Hs; repeat (case_bool_decide || case_match); by simplify_eq/=.
Qed.

(** Shutdown does not go back. *)
Lemma shut_stays a s s' : tstep a s = Some s' -> shut s' = SIdle -> shut s = SIdle.
Proof.
  intros Hs Hsh. destruct a as [i ch|i|]; simpl in Hs.
  - destruct (routines s !! i) as [r|]; simpl in Hs; [|done]. by destruct (rstep ch (sh s) r) as [[? ?]|]; simplify_eq/=.
  - destruct (callers s !! i) as [p|]; [|done]. simpl in Hs. by destruct (cstep _ _ p) as [[? ?] ?]; simplify_eq/=.
  - destruct (shut s); simpl in Hs; repeat (case_bool_decide || case_match); by simplify_eq/=.
Qed.

Lemma careful_awake l s s' : (shut s = SIdle -> awake s) -> careful l s = true -> tsteps l s = Some s' ->
  shut s' = SIdle -> awake s'.
Proof.
  revert s. induction l as [|a l IH]; intros s Ha Hc Hs Hsh; simpl in *; [simplify_eq; auto|].
  apply andb_prop in Hc as [Hw Hc]. destruct (tstep a s) as [s1|] eqn:E; [|done]. simpl in Hs.
  apply (IH s1); try done. intros Hsh1. eapply awake_step; [|by apply negb_true_iff|done|exact E].
  apply Ha. by eapply shut_stays.
Qed.

Lemma awake_init now n m : awake (NewTM now n m).
Proof.
  constructor; simpl; [done| |done]. apply Forall_replicate. constructor; simpl; auto.
Qed.

(** ** Running a queued task *)

Fixpoint rsteps (l : list choice) (s : Sh) (r : RT) : option (Sh * RT) :=
  match l with [] => Some (s, r) | ch :: l => '(s', r') ← rstep ch s r; rsteps l s' r' end.

(** The routine's own steps start the next task of the queue. *)
Definition starts (t : task) (s : Sh) (r : RT) : Prop :=
  exists l s' r', rsteps l s r = Some (s', r') /\ started s' = started s ++ [t].

Lemma starts_step t ch s r s' r' : rstep ch s r = Some (s', r') -> started s' = started s -> starts t s' r' -> starts t s r.
Proof.
  intros E Es (l & s2 & r2 & El & Est). exists (ch :: l), s2, r2. simpl. rewrite E. simpl. split; [done|congruence].
Qed.

Section starting.
Variables (t : task) (q : list task).
Implicit Types (s : Sh) (r : RT).
Definition ready_to s r : Prop := stop_ s = false /\ queue s = t :: q /\ live r.

(** Take one step and keep what is known of the routine. *)
Lemma starts_via ch s r s' r' : ready_to s r -> rstep ch s r = Some (s', r') -> queue s' = queue s -> started s' = started s ->
  (ready_to s' r' -> starts t s' r') -> starts t s r.
Proof.
  intros (Hs & Hq & Hl) E Eq Es Hn. eapply starts_step; [exact E|done|]. apply Hn.
  destruct (rstep_live _ _ _ _ _ Hl Hs E) as (Hl' & Hs' & _). split; [done|]. split; [congruence|done].
Qed.

Lemma starts_deq s r : ready_to s r -> pc r = Deq -> starts t s r.
Proof.
  intros (Hs & Hq & Hl) Hp. exists [Go]. simpl. unfold rstep, body_step. rewrite Hp, Hq. eexists _, _. by split.
Qed.

Lemma starts_loop s r : ready_to s r -> pc r = Loop -> starts t s r.
Proof.
  intros Hr Hp. pose proof Hr as (Hs & _).
  eapply (starts_via Go); [exact Hr|unfold rstep, body_step; by rewrite Hp, Hs|done|done|].
  intros Hr'. by apply starts_deq.
Qed.

Lemma starts_running s r u : ready_to s r -> pc r = Running u -> starts t s r.
Proof.
  intros Hr Hp. eapply (starts_via Go); [exact Hr|unfold rstep, body_step; by rewrite Hp|done|done|].
  intros Hr'. by apply starts_loop.
Qed.

Lemma starts_resumed s r : ready_to s r -> pc r = Resumed -> starts t s r.
Proof.
  intros Hr Hp. pose proof Hr as (_ & _ & [_ _ Hf _ _ _]).
  eapply (starts_via Go); [exact Hr|unfold rstep; by rewrite Hp, Hf|done|done|].
  intros Hr'. destruct (cont r) as [u|]; [by eapply starts_running|by apply starts_loop].
Qed.

Lemma starts_decide s r : ready_to s r -> pc r = Decide -> state_ (rc r) = READY -> starts t s r.
Proof.
  intros Hr Hp He. eapply (starts_via Go); [exact Hr|unfold rstep; by rewrite Hp, He|done|done|].
  intros Hr'. by apply starts_resumed.
Qed.

(** The flag was clear: whatever the routine waits for, it becomes ready. *)
Lemma starts_woken s r : ready_to s r -> pc r = Woken -> state_ (rc r) <> SLEEP -> starts t s r.
Proof.
  intros Hr Hp Hns. eapply (starts_via Go); [exact Hr|unfold rstep; by rewrite Hp|done|done|].
  intros Hr'. apply starts_decide; [done|done|]. destruct Hr as (_ & _ & [_ _ _ _ [E|[E|E]] _]); simpl; rewrite E; done.
Qed.

Lemma starts_update s r : ready_to s r -> pc r = Update -> state_ (rc r) <> SLEEP ->
  state_ (rc r) = READY \/ updated_ (rc r) = false -> starts t s r.
Proof.
  intros Hr Hp Hns Hw. eapply (starts_via Go); [exact Hr|unfold rstep; by rewrite Hp|done|done|].
  intros Hr'. destruct (updated_ (rc r)); [|by apply starts_woken]. destruct Hw; [by apply starts_decide|done].
Qed.

(** A sleeping routine wakes up when the clock has passed its time. *)
Lemma starts_waking s r : ready_to s r -> pc r = Waking ->
  state_ (rc r) <> DATA_WAIT \/ updated_ (rc r) = false -> starts t s r.
Proof.
  intros Hr Hp Hw. pose proof Hr as (_ & _ & [_ _ _ _ Hst _]).
  destruct (decide (state_ (rc r) = SLEEP)) as [Hsl|Hsl].
  - eapply (starts_via (Clock (wake_time_ (rc r) + 1))); [exact Hr| |..].
    + unfold rstep. rewrite Hp, Hsl, (proj2 (Z.ltb_lt _ _)) by lia. reflexivity.
    + done.
    + done.
    + intros Hr'. by apply starts_decide.
  - eapply (starts_via (Clock 0)); [exact Hr|unfold rstep; rewrite Hp, bool_decide_false by done; reflexivity|done|done|].
    intros Hr'. apply starts_update; [done|done|done|simpl; naive_solver].
Qed.

Lemma starts_free s r : ready_to s r -> pc r = Free ->
  state_ (rc r) <> DATA_WAIT \/ updated_ (rc r) = false -> starts t s r.
Proof.
  intros Hr Hp Hw. pose proof Hr as (_ & _ & [_ Hq _ Hl _ _]). rewrite Hp in Hl.
  eapply (starts_via Go); [exact Hr|unfold rstep, Acquire; by rewrite Hp, Hq, Hl|done|done|].
  intros Hr'. by apply starts_waking.
Qed.

Lemma starts_back s r : ready_to s r -> pc r = Back ->
  state_ (rc r) <> DATA_WAIT \/ updated_ (rc r) = false -> starts t s r.
Proof.
  intros Hr Hp Hw. eapply (starts_via Go); [exact Hr|unfold rstep; by rewrite Hp|done|done|].
  intros Hr'. by apply starts_free.
Qed.

(** A routine that is not ready is released, and found again. *)
Lemma starts_decide_any s r : ready_to s r -> pc r = Decide ->
  state_ (rc r) <> DATA_WAIT \/ updated_ (rc r) = false -> starts t s r.
Proof.
  intros Hr Hp Hw. destruct (decide (state_ (rc r) = READY)) as [|Hne]; [by apply starts_decide|].
  eapply (starts_via Go); [exact Hr|unfold rstep; rewrite Hp, bool_decide_false by done; reflexivity|done|done|].
  intros Hr'. by apply starts_free.
Qed.

Lemma starts_serving s r : ready_to s r -> serves False r -> starts t s r.
Proof.
  intros Hr Hv. pose proof Hr as (_ & _ & [_ _ _ _ Hst Hb]).
  assert (pc r <> Woken -> state_ (rc r) <> DATA_WAIT \/ updated_ (rc r) = false) as Hw by (unfold serves in Hv; tauto).
  destruct (pc r) as [| | | | | | | |u| |] eqn:Hp.
  - apply starts_free; auto.
  - apply starts_waking; auto.
  - destruct (decide (state_ (rc r) = SLEEP)) as [Hs|Hs].
    + eapply (starts_via Go); [exact Hr|unfold rstep; by rewrite Hp|done|done|]. intros Hr'.
      destruct (updated_ (rc r)); [apply starts_decide_any; [done|done|left; simpl; by rewrite Hs]|].
      eapply (starts_via Go); [exact Hr'|done|done|done|]. intros Hr2.
      apply starts_decide_any; [done|done|left; simpl; rewrite Hs; simpl; by rewrite Hs].
    + apply starts_update; [done..|]. destruct Hw as [?|?]; [done| |auto]. left. naive_solver.
  - eapply (starts_via Go); [exact Hr|unfold rstep; by rewrite Hp|done|done|]. intros Hr'.
    apply starts_decide_any; [done|done|]. left. simpl. by destruct Hst as [E|[E|E]]; rewrite E; simpl; rewrite ?E.
  - apply starts_decide_any; auto.
  - by apply starts_resumed.
  - by apply starts_loop.
  - by apply starts_deq.
  - by eapply starts_running.
  - eapply (starts_via Go); [exact Hr|unfold rstep, body_step; by rewrite Hp|done|done|]. intros Hr'.
    apply starts_back; [done|done|]. right. simpl. unfold serves in Hv. rewrite Hp in Hv. naive_solver.
  - apply starts_back; auto.
Qed.
End starting.

Lemma rsteps_tsteps i l s r s' r' : routines s !! i = Some r -> rsteps l (sh s) r = Some (s', r') ->
  tsteps (Routine i <$> l) s = Some (mkTM s' (<[i := r']> (routines s)) (callers s) (shut s)).
Proof.
  revert s r. induction l as [|ch l IH]; intros s r Hi E; simpl in *.
  - simplify_eq. rewrite list_insert_id by done. by destruct s.
  - rewrite Hi. simpl. destruct (rstep ch (sh s) r) as [[s1 r1]|] eqn:E1; [|done]. simpl in *.
    rewrite (IH _ r1); simpl; [by rewrite list_insert_insert_eq| |done].
    apply list_lookup_insert_eq. by eapply lookup_lt_Some.
Qed.

(** C18. No task is forgotten before shutdown: for any number of callers and
    routines, when no shutdown has begun and no caller has looked at a routine
    between its failed Dequeue and its HangUp, a task is queued and no caller still
    has to look at some routine of the pool, the steps of that routine alone start
    the task, whatever the routine was doing; tasks may yield and sleep meanwhile. *)
Theorem queued_task_is_started now n m l s i r t q :
  tsteps l (NewTM now n m) = Some s -> careful l (NewTM now n m) = true -> shut s = SIdle ->
  queue (sh s) = t :: q -> routines s !! i = Some r -> (forall j p, callers s !! j = Some p -> ~ will_look i p) ->
  exists l' s', tsteps (Routine i <$> l') s = Some s' /\ started (sh s') = started (sh s) ++ [t].
Proof.
  intros E Hc Hsh Hq Hi Hno.
  destruct (careful_awake _ _ _ (fun _ => awake_init now n m) Hc E Hsh) as [Hs Hl Hv].
  destruct (starts_serving t q (sh s) r) as (l' & s' & r' & El & Est).
  - split; [done|]. split; [done|]. by eapply Forall_lookup_1.
  - eapply serves_mono; [|apply (Hv i r Hi); by rewrite Hq]. intros (j & p & Hj & Hp). by apply (Hno j p).
  - eexists l', _. split; [by apply (rsteps_tsteps i l' s r s' r')|done].
Qed.

(** ** Examples *)

(** A routine is run until it has hung up; a caller puts a task into the queue. *)
Definition to_deq : list actor := [Routine 0 Go; Routine 0 (Clock 0); Routine 0 Go; Routine 0 Go; Routine 0 Go; Routine 0 Go].
Definition hang_up : list actor := [Routine 0 Go; Routine 0 Go; Routine 0 Go].
Definition submit : list actor := [Caller 0; Caller 0; Caller 0; Caller 0; Caller 0; Caller 0].
Definition idle_then_submit : list actor := to_deq ++ hang_up ++ submit.

Lemma queued_task_is_started_witness :
  exists s l' s', tsteps idle_then_submit (NewTM 0 1 1) = Some s /\ queue (sh s) = [0%nat] /\
    tsteps (Routine 0 <$> l') s = Some s' /\ started (sh s') = [0%nat].
Proof.
  destruct (tsteps idle_then_submit (NewTM 0 1 1)) as [s|] eqn:E; [|vm_compute in E; discriminate].
  pose proof E as E'. vm_compute in E'. injection E' as E'.
  destruct (queued_task_is_started 0 1 1 idle_then_submit s 0 (default (NewRT 0) (routines s !! 0%nat)) 0%nat []) as (l' & s' & H1 & H2);
    rewrite <- E' in *; try reflexivity.
  - intros [|j] p Hj; simpl in Hj; [injection Hj as <-; exact id|destruct j; discriminate].
  - eexists _, l', s'. split; [reflexivity|]. split; [reflexivity|]. split; [exact H1|exact H2].
Defined.

Lemma async_tasks_run_once_in_order_witness :
  exists s, reachable s /\ queue (sh s) = [0%nat] /\ accepted (sh s) = started (sh s) ++ queue (sh s).
Proof.
  destruct (tsteps idle_then_submit (NewTM 0 1 1)) as [s|] eqn:E; [|vm_compute in E; discriminate].
  assert (reachable s) as Hr by (exists 0, 1%nat, 1%nat, idle_then_submit; exact E).
  exists s. split; [exact Hr|]. split; [vm_compute in E; by injection E as <-|].
  exact (proj1 (async_tasks_run_once_in_order s Hr)).
Defined.

(** A waiting routine nobody has flagged. *)
Definition asleep (r : RT) : Prop :=
  match pc r with Free | Waking | Update | Decide => True | _ => False end /\
  state_ (rc r) = DATA_WAIT /\ updated_ (rc r) = true.

Lemma asleep_step ch s r s' r' : asleep r -> rstep ch s r = Some (s', r') -> s' = s /\ asleep r'.
Proof.
  intros (Hp & Hs & Hu). unfold rstep, body_step. destruct r as [c p o g q], p; destruct ch; simpl in *; try done;
    rewrite ?Hs, ?Hu; intros E; repeat case_match; by simplify_eq/=.
Qed.

(** The window: the routine finds the queue empty, a caller puts a task into the queue
    and sees a routine that does not wait for data, and the routine hangs up.
    The task stays in the queue with every thread at rest, and no processor
    starts it until somebody calls Enqueue again. *)
Theorem async_task_can_be_stranded :
  exists s, reachable s /\ queue (sh s) = [0%nat] /\ futs (sh s) = [Pending] /\ callers s = [CIdle] /\ shut s = SIdle /\
    forall l s', tsteps ((fun '(i, ch) => Routine i ch) <$> l) s = Some s' -> started (sh s') = [].
Proof.
  destruct (tsteps (to_deq ++ [Routine 0 Go] ++ submit ++ [Routine 0 Go; Routine 0 Go]) (NewTM 0 1 1)) as [s|] eqn:E;
    [|vm_compute in E; discriminate].
  exists s. split; [by exists 0, 1%nat, 1%nat; eexists|]. vm_compute in E. injection E as <-. do 4 (split; [done|]).
  intros l. set (s0 := mkTM _ _ _ _). assert (Forall asleep (routines s0) /\ started (sh s0) = []) as [Ha Hst].
  { split; [|done]. by repeat constructor. }
  clearbody s0. revert s0 Ha Hst. induction l as [|[i ch] l IH]; intros s Ha Hst s' E; simpl in E; [by simplify_eq|].
  destruct (routines s !! i) as [r|] eqn:Ei; [|done]. simpl in E.
  destruct (rstep ch (sh s) r) as [[s1 r1]|] eqn:E1; [|done]. simpl in E.
  destruct (asleep_step _ _ _ _ _ (Forall_lookup_1 _ _ _ _ Ha Ei) E1) as [-> Hr1].
  eapply IH; [..|exact E]; simpl; [by apply Forall_insert|done].
Qed.

(** Shutdown leaves queued tasks behind: once stop_ is set and no routine is at
    Dequeue, nothing is taken from the queue any more. *)
Definition abandoned (t : task) (s : TM) : Prop :=
  tasks_ok s /\ stop_ (sh s) = true /\ Forall (fun r => pc r <> Deq) (routines s) /\ t ∈ queue (sh s).

Lemma abandoned_step t a s s' : abandoned t s -> tstep a s = Some s' -> abandoned t s'.
Proof.
  intros (Ht & Hs & Hd & Hq) E. split; [by eapply tasks_step|]. destruct a as [i ch|i|]; simpl in E.
  - destruct (routines s !! i) as [r|] eqn:Ei; simpl in E; [|done].
    destruct (rstep ch (sh s) r) as [[s1 r1]|] eqn:E1; simplify_eq/=.
    assert (pc r <> Deq) as Hr by (by eapply (Forall_lookup_1 (fun r => pc r <> Deq))).
    assert (stop_ s1 = true /\ queue s1 = queue (sh s) /\ pc r1 <> Deq) as (H1 & H2 & H3).
    { clear -E1 Hr Hs. unfold rstep, body_step in E1. destruct r as [c p o g q], p; destruct ch; simpl in *; try done;
        repeat (case_match || case_bool_decide); by simplify_eq/=. }
    split; [done|]. split; [by apply Forall_insert|]. simpl. by rewrite H2.
  - destruct (callers s !! i) as [p|] eqn:Ei; simpl in E; [|done].
    destruct (cstep (sh s) (routines s) p) as [[s1 rs] p1] eqn:E1; simplify_eq/=.
    assert (stop_ s1 = true /\ t ∈ queue s1) as (H1 & H2).
    { clear -E1 Hs Hq. unfold cstep in E1. destruct p; repeat (case_match || case_bool_decide); simplify_eq/=; auto.
      split; [done|]. apply elem_of_app. by left. }
    split; [done|]. split; [|done]. destruct (cstep_routines _ _ _ _ _ _ E1) as [-> |[k ->]]; [done|].
    by apply Forall_alter.
  - destruct (shut_step (sh s) (routines s) (shut s)) as [[[s1 rs] p1]|] eqn:E1; simplify_eq/=.
    destruct (shut_routines _ _ _ _ _ _ E1) as (E2 & _ & _ & _ & Hrs). split; [|split; [|by rewrite E2]].
    + clear -E1 Hs. unfold shut_step in E1. destruct (shut s); repeat (case_match || case_bool_decide); by simplify_eq/=.
    + destruct Hrs as [-> |[k [-> | ->]]]; [done|by apply Forall_alter..].
Qed.

Theorem shutdown_abandons_queued_tasks :
  exists s, reachable s /\ queue (sh s) = [0%nat] /\ shut s = SStop 1 /\
    forall l s', tsteps l s = Some s' -> futs (sh s') !! 0%nat = Some Pending.
Proof.
  destruct (tsteps (submit ++ [Shutdown; Shutdown; Shutdown]) (NewTM 0 1 1)) as [s|] eqn:E;
    [|vm_compute in E; discriminate].
  assert (reachable s) as Hr by (by exists 0, 1%nat, 1%nat; eexists).
  assert (abandoned 0 s) as Ha.
  { split; [by apply tasks_reachable|]. vm_compute in E. injection E as <-. split; [done|].
    split; [by repeat constructor|by left]. }
  exists s. split; [done|]. split; [by vm_compute in E; injection E as <-|]. split; [by vm_compute in E; injection E as <-|].
  intros l s' El. destruct (tsteps_ind (abandoned 0) _ _ _ (abandoned_step 0) Ha El) as ([Hacc _] & _ & _ & Hq).
  by apply (a_queue _ _ _ Hacc).
Qed.
