(* ===== verification/Rate.v ===== *)
(** Rate.v -- points in time, durations, and loops with a fixed rate (time/)

    A Duration is a signed and a Time an unsigned 64 bit number of nanoseconds.
    Adding a duration to a time wraps around; adding two durations outside the
    range is undefined.  A Rate lets a loop run once per cycle: Sleep waits for
    the end of the cycle that began at [start_].  Construction from and
    conversion to floating point seconds is not modelled. *)

From S2P Require Import Prelude.
From S2P Require Import Text.
Local Open Scope Z_scope.

(** ** Duration *)

(** The value of a signed 64 bit expression, if it does not overflow. *)
Definition int64 (z : Z) : option Z := if (- 2 ^ 63 <=? z) && (z <? 2 ^ 63) then Some z else None.

(** Duration(uint32_t seconds, uint32_t nanoseconds): computed unsigned *)
Definition Duration2 (seconds nanoseconds : Z) : Z := i64 (u64 (u64 (seconds * 1000000000) + nanoseconds)).
Definition Duration_add (a b : Z) : option Z := int64 (a + b).
Definition Duration_sub (a b : Z) : option Z := int64 (a - b).
Definition Duration_neg (a : Z) : option Z := int64 (- a).
Definition Duration_IsZero (a : Z) : bool := a =? 0.
Definition Duration_lt (a b : Z) : bool := a <? b.

(** ** Time *)

Definition Time_MAX : Z := 2 ^ 64 - 1.
Definition Time_MIN : Z := 1.
(** Time(int nanoseconds) *)
Definition Time1 (nanoseconds : Z) : Z := u64 nanoseconds.
(** Time(uint32_t seconds, uint32_t nanoseconds) *)
Definition Time2 (seconds nanoseconds : Z) : Z := u64 (u64 (seconds * 1000000000) + nanoseconds).
Definition Time_IsZero (t : Z) : bool := t =? 0.
(** Time - Time *)
Definition Time_diff (a b : Z) : Z := i64 (u64 (a - b)).
(** Time + Duration and Time - Duration *)
Definition Time_add (t d : Z) : Z := u64 (t + u64 d).
Definition Time_sub (t d : Z) : Z := u64 (t - u64 d).
Definition Time_lt (a b : Z) : bool := a <? b.
Definition Time_gt (a b : Z) : bool := b <? a.

(** Time::ToString.  [localtime] is the local date and time of a time_t, if the
    system has it; [seconds] prints the time as a floating point number. *)
Definition Time_ToString (localtime : Z -> option string) (seconds : Z -> string) (t : Z) : string :=
  match localtime (Z.quot (i64 t) 1000000000) with
  | None => seconds t
  | Some date => date ++ "." ++ to_string (t mod 1000000000)
  end%string.

(** ** Rate *)

Record Rate := mkRate { start_ : Z; expected_cycle_time_ : Z; actual_cycle_time_ : Z }.

(** Rate(uint64_t nanoseconds) and Rate(const Duration&) at time [now] *)
Definition RateNanoseconds (now nanoseconds : Z) : Rate := mkRate now (i64 nanoseconds) 0.
Definition RateDuration (now d : Z) : Rate := mkRate now d 0.

(** Rate::Sleep when the clock shows [now]: the time it sleeps until, if it sleeps. *)
Definition Rate_Sleep (now : Z) (r : Rate) : option Z * Rate :=
  let expected_end := Time_add (start_ r) (expected_cycle_time_ r) in
  let actual_end := now in
  let expected_end := if Time_lt actual_end (start_ r) then Time_add actual_end (expected_cycle_time_ r) else expected_end in
  let sleep_time := Time_diff expected_end actual_end in
  let actual_cycle_time := Time_diff actual_end (start_ r) in
  if Duration_lt sleep_time 0 then
    let start := if Time_gt actual_end (Time_add expected_end (expected_cycle_time_ r)) then actual_end else expected_end in
    (None, mkRate start (expected_cycle_time_ r) actual_cycle_time)
  else (Some expected_end, mkRate expected_end (expected_cycle_time_ r) actual_cycle_time).

Definition Rate_Reset (now : Z) (r : Rate) : Rate := mkRate now (expected_cycle_time_ r) (actual_cycle_time_ r).
Definition Rate_CycleTime (r : Rate) : Z := actual_cycle_time_ r.

(** A loop that calls Sleep at the given times. *)
Fixpoint Rate_loop (nows : list Z) (r : Rate) : list (option Z) * Rate :=
  match nows with
  | [] => ([], r)
  | now :: nows => let '(o, r) := Rate_Sleep now r in let '(os, r) := Rate_loop nows r in (o :: os, r)
  end.

(** ** Arithmetic of time *)

Lemma u64_add_l a b : u64 (u64 a + b) = u64 (a + b).
Proof. unfold u64. by rewrite Zplus_mod_idemp_l. Qed.
Lemma u64_add_r a b : u64 (a + u64 b) = u64 (a + b).
Proof. unfold u64. by rewrite Zplus_mod_idemp_r. Qed.
Lemma u64_sub_r a b : u64 (a - u64 b) = u64 (a - b).
Proof. unfold u64. by rewrite Zminus_mod_idemp_r. Qed.
Lemma u64_sub_l a b : u64 (u64 a - b) = u64 (a - b).
Proof. unfold u64. by rewrite Zminus_mod_idemp_l. Qed.

(** Conversion to signed forgets the wrap of the unsigned value, and back. *)
Lemma i64_u64 z : i64 (u64 z) = i64 z.
Proof. unfold i64, u64. by rewrite Zplus_mod_idemp_l. Qed.
Lemma u64_i64 z : u64 (i64 z) = u64 z.
Proof. unfold i64, u64. rewrite Zminus_mod_idemp_l. f_equal. lia. Qed.

(** Times and durations form a torsor modulo 2^64: every operation is undone by
    its counterpart, also when it wraps around. *)
Lemma time_duration_laws t u d : is_u64 t -> is_u64 u -> is_i64 d ->
  Time_diff (Time_add t d) t = d /\ Time_sub (Time_add t d) d = t /\ Time_add t (Time_diff u t) = u.
Proof.
  intros Ht Hu Hd. unfold Time_diff, Time_add, Time_sub. repeat split.
  - rewrite i64_u64, u64_add_r. transitivity (i64 (u64 (u64 (t + d) - t))); [by rewrite i64_u64|].
    rewrite u64_sub_l, i64_u64. replace (t + d - t) with d by lia. by apply i64_small.
  - rewrite u64_sub_r, u64_add_r, u64_sub_l. replace (t + d - d) with t by lia. by apply u64_small.
  - rewrite u64_i64, u64_idemp, u64_add_r. replace (t + (u - t)) with u by lia. by apply u64_small.
Qed.

(** A duration made of seconds and nanoseconds is their sum: nothing overflows. *)
Lemma Duration2_exact s n : is_u32 s -> is_u32 n -> Duration2 s n = s * 1000000000 + n.
Proof. intros Hs Hn. unfold Duration2, is_u32 in *. wrap64. apply i64_small. unfold is_i64. lia. Qed.

(** The difference of two times has their order only when they are near. *)
Lemma Time_diff_small a b : - 2 ^ 63 <= a - b < 2 ^ 63 -> Time_diff a b = a - b.
Proof. intros H. unfold Time_diff. rewrite i64_u64. by apply i64_small. Qed.

Theorem max_minus_min_is_negative : Time_lt Time_MIN Time_MAX = true /\ Time_diff Time_MAX Time_MIN = -2.
Proof. by split. Qed.

Lemma Time_add_small t d : is_u64 (t + d) -> Time_add t d = t + d.
Proof. intros H. unfold Time_add. rewrite u64_add_r. by apply u64_small. Qed.

(** ** The schedule of a loop *)

(** Sleep without wrap-around. *)
Lemma Rate_Sleep_eq now r :
  0 <= start_ r -> 0 <= now -> 0 <= expected_cycle_time_ r ->
  start_ r + 2 * expected_cycle_time_ r < 2 ^ 63 -> now + 2 * expected_cycle_time_ r < 2 ^ 63 ->
  let c := expected_cycle_time_ r in
  let e := (if now <? start_ r then now else start_ r) + c in
  Rate_Sleep now r =
    if e <? now then (None, mkRate (if e + c <? now then now else e) c (now - start_ r))
    else (Some e, mkRate e c (now - start_ r)).
Proof.
  intros Hs Hn Hc Hb Hb' c e. unfold Rate_Sleep, Duration_lt, Time_lt, Time_gt.
  fold c. rewrite !Time_add_small by (unfold is_u64; lia).
  replace (if now <? start_ r then now + c else start_ r + c) with e by (unfold e; by case_match).
  assert (0 <= e < 2 ^ 63) by (unfold e; case_match; lia). rewrite (Time_diff_small e now), (Time_diff_small now) by lia.
  rewrite Time_add_small by (unfold is_u64, e; case_match; lia).
  destruct (Z.ltb_spec (e - now) 0), (Z.ltb_spec e now); done || lia.
Qed.

(** A Rate recovers from anything the clock does: after a Sleep at any
    reading, behind or ahead of the schedule by any amount, the next cycle begins
    at most one cycle before and at most one cycle after that reading, so the next
    Sleep is due between now and two cycles later.  Sleep sleeps only until a
    time that is not past. *)
Theorem rate_recovers now r o r' :
  0 <= start_ r -> 0 <= now -> 0 <= expected_cycle_time_ r ->
  start_ r + 2 * expected_cycle_time_ r < 2 ^ 63 -> now + 2 * expected_cycle_time_ r < 2 ^ 63 ->
  Rate_Sleep now r = (o, r') ->
  now - expected_cycle_time_ r <= start_ r' <= now + expected_cycle_time_ r /\
  expected_cycle_time_ r' = expected_cycle_time_ r /\ Rate_CycleTime r' = now - start_ r /\
  (forall t, o = Some t -> t = start_ r' /\ now <= t).
Proof.
  intros Hs Hn Hc Hb Hb' E. rewrite Rate_Sleep_eq in E by done. simpl in E.
  destruct (Z.ltb_spec now (start_ r)); zcases; simplify_eq/=; (split; [lia|]); (split; [done|]); (split; [done|]);
    intros t Ht; simplify_eq/=; (split; [done|lia]).
Qed.

(** One Sleep of a loop that is at most a full cycle late stays on the schedule. *)
Lemma Rate_Sleep_on_time now r :
  0 <= start_ r -> 0 <= expected_cycle_time_ r ->
  start_ r <= now <= start_ r + 2 * expected_cycle_time_ r -> now + 2 * expected_cycle_time_ r < 2 ^ 63 ->
  let e := start_ r + expected_cycle_time_ r in
  Rate_Sleep now r = (if now <=? e then Some e else None, mkRate e (expected_cycle_time_ r) (now - start_ r)).
Proof.
  intros Hs Hc Hn Hb e. rewrite Rate_Sleep_eq by lia. simpl.
  rewrite (proj2 (Z.ltb_ge now (start_ r))) by lia. fold e.
  destruct (Z.ltb_spec e now), (Z.leb_spec now e); try lia; [|done].
  by rewrite (proj2 (Z.ltb_ge _ _)) by (unfold e; lia).
Qed.

(** A loop does not drift: if its i-th Sleep comes no earlier than the i-th
    cycle of the schedule begins and no later than a full cycle after that
    cycle ends, then after k Sleeps the schedule has advanced by exactly k
    cycles, and the i-th Sleep ends exactly with the i-th cycle, or returns at
    once when that is past. *)
Theorem rate_keeps_the_schedule nows r os r' :
  0 <= start_ r -> 0 <= expected_cycle_time_ r ->
  (forall i now, nows !! i = Some now ->
     start_ r + Z.of_nat i * expected_cycle_time_ r <= now <= start_ r + (Z.of_nat i + 2) * expected_cycle_time_ r) ->
  start_ r + (zlen nows + 4) * expected_cycle_time_ r < 2 ^ 63 ->
  Rate_loop nows r = (os, r') ->
  start_ r' = start_ r + zlen nows * expected_cycle_time_ r /\ length os = length nows /\
  (forall i now o, nows !! i = Some now -> os !! i = Some o ->
     let e := start_ r + (Z.of_nat i + 1) * expected_cycle_time_ r in o = if now <=? e then Some e else None).
Proof.
  revert r os. induction nows as [|now nows IH]; intros r os Hs Hc Hn Hb E.
  - simpl in E. simplify_eq. split; [unfold zlen; simpl; lia|]. split; [done|]. by intros i.
  - pose proof (Hn 0%nat now eq_refl) as H0. simpl in E.
    assert (zlen (now :: nows) = zlen nows + 1) as El by (unfold zlen; simpl; lia). rewrite El in *.
    assert (0 <= zlen nows) by (unfold zlen; lia).
    rewrite Rate_Sleep_on_time in E by nia.
    destruct (Rate_loop nows _) as [os1 r1] eqn:E1. simplify_eq.
    apply IH in E1 as (Es & Elen & Ho); simpl in *; [|lia|lia| |nia].
    + split; [rewrite Es; lia|]. split; [lia|]. intros [|i] now' o Hi Ho'; simpl in *.
      * simplify_eq. replace ((Z.of_nat 0 + 1) * expected_cycle_time_ r) with (expected_cycle_time_ r) by lia. done.
      * rewrite (Ho i now' o Hi Ho'), Nat2Z.inj_succ.
        by replace (start_ r + (Z.succ (Z.of_nat i) + 1) * expected_cycle_time_ r)
          with (start_ r + expected_cycle_time_ r + (Z.of_nat i + 1) * expected_cycle_time_ r) by lia.
    + intros i now' Hi. specialize (Hn (S i) now' Hi). rewrite Nat2Z.inj_succ in Hn. lia.
Qed.

(** ** Examples *)

Definition loop_times : list Z := [1040; 1250; 1210; 1399].

Lemma rate_keeps_the_schedule_witness :
  start_ (Rate_loop loop_times (RateNanoseconds 1000 100)).2 = 1400 /\
  (Rate_loop loop_times (RateNanoseconds 1000 100)).1 = [Some 1100; None; Some 1300; Some 1400].
Proof.
  split; [|reflexivity].
  destruct (rate_keeps_the_schedule loop_times (RateNanoseconds 1000 100)
    (Rate_loop loop_times (RateNanoseconds 1000 100)).1 (Rate_loop loop_times (RateNanoseconds 1000 100)).2) as [H _];
    [vm_compute; discriminate|vm_compute; discriminate| |vm_compute; reflexivity|reflexivity|exact H].
  intros [|[|[|[|i]]]] now Hi; simpl in Hi; try (injection Hi as <-; vm_compute; split; discriminate). destruct i; discriminate.
Defined.

(** A loop that was stopped for ten cycles starts again from now. *)
Lemma rate_recovers_witness : exists o r', Rate_Sleep 2000 (RateNanoseconds 1000 100) = (o, r') /\ o = None /\ 1900 <= start_ r' <= 2100.
Proof.
  destruct (Rate_Sleep 2000 (RateNanoseconds 1000 100)) as [o r'] eqn:E. exists o, r'. split; [reflexivity|].
  split; [vm_compute in E; by injection E as <- _|].
  refine (proj1 (rate_recovers 2000 (RateNanoseconds 1000 100) o r' _ _ _ _ _ E)); vm_compute; discriminate || reflexivity.
Defined.

(** The fraction of a second is printed without its leading zeros: five
    nanoseconds after midnight look like half a second after it. *)
Theorem fraction_loses_its_zeros :
  Time_ToString (fun _ => Some "1970-01-01 00:00:00") (fun _ => "") 5 = "1970-01-01 00:00:00.5"%string.
Proof. reflexivity. Qed.
