(* ===== verification/AsyncLogger.v ===== *)
(** AsyncLogger.v -- the asynchronous logger with its two buffers

    - src/src/apollo/cyber/logger/async_logger.{h,cc}
    - src/src/apollo/cyber/logger/logger_util.h: FindModuleName

    Threads call Write and Flush, one thread runs RunThread.  What happens under the
    mutex is one step; Write looks at the size of the active buffer before it takes the
    mutex, which is a step of its own.  A wait on a condition variable ends by a
    notification, by a timeout or for no reason.  A log file is what has been handed to
    its LogFileObject; [durable] is what has been flushed.  flush_count_ does not
    overflow, as the source says.  Inside LogFileObject::Write, a file that cannot be
    created, rotation and the drop of messages are not represented.  [accepted], [written] and [synced] are ghosts: the messages
    added to a buffer, those written, and how many of these are durable. *)

From S2P Require Import Prelude.
From S2P Require Import Text.
From Stdlib Require Import Ascii.
Local Open Scope Z_scope.

Record Msg := mkMsg { ts : Z; message : string; level : Z }.
Record Buffer := mkBuffer { messages : list Msg; bytes : Z; flush : bool }.
Inductive State := INITTED | RUNNING | STOPPED.
#[export] Instance state_eq : EqDecision State.
Proof. solve_decision. Defined.

Record LogFile := mkFile { content : list (Z * string); durable : list (Z * string) }.

(** std::string::find from a position. *)
Definition find_from (c : ascii) (s : string) (from : nat) : option nat :=
  option_map (fun n => from + n)%nat (Text.find c (drop_str from s)).

Section logger.
(** GlobalData::ProcessGroup() and sizeof(Msg). *)
Context (ProcessGroup : string) (sizeof_Msg : Z).

(** The module name and the message without it. *)
Definition FindModuleName (log_message : string) : string * string :=
  let '(module_name, log_message) :=
    match Text.find "[" log_message with
    | Some lpos =>
        match find_from "]" log_message lpos with
        | Some rpos => (take_str (rpos - lpos - 1) (drop_str (lpos + 1) log_message),
                        take_str lpos log_message +:+ drop_str (rpos + 1) log_message)
        | None => (EmptyString, log_message)
        end
    | None => (EmptyString, log_message)
    end in
  (if bool_decide (module_name = EmptyString) then ProcessGroup else module_name, log_message).

Definition NewBuffer : Buffer := mkBuffer [] 0 false.
Definition Buffer_add (b : Buffer) (msg : Msg) (force_flush : bool) : Buffer :=
  mkBuffer (messages b ++ [msg]) (i32 (bytes b + (sizeof_Msg + Z.of_nat (String.length (message msg))))) (flush b || force_flush).
Definition set_flush (b : Buffer) : Buffer := mkBuffer (messages b) (bytes b) true.
Definition needs_flush_or_write (b : Buffer) : bool := flush b || negb (bool_decide (messages b = [])).
Definition BufferFull (max_buffer_bytes : Z) (b : Buffer) : bool := bool_decide (Z.quot max_buffer_bytes 2 < bytes b).

Definition level_of (m : string) : Z :=
  match m with
  | String c _ => if Ascii.eqb c "F" then 3 else if Ascii.eqb c "E" then 2 else if Ascii.eqb c "W" then 1
                  else if Ascii.eqb c "I" then 0 else -1
  | EmptyString => -1
  end.

(** Where RunThread is: not started, before its loop, waiting, writing the rest of
    flushing_buf_, about to lock again, returned. *)
Inductive Flusher := FNone | FStart | FWait (notified : bool) | FWrite (rest : list Msg) | FLock | FExit.
(** A thread inside Write after the size check, inside Flush (what had been accepted when
    it was called, orig_flush_count, whether it was notified), or inside Stop. *)
Inductive App :=
| InWrite (force_flush : bool) (msg : Msg)
| InFlush (before : list Msg) (orig_flush_count : nat) (notified : bool)
| InStop.

Record AsyncLogger := mkLogger {
  max_buffer_bytes_ : Z; flush_count_ : nat; active_buf_ : Buffer; flushing_buf_ : Buffer; state_ : State;
  moduleLoggerMap : gmap string LogFile; flusher : Flusher; apps : gmap nat App;
  accepted : list Msg; written : list Msg; synced : nat }.

Definition NewAsyncLogger (max_buffer_bytes : Z) : AsyncLogger :=
  mkLogger (if max_buffer_bytes <=? 0 then 2 * 1024 * 1024 else max_buffer_bytes) 0 NewBuffer NewBuffer INITTED
    ∅ FNone ∅ [] [] 0.

Definition with_active (l : AsyncLogger) (b : Buffer) : AsyncLogger :=
  mkLogger (max_buffer_bytes_ l) (flush_count_ l) b (flushing_buf_ l) (state_ l) (moduleLoggerMap l) (flusher l) (apps l)
    (accepted l) (written l) (synced l).
Definition with_flusher (l : AsyncLogger) (f : Flusher) : AsyncLogger :=
  mkLogger (max_buffer_bytes_ l) (flush_count_ l) (active_buf_ l) (flushing_buf_ l) (state_ l) (moduleLoggerMap l) f (apps l)
    (accepted l) (written l) (synced l).
Definition with_apps (l : AsyncLogger) (a : gmap nat App) : AsyncLogger :=
  mkLogger (max_buffer_bytes_ l) (flush_count_ l) (active_buf_ l) (flushing_buf_ l) (state_ l) (moduleLoggerMap l) (flusher l) a
    (accepted l) (written l) (synced l).
Definition with_state (l : AsyncLogger) (s : State) : AsyncLogger :=
  mkLogger (max_buffer_bytes_ l) (flush_count_ l) (active_buf_ l) (flushing_buf_ l) s (moduleLoggerMap l) (flusher l) (apps l)
    (accepted l) (written l) (synced l).

(** wake_flusher_cv_.notify_one() and flush_complete_cv_.notify_all() *)
Definition wake_flusher (l : AsyncLogger) : AsyncLogger :=
  match flusher l with FWait _ => with_flusher l (FWait true) | _ => l end.
Definition notify_app (a : App) : App := match a with InFlush b o _ => InFlush b o true | _ => a end.
Definition flush_complete (l : AsyncLogger) : AsyncLogger := with_apps l (notify_app <$> apps l).

Definition Start (l : AsyncLogger) : option AsyncLogger :=
  if bool_decide (state_ l = INITTED) then Some (with_flusher (with_state l RUNNING) FStart) else None.

(** The part of Write under the mutex. *)
Definition Write_locked (l : AsyncLogger) (force_flush : bool) (msg : Msg) : AsyncLogger :=
  if bool_decide (state_ l = RUNNING)
  then wake_flusher (mkLogger (max_buffer_bytes_ l) (flush_count_ l) (Buffer_add (active_buf_ l) msg force_flush) (flushing_buf_ l)
         (state_ l) (moduleLoggerMap l) (flusher l) (apps l) (accepted l ++ [msg]) (written l) (synced l))
  else l.

(** One round of the loop of Flush, up to its wait; [None] when the loop ends. *)
Definition Flush_round (l : AsyncLogger) (orig_flush_count : nat) : option AsyncLogger :=
  if bool_decide (flush_count_ l < orig_flush_count + 2)%nat && bool_decide (state_ l = RUNNING)
  then Some (wake_flusher (with_active l (set_flush (active_buf_ l)))) else None.

Definition Stop_locked (l : AsyncLogger) : option AsyncLogger :=
  if bool_decide (state_ l = RUNNING) then Some (wake_flusher (with_state l STOPPED)) else None.

(** RunThread: the inner loop up to its wait, or past the swap of the buffers. *)
Definition run_inner (l : AsyncLogger) : AsyncLogger :=
  if negb (needs_flush_or_write (active_buf_ l)) && bool_decide (state_ l = RUNNING)
  then with_flusher l (FWait false)
  else mkLogger (max_buffer_bytes_ l) (flush_count_ l) (flushing_buf_ l) (active_buf_ l) (state_ l) (moduleLoggerMap l)
         (FWrite (messages (active_buf_ l))) (apps l) (accepted l) (written l) (synced l).
Definition run_outer (l : AsyncLogger) : AsyncLogger :=
  if bool_decide (state_ l = RUNNING) || needs_flush_or_write (active_buf_ l) then run_inner l else with_flusher l FExit.

Definition write_file (files : gmap string LogFile) (msg : Msg) : gmap string LogFile :=
  let '(module_name, text) := FindModuleName (message msg) in
  let file := default (mkFile [] []) (files !! module_name) in
  let content' := content file ++ [(ts msg, text)] in
  <[module_name := mkFile content' (if 0 <? level msg then content' else durable file)]> files.
Definition flush_file (f : LogFile) : LogFile := mkFile (content f) (content f).

(** Writing one message; the end of the round, up to taking the mutex again. *)
Definition run_write (l : AsyncLogger) (msg : Msg) (rest : list Msg) : AsyncLogger :=
  mkLogger (max_buffer_bytes_ l) (flush_count_ l) (active_buf_ l) (flushing_buf_ l) (state_ l)
    (write_file (moduleLoggerMap l) msg) (FWrite rest) (apps l) (accepted l) (written l ++ [msg]) (synced l).
Definition run_finish (l : AsyncLogger) : AsyncLogger :=
  let f := flush (flushing_buf_ l) in
  mkLogger (max_buffer_bytes_ l) (flush_count_ l) (active_buf_ l) NewBuffer (state_ l)
    (if f then flush_file <$> moduleLoggerMap l else moduleLoggerMap l) FLock (apps l) (accepted l) (written l)
    (if f then length (written l) else synced l).
Definition run_relock (l : AsyncLogger) : AsyncLogger :=
  run_outer (flush_complete (mkLogger (max_buffer_bytes_ l) (S (flush_count_ l)) (active_buf_ l) (flushing_buf_ l) (state_ l)
    (moduleLoggerMap l) (flusher l) (apps l) (accepted l) (written l) (synced l))).

Inductive step : AsyncLogger -> AsyncLogger -> Prop :=
| step_start l l' : Start l = Some l' -> step l l'
| step_write_check l t force_flush timestamp m : apps l !! t = None -> BufferFull (max_buffer_bytes_ l) (active_buf_ l) = false ->
    step l (with_apps l (<[t := InWrite force_flush (mkMsg timestamp m (level_of m))]> (apps l)))
| step_write l t force_flush msg : apps l !! t = Some (InWrite force_flush msg) ->
    step l (Write_locked (with_apps l (delete t (apps l))) force_flush msg)
| step_flush l t l' : apps l !! t = None -> Flush_round l (flush_count_ l) = Some l' ->
    step l (with_apps l' (<[t := InFlush (accepted l) (flush_count_ l) false]> (apps l)))
| step_flush_again l t before orig notified l' : apps l !! t = Some (InFlush before orig notified) ->
    Flush_round l orig = Some l' -> step l (with_apps l' (<[t := InFlush before orig false]> (apps l)))
| step_flush_return l t before orig notified : apps l !! t = Some (InFlush before orig notified) ->
    Flush_round l orig = None -> step l (with_apps l (delete t (apps l)))
| step_stop l t l' : apps l !! t = None -> Stop_locked l = Some l' -> step l (with_apps l' (<[t := InStop]> (apps l)))
| step_join l t : apps l !! t = Some InStop -> flusher l = FExit -> step l (with_apps l (delete t (apps l)))
| step_run l : flusher l = FStart -> step l (run_outer l)
| step_wake l n : flusher l = FWait n -> step l (run_inner l)
| step_timeout l n : flusher l = FWait n -> step l (run_inner (with_active l (set_flush (active_buf_ l))))
| step_run_write l msg rest : flusher l = FWrite (msg :: rest) -> step l (run_write l msg rest)
| step_run_finish l : flusher l = FWrite [] -> step l (run_finish l)
| step_run_relock l : flusher l = FLock -> step l (run_relock l).

(** ** What is written *)
(** The part of the messages [l] that belongs into the file of [module]. *)
Definition part (module : string) (l : list Msg) : list (Z * string) :=
  omap (fun msg => let '(name, text) := FindModuleName (message msg) in if bool_decide (name = module) then Some (ts msg, text) else None) l.
Definition file_of (l : AsyncLogger) (module : string) : LogFile := default (mkFile [] []) (moduleLoggerMap l !! module).

Definition files_ok (files : gmap string LogFile) (wr : list Msg) (sy : nat) : Prop :=
  (sy <= length wr)%nat /\ forall module, let f := default (mkFile [] []) (files !! module) in
    content f = part module wr /\ part module (take sy wr) `prefix_of` durable f /\ durable f `prefix_of` content f.

Lemma part_app module l1 l2 : part module (l1 ++ l2) = part module l1 ++ part module l2.
Proof. apply omap_app. Qed.
Lemma write_file_ok files wr sy msg : files_ok files wr sy -> files_ok (write_file files msg) (wr ++ [msg]) sy.
Proof.
  intros [Hsy Hf]. split; [rewrite length_app; lia|]. intros module. rewrite take_app_le by done. rewrite part_app. unfold write_file.
  destruct (FindModuleName (message msg)) as [name text] eqn:E. destruct (Hf module) as (Hc & Hp & Hd).
  assert (part module [msg] = if bool_decide (name = module) then [(ts msg, text)] else []) as -> by (unfold part; simpl; rewrite E; by case_bool_decide).
  destruct (decide (name = module)) as [->|Hne].
  - rewrite lookup_insert_eq, bool_decide_true by done. simpl. rewrite Hc.
    assert (part module (take sy wr) `prefix_of` part module wr) as Hpre.
    { rewrite <- (take_drop sy wr) at 2. rewrite part_app. by apply prefix_app_r. }
    split; [done|]. destruct (0 <? level msg); (split; [|try done]).
    + by apply prefix_app_r.
    + done.
    + rewrite Hc in Hd. by apply prefix_app_r.
  - rewrite lookup_insert_ne, bool_decide_false, app_nil_r by done. done.
Qed.
Lemma flush_file_ok files wr sy : files_ok files wr sy -> files_ok (flush_file <$> files) wr (length wr).
Proof.
  intros [Hsy Hf]. split; [done|]. intros module. rewrite firstn_all, lookup_fmap. destruct (Hf module) as (Hc & _).
  destruct (files !! module) as [f|]; simpl in *; [by rewrite Hc|]. by rewrite <- Hc.
Qed.

(** ** The invariant *)
Definition rest_of (l : AsyncLogger) : list Msg := match flusher l with FWrite r => r | _ => [] end.
Definition busy (f : Flusher) : bool := match f with FWrite _ | FLock => true | _ => false end.

Definition flush_ok (l : AsyncLogger) (before : list Msg) (orig : nat) (notified : bool) : Prop :=
  before `prefix_of` accepted l /\ (orig <= flush_count_ l)%nat /\
  ((length before <= synced l)%nat \/
   ((exists r, flusher l = FWrite r) /\ (length before <= length (written l) + length (rest_of l))%nat /\
      flush (flushing_buf_ l) = true /\ (flush_count_ l <= orig + 1)%nat) \/
   (flush (active_buf_ l) = true /\ flush_count_ l = orig)) /\
  (notified = false -> flush (active_buf_ l) = true \/ busy (flusher l) = true).

Record core (l : AsyncLogger) : Prop := {
  inv_order : accepted l = written l ++ rest_of l ++ messages (active_buf_ l);
  inv_flushing : (exists r, flusher l = FWrite r) \/ flushing_buf_ l = NewBuffer;
  inv_files : files_ok (moduleLoggerMap l) (written l) (synced l);
  inv_initted : state_ l = INITTED <-> flusher l = FNone;
  inv_exit : flusher l = FExit -> state_ l <> RUNNING /\ needs_flush_or_write (active_buf_ l) = false;
  inv_apps t before orig notified : apps l !! t = Some (InFlush before orig notified) ->
    flusher l <> FNone /\ flush_ok l before orig notified }.
Definition asleep_ok (l : AsyncLogger) : Prop := forall n, flusher l = FWait n ->
  n = true \/ (needs_flush_or_write (active_buf_ l) = false /\ state_ l = RUNNING).
Definition inv (l : AsyncLogger) : Prop := core l /\ asleep_ok l.

(** With the mutex, between two rounds. *)
Record between (l : AsyncLogger) : Prop := {
  btw_order : accepted l = written l ++ messages (active_buf_ l);
  btw_flushing : flushing_buf_ l = NewBuffer;
  btw_files : files_ok (moduleLoggerMap l) (written l) (synced l);
  btw_state : state_ l <> INITTED;
  btw_apps t before orig notified : apps l !! t = Some (InFlush before orig notified) ->
    before `prefix_of` accepted l /\ (orig <= flush_count_ l)%nat /\
    ((length before <= synced l)%nat \/ (flush (active_buf_ l) = true /\ (flush_count_ l <= orig + 1)%nat)) /\
    (notified = false -> flush (active_buf_ l) = true) }.

Lemma needs_flush b : flush b = true -> needs_flush_or_write b = true.
Proof. unfold needs_flush_or_write. by intros ->. Qed.
Lemma no_needs b : needs_flush_or_write b = false -> messages b = [] /\ flush b = false.
Proof. unfold needs_flush_or_write. intros [H1 H2]%orb_false_iff. apply negb_false_iff, bool_decide_eq_true in H2. done. Qed.

Lemma run_inner_inv l : between l -> inv (run_inner l).
Proof.
  intros [Ho Hfl Hfi Hst Hap]. unfold run_inner. destruct (negb _ && _) eqn:E.
  - apply andb_true_iff in E as [E1%negb_true_iff E2%bool_decide_eq_true]. destruct (no_needs _ E1) as [Hm Hff].
    split; [|intros n _; by right]. split; simpl; try done; [by right|].
    intros t before orig notified Ht. destruct (Hap _ _ _ _ Ht) as (H1 & H2 & H3 & H4). split; [done|].
    split; [done|]. split; [done|]. split; [destruct H3 as [H3|[H3 _]]; [by left|simpl in *; congruence]|].
    intros Hn. specialize (H4 Hn). congruence.
  - split; [|done]. split; simpl; try done; [rewrite Hfl; by rewrite app_nil_r|left; eauto|].
    intros t before orig notified Ht. destruct (Hap _ _ _ _ Ht) as (H1 & H2 & H3 & H4). split; [done|].
    split; [done|]. split; [done|]. split; [|by right].
    destruct H3 as [H3|[H3 H3']]; [by left|right; left]. split; [eauto|]. split; [|done].
    apply prefix_length in H1. rewrite Ho, length_app in H1. simpl. done.
Qed.
Lemma run_outer_inv l : between l -> inv (run_outer l).
Proof.
  intros Hb. unfold run_outer. destruct (bool_decide _ || _) eqn:E; [by apply run_inner_inv|]. destruct Hb as [Ho Hfl Hfi Hst Hap].
  apply orb_false_iff in E as [E1%bool_decide_eq_false E2]. destruct (no_needs _ E2) as [Hm Hff].
  split; [|done]. split; simpl; try done; [by right|].
  intros t before orig notified Ht. destruct (Hap _ _ _ _ Ht) as (H1 & H2 & H3 & H4). split; [done|].
  split; [done|]. split; [done|]. split; [destruct H3 as [H3|[H3 _]]; [by left|simpl in *; congruence]|].
  intros Hn. specialize (H4 Hn). congruence.
Qed.

(** Between rounds the flusher is at its start or waits. *)
Lemma inv_between l : inv l -> (flusher l = FStart \/ exists n, flusher l = FWait n) -> between l.
Proof.
  intros [[Ho Hfl Hfi Hst Hex Hap] _] Hf. assert (rest_of l = []) as Er by (unfold rest_of; destruct Hf as [->|[n ->]]; done).
  rewrite Er in Ho. split; try done.
  - destruct Hfl as [[r E]|]; [destruct Hf as [Hf|[n Hf]]; congruence|done].
  - rewrite Hst. destruct Hf as [->|[n ->]]; done.
  - intros t before orig notified Ht. destruct (Hap _ _ _ _ Ht) as (_ & H1 & H2 & H3 & H4). split; [done|]. split; [done|].
    split; [destruct H3 as [H3|[([r E] & _)|[H3 H3']]]; [by left|destruct Hf as [Hf|[n Hf]]; congruence|right; split; [done|lia]]|].
    intros Hn. destruct (H4 Hn) as [?|Hb]; [done|]. destruct Hf as [Hf|[n Hf]]; rewrite Hf in Hb; done.
Qed.
Lemma between_set_flush l : between l -> between (with_active l (set_flush (active_buf_ l))).
Proof.
  intros [Ho Hfl Hfi Hst Hap]. split; try done. intros t before orig notified Ht. destruct (Hap _ _ _ _ Ht) as (H1 & H2 & H3 & H4).
  split; [done|]. split; [done|]. split; [|done]. destruct H3 as [H3|[_ H3]]; [by left|by right].
Qed.

Lemma core_apps l a : core l ->
  (forall t before orig notified, a !! t = Some (InFlush before orig notified) -> flusher l <> FNone /\ flush_ok l before orig notified) ->
  core (with_apps l a).
Proof. intros [Ho Hfl Hfi Hst Hex Hap] Ha. by split. Qed.
Lemma inv_delete l t : inv l -> inv (with_apps l (delete t (apps l))).
Proof. intros [Hc Hw]. split; [|done]. apply core_apps; [done|]. intros t' b o n [_ Ht]%lookup_delete_Some. by eapply inv_apps. Qed.

Lemma wake_inv l : core l -> inv (wake_flusher l).
Proof.
  intros Hc. unfold wake_flusher. destruct (flusher l) eqn:Ef; try (split; [done|intros m; congruence]).
  split; [|intros m [= <-]; by left]. destruct Hc as [Ho Hfl Hfi Hst Hex Hap].
  unfold rest_of in Ho. rewrite Ef in Ho, Hst, Hfl.
  split; simpl; try done.
  - right. destruct Hfl as [[r ?]|]; done.
  - rewrite Hst. done.
  - intros t before orig n Ht. destruct (Hap _ _ _ _ Ht) as (_ & H1 & H2 & H3 & H4). split; [done|]. split; [done|]. split; [done|].
    split; [destruct H3 as [?|[([r E] & _)|?]]; [by left|congruence|by right; right]|].
    intros Hn. destruct (H4 Hn) as [?|Hb]; [by left|rewrite Ef in Hb; done].
Qed.
Lemma wake_apps l : apps (wake_flusher l) = apps l.
Proof. unfold wake_flusher. by destruct (flusher l). Qed.

(** Changing the active buffer of a running logger so that what has to be flushed stays so. *)
Lemma core_active l b extra : core l -> state_ l = RUNNING -> (flush (active_buf_ l) = true -> flush b = true) ->
  messages b = messages (active_buf_ l) ++ extra ->
  core (mkLogger (max_buffer_bytes_ l) (flush_count_ l) b (flushing_buf_ l) (state_ l) (moduleLoggerMap l) (flusher l) (apps l)
          (accepted l ++ extra) (written l) (synced l)).
Proof.
  intros [Ho Hfl Hfi Hst Hex Hap] Hr Hf Hm. split; simpl; try done.
  - unfold rest_of in *. simpl. by rewrite Hm, Ho, <- !app_assoc.
  - intros Ee. by destruct (Hex Ee).
  - intros t before orig n Ht. destruct (Hap _ _ _ _ Ht) as (H0 & H1 & H2 & H3 & H4). split; [done|].
    split; [by apply prefix_app_r|]. split; [done|]. split; [|intros Hn; destruct (H4 Hn) as [?|?]; [left; by apply Hf|by right]].
    destruct H3 as [?|[?|[? ?]]]; [by left|by right; left|]. right; right. split; [by apply Hf|done].
Qed.
Lemma core_set_flush l : core l -> state_ l = RUNNING -> core (with_active l (set_flush (active_buf_ l))).
Proof.
  intros Hc Hr. pose proof (core_active l (set_flush (active_buf_ l)) [] Hc Hr (fun _ => eq_refl) ltac:(by rewrite app_nil_r)) as Hc'.
  by rewrite app_nil_r in Hc'.
Qed.

Lemma Flush_round_Some l orig l' : Flush_round l orig = Some l' -> core l ->
  l' = wake_flusher (with_active l (set_flush (active_buf_ l))) /\ inv l' /\ (flush_count_ l < orig + 2)%nat /\ state_ l = RUNNING.
Proof.
  unfold Flush_round. destruct (_ && _) eqn:E; [|done]. intros [= <-] Hc.
  apply andb_true_iff in E as [E1%bool_decide_eq_true E2%bool_decide_eq_true]. split; [done|]. split; [|done].
  by apply wake_inv, core_set_flush.
Qed.

Lemma wake_fields l : let l' := wake_flusher l in
  (accepted l', flush_count_ l', synced l', active_buf_ l', written l', flushing_buf_ l', state_ l') =
  (accepted l, flush_count_ l, synced l, active_buf_ l, written l, flushing_buf_ l, state_ l) /\
  (flusher l = FNone <-> flusher l' = FNone).
Proof. unfold wake_flusher. destruct (flusher l) eqn:E; simpl; rewrite ?E; done. Qed.

Lemma flush_waits l l' t before orig : core l -> Flush_round l orig = Some l' ->
  before `prefix_of` accepted l -> (orig <= flush_count_ l)%nat ->
  ((length before <= synced l)%nat \/
   ((exists r, flusher l = FWrite r) /\ (length before <= length (written l) + length (rest_of l))%nat /\
      flush (flushing_buf_ l) = true /\ (flush_count_ l <= orig + 1)%nat) \/ flush_count_ l = orig) ->
  inv (with_apps l' (<[t := InFlush before orig false]> (apps l))).
Proof.
  intros Hc Hr Hpre Ho Hok. destruct (Flush_round_Some _ _ _ Hr Hc) as (-> & [Hc' Hw'] & Hlt & Hrun).
  set (l0 := with_active l (set_flush (active_buf_ l))) in *. destruct (wake_fields l0) as [Ef Hn0]. injection Ef as E1 E2 E3 E4 E5 E6 E7.
  split; [|done]. apply core_apps; [done|]. intros t' b o n [[<- [= <- <- <-]]|[Hne Ht]]%lookup_insert_Some.
  2: { apply (inv_apps _ Hc' t'). by rewrite wake_apps. }
  assert (flusher l <> FNone) as Hnn by (rewrite <- (inv_initted l Hc), Hrun; done).
  split; [rewrite <- Hn0; done|]. split; [by rewrite E1|]. split; [by rewrite E2|]. rewrite E2, E3, E4, E5, E6. simpl.
  split; [|by left]. destruct Hok as [?|[([r Er] & H2 & H3 & H4)|?]]; [by left|right; left|by right; right].
  assert (wake_flusher l0 = l0) as -> by (unfold wake_flusher; simpl; by rewrite Er). simpl. split; [eauto|]. done.
Qed.

Lemma write_inv l force_flush msg : inv l -> inv (Write_locked l force_flush msg).
Proof.
  intros [Hc Hw]. unfold Write_locked. case_bool_decide as Hr; [|done]. apply wake_inv.
  apply (core_active l (Buffer_add (active_buf_ l) msg force_flush) [msg]); try done. simpl. by intros ->.
Qed.

Lemma stop_inv l l' t : inv l -> Stop_locked l = Some l' -> inv (with_apps l' (<[t := InStop]> (apps l))).
Proof.
  intros [Hc _]. unfold Stop_locked. case_bool_decide as Hr; [|done]. intros [= <-].
  assert (core (with_state l STOPPED)) as Hc'.
  { destruct Hc as [Ho Hfl Hfi Hst Hex Hap]. split; simpl; try done.
    - rewrite <- Hst, Hr. done.
    - intros Ee. destruct (Hex Ee) as [? ?]. done. }
  destruct (wake_inv _ Hc') as [Hw1 Hw2]. split; [|done]. apply core_apps; [done|].
  intros t' b o n [[<- ?]|[Hne Ht]]%lookup_insert_Some; [done|]. apply (inv_apps _ Hw1 t'). by rewrite wake_apps.
Qed.

Lemma run_write_inv l msg rest : inv l -> flusher l = FWrite (msg :: rest) -> inv (run_write l msg rest).
Proof.
  intros [[Ho Hfl Hfi Hst Hex Hap] _] Ef. split; [|done]. unfold rest_of in Ho. rewrite Ef in Ho, Hst. split; simpl; try done.
  - by rewrite Ho, <- app_assoc.
  - left; eauto.
  - by apply write_file_ok.
  - rewrite Hst. done.
  - intros t before orig n Ht. destruct (Hap _ _ _ _ Ht) as (_ & H1 & H2 & H3 & H4). split; [done|]. split; [done|]. split; [done|].
    split; [|intros Hn; by right]. unfold rest_of in *. rewrite Ef in H3. simpl in *.
    destruct H3 as [?|[(_ & ? & ?)|?]]; [by left|right; left|by right; right]. split; [eauto|]. split; [|done]. rewrite length_app. simpl in *. lia.
Qed.

Lemma run_finish_inv l : inv l -> flusher l = FWrite [] -> inv (run_finish l).
Proof.
  intros [[Ho Hfl Hfi Hst Hex Hap] _] Ef. split; [|done]. unfold rest_of in Ho. rewrite Ef in Ho, Hst. split; simpl; try done.
  - by right.
  - destruct (flush (flushing_buf_ l)); [by eapply flush_file_ok|done].
  - rewrite Hst. done.
  - intros t before orig n Ht. destruct (Hap _ _ _ _ Ht) as (_ & H1 & H2 & H3 & H4). split; [done|]. split; [done|]. split; [done|].
    split; [|intros Hn; by right]. unfold rest_of in *. rewrite Ef in H3. simpl in *. destruct Hfi as [Hsy _].
    destruct H3 as [?|[(_ & ? & E & _)|?]]; [left; destruct (flush (flushing_buf_ l)); lia|left; rewrite E; lia|by right; right].
Qed.

Lemma run_relock_inv l : inv l -> flusher l = FLock -> inv (run_relock l).
Proof.
  intros [[Ho Hfl Hfi Hst Hex Hap] _] Ef. apply run_outer_inv. unfold rest_of in Ho. rewrite Ef in Ho, Hst. split; simpl; try done.
  - destruct Hfl as [[r ?]|]; [congruence|done].
  - rewrite Hst. done.
  - intros t before orig n. rewrite lookup_fmap, fmap_Some. intros (a & Ht & Ea). destruct a; simplify_eq/=.
    destruct (Hap _ _ _ _ Ht) as (_ & H1 & H2 & H3 & H4). split; [done|]. split; [lia|]. split; [|done].
    destruct H3 as [?|[([r ?] & _)|[? ?]]]; [by left|congruence|right; split; [done|lia]].
Qed.

Lemma log_step_inv l l' : inv l -> step l l' -> inv l'.
Proof.
  intros Hinv Hs. destruct Hs as [l l' Hst|l t f ts m Ht Hb|l t f msg Ht|l t l' Ht Hr|l t b o n l' Ht Hr|l t b o n Ht Hr|l t l' Ht Hr|l t Ht Hf|l Hf|l n Hf|l n Hf|l msg rest Hf|l Hf|l Hf].
  - unfold Start in Hst. case_bool_decide as Hi; [|done]. simplify_eq. destruct Hinv as [[Ho Hfl Hfi Hin Hex Hap] _].
    pose proof (proj1 Hin Hi) as Ef. split; [|done]. unfold rest_of in Ho. rewrite Ef in Ho. split; simpl; try done.
    + right. destruct Hfl as [[r ?]|]; [congruence|done].
    + intros t b o n Ht. by destruct (Hap _ _ _ _ Ht).
  - destruct Hinv as [Hc Hw]. split; [|done]. apply core_apps; [done|].
    intros t' b' o' n' [[<- ?]|[_ Ht']]%lookup_insert_Some; [done|]. by eapply inv_apps.
  - by apply write_inv, inv_delete.
  - destruct Hinv as [Hc _]. eapply flush_waits; [done|done|done|done|by right; right].
  - destruct Hinv as [Hc _]. destruct (inv_apps _ Hc _ _ _ _ Ht) as (_ & H1 & H2 & H3 & _).
    eapply flush_waits; [done|done|done|done|]. destruct H3 as [?|[?|[_ ?]]]; [by left|by right; left|by right; right].
  - by apply inv_delete.
  - by eapply stop_inv.
  - by apply inv_delete.
  - apply run_outer_inv, inv_between; [done|by left].
  - apply run_inner_inv, inv_between; [done|eauto].
  - apply run_inner_inv, between_set_flush, inv_between; [done|eauto].
  - by apply run_write_inv.
  - by apply run_finish_inv.
  - by apply run_relock_inv.
Qed.

Lemma init_inv max_buffer_bytes : inv (NewAsyncLogger max_buffer_bytes).
Proof.
  split; [|done]. split; simpl; try done; by right.
Qed.
Definition reachable (max_buffer_bytes : Z) (l : AsyncLogger) : Prop := rtc step (NewAsyncLogger max_buffer_bytes) l.
Lemma log_reachable_inv m l : reachable m l -> inv l.
Proof. intros Hr. pose proof (init_inv m) as Hi. unfold reachable in Hr. induction Hr; [done|eauto using log_step_inv]. Qed.

(** Messages are neither lost nor reordered between Write and the files: the accepted ones are those
    written, those in the buffer being written, and those in the active buffer, in this order, and
    the file of a module holds exactly the written messages of the module. *)
Theorem log_is_in_order m l : reachable m l ->
  accepted l = written l ++ rest_of l ++ messages (active_buf_ l) /\
  forall module, content (file_of l module) = part module (written l).
Proof. intros [[Ho _ [_ Hf] _ _ _] _]%log_reachable_inv. split; [done|]. intros module. apply Hf. Qed.

(** When RunThread has returned, everything accepted is written and both CHECKs of Stop hold. *)
Theorem stopped_logger_has_written_all m l : reachable m l -> flusher l = FExit ->
  accepted l = written l /\ messages (active_buf_ l) = [] /\ messages (flushing_buf_ l) = [].
Proof.
  intros [[Ho Hfl _ _ Hex _] _]%log_reachable_inv Ef. destruct (Hex Ef) as [_ [Hm _]%no_needs]. unfold rest_of in Ho. rewrite Ef, Hm, app_nil_r in Ho.
  split; [done|]. split; [done|]. destruct Hfl as [[r ?]|E]; [congruence|by rewrite E].
Qed.

(** A thread that waits in Flush without having been notified is not forgotten: RunThread has
    not returned, and if it sleeps it has been woken. *)
Theorem no_flush_is_forgotten m l t before orig : reachable m l -> apps l !! t = Some (InFlush before orig false) ->
  flusher l <> FNone /\ flusher l <> FExit /\ forall n, flusher l = FWait n -> n = true.
Proof.
  intros [Hc Hw]%log_reachable_inv Ht. destruct (inv_apps _ Hc _ _ _ _ Ht) as (Hn & _ & _ & _ & Hf). specialize (Hf eq_refl).
  split; [done|]. split.
  - intros Ee. destruct Hf as [Hf|Hf]; [|rewrite Ee in Hf; done]. destruct (inv_exit _ Hc Ee) as [_ [_ ?]%no_needs]. congruence.
  - intros n En. destruct (Hw n En) as [|[[_ ?]%no_needs _]]; [done|]. destruct Hf as [Hf|Hf]; [congruence|rewrite En in Hf; done].
Qed.

(** C22. A Flush that ends while the logger is running has done its work: all messages that had
    been accepted before it was called are in the files of their modules, in order, and the files
    have been flushed since, although other threads keep writing. *)
Theorem flush_makes_durable m l t before orig notified : reachable m l ->
  apps l !! t = Some (InFlush before orig notified) -> Flush_round l orig = None -> state_ l = RUNNING ->
  forall module, part module before `prefix_of` durable (file_of l module).
Proof.
  intros [Hc _]%log_reachable_inv Ht Hr Hs module. destruct (inv_apps _ Hc _ _ _ _ Ht) as (_ & Hpre & Ho & Hj & _).
  unfold Flush_round in Hr. destruct (_ && _) eqn:E; [done|]. apply andb_false_iff in E.
  rewrite bool_decide_eq_false, bool_decide_eq_false in E. destruct E as [E|E]; [|done].
  assert (length before <= synced l)%nat as Hb by (destruct Hj as [?|[(_ & _ & _ & ?)|[_ ?]]]; [done|lia|lia]).
  destruct (inv_files _ Hc) as [Hsy Hf]. destruct (Hf module) as (_ & Hp & _). etrans; [|exact Hp].
  assert (before `prefix_of` take (synced l) (written l)) as [k ->].
  { destruct Hpre as [k Hk]. rewrite (inv_order _ Hc) in Hk.
    exists (drop (length before) (take (synced l) (written l))).
    rewrite <- (take_drop (length before) (take (synced l) (written l))) at 1. f_equal.
    rewrite take_take, Nat.min_l by done. rewrite <- (take_app_le (written l) (rest_of l ++ messages (active_buf_ l))) by lia.
    rewrite Hk. by rewrite take_app_length. }
  rewrite part_app. by apply prefix_app_r.
Qed.
End logger.

(** ** A run: a message is written, and Flush is called while it is being written to its file *)
Section run.
Definition note : Msg := mkMsg 7 "I[planning]start" 0.
Definition l0 : AsyncLogger := NewAsyncLogger 0.
Definition l1 : AsyncLogger := default l0 (Start l0).
Definition l2 : AsyncLogger := with_apps l1 (<[1%nat := InWrite false note]> (apps l1)).
Definition l3 : AsyncLogger := Write_locked 48 (with_apps l2 (delete 1%nat (apps l2))) false note.
Definition l4 : AsyncLogger := run_outer l3.
Definition l5 : AsyncLogger := with_apps (default l4 (Flush_round l4 0)) (<[2%nat := InFlush [note] 0 false]> (apps l4)).
Definition l6 : AsyncLogger := run_write "cyber_default" l5 note [].
Definition l7 : AsyncLogger := run_finish l6.
Definition l8 : AsyncLogger := run_relock l7.
Definition l9 : AsyncLogger := run_finish l8.
Definition l10 : AsyncLogger := run_relock l9.

Lemma l10_reachable : reachable "cyber_default" 48 0 l10.
Proof.
  apply (rtc_l _ _ l1); [apply step_start; reflexivity|].
  apply (rtc_l _ _ l2); [apply (step_write_check _ _ l1 1 false 7 "I[planning]start"); reflexivity|].
  apply (rtc_l _ _ l3); [apply step_write; reflexivity|].
  apply (rtc_l _ _ l4); [apply step_run; reflexivity|].
  apply (rtc_l _ _ l5); [apply (step_flush _ _ l4 2); reflexivity|].
  apply (rtc_l _ _ l6); [apply step_run_write; reflexivity|].
  apply (rtc_l _ _ l7); [apply step_run_finish; reflexivity|].
  apply (rtc_l _ _ l8); [apply step_run_relock; reflexivity|].
  apply (rtc_l _ _ l9); [apply step_run_finish; reflexivity|].
  apply (rtc_l _ _ l10); [apply step_run_relock; reflexivity|]. apply rtc_refl.
Qed.

Example before_the_flush : durable (file_of l7 "planning") = [] /\ content (file_of l7 "planning") = [(7, "Istart"%string)].
Proof. vm_compute. done. Qed.

Lemma flush_makes_durable_witness : apps l10 !! 2%nat = Some (InFlush [note] 0 true) /\ Flush_round l10 0 = None /\
  durable (file_of l10 "planning") = [(7, "Istart"%string)] /\
  forall module, part "cyber_default" module [note] `prefix_of` durable (file_of l10 module).
Proof.
  split; [vm_compute; reflexivity|]. split; [vm_compute; reflexivity|]. split; [vm_compute; reflexivity|].
  apply (flush_makes_durable "cyber_default" 48 0 l10 2 [note] 0 true l10_reachable); vm_compute; reflexivity.
Defined.

(** A full buffer makes Write drop the message: no step adds it. *)
Example full_buffer_drops : BufferFull 100 (active_buf_ (Write_locked 48 l1 false (mkMsg 0 "IIIIIIIIII" 0))) = true.
Proof. vm_compute. reflexivity. Qed.
(** Stop after Stop, as the destructor calls it, fails its CHECK. *)
Example stop_twice_aborts : (l ← Stop_locked l1; Stop_locked l) = None /\ Stop_locked l0 = None.
Proof. vm_compute. done. Qed.
End run.
