(* ===== verification/Poller.v ===== *)
(** Poller.v -- waiting for descriptors (io/poller.cc, io/poll_handler.cc, io/session.cc)

    A routine that waits for a descriptor registers a request with the poller
    and yields.  Register and Unregister only note the change in [ctrl_params_];
    the poller's thread passes the noted changes to epoll, waits there, counts
    down the time limits of the requests and calls them back.  The threads interleave
    at the lock of the poller's data.  epoll belongs to the operating system:
    class [Epoll] is what its manual promises of epoll_ctl, and the result of
    epoll_wait is an argument. *)

From S2P Require Import Prelude.
From S2P Require Import Unordered.
From S2P Require Import CRoutine.
Local Open Scope Z_scope.

(** ** epoll *)

Inductive Op := EPOLL_CTL_ADD | EPOLL_CTL_MOD | EPOLL_CTL_DEL.

(** What a call does to the entry of its descriptor: adding an entry that exists
    and changing or deleting one that does not are errors without effect. *)
Definition ctl_effect (op : Op) (ev : Z) (entry : option Z) : option Z :=
  match op with
  | EPOLL_CTL_ADD => Some (default ev entry)
  | EPOLL_CTL_MOD => match entry with Some _ => Some ev | None => None end
  | EPOLL_CTL_DEL => None
  end.

(** An epoll instance: the descriptors it watches with their events.  A
    [pollable] descriptor is open and supports epoll. *)
Class Epoll (E : Type) := {
  interest : E -> gmap Z Z;
  epoll_ctl : E -> Op -> Z -> Z -> E;
  pollable : Z -> Prop;
  epoll_ctl_spec e op fd ev fd' : (op = EPOLL_CTL_ADD -> pollable fd) ->
    interest (epoll_ctl e op fd ev) !! fd' =
      if decide (fd' = fd) then ctl_effect op ev (interest e !! fd) else interest e !! fd'
}.

(** ** State *)

(** A callback is named by a number; the pipe of the poller has number 0. *)
Notation Callback := nat.

Record PollRequest := mkRequest { fd : Z; events : Z; timeout_ms : Z; callback : option Callback }.
Record PollCtrlParam := mkCtrl { operation : Op; ctl_fd : Z; ctl_events : Z }.

Definition with_timeout (t : Z) (r : PollRequest) : PollRequest := mkRequest (fd r) (events r) t (callback r).

Section poller.
Context `{HashOrder} {E : Type} `{Epoll E}.

(** Where the poller's thread is. *)
Inductive ppc :=
| AtTop                                      (* at the test of is_shutdown_ *)
| Applying (l : list (Z * PollCtrlParam))    (* in the loop of HandleChanges *)
| Waiting                                    (* at epoll_wait *)
| Answering (l : list (Z * Z))               (* in the loop that calls back *)
| Exited.

Record Poller := mkPoller {
  is_shutdown_ : bool;
  requests_ : gmap Z PollRequest;
  ctrl_params_ : gmap Z PollCtrlParam;
  epoll : E;
  at_ : ppc;
  calls : list (Z * option Callback * Z)  (* descriptor, callback and events of the calls so far *)
}.

Definition kPollTimeoutMs : Z := 100.
Definition EPOLLIN : Z := 1.
Definition EPOLLOUT : Z := 4.
Definition EPOLLONESHOT : Z := 2 ^ 30.
Definition EPOLLET : Z := 2 ^ 31.

Definition with_data (rq : gmap Z PollRequest) (cp : gmap Z PollCtrlParam) (p : Poller) : Poller :=
  mkPoller (is_shutdown_ p) rq cp (epoll p) (at_ p) (calls p).
Definition goto (a : ppc) (p : Poller) : Poller :=
  mkPoller (is_shutdown_ p) (requests_ p) (ctrl_params_ p) (epoll p) a (calls p).

(** ** Operations *)

Definition Init (e : E) (pipe_fd : Z) : Poller :=
  mkPoller false {[ pipe_fd := mkRequest pipe_fd EPOLLIN (-1) (Some 0%nat) ]}
    {[ pipe_fd := mkCtrl EPOLL_CTL_ADD pipe_fd EPOLLIN ]} e AtTop [].

Definition valid_request (req : PollRequest) : bool := negb ((fd req <? 0) || bool_decide (callback req = None)).

Definition Register (req : PollRequest) (p : Poller) : bool * Poller :=
  if is_shutdown_ p then (false, p)
  else if negb (valid_request req) then (false, p)
  else
    let op := match requests_ p !! fd req with None => EPOLL_CTL_ADD | Some _ => EPOLL_CTL_MOD end in
    (true, with_data (<[fd req := req]> (requests_ p)) (<[fd req := mkCtrl op (fd req) (events req)]> (ctrl_params_ p)) p).

Definition Unregister (req : PollRequest) (p : Poller) : bool * Poller :=
  if is_shutdown_ p then (false, p)
  else if negb (valid_request req) then (false, p)
  else match requests_ p !! fd req with
       | None => (false, p)
       | Some _ => (true, with_data (delete (fd req) (requests_ p))
                            (<[fd req := mkCtrl EPOLL_CTL_DEL (fd req) 0]> (ctrl_params_ p)) p)
       end.

Definition GetTimeoutMs (p : Poller) : Z :=
  foldl (fun t '(_, req) => if (0 <=? timeout_ms req) && (timeout_ms req <? t) then timeout_ms req else t)
    kPollTimeoutMs (iter (requests_ p)).

(** The milliseconds Poll takes a wait for, from the clock before and after it. *)
Definition interval_ms (before after : Z) : Z :=
  let i := i32 (u64 (after - before) / 1000000) in if i =? 0 then 1 else i.

(** The time limit of a request after a wait, before the test for 0 *)
Definition count_down (interval : Z) (t : Z) : Z :=
  if 0 <? t then let t := i32 (t - interval) in if t <? 0 then 0 else t else t.

(** The requests whose last change epoll does not know yet are left alone. *)
Definition skipped (p : Poller) (req : PollRequest) : bool := bool_decide (is_Some (ctrl_params_ p !! fd req)).

Definition expire (interval : Z) (p : Poller) (req : PollRequest) : PollRequest :=
  if skipped p req then req
  else let t := count_down interval (timeout_ms req) in with_timeout (if t =? 0 then -1 else t) req.
Definition expired (interval : Z) (p : Poller) (req : PollRequest) : option Z :=
  if skipped p req then None else if count_down interval (timeout_ms req) =? 0 then Some 0 else None.

(** The part of Poll under its first lock, and the responses after it. *)
Definition responses (interval : Z) (ready : list (Z * Z)) (p : Poller) : gmap Z Z :=
  foldl (fun m '(d, ev) => <[d := ev]> m) (omap (expired interval p) (requests_ p)) ready.
Definition Poll_expire (interval : Z) (p : Poller) : Poller :=
  with_data (expire interval p <$> requests_ p) (ctrl_params_ p) p.

(** One call back. *)
Definition Poll_answer (p : Poller) (item : Z * Z) : Poller :=
  let '(d, ev) := item in
  match requests_ p !! d with
  | None => p
  | Some req =>
      mkPoller (is_shutdown_ p) (<[d := with_timeout (-1) req]> (requests_ p)) (ctrl_params_ p) (epoll p) (at_ p)
        (calls p ++ [(d, callback req, ev)])
  end.

Definition apply_ctl (e : E) (item : Z * PollCtrlParam) : E :=
  epoll_ctl e (operation item.2) (ctl_fd item.2) (ctl_events item.2).

(** ThreadFunc, one locked section or one system call at a time.  [interval] and
    [ready] are what epoll_wait and the clock return. *)
Definition ThreadFunc (interval : Z) (ready : list (Z * Z)) (p : Poller) : Poller :=
  match at_ p with
  | AtTop =>
      if is_shutdown_ p then goto Exited p
      else mkPoller (is_shutdown_ p) (requests_ p) ∅ (epoll p) (Applying (iter (ctrl_params_ p))) (calls p)
  | Applying [] => goto Waiting p
  | Applying (item :: l) =>
      mkPoller (is_shutdown_ p) (requests_ p) (ctrl_params_ p) (apply_ctl (epoll p) item) (Applying l) (calls p)
  | Waiting => goto (Answering (iter (responses interval ready p))) (Poll_expire interval p)
  | Answering [] => goto AtTop p
  | Answering (item :: l) => goto (Answering l) (Poll_answer p item)
  | Exited => p
  end.

(** Shutdown sets the flag; Clear joins the thread before it empties the maps. *)
Definition Shutdown (p : Poller) : Poller :=
  mkPoller true (requests_ p) (ctrl_params_ p) (epoll p) (at_ p) (calls p).
Definition Clear (p : Poller) : option Poller :=
  match at_ p with Exited => Some (with_data ∅ ∅ p) | _ => None end.

(** ** Executions *)

Inductive action := DoRegister (req : PollRequest) | DoUnregister (req : PollRequest) | DoThread (interval : Z) (ready : list (Z * Z)).

Definition act (a : action) (p : Poller) : Poller :=
  match a with
  | DoRegister req => (Register req p).2
  | DoUnregister req => (Unregister req p).2
  | DoThread interval ready => ThreadFunc interval ready p
  end.

Definition acts (l : list action) (p : Poller) : Poller := foldl (fun p a => act a p) p l.
End poller.

(** ** What epoll watches *)

Section watching.
Context `{HashOrder} {E : Type} `{Epoll E}.

(** The noted change of a descriptor takes epoll from [watched] to the request. *)
Definition change_ok (wanted watched : option Z) (d : Z) (c : PollCtrlParam) : Prop :=
  ctl_fd c = d /\
  match operation c with
  | EPOLL_CTL_ADD => wanted = Some (ctl_events c) /\ watched = None /\ pollable d
  | EPOLL_CTL_MOD => wanted = Some (ctl_events c) /\ is_Some watched
  | EPOLL_CTL_DEL => wanted = None
  end.

Definition consistent (rq : gmap Z PollRequest) (cp : gmap Z PollCtrlParam) (m : gmap Z Z) : Prop :=
  forall d, match cp !! d with
            | None => m !! d = events <$> rq !! d
            | Some c => change_ok (events <$> rq !! d) (m !! d) d c
            end.

(** The changes HandleChanges has taken and not yet passed on. *)
Definition taken (p : Poller (E:=E)) : list (Z * PollCtrlParam) := match at_ p with Applying l => l | _ => [] end.

Definition watch_inv (p : Poller) : Prop :=
  consistent (requests_ p) (ctrl_params_ p) (interest (foldl apply_ctl (epoll p) (taken p))).

(** Register of a descriptor whose noted change adds or deletes it: the note is overwritten. *)
Definition overwrites (a : action) (p : Poller (E:=E)) : bool :=
  match a with
  | DoRegister req =>
      match ctrl_params_ p !! fd req with
      | Some (mkCtrl EPOLL_CTL_MOD _ _) | None => false
      | _ => true
      end
  | _ => false
  end.

Fixpoint orderly (l : list action) (p : Poller) : bool :=
  match l with [] => true | a :: l => negb (overwrites a p) && orderly l (act a p) end.

Lemma consistent_events rq rq' cp m : (forall d, events <$> rq' !! d = events <$> rq !! d) -> consistent rq cp m -> consistent rq' cp m.
Proof.
  intros He Hc d. specialize (Hc d). by rewrite He.
Qed.

(** Applying the noted changes makes epoll watch what is requested. *)
Lemma apply_changes rq cp (e : E) : consistent rq cp (interest e) -> consistent rq ∅ (interest (foldl apply_ctl e (iter cp))).
Proof.
  intros Hc d. rewrite lookup_empty.
  cut (forall d, interest (foldl apply_ctl e (iter cp)) !! d =
         match cp !! d with None => interest e !! d | Some c => ctl_effect (operation c) (ctl_events c) (interest e !! d) end).
  { intros ->. specialize (Hc d). destruct (cp !! d) as [c|]; [|done]. destruct Hc as [_ Hc].
    destruct (operation c); simpl.
    - by destruct Hc as (-> & -> & _).
    - by destruct Hc as (-> & [ev ->]).
    - done. }
  clear d. apply (foldl_iter_ind cp apply_ctl (fun m0 e' => forall d, interest e' !! d =
    match m0 !! d with None => interest e !! d | Some c => ctl_effect (operation c) (ctl_events c) (interest e !! d) end)).
  - intros d. by rewrite lookup_empty.
  - intros m0 e' d c _ Hn Hd IH d'. pose proof (Hc d) as Hcd. rewrite Hd in Hcd. destruct Hcd as [Hfd Hop].
    unfold apply_ctl. simpl. rewrite epoll_ctl_spec, Hfd.
    + destruct (decide (d' = d)) as [->|Hne]; [by rewrite lookup_insert_eq, IH, Hn|by rewrite lookup_insert_ne, IH].
    + rewrite Hfd. intros Ho. rewrite Ho in Hop. by destruct Hop as (_ & _ & ?).
Qed.

Lemma watch_data (p : Poller) rq cp :
  consistent rq cp (interest (foldl apply_ctl (epoll p) (taken p))) -> watch_inv (with_data rq cp p).
Proof. by unfold watch_inv, taken. Qed.

Lemma watch_register req (p : Poller) : pollable (fd req) -> overwrites (DoRegister req) p = false ->
  watch_inv p -> watch_inv (Register req p).2.
Proof.
  intros Hpo Ho Hi. unfold Register. destruct (is_shutdown_ p); [done|]. destruct (valid_request req); [|done]. simpl.
  apply watch_data. unfold watch_inv in Hi. set (m := interest _) in *. intros d.
  destruct (decide (d = fd req)) as [->|Hne].
  - rewrite !lookup_insert_eq. split; [done|]. specialize (Hi (fd req)). simpl in Ho.
    destruct (requests_ p !! fd req) as [r|] eqn:Er; simpl.
    + split; [done|]. destruct (ctrl_params_ p !! fd req) as [[[] x y]|]; simpl in *; try done.
      by destruct Hi as (_ & _ & ?).
    + split; [done|]. split; [|done]. destruct (ctrl_params_ p !! fd req) as [[[] x y]|]; simpl in *; try done.
      by destruct Hi as (_ & ? & _).
  - rewrite !lookup_insert_ne by done. apply Hi.
Qed.

Lemma watch_unregister req (p : Poller) : watch_inv p -> watch_inv (Unregister req p).2.
Proof.
  intros Hi. unfold Unregister. destruct (is_shutdown_ p); [done|]. destruct (valid_request req); [|done]. simpl.
  destruct (requests_ p !! fd req) as [r|] eqn:Er; [|done]. apply watch_data. intros d.
  destruct (decide (d = fd req)) as [->|Hne].
  - rewrite lookup_insert_eq, lookup_delete_eq. done.
  - rewrite lookup_insert_ne, lookup_delete_ne by done. apply Hi.
Qed.

Lemma expire_events interval (p : Poller (E:=E)) r : events (expire interval p r) = events r.
Proof. unfold expire. by destruct (skipped p r). Qed.

Lemma answer_events (p : Poller (E:=E)) item d : events <$> requests_ (Poll_answer p item) !! d = events <$> requests_ p !! d.
Proof.
  destruct item as [d' ev]. unfold Poll_answer. destruct (requests_ p !! d') as [r|] eqn:Er; [|done]. simpl.
  destruct (decide (d = d')) as [->|Hne]; [by rewrite lookup_insert_eq, Er|by rewrite lookup_insert_ne].
Qed.

Lemma watch_thread interval ready (p : Poller) : watch_inv p -> watch_inv (ThreadFunc interval ready p).
Proof.
  intros Hi. unfold ThreadFunc, watch_inv, taken in *. destruct (at_ p) as [|[|item l]| |[|[d ev] l]|] eqn:Ea; simpl in *; try done.
  - destruct (is_shutdown_ p); simpl; [done|]. by apply apply_changes.
  - eapply consistent_events; [|exact Hi]. intros d. rewrite lookup_fmap. destruct (requests_ p !! d); [|done]. simpl.
    by rewrite expire_events.
  - eapply consistent_events; [apply (answer_events p (d, ev))|]. unfold Poll_answer. by destruct (requests_ p !! d).
  - by rewrite Ea.
Qed.

Lemma watch_act a (p : Poller) : (forall req, a = DoRegister req -> pollable (fd req)) -> overwrites a p = false ->
  watch_inv p -> watch_inv (act a p).
Proof.
  intros Hp Ho Hi. destruct a; simpl; [by apply watch_register; auto|by apply watch_unregister|by apply watch_thread].
Qed.

Lemma watch_acts l (p : Poller) : (forall req, DoRegister req ∈ l -> pollable (fd req)) -> orderly l p = true ->
  watch_inv p -> watch_inv (acts l p).
Proof.
  revert p. induction l as [|a l IH]; intros p Hp Ho Hi; [done|]. simpl in *. apply andb_prop in Ho as [Ha%negb_true_iff Ho].
  apply IH; [|done|].
  - intros req Hin. apply Hp. by right.
  - apply watch_act; [|done|done]. intros req ->. apply Hp. by left.
Qed.

Lemma watch_init (e : E) pipe_fd : interest e = ∅ -> pollable pipe_fd -> watch_inv (Init e pipe_fd).
Proof.
  intros He Hp d. simpl. destruct (decide (d = pipe_fd)) as [->|Hne].
  - rewrite !lookup_singleton_eq. unfold change_ok. simpl. by rewrite He.
  - rewrite !lookup_singleton_ne by done. by rewrite He.
Qed.

(** epoll watches what is requested: in every execution of Register,
    Unregister and the poller's thread, in any interleaving, in which nobody registers a
    descriptor whose addition or deletion is still noted and not taken by the
    thread, whenever the thread waits in epoll_wait, every descriptor without a
    noted change is watched with exactly the events of its request, and not
    watched if it has none. *)
Theorem poller_watches_the_requests (e : E) pipe_fd l d :
  interest e = ∅ -> pollable pipe_fd -> (forall req, DoRegister req ∈ l -> pollable (fd req)) ->
  orderly l (Init e pipe_fd) = true ->
  let p := acts l (Init e pipe_fd) in
  at_ p = Waiting -> ctrl_params_ p !! d = None -> interest (epoll p) !! d = events <$> requests_ p !! d.
Proof.
  intros He Hp Hl Ho p Hw Hd. pose proof (watch_acts l _ Hl Ho (watch_init e pipe_fd He Hp) d) as Hi.
  fold p in Hi. unfold taken in Hi. by rewrite Hd, Hw in Hi.
Qed.
End watching.

(** ** Time limits *)

Section timing.
Context `{HashOrder} {E : Type} `{Epoll E}.
Implicit Types p : Poller (E:=E).

(** A whole Poll, with nobody else at the lock. *)
Definition Poll (round : Z * list (Z * Z)) p : Poller :=
  foldl Poll_answer (Poll_expire round.1 p) (iter (responses round.1 round.2 p)).

Lemma goto_answers l a p : foldl Poll_answer (goto a p) l = goto a (foldl Poll_answer p l).
Proof.
  revert p. induction l as [|[d ev] l IH]; intros p; simpl; [done|]. rewrite <- IH. f_equal. by destruct (requests_ p !! d).
Qed.

(** The thread gets from epoll_wait to the top of its loop by one Poll. *)
Lemma answering_steps l p : at_ p = Answering l ->
  exists k, Nat.iter k (ThreadFunc 0 []) p = goto AtTop (foldl Poll_answer p l).
Proof.
  revert p. induction l as [|item l IH]; intros p Ha.
  - exists 1%nat. simpl. unfold ThreadFunc. by rewrite Ha.
  - destruct (IH (goto (Answering l) (Poll_answer p item)) eq_refl) as [k Hk].
    exists (S k). rewrite Nat.iter_succ_r. unfold ThreadFunc at 2. rewrite Ha, Hk. simpl. by rewrite goto_answers.
Qed.

Lemma waiting_is_Poll interval ready p : at_ p = Waiting ->
  exists k, Nat.iter k (ThreadFunc 0 []) (ThreadFunc interval ready p) = goto AtTop (Poll (interval, ready) p).
Proof.
  intros Ha. unfold ThreadFunc at 2. rewrite Ha. destruct (answering_steps (iter (responses interval ready p))
    (goto (Answering (iter (responses interval ready p))) (Poll_expire interval p)) eq_refl) as [k Hk].
  exists k. rewrite Hk. unfold Poll. simpl. by rewrite goto_answers.
Qed.

(** What epoll_wait reports of a descriptor. *)
Definition event_of (d : Z) (ready : list (Z * Z)) : option Z :=
  foldl (fun o '(d', ev) => if decide (d' = d) then Some ev else o) None ready.

(** What a request is to be told, from its time limit [t] (none when negative):
    every event, and once that its time is over. *)
Fixpoint answers (d t : Z) (rounds : list (Z * list (Z * Z))) : list Z :=
  match rounds with
  | [] => []
  | (interval, ready) :: rounds =>
      match event_of d ready with
      | Some ev => ev :: answers d (-1) rounds
      | None =>
          if t <? 0 then answers d t rounds
          else if t <=? interval then 0 :: answers d (-1) rounds
          else answers d (t - interval) rounds
      end
  end.

Definition calls_of (d : Z) p : list (Z * option Callback * Z) := filter (fun c => c.1.1 = d) (calls p).

Lemma responses_lookup interval ready p d :
  responses interval ready p !! d =
    match event_of d ready with Some ev => Some ev | None => requests_ p !! d ≫= expired interval p end.
Proof.
  unfold responses, event_of. rewrite <- lookup_omap. generalize (omap (expired interval p) (requests_ p)) as m.
  intros m.
  induction ready as [|[d' ev] ready IH] using rev_ind; [done|]. rewrite !foldl_app. simpl.
  destruct (decide (d' = d)) as [->|Hne]; [by rewrite lookup_insert_eq|by rewrite lookup_insert_ne].
Qed.

(** The call backs of one round, seen by the request of descriptor [d]. *)
Lemma answer_round (m : gmap Z Z) p d r : requests_ p !! d = Some r ->
  let p' := foldl Poll_answer p (iter m) in
  ctrl_params_ p' = ctrl_params_ p /\
  requests_ p' !! d = Some (if m !! d then with_timeout (-1) r else r) /\
  calls_of d p' = calls_of d p ++ match m !! d with Some ev => [(d, callback r, ev)] | None => [] end.
Proof.
  intros Hr. apply (foldl_iter_ind m Poll_answer (fun m0 p' => ctrl_params_ p' = ctrl_params_ p /\
    requests_ p' !! d = Some (if m0 !! d then with_timeout (-1) r else r) /\
    calls_of d p' = calls_of d p ++ match m0 !! d with Some ev => [(d, callback r, ev)] | None => [] end)).
  - rewrite lookup_empty, app_nil_r. done.
  - intros m0 p' d' ev _ Hn Hd' (Hc & Hq & Hl). unfold Poll_answer.
    destruct (decide (d' = d)) as [->|Hne].
    + rewrite Hn in Hq, Hl. rewrite Hq, lookup_insert_eq. simpl. split; [done|]. rewrite lookup_insert_eq. split; [done|].
      unfold calls_of in *. simpl. rewrite filter_app, Hl, app_nil_r. f_equal. by rewrite filter_cons_True.
    + rewrite lookup_insert_ne by done. destruct (requests_ p' !! d') as [r'|]; [|done]. simpl. split; [done|].
      rewrite lookup_insert_ne by done. split; [done|]. unfold calls_of in *. simpl.
      rewrite filter_app, Hl, filter_cons_False by done. by rewrite app_nil_r.
Qed.

(** One round of a request that epoll knows. *)
Lemma Poll_one interval ready p d r : requests_ p !! d = Some r -> fd r = d -> ctrl_params_ p !! d = None ->
  -1 <= timeout_ms r < 2 ^ 31 -> 0 < interval < 2 ^ 31 ->
  let o := match event_of d ready with
           | Some ev => Some ev
           | None => if (0 <=? timeout_ms r) && (timeout_ms r <=? interval) then Some 0 else None
           end in
  let t := if timeout_ms r <? 0 then timeout_ms r else timeout_ms r - interval in
  ctrl_params_ (Poll (interval, ready) p) !! d = None /\
  requests_ (Poll (interval, ready) p) !! d = Some (with_timeout (if o then -1 else t) r) /\
  calls_of d (Poll (interval, ready) p) = calls_of d p ++ match o with Some ev => [(d, callback r, ev)] | None => [] end.
Proof.
  intros Hr Hfd Hc Ht Hi o t.
  assert (skipped p r = false) as Hs by (unfold skipped; rewrite Hfd, Hc; by apply bool_decide_eq_false, is_Some_None).
  assert (responses interval ready p !! d = o) as Ho.
  { rewrite responses_lookup, Hr. unfold o, expired. simpl. rewrite Hs. destruct (event_of d ready); [done|].
    unfold count_down. destruct (Z.ltb_spec 0 (timeout_ms r)); [rewrite i32_small by (unfold is_i32; lia)|]; zcases; done || lia. }
  destruct (answer_round (responses interval ready p) (Poll_expire interval p) d (expire interval p r)) as (H1 & H2 & H3).
  { simpl. by rewrite lookup_fmap, Hr. }
  rewrite Ho in *. unfold Poll. simpl. rewrite H1. split; [done|].
  assert (callback (expire interval p r) = callback r) as Hcb by (unfold expire; by rewrite Hs).
  rewrite Hcb in H3. split; [|done]. rewrite H2. f_equal. unfold expire. rewrite Hs. destruct o eqn:Eo; [done|].
  f_equal. unfold t, count_down. unfold o in Eo. destruct (event_of d ready); [done|].
  destruct (Z.ltb_spec 0 (timeout_ms r)); [rewrite i32_small by (unfold is_i32; lia)|]; zcases; done || lia.
Qed.

Lemma least_timeout (l : list (Z * PollRequest)) t0 :
  let t := foldl (fun t '(_, req) => if (0 <=? timeout_ms req) && (timeout_ms req <? t) then timeout_ms req else t) t0 l in
  t <= t0 /\ forall x, x ∈ l -> 0 <= timeout_ms x.2 -> t <= timeout_ms x.2.
Proof.
  revert t0. induction l as [|[k req] l IH]; intros t0; simpl; [split; [lia|by intros ? ?%elem_of_nil]|].
  set (t1 := if (0 <=? timeout_ms req) && (timeout_ms req <? t0) then timeout_ms req else t0).
  assert (t1 <= t0 /\ (0 <= timeout_ms req -> t1 <= timeout_ms req)) as [Ht0 Ht1] by (unfold t1; zcases; simpl; lia).
  destruct (IH t1) as [Hl Hx]. split; [lia|]. intros x [->|Hin]%elem_of_cons Hp; [|by apply Hx]. specialize (Ht1 Hp). simpl. lia.
Qed.

(** The poller serves the requests independently of each other: over any
    number of rounds, a request that epoll knows is called back exactly as
    its own descriptor and time limit demand, once for every event and once when
    its time is over, and an event ends the time limit.  Meanwhile the thread
    never waits longer than the time any request has left, nor longer than 100 ms. *)
Theorem requests_are_answered_in_time rounds p d r :
  requests_ p !! d = Some r -> fd r = d -> ctrl_params_ p !! d = None -> -1 <= timeout_ms r < 2 ^ 31 ->
  Forall (fun round => 0 < round.1 < 2 ^ 31) rounds ->
  calls_of d (foldl (fun p round => Poll round p) p rounds) =
    calls_of d p ++ ((fun ev => (d, callback r, ev)) <$> answers d (timeout_ms r) rounds) /\
  (GetTimeoutMs p <= kPollTimeoutMs /\ (0 <= timeout_ms r -> GetTimeoutMs p <= timeout_ms r)).
Proof.
  intros Hr Hfd Hc Ht Hf. split.
  - revert p r Hr Hfd Hc Ht. induction Hf as [|[interval ready] rounds Hi Hf IH]; intros p r Hr Hfd Hc Ht.
    + by rewrite app_nil_r.
    + destruct (Poll_one interval ready p d r Hr Hfd Hc Ht Hi) as (H1 & H2 & H3). simpl in *.
      rewrite (IH _ _ H2); [|done|done|].
      * rewrite H3. destruct (event_of d ready) as [ev|]; [by rewrite <- app_assoc|]. simpl.
        destruct (Z.ltb_spec (timeout_ms r) 0), (Z.leb_spec 0 (timeout_ms r)), (Z.leb_spec (timeout_ms r) interval);
          simpl; try lia; by rewrite <- ?app_assoc, ?app_nil_r.
      * simpl. destruct (event_of d ready); [lia|]. zcases; simpl; lia.
  - destruct (least_timeout (iter (requests_ p)) kPollTimeoutMs) as [H1 H2]. split; [done|]. intros Hpos.
    apply (H2 (d, r)); [by apply elem_of_iter|done].
Qed.
End timing.

(** ** PollHandler *)

Section handler.
Context `{HashOrder} {E : Type} `{Epoll E}.

(** The handler [self] of a descriptor; its routine is the one that calls Block. *)
Record PollHandler := mkHandler {
  h_self : Callback; h_fd : Z; is_read_ : bool; is_blocking_ : bool; has_routine : bool; request_ : PollRequest; response_ : Z
}.

Definition NewPollHandler (self : Callback) (d : Z) : PollHandler :=
  mkHandler self d false false false (mkRequest (-1) 0 (-1) None) 0.

Definition with_blocking (b : bool) (h : PollHandler) : PollHandler :=
  mkHandler (h_self h) (h_fd h) (is_read_ h) b (has_routine h) (request_ h) (response_ h).

(** PollHandler::Check; [in_routine] says whether there is a current routine. *)
Definition PollHandler_Check (in_routine : bool) (timeout : Z) (h : PollHandler) : bool * PollHandler :=
  if timeout =? 0 then (false, h)
  else if h_fd h <? 0 then (false, h)
  else let h := mkHandler (h_self h) (h_fd h) (is_read_ h) (is_blocking_ h) in_routine (request_ h) (response_ h) in
       (in_routine, h).

Definition target_events (is_read : bool) : Z := if is_read then EPOLLIN else EPOLLOUT.

Definition Fill (timeout : Z) (is_read : bool) (h : PollHandler) : PollHandler :=
  mkHandler (h_self h) (h_fd h) is_read (is_blocking_ h) (has_routine h)
    (mkRequest (h_fd h) (Z.lor (Z.lor EPOLLET EPOLLONESHOT) (target_events is_read)) timeout (Some (h_self h))) (response_ h).

(** Block up to the Yield: whether it gets there. *)
Definition Block_begin (in_routine : bool) (timeout : Z) (is_read : bool) (h : PollHandler) (p : Poller (E:=E))
    : bool * PollHandler * Poller :=
  let '(ok, h) := PollHandler_Check in_routine timeout h in
  if negb ok then (false, h, p)
  else if is_blocking_ h then (false, h, p)
  else
    let h := Fill timeout is_read (with_blocking true h) in
    let '(registered, p) := Register (request_ h) p in
    if registered then (true, h, p) else (false, with_blocking false h, p).

(** Block after the Yield. *)
Definition Block_end (is_read : bool) (h : PollHandler) : bool * PollHandler :=
  (negb (Z.land (response_ h) (target_events is_read) =? 0), with_blocking false h).

Definition Unblock (h : PollHandler) (p : Poller (E:=E)) : bool * PollHandler * Poller :=
  let h := with_blocking false h in let '(ok, p) := Unregister (request_ h) p in (ok, h, p).

Definition ResponseCallback (rsp : Z) (h : PollHandler) (c : CRoutine) : PollHandler * CRoutine :=
  if negb (is_blocking_ h) || negb (has_routine h) then (h, c)
  else (mkHandler (h_self h) (h_fd h) (is_read_ h) (is_blocking_ h) (has_routine h) (request_ h) rsp,
        if bool_decide (state_ c = IO_WAIT) then SetUpdateFlag c else c).

(** A routine that has yielded and is called back becomes ready, and Block
    tells whether the event it waited for has come; it may block again. *)
Lemma block_wakes_up timeout is_read h (p p' : Poller) h' c ev now :
  Block_begin true timeout is_read h p = (true, h', p') -> state_ c = READY ->
  let c1 := run (YieldState IO_WAIT) c in
  let '(h2, c2) := ResponseCallback ev h' c1 in
  (UpdateState now c2).1 = READY /\
  Block_end is_read h2 = (negb (Z.land ev (target_events is_read) =? 0), with_blocking false h2) /\
  requests_ p' !! h_fd h = Some (request_ h') /\ request_ h2 = request_ h'.
Proof.
  unfold Block_begin, PollHandler_Check. intros Hb Hs. destruct (timeout =? 0); [done|]. destruct (h_fd h <? 0) eqn:Ef; [done|]. simpl in Hb.
  destruct (is_blocking_ h); [done|]. unfold Register in Hb. destruct (is_shutdown_ p); [done|].
  destruct (valid_request _); [|done]. simpl in Hb. injection Hb as <- <-. simpl. by rewrite lookup_insert_eq.
Qed.
End handler.

(** ** Session: a transfer without and with a time limit *)

Section session.

(** What a system call on a non-blocking descriptor returns. *)
Inductive io_result := Bytes (n : Z) | Again | Failed (errno : Z).

(** The loop of Session::Recv, RecvFrom, Send, SendTo, Read and Write.  [calls]
    are the results of the system call, [blocks] those of Block; [None] when the
    loop needs more of them. *)
Fixpoint transfer_loop (timeout : Z) (r : io_result) (calls : list io_result) (blocks : list bool) : option io_result :=
  match r with
  | Again =>
      match blocks with
      | [] => None
      | b :: blocks =>
          match (if b then match calls with [] => None | r :: calls => Some (r, calls) end else Some (r, calls)) with
          | None => None
          | Some (r, calls) => if 0 <? timeout then Some r else transfer_loop timeout r calls blocks
          end
      end
  | _ => Some r
  end.

Definition transfer (timeout : Z) (calls : list io_result) (blocks : list bool) : option io_result :=
  match calls with
  | [] => None
  | r :: calls => if timeout =? 0 then Some r else transfer_loop timeout r calls blocks
  end.

(** Without a time limit the result is the first that is not "again"; with one
    there is at most one wait; with the limit 0 there is none. *)
Lemma transfer_result timeout r calls blocks out : transfer timeout (r :: calls) blocks = Some out ->
  (timeout = 0 -> out = r) /\
  (0 < timeout -> out = match r, blocks, calls with Again, true :: _, r' :: _ => r' | _, _, _ => r end) /\
  (timeout < 0 -> out <> Again).
Proof.
  unfold transfer. destruct (Z.eqb_spec timeout 0) as [->|Hne]; [intros [= <-]; repeat split; lia|]. intros Hl.
  split; [done|]. split.
  - intros Hpos. destruct blocks as [|b blocks], r; simpl in Hl; simplify_eq; try done.
    destruct b; [destruct calls as [|r' calls]; [done|]|]; rewrite (proj2 (Z.ltb_lt _ _)) in Hl by lia; by simplify_eq.
  - intros Hneg. revert r calls Hl. induction blocks as [|b blocks IH]; intros r calls Hl; destruct r; simpl in Hl; simplify_eq; try done.
    destruct b; [destruct calls as [|r' calls]; [done|]|]; rewrite (proj2 (Z.ltb_ge _ _)) in Hl by lia; by eapply IH.
Qed.
End session.

(** ** Examples *)

(** An epoll instance that does what the manual says. *)
#[refine] Instance map_epoll : Epoll (gmap Z Z) := {
  interest := fun e => e;
  epoll_ctl := fun e op fd ev => partial_alter (ctl_effect op ev) fd e;
  pollable := fun _ => True
}.
Proof.
  intros e op fd ev fd' _. destruct (decide (fd' = fd)) as [->|Hne]; [apply lookup_partial_alter_eq|by apply lookup_partial_alter_ne].
Defined.

Definition read_5 (timeout : Z) : PollRequest := mkRequest 5 EPOLLIN timeout (Some 1%nat).
Definition write_5 : PollRequest := mkRequest 5 EPOLLOUT (-1) (Some 2%nat).
Definition turn : action := DoThread 10 [].
Definition start : Poller (E := gmap Z Z) := Init ∅ 3.

Lemma poller_watches_the_requests_witness :
  interest (epoll (acts [DoRegister (read_5 50); turn; turn; turn; turn] start)) !! 5 = Some EPOLLIN.
Proof.
  refine (eq_trans (poller_watches_the_requests (E := gmap Z Z) ∅ 3 [DoRegister (read_5 50); turn; turn; turn; turn] 5
    eq_refl I (fun _ _ => I) _ _ _) _); vm_compute; reflexivity.
Defined.

Lemma requests_are_answered_in_time_witness :
  let p := acts [DoRegister (read_5 50); turn; turn; turn; turn] start in
  calls_of 5 (foldl (fun p round => Poll round p) p [(30, []); (30, []); (30, [(5, EPOLLIN)])]) =
    [(5, Some 1%nat, 0); (5, Some 1%nat, EPOLLIN)] /\ GetTimeoutMs p = 50.
Proof.
  intros p. split; [|vm_compute; reflexivity].
  refine (eq_trans (proj1 (requests_are_answered_in_time [(30, []); (30, []); (30, [(5, EPOLLIN)])] p 5 (read_5 50) _ _ _ _ _)) _);
    [vm_compute; reflexivity|reflexivity|vm_compute; reflexivity|vm_compute; split; [discriminate|reflexivity]| |vm_compute; reflexivity].
  repeat (apply Forall_cons; split; [split; reflexivity|]). apply Forall_nil. exact I.
Defined.

(** Registering twice before the thread turns notes a modification of a
    descriptor epoll does not know: the call fails and the descriptor is never watched. *)
Theorem twice_registered_is_not_watched :
  let p := acts [DoRegister (read_5 (-1)); DoRegister (read_5 (-1)); turn; turn; turn; turn] start in
  at_ p = Waiting /\ ctrl_params_ p = ∅ /\ requests_ p !! 5 = Some (read_5 (-1)) /\ interest (epoll p) !! 5 = None.
Proof. by vm_compute. Qed.

(** Unregistering and registering again before the thread turns notes an
    addition of a descriptor epoll still has: the call fails and the old events are watched. *)
Theorem registered_anew_keeps_old_events :
  let p := acts [DoRegister (read_5 (-1)); turn; turn; turn; turn; turn; turn;
                 DoUnregister (read_5 (-1)); DoRegister write_5; turn; turn; turn] start in
  at_ p = Waiting /\ ctrl_params_ p = ∅ /\ events <$> requests_ p !! 5 = Some EPOLLOUT /\ interest (epoll p) !! 5 = Some EPOLLIN.
Proof. by vm_compute. Qed.

(** The event comes between Register and Yield: the callback sees a routine that
    does not wait, and does not flag it; the time limit is gone as well, so
    the routine waits although Block was answered. *)
Theorem io_wakeup_can_be_lost :
  exists h p, Block_begin true 50 true (NewPollHandler 1 5) start = (true, h, p) /\
    let p' := Poll (1, [(5, EPOLLIN)]) (acts [turn; turn; turn; turn] p) in
    calls_of 5 p' = [(5, Some 1%nat, EPOLLIN)] /\ timeout_ms <$> requests_ p' !! 5 = Some (-1) /\
    let '(h', c) := ResponseCallback EPOLLIN h (NewCRoutine 0) in
    let c := run (YieldState IO_WAIT) c in
    forall now, (UpdateState now c).1 = IO_WAIT /\ (UpdateState now (UpdateState now c).2).1 = IO_WAIT.
Proof.
  eexists _, _. split; [reflexivity|]. split; [vm_compute; reflexivity|]. split; [vm_compute; reflexivity|]. by intros now.
Qed.

(** A wait of less than a millisecond counts as one: while other descriptors are
    busy, fifty waits of 100 microseconds use up a time limit of 50 ms in 5 ms. *)
Theorem short_waits_expire_early :
  let p := acts [DoRegister (read_5 50); turn; turn; turn; turn] start in
  let round := (interval_ms 0 100000, [(3, EPOLLIN)]) in
  calls_of 5 (foldl (fun p round => Poll round p) p (replicate 50 round)) = [(5, Some 1%nat, 0)].
Proof. by vm_compute. Qed.
