(* ===== verification/Component.v ===== *)
(** Component.v -- the life cycle of components (component/, node/node.h, mainboard/module_controller.cc)

    A component has a node, readers on the channels of its configuration and a
    task of the scheduler, or a timer.  The module controller creates the
    components of its configuration files one after the other, and stops at the
    first that fails; Clear shuts the components down and destroys them.  What
    components hold of the process (tasks of the scheduler, readers in the
    topology, running timers) is a set of resources; tasks are known by
    their names, which is what file SchedulerSpec shows of the scheduler as long
    as their hashes differ. *)

From S2P Require Import Prelude.
Local Open Scope string_scope.

(** ** Resources *)

Inductive Resource :=
| Task (name : string)              (* a task of the scheduler *)
| Joined (node channel : string)    (* a reader in the topology *)
| Running (id : nat).               (* the timer of a component *)

#[export] Instance Resource_eq_dec : EqDecision Resource.
Proof. solve_decision. Defined.

#[export] Instance Resource_countable : Countable Resource.
Proof.
  refine (inj_countable' (fun r => match r with Task n => inl (inl n) | Joined n c => inl (inr (n, c)) | Running i => inr i end)
    (fun x => match x with inl (inl n) => Task n | inl (inr (n, c)) => Joined n c | inr i => Running i end) _).
  by intros [].
Defined.

Notation World := (gset Resource).

(** Scheduler::CreateTask and RemoveTask *)
Definition CreateTask (name : string) (w : World) : bool * World :=
  if bool_decide (Task name ∈ w) then (false, w) else (true, {[Task name]} ∪ w).
Definition RemoveTask (name : string) (w : World) : World := w ∖ {[Task name]}.

(** ** Readers *)

(** The name of a reader's routine *)
Definition croutine_name_ (node channel : string) : string := node ++ "_" ++ channel.

(** Reader::Init and Reader::Shutdown; [reality] is the mode of the process.  In
    simulation mode readers are intra readers, which hold nothing of the process. *)
Definition Reader_Init (reality : bool) (node channel : string) (w : World) : bool * World :=
  if negb reality then (true, w)
  else let '(ok, w) := CreateTask (croutine_name_ node channel) w in
       if ok then (true, {[Joined node channel]} ∪ w) else (false, w).
Definition Reader_Shutdown (reality : bool) (node channel : string) (w : World) : World :=
  if negb reality then w else RemoveTask (croutine_name_ node channel) (w ∖ {[Joined node channel]}).

(** Node::CreateReader: [readers] are the channels of the node's readers *)
Definition CreateReader (reality : bool) (node : string) (readers : list string) (channel : string) (w : World)
    : bool * list string * World :=
  if bool_decide (channel ∈ readers) then (false, readers, w)
  else if bool_decide (channel = "") then (false, readers, w)
  else let '(ok, w) := Reader_Init reality node channel w in
       if ok then (true, (readers ++ [channel])%list, w) else (false, readers, w).

(** Several of them, and whether all have succeeded. *)
Fixpoint CreateReaders (reality : bool) (node : string) (readers channels : list string) (w : World)
    : bool * list string * World :=
  match channels with
  | [] => (true, readers, w)
  | c :: channels =>
      let '(ok, readers, w) := CreateReader reality node readers c w in
      let '(oks, readers, w) := CreateReaders reality node readers channels w in
      (ok && oks, readers, w)
  end.

(** ** Components *)

(** Component<M0, ..> with so many message types, or TimerComponent *)
Inductive Kind := Messages (arity : nat) | Timed.

(** A class with its configuration: the name of the node, the channels of the
    readers, the interval, and what the user's Init does: the readers it
    creates, and whether it succeeds. *)
Record ComponentConfig := mkConfig {
  kind : Kind; name : option string; channels : list string; interval : option Z;
  user_readers : list string; init_ok : bool
}.

(** [readers] are the live readers of the node, [readers_] the channels of the
    component's own ones. *)
Record Component := mkComponent {
  id : nat; node : string; ckind : Kind; is_shutdown_ : bool; readers : list string; readers_ : list string;
  timer_ : bool; cleared : bool
}.

(** The order in which Initialize creates the readers: the first channel last. *)
Definition reader_order (arity : nat) (cs : list string) : list string :=
  match take arity cs with [] => [] | c :: cs => (cs ++ [c])%list end.

Definition Initialize (reality : bool) (cid : nat) (cfg : ComponentConfig) (w : World) : bool * Component * World :=
  let node := default "" (name cfg) in
  match kind cfg with
  | Messages arity =>
      if bool_decide (length (channels cfg) < arity)%nat then (false, mkComponent cid node (kind cfg) false [] [] false false, w)
      else
        let '(_, rs, w) := CreateReaders reality node [] (user_readers cfg) w in
        if negb (init_ok cfg) then (false, mkComponent cid node (kind cfg) false rs [] false false, w)
        else
          let '(ok, rs, w) := CreateReaders reality node rs (reader_order arity (channels cfg)) w in
          if negb ok then (false, mkComponent cid node (kind cfg) false rs [] false false, w)
          else
            let c := mkComponent cid node (kind cfg) false rs (take arity (channels cfg)) false false in
            if negb reality || bool_decide (arity = 0%nat) then (true, c, w)
            else let '(ok, w) := CreateTask node w in (ok, c, w)
  | Timed =>
      if negb (bool_decide (is_Some (name cfg)) && bool_decide (is_Some (interval cfg)))
      then (false, mkComponent cid node (kind cfg) false [] [] false false, w)
      else
        let '(_, rs, w) := CreateReaders reality node [] (user_readers cfg) w in
        if negb (init_ok cfg) then (false, mkComponent cid node (kind cfg) false rs [] false false, w)
        else (true, mkComponent cid node (kind cfg) false rs [] true false, {[Running cid]} ∪ w)
  end.

Definition shut_readers (reality : bool) (node : string) (cs : list string) (w : World) : World :=
  foldl (fun w c => Reader_Shutdown reality node c w) w cs.

(** ComponentBase::Shutdown; a reader that is shut down stays in the node. *)
Definition Shutdown (reality : bool) (c : Component) (w : World) : Component * World :=
  if is_shutdown_ c then (c, w)
  else
    let w := shut_readers reality (node c) (readers_ c) w in
    (mkComponent (id c) (node c) (ckind c) true (filter (fun r => r ∉ readers_ c) (readers c)) (readers_ c) (timer_ c) true,
     RemoveTask (node c) w).

(** The destructor: the node goes with its live readers, and the timer stops. *)
Definition Destroy (reality : bool) (c : Component) (w : World) : World :=
  let w := shut_readers reality (node c) (readers c) w in
  if timer_ c then w ∖ {[Running (id c)]} else w.

(** What a message and a tick of the timer run: [Some] when Proc is called, with
    whether the user's Clear has already been called. *)
Definition Process (c : Component) : option bool := if is_shutdown_ c then None else Some (cleared c).
Definition timer_func (c : Component) : option bool := Some (cleared c).

(** ** ModuleController *)

(** LoadModule: components are created until one fails, which is destroyed. *)
Fixpoint LoadModule (reality : bool) (next : nat) (cfgs : list ComponentConfig) (component_list_ : list Component) (w : World)
    : bool * list Component * World :=
  match cfgs with
  | [] => (true, component_list_, w)
  | cfg :: cfgs =>
      let '(ok, c, w) := Initialize reality next cfg w in
      if ok then LoadModule reality (S next) cfgs (component_list_ ++ [c])%list w
      else (false, component_list_, Destroy reality c w)
  end.

Definition shutdown_all (reality : bool) (cs : list Component) (w : World) : list Component * World :=
  foldl (fun '(done, w) c => let '(c, w) := Shutdown reality c w in ((done ++ [c])%list, w)) ([], w) cs.

(** ModuleController::Clear *)
Definition Clear (reality : bool) (cs : list Component) (w : World) : World :=
  let '(cs, w) := shutdown_all reality cs w in foldl (fun w c => Destroy reality c w) w cs.

Close Scope string_scope.

(** ** Who holds what *)

(** The world is what was there before and, besides, each resource of [L] once. *)
Definition holds (w0 : World) (L : list Resource) (w : World) : Prop :=
  w = list_to_set L ∪ w0 /\ NoDup L /\ forall x, x ∈ L -> x ∉ w0.

Lemma holds_perm w0 L L' w : L ≡ₚ L' -> holds w0 L w -> holds w0 L' w.
Proof.
  intros HL (-> & Hn & Hd). split; [|split].
  - by rewrite HL.
  - by rewrite <- HL.
  - intros x. rewrite <- HL. apply Hd.
Qed.

#[export] Instance holds_proper w0 : Proper ((≡ₚ) ==> (=) ==> iff) (holds w0).
Proof. intros L L' HL w ? <-. split; by apply holds_perm. Qed.

Lemma holds_add w0 L w x : x ∉ w -> holds w0 L w -> holds w0 (x :: L) ({[x]} ∪ w).
Proof.
  intros Hx (-> & Hn & Hd). split; [|split].
  - simpl. set_solver.
  - constructor; [set_solver|done].
  - intros y [->|Hy]%elem_of_cons; [set_solver|by apply Hd].
Qed.

Lemma holds_del w0 L w x : holds w0 (x :: L) w -> holds w0 L (w ∖ {[x]}).
Proof.
  intros (-> & Hn & Hd). apply NoDup_cons in Hn as [Hx Hn]. split; [|split].
  - assert (x ∉ w0) by (apply Hd; by left). simpl. set_solver.
  - done.
  - intros y Hy. apply Hd. by right.
Qed.

Lemma holds_elem w0 L w x : holds w0 L w -> x ∈ w <-> x ∈ L \/ x ∈ w0.
Proof. intros (-> & _). by rewrite elem_of_union, elem_of_list_to_set. Qed.

Lemma del_absent (w : World) x : x ∉ w -> w ∖ {[x]} = w.
Proof. set_solver. Qed.

(** What live readers hold. *)
Definition reader_res (reality : bool) (node : string) (channel : string) : list Resource :=
  if reality then [Task (croutine_name_ node channel); Joined node channel] else [].
Definition readers_res (reality : bool) (node : string) (cs : list string) : list Resource := cs ≫= reader_res reality node.

(** A reader in the topology has its task. *)
Definition wf (w : World) : Prop := forall n c, Joined n c ∈ w -> Task (croutine_name_ n c) ∈ w.

Lemma readers_res_app reality node cs cs' : readers_res reality node (cs ++ cs') = readers_res reality node cs ++ readers_res reality node cs'.
Proof. apply bind_app. Qed.

Lemma wf_task n w : wf w -> wf ({[Task n]} ∪ w).
Proof. intros Hw m c. rewrite !elem_of_union, !elem_of_singleton. naive_solver. Qed.
Lemma wf_timer i w : wf w -> wf ({[Running i]} ∪ w).
Proof. intros Hw m c. rewrite !elem_of_union, !elem_of_singleton. naive_solver. Qed.

Lemma Reader_Init_holds w0 L reality node channel w w' : holds w0 L w -> wf w ->
  Reader_Init reality node channel w = (true, w') -> holds w0 (reader_res reality node channel ++ L) w' /\ wf w'.
Proof.
  unfold Reader_Init, CreateTask, reader_res. intros Hh Hw. destruct reality; simpl; [|intros; by simplify_eq].
  case_bool_decide as Ht; [done|]. intros E. simplify_eq. split.
  - eapply holds_perm; [apply perm_swap|]. apply holds_add; [|by apply holds_add].
    rewrite elem_of_union, elem_of_singleton. intros [?|Hj]; [done|]. by apply Ht, Hw.
  - intros m c. rewrite !elem_of_union, !elem_of_singleton. intros [E|[E|Hj]]; simplify_eq; auto.
Qed.

Lemma Reader_Init_fails reality node channel w w' : Reader_Init reality node channel w = (false, w') -> w' = w.
Proof. unfold Reader_Init, CreateTask. destruct reality; simpl; [|done]. case_bool_decide; intros; by simplify_eq. Qed.

Lemma Reader_Shutdown_holds w0 L reality node channel w : holds w0 (reader_res reality node channel ++ L) w ->
  holds w0 L (Reader_Shutdown reality node channel w).
Proof.
  unfold Reader_Shutdown, reader_res, RemoveTask. destruct reality; simpl; [|done]. intros Hh.
  apply holds_del, holds_del. eapply holds_perm; [apply perm_swap|done].
Qed.

Lemma shut_readers_holds w0 L reality node cs w : holds w0 (readers_res reality node cs ++ L) w ->
  holds w0 L (shut_readers reality node cs w).
Proof.
  revert w. induction cs as [|c cs IH]; intros w Hh; [done|]. simpl. apply IH, Reader_Shutdown_holds.
  unfold readers_res in *. simpl in Hh. by rewrite <- app_assoc in Hh.
Qed.

(** The readers that were created are new, and hold their resources. *)
Lemma CreateReaders_holds w0 reality node channels : forall readers L w ok readers' w',
  CreateReaders reality node readers channels w = (ok, readers', w') -> NoDup readers -> holds w0 L w -> wf w ->
  exists new, readers' = readers ++ new /\ NoDup readers' /\ holds w0 (readers_res reality node new ++ L) w' /\ wf w' /\
    new ⊆ channels /\ (ok = true -> new = channels).
Proof.
  induction channels as [|c channels IH]; intros readers L w ok readers' w' E Hn Hh Hw; simpl in E.
  { simplify_eq. exists []. by rewrite app_nil_r. }
  destruct (CreateReader reality node readers c w) as [[ok1 readers1] w1] eqn:E1.
  destruct (CreateReaders reality node readers1 channels w1) as [[oks readers2] w2] eqn:E2. simplify_eq.
  assert (ok1 = false /\ readers1 = readers /\ w1 = w \/
    ok1 = true /\ c ∉ readers /\ readers1 = readers ++ [c] /\ Reader_Init reality node c w = (true, w1)) as Hc.
  { unfold CreateReader in E1. case_bool_decide; [simplify_eq; by left|]. case_bool_decide; [simplify_eq; by left|].
    destruct (Reader_Init reality node c w) as [[] w3] eqn:E3; simplify_eq; [by right|].
    left. apply Reader_Init_fails in E3 as ->. done. }
  destruct Hc as [(-> & -> & ->)|(-> & Hnew & -> & Ei)].
  - destruct (IH _ _ _ _ _ _ E2 Hn Hh Hw) as (new & -> & Hn' & Hh' & Hw' & Hsub & Hok). exists new. split_and!; try done. set_solver.
  - destruct (Reader_Init_holds _ _ _ _ _ _ _ Hh Hw Ei) as [Hh1 Hw1].
    assert (NoDup (readers ++ [c])) as Hn1.
    { apply NoDup_app. split; [done|]. split; [|apply NoDup_singleton]. intros x Hx ->%list_elem_of_singleton. done. }
    destruct (IH _ _ _ _ _ _ E2 Hn1 Hh1 Hw1) as (new & -> & Hn' & Hh' & Hw' & Hsub & Hok).
    exists (c :: new). rewrite <- app_assoc in *. split_and!; try done.
    + eapply holds_perm; [|exact Hh']. unfold readers_res. simpl. by rewrite Permutation_app_swap_app, <- app_assoc.
    + set_solver.
    + simpl. intros Ho. by rewrite Hok.
Qed.

(** ** What a component holds *)

(** Whether the component has a task of its own. *)
Definition tasked (reality : bool) (k : Kind) : bool := match k with Messages (S _) => reality | _ => false end.

Definition own_res (reality : bool) (c : Component) : list Resource :=
  (if tasked reality (ckind c) && negb (is_shutdown_ c) then [Task (node c)] else []) ++ (if timer_ c then [Running (id c)] else []).
Definition res (reality : bool) (c : Component) : list Resource := readers_res reality (node c) (readers c) ++ own_res reality c.

(** The readers of the component are among those of its node, and nothing is shut down. *)
Record fresh (c : Component) : Prop := mkFresh {
  f_up : is_shutdown_ c = false;
  f_nodup : NoDup (readers c);
  f_own : exists users, readers c ≡ₚ readers_ c ++ users
}.

(** The names of the tasks a configuration may lead to. *)
Definition task_names (reality : bool) (cfg : ComponentConfig) : list string :=
  (if reality then croutine_name_ (default "" (name cfg)) <$> (user_readers cfg ++ channels cfg) else []) ++
  (if tasked reality (kind cfg) then [default "" (name cfg)] else []).

(** A component comes from a configuration. *)
Definition from (reality : bool) (cfg : ComponentConfig) (c : Component) : Prop :=
  node c = default "" (name cfg) /\ ckind c = kind cfg /\ forall n, Task n ∈ res reality c -> n ∈ task_names reality cfg.

Lemma reader_order_perm arity cs : reader_order arity cs ≡ₚ take arity cs.
Proof. unfold reader_order. destruct (take arity cs) as [|c l]; [done|]. by rewrite <- Permutation_cons_append. Qed.

Lemma task_of_readers reality node cs n : Task n ∈ readers_res reality node cs -> reality = true /\ n ∈ croutine_name_ node <$> cs.
Proof.
  unfold readers_res, reader_res. intros (c & Hn & Hc)%list_elem_of_bind. destruct reality; [|by apply elem_of_nil in Hn].
  split; [done|]. apply elem_of_cons in Hn as [E|E%list_elem_of_singleton]; [|done]. simplify_eq.
  apply list_elem_of_fmap. by exists c.
Qed.

Lemma from_readers reality cfg c cs : node c = default "" (name cfg) -> ckind c = kind cfg -> readers c ⊆ user_readers cfg ++ channels cfg ->
  is_shutdown_ c = false -> cs = readers c -> from reality cfg c.
Proof.
  intros Hn Hk Hr Hs ->. split; [done|]. split; [done|]. intros n. unfold res, own_res, task_names. rewrite !elem_of_app.
  intros [(-> & Hin)%task_of_readers|[Ht|Ht]].
  - left. rewrite Hn in Hin. apply list_elem_of_fmap in Hin as (x & -> & Hx). apply list_elem_of_fmap. exists x. split; [done|]. by apply Hr.
  - right. rewrite Hk, Hs in Ht. destruct (tasked reality (kind cfg)); simpl in Ht; [|by apply elem_of_nil in Ht].
    apply list_elem_of_singleton in Ht. simplify_eq. rewrite Hn. by apply list_elem_of_singleton.
  - exfalso. destruct (timer_ c); [by apply list_elem_of_singleton in Ht|by apply elem_of_nil in Ht].
Qed.

(** Initialize: the component holds its resources if it succeeds; if not, only its
    readers hold theirs. *)
Lemma Initialize_holds w0 L reality cid cfg w ok c w' :
  Initialize reality cid cfg w = (ok, c, w') -> holds w0 L w -> wf w -> Running cid ∉ w ->
  from reality cfg c /\ id c = cid /\ fresh c /\ wf w' /\
  holds w0 ((if ok then res reality c else readers_res reality (node c) (readers c)) ++ L) w' /\ (ok = false -> timer_ c = false).
Proof.
  intros E Hh Hw Hr. unfold Initialize in E. set (nd := default "" (name cfg)) in *.
  assert (forall rs own t, rs ⊆ user_readers cfg ++ channels cfg -> from reality cfg (mkComponent cid nd (kind cfg) false rs own t false)) as Hfrom.
  { intros rs own t Hrs. by eapply (from_readers _ _ _ rs). }
  assert (forall rs, NoDup rs -> fresh (mkComponent cid nd (kind cfg) false rs [] false false)) as Hfr.
  { intros rs Hn. constructor; simpl; [done|done|by exists rs]. }
  destruct (CreateReaders reality nd [] (user_readers cfg) w) as [[o1 rs1] w1] eqn:E1.
  destruct (CreateReaders_holds w0 _ _ _ _ _ _ _ _ _ E1 (NoDup_nil_2) Hh Hw) as (us & -> & Hn1 & Hh1 & Hw1 & Hsub1 & _). simpl in *.
  assert (us ⊆ user_readers cfg ++ channels cfg) as Hus by set_solver.
  destruct (kind cfg) as [arity|] eqn:Ek.
  - case_bool_decide as Hlen; [simplify_eq; split_and!; auto using NoDup_nil_2; apply Hfrom; set_solver|].
    destruct (init_ok cfg); simpl in E; [|simplify_eq; split_and!; auto].
    destruct (CreateReaders reality nd us _ w1) as [[o2 rs2] w2] eqn:E2.
    destruct (CreateReaders_holds w0 _ _ _ _ _ _ _ _ _ E2 Hn1 Hh1 Hw1) as (new & -> & Hn2 & Hh2 & Hw2 & Hsub2 & Hok2).
    assert (us ++ new ⊆ user_readers cfg ++ channels cfg) as Hrs.
    { rewrite reader_order_perm in Hsub2. pose proof (subseteq_take arity (channels cfg)). set_solver. }
    assert (holds w0 (readers_res reality nd (us ++ new) ++ L) w2) as Hh2'.
    { eapply holds_perm; [|exact Hh2]. rewrite readers_res_app, <- app_assoc. apply Permutation_app_swap_app. }
    destruct o2; simpl in E; [|simplify_eq; split_and!; auto]. specialize (Hok2 eq_refl). subst new.
    assert (forall t, fresh (mkComponent cid nd (Messages arity) false (us ++ reader_order arity (channels cfg)) (take arity (channels cfg)) t false)) as Hf.
    { intros t. constructor; simpl; [done|done|]. exists us. by rewrite reader_order_perm, Permutation_app_comm. }
    destruct reality; simpl in E; [|simplify_eq; split_and!; auto; unfold res, own_res; by destruct arity; rewrite ?app_nil_r].
    case_bool_decide as Ha; [simplify_eq; split_and!; auto; unfold res, own_res; simpl; by rewrite app_nil_r|].
    unfold CreateTask in E. case_bool_decide as Ht; simplify_eq; split_and!; auto using wf_task.
    unfold res, own_res. destruct arity; [done|]. simpl. eapply holds_perm; [|by apply holds_add].
    rewrite <- app_assoc. simpl. apply Permutation_middle.
  - destruct (negb _); [simplify_eq; split_and!; auto using NoDup_nil_2; apply Hfrom; set_solver|].
    destruct (init_ok cfg); simpl in E; simplify_eq; split_and!; auto using wf_timer; [by constructor; [|done|exists us]|].
    unfold res, own_res. simpl. eapply holds_perm; [|apply holds_add, Hh1].
    + rewrite <- app_assoc. apply Permutation_middle.
    + rewrite (holds_elem _ _ _ _ Hh1), elem_of_app. intros [[Hx|Hx]|Hx].
      * unfold readers_res, reader_res in Hx. apply list_elem_of_bind in Hx as (? & Hx & _). destruct reality; set_solver.
      * apply Hr. rewrite (holds_elem _ _ _ _ Hh). by left.
      * apply Hr. rewrite (holds_elem _ _ _ _ Hh). by right.
Qed.

(** ** Shutdown and destruction *)

Lemma filter_outside (l l' : list string) : (forall x, x ∈ l -> x ∉ l') -> filter (fun x => x ∉ l') l = l.
Proof.
  induction l as [|x l IH]; intros Hl; [done|]. rewrite filter_cons_True by (apply Hl; by left).
  f_equal. apply IH. intros y Hy. apply Hl. by right.
Qed.

Lemma filter_inside (l l' : list string) : l ⊆ l' -> filter (fun x => x ∉ l') l = [].
Proof.
  induction l as [|x l IH]; intros Hl; [done|]. rewrite filter_cons_False by (intros Hn; apply Hn, Hl; by left).
  apply IH. set_solver.
Qed.

Lemma Shutdown_holds w0 L reality c w c' w' : Shutdown reality c w = (c', w') -> fresh c ->
  (tasked reality (ckind c) = false -> Task (node c) ∉ w) -> holds w0 (res reality c ++ L) w ->
  holds w0 (res reality c' ++ L) w' /\ is_shutdown_ c' = true.
Proof.
  unfold Shutdown. intros E [Hs Hn (us & Hus)] Ht Hh. rewrite Hs in E. simplify_eq. split; [|done].
  assert (filter (fun r => r ∉ readers_ c) (readers c) ≡ₚ us) as Hf.
  { rewrite Hus in Hn. apply NoDup_app in Hn as (_ & Hd & _). rewrite Hus, filter_app.
    rewrite filter_inside by done. simpl. rewrite filter_outside; [done|]. intros x Hx Hin. by apply (Hd x). }
  unfold res, own_res in *. simpl. rewrite andb_false_r. simpl. rewrite Hs in Hh. simpl in Hh. rewrite andb_true_r in Hh.
  set (tm := if timer_ c then [Running (id c)] else []) in *.
  assert (forall cs cs', cs ≡ₚ cs' -> readers_res reality (node c) cs ≡ₚ readers_res reality (node c) cs') as Hbind.
  { intros cs cs' Hp. unfold readers_res. by rewrite Hp. }
  rewrite (Hbind _ _ Hus), readers_res_app, <- !app_assoc in Hh. apply shut_readers_holds in Hh.
  eapply holds_perm; [by rewrite (Hbind _ _ Hf), <- app_assoc|].
  unfold RemoveTask. destruct (tasked reality (ckind c)).
  - apply holds_del. eapply holds_perm; [|exact Hh]. symmetry. apply Permutation_middle.
  - rewrite del_absent; [done|]. intros Hin. apply (Ht eq_refl).
    assert (shut_readers reality (node c) (readers_ c) w ⊆ w) as Hsub.
    { clear. revert w. induction (readers_ c) as [|r rs IH]; intros w; [done|]. simpl. etrans; [apply IH|].
      unfold Reader_Shutdown, RemoveTask. destruct reality; set_solver. }
    by apply Hsub.
Qed.

Lemma Destroy_holds w0 L reality c w : tasked reality (ckind c) && negb (is_shutdown_ c) = false ->
  holds w0 (res reality c ++ L) w -> holds w0 L (Destroy reality c w).
Proof.
  unfold Destroy, res, own_res. intros -> Hh. rewrite <- app_assoc in Hh. apply shut_readers_holds in Hh. simpl in Hh.
  destruct (timer_ c); [by apply holds_del|done].
Qed.

(** The components of the list hold what was acquired since [w0]. *)
Definition all_res (reality : bool) (cs : list Component) : list Resource := cs ≫= res reality.

Lemma all_res_snoc reality cs c : all_res reality (cs ++ [c]) ≡ₚ res reality c ++ all_res reality cs.
Proof. unfold all_res. rewrite bind_app. simpl. rewrite app_nil_r. apply Permutation_app_comm. Qed.

Section load.
Context (reality : bool) (w0 : World) (all : list ComponentConfig).

Record loaded (next : nat) (cs : list Component) (w : World) : Prop := mkLoaded {
  l_holds : holds w0 (all_res reality cs) w;
  l_wf : wf w;
  l_timers i : (next <= i)%nat -> Running i ∉ w;
  l_fresh : Forall fresh cs;
  l_from : Forall (fun c => exists cfg, cfg ∈ all /\ from reality cfg c) cs
}.

Lemma timers_of_res c i : Running i ∈ res reality c -> i = id c.
Proof.
  unfold res, own_res. rewrite !elem_of_app. intros [Hx|[Hx|Hx]].
  - unfold readers_res, reader_res in Hx. apply list_elem_of_bind in Hx as (? & Hx & _). destruct reality; set_solver.
  - destruct (_ && _); set_solver.
  - destruct (timer_ c); set_solver.
Qed.

(** A component that initialises joins the others. *)
Lemma loaded_add next cs w cfg c w1 : loaded next cs w -> cfg ∈ all -> Initialize reality next cfg w = (true, c, w1) ->
  loaded (S next) (cs ++ [c]) w1.
Proof.
  intros [Hh Hw Ht Hf Hfr] Hin E.
  destruct (Initialize_holds _ _ _ _ _ _ _ _ _ E Hh Hw (Ht next (le_n _))) as (Hfrom & Hid & Hfc & Hw1 & Hh1 & _).
  constructor; [by rewrite all_res_snoc|done| |by apply Forall_app; auto|apply Forall_app; eauto].
  intros i Hi. rewrite (holds_elem _ _ _ _ Hh1), elem_of_app. intros [[Hx|Hx]|Hx].
  - apply timers_of_res in Hx. lia.
  - apply (Ht i); [lia|]. apply (holds_elem _ _ _ _ Hh). by left.
  - apply (Ht i); [lia|]. apply (holds_elem _ _ _ _ Hh). by right.
Qed.

(** One that fails leaves nothing when it is destroyed. *)
Lemma loaded_fail next cs w cfg c w1 : loaded next cs w -> Initialize reality next cfg w = (false, c, w1) ->
  holds w0 (all_res reality cs) (Destroy reality c w1).
Proof.
  intros [Hh Hw Ht Hf Hfr] E.
  destruct (Initialize_holds _ _ _ _ _ _ _ _ _ E Hh Hw (Ht next (le_n _))) as (_ & _ & _ & _ & Hh1 & Htm).
  unfold Destroy. rewrite (Htm eq_refl). by apply shut_readers_holds.
Qed.

Lemma LoadModule_holds cfgs : forall next cs w ok cs' w', cfgs ⊆ all -> loaded next cs w ->
  LoadModule reality next cfgs cs w = (ok, cs', w') ->
  holds w0 (all_res reality cs') w' /\ Forall fresh cs' /\ Forall (fun c => exists cfg, cfg ∈ all /\ from reality cfg c) cs'.
Proof.
  induction cfgs as [|cfg cfgs IH]; intros next cs w ok cs' w' Hall Hl E; simpl in E.
  - simplify_eq. split_and!; apply Hl.
  - destruct (Initialize reality next cfg w) as [[[] c] w1] eqn:Ei.
    + eapply IH; [set_solver| |exact E]. eapply loaded_add; [exact Hl|apply Hall; by left|exact Ei].
    + simplify_eq. split_and!; [by eapply loaded_fail|apply Hl|apply Hl].
Qed.

Lemma shutdown_all_holds cs : forall done w done' w', Forall fresh cs ->
  (forall c, c ∈ cs -> tasked reality (ckind c) = false -> Task (node c) ∉ w) ->
  holds w0 (all_res reality done ++ all_res reality cs) w -> Forall (fun c => is_shutdown_ c = true) done ->
  foldl (fun '(done, w) c => let '(c, w) := Shutdown reality c w in (done ++ [c], w)) (done, w) cs = (done', w') ->
  holds w0 (all_res reality done') w' /\ Forall (fun c => is_shutdown_ c = true) done'.
Proof.
  induction cs as [|c cs IH]; intros done w done' w' Hf Ht Hh Hd E; simpl in E.
  { simplify_eq. unfold all_res in Hh. simpl in Hh. by rewrite app_nil_r in Hh. }
  apply Forall_cons in Hf as [Hc Hf]. destruct (Shutdown reality c w) as [c1 w1] eqn:Es.
  unfold all_res in Hh. simpl in Hh. rewrite Permutation_app_swap_app in Hh.
  edestruct Shutdown_holds as [Hh1 Hs1]; [exact Es|done|by apply Ht; left|exact Hh|].
  eapply IH; [done| | | |exact E].
  - intros d Hin Hu Hx. apply (Ht d); [by right|done|]. clear -Es Hx. unfold Shutdown in Es.
    destruct (is_shutdown_ c); simplify_eq; [done|]. unfold RemoveTask in Hx. apply elem_of_difference in Hx as [Hx _].
    revert Hx. generalize w. induction (readers_ c) as [|r rs IH]; intros w' Hx; [done|]. simpl in Hx. apply IH in Hx.
    unfold Reader_Shutdown, RemoveTask in Hx. destruct reality; set_solver.
  - rewrite all_res_snoc, <- app_assoc. exact Hh1.
  - apply Forall_app. auto.
Qed.

Lemma destroy_all_holds cs : forall w, Forall (fun c => is_shutdown_ c = true) cs -> holds w0 (all_res reality cs) w ->
  foldl (fun w c => Destroy reality c w) w cs = w0.
Proof.
  induction cs as [|c cs IH]; intros w Hf Hh; simpl; [destruct Hh as (-> & _); set_solver|].
  apply Forall_cons in Hf as [Hc Hf]. apply IH; [done|]. apply Destroy_holds; [rewrite Hc; apply andb_false_r|done].
Qed.
End load.

(** The node of a component without a task of its own has no namesake among the
    tasks: Shutdown would remove it. *)
Definition apart (reality : bool) (cfgs : list ComponentConfig) (w : World) : Prop :=
  forall cfg, cfg ∈ cfgs -> tasked reality (kind cfg) = false ->
    Task (default "" (name cfg)) ∉ w /\ forall cfg', cfg' ∈ cfgs -> default "" (name cfg) ∉ task_names reality cfg'.

(** C15. A process gets back everything its components have taken: whether all
    components of a configuration come up or one of them fails half way, after
    Clear the tasks of the scheduler, the readers in the topology and the
    timers are exactly those from before, as long as no node of a component
    without a task of its own (a timer component, one without channels) has the
    name of a task. *)
Theorem cleared_modules_leave_nothing reality cfgs w ok cs w' :
  wf w -> (forall i, Running i ∉ w) -> apart reality cfgs w ->
  LoadModule reality 0 cfgs [] w = (ok, cs, w') -> Clear reality cs w' = w.
Proof.
  intros Hw Ht Ha E.
  assert (holds w [] w) as Hh0 by (split; [set_solver|]; split; [constructor|]; by intros x ?%elem_of_nil).
  destruct (LoadModule_holds reality w cfgs cfgs 0 [] w ok cs w') as (Hh & Hf & Hfr); [done|by constructor|done|].
  unfold Clear, shutdown_all. destruct (foldl _ ([], w') cs) as [cs1 w1] eqn:Es.
  destruct (shutdown_all_holds reality w cs [] w' cs1 w1 Hf) as [Hh1 Hs1]; [|done|done|exact Es|by apply destroy_all_holds].
  intros c Hc Hu Hin. rewrite Forall_forall in Hfr. destruct (Hfr c Hc) as (cfg & Hcfg & Hn & Hk & _).
  rewrite Hk in Hu. destruct (Ha cfg Hcfg Hu) as [Hnw Hno]. rewrite Hn in Hin.
  apply (holds_elem _ _ _ _ Hh) in Hin as [Hin|Hin]; [|done]. unfold all_res in Hin.
  apply list_elem_of_bind in Hin as (d & Hx & Hd). destruct (Hfr d Hd) as (cfg' & Hcfg' & _ & _ & Htn). by apply (Hno cfg' Hcfg'), Htn.
Qed.

(** ** Examples *)

Definition fusion : ComponentConfig := mkConfig (Messages 2) (Some "fusion") ["lidar"; "radar"] None ["pose"] true.
Definition ticker : ComponentConfig := mkConfig Timed (Some "ticker") [] (Some 10%Z) [] true.
(** Both readers on one channel: the second is refused by the node. *)
Definition doubled : ComponentConfig := mkConfig (Messages 2) (Some "doubled") ["lidar"; "lidar"] None [] true.

Lemma cleared_modules_leave_nothing_witness :
  let '(ok, cs, w) := LoadModule true 0 [fusion; ticker; doubled] [] ∅ in
  ok = false /\ length cs = 2%nat /\ size w = 8%nat /\ Clear true cs w = ∅.
Proof.
  assert (let x := LoadModule true 0 [fusion; ticker; doubled] [] ∅ in x.1.1 = false /\ length x.1.2 = 2%nat /\ size x.2 = 8%nat)
    as Hx by (vm_compute; repeat split).
  destruct (LoadModule true 0 [fusion; ticker; doubled] [] ∅) as [[ok cs] w] eqn:E. cbn zeta in Hx. destruct Hx as (H1 & H2 & H3).
  assert (Clear true cs w = ∅) as Hc.
  { apply (cleared_modules_leave_nothing true [fusion; ticker; doubled] ∅ ok cs w); [by intros n c ?%elem_of_empty|set_solver| |exact E].
    intros cfg Hin. repeat (apply elem_of_cons in Hin as [->|Hin]); [done| |done|by apply elem_of_nil in Hin].
    intros _. split; [set_solver|]. intros cfg' Hin.
    repeat (apply elem_of_cons in Hin as [->|Hin]); [| | |by apply elem_of_nil in Hin]; vm_compute; intros Hx;
      repeat (apply elem_of_cons in Hx as [?|Hx]; [done|]); by apply elem_of_nil in Hx. }
  split; [exact H1|]. split; [exact H2|]. split; [exact H3|exact Hc].
Defined.

(** A timer component has no task, but its Shutdown removes the task of its name:
    a component with messages and the same name is never run again. *)
Theorem timer_shutdown_removes_a_task :
  let '(ok, cs, w) := LoadModule true 0
    [mkConfig (Messages 1) (Some "planning") ["route"] None [] true; mkConfig Timed (Some "planning") [] (Some 10%Z) [] true] [] ∅ in
  ok = true /\ bool_decide (Task "planning" ∈ w) = true /\ is_shutdown_ <$> cs = [false; false] /\
  (fun c => bool_decide (Task "planning" ∈ (Shutdown true c w).2)) <$> last cs = Some false.
Proof. vm_compute. repeat split. Qed.

(** A message that arrives after Shutdown is dropped, but the timer of a component
    calls Proc past the test, on a component whose Clear has been called. *)
Theorem timer_runs_after_shutdown reality c w : is_shutdown_ c = false ->
  Process (Shutdown reality c w).1 = None /\ timer_func (Shutdown reality c w).1 = Some true.
Proof. intros Hs. unfold Shutdown. by rewrite Hs. Qed.
