(* ===== verification/RecordFile.v ===== *)
(** RecordFile.v -- record files

    - src/src/apollo/cyber/record/file/{section.h,record_file_base.h,
      record_file_base.cc,record_file_writer.h,record_file_writer.cc}
    - src/src/apollo/cyber/record/file/{record_file_reader.h,record_file_reader.cc}
    - src/src/apollo/cyber/record/record_reader.{h,cc}

    A record file is a header of fixed length, channels and chunks of messages in the
    order they are written, and an index.  The messages of cyber/proto/record.proto are
    records of the values their getters return; how protobuf writes them is the
    class [Proto], whose law is that parsing what was serialized gives it back.
    A file is its bytes and the position of its descriptor; reads and writes of the
    operating system are complete.  The flush thread writes one chunk while it
    has flush_mutex_, so its turn is one step. *)

From stdpp Require Import sorting.
From S2P Require Import Prelude Wire.
Local Open Scope Z_scope.

(** A parse that fails leaves what it had parsed in the message. *)
Class Proto (T : Type) := {
  Serialize : T -> list Z;
  Parse : list Z -> bool * T;
  Parse_Serialize : forall x, zlen (Serialize x) <= 2 ^ 31 - 1 -> Parse (Serialize x) = (true, x)
}.
Definition ByteSize {T} `{Proto T} (x : T) : Z := zlen (Serialize x).

(** ** The messages *)

Inductive SectionType := SECTION_HEADER | SECTION_CHUNK_HEADER | SECTION_CHUNK_BODY | SECTION_INDEX | SECTION_CHANNEL.
#[export] Instance SectionType_eq_dec : EqDecision SectionType.
Proof. solve_decision. Defined.
Definition type_code (t : SectionType) : Z :=
  match t with SECTION_HEADER => 0 | SECTION_CHUNK_HEADER => 1 | SECTION_CHUNK_BODY => 2 | SECTION_INDEX => 3 | SECTION_CHANNEL => 4 end.
Definition type_of (c : Z) : option SectionType :=
  if c =? 0 then Some SECTION_HEADER else if c =? 1 then Some SECTION_CHUNK_HEADER else if c =? 2 then Some SECTION_CHUNK_BODY
  else if c =? 3 then Some SECTION_INDEX else if c =? 4 then Some SECTION_CHANNEL else None.

Record SingleMessage := mkMessage { msg_channel : string; time : Z; content : list Z }.
Record Channel := mkChannel { name : string; message_type : string; proto_desc : string }.
Record ChunkHeader := mkCH { ch_begin_time : Z; ch_end_time : Z; ch_message_number : Z; ch_raw_size : Z }.
Notation ChunkBody := (list SingleMessage).

Record ChannelCache := mkCC { cc_message_number : Z; cc_name : string; cc_message_type : string; cc_proto_desc : string }.
Inductive Cache := channel_cache (c : ChannelCache) | chunk_header_cache (h : ChunkHeader) | chunk_body_cache (number : Z).
Record SingleIndex := mkIndex { idx_type : SectionType; position : Z; cache : Cache }.
Notation Index := (list SingleIndex).

Record Header := mkHeader {
  major_version : Z; minor_version : Z; compress : Z; chunk_interval : Z; segment_interval : Z;
  index_position : Z; chunk_number : Z; channel_number : Z; begin_time : Z; end_time : Z; message_number : Z; size_ : Z;
  is_complete : bool; chunk_raw_size : Z; segment_raw_size : Z
}.
Definition NewHeader : Header := mkHeader 0 0 0 0 0 0 0 0 0 0 0 0 false 0 0.
Definition NewChannel : Channel := mkChannel "" "" "".
(** The fields that the writer changes. *)
Definition upd_header (h : Header) (ip cn chn bt et mn sz : Z) (c : bool) : Header :=
  mkHeader (major_version h) (minor_version h) (compress h) (chunk_interval h) (segment_interval h) ip cn chn bt et mn sz c
    (chunk_raw_size h) (segment_raw_size h).
Definition set_size (h : Header) (s : Z) : Header :=
  upd_header h (index_position h) (chunk_number h) (channel_number h) (begin_time h) (end_time h) (message_number h) s (is_complete h).

(** ** Files *)

Record File := mkFile { bytes : list Z; pos : nat }.
Definition fwrite (f : File) (bs : list Z) : File :=
  mkFile (take (pos f) (bytes f) ++ replicate (pos f - length (bytes f)) 0 ++ bs ++ drop (pos f + length bs) (bytes f)) (pos f + length bs).
Definition fread (f : File) (n : nat) : list Z * File :=
  let bs := take n (drop (pos f) (bytes f)) in (bs, mkFile (bytes f) (pos f + length bs)).
(** lseek refuses a position before the file. *)
Definition SetPosition (f : File) (p : Z) : bool * File :=
  if p <? 0 then (false, f) else (true, mkFile (bytes f) (Z.to_nat p)).
Definition CurrentPosition (f : File) : Z := Z.of_nat (pos f).

Definition HEADER_LENGTH : nat := 2048.
Definition SECTION_SIZE : nat := 16.   (* sizeof(struct Section) *)
Definition INT_MAX : Z := 2 ^ 31 - 1.
Definition INT_MIN : Z := - 2 ^ 31.
Definition INT64_MAX : Z := 2 ^ 63 - 1.
Definition UINT64_MAX : Z := 2 ^ 64 - 1.

Section record.
Context `{Proto Header, Proto Channel, Proto ChunkHeader, Proto ChunkBody, Proto Index}.
(** The bytes between the members of Section. *)
Variables p0 p1 p2 p3 : Z.
Definition section_bytes (t : SectionType) (sz : Z) : list Z := le_bytes 4 (type_code t) ++ [p0; p1; p2; p3] ++ le_bytes 8 sz.

(** ** Chunk *)

Record Chunk := mkChunk { ck_header : ChunkHeader; ck_body : ChunkBody }.
Definition clear : Chunk := mkChunk (mkCH 0 0 0 0) [].
Definition add (c : Chunk) (m : SingleMessage) : Chunk :=
  let h := ck_header c in
  let b := if ch_begin_time h =? 0 then time m else ch_begin_time h in
  let b := if time m <? b then time m else b in
  let e := if ch_end_time h <? time m then time m else ch_end_time h in
  mkChunk (mkCH b e (u64 (ch_message_number h + 1)) (u64 (ch_raw_size h + zlen (content m)))) (ck_body c ++ [m]).
Definition empty (c : Chunk) : bool := ch_message_number (ck_header c) =? 0.

(** ** RecordFileWriter *)

Record Writer := mkWriter {
  file : File;
  header_ : Header;
  index_ : Index;
  chunk_active_ : Chunk;
  chunk_flush_ : Chunk;
  channel_message_number_map_ : gmap string Z
}.
Definition with_file (w : Writer) (f : File) (h : Header) : Writer :=
  mkWriter f h (index_ w) (chunk_active_ w) (chunk_flush_ w) (channel_message_number_map_ w).
Definition with_index (w : Writer) (h : Header) (i : Index) : Writer :=
  mkWriter (file w) h i (chunk_active_ w) (chunk_flush_ w) (channel_message_number_map_ w).
Definition with_chunks (w : Writer) (a f : Chunk) : Writer :=
  mkWriter (file w) (header_ w) (index_ w) a f (channel_message_number_map_ w).

(** Open: the file is not truncated. *)
Definition Open (h : Header) (old : list Z) : Writer := mkWriter (mkFile old 0) h [] clear clear ∅.

Definition blank (n : nat) : list Z := take n (48 :: replicate (HEADER_LENGTH - 1) 0).

(** A header of more than HEADER_LENGTH bytes asks for a negative number of blanks, and
    the write fails. *)
Definition WriteSection (w : Writer) (t : SectionType) (bs : list Z) : bool * Writer :=
  let f := if bool_decide (t = SECTION_HEADER) then snd (SetPosition (file w) 0) else file w in
  let f := fwrite f (section_bytes t (zlen bs)) in
  let f := fwrite f bs in
  if bool_decide (t = SECTION_HEADER) then
    if bool_decide (HEADER_LENGTH < length bs)%nat then (false, with_file w f (header_ w))
    else let f := fwrite f (blank (HEADER_LENGTH - length bs)) in (true, with_file w f (set_size (header_ w) (CurrentPosition f)))
  else (true, with_file w f (set_size (header_ w) (CurrentPosition f))).

Definition WriteHeader (w : Writer) (h : Header) : bool * Writer :=
  WriteSection (with_file w (file w) h) SECTION_HEADER (Serialize h).

Definition WriteChannel (w : Writer) (c : Channel) : bool * Writer :=
  let '(ok, w) := WriteSection w SECTION_CHANNEL (Serialize c) in
  if negb ok then (false, w)
  else
    let h := header_ w in
    let h := upd_header h (index_position h) (chunk_number h) (u64 (channel_number h + 1)) (begin_time h) (end_time h) (message_number h) (size_ h) (is_complete h) in
    (true, with_index w h (index_ w ++ [mkIndex SECTION_CHANNEL (CurrentPosition (file w)) (channel_cache (mkCC 0 (name c) (message_type c) (proto_desc c)))])).

Definition WriteChunk (w : Writer) (chh : ChunkHeader) (body : ChunkBody) : bool * Writer :=
  let '(ok, w) := WriteSection w SECTION_CHUNK_HEADER (Serialize chh) in
  if negb ok then (false, w)
  else
    let w := with_index w (header_ w) (index_ w ++ [mkIndex SECTION_CHUNK_HEADER (CurrentPosition (file w)) (chunk_header_cache chh)]) in
    let '(ok, w) := WriteSection w SECTION_CHUNK_BODY (Serialize body) in
    if negb ok then (false, w)
    else
      let h := header_ w in
      let bt := if begin_time h =? 0 then ch_begin_time chh else begin_time h in
      let h := upd_header h (index_position h) (u64 (chunk_number h + 1)) (channel_number h) bt (ch_end_time chh)
                 (u64 (message_number h + ch_message_number chh)) (size_ h) (is_complete h) in
      (true, with_index w h (index_ w ++ [mkIndex SECTION_CHUNK_BODY (CurrentPosition (file w)) (chunk_body_cache (zlen body))])).

Definition swap_chunks (w : Writer) : Writer := with_chunks w (chunk_flush_ w) (chunk_active_ w).

Definition need_flush (h : Header) (active : Chunk) (m : SingleMessage) : bool :=
  (0 <? chunk_interval h) && (chunk_interval h <? u64 (time m - ch_begin_time (ck_header active))) ||
  (0 <? chunk_raw_size h) && (chunk_raw_size h <? ch_raw_size (ck_header active)).

Definition WriteMessage (w : Writer) (m : SingleMessage) : Writer :=
  let active := add (chunk_active_ w) m in
  let nums := channel_message_number_map_ w in
  let nums := <[msg_channel m := match nums !! msg_channel m with Some n => u64 (n + 1) | None => 1 end]> nums in
  let w := mkWriter (file w) (header_ w) (index_ w) active (chunk_flush_ w) nums in
  if need_flush (header_ w) active m then swap_chunks w else w.

(** One turn of the flush thread. *)
Definition Flush (w : Writer) : Writer :=
  if empty (chunk_flush_ w) then w
  else
    let '(_, w') := WriteChunk w (ck_header (chunk_flush_ w)) (ck_body (chunk_flush_ w)) in
    with_chunks w' (chunk_active_ w') clear.

Definition number_caches (nums : gmap string Z) (idx : Index) : Index :=
  (fun i => match idx_type i, cache i with
            | SECTION_CHANNEL, channel_cache c =>
                mkIndex (idx_type i) (position i)
                  (channel_cache (mkCC (default (cc_message_number c) (nums !! cc_name c)) (cc_name c) (cc_message_type c) (cc_proto_desc c)))
            | _, _ => i
            end) <$> idx.

Definition WriteIndex (w : Writer) : bool * Writer :=
  let idx := number_caches (channel_message_number_map_ w) (index_ w) in
  let h := header_ w in
  let h := upd_header h (CurrentPosition (file w)) (chunk_number h) (channel_number h) (begin_time h) (end_time h) (message_number h) (size_ h) (is_complete h) in
  WriteSection (with_index w h idx) SECTION_INDEX (Serialize idx).

(** Close waits until the flush thread has emptied its chunk, hands it the active one
    and waits again. *)
Definition Close (w : Writer) : Writer :=
  let w := Flush (swap_chunks (Flush w)) in
  let '(_, w) := WriteIndex w in
  let h := header_ w in
  let h := upd_header h (index_position h) (chunk_number h) (channel_number h) (begin_time h) (end_time h) (message_number h) (size_ h) true in
  snd (WriteHeader w h).

(** What a program does between WriteHeader and Close; [OpFlush] is a turn of the
    flush thread. *)
Inductive wop := OpChannel (c : Channel) | OpMessage (m : SingleMessage) | OpFlush.
Definition exec (w : Writer) (o : wop) : Writer :=
  match o with
  | OpChannel c => snd (WriteChannel w c)
  | OpMessage m => WriteMessage w m
  | OpFlush => Flush w
  end.
Definition GetMessageNumber (w : Writer) (channel : string) : Z := default 0 (channel_message_number_map_ w !! channel).

(** ** RecordFileReader *)

Record FileReader := mkFR { rd_file : File; end_of_file_ : bool; rd_header : Header; rd_index : Index }.
Definition with_rd_file (r : FileReader) (f : File) (eof : bool) : FileReader := mkFR f eof (rd_header r) (rd_index r).

(** ReadSection(Section* ): the type and the size. *)
Definition ReadSectionHead (r : FileReader) : option (Z * Z) * FileReader :=
  let '(bs, f) := fread (rd_file r) SECTION_SIZE in
  if bool_decide (length bs = 0%nat) then (None, with_rd_file r f true)
  else if negb (bool_decide (length bs = SECTION_SIZE)) then (None, with_rd_file r f (end_of_file_ r))
  else (Some (le_value (take 4 bs), i64 (le_value (drop 8 bs))), with_rd_file r f (end_of_file_ r)).

(** What end_of_file_ becomes when a parse has failed is up to protobuf. *)
Variable ExpectAtEnd : list Z -> bool -> bool.
Definition kDefaultBlockSize : nat := 8192.
(** ReadSection<T>: the stream reads its block from the descriptor; a size of 0 gives
    the default block, a negative one no limit. *)
Definition ReadSection {T} `{Proto T} (r : FileReader) (size : Z) (message : T) : bool * T * FileReader :=
  if (size <? INT_MIN) || (INT_MAX <? size) then (false, message, r)
  else
    let n := if size <? 0 then length (bytes (rd_file r)) else if size =? 0 then kDefaultBlockSize else Z.to_nat size in
    let '(bs, f) := fread (rd_file r) n in
    let input := if size <? 0 then bs else take (Z.to_nat size) bs in
    let '(ok, message) := Parse input in
    if negb ok then (false, message, with_rd_file r f (ExpectAtEnd input (end_of_file_ r)))
    else (ByteSize message =? size, message, with_rd_file r f (end_of_file_ r)).

Definition SkipSection (r : FileReader) (size : Z) : bool * FileReader :=
  let p := CurrentPosition (rd_file r) in
  if INT64_MAX - p <? size then (false, r)
  else let '(ok, f) := SetPosition (rd_file r) (p + size) in (ok, with_rd_file r f (end_of_file_ r)).

Definition FIRST_SECTION : Z := Z.of_nat (SECTION_SIZE + HEADER_LENGTH).
Definition ResetFile (r : FileReader) : bool * FileReader :=
  let '(ok, f) := SetPosition (rd_file r) FIRST_SECTION in (ok, with_rd_file r f (if ok then false else end_of_file_ r)).

Definition ReadHeader (r : FileReader) : bool * FileReader :=
  let '(head, r) := ReadSectionHead r in
  match head with
  | None => (false, r)
  | Some (t, sz) =>
      if negb (t =? type_code SECTION_HEADER) then (false, r)
      else
        let '(ok, h, r) := ReadSection r sz (rd_header r) in
        let r := mkFR (rd_file r) (end_of_file_ r) h (rd_index r) in
        if negb ok then (false, r)
        else let '(ok, f) := SetPosition (rd_file r) FIRST_SECTION in (ok, with_rd_file r f (end_of_file_ r))
  end.

Definition ReadIndex (r : FileReader) : bool * FileReader :=
  if negb (is_complete (rd_header r)) then (false, r)
  else
    let '(ok, f) := SetPosition (rd_file r) (i64 (index_position (rd_header r))) in
    let r := with_rd_file r f (end_of_file_ r) in
    if negb ok then (false, r)
    else
      let '(head, r) := ReadSectionHead r in
      match head with
      | None => (false, r)
      | Some (t, sz) =>
          if negb (t =? type_code SECTION_INDEX) then (false, r)
          else
            let '(ok, i, r) := ReadSection r sz (rd_index r) in
            let r := mkFR (rd_file r) (end_of_file_ r) (rd_header r) i in
            if negb ok then (false, r) else (true, snd (ResetFile r))
      end.

(** Open of a file that exists. *)
Definition OpenReader (contents : list Z) : bool * FileReader := ReadHeader (mkFR (mkFile contents 0) false NewHeader []).

(** ** RecordReader *)

Record RecordReader := mkRR {
  file_reader_ : FileReader;
  is_valid_ : bool;
  rr_header : Header;
  rr_index : Index;
  channel_info_ : gmap string ChannelCache;
  chunk_ : ChunkBody;
  message_index_ : nat;
  reach_end_ : bool
}.
Definition with_reader (r : RecordReader) (f : FileReader) : RecordReader :=
  mkRR f (is_valid_ r) (rr_header r) (rr_index r) (channel_info_ r) (chunk_ r) (message_index_ r) (reach_end_ r).
Definition set_chunk (r : RecordReader) (c : ChunkBody) : RecordReader :=
  mkRR (file_reader_ r) (is_valid_ r) (rr_header r) (rr_index r) (channel_info_ r) c (message_index_ r) (reach_end_ r).
Definition set_message_index (r : RecordReader) (i : nat) : RecordReader :=
  mkRR (file_reader_ r) (is_valid_ r) (rr_header r) (rr_index r) (channel_info_ r) (chunk_ r) i (reach_end_ r).
Definition set_reach_end (r : RecordReader) : RecordReader :=
  mkRR (file_reader_ r) (is_valid_ r) (rr_header r) (rr_index r) (channel_info_ r) (chunk_ r) (message_index_ r) true.

Definition collect_channel (info : gmap string ChannelCache) (i : SingleIndex) : gmap string ChannelCache :=
  match idx_type i, cache i with
  | SECTION_CHANNEL, channel_cache c => match info !! cc_name c with Some _ => info | None => <[cc_name c := c]> info end
  | _, _ => info
  end.

Definition NewRecordReader (contents : list Z) : RecordReader :=
  let '(ok, f) := OpenReader contents in
  if negb ok then mkRR f false NewHeader [] ∅ [] 0 false
  else
    let h := rd_header f in
    let '(ok, f) := ReadIndex f in
    let idx := if ok then rd_index f else [] in
    mkRR (snd (ResetFile f)) true h idx (foldl collect_channel ∅ idx) [] 0 false.

Definition Reset (r : RecordReader) : RecordReader :=
  mkRR (snd (ResetFile (file_reader_ r))) (is_valid_ r) (rr_header r) (rr_index r) (channel_info_ r) [] 0 false.

(** The loop of ReadNextChunk, one section an iteration; [None] when the fuel is spent. *)
Fixpoint ReadNextChunk (fuel : nat) (r : RecordReader) (bt et : Z) (skip_next_chunk_body : bool) : option (bool * RecordReader) :=
  match fuel with
  | O => None
  | S fuel =>
      if reach_end_ r then Some (false, r)
      else
        let '(head, f) := ReadSectionHead (file_reader_ r) in
        let r := with_reader r f in
        match head with
        | None => Some (false, r)
        | Some (t, sz) =>
            match type_of t with
            | Some SECTION_INDEX =>
                ReadNextChunk fuel (set_reach_end (with_reader r (snd (SkipSection (file_reader_ r) sz)))) bt et skip_next_chunk_body
            | Some SECTION_CHANNEL =>
                let '(ok, _, f) := ReadSection (file_reader_ r) sz NewChannel in
                if negb ok then Some (false, with_reader r f) else ReadNextChunk fuel (with_reader r f) bt et skip_next_chunk_body
            | Some SECTION_CHUNK_HEADER =>
                let '(ok, h, f) := ReadSection (file_reader_ r) sz (mkCH 0 0 0 0) in
                if negb ok then Some (false, with_reader r f)
                else if et <? ch_begin_time h then Some (false, with_reader r f)
                else ReadNextChunk fuel (with_reader r f) bt et (skip_next_chunk_body || (ch_end_time h <? bt))
            | Some SECTION_CHUNK_BODY =>
                if skip_next_chunk_body then ReadNextChunk fuel (with_reader r (snd (SkipSection (file_reader_ r) sz))) bt et false
                else
                  let '(ok, c, f) := ReadSection (file_reader_ r) sz ([] : ChunkBody) in
                  Some (ok, set_chunk (with_reader r f) c)
            | _ => Some (false, r)
            end
        end
  end.

(** The loop over the messages of the chunk. *)
Inductive scanned := TooLate | Found (m : SingleMessage) | NoMore.
Fixpoint scan (msgs : list SingleMessage) (i : nat) (bt et : Z) : scanned * nat :=
  match msgs with
  | [] => (NoMore, i)
  | m :: msgs => if et <? time m then (TooLate, i) else if time m <? bt then scan msgs (S i) bt et else (Found m, S i)
  end.

Fixpoint ReadMessage (fuel : nat) (r : RecordReader) (bt et : Z) : option (option SingleMessage * RecordReader) :=
  match fuel with
  | O => None
  | S fuel' =>
      if negb (is_valid_ r) then Some (None, r)
      else if (end_time (rr_header r) <? bt) || (et <? begin_time (rr_header r)) then Some (None, r)
      else
        let '(s, i) := scan (drop (message_index_ r) (chunk_ r)) (message_index_ r) bt et in
        let r := set_message_index r i in
        match s with
        | TooLate => Some (None, r)
        | Found m => Some (Some m, r)
        | NoMore =>
            match ReadNextChunk fuel r bt et false with
            | None => None
            | Some (true, r) => ReadMessage fuel' (set_message_index r 0) bt et
            | Some (false, r) => Some (None, r)
            end
        end
  end.

(** A program that reads until ReadMessage returns false. *)
Fixpoint read_all (fuel : nat) (r : RecordReader) (bt et : Z) : option (list SingleMessage * RecordReader) :=
  match fuel with
  | O => None
  | S fuel' =>
      match ReadMessage fuel r bt et with
      | None => None
      | Some (None, r) => Some ([], r)
      | Some (Some m, r) =>
          match read_all fuel' r bt et with Some (ms, r) => Some (m :: ms, r) | None => None end
      end
  end.

Definition GetChannelList (r : RecordReader) : gset string := dom (channel_info_ r).
Definition ReadMessageNumber (r : RecordReader) (channel : string) : Z := from_option cc_message_number 0 (channel_info_ r !! channel).
Definition GetMessageType (r : RecordReader) (channel : string) : string := from_option cc_message_type ""%string (channel_info_ r !! channel).
Definition GetProtoDesc (r : RecordReader) (channel : string) : string := from_option cc_proto_desc ""%string (channel_info_ r !! channel).

(** ** What a run writes *)

Definition sec (t : SectionType) (bs : list Z) : list Z := section_bytes t (zlen bs) ++ bs.
Inductive item := IChannel (c : Channel) | IChunk (k : Chunk).
Definition item_bytes (i : item) : list Z :=
  match i with
  | IChannel c => sec SECTION_CHANNEL (Serialize c)
  | IChunk k => sec SECTION_CHUNK_HEADER (Serialize (ck_header k)) ++ sec SECTION_CHUNK_BODY (Serialize (ck_body k))
  end.
Definition item_messages (i : item) : list SingleMessage := match i with IChannel _ => [] | IChunk k => ck_body k end.
Definition items_bytes (l : list item) : list Z := mjoin (item_bytes <$> l).
Definition items_messages (l : list item) : list SingleMessage := mjoin (item_messages <$> l).

Definition flush_items (w : Writer) : list item := if empty (chunk_flush_ w) then [] else [IChunk (chunk_flush_ w)].
Definition op_items (w : Writer) (o : wop) : list item :=
  match o with OpChannel c => [IChannel c] | OpMessage _ => [] | OpFlush => flush_items w end.
Fixpoint run_items (w : Writer) (ops : list wop) : list item :=
  match ops with [] => [] | o :: ops => op_items w o ++ run_items (exec w o) ops end.
Definition run (w : Writer) (ops : list wop) : Writer := foldl exec w ops.
Definition closing (w : Writer) : Writer := Flush (swap_chunks (Flush w)).
Definition close_items (w : Writer) : list item := flush_items w ++ flush_items (swap_chunks (Flush w)).
Definition start (h : Header) : Writer := snd (WriteHeader (Open NewHeader []) h).
(** Everything that is in the file between its header and its index. *)
Definition recorded (h : Header) (ops : list wop) : list item := run_items (start h) ops ++ close_items (run (start h) ops).

Definition final_index (w : Writer) : Index := number_caches (channel_message_number_map_ w) (index_ (closing w)).
Definition final_header (w : Writer) : Header :=
  let h := header_ (closing w) in
  let p := CurrentPosition (file (closing w)) in
  upd_header h p (chunk_number h) (channel_number h) (begin_time h) (end_time h) (message_number h)
    (p + zlen (sec SECTION_INDEX (Serialize (final_index w)))) true.
Definition header_block (h : Header) : list Z := sec SECTION_HEADER (Serialize h) ++ blank (HEADER_LENGTH - length (Serialize h)).

(** ** Lemmas: the writer appends *)

Definition at_end (f : File) : Prop := pos f = length (bytes f).
Definition logged (w : Writer) (hb : list Z) (l : list item) : Prop :=
  at_end (file w) /\ bytes (file w) = hb ++ items_bytes l.

Lemma fwrite_end f bs : at_end f -> fwrite f bs = mkFile (bytes f ++ bs) (length (bytes f ++ bs)).
Proof.
  unfold at_end, fwrite. intros ->. rewrite take_ge by lia. rewrite drop_ge by lia.
  rewrite Nat.sub_diag, app_nil_r. simpl. by rewrite length_app.
Qed.
Lemma fwrite_seq f a b : (pos f <= length (bytes f))%nat -> fwrite (fwrite f a) b = fwrite f (a ++ b).
Proof.
  intros Hp. unfold fwrite. cbn [pos bytes]. replace (pos f - length (bytes f))%nat with 0%nat by lia. cbn [replicate app].
  rewrite !length_app, length_take, length_drop, Nat.min_l by lia.
  replace (pos f + length a - _)%nat with 0%nat by lia. cbn [replicate app]. rewrite Nat.add_assoc. f_equal.
  rewrite !app_assoc, (take_app_length' (take _ _ ++ a)) by (rewrite length_app, length_take; lia). rewrite <- !app_assoc. do 3 f_equal.
  rewrite app_assoc, drop_app_ge by (rewrite length_app, length_take; lia).
  rewrite length_app, length_take, drop_drop. f_equal. lia.
Qed.
Lemma section_bytes_length t sz : length (section_bytes t sz) = SECTION_SIZE.
Proof. unfold section_bytes. by rewrite !length_app, !le_bytes_length. Qed.
Lemma sec_length t bs : length (sec t bs) = (SECTION_SIZE + length bs)%nat.
Proof. unfold sec. by rewrite length_app, section_bytes_length. Qed.
Lemma items_bytes_app l k : items_bytes (l ++ k) = items_bytes l ++ items_bytes k.
Proof. unfold items_bytes. by rewrite fmap_app, join_app. Qed.
Lemma items_messages_app l k : items_messages (l ++ k) = items_messages l ++ items_messages k.
Proof. unfold items_messages. by rewrite fmap_app, join_app. Qed.

Lemma items_messages_one i : items_messages [i] = item_messages i.
Proof. apply app_nil_r. Qed.

Lemma WriteSection_shape w t bs : t <> SECTION_HEADER ->
  exists f, WriteSection w t bs = (true, with_file w f (set_size (header_ w) (CurrentPosition f))).
Proof. intros Ht. unfold WriteSection. rewrite bool_decide_eq_false_2 by done. eauto. Qed.
Lemma WriteSection_append w t bs : t <> SECTION_HEADER -> at_end (file w) ->
  let f := mkFile (bytes (file w) ++ sec t bs) (length (bytes (file w) ++ sec t bs)) in
  WriteSection w t bs = (true, with_file w f (set_size (header_ w) (CurrentPosition f))).
Proof.
  intros Ht E. unfold WriteSection. rewrite bool_decide_eq_false_2 by done.
  rewrite (fwrite_end _ (section_bytes _ _)) by done. rewrite fwrite_end by done. cbn [bytes]. unfold sec. by rewrite <- !app_assoc.
Qed.

Lemma WriteChannel_logged w hb l c : logged w hb l -> logged (snd (WriteChannel w c)) hb (l ++ [IChannel c]).
Proof.
  intros [E B]. unfold WriteChannel. rewrite WriteSection_append by done. cbn. split; [done|]. cbn.
  rewrite B, items_bytes_app. unfold items_bytes at 3. cbn. by rewrite app_nil_r, <- app_assoc.
Qed.

Lemma WriteChunk_logged w hb l k : logged w hb l ->
  logged (snd (WriteChunk w (ck_header k) (ck_body k))) hb (l ++ [IChunk k]).
Proof.
  intros [E B]. unfold WriteChunk. rewrite WriteSection_append by done. cbn [negb]. rewrite WriteSection_append by done.
  cbn. split; [done|]. cbn. rewrite B, items_bytes_app. unfold items_bytes at 3. cbn. by rewrite app_nil_r, <- !app_assoc.
Qed.

Lemma Flush_logged w hb l : logged w hb l -> logged (Flush w) hb (l ++ flush_items w).
Proof.
  intros L. unfold Flush, flush_items. destruct (empty _); [by rewrite app_nil_r|].
  pose proof (WriteChunk_logged _ _ _ (chunk_flush_ w) L) as L'. by destruct (WriteChunk w _ _) as [? w'].
Qed.

Lemma Flush_map w : channel_message_number_map_ (Flush w) = channel_message_number_map_ w.
Proof. unfold Flush, WriteChunk, WriteSection. by destruct (empty _). Qed.

Lemma exec_logged w hb l o : logged w hb l -> logged (exec w o) hb (l ++ op_items w o).
Proof.
  intros L. destruct o as [c|m|]; cbn [exec op_items]; [by apply WriteChannel_logged| |by apply Flush_logged].
  rewrite app_nil_r. unfold WriteMessage. by destruct (need_flush _ _ _).
Qed.

Lemma run_logged ops : forall w hb l, logged w hb l -> logged (run w ops) hb (l ++ run_items w ops).
Proof.
  induction ops as [|o ops IH]; intros w hb l L; [by rewrite app_nil_r|].
  cbn [run_items]. rewrite app_assoc. apply IH, exec_logged, L.
Qed.

Lemma closing_logged w hb l : logged w hb l -> logged (closing w) hb (l ++ close_items w).
Proof. intros L. unfold closing, close_items. rewrite app_assoc. apply Flush_logged. by apply Flush_logged in L. Qed.

Lemma blank_length n : (n <= HEADER_LENGTH)%nat -> length (blank n) = n.
Proof.
  intros Hn. unfold blank. rewrite length_take, length_cons, length_replicate.
  unfold HEADER_LENGTH in *. lia.
Qed.
Definition header_fits (h : Header) : Prop := (length (Serialize h) <= HEADER_LENGTH)%nat.
Lemma header_block_length h : header_fits h -> Z.of_nat (length (header_block h)) = FIRST_SECTION.
Proof.
  unfold header_fits. intros F. unfold header_block. rewrite length_app, sec_length, blank_length by lia. unfold FIRST_SECTION. lia.
Qed.

(** Over a file that has a header already, or over an empty one, the header goes in
    front of what follows. *)
Lemma WriteHeader_bytes w h old rest : header_fits h -> bytes (file w) = old ++ rest ->
  (Z.of_nat (length old) = FIRST_SECTION \/ old = [] /\ rest = []) ->
  exists w', WriteHeader w h = (true, w') /\ bytes (file w') = header_block h ++ rest /\ pos (file w') = length (header_block h) /\
    header_ w' = set_size h FIRST_SECTION /\ index_ w' = index_ w /\ chunk_active_ w' = chunk_active_ w /\
    chunk_flush_ w' = chunk_flush_ w /\ channel_message_number_map_ w' = channel_message_number_map_ w.
Proof.
  intros F B Hold. pose proof (header_block_length h F) as LB. unfold header_fits in F.
  unfold WriteHeader, WriteSection. rewrite bool_decide_eq_true_2 by done.
  rewrite bool_decide_eq_false_2 by lia. cbn [SetPosition Z.ltb Z.compare snd with_file file header_]. change (Z.to_nat 0) with 0%nat.
  rewrite !fwrite_seq by (unfold fwrite; cbn [pos bytes]; rewrite ?length_app; lia). rewrite app_assoc. fold (sec SECTION_HEADER (Serialize h)).
  fold (header_block h).
  assert (W : fwrite (mkFile (bytes (file w)) 0) (header_block h) = mkFile (header_block h ++ rest) (length (header_block h))).
  { unfold fwrite. cbn [bytes pos]. rewrite take_0, Nat.sub_0_l, B. cbn [app replicate Nat.add]. f_equal. f_equal.
    destruct Hold as [Hold|[-> ->]]; [|apply drop_nil]. apply drop_app_length'. lia. }
  rewrite W. eexists; split; [done|]. repeat split. cbn [header_]. unfold CurrentPosition. cbn [pos]. by rewrite LB.
Qed.

Lemma start_logged h : header_fits h -> logged (start h) (header_block h) [].
Proof.
  intros F. destruct (WriteHeader_bytes (Open NewHeader []) h [] [] F eq_refl ltac:(by right)) as (w' & E & B & P & _).
  unfold start. rewrite E. cbn. rewrite app_nil_r in B. split; [|by rewrite app_nil_r]. unfold at_end. by rewrite P, B.
Qed.

(** What Close leaves: the final header, everything that was recorded, the index. *)
Lemma Close_bytes w hb l : logged w hb l -> Z.of_nat (length hb) = FIRST_SECTION -> header_fits (final_header w) ->
  bytes (file (Close w)) = header_block (final_header w) ++ items_bytes (l ++ close_items w) ++ sec SECTION_INDEX (Serialize (final_index w)).
Proof.
  intros L LH F. pose proof (closing_logged _ _ _ L) as [E B].
  unfold Close. fold (closing w). unfold WriteIndex.
  assert (N : channel_message_number_map_ (closing w) = channel_message_number_map_ w).
  { unfold closing. by rewrite Flush_map; cbn; rewrite Flush_map. }
  rewrite N. fold (final_index w).
  rewrite WriteSection_append by done. cbn [with_index with_file file header_].
  set (w2 := with_file _ _ _). set (h2 := upd_header _ _ _ _ _ _ _ _ _).
  assert (Hh : h2 = final_header w).
  { unfold h2, w2, final_header. cbn. unfold CurrentPosition. cbn [pos]. rewrite E, length_app. unfold zlen. rewrite Nat2Z.inj_add. done. }
  rewrite Hh.
  destruct (WriteHeader_bytes w2 (final_header w) hb (items_bytes (l ++ close_items w) ++ sec SECTION_INDEX (Serialize (final_index w))) F)
    as (w' & EW & BW & _).
  - cbn. by rewrite B, <- app_assoc.
  - by left.
  - by rewrite EW.
Qed.

(** ** Lemmas: the reader *)

Definition fits (bs : list Z) : Prop := 0 < zlen bs <= INT_MAX.
Definition item_fits (i : item) : Prop :=
  match i with
  | IChannel c => fits (Serialize c)
  | IChunk k => fits (Serialize (ck_header k)) /\ fits (Serialize (ck_body k))
  end.

(** What is left to read. *)
Definition rest_of (f : FileReader) : list Z := drop (pos (rd_file f)) (bytes (rd_file f)).
Definition moved (f : FileReader) (n : nat) : FileReader :=
  with_rd_file f (mkFile (bytes (rd_file f)) (pos (rd_file f) + n)) (end_of_file_ f).

Lemma rest_moved f a rest : rest_of f = a ++ rest -> rest_of (moved f (length a)) = rest.
Proof. unfold rest_of, moved. cbn. intros E. by rewrite <- drop_drop, E, drop_app_length. Qed.
Lemma moved_moved f n m : moved (moved f n) m = moved f (n + m).
Proof. unfold moved, with_rd_file. cbn. by rewrite Nat.add_assoc. Qed.

Lemma fread_rest f a rest : rest_of f = a ++ rest ->
  fread (rd_file f) (length a) = (a, mkFile (bytes (rd_file f)) (pos (rd_file f) + length a)).
Proof. unfold rest_of, fread. intros ->. by rewrite take_app_length. Qed.

Lemma type_of_code t : type_of (type_code t) = Some t.
Proof. by destruct t. Qed.
Lemma type_code_range t : is_u32 (type_code t).
Proof. unfold is_u32. destruct t; cbn; lia. Qed.

Lemma ReadSectionHead_sec f t bs rest : rest_of f = sec t bs ++ rest -> zlen bs <= INT64_MAX ->
  ReadSectionHead f = (Some (type_code t, zlen bs), moved f SECTION_SIZE) /\ rest_of (moved f SECTION_SIZE) = bs ++ rest.
Proof.
  unfold sec. rewrite <- app_assoc. intros E Hb. pose proof (section_bytes_length t (zlen bs)) as L.
  pose proof (fread_rest _ _ _ E) as R. pose proof (rest_moved _ _ _ E) as M. rewrite L in R, M. split; [|done].
  unfold ReadSectionHead. rewrite R, L. rewrite bool_decide_eq_false_2 by done. rewrite bool_decide_eq_true_2 by done. cbn [negb].
  unfold section_bytes. rewrite take_app_length' by (by rewrite le_bytes_length).
  rewrite u32_bytes by apply type_code_range.
  rewrite app_assoc, drop_app_length' by (rewrite length_app, le_bytes_length; done).
  unfold INT64_MAX in Hb. pose proof (zlen_nonneg bs).
  rewrite u64_bytes by (unfold is_u64; lia). rewrite i64_small by (unfold is_i64; lia). done.
Qed.

Lemma ReadSection_parse {T} `{Proto T} f (m old : T) rest : rest_of f = Serialize m ++ rest -> fits (Serialize m) ->
  ReadSection f (zlen (Serialize m)) old = (true, m, moved f (length (Serialize m))) /\ rest_of (moved f (length (Serialize m))) = rest.
Proof.
  intros E [F1 F2]. split; [|by apply rest_moved in E]. unfold ReadSection, ByteSize. unfold INT_MAX, INT_MIN in *.
  repeat (first [rewrite (proj2 (Z.ltb_ge _ _)) by lia | rewrite (proj2 (Z.eqb_neq _ _)) by lia]). cbn [orb].
  unfold zlen at 1. rewrite Nat2Z.id, (fread_rest _ _ _ E). unfold zlen at 1. rewrite Nat2Z.id, take_ge by lia.
  rewrite Parse_Serialize by done. cbn [negb]. by rewrite Z.eqb_refl.
Qed.

Lemma SkipSection_over f bs rest : rest_of f = bs ++ rest -> zlen (bytes (rd_file f)) <= INT64_MAX -> bs <> [] ->
  SkipSection f (zlen bs) = (true, moved f (length bs)) /\ rest_of (moved f (length bs)) = rest.
Proof.
  intros E L Hn. split; [|by apply rest_moved in E]. unfold SkipSection, CurrentPosition.
  assert (Z.of_nat (pos (rd_file f)) + zlen bs <= INT64_MAX).
  { unfold rest_of in E. apply (f_equal length) in E. rewrite length_drop, length_app in E. unfold zlen in *.
    destruct bs; [done|]. cbn [length] in *. lia. }
  pose proof (zlen_nonneg bs). rewrite (proj2 (Z.ltb_ge _ _)) by lia. unfold SetPosition. rewrite (proj2 (Z.ltb_ge _ _)) by lia.
  unfold moved. do 3 f_equal. unfold zlen. lia.
Qed.

(** The messages a program gets that asks for a window: up to the first one past the
    window, without those before it. *)
Fixpoint window (bt et : Z) (l : list SingleMessage) : list SingleMessage :=
  match l with
  | [] => []
  | m :: l => if et <? time m then [] else if time m <? bt then window bt et l else m :: window bt et l
  end.

Lemma scan_spec bt et rest : forall l i,
  match scan l i bt et with
  | (TooLate, _) => window bt et (l ++ rest) = []
  | (NoMore, j) => window bt et (l ++ rest) = window bt et rest
  | (Found m, j) => exists l', drop (j - i) l = l' /\ (i <= j)%nat /\ window bt et (l ++ rest) = m :: window bt et (l' ++ rest)
  end.
Proof.
  induction l as [|m l IH]; intros i; [done|]. cbn [scan app window].
  destruct (et <? time m); [done|]. destruct (time m <? bt).
  - specialize (IH (S i)). destruct (scan l (S i) bt et) as [[|m'|] j]; [done| |done].
    destruct IH as (l' & D & Hj & W). exists l'. split_and!; [|lia|done].
    replace (j - i)%nat with (S (j - S i)) by lia. done.
  - exists l. replace (S i - i)%nat with 1%nat by lia. split_and!; [done|lia|done].
Qed.

Lemma window_skip bt et a b : Forall (fun m => time m < bt /\ time m <= et) a -> window bt et (a ++ b) = window bt et b.
Proof.
  induction 1 as [|m a [Hx Hy] _ IH]; [done|]. cbn. rewrite (proj2 (Z.ltb_ge _ _)) by lia. by rewrite (proj2 (Z.ltb_lt _ _)) by lia.
Qed.
Lemma window_late bt et m a : et < time m -> window bt et (m :: a) = [].
Proof. intros. cbn. by rewrite (proj2 (Z.ltb_lt _ _)) by lia. Qed.

(** That a chunk's header tells the truth about a window. *)
Definition sound (bt et : Z) (i : item) : Prop :=
  match i with
  | IChannel _ => True
  | IChunk k =>
      (ch_end_time (ck_header k) < bt -> Forall (fun m => time m < bt /\ time m <= et) (ck_body k)) /\
      (et < ch_begin_time (ck_header k) -> exists m ms, ck_body k = m :: ms /\ et < time m)
  end.

Section window.
Variables (bt et : Z) (idx : Index).
Record reading (r : RecordReader) (l : list item) : Prop := {
  rd_valid : is_valid_ r = true;
  rd_more : reach_end_ r = false;
  rd_rest : rest_of (file_reader_ r) = items_bytes l ++ sec SECTION_INDEX (Serialize idx);
  rd_fits : Forall item_fits l;
  rd_sound : Forall (sound bt et) l;
  rd_index_fits : fits (Serialize idx);
  rd_length : zlen (bytes (rd_file (file_reader_ r))) <= INT64_MAX
}.

(** A section is read and what follows it is left. *)
Lemma read_head r t bs rest : rest_of (file_reader_ r) = sec t bs ++ rest -> fits bs ->
  exists f, ReadSectionHead (file_reader_ r) = (Some (type_code t, zlen bs), f) /\ rest_of f = bs ++ rest /\
    bytes (rd_file f) = bytes (rd_file (file_reader_ r)).
Proof.
  intros E [_ F]. destruct (ReadSectionHead_sec _ _ _ _ E) as [R M]; [unfold INT64_MAX, INT_MAX in *; lia|].
  exists (moved (file_reader_ r) SECTION_SIZE). by rewrite R.
Qed.

Lemma read_body {T} `{Proto T} f (m old : T) rest : rest_of f = Serialize m ++ rest -> fits (Serialize m) ->
  exists f', ReadSection f (zlen (Serialize m)) old = (true, m, f') /\ rest_of f' = rest /\ bytes (rd_file f') = bytes (rd_file f).
Proof. intros E F. destruct (ReadSection_parse f m old rest E F) as [R M]. by exists (moved f (length (Serialize m))). Qed.

(** Reading has stopped between the header of a chunk and its body. *)
Record stopped (r : RecordReader) (k : Chunk) (l : list item) : Prop := {
  st_valid : is_valid_ r = true;
  st_more : reach_end_ r = false;
  st_rest : rest_of (file_reader_ r) = sec SECTION_CHUNK_BODY (Serialize (ck_body k)) ++ items_bytes l ++ sec SECTION_INDEX (Serialize idx);
  st_chunk : item_fits (IChunk k);
  st_fits : Forall item_fits l;
  st_sound : Forall (sound bt et) l;
  st_index_fits : fits (Serialize idx);
  st_length : zlen (bytes (rd_file (file_reader_ r))) <= INT64_MAX
}.
(** What reading a chunk leaves alone when it gives none. *)
Definition kept (r r' : RecordReader) : Prop :=
  is_valid_ r' = is_valid_ r /\ rr_header r' = rr_header r /\ rr_index r' = rr_index r /\ channel_info_ r' = channel_info_ r /\
  bytes (rd_file (file_reader_ r')) = bytes (rd_file (file_reader_ r)).
Definition kept_chunk (r r' : RecordReader) : Prop := kept r r' /\ chunk_ r' = chunk_ r /\ message_index_ r' = message_index_ r.
Definition skipped (m : SingleMessage) : Prop := time m < bt /\ time m <= et.

(** The outcomes of ReadNextChunk: the end of the file, a chunk past the window, or a chunk. *)
Inductive next_chunk (r : RecordReader) (l : list item) : bool * RecordReader -> Prop :=
  | nc_end r' : reach_end_ r' = true -> kept_chunk r r' -> Forall skipped (items_messages l) -> next_chunk r l (false, r')
  | nc_late r' k post sk : stopped r' k post -> kept_chunk r r' -> items_messages l = sk ++ ck_body k ++ items_messages post ->
      Forall skipped sk -> et < ch_begin_time (ck_header k) -> sound bt et (IChunk k) -> (IChunk k :: post) `suffix_of` l -> next_chunk r l (false, r')
  | nc_chunk r' k post sk : reading r' post -> kept r r' -> chunk_ r' = ck_body k -> items_messages l = sk ++ ck_body k ++ items_messages post ->
      Forall skipped sk -> (length post < length l)%nat -> (IChunk k :: post) `suffix_of` l -> next_chunk r l (true, r').

(** A channel or a skipped chunk in front makes no difference. *)
Lemma next_chunk_more r r1 i l res : kept_chunk r r1 -> Forall skipped (item_messages i) -> next_chunk r1 l res -> next_chunk r (i :: l) res.
Proof.
  intros [K [KC KI]] Sk N. assert (EM : items_messages (i :: l) = item_messages i ++ items_messages l) by done.
  assert (KT : forall r2, kept r1 r2 -> kept r r2) by (intros r2 K2; unfold kept in *; intuition congruence).
  destruct N as [r' E [K1 [C1 I1]] F|r' k post sk St [K1 [C1 I1]] E F B So Sf|r' k post sk Rd K1 C E F L Sf].
  - apply nc_end; [done| |rewrite EM; by apply Forall_app]. split_and!; [by apply KT|congruence|congruence].
  - apply (nc_late r (i :: l) r' k post (item_messages i ++ sk)); try done; [|by rewrite EM, E, <- app_assoc|by apply Forall_app|by apply suffix_cons_r].
    split_and!; [by apply KT|congruence|congruence].
  - apply (nc_chunk r (i :: l) r' k post (item_messages i ++ sk)); try done; [by apply KT|by rewrite EM, E, <- app_assoc|by apply Forall_app|cbn; lia|by apply suffix_cons_r].
Qed.

Lemma ReadNextChunk_run l : forall fuel r, reading r l -> (2 * length l + 2 <= fuel)%nat ->
  exists res, ReadNextChunk fuel r bt et false = Some res /\ next_chunk r l res.
Proof.
  induction l as [|i l IH]; intros fuel r [V M R F S I L] Hf; (destruct fuel as [|fuel]; [cbn in Hf; lia|]); cbn [ReadNextChunk]; rewrite M.
  - destruct (read_head r SECTION_INDEX (Serialize idx) []) as (f & -> & Rf & Lf); [by rewrite app_nil_r|done|]. rewrite type_of_code.
    destruct fuel; [cbn in Hf; lia|]. cbn [ReadNextChunk set_reach_end reach_end_]. eexists; split; [done|]. apply nc_end; [done| |constructor].
    split_and!; try done. split_and!; try done. cbn. rewrite <- Lf. unfold SkipSection. destruct (_ <? _); [done|].
    unfold SetPosition. by destruct (_ <? _).
  - inversion_clear F as [|? ? Fi Fl]. inversion_clear S as [|? ? Si Sl]. unfold items_bytes in R. cbn [fmap list_fmap mjoin list_join] in R.
    fold (items_bytes l) in R. rewrite <- app_assoc in R. destruct i as [c|k].
    + destruct (read_head r _ _ _ R Fi) as (f & -> & Rf & Lf). rewrite type_of_code.
      cbn [with_reader file_reader_]. destruct (read_body f c NewChannel _ Rf Fi) as (f' & -> & Rf' & Lf'). cbn [negb].
      destruct (IH fuel (with_reader (with_reader r f) f')) as (res & E & N); [split; cbn; try done; by rewrite Lf', Lf|cbn [length] in Hf; lia|].
      exists res. split; [done|]. apply (next_chunk_more r (with_reader (with_reader r f) f')); [|constructor|done].
      split_and!; try done. split_and!; try done. cbn. by rewrite Lf', Lf.
    + destruct Fi as [F1 F2]. cbn [item_bytes] in R. rewrite <- app_assoc in R.
      destruct (read_head r _ _ _ R F1) as (f & -> & Rf & Lf). rewrite type_of_code. cbn [with_reader file_reader_].
      destruct (read_body f (ck_header k) (mkCH 0 0 0 0) _ Rf F1) as (f' & -> & Rf' & Lf'). cbn [negb].
      assert (EM : items_messages (IChunk k :: l) = [] ++ ck_body k ++ items_messages l) by done.
      destruct (Z.ltb_spec et (ch_begin_time (ck_header k))) as [Hb|Hb].
      * eexists; split; [done|]. eapply (nc_late _ _ _ k l []); [|by split_and!; try done; split_and!; try done; cbn; rewrite Lf', Lf|exact EM|constructor|done|done|done].
        split; cbn; try done. by rewrite Lf', Lf.
      * destruct fuel as [|fuel]; [cbn in Hf; lia|]. cbn [ReadNextChunk orb with_reader reach_end_ file_reader_]. rewrite M.
        destruct (read_head (with_reader r f') _ _ _ Rf' F2) as (g & E & Rg & Lg). cbn [with_reader file_reader_] in E, Lg. rewrite E, type_of_code.
        destruct (Z.ltb_spec (ch_end_time (ck_header k)) bt) as [He|He].
        -- destruct (SkipSection_over g _ _ Rg) as [-> Rs].
           { by rewrite Lg, Lf', Lf. } { intros E0. rewrite E0 in F2. by destruct F2 as [? _]. }
           cbn [snd with_reader]. set (r1 := with_reader r (moved g (length (Serialize (ck_body k))))).
           destruct (IH fuel r1) as (res & E' & N); [split; cbn; try done; by rewrite Lg, Lf', Lf|cbn [length] in Hf; lia|].
           exists res. split; [done|]. apply (next_chunk_more r r1); [|by apply (proj1 Si)|done].
           split_and!; try done. split_and!; try done. cbn. by rewrite Lg, Lf', Lf.
        -- destruct (read_body g (ck_body k) [] _ Rg F2) as (g' & -> & Rg' & Lg'). eexists; split; [done|].
           eapply (nc_chunk _ _ _ k l []); [| |done|exact EM|constructor|cbn; lia|done]; [|split_and!; try done; cbn; by rewrite Lg', Lg, Lf', Lf].
           split; cbn; try done. by rewrite Lg', Lg, Lf', Lf.
Qed.

Lemma ReadNextChunk_spec l : forall fuel r, reading r l -> (2 * length l + 2 <= fuel)%nat ->
  (exists r', ReadNextChunk fuel r bt et false = Some (false, r') /\ window bt et (items_messages l) = []) \/
  (exists r' k post, ReadNextChunk fuel r bt et false = Some (true, r') /\ reading r' post /\ chunk_ r' = ck_body k /\
    rr_header r' = rr_header r /\ window bt et (items_messages l) = window bt et (ck_body k ++ items_messages post) /\
    (length post < length l)%nat).
Proof.
  intros fuel r Rd Hf. destruct (ReadNextChunk_run l fuel r Rd Hf) as (res & -> & N).
  destruct N as [r' E K F|r' k post sk St K E F B So _|r' k post sk Rd' K C E F L _].
  - left. exists r'. split; [done|]. rewrite <- (app_nil_r (items_messages l)). by apply window_skip.
  - left. exists r'. split; [done|]. rewrite E, window_skip by done. destruct So as [_ So]. destruct (So B) as (m & ms & -> & Hm). by apply window_late.
  - right. exists r', k, post. rewrite E, window_skip by done. split_and!; try done. apply K.
Qed.

Definition pending (r : RecordReader) (l : list item) : list SingleMessage := drop (message_index_ r) (chunk_ r) ++ items_messages l.
Definition outside (h : Header) : bool := (end_time h <? bt) || (et <? begin_time h).

Lemma reading_index r l i : reading r l -> reading (set_message_index r i) l.
Proof. by intros []. Qed.

Lemma ReadMessage_spec : forall n fuel r l, (length l < n)%nat -> reading r l -> outside (rr_header r) = false -> (2 * length l + 3 <= fuel)%nat ->
  match window bt et (pending r l) with
  | [] => exists r', ReadMessage fuel r bt et = Some (None, r')
  | m :: ms => exists r' l', ReadMessage fuel r bt et = Some (Some m, r') /\ reading r' l' /\ rr_header r' = rr_header r /\
      window bt et (pending r' l') = ms /\ (length l' <= length l)%nat
  end.
Proof.
  induction n as [|n IH]; intros fuel r l Hn Rd O Hf; [lia|]. destruct fuel as [|fuel]; [lia|]. cbn [ReadMessage].
  rewrite (rd_valid _ _ Rd). unfold outside in O. rewrite O. cbn [negb]. fold (outside (rr_header r)) in O.
  pose proof (scan_spec bt et (items_messages l) (drop (message_index_ r) (chunk_ r)) (message_index_ r)) as Sc.
  fold (pending r l) in Sc. destruct (scan _ _ bt et) as [[|m|] j].
  - rewrite Sc. eauto.
  - destruct Sc as (l' & D & Hj & ->). exists (set_message_index r j), l. split_and!; try done; [by apply reading_index|].
    unfold pending. cbn. rewrite <- D, drop_drop. do 3 f_equal. lia.
  - rewrite Sc. destruct (ReadNextChunk_spec l (S fuel) (set_message_index r j)) as [(r' & -> & ->)|(r' & k & post & -> & Rd' & C & Hh & -> & Hl)];
      [by apply reading_index|lia|eauto|].
    specialize (IH fuel (set_message_index r' 0) post ltac:(lia) (reading_index _ _ _ Rd')).
    unfold pending in IH at 1. cbn [set_message_index message_index_ chunk_ rr_header] in IH. rewrite drop_0, C in IH. rewrite Hh in IH.
    specialize (IH O ltac:(lia)). destruct (window bt et _) as [|m ms]; [done|].
    destruct IH as (r2 & l2 & -> & Rd2 & Hh2 & W2 & Hl2). exists r2, l2. split_and!; try done. lia.
Qed.

(** Reading until there is no more gives the window of what is left, and enough fuel is
    two for every item and one for every message. *)
Lemma read_all_spec : forall ms fuel r l, reading r l -> outside (rr_header r) = false -> window bt et (pending r l) = ms ->
  (2 * length l + 3 + length ms <= fuel)%nat -> exists r', read_all fuel r bt et = Some (ms, r').
Proof.
  induction ms as [|m ms IH]; intros fuel r l Rd O W Hf; (destruct fuel as [|fuel]; [lia|]); cbn [read_all];
    pose proof (ReadMessage_spec (S (length l)) (S fuel) r l ltac:(lia) Rd O ltac:(lia)) as Sc; rewrite W in Sc.
  - destruct Sc as (r' & ->). eauto.
  - destruct Sc as (r' & l' & -> & Rd' & Hh & W' & Hl). cbn [length] in Hf.
    destruct (IH fuel r' l' Rd') as (r2 & ->); [by rewrite Hh|done|lia|]. eauto.
Qed.
End window.

(** ** Lemmas: what is written is what was given *)

Definition op_messages (o : wop) : list SingleMessage := match o with OpMessage m => [m] | _ => [] end.
Definition written (ops : list wop) : list SingleMessage := mjoin (op_messages <$> ops).
Definition op_channels (o : wop) : list Channel := match o with OpChannel c => [c] | _ => [] end.
Definition channels (ops : list wop) : list Channel := mjoin (op_channels <$> ops).

(** The flush thread keeps up when its chunk is empty whenever a full one is handed over. *)
Definition keeps (w : Writer) (o : wop) : bool :=
  match o with OpMessage m => negb (need_flush (header_ w) (add (chunk_active_ w) m) m) || empty (chunk_flush_ w) | _ => true end.
Fixpoint keeps_up (w : Writer) (ops : list wop) : bool :=
  match ops with [] => true | o :: ops => keeps w o && keeps_up (exec w o) ops end.

Record chunk_ok (c : Chunk) : Prop := {
  ck_number : ch_message_number (ck_header c) = u64 (zlen (ck_body c));
  ck_begin : is_u64 (ch_begin_time (ck_header c));
  ck_end : is_u64 (ch_end_time (ck_header c));
  ck_max : forall B, 0 <= B -> Forall (fun m => time m <= B) (ck_body c) -> ch_end_time (ck_header c) <= B;
  ck_start : ck_body c = [] -> ch_begin_time (ck_header c) = 0 /\ ch_end_time (ck_header c) = 0;
  ck_bounds : Forall (fun m => 0 < time m) (ck_body c) -> ck_body c <> [] ->
    0 < ch_begin_time (ck_header c) /\ Forall (fun m => ch_begin_time (ck_header c) <= time m <= ch_end_time (ck_header c)) (ck_body c)
}.
Lemma clear_ok : chunk_ok clear.
Proof. split; cbn; [done|unfold is_u64; lia|unfold is_u64; lia|done|done|done]. Qed.

Lemma add_bounds c m : chunk_ok c -> Forall (fun m => 0 < time m) (ck_body c ++ [m]) ->
  0 < ch_begin_time (ck_header (add c m)) /\
  Forall (fun x => ch_begin_time (ck_header (add c m)) <= time x <= ch_end_time (ck_header (add c m))) (ck_body c ++ [m]).
Proof.
  intros [N B E _ S Bd] P. apply Forall_app in P as [P Pm]. inversion_clear Pm as [|? ? Hm _].
  rewrite Forall_app, Forall_singleton. cbn.
  destruct (decide (ck_body c = [])) as [E0|N0].
  - destruct (S E0) as [-> ->]. rewrite E0. cbn. rewrite Z.ltb_irrefl, (proj2 (Z.ltb_lt _ _)) by lia. split_and!; [lia|done|lia|lia].
  - destruct (Bd P N0) as [Hb F]. rewrite (proj2 (Z.eqb_neq _ _)) by lia.
    assert (F' : forall b e, b <= ch_begin_time (ck_header c) -> ch_end_time (ck_header c) <= e -> Forall (fun x => b <= time x <= e) (ck_body c)).
    { intros b e Hb1 He1. eapply Forall_impl; [exact F|]. cbn. lia. }
    destruct (Z.ltb_spec (time m) (ch_begin_time (ck_header c))), (Z.ltb_spec (ch_end_time (ck_header c)) (time m));
      (split_and!; [lia|apply F'; lia|lia|lia]).
Qed.

Lemma chunk_add_ok c m : chunk_ok c -> is_u64 (time m) -> chunk_ok (add c m).
Proof.
  intros C Hm. pose proof (add_bounds c m C) as AB. destruct C as [N B E Mx S Bd]. split; [| | | |by intros Hnil; apply app_nil in Hnil as [_ ?]|intros P _; by apply AB].
  - cbn [add ck_header ch_message_number ck_body]. rewrite N, zlen_app. change (zlen [m]) with 1. unfold u64. by rewrite Zplus_mod_idemp_l.
  - cbn. repeat case_match; done.
  - cbn. by case_match.
  - intros B0 HB F. cbn in F |- *. apply Forall_app in F as [F Fm]. inversion_clear Fm. specialize (Mx B0 HB F). by case_match.
Qed.

Lemma empty_spec c : chunk_ok c -> zlen (ck_body c) < 2 ^ 64 -> empty c = bool_decide (ck_body c = []).
Proof.
  intros C Hl. unfold empty. rewrite (ck_number _ C), u64_small by (pose proof (zlen_nonneg (ck_body c)); unfold is_u64; lia).
  destruct (ck_body c); [done|]. rewrite bool_decide_eq_false_2 by done. apply Z.eqb_neq. unfold zlen. cbn [length]. lia.
Qed.

Definition held (w : Writer) : list SingleMessage := ck_body (chunk_flush_ w) ++ ck_body (chunk_active_ w).
Definition writer_ok (w : Writer) : Prop := chunk_ok (chunk_active_ w) /\ chunk_ok (chunk_flush_ w).
(** An item that the writer makes. *)
Definition item_ok (i : item) : Prop := match i with IChannel _ => True | IChunk k => chunk_ok k /\ ck_body k <> [] end.

Lemma Flush_chunks w : chunk_active_ (Flush w) = chunk_active_ w /\ chunk_flush_ (Flush w) = if empty (chunk_flush_ w) then chunk_flush_ w else clear.
Proof. unfold Flush, WriteChunk, WriteSection. by destruct (empty _). Qed.

Lemma Flush_messages w : writer_ok w -> zlen (held w) < 2 ^ 64 ->
  writer_ok (Flush w) /\ Forall item_ok (flush_items w) /\ items_messages (flush_items w) = ck_body (chunk_flush_ w) /\ ck_body (chunk_flush_ (Flush w)) = [].
Proof.
  intros [A F] Hl. destruct (Flush_chunks w) as [EA EF].
  assert (Hf : zlen (ck_body (chunk_flush_ w)) < 2 ^ 64).
  { unfold held in Hl. rewrite zlen_app in Hl. pose proof (zlen_nonneg (ck_body (chunk_active_ w))). lia. }
  unfold writer_ok. rewrite EA, EF. unfold flush_items. rewrite (empty_spec _ F Hf).
  case_bool_decide as E; [by rewrite E|]. split_and!; [done|exact clear_ok|by apply Forall_singleton| |done].
  unfold items_messages. cbn. by rewrite app_nil_r.
Qed.

Lemma WriteMessage_messages w m : writer_ok w -> is_u64 (time m) -> zlen (held w) < 2 ^ 64 ->
  writer_ok (WriteMessage w m) /\ held (WriteMessage w m) ≡ₚ held w ++ [m] /\
  (keeps w (OpMessage m) = true -> held (WriteMessage w m) = held w ++ [m]).
Proof.
  intros [A F] Hm Hl. unfold keeps, WriteMessage. cbn [header_ chunk_active_ chunk_flush_]. pose proof (chunk_add_ok _ _ A Hm) as A'.
  destruct (need_flush _ _ m); unfold held, writer_ok; cbn.
  - split_and!; [done|done| |].
    + rewrite <- (app_assoc _ _ [m]). apply Permutation_app_comm.
    + intros K. rewrite empty_spec in K; [apply bool_decide_eq_true in K; by rewrite K, app_nil_r|done|].
      unfold held in Hl. rewrite zlen_app in Hl. pose proof (zlen_nonneg (ck_body (chunk_active_ w))). lia.
  - rewrite app_assoc. by split_and!.
Qed.

Lemma exec_messages w o : writer_ok w -> Forall (fun m => is_u64 (time m)) (op_messages o) -> zlen (held w) < 2 ^ 64 ->
  writer_ok (exec w o) /\ Forall item_ok (op_items w o) /\ items_messages (op_items w o) ++ held (exec w o) ≡ₚ held w ++ op_messages o /\
  (keeps w o = true -> items_messages (op_items w o) ++ held (exec w o) = held w ++ op_messages o).
Proof.
  intros W Hm Hl. destruct o as [c|m|]; cbn [exec op_items op_messages] in *.
  - assert (E : held (snd (WriteChannel w c)) = held w /\ writer_ok (snd (WriteChannel w c))) by done. destruct E as [-> ?].
    rewrite app_nil_r. split_and!; [done|by repeat constructor|done|done].
  - inversion_clear Hm as [|? ? Hm' _]. by destruct (WriteMessage_messages w m W Hm' Hl) as (? & ? & ?).
  - destruct (Flush_messages w W Hl) as (W' & I & -> & E). rewrite app_nil_r. unfold held. rewrite E.
    destruct (Flush_chunks w) as [-> _]. by split_and!.
Qed.

Lemma written_cons o ops : written (o :: ops) = op_messages o ++ written ops.
Proof. done. Qed.
Lemma run_messages ops : forall w, writer_ok w -> Forall (fun m => is_u64 (time m)) (written ops) -> zlen (held w ++ written ops) < 2 ^ 64 ->
  writer_ok (run w ops) /\ Forall item_ok (run_items w ops) /\ items_messages (run_items w ops) ++ held (run w ops) ≡ₚ held w ++ written ops /\
  (keeps_up w ops = true -> items_messages (run_items w ops) ++ held (run w ops) = held w ++ written ops).
Proof.
  induction ops as [|o ops IH]; intros w W Hm Hl.
  - cbn. unfold written. cbn. rewrite app_nil_r. split_and!; done.
  - rewrite written_cons in Hm, Hl. apply Forall_app in Hm as [Ho Hm].
    destruct (exec_messages w o W Ho) as (W' & I & P & Q).
    { rewrite zlen_app in Hl. pose proof (zlen_nonneg (op_messages o ++ written ops)). lia. }
    destruct (IH (exec w o) W' Hm) as (W2 & I2 & P2 & Q2).
    { apply Permutation_length in P. rewrite !length_app in P. unfold zlen in *. rewrite !length_app in Hl. rewrite !length_app. lia. }
    cbn [run_items run foldl keeps_up]. rewrite written_cons. fold (run (exec w o) ops).
    rewrite items_messages_app, <- app_assoc. split_and!; [done|by apply Forall_app|by rewrite P2, app_assoc, P, app_assoc|].
    intros [K1 K2]%andb_prop. by rewrite Q2, app_assoc, Q, app_assoc by done.
Qed.

Lemma close_messages w : writer_ok w -> zlen (held w) < 2 ^ 64 -> Forall item_ok (close_items w) /\ items_messages (close_items w) = held w.
Proof.
  intros W Hl. destruct (Flush_messages w W Hl) as (W' & I & M & E). destruct (Flush_chunks w) as [EA _].
  destruct (Flush_messages (swap_chunks (Flush w))) as (_ & I2 & M2 & _).
  - by destruct W'.
  - unfold held. cbn. rewrite E, EA, app_nil_r. unfold held in Hl. rewrite zlen_app in Hl. pose proof (zlen_nonneg (ck_body (chunk_flush_ w))). lia.
  - unfold close_items. rewrite items_messages_app, M, M2. split; [by apply Forall_app|]. unfold held. cbn. by rewrite EA.
Qed.

(** ** Lemmas: the header and the index *)

(** chunk_number, channel_number, begin_time, end_time and message_number. *)
Definition summary (h : Header) : Z * Z * Z * Z * Z := (chunk_number h, channel_number h, begin_time h, end_time h, message_number h).
Definition count_item (s : Z * Z * Z * Z * Z) (i : item) : Z * Z * Z * Z * Z :=
  let '(cn, chn, bt, et, mn) := s in
  match i with
  | IChannel _ => (cn, u64 (chn + 1), bt, et, mn)
  | IChunk k => (u64 (cn + 1), chn, if bt =? 0 then ch_begin_time (ck_header k) else bt, ch_end_time (ck_header k), u64 (mn + ch_message_number (ck_header k)))
  end.
Definition item_channel (i : item) : option Channel := match i with IChannel c => Some c | IChunk _ => None end.
Definition channel_entry (i : SingleIndex) : option ChannelCache :=
  match idx_type i, cache i with SECTION_CHANNEL, channel_cache c => Some c | _, _ => None end.
Definition new_entry (c : Channel) : ChannelCache := mkCC 0 (name c) (message_type c) (proto_desc c).

Definition tracks (w w' : Writer) (l : list item) : Prop :=
  summary (header_ w') = foldl count_item (summary (header_ w)) l /\
  omap channel_entry (index_ w') = omap channel_entry (index_ w) ++ (new_entry <$> omap item_channel l).
Lemma tracks_trans w w1 w2 l k : tracks w w1 l -> tracks w1 w2 k -> tracks w w2 (l ++ k).
Proof. intros [S1 I1] [S2 I2]. split; [by rewrite S2, S1, foldl_app|]. by rewrite I2, I1, omap_app, fmap_app, <- app_assoc. Qed.

Lemma Flush_tracks w : tracks w (Flush w) (flush_items w).
Proof.
  unfold Flush, flush_items, tracks. destruct (empty _); [cbn; by rewrite app_nil_r|].
  unfold WriteChunk. destruct (WriteSection_shape w SECTION_CHUNK_HEADER (Serialize (ck_header (chunk_flush_ w)))) as [f ->]; [done|].
  cbn [negb]. match goal with |- context [WriteSection ?w' SECTION_CHUNK_BODY ?bs] => destruct (WriteSection_shape w' SECTION_CHUNK_BODY bs) as [f' ->]; [done|] end.
  cbn -[omap]. by rewrite !omap_app, <- !app_assoc.
Qed.
Lemma exec_tracks w o : tracks w (exec w o) (op_items w o).
Proof.
  destruct o as [c|m|]; [| |apply Flush_tracks].
  - unfold tracks. cbn [exec]. unfold WriteChannel. destruct (WriteSection_shape w SECTION_CHANNEL (Serialize c)) as [f ->]; [done|].
    cbn -[omap]. by rewrite omap_app.
  - unfold tracks. cbn. unfold WriteMessage. destruct (need_flush _ _ _); cbn; by rewrite app_nil_r.
Qed.
Lemma run_tracks ops : forall w, tracks w (run w ops) (run_items w ops).
Proof.
  induction ops as [|o ops IH]; intros w; [split; cbn; [done|by rewrite app_nil_r]|].
  eapply tracks_trans; [apply exec_tracks|apply IH].
Qed.
Lemma closing_tracks w : tracks w (closing w) (close_items w).
Proof. eapply tracks_trans; [apply Flush_tracks|]. exact (Flush_tracks (swap_chunks (Flush w))). Qed.

Lemma recorded_tracks h ops : header_fits h -> tracks (start h) (closing (run (start h) ops)) (recorded h ops).
Proof. intros _. eapply tracks_trans; [apply run_tracks|apply closing_tracks]. Qed.

Lemma start_writer h : header_fits h ->
  header_ (start h) = set_size h FIRST_SECTION /\ index_ (start h) = [] /\ chunk_active_ (start h) = clear /\ chunk_flush_ (start h) = clear /\
  channel_message_number_map_ (start h) = ∅.
Proof.
  intros F. destruct (WriteHeader_bytes (Open NewHeader []) h [] [] F eq_refl ltac:(by right)) as (w' & E & _ & _ & ? & ? & ? & ? & ?).
  unfold start. rewrite E. by split_and!.
Qed.

(** The channels of the items are those of the run. *)
Lemma exec_channels w o : omap item_channel (op_items w o) = op_channels o.
Proof. destruct o; cbn; [done|done|]. unfold flush_items. by destruct (empty _). Qed.
Lemma run_channels ops : forall w, omap item_channel (run_items w ops) = channels ops.
Proof.
  induction ops as [|o ops IH]; intros w; [done|]. cbn [run_items]. rewrite omap_app, exec_channels, IH. done.
Qed.
Lemma recorded_channels h ops : omap item_channel (recorded h ops) = channels ops.
Proof.
  unfold recorded. rewrite omap_app, run_channels. unfold close_items, flush_items.
  destruct (empty _), (empty _); cbn; by rewrite app_nil_r.
Qed.

Lemma count_items_messages l : Forall item_ok l -> forall cn chn bt et mn,
  exists cn' bt' et', foldl count_item (cn, chn, bt, et, u64 mn) l =
    (cn', foldl (fun n _ => u64 (n + 1)) chn (omap item_channel l), bt', et', u64 (mn + zlen (items_messages l))).
Proof.
  induction 1 as [|i l Hi _ IH]; intros cn chn bt et mn; [exists cn, bt, et; by rewrite Z.add_0_r|].
  destruct i as [c|k]; cbn [foldl count_item omap list_omap item_channel]; [apply IH|].
  rewrite (ck_number _ (proj1 Hi)). replace (u64 (u64 mn + u64 _)) with (u64 (mn + zlen (ck_body k))) by (unfold u64; by rewrite <- Zplus_mod).
  destruct (IH (u64 (cn + 1)) chn (if bt =? 0 then ch_begin_time (ck_header k) else bt) (ch_end_time (ck_header k)) (mn + zlen (ck_body k)))
    as (cn' & bt' & et' & ->). exists cn', bt', et'. unfold items_messages. cbn. rewrite zlen_app, Z.add_assoc. done.
Qed.

(** *** The numbers of messages of the channels *)

Definition count_of (c : string) (ms : list SingleMessage) : Z := zlen (filter (fun m => msg_channel m = c) ms).
Definition counted (nums : gmap string Z) (ms : list SingleMessage) : Prop :=
  forall c, nums !! c = if count_of c ms =? 0 then None else Some (u64 (count_of c ms)).

Lemma count_of_snoc c ms m : count_of c (ms ++ [m]) = count_of c ms + if bool_decide (msg_channel m = c) then 1 else 0.
Proof.
  unfold count_of. rewrite filter_app, zlen_app, filter_cons. case_decide; [rewrite bool_decide_eq_true_2 by done|rewrite bool_decide_eq_false_2 by done]; done.
Qed.

Lemma exec_counted w o ms : counted (channel_message_number_map_ w) ms -> counted (channel_message_number_map_ (exec w o)) (ms ++ op_messages o).
Proof.
  intros C. destruct o as [c|m|]; cbn [exec op_messages]; [by rewrite app_nil_r| |by rewrite app_nil_r, Flush_map].
  replace (channel_message_number_map_ (WriteMessage w m)) with
    (<[msg_channel m := match channel_message_number_map_ w !! msg_channel m with Some n => u64 (n + 1) | None => 1 end]> (channel_message_number_map_ w))
    by (unfold WriteMessage; by destruct (need_flush _ _ _)).
  intros c. rewrite count_of_snoc, lookup_insert. assert (N : 0 <= count_of c ms) by apply zlen_nonneg.
  case_decide as E; [subst|rewrite bool_decide_eq_false_2, Z.add_0_r by done; apply C].
  rewrite bool_decide_eq_true_2, C by done. rewrite (proj2 (Z.eqb_neq (_ + 1) 0)) by lia.
  destruct (Z.eqb_spec (count_of (msg_channel m) ms) 0) as [->|]; [done|]. f_equal. unfold u64. by rewrite Zplus_mod_idemp_l.
Qed.
Lemma run_counted ops : forall w ms, counted (channel_message_number_map_ w) ms -> counted (channel_message_number_map_ (run w ops)) (ms ++ written ops).
Proof.
  induction ops as [|o ops IH]; intros w ms C; [by rewrite app_nil_r|]. rewrite written_cons, app_assoc. apply IH, exec_counted, C.
Qed.

(** What the reader collects from the index. *)
Definition number_entry (nums : gmap string Z) (c : ChannelCache) : ChannelCache :=
  mkCC (default (cc_message_number c) (nums !! cc_name c)) (cc_name c) (cc_message_type c) (cc_proto_desc c).
Lemma number_caches_entries nums idx : omap channel_entry (number_caches nums idx) = number_entry nums <$> omap channel_entry idx.
Proof.
  unfold number_caches. induction idx as [|[t p c] idx IH]; [done|]. rewrite fmap_cons.
  destruct t, c; cbn in *; by rewrite IH.
Qed.
Definition first_entry (info : gmap string ChannelCache) (c : ChannelCache) : gmap string ChannelCache :=
  match info !! cc_name c with Some _ => info | None => <[cc_name c := c]> info end.
Lemma collect_entries idx : forall info, foldl collect_channel info idx = foldl first_entry info (omap channel_entry idx).
Proof. induction idx as [|[t p c] idx IH]; intros info; [done|]. cbn. unfold collect_channel at 2, channel_entry. cbn. destruct t, c; apply IH. Qed.
Lemma first_entries_lookup cs c : forall info,
  foldl first_entry info cs !! c = match info !! c with Some e => Some e | None => list_find (fun e => cc_name e = c) cs ≫= (fun p => Some (snd p)) end.
Proof.
  induction cs as [|e cs IH]; intros info; [cbn; by destruct (info !! c)|]. cbn [foldl]. rewrite IH. unfold first_entry.
  destruct (decide (cc_name e = c)) as [<-|N].
  - destruct (info !! cc_name e) as [x|] eqn:E; [by rewrite E|]. rewrite lookup_insert_eq. cbn. by rewrite decide_True.
  - assert (L : match info !! cc_name e with Some _ => info | None => <[cc_name e:=e]> info end !! c = info !! c).
    { destruct (info !! cc_name e); [done|]. by rewrite lookup_insert_ne. }
    rewrite L. destruct (info !! c); [done|]. cbn. rewrite decide_False by done. by destruct (list_find _ cs) as [[]|].
Qed.

(** ** Lemmas: opening *)

Lemma SetPosition_first f : SetPosition f FIRST_SECTION = (true, mkFile (bytes f) (Z.to_nat FIRST_SECTION)).
Proof. done. Qed.

Lemma OpenReader_spec h rest : header_fits h -> Serialize h <> [] ->
  exists eof, OpenReader (header_block h ++ rest) = (true, mkFR (mkFile (header_block h ++ rest) (Z.to_nat FIRST_SECTION)) eof h []).
Proof.
  unfold header_fits. intros F N. unfold OpenReader, ReadHeader. set (r0 := mkFR _ _ _ _).
  assert (Fs : fits (Serialize h)).
  { unfold fits, INT_MAX, HEADER_LENGTH in *. destruct (Serialize h); [done|]. unfold zlen. cbn [length] in *. lia. }
  destruct (ReadSectionHead_sec r0 SECTION_HEADER (Serialize h) (blank (HEADER_LENGTH - length (Serialize h)) ++ rest)) as [-> R1].
  { unfold rest_of, r0, header_block. cbn [rd_file bytes pos]. by rewrite drop_0, <- app_assoc. }
  { destruct Fs as [_ ?]. unfold INT_MAX, INT64_MAX in *. lia. }
  rewrite Z.eqb_refl. cbn [negb].
  destruct (ReadSection_parse _ h (rd_header (moved r0 SECTION_SIZE)) _ R1 Fs) as [-> _]. cbn [negb]. rewrite SetPosition_first. by eexists.
Qed.

Lemma ReadIndex_spec contents eof h idx pre : contents = pre ++ sec SECTION_INDEX (Serialize idx) -> zlen contents <= INT64_MAX ->
  is_complete h = true -> index_position h = zlen pre -> fits (Serialize idx) ->
  ReadIndex (mkFR (mkFile contents (Z.to_nat FIRST_SECTION)) eof h []) = (true, mkFR (mkFile contents (Z.to_nat FIRST_SECTION)) false h idx).
Proof.
  intros E L C P F. unfold ReadIndex. cbn [rd_header]. rewrite C, P. cbn [negb]. pose proof (zlen_nonneg pre).
  assert (zlen pre <= INT64_MAX).
  { rewrite E, zlen_app in L. pose proof (zlen_nonneg (sec SECTION_INDEX (Serialize idx))). lia. }
  rewrite i64_small by (unfold is_i64, INT64_MAX in *; lia).
  unfold SetPosition at 1. rewrite (proj2 (Z.ltb_ge _ _)) by lia. cbn [rd_file bytes with_rd_file rd_header rd_index end_of_file_ negb].
  match goal with |- context [ReadSectionHead ?r] => set (r0 := r) end.
  destruct (ReadSectionHead_sec r0 SECTION_INDEX (Serialize idx) []) as [-> R1].
  { unfold rest_of, r0. cbn [rd_file bytes pos with_rd_file]. unfold zlen. by rewrite Nat2Z.id, E, drop_app_length, app_nil_r. }
  { destruct F as [_ ?]. unfold INT_MAX, INT64_MAX in *. lia. }
  rewrite Z.eqb_refl. cbn [negb]. destruct (ReadSection_parse _ idx (rd_index (moved r0 SECTION_SIZE)) [] R1 F) as [-> _].
  cbn [negb]. unfold ResetFile. rewrite SetPosition_first. done.
Qed.

Lemma NewRecordReader_spec h l idx contents : contents = header_block h ++ items_bytes l ++ sec SECTION_INDEX (Serialize idx) ->
  zlen contents <= INT64_MAX -> header_fits h -> Serialize h <> [] -> is_complete h = true ->
  index_position h = FIRST_SECTION + zlen (items_bytes l) -> fits (Serialize idx) ->
  NewRecordReader contents =
    mkRR (mkFR (mkFile contents (Z.to_nat FIRST_SECTION)) false h idx) true h idx (foldl collect_channel ∅ idx) [] 0 false /\
  drop (Z.to_nat FIRST_SECTION) contents = items_bytes l ++ sec SECTION_INDEX (Serialize idx).
Proof.
  intros E L F N C P FI. pose proof (header_block_length h F) as LB. unfold NewRecordReader.
  destruct (OpenReader_spec h (items_bytes l ++ sec SECTION_INDEX (Serialize idx)) F N) as [eof O]. rewrite <- E in O. rewrite O. cbn [negb rd_header].
  rewrite (ReadIndex_spec _ _ _ idx (header_block h ++ items_bytes l)); try done.
  - split; [done|]. rewrite E. apply drop_app_length'. lia.
  - by rewrite E, app_assoc.
  - rewrite P, zlen_app. unfold zlen. lia.
Qed.

(** ** The theorems *)

(** What protobuf and the file system can hold. *)
Record recordable (h : Header) (ops : list wop) : Prop := {
  rc_times : Forall (fun m => is_u64 (time m)) (written ops);
  rc_number : zlen (written ops) < 2 ^ 64;
  rc_header : header_fits h;
  rc_final : header_fits (final_header (run (start h) ops)) /\ Serialize (final_header (run (start h) ops)) <> [];
  rc_items : Forall item_fits (recorded h ops);
  rc_index : fits (Serialize (final_index (run (start h) ops)));
  rc_length : zlen (bytes (file (Close (run (start h) ops)))) <= INT64_MAX
}.
Definition record_file (h : Header) (ops : list wop) : list Z := bytes (file (Close (run (start h) ops))).

(** The same, decided. *)
Definition fitsb (bs : list Z) : bool := (0 <? zlen bs) && (zlen bs <=? INT_MAX).
Definition item_fitsb (i : item) : bool :=
  match i with
  | IChannel c => fitsb (Serialize c)
  | IChunk k => fitsb (Serialize (ck_header k)) && fitsb (Serialize (ck_body k))
  end.
Definition header_fitsb (h : Header) : bool := zlen (Serialize h) <=? 2048.
Definition recordableb (h : Header) (ops : list wop) : bool :=
  forallb (fun m => (0 <=? time m) && (time m <? 2 ^ 64)) (written ops) && (zlen (written ops) <? 2 ^ 64) && header_fitsb h &&
  (header_fitsb (final_header (run (start h) ops)) && (0 <? zlen (Serialize (final_header (run (start h) ops))))) &&
  forallb item_fitsb (recorded h ops) && fitsb (Serialize (final_index (run (start h) ops))) &&
  (zlen (bytes (file (Close (run (start h) ops)))) <=? INT64_MAX).

Lemma fitsb_true bs : fitsb bs = true -> fits bs.
Proof. unfold fitsb, fits. intros [?%Z.ltb_lt ?%Z.leb_le]%andb_prop. done. Qed.
Lemma item_fitsb_true i : item_fitsb i = true -> item_fits i.
Proof. destruct i; cbn [item_fitsb item_fits]; [apply fitsb_true|]. intros [? ?]%andb_prop. split; by apply fitsb_true. Qed.
Lemma header_fitsb_true h : header_fitsb h = true -> header_fits h.
Proof. unfold header_fitsb, header_fits, HEADER_LENGTH, zlen. intros ?%Z.leb_le. lia. Qed.
Lemma forallb_true {A} (f : A -> bool) (P : A -> Prop) l : (forall x, f x = true -> P x) -> forallb f l = true -> Forall P l.
Proof. intros HP. induction l as [|x l IH]; [constructor|]. cbn [forallb]. intros [? ?]%andb_prop. constructor; auto. Qed.

Lemma recordableb_true h ops : recordableb h ops = true -> recordable h ops.
Proof.
  unfold recordableb. intros [[[[[[T N]%andb_prop Hh]%andb_prop [F Fn]%andb_prop]%andb_prop I]%andb_prop X]%andb_prop L]%andb_prop.
  apply Z.ltb_lt in N, Fn. apply Z.leb_le in L. split; [|exact N|by apply header_fitsb_true| | |exact (fitsb_true _ X)|exact L].
  - refine (forallb_true _ _ _ _ T). intros m [?%Z.leb_le ?%Z.ltb_lt]%andb_prop. done.
  - split; [by apply header_fitsb_true|]. by destruct (Serialize _).
  - exact (forallb_true _ _ _ item_fitsb_true I).
Qed.

Lemma record_file_bytes h ops : recordable h ops ->
  record_file h ops = header_block (final_header (run (start h) ops)) ++ items_bytes (recorded h ops) ++
    sec SECTION_INDEX (Serialize (final_index (run (start h) ops))).
Proof.
  intros R. unfold record_file. apply (Close_bytes _ (header_block h)); [|apply header_block_length, R|apply R].
  apply (run_logged ops (start h) (header_block h) []), start_logged, R.
Qed.

Lemma recorded_messages h ops : recordable h ops ->
  Forall item_ok (recorded h ops) /\ items_messages (recorded h ops) ≡ₚ written ops /\
  (keeps_up (start h) ops = true -> items_messages (recorded h ops) = written ops).
Proof.
  intros R. destruct (start_writer h (rc_header _ _ R)) as (_ & _ & EA & EF & _).
  assert (H0' : held (start h) = []) by (unfold held; by rewrite EA, EF).
  destruct (run_messages ops (start h)) as (W & I & P & Q).
  { unfold writer_ok. rewrite EA, EF. split; apply clear_ok. } { apply R. } { rewrite H0'. apply R. }
  rewrite H0' in P, Q. cbn [app] in P, Q.
  assert (Hl : zlen (held (run (start h) ops)) < 2 ^ 64).
  { pose proof (rc_number _ _ R). apply Permutation_length in P. rewrite length_app in P. unfold zlen in *. lia. }
  destruct (close_messages _ W Hl) as [I2 M2]. unfold recorded. rewrite items_messages_app, M2.
  split_and!; [by apply Forall_app|done|done].
Qed.

Lemma recorded_reader h ops : recordable h ops ->
  let fh := final_header (run (start h) ops) in let idx := final_index (run (start h) ops) in
  NewRecordReader (record_file h ops) =
    mkRR (mkFR (mkFile (record_file h ops) (Z.to_nat FIRST_SECTION)) false fh idx) true fh idx (foldl collect_channel ∅ idx) [] 0 false /\
  (forall bt et, Forall (sound bt et) (recorded h ops) -> reading bt et idx (NewRecordReader (record_file h ops)) (recorded h ops)).
Proof.
  intros R fh idx. pose proof (record_file_bytes _ _ R) as B.
  assert (P : index_position fh = FIRST_SECTION + zlen (items_bytes (recorded h ops))).
  { destruct (closing_logged _ _ _ (run_logged ops _ _ _ (start_logged h (rc_header _ _ R)))) as [E BB].
    unfold fh, final_header. cbn [index_position upd_header]. unfold CurrentPosition. rewrite E, BB, length_app, Nat2Z.inj_add.
    rewrite header_block_length by apply R. done. }
  destruct (NewRecordReader_spec fh (recorded h ops) idx (record_file h ops) B) as [E D]; try done; try apply R.
  rewrite E. split; [done|]. intros bt et S. split; cbn; try done; apply R.
Qed.

Lemma window_everything l : Forall (fun m => is_u64 (time m)) l -> window 0 UINT64_MAX l = l.
Proof.
  induction 1 as [|m l [H0' H1'] _ IH]; [done|]. cbn. unfold UINT64_MAX in *.
  rewrite (proj2 (Z.ltb_ge _ _)) by lia. rewrite (proj2 (Z.ltb_ge _ _)) by lia. by rewrite IH.
Qed.

Lemma window_length bt et l : (length (window bt et l) <= length l)%nat.
Proof. induction l as [|m l IH]; [done|]. cbn. repeat case_match; cbn; lia. Qed.

Lemma window_in_time bt et l : bt <= et -> StronglySorted (fun a b => time a <= time b) l ->
  window bt et l = filter (fun m => bt <= time m <= et) l.
Proof.
  intros Hbt. induction 1 as [|m l _ IH Hm]; [done|]. cbn [window]. rewrite filter_cons.
  destruct (Z.ltb_spec et (time m)); [|destruct (Z.ltb_spec (time m) bt)].
  - rewrite decide_False by lia. symmetry. clear IH. induction Hm as [|x l Hx _ IHl]; [done|].
    rewrite filter_cons, decide_False by lia. done.
  - rewrite decide_False by lia. done.
  - rewrite decide_True by lia. by rewrite IH.
Qed.

Lemma items_sound bt et l : bt <= et -> Forall item_ok l -> Forall (fun m => 0 < time m) (items_messages l) -> Forall (sound bt et) l.
Proof.
  intros Hbt. induction 1 as [|[c|k] l Hi _ IH]; intros P; [constructor|by constructor; [|apply IH]|].
  unfold items_messages in P. cbn in P. apply Forall_app in P as [Pk Pl]. destruct Hi as [Ok Ne].
  constructor; [|by apply IH]. destruct (ck_bounds _ Ok Pk Ne) as [B0 Bd]. split; intros Hx.
  - eapply Forall_impl; [exact Bd|]. cbn. lia.
  - destruct (ck_body k) as [|m ms]; [done|]. exists m, ms. inversion_clear Bd. split; [done|lia].
Qed.

(** The times of the final header are those of the first and the last chunk. *)
Definition sum_begin (s : Z * Z * Z * Z * Z) : Z := let '(_, _, b, _, _) := s in b.
Definition sum_end (s : Z * Z * Z * Z * Z) : Z := let '(_, _, _, e, _) := s in e.
Definition in_time (l : list SingleMessage) : Prop := StronglySorted (fun a b => time a <= time b) l.

Lemma sum_u64 l : Forall item_ok l -> forall s, is_u64 (sum_begin s) -> is_u64 (sum_end s) ->
  is_u64 (sum_begin (foldl count_item s l)) /\ is_u64 (sum_end (foldl count_item s l)).
Proof.
  induction 1 as [|[c|k] l Hi _ IH]; intros [[[[cn chn] b] e] mn] Hb He; [done|apply IH; done|].
  apply IH; cbn; [case_match; [apply Hi|done]|apply Hi].
Qed.

Lemma sum_end_le l B : Forall item_ok l -> 0 <= B -> Forall (fun m => time m <= B) (items_messages l) -> forall s, sum_end s <= B ->
  sum_end (foldl count_item s l) <= B.
Proof.
  intros I HB. induction I as [|[c|k] l Hi _ IH]; intros F [[[[cn chn] b] e] mn] He; [done|by apply IH|].
  change (items_messages (IChunk k :: l)) with (ck_body k ++ items_messages l) in F. apply Forall_app in F as [Fk Fl].
  apply IH; [done|]. cbn. by apply Hi.
Qed.

Lemma sum_begin_kept l : forall s, sum_begin s <> 0 -> sum_begin (foldl count_item s l) = sum_begin s.
Proof.
  induction l as [|[c|k] l IH]; intros [[[[cn chn] b] e] mn] Hb; [done| |]; cbn [foldl]; rewrite IH; cbn in *; try done.
  all: rewrite (proj2 (Z.eqb_neq _ _)) by done; done.
Qed.

Lemma sum_begin_first l : Forall item_ok l -> Forall (fun m => 0 < time m) (items_messages l) -> forall s, sum_begin s = 0 ->
  match items_messages l with [] => sum_begin (foldl count_item s l) = 0 | m :: _ => sum_begin (foldl count_item s l) <= time m end.
Proof.
  induction 1 as [|[c|k] l Hi _ IH]; intros P [[[[cn chn] b] e] mn] Hb; [done|by apply IH|].
  unfold items_messages in P |- *. cbn [fmap list_fmap mjoin list_join item_messages] in P |- *. apply Forall_app in P as [Pk Pl].
  destruct Hi as [Ok Ne]. destruct (ck_bounds _ Ok Pk Ne) as [B0 Bd]. cbn [foldl]. rewrite sum_begin_kept.
  - cbn in *. subst b. cbn. destruct (ck_body k) as [|m ms]; [done|]. cbn. inversion_clear Bd. lia.
  - cbn in *. subst b. cbn. lia.
Qed.

Lemma sum_end_last l : forall s, Forall item_ok l -> Forall (fun m => 0 < time m) (items_messages l) -> in_time (items_messages l) ->
  Forall (fun m => time m <= sum_end (foldl count_item s l)) (items_messages l).
Proof.
  induction l as [|i l IH] using rev_ind; intros s I P T; [constructor|].
  rewrite items_messages_app in P, T |- *. apply Forall_app in I as [I Ii]. apply Forall_app in P as [P Pi]. rewrite foldl_app. cbn [foldl].
  destruct i as [c|k].
  - rewrite items_messages_one, app_nil_r in T |- *.
    specialize (IH s I P T). by destruct (foldl count_item s l) as [[[[? ?] ?] ?] ?].
  - apply Forall_singleton in Ii as [Ok Ne]. rewrite items_messages_one in Pi, T |- *. cbn [item_messages] in Pi, T |- *.
    destruct (foldl count_item s l) as [[[[? ?] ?] ?] ?]. cbn. destruct (ck_bounds _ Ok Pi Ne) as [_ Bd]. apply Forall_app. split.
    + destruct (ck_body k) as [|m ms]; [done|]. inversion_clear Bd as [|? ? Hm _].
      apply Forall_forall. intros x Hx. pose proof (StronglySorted_app_1_elem_of _ _ _ x m T Hx ltac:(left)). cbn in *. lia.
    + eapply Forall_impl; [exact Bd|]. cbn. lia.
Qed.

Lemma final_summary h ops : recordable h ops ->
  summary (final_header (run (start h) ops)) = foldl count_item (summary h) (recorded h ops).
Proof.
  intros R. destruct (recorded_tracks h ops (rc_header _ _ R)) as [S _]. destruct (start_writer h (rc_header _ _ R)) as (E & _).
  rewrite E in S. exact S.
Qed.

Lemma final_size h ops : recordable h ops -> size_ (final_header (run (start h) ops)) = zlen (record_file h ops).
Proof.
  intros R. rewrite (record_file_bytes _ _ R), app_assoc, zlen_app. unfold final_header at 1. cbn [size_ upd_header]. f_equal.
  destruct (closing_logged _ _ _ (run_logged ops _ _ _ (start_logged h (rc_header _ _ R)))) as [E BB].
  unfold CurrentPosition, zlen. rewrite E, BB, !length_app, !Nat2Z.inj_add. rewrite !header_block_length by apply R. done.
Qed.

(** Reading a window of a recording whose chunks tell the truth about it. *)
Lemma recording_window h ops bt et fuel : recordable h ops -> Forall (sound bt et) (recorded h ops) ->
  let w := window bt et (items_messages (recorded h ops)) in
  (outside bt et (final_header (run (start h) ops)) = true -> w = []) ->
  (2 * length (recorded h ops) + 3 + length w <= fuel)%nat ->
  exists r', read_all fuel (NewRecordReader (record_file h ops)) bt et = Some (w, r').
Proof.
  intros R S w O Hf. destruct (recorded_reader h ops R) as [E Rd]. specialize (Rd bt et S).
  destruct (outside bt et (final_header (run (start h) ops))) eqn:Eo.
  - rewrite (O eq_refl). destruct fuel as [|fuel]; [lia|]. cbn [read_all ReadMessage]. rewrite E. cbn [is_valid_ rr_header negb].
    unfold outside in Eo. rewrite Eo. eauto.
  - eapply read_all_spec; [exact Rd| | |exact Hf]; rewrite E; [done|]. unfold pending. done.
Qed.

(** C19. A recording comes back: when the file of a closed recording is opened again and its
    messages are read to the end, the messages that the program wrote come out, each as
    often as it was written, and in the order they were written if the flush thread
    kept up with the program. *)
Theorem recorded_messages_are_read_back h ops fuel : recordable h ops -> is_u64 (begin_time h) -> is_u64 (end_time h) ->
  (2 * length (recorded h ops) + 3 + length (written ops) <= fuel)%nat ->
  exists ms r, read_all fuel (NewRecordReader (record_file h ops)) 0 UINT64_MAX = Some (ms, r) /\ ms ≡ₚ written ops /\
    (keeps_up (start h) ops = true -> ms = written ops).
Proof.
  intros R Hb He Hf. destruct (recorded_messages h ops R) as (I & P & Q).
  assert (W : window 0 UINT64_MAX (items_messages (recorded h ops)) = items_messages (recorded h ops)).
  { apply window_everything. rewrite P. apply R. }
  destruct (recording_window h ops 0 UINT64_MAX fuel R) as (r & E).
  - eapply Forall_impl; [exact I|]. intros [c|k]; [done|]. intros [Ok _].
    pose proof (ck_begin _ Ok) as [B1 B2]. pose proof (ck_end _ Ok) as [E1 E2]. unfold UINT64_MAX. split; cbn; lia.
  - destruct (sum_u64 _ I (summary h) Hb He) as [[B1 B2] [E1 E2]]. rewrite <- (final_summary h ops R) in B1, B2, E1, E2. cbn [sum_begin sum_end summary] in B1, B2, E1, E2.
    unfold outside. rewrite (proj2 (Z.ltb_ge _ _)) by lia. rewrite (proj2 (Z.ltb_ge _ _)) by (unfold UINT64_MAX; lia). done.
  - rewrite W, (Permutation_length P). exact Hf.
  - rewrite W in E. eauto.
Qed.

(** A time window of a recording is exact: if the messages were written in the order of their
    (positive) times and the flush thread kept up, reading from begin_time to
    end_time gives exactly the messages with those times, although chunks are skipped by the times in their
    headers and the reading stops at the first message past the window. *)
Theorem window_of_recording_is_exact h ops fuel bt et : recordable h ops -> begin_time h = 0 -> end_time h = 0 -> 0 <= bt <= et ->
  keeps_up (start h) ops = true -> in_time (written ops) -> Forall (fun m => 0 < time m) (written ops) ->
  (2 * length (recorded h ops) + 3 + length (written ops) <= fuel)%nat ->
  exists r, read_all fuel (NewRecordReader (record_file h ops)) bt et =
    Some (filter (fun m => bt <= time m <= et) (written ops), r).
Proof.
  intros R Hb He Hbt K T Pos Hf. destruct (recorded_messages h ops R) as (I & _ & Q). specialize (Q K).
  rewrite <- (window_in_time bt et) by first [lia|exact T]. rewrite <- Q in *.
  apply recording_window; [done| | |].
  - apply items_sound; [lia|done|done].
  - intros O. pose proof (final_summary h ops R) as Sm. unfold outside in O. apply orb_true_iff in O as [O|O]; apply Z.ltb_lt in O.
    + rewrite <- (app_nil_r (items_messages _)), window_skip; [done|].
      pose proof (sum_end_last _ (summary h) I Pos T) as Le. rewrite <- Sm in Le. cbn [sum_end summary] in Le.
      eapply Forall_impl; [exact Le|]. cbv beta. lia.
    + pose proof (sum_begin_first _ I Pos (summary h) Hb) as Fi. rewrite <- Sm in Fi. cbn [sum_begin summary] in Fi.
      destruct (items_messages _) as [|m ms]; [done|]. apply window_late. lia.
  - pose proof (window_length bt et (items_messages (recorded h ops))). lia.
Qed.

(** The entry of a channel in what the reader collected. *)
Lemma recorded_entry h ops c : recordable h ops ->
  channel_info_ (NewRecordReader (record_file h ops)) !! c =
    (fun p => number_entry (channel_message_number_map_ (run (start h) ops)) (new_entry (snd p))) <$> list_find (fun x => name x = c) (channels ops).
Proof.
  intros R. destruct (recorded_reader h ops R) as [E _]. rewrite E. cbn [channel_info_]. rewrite collect_entries, first_entries_lookup, lookup_empty.
  unfold final_index. rewrite number_caches_entries. destruct (recorded_tracks h ops (rc_header _ _ R)) as [_ I].
  destruct (start_writer h (rc_header _ _ R)) as (_ & EI & _). rewrite EI in I. cbn [omap list_omap app] in I.
  rewrite I, recorded_channels, !list_find_fmap. cbn [new_entry number_entry cc_name].
  rewrite (list_find_ext (_ ∘ _ ∘ _) (fun x => name x = c)) by done.
  by destruct (list_find _ (channels ops)) as [[]|].
Qed.

(** The summary of a recording comes back: the header that is read says the recording
    is complete, how many bytes it has and how many messages; the channels are those that were
    declared, each with the type and the description of its first declaration and the number of
    its messages. *)
Theorem recorded_info_is_read_back h ops : recordable h ops -> is_u64 (message_number h) ->
  let r := NewRecordReader (record_file h ops) in
  is_valid_ r = true /\ is_complete (rr_header r) = true /\ size_ (rr_header r) = zlen (record_file h ops) /\
  message_number (rr_header r) = u64 (message_number h + zlen (written ops)) /\
  GetChannelList r = list_to_set (name <$> channels ops) /\
  (forall i ch, list_find (fun x => name x = name ch) (channels ops) = Some (i, ch) ->
     GetMessageType r (name ch) = message_type ch /\ GetProtoDesc r (name ch) = proto_desc ch /\
     ReadMessageNumber r (name ch) = count_of (name ch) (written ops)).
Proof.
  intros R Hn r. destruct (recorded_reader h ops R) as [E _]. destruct (recorded_messages h ops R) as (I & P & _).
  assert (EH : rr_header r = final_header (run (start h) ops)) by (unfold r; by rewrite E).
  assert (EV : is_valid_ r = true) by (unfold r; by rewrite E).
  rewrite EH. split_and!; [done|done|exact (final_size h ops R)| | |].
  - pose proof (final_summary h ops R) as S. destruct (count_items_messages _ I (chunk_number h) (channel_number h) (begin_time h) (end_time h) (message_number h))
      as (cn & bt & et & C). unfold summary in S. rewrite (u64_small _ Hn) in C. rewrite C in S. apply (f_equal snd) in S. cbn [snd] in S. rewrite S.
    unfold zlen. by rewrite (Permutation_length P).
  - apply set_eq. intros c. unfold GetChannelList. rewrite elem_of_dom, elem_of_list_to_set. unfold r. rewrite recorded_entry, fmap_is_Some by done.
    split.
    + intros [[i ch] (L & <- & _)%list_find_Some]. apply list_elem_of_fmap. exists ch. split; [done|]. by eapply list_elem_of_lookup_2.
    + intros (ch & -> & Hc)%list_elem_of_fmap. eapply list_find_elem_of; eauto.
  - intros i ch L. unfold GetMessageType, GetProtoDesc, ReadMessageNumber, r. rewrite recorded_entry, L by done. cbn. split_and!; [done|done|].
    assert (C : counted (channel_message_number_map_ (run (start h) ops)) (written ops)).
    { apply (run_counted ops (start h) []). destruct (start_writer h (rc_header _ _ R)) as (_ & _ & _ & _ & ->). intros c. by rewrite lookup_empty. }
    rewrite C. destruct (Z.eqb_spec (count_of (name ch) (written ops)) 0) as [->|]; [done|]. cbn. apply u64_small.
    pose proof (rc_number _ _ R). pose proof (zlen_nonneg (filter (fun m => msg_channel m = name ch) (written ops))).
    unfold is_u64, count_of, zlen in *. pose proof (length_filter (fun m => msg_channel m = name ch) (written ops)). lia.
Qed.
End record.
