(* ===== verification/RecordWriter.v ===== *)
(** RecordWriter.v -- recordings in segments

    - src/src/apollo/cyber/record/record_writer.{h,cc}
    - src/src/apollo/cyber/record/header_builder.{h,cc}

    RecordWriter writes a recording through RecordFileWriter (RecordFile.v) and goes on
    in a new file when a segment is long enough.  The files are a table from paths to
    their bytes; the file that is being written is in the state of its writer and
    comes into the table when the writer closes it.  Which paths can be opened is a
    parameter.  [file_writer_] is [None] when there is no file writer or it is not
    open, and an operation that needs one then has no result. *)

From S2P Require Import Prelude Unordered Wire RecordFile.
From S2P Require Import Text.
From Stdlib Require Import Ascii.
Local Open Scope Z_scope.

(** ** HeaderBuilder *)

Definition CHUNK_INTERVAL_ : Z := 20 * 1000 * 1000 * 1000.
Definition SEGMENT_INTERVAL_ : Z := 60 * 1000 * 1000 * 1000.
Definition CHUNK_RAW_SIZE_ : Z := 200 * 1024 * 1024.
Definition SEGMENT_RAW_SIZE_ : Z := 2048 * 1024 * 1024.
Definition GetHeaderWithParams (ci si cr sr : Z) : Header := mkHeader 1 0 0 ci si 0 0 0 0 0 0 0 false cr sr.
Definition GetHeader : Header := GetHeaderWithParams CHUNK_INTERVAL_ SEGMENT_INTERVAL_ CHUNK_RAW_SIZE_ SEGMENT_RAW_SIZE_.
Definition GetHeaderWithSegmentParams (segment_interval segment_raw_size : Z) : Header :=
  GetHeaderWithParams CHUNK_INTERVAL_ segment_interval CHUNK_RAW_SIZE_ segment_raw_size.
Definition GetHeaderWithChunkParams (chunk_interval chunk_raw_size : Z) : Header :=
  GetHeaderWithParams chunk_interval SEGMENT_INTERVAL_ chunk_raw_size SEGMENT_RAW_SIZE_.

(** ** RecordWriter *)

(** An index as std::setw(5) and std::setfill('0') print it. *)
Fixpoint zeros (n : nat) : string := match n with O => "" | S n => String "0"%char (zeros n) end.
Definition setw5 (i : Z) : string := let s := to_string i in (zeros (5 - String.length s) ++ s)%string.
Definition segment_path (file : string) (i : Z) : string := (file ++ "." ++ setw5 i)%string.

Record RW := mkRW {
  rw_header : Header;
  is_opened_ : bool;
  file_ : string;
  path_ : string;
  file_index_ : Z;
  segment_raw_size_ : Z;
  segment_begin_time_ : Z;
  numbers_ : gmap string Z;        (* channel_message_number_map_ *)
  types_ : gmap string string;     (* channel_message_type_map_ *)
  descs_ : gmap string string;     (* channel_proto_desc_map_ *)
  file_writer_ : option Writer;
  files : gmap string (list Z)
}.
Definition NewRW (h : Header) (fs : gmap string (list Z)) : RW := mkRW h false "" "" 0 0 0 ∅ ∅ ∅ None fs.
Definition set_writer (r : RW) (w : option Writer) : RW :=
  mkRW (rw_header r) (is_opened_ r) (file_ r) (path_ r) (file_index_ r) (segment_raw_size_ r) (segment_begin_time_ r)
    (numbers_ r) (types_ r) (descs_ r) w (files r).
Definition set_paths (r : RW) (f p : string) (i : Z) : RW :=
  mkRW (rw_header r) (is_opened_ r) f p i (segment_raw_size_ r) (segment_begin_time_ r)
    (numbers_ r) (types_ r) (descs_ r) (file_writer_ r) (files r).
Definition set_opened (r : RW) (o : bool) : RW :=
  mkRW (rw_header r) o (file_ r) (path_ r) (file_index_ r) (segment_raw_size_ r) (segment_begin_time_ r)
    (numbers_ r) (types_ r) (descs_ r) (file_writer_ r) (files r).
Definition set_segment (r : RW) (s b : Z) : RW :=
  mkRW (rw_header r) (is_opened_ r) (file_ r) (path_ r) (file_index_ r) s b
    (numbers_ r) (types_ r) (descs_ r) (file_writer_ r) (files r).
Definition set_channels (r : RW) (n : gmap string Z) (t d : gmap string string) : RW :=
  mkRW (rw_header r) (is_opened_ r) (file_ r) (path_ r) (file_index_ r) (segment_raw_size_ r) (segment_begin_time_ r)
    n t d (file_writer_ r) (files r).
Definition set_header (r : RW) (h : Header) : RW :=
  mkRW h (is_opened_ r) (file_ r) (path_ r) (file_index_ r) (segment_raw_size_ r) (segment_begin_time_ r)
    (numbers_ r) (types_ r) (descs_ r) (file_writer_ r) (files r).

Section record_writer.
Context `{Proto Header, Proto Channel, Proto ChunkHeader, Proto ChunkBody, Proto Index}.
Context `{HashOrder}.
Variables p0 p1 p2 p3 : Z.
(** Which paths open(2) accepts. *)
Variable can_open : string -> bool.

Notation Close := (RecordFile.Close p0 p1 p2 p3).
Notation WriteHeader := (RecordFile.WriteHeader p0 p1 p2 p3).
Notation WriteChannel := (RecordFile.WriteChannel p0 p1 p2 p3).
Notation start := (RecordFile.start p0 p1 p2 p3).
Notation run := (RecordFile.run p0 p1 p2 p3).
Notation record_file := (RecordFile.record_file p0 p1 p2 p3).

(** RecordFileWriter::Close of the file at [path_]; a writer that is not open does nothing. *)
Definition close_file (r : RW) : RW :=
  match file_writer_ r with
  | None => r
  | Some w =>
      mkRW (rw_header r) (is_opened_ r) (file_ r) (path_ r) (file_index_ r) (segment_raw_size_ r) (segment_begin_time_ r)
        (numbers_ r) (types_ r) (descs_ r) None (<[path_ r := bytes (file (Close w))]> (files r))
  end.

(** RecordFileWriter::Open and WriteHeader on [path_]; the file keeps its old bytes. *)
Definition open_file (r : RW) : bool * RW :=
  if negb (can_open (path_ r)) then (false, r)
  else
    let '(ok, w) := WriteHeader (Open NewHeader (default [] (files r !! path_ r))) (rw_header r) in
    (ok, set_writer r (Some w)).

Definition RW_Open (r : RW) (file : string) : bool * RW :=
  let r := close_file r in   (* file_writer_.reset destroys the writer that was there *)
  let segmented := (0 <? segment_interval (rw_header r)) || (0 <? segment_raw_size (rw_header r)) in
  let r := set_paths r file (if segmented then segment_path file 0 else file) 1 in
  let '(ok, r) := open_file r in
  if negb ok then (false, close_file r) else (true, set_opened r true).

Definition RW_Close (r : RW) : RW := if is_opened_ r then set_opened (close_file r) false else r.

Definition write_channels (cs : list Channel) (w : Writer) : bool * Writer :=
  foldl (fun '(ok, w) c => if (ok : bool) then WriteChannel w c else (false, w)) (true, w) cs.
Definition known_channels (r : RW) : list Channel :=
  (fun '(c, _) => mkChannel c (default "" (types_ r !! c)) (default "" (descs_ r !! c))) <$> iter (numbers_ r).

Definition SplitOutfile (r : RW) : bool * RW :=
  let i := if 99999 <? file_index_ r then 0 else file_index_ r in
  let r := set_paths r (file_ r) (segment_path (file_ r) i) (i + 1) in
  let r := set_segment r 0 0 in
  let '(ok, r) := open_file r in
  if negb ok then (false, r)
  else
    match file_writer_ r with
    | None => (false, r)
    | Some w => let '(ok, w) := write_channels (known_channels r) w in (ok, set_writer r (Some w))
    end.

Definition IsNewChannel (r : RW) (c : string) : bool := match numbers_ r !! c with Some _ => false | None => true end.
Definition OnNewChannel (r : RW) (c ty desc : string) : RW :=
  if IsNewChannel r c then set_channels r (<[c := 0]> (numbers_ r)) (<[c := ty]> (types_ r)) (<[c := desc]> (descs_ r)) else r.
Definition OnNewMessage (r : RW) (c : string) : RW :=
  match numbers_ r !! c with
  | Some n => set_channels r (<[c := u64 (n + 1)]> (numbers_ r)) (types_ r) (descs_ r)
  | None => r
  end.

Definition RW_WriteChannel (r : RW) (c ty desc : string) : option (bool * RW) :=
  if IsNewChannel r c then
    let r := OnNewChannel r c ty desc in
    match file_writer_ r with
    | None => None
    | Some w => let '(ok, w) := WriteChannel w (mkChannel c ty desc) in Some (ok, set_writer r (Some w))
    end
  else Some (true, r).

(** Whether the segment has reached its length. *)
Definition segment_full (h : Header) (raw begin t : Z) : bool :=
  (0 <? segment_interval h) && (segment_interval h <? u64 (t - begin)) ||
  (0 <? segment_raw_size h) && (segment_raw_size h <? raw).

Definition RW_WriteMessage (r : RW) (m : SingleMessage) : option (bool * RW) :=
  let r := OnNewMessage r (msg_channel m) in
  match file_writer_ r with
  | None => None
  | Some w =>
      let r := set_writer r (Some (WriteMessage w m)) in
      let raw := u64 (segment_raw_size_ r + zlen (content m)) in
      let b := if segment_begin_time_ r =? 0 then time m else segment_begin_time_ r in
      let b := if time m <? b then time m else b in
      let r := set_segment r raw b in
      if segment_full (rw_header r) raw b (time m) then
        Some (SplitOutfile (close_file r))
      else Some (true, r)
  end.

(** The typed WriteMessage; [content] is what SerializeToString gave. *)
Definition WriteTyped (r : RW) (c ty : string) (content : option (list Z)) (t : Z) (desc : string) : option (bool * RW) :=
  let known := default "" (types_ r !! c) in
  let declared := if bool_decide (known = "") then RW_WriteChannel r c ty desc else Some (bool_decide (ty = known), r) in
  match declared with
  | None => None
  | Some (false, r) => Some (false, r)
  | Some (true, r) => match content with None => Some (false, r) | Some bs => RW_WriteMessage r (mkMessage c t bs) end
  end.

Definition SetSizeOfFileSegmentation (r : RW) (size_kilobytes : Z) : bool * RW :=
  if is_opened_ r then (false, r)
  else
    let h := rw_header r in
    (true, set_header r (mkHeader (major_version h) (minor_version h) (compress h) (chunk_interval h) (segment_interval h)
      (index_position h) (chunk_number h) (channel_number h) (begin_time h) (end_time h) (message_number h) (size_ h) (is_complete h)
      (chunk_raw_size h) (u64 (size_kilobytes * 1024)))).
Definition SetIntervalOfFileSegmentation (r : RW) (time_sec : Z) : bool * RW :=
  if is_opened_ r then (false, r)
  else
    let h := rw_header r in
    (true, set_header r (mkHeader (major_version h) (minor_version h) (compress h) (chunk_interval h) (u64 (time_sec * 1000000000))
      (index_position h) (chunk_number h) (channel_number h) (begin_time h) (end_time h) (message_number h) (size_ h) (is_complete h)
      (chunk_raw_size h) (segment_raw_size h))).

Definition RW_GetMessageNumber (r : RW) (c : string) : Z := default 0 (numbers_ r !! c).
Definition RW_GetMessageType (r : RW) (c : string) : string := default "" (types_ r !! c).
Definition RW_GetProtoDesc (r : RW) (c : string) : string := default "" (descs_ r !! c).
Definition RW_GetChannelList (r : RW) : gset string := dom (numbers_ r).

(** What a program does between Open and Close, and the turns of the flush thread. *)
Inductive rop := RChannel (c ty desc : string) | RMessage (m : SingleMessage) | RFlush.
Definition rexec (r : RW) (o : rop) : option RW :=
  match o with
  | RChannel c ty desc => snd <$> RW_WriteChannel r c ty desc
  | RMessage m => snd <$> RW_WriteMessage r m
  | RFlush => Some (set_writer r (RecordFile.Flush p0 p1 p2 p3 <$> file_writer_ r))
  end.
Definition rrun (r : RW) (ops : list rop) : option RW := foldl (fun r o => r ≫= fun r => rexec r o) (Some r) ops.

(** ** Segments *)

Definition rop_messages (o : rop) : list SingleMessage := match o with RMessage m => [m] | _ => [] end.
Definition rmessages (ops : list rop) : list SingleMessage := mjoin (rop_messages <$> ops).
Fixpoint raw_of (ms : list SingleMessage) : Z := match ms with [] => 0 | m :: ms => zlen (content m) + raw_of ms end.

(** How often a run begins a new segment. *)
Definition next_begin (b t : Z) : Z := let b := if b =? 0 then t else b in if t <? b then t else b.
Definition splits_at (r : RW) (o : rop) : bool :=
  match o with
  | RMessage m => segment_full (rw_header r) (u64 (segment_raw_size_ r + zlen (content m))) (next_begin (segment_begin_time_ r) (time m)) (time m)
  | _ => false
  end.
Fixpoint splits (r : RW) (ops : list rop) : nat :=
  match ops with
  | [] => 0
  | o :: ops => (if splits_at r o then 1 else 0) + match rexec r o with Some r => splits r ops | None => 0 end
  end.

Definition segmented (h : Header) : bool := (0 <? segment_interval h) || (0 <? segment_raw_size h).
Definition path_of (h : Header) (f : string) (k : nat) : string := if segmented h then segment_path f (Z.of_nat k) else f.

(** *** Paths *)

Lemma read_zeros n s : forall seen, (exists v, read_digits s true 0 = Some v /\ read_digits s seen 0 = Some v) ->
  read_digits (zeros n ++ s) seen 0 = read_digits s true 0.
Proof.
  induction n as [|n IH]; intros seen (v & E & E').
  - transitivity (read_digits s seen 0); [done|congruence].
  - cbn. apply IH. eauto.
Qed.
Lemma setw5_value i : 0 <= i < 10 ^ 20 -> read_digits (setw5 i) false 0 = Some i.
Proof.
  intros Hi. unfold setw5, to_string. rewrite (proj2 (Z.ltb_ge i 0)) by lia.
  assert (D : forall seen, read_digits (digits 20 i "") seen 0 = Some i).
  { intros seen. destruct (read_digits_digits 20 i "" seen 0) as (k & _ & _ & ->); [lia|cbn; lia|]. done. }
  rewrite read_zeros; [apply D|]. eauto.
Qed.
Lemma string_app_inj a b c : (a ++ b)%string = (a ++ c)%string -> b = c.
Proof. induction a as [|x a IH]; cbn; [done|]. intros E. injection E as E. auto. Qed.
Lemma segment_path_inj f i j : 0 <= i < 10 ^ 20 -> 0 <= j < 10 ^ 20 -> segment_path f i = segment_path f j -> i = j.
Proof.
  intros Hi Hj E. unfold segment_path in E. apply string_app_inj in E. injection E as E. change (setw5 i = setw5 j) in E.
  pose proof (setw5_value i Hi) as Ei. rewrite E, (setw5_value j Hj) in Ei. congruence.
Qed.

(** *** Channels *)

Record chan_inv (r : RW) (cs : list Channel) : Prop := {
  ci_nodup : NoDup (name <$> cs);
  ci_known : forall ch, ch ∈ cs <-> types_ r !! name ch = Some (message_type ch) /\ descs_ r !! name ch = Some (proto_desc ch);
  ci_types : dom (types_ r) = dom (numbers_ r);
  ci_descs : dom (descs_ r) = dom (numbers_ r)
}.

Lemma chan_inv_new r cs c : chan_inv r cs -> IsNewChannel r c = true -> c ∉ name <$> cs /\ types_ r !! c = None /\ descs_ r !! c = None.
Proof.
  intros [N K T D] Hn. unfold IsNewChannel in Hn.
  assert (T0 : types_ r !! c = None). { apply not_elem_of_dom. rewrite T. apply not_elem_of_dom. by destruct (numbers_ r !! c). }
  assert (D0 : descs_ r !! c = None). { apply not_elem_of_dom. rewrite D. apply not_elem_of_dom. by destruct (numbers_ r !! c). }
  split_and!; [|done|done]. intros (ch & -> & Hc)%list_elem_of_fmap. apply K in Hc as [E _]. congruence.
Qed.

Lemma OnNewChannel_inv r cs c ty desc : chan_inv r cs -> IsNewChannel r c = true -> chan_inv (OnNewChannel r c ty desc) (cs ++ [mkChannel c ty desc]).
Proof.
  intros I Hn. destruct (chan_inv_new _ _ _ I Hn) as (Hc & T0 & D0). destruct I as [N K T D]. unfold OnNewChannel. rewrite Hn. split; cbn.
  - rewrite fmap_app. apply NoDup_app. split_and!; [done| |apply NoDup_singleton].
    intros x Hx Hy. apply list_elem_of_singleton in Hy. by subst.
  - intros ch. rewrite elem_of_app, list_elem_of_singleton, K.
    destruct (decide (name ch = c)) as [E|E].
    + rewrite E, !lookup_insert_eq, T0. split.
      * intros [[? _]| ->]; [done|]. done.
      * intros [[= E1] [= E2]]. right. destruct ch. cbn in *. by subst.
    + rewrite !lookup_insert_ne by done. split; [intros [?| ->]; [done|by destruct E]|by left].
  - by rewrite !dom_insert_L, T.
  - by rewrite !dom_insert_L, D.
Qed.

Lemma OnNewMessage_inv r cs c : chan_inv r cs -> chan_inv (OnNewMessage r c) cs.
Proof.
  intros [N K T D]. unfold OnNewMessage. destruct (numbers_ r !! c) as [n|] eqn:E; [|done].
  assert (X : dom (<[c := u64 (n + 1)]> (numbers_ r)) = dom (numbers_ r)).
  { rewrite dom_insert_L. apply subseteq_union_1_L, singleton_subseteq_l, elem_of_dom. eauto. }
  split; cbn; rewrite ?X; done.
Qed.

Lemma known_channels_inv r cs : chan_inv r cs -> chan_inv r (known_channels r) /\ known_channels r ≡ₚ cs.
Proof.
  intros I. assert (I' : chan_inv r (known_channels r)).
  { destruct I as [N K T D]. split; [| |done|done].
    - unfold known_channels. rewrite <- list_fmap_compose. rewrite (list_fmap_ext _ fst); [apply NoDup_iter_keys|]. by intros ? [].
    - intros ch. unfold known_channels. rewrite list_elem_of_fmap. split.
      + intros ([c n] & -> & Hc). apply elem_of_iter in Hc. cbn.
        assert (Ht : is_Some (types_ r !! c)). { apply elem_of_dom. rewrite T. apply elem_of_dom. eauto. }
        assert (Hd : is_Some (descs_ r !! c)). { apply elem_of_dom. rewrite D. apply elem_of_dom. eauto. }
        destruct Ht as [? ->], Hd as [? ->]. done.
      + intros [E1 E2]. assert (Hn : is_Some (numbers_ r !! name ch)). { apply elem_of_dom. rewrite <- T. apply elem_of_dom. eauto. }
        destruct Hn as [n Hn]. exists (name ch, n). rewrite E1, E2. split; [by destruct ch|by apply elem_of_iter]. }
  split; [done|]. apply NoDup_Permutation; [eapply NoDup_fmap_1; apply I'|eapply NoDup_fmap_1; apply I|].
  intros ch. by rewrite (ci_known _ _ I), (ci_known _ _ I').
Qed.

Lemma write_channels_run cs : forall w, write_channels cs w = (true, run w (OpChannel <$> cs)).
Proof.
  unfold write_channels. induction cs as [|c cs IH]; intros w; [done|]. cbn [foldl fmap list_fmap].
  assert (E : WriteChannel w c = (true, snd (WriteChannel w c))).
  { unfold RecordFile.WriteChannel. destruct (WriteSection_shape p0 p1 p2 p3 w SECTION_CHANNEL (Serialize c)) as [f ->]; [done|]. done. }
  rewrite E. apply IH.
Qed.

(** *** The invariant *)

Section segments.
Variables (h : Header) (f : string).
Hypothesis Hfits : header_fits h.
Hypothesis Hopen : forall k, can_open (path_of h f k) = true.

Definition grows (a b : list wop) : Prop := channels a ⊆ channels b.
(** A segment is over as soon as it is longer than it may be. *)
Definition bounded (seg : list wop) : Prop :=
  0 < segment_raw_size h -> raw_of (removelast (written seg)) <= segment_raw_size h.

Record seg_inv (r : RW) (segs : list (list wop)) (cur : list wop) : Prop := {
  si_header : rw_header r = h;
  si_opened : is_opened_ r = true;
  si_file : file_ r = f;
  si_path : path_ r = path_of h f (length segs);
  si_index : file_index_ r = Z.of_nat (length segs) + 1;
  si_writer : file_writer_ r = Some (run (start h) cur);
  si_done : forall k seg, segs !! k = Some seg -> files r !! path_of h f k = Some (record_file h seg);
  si_free : forall k, (length segs <= k)%nat -> Z.of_nat k < 100000 -> segmented h = true \/ k = 0%nat -> files r !! path_of h f k = None;
  si_channels : chan_inv r (channels cur);
  si_grows : StronglySorted grows (segs ++ [cur]);
  si_nodup : Forall (fun seg => NoDup (name <$> channels seg)) segs;
  si_raw : segment_raw_size_ r = u64 (raw_of (written cur));
  si_bounded : Forall bounded segs;
  si_segmented : segs <> [] -> segmented h = true
}.
Definition short (cur : list wop) : Prop := 0 < segment_raw_size h -> raw_of (written cur) <= segment_raw_size h.

Lemma written_app a b : written (a ++ b) = written a ++ written b.
Proof. unfold written. by rewrite fmap_app, join_app. Qed.
Lemma channels_app a b : channels (a ++ b) = channels a ++ channels b.
Proof. unfold channels. by rewrite fmap_app, join_app. Qed.
Lemma raw_of_app a b : raw_of (a ++ b) = raw_of a + raw_of b.
Proof. induction a as [|m a IH]; cbn; [done|]. rewrite IH. lia. Qed.
Lemma raw_of_nonneg l : 0 <= raw_of l.
Proof. induction l as [|m l IH]; cbn; [done|]. pose proof (zlen_nonneg (content m)). lia. Qed.
Lemma run_snoc w a o : run w (a ++ [o]) = exec p0 p1 p2 p3 (run w a) o.
Proof. unfold RecordFile.run. by rewrite foldl_app. Qed.
Lemma written_channels cs : written (OpChannel <$> cs) = [].
Proof. unfold written. induction cs as [|c cs IH]; [done|]. exact IH. Qed.
Lemma channels_channels cs : channels (OpChannel <$> cs) = cs.
Proof. unfold channels. induction cs as [|c cs IH]; [done|]. by apply (f_equal (cons c)) in IH. Qed.

Lemma grows_snoc segs cur cur' : StronglySorted grows (segs ++ [cur]) -> grows cur cur' -> StronglySorted grows (segs ++ [cur']).
Proof.
  rewrite !StronglySorted_app. intros (A & B & _) G. split_and!; [|done|by repeat constructor].
  intros x y Hx Hy. apply list_elem_of_singleton in Hy as ->. intros c Hc. apply G, (A x cur Hx ltac:(by left)), Hc.
Qed.
Lemma grows_split segs cur cur' : StronglySorted grows (segs ++ [cur]) -> grows cur cur' -> StronglySorted grows ((segs ++ [cur]) ++ [cur']).
Proof.
  intros S G. apply StronglySorted_app. split_and!; [|done|by repeat constructor].
  intros x y Hx Hy. apply list_elem_of_singleton in Hy as ->. apply StronglySorted_app in S as (A & _).
  apply elem_of_app in Hx as [Hx|Hx%list_elem_of_singleton]; [|by subst]. intros c Hc. apply G, (A x cur Hx ltac:(by left)), Hc.
Qed.

(** A path that is in use is not the path of another segment. *)
Lemma path_of_ne i j : segmented h = true -> i <> j -> Z.of_nat i < 100000 -> Z.of_nat j < 100000 -> path_of h f i <> path_of h f j.
Proof.
  intros S Hij Hi Hj. unfold path_of. rewrite S. intros E. apply segment_path_inj in E; lia.
Qed.

Lemma open_file_start r : rw_header r = h -> can_open (path_ r) = true -> files r !! path_ r = None ->
  open_file r = (true, set_writer r (Some (start h))).
Proof.
  intros E C N. unfold open_file. rewrite C, N, E. cbn [negb default].
  destruct (WriteHeader_bytes p0 p1 p2 p3 (Open NewHeader []) h [] [] Hfits eq_refl ltac:(by right)) as (w' & W & _).
  unfold RecordFile.start. cbn. rewrite W. done.
Qed.

Lemma RW_Open_inv fs : (forall k, Z.of_nat k < 100000 -> fs !! path_of h f k = None) ->
  exists r, RW_Open (NewRW h fs) f = (true, r) /\ seg_inv r [] [].
Proof.
  intros F. unfold RW_Open. cbn [close_file NewRW file_writer_ rw_header set_paths].
  match goal with |- context [open_file ?r] => set (r0 := r) end.
  assert (P : path_ r0 = path_of h f 0) by done.
  rewrite open_file_start; [|done|rewrite P; apply Hopen|rewrite P; apply F; lia].
  cbn [negb]. eexists. split; [done|]. split; try done; cbn.
  - intros k _ Hk _. apply F. lia.
  - split; try done; cbn; [constructor|]. intros ch. rewrite !lookup_empty. split; [by intros ?%elem_of_nil|by intros []].
  - by repeat constructor.
Qed.

Lemma RW_WriteChannel_inv r segs cur c ty desc : seg_inv r segs cur ->
  exists r' cur', RW_WriteChannel r c ty desc = Some (true, r') /\ seg_inv r' segs cur' /\ written cur' = written cur.
Proof.
  intros [I1 I2 I3 I4 I5 I6 I7 I8 I9 I10 I11 I12 I13 I14]. unfold RW_WriteChannel. destruct (IsNewChannel r c) eqn:N; [|by exists r, cur].
  assert (EO : OnNewChannel r c ty desc = set_channels r (<[c := 0]> (numbers_ r)) (<[c := ty]> (types_ r)) (<[c := desc]> (descs_ r)))
    by (unfold OnNewChannel; by rewrite N).
  pose proof (OnNewChannel_inv _ _ _ ty desc I9 N) as CI. rewrite EO in CI |- *. cbn [file_writer_ set_channels]. rewrite I6.
  pose proof (write_channels_run [mkChannel c ty desc] (run (start h) cur)) as W. unfold write_channels in W. cbn [foldl fmap list_fmap] in W.
  rewrite W. exists (set_writer (set_channels r (<[c := 0]> (numbers_ r)) (<[c := ty]> (types_ r)) (<[c := desc]> (descs_ r)))
    (Some (run (start h) (cur ++ [OpChannel (mkChannel c ty desc)])))), (cur ++ [OpChannel (mkChannel c ty desc)]).
  assert (WA : written (cur ++ [OpChannel (mkChannel c ty desc)]) = written cur) by (rewrite written_app; apply app_nil_r).
  split_and!; [unfold RecordFile.run; by rewrite foldl_app| |done].
  split; cbn; rewrite ?WA; try done.
  - rewrite channels_app. destruct CI. by split.
  - eapply grows_snoc; [done|]. unfold grows. rewrite channels_app. set_solver.
Qed.

Lemma SplitOutfile_inv r segs cur : seg_inv r segs cur -> segmented h = true -> bounded cur -> Z.of_nat (length segs) + 1 < 100000 ->
  exists r' cur', SplitOutfile (close_file r) = (true, r') /\ seg_inv r' (segs ++ [cur]) cur' /\ written cur' = [].
Proof.
  intros [I1 I2 I3 I4 I5 I6 I7 I8 I9 I10 I11 I12 I13 I14] Sg B Hl.
  destruct (known_channels_inv _ _ I9) as [KI KP].
  unfold close_file. rewrite I6. unfold SplitOutfile. cbn [file_index_ set_paths set_segment file_ rw_header]. rewrite I5.
  rewrite (proj2 (Z.ltb_ge 99999 _)) by lia.
  match goal with |- context [open_file ?x] => set (r0 := x) end.
  assert (P : path_ r0 = path_of h f (S (length segs))).
  { unfold r0, path_of. cbn. rewrite Sg, I3. f_equal. lia. }
  assert (FR : forall k, k <> length segs -> Z.of_nat k < 100000 -> files r0 !! path_of h f k = files r !! path_of h f k).
  { intros k Hk Hk'. unfold r0. cbn. rewrite I4. apply lookup_insert_ne. apply path_of_ne; [done|lia|lia|lia]. }
  rewrite (open_file_start r0); [|exact I1|rewrite P; apply Hopen|rewrite P, FR by lia; apply I8; [lia|lia|by left]].
  cbn [negb file_writer_ set_writer]. rewrite write_channels_run.
  assert (KN : known_channels (set_writer r0 (Some (start h))) = known_channels r) by done. rewrite KN.
  eexists _, (OpChannel <$> known_channels r). split; [done|]. split; [|apply written_channels].
  split; cbn [rw_header is_opened_ file_ path_ file_index_ file_writer_ files segment_raw_size_ set_writer]; try done.
  - rewrite length_app. cbn [length]. rewrite Nat.add_1_r. exact P.
  - rewrite length_app. unfold r0. cbn. lia.
  - intros k seg [Hk|[Hk1 Hk2]]%lookup_app_Some.
    + rewrite FR; [by apply I7| |]; pose proof (lookup_lt_Some _ _ _ Hk); lia.
    + apply list_lookup_singleton_Some in Hk2 as [Hk2 <-]. replace k with (length segs) by lia.
      unfold r0. cbn. rewrite I4. apply lookup_insert_eq.
  - intros k. rewrite length_app. cbn [length]. intros Hk Hk' C. rewrite FR by lia. apply I8; [lia|lia|done].
  - rewrite channels_channels. by destruct KI.
  - apply grows_split; [done|]. unfold grows. rewrite channels_channels, KP. done.
  - apply Forall_app. split; [done|]. apply Forall_singleton, I9.
  - by rewrite written_channels.
  - apply Forall_app. by rewrite Forall_singleton.
Qed.

Definition all_written (segs : list (list wop)) (cur : list wop) : list SingleMessage := mjoin (written <$> segs) ++ written cur.

Lemma segment_full_segmented raw b t : segment_full h raw b t = true -> segmented h = true.
Proof. unfold segment_full, segmented. destruct (0 <? segment_interval h), (0 <? segment_raw_size h); done. Qed.

Lemma RW_WriteMessage_inv r segs cur m : seg_inv r segs cur -> short cur -> raw_of (written cur) + zlen (content m) < 2 ^ 64 ->
  let n := if splits_at r (RMessage m) then 1%nat else 0%nat in
  Z.of_nat (length segs) + Z.of_nat n < 100000 ->
  exists r' segs' cur', RW_WriteMessage r m = Some (true, r') /\ seg_inv r' segs' cur' /\ short cur' /\
    length segs' = (length segs + n)%nat /\ all_written segs' cur' = all_written segs cur ++ [m] /\
    raw_of (written cur') <= raw_of (written cur) + zlen (content m).
Proof.
  intros I Sh Hr n Hn. pose proof I as [I1 I2 I3 I4 I5 I6 I7 I8 I9 I10 I11 I12 I13 I14].
  pose proof (raw_of_nonneg (written cur)) as R0. pose proof (zlen_nonneg (content m)) as R1.
  set (cur' := cur ++ [OpMessage m]). assert (W : written cur' = written cur ++ [m]) by apply written_app.
  assert (Raw : raw_of (written cur') = raw_of (written cur) + zlen (content m)) by (rewrite W, raw_of_app; cbn; lia).
  set (b := next_begin (segment_begin_time_ r) (time m)).
  set (rn := OnNewMessage r (msg_channel m)).
  assert (Er : exists r1, RW_WriteMessage r m = (if splits_at r (RMessage m) then Some (SplitOutfile (close_file r1)) else Some (true, r1)) /\
    seg_inv r1 segs cur').
  { exists (set_segment (set_writer rn (Some (run (start h) cur'))) (u64 (raw_of (written cur'))) b).
    assert (En : exists nums, rn = set_channels r nums (types_ r) (descs_ r)).
    { unfold rn, OnNewMessage. destruct (numbers_ r !! msg_channel m); [by eexists|]. exists (numbers_ r). by destruct r. }
    destruct En as [nums En]. split.
    - unfold RW_WriteMessage. fold rn. rewrite En. cbn [file_writer_ set_channels set_writer set_segment segment_raw_size_ segment_begin_time_ rw_header].
      rewrite I6. cbn [splits_at]. fold b. rewrite I12.
      assert (Erun : run (start h) cur' = WriteMessage (run (start h) cur) m) by apply run_snoc. rewrite Erun.
      replace (u64 (u64 (raw_of (written cur)) + zlen (content m))) with (u64 (raw_of (written cur'))) by (rewrite Raw; unfold u64; by rewrite Zplus_mod_idemp_l).
      done.
    - pose proof (OnNewMessage_inv _ _ (msg_channel m) I9) as CI. fold rn in CI. rewrite En in CI |- *.
      split; cbn; try done.
      + unfold cur'. rewrite channels_app. cbn. rewrite app_nil_r. by destruct CI.
      + eapply grows_snoc; [done|]. unfold grows, cur'. rewrite channels_app. set_solver. }
  destruct Er as (r1 & -> & J). subst n. destruct (splits_at r (RMessage m)) eqn:Es.
  - destruct (SplitOutfile_inv r1 segs cur' J) as (r' & cur2 & -> & J' & W2).
    + cbn in Es. rewrite I1 in Es. by eapply segment_full_segmented.
    + intros Hp. rewrite W, removelast_last. by apply Sh.
    + lia.
    + exists r', (segs ++ [cur']), cur2. split_and!; [done|done| | | |rewrite W2; cbn; lia].
      * intros Hp. rewrite W2. cbn. lia.
      * rewrite length_app. cbn. lia.
      * unfold all_written. rewrite W2, fmap_app, join_app, app_nil_r.
        change (mjoin (written <$> [cur'])) with (written cur' ++ []). by rewrite app_nil_r, W, app_assoc.
  - exists r1, segs, cur'. split_and!; [done|done| |lia| |lia].
    + intros Hp. cbn in Es. unfold segment_full in Es. rewrite I1, I12 in Es. apply orb_false_iff in Es as [_ Es].
      rewrite (proj2 (Z.ltb_lt 0 _)) in Es by done. cbn in Es. apply Z.ltb_ge in Es. rewrite Raw.
      rewrite (u64_small (raw_of (written cur))) in Es by (unfold is_u64; lia). rewrite u64_small in Es by (unfold is_u64; lia). done.
    + unfold all_written. by rewrite W, app_assoc.
Qed.

Lemma rmessages_cons o ops : rmessages (o :: ops) = rop_messages o ++ rmessages ops.
Proof. done. Qed.

Lemma rexec_inv r segs cur o : seg_inv r segs cur -> short cur -> raw_of (written cur) + raw_of (rop_messages o) < 2 ^ 64 ->
  let n := if splits_at r o then 1%nat else 0%nat in
  Z.of_nat (length segs) + Z.of_nat n < 100000 ->
  exists r' segs' cur', rexec r o = Some r' /\ seg_inv r' segs' cur' /\ short cur' /\
    length segs' = (length segs + n)%nat /\ all_written segs' cur' = all_written segs cur ++ rop_messages o /\
    raw_of (written cur') <= raw_of (written cur) + raw_of (rop_messages o).
Proof.
  intros I Sh Hr n Hn. destruct o as [c ty desc|m|]; cbn [rexec rop_messages raw_of] in *.
  - destruct (RW_WriteChannel_inv r segs cur c ty desc I) as (r' & cur' & -> & J & W).
    exists r', segs, cur'. unfold all_written, short. rewrite W, app_nil_r. cbn in n. split_and!; try done; cbn; lia.
  - destruct (RW_WriteMessage_inv r segs cur m I Sh) as (r' & segs' & cur' & -> & J & Sh' & L & A & R); [lia|done|].
    exists r', segs', cur'. split_and!; try done; lia.
  - destruct I as [I1 I2 I3 I4 I5 I6 I7 I8 I9 I10 I11 I12 I13 I14].
    assert (W : written (cur ++ [OpFlush]) = written cur) by (rewrite written_app; apply app_nil_r).
    assert (C : channels (cur ++ [OpFlush]) = channels cur) by (rewrite channels_app; apply app_nil_r).
    exists (set_writer r (Some (run (start h) (cur ++ [OpFlush])))), segs, (cur ++ [OpFlush]).
    unfold all_written, short. rewrite W, app_nil_r. split_and!; [rewrite I6, run_snoc; done| |done|cbn in *; lia|done|cbn; lia].
    split; cbn; rewrite ?W, ?C; try done.
    + by destruct I9.
    + eapply grows_snoc; [done|]. unfold grows. by rewrite C.
Qed.

Lemma rrun_none ops : foldl (fun r o => r ≫= fun r => rexec r o) None ops = None.
Proof. by induction ops. Qed.

Lemma rrun_inv ops : forall r segs cur, seg_inv r segs cur -> short cur -> raw_of (written cur) + raw_of (rmessages ops) < 2 ^ 64 ->
  Z.of_nat (length segs) + Z.of_nat (splits r ops) < 100000 ->
  exists r' segs' cur', rrun r ops = Some r' /\ seg_inv r' segs' cur' /\ short cur' /\
    length segs' = (length segs + splits r ops)%nat /\ all_written segs' cur' = all_written segs cur ++ rmessages ops.
Proof.
  induction ops as [|o ops IH]; intros r segs cur I Sh Hr Hn.
  - exists r, segs, cur. cbn. rewrite app_nil_r. split_and!; try done; lia.
  - rewrite rmessages_cons, raw_of_app in Hr. pose proof (raw_of_nonneg (rmessages ops)). cbn [splits] in Hn.
    destruct (rexec_inv r segs cur o I Sh) as (r1 & segs1 & cur1 & E & J & Sh1 & L1 & A1 & R1); [lia|lia|]. rewrite E in Hn.
    destruct (IH r1 segs1 cur1 J Sh1) as (r2 & segs2 & cur2 & E2 & J2 & Sh2 & L2 & A2); [lia|lia|].
    exists r2, segs2, cur2. unfold rrun. cbn [foldl splits]. change (Some r ≫= _) with (rexec r o). rewrite E. split_and!; try done; [lia|].
    by rewrite A2, A1, rmessages_cons, app_assoc.
Qed.

Lemma RW_Close_files r segs cur : seg_inv r segs cur -> Z.of_nat (length segs) < 100000 ->
  forall k seg, (segs ++ [cur]) !! k = Some seg -> files (RW_Close r) !! path_of h f k = Some (record_file h seg).
Proof.
  intros I Hl k seg Hk. destruct I as [I1 I2 I3 I4 I5 I6 I7 I8 I9 I10 I11 I12 I13 I14].
  unfold RW_Close. rewrite I2. unfold close_file. rewrite I6. cbn. rewrite I4.
  apply lookup_app_Some in Hk as [Hk|[Hk1 Hk2]].
  - pose proof (lookup_lt_Some _ _ _ Hk). rewrite lookup_insert_ne; [by apply I7|].
    apply path_of_ne; [apply I14; by intros ->|lia|lia|lia].
  - apply list_lookup_singleton_Some in Hk2 as [Hk2 <-]. replace k with (length segs) by lia. apply lookup_insert_eq.
Qed.

End segments.

(** *** The channels that were declared *)

Definition rop_channels (o : rop) : list string := match o with RChannel c _ _ => [c] | _ => [] end.
Definition rchannels (ops : list rop) : list string := mjoin (rop_channels <$> ops).

Lemma numbers_close r : numbers_ (close_file r) = numbers_ r.
Proof. unfold close_file. by destruct (file_writer_ r). Qed.
Lemma numbers_open r : numbers_ (snd (open_file r)) = numbers_ r.
Proof. unfold open_file. destruct (can_open (path_ r)); [|done]. cbn. by destruct (RecordFile.WriteHeader _ _ _ _ _ _). Qed.
Lemma numbers_split r : numbers_ (snd (SplitOutfile r)) = numbers_ r.
Proof.
  unfold SplitOutfile. match goal with |- context [open_file ?x] => pose proof (numbers_open x) as E; destruct (open_file x) as [ok r'] end.
  cbn in E. destruct ok; [|done]. cbn. destruct (file_writer_ r'); [|done]. by destruct (write_channels _ _).
Qed.

Lemma rexec_names r o r' : rexec r o = Some r' -> dom (numbers_ r') = dom (numbers_ r) ∪ list_to_set (rop_channels o).
Proof.
  destruct o as [c ty desc|m|]; cbn [rexec rop_channels list_to_set]; rewrite ?union_empty_r_L.
  - unfold RW_WriteChannel. destruct (IsNewChannel r c) eqn:N.
    + unfold OnNewChannel. rewrite N. cbn [file_writer_ set_channels]. destruct (file_writer_ r); [|done].
      destruct (RecordFile.WriteChannel _ _ _ _ _ _). cbn. intros [= <-]. cbn. rewrite dom_insert_L. set_solver.
    + cbn. intros [= <-]. unfold IsNewChannel in N. destruct (numbers_ r !! c) eqn:E; [|done].
      assert (c ∈ dom (numbers_ r)) by (apply elem_of_dom; eauto). set_solver.
  - unfold RW_WriteMessage. set (rn := OnNewMessage r (msg_channel m)).
    assert (Hn : dom (numbers_ rn) = dom (numbers_ r)).
    { unfold rn, OnNewMessage. destruct (numbers_ r !! msg_channel m) eqn:E; [|done]. cbn. rewrite dom_insert_L.
      apply subseteq_union_1_L, singleton_subseteq_l, elem_of_dom. eauto. }
    destruct (file_writer_ rn); [|done]. cbn zeta. destruct (segment_full _ _ _ _); intros [= <-]; [|done].
    rewrite numbers_split, numbers_close. done.
  - by intros [= <-].
Qed.

Lemma rrun_names ops : forall r r', rrun r ops = Some r' -> dom (numbers_ r') = dom (numbers_ r) ∪ list_to_set (rchannels ops).
Proof.
  induction ops as [|o ops IH]; intros r r'; [intros [= <-]; set_solver|]. unfold rrun. cbn [foldl]. change (Some r ≫= _) with (rexec r o).
  destruct (rexec r o) as [r1|] eqn:E; [|by rewrite rrun_none]. intros R. rewrite (IH r1 r' R), (rexec_names _ _ _ E).
  change (rchannels (o :: ops)) with (rop_channels o ++ rchannels ops). rewrite list_to_set_app_L. set_solver.
Qed.

(** A recording in segments is whole: the files that Open, the writes and Close leave
    are recordings of consecutive parts of what was written, together everything in order;
    no segment declares a channel twice, each declares the channels of the segments before
    it and the last one all that were declared; and none goes on beyond the message that
    made it longer than a segment may be. *)
Theorem segments_hold_the_recording h f fs ops :
  header_fits h -> (forall k, can_open (path_of h f k) = true) -> (forall k, Z.of_nat k < 100000 -> fs !! path_of h f k = None) ->
  raw_of (rmessages ops) < 2 ^ 64 ->
  let r0 := snd (RW_Open (NewRW h fs) f) in
  Z.of_nat (splits r0 ops) < 100000 ->
  exists r segs last, rrun r0 ops = Some r /\ length segs = splits r0 ops /\
    (forall k seg, (segs ++ [last]) !! k = Some seg -> files (RW_Close r) !! path_of h f k = Some (record_file h seg)) /\
    mjoin (written <$> (segs ++ [last])) = rmessages ops /\
    StronglySorted grows (segs ++ [last]) /\ Forall (fun seg => NoDup (name <$> channels seg)) (segs ++ [last]) /\
    (forall c, c ∈ name <$> channels last <-> c ∈ rchannels ops) /\
    Forall (bounded h) (segs ++ [last]).
Proof.
  intros Hf Ho Hfs Hr r0 Hs. destruct (RW_Open_inv h f Hf Ho fs Hfs) as (r1 & E & I). assert (E0 : r0 = r1) by (unfold r0; by rewrite E).
  rewrite E0 in *. destruct (rrun_inv h f Hf Ho ops r1 [] [] I) as (r & segs & cur & R & J & Sh & L & A).
  { intros Hp. cbn. lia. } { cbn. lia. } { cbn. lia. }
  exists r, segs, cur. cbn in L, A. split_and!; [done|done| | |apply J| | |].
  - eapply RW_Close_files; [done..|lia].
  - rewrite fmap_app, join_app. change (mjoin (written <$> [cur])) with (written cur ++ []). rewrite app_nil_r. exact A.
  - apply Forall_app. split; [apply J|]. apply Forall_singleton, J.
  - intros c. pose proof (si_channels _ _ _ _ _ J) as [_ K T D]. assert (N0 : dom (numbers_ r1) = ∅).
    { assert (E1 : numbers_ r1 = ∅); [|by rewrite E1, dom_empty_L].
      change r1 with (snd (true, r1)). rewrite <- E. unfold RW_Open. cbn [close_file NewRW file_writer_].
      match goal with |- context [open_file ?x] => pose proof (numbers_open x) as En; destruct (open_file x) as [[] r'] end; cbn in En |- *; [done|].
      by rewrite numbers_close. }
    pose proof (rrun_names _ _ _ R) as Nm. rewrite N0, union_empty_l_L in Nm.
    rewrite <- (elem_of_list_to_set (C:=gset string) c (rchannels ops)), <- Nm, <- T, elem_of_dom, list_elem_of_fmap. split.
    + intros (ch & -> & Hc). apply K in Hc as [Hc _]. eauto.
    + intros [ty Hty]. assert (Hd : is_Some (descs_ r !! c)) by (apply elem_of_dom; rewrite D, <- T; apply elem_of_dom; eauto).
      destruct Hd as [d Hd]. exists (mkChannel c ty d). split; [done|]. apply K. done.
  - apply Forall_app. split; [apply J|]. apply Forall_singleton. intros Hp. specialize (Sh Hp).
    destruct (written cur) as [|m ms _] using rev_ind; [cbn in *; lia|]. rewrite removelast_last. rewrite raw_of_app in Sh. cbn in Sh.
    pose proof (zlen_nonneg (content m)). lia.
Qed.
End record_writer.
