(* ===== verification/RecordViewer.v ===== *)
(** RecordViewer.v -- the record viewer

    - src/src/apollo/cyber/record/record_viewer.{h,cc}

    RecordViewer merges the messages of several record readers in the order of their
    times.  It asks the readers for windows of one second, one window after the other,
    and sorts what they give in a multimap.  [Reader] is what it uses of a reader, and
    [ReaderLaws] what it relies on; RecordReaderLaws.v shows it of RecordReader.
    A multimap is the list of its values in iteration order. *)

From stdpp Require Import sorting.
From S2P Require Import Prelude RecordFile.
Local Open Scope Z_scope.

(** ** What the viewer uses of a reader *)

Class Reader (R : Type) := {
  r_valid : R -> bool;                       (* IsValid *)
  r_begin : R -> Z;                          (* GetHeader().begin_time() *)
  r_end : R -> Z;                            (* GetHeader().end_time() *)
  r_channels : R -> gset string;             (* GetChannelList *)
  r_read : R -> Z -> Z -> option (option SingleMessage * R);   (* ReadMessage *)
  r_reset : R -> R                           (* Reset *)
}.

(** [holds r l]: l are the messages of the recording; [remaining r l]: of these, l are
    still to be read.  A read gives the next message of the window and goes past what is
    before it; when there is none, what is after the window remains. *)
Class ReaderLaws (R : Type) `{Reader R} := {
  holds : R -> list SingleMessage -> Prop;
  remaining : R -> list SingleMessage -> Prop;
  read_law : forall r l bt et, remaining r l -> bt <= et -> exists res r', r_read r bt et = Some (res, r') /\
    (forall c, holds r c -> holds r' c) /\ r_valid r' = r_valid r /\ r_begin r' = r_begin r /\ r_end r' = r_end r /\
    match res with
    | Some m => exists sk l', l = sk ++ m :: l' /\ Forall (fun x => time x < bt) sk /\ bt <= time m <= et /\ remaining r' l'
    | None => Forall (fun x => ~ (bt <= time x <= et)) l /\
              exists l', remaining r' l' /\ (length l' <= length l)%nat /\ filter (fun x => et < time x) l' = filter (fun x => et < time x) l
    end;
  reset_law : forall r c, holds r c -> holds (r_reset r) c /\ remaining (r_reset r) c /\ r_valid (r_reset r) = r_valid r /\
    r_begin (r_reset r) = r_begin r /\ r_end (r_reset r) = r_end r;
  header_law : forall r c, holds r c -> Forall (fun x => r_begin r <= time x <= r_end r) c /\ (c <> [] -> r_valid r = true)
}.

Definition kStepTimeNanoSec : Z := 1000000000.
Definition kBufferMinSize : nat := 128.

Section viewer.
Context {R : Type} `{Reader R}.
(** std::sort of the readers by the times in their headers. *)
Variable sort_readers : list R -> list R.

Record Viewer := mkViewer {
  begin_time_ : Z;
  end_time_ : Z;
  channels_ : gset string;
  channel_list_ : gset string;
  readers_ : list (R * bool);      (* readers_ with readers_finished_ *)
  curr_begin_time_ : Z;
  msg_buffer_ : list SingleMessage
}.
Definition set_reading (v : Viewer) (rs : list (R * bool)) (cb : Z) (buf : list SingleMessage) : Viewer :=
  mkViewer (begin_time_ v) (end_time_ v) (channels_ v) (channel_list_ v) rs cb buf.

(** ** Construction *)

Definition Init (b e : Z) (channels : gset string) (rs : list R) : Viewer :=
  mkViewer b e channels (⋃ ((fun r => r_channels r ∩ channels) <$> rs)) ((fun r => (r, false)) <$> sort_readers rs) 0 [].

Definition min_begin (rs : list (R * bool)) : Z :=
  foldl (fun m '(r, _) => if r_valid r then if r_begin r <? m then r_begin r else m else m) UINT64_MAX rs.
Definition max_end (rs : list (R * bool)) : Z :=
  foldl (fun m '(r, _) => if r_valid r then if m <? r_end r then r_end r else m else m) 0 rs.
Definition UpdateTime (v : Viewer) : Viewer :=
  let b := if begin_time_ v <? min_begin (readers_ v) then min_begin (readers_ v) else begin_time_ v in
  let e := if max_end (readers_ v) <? end_time_ v then max_end (readers_ v) else end_time_ v in
  mkViewer b e (channels_ v) (channel_list_ v) (readers_ v) b (msg_buffer_ v).
Definition NewViewer (rs : list R) (b e : Z) (channels : gset string) : Viewer := UpdateTime (Init b e channels rs).

Definition IsValid (v : Viewer) : bool := negb (end_time_ v <? begin_time_ v).

Definition ResetViewer (v : Viewer) : Viewer :=
  set_reading v ((fun '(r, _) => (r_reset r, false)) <$> readers_ v) (begin_time_ v) [].

(** ** Reading *)

(** multimap::emplace: behind the messages of the same time. *)
Fixpoint emplace (m : SingleMessage) (buf : list SingleMessage) : list SingleMessage :=
  match buf with [] => [m] | x :: buf' => if time m <? time x then m :: buf else x :: emplace m buf' end.

(** The loop over ReadMessage of one reader. *)
Fixpoint read_window (fuel : nat) (r : R) (b e : Z) (buf : list SingleMessage) : option (R * list SingleMessage) :=
  match fuel with
  | O => None
  | S fuel =>
      match r_read r b e with
      | None => None
      | Some (None, r) => Some (r, buf)
      | Some (Some m, r) => read_window fuel r b e (emplace m buf)
      end
  end.

(** Readers that end before the window are finished. *)
Definition finish_readers (b : Z) (rs : list (R * bool)) : list (R * bool) :=
  (fun '(r, fin) => if negb fin && (r_end r <? b) then (r_reset r, true) else (r, fin)) <$> rs.
Fixpoint read_readers (fuel : nat) (b e : Z) (rs : list (R * bool)) (buf : list SingleMessage) : option (list (R * bool) * list SingleMessage) :=
  match rs with
  | [] => Some ([], buf)
  | (r, true) :: rs =>
      match read_readers fuel b e rs buf with Some (rs, buf) => Some ((r, true) :: rs, buf) | None => None end
  | (r, false) :: rs =>
      match read_window fuel r b e buf with
      | None => None
      | Some (r, buf) => match read_readers fuel b e rs buf with Some (rs, buf) => Some ((r, false) :: rs, buf) | None => None end
      end
  end.

Definition this_end (b e : Z) : Z := let t := u64 (b + kStepTimeNanoSec) in if e <? t then e else t.
Fixpoint FillBuffer (fuel : nat) (v : Viewer) : option (bool * Viewer) :=
  match fuel with
  | O => None
  | S fuel' =>
      if (curr_begin_time_ v <=? end_time_ v) && bool_decide (length (msg_buffer_ v) < kBufferMinSize)%nat then
        let b := curr_begin_time_ v in
        let e := this_end b (end_time_ v) in
        match read_readers fuel b e (finish_readers b (readers_ v)) (msg_buffer_ v) with
        | None => None
        | Some (rs, buf) => FillBuffer fuel' (set_reading v rs (u64 (e + 1)) buf)
        end
      else Some (negb (bool_decide (msg_buffer_ v = [])), v)
  end.

Fixpoint Update (fuel : nat) (v : Viewer) : option (option SingleMessage * Viewer) :=
  match fuel with
  | O => None
  | S fuel' =>
      let filled := if bool_decide (msg_buffer_ v = []) then FillBuffer fuel v else Some (true, v) in
      match filled with
      | None => None
      | Some (false, v) => Some (None, v)
      | Some (true, v) =>
          match msg_buffer_ v with
          | [] => None    (* begin() of an empty multimap *)
          | m :: buf =>
              let v := set_reading v (readers_ v) (curr_begin_time_ v) buf in
              if bool_decide (channels_ v = ∅) || bool_decide (msg_channel m ∈ channels_ v) then Some (Some m, v) else Update fuel' v
          end
      end
  end.

(** The messages from begin() to end(). *)
Fixpoint iterate (fuel : nat) (v : Viewer) : option (list SingleMessage) :=
  match fuel with
  | O => None
  | S fuel' =>
      match Update fuel v with
      | None => None
      | Some (None, _) => Some []
      | Some (Some m, v) => cons m <$> iterate fuel' v
      end
  end.
Definition view (fuel : nat) (v : Viewer) : option (list SingleMessage) :=
  let v := ResetViewer v in if negb (IsValid v) then Some [] else iterate fuel v.

(** ** Lemmas *)

Context `{!ReaderLaws R}.

Lemma buffer_perm m buf : emplace m buf ≡ₚ m :: buf.
Proof. induction buf as [|x buf IH]; [done|]. cbn. destruct (time m <? time x); [done|]. rewrite IH. apply Permutation_swap. Qed.
Lemma buffer_sorted m buf : in_time buf -> in_time (emplace m buf).
Proof.
  unfold in_time. induction 1 as [|x buf S IH F]; [by repeat constructor|]. cbn. destruct (Z.ltb_spec (time m) (time x)).
  - constructor; [by constructor|]. constructor; [lia|]. eapply Forall_impl; [exact F|]. cbn. lia.
  - constructor; [done|]. rewrite buffer_perm. constructor; [lia|done].
Qed.

Definition inw (b e : Z) (l : list SingleMessage) : list SingleMessage := filter (fun x => b <= time x <= e) l.
Definition from (b : Z) (l : list SingleMessage) : list SingleMessage := filter (fun x => b <= time x) l.

Lemma from_later b b' l k : b <= b' -> from b l = from b k -> from b' l = from b' k.
Proof.
  intros Hb E. assert (X : forall j, from b' j = from b' (from b j)).
  { intros j. unfold from. rewrite list_filter_filter. apply list_filter_iff. intros x. lia. }
  by rewrite X, E, <- X.
Qed.
Lemma inw_from b e l k : from b l = from b k -> inw b e l = inw b e k.
Proof.
  intros E. assert (X : forall j, inw b e j = filter (fun x => time x <= e) (from b j)).
  { intros j. unfold inw, from. rewrite list_filter_filter. apply list_filter_iff. intros x. lia. }
  by rewrite X, E, <- X.
Qed.
Lemma filter_is_empty (P : SingleMessage -> Prop) `{forall x, Decision (P x)} l : Forall (fun x => ~ P x) l -> filter P l = [].
Proof. induction 1 as [|x l Hx _ IH]; [done|]. by rewrite filter_cons, decide_False. Qed.

(** One reader, one window. *)
Lemma read_window_spec n : forall r l b e buf, remaining r l -> b <= e -> (length l < n)%nat -> forall fuel, (n <= fuel)%nat ->
  exists r' buf' l', read_window fuel r b e buf = Some (r', buf') /\ buf' ≡ₚ buf ++ inw b e l /\ (in_time buf -> in_time buf') /\
    remaining r' l' /\ (length l' <= length l)%nat /\ from (e + 1) l' = from (e + 1) l /\
    (forall c, holds r c -> holds r' c) /\ r_end r' = r_end r.
Proof.
  induction n as [|n IH]; intros r l b e buf Rm Hbe Hn fuel Hf; [lia|]. destruct fuel as [|fuel]; [lia|]. cbn [read_window].
  destruct (read_law r l b e Rm Hbe) as (res & r1 & -> & Hh & _ & _ & He & C). destruct res as [m|].
  - destruct C as (sk & l1 & -> & Sk & Hm & Rm1). rewrite length_app in Hn. cbn [length] in Hn.
    destruct (IH r1 l1 b e (emplace m buf) Rm1 Hbe ltac:(lia) fuel ltac:(lia)) as (r' & buf' & l' & -> & P & S & Rm' & L & F & Hh' & He').
    exists r', buf', l'. split_and!; try done; [| |rewrite length_app; cbn; lia| |by auto|congruence].
    + rewrite P, buffer_perm. unfold inw. rewrite filter_app, filter_cons, decide_True by done.
      rewrite (filter_is_empty _ sk) by (eapply Forall_impl; [exact Sk|]; cbn; lia). cbn. by rewrite Permutation_middle.
    + intros. by apply S, buffer_sorted.
    + rewrite F. unfold from. rewrite filter_app, filter_cons, decide_False by lia.
      by rewrite (filter_is_empty _ sk) by (eapply Forall_impl; [exact Sk|]; cbn; lia).
  - destruct C as (N & l' & Rm' & L & F). exists r1, buf, l'. split_and!; try done.
    + unfold inw. by rewrite filter_is_empty, app_nil_r.
    + unfold from. rewrite (list_filter_iff _ (fun x => e < time x)) by (intros; lia).
      rewrite F. apply list_filter_iff. intros. lia.
Qed.

(** What is known of a reader before a window that begins at [b]. *)
Definition rstate (b : Z) (c : list SingleMessage) (p : R * bool) : Prop :=
  holds (fst p) c /\
  (snd p = true /\ Forall (fun x => time x < b) c \/
   snd p = false /\ exists l, remaining (fst p) l /\ (length l <= length c)%nat /\ from b l = from b c).

Lemma finish_spec b cs rs : Forall2 (rstate b) cs rs -> Forall2 (rstate b) cs (finish_readers b rs).
Proof.
  intros F. unfold finish_readers. apply Forall2_fmap_r. eapply Forall2_impl; [exact F|]. intros c [r fin] [Hh C]. cbn in *.
  destruct (Z.ltb_spec (r_end r) b) as [He|He]; [|rewrite andb_false_r; by split]. destruct fin; cbn; [by split|].
  destruct (reset_law r c Hh) as (Hh' & _). split; [done|]. left. split; [done|].
  destruct (header_law r c Hh) as [Hb _]. eapply Forall_impl; [exact Hb|]. cbn. lia.
Qed.

Lemma read_readers_spec b e fuel n cs : b <= e -> Forall (fun c => (length c < n)%nat) cs -> (n <= fuel)%nat ->
  forall rs buf, Forall2 (rstate b) cs rs ->
  exists rs' buf', read_readers fuel b e rs buf = Some (rs', buf') /\ Forall2 (rstate (e + 1)) cs rs' /\
    buf' ≡ₚ buf ++ mjoin (inw b e <$> cs) /\ (in_time buf -> in_time buf').
Proof.
  intros Hbe Hl Hf. induction Hl as [|c cs Hc _ IH]; intros rs buf F; inversion F as [|? [r fin] ? rs0 [Hh C] F']; subst.
  - exists [], buf. cbn. rewrite app_nil_r. by split_and!.
  - cbn in Hh, C. destruct C as [[-> Lt]|[-> (l & Rm & Ll & Fr)]]; cbn [read_readers].
    + destruct (IH rs0 buf F') as (rs' & buf' & -> & F2 & P & S). exists ((r, true) :: rs'), buf'. split_and!; try done.
      * constructor; [|done]. split; [done|]. left. split; [done|]. eapply Forall_impl; [exact Lt|]. cbn. lia.
      * change (mjoin (inw b e <$> c :: cs)) with (inw b e c ++ mjoin (inw b e <$> cs)). unfold inw at 1.
        rewrite filter_is_empty by (eapply Forall_impl; [exact Lt|]; cbn; lia). done.
    + destruct (read_window_spec n r l b e buf Rm Hbe ltac:(lia) fuel Hf) as (r1 & buf1 & l1 & -> & P1 & S1 & Rm1 & L1 & F1 & Hh1 & _).
      destruct (IH rs0 buf1 F') as (rs' & buf' & -> & F2 & P & S). exists ((r1, false) :: rs'), buf'. split_and!; try done.
      * constructor; [|done]. split; [by apply Hh1|]. right. split; [done|]. exists l1. split_and!; [done|lia|].
        rewrite F1. eapply from_later; [|exact Fr]. lia.
      * rewrite P, P1. rewrite (inw_from b e l c Fr), <- app_assoc. done.
      * auto.
Qed.

(** ** The buffer *)

Record vinv (cs : list (list SingleMessage)) (v : Viewer) : Prop := {
  vi_readers : Forall2 (rstate (curr_begin_time_ v)) cs (readers_ v);
  vi_sorted : in_time (msg_buffer_ v);
  vi_past : Forall (fun x => time x < curr_begin_time_ v) (msg_buffer_ v);
  vi_curr : 0 <= curr_begin_time_ v <= end_time_ v + 1;
  vi_end : end_time_ v + kStepTimeNanoSec + 1 < 2 ^ 64
}.
Definition unseen (cs : list (list SingleMessage)) (v : Viewer) : list SingleMessage :=
  msg_buffer_ v ++ mjoin (inw (curr_begin_time_ v) (end_time_ v) <$> cs).
(** The windows that are left. *)
Definition windows (v : Viewer) : nat := Z.to_nat ((end_time_ v - curr_begin_time_ v) / (kStepTimeNanoSec + 1) + 1).
Definition same_query (v v' : Viewer) : Prop := begin_time_ v' = begin_time_ v /\ end_time_ v' = end_time_ v /\ channels_ v' = channels_ v.

Lemma inw_split1 b m e c : b <= m + 1 -> m <= e -> inw b e c ≡ₚ inw b m c ++ inw (m + 1) e c.
Proof.
  intros Hb Hm. unfold inw. induction c as [|x c IH]; [done|]. rewrite !filter_cons.
  destruct (decide (b <= time x <= e)), (decide (b <= time x <= m)), (decide (m + 1 <= time x <= e)); try lia; rewrite IH; [done|apply Permutation_middle|done].
Qed.
Lemma inw_split b m e cs : b <= m + 1 -> m <= e -> mjoin (inw b e <$> cs) ≡ₚ mjoin (inw b m <$> cs) ++ mjoin (inw (m + 1) e <$> cs).
Proof.
  intros Hb Hm. induction cs as [|c cs IH]; [done|]. rewrite !fmap_cons.
  change (inw b e c ++ mjoin (inw b e <$> cs) ≡ₚ
    (inw b m c ++ mjoin (inw b m <$> cs)) ++ inw (m + 1) e c ++ mjoin (inw (m + 1) e <$> cs)).
  rewrite IH, (inw_split1 b m e c Hb Hm). by rewrite <- !app_assoc, (Permutation_app_swap_app (inw (m + 1) e c)).
Qed.
Lemma inw_past b e cs : e < b -> mjoin (inw b e <$> cs) = [].
Proof.
  intros Hb. induction cs as [|c cs IH]; [done|]. rewrite fmap_cons. change (inw b e c ++ mjoin (inw b e <$> cs) = []).
  rewrite IH, app_nil_r. apply filter_is_empty, Forall_forall. lia.
Qed.
Lemma inw_members b e cs : Forall (fun x => b <= time x <= e) (mjoin (inw b e <$> cs)).
Proof.
  induction cs as [|c cs IH]; [constructor|]. rewrite fmap_cons. change (Forall (fun x => b <= time x <= e) (inw b e c ++ mjoin (inw b e <$> cs))).
  apply Forall_app. split; [|done]. apply Forall_forall. intros x Hx. by apply list_elem_of_filter in Hx as [? _].
Qed.

(** One turn of the loop of FillBuffer. *)
Lemma window_turn cs v n fuel : vinv cs v -> curr_begin_time_ v <= end_time_ v -> Forall (fun c => (length c < n)%nat) cs -> (n <= fuel)%nat ->
  let b := curr_begin_time_ v in let e := this_end b (end_time_ v) in
  exists rs buf, read_readers fuel b e (finish_readers b (readers_ v)) (msg_buffer_ v) = Some (rs, buf) /\
    let v' := set_reading v rs (u64 (e + 1)) buf in
    vinv cs v' /\ unseen cs v' ≡ₚ unseen cs v /\ S (windows v') = windows v.
Proof.
  intros I Hc Hl Hf b e. destruct I as [Ir Is Ip Ic Ie]. unfold kStepTimeNanoSec in Ie.
  assert (He : e = Z.min (b + kStepTimeNanoSec) (end_time_ v)).
  { unfold e, this_end, kStepTimeNanoSec. rewrite u64_small by (unfold is_u64, b; lia). destruct (Z.ltb_spec (end_time_ v) (b + 1000000000)); lia. }
  unfold kStepTimeNanoSec in He. assert (Hbe : b <= e) by (unfold b in *; lia).
  destruct (read_readers_spec b e fuel n cs Hbe Hl Hf (finish_readers b (readers_ v)) (msg_buffer_ v) (finish_spec _ _ _ Ir)) as (rs & buf & -> & F & P & S).
  assert (U : u64 (e + 1) = e + 1) by (apply u64_small; unfold is_u64, b in *; lia). rewrite U.
  exists rs, buf. split; [done|]. cbn zeta. split; [|split].
  - split; cbn; [done|by apply S| |unfold b in *; lia|unfold kStepTimeNanoSec; lia].
    rewrite P. apply Forall_app. split; [eapply Forall_impl; [exact Ip|]; fold b; cbn; lia|].
    eapply Forall_impl; [apply inw_members|]. cbn. lia.
  - unfold unseen. cbn. fold b. rewrite P, <- app_assoc. apply Permutation_app_head. symmetry. apply inw_split; [lia|]. rewrite He. lia.
  - unfold windows. cbn [end_time_ curr_begin_time_ set_reading]. fold b.
    change (kStepTimeNanoSec + 1) with 1000000001. destruct (Z.le_gt_cases (b + 1000000000) (end_time_ v)).
    + replace (end_time_ v - b) with (end_time_ v - (e + 1) + 1 * 1000000001) by lia. rewrite Z.div_add by lia.
      assert (-1 <= (end_time_ v - (e + 1)) / 1000000001) by (apply Z.div_le_lower_bound; lia). lia.
    + replace (end_time_ v - (e + 1)) with (-1) by lia. rewrite (Z.div_small (end_time_ v - b)) by (unfold b in *; lia). done.
Qed.

Lemma FillBuffer_spec cs n : Forall (fun c => (length c < n)%nat) cs -> forall k fuel v, vinv cs v -> (windows v <= k)%nat -> (k + n + 1 <= fuel)%nat ->
  exists v', FillBuffer fuel v = Some (negb (bool_decide (msg_buffer_ v' = [])), v') /\ vinv cs v' /\ unseen cs v' ≡ₚ unseen cs v /\
    (windows v' <= windows v)%nat /\ same_query v v' /\ (msg_buffer_ v' = [] -> unseen cs v' = []).
Proof.
  intros Hl. induction k as [|k IH]; intros fuel v I Hk Hf; (destruct fuel as [|fuel]; [lia|]); cbn [FillBuffer];
    (destruct (Z.leb_spec (curr_begin_time_ v) (end_time_ v)) as [Hc|Hc]; cbn [andb];
     [|exists v; split_and!; try done; intros E; unfold unseen; rewrite E, inw_past by done; done]).
  - unfold windows in Hk. change (kStepTimeNanoSec + 1) with 1000000001 in Hk. pose proof (Z.div_pos (end_time_ v - curr_begin_time_ v) 1000000001 ltac:(lia) ltac:(lia)). lia.
  - destruct (bool_decide_reflect (length (msg_buffer_ v) < kBufferMinSize)%nat) as [Hs|Hs].
    + destruct (window_turn cs v n (S fuel) I Hc Hl ltac:(lia)) as (rs & buf & -> & I' & U & W). cbn zeta in *.
      destruct (IH fuel _ I' ltac:(lia) ltac:(lia)) as (v' & -> & I2 & U2 & W2 & Q & E). exists v'. split_and!; try done; [by rewrite U2|lia].
    + exists v. split_and!; try done. intros E. rewrite E in Hs. unfold kBufferMinSize in Hs. cbn in Hs. lia.
Qed.

Definition wanted (v : Viewer) (m : SingleMessage) : Prop := channels_ v = ∅ \/ msg_channel m ∈ channels_ v.
#[global] Instance wanted_dec v m : Decision (wanted v m) := _.

Lemma Update_spec cs n : Forall (fun c => (length c < n)%nat) cs -> forall k fuel v, vinv cs v -> (length (unseen cs v) <= k)%nat ->
  (k + windows v + n + 1 <= fuel)%nat ->
  exists res v', Update fuel v = Some (res, v') /\ vinv cs v' /\ (windows v' <= windows v)%nat /\ same_query v v' /\
    match res with
    | None => filter (wanted v) (unseen cs v) = []
    | Some m => filter (wanted v) (unseen cs v) ≡ₚ m :: filter (wanted v) (unseen cs v') /\
        Forall (fun x => time m <= time x) (unseen cs v') /\ (length (unseen cs v') < length (unseen cs v))%nat
    end.
Proof.
  intros Hl. induction k as [|k IH]; intros fuel v I Hk Hf; (destruct fuel as [|fuel]; [lia|]); cbn [Update].
  all: assert (F : exists v1, (if bool_decide (msg_buffer_ v = []) then FillBuffer (S fuel) v else Some (true, v)) =
      Some (negb (bool_decide (msg_buffer_ v1 = [])), v1) /\ vinv cs v1 /\ unseen cs v1 ≡ₚ unseen cs v /\ (windows v1 <= windows v)%nat /\
      same_query v v1 /\ (msg_buffer_ v1 = [] -> unseen cs v1 = []))
    by (case_bool_decide; [eapply (FillBuffer_spec cs n Hl (windows v)); [done|lia|lia]|exists v; rewrite bool_decide_eq_false_2 by done; by split_and!]).
  all: destruct F as (v1 & -> & I1 & U1 & W1 & Q1 & E1); case_bool_decide as Eb; cbn [negb].
  1,3: exists None, v1; split_and!; try done; apply Permutation_nil_r; by rewrite <- U1, (E1 Eb).
  all: pose proof I1 as [Ir Is Ip Ic Ie]; destruct (msg_buffer_ v1) as [|m buf] eqn:EB; [done|].
  - apply Permutation_length in U1. unfold unseen in U1 at 1. rewrite EB in U1. cbn in U1. lia.
  - set (v2 := set_reading v1 _ _ buf). assert (I2 : vinv cs v2).
    { inversion_clear Is. inversion_clear Ip. by split. }
    assert (U2 : unseen cs v ≡ₚ m :: unseen cs v2) by (rewrite <- U1; unfold unseen; by rewrite EB).
    assert (L2 : length (unseen cs v) = S (length (unseen cs v2))) by exact (Permutation_length U2).
    assert (Q2 : same_query v v2) by done. assert (Ew : forall x, wanted v2 x <-> wanted v x) by (intros x; unfold wanted; destruct Q2 as (_ & _ & ->); done).
    assert (EQ : bool_decide (channels_ v2 = ∅) || bool_decide (msg_channel m ∈ channels_ v2) = bool_decide (wanted v m)).
    { apply eq_true_iff_eq. rewrite orb_true_iff, !bool_decide_eq_true. apply Ew. }
    rewrite EQ. destruct (decide (wanted v m)) as [Wm|Wm]; [rewrite bool_decide_eq_true_2 by done|rewrite bool_decide_eq_false_2 by done].
    + exists (Some m), v2. split_and!; try done; [by rewrite U2, filter_cons, decide_True| |lia].
      inversion_clear Is as [|? ? _ Fm]. inversion_clear Ip as [|? ? Hm _]. unfold unseen. cbn. apply Forall_app. split; [done|].
      eapply Forall_impl; [apply inw_members|]. cbn in *. lia.
    + destruct (IH fuel v2 I2 ltac:(lia)) as (res & v' & -> & I3 & W3 & Q3 & C); [change (windows v2) with (windows v1); lia|].
      exists res, v'. split_and!; [done|done|change (windows v2) with (windows v1) in W3; lia|unfold same_query in *; naive_solver congruence|].
      assert (FE : forall l, filter (wanted v2) l = filter (wanted v) l) by (intros l; apply list_filter_iff; done).
      assert (FU : filter (wanted v) (unseen cs v) ≡ₚ filter (wanted v2) (unseen cs v2)) by (by rewrite U2, filter_cons, decide_False, FE).
      destruct res as [m'|]; [|apply Permutation_nil_r; by rewrite FU, C].
      destruct C as (C1 & C2 & C3). rewrite FU, C1, FE. split_and!; [done|done|lia].
Qed.

(** The iteration gives what is wanted of what is unseen, in the order of time. *)
Lemma iterate_spec cs n : Forall (fun c => (length c < n)%nat) cs -> forall k fuel v, vinv cs v -> (length (unseen cs v) <= k)%nat ->
  (k + windows v + n + 2 <= fuel)%nat ->
  exists out, iterate fuel v = Some out /\ in_time out /\ out ≡ₚ filter (wanted v) (unseen cs v).
Proof.
  intros Hl. induction k as [|k IH]; intros fuel v I Hk Hf; (destruct fuel as [|fuel]; [lia|]); cbn [iterate].
  all: destruct (Update_spec cs n Hl _ (S fuel) v I Hk ltac:(lia)) as (res & v' & -> & I' & W & Q & C); destruct res as [m|];
    [|exists []; split_and!; [done|constructor|by rewrite C]].
  - destruct C as (_ & _ & C). lia.
  - destruct C as (C1 & C2 & C3). destruct (IH fuel v' I' ltac:(lia) ltac:(lia)) as (out & -> & S & P).
    assert (FE : forall l, filter (wanted v') l = filter (wanted v) l) by (intros l; apply list_filter_iff; intros x; unfold wanted; by destruct Q as (_ & _ & ->)).
    rewrite FE in P. exists (m :: out). split_and!; [done| |by rewrite C1, P]. constructor; [done|]. rewrite P.
    apply Forall_forall. intros x [_ Hx]%list_elem_of_filter. revert x Hx. by apply Forall_forall.
Qed.

(** ** The query *)

Lemma min_begin_le rs : forall m0, (foldl (fun m '(r, _) => if r_valid r then if r_begin r <? m then r_begin r else m else m) m0 rs <= m0) /\
  Forall (fun p : R * bool => r_valid (fst p) = true -> foldl (fun m '(r, _) => if r_valid r then if r_begin r <? m then r_begin r else m else m) m0 rs <= r_begin (fst p)) rs.
Proof.
  induction rs as [|[r fin] rs IH]; intros m0; [split; [done|constructor]|]. cbn [foldl].
  set (m1 := if r_valid r then _ else m0). assert (M1 : m1 <= m0 /\ (r_valid r = true -> m1 <= r_begin r)).
  { unfold m1. destruct (r_valid r); [|done]. destruct (Z.ltb_spec (r_begin r) m0); lia. }
  destruct (IH m1) as [A B], M1 as [M1 M2]. split; [lia|]. constructor; [intros Hv; specialize (M2 Hv); cbn; lia|done].
Qed.
Lemma max_end_ge rs B : Forall (fun p : R * bool => r_end (fst p) <= B) rs -> forall m0, m0 <= B ->
  (m0 <= foldl (fun m '(r, _) => if r_valid r then if m <? r_end r then r_end r else m else m) m0 rs <= B) /\
  Forall (fun p : R * bool => r_valid (fst p) = true -> r_end (fst p) <= foldl (fun m '(r, _) => if r_valid r then if m <? r_end r then r_end r else m else m) m0 rs) rs.
Proof.
  induction 1 as [|[r fin] rs Hr _ IH]; intros m0 Hm; [split; [done|constructor]|]. cbn [foldl fst] in *.
  set (m1 := if r_valid r then _ else m0). assert (M1 : m0 <= m1 <= B /\ (r_valid r = true -> r_end r <= m1)).
  { unfold m1. destruct (r_valid r); [|done]. destruct (Z.ltb_spec m0 (r_end r)); lia. }
  destruct M1 as [M1 M2], (IH m1 ltac:(lia)) as [A C]. split; [lia|]. constructor; [intros Hv; specialize (M2 Hv); cbn; lia|done].
Qed.

Lemma inw_same b e b' e' c : Forall (fun x => b <= time x <= e <-> b' <= time x <= e') c -> inw b e c = inw b' e' c.
Proof.
  unfold inw. induction 1 as [|x c Hx _ IH]; [done|]. rewrite !filter_cons, IH.
  destruct (decide (b <= time x <= e)), (decide (b' <= time x <= e')); try done; lia.
Qed.
Lemma inw_join b e cs : mjoin (inw b e <$> cs) = inw b e (mjoin cs).
Proof.
  induction cs as [|c cs IH]; [done|]. change (inw b e c ++ mjoin (inw b e <$> cs) = inw b e (c ++ mjoin cs)).
  unfold inw in *. by rewrite filter_app, IH.
Qed.

(** UpdateTime narrows the query to the times of the recordings, and loses nothing. *)
Lemma UpdateTime_spec cs v : Forall2 holds ((readers_ v).*1) cs ->
  mjoin (inw (begin_time_ (UpdateTime v)) (end_time_ (UpdateTime v)) <$> cs) = mjoin (inw (begin_time_ v) (end_time_ v) <$> cs).
Proof.
  intros Hh. cbn. unfold min_begin, max_end.
  assert (HB : exists B, 0 <= B /\ Forall (fun p : R * bool => r_end (fst p) <= B) (readers_ v)).
  { clear Hh. induction (readers_ v) as [|[r fin] rs [B [HB IH]]]; [by exists 0|]. exists (Z.max B (r_end r)). split; [lia|].
    constructor; [cbn; lia|]. eapply Forall_impl; [exact IH|]. cbn. lia. }
  destruct HB as (B & HB & HF). destruct (min_begin_le (readers_ v) UINT64_MAX) as [_ Mb]. destruct (max_end_ge (readers_ v) B HF 0 HB) as [_ Me].
  set (mb := foldl _ UINT64_MAX _) in *. set (me := foldl _ 0 _) in *. clearbody mb me. clear HF.
  f_equal. revert cs Hh. induction (readers_ v) as [|[r fin] rs IH]; intros cs Hh; inversion_clear Hh as [|? c ? cs' Hc Hr]; [done|].
  inversion_clear Mb as [|? ? Mb1 Mb2]. inversion_clear Me as [|? ? Me1 Me2]. rewrite !fmap_cons. f_equal; [|by apply IH].
  destruct (header_law r c Hc) as [Hd Hv]. apply inw_same. destruct c as [|x0 c0]; [constructor|]. specialize (Hv ltac:(done)).
  specialize (Mb1 Hv). specialize (Me1 Hv). cbn in Mb1, Me1. eapply Forall_impl; [exact Hd|]. intros x Hx. cbn in Hx.
  destruct (Z.ltb_spec (begin_time_ v) mb), (Z.ltb_spec me (end_time_ v)); lia.
Qed.

(** The viewer merges recordings: iterating over a viewer of several recordings gives exactly the messages
    of all of them that lie in the time span and on the channels that were asked for, each once, in the
    order of their times; and the iteration comes to its end. *)
Theorem viewer_merges : (forall rs, sort_readers rs ≡ₚ rs) ->
  forall rs cs b e chans, Forall2 holds rs cs -> 0 <= b -> Forall (fun r => r_end r + kStepTimeNanoSec + 1 < 2 ^ 64) rs ->
  exists n, forall fuel, (n <= fuel)%nat -> exists out, view fuel (NewViewer rs b e chans) = Some out /\ in_time out /\
    out ≡ₚ filter (fun m => (b <= time m <= e) /\ (chans = ∅ \/ msg_channel m ∈ chans)) (mjoin cs).
Proof.
  intros Hsort rs cs b e chans Hh Hb He.
  destruct (Permutation_Forall2 (symmetry (Hsort rs)) Hh) as (cs' & Pc & Hh').
  set (v0 := Init b e chans rs). assert (E0 : (readers_ v0).*1 = sort_readers rs).
  { unfold v0. cbn. rewrite <- list_fmap_compose. apply list_fmap_id. }
  pose proof (UpdateTime_spec cs' v0 ltac:(by rewrite E0)) as UT. change (begin_time_ v0) with b in UT. change (end_time_ v0) with e in UT.
  set (v := ResetViewer (NewViewer rs b e chans)).
  assert (Eb : begin_time_ v = begin_time_ (UpdateTime v0)) by done. assert (Ee : end_time_ v = end_time_ (UpdateTime v0)) by done.
  assert (Pm : filter (wanted v) (mjoin (inw (begin_time_ v) (end_time_ v) <$> cs')) ≡ₚ
    filter (fun m => (b <= time m <= e) /\ (chans = ∅ \/ msg_channel m ∈ chans)) (mjoin cs)).
  { rewrite Eb, Ee, UT, inw_join. unfold inw. rewrite list_filter_filter.
    rewrite (list_filter_iff _ (fun m => (b <= time m <= e) /\ (chans = ∅ \/ msg_channel m ∈ chans))) by (intros x; unfold wanted; cbn; naive_solver).
    by rewrite Pc. }
  set (nn := S (foldr Nat.max 0%nat (length <$> cs'))). assert (Hl : Forall (fun c => (length c < nn)%nat) cs').
  { unfold nn. clear. induction cs' as [|c cs IH]; [constructor|]. cbn. constructor; [lia|]. eapply Forall_impl; [exact IH|]. cbn. lia. }
  exists (length (unseen cs' v) + windows v + nn + 2)%nat. intros fuel Hf. unfold view. fold v. unfold IsValid.
  destruct (Z.ltb_spec (end_time_ v) (begin_time_ v)) as [Hlt|Hle]; cbn [negb].
  - exists []. split_and!; [done|constructor|]. rewrite <- Pm. by rewrite inw_past by done.
  - assert (I : vinv cs' v).
    { split; [| constructor|constructor| |].
      - cbn [v ResetViewer set_reading readers_ curr_begin_time_]. change (readers_ (NewViewer rs b e chans)) with (readers_ v0).
        apply Forall2_fmap_r. rewrite <- E0, Forall2_fmap_l in Hh'. apply Forall2_flip in Hh'. eapply Forall2_impl; [exact Hh'|].
        intros c [r fin] Hc. destruct (reset_law r c Hc) as (H1 & H2 & _). split; [done|]. right. split; [done|]. by exists c.
      - change (curr_begin_time_ v) with (begin_time_ v). assert (b <= begin_time_ v); [|lia].
        change (begin_time_ v) with (if b <? min_begin (readers_ v0) then min_begin (readers_ v0) else b).
        destruct (Z.ltb_spec b (min_begin (readers_ v0))); lia.
      - assert (X : end_time_ v <= max_end (readers_ v0)).
        { change (end_time_ v) with (if max_end (readers_ v0) <? e then max_end (readers_ v0) else e).
          destruct (Z.ltb_spec (max_end (readers_ v0)) e); lia. }
        assert (Y : max_end (readers_ v0) <= 2 ^ 64 - 2 - kStepTimeNanoSec); [|lia].
        apply max_end_ge; [|done]. apply Forall_fmap. rewrite Hsort. eapply Forall_impl; [exact He|]. cbn. lia. }
    destruct (iterate_spec cs' nn Hl (length (unseen cs' v)) fuel v I ltac:(lia) ltac:(lia)) as (out & -> & S & P).
    exists out. split_and!; [done|done|]. rewrite P. exact Pm.
Qed.
End viewer.
