(* ===== verification/RecordReaderLaws.v ===== *)
(** RecordReaderLaws.v -- RecordReader is a reader for the viewer

    RecordReader (RecordFile.v) on a recording that was written in the order of time
    meets [ReaderLaws] (RecordViewer.v): windows that are read one after the other give
    their messages, however the reader stopped in between: before a message past the window, between the
    header of a chunk and its body, or at the index. *)

From stdpp Require Import sorting.
From S2P Require Import Prelude Wire RecordFile RecordViewer.
Local Open Scope Z_scope.

Section laws.
Context `{Proto Header, Proto Channel, Proto ChunkHeader, Proto ChunkBody, Proto Index}.
Variables p0 p1 p2 p3 : Z.
Variable ExpectAtEnd : list Z -> bool -> bool.

Notation sec := (RecordFile.sec p0 p1 p2 p3).
Notation items_bytes := (RecordFile.items_bytes p0 p1 p2 p3).
Notation header_block := (RecordFile.header_block p0 p1 p2 p3).
Notation reading := (RecordFile.reading p0 p1 p2 p3).
Notation stopped := (RecordFile.stopped p0 p1 p2 p3).
Notation ReadMessage := (RecordFile.ReadMessage ExpectAtEnd).
Notation ReadNextChunk := (RecordFile.ReadNextChunk ExpectAtEnd).

(** Enough for the sections of the file. *)
Definition file_fuel (r : RecordReader) : nat := length (bytes (rd_file (file_reader_ r))) + 5.

#[local] Instance record_reader : Reader RecordReader := {|
  r_valid := is_valid_;
  r_begin r := begin_time (rr_header r);
  r_end r := end_time (rr_header r);
  r_channels := GetChannelList;
  r_read r bt et := ReadMessage (file_fuel r) r bt et;
  r_reset := Reset
|}.

(** ** Where a reader can be *)

Definition in_header (h : Header) (l : list SingleMessage) : Prop := Forall (fun x => begin_time h <= time x <= end_time h) l.

Inductive place (r : RecordReader) (l : list SingleMessage) : Prop :=
  | at_invalid : is_valid_ r = false -> l = [] -> place r l
  | at_item idx items : (forall bt et, bt <= et -> reading bt et idx r items) -> l = pending r items -> Forall item_ok items -> place r l
  | at_body idx k items : (forall bt et, bt <= et -> stopped bt et idx r k items) -> drop (message_index_ r) (chunk_ r) = [] ->
      l = ck_body k ++ items_messages items -> Forall item_ok items -> place r l
  | at_index : is_valid_ r = true -> reach_end_ r = true -> drop (message_index_ r) (chunk_ r) = [] -> l = [] -> place r l.

Definition still (r : RecordReader) (l : list SingleMessage) : Prop :=
  in_time l /\ Forall (fun x => 0 < time x) l /\ in_header (rr_header r) l /\ place r l.

Record recording (r : RecordReader) (c : list SingleMessage) (items : list item) (idx : Index) : Prop := {
  rg_bytes : bytes (rd_file (file_reader_ r)) = header_block (rr_header r) ++ items_bytes items ++ sec SECTION_INDEX (Serialize idx);
  rg_length : zlen (bytes (rd_file (file_reader_ r))) <= INT64_MAX;
  rg_fits : header_fits (rr_header r) /\ Forall item_fits items /\ fits (Serialize idx);
  rg_items : Forall item_ok items;
  rg_messages : items_messages items = c;
  rg_order : in_time c /\ Forall (fun x => 0 < time x) c /\ in_header (rr_header r) c
}.
Definition recorded_in (r : RecordReader) (c : list SingleMessage) : Prop :=
  is_valid_ r = false /\ c = [] \/ is_valid_ r = true /\ exists items idx, recording r c items idx.

(** ** Lemmas *)

Lemma scan_detail bt et : forall l i,
  match scan l i bt et with
  | (TooLate, j) => exists sk m l', l = sk ++ m :: l' /\ Forall (skipped bt et) sk /\ et < time m /\ j = (i + length sk)%nat
  | (Found m, j) => exists sk l', l = sk ++ m :: l' /\ Forall (skipped bt et) sk /\ bt <= time m <= et /\ j = (i + length sk + 1)%nat
  | (NoMore, j) => Forall (skipped bt et) l /\ j = (i + length l)%nat
  end.
Proof.
  induction l as [|m l IH]; intros i; cbn [scan]; [split; [constructor|cbn; lia]|].
  destruct (Z.ltb_spec et (time m)); [exists [], m, l; split_and!; [done|constructor|done|cbn; lia]|].
  destruct (Z.ltb_spec (time m) bt).
  - specialize (IH (S i)). assert (Sk : skipped bt et m) by (split; lia). destruct (scan l (S i) bt et) as [[|m'|] j].
    + destruct IH as (sk & m' & l' & -> & F & Hm & ->). exists (m :: sk), m', l'. split_and!; [done|by constructor|done|cbn; lia].
    + destruct IH as (sk & l' & -> & F & Hm & ->). exists (m :: sk), l'. split_and!; [done|by constructor|lia|lia|cbn; lia].
    + destruct IH as [F ->]. split; [by constructor|cbn; lia].
  - exists [], l. split_and!; [done|constructor|lia|lia|cbn; lia].
Qed.

(** What a read promises of the messages that were left. *)
Definition outcome (r : RecordReader) (l : list SingleMessage) (bt et : Z) (res : option SingleMessage) (r' : RecordReader) : Prop :=
  kept r r' /\
  match res with
  | Some m => exists sk l', l = sk ++ m :: l' /\ Forall (fun x => time x < bt) sk /\ bt <= time m <= et /\ place r' l'
  | None => Forall (fun x => ~ (bt <= time x <= et)) l /\
            exists sk l', l = sk ++ l' /\ Forall (fun x => time x <= et) sk /\ place r' l'
  end.

Lemma kept_trans r r1 r2 : kept r r1 -> kept r1 r2 -> kept r r2.
Proof. unfold kept. intuition congruence. Qed.

Lemma outcome_skip r r1 sk l bt et res r' : kept r r1 -> Forall (skipped bt et) sk -> outcome r1 l bt et res r' -> outcome r (sk ++ l) bt et res r'.
Proof.
  intros K F [K' O]. split; [by eapply kept_trans|]. destruct res as [m|].
  - destruct O as (sk' & l' & -> & F' & Hm & P). exists (sk ++ sk'), l'. split_and!; [by rewrite app_assoc|apply Forall_app; split; [|done]|lia|lia|done].
    eapply Forall_impl; [exact F|]. by intros x [? _].
  - destruct O as (N & sk' & l' & -> & F' & P). split; [apply Forall_app; split; [|done]|].
    { eapply Forall_impl; [exact F|]. intros x [? _]. lia. }
    exists (sk ++ sk'), l'. split_and!; [by rewrite app_assoc|apply Forall_app; split; [|done]|done].
    eapply Forall_impl; [exact F|]. by intros x [_ ?].
Qed.

(** From a message past the window on, everything is past it. *)
Lemma all_late et m l : in_time (m :: l) -> et < time m -> Forall (fun x => et < time x) (m :: l).
Proof. intros S Hm. inversion_clear S as [|? ? _ F]. constructor; [done|]. eapply Forall_impl; [exact F|]. cbn. lia. Qed.
Lemma in_time_app_r a b : in_time (a ++ b) -> in_time b.
Proof. apply StronglySorted_app_1_r. Qed.

Lemma reading_any b e idx r items : reading b e idx r items -> Forall item_ok items -> Forall (fun x => 0 < time x) (items_messages items) ->
  forall bt et, bt <= et -> reading bt et idx r items.
Proof. intros [V M R F _ I L] O P bt et Hbt. split; try done. by apply items_sound. Qed.
Lemma stopped_any b e idx r k items : stopped b e idx r k items -> Forall item_ok items -> Forall (fun x => 0 < time x) (items_messages items) ->
  forall bt et, bt <= et -> stopped bt et idx r k items.
Proof. intros [V M R C F _ I L] O P bt et Hbt. split; try done. by apply items_sound. Qed.

Lemma kept_index r j : kept r (set_message_index r j).
Proof. by split_and!. Qed.

(** Nothing of [sk] is in the window, and the rest is past it. *)
Lemma none_in_window bt et sk l : bt <= et -> Forall (skipped bt et) sk -> Forall (fun x => et < time x) l -> Forall (fun x => ~ (bt <= time x <= et)) (sk ++ l).
Proof. intros Hb F1 F2. apply Forall_app. split; [eapply Forall_impl; [exact F1|]; intros x [? _]; lia|eapply Forall_impl; [exact F2|]; cbn; lia]. Qed.
Lemma skipped_le bt et sk : Forall (skipped bt et) sk -> Forall (fun x => time x <= et) sk.
Proof. intros F. eapply Forall_impl; [exact F|]. by intros x [_ ?]. Qed.
Lemma skipped_lt bt et sk : Forall (skipped bt et) sk -> Forall (fun x => time x < bt) sk.
Proof. intros F. eapply Forall_impl; [exact F|]. by intros x [? _]. Qed.

Section at_item.
Variables (bt et : Z) (idx : Index).
Hypothesis Hbt : bt <= et.

(** A reader in front of [items]. *)
Record before (r : RecordReader) (items : list item) : Prop := {
  bf_reading : forall b e, b <= e -> reading b e idx r items;
  bf_items : Forall item_ok items;
  bf_order : in_time (pending r items);
  bf_positive : Forall (fun x => 0 < time x) (pending r items)
}.

Lemma before_index r items sk l : before r items -> drop (message_index_ r) (chunk_ r) = sk ++ l ->
  place (set_message_index r (message_index_ r + length sk)) (l ++ items_messages items).
Proof.
  intros [Rd O _ _] D. apply (at_item _ _ idx items); [intros b e Hb; apply reading_index; by apply Rd| |done].
  unfold pending. cbn. rewrite <- drop_drop, D. by rewrite drop_app_length.
Qed.

(** What is left when the chunk is used up and the next one is asked for. *)
Lemma after_next r items r' res : before r items -> Forall (skipped bt et) (drop (message_index_ r) (chunk_ r)) ->
  let r1 := set_message_index r (message_index_ r + length (drop (message_index_ r) (chunk_ r))) in
  next_chunk p0 p1 p2 p3 bt et idx r1 items (res, r') ->
  (res = false -> outcome r (pending r items) bt et None r') /\
  (res = true -> exists sk post, before (set_message_index r' 0) post /\ Forall (skipped bt et) sk /\ kept r r' /\
     pending r items = sk ++ pending (set_message_index r' 0) post /\ (length post < length items)%nat).
Proof.
  intros B Sk r1 N. destruct B as [Rd O Or Po]. unfold pending in Or, Po |- *. set (d := drop (message_index_ r) (chunk_ r)) in *.
  assert (D1 : drop (message_index_ r1) (chunk_ r1) = []) by (cbn; unfold d; rewrite length_drop; apply drop_ge; lia).
  assert (V : is_valid_ r = true) by exact (rd_valid _ _ _ _ _ _ _ _ _ (Rd _ _ Hbt)).
  inversion N as [? E [K [C I]] F|? k post sk St [K [C I]] E F Bk So Sf|? k post sk Rd' K C E F L Sf]; subst res r'; first [split; [intros _|done]|split; [done|intros _]].
  - split; [exact K|]. split.
    + rewrite <- (app_nil_r (d ++ _)). apply none_in_window; [done| |constructor]. by apply Forall_app.
    + exists (d ++ items_messages items), []. split_and!; [by rewrite app_nil_r|apply (skipped_le bt); by apply Forall_app|].
      apply at_index; [by rewrite (proj1 K)|done|by rewrite C, I|done].
  - split; [exact K|]. rewrite E, (app_assoc d). rewrite E, (app_assoc d) in Or, Po.
    assert (Sd : Forall (skipped bt et) (d ++ sk)) by (by apply Forall_app).
    assert (Ok : Forall item_ok post) by (destruct Sf as [pre ->]; apply Forall_app in O as [_ O]; by inversion O).
    split.
    + apply none_in_window; [done|done|]. destruct So as [_ So]. destruct (So Bk) as (m & ms & Ek & Hm). apply in_time_app_r in Or.
      rewrite Ek in *. by apply all_late.
    + exists (d ++ sk), (ck_body k ++ items_messages post). split_and!; [done|by apply (skipped_le bt)|].
      apply (at_body _ _ idx k post); [|by rewrite C, I|done|done]. eapply stopped_any; [done|done|].
      apply Forall_app in Po as [_ Po]. by apply Forall_app in Po as [_ Po].
  - rewrite E, (app_assoc d). rewrite E, (app_assoc d) in Or, Po.
    assert (Ok : Forall item_ok post) by (destruct Sf as [pre ->]; apply Forall_app in O as [_ O]; by inversion O).
    pose proof (in_time_app_r _ _ Or) as Or'. apply Forall_app in Po as [_ Po]. exists (d ++ sk), post. cbn. rewrite drop_0, C.
    split_and!; [|by apply Forall_app|exact K|done|done]. split; cbn.
    + intros b e Hb. apply reading_index. eapply reading_any; [done|done| |done]. by apply Forall_app in Po as [_ Po].
    + done.
    + unfold pending. cbn. by rewrite drop_0, C.
    + unfold pending. cbn. by rewrite drop_0, C.
Qed.

Lemma read_at_item n : forall fuel r items, (length items < n)%nat -> before r items -> outside bt et (rr_header r) = false ->
  (2 * length items + 3 <= fuel)%nat -> exists res r', ReadMessage fuel r bt et = Some (res, r') /\ outcome r (pending r items) bt et res r'.
Proof.
  induction n as [|n IH]; intros fuel r items Hn B O Hf; [lia|]. destruct fuel as [|fuel]; [lia|]. cbn [RecordFile.ReadMessage].
  pose proof (bf_reading _ _ B _ _ Hbt) as Rd. rewrite (rd_valid _ _ _ _ _ _ _ _ _ Rd). pose proof O as O'. unfold outside in O'. rewrite O'. cbn [negb].
  pose proof (scan_detail bt et (drop (message_index_ r) (chunk_ r)) (message_index_ r)) as Sc.
  destruct (scan _ _ bt et) as [[|m|] j].
  - destruct Sc as (sk & m & l' & D & F & Hm & ->). eexists _, _. split; [done|]. split; [apply kept_index|].
    pose proof (bf_order _ _ B) as Or. unfold pending in Or |- *. rewrite D, <- app_assoc in Or |- *. split.
    + apply none_in_window; [done|done|]. apply in_time_app_r in Or. by apply all_late.
    + exists sk, ((m :: l') ++ items_messages items). split_and!; [done|by apply (skipped_le bt)|]. by apply before_index.
  - destruct Sc as (sk & l' & D & F & Hm & ->). eexists _, _. split; [done|]. split; [apply kept_index|].
    exists sk, (l' ++ items_messages items). unfold pending. rewrite D, <- app_assoc. split_and!; [done|by apply (skipped_lt _ et)|lia|lia|].
    replace (message_index_ r + length sk + 1)%nat with (message_index_ r + length (sk ++ [m]))%nat by (rewrite length_app; cbn; lia).
    apply before_index; [done|]. by rewrite D, <- app_assoc.
  - destruct Sc as [F ->]. set (r1 := set_message_index r _).
    destruct (ReadNextChunk_run p0 p1 p2 p3 ExpectAtEnd bt et idx items (S fuel) r1) as ([res r'] & -> & N); [by apply reading_index|lia|].
    destruct (after_next r items r' res B F N) as [Af At]. destruct res.
    + destruct (At eq_refl) as (sk & post & B' & Fs & K & E & Hl).
      destruct (IH fuel (set_message_index r' 0) post ltac:(lia) B') as (res2 & r2 & -> & Oc).
      { cbn. destruct K as (_ & -> & _). done. } { lia. }
      eexists _, _. split; [done|]. rewrite E. eapply outcome_skip; [|done|exact Oc]. eapply kept_trans; [exact K|apply kept_index].
    + eexists _, _. split; [done|]. by apply Af.
Qed.
End at_item.

Lemma items_bytes_length l : (16 * length l <= length (items_bytes l))%nat.
Proof.
  induction l as [|i l IH]; [done|]. change (items_bytes (i :: l)) with (item_bytes p0 p1 p2 p3 i ++ items_bytes l). rewrite length_app. cbn [length].
  assert (16 <= length (item_bytes p0 p1 p2 p3 i))%nat; [|lia].
  destruct i; cbn [item_bytes]; rewrite ?length_app, ?sec_length; unfold SECTION_SIZE; lia.
Qed.
Lemma enough_fuel r pre l suf : rest_of (file_reader_ r) = pre ++ items_bytes l ++ suf -> (2 * length l + 4 <= file_fuel r - 1)%nat.
Proof.
  intros E. apply (f_equal length) in E. unfold rest_of in E. rewrite length_drop, !length_app in E. pose proof (items_bytes_length l).
  unfold file_fuel. lia.
Qed.

Lemma read_stopped bt et idx r k items fuel : stopped bt et idx r k items ->
  exists r', ReadNextChunk (S fuel) r bt et false = Some (true, r') /\ reading bt et idx r' items /\ chunk_ r' = ck_body k /\ kept r r'.
Proof.
  intros [V M R C F So I L]. destruct C as [_ C]. cbn [RecordFile.ReadNextChunk]. rewrite M.
  destruct (read_head p0 p1 p2 p3 r _ _ _ R C) as (f & -> & Rf & Lf). rewrite type_of_code. cbn [with_reader file_reader_].
  destruct (read_body ExpectAtEnd f (ck_body k) [] _ Rf C) as (f' & -> & Rf' & Lf'). eexists. split; [done|]. split_and!; [|done|].
  - split; cbn; try done. by rewrite Lf', Lf.
  - split_and!; try done. cbn. by rewrite Lf', Lf.
Qed.

(** Whatever place the reader is at. *)
Lemma read_place r l bt et : still r l -> bt <= et ->
  exists res r', ReadMessage (file_fuel r) r bt et = Some (res, r') /\ outcome r l bt et res r'.
Proof.
  intros (Or & Po & Hd & Pl) Hbt. assert (Ff : exists n, file_fuel r = S n) by (unfold file_fuel; exists (length (bytes (rd_file (file_reader_ r))) + 4)%nat; lia).
  destruct Ff as [n En].
  destruct (outside bt et (rr_header r)) eqn:O.
  { exists None, r. rewrite En. cbn [RecordFile.ReadMessage]. pose proof O as O'. unfold outside in O'. rewrite O'.
    split; [by destruct (is_valid_ r)|]. split; [by split_and!|]. split; [|by exists [], l].
    eapply Forall_impl; [exact Hd|]. intros x Hx. cbn in Hx. apply orb_true_iff in O' as [X%Z.ltb_lt|X%Z.ltb_lt]; lia. }
  pose proof O as O'. unfold outside in O'.
  destruct Pl as [V ->|idx items Rd E Ok|idx k items St D E Ok|V Re D ->].
  - exists None, r. rewrite En. cbn [RecordFile.ReadMessage]. rewrite V. split; [done|]. split; [by split_and!|]. split; [constructor|].
    exists [], []. split_and!; [done|constructor|by apply at_invalid].
  - rewrite E in *. apply (read_at_item bt et idx Hbt (S (length items))); [lia|by split|done|].
    pose proof (enough_fuel r [] items _ (rd_rest _ _ _ _ _ _ _ _ _ (Rd _ _ Hbt))). lia.
  - rewrite En. cbn [RecordFile.ReadMessage]. rewrite (st_valid _ _ _ _ _ _ _ _ _ _ (St _ _ Hbt)), O', D. cbn [scan negb].
    assert (St' : stopped bt et idx (set_message_index r (message_index_ r)) k items) by (destruct (St _ _ Hbt); by split).
    destruct (read_stopped bt et idx _ k items n St') as (r' & -> & Rd' & C & K).
    assert (Pn : pending (set_message_index r' 0) items = l) by (unfold pending; cbn; by rewrite drop_0, C, E).
    destruct (read_at_item bt et idx Hbt (S (length items)) n (set_message_index r' 0) items) as (res & r2 & -> & Oc).
    + lia.
    + split; [|done|by rewrite Pn|by rewrite Pn]. intros b e Hb. apply reading_index. eapply reading_any; [done|done| |done].
      rewrite E in Po. by apply Forall_app in Po as [_ Po].
    + cbn. destruct K as (_ & -> & _). done.
    + pose proof (enough_fuel r _ items _ (st_rest _ _ _ _ _ _ _ _ _ _ (St _ _ Hbt))). lia.
    + eexists _, _. split; [done|]. rewrite Pn in Oc. apply (outcome_skip r (set_message_index r' 0) []); [|constructor|done].
      eapply kept_trans; [|apply kept_index]. exact K.
  - exists None. rewrite En. cbn [RecordFile.ReadMessage]. rewrite V, O', D. cbn [scan negb RecordFile.ReadNextChunk set_message_index reach_end_]. rewrite Re.
    eexists. split; [done|]. split; [apply kept_index|]. split; [constructor|]. exists [], []. split_and!; [done|constructor|]. by apply at_index.
Qed.

Lemma still_suffix r r' sk l : still r (sk ++ l) -> kept r r' -> place r' l -> still r' l.
Proof.
  intros (Or & Po & Hd & _) (_ & Hh & _) Pl. unfold still, in_header. rewrite Hh. split_and!; [by apply in_time_app_r in Or| | |done].
  - by apply Forall_app in Po as [_ ?].
  - by apply Forall_app in Hd as [_ ?].
Qed.

Lemma recorded_kept r r' c : kept r r' -> recorded_in r c -> recorded_in r' c.
Proof.
  intros (KV & KH & _ & _ & KB). unfold recorded_in. rewrite KV. intros [?|[V (items & idx & [B L F I M O])]]; [by left|]. right.
  split; [done|]. exists items, idx. split; rewrite ?KB, ?KH; done.
Qed.

Lemma recorded_reset r c : recorded_in r c -> still (Reset r) c /\ kept r (Reset r).
Proof.
  intros Rc. assert (K : kept r (Reset r)) by (by split_and!). split; [|done].
  destruct Rc as [[V ->]|[V (items & idx & [B L (F1 & F2 & F3) I M (O1 & O2 & O3)])]].
  - split_and!; [constructor|constructor|constructor|by apply at_invalid].
  - split_and!; [done|done|done|]. apply (at_item _ _ idx items); [|by unfold pending; cbn; rewrite M|done].
    intros bt et Hbt. split; try done; [|by apply items_sound; [| |rewrite M]].
    change (rest_of (file_reader_ (Reset r))) with (drop (Z.to_nat FIRST_SECTION) (bytes (rd_file (file_reader_ r)))).
    rewrite B. apply drop_app_length'. pose proof (header_block_length p0 p1 p2 p3 _ F1) as HL.
    lia.
Qed.

#[local] Instance record_reader_laws : ReaderLaws RecordReader.
Proof.
  refine {| holds := recorded_in; remaining := still |}.
  - intros r l bt et St Hbt. destruct (read_place r l bt et St Hbt) as (res & r' & E & K & Oc). exists res, r'. split; [exact E|].
    split; [intros c; by apply recorded_kept|]. pose proof K as K0. destruct K as (KV & KH & K). cbn. rewrite KV, KH. split_and!; [done|done|done|].
    destruct res as [m|].
    + destruct Oc as (sk & l' & -> & F & Hm & Pl). exists sk, l'. split_and!; [done|done|lia|lia|].
      eapply (still_suffix r r' (sk ++ [m])); [by rewrite <- app_assoc|exact K0|done].
    + destruct Oc as (N & sk & l' & -> & F & Pl). split; [done|]. exists l'. split_and!.
      * eapply (still_suffix r r' sk); [done|exact K0|done].
      * rewrite length_app. lia.
      * rewrite filter_app, (filter_is_empty _ sk); [done|]. eapply Forall_impl; [exact F|]. cbn. lia.
  - intros r c Rc. destruct (recorded_reset r c Rc) as [St K]. split_and!; [by eapply recorded_kept|done|done|done|done].
  - intros r c [[V ->]|[V (items & idx & [B L F I M (O1 & O2 & O3)])]]; [by split|]. split; [done|by intros _].
Defined.

(** A recording that was written in the order of time holds what was written. *)
Lemma recording_holds h ops : recordable p0 p1 p2 p3 h ops -> begin_time h = 0 -> end_time h = 0 ->
  keeps_up p0 p1 p2 p3 (start p0 p1 p2 p3 h) ops = true -> in_time (written ops) -> Forall (fun m => 0 < time m) (written ops) ->
  recorded_in (NewRecordReader ExpectAtEnd (record_file p0 p1 p2 p3 h ops)) (written ops).
Proof.
  intros Rc Hb He K T Po. destruct (recorded_messages p0 p1 p2 p3 h ops Rc) as (I & _ & Q). specialize (Q K).
  destruct (recorded_reader p0 p1 p2 p3 ExpectAtEnd h ops Rc) as [E _]. right. split; [by rewrite E|].
  pose proof (final_summary p0 p1 p2 p3 h ops Rc) as Sm.
  exists (recorded p0 p1 p2 p3 h ops), (final_index p0 p1 p2 p3 (run p0 p1 p2 p3 (start p0 p1 p2 p3 h) ops)).
  rewrite E. split; cbn [file_reader_ rd_file bytes rr_header]; [by apply record_file_bytes|apply Rc|split_and!; apply Rc|done|done|].
  split_and!; [done|done|]. rewrite <- Q in *. unfold in_header.
  pose proof (sum_end_last _ (summary h) I Po T) as Le. rewrite <- Sm in Le. cbn [sum_end summary] in Le.
  pose proof (sum_begin_first _ I Po (summary h) Hb) as Fi. rewrite <- Sm in Fi. cbn [sum_begin summary] in Fi.
  destruct (items_messages _) as [|m ms]; [constructor|]. inversion_clear T as [|? ? _ Fm]. inversion_clear Le as [|? ? L1 L2].
  constructor; [lia|]. rewrite Forall_forall in Fm, L2 |- *. intros x Hx. specialize (Fm x Hx). specialize (L2 x Hx). cbn in *. lia.
Qed.

(** ** Viewer and recordings together *)

(** A recording whose messages were written in the order of their times. *)
Record ordered_recording (rec : Header * list wop) : Prop := {
  or_recordable : recordable p0 p1 p2 p3 (fst rec) (snd rec);
  or_header : begin_time (fst rec) = 0 /\ end_time (fst rec) = 0;
  or_keeps_up : keeps_up p0 p1 p2 p3 (start p0 p1 p2 p3 (fst rec)) (snd rec) = true;
  or_order : in_time (written (snd rec));
  or_times : Forall (fun m => 0 < time m /\ time m + kStepTimeNanoSec + 1 < 2 ^ 64) (written (snd rec))
}.
Definition reader_of (rec : Header * list wop) : RecordReader :=
  NewRecordReader ExpectAtEnd (record_file p0 p1 p2 p3 (fst rec) (snd rec)).

Lemma ordered_holds rec : ordered_recording rec -> recorded_in (reader_of rec) (written (snd rec)) /\
  end_time (rr_header (reader_of rec)) + kStepTimeNanoSec + 1 < 2 ^ 64.
Proof.
  intros [Rc [Hb He] K T Po]. split.
  - apply recording_holds; try done. eapply Forall_impl; [exact Po|]. by intros x [? _].
  - unfold reader_of. destruct (recorded_reader p0 p1 p2 p3 ExpectAtEnd _ _ Rc) as [E _]. rewrite E. cbn [rr_header].
    destruct (recorded_messages p0 p1 p2 p3 _ _ Rc) as (I & _ & Q). specialize (Q K).
    pose proof (final_summary p0 p1 p2 p3 _ _ Rc) as Sm. apply (f_equal sum_end) in Sm. cbn [sum_end summary] in Sm. rewrite Sm.
    assert (X : sum_end (foldl count_item (summary (fst rec)) (recorded p0 p1 p2 p3 (fst rec) (snd rec))) <= 2 ^ 64 - 2 - kStepTimeNanoSec); [|lia].
    apply sum_end_le; [done|done| |cbn; rewrite He; done]. rewrite Q. eapply Forall_impl; [exact Po|]. cbn. lia.
Qed.

End laws.
