(* ===== verification/RecordWitness.v ===== *)
(** RecordWitness.v -- record files on concrete recordings

    A serialization of the messages of RecordFile.v, whose class [Proto] it shows can
    be met, the recordings that the theorems of RecordFile.v are applied to, and what
    the writer does when its flush thread falls behind or its file exists. *)

From Stdlib Require Import Ascii.
From S2P Require Import Prelude Unordered Wire RecordFile RecordWriter RecordViewer RecordReaderLaws.
Local Open Scope Z_scope.

(** ** A serialization *)

Class Codec (T : Type) := {
  enc : T -> list Z;
  dec : list Z -> option (T * list Z);
  dec_enc : forall x rest, dec (enc x ++ rest) = Some (x, rest)
}.

Fixpoint enc_pos (p : positive) : list Z := match p with xH => [2] | xO p => 0 :: enc_pos p | xI p => 1 :: enc_pos p end.
Fixpoint dec_pos (bs : list Z) : option (positive * list Z) :=
  match bs with
  | [] => None
  | b :: bs =>
      if b =? 2 then Some (xH, bs)
      else match dec_pos bs with Some (p, rest) => Some (if b =? 0 then xO p else xI p, rest) | None => None end
  end.
Lemma dec_enc_pos p : forall rest, dec_pos (enc_pos p ++ rest) = Some (p, rest).
Proof. induction p as [p IH|p IH|]; intros rest; cbn; by rewrite ?IH. Qed.

#[export] Program Instance Z_codec : Codec Z := {|
  enc z := match z with Z0 => [0] | Zpos p => 1 :: enc_pos p | Zneg p => 2 :: enc_pos p end;
  dec bs := match bs with
            | [] => None
            | b :: bs => if b =? 0 then Some (0, bs)
                         else match dec_pos bs with Some (p, rest) => Some (if b =? 1 then Zpos p else Zneg p, rest) | None => None end
            end
|}.
Next Obligation. intros [|p|p] rest; cbn; by rewrite ?dec_enc_pos. Qed.

#[export] Program Instance ascii_codec : Codec ascii := {|
  enc a := [Z.of_nat (nat_of_ascii a)];
  dec bs := match bs with [] => None | b :: bs => Some (ascii_of_nat (Z.to_nat b), bs) end
|}.
Next Obligation. intros a rest. cbn. by rewrite Nat2Z.id, ascii_nat_embedding. Qed.

#[export] Program Instance pair_codec {A B} `{Codec A, Codec B} : Codec (A * B) := {|
  enc p := enc (fst p) ++ enc (snd p);
  dec bs := match dec bs with
            | Some (a, bs) => match dec bs with Some (b, rest) => Some ((a, b), rest) | None => None end
            | None => None
            end
|}.
Next Obligation. intros A B ? ? [a b] rest. cbn. by rewrite <- app_assoc, !dec_enc. Qed.

Fixpoint dec_list {A} `{Codec A} (n : nat) (bs : list Z) : option (list A * list Z) :=
  match n with
  | O => Some ([], bs)
  | S n => match dec bs with
           | Some (a, bs) => match dec_list n bs with Some (l, rest) => Some (a :: l, rest) | None => None end
           | None => None
           end
  end.
Lemma dec_list_enc {A} `{Codec A} (l : list A) rest : dec_list (length l) (mjoin (enc <$> l) ++ rest) = Some (l, rest).
Proof. induction l as [|a l IH]; [done|]. rewrite fmap_cons. change (mjoin (enc a :: (enc <$> l))) with (enc a ++ mjoin (enc <$> l)). cbn [length dec_list].
  by rewrite <- app_assoc, dec_enc, IH. Qed.
#[export] Program Instance list_codec {A} `{Codec A} : Codec (list A) := {|
  enc l := enc (zlen l) ++ mjoin (enc <$> l);
  dec bs := match dec bs with Some (n, bs) => dec_list (Z.to_nat n) bs | None => None end
|}.
Next Obligation. intros A ? l rest. cbn beta. rewrite <- app_assoc, dec_enc. unfold zlen. by rewrite Nat2Z.id, dec_list_enc. Qed.

(** A type that is another one in disguise. *)
Program Definition codec_by {A B} `{Codec B} (f : A -> B) (g : B -> A) (Hgf : forall a, g (f a) = a) : Codec A := {|
  enc a := enc (f a);
  dec bs := match dec bs with Some (b, rest) => Some (g b, rest) | None => None end
|}.
Next Obligation. intros A B ? f g Hgf a rest. cbn. by rewrite dec_enc, Hgf. Qed.

#[export] Instance string_codec : Codec string :=
  codec_by String.list_ascii_of_string String.string_of_list_ascii String.string_of_list_ascii_of_string.
#[export] Instance channel_codec : Codec Channel :=
  codec_by (fun c => (name c, (message_type c, proto_desc c))) (fun p => mkChannel (fst p) (fst (snd p)) (snd (snd p)))
    (fun c => match c with mkChannel _ _ _ => eq_refl end).
#[export] Instance message_codec : Codec SingleMessage :=
  codec_by (fun m => (msg_channel m, (time m, content m))) (fun p => mkMessage (fst p) (fst (snd p)) (snd (snd p)))
    (fun c => match c with mkMessage _ _ _ => eq_refl end).
#[export] Instance chunk_header_codec : Codec ChunkHeader :=
  codec_by (fun h => (ch_begin_time h, ch_end_time h, ch_message_number h, ch_raw_size h)) (fun '(b, e, n, s) => mkCH b e n s)
    (fun c => match c with mkCH _ _ _ _ => eq_refl end).
#[export] Instance channel_cache_codec : Codec ChannelCache :=
  codec_by (fun h => (cc_message_number h, cc_name h, cc_message_type h, cc_proto_desc h)) (fun '(b, e, n, s) => mkCC b e n s)
    (fun c => match c with mkCC _ _ _ _ => eq_refl end).
#[export] Instance section_type_codec : Codec SectionType :=
  codec_by type_code (fun c => default SECTION_HEADER (type_of c)) (fun t => match t with SECTION_HEADER | _ => ltac:(by destruct t) end).

(** The oneof of an index: which member it holds, and all three. *)
#[export] Instance cache_codec : Codec Cache :=
  codec_by
    (fun c => match c with
              | channel_cache c => (0, (c, (mkCH 0 0 0 0, 0)))
              | chunk_header_cache h => (1, (mkCC 0 "" "" "", (h, 0)))
              | chunk_body_cache n => (2, (mkCC 0 "" "" "", (mkCH 0 0 0 0, n)))
              end)
    (fun p => if fst p =? 0 then channel_cache (fst (snd p)) else if fst p =? 1 then chunk_header_cache (fst (snd (snd p))) else chunk_body_cache (snd (snd (snd p))))
    (fun c => match c with channel_cache _ | chunk_header_cache _ | chunk_body_cache _ => ltac:(by destruct c) end).
#[export] Instance index_codec : Codec SingleIndex :=
  codec_by (fun i => (idx_type i, (position i, cache i))) (fun p => mkIndex (fst p) (fst (snd p)) (snd (snd p)))
    (fun c => match c with mkIndex _ _ _ => eq_refl end).
#[export] Instance header_codec : Codec Header :=
  codec_by
    (fun h => (major_version h, minor_version h, compress h, chunk_interval h, segment_interval h,
               (index_position h, chunk_number h, channel_number h, begin_time h, end_time h),
               (message_number h, size_ h, if is_complete h then 1 else 0, chunk_raw_size h, segment_raw_size h)))
    (fun '(a, b, c, d, e, (f, g, h, i, j), (k, l, m, n, o)) => mkHeader a b c d e f g h i j k l (m =? 1) n o)
    (fun h => ltac:(by destruct h as [? ? ? ? ? ? ? ? ? ? ? ? [] ? ?])).

Definition parse_codec {T} `{Codec T} (t0 : T) (bs : list Z) : bool * T :=
  match bs with
  | [] => (false, t0)
  | _ :: bs => match dec bs with Some (x, []) => (true, x) | _ => (false, t0) end
  end.
Program Definition codec_proto {T} `{Codec T} (t0 : T) : Proto T := {| Serialize x := 1 :: enc x; Parse := parse_codec t0 |}.
Next Obligation. intros T ? t0 x _. cbn. by rewrite <- (app_nil_r (enc x)), dec_enc. Qed.
#[export] Instance header_proto : Proto Header := codec_proto NewHeader.
#[export] Instance channel_proto : Proto Channel := codec_proto NewChannel.
#[export] Instance chunk_header_proto : Proto ChunkHeader := codec_proto (mkCH 0 0 0 0).
#[export] Instance chunk_body_proto : Proto ChunkBody := codec_proto [].
#[export] Instance index_proto : Proto Index := codec_proto [].

(** ** A recording *)

(** Chunks of more than 3 bytes are flushed. *)
Definition h0 : Header := mkHeader 1 0 0 0 0 0 0 0 0 0 0 0 false 3 0.
Definition say (c : string) (t : Z) (bs : list Z) : wop := OpMessage (mkMessage c t bs).
Definition ops0 : list wop :=
  [OpChannel (mkChannel "a" "A" "da"); say "a" 10 [1; 2]; say "a" 12 [3; 4]; OpFlush; OpChannel (mkChannel "b" "B" "db");
   say "b" 20 [5]; say "a" 22 [6; 7; 8]; OpFlush; say "b" 30 [9]].
Notation eof0 := (fun (_ : list Z) (b : bool) => b).
Notation file_of ops := (record_file 7 7 7 7 h0 ops).
Definition read_file (f : list Z) (bt et : Z) : option (list SingleMessage) :=
  fst <$> read_all eof0 40 (NewRecordReader eof0 f) bt et.

Lemma recorded_messages_are_read_back_witness :
  exists ms r, read_all eof0 40 (NewRecordReader eof0 (file_of ops0)) 0 UINT64_MAX = Some (ms, r) /\ ms ≡ₚ written ops0 /\
    (keeps_up 7 7 7 7 (start 7 7 7 7 h0) ops0 = true -> ms = written ops0).
Proof.
  apply recorded_messages_are_read_back; [apply recordableb_true; by vm_compute|by split|by split|].
  apply Nat.leb_le. by vm_compute.
Defined.

Lemma window_of_recording_is_exact_witness :
  exists r, read_all eof0 40 (NewRecordReader eof0 (file_of ops0)) 12 20 = Some (filter (fun m => 12 <= time m <= 20) (written ops0), r).
Proof.
  apply window_of_recording_is_exact; [apply recordableb_true; by vm_compute|done|done|lia|by vm_compute| | |apply Nat.leb_le; by vm_compute].
  - unfold in_time. cbn. repeat constructor; cbn; lia.
  - cbn. repeat constructor; cbn; lia.
Defined.

Lemma recorded_info_is_read_back_witness : let r := NewRecordReader eof0 (file_of ops0) in message_number (rr_header r) = 5 /\ ReadMessageNumber r "a" = 3.
Proof.
  destruct (recorded_info_is_read_back 7 7 7 7 eof0 h0 ops0) as (_ & _ & _ & M & _ & C).
  - apply recordableb_true; by vm_compute.
  - by split.
  - split; [rewrite M; by vm_compute|]. destruct (C 0%nat (mkChannel "a" "A" "da")) as (_ & _ & N); [by vm_compute|].
    change "a"%string with (name (mkChannel "a" "A" "da")). rewrite N. by vm_compute.
Defined.

(** ** When the flush thread falls behind *)

(** Two chunks fill up before the flush thread runs: the second hand-over gives the
    chunk that was not flushed back, and it is written last. *)
Definition slow_ops : list wop := [say "a" 10 [1; 2; 3; 4]; say "a" 20 [5; 6; 7; 8]].
Definition m10 : SingleMessage := mkMessage "a" 10 [1; 2; 3; 4].
Definition m20 : SingleMessage := mkMessage "a" 20 [5; 6; 7; 8].

(** The recording is complete, but it comes back in another order, its header says that
    it begins at 20 and ends at 10, and so neither message is found at its time. *)
Lemma slow_flush_hides_messages :
  read_file (file_of slow_ops) 0 UINT64_MAX = Some [m20; m10] /\
  read_file (file_of slow_ops) 10 10 = Some [] /\ read_file (file_of slow_ops) 20 20 = Some [] /\
  keeps_up 7 7 7 7 (start 7 7 7 7 h0) slow_ops = false.
Proof. by vm_compute. Qed.

(** ** When the file exists *)

(** A recording that was opened over an old one and not closed. *)
Definition aborted (old : list Z) : list Z := bytes (file (snd (WriteHeader 7 7 7 7 (Open NewHeader old) h0))).

(** The old file is not truncated: the messages of the old recording are read as those of
    the new one, in which nothing was written. *)
Lemma aborted_recording_shows_the_old_one :
  read_file (aborted (file_of ops0)) 0 UINT64_MAX = Some (written ops0) /\ read_file (aborted []) 0 UINT64_MAX = Some [].
Proof. by vm_compute. Qed.

(** ** When the file is damaged *)

(** A chunk before the window whose body claims a negative size: skipping it goes
    back to the header of the chunk. *)
Definition early_chunk : ChunkHeader := mkCH 5 5 1 1.
Definition looping_file : list Z :=
  let h := upd_header h0 0 1 0 5 100 1 0 false in
  header_block 7 7 7 7 h ++ sec 7 7 7 7 SECTION_CHUNK_HEADER (Serialize early_chunk) ++
    section_bytes 7 7 7 7 SECTION_CHUNK_BODY (- (16 + zlen (Serialize early_chunk) + 16)).
Definition looping_reader : RecordReader := NewRecordReader eof0 looping_file.

Lemma skipped_chunk expect fuel r bt et f1 f2 f3 h sz1 sz2 : reach_end_ r = false ->
  ReadSectionHead (file_reader_ r) = (Some (type_code SECTION_CHUNK_HEADER, sz1), f1) -> ReadSection expect f1 sz1 (mkCH 0 0 0 0) = (true, h, f2) ->
  (et <? ch_begin_time h) = false -> (ch_end_time h <? bt) = true -> ReadSectionHead f2 = (Some (type_code SECTION_CHUNK_BODY, sz2), f3) ->
  ReadNextChunk expect (S (S fuel)) r bt et false = ReadNextChunk expect fuel (with_reader r (snd (SkipSection f3 sz2))) bt et false.
Proof.
  intros M E1 E2 B T E3. cbn [ReadNextChunk]. rewrite M, E1, type_of_code. cbn [with_reader file_reader_]. rewrite E2, B, T. cbn [negb orb].
  cbn [with_reader reach_end_ file_reader_]. rewrite M, E3, type_of_code. done.
Qed.

Lemma looping_turn fuel : ReadNextChunk eof0 (S (S fuel)) looping_reader 10 20 false = ReadNextChunk eof0 fuel looping_reader 10 20 false.
Proof.
  pose (f1 := snd (ReadSectionHead (file_reader_ looping_reader))).
  pose (f2 := snd (ReadSection eof0 f1 (zlen (Serialize early_chunk)) (mkCH 0 0 0 0))).
  rewrite (skipped_chunk _ _ _ _ _ f1 f2 (snd (ReadSectionHead f2)) early_chunk (zlen (Serialize early_chunk))
    (- (16 + zlen (Serialize early_chunk) + 16))); [|by vm_compute..].
  by replace (with_reader looping_reader _) with looping_reader by (by vm_compute).
Qed.

(** ReadMessage does not return on this file, whatever the fuel. *)
Lemma damaged_file_is_read_forever fuel : ReadMessage eof0 fuel looping_reader 10 20 = None /\ is_valid_ looping_reader = true.
Proof.
  assert (L : forall n, ReadNextChunk eof0 n looping_reader 10 20 false = None).
  { apply (well_founded_ind Nat.lt_wf_0). intros [|[|n]] IH; [done|by vm_compute|]. rewrite looping_turn. apply IH. lia. }
  split; [|by vm_compute]. destruct fuel as [|fuel]; [done|]. specialize (L (S fuel)).
  assert (E : ReadMessage eof0 (S fuel) looping_reader 10 20 =
    match ReadNextChunk eof0 (S fuel) (set_message_index looping_reader 0) 10 20 false with
    | None => None
    | Some (true, r) => ReadMessage eof0 fuel (set_message_index r 0) 10 20
    | Some (false, r) => Some (None, r)
    end).
  { cbn [ReadMessage]. replace (is_valid_ looping_reader) with true by (by vm_compute).
    replace (end_time (rr_header looping_reader) <? 10) with false by (by vm_compute).
    replace (20 <? begin_time (rr_header looping_reader)) with false by (by vm_compute).
    replace (chunk_ looping_reader) with (@nil SingleMessage) by (by vm_compute).
    replace (message_index_ looping_reader) with 0%nat by (by vm_compute). done. }
  rewrite E. replace (set_message_index looping_reader 0) with looping_reader by (by vm_compute). by rewrite L.
Qed.

(** ** Recordings in segments *)

(** Segments of more than 3 bytes. *)
Definition h3 : Header := GetHeaderWithSegmentParams 0 3.
Definition rops3 : list rop :=
  [RChannel "a" "A" "da"; RMessage (mkMessage "a" 10 [1; 2]); RMessage (mkMessage "a" 12 [3; 4]); RFlush; RChannel "b" "B" "db";
   RMessage (mkMessage "b" 20 [5; 6; 7; 8]); RMessage (mkMessage "a" 30 [9])].
Notation RW_Open7 := (RW_Open 7 7 7 7 (fun _ => true)).
Notation rrun7 := (rrun (H4 := front_order) 7 7 7 7 (fun _ => true)).
Definition opened3 : RW := snd (RW_Open7 (NewRW h3 ∅) "rec").

Lemma segments_hold_the_recording_witness :
  exists r segs last, rrun7 opened3 rops3 = Some r /\ length segs = 2%nat /\ mjoin (written <$> (segs ++ [last])) = rmessages rops3 /\
    (forall seg, (segs ++ [last]) !! 1%nat = Some seg -> files (RW_Close 7 7 7 7 r) !! "rec.00001"%string = Some (record_file 7 7 7 7 h3 seg)).
Proof.
  destruct (segments_hold_the_recording (H4 := front_order) 7 7 7 7 (fun _ => true) h3 "rec" ∅ rops3)
    as (r & segs & last & E & L & F & M & _).
  - apply header_fitsb_true. by vm_compute.
  - done.
  - intros k _. apply lookup_empty.
  - by vm_compute.
  - by vm_compute.
  - exists r, segs, last. split; [exact E|]. split; [rewrite L; by vm_compute|]. split; [exact M|]. intros seg Hs. exact (F 1%nat seg Hs).
Defined.

(** A program that records one file after the other with one RecordWriter. *)
Definition second_recording : option RW :=
  rrun7 opened3 [RChannel "a" "A" "da"; RMessage (mkMessage "a" 10 [1; 2])] ≫= fun r =>
  rrun7 (snd (RW_Open7 (RW_Close 7 7 7 7 r) "again")) [RChannel "a" "A" "da"; RMessage (mkMessage "a" 20 [5])].

(** The second file holds the message but not its channel, which the writer takes for
    declared. *)
Lemma second_recording_lacks_its_channel :
  (r ← second_recording; f ← files (RW_Close 7 7 7 7 r) !! "again.00000"%string;
   Some (GetChannelList (NewRecordReader eof0 f), read_file f 0 UINT64_MAX)) = Some (∅, Some [mkMessage "a" 20 [5]]).
Proof. by vm_compute. Qed.

(** ** The viewer *)

#[local] Instance rr0 : Reader RecordReader := record_reader eof0.
Definition ops1 : list wop := [OpChannel (mkChannel "c" "C" "dc"); say "c" 11 [1]; say "c" 22 [2; 3; 4; 5]; say "c" 1500000000 [6]].
Notation recs01 := [(h0, ops0); (h0, ops1)].


Example viewer_example :
  view 60 (NewViewer id (reader_of 7 7 7 7 eof0 <$> recs01) 12 UINT64_MAX {["a"; "c"]}) =
  Some [mkMessage "a" 12 [3; 4]; mkMessage "a" 22 [6; 7; 8]; mkMessage "c" 22 [2; 3; 4; 5]; mkMessage "c" 1500000000 [6]].
Proof. by vm_compute. Qed.

(** A message that was written more than a second after a later one is read, but the viewer
    does not show it. *)
Definition late_ops : list wop := [say "a" 3000000000 [1]; say "a" 1000000000 [2]].
Lemma late_message_is_not_shown :
  read_file (file_of late_ops) 0 UINT64_MAX = Some (written late_ops) /\
  view 60 (NewViewer id [reader_of 7 7 7 7 eof0 (h0, late_ops)] 0 UINT64_MAX ∅) = Some [mkMessage "a" 3000000000 [1]].
Proof. by vm_compute. Qed.
