(* ===== verification/Indexed.v ===== *)
(** Indexed.v -- src/src/apollo/modules/planning/common/indexed_list.h and indexed_queue.h

    The containers of the planning module: obstacles by id in the order they were
    added, and the most recent frames by id.  A pointer into the dictionary is the
    id of its entry, so that a change of an entry is seen through the list.  The
    locks of ThreadSafeIndexedList make its operations atomic. *)

From S2P Require Import Prelude.
From S2P Require Import Unordered.
Local Open Scope Z_scope.

(** ** IndexedList *)

Section indexed_list.
Context `{HashOrder} {I : Type} `{Countable I} {T : Type}.

Record IndexedList := mkIL { object_list_ : list I; object_dict_ : gmap I T }.
Definition NewIL : IndexedList := mkIL [] ∅.

Definition IL_Find (l : IndexedList) (id : I) : option T := object_dict_ l !! id.

Definition IL_Add (l : IndexedList) (id : I) (object : T) : IndexedList :=
  match IL_Find l id with
  | Some _ => mkIL (object_list_ l) (<[id := object]> (object_dict_ l))
  | None => mkIL (object_list_ l ++ [id]) (<[id := object]> (object_dict_ l))
  end.

(** What the pointers of Items() point to. *)
Definition Items (l : IndexedList) : list T := omap (fun id => object_dict_ l !! id) (object_list_ l).

(** Writing through the pointer that Find returns. *)
Definition IL_Modify (l : IndexedList) (id : I) (f : T -> T) : IndexedList :=
  mkIL (object_list_ l) (alter f id (object_dict_ l)).

Definition IL_Assign (other : IndexedList) : IndexedList :=
  foldl (fun l kv => IL_Add l kv.1 kv.2) NewIL (iter (object_dict_ other)).

Definition il_ok (l : IndexedList) : Prop :=
  NoDup (object_list_ l) /\ forall id, id ∈ object_list_ l <-> is_Some (object_dict_ l !! id).

Lemma NewIL_ok : il_ok NewIL.
Proof. split; [constructor|]. intros id. simpl. rewrite elem_of_nil, lookup_empty. split; [done|by intros [? ?]]. Qed.

Lemma IL_Add_ok l id x : il_ok l -> il_ok (IL_Add l id x).
Proof.
  intros [Hn Hd]. unfold IL_Add, IL_Find. destruct (object_dict_ l !! id) as [y|] eqn:E; split; simpl.
  - done.
  - intros j. rewrite Hd. destruct (decide (j = id)) as [->|Hne]; [rewrite E, lookup_insert_eq; split; by eexists|].
    by rewrite lookup_insert_ne.
  - apply NoDup_app. split; [done|]. split; [|apply NoDup_singleton]. intros j Hj ->%list_elem_of_singleton.
    apply Hd in Hj as [? ?]. congruence.
  - intros j. rewrite elem_of_app, list_elem_of_singleton, Hd. destruct (decide (j = id)) as [->|Hne].
    + rewrite lookup_insert_eq. split; [by eexists|by right].
    + rewrite lookup_insert_ne by done. naive_solver.
Qed.

Lemma IL_Modify_ok l id f : il_ok l -> il_ok (IL_Modify l id f).
Proof.
  intros [Hn Hd]. split; [done|]. intros j. simpl. rewrite Hd. destruct (decide (j = id)) as [->|Hne].
  - rewrite lookup_alter_eq. by rewrite fmap_is_Some.
  - by rewrite lookup_alter_ne.
Qed.

Lemma IL_Find_Add l id x j : IL_Find (IL_Add l id x) j = if decide (j = id) then Some x else IL_Find l j.
Proof.
  unfold IL_Add. assert (<[id:=x]> (object_dict_ l) !! j = if decide (j = id) then Some x else object_dict_ l !! j) as E.
  { destruct (decide (j = id)) as [->|Hne]; [apply lookup_insert_eq|by apply lookup_insert_ne]. }
  destruct (IL_Find l id); exact E.
Qed.

(** A copy has the same entries; only their order is that of the hash table. *)
Lemma IL_Assign_spec l : il_ok l ->
  il_ok (IL_Assign l) /\ (forall id, IL_Find (IL_Assign l) id = IL_Find l id) /\ Permutation (object_list_ (IL_Assign l)) (object_list_ l).
Proof.
  intros Hok.
  assert (forall kvs a, il_ok a -> NoDup kvs.*1 -> (forall k, k ∈ kvs.*1 -> IL_Find a k = None) ->
    let a' := foldl (fun l kv => IL_Add l kv.1 kv.2) a kvs in
    il_ok a' /\ forall k, IL_Find a' k = match (list_to_map kvs : gmap I T) !! k with Some x => Some x | None => IL_Find a k end) as HG.
  { induction kvs as [|[k x] kvs IH]; intros a Ha Hnd Hfree; simpl; [split; [done|]; intros k; by rewrite lookup_empty|].
    apply NoDup_cons in Hnd as [Hk Hnd]. destruct (IH (IL_Add a k x)) as [Hok' Hf]; [by apply IL_Add_ok|done| |].
    - intros j Hj. rewrite IL_Find_Add, decide_False by (by intros ->). apply Hfree. by right.
    - split; [done|]. intros j. rewrite Hf, IL_Find_Add. destruct (decide (j = k)) as [->|Hne].
      + rewrite lookup_insert_eq, not_elem_of_list_to_map_1 by done. done.
      + by rewrite lookup_insert_ne by done. }
  destruct (HG (iter (object_dict_ l)) NewIL NewIL_ok) as [Ha Hf].
  - rewrite (iter_perm (object_dict_ l)). apply NoDup_fst_map_to_list.
  - intros k _. apply lookup_empty.
  - fold (IL_Assign l) in Ha, Hf. assert (forall id, IL_Find (IL_Assign l) id = IL_Find l id) as Hfind.
    { intros id. rewrite Hf. assert (list_to_map (iter (object_dict_ l)) = object_dict_ l) as ->.
      { rewrite <- (list_to_map_to_list (object_dict_ l)) at 2. apply list_to_map_proper; [|apply iter_perm].
        rewrite (iter_perm (object_dict_ l)). apply NoDup_fst_map_to_list. }
      unfold IL_Find. by destruct (object_dict_ l !! id). }
    split_and!; [done|done|]. destruct Ha as [Hn Hd], Hok as [Hn' Hd']. apply NoDup_Permutation; [done|done|].
    intros id. rewrite Hd, Hd'. specialize (Hfind id). unfold IL_Find in Hfind. by rewrite Hfind.
Qed.
End indexed_list.
Arguments IndexedList I {_ _} T.

(** ** IndexedQueue

    A unique_ptr may be null; then the id counts as absent.  The queue also holds
    the raw pointers, which nothing reads. *)

Section indexed_queue.
Context {I : Type} `{Countable I} {T : Type}.

Record IndexedQueue := mkIQ { capacity_ : Z; queue_ : list I; map_ : gmap I (option T) }.
Definition NewIQ (capacity : Z) : IndexedQueue := mkIQ capacity [] ∅.

Definition IQ_Find (q : IndexedQueue) (id : I) : option T := match map_ q !! id with Some p => p | None => None end.
Definition Latest (q : IndexedQueue) : option T := last (queue_ q) ≫= IQ_Find q.

Definition IQ_Add (q : IndexedQueue) (id : I) (ptr : option T) : bool * IndexedQueue :=
  match IQ_Find q id with
  | Some _ => (false, q)
  | None =>
      let q := if (0 <? capacity_ q) && (zlen (queue_ q) =? capacity_ q)
               then match queue_ q with
                    | front :: rest => mkIQ (capacity_ q) rest (delete front (map_ q))
                    | [] => q
                    end
               else q in
      (true, mkIQ (capacity_ q) (queue_ q ++ [id]) (<[id := ptr]> (map_ q)))
  end.

Definition IQ_Clear (q : IndexedQueue) : IndexedQueue := mkIQ 0 [] ∅.

(** The entries, oldest first. *)
Record iq_rep (q : IndexedQueue) (c : Z) (l : list (I * T)) : Prop := mkIQRep {
  iq_capacity : capacity_ q = c;
  iq_queue : queue_ q = l.*1;
  iq_nodup : NoDup l.*1;
  iq_map : forall id, map_ q !! id = Some <$> (list_to_map l : gmap I T) !! id
}.

Definition spec_add (c : Z) (l : list (I * T)) (x : I * T) : list (I * T) :=
  if bool_decide (x.1 ∈ l.*1) then l
  else (if (0 <? c) && (zlen l =? c) then tail l else l) ++ [x].

Lemma IQ_Find_rep q c l id : iq_rep q c l -> IQ_Find q id = (list_to_map l : gmap I T) !! id.
Proof. intros [_ _ _ Hm]. unfold IQ_Find. rewrite Hm. by destruct (_ !! id). Qed.

Lemma list_to_map_snoc_lookup (l : list (I * T)) k x j : k ∉ l.*1 ->
  (list_to_map (l ++ [(k, x)]) : gmap I T) !! j = if decide (j = k) then Some x else (list_to_map l : gmap I T) !! j.
Proof.
  intros Hk. rewrite list_to_map_app, lookup_union.
  change (list_to_map [(k, x)] : gmap I T) with (<[k := x]> ∅ : gmap I T). destruct (decide (j = k)) as [->|Hne].
  - by rewrite not_elem_of_list_to_map_1, lookup_insert_eq.
  - rewrite lookup_insert_ne, lookup_empty by done. by destruct (_ !! j).
Qed.

Lemma IQ_Add_rep q c l id x : iq_rep q c l ->
  let r := IQ_Add q id (Some x) in
  r.1 = negb (bool_decide (id ∈ l.*1)) /\ iq_rep r.2 c (spec_add c l (id, x)).
Proof.
  intros Hr. pose proof (IQ_Find_rep q c l id Hr) as Hf. pose proof Hr as [Hc Hq Hn Hm]. unfold IQ_Add, spec_add. rewrite Hf. cbn [fst].
  destruct (list_to_map l !! id) as [y|] eqn:E.
  - apply elem_of_list_to_map_2 in E. rewrite bool_decide_true; [done|]. apply list_elem_of_fmap. by exists (id, y).
  - rewrite <- not_elem_of_list_to_map in E. rewrite (bool_decide_false (id ∈ l.*1)) by done. split; [done|].
    assert (zlen (queue_ q) = zlen l) as El by (unfold zlen; by rewrite Hq, length_fmap).
    rewrite Hc, El. destruct ((0 <? c) && (zlen l =? c)).
    + destruct l as [|[k y] l]; rewrite Hq; simpl.
      * constructor; simpl; [done|by rewrite Hq|apply NoDup_singleton|]. intros j. destruct (decide (j = id)) as [->|Hne]; [by rewrite !lookup_insert_eq|]. rewrite !lookup_insert_ne by done. by rewrite Hm.
      * simpl in Hn, E. rewrite elem_of_cons in E. apply NoDup_cons in Hn as [Hk Hn].
        constructor; simpl; [done|by rewrite fmap_app| |].
        -- rewrite fmap_app. apply NoDup_app. split; [done|]. split; [|apply NoDup_singleton].
           intros j Hj ->%list_elem_of_singleton. naive_solver.
        -- intros j. rewrite list_to_map_snoc_lookup by naive_solver.
           destruct (decide (j = id)) as [->|Hne]; [by rewrite lookup_insert_eq|]. rewrite lookup_insert_ne by done.
           destruct (decide (j = k)) as [->|Hk']; [by rewrite lookup_delete_eq, not_elem_of_list_to_map_1|].
           rewrite lookup_delete_ne, Hm by done. simpl. by rewrite lookup_insert_ne.
    + constructor; simpl; [done|by rewrite Hq, fmap_app| |].
      * rewrite fmap_app. apply NoDup_app. split; [done|]. split; [|apply NoDup_singleton].
        intros j Hj ->%list_elem_of_singleton. done.
      * intros j. rewrite list_to_map_snoc_lookup by done.
        destruct (decide (j = id)) as [->|Hne]; [by rewrite lookup_insert_eq|]. by rewrite lookup_insert_ne, Hm.
Qed.

Lemma NewIQ_rep c : iq_rep (NewIQ c) c [].
Proof. constructor; simpl; try done. apply NoDup_nil_2. Qed.

Definition add_all (q : IndexedQueue) (xs : list (I * T)) : IndexedQueue :=
  foldl (fun q x => (IQ_Add q x.1 (Some x.2)).2) q xs.

Lemma add_all_rep xs : forall q c l, iq_rep q c l -> iq_rep (add_all q xs) c (foldl (spec_add c) l xs).
Proof.
  induction xs as [|[id x] xs IH]; intros q c l Hr; [done|]. apply IH. by apply (IQ_Add_rep q c l id x).
Qed.

(** With new ids only the newest entries stay. *)
Lemma spec_add_newest c xs : 0 < c -> NoDup xs.*1 ->
  foldl (spec_add c) [] xs = drop (length xs - Z.to_nat c) xs.
Proof.
  intros Hc. induction xs as [|x xs IH] using rev_ind; intros Hn; [by rewrite drop_nil|].
  rewrite fmap_app in Hn. apply NoDup_app in Hn as (Hn & Hd & _). rewrite foldl_app. simpl. rewrite (IH Hn). unfold spec_add.
  set (k := (length xs - Z.to_nat c)%nat).
  rewrite bool_decide_false; [|intros Hin; rewrite fmap_drop in Hin; apply (Hd x.1); [by eapply subseteq_drop|left]].
  rewrite length_app. simpl. unfold zlen. rewrite length_drop. destruct (Z.ltb_spec 0 c); [|lia]. cbn [andb].
  destruct (Z.eqb_spec (Z.of_nat (length xs - k)) c) as [E|E].
  - replace (length xs + 1 - Z.to_nat c)%nat with (S k) by lia. rewrite drop_app_le by lia.
    rewrite <- Nat.add_1_r, <- drop_drop. by destruct (drop k xs).
  - replace (length xs + 1 - Z.to_nat c)%nat with k by lia. by rewrite drop_app_le by lia.
Qed.

(** Without a bound all of them stay. *)
Lemma spec_add_all xs : NoDup xs.*1 -> foldl (spec_add 0) [] xs = xs.
Proof.
  induction xs as [|x xs IH] using rev_ind; intros Hn; [done|]. rewrite fmap_app in Hn. apply NoDup_app in Hn as (Hn & Hd & _).
  rewrite foldl_app. simpl. rewrite (IH Hn). unfold spec_add. rewrite bool_decide_false; [done|]. intros Hin. apply (Hd x.1 Hin). left.
Qed.

(** Only the values of the last ids can be found. *)
Lemma rep_find_iff q c l id x : iq_rep q c l -> IQ_Find q id = Some x <-> (id, x) ∈ l.
Proof.
  intros Hr. rewrite (IQ_Find_rep q c l id Hr). split; [apply elem_of_list_to_map_2|]. apply elem_of_list_to_map_1, (iq_nodup _ _ _ Hr).
Qed.
End indexed_queue.
Arguments IndexedQueue I {_ _} T.

(** The history of frames holds the newest frames: after frames with different
    sequence numbers were added to a queue of capacity c, exactly the last c of
    them are found by their numbers, Latest is the last one, and a number that is
    still present is refused and changes nothing. *)
Theorem history_keeps_the_newest {I} `{Countable I} {T} c (xs : list (I * T)) :
  0 < c -> NoDup xs.*1 ->
  let q := add_all (NewIQ c) xs in
  let kept := drop (length xs - Z.to_nat c) xs in
  queue_ q = kept.*1 /\ (forall id x, IQ_Find q id = Some x <-> (id, x) ∈ kept) /\
  Latest q = snd <$> last xs /\ (forall id x y, (id, y) ∈ kept -> IQ_Add q id (Some x) = (false, q)).
Proof.
  intros Hc Hn q kept. pose proof (add_all_rep xs _ c [] (NewIQ_rep c)) as Hr. fold q in Hr. rewrite (spec_add_newest c xs Hc Hn) in Hr.
  fold kept in Hr. split_and!.
  - apply (iq_queue _ _ _ Hr).
  - intros id x. apply (rep_find_iff q c kept id x Hr).
  - unfold Latest. rewrite (iq_queue _ _ _ Hr). destruct xs as [|x xs _] using rev_ind; [done|].
    assert (kept = drop (length (xs ++ [x]) - Z.to_nat c) xs ++ [x]) as Ek.
    { unfold kept. rewrite drop_app_le; [done|]. rewrite length_app. simpl. lia. }
    rewrite Ek, fmap_app. cbn [fmap list_fmap]. rewrite !last_snoc. simpl. apply (rep_find_iff q c kept _ _ Hr). rewrite Ek. apply elem_of_app. right. destruct x. left.
  - intros id x y Hy. unfold IQ_Add. by rewrite (proj2 (rep_find_iff q c kept id y Hr) Hy).
Qed.

Lemma history_keeps_the_newest_witness :
  let q := add_all (NewIQ 2) [(7, "a"); (8, "b"); (9, "c")]%string in
  queue_ q = [8; 9] /\ Latest q = Some "c"%string /\ IQ_Find q 8 = Some "b"%string.
Proof.
  cbv zeta. destruct (history_keeps_the_newest 2 [(7, "a"); (8, "b"); (9, "c")]%string) as (Hq & Hf & Hl & _); [lia| |].
  - simpl. repeat constructor; rewrite ?elem_of_cons, ?elem_of_nil; lia.
  - split; [exact Hq|]. split; [exact Hl|]. apply Hf. simpl. left.
Defined.

(** Clear also removes the bound: afterwards every frame is kept. *)
Theorem cleared_history_is_unbounded {I} `{Countable I} {T} (q : IndexedQueue I T) (xs : list (I * T)) :
  NoDup xs.*1 -> queue_ (add_all (IQ_Clear q) xs) = xs.*1.
Proof.
  intros Hn. pose proof (add_all_rep xs (IQ_Clear q) 0 [] (NewIQ_rep 0)) as Hr. rewrite (spec_add_all xs Hn) in Hr. apply (iq_queue _ _ _ Hr).
Qed.
