(* ===== verification/Double.v ===== *)
(** Double.v -- doubles

    What the sources under modules/ use of double: comparisons, absolute values,
    minima and maxima, and the four operations.  A double is a rational number
    here, and arithmetic is exact: rounding, overflow and NaN are left out.
    Infinity, where the source uses it, is [None] of an option. *)

From S2P Require Import Prelude.
From Stdlib Require Export QArith Lqa.

Notation double := Q.

Definition dlt (a b : double) : bool := negb (Qle_bool b a).
Definition dle (a b : double) : bool := Qle_bool a b.
Definition fabs (a : double) : double := if dlt a 0 then Qopp a else a.
Definition dmin (a b : double) : double := if dlt b a then b else a.
Definition dmax (a b : double) : double := if dlt a b then b else a.
Definition DBL_MAX : double := inject_Z ((2 ^ 53 - 1) * 2 ^ 971).

Section comparisons.
Local Open Scope Q_scope.

Lemma dlt_spec a b : reflect (a < b) (dlt a b).
Proof.
  unfold dlt. destruct (Qle_bool b a) eqn:E; constructor.
  - apply Qle_bool_iff in E. by apply Qle_not_lt.
  - apply Qnot_le_lt. intros Hle%Qle_bool_iff. congruence.
Qed.
Lemma dle_spec a b : reflect (a <= b) (dle a b).
Proof. unfold dle. destruct (Qle_bool a b) eqn:E; constructor; rewrite <- Qle_bool_iff, E; done. Qed.

Lemma dlt_true a b : dlt a b = true <-> a < b.
Proof. destruct (dlt_spec a b); split; done. Qed.
Lemma dlt_false a b : dlt a b = false <-> b <= a.
Proof. destruct (dlt_spec a b); split; try done; intros; [lra|]. by apply Qnot_lt_le. Qed.
Lemma dle_true a b : dle a b = true <-> a <= b.
Proof. destruct (dle_spec a b); split; done. Qed.
Lemma dle_false a b : dle a b = false <-> b < a.
Proof. destruct (dle_spec a b); split; try done; intros; [lra|]. by apply Qnot_le_lt. Qed.
End comparisons.

#[export] Instance dlt_proper : Proper (Qeq ==> Qeq ==> eq) dlt.
Proof. intros a a' Ha b b' Hb. unfold dlt. by rewrite Ha, Hb. Qed.
#[export] Instance dle_proper : Proper (Qeq ==> Qeq ==> eq) dle.
Proof. intros a a' Ha b b' Hb. unfold dle. by rewrite Ha, Hb. Qed.

(** Replaces every comparison in sight by the inequality it decides; [dcase] also
    splits on the comparisons the goal branches on. *)
Ltac dsimp :=
  repeat match goal with
  | H : dlt _ _ = true |- _ => apply dlt_true in H
  | H : dlt _ _ = false |- _ => apply dlt_false in H
  | H : dle _ _ = true |- _ => apply dle_true in H
  | H : dle _ _ = false |- _ => apply dle_false in H
  | H : ~ (_ < _)%Q |- _ => apply Qnot_lt_le in H
  | H : ~ (_ <= _)%Q |- _ => apply Qnot_le_lt in H
  | |- dlt _ _ = true => apply dlt_true
  | |- dlt _ _ = false => apply dlt_false
  | |- dle _ _ = true => apply dle_true
  | |- dle _ _ = false => apply dle_false
  end.
Ltac dcase :=
  unfold dmin, dmax, fabs, Qdiv in *; change (/ 2)%Q with (1 # 2) in *;
  repeat match goal with
  | |- context [dlt ?a ?b] => destruct (dlt a b) eqn:?; dsimp
  | |- context [dle ?a ?b] => destruct (dle a b) eqn:?; dsimp
  | H : context [dlt ?a ?b] |- _ => destruct (dlt a b) eqn:?; dsimp
  | H : context [dle ?a ?b] |- _ => destruct (dle a b) eqn:?; dsimp
  end; dsimp.

(** lra does not know division by a constant. *)
Ltac dlra := unfold Qdiv in *; change (/ 2)%Q with (1 # 2) in *; lra.

Section bounds.
Local Open Scope Q_scope.

Lemma dmin_l a b : dmin a b <= a.
Proof. dcase; lra. Qed.
Lemma dmin_r a b : dmin a b <= b.
Proof. dcase; lra. Qed.
Lemma dmax_l a b : a <= dmax a b.
Proof. dcase; lra. Qed.
Lemma dmax_r a b : b <= dmax a b.
Proof. dcase; lra. Qed.
Lemma fabs_le a b : fabs a <= b <-> - b <= a /\ a <= b.
Proof. dcase; split; intros; lra. Qed.
Lemma Qsq_nonneg (a : Q) : 0 <= a * a.
Proof. destruct (Qlt_le_dec a 0); nra. Qed.
Lemma Qsq_le (a b : Q) : 0 <= a -> a <= b -> a * a <= b * b.
Proof. nra. Qed.
Lemma Qsq_le_neg (a b : Q) : a <= 0 -> b <= a -> a * a <= b * b.
Proof. nra. Qed.
Lemma Qsq_abs_le (a b : Q) : - b <= a -> a <= b -> a * a <= b * b.
Proof. intros. destruct (Qlt_le_dec a 0); nra. Qed.
Lemma Qsq_opp_le (a b : Q) : b <= a -> a <= - b -> a * a <= b * b.
Proof. intros. destruct (Qlt_le_dec a 0); nra. Qed.
Lemma Qsq_lt_inv (a b : Q) : 0 <= a -> 0 <= b -> a * a <= b * b -> a <= b.
Proof. intros Ha Hb H. destruct (Qlt_le_dec b a); nra. Qed.
End bounds.
#[export] Hint Resolve dmin_l dmin_r dmax_l dmax_r Qsq_nonneg : cyber.
