(* ===== verification/Decision.v ===== *)
(** Decision.v -- what the planner has decided about the obstacles on a path

    - src/src/apollo/modules/planning/common/obstacle.cc: the decisions of an obstacle
    - src/src/apollo/modules/planning/common/path_decision.{h,cc}

    A double is a rational here: the code below only compares doubles and takes
    their absolute value, which is exact, and the values are numbers (not NaN).
    What reference_line.XYToSL computes and the position of the car's front are
    arguments of MergeWithMainStop.  [None] is a failed CHECK, which ends the
    process; DCHECK is compiled in when [debug] is set. *)

From S2P Require Import Prelude.
From S2P Require Import Unordered.
From S2P Require Import Indexed.
From S2P Require Import Double.
Local Open Scope Z_scope.

Section decision.
(** The other fields of the messages. *)
Context {P : Type}.

Inductive NudgeType := LEFT_NUDGE | RIGHT_NUDGE | NO_NUDGE.
#[export] Instance nudge_eq : EqDecision NudgeType.
Proof. solve_decision. Defined.

(** ObjectDecisionType by its object_tag_case(). *)
Inductive ObjectDecisionType :=
| OBJECT_TAG_NOT_SET
| kIgnore (p : P)
| kStop (distance_s : double) (p : P)
| kFollow (distance_s : double) (p : P)
| kYield (distance_s : double) (p : P)
| kOvertake (distance_s : double) (p : P)
| kNudge (type : NudgeType) (distance_l : double) (p : P)
| kAvoid (p : P).

Definition longitudinal_sorter (d : ObjectDecisionType) : option Z :=
  match d with
  | kIgnore _ => Some 0 | kOvertake _ _ => Some 100 | kFollow _ _ => Some 300
  | kYield _ _ => Some 400 | kStop _ _ => Some 500 | _ => None
  end.
Definition lateral_sorter (d : ObjectDecisionType) : option Z :=
  match d with kIgnore _ => Some 0 | kNudge _ _ _ => Some 100 | _ => None end.

Definition IsLateralDecision (d : ObjectDecisionType) : bool :=
  match d with kIgnore _ | kNudge _ _ _ => true | _ => false end.
Definition IsLongitudinalDecision (d : ObjectDecisionType) : bool :=
  match d with kIgnore _ | kStop _ _ | kYield _ _ | kFollow _ _ | kOvertake _ _ => true | _ => false end.

Definition MergeLongitudinalDecision (debug : bool) (lhs rhs : ObjectDecisionType) : option ObjectDecisionType :=
  match lhs, rhs with
  | OBJECT_TAG_NOT_SET, _ => Some rhs
  | _, OBJECT_TAG_NOT_SET => Some lhs
  | _, _ =>
      match longitudinal_sorter lhs, longitudinal_sorter rhs with
      | Some lhs_val, Some rhs_val =>
          if lhs_val <? rhs_val then Some rhs
          else if rhs_val <? lhs_val then Some lhs
          else match lhs, rhs with
          | kIgnore _, _ => Some rhs
          | kStop l _, kStop r _ | kYield l _, kYield r _ | kFollow l _, kFollow r _ => Some (if dlt l r then lhs else rhs)
          | kOvertake l _, kOvertake r _ => Some (if dlt r l then lhs else rhs)
          | _, _ => if debug then None else Some lhs
          end
      | _, _ => None
      end
  end.

Definition MergeLateralDecision (debug : bool) (lhs rhs : ObjectDecisionType) : option ObjectDecisionType :=
  match lhs, rhs with
  | OBJECT_TAG_NOT_SET, _ => Some rhs
  | _, OBJECT_TAG_NOT_SET => Some lhs
  | _, _ =>
      match lateral_sorter lhs, lateral_sorter rhs with
      | Some lhs_val, Some rhs_val =>
          if lhs_val <? rhs_val then Some rhs
          else if rhs_val <? lhs_val then Some lhs
          else match lhs, rhs with
          | kIgnore _, _ => Some rhs
          | kNudge lt l _, kNudge rt r _ =>
              if debug && negb (bool_decide (lt = rt)) then None
              else Some (if dlt (fabs r) (fabs l) then lhs else rhs)
          | _, _ => if debug then None else Some lhs
          end
      | _, _ => None
      end
  end.

(** ** Obstacle *)

Record Obstacle := mkObstacle {
  id_ : string;
  longitudinal_decision_ : ObjectDecisionType;
  lateral_decision_ : ObjectDecisionType;
  decisions_ : list ObjectDecisionType;
  decider_tags_ : list string
}.
Definition NewObstacle (id : string) : Obstacle := mkObstacle id OBJECT_TAG_NOT_SET OBJECT_TAG_NOT_SET [] [].

Definition AddLongitudinalDecision (debug : bool) (decider_tag : string) (decision : ObjectDecisionType) (o : Obstacle) : option Obstacle :=
  if debug && negb (IsLongitudinalDecision decision) then None
  else match MergeLongitudinalDecision debug (longitudinal_decision_ o) decision with
  | Some d => Some (mkObstacle (id_ o) d (lateral_decision_ o) (decisions_ o ++ [decision]) (decider_tags_ o ++ [decider_tag]))
  | None => None
  end.

Definition AddLateralDecision (debug : bool) (decider_tag : string) (decision : ObjectDecisionType) (o : Obstacle) : option Obstacle :=
  if debug && negb (IsLateralDecision decision) then None
  else match MergeLateralDecision debug (lateral_decision_ o) decision with
  | Some d => Some (mkObstacle (id_ o) (longitudinal_decision_ o) d (decisions_ o ++ [decision]) (decider_tags_ o ++ [decider_tag]))
  | None => None
  end.

Definition has_ignore (d : ObjectDecisionType) : bool := match d with kIgnore _ => true | _ => false end.
Definition is_set (d : ObjectDecisionType) : bool := match d with OBJECT_TAG_NOT_SET => false | _ => true end.
Definition IsLongitudinalIgnore (o : Obstacle) : bool := has_ignore (longitudinal_decision_ o).
Definition IsLateralIgnore (o : Obstacle) : bool := has_ignore (lateral_decision_ o).
Definition IsIgnore (o : Obstacle) : bool := IsLongitudinalIgnore o && IsLateralIgnore o.
Definition HasLateralDecision (o : Obstacle) : bool := is_set (lateral_decision_ o).
Definition HasLongitudinalDecision (o : Obstacle) : bool := is_set (longitudinal_decision_ o).
Definition HasNonIgnoreDecision (o : Obstacle) : bool :=
  (HasLateralDecision o && negb (IsLateralIgnore o)) || (HasLongitudinalDecision o && negb (IsLongitudinalIgnore o)).

(** ** PathDecision *)

Record ObjectStop := mkStop { reason_code : Z; stop_point : P; stop_heading : double }.
Record MainStop := mkMainStop { main_reason_code : Z; main_reason : string; main_stop_point : P; main_stop_heading : double }.

Record PathDecision := mkPath {
  obstacles_ : IndexedList string Obstacle;
  main_stop_ : option MainStop;
  stop_reference_line_s_ : double
}.
Definition NewPath : PathDecision := mkPath NewIL None DBL_MAX.

Definition AddObstacle (p : PathDecision) (o : Obstacle) : PathDecision :=
  mkPath (IL_Add (obstacles_ p) (id_ o) o) (main_stop_ p) (stop_reference_line_s_ p).

(** Both Add*Decision functions: find the obstacle and add the decision to it. *)
Definition on_obstacle (f : Obstacle -> option Obstacle) (p : PathDecision) (object_id : string) : option (bool * PathDecision) :=
  match IL_Find (obstacles_ p) object_id with
  | None => Some (false, p)
  | Some o =>
      match f o with
      | Some o' => Some (true, mkPath (IL_Modify (obstacles_ p) object_id (fun _ => o')) (main_stop_ p) (stop_reference_line_s_ p))
      | None => None
      end
  end.
Definition Path_AddLateralDecision (debug : bool) (p : PathDecision) (tag object_id : string) (d : ObjectDecisionType) :=
  on_obstacle (AddLateralDecision debug tag d) p object_id.
Definition Path_AddLongitudinalDecision (debug : bool) (p : PathDecision) (tag object_id : string) (d : ObjectDecisionType) :=
  on_obstacle (AddLongitudinalDecision debug tag d) p object_id.

(** [stop_line_s] is the result of XYToSL, [adc_front_s] the position of the front
    of the car. *)
Definition MergeWithMainStop (p : PathDecision) (obj_stop : ObjectStop) (obj_id : string)
    (stop_line_s reference_line_length adc_front_s : double) : bool * PathDecision :=
  if dlt stop_line_s 0 || dlt reference_line_length stop_line_s then (false, p)
  else
    let stop_line_s := if dlt stop_line_s adc_front_s then adc_front_s else stop_line_s in
    if Qle_bool (stop_reference_line_s_ p) stop_line_s then (false, p)
    else (true, mkPath (obstacles_ p)
            (Some (mkMainStop (reason_code obj_stop) (String.append "stop by " obj_id) (stop_point obj_stop) (stop_heading obj_stop)))
            stop_line_s).
End decision.
Arguments ObjectDecisionType P : clear implicits.
Arguments Obstacle P : clear implicits.
Arguments PathDecision P : clear implicits.

(** ** Comparisons *)

(** ** Merging keeps the best *)

Section best.
Context {D : Type} (merge : D -> D -> option D) (unset : D) (good : D -> Prop) (better : D -> D -> Prop).
Hypothesis merge_unset : forall d, merge unset d = Some d.
Hypothesis merge_good : forall a b, good a -> good b -> exists c, merge a b = Some c /\ (c = a \/ c = b) /\ better c a /\ better c b.
Hypothesis better_refl : forall d, better d d.
Hypothesis better_trans : forall a b c, better a b -> better b c -> better a c.

Definition best_of (ds : list D) (d : D) : Prop :=
  match ds with [] => d = unset | _ => d ∈ ds /\ forall d', d' ∈ ds -> better d d' end.

Lemma best_snoc ds d x : Forall good ds -> good x -> best_of ds d ->
  exists c, merge d x = Some c /\ best_of (ds ++ [x]) c.
Proof.
  intros Hg Hx Hb. destruct ds as [|d0 ds].
  - simpl in Hb. subst d. exists x. split; [done|]. simpl. split; [left|]. intros d' ->%list_elem_of_singleton. done.
  - destruct Hb as [Hd Hb]. rewrite Forall_forall in Hg.
    destruct (merge_good d x (Hg d Hd) Hx) as (c & Ec & Hc & Hcd & Hcx). exists c. split; [done|].
    change (c ∈ (d0 :: ds) ++ [x] /\ forall d', d' ∈ (d0 :: ds) ++ [x] -> better c d'). split.
    + apply elem_of_app. destruct Hc as [->| ->]; [by left|right; left].
    + intros d' [Hd'|Hd'%list_elem_of_singleton]%elem_of_app; [by eapply better_trans; [exact Hcd|apply Hb]|by subst d'].
Qed.
End best.

Section safety.
Context {P : Type}.
Implicit Types d : ObjectDecisionType P.

(** How safe a longitudinal decision is: by its kind, then by its distance; the
    nearest stop, the smallest distance kept, the largest distance when
    overtaking. *)
Definition lon_rank d : Z := default (-1) (longitudinal_sorter d).
Definition lon_tie d : double :=
  match d with kStop l _ | kYield l _ | kFollow l _ => Qopp l | kOvertake l _ => l | _ => 0%Q end.
Definition lon_safer d d' : Prop := lon_rank d' < lon_rank d \/ (lon_rank d' = lon_rank d /\ (lon_tie d' <= lon_tie d)%Q).

(** And a lateral one: a nudge is safer than to ignore, a wider one safer still. *)
Definition lat_rank d : Z := default (-1) (lateral_sorter d).
Definition lat_tie d : double := match d with kNudge _ l _ => fabs l | _ => 0%Q end.
Definition lat_safer d d' : Prop := lat_rank d' < lat_rank d \/ (lat_rank d' = lat_rank d /\ (lat_tie d' <= lat_tie d)%Q).

Lemma lon_safer_refl d : lon_safer d d.
Proof. right. split; [done|apply Qle_refl]. Qed.
Lemma lat_safer_refl d : lat_safer d d.
Proof. right. split; [done|apply Qle_refl]. Qed.
Lemma lon_safer_trans a b c : lon_safer a b -> lon_safer b c -> lon_safer a c.
Proof. intros [?|[? ?]] [?|[? ?]]; [left; lia|left; lia|left; lia|right; split; [lia|by eapply Qle_trans]]. Qed.
Lemma lat_safer_trans a b c : lat_safer a b -> lat_safer b c -> lat_safer a c.
Proof. intros [?|[? ?]] [?|[? ?]]; [left; lia|left; lia|left; lia|right; split; [lia|by eapply Qle_trans]]. Qed.

Definition lon_good d : Prop := IsLongitudinalDecision d = true.
(** In a debug build the nudges of an obstacle must be to one side. *)
Definition lat_good (debug : bool) (t : NudgeType) d : Prop :=
  match d with kIgnore _ => True | kNudge t' _ _ => debug = true -> t' = t | _ => False end.

(** Pick a side of a comparison and close the two order goals. *)
Ltac pick_side :=
  match goal with |- context [Some (if dlt ?a ?b then _ else _)] => destruct (dlt_spec a b) as [Hlt|Hlt%Qnot_lt_le]; [apply Qlt_le_weak in Hlt|] end;
  (eexists; split; [reflexivity|]; split; [first [by left|by right]|]; split;
    (right; split; [reflexivity|]; simpl; first [apply Qle_refl | by apply Qopp_le_compat | done])).

Lemma lon_merge_good debug a b : lon_good a -> lon_good b ->
  exists c, MergeLongitudinalDecision debug a b = Some c /\ (c = a \/ c = b) /\ lon_safer c a /\ lon_safer c b.
Proof.
  unfold lon_good. intros Ha Hb. destruct a; try done; destruct b; try done; unfold MergeLongitudinalDecision; simpl;
    try (eexists; (split; [reflexivity|]); (split; [first [by left|by right]|]); split; first [by left | by apply lon_safer_refl | right; split; [reflexivity|apply Qle_refl]]);
    pick_side.
Qed.

Lemma lat_merge_good debug t a b : lat_good debug t a -> lat_good debug t b ->
  exists c, MergeLateralDecision debug a b = Some c /\ (c = a \/ c = b) /\ lat_safer c a /\ lat_safer c b.
Proof.
  intros Ha Hb. destruct a as [| | | | | |ta la pa|]; try done; destruct b as [| | | | | |tb lb pb|]; try done; unfold MergeLateralDecision; simpl in *;
    try (eexists; (split; [reflexivity|]); (split; [first [by left|by right]|]); split; first [by left | by apply lat_safer_refl | right; split; [reflexivity|apply Qle_refl]]).
  assert (debug && negb (bool_decide (ta = tb)) = false) as ->.
  { destruct debug; [|done]. rewrite (Ha eq_refl), (Hb eq_refl). by rewrite bool_decide_true. }
  pick_side.
Qed.
End safety.

(** ** Decisions on a path *)

Section path.
Context {P : Type}.

Inductive DecisionOp :=
| Longitudinal (tag object_id : string) (d : ObjectDecisionType P)
| Lateral (tag object_id : string) (d : ObjectDecisionType P).

Definition exec_decision (debug : bool) (p : PathDecision P) (op : DecisionOp) : option (PathDecision P) :=
  match op with
  | Longitudinal tag id d => snd <$> Path_AddLongitudinalDecision debug p tag id d
  | Lateral tag id d => snd <$> Path_AddLateralDecision debug p tag id d
  end.
Fixpoint run_decisions (debug : bool) (p : PathDecision P) (ops : list DecisionOp) : option (PathDecision P) :=
  match ops with
  | [] => Some p
  | op :: ops => match exec_decision debug p op with Some p => run_decisions debug p ops | None => None end
  end.

(** The decisions about one object. *)
Definition lon_of (id : string) (op : DecisionOp) : option (ObjectDecisionType P) :=
  match op with Longitudinal _ i d => if bool_decide (i = id) then Some d else None | _ => None end.
Definition lat_of (id : string) (op : DecisionOp) : option (ObjectDecisionType P) :=
  match op with Lateral _ i d => if bool_decide (i = id) then Some d else None | _ => None end.
Definition any_of (id : string) (op : DecisionOp) : option (ObjectDecisionType P) :=
  match op with Longitudinal _ i d | Lateral _ i d => if bool_decide (i = id) then Some d else None end.

Definition op_good (debug : bool) (side : string -> NudgeType) (op : DecisionOp) : Prop :=
  match op with Longitudinal _ _ d => lon_good d | Lateral _ i d => lat_good debug (side i) d end.

(** An obstacle after the decisions [ops]. *)
Record decided (id : string) (ops : list DecisionOp) (o : Obstacle P) : Prop := mkDecided {
  de_lon : best_of OBJECT_TAG_NOT_SET lon_safer (omap (lon_of id) ops) (longitudinal_decision_ o);
  de_lat : best_of OBJECT_TAG_NOT_SET lat_safer (omap (lat_of id) ops) (lateral_decision_ o);
  de_all : decisions_ o = omap (any_of id) ops
}.

Lemma omap_snoc {A B} (f : A -> option B) l x : omap f (l ++ [x]) = omap f l ++ option_list (f x).
Proof. rewrite omap_app. simpl. by destruct (f x). Qed.

Lemma decided_other id ops op o : any_of id op = None -> decided id ops o -> decided id (ops ++ [op]) o.
Proof.
  intros Hn [H1 H2 H3]. assert (lon_of id op = None /\ lat_of id op = None) as [E1 E2].
  { destruct op; simpl in *; by destruct (bool_decide _). }
  constructor; by rewrite omap_snoc, ?E1, ?E2, ?Hn, app_nil_r.
Qed.

Lemma good_lons debug side id ops : Forall (op_good debug side) ops -> Forall lon_good (omap (lon_of id) ops).
Proof.
  induction 1 as [|op ops Ho _ IH]; [constructor|]. simpl. destruct op as [tag i d|]; simpl in *; [|done].
  by destruct (bool_decide _); [constructor|].
Qed.
Lemma good_lats debug side id ops : Forall (op_good debug side) ops -> Forall (lat_good debug (side id)) (omap (lat_of id) ops).
Proof.
  induction 1 as [|op ops Ho _ IH]; [constructor|]. simpl. destruct op as [|tag i d]; simpl in *; [done|].
  destruct (bool_decide_reflect (i = id)) as [->|]; [by constructor|done].
Qed.

(** One decision about an obstacle. *)
Lemma lon_decided debug side id tag d ops o :
  Forall (op_good debug side) ops -> lon_good d -> decided id ops o ->
  exists o', AddLongitudinalDecision debug tag d o = Some o' /\ decided id (ops ++ [Longitudinal tag id d]) o'.
Proof.
  intros Hg Hd [H1 H2 H3]. unfold AddLongitudinalDecision. unfold lon_good in Hd. rewrite Hd, andb_false_r.
  destruct (best_snoc (MergeLongitudinalDecision debug) OBJECT_TAG_NOT_SET lon_good lon_safer (fun d => eq_refl)
    (lon_merge_good debug) lon_safer_refl lon_safer_trans _ _ d (good_lons debug side id ops Hg) Hd H1) as (c & -> & Hc).
  eexists. split; [done|]. constructor; rewrite omap_snoc; simpl; rewrite ?bool_decide_true by done; simpl; [done|by rewrite app_nil_r|by rewrite H3].
Qed.

Lemma lat_decided debug side id tag d ops o :
  Forall (op_good debug side) ops -> lat_good debug (side id) d -> decided id ops o ->
  exists o', AddLateralDecision debug tag d o = Some o' /\ decided id (ops ++ [Lateral tag id d]) o'.
Proof.
  intros Hg Hd [H1 H2 H3]. unfold AddLateralDecision.
  assert (IsLateralDecision d = true) as -> by (by destruct d). rewrite andb_false_r.
  destruct (best_snoc (MergeLateralDecision debug) OBJECT_TAG_NOT_SET (lat_good debug (side id)) lat_safer (fun d => eq_refl)
    (lat_merge_good debug (side id)) lat_safer_refl lat_safer_trans _ _ d (good_lats debug side id ops Hg) Hd H2) as (c & -> & Hc).
  eexists. split; [done|]. constructor; rewrite omap_snoc; simpl; rewrite ?bool_decide_true by done; simpl; [by rewrite app_nil_r|done|by rewrite H3].
Qed.

(** The obstacles of a path; the ids do not change. *)
Definition path_decided (ids : gset string) (ops : list DecisionOp) (p : PathDecision P) : Prop :=
  forall id, match IL_Find (obstacles_ p) id with
             | Some o => id ∈ ids /\ decided id ops o
             | None => id ∉ ids
             end.

Lemma on_obstacle_decided ids ops op i f p :
  (forall o, decided i ops o -> exists o', f o = Some o' /\ decided i (ops ++ [op]) o') ->
  (forall id, id <> i -> any_of id op = None) -> path_decided ids ops p ->
  exists r p', on_obstacle f p i = Some (r, p') /\ path_decided ids (ops ++ [op]) p'.
Proof.
  intros Hf Hother Hp. unfold on_obstacle. pose proof (Hp i) as Hi. destruct (IL_Find (obstacles_ p) i) as [o|] eqn:E.
  - destruct Hi as [Hin Ho]. destruct (Hf o Ho) as (o' & -> & Ho'). eexists _, _. split; [done|].
    intros id. simpl. unfold IL_Find, IL_Modify. simpl. specialize (Hp id). unfold IL_Find in Hp, E. destruct (decide (id = i)) as [->|Hne].
    + rewrite lookup_alter_eq, E. simpl. done.
    + rewrite lookup_alter_ne by done. destruct (object_dict_ (obstacles_ p) !! id) as [x|]; [|done].
      destruct Hp as [? ?]. split; [done|]. apply decided_other; [by apply Hother|done].
  - eexists _, _. split; [done|]. intros id. specialize (Hp id). destruct (decide (id = i)) as [->|Hne]; [by rewrite E in *|].
    destruct (IL_Find (obstacles_ p) id); [|done]. destruct Hp as [? ?]. split; [done|]. apply decided_other; [by apply Hother|done].
Qed.

Lemma exec_decided debug side ids ops op p :
  Forall (op_good debug side) ops -> op_good debug side op -> path_decided ids ops p ->
  exists p', exec_decision debug p op = Some p' /\ path_decided ids (ops ++ [op]) p'.
Proof.
  intros Hg Ho Hp. destruct op as [tag i d|tag i d]; simpl in *.
  - destruct (on_obstacle_decided ids ops (Longitudinal tag i d) i (AddLongitudinalDecision debug tag d) p) as (r & p' & E & Hp');
      [intros o; by eapply lon_decided|intros id Hne; simpl; by rewrite bool_decide_false|done|].
    exists p'. unfold Path_AddLongitudinalDecision. by rewrite E.
  - destruct (on_obstacle_decided ids ops (Lateral tag i d) i (AddLateralDecision debug tag d) p) as (r & p' & E & Hp');
      [intros o; by eapply lat_decided|intros id Hne; simpl; by rewrite bool_decide_false|done|].
    exists p'. unfold Path_AddLateralDecision. by rewrite E.
Qed.

(** A path with fresh obstacles. *)
Definition path_of (ids : list string) : PathDecision P := foldl AddObstacle NewPath (NewObstacle <$> ids).

Lemma path_of_find ids id : IL_Find (obstacles_ (path_of ids)) id = if decide (id ∈ ids) then Some (NewObstacle id) else None.
Proof.
  unfold path_of. induction ids as [|i ids IH] using rev_ind; [rewrite decide_False by apply not_elem_of_nil; done|].
  rewrite fmap_app, foldl_app. cbn [fmap list_fmap foldl AddObstacle obstacles_]. rewrite IL_Find_Add, IH. simpl id_.
  destruct (decide (id = i)) as [->|Hne].
  - rewrite decide_True; [done|]. apply elem_of_app. right. left.
  - destruct (decide (id ∈ ids ++ [i])) as [Hin|Hin]; rewrite elem_of_app, list_elem_of_singleton in Hin.
    + rewrite decide_True by naive_solver. done.
    + rewrite decide_False by naive_solver. done.
Qed.
End path.
Arguments DecisionOp P : clear implicits.

(** The planner keeps the safest decision: whatever longitudinal and lateral
    decisions are made about the obstacles of a path, in whatever order, the
    process does not fail, every obstacle records the decisions made about it, and
    its merged longitudinal (lateral) decision is one of those made about it that
    is at least as safe as all the others: stop before yield before follow before
    overtake before ignore, the shortest distance, the widest nudge.  (A debug
    build requires that the nudges of an obstacle are to one side.) *)
Theorem merged_decisions_are_safest {P} debug side (ids : list string) (ops : list (DecisionOp P)) :
  Forall (op_good debug side) ops ->
  exists p, run_decisions debug (path_of ids) ops = Some p /\
    forall id, match IL_Find (obstacles_ p) id with Some o => id ∈ ids /\ decided id ops o | None => id ∉ ids end.
Proof.
  intros Hg.
  assert (forall done p, Forall (op_good debug side) done -> path_decided (list_to_set ids) done p ->
    exists p', run_decisions debug p ops = Some p' /\ path_decided (list_to_set ids) (done ++ ops) p') as HG.
  { induction Hg as [|op ops Hop Hg IH]; intros dn p Hdn Hp; [exists p; by rewrite app_nil_r|].
    destruct (exec_decided debug side _ dn op p Hdn Hop Hp) as (p1 & E & Hp1).
    destruct (IH (dn ++ [op]) p1) as (p' & E' & Hp'); [apply Forall_app; by repeat constructor|done|].
    exists p'. simpl. rewrite E. rewrite <- app_assoc in Hp'. done. }
  destruct (HG [] (path_of ids)) as (p & E & Hp); [constructor| |].
  - intros id. rewrite path_of_find. destruct (decide (id ∈ ids)) as [Hin|Hin]; rewrite elem_of_list_to_set; [|done].
    split; [done|]. by constructor.
  - exists p. split; [done|]. intros id. specialize (Hp id). destruct (IL_Find (obstacles_ p) id); by rewrite elem_of_list_to_set in Hp.
Qed.

(** Two obstacles and four decisions. *)
Definition decision_demo : list (DecisionOp string) :=
  [Longitudinal "a" "1" (kFollow 10 "f"); Longitudinal "b" "1" (kStop 7 "s1"); Longitudinal "c" "2" (kIgnore "i");
   Longitudinal "d" "1" (kStop 5 "s2"); Lateral "e" "1" (kNudge LEFT_NUDGE (1 # 2) "n")]%string%Q.

Lemma merged_decisions_are_safest_witness :
  exists p, run_decisions true (path_of ["1"; "2"]%string) decision_demo = Some p /\
    forall o, IL_Find (obstacles_ p) "1"%string = Some o -> lon_safer (longitudinal_decision_ o) (kStop 5 "s2"%string).
Proof.
  destruct (merged_decisions_are_safest true (fun _ => LEFT_NUDGE) ["1"; "2"]%string decision_demo) as (p & E & Hp); [by repeat constructor|].
  exists p. split; [exact E|]. intros o Ho. specialize (Hp "1"%string). rewrite Ho in Hp. destruct Hp as [_ [Hd _ _]].
  apply Hd. simpl. right. right. left.
Defined.

(** ** The main stop *)

Record StopRequest {P} := mkRequest { rq_stop : @ObjectStop P; rq_id : string; rq_s : double; rq_length : double; rq_front : double }.
Arguments StopRequest P : clear implicits.

Definition exec_stop {P} (p : PathDecision P) (r : StopRequest P) : PathDecision P :=
  snd (MergeWithMainStop p (rq_stop r) (rq_id r) (rq_s r) (rq_length r) (rq_front r)).

(** Where a request that lies on the reference line lets the car stop: not behind its
    front. *)
Definition effective_s {P} (r : StopRequest P) : option double :=
  if dlt (rq_s r) 0 || dlt (rq_length r) (rq_s r) then None
  else Some (if dlt (rq_s r) (rq_front r) then rq_front r else rq_s r).

Definition main_stop_of {P} (r : StopRequest P) : MainStop :=
  mkMainStop (reason_code (rq_stop r)) (String.append "stop by " (rq_id r)) (stop_point (rq_stop r)) (stop_heading (rq_stop r)).

(** The main stop is the nearest stop: after any sequence of stop requests the
    main stop is that of the first request, among those on the reference line,
    with the smallest effective position, and stop_reference_line_s_ is that
    position; without such a request there is no main stop. *)
Theorem main_stop_is_nearest {P} (rs : list (StopRequest P)) :
  let p := foldl exec_stop NewPath rs in
  (forall r s, r ∈ rs -> effective_s r = Some s -> (stop_reference_line_s_ p <= s)%Q) /\
  ((main_stop_ p = None /\ stop_reference_line_s_ p = DBL_MAX) \/
   exists before r after, rs = before ++ r :: after /\ effective_s r = Some (stop_reference_line_s_ p) /\
     main_stop_ p = Some (main_stop_of r) /\ (stop_reference_line_s_ p < DBL_MAX)%Q /\
     forall r' s, r' ∈ before -> effective_s r' = Some s -> (stop_reference_line_s_ p < s)%Q).
Proof.
  cbv zeta. induction rs as [|r rs [IH1 IH2]] using rev_ind; [split; [by intros r s ?%elem_of_nil|by left]|].
  rewrite foldl_app. simpl. set (p := foldl exec_stop NewPath rs) in *.
  assert (exec_stop p r = p /\ (forall s, effective_s r = Some s -> (stop_reference_line_s_ p <= s)%Q) \/
    exists s, effective_s r = Some s /\ (s < stop_reference_line_s_ p)%Q /\ stop_reference_line_s_ (exec_stop p r) = s /\
      main_stop_ (exec_stop p r) = Some (main_stop_of r)) as [[-> Hle]|(s & Es & Hlt & E1 & E2)].
  { unfold exec_stop, MergeWithMainStop, effective_s. destruct (dlt (rq_s r) 0 || dlt (rq_length r) (rq_s r)); [by left|].
    set (s := if dlt (rq_s r) (rq_front r) then _ else _). destruct (Qle_bool (stop_reference_line_s_ p) s) eqn:E.
    - left. split; [done|]. intros s' [= <-]. by apply Qle_bool_iff.
    - right. exists s. split_and!; try done. apply Qnot_le_lt. intros Hle%Qle_bool_iff. congruence. }
  - split; [intros r' s [Hr|Hr%list_elem_of_singleton]%elem_of_app Es; [by eapply IH1|subst; by apply Hle]|].
    destruct IH2 as [H0|(bf & r0 & af & -> & H2)]; [by left|right]. exists bf, r0, (af ++ [r]). by rewrite <- app_assoc.
  - rewrite E1, E2. split.
    + intros r' s' [Hr|Hr%list_elem_of_singleton]%elem_of_app Es'.
      * apply Qlt_le_weak. eapply Qlt_le_trans; [exact Hlt|by eapply IH1].
      * subst r'. rewrite Es in Es'. injection Es' as <-. apply Qle_refl.
    + right. exists rs, r, []. split_and!; try done.
      * destruct IH2 as [[_ E]|(? & ? & ? & _ & _ & _ & Hm & _)]; [by rewrite <- E|by eapply Qlt_trans].
      * intros r' s' Hr Es'. eapply Qlt_le_trans; [exact Hlt|by eapply IH1].
Qed.
