(* ===== verification/Geometry.v ===== *)
(** Geometry.v -- vectors, axis-aligned boxes and segments

    - src/src/apollo/modules/common/math/vec2d.{h,cc}
    - src/src/apollo/modules/common/math/math_utils.{h,cc}: CrossProd, InnerProd, Square, Clamp
    - src/src/apollo/modules/common/math/aabox2d.{h,cc}
    - src/src/apollo/modules/common/math/line_segment2d.{h,cc}

    std::hypot and std::atan2 are parameters: their values need not be rational.
    Theorems that depend on the value of hypot say at which arguments it has to be
    exact.  [None] is a failed CHECK. *)

From S2P Require Import Prelude.
From S2P Require Import Double.
Local Open Scope Q_scope.

Definition kMathEpsilon : double := 1 # 10000000000.

(** ** Vec2d *)
Record Vec2d := mkVec { x_ : double; y_ : double }.

Definition vadd (a b : Vec2d) : Vec2d := mkVec (x_ a + x_ b) (y_ a + y_ b).
Definition vsub (a b : Vec2d) : Vec2d := mkVec (x_ a - x_ b) (y_ a - y_ b).
Definition vmul (a : Vec2d) (ratio : double) : Vec2d := mkVec (x_ a * ratio) (y_ a * ratio).
Definition vdiv (a : Vec2d) (ratio : double) : option Vec2d :=
  if dlt kMathEpsilon (fabs ratio) then Some (mkVec (x_ a / ratio) (y_ a / ratio)) else None.
Definition veqb (a b : Vec2d) : bool :=
  dlt (fabs (x_ a - x_ b)) kMathEpsilon && dlt (fabs (y_ a - y_ b)) kMathEpsilon.
Definition LengthSquare (a : Vec2d) : double := x_ a * x_ a + y_ a * y_ a.
Definition DistanceSquareTo (a other : Vec2d) : double :=
  let dx := x_ a - x_ other in let dy := y_ a - y_ other in dx * dx + dy * dy.
Definition CrossProd (a other : Vec2d) : double := x_ a * y_ other - y_ a * x_ other.
Definition InnerProd (a other : Vec2d) : double := x_ a * x_ other + y_ a * y_ other.

(** ** math_utils *)
Definition CrossProd3 (start_point end_point_1 end_point_2 : Vec2d) : double :=
  CrossProd (vsub end_point_1 start_point) (vsub end_point_2 start_point).
Definition InnerProd3 (start_point end_point_1 end_point_2 : Vec2d) : double :=
  InnerProd (vsub end_point_1 start_point) (vsub end_point_2 start_point).
Definition Square (value : double) : double := value * value.
Definition Clamp (value bound1 bound2 : double) : double :=
  let '(bound1, bound2) := if dlt bound2 bound1 then (bound2, bound1) else (bound1, bound2) in
  if dlt value bound1 then bound1 else if dlt bound2 value then bound2 else value.

(** ** AABox2d *)
Record AABox2d := mkBox {
  center_ : Vec2d; length_ : double; width_ : double; half_length_ : double; half_width_ : double }.

Definition AABox2d_default : AABox2d := mkBox (mkVec 0 0) 0 0 0 0.
Definition AABox2d_center (center : Vec2d) (length width : double) : option AABox2d :=
  if dlt (- kMathEpsilon) length && dlt (- kMathEpsilon) width
  then Some (mkBox center length width (length / 2) (width / 2)) else None.
Definition AABox2d_corners (one_corner opposite_corner : Vec2d) : option AABox2d :=
  c ← vdiv (vadd one_corner opposite_corner) 2;
  AABox2d_center c (fabs (x_ one_corner - x_ opposite_corner)) (fabs (y_ one_corner - y_ opposite_corner)).

Definition min_x (b : AABox2d) : double := x_ (center_ b) - half_length_ b.
Definition max_x (b : AABox2d) : double := x_ (center_ b) + half_length_ b.
Definition min_y (b : AABox2d) : double := y_ (center_ b) - half_width_ b.
Definition max_y (b : AABox2d) : double := y_ (center_ b) + half_width_ b.

(** The box with these bounds, as the constructor from points and MergeFrom compute it. *)
Definition set_bounds (x1 x2 y1 y2 : double) : AABox2d :=
  mkBox (mkVec ((x1 + x2) / 2) ((y1 + y2) / 2)) (x2 - x1) (y2 - y1) ((x2 - x1) / 2) ((y2 - y1) / 2).

Definition AABox2d_points (points : list Vec2d) : option AABox2d :=
  p0 ← head points;
  Some (set_bounds (foldl (fun m p => dmin m (x_ p)) (x_ p0) points) (foldl (fun m p => dmax m (x_ p)) (x_ p0) points)
                   (foldl (fun m p => dmin m (y_ p)) (y_ p0) points) (foldl (fun m p => dmax m (y_ p)) (y_ p0) points)).

Definition GetAllCorners (b : AABox2d) : list Vec2d :=
  [mkVec (x_ (center_ b) + half_length_ b) (y_ (center_ b) - half_width_ b);
   mkVec (x_ (center_ b) + half_length_ b) (y_ (center_ b) + half_width_ b);
   mkVec (x_ (center_ b) - half_length_ b) (y_ (center_ b) + half_width_ b);
   mkVec (x_ (center_ b) - half_length_ b) (y_ (center_ b) - half_width_ b)].

Definition Box_IsPointIn (b : AABox2d) (point : Vec2d) : bool :=
  dle (fabs (x_ point - x_ (center_ b))) (half_length_ b + kMathEpsilon) &&
  dle (fabs (y_ point - y_ (center_ b))) (half_width_ b + kMathEpsilon).
Definition IsPointOnBoundary (b : AABox2d) (point : Vec2d) : bool :=
  let dx := fabs (x_ point - x_ (center_ b)) in
  let dy := fabs (y_ point - y_ (center_ b)) in
  (dle (fabs (dx - half_length_ b)) kMathEpsilon && dle dy (half_width_ b + kMathEpsilon)) ||
  (dle (fabs (dy - half_width_ b)) kMathEpsilon && dle dx (half_length_ b + kMathEpsilon)).
Definition HasOverlap (b box : AABox2d) : bool :=
  dle (fabs (x_ (center_ box) - x_ (center_ b))) (half_length_ box + half_length_ b) &&
  dle (fabs (y_ (center_ box) - y_ (center_ b))) (half_width_ box + half_width_ b).
Definition Shift (b : AABox2d) (shift_vec : Vec2d) : AABox2d :=
  mkBox (vadd (center_ b) shift_vec) (length_ b) (width_ b) (half_length_ b) (half_width_ b).
Definition MergeFrom (b other_box : AABox2d) : AABox2d :=
  set_bounds (dmin (min_x b) (min_x other_box)) (dmax (max_x b) (max_x other_box))
             (dmin (min_y b) (min_y other_box)) (dmax (max_y b) (max_y other_box)).
Definition MergeFromPoint (b : AABox2d) (other_point : Vec2d) : AABox2d :=
  set_bounds (dmin (min_x b) (x_ other_point)) (dmax (max_x b) (x_ other_point))
             (dmin (min_y b) (y_ other_point)) (dmax (max_y b) (y_ other_point)).

(** ** LineSegment2d, and the distances that are not squared *)
Section distances.
Context (hypot atan2 : double -> double -> double).

Definition Length (a : Vec2d) : double := hypot (x_ a) (y_ a).
Definition DistanceTo (a other : Vec2d) : double := hypot (x_ a - x_ other) (y_ a - y_ other).
Definition Angle (a : Vec2d) : double := atan2 (y_ a) (x_ a).
Definition Normalize (a : Vec2d) : Vec2d :=
  let l := Length a in if dlt kMathEpsilon l then mkVec (x_ a / l) (y_ a / l) else a.

Definition box_distance (dx dy : double) : double :=
  if dle dx 0 then dmax 0 dy else if dle dy 0 then dx else hypot dx dy.
Definition Box_DistanceTo (b : AABox2d) (point : Vec2d) : double :=
  box_distance (fabs (x_ point - x_ (center_ b)) - half_length_ b) (fabs (y_ point - y_ (center_ b)) - half_width_ b).
Definition Box_DistanceToBox (b box : AABox2d) : double :=
  box_distance (fabs (x_ (center_ box) - x_ (center_ b)) - half_length_ box - half_length_ b)
               (fabs (y_ (center_ box) - y_ (center_ b)) - half_width_ box - half_width_ b).

Record LineSegment2d := mkSeg {
  start_ : Vec2d; end_ : Vec2d; unit_direction_ : Vec2d; heading_ : double; seg_length_ : double }.

Definition LineSegment2d_default : LineSegment2d := mkSeg (mkVec 0 0) (mkVec 0 0) (mkVec 1 0) 0 0.
Definition NewSegment (start end' : Vec2d) : LineSegment2d :=
  let dx := x_ end' - x_ start in
  let dy := y_ end' - y_ start in
  let length := hypot dx dy in
  let u := if dle length kMathEpsilon then mkVec 0 0 else mkVec (dx / length) (dy / length) in
  mkSeg start end' u (Angle u) length.

Definition seg_length_sqr (s : LineSegment2d) : double := seg_length_ s * seg_length_ s.
Definition seg_center (s : LineSegment2d) : option Vec2d := vdiv (vadd (start_ s) (end_ s)) 2.

Definition proj (s : LineSegment2d) (point : Vec2d) : double :=
  (x_ point - x_ (start_ s)) * x_ (unit_direction_ s) + (y_ point - y_ (start_ s)) * y_ (unit_direction_ s).
Definition off (s : LineSegment2d) (point : Vec2d) : double :=
  (x_ point - x_ (start_ s)) * y_ (unit_direction_ s) - (y_ point - y_ (start_ s)) * x_ (unit_direction_ s).

Definition Seg_DistanceTo (s : LineSegment2d) (point : Vec2d) : double :=
  if dle (seg_length_ s) kMathEpsilon then DistanceTo point (start_ s)
  else if dle (proj s point) 0 then hypot (x_ point - x_ (start_ s)) (y_ point - y_ (start_ s))
  else if dle (seg_length_ s) (proj s point) then DistanceTo point (end_ s)
  else fabs (off s point).
Definition Seg_DistanceTo_nearest (s : LineSegment2d) (point : Vec2d) : double * Vec2d :=
  if dle (seg_length_ s) kMathEpsilon then (DistanceTo point (start_ s), start_ s)
  else if dlt (proj s point) 0 then (hypot (x_ point - x_ (start_ s)) (y_ point - y_ (start_ s)), start_ s)
  else if dlt (seg_length_ s) (proj s point) then (DistanceTo point (end_ s), end_ s)
  else (fabs (off s point), vadd (start_ s) (vmul (unit_direction_ s) (proj s point))).

Definition Seg_DistanceSquareTo (s : LineSegment2d) (point : Vec2d) : double :=
  if dle (seg_length_ s) kMathEpsilon then DistanceSquareTo point (start_ s)
  else if dle (proj s point) 0 then Square (x_ point - x_ (start_ s)) + Square (y_ point - y_ (start_ s))
  else if dle (seg_length_ s) (proj s point) then DistanceSquareTo point (end_ s)
  else Square (off s point).
Definition Seg_DistanceSquareTo_nearest (s : LineSegment2d) (point : Vec2d) : double * Vec2d :=
  if dle (seg_length_ s) kMathEpsilon then (DistanceSquareTo point (start_ s), start_ s)
  else if dle (proj s point) 0 then
    (Square (x_ point - x_ (start_ s)) + Square (y_ point - y_ (start_ s)), start_ s)
  else if dle (seg_length_ s) (proj s point) then (DistanceSquareTo point (end_ s), end_ s)
  else (Square (off s point), vadd (start_ s) (vmul (unit_direction_ s) (proj s point))).

Definition IsWithin (val bound1 bound2 : double) : bool :=
  let '(bound1, bound2) := if dlt bound2 bound1 then (bound2, bound1) else (bound1, bound2) in
  dle (bound1 - kMathEpsilon) val && dle val (bound2 + kMathEpsilon).
Definition Seg_IsPointIn (s : LineSegment2d) (point : Vec2d) : bool :=
  if dle (seg_length_ s) kMathEpsilon then
    dle (fabs (x_ point - x_ (start_ s))) kMathEpsilon && dle (fabs (y_ point - y_ (start_ s))) kMathEpsilon
  else
    let prod := CrossProd3 point (start_ s) (end_ s) in
    if dlt kMathEpsilon (fabs prod) then false
    else IsWithin (x_ point) (x_ (start_ s)) (x_ (end_ s)) && IsWithin (y_ point) (y_ (start_ s)) (y_ (end_ s)).

Definition ProjectOntoUnit (s : LineSegment2d) (point : Vec2d) : double :=
  InnerProd (unit_direction_ s) (vsub point (start_ s)).
Definition ProductOntoUnit (s : LineSegment2d) (point : Vec2d) : double :=
  CrossProd (unit_direction_ s) (vsub point (start_ s)).

Definition GetIntersect (s other : LineSegment2d) : option Vec2d :=
  if Seg_IsPointIn s (start_ other) then Some (start_ other)
  else if Seg_IsPointIn s (end_ other) then Some (end_ other)
  else if Seg_IsPointIn other (start_ s) then Some (start_ s)
  else if Seg_IsPointIn other (end_ s) then Some (end_ s)
  else if dle (seg_length_ s) kMathEpsilon || dle (seg_length_ other) kMathEpsilon then None
  else
    let cc1 := CrossProd3 (start_ s) (end_ s) (start_ other) in
    let cc2 := CrossProd3 (start_ s) (end_ s) (end_ other) in
    if dle (- kMathEpsilon) (cc1 * cc2) then None
    else
      let cc3 := CrossProd3 (start_ other) (end_ other) (start_ s) in
      let cc4 := CrossProd3 (start_ other) (end_ other) (end_ s) in
      if dle (- kMathEpsilon) (cc3 * cc4) then None
      else
        let ratio := cc4 / (cc4 - cc3) in
        Some (mkVec (x_ (start_ s) * ratio + x_ (end_ s) * (1 - ratio))
                    (y_ (start_ s) * ratio + y_ (end_ s) * (1 - ratio))).
Definition HasIntersect (s other : LineSegment2d) : bool :=
  if GetIntersect s other is Some _ then true else false.

Definition GetPerpendicularFoot (s : LineSegment2d) (point : Vec2d) : double * Vec2d :=
  if dle (seg_length_ s) kMathEpsilon then (DistanceTo point (start_ s), start_ s)
  else (fabs (off s point), vadd (start_ s) (vmul (unit_direction_ s) (proj s point))).
End distances.

(** ** Boxes *)
Definition in_box (b : AABox2d) (p : Vec2d) : Prop :=
  (min_x b <= x_ p /\ x_ p <= max_x b) /\ (min_y b <= y_ p /\ y_ p <= max_y b).
Definition box_wf (b : AABox2d) : Prop :=
  (half_length_ b == length_ b / 2 /\ half_width_ b == width_ b / 2) /\ (0 <= length_ b /\ 0 <= width_ b).
Definition box_le (a b : AABox2d) : Prop := forall p, in_box a p -> in_box b p.

Ltac box := unfold in_box, box_wf, min_x, max_x, min_y, max_y, set_bounds, vadd, vsub, vmul in *; simpl in *.

Lemma set_bounds_min_x x1 x2 y1 y2 : min_x (set_bounds x1 x2 y1 y2) == x1.
Proof. box. field. Qed.
Lemma set_bounds_max_x x1 x2 y1 y2 : max_x (set_bounds x1 x2 y1 y2) == x2.
Proof. box. field. Qed.
Lemma set_bounds_min_y x1 x2 y1 y2 : min_y (set_bounds x1 x2 y1 y2) == y1.
Proof. box. field. Qed.
Lemma set_bounds_max_y x1 x2 y1 y2 : max_y (set_bounds x1 x2 y1 y2) == y2.
Proof. box. field. Qed.

Lemma in_set_bounds x1 x2 y1 y2 p :
  in_box (set_bounds x1 x2 y1 y2) p <-> (x1 <= x_ p /\ x_ p <= x2) /\ (y1 <= y_ p /\ y_ p <= y2).
Proof. unfold in_box. rewrite set_bounds_min_x, set_bounds_max_x, set_bounds_min_y, set_bounds_max_y. done. Qed.
Lemma set_bounds_wf x1 x2 y1 y2 : x1 <= x2 -> y1 <= y2 -> box_wf (set_bounds x1 x2 y1 y2).
Proof. box. intros. repeat split; dlra. Qed.
Lemma box_wf_le b : box_wf b -> min_x b <= max_x b /\ min_y b <= max_y b.
Proof. box. intros [[Hl Hw] [? ?]]. rewrite Hl, Hw. split; dlra. Qed.
#[export] Hint Resolve set_bounds_wf : cyber.

Lemma corner_in_box b : box_wf b -> in_box b (mkVec (min_x b) (min_y b)) /\ in_box b (mkVec (max_x b) (max_y b)).
Proof. intros [? ?]%box_wf_le. unfold in_box; simpl. repeat split; dlra. Qed.

Lemma AABox2d_corners_ok a b : exists box, AABox2d_corners a b = Some box /\ box_wf box /\ in_box box a /\ in_box box b /\
  forall p, in_box box p <-> (dmin (x_ a) (x_ b) <= x_ p /\ x_ p <= dmax (x_ a) (x_ b)) /\
                             (dmin (y_ a) (y_ b) <= y_ p /\ y_ p <= dmax (y_ a) (y_ b)).
Proof.
  unfold AABox2d_corners, vdiv, AABox2d_center. replace (dlt kMathEpsilon (fabs 2)) with true by done. simpl.
  assert (Hpos : forall q, dlt (- kMathEpsilon) (fabs q) = true) by (intros q; dsimp; unfold kMathEpsilon; dcase; dlra).
  rewrite !Hpos. simpl. eexists; split; [done|].
  split; [box; dcase; repeat split; dlra|]. split; [|split]; [box; dcase; repeat split; dlra..|].
  intros p; box; dcase; split; intros; repeat split; dlra.
Qed.

(** MergeFrom gives the least box around both. *)
Lemma MergeFrom_lub a b : box_wf a -> box_wf b ->
  box_wf (MergeFrom a b) /\ box_le a (MergeFrom a b) /\ box_le b (MergeFrom a b) /\
  forall c, box_le a c -> box_le b c -> box_le (MergeFrom a b) c.
Proof.
  intros Ha Hb. pose proof (box_wf_le a Ha) as [Hax Hay]. pose proof (box_wf_le b Hb) as [Hbx Hby].
  unfold MergeFrom. split; [apply set_bounds_wf; dcase; dlra|].
  split; [intros p Hp; apply in_set_bounds; unfold in_box in Hp; dcase; repeat split; dlra|].
  split; [intros p Hp; apply in_set_bounds; unfold in_box in Hp; dcase; repeat split; dlra|].
  intros c Hac Hbc p Hp. rewrite in_set_bounds in Hp.
  pose proof (corner_in_box a Ha) as [Ha1%Hac Ha2%Hac]. pose proof (corner_in_box b Hb) as [Hb1%Hbc Hb2%Hbc].
  unfold in_box in *; simpl in *. dcase; repeat split; dlra.
Qed.

Lemma MergeFromPoint_lub a q : box_wf a ->
  box_wf (MergeFromPoint a q) /\ box_le a (MergeFromPoint a q) /\ in_box (MergeFromPoint a q) q /\
  forall c, box_le a c -> in_box c q -> box_le (MergeFromPoint a q) c.
Proof.
  intros Ha. pose proof (box_wf_le a Ha) as [Hax Hay].
  unfold MergeFromPoint. split; [apply set_bounds_wf; dcase; dlra|].
  split; [intros p Hp; apply in_set_bounds; unfold in_box in Hp; dcase; repeat split; dlra|].
  split; [apply in_set_bounds; dcase; repeat split; dlra|].
  intros c Hac Hbc p Hp. rewrite in_set_bounds in Hp.
  pose proof (corner_in_box a Ha) as [Ha1%Hac Ha2%Hac].
  unfold in_box in *; simpl in *. dcase; repeat split; dlra.
Qed.

Lemma foldl_dmin {A} (f : A -> Q) l m : foldl (fun m p => dmin m (f p)) m l <= m /\
  (forall p, p ∈ l -> foldl (fun m p => dmin m (f p)) m l <= f p) /\
  forall c, c <= m -> (forall p, p ∈ l -> c <= f p) -> c <= foldl (fun m p => dmin m (f p)) m l.
Proof.
  revert m. induction l as [|q l IH]; intros m; simpl; [split; [dlra|split; [by intros p ?%elem_of_nil|done]]|].
  destruct (IH (dmin m (f q))) as (H1 & H2 & H3). pose proof (dmin_l m (f q)). pose proof (dmin_r m (f q)).
  split; [dlra|]. split; [intros p [->|Hp]%elem_of_cons; [dlra|by apply H2]|].
  intros c Hc Hall. apply H3; [|intros p Hp; apply Hall; by right].
  pose proof (Hall q (list_elem_of_here _ _)). dcase; dlra.
Qed.
Lemma foldl_dmax {A} (f : A -> Q) l m : m <= foldl (fun m p => dmax m (f p)) m l /\
  (forall p, p ∈ l -> f p <= foldl (fun m p => dmax m (f p)) m l) /\
  forall c, m <= c -> (forall p, p ∈ l -> f p <= c) -> foldl (fun m p => dmax m (f p)) m l <= c.
Proof.
  revert m. induction l as [|q l IH]; intros m; simpl; [split; [dlra|split; [by intros p ?%elem_of_nil|done]]|].
  destruct (IH (dmax m (f q))) as (H1 & H2 & H3). pose proof (dmax_l m (f q)). pose proof (dmax_r m (f q)).
  split; [dlra|]. split; [intros p [->|Hp]%elem_of_cons; [dlra|by apply H2]|].
  intros c Hc Hall. apply H3; [|intros p Hp; apply Hall; by right].
  pose proof (Hall q (list_elem_of_here _ _)). dcase; dlra.
Qed.

(** The box of a list of points is the least box around them. *)
Lemma AABox2d_points_lub ps b : AABox2d_points ps = Some b ->
  box_wf b /\ (forall p, p ∈ ps -> in_box b p) /\ forall c, (forall p, p ∈ ps -> in_box c p) -> box_le b c.
Proof.
  unfold AABox2d_points. rename ps into l. destruct (head l) as [p0|] eqn:E; [|done]. simpl. intros [= <-].
  assert (p0 ∈ l) as Hin by (destruct l; simplify_eq/=; left). clear E.
  pose proof (foldl_dmin x_ l (x_ p0)) as (A1 & A2 & A3). pose proof (foldl_dmax x_ l (x_ p0)) as (B1 & B2 & B3).
  pose proof (foldl_dmin y_ l (y_ p0)) as (C1 & C2 & C3). pose proof (foldl_dmax y_ l (y_ p0)) as (D1 & D2 & D3).
  split; [apply set_bounds_wf; dlra|]. split; [intros p Hp; apply in_set_bounds; auto|].
  intros c Hc p Hp. rewrite in_set_bounds in Hp.
  assert (Hx : forall p, p ∈ l -> min_x c <= x_ p /\ x_ p <= max_x c) by (intros q Hq; by apply Hc).
  assert (Hy : forall p, p ∈ l -> min_y c <= y_ p /\ y_ p <= max_y c) by (intros q Hq; by apply Hc).
  assert (min_x c <= foldl (fun m p => dmin m (x_ p)) (x_ p0) l) by (apply A3; naive_solver).
  assert (foldl (fun m p => dmax m (x_ p)) (x_ p0) l <= max_x c) by (apply B3; naive_solver).
  assert (min_y c <= foldl (fun m p => dmin m (y_ p)) (y_ p0) l) by (apply C3; naive_solver).
  assert (foldl (fun m p => dmax m (y_ p)) (y_ p0) l <= max_y c) by (apply D3; naive_solver).
  repeat split; dlra.
Qed.

(** Two boxes overlap when they share a point. *)
Lemma HasOverlap_spec a b : box_wf a -> box_wf b ->
  HasOverlap a b = true <-> exists p, in_box a p /\ in_box b p.
Proof.
  intros [Hax Hay]%box_wf_le [Hbx Hby]%box_wf_le. unfold HasOverlap. rewrite andb_true_iff, !dle_true, !fabs_le.
  split.
  - intros [? ?]. exists (mkVec (dmax (min_x a) (min_x b)) (dmax (min_y a) (min_y b))). box. dcase; repeat split; dlra.
  - intros [p [? ?]]. box. repeat split; dlra.
Qed.

(** The point of a box that is nearest to [p]. *)
Definition nearest_in (lo hi v : double) : double := dmax lo (dmin hi v).
Lemma nearest_in_le lo hi v w : lo <= w -> w <= hi -> (v - nearest_in lo hi v) * (v - nearest_in lo hi v) <= (v - w) * (v - w).
Proof.
  intros. destruct (Qlt_le_dec v w).
  - apply Qsq_le_neg; unfold nearest_in; dcase; lra.
  - apply Qsq_le; unfold nearest_in; dcase; lra.
Qed.
Definition nearest_point (b : AABox2d) (p : Vec2d) : Vec2d :=
  mkVec (nearest_in (min_x b) (max_x b) (x_ p)) (nearest_in (min_y b) (max_y b) (y_ p)).
Lemma nearest_point_in b p : box_wf b -> in_box b (nearest_point b p).
Proof. intros [? ?]%box_wf_le. unfold in_box, nearest_point, nearest_in; simpl. dcase; repeat split; lra. Qed.
Lemma nearest_point_le b p q : in_box b q -> DistanceSquareTo p (nearest_point b p) <= DistanceSquareTo p q.
Proof.
  intros [[? ?] [? ?]]. unfold DistanceSquareTo, nearest_point; simpl. apply Qplus_le_compat; by apply nearest_in_le.
Qed.

Section distance_theorems.
Context (hypot atan2 : double -> double -> double).
Definition hypot_exact (dx dy : double) : Prop := 0 <= hypot dx dy /\ hypot dx dy * hypot dx dy == dx * dx + dy * dy.

Lemma box_distance_sq dx dy : hypot_exact dx dy -> 0 <= box_distance hypot dx dy /\
  box_distance hypot dx dy * box_distance hypot dx dy == dmax 0 dx * dmax 0 dx + dmax 0 dy * dmax 0 dy.
Proof. intros [? ?]. unfold box_distance. dcase; split; nra. Qed.

Lemma dmax_nearest (c h v : Q) : 0 <= h ->
  dmax 0 (fabs (v - c) - h) * dmax 0 (fabs (v - c) - h) == (v - nearest_in (c - h) (c + h) v) * (v - nearest_in (c - h) (c + h) v).
Proof. intros. unfold nearest_in. dcase; first [lra | nra]. Qed.

(** The distance of a point to a box is the distance to the nearest point of the box. *)
Lemma box_distance_is_attained b p : box_wf b ->
  hypot_exact (fabs (x_ p - x_ (center_ b)) - half_length_ b) (fabs (y_ p - y_ (center_ b)) - half_width_ b) ->
  let d := Box_DistanceTo hypot b p in
  0 <= d /\ (exists q, in_box b q /\ d * d == DistanceSquareTo p q) /\
  forall q, in_box b q -> d * d <= DistanceSquareTo p q.
Proof.
  intros Hwf Hx d. destruct (box_distance_sq _ _ Hx) as [Hpos Hd]. split; [done|].
  assert (d * d == DistanceSquareTo p (nearest_point b p)) as E.
  { unfold d, Box_DistanceTo. rewrite Hd. destruct (box_wf_le _ Hwf). unfold DistanceSquareTo, nearest_point, min_x, max_x, min_y, max_y in *; simpl.
    rewrite !dmax_nearest by lra. reflexivity. }
  split; [exists (nearest_point b p); split; [by apply nearest_point_in|done]|].
  intros q Hq. rewrite E. by apply nearest_point_le.
Qed.

(** *** Segments *)
Definition point_at (a b : Vec2d) (t : Q) : Vec2d :=
  mkVec (x_ a + t * (x_ b - x_ a)) (y_ a + t * (y_ b - y_ a)).
Definition on_segment (a b q : Vec2d) : Prop :=
  exists t, (0 <= t /\ t <= 1) /\ (x_ q == x_ (point_at a b t) /\ y_ q == y_ (point_at a b t)).
Notation seg := (NewSegment hypot atan2).
Definition seg_exact (a b : Vec2d) : Prop := hypot_exact (x_ b - x_ a) (y_ b - y_ a).

Lemma rotate_dist (X Y ux uy k : Q) : ux * ux + uy * uy == 1 ->
  (X - k * ux) * (X - k * ux) + (Y - k * uy) * (Y - k * uy) ==
  (X * ux + Y * uy - k) * (X * ux + Y * uy - k) + (X * uy - Y * ux) * (X * uy - Y * ux).
Proof.
  intros H.
  assert ((X - k * ux) * (X - k * ux) + (Y - k * uy) * (Y - k * uy) -
    ((X * ux + Y * uy - k) * (X * ux + Y * uy - k) + (X * uy - Y * ux) * (X * uy - Y * ux)) ==
    (X * X + Y * Y - k * k) * (1 - (ux * ux + uy * uy))) as E by ring.
  rewrite H in E. lra.
Qed.

Lemma seg_unit a b : seg_exact a b -> kMathEpsilon < seg_length_ (seg a b) ->
  let L := seg_length_ (seg a b) in let u := unit_direction_ (seg a b) in
  0 < L /\ x_ u * x_ u + y_ u * y_ u == 1 /\ x_ b - x_ a == L * x_ u /\ y_ b - y_ a == L * y_ u.
Proof.
  unfold seg_exact, hypot_exact. simpl. intros [Hp Hsq] He. assert (0 < hypot (x_ b - x_ a) (y_ b - y_ a)) as Hpos by (unfold kMathEpsilon in He; lra).
  replace (dle (hypot (x_ b - x_ a) (y_ b - y_ a)) kMathEpsilon) with false by (symmetry; by dsimp). simpl.
  remember (hypot (x_ b - x_ a) (y_ b - y_ a)) as L eqn:HL. clear HL. assert (~ L == 0) by lra.
  split; [done|]. split; [|split; field; done].
  transitivity (((x_ b - x_ a) * (x_ b - x_ a) + (y_ b - y_ a) * (y_ b - y_ a)) / (L * L)); [field; done|].
  rewrite <- Hsq. field. done.
Qed.

Lemma seg_dist a b p t : seg_exact a b -> kMathEpsilon < seg_length_ (seg a b) ->
  let s := seg a b in let k := t * seg_length_ s in
  DistanceSquareTo p (point_at a b t) == (proj s p - k) * (proj s p - k) + off s p * off s p.
Proof.
  intros Hx He s k. destruct (seg_unit a b Hx He) as (HL & Hu & H1 & H2). fold s in HL, Hu, H1, H2.
  unfold DistanceSquareTo, point_at; simpl. rewrite H1, H2.
  setoid_replace (x_ p - (x_ a + t * (seg_length_ s * x_ (unit_direction_ s)))) with (x_ p - x_ a - k * x_ (unit_direction_ s)) using relation Qeq by (unfold k; ring).
  setoid_replace (y_ p - (y_ a + t * (seg_length_ s * y_ (unit_direction_ s)))) with (y_ p - y_ a - k * y_ (unit_direction_ s)) using relation Qeq by (unfold k; ring).
  by rewrite (rotate_dist _ _ _ _ k Hu).
Qed.

Lemma clamp_sq (v L k : Q) : 0 <= k -> k <= L ->
  (v <= 0 -> v * v <= (v - k) * (v - k)) /\ (L <= v -> (v - L) * (v - L) <= (v - k) * (v - k)).
Proof. split; intros; [apply Qsq_le_neg; lra|apply Qsq_le; lra]. Qed.

Lemma dist_start a b p : DistanceSquareTo p a == DistanceSquareTo p (point_at a b 0).
Proof. unfold DistanceSquareTo, point_at; simpl. ring. Qed.
Lemma dist_end a b p : DistanceSquareTo p b == DistanceSquareTo p (point_at a b 1).
Proof. unfold DistanceSquareTo, point_at; simpl. ring. Qed.
Lemma on_segment_at a b t : 0 <= t -> t <= 1 -> on_segment a b (point_at a b t).
Proof. intros. by exists t. Qed.
Lemma on_segment_ends a b : on_segment a b a /\ on_segment a b b.
Proof. split; [exists 0|exists 1]; (split; [split; lra|]); unfold point_at; simpl; split; ring. Qed.
Lemma on_segment_dist a b q p : on_segment a b q -> exists t, 0 <= t /\ t <= 1 /\ DistanceSquareTo p q == DistanceSquareTo p (point_at a b t).
Proof. intros (t & [? ?] & [Hx Hy]). exists t. repeat split; try done. unfold DistanceSquareTo. by rewrite Hx, Hy. Qed.

(** The squared distance to a segment is the squared distance to the point that is
    returned with it, which lies on the segment, and no point of the segment is nearer. *)
Lemma segment_distance_is_minimal a b p : seg_exact a b -> kMathEpsilon < seg_length_ (seg a b) ->
  let '(d, q) := Seg_DistanceSquareTo_nearest (seg a b) p in
  Seg_DistanceSquareTo (seg a b) p = d /\ on_segment a b q /\ d == DistanceSquareTo p q /\
  forall q', on_segment a b q' -> d <= DistanceSquareTo p q'.
Proof.
  intros Hx He. pose proof (seg_dist a b p 0 Hx He) as D0. pose proof (seg_dist a b p 1 Hx He) as D1.
  destruct (seg_unit a b Hx He) as (HL & Hu & H1 & H2).
  assert (forall d, (forall t, 0 <= t -> t <= 1 -> d <= DistanceSquareTo p (point_at a b t)) ->
    forall q', on_segment a b q' -> d <= DistanceSquareTo p q') as Hmin.
  { intros d Hd q' Hq'. destruct (on_segment_dist a b q' p Hq') as (t & ? & ? & ->). by apply Hd. }
  unfold Seg_DistanceSquareTo_nearest, Seg_DistanceSquareTo.
  replace (dle (seg_length_ (seg a b)) kMathEpsilon) with false by (symmetry; by dsimp).
  set (s := seg a b) in *. change (start_ s) with a. change (end_ s) with b.
  destruct (dle (proj s p) 0) eqn:E0; [|destruct (dle (seg_length_ s) (proj s p)) eqn:E1]; dsimp.
  - split; [done|]. split; [apply on_segment_ends|]. split; [done|]. apply Hmin. intros t Ht0 Ht1.
    rewrite (seg_dist a b p t Hx He : _ == _). fold s. change (DistanceSquareTo p a <= (proj s p - t * seg_length_ s) * (proj s p - t * seg_length_ s) + off s p * off s p).
    rewrite (dist_start a b), D0. fold s. destruct (clamp_sq (proj s p) (seg_length_ s) (t * seg_length_ s)) as [Hc _]; [nra|nra|]. specialize (Hc E0). lra.
  - split; [done|]. split; [apply on_segment_ends|]. split; [done|]. apply Hmin. intros t Ht0 Ht1.
    rewrite (seg_dist a b p t Hx He : _ == _). rewrite (dist_end a b), D1. fold s.
    destruct (clamp_sq (proj s p) (seg_length_ s) (t * seg_length_ s)) as [_ Hc]; [nra|nra|]. specialize (Hc E1). lra.
  - split; [done|]. set (t0 := proj s p / seg_length_ s).
    assert (~ seg_length_ s == 0) by lra. assert (t0 * seg_length_ s == proj s p) as Et by (unfold t0; field; done).
    assert (0 <= t0 /\ t0 <= 1) as [Ht0 Ht1] by (split; nra).
    assert (x_ (vadd a (vmul (unit_direction_ s) (proj s p))) == x_ (point_at a b t0)) as Ex
      by (unfold vadd, vmul, point_at; cbn [x_ y_]; rewrite H1, <- Et; ring).
    assert (y_ (vadd a (vmul (unit_direction_ s) (proj s p))) == y_ (point_at a b t0)) as Ey
      by (unfold vadd, vmul, point_at; cbn [x_ y_]; rewrite H2, <- Et; ring).
    split; [by exists t0|]. split.
    + unfold DistanceSquareTo at 1. rewrite Ex, Ey. fold (DistanceSquareTo p (point_at a b t0)).
      rewrite (seg_dist a b p t0 Hx He : _ == _). fold s. rewrite Et. unfold Square. ring.
    + apply Hmin. intros t _ _. rewrite (seg_dist a b p t Hx He : _ == _). fold s. unfold Square. pose proof (Qsq_nonneg (proj s p - t * seg_length_ s)). lra.
Qed.

(** *** Intersections *)
Lemma IsWithin_spec v l h : IsWithin v l h = true <-> dmin l h - kMathEpsilon <= v /\ v <= dmax l h + kMathEpsilon.
Proof. unfold IsWithin. destruct (dlt h l) eqn:E; rewrite andb_true_iff, !dle_true; dcase; split; intros [? ?]; split; lra. Qed.

Lemma on_segment_IsPointIn a b q : seg_exact a b -> kMathEpsilon < seg_length_ (seg a b) -> on_segment a b q ->
  Seg_IsPointIn (seg a b) q = true.
Proof.
  intros Hx He (t & [Ht0 Ht1] & [Ex Ey]). unfold Seg_IsPointIn.
  replace (dle (seg_length_ (seg a b)) kMathEpsilon) with false by (symmetry; by dsimp). simpl. simpl in Ex, Ey.
  assert (CrossProd3 q a b == 0) as E by (unfold CrossProd3, CrossProd; simpl; rewrite Ex, Ey; ring).
  assert (dlt kMathEpsilon (fabs (CrossProd3 q a b)) = false) as -> by (unfold fabs, kMathEpsilon; dcase; lra).
  apply andb_true_iff; rewrite !IsWithin_spec. unfold kMathEpsilon. dcase; repeat split; nra.
Qed.

Lemma end_IsPointIn a b : seg_exact a b -> Seg_IsPointIn (seg a b) a = true /\ Seg_IsPointIn (seg a b) b = true.
Proof.
  intros Hx. destruct (dle (seg_length_ (seg a b)) kMathEpsilon) eqn:E.
  - unfold Seg_IsPointIn. rewrite E. destruct Hx as [Hp Hx]. dsimp. simpl in *. rewrite !andb_true_iff, !dle_true, !fabs_le.
    pose proof (Qsq_nonneg (x_ b - x_ a)). pose proof (Qsq_nonneg (y_ b - y_ a)). set (h := hypot _ _) in *. unfold kMathEpsilon in *.
    assert (forall z : Q, z * z <= h * h -> - h <= z /\ z <= h) as Hz by (intros z Hz; split; nra).
    destruct (Hz (x_ b - x_ a)) as [? ?]; [lra|]. destruct (Hz (y_ b - y_ a)) as [? ?]; [lra|]. repeat split; lra.
  - dsimp. destruct (on_segment_ends a b). split; by apply on_segment_IsPointIn.
Qed.

Lemma opposite_ratio (c d e : Q) : 0 < e -> c * d < - e -> ~ d - c == 0 /\ 0 <= d / (d - c) /\ d / (d - c) <= 1.
Proof.
  intros He H. destruct (Qlt_le_dec c 0).
  - assert (0 < d) by nra. assert (0 < d - c) by lra. split; [lra|]. split; [apply Qle_shift_div_l; lra|apply Qle_shift_div_r; lra].
  - assert (d < 0) by nra. assert (0 < c) by nra. split; [lra|].
    assert (d / (d - c) == - d / (c - d)) as -> by (field; lra).
    split; [apply Qle_shift_div_l; lra|apply Qle_shift_div_r; lra].
Qed.

(** The point at which two segments cross is on both. *)
Lemma crossing_on_both s e o f :
  let cc1 := CrossProd3 s e o in let cc2 := CrossProd3 s e f in
  let cc3 := CrossProd3 o f s in let cc4 := CrossProd3 o f e in
  cc1 * cc2 < - kMathEpsilon -> cc3 * cc4 < - kMathEpsilon ->
  let ratio := cc4 / (cc4 - cc3) in
  let p := mkVec (x_ s * ratio + x_ e * (1 - ratio)) (y_ s * ratio + y_ e * (1 - ratio)) in
  on_segment s e p /\ on_segment o f p.
Proof.
  intros cc1 cc2 cc3 cc4 H12 H34 ratio p. assert (0 < kMathEpsilon) as He by (unfold kMathEpsilon; lra).
  destruct (opposite_ratio cc3 cc4 _ He H34) as (Hn & H0 & H1). fold ratio in H0, H1.
  rewrite (Qmult_comm cc1) in H12. destruct (opposite_ratio cc2 cc1 _ He H12) as (Hn' & H0' & H1').
  split; [exists (1 - ratio); split; [split; lra|]; unfold p, point_at; simpl; split; ring|].
  exists (cc1 / (cc1 - cc2)). split; [done|].
  assert (cc1 - cc2 == cc4 - cc3) as ED by (unfold cc1, cc2, cc3, cc4, CrossProd3, CrossProd; simpl; ring).
  unfold p, ratio, point_at; simpl. rewrite ED in Hn' |- *.
  split; unfold cc1, cc2, cc3, cc4, CrossProd3, CrossProd in *; simpl in *; field; done.
Qed.

(** What GetIntersect returns is a point of both segments, as IsPointIn sees it. *)
Lemma intersection_is_on_both s e o f p : seg_exact s e -> seg_exact o f ->
  GetIntersect (seg s e) (seg o f) = Some p ->
  Seg_IsPointIn (seg s e) p = true /\ Seg_IsPointIn (seg o f) p = true.
Proof.
  intros Hs Ho. destruct (end_IsPointIn _ _ Hs) as [Hs1 Hs2]. destruct (end_IsPointIn _ _ Ho) as [Ho1 Ho2].
  unfold GetIntersect. change (start_ (seg s e)) with s. change (end_ (seg s e)) with e.
  change (start_ (seg o f)) with o. change (end_ (seg o f)) with f.
  repeat match goal with |- context [if Seg_IsPointIn ?a ?b then _ else _] => destruct (Seg_IsPointIn a b) eqn:?; [by intros [= <-]|] end.
  destruct (dle (seg_length_ (seg s e)) kMathEpsilon) eqn:Es; [done|]. destruct (dle (seg_length_ (seg o f)) kMathEpsilon) eqn:Eo; [done|]. cbn [orb].
  destruct (dle _ (CrossProd3 s e o * _)) eqn:E1; [done|]. destruct (dle _ (CrossProd3 o f s * _)) eqn:E2; [done|].
  intros [= <-]. dsimp. destruct (crossing_on_both s e o f E1 E2) as [H1 H2].
  split; by apply on_segment_IsPointIn.
Qed.
End distance_theorems.

(** ** A square root and a hypot to compute with *)
(** The square root with 52 bits after the point. *)
Definition sqrt52 (q : double) : double :=
  inject_Z (Z.sqrt (Qnum q * QDen q * 2 ^ 104)%Z) / inject_Z (QDen q * 2 ^ 52)%Z.
Definition hypot52 (dx dy : double) : double := sqrt52 (dx * dx + dy * dy).
