(* ===== verification/KDTree.v ===== *)
(** KDTree.v -- the tree of axis-aligned boxes that finds map objects near a point

    - src/src/apollo/modules/common/math/aaboxkdtree2d.h

    Objects are pointers of type [O]; what the tree asks of an object is the class
    [KDObject], and what it relies on is [object_ok]: the object lies inside its
    box.  [StdSort] is std::sort, which may order equal elements as it likes.
    A null pointer to a node is [Null].  [None] of a construction is a failed CHECK
    or fuel that has run out; an infinite double is [None]. *)

From S2P Require Import Prelude.
From S2P Require Import Double.
From S2P Require Import Geometry.
Local Open Scope Q_scope.

Class KDObject (O : Type) := { aabox : O -> AABox2d; ObjectDistanceSquareTo : O -> Vec2d -> double }.
Definition object_ok {O : Type} {KO : KDObject O} (o : O) : Prop :=
  box_wf (aabox o) /\ forall p, exists q, in_box (aabox o) q /\ ObjectDistanceSquareTo o p == DistanceSquareTo p q.

(** std::sort: a permutation in which no element is less than an earlier one. *)
Class StdSort := { std_sort : forall A : Type, (A -> A -> bool) -> list A -> list A }.
Arguments std_sort {_ A}.
Definition key_lt {A} (key : A -> double) (a b : A) : bool := dlt (key a) (key b).
Class StdSortLaws `{StdSort} := {
  std_sort_perm A (lt : A -> A -> bool) l : std_sort lt l ≡ₚ l;
  std_sort_sorted A (key : A -> double) l :
    StronglySorted (fun a b => key a <= key b) (std_sort (key_lt key) l);
  std_sort_reversed A (key : A -> double) l :
    StronglySorted (fun a b => key b <= key a) (std_sort (fun a b => key_lt key b a) l) }.

Record AABoxKDTreeParams := mkParams { max_depth : Z; max_leaf_size : Z; max_leaf_dimension : double }.
Definition default_params : AABoxKDTreeParams := mkParams (-1) (-1) (-1).

Inductive Partition := PARTITION_X | PARTITION_Y.
Record Boundary := mkBoundary {
  min_x_ : double; max_x_ : double; min_y_ : double; max_y_ : double; mid_x_ : double; mid_y_ : double }.

Section kdtree.
Context {O : Type} {KO : KDObject O} {SS : StdSort}.

Record Objects := mkObjects {
  num_objects_ : Z;
  objects_sorted_by_min_ : list O; objects_sorted_by_max_ : list O;
  objects_sorted_by_min_bound_ : list double; objects_sorted_by_max_bound_ : list double }.

Inductive Node :=
| Null
| mkNode (objects_ : Objects) (depth_ : Z) (boundary_ : Boundary) (partition_ : Partition)
    (partition_position_ : double) (left_subnode_ right_subnode_ : Node).

Definition min_key (partition : Partition) (o : O) : double :=
  match partition with PARTITION_X => min_x (aabox o) | PARTITION_Y => min_y (aabox o) end.
Definition max_key (partition : Partition) (o : O) : double :=
  match partition with PARTITION_X => max_x (aabox o) | PARTITION_Y => max_y (aabox o) end.

Definition InitObjects (partition : Partition) (objects : list O) : Objects :=
  let by_min := std_sort (key_lt (min_key partition)) objects in
  let by_max := std_sort (fun obj1 obj2 => key_lt (max_key partition) obj2 obj1) objects in
  mkObjects (i32 (Z.of_nat (length objects))) by_min by_max (map (min_key partition) by_min) (map (max_key partition) by_max).

Definition fmin_inf (m : option double) (v : double) : option double :=
  Some (match m with None => v | Some m => dmin m v end).
Definition fmax_inf (m : option double) (v : double) : option double :=
  Some (match m with None => v | Some m => dmax m v end).

Definition ComputeBoundary (objects : list O) : option Boundary :=
  min_x0 ← foldl (fun m o => fmin_inf m (min_x (aabox o))) None objects;
  max_x0 ← foldl (fun m o => fmax_inf m (max_x (aabox o))) None objects;
  min_y0 ← foldl (fun m o => fmin_inf m (min_y (aabox o))) None objects;
  max_y0 ← foldl (fun m o => fmax_inf m (max_y (aabox o))) None objects;
  Some (mkBoundary min_x0 max_x0 min_y0 max_y0 ((min_x0 + max_x0) / 2) ((min_y0 + max_y0) / 2)).

Definition ComputePartition (b : Boundary) : Partition * double :=
  if dle (max_y_ b - min_y_ b) (max_x_ b - min_x_ b)
  then (PARTITION_X, (min_x_ b + max_x_ b) / 2)
  else (PARTITION_Y, (min_y_ b + max_y_ b) / 2).

Definition SplitToSubNodes (b : Boundary) (depth : Z) (objects : list O) (params : AABoxKDTreeParams) : bool :=
  if bool_decide (0 <= max_depth params)%Z && bool_decide (max_depth params <= depth)%Z then false
  else if bool_decide (i32 (Z.of_nat (length objects)) <= Z.max 1 (max_leaf_size params))%Z then false
  else if dle 0 (max_leaf_dimension params) &&
          dle (dmax (max_x_ b - min_x_ b) (max_y_ b - min_y_ b)) (max_leaf_dimension params) then false
  else true.

(** The objects of the left node, of the right node and of this node. *)
Fixpoint PartitionObjects (partition : Partition) (position : double) (objects : list O) : list O * list O * list O :=
  match objects with
  | [] => ([], [], [])
  | object :: objects =>
      let '(left_objects, right_objects, other_objects) := PartitionObjects partition position objects in
      if dle (max_key partition object) position then (object :: left_objects, right_objects, other_objects)
      else if dle position (min_key partition object) then (left_objects, object :: right_objects, other_objects)
      else (left_objects, right_objects, object :: other_objects)
  end.

Fixpoint NewNode (fuel : nat) (objects : list O) (params : AABoxKDTreeParams) (depth : Z) : option Node :=
  match fuel with
  | 0%nat => None
  | S fuel =>
      b ← ComputeBoundary objects;
      let '(partition, position) := ComputePartition b in
      if SplitToSubNodes b depth objects params then
        let '(left_objects, right_objects, other_objects) := PartitionObjects partition position objects in
        l ← (if left_objects is [] then Some Null else NewNode fuel left_objects params (depth + 1));
        r ← (if right_objects is [] then Some Null else NewNode fuel right_objects params (depth + 1));
        Some (mkNode (InitObjects partition other_objects) depth b partition position l r)
      else Some (mkNode (InitObjects partition objects) depth b partition position Null Null)
  end.

Definition LowerDistanceSquareToPoint (b : Boundary) (point : Vec2d) : double :=
  let dx := if dlt (x_ point) (min_x_ b) then min_x_ b - x_ point
            else if dlt (max_x_ b) (x_ point) then x_ point - max_x_ b else 0 in
  let dy := if dlt (y_ point) (min_y_ b) then min_y_ b - y_ point
            else if dlt (max_y_ b) (y_ point) then y_ point - max_y_ b else 0 in
  dx * dx + dy * dy.
Definition UpperDistanceSquareToPoint (b : Boundary) (point : Vec2d) : double :=
  let dx := if dlt (mid_x_ b) (x_ point) then x_ point - min_x_ b else x_ point - max_x_ b in
  let dy := if dlt (mid_y_ b) (y_ point) then y_ point - min_y_ b else y_ point - max_y_ b in
  dx * dx + dy * dy.

Fixpoint GetAllObjects (n : Node) : list O :=
  match n with
  | Null => []
  | mkNode os _ _ _ _ l r => objects_sorted_by_min_ os ++ GetAllObjects l ++ GetAllObjects r
  end.

(** The first num_objects_ entries of a sorted vector with their bounds. *)
Definition min_items (os : Objects) : list (double * O) :=
  take (Z.to_nat (num_objects_ os)) (zip (objects_sorted_by_min_bound_ os) (objects_sorted_by_min_ os)).
Definition max_items (os : Objects) : list (double * O) :=
  take (Z.to_nat (num_objects_ os)) (zip (objects_sorted_by_max_bound_ os) (objects_sorted_by_max_ os)).

(** A loop over such a vector that breaks at [stop] and pushes what is within the distance. *)
Fixpoint scan_objects (stop : double -> bool) (point : Vec2d) (distance_sqr : double) (items : list (double * O)) : list O :=
  match items with
  | [] => []
  | (bound, object) :: items =>
      if stop bound then []
      else if dle (ObjectDistanceSquareTo object point) distance_sqr
      then object :: scan_objects stop point distance_sqr items
      else scan_objects stop point distance_sqr items
  end.

Definition pvalue (partition : Partition) (point : Vec2d) : double :=
  match partition with PARTITION_X => x_ point | PARTITION_Y => y_ point end.

Fixpoint GetObjectsInternal (n : Node) (point : Vec2d) (distance distance_sqr : double) : list O :=
  match n with
  | Null => []
  | mkNode os _ b partition position l r =>
      if dlt distance_sqr (LowerDistanceSquareToPoint b point) then []
      else if dle (UpperDistanceSquareToPoint b point) distance_sqr then GetAllObjects n
      else
        let pvalue := pvalue partition point in
        (if dlt pvalue position
         then scan_objects (fun bound => dlt (pvalue + distance) bound) point distance_sqr (min_items os)
         else scan_objects (fun bound => dlt bound (pvalue - distance)) point distance_sqr (max_items os)) ++
        GetObjectsInternal l point distance distance_sqr ++ GetObjectsInternal r point distance distance_sqr
  end.

(** *min_distance_sqr and *nearest_object. *)
Definition Nearest : Type := option double * option O.
Definition below (m : option double) (f : double -> bool) : bool := if m is Some m then f m else false.

Fixpoint scan_nearest (before : double -> bool) (pv : double) (point : Vec2d) (items : list (double * O)) (s : Nearest) : Nearest :=
  match items with
  | [] => s
  | (bound, object) :: items =>
      if before bound && below s.1 (fun m => dlt m (Square (bound - pv))) then s
      else
        let distance_sqr := ObjectDistanceSquareTo object point in
        scan_nearest before pv point items
          (if below s.1 (fun m => dle m distance_sqr) then s else (Some distance_sqr, Some object))
  end.

Fixpoint GetNearestObjectInternal (n : Node) (point : Vec2d) (s : Nearest) : Nearest :=
  match n with
  | Null => s
  | mkNode os _ b partition position l r =>
      if below s.1 (fun m => dle (m - kMathEpsilon) (LowerDistanceSquareToPoint b point)) then s
      else
        let pv := pvalue partition point in
        let search_left_first := dlt pv position in
        let s := if search_left_first then GetNearestObjectInternal l point s else GetNearestObjectInternal r point s in
        if below s.1 (fun m => dle m kMathEpsilon) then s
        else
          let s := if search_left_first
                   then scan_nearest (fun bound => dlt pv bound) pv point (min_items os) s
                   else scan_nearest (fun bound => dlt bound pv) pv point (max_items os) s in
          if below s.1 (fun m => dle m kMathEpsilon) then s
          else if search_left_first then GetNearestObjectInternal r point s else GetNearestObjectInternal l point s
  end.

(** ** AABoxKDTree2d: [root_] is [Null] when there are no objects. *)
Definition AABoxKDTree2d (fuel : nat) (objects : list O) (params : AABoxKDTreeParams) : option Node :=
  if objects is [] then Some Null else NewNode fuel objects params 0.
Definition GetNearestObject (root : Node) (point : Vec2d) : option O :=
  (GetNearestObjectInternal root point (None, None)).2.
Definition GetObjects (root : Node) (point : Vec2d) (distance : double) : list O :=
  GetObjectsInternal root point distance (Square distance).
Definition GetBoundingBox (root : Node) : option AABox2d :=
  match root with
  | Null => Some AABox2d_default
  | mkNode _ _ b _ _ _ _ => AABox2d_corners (mkVec (min_x_ b) (min_y_ b)) (mkVec (max_x_ b) (max_y_ b))
  end.
End kdtree.
Arguments Node : clear implicits.
Arguments Objects : clear implicits.

(** ** What a node holds *)
Section laws.
Context {O : Type} {KO : KDObject O} {SS : StdSort} {SL : StdSortLaws}.
Implicit Types (o : O) (objs : list O) (n : Node O).

Definition covers (b : Boundary) o : Prop :=
  (min_x_ b <= min_x (aabox o) /\ max_x (aabox o) <= max_x_ b) /\ (min_y_ b <= min_y (aabox o) /\ max_y (aabox o) <= max_y_ b).
Definition all_ok objs : Prop := forall o, o ∈ objs -> object_ok o.
Definition mid_ok (b : Boundary) : Prop := mid_x_ b == (min_x_ b + max_x_ b) / 2 /\ mid_y_ b == (min_y_ b + max_y_ b) / 2.
Definition holds (partition : Partition) objs (os : Objects O) : Prop :=
  min_items os = map (fun o => (min_key partition o, o)) (objects_sorted_by_min_ os) /\
  max_items os = map (fun o => (max_key partition o, o)) (objects_sorted_by_max_ os) /\
  objects_sorted_by_min_ os ≡ₚ objs /\ objects_sorted_by_max_ os ≡ₚ objs /\
  StronglySorted (fun a b => min_key partition a <= min_key partition b) (objects_sorted_by_min_ os) /\
  StronglySorted (fun a b => max_key partition b <= max_key partition a) (objects_sorted_by_max_ os).

Inductive tree_of : list O -> Node O -> Prop :=
| tree_null : tree_of [] Null
| tree_node objs own ls rs os depth b partition position l r :
    objs ≡ₚ own ++ ls ++ rs -> holds partition own os ->
    all_ok objs -> (forall o, o ∈ objs -> covers b o) -> mid_ok b -> tree_of ls l -> tree_of rs r ->
    tree_of objs (mkNode os depth b partition position l r).

Lemma zip_map_l {A B} (f : A -> B) l : zip (map f l) l = map (fun a => (f a, a)) l.
Proof. induction l; simpl; congruence. Qed.

Lemma InitObjects_holds partition objs : (Z.of_nat (length objs) < 2 ^ 31)%Z -> holds partition objs (InitObjects partition objs).
Proof.
  intros Hlen. unfold holds, min_items, max_items. simpl. rewrite i32_small by (unfold is_i32; lia). rewrite Nat2Z.id, !zip_map_l.
  split; [by rewrite firstn_all2 by (rewrite length_map, std_sort_perm; lia)|].
  split; [by rewrite firstn_all2 by (rewrite length_map, std_sort_perm; lia)|].
  split; [apply std_sort_perm|]. split; [apply std_sort_perm|]. split; [apply std_sort_sorted|apply (std_sort_reversed _ (max_key partition))].
Qed.

Lemma fmin_inf_foldl (f : O -> Q) objs m : foldl (fun m o => fmin_inf m (f o)) (Some m) objs = Some (foldl (fun m o => dmin m (f o)) m objs).
Proof. revert m. induction objs as [|o objs IH]; intros m; simpl; [done|apply IH]. Qed.
Lemma fmax_inf_foldl (f : O -> Q) objs m : foldl (fun m o => fmax_inf m (f o)) (Some m) objs = Some (foldl (fun m o => dmax m (f o)) m objs).
Proof. revert m. induction objs as [|o objs IH]; intros m; simpl; [done|apply IH]. Qed.

Lemma foldl_dmin_attained (f : O -> Q) objs m : (exists o, o ∈ objs /\ foldl (fun m o => dmin m (f o)) m objs = f o) \/
  foldl (fun m o => dmin m (f o)) m objs = m.
Proof.
  revert m. induction objs as [|o objs IH]; intros m; simpl; [by right|].
  destruct (IH (dmin m (f o))) as [(o' & Ho' & ->)| ->]; [left; exists o'; split; [by right|done]|].
  unfold dmin. destruct (dlt (f o) m); [left; exists o; split; [left|done]|by right].
Qed.
Lemma foldl_dmax_attained (f : O -> Q) objs m : (exists o, o ∈ objs /\ foldl (fun m o => dmax m (f o)) m objs = f o) \/
  foldl (fun m o => dmax m (f o)) m objs = m.
Proof.
  revert m. induction objs as [|o objs IH]; intros m; simpl; [by right|].
  destruct (IH (dmax m (f o))) as [(o' & Ho' & ->)| ->]; [left; exists o'; split; [by right|done]|].
  unfold dmax. destruct (dlt m (f o)); [left; exists o; split; [left|done]|by right].
Qed.

Lemma fmin_inf_spec (f : O -> Q) objs : objs <> [] -> exists v, foldl (fun m o => fmin_inf m (f o)) None objs = Some v /\
  (forall o', o' ∈ objs -> v <= f o') /\ exists o', o' ∈ objs /\ v = f o'.
Proof.
  destruct objs as [|o objs]; [done|]. intros _.
  change (foldl (fun m o => fmin_inf m (f o)) None (o :: objs)) with (foldl (fun m o => fmin_inf m (f o)) (Some (f o)) objs).
  rewrite fmin_inf_foldl. eexists; split; [done|].
  destruct (foldl_dmin f objs (f o)) as (H1 & H2 & _). split.
  - intros o' [->|Ho']%elem_of_cons; auto.
  - destruct (foldl_dmin_attained f objs (f o)) as [(o' & Ho' & ->)| ->]; [exists o'|exists o]; split; auto; [by right|by left].
Qed.
Lemma fmax_inf_spec (f : O -> Q) objs : objs <> [] -> exists v, foldl (fun m o => fmax_inf m (f o)) None objs = Some v /\
  (forall o', o' ∈ objs -> f o' <= v) /\ exists o', o' ∈ objs /\ v = f o'.
Proof.
  destruct objs as [|o objs]; [done|]. intros _.
  change (foldl (fun m o => fmax_inf m (f o)) None (o :: objs)) with (foldl (fun m o => fmax_inf m (f o)) (Some (f o)) objs).
  rewrite fmax_inf_foldl. eexists; split; [done|].
  destruct (foldl_dmax f objs (f o)) as (H1 & H2 & _). split.
  - intros o' [->|Ho']%elem_of_cons; auto.
  - destruct (foldl_dmax_attained f objs (f o)) as [(o' & Ho' & ->)| ->]; [exists o'|exists o]; split; auto; [by right|by left].
Qed.

(** The boundary is the least one that covers the objects. *)
Definition tight (b : Boundary) objs : Prop :=
  ((exists o, o ∈ objs /\ min_x_ b = min_x (aabox o)) /\ (exists o, o ∈ objs /\ max_x_ b = max_x (aabox o))) /\
  ((exists o, o ∈ objs /\ min_y_ b = min_y (aabox o)) /\ (exists o, o ∈ objs /\ max_y_ b = max_y (aabox o))).
Lemma ComputeBoundary_spec objs : objs <> [] -> exists b, ComputeBoundary objs = Some b /\
  (forall o, o ∈ objs -> covers b o) /\ tight b objs /\ mid_ok b.
Proof.
  intros Hne. unfold ComputeBoundary.
  destruct (fmin_inf_spec (fun o => min_x (aabox o)) objs Hne) as (a & -> & Ha & Ha').
  destruct (fmax_inf_spec (fun o => max_x (aabox o)) objs Hne) as (b & -> & Hb & Hb').
  destruct (fmin_inf_spec (fun o => min_y (aabox o)) objs Hne) as (c & -> & Hc & Hc').
  destruct (fmax_inf_spec (fun o => max_y (aabox o)) objs Hne) as (d & -> & Hd & Hd').
  simpl. eexists; split; [done|]. unfold covers, tight, mid_ok; simpl. split; [auto|]. split; [done|]. by split.
Qed.

Lemma PartitionObjects_perm partition position objs ls rs os :
  PartitionObjects partition position objs = (ls, rs, os) -> objs ≡ₚ os ++ ls ++ rs.
Proof.
  revert ls rs os. induction objs as [|o objs IH]; intros ls rs os; simpl; [intros [= <- <- <-]; done|].
  destruct (PartitionObjects partition position objs) as [[ls' rs'] os'].
  pose proof (IH ls' rs' os' eq_refl) as E. repeat case_match; intros [= <- <- <-]; rewrite E; simpl; [|solve_Permutation..].
  solve_Permutation.
Qed.

Lemma all_ok_app l1 l2 : all_ok (l1 ++ l2) <-> all_ok l1 /\ all_ok l2.
Proof. unfold all_ok. setoid_rewrite elem_of_app. naive_solver. Qed.
#[global] Instance all_ok_proper : Proper ((≡ₚ) ==> iff) all_ok.
Proof. intros l l' E. unfold all_ok. by setoid_rewrite E. Qed.

Lemma NewNode_tree fuel objs params depth n : (Z.of_nat (length objs) < 2 ^ 31)%Z -> all_ok objs ->
  NewNode fuel objs params depth = Some n -> tree_of objs n.
Proof.
  revert objs depth n. induction fuel as [|fuel IH]; intros objs depth n Hlen Hok; simpl; [done|].
  destruct (decide (objs = [])) as [->|Hne]; [done|].
  destruct (ComputeBoundary_spec objs Hne) as (b & -> & Hcov & _ & Hmid). simpl.
  destruct (ComputePartition b) as [partition position]. destruct (SplitToSubNodes b depth objs params).
  - destruct (PartitionObjects partition position objs) as [[ls rs] os] eqn:E. apply PartitionObjects_perm in E.
    pose proof (Permutation_length E) as El. rewrite !length_app in El. pose proof Hok as Hok'. rewrite E, !all_ok_app in Hok'. intros Hn.
    destruct (match ls with [] => _ | _ => _ end) as [l|] eqn:El1; simpl in Hn; [|done].
    destruct (match rs with [] => _ | _ => _ end) as [r|] eqn:Er1; simpl in Hn; [|done]. simplify_eq.
    apply (tree_node objs os ls rs); try done; [apply InitObjects_holds; lia|..].
    + destruct ls; [simplify_eq; constructor|]. eapply IH; [lia|apply Hok'|exact El1].
    + destruct rs; [simplify_eq; constructor|]. eapply IH; [lia|apply Hok'|exact Er1].
  - intros [= <-]. apply (tree_node objs objs [] []); try done; [by rewrite !app_nil_r|by apply InitObjects_holds|constructor..].
Qed.

(** ** Bounds on distances *)
Lemma sum_le (a b c d : Q) : a <= c -> b <= d -> a + b <= c + d.
Proof. lra. Qed.

Lemma lower_le b o p : object_ok o -> covers b o -> LowerDistanceSquareToPoint b p <= ObjectDistanceSquareTo o p.
Proof.
  intros [_ Ho] [[? ?] [? ?]]. destruct (Ho p) as (q & [[? ?] [? ?]] & ->).
  unfold LowerDistanceSquareToPoint, DistanceSquareTo. cbv zeta. apply sum_le.
  - destruct (Qlt_le_dec (x_ p) (x_ q)); [apply Qsq_opp_le|apply Qsq_abs_le]; dcase; lra.
  - destruct (Qlt_le_dec (y_ p) (y_ q)); [apply Qsq_opp_le|apply Qsq_abs_le]; dcase; lra.
Qed.
Lemma upper_ge b o p : object_ok o -> covers b o -> mid_ok b -> ObjectDistanceSquareTo o p <= UpperDistanceSquareToPoint b p.
Proof.
  intros [_ Ho] [[? ?] [? ?]] [Hmx Hmy]. destruct (Ho p) as (q & [[? ?] [? ?]] & ->).
  unfold UpperDistanceSquareToPoint, DistanceSquareTo. cbv zeta. rewrite Hmx, Hmy.
  apply sum_le; dcase; first [apply Qsq_abs_le; lra | apply Qsq_opp_le; lra].
Qed.

Lemma min_key_le partition o p (v : Q) : object_ok o -> 0 <= v -> pvalue partition p + v <= min_key partition o -> v * v <= ObjectDistanceSquareTo o p.
Proof.
  intros [_ Ho] Hv Hk. destruct (Ho p) as (q & [[? ?] [? ?]] & ->). unfold DistanceSquareTo. cbv zeta.
  pose proof (Qsq_nonneg (x_ p - x_ q)). pose proof (Qsq_nonneg (y_ p - y_ q)).
  destruct partition; simpl in Hk.
  - enough (v * v <= (x_ p - x_ q) * (x_ p - x_ q)) by lra. apply Qsq_opp_le; lra.
  - enough (v * v <= (y_ p - y_ q) * (y_ p - y_ q)) by lra. apply Qsq_opp_le; lra.
Qed.
Lemma max_key_le partition o p (v : Q) : object_ok o -> 0 <= v -> max_key partition o <= pvalue partition p - v -> v * v <= ObjectDistanceSquareTo o p.
Proof.
  intros [_ Ho] Hv Hk. destruct (Ho p) as (q & [[? ?] [? ?]] & ->). unfold DistanceSquareTo. cbv zeta.
  pose proof (Qsq_nonneg (x_ p - x_ q)). pose proof (Qsq_nonneg (y_ p - y_ q)).
  destruct partition; simpl in Hk.
  - enough (v * v <= (x_ p - x_ q) * (x_ p - x_ q)) by lra. apply Qsq_le; lra.
  - enough (v * v <= (y_ p - y_ q) * (y_ p - y_ q)) by lra. apply Qsq_le; lra.
Qed.

(** ** Objects within a distance *)
Definition within (p : Vec2d) (dsq : Q) o : Prop := dle (ObjectDistanceSquareTo o p) dsq = true.
#[global] Instance within_dec p dsq o : Decision (within p dsq o).
Proof. unfold within. apply _. Defined.

Lemma filter_far p dsq objs : (forall o, o ∈ objs -> dsq < ObjectDistanceSquareTo o p) -> filter (within p dsq) objs = [].
Proof.
  induction objs as [|o objs IH]; intros Hf; [done|]. rewrite filter_cons_False, IH; [done|intros; apply Hf; by right|].
  unfold within. rewrite (proj2 (dle_false _ _)); [done|apply Hf; by left].
Qed.
Lemma filter_near p dsq objs : (forall o, o ∈ objs -> ObjectDistanceSquareTo o p <= dsq) -> filter (within p dsq) objs = objs.
Proof.
  induction objs as [|o objs IH]; intros Hf; [done|]. rewrite filter_cons_True, IH; [done|intros; apply Hf; by right|].
  apply dle_true, Hf. by left.
Qed.

Lemma scan_objects_filter (key : O -> Q) (le : O -> O -> Prop) stop p dsq l : StronglySorted le l ->
  (forall a b, le a b -> stop (key a) = true -> stop (key b) = true) ->
  (forall o, o ∈ l -> stop (key o) = true -> dsq < ObjectDistanceSquareTo o p) ->
  scan_objects stop p dsq (map (fun o => (key o, o)) l) = filter (within p dsq) l.
Proof.
  intros Hs Hmono Hstop. induction Hs as [|o l Hs IH Hall]; simpl; [done|].
  destruct (stop (key o)) eqn:E.
  - rewrite filter_far; [done|]. intros o' Ho'. apply Hstop; [done|]. apply elem_of_cons in Ho' as [->|Ho']; [done|].
    rewrite Forall_forall in Hall. eapply Hmono; [by apply Hall|done].
  - rewrite IH by (intros; apply Hstop; [by right|done]). destruct (dle _ dsq) eqn:Ed; [by rewrite filter_cons_True|rewrite filter_cons_False; [done|]].
    unfold within. congruence.
Qed.

Lemma GetAllObjects_tree objs n : tree_of objs n -> GetAllObjects n ≡ₚ objs.
Proof.
  induction 1 as [|objs own ls rs os depth b partition position l r Hperm (_ & _ & Hmin & _) Hok Hcov Hmid Hl IHl Hr IHr]; simpl; [done|].
  by rewrite Hperm, IHl, IHr, Hmin.
Qed.

Lemma GetObjects_tree objs n p d : tree_of objs n -> 0 <= d ->
  GetObjectsInternal n p d (d * d) ≡ₚ filter (within p (d * d)) objs.
Proof.
  intros Ht Hd. induction Ht as [|objs own ls rs os depth b partition position l r Hperm Hh Hok Hcov Hmid Hl IHl Hr IHr]; [done|].
  pose proof (GetAllObjects_tree _ _ (tree_node _ _ _ _ os depth b partition position l r Hperm Hh Hok Hcov Hmid Hl Hr)) as Hall.
  cbn [GetObjectsInternal]. destruct (dlt (d * d) _) eqn:El; [|destruct (dle (UpperDistanceSquareToPoint b p) _) eqn:Eu]; dsimp.
  - rewrite filter_far; [done|]. intros o Ho. pose proof (lower_le b o p (Hok o Ho) (Hcov o Ho)). lra.
  - rewrite filter_near; [done|]. intros o Ho. pose proof (upper_ge b o p (Hok o Ho) (Hcov o Ho) Hmid). lra.
  - clear Hall. destruct Hh as (Hmin & Hmax & Hpmin & Hpmax & Hsmin & Hsmax).
    rewrite Hperm, !filter_app, IHl, IHr. f_equiv. rewrite Hperm, all_ok_app in Hok. destruct Hok as [Hok _].
    destruct (dlt _ position).
    + rewrite Hmin, (scan_objects_filter (min_key partition) _ _ _ _ _ Hsmin); [by rewrite Hpmin|intros a c Hac Ha; dsimp; lra|].
      intros o Hin Ho. dsimp. rewrite ?Hpmin, ?Hpmax in Hin.
      destruct (Qlt_le_dec (d * d) (ObjectDistanceSquareTo o p)) as [|Hle]; [done|].
      set (v := min_key partition o - pvalue partition p).
      pose proof (min_key_le partition o p v (Hok o Hin)) as Hk. unfold v in Hk. specialize (Hk ltac:(lra) ltac:(lra)). nra.
    + rewrite Hmax, (scan_objects_filter (max_key partition) _ _ _ _ _ Hsmax); [by rewrite Hpmax|intros a c Hac Ha; dsimp; lra|].
      intros o Hin Ho. dsimp. rewrite ?Hpmin, ?Hpmax in Hin.
      destruct (Qlt_le_dec (d * d) (ObjectDistanceSquareTo o p)) as [|Hle]; [done|].
      pose proof (max_key_le partition o p (pvalue partition p - max_key partition o) (Hok o Hin)) as Hk. specialize (Hk ltac:(lra) ltac:(lra)). nra.
Qed.

(** ** The nearest object *)
Definition nearest_ok p objs (s : Nearest (O := O)) : Prop :=
  match s with (None, None) => True | (Some m, Some o) => o ∈ objs /\ m = ObjectDistanceSquareTo o p | _ => False end.
(** The minimum so far undercuts the distances of all of [objs], but for [e]. *)
Definition undercuts (e : Q) p objs (s : Nearest (O := O)) : Prop :=
  forall o, o ∈ objs -> exists m, s.1 = Some m /\ m - e <= ObjectDistanceSquareTo o p.
Definition improves (s s' : Nearest (O := O)) : Prop := forall m, s.1 = Some m -> exists m', s'.1 = Some m' /\ m' <= m.

Lemma improves_refl s : improves s s.
Proof. intros m E. exists m. split; [done|lra]. Qed.
Lemma improves_trans s1 s2 s3 : improves s1 s2 -> improves s2 s3 -> improves s1 s3.
Proof. intros H12 H23 m1 E1. destruct (H12 m1 E1) as (m2 & E2 & ?). destruct (H23 m2 E2) as (m3 & E3 & ?). exists m3. split; [done|lra]. Qed.
Lemma undercuts_improves e p objs s s' : improves s s' -> undercuts e p objs s -> undercuts e p objs s'.
Proof. intros Hi Hu o Ho. destruct (Hu o Ho) as (m & E & ?). destruct (Hi m E) as (m' & ? & ?). exists m'. split; [done|lra]. Qed.
Lemma undercuts_app e p l1 l2 s : undercuts e p (l1 ++ l2) s <-> undercuts e p l1 s /\ undercuts e p l2 s.
Proof. unfold undercuts. setoid_rewrite elem_of_app. naive_solver. Qed.
Lemma undercuts_weaken e e' p objs s : e <= e' -> undercuts e p objs s -> undercuts e' p objs s.
Proof. intros He Hu o Ho. destruct (Hu o Ho) as (m & ? & ?). exists m. split; [done|lra]. Qed.
#[global] Instance undercuts_proper e p : Proper ((≡ₚ) ==> eq ==> iff) (undercuts e p).
Proof. intros l l' E s s' <-. unfold undercuts. by setoid_rewrite E. Qed.
Hint Resolve improves_refl improves_trans : core.

Lemma below_spec m f : below m f = true <-> exists v, m = Some v /\ f v = true.
Proof. destruct m; simpl; naive_solver. Qed.

Lemma scan_nearest_spec (key : O -> Q) (le : O -> O -> Prop) before (pv : Q) p l s : StronglySorted le l ->
  (forall a b, b ∈ l -> a = b \/ le a b -> before (key a) = true -> Square (key a - pv) <= ObjectDistanceSquareTo b p) ->
  let s' := scan_nearest before pv p (map (fun o => (key o, o)) l) s in
  improves s s' /\ undercuts 0 p l s' /\ forall objs, nearest_ok p objs s -> l ⊆ objs -> nearest_ok p objs s'.
Proof.
  intros Hs. revert s. induction Hs as [|o l Hs IH Hall]; intros s Hfar; simpl.
  { split; [done|]. split; [by intros o ?%elem_of_nil|done]. }
  destruct (before (key o) && below s.1 _) eqn:E.
  - apply andb_true_iff in E as [Eb (m & Em & Elt)%below_spec]. dsimp. split; [done|]. split; [|done].
    intros o' Ho'. exists m. split; [done|]. enough (Square (key o - pv) <= ObjectDistanceSquareTo o' p) by lra.
    apply Hfar; [done| |done]. apply elem_of_cons in Ho' as [->|Ho']; [by left|right]. rewrite Forall_forall in Hall. by apply Hall.
  - clear E. set (s1 := if below s.1 _ then s else (Some (ObjectDistanceSquareTo o p), Some o)).
    assert (improves s s1 /\ undercuts 0 p [o] s1 /\ forall objs, nearest_ok p objs s -> o ∈ objs -> nearest_ok p objs s1) as (Hi & Hu & Hok).
    { unfold s1. destruct (below s.1 _) eqn:Eb.
      - apply below_spec in Eb as (m & Em & Ele). dsimp. split; [apply improves_refl|]. split; [|by intros].
        intros o' ->%list_elem_of_singleton. exists m. split; [done|lra].
      - split; [|split].
        + intros m Em. rewrite Em in Eb. simpl in Eb. dsimp. eexists; split; [done|]. simpl. lra.
        + intros o' ->%list_elem_of_singleton. eexists; split; [done|lra].
        + done. }
    destruct (IH s1 ltac:(intros; apply Hfar; [by right|done..])) as (Hi' & Hu' & Hok'). split; [eauto|]. split.
    + apply (undercuts_app 0 p [o] l). split; [by eapply undercuts_improves|done].
    + intros objs Hn Hsub. apply Hok'; [apply Hok; [done|apply Hsub; left]|]. intros o' Ho'. apply Hsub. by right.
Qed.

Lemma dist_nonneg o p : object_ok o -> 0 <= ObjectDistanceSquareTo o p.
Proof.
  intros [_ Ho]. destruct (Ho p) as (q & _ & ->). unfold DistanceSquareTo. cbv zeta.
  pose proof (Qsq_nonneg (x_ p - x_ q)). pose proof (Qsq_nonneg (y_ p - y_ q)). lra.
Qed.

(** What one call does, and what two calls do after each other. *)
Definition searches p objs (f : Nearest -> Nearest) : Prop := forall s,
  improves s (f s) /\ undercuts kMathEpsilon p objs (f s) /\
  forall all, nearest_ok p all s -> objs ⊆ all -> nearest_ok p all (f s).

Lemma searches_stop p objs (f : Nearest -> Nearest) stop :
  (forall s, stop s = true -> undercuts kMathEpsilon p objs s) -> searches p objs f ->
  searches p objs (fun s => if stop s then s else f s).
Proof. intros Hstop Hf s. destruct (stop s) eqn:E; [|apply Hf]. split; [done|]. split; [by apply Hstop|done]. Qed.

Lemma searches_seq p l1 l2 f g : searches p l1 f -> searches p l2 g -> searches p (l1 ++ l2) (fun s => g (f s)).
Proof.
  intros Hf Hg s. destruct (Hf s) as (H1 & H2 & H3). destruct (Hg (f s)) as (H4 & H5 & H6).
  split; [eauto|]. split; [apply undercuts_app; split; [by eapply undercuts_improves|done]|].
  intros all Hn Hsub. apply H6; [apply H3; [done|]|]; intros o Ho; apply Hsub, elem_of_app; auto.
Qed.

Lemma searches_perm p l1 l2 f : l1 ≡ₚ l2 -> searches p l1 f -> searches p l2 f.
Proof.
  intros E Hf s. destruct (Hf s) as (H1 & H2 & H3). split; [done|]. split; [by rewrite <- E|].
  intros all Hn Hsub. apply H3; [done|]. by rewrite E.
Qed.

Lemma small_undercuts p objs s : all_ok objs -> below s.1 (fun m => dle m kMathEpsilon) = true -> undercuts kMathEpsilon p objs s.
Proof. intros Hok (m & E & Hle)%below_spec o Ho. dsimp. exists m. split; [done|]. pose proof (dist_nonneg o p (Hok o Ho)). lra. Qed.

Lemma searches_three p l1 l2 l3 f1 f2 f3 : all_ok (l2 ++ l3) -> searches p l1 f1 -> searches p l2 f2 -> searches p l3 f3 ->
  searches p (l1 ++ l2 ++ l3) (fun s => let s := f1 s in
    if below s.1 (fun m => dle m kMathEpsilon) then s
    else let s := f2 s in if below s.1 (fun m => dle m kMathEpsilon) then s else f3 s).
Proof.
  intros Hok H1 H2 H3. apply (searches_seq p l1 (l2 ++ l3) f1 (fun s => if below s.1 (fun m => dle m kMathEpsilon) then s
    else let s := f2 s in if below s.1 (fun m => dle m kMathEpsilon) then s else f3 s)); [done|].
  apply searches_stop; [intros; by apply small_undercuts|]. apply all_ok_app in Hok as [_ Hok].
  apply (searches_seq p l2 l3 f2 (fun s => if below s.1 (fun m => dle m kMathEpsilon) then s else f3 s)); [done|].
  by apply searches_stop; [intros; apply small_undercuts|].
Qed.

Lemma scan_min_searches partition own os p : all_ok own -> holds partition own os ->
  searches p own (scan_nearest (fun bound => dlt (pvalue partition p) bound) (pvalue partition p) p (min_items os)).
Proof.
  intros Hok (Hmin & _ & Hp & _ & Hs & _) s. rewrite Hmin.
  destruct (scan_nearest_spec (min_key partition) _ (fun bound => dlt (pvalue partition p) bound) (pvalue partition p) p _ s Hs) as (H1 & H2 & H3).
  { intros a b Hin Hab Hb. dsimp. unfold Square. rewrite Hp in Hin. assert (min_key partition a <= min_key partition b) by (destruct Hab as [->|]; lra).
    apply (min_key_le partition); [auto|lra..]. }
  split; [done|]. split; [rewrite <- Hp; eapply undercuts_weaken; [|done]; unfold kMathEpsilon; lra|].
  intros all Hn Hsub. apply H3; [done|]. by rewrite Hp.
Qed.
Lemma scan_max_searches partition own os p : all_ok own -> holds partition own os ->
  searches p own (scan_nearest (fun bound => dlt bound (pvalue partition p)) (pvalue partition p) p (max_items os)).
Proof.
  intros Hok (_ & Hmax & _ & Hp & _ & Hs) s. rewrite Hmax.
  destruct (scan_nearest_spec (max_key partition) _ (fun bound => dlt bound (pvalue partition p)) (pvalue partition p) p _ s Hs) as (H1 & H2 & H3).
  { intros a b Hin Hab Hb. dsimp. unfold Square. rewrite Hp in Hin. assert (max_key partition b <= max_key partition a) by (destruct Hab as [->|]; lra).
    pose proof (max_key_le partition b p (pvalue partition p - max_key partition a) (Hok b Hin)) as Hk. specialize (Hk ltac:(lra) ltac:(lra)). lra. }
  split; [done|]. split; [rewrite <- Hp; eapply undercuts_weaken; [|done]; unfold kMathEpsilon; lra|].
  intros all Hn Hsub. apply H3; [done|]. by rewrite Hp.
Qed.

Lemma GetNearest_tree objs n p : tree_of objs n -> searches p objs (GetNearestObjectInternal n p).
Proof.
  induction 1 as [|objs own ls rs os depth b partition position l r Hperm Hh Hok Hcov Hmid Hl IHl Hr IHr].
  { intros s. split; [done|]. split; [by intros o ?%elem_of_nil|done]. }
  cbn [GetNearestObjectInternal]. apply searches_stop.
  { intros s (m & E & Hle)%below_spec o Ho. dsimp. exists m. split; [done|]. pose proof (lower_le b o p (Hok o Ho) (Hcov o Ho)). lra. }
  rewrite Hperm, !all_ok_app in Hok. destruct Hok as (Hoko & Hokl & Hokr).
  cbv zeta. destruct (dlt (pvalue partition p) position).
  - apply (searches_perm p (ls ++ own ++ rs)); [rewrite Hperm; solve_Permutation|].
    apply (searches_three p ls own rs _ _ (GetNearestObjectInternal r p)); [by apply all_ok_app|done|by apply scan_min_searches|done].
  - apply (searches_perm p (rs ++ own ++ ls)); [rewrite Hperm; solve_Permutation|].
    apply (searches_three p rs own ls _ _ (GetNearestObjectInternal l p)); [by apply all_ok_app|done|by apply scan_max_searches|done].
Qed.

(** ** Construction ends *)
Lemma length_pos o l : o ∈ l -> (0 < length l)%nat.
Proof. destruct l; [by intros ?%elem_of_nil|simpl; lia]. Qed.
Lemma PartitionObjects_sides partition position objs ls rs os :
  PartitionObjects partition position objs = (ls, rs, os) ->
  (forall o, o ∈ ls -> max_key partition o <= position) /\ (forall o, o ∈ rs -> position <= min_key partition o).
Proof.
  revert ls rs os. induction objs as [|o objs IH]; intros ls rs os; simpl.
  { intros [= <- <- <-]. split; by intros o ?%elem_of_nil. }
  destruct (PartitionObjects partition position objs) as [[ls' rs'] os']. destruct (IH _ _ _ eq_refl) as [Hl Hr].
  destruct (dle _ position) eqn:E1; [|destruct (dle position _) eqn:E2]; intros [= <- <- <-]; dsimp;
    split; auto; intros o' [->|]%elem_of_cons; auto.
Qed.

Lemma ComputePartition_inside b objs partition position : objs <> [] -> (forall o, o ∈ objs -> covers b o) -> tight b objs ->
  0 < dmax (max_x_ b - min_x_ b) (max_y_ b - min_y_ b) -> ComputePartition b = (partition, position) ->
  (exists o, o ∈ objs /\ position < max_key partition o) /\ (exists o, o ∈ objs /\ min_key partition o < position).
Proof.
  intros Hne Hcov [[(a & Ha & Ea) (c & Hc & Ec)] [(d & Hd & Ed) (e & He & Ee)]] Hpos. unfold ComputePartition.
  destruct (dle _ _) eqn:E; intros [= <- <-]; dsimp.
  - split; [exists c|exists a]; (split; [done|]); simpl; rewrite <- ?Ec, <- ?Ea; dcase; lra.
  - split; [exists e|exists d]; (split; [done|]); simpl; rewrite <- ?Ed, <- ?Ee; dcase; lra.
Qed.

Lemma sides_smaller partition position objs ls rs os : PartitionObjects partition position objs = (ls, rs, os) ->
  (exists o, o ∈ objs /\ position < max_key partition o) -> (exists o, o ∈ objs /\ min_key partition o < position) ->
  (length ls < length objs)%nat /\ (length rs < length objs)%nat.
Proof.
  intros E (o1 & H1 & Ho1) (o2 & H2 & Ho2). destruct (PartitionObjects_sides _ _ _ _ _ _ E) as [Hl Hr].
  apply PartitionObjects_perm in E. rewrite E in H1, H2. rewrite (Permutation_length E), !length_app.
  rewrite !elem_of_app in H1, H2. split.
  - destruct H1 as [?%length_pos|[Hin|?%length_pos]]; [lia| |lia]. specialize (Hl _ Hin). lra.
  - destruct H2 as [?%length_pos|[?%length_pos|Hin]]; [lia|lia|]. specialize (Hr _ Hin). lra.
Qed.

Lemma SplitToSubNodes_dim b depth objs params : 0 <= max_leaf_dimension params -> SplitToSubNodes b depth objs params = true ->
  max_leaf_dimension params < dmax (max_x_ b - min_x_ b) (max_y_ b - min_y_ b).
Proof.
  intros Hdim%dle_true. unfold SplitToSubNodes. rewrite Hdim.
  destruct (bool_decide _ && bool_decide _); [done|]. destruct (bool_decide (i32 _ <= _)%Z); [done|].
  rewrite andb_true_l. intros Hs. apply dle_false. by destruct (dle (dmax _ _) _).
Qed.

Lemma NewNode_terminates fuel objs params depth : objs <> [] -> (length objs <= fuel)%nat ->
  0 <= max_leaf_dimension params -> exists n, NewNode fuel objs params depth = Some n.
Proof.
  intros Hne Hlen Hdim. revert objs depth Hne Hlen. induction fuel as [|fuel IH]; intros objs depth Hne Hlen.
  { destruct objs; [done|simpl in *; lia]. }
  simpl. destruct (ComputeBoundary_spec objs Hne) as (b & -> & Hcov & Ht & _). simpl.
  destruct (ComputePartition b) as [partition position] eqn:Ep. destruct (SplitToSubNodes b depth objs params) eqn:Es; [|eauto].
  destruct (PartitionObjects partition position objs) as [[ls rs] os] eqn:E.
  destruct (sides_smaller _ _ _ _ _ _ E) as [Hl Hr].
  1, 2: eapply (ComputePartition_inside b objs); try done; pose proof (SplitToSubNodes_dim b depth objs params Hdim Es); lra.
  destruct ls as [|ol ls]; [|destruct (IH (ol :: ls) (depth + 1)%Z ltac:(done) ltac:(simpl in *; lia)) as [l ->]; simpl];
  (destruct rs as [|orr rs]; [|destruct (IH (orr :: rs) (depth + 1)%Z ltac:(done) ltac:(simpl in *; lia)) as [r ->]; simpl]); eauto.
Qed.

Lemma NewNode_terminates_depth fuel objs params depth : objs <> [] -> (0 <= max_depth params)%Z ->
  (0 < fuel)%nat -> (max_depth params - depth < Z.of_nat fuel)%Z -> exists n, NewNode fuel objs params depth = Some n.
Proof.
  intros Hne Hd. revert objs depth Hne. induction fuel as [|fuel IH]; intros objs depth Hne Hpos Hf; [lia|].
  simpl. destruct (ComputeBoundary_spec objs Hne) as (b & -> & _). simpl.
  destruct (ComputePartition b) as [partition position]. destruct (SplitToSubNodes b depth objs params) eqn:Es; [|eauto].
  assert (depth < max_depth params)%Z as Hdep by (unfold SplitToSubNodes in Es; rewrite bool_decide_true in Es by done;
    destruct (bool_decide_reflect (max_depth params <= depth)%Z); [done|lia]).
  destruct (PartitionObjects partition position objs) as [[ls rs] os].
  destruct ls as [|ol ls]; [|destruct (IH (ol :: ls) (depth + 1)%Z ltac:(done) ltac:(lia) ltac:(lia)) as [l ->]; simpl];
  (destruct rs as [|orr rs]; [|destruct (IH (orr :: rs) (depth + 1)%Z ltac:(done) ltac:(lia) ltac:(lia)) as [r ->]; simpl]); eauto.
Qed.

Lemma AABoxKDTree2d_tree fuel objs params n : (Z.of_nat (length objs) < 2 ^ 31)%Z -> all_ok objs ->
  AABoxKDTree2d fuel objs params = Some n -> tree_of objs n.
Proof. unfold AABoxKDTree2d. destruct objs; [intros _ _ [= <-]; constructor|apply NewNode_tree]. Qed.

(** With max_leaf_dimension not negative, as every map of the repository has it, the
    construction of the tree ends: no branch of the recursion is longer than the number of objects. *)
Theorem kdtree_is_built fuel objs params : (length objs <= fuel)%nat -> 0 <= max_leaf_dimension params ->
  exists n, AABoxKDTree2d fuel objs params = Some n.
Proof. intros Hf Hd. unfold AABoxKDTree2d. destruct objs as [|o objs]; [eauto|]. by apply NewNode_terminates. Qed.

(** C31. Of objects that lie inside their boxes, GetObjects returns exactly the objects whose distance to the point is at most the
    given one, each once: pruning by bounding boxes and breaking out of the sorted vectors
    loses nothing and adds nothing, however the objects were split. *)
Theorem range_query_is_filter fuel objs params n p d : (Z.of_nat (length objs) < 2 ^ 31)%Z -> all_ok objs ->
  AABoxKDTree2d fuel objs params = Some n -> 0 <= d ->
  GetObjects n p d ≡ₚ filter (within p (d * d)) objs.
Proof. intros Hlen Hok Hn Hd. eapply GetObjects_tree; [by eapply AABoxKDTree2d_tree|done]. Qed.

Lemma GetNearestObject_tree objs n p : tree_of objs n ->
  match GetNearestObject n p with
  | Some o => o ∈ objs /\ forall o', o' ∈ objs -> ObjectDistanceSquareTo o p <= ObjectDistanceSquareTo o' p + kMathEpsilon
  | None => objs = []
  end.
Proof.
  intros Ht. destruct (GetNearest_tree objs n p Ht (None, None)) as (_ & Hu & Hok).
  specialize (Hok objs I ltac:(done)). unfold GetNearestObject. destruct (GetNearestObjectInternal n p (None, None)) as [[m|] [o|]]; try done.
  - destruct Hok as [Ho ->]. split; [done|]. intros o' Ho'. destruct (Hu o' Ho') as (m & [= <-] & ?). lra.
  - destruct objs as [|o objs]; [done|]. destruct (Hu o ltac:(left)) as (m & ? & _). done.
Qed.

(** C32. Of objects that lie inside their boxes, GetNearestObject returns one whenever there is one, and
    no object is nearer by more than kMathEpsilon in squared distance. *)
Theorem nearest_query_is_nearest fuel objs params n p : (Z.of_nat (length objs) < 2 ^ 31)%Z -> all_ok objs ->
  AABoxKDTree2d fuel objs params = Some n ->
  match GetNearestObject n p with
  | Some o => o ∈ objs /\ forall o', o' ∈ objs -> ObjectDistanceSquareTo o p <= ObjectDistanceSquareTo o' p + kMathEpsilon
  | None => objs = []
  end.
Proof. intros Hlen Hok Hn. by eapply GetNearestObject_tree, AABoxKDTree2d_tree. Qed.

(** The box of the tree is the least box around the boxes of the objects. *)
Lemma bounding_box_lub fuel objs params n : all_ok objs -> objs <> [] -> AABoxKDTree2d fuel objs params = Some n ->
  exists b, GetBoundingBox n = Some b /\ box_wf b /\ (forall o, o ∈ objs -> box_le (aabox o) b) /\
  forall c, (forall o, o ∈ objs -> box_le (aabox o) c) -> box_le b c.
Proof.
  intros Hok Hne Hn. destruct (ComputeBoundary_spec objs Hne) as (bd & Hb & Hcov & Ht & _).
  assert (exists os depth partition position l r, n = mkNode os depth bd partition position l r) as (os & depth & partition & position & l & r & ->).
  { unfold AABoxKDTree2d in Hn. destruct objs as [|o objs]; [done|]. destruct fuel as [|fuel]; [done|]. cbn [NewNode] in Hn.
    rewrite Hb in Hn. simpl in Hn. repeat (case_match; simplify_eq/=); repeat (apply bind_Some in Hn as (? & ? & Hn)); simplify_eq; eauto 10. }
  cbn [GetBoundingBox]. destruct (AABox2d_corners_ok (mkVec (min_x_ bd) (min_y_ bd)) (mkVec (max_x_ bd) (max_y_ bd))) as (b & -> & Hwf & _ & _ & Hin).
  exists b. split; [done|]. split; [done|]. simpl in Hin.
  assert (min_x_ bd <= max_x_ bd /\ min_y_ bd <= max_y_ bd) as [Hx Hy].
  { destruct objs as [|o objs]; [done|]. destruct (Hcov o ltac:(left)) as [[? ?] [? ?]]. destruct (box_wf_le _ (proj1 (Hok o ltac:(left)))). split; lra. }
  split.
  - intros o Ho q [[? ?] [? ?]]. apply Hin. destruct (Hcov o Ho) as [[? ?] [? ?]]. dcase; repeat split; lra.
  - intros c Hc q Hq%Hin. destruct Ht as [[(o1 & H1 & E1) (o2 & H2 & E2)] [(o3 & H3 & E3) (o4 & H4 & E4)]].
    pose proof (Hc o1 H1 _ (proj1 (corner_in_box _ (proj1 (Hok o1 H1))))) as Hc1. pose proof (Hc o2 H2 _ (proj2 (corner_in_box _ (proj1 (Hok o2 H2))))) as Hc2.
    pose proof (Hc o3 H3 _ (proj1 (corner_in_box _ (proj1 (Hok o3 H3))))) as Hc3. pose proof (Hc o4 H4 _ (proj2 (corner_in_box _ (proj1 (Hok o4 H4))))) as Hc4.
    unfold in_box in *; simpl in *. rewrite E1, E2, E3, E4 in *. dcase; repeat split; lra.
Qed.

(** Objects that are the same point are never split: with the default parameters the
    constructor calls itself on the same objects until the stack is exhausted. *)
Theorem coincident_points_never_split fuel objs depth q : (2 <= length objs)%nat -> (Z.of_nat (length objs) < 2 ^ 31)%Z ->
  (forall o, o ∈ objs -> (min_x (aabox o) == x_ q /\ max_x (aabox o) == x_ q) /\ (min_y (aabox o) == y_ q /\ max_y (aabox o) == y_ q)) ->
  NewNode fuel objs default_params depth = None.
Proof.
  intros H2 Hlen Hq. revert depth. induction fuel as [|fuel IH]; intros depth; [done|]. cbn [NewNode].
  assert (objs <> []) as Hne by (destruct objs; simpl in *; [lia|done]).
  destruct (ComputeBoundary_spec objs Hne) as (b & -> & _ & [[(a & Ha & Ea) (c & Hc & Ec)] [(d & Hd & Ed) (e & He & Ee)]] & _). simpl.
  destruct (Hq a Ha) as [[Ha1 _] _]. destruct (Hq c Hc) as [[_ Hc1] _]. destruct (Hq d Hd) as [_ [Hd1 _]]. destruct (Hq e He) as [_ [_ He1]].
  assert (exists partition position, ComputePartition b = (partition, position) /\ position == pvalue partition q) as (partition & position & -> & Hpos).
  { unfold ComputePartition. rewrite Ea, Ec, Ed, Ee. destruct (dle _ _); eexists _, _; (split; [done|]); simpl; dlra. }
  assert (SplitToSubNodes b depth objs default_params = true) as ->.
  { unfold SplitToSubNodes. simpl. rewrite i32_small by (unfold is_i32; lia). rewrite bool_decide_false by lia. done. }
  assert (PartitionObjects partition position objs = (objs, [], [])) as ->.
  { clear -Hq Hpos. induction objs as [|o objs IH]; [done|]. simpl. rewrite IH by (intros; apply Hq; by right).
    destruct (Hq o ltac:(left)) as [[_ ?] [_ ?]]. rewrite (proj2 (dle_true _ _)); [done|]. rewrite Hpos. destruct partition; simpl; lra. }
  destruct objs as [|o objs]; [done|]. by rewrite IH.
Qed.
End laws.

(** ** A std::sort, and boxes and segments as objects *)
Definition before_eq {A} (lt : A -> A -> bool) (a b : A) : Prop := lt b a = false.
#[export] Instance before_eq_dec {A} (lt : A -> A -> bool) : RelDecision (before_eq lt).
Proof. intros a b. unfold before_eq. apply _. Defined.
#[export] Instance merge_std_sort : StdSort := {| std_sort A lt := merge_sort (before_eq lt) |}.
Lemma StronglySorted_impl {A} (R1 R2 : relation A) l : (forall a b, R1 a b -> R2 a b) -> StronglySorted R1 l -> StronglySorted R2 l.
Proof. intros Himp Hs. rewrite <- (list_fmap_id l). by apply (StronglySorted_fmap id R1 R2). Qed.
#[export] Instance merge_std_sort_laws : StdSortLaws.
Proof.
  split.
  - intros A lt l. apply merge_sort_Permutation.
  - intros A key l. apply (StronglySorted_impl (before_eq (key_lt key))).
    { intros a b Hab. unfold before_eq, key_lt in Hab. by dsimp. }
    apply StronglySorted_merge_sort; unfold before_eq, key_lt.
    + intros a b c ? ?. dsimp. lra.
    + intros a b. rewrite !dlt_false. destruct (Qlt_le_dec (key a) (key b)); [left; lra|by right].
  - intros A key l. apply (StronglySorted_impl (before_eq (fun a b => key_lt key b a))).
    { intros a b Hab. unfold before_eq, key_lt in Hab. by dsimp. }
    apply StronglySorted_merge_sort; unfold before_eq, key_lt.
    + intros a b c ? ?. dsimp. lra.
    + intros a b. rewrite !dlt_false. destruct (Qlt_le_dec (key a) (key b)); [right; lra|by left].
Qed.

(** Map objects with their boxes (hdmap_common.h): the object, the part of its geometry
    the box belongs to, and the index of that part. *)
Class GeoObject (G : Type) := { Geo_DistanceSquareTo : G -> Vec2d -> double }.
Record ObjectWithAABox (Object G : Type) := mkObject { aabox_ : AABox2d; object_ : Object; geo_object_ : G; id_ : Z }.
Arguments mkObject {_ _}.
Arguments aabox_ {_ _}.
Arguments object_ {_ _}.
Arguments geo_object_ {_ _}.
Arguments id_ {_ _}.
#[export] Instance with_aabox_object {Object G : Type} `{GeoObject G} : KDObject (ObjectWithAABox Object G) := {|
  aabox := aabox_; ObjectDistanceSquareTo o p := Geo_DistanceSquareTo (geo_object_ o) p |}.
#[export] Instance segment_geo : GeoObject LineSegment2d := {| Geo_DistanceSquareTo := Seg_DistanceSquareTo |}.

(** The box of the [id]-th segment of an object. *)
Definition segment_box {Object : Type} (object : Object) (id : nat) (segment : LineSegment2d) : option (ObjectWithAABox Object LineSegment2d) :=
  box ← AABox2d_corners (start_ segment) (end_ segment); Some (mkObject box object segment (Z.of_nat id)).

(** A segment between two points whose length is exact, and long enough to have a direction. *)
Definition segment_ok hypot atan2 (g : LineSegment2d) : Prop :=
  g = NewSegment hypot atan2 (start_ g) (end_ g) /\ seg_exact hypot (start_ g) (end_ g) /\ kMathEpsilon < seg_length_ g.
Lemma segment_box_ok hypot atan2 {Object : Type} (object : Object) id g : exists o, segment_box object id g = Some o /\
  object_ o = object /\ geo_object_ o = g /\ id_ o = Z.of_nat id /\ (segment_ok hypot atan2 g -> object_ok o).
Proof.
  unfold segment_box. destruct (AABox2d_corners_ok (start_ g) (end_ g)) as (b & E & Hwf & _ & _ & Hin). rewrite E.
  eexists; split; [done|]. do 3 (split; [done|]). intros (Hg & He & Hl). split; [done|]. intros r. simpl.
  rewrite Hg in Hl. pose proof (segment_distance_is_minimal hypot atan2 _ _ r He Hl) as Hd. rewrite <- Hg in Hd.
  destruct (Seg_DistanceSquareTo_nearest g r) as [d o]. destruct Hd as (E' & (t & [Ht0 Ht1] & [Ex Ey]) & Ed & _).
  exists o. split; [apply Hin; simpl in Ex, Ey; dcase; repeat split; nra|]. by rewrite E'.
Qed.

(** An integer square root is an exact hypot where the length is rational. *)
Definition root_hypot (dx dy : double) : double :=
  let s := dx * dx + dy * dy in inject_Z (Z.sqrt (Qnum s * QDen s)) / inject_Z (QDen s).
Definition no_angle (y x : double) : double := 0.
Definition segment_okb (g : LineSegment2d) : bool :=
  let l := root_hypot (x_ (end_ g) - x_ (start_ g)) (y_ (end_ g) - y_ (start_ g)) in
  dle 0 l && Qeq_bool (l * l) ((x_ (end_ g) - x_ (start_ g)) * (x_ (end_ g) - x_ (start_ g)) + (y_ (end_ g) - y_ (start_ g)) * (y_ (end_ g) - y_ (start_ g))) &&
  dlt kMathEpsilon l.
Lemma segment_okb_ok p q : let g := NewSegment root_hypot no_angle p q in segment_okb g = true -> segment_ok root_hypot no_angle g.
Proof. cbv zeta. intros [[H1%dle_true H2%Qeq_bool_iff]%andb_true_iff H3%dlt_true]%andb_true_iff. split; [done|]. by split. Qed.

(** A lane of six segments that turns, split along its length. *)
Definition lane_points : list Vec2d := [mkVec 0 0; mkVec 3 4; mkVec 9 12; mkVec 29 12; mkVec 37 6; mkVec 37 0; mkVec 25 (-5)].
Definition lane_segments : list LineSegment2d :=
  map (fun '(p, q) => NewSegment root_hypot no_angle p q) (zip lane_points (tail lane_points)).
Definition lane : list (ObjectWithAABox unit LineSegment2d) := omap (fun '(id, g) => segment_box () id g) (imap pair lane_segments).
Lemma lane_ok : all_ok lane.
Proof.
  intros o ([id g] & Hin & Ho)%list_elem_of_omap. destruct (segment_box_ok root_hypot no_angle () id g) as (o' & E & _ & _ & _ & Hok).
  rewrite E in Ho. injection Ho as <-. apply Hok. clear -Hin.
  repeat (apply elem_of_cons in Hin as [[= -> ->]|Hin]; [apply segment_okb_ok; vm_compute; reflexivity|]). by apply elem_of_nil in Hin.
Qed.
Definition small_leaves : AABoxKDTreeParams := mkParams (-1) 1 5.

Definition lane_tree : Node (ObjectWithAABox unit LineSegment2d) := default Null (AABoxKDTree2d 6 lane small_leaves).

Lemma kdtree_is_built_witness : (length lane <= 6)%nat /\ 0 <= max_leaf_dimension small_leaves /\
  exists n, AABoxKDTree2d 6 lane small_leaves = Some n.
Proof.
  split; [vm_compute; lia|]. split; [by apply dle_true|].
  apply (kdtree_is_built 6 lane small_leaves); [vm_compute; lia|by apply dle_true].
Defined.

Lemma range_query_is_filter_witness : AABoxKDTree2d 6 lane small_leaves = Some lane_tree /\
  map id_ (GetObjects lane_tree (mkVec 30 2) 8) = [4; 5; 3]%Z /\
  GetObjects lane_tree (mkVec 30 2) 8 ≡ₚ filter (within (mkVec 30 2) (8 * 8)) lane.
Proof.
  split; [vm_compute; reflexivity|]. split; [vm_compute; reflexivity|].
  apply (range_query_is_filter 6 lane small_leaves lane_tree (mkVec 30 2) 8);
    [vm_compute; reflexivity|apply lane_ok|vm_compute; reflexivity|by apply dle_true].
Defined.

Lemma nearest_query_is_nearest_witness : option_map id_ (GetNearestObject lane_tree (mkVec 30 2)) = Some 5%Z /\
  match GetNearestObject lane_tree (mkVec 30 2) with
  | Some o => o ∈ lane /\ forall o', o' ∈ lane ->
      ObjectDistanceSquareTo o (mkVec 30 2) <= ObjectDistanceSquareTo o' (mkVec 30 2) + kMathEpsilon
  | None => lane = []
  end.
Proof.
  split; [vm_compute; reflexivity|].
  apply (nearest_query_is_nearest 6 lane small_leaves lane_tree (mkVec 30 2)); [vm_compute; reflexivity|apply lane_ok|vm_compute; reflexivity].
Defined.

(** A tree of two boxes at one point, with the default parameters. *)
#[local] Instance point_object : KDObject Vec2d :=
  {| aabox p := mkBox p 0 0 0 0; ObjectDistanceSquareTo p q := DistanceSquareTo q p |}.
Example two_points_never_split fuel : AABoxKDTree2d fuel [mkVec 1 1; mkVec 1 1] default_params = None.
Proof.
  apply (coincident_points_never_split fuel _ 0 (mkVec 1 1)); [simpl; lia|simpl; lia|].
  intros o [->|[->|[]%elem_of_nil]%elem_of_cons]%elem_of_cons; vm_compute; done.
Qed.
