(* ===== verification/GridSearch.v ===== *)
(** GridSearch.v -- the grid search that gives the open space planner its heuristic

    - src/src/apollo/modules/planning/open_space/coarse_trajectory_generator/grid_search.{h,cc}

    A shared pointer to a Node2d is its index: open_set holds one node per index,
    which is also the node dp_map_, close_set and the pre_node_ of other nodes point to.
    std::sqrt and std::hypot are parameters.  std::priority_queue is the class
    [PriorityQueue]: it pops some entry of least cost.  The searches run on fuel and
    return [None] when it runs out or when a null pointer is followed.  The comparison
    of the source is >=, which holds between equal costs and so is not the strict order
    std::priority_queue asks for; [PriorityQueue] is what its heap does with it all the
    same.  Grid indices are integers without bound, and the resolution is not zero: the
    overflow of static_cast<int> and the quotients by zero are not represented. *)

From S2P Require Import Prelude.
From S2P Require Import Double.
From S2P Require Import Geometry.
From S2P Require Import Text.
From stdpp Require Import pretty.
From Stdlib Require Import Qround.
Local Open Scope Z_scope.

(** static_cast<int> and std::round. *)
Definition trunc (q : double) : Z := Z.quot (Qnum q) (QDen q).
Definition round (q : double) : Z := if dlt q 0 then - Qfloor (- q + (1 # 2)) else Qfloor (q + (1 # 2)).

Record XYbounds := mkBounds { xmin : double; xmax : double; ymin : double; ymax : double }.

Record Node2d := mkNode2d {
  grid_x_ : Z; grid_y_ : Z; path_cost_ : double; heuristic_ : double; cost_ : double;
  index_ : string; pre_node_ : option string }.

Definition ComputeStringIndex (x_grid y_grid : Z) : string := pretty x_grid +:+ "_" +:+ pretty y_grid.
Definition NewNode2d (grid_x grid_y : Z) : Node2d :=
  mkNode2d grid_x grid_y 0 0 0 (ComputeStringIndex grid_x grid_y) None.
Definition grid_of (v v0 xy_resolution : double) : Z := trunc ((v - v0) / xy_resolution)%Q.
Definition NewNode2d_at (x y xy_resolution : double) (b : XYbounds) : Node2d :=
  NewNode2d (grid_of x (xmin b) xy_resolution) (grid_of y (ymin b) xy_resolution).
Definition CalcIndex (x y xy_resolution : double) (b : XYbounds) : string :=
  ComputeStringIndex (grid_of x (xmin b) xy_resolution) (grid_of y (ymin b) xy_resolution).
Definition SetPathCost (n : Node2d) (path_cost : double) : Node2d :=
  mkNode2d (grid_x_ n) (grid_y_ n) path_cost (heuristic_ n) (path_cost + heuristic_ n)%Q (index_ n) (pre_node_ n).
Definition SetHeuristic (n : Node2d) (heuristic : double) : Node2d :=
  mkNode2d (grid_x_ n) (grid_y_ n) (path_cost_ n) heuristic (path_cost_ n + heuristic)%Q (index_ n) (pre_node_ n).
Definition SetCost (n : Node2d) (cost : double) : Node2d :=
  mkNode2d (grid_x_ n) (grid_y_ n) (path_cost_ n) (heuristic_ n) cost (index_ n) (pre_node_ n).
Definition SetPreNode (n : Node2d) (pre_node : string) : Node2d :=
  mkNode2d (grid_x_ n) (grid_y_ n) (path_cost_ n) (heuristic_ n) (cost_ n) (index_ n) (Some pre_node).
Definition Node2d_eqb (a b : Node2d) : bool := bool_decide (index_ a = index_ b).

(** Entries of the queue are an index and a cost. *)
Definition Queue : Type := list (string * double).
Class PriorityQueue := { pop : Queue -> option (string * double * Queue) }.
Class PriorityQueueLaws `{PriorityQueue} := {
  pop_empty : pop [] = None;
  pop_least q : q <> [] -> exists e q', pop q = Some (e, q') /\ q ≡ₚ e :: q' /\ forall e', e' ∈ q -> (e.2 <= e'.2)%Q }.

Section grid.
Context (sqrt : double -> double) (hypot : double -> double -> double) {PQ : PriorityQueue}.

Record GridSearch := mkGrid {
  xy_grid_resolution_ : double; node_radius_ : double; XYbounds_ : XYbounds;
  max_grid_x_ : double; max_grid_y_ : double; final_node_ : option string;
  obstacles_linesegments_vec_ : list (list LineSegment2d); dp_map_ : gmap string Node2d }.

Definition NewGridSearch (resolution radius : double) : GridSearch :=
  mkGrid resolution radius (mkBounds 0 0 0 0) 0 0 None [] ∅.

Definition EuclidDistance (x1 y1 x2 y2 : double) : double :=
  sqrt ((x1 - x2) * (x1 - x2) + (y1 - y2) * (y1 - y2))%Q.

Definition CheckConstraints (g : GridSearch) (node : Node2d) : bool :=
  match obstacles_linesegments_vec_ g with
  | [] => true
  | obstacles =>
      let node_grid_x := inject_Z (grid_x_ node) in
      let node_grid_y := inject_Z (grid_y_ node) in
      if dlt (max_grid_x_ g) node_grid_x || dlt node_grid_x 0 || dlt (max_grid_y_ g) node_grid_y || dlt node_grid_y 0
      then false
      else forallb (forallb (fun linesegment =>
             negb (dlt (Seg_DistanceTo hypot linesegment (mkVec node_grid_x node_grid_y)) (node_radius_ g)))) obstacles
  end.

(** up, up_right, right, down_right, down, down_left, left, up_left *)
Definition moves : list (Z * Z) := [(0, 1); (1, 1); (1, 0); (1, -1); (0, -1); (-1, -1); (-1, 0); (-1, 1)].
Definition move_cost (m : Z * Z) : double := if bool_decide (m.1 = 0 \/ m.2 = 0) then 1 else sqrt 2.
Definition GenerateNextNodes (current_node : Node2d) : list Node2d :=
  map (fun m => SetPathCost (NewNode2d (grid_x_ current_node + m.1) (grid_y_ current_node + m.2))
                            (path_cost_ current_node + move_cost m)%Q) moves.

(** ** GenerateDpMap *)
Record DpState := mkDp { open_pq : Queue; open_set : gmap string Node2d; closed : gset string }.

Definition dp_visit (g : GridSearch) (current_id : string) (s : DpState) (next_node : Node2d) : DpState :=
  if negb (CheckConstraints g next_node) then s
  else if bool_decide (index_ next_node ∈ closed s) then s
  else match open_set s !! index_ next_node with
  | None => mkDp (open_pq s ++ [(index_ next_node, cost_ next_node)])
                 (<[index_ next_node := SetPreNode next_node current_id]> (open_set s)) (closed s)
  | Some n =>
      if dlt (cost_ next_node) (cost_ n)
      then mkDp (open_pq s) (<[index_ next_node := SetPreNode (SetCost n (cost_ next_node)) current_id]> (open_set s)) (closed s)
      else s
  end.

Definition dp_expand (g : GridSearch) (current_id : string) (current_node : Node2d) (s : DpState) : DpState :=
  foldl (dp_visit g current_id) s (GenerateNextNodes current_node).

Fixpoint dp_loop (fuel : nat) (g : GridSearch) (s : DpState) : option DpState :=
  match fuel with
  | O => None
  | S fuel =>
      match pop (open_pq s) with
      | None => Some s
      | Some ((current_id, _), pq) =>
          current_node ← open_set s !! current_id;
          let s := mkDp pq (open_set s) ({[index_ current_node]} ∪ closed s) in
          dp_loop fuel g (dp_expand g current_id current_node s)
      end
  end.

Definition dp_setup (g : GridSearch) (b : XYbounds) (obstacles : list (list LineSegment2d)) : GridSearch :=
  mkGrid (xy_grid_resolution_ g) (node_radius_ g) b
    (inject_Z (round ((xmax b - xmin b) / xy_grid_resolution_ g)%Q))
    (inject_Z (round ((ymax b - ymin b) / xy_grid_resolution_ g)%Q)) (final_node_ g) obstacles ∅.

Definition dp_start (end_node : Node2d) : DpState :=
  mkDp [(index_ end_node, cost_ end_node)] {[index_ end_node := end_node]} ∅.

(** dp_map_ keeps the nodes that were popped. *)
Definition GenerateDpMap (fuel : nat) (g : GridSearch) (ex ey : double) (b : XYbounds)
    (obstacles : list (list LineSegment2d)) : option GridSearch :=
  let g := dp_setup g b obstacles in
  s ← dp_loop fuel g (dp_start (NewNode2d_at ex ey (xy_grid_resolution_ g) b));
  Some (mkGrid (xy_grid_resolution_ g) (node_radius_ g) (XYbounds_ g) (max_grid_x_ g) (max_grid_y_ g) (final_node_ g)
          (obstacles_linesegments_vec_ g) (filter (fun e => e.1 ∈ closed s) (open_set s))).

(** [None] is infinity. *)
Definition CheckDpMap (g : GridSearch) (sx sy : double) : option double :=
  n ← dp_map_ g !! CalcIndex sx sy (xy_grid_resolution_ g) (XYbounds_ g);
  Some (cost_ n * xy_grid_resolution_ g)%Q.

(** ** GenerateAStarPath *)
Definition astar_visit (g : GridSearch) (end_node : Node2d) (current_id : string) (s : DpState) (next_node : Node2d) : DpState :=
  if negb (CheckConstraints g next_node) then s
  else if bool_decide (index_ next_node ∈ closed s) then s
  else match open_set s !! index_ next_node with
  | None =>
      let n := SetPreNode (SetHeuristic next_node (EuclidDistance (inject_Z (grid_x_ next_node)) (inject_Z (grid_y_ next_node))
                 (inject_Z (grid_x_ end_node)) (inject_Z (grid_y_ end_node)))) current_id in
      mkDp (open_pq s ++ [(index_ n, cost_ n)]) (<[index_ n := n]> (open_set s)) (closed s)
  | Some _ => s
  end.

(** The nodes and the local variable final_node_ when the loop is left. *)
Fixpoint astar_loop (fuel : nat) (g : GridSearch) (end_node : Node2d) (s : DpState) : option (DpState * option string) :=
  match fuel with
  | O => None
  | S fuel =>
      match pop (open_pq s) with
      | None => Some (s, None)
      | Some ((current_id, _), pq) =>
          current_node ← open_set s !! current_id;
          if Node2d_eqb current_node end_node then Some (s, Some current_id)
          else
            let s := mkDp pq (open_set s) ({[index_ current_node]} ∪ closed s) in
            astar_loop fuel g end_node
              (foldl (astar_visit g end_node current_id) s (GenerateNextNodes current_node))
      end
  end.

(** The chain of pre_node_ pointers, which has at most one node per entry of open_set. *)
Fixpoint chain (fuel : nat) (nodes : gmap string Node2d) (id : string) : option (list Node2d) :=
  match fuel with
  | O => None
  | S fuel => n ← nodes !! id;
      match pre_node_ n with None => Some [] | Some pre => l ← chain fuel nodes pre; Some (n :: l) end
  end.

Record GridAStartResult := mkAStar { ax : list double; ay : list double; path_cost : double }.
Definition LoadGridAStarResult (g : GridSearch) (nodes : gmap string Node2d) : option GridAStartResult :=
  id ← final_node_ g;
  final ← nodes !! id;
  l ← chain (S (size nodes)) nodes id;
  Some (mkAStar (rev (map (fun n => inject_Z (grid_x_ n) * xy_grid_resolution_ g + xmin (XYbounds_ g))%Q l))
                (rev (map (fun n => inject_Z (grid_y_ n) * xy_grid_resolution_ g + ymin (XYbounds_ g))%Q l))
                (path_cost_ final * xy_grid_resolution_ g)%Q).

(** The result is [None] where false is returned. *)
Definition GenerateAStarPath (fuel : nat) (g : GridSearch) (sx sy ex ey : double) (b : XYbounds)
    (obstacles : list (list LineSegment2d)) : option (GridSearch * option GridAStartResult) :=
  let g := mkGrid (xy_grid_resolution_ g) (node_radius_ g) b (max_grid_x_ g) (max_grid_y_ g) (final_node_ g) obstacles (dp_map_ g) in
  let start_node := NewNode2d_at sx sy (xy_grid_resolution_ g) b in
  let end_node := NewNode2d_at ex ey (xy_grid_resolution_ g) b in
  '(s, final_node) ← astar_loop fuel g end_node (dp_start start_node);
  match final_node with
  | None => Some (g, None)
  | Some _ => r ← LoadGridAStarResult g (open_set s); Some (g, Some r)
  end.
End grid.

(** ** Indexes of cells are distinct *)
Definition underscore : Ascii.ascii := Ascii.ascii_of_nat 95.
Lemma pretty_N_char_plain x : Ascii.eqb (pretty_N_char x) underscore = false.
Proof. unfold pretty_N_char. destruct x as [|p]; [done|]. do 4 (destruct p as [p|p|]; try done). Qed.
Lemma find_pretty_N_go x s : Text.find underscore s = None -> Text.find underscore (pretty_N_go x s) = None.
Proof.
  revert s. induction (N.lt_wf_0 x) as [x _ IH]. intros s Hs. destruct (decide (x = 0)%N) as [->|Hx]; [by rewrite pretty_N_go_0|].
  rewrite pretty_N_go_step by lia. apply IH; [apply N.div_lt; lia|]. cbn [Text.find]. by rewrite pretty_N_char_plain, Hs.
Qed.
Lemma find_pretty (z : Z) : Text.find underscore (pretty z) = None.
Proof.
  assert (forall n : N, Text.find underscore (pretty n) = None) as HN.
  { intros n. unfold pretty, pretty_N. destruct (decide (n = 0)%N); [done|]. by apply find_pretty_N_go. }
  unfold pretty, pretty_Z. destruct z as [|p|p]; [done|apply (HN (Npos p))|].
  change (match Text.find underscore (pretty (Npos p)) with Some n => Some (S n) | None => None end = None). by rewrite HN.
Qed.
Lemma ComputeStringIndex_inj x y x' y' : ComputeStringIndex x y = ComputeStringIndex x' y' -> x = x' /\ y = y'.
Proof.
  unfold ComputeStringIndex. change ("_" +:+ ?s) with (String underscore s). intros E.
  assert (String.length (pretty x) = String.length (pretty x')) as El.
  { pose proof (f_equal (Text.find underscore) E) as Ef. rewrite !find_app in Ef by apply find_pretty. by injection Ef. }
  pose proof (f_equal (take_str (String.length (pretty x))) E) as Et. rewrite take_str_app, El, take_str_app in Et.
  pose proof (f_equal (drop_str (S (String.length (pretty x)))) E) as Ed. rewrite drop_str_app, El, drop_str_app in Ed.
  split; by apply (inj pretty).
Qed.

(** ** The search visits what can be reached *)
Section search.
Context (sqrt : double -> double) (hypot : double -> double -> double) {PQ : PriorityQueue} {PL : PriorityQueueLaws}.
Context (g : GridSearch) (goal : Z * Z).

Definition idx (c : Z * Z) : string := ComputeStringIndex c.1 c.2.
Definition step_to (c m : Z * Z) : Z * Z := (c.1 + m.1, c.2 + m.2).
Definition cell_of (n : Node2d) : Z * Z := (grid_x_ n, grid_y_ n).
Definition free (c : Z * Z) : Prop := CheckConstraints hypot g (NewNode2d c.1 c.2) = true.

(** A cell and the cost of a way from the goal to it through free cells. *)
Inductive path : Z * Z -> double -> Prop :=
| path_goal : path goal 0
| path_move c q m : path c q -> m ∈ moves -> free (step_to c m) -> path (step_to c m) (q + move_cost sqrt m)%Q
| path_eq c q q' : path c q -> (q == q')%Q -> path c q'.

Lemma idx_inj c c' : idx c = idx c' -> c = c'.
Proof. destruct c as [x y], c' as [x' y']. intros [E1 E2]%ComputeStringIndex_inj. simpl in *. by subst. Qed.

Record dp_inv (s : DpState) : Prop := {
  inv_node id n : open_set s !! id = Some n ->
    (index_ n = id /\ idx (cell_of n) = id) /\ path (cell_of n) (path_cost_ n) /\ path (cell_of n) (cost_ n);
  inv_dom id : is_Some (open_set s !! id) <-> id ∈ closed s \/ id ∈ (open_pq s).*1;
  inv_nodup : NoDup (open_pq s).*1;
  inv_disjoint id : id ∈ closed s -> id ∉ (open_pq s).*1;
  inv_goal : is_Some (open_set s !! idx goal) }.
Definition extends (s s' : DpState) : Prop :=
  closed s' = closed s /\ forall id, is_Some (open_set s !! id) -> is_Some (open_set s' !! id).
Definition closed_under (cs : gset string) (s : DpState) : Prop :=
  forall c m, idx c ∈ cs -> m ∈ moves -> free (step_to c m) -> is_Some (open_set s !! idx (step_to c m)).

Lemma extends_refl s : extends s s.
Proof. done. Qed.
Lemma extends_trans s1 s2 s3 : extends s1 s2 -> extends s2 s3 -> extends s1 s3.
Proof. intros [E1 H1] [E2 H2]. split; [congruence|auto]. Qed.
Lemma closed_under_extends cs s s' : extends s s' -> closed_under cs s -> closed_under cs s'.
Proof. intros [_ He] Hc c m Hin Hm Hf. by apply He, Hc. Qed.

Definition next_of (cur : Node2d) (m : Z * Z) : Node2d :=
  SetPathCost (NewNode2d (grid_x_ cur + m.1) (grid_y_ cur + m.2)) (path_cost_ cur + move_cost sqrt m)%Q.

Lemma dp_visit_ok id cur m s : dp_inv s -> path (cell_of cur) (path_cost_ cur) -> m ∈ moves ->
  let s' := dp_visit hypot g id s (next_of cur m) in
  dp_inv s' /\ extends s s' /\ (free (step_to (cell_of cur) m) -> is_Some (open_set s' !! idx (step_to (cell_of cur) m))).
Proof.
  intros Hinv Hp Hm s'. set (i := idx (step_to (cell_of cur) m)).
  assert (index_ (next_of cur m) = i) as Ei by done.
  unfold s', dp_visit. rewrite Ei. destruct (CheckConstraints hypot g (next_of cur m)) eqn:Ef; cbn [negb].
  2: { split; [done|]. split; [done|]. intros Hf. change (CheckConstraints hypot g (next_of cur m) = true) in Hf. congruence. }
  assert (path (step_to (cell_of cur) m) (path_cost_ cur + move_cost sqrt m)%Q) as Hq by (by apply path_move).
  assert (path (step_to (cell_of cur) m) (cost_ (next_of cur m))) as Hq'.
  { eapply path_eq; [exact Hq|]. simpl. lra. }
  destruct Hinv as [Hn Hd Hnd Hdj Hg].
  case_bool_decide as Ecl; [split; [by split|]; split; [done|]; intros _; apply Hd; by left|].
  destruct (open_set s !! i) as [n|] eqn:Eo.
  - destruct (Hn i n Eo) as ([Hi Hcell] & Hpc & Hc). apply idx_inj in Hcell.
    destruct (dlt _ _); [|split; [by split|]; split; [done|]; intros _; by rewrite Eo].
    split; [|split; [split; [done|]|intros _; simpl; by rewrite lookup_insert_eq]].
    + split; simpl; try done.
      * intros id' n' [[<- <-]|[Hne E]]%lookup_insert_Some; [|by apply Hn].
        change (cell_of (SetPreNode ?x id)) with (cell_of n). rewrite Hcell in Hpc |- *. done.
      * intros id'. rewrite lookup_insert_is_Some', <- Hd. split; [intros [<-|?]; [by rewrite Eo|done]|by right].
      * apply lookup_insert_is_Some'. by right.
    + intros id' Hs. simpl. apply lookup_insert_is_Some'. by right.
  - assert (i ∉ (open_pq s).*1) as Hni by (intros Hin; destruct (proj2 (Hd i) (or_intror Hin)); congruence).
    split; [|split; [split; [done|]|intros _; simpl; by rewrite lookup_insert_eq]].
    + split; simpl.
      * intros id' n' [[<- <-]|[Hne E]]%lookup_insert_Some; [|by apply Hn]. done.
      * intros id'. rewrite lookup_insert_is_Some', Hd, fmap_app, elem_of_app. simpl. rewrite list_elem_of_singleton. naive_solver.
      * rewrite fmap_app. apply NoDup_app. split; [done|]. split; [|apply NoDup_singleton].
        intros x Hx ->%list_elem_of_singleton. done.
      * intros id' Hc. rewrite fmap_app, elem_of_app. intros [Hin| ->%list_elem_of_singleton]; [by eapply Hdj|done].
      * apply lookup_insert_is_Some'. by right.
    + intros id' Hs. simpl. apply lookup_insert_is_Some'. by right.
Qed.

Lemma dp_visits_ok id cur ms s : dp_inv s -> path (cell_of cur) (path_cost_ cur) -> ms ⊆ moves ->
  let s' := foldl (dp_visit hypot g id) s (map (next_of cur) ms) in
  dp_inv s' /\ extends s s' /\ forall m, m ∈ ms -> free (step_to (cell_of cur) m) -> is_Some (open_set s' !! idx (step_to (cell_of cur) m)).
Proof.
  intros Hinv Hp Hsub. revert s Hinv. induction ms as [|m ms IH]; intros s Hinv; simpl; [split; [done|split; [done|by intros m ?%elem_of_nil]]|].
  destruct (dp_visit_ok id cur m s Hinv Hp) as (H1 & H2 & H3); [apply Hsub; left|].
  destruct (IH ltac:(intros x Hx; apply Hsub; by right) _ H1) as (H4 & H5 & H6).
  split; [done|]. split; [by eapply extends_trans|]. intros m' [->|Hm']%elem_of_cons Hf; [by apply H5, H3|by apply H6].
Qed.

Definition dp_ok (s : DpState) : Prop := dp_inv s /\ closed_under (closed s) s.

(** One round of the loop. *)
Lemma dp_round s e q : dp_ok s -> pop (open_pq s) = Some (e, q) -> open_pq s <> [] ->
  exists cur, open_set s !! e.1 = Some cur /\
    let s' := dp_expand sqrt hypot g e.1 cur (mkDp q (open_set s) ({[index_ cur]} ∪ closed s)) in
    dp_ok s' /\ e.1 ∉ closed s /\ closed s' = {[e.1]} ∪ closed s.
Proof.
  intros [[Hn Hd Hnd Hdj Hg] Hcl] Epop Hne. destruct (pop_least (open_pq s) Hne) as (e' & q' & E & Hperm & _). rewrite Epop in E. simplify_eq.
  assert ((open_pq s).*1 ≡ₚ e'.1 :: q'.*1) as Hp1 by (by rewrite Hperm).
  assert (e'.1 ∈ (open_pq s).*1) as Hin by (rewrite Hp1; left).
  destruct (proj2 (Hd e'.1) (or_intror Hin)) as [cur Ecur]. exists cur. split; [done|].
  destruct (Hn _ _ Ecur) as ([Hi Hcell] & Hpc & _). rewrite Hp1 in Hnd. apply NoDup_cons in Hnd as [Hni Hnd'].
  assert (e'.1 ∉ closed s) as Hncl by (intros Hc; by apply (Hdj _ Hc)).
  cbv zeta. rewrite Hi. set (s0 := mkDp q' (open_set s) ({[e'.1]} ∪ closed s)).
  change (dp_expand sqrt hypot g e'.1 cur s0) with (foldl (dp_visit hypot g e'.1) s0 (map (next_of cur) moves)).
  destruct (dp_visits_ok e'.1 cur moves s0) as (H1 & [H2 H3] & H4); [|done|done|].
  { split; simpl; try done.
    - intros id. rewrite Hd, Hp1, elem_of_cons. set_solver.
    - intros id [->%elem_of_singleton|Hc]%elem_of_union; [done|]. specialize (Hdj _ Hc). rewrite Hp1 in Hdj. set_solver. }
  set (s' := foldl _ _ _) in *. change (closed s' = {[e'.1]} ∪ closed s) in H2. split; [|done]. split; [done|]. rewrite H2.
  intros c m [Ec%elem_of_singleton|Hc]%elem_of_union Hm Hf.
  - rewrite <- Hcell in Ec. apply idx_inj in Ec. subst c. by apply H4.
  - apply H3. by apply Hcl.
Qed.

(** What the loop leaves: a map of the cells that can be reached. *)
Definition dp_done (s : DpState) : Prop :=
  dp_inv s /\ (forall id, is_Some (open_set s !! id) <-> id ∈ closed s) /\ forall c q, path c q -> idx c ∈ closed s.

Lemma dp_end s : dp_ok s -> open_pq s = [] -> dp_done s.
Proof.
  intros [Hinv Hcl] E. assert (forall id, is_Some (open_set s !! id) <-> id ∈ closed s) as Hd.
  { intros id. rewrite (inv_dom s Hinv), E. simpl. rewrite elem_of_nil. tauto. }
  split; [done|]. split; [done|]. induction 1 as [|c q m Hp IH Hm Hf|]; [apply Hd, (inv_goal s Hinv)|by apply Hd, Hcl|done].
Qed.

Lemma dp_start_ok : dp_ok (dp_start (NewNode2d goal.1 goal.2)).
Proof.
  assert (cell_of (NewNode2d goal.1 goal.2) = goal) as Ec by (by destruct goal). split.
  - split; simpl.
    + intros id n [<- <-]%lookup_singleton_Some. rewrite Ec. split; [done|]. split; apply path_goal.
    + intros id. rewrite lookup_singleton_is_Some, list_elem_of_singleton. set_solver.
    + apply NoDup_singleton.
    + set_solver.
    + by rewrite lookup_singleton_is_Some.
  - intros c m Hc. set_solver.
Qed.

(** Whatever the fuel, the loop returns only when everything has been visited, and it
    visits a new cell in every round. *)
Lemma dp_loop_done fuel s s' : dp_ok s -> dp_loop sqrt hypot fuel g s = Some s' ->
  dp_done s' /\ (size (closed s') < fuel + size (closed s))%nat.
Proof.
  revert s. induction fuel as [|fuel IH]; intros s Hok; simpl; [done|].
  destruct (decide (open_pq s = [])) as [E|Hne].
  - rewrite E, pop_empty. intros [= <-]. split; [by apply dp_end|lia].
  - destruct (pop_least _ Hne) as (e & q & Ep & _). rewrite Ep. destruct (dp_round s e q Hok Ep Hne) as (cur & Ecur & Hok' & Hn & Hcl).
    destruct e as [id cost]. simpl in *. rewrite Ecur. simpl. intros Hr. destruct (IH _ Hok' Hr) as [Hd Hsz]. split; [done|].
    rewrite Hcl, size_union, size_singleton in Hsz by set_solver. lia.
Qed.

(** If all visited cells are in [U], the number of its cells is enough fuel. *)
Lemma dp_loop_enough (U : gset string) fuel s : dp_ok s -> (forall c q, path c q -> idx c ∈ U) ->
  (size U < fuel + size (closed s))%nat -> exists s', dp_loop sqrt hypot fuel g s = Some s'.
Proof.
  intros Hok HU. assert (forall s, dp_ok s -> closed s ⊆ U) as Hsub.
  { intros t [Ht _] id Hid. destruct (proj2 (inv_dom t Ht id) (or_introl Hid)) as [n En].
    destruct (inv_node t Ht id n En) as ([_ <-] & Hp & _). by eapply HU. }
  revert s Hok. induction fuel as [|fuel IH]; intros s Hok Hf.
  { pose proof (subseteq_size _ _ (Hsub s Hok)). lia. }
  simpl. destruct (decide (open_pq s = [])) as [E|Hne]; [rewrite E, pop_empty; eauto|].
  destruct (pop_least _ Hne) as (e & q & Ep & _). rewrite Ep. destruct (dp_round s e q Hok Ep Hne) as (cur & Ecur & Hok' & Hn & Hcl).
  destruct e as [id cost]. simpl in *. rewrite Ecur. simpl. apply IH; [done|]. rewrite Hcl, size_union, size_singleton by set_solver. lia.
Qed.
End search.

(** ** The heuristic map *)
Section dp_map.
Context (sqrt : double -> double) (hypot : double -> double -> double) {PQ : PriorityQueue} {PL : PriorityQueueLaws}.

Definition cells (mx my : Z) : list (Z * Z) := x ← seqZ 0 (mx + 1); y ← seqZ 0 (my + 1); [(x, y)].
Lemma elem_of_cells mx my c : 0 <= c.1 <= mx -> 0 <= c.2 <= my -> c ∈ cells mx my.
Proof.
  intros Hx Hy. unfold cells. apply list_elem_of_bind. exists c.1. split; [|apply elem_of_seqZ; lia].
  apply list_elem_of_bind. exists c.2. split; [|apply elem_of_seqZ; lia]. destruct c. by left.
Qed.

Lemma inject_Z_le_inv a b : (inject_Z a <= inject_Z b)%Q -> a <= b.
Proof. by rewrite <- Zle_Qle. Qed.

Definition grid_width (g : GridSearch) (b : XYbounds) : Z := round ((xmax b - xmin b) / xy_grid_resolution_ g)%Q.
Definition grid_height (g : GridSearch) (b : XYbounds) : Z := round ((ymax b - ymin b) / xy_grid_resolution_ g)%Q.
Definition cell_at (g : GridSearch) (b : XYbounds) (x y : double) : Z * Z :=
  (grid_of x (xmin b) (xy_grid_resolution_ g), grid_of y (ymin b) (xy_grid_resolution_ g)).

Lemma free_in_grid g b obstacles c : obstacles <> [] -> free hypot (dp_setup g b obstacles) c ->
  0 <= c.1 <= grid_width g b /\ 0 <= c.2 <= grid_height g b.
Proof.
  intros Hne. unfold free, CheckConstraints. simpl. destruct obstacles as [|o os]; [done|]. clear Hne.
  destruct (dlt _ _ || _ || _ || _) eqn:E; [done|]. intros _. repeat (apply orb_false_iff in E as [E ?]). dsimp.
  repeat split; apply inject_Z_le_inv; done.
Qed.

Lemma size_singleton_list_le (i : string) l : (size ({[i]} ∪ list_to_set l : gset string) <= S (length l))%nat.
Proof.
  induction l as [|j l IH].
  { rewrite list_to_set_nil, (right_id_L ∅ (∪)), size_singleton. simpl. lia. }
  rewrite list_to_set_cons. change (length (j :: l)) with (S (length l)).
  assert (({[i]} ∪ ({[j]} ∪ list_to_set l) : gset string) ⊆ {[j]} ∪ ({[i]} ∪ list_to_set l)) as Hs%subseteq_size by set_solver.
  rewrite (size_union_alt {[j]}), size_singleton in Hs.
  pose proof (subseteq_size (({[i]} ∪ list_to_set l) ∖ {[j]}) ({[i]} ∪ list_to_set l : gset string) ltac:(set_solver)). lia.
Qed.

Definition enough_fuel (g : GridSearch) (b : XYbounds) : nat := length (cells (grid_width g b) (grid_height g b)) + 2.

Lemma visited_in_grid g b obstacles goal c q : obstacles <> [] -> path sqrt hypot (dp_setup g b obstacles) goal c q ->
  idx c ∈ ({[idx goal]} ∪ list_to_set (idx <$> cells (grid_width g b) (grid_height g b)) : gset string).
Proof.
  intros Hne. induction 1 as [|c q m Hp IH Hm Hf|]; [set_solver| |done].
  apply elem_of_union_r, elem_of_list_to_set, list_elem_of_fmap_2. apply free_in_grid in Hf as [? ?]; [|done]. by apply elem_of_cells.
Qed.

Lemma dp_entries g goal s : dp_done sqrt hypot g goal s -> forall c,
  match filter (fun e => e.1 ∈ closed s) (open_set s) !! idx c with
  | Some n => path sqrt hypot g goal c (cost_ n)
  | None => forall q, ~ path sqrt hypot g goal c q
  end.
Proof.
  intros (Hinv & Hd & Hr) c. destruct (open_set s !! idx c) as [n|] eqn:E.
  - rewrite (proj2 (map_lookup_filter_Some (fun e => e.1 ∈ closed s) (open_set s) (idx c) n)) by (split; [done|]; simpl; apply Hd; by rewrite E).
    destruct (inv_node _ _ _ _ s Hinv _ _ E) as ([_ Hc%idx_inj] & _ & Hp). by rewrite <- Hc.
  - rewrite (proj2 (map_lookup_filter_None (fun e => e.1 ∈ closed s) (open_set s) (idx c))) by (by left). intros q Hq%Hr%Hd. rewrite E in Hq. by destruct Hq.
Qed.

(** C34. With at least one obstacle GenerateDpMap ends, after at most as many rounds as the
    grid has cells and two more, and then CheckDpMap answers for every point: a finite
    answer is the cost of a way through free cells of the grid from the end point to the
    point's cell, and infinity means that there is no such way. *)
Theorem dp_map_is_reachability g ex ey b obstacles fuel : obstacles <> [] -> (enough_fuel g b <= fuel)%nat ->
  exists g', GenerateDpMap sqrt hypot fuel g ex ey b obstacles = Some g' /\ forall sx sy,
    match CheckDpMap g' sx sy with
    | Some d => exists q, path sqrt hypot (dp_setup g b obstacles) (cell_at g b ex ey) (cell_at g b sx sy) q /\
                          (d == q * xy_grid_resolution_ g)%Q
    | None => forall q, ~ path sqrt hypot (dp_setup g b obstacles) (cell_at g b ex ey) (cell_at g b sx sy) q
    end.
Proof.
  intros Hne Hf. pose proof (dp_start_ok sqrt hypot (dp_setup g b obstacles) (cell_at g b ex ey)) as Hok.
  destruct (dp_loop_enough sqrt hypot _ _ _ fuel _ Hok (fun c q => visited_in_grid g b obstacles _ c q Hne)) as [s Hs].
  { change (closed (dp_start _)) with (∅ : gset string). rewrite size_empty. unfold enough_fuel in Hf.
    pose proof (size_singleton_list_le (idx (cell_at g b ex ey)) (idx <$> cells (grid_width g b) (grid_height g b))) as E.
    rewrite length_fmap in E. lia. }
  unfold GenerateDpMap. change (NewNode2d_at ex ey (xy_grid_resolution_ (dp_setup g b obstacles)) b)
    with (NewNode2d (cell_at g b ex ey).1 (cell_at g b ex ey).2). rewrite Hs. eexists; split; [done|].
  intros sx sy. unfold CheckDpMap. simpl. destruct (dp_loop_done _ _ _ _ fuel _ _ Hok Hs) as [Hd _].
  pose proof (dp_entries _ _ s Hd (cell_at g b sx sy)) as He. unfold idx in He. simpl in He.
  change (CalcIndex sx sy (xy_grid_resolution_ g) b) with (idx (cell_at g b sx sy)).
  unfold idx; simpl. destruct (filter _ _ !! _); simpl; [|done]. eauto using Qeq_refl.
Qed.

(** Without obstacles the search leaves the grid and never ends. *)
Theorem open_space_is_searched_forever fuel g ex ey b : GenerateDpMap sqrt hypot fuel g ex ey b [] = None.
Proof.
  unfold GenerateDpMap. set (goal := cell_at g b ex ey).
  change (NewNode2d_at ex ey (xy_grid_resolution_ (dp_setup g b [])) b) with (NewNode2d goal.1 goal.2).
  destruct (dp_loop _ _ _ _ _) as [s|] eqn:E; [|done]. exfalso.
  destruct (dp_loop_done sqrt hypot _ goal fuel _ _ (dp_start_ok _ _ _ _) E) as [(_ & _ & Hr) Hsz].
  change (closed (dp_start _)) with (∅ : gset string) in Hsz. rewrite size_empty in Hsz.
  assert (forall k : nat, exists q, path sqrt hypot (dp_setup g b []) goal (goal.1 + Z.of_nat k, goal.2) q) as Hpath.
  { induction k as [|k [q IH]]; [exists 0%Q; rewrite Z.add_0_r; destruct goal; apply path_goal|].
    eexists. replace (goal.1 + Z.of_nat (S k), goal.2) with (step_to (goal.1 + Z.of_nat k, goal.2) (1, 0)) by (unfold step_to; simpl; f_equal; lia).
    apply path_move; [exact IH|unfold moves; set_solver|done]. }
  set (row := (fun k : nat => idx (goal.1 + Z.of_nat k, goal.2)) <$> seq 0 fuel).
  assert (NoDup row) as Hnd.
  { apply NoDup_fmap_2; [|apply NoDup_seq]. intros i j Eij%idx_inj. simplify_eq. lia. }
  assert ((list_to_set row : gset string) ⊆ closed s) as Hsub.
  { intros id. rewrite elem_of_list_to_set. intros (k & -> & _)%list_elem_of_fmap. destruct (Hpath k) as [q Hq]. by eapply Hr. }
  apply subseteq_size in Hsub. rewrite size_list_to_set in Hsub by done. unfold row in Hsub. rewrite length_fmap, length_seq in Hsub. lia.
Qed.

(** The local variable final_node_ of GenerateAStarPath hides the member that
    LoadGridAStarResult reads: no call ever returns a path. *)
Theorem astar_never_returns_a_path fuel g sx sy ex ey b obstacles g' r : final_node_ g = None ->
  GenerateAStarPath sqrt hypot fuel g sx sy ex ey b obstacles = Some (g', r) -> r = None.
Proof.
  intros Hf. unfold GenerateAStarPath. destruct (astar_loop _ _ _ _ _ _) as [[s [id|]]|]; simpl; [|by intros [= _ <-]|done].
  unfold LoadGridAStarResult. simpl. by rewrite Hf.
Qed.
End dp_map.

(** ** A priority queue *)
Fixpoint least (e : string * double) (q : Queue) : string * double * Queue :=
  match q with
  | [] => (e, [])
  | e' :: q => if dlt e'.2 e.2 then let '(m, r) := least e' q in (m, e :: r) else let '(m, r) := least e q in (m, e' :: r)
  end.
#[export] Instance list_queue : PriorityQueue := {| pop q := match q with [] => None | e :: q => Some (least e q) end |}.
Lemma least_spec e q : let '(m, r) := least e q in e :: q ≡ₚ m :: r /\ forall e', e' ∈ e :: q -> (m.2 <= e'.2)%Q.
Proof.
  revert e. induction q as [|e1 q IH]; intros e; simpl; [split; [done|]; intros e' ->%list_elem_of_singleton; lra|].
  destruct (dlt e1.2 e.2) eqn:E; [specialize (IH e1); destruct (least e1 q) as [m r]|specialize (IH e); destruct (least e q) as [m r]];
    destruct IH as [Hp Hm]; dsimp.
  - split; [rewrite Hp; solve_Permutation|]. pose proof (Hm e1 ltac:(left)). intros e' [->|Hin]%elem_of_cons; [lra|by apply Hm].
  - split; [rewrite (Permutation_swap e1 e q), Hp; solve_Permutation|]. pose proof (Hm e ltac:(left)).
    intros e' [->|[->|Hin]%elem_of_cons]%elem_of_cons; [done|lra|apply Hm; by right].
Qed.
#[export] Instance list_queue_laws : PriorityQueueLaws.
Proof.
  split; [done|]. intros [|e q] Hne; [done|]. pose proof (least_spec e q) as Hs. simpl. destruct (least e q) as [m r]. eexists m, r. by destruct Hs.
Qed.

(** An obstacle that is the point ([x], [y]). *)
Definition post (x y : Z) : list LineSegment2d :=
  let p := mkVec (inject_Z x) (inject_Z y) in [NewSegment hypot52 (fun _ _ => 0%Q) p p].
Definition parking : GridSearch := NewGridSearch 1 (1 # 2).
Definition lot : XYbounds := mkBounds 0 5 0 3.

Definition cost_at (g : option GridSearch) (x y : Z) : option double := g ← g; CheckDpMap g (inject_Z x) (inject_Z y).

(** The lot with two posts at (1, 1) and (1, 2): the way from (0, 2) to (5, 0) down, down
    and right is shorter than what the map says, since a cell whose cost has been lowered is
    expanded at its old path cost. *)
Theorem dp_cost_is_not_least : exists d,
  cost_at (GenerateDpMap sqrt52 hypot52 26 parking 0 2 lot [post 1 1; post 1 2]) 5 0 = Some d /\
  exists q, path sqrt52 hypot52 (dp_setup parking lot [post 1 1; post 1 2]) (0, 2) (5, 0) q /\ (q < d)%Q.
Proof.
  eexists. split; [vm_compute; reflexivity|].
  exists (0 + move_cost sqrt52 (0, -1)%Z + move_cost sqrt52 (1, -1)%Z + move_cost sqrt52 (1, 0)%Z + move_cost sqrt52 (1, 0)%Z +
          move_cost sqrt52 (1, 0)%Z + move_cost sqrt52 (1, 0)%Z)%Q.
  split; [|apply dlt_true; vm_compute; reflexivity].
  repeat match goal with
  | |- path _ _ _ _ ?c (?q + move_cost sqrt52 ?m) =>
      let c' := eval vm_compute in (c.1 - m.1, c.2 - m.2) in
      change c with (step_to c' m); apply (path_move _ _ _ _ c' q m);
      [|apply (bool_decide_eq_true_1 (m ∈ moves)); vm_compute; reflexivity|vm_compute; reflexivity]
  end.
  apply path_goal.
Qed.

(** Obstacles are compared with the indexes of cells, not with their positions: a grid
    that starts at x = 10 does not see the post at (12, 1), which is in its cell (2, 1). *)
Theorem obstacle_is_checked_in_the_wrong_place :
  let b := mkBounds 10 20 0 3 in
  cell_at parking b 12 1 = (2, 1) /\ free hypot52 (dp_setup parking b [post 12 1]) (2, 1) /\
  cell_at parking (mkBounds 0 20 0 3) 12 1 = (12, 1) /\ ~ free hypot52 (dp_setup parking (mkBounds 0 20 0 3) [post 12 1]) (12, 1).
Proof. split; [vm_compute; reflexivity|]. split; [vm_compute; reflexivity|]. split; [vm_compute; reflexivity|]. vm_compute. discriminate. Qed.

(** A search that reaches its end follows a null pointer; and before the first
    GenerateDpMap the grid has a single cell. *)
Example astar_follows_null :
  (g ← GenerateDpMap sqrt52 hypot52 26 parking 0 2 lot [post 1 1]; GenerateAStarPath sqrt52 hypot52 30 g 0 2 1 3 lot [post 1 1]) = None /\
  (g ← GenerateDpMap sqrt52 hypot52 26 parking 0 2 lot [post 1 1];
   astar_loop sqrt52 hypot52 30 g (NewNode2d_at 1 3 1 lot) (dp_start (NewNode2d_at 0 2 1 lot)) ≫= fun r => r.2) = Some (idx (1, 3)).
Proof. split; vm_compute; reflexivity. Qed.
Example astar_without_dp_map : option_map snd (GenerateAStarPath sqrt52 hypot52 30 parking 0 2 1 3 lot [post 1 1]) = Some None.
Proof. vm_compute. reflexivity. Qed.

Lemma dp_map_is_reachability_witness : (enough_fuel parking lot <= 26)%nat /\
  exists g', GenerateDpMap sqrt52 hypot52 26 parking 0 2 lot [post 1 1; post 1 2] = Some g' /\ forall sx sy,
    match CheckDpMap g' sx sy with
    | Some d => exists q, path sqrt52 hypot52 (dp_setup parking lot [post 1 1; post 1 2]) (cell_at parking lot 0 2) (cell_at parking lot sx sy) q /\
                          (d == q * xy_grid_resolution_ parking)%Q
    | None => forall q, ~ path sqrt52 hypot52 (dp_setup parking lot [post 1 1; post 1 2]) (cell_at parking lot 0 2) (cell_at parking lot sx sy) q
    end.
Proof.
  split; [vm_compute; lia|].
  apply (dp_map_is_reachability sqrt52 hypot52 parking 0 2 lot [post 1 1; post 1 2] 26); [done|vm_compute; lia].
Defined.
Example dp_map_values :
  map (fun c => bool_decide (is_Some (cost_at (GenerateDpMap sqrt52 hypot52 26 parking 0 2 lot [post 1 1; post 1 2]) c.1 c.2))) [(0, 2); (5, 3); (1, 2)]
  = [true; true; false].
Proof. vm_compute. reflexivity. Qed.
