(* ===== verification/RouteSegments.v ===== *)
(** RouteSegments.v -- sequences of lane segments along a route

    - src/src/apollo/modules/map/pnc_map/path.h: LaneWaypoint, LaneSegment
    - src/src/apollo/modules/map/pnc_map/route_segments.{h,cc}

    A lane of the map is the record [LaneInfo] of what is used of it: its id, length and
    neighbours, and the functions that project points onto it.  [None] is a null pointer
    of a lane, and, of a function that dereferences the first or last segment, undefined
    behaviour. *)

From S2P Require Import Prelude.
From S2P Require Import Double.
From S2P Require Import Geometry.
Local Open Scope Q_scope.

Record LaneInfo := mkLane {
  lane_id : string; total_length : double;
  successor_id : list string; predecessor_id : list string;
  left_neighbor_forward_lane_id : list string; right_neighbor_forward_lane_id : list string;
  Lane_GetProjection : Vec2d -> option (double * double);
  Lane_GetNearestPoint : Vec2d -> Vec2d * double;
  Lane_GetSmoothPoint : double -> Vec2d;
  Lane_Heading : double -> double;
  Lane_GetWidth : double -> double * double }.

Record LaneWaypoint := mkWaypoint { wp_lane : option LaneInfo; wp_s : double; wp_l : double }.
Definition NewLaneWaypoint (lane : LaneInfo) (s : double) : LaneWaypoint := mkWaypoint (Some lane) s 0.
Definition NoWaypoint : LaneWaypoint := mkWaypoint None 0 0.
Record LaneSegment := mkLaneSeg { lane : LaneInfo; start_s : double; end_s : double }.
Definition Seg_Length (s : LaneSegment) : double := end_s s - start_s s.

(** Messages of the routing module. *)
Record Routing_LaneWaypoint := mkRoutingWaypoint { rw_id : option string; rw_s : option double }.
Record Routing_LaneSegment := mkRoutingSegment { rs_id : string; rs_start_s : double; rs_end_s : double }.
Inductive ChangeLaneType := FORWARD | LEFT | RIGHT.
#[export] Instance change_lane_eq : EqDecision ChangeLaneType.
Proof. solve_decision. Defined.

Definition kSegmentationEpsilon : double := 1 # 5.

Definition within (lane_id' : string) (start_s' end_s' : double) (id : string) (s : double) : bool :=
  bool_decide (lane_id' = id) && dle (start_s' - kSegmentationEpsilon) s && dle s (end_s' + kSegmentationEpsilon).
Definition WithinLaneSegment (g : LaneSegment) (w : LaneWaypoint) : bool :=
  match wp_lane w with Some l => within (lane_id (lane g)) (start_s g) (end_s g) (lane_id l) (wp_s w) | None => false end.
Definition WithinLaneSegment_routing (g : LaneSegment) (w : Routing_LaneWaypoint) : bool :=
  within (lane_id (lane g)) (start_s g) (end_s g) (default EmptyString (rw_id w)) (default 0 (rw_s w)).
Definition WithinRoutingSegment (g : Routing_LaneSegment) (w : LaneWaypoint) : bool :=
  match wp_lane w with Some l => within (rs_id g) (rs_start_s g) (rs_end_s g) (lane_id l) (wp_s w) | None => false end.

Record RouteSegments := mkRouteSegments {
  segs : list LaneSegment; route_end_waypoint_ : LaneWaypoint; can_exit_ : bool; is_on_segment_ : bool; is_neighbor_ : bool;
  next_action_ : ChangeLaneType; previous_action_ : ChangeLaneType; id_ : string; stop_for_destination_ : bool }.
Definition NewRouteSegments : RouteSegments := mkRouteSegments [] NoWaypoint false false false FORWARD FORWARD EmptyString false.
Definition set_segs (r : RouteSegments) (l : list LaneSegment) : RouteSegments :=
  mkRouteSegments l (route_end_waypoint_ r) (can_exit_ r) (is_on_segment_ r) (is_neighbor_ r) (next_action_ r) (previous_action_ r)
    (id_ r) (stop_for_destination_ r).
Definition SetProperties (r other : RouteSegments) : RouteSegments :=
  mkRouteSegments (segs r) (route_end_waypoint_ other) (can_exit_ other) (is_on_segment_ other) (is_neighbor_ r) (next_action_ other)
    (previous_action_ other) (id_ other) (stop_for_destination_ other).

Definition FirstWaypoint (l : list LaneSegment) : option LaneWaypoint :=
  g ← head l; Some (mkWaypoint (Some (lane g)) (start_s g) 0).
Definition LastWaypoint (l : list LaneSegment) : option LaneWaypoint :=
  g ← last l; Some (mkWaypoint (Some (lane g)) (end_s g) 0).
Definition Route_Length (l : list LaneSegment) : double := foldl (fun s g => s + Seg_Length g) 0 l.
Definition IsWaypointOnSegment (l : list LaneSegment) (w : LaneWaypoint) : bool := existsb (fun g => WithinLaneSegment g w) l.

Definition IsConnectedSegment (l other : list LaneSegment) : bool :=
  match FirstWaypoint l, LastWaypoint l, FirstWaypoint other, LastWaypoint other with
  | Some f, Some e, Some f', Some e' =>
      IsWaypointOnSegment l f' || IsWaypointOnSegment l e' || IsWaypointOnSegment other f || IsWaypointOnSegment other e
  | _, _, _, _ => false
  end.

(** The segments before the first one that contains [w], and the rest. *)
Fixpoint split_at (w : LaneWaypoint) (l : list LaneSegment) : list LaneSegment * list LaneSegment :=
  match l with
  | [] => ([], [])
  | g :: l' => if WithinLaneSegment g w then ([], l) else let '(a, b) := split_at w l' in (g :: a, b)
  end.
Definition widen (g by' : LaneSegment) : LaneSegment := mkLaneSeg (lane g) (dmin (start_s g) (start_s by')) (dmax (end_s g) (end_s by')).

Definition Stitch_front (l other : list LaneSegment) : option (list LaneSegment * bool) :=
  first ← FirstWaypoint l;
  f' ← FirstWaypoint other;
  let has_overlap := IsWaypointOnSegment l f' in
  if IsWaypointOnSegment other first then
    match l, split_at first other with
    | g :: l', (before, iter :: _) => Some (before ++ widen g iter :: l', true)
    | _, _ => None
    end
  else Some (l, has_overlap).
Definition Stitch_back (l other : list LaneSegment) (has_overlap : bool) : option (list LaneSegment * bool) :=
  last_w ← LastWaypoint l;
  if IsWaypointOnSegment other last_w then
    match rev l, split_at last_w (rev other) with
    | g :: l', (after, iter :: _) => Some (rev l' ++ [widen g iter] ++ rev after, true)
    | _, _ => None
    end
  else Some (l, has_overlap).
Definition Stitch (l other : list LaneSegment) : option (list LaneSegment * bool) :=
  '(l, has_overlap) ← Stitch_front l other; Stitch_back l other has_overlap.

(** The waypoint at distance [s] from the start. *)
Fixpoint GetWaypoint_from (accumulated_s s : double) (l : list LaneSegment) : option LaneWaypoint :=
  match l with
  | [] => None
  | g :: l =>
      if dlt (accumulated_s - kSegmentationEpsilon) s && dlt s (accumulated_s + end_s g - start_s g + kSegmentationEpsilon) then
        let ws := s - accumulated_s + start_s g in
        Some (NewLaneWaypoint (lane g) (if dlt ws (start_s g) then start_s g else if dlt (end_s g) ws then end_s g else ws))
      else GetWaypoint_from (accumulated_s + (end_s g - start_s g)) s l
  end.
Definition GetWaypoint (l : list LaneSegment) (s : double) : option LaneWaypoint := GetWaypoint_from 0 s l.

Record SLPoint := mkSL { sl_s : double; sl_l : double }.
(** The nearest projection so far: min_l (none is infinity), the point and the waypoint. *)
Definition Projection : Type := option (double * SLPoint * LaneWaypoint).
Fixpoint GetProjection_from (point : Vec2d) (accumulated_s : double) (best : Projection) (l : list LaneSegment) : option Projection :=
  match l with
  | [] => Some best
  | g :: l =>
      '(lane_s, lane_l) ← Lane_GetProjection (lane g) point;
      let next := accumulated_s + (end_s g - start_s g) in
      if dlt lane_s (start_s g - kSegmentationEpsilon) || dlt (end_s g + kSegmentationEpsilon) lane_s then GetProjection_from point next best l
      else if (match best with Some (min_l, _, _) => dlt (fabs lane_l) min_l | None => true end) then
        let lane_s := dmin (end_s g) (dmax (start_s g) lane_s) in
        GetProjection_from point next
          (Some (fabs lane_l, mkSL (lane_s - start_s g + accumulated_s) lane_l, NewLaneWaypoint (lane g) lane_s)) l
      else GetProjection_from point next best l
  end.
Definition GetProjection (l : list LaneSegment) (point : Vec2d) : option (SLPoint * LaneWaypoint) :=
  best ← GetProjection_from point 0 None l; '(_, sl, w) ← best; Some (sl, w).

(** Shrink: the segments from [look_backward] before [s] to [look_forward] behind the waypoint. *)
Fixpoint shrink_front (limit acc_s : double) (l : list LaneSegment) : option (list LaneSegment) :=
  match l with
  | [] => None
  | g :: l' =>
      if dlt (acc_s + Seg_Length g) limit then shrink_front limit (acc_s + Seg_Length g) l'
      else
        let g := mkLaneSeg (lane g) (dmax (start_s g) (limit - acc_s + start_s g)) (end_s g) in
        Some (if dlt (Seg_Length g) kSegmentationEpsilon then l' else g :: l')
  end.
Fixpoint shrink_tail (look_forward acc_s : double) (l : list LaneSegment) : list LaneSegment :=
  match l with
  | [] => []
  | g :: l' =>
      if dlt (acc_s + Seg_Length g) look_forward then g :: shrink_tail look_forward (acc_s + Seg_Length g) l'
      else [mkLaneSeg (lane g) (start_s g) (dmin (end_s g) (look_forward - acc_s + start_s g))]
  end.
Definition Shrink_at (l : list LaneSegment) (s : double) (w : LaneWaypoint) (look_backward look_forward : double) : list LaneSegment :=
  match shrink_front (s - look_backward) 0 l with
  | None => l
  | Some l =>
      match split_at w l with
      | (before, []) => l
      | (before, g :: after) =>
          let acc_s := end_s g - wp_s w in
          if dle look_forward acc_s then before ++ [mkLaneSeg (lane g) (start_s g) (wp_s w + look_forward)]
          else before ++ g :: shrink_tail look_forward acc_s after
      end
  end.
Definition Shrink (l : list LaneSegment) (s look_backward look_forward : double) : option (list LaneSegment) :=
  w ← GetWaypoint l s; Some (Shrink_at l s w look_backward look_forward).
Definition Shrink_point (l : list LaneSegment) (point : Vec2d) (look_backward look_forward : double) : option (list LaneSegment) :=
  '(sl, _) ← GetProjection l point; Shrink l (sl_s sl) look_backward look_forward.

Section drive.
Context (hypot : double -> double -> double) (AngleDiff : double -> double -> double) (M_PI : double).

(** [None] is a waypoint without a lane. *)
Definition CanDriveFrom (l : list LaneSegment) (waypoint : LaneWaypoint) : option bool :=
  wl ← wp_lane waypoint;
  let point := Lane_GetSmoothPoint wl (wp_s waypoint) in
  if IsWaypointOnSegment l waypoint then Some true
  else match GetProjection l point with
  | None => Some false
  | Some (route_sl, segment_waypoint) =>
      sl ← wp_lane segment_waypoint;
      if dlt (2 * 10) (fabs (sl_l route_sl)) then Some false
      else
        let heading_diff := AngleDiff (Lane_Heading wl (wp_s waypoint)) (Lane_Heading sl (wp_s segment_waypoint)) in
        if dlt (M_PI / 2) (fabs heading_diff) then Some false
        else
          let '(waypoint_left_width, waypoint_right_width) := Lane_GetWidth wl (wp_s waypoint) in
          let '(segment_left_width, segment_right_width) := Lane_GetWidth sl (wp_s segment_waypoint) in
          let segment_projected_point := Lane_GetSmoothPoint sl (wp_s segment_waypoint) in
          let dist := hypot (x_ point - x_ segment_projected_point) (y_ point - y_ segment_projected_point) in
          let kLaneSeparationDistance := 3 # 10 in
          if dlt (sl_l route_sl) 0
          then Some (negb (dlt (waypoint_left_width + segment_right_width + kLaneSeparationDistance) dist))
          else Some (negb (dlt (waypoint_right_width + segment_left_width + kLaneSeparationDistance) dist))
  end.
End drive.

(** ** Waypoints and positions *)
Definition seg_ok (g : LaneSegment) : Prop := start_s g <= end_s g.
Fixpoint total (l : list LaneSegment) : double := match l with [] => 0 | g :: l => Seg_Length g + total l end.
(** [w] is on the segment of [l] that starts [before] metres from the start. *)
Definition at_position (l : list LaneSegment) (w : LaneWaypoint) (pos : double) : Prop :=
  exists before g after, l = before ++ g :: after /\ wp_lane w = Some (lane g) /\ (start_s g <= wp_s w /\ wp_s w <= end_s g) /\
    pos == total before + (wp_s w - start_s g).

Lemma at_position_cons g l w pos pos' : at_position l w pos -> pos' == Seg_Length g + pos -> at_position (g :: l) w pos'.
Proof. intros (before & g' & after & -> & Hl & Hs & Hp) E. exists (g :: before), g', after. split; [done|]. split; [done|]. split; [done|]. simpl. lra. Qed.
Lemma at_position_here g l ws l' pos : start_s g <= ws -> ws <= end_s g -> pos == ws - start_s g -> at_position (g :: l) (mkWaypoint (Some (lane g)) ws l') pos.
Proof. intros H1 H2 H3. exists [], g, l. simpl. split; [done|]. split; [done|]. split; [done|]. lra. Qed.

Lemma at_position_within l w pos : at_position l w pos -> IsWaypointOnSegment l w = true.
Proof.
  intros (before & g & after & -> & Hl & [H1 H2] & _). unfold IsWaypointOnSegment. rewrite existsb_app. apply orb_true_iff; right. simpl.
  unfold WithinLaneSegment, within. rewrite Hl, bool_decide_true by done. unfold kSegmentationEpsilon.
  rewrite (proj2 (dle_true _ _)), (proj2 (dle_true _ _)) by lra. done.
Qed.

(** The waypoint at distance [s] lies on the route, less than 0.2 metres from [s], and there is one for
    every [s] between 0 and the length of the route. *)
Theorem waypoint_at_distance l s : Forall seg_ok l ->
  match GetWaypoint l s with
  | Some w => exists pos, at_position l w pos /\ - kSegmentationEpsilon <= pos - s /\ pos - s <= kSegmentationEpsilon
  | None => l = [] \/ s < 0 \/ total l < s
  end.
Proof.
  intros Hok. unfold GetWaypoint. enough (forall acc, match GetWaypoint_from acc s l with
    | Some w => exists pos, at_position l w pos /\ - kSegmentationEpsilon <= acc + pos - s /\ acc + pos - s <= kSegmentationEpsilon
    | None => l = [] \/ s < acc \/ acc + total l < s end) as Hall.
  { specialize (Hall 0). destruct (GetWaypoint_from 0 s l); [destruct Hall as (pos & ? & ? & ?); exists pos; split; [done|lra]|].
    destruct Hall as [?|[?|?]]; [by left|right; left; lra|right; right; lra]. }
  induction Hok as [|g l Hg Hok IH]; intros acc; simpl; [by left|]. unfold seg_ok in Hg. unfold kSegmentationEpsilon in *.
  destruct (dlt _ s && dlt s _) eqn:E.
  - apply andb_true_iff in E as [E1 E2]. dsimp. eexists. split; [apply at_position_here; [dcase; lra|dcase; lra|reflexivity]|]. dcase; lra.
  - specialize (IH (acc + (end_s g - start_s g))). destruct (GetWaypoint_from _ s l) as [w|].
    + destruct IH as (pos & Hp & ? & ?). exists (Seg_Length g + pos). split; [by eapply at_position_cons|]. unfold Seg_Length. lra.
    + right. unfold Seg_Length. apply andb_false_iff in E. destruct E as [E|E]; dsimp; [left; lra|].
      destruct IH as [->|[?|?]]; [right; simpl; lra|lra|right; lra].
Qed.

(** A projection onto the route is a waypoint on it, at the distance that is returned. *)
Theorem projection_is_on_route l p sl w : Forall seg_ok l -> GetProjection l p = Some (sl, w) -> at_position l w (sl_s sl).
Proof.
  intros Hok. unfold GetProjection. enough (forall acc best r, GetProjection_from p acc best l = Some r ->
    r = best \/ exists d sl w pos, r = Some (d, sl, w) /\ at_position l w pos /\ sl_s sl == acc + pos) as Hall.
  { destruct (GetProjection_from p 0 None l) as [r|] eqn:E; [|done]. simpl. destruct (Hall _ _ _ E) as [->|(d & sl' & w' & pos & -> & Hp & Hs)]; [done|].
    simpl. intros [= <- <-]. destruct Hp as (before & g & after & -> & Hl & Hb & Hp). exists before, g, after. split; [done|]. split; [done|]. split; [done|]. lra. }
  induction Hok as [|g l Hg Hok IH]; intros acc best r; simpl; [intros [= <-]; by left|]. unfold seg_ok in Hg.
  destruct (Lane_GetProjection (lane g) p) as [[lane_s lane_l]|]; [|done]. simpl.
  assert (forall best', GetProjection_from p (acc + (end_s g - start_s g)) best' l = Some r ->
    r = best' \/ exists d sl w pos, r = Some (d, sl, w) /\ at_position (g :: l) w pos /\ sl_s sl == acc + pos) as Hnext.
  { intros best' Hr. destruct (IH _ _ _ Hr) as [->|(d & sl' & w' & pos & -> & Hp & Hs)]; [by left|right].
    exists d, sl', w', (Seg_Length g + pos). split; [done|]. split; [by eapply at_position_cons|]. unfold Seg_Length. lra. }
  destruct (dlt lane_s _ || dlt _ lane_s); [apply Hnext|]. destruct (match best with Some _ => _ | None => _ end); [|apply Hnext].
  intros [->|Hr]%Hnext; [right|by right]. eexists _, _, _, _. split; [done|]. split; [apply at_position_here; [dcase; lra|dcase; lra|reflexivity]|]. simpl. lra.
Qed.
