(* ===== verification/PncMap.v ===== *)
(** PncMap.v -- where the car is on its route, and the lanes ahead of it

    - src/src/apollo/modules/map/pnc_map/pnc_map.{h,cc}

    The map is the class [HDMap]: lanes by id, and the lanes near a point.  The flags of
    the planner are the record [Flags].  [None] is a failed CHECK, undefined behaviour or,
    of ExtendSegments, fuel that has run out.  next_routing_waypoint_index_ is a size_t and
    wraps around. *)

From S2P Require Import Prelude.
From S2P Require Import Double.
From S2P Require Import Geometry.
From S2P Require Import RouteSegments.
From S2P Require Import Text.
Local Open Scope Z_scope.

Class HDMap := {
  GetLaneById : string -> option LaneInfo;
  (** within 10 metres of the point and with this heading; [None] is a status below 0 *)
  GetLanesWithHeading : Vec2d -> double -> option (list LaneInfo) }.

Record Flags := mkFlags {
  look_backward_distance : double; look_forward_time_sec : double; look_forward_short_distance : double; look_forward_long_distance : double;
  replan_lateral_distance_threshold : double; replan_longitudinal_distance_threshold : double }.

Record Passage := mkPassage { passage_segment : list Routing_LaneSegment; can_exit : bool; change_lane_type : ChangeLaneType }.
Record RoutingResponse := mkRouting { road : list (list Passage); routing_request : option (list Routing_LaneWaypoint) }.
Record VehicleState := mkVehicle { vx : double; vy : double; heading : double; linear_velocity : double }.
Record RouteIndex := mkRouteIndex { segment : LaneSegment; index : Z * Z * Z }.
Record WaypointIndex := mkWaypointIndex { waypoint : LaneWaypoint; wp_index : Z }.

Record PncMap := mkPnc {
  routing_ : RoutingResponse; route_indices_ : list RouteIndex; range_start_ : Z; range_end_ : Z;
  range_lane_ids_ : gset string; all_lane_ids_ : gset string; routing_waypoint_index_ : list WaypointIndex;
  next_routing_waypoint_index_ : Z; adc_state_ : option VehicleState; adc_route_index_ : Z; adc_waypoint_ : LaneWaypoint;
  stop_for_destination : bool }.

Definition NewPncMap : PncMap := mkPnc (mkRouting [] None) [] 0 0 ∅ ∅ [] 0 None (-1) NoWaypoint false.

Definition set_next (m : PncMap) (n : Z) : PncMap :=
  mkPnc (routing_ m) (route_indices_ m) (range_start_ m) (range_end_ m) (range_lane_ids_ m) (all_lane_ids_ m) (routing_waypoint_index_ m)
    n (adc_state_ m) (adc_route_index_ m) (adc_waypoint_ m) (stop_for_destination m).
Definition set_range (m : PncMap) (s e : Z) (ids : gset string) : PncMap :=
  mkPnc (routing_ m) (route_indices_ m) s e ids (all_lane_ids_ m) (routing_waypoint_index_ m)
    (next_routing_waypoint_index_ m) (adc_state_ m) (adc_route_index_ m) (adc_waypoint_ m) (stop_for_destination m).

(** ** The next waypoint *)
Fixpoint go_back (p : WaypointIndex -> bool) (wps : list WaypointIndex) (n : nat) : nat :=
  match n with
  | O => O
  | S m => match wps !! n with Some w => if p w then go_back p wps m else n | None => n end
  end.
Fixpoint skip (p : WaypointIndex -> bool) (l : list WaypointIndex) (n : nat) : nat :=
  match l with [] => n | w :: l => if p w then skip p l (S n) else n end.
Definition go_forward (p : WaypointIndex -> bool) (wps : list WaypointIndex) (n : nat) : nat := skip p (drop n wps) n.

Definition UpdateNextRoutingWaypointIndex (m : PncMap) (cur_index : Z) : PncMap :=
  let wps := routing_waypoint_index_ m in
  let size := Z.of_nat (length wps) in
  if cur_index <? 0 then set_next m 0
  else if Z.of_nat (length (route_indices_ m)) <=? cur_index then set_next m (u64 (size - 1))
  else
    let s := wp_s (adc_waypoint_ m) in
    let next := next_routing_waypoint_index_ m in
    if next <? size then
      let n := go_back (fun w => cur_index <? wp_index w) wps (Z.to_nat next) in
      let n := go_back (fun w => bool_decide (wp_index w = cur_index) && dlt s (wp_s (waypoint w))) wps n in
      let n := go_forward (fun w => wp_index w <? cur_index) wps n in
      let n := go_forward (fun w => bool_decide (cur_index = wp_index w) && dle (wp_s (waypoint w)) s) wps n in
      set_next m (if size <=? Z.of_nat n then u64 (size - 1) else Z.of_nat n)
    else set_next m (u64 (size - 1)).

Definition FutureRouteWaypoints (m : PncMap) : option (list Routing_LaneWaypoint) :=
  let waypoints := default [] (routing_request (routing_ m)) in
  if next_routing_waypoint_index_ m <=? Z.of_nat (length waypoints)
  then Some (drop (Z.to_nat (next_routing_waypoint_index_ m)) waypoints) else None.

(** ** The range of lanes ahead *)
Fixpoint extend_range (l : list RouteIndex) (range_end : Z) (ids : gset string) : Z * gset string :=
  match l with
  | [] => (range_end, ids)
  | r :: l =>
      let id := lane_id (lane (segment r)) in
      if bool_decide (id ∈ ids) then (range_end, ids) else extend_range l (range_end + 1) ({[id]} ∪ ids)
  end.
Definition UpdateRoutingRange (m : PncMap) (adc_index : Z) : PncMap :=
  let '(s, e, ids) :=
    if (adc_index <? range_start_ m) || (range_end_ m <? adc_index)
    then (Z.max 0 (adc_index - 1), Z.max 0 (adc_index - 1), ∅) else (range_start_ m, range_end_ m, range_lane_ids_ m) in
  let s := Z.max s (adc_index - 1) in
  let '(e, ids) := extend_range (drop (Z.to_nat e) (route_indices_ m)) e ids in
  set_range m s e ids.

(** ** Where a waypoint is on the route *)
Fixpoint search_forward (w : LaneWaypoint) (l : list RouteIndex) (i : Z) : Z :=
  match l with [] => i | r :: l => if WithinLaneSegment (segment r) w then i else search_forward w l (i + 1) end.
Definition SearchForwardWaypointIndex (m : PncMap) (start : Z) (w : LaneWaypoint) : Z :=
  let i := Z.max start 0 in search_forward w (drop (Z.to_nat i) (route_indices_ m)) i.
Fixpoint search_backward (w : LaneWaypoint) (l : list RouteIndex) (n : nat) : Z :=
  match n with
  | O => -1
  | S i => match l !! i with Some r => if WithinLaneSegment (segment r) w then Z.of_nat i else search_backward w l i | None => -1 end
  end.
Definition SearchBackwardWaypointIndex (m : PncMap) (start : Z) (w : LaneWaypoint) : Z :=
  let i := Z.min (Z.of_nat (length (route_indices_ m)) - 1) start in
  if i <? 0 then i else search_backward w (route_indices_ m) (S (Z.to_nat i)).
Definition NextWaypointIndex (m : PncMap) (i : Z) : Z :=
  if Z.of_nat (length (route_indices_ m)) - 1 <=? i then Z.of_nat (length (route_indices_ m)) - 1
  else if i <? 0 then 0 else i + 1.
Definition GetWaypointIndex (m : PncMap) (w : LaneWaypoint) : Z :=
  let forward_index := SearchForwardWaypointIndex m (adc_route_index_ m) w in
  if Z.of_nat (length (route_indices_ m)) <=? forward_index then SearchBackwardWaypointIndex m (adc_route_index_ m) w
  else if bool_decide (forward_index = adc_route_index_ m) || bool_decide (forward_index = adc_route_index_ m + 1) then forward_index
  else
    let backward_index := SearchBackwardWaypointIndex m (adc_route_index_ m) w in
    if backward_index <? 0 then forward_index
    else if bool_decide (backward_index + 1 = adc_route_index_ m) then backward_index else forward_index.

Definition ValidateRouting (r : RoutingResponse) : bool :=
  negb (bool_decide (road r = [])) &&
  match routing_request r with
  | None => false
  | Some ws => bool_decide (2 <= length ws)%nat &&
      forallb (fun w => bool_decide (is_Some (rw_id w)) && bool_decide (is_Some (rw_s w))) ws
  end.

Section map.
Context {HD : HDMap}.
Context (flags : Flags) (hypot : double -> double -> double) (AngleDiff : double -> double -> double) (M_PI : double).

Definition ToLaneSegment (g : Routing_LaneSegment) : option LaneSegment :=
  l ← GetLaneById (rs_id g); Some (mkLaneSeg l (rs_start_s g) (rs_end_s g)).

(** ** UpdateRoutingResponse *)
Definition indexed {A} (l : list A) : list (Z * A) := imap (fun i a => (Z.of_nat i, a)) l.
Definition route_lanes (r : RoutingResponse) : list (Routing_LaneSegment * (Z * Z * Z)) :=
  '(i, rd) ← indexed (road r); '(j, p) ← indexed rd; '(k, g) ← indexed (passage_segment p); [(g, (i, j, k))].
Definition MakeRouteIndices (r : RoutingResponse) : option (list RouteIndex) :=
  mapM (fun e => s ← ToLaneSegment e.1; Some (mkRouteIndex s e.2)) (route_lanes r).

(** The waypoints of the request that are found, in order, on the segments from the [j]-th on. *)
Fixpoint match_here (r : RouteIndex) (j : Z) (ws : list Routing_LaneWaypoint) : list WaypointIndex * list Routing_LaneWaypoint :=
  match ws with
  | [] => ([], [])
  | w :: ws' =>
      if WithinLaneSegment_routing (segment r) w then
        let '(found, rest) := match_here r j ws' in
        (mkWaypointIndex (NewLaneWaypoint (lane (segment r)) (default 0%Q (rw_s w))) j :: found, rest)
      else ([], ws)
  end.
Fixpoint match_waypoints (l : list RouteIndex) (j : Z) (ws : list Routing_LaneWaypoint) : list WaypointIndex :=
  match l with
  | [] => []
  | r :: l => let '(found, rest) := match_here r j ws in found ++ match_waypoints l (j + 1) rest
  end.

Definition UpdateRoutingResponse (m : PncMap) (r : RoutingResponse) : option (PncMap * bool) :=
  ri ← MakeRouteIndices r;
  let ids := list_to_set ((fun e => rs_id e.1) <$> route_lanes r) in
  let m := mkPnc (routing_ m) ri 0 0 ∅ ids (routing_waypoint_index_ m) 0 (adc_state_ m) (-1) (adc_waypoint_ m) (stop_for_destination m) in
  let m := UpdateRoutingRange m (-1) in
  match default [] (routing_request r) with
  | [] => Some (mkPnc (routing_ m) (route_indices_ m) (range_start_ m) (range_end_ m) (range_lane_ids_ m) (all_lane_ids_ m) []
                  (next_routing_waypoint_index_ m) (adc_state_ m) (adc_route_index_ m) (adc_waypoint_ m) (stop_for_destination m), false)
  | ws => Some (mkPnc r (route_indices_ m) (range_start_ m) (range_end_ m) (range_lane_ids_ m) (all_lane_ids_ m)
                  (match_waypoints (route_indices_ m) 0 ws) (next_routing_waypoint_index_ m) (adc_state_ m) (adc_route_index_ m)
                  NoWaypoint false, true)
  end.

(** ** UpdateVehicleState *)
(** min_distance (none is infinity) and the waypoint so far; the return value is false where
    a projection fails. *)
Fixpoint nearest_lane (m : PncMap) (point : Vec2d) (lanes : list LaneInfo) (min_distance : option double) (w : LaneWaypoint) : LaneWaypoint * bool :=
  match lanes with
  | [] => (w, bool_decide (is_Some (wp_lane w)))
  | l :: lanes =>
      if negb (bool_decide (lane_id l ∈ range_lane_ids_ m)) then nearest_lane m point lanes min_distance w
      else match Lane_GetProjection l point with
      | None => (w, false)
      | Some (s, _) =>
          let kEpsilon := (1 # 2) in
          if dlt (total_length l + kEpsilon)%Q s || dlt (s + kEpsilon)%Q 0 then nearest_lane m point lanes min_distance w
          else
            let '(map_point, distance) := Lane_GetNearestPoint l point in
            if match min_distance with Some d => dlt distance d | None => true end then
              match Lane_GetProjection l map_point with
              | None => (w, false)
              | Some (s, _) => nearest_lane m point lanes (Some distance) (mkWaypoint (Some l) s (wp_l w))
              end
            else nearest_lane m point lanes min_distance w
      end
  end.
Definition GetNearestPointFromRouting (m : PncMap) (state : VehicleState) (w : LaneWaypoint) : LaneWaypoint * bool :=
  let w := mkWaypoint None (wp_s w) (wp_l w) in
  let point := mkVec (vx state) (vy state) in
  match GetLanesWithHeading point (heading state) with
  | None | Some [] => (w, false)
  | Some lanes =>
      let valid_lanes := filter (fun l => lane_id l ∈ range_lane_ids_ m) lanes in
      let valid_lanes := match valid_lanes with [] => filter (fun l => lane_id l ∈ all_lane_ids_ m) lanes | _ => valid_lanes end in
      nearest_lane m point valid_lanes None w
  end.

Definition UpdateVehicleState (m : PncMap) (v : VehicleState) : PncMap * bool :=
  if negb (ValidateRouting (routing_ m)) then (m, false)
  else
    let reset := match adc_state_ m with
      | None => true
      | Some a => dlt (replan_lateral_distance_threshold flags + replan_longitudinal_distance_threshold flags)%Q (hypot (vx a - vx v) (vy a - vy v))
      end in
    let m := if reset
      then mkPnc (routing_ m) (route_indices_ m) (range_start_ m) (range_end_ m) (range_lane_ids_ m) (all_lane_ids_ m)
             (routing_waypoint_index_ m) 0 (adc_state_ m) (-1) (adc_waypoint_ m) false
      else m in
    let '(w, found) := GetNearestPointFromRouting m v (adc_waypoint_ m) in
    let m := mkPnc (routing_ m) (route_indices_ m) (range_start_ m) (range_end_ m) (range_lane_ids_ m) (all_lane_ids_ m)
               (routing_waypoint_index_ m) (next_routing_waypoint_index_ m) (Some v) (adc_route_index_ m) w (stop_for_destination m) in
    if negb found then (m, false)
    else
        let route_index := GetWaypointIndex m (adc_waypoint_ m) in
        if (route_index <? 0) || (Z.of_nat (length (route_indices_ m)) <=? route_index) then (m, false)
        else
          let m := UpdateNextRoutingWaypointIndex m route_index in
          let m := mkPnc (routing_ m) (route_indices_ m) (range_start_ m) (range_end_ m) (range_lane_ids_ m) (all_lane_ids_ m)
                     (routing_waypoint_index_ m) (next_routing_waypoint_index_ m) (adc_state_ m) route_index (adc_waypoint_ m)
                     (stop_for_destination m) in
          let m := UpdateRoutingRange m route_index in
          match last (routing_waypoint_index_ m) with
          | None => (m, false)
          | Some b =>
              let last_index := GetWaypointIndex m (waypoint b) in
              if bool_decide (next_routing_waypoint_index_ m = u64 (Z.of_nat (length (routing_waypoint_index_ m)) - 1)) ||
                 (negb (stop_for_destination m) && bool_decide (last_index = wp_index b))
              then (mkPnc (routing_ m) (route_indices_ m) (range_start_ m) (range_end_ m) (range_lane_ids_ m) (all_lane_ids_ m)
                      (routing_waypoint_index_ m) (next_routing_waypoint_index_ m) (adc_state_ m) (adc_route_index_ m) (adc_waypoint_ m) true, true)
              else (m, true)
          end.

(** ** The lanes to drive on *)
Fixpoint PassageToSegments (l : list Routing_LaneSegment) : option (list LaneSegment) :=
  match l with
  | [] => Some []
  | g :: l =>
      lane_ptr ← GetLaneById (rs_id g);
      rest ← PassageToSegments l;
      Some (mkLaneSeg lane_ptr (dmax 0 (rs_start_s g)) (dmin (total_length lane_ptr) (rs_end_s g)) :: rest)
  end.
(** [None] is the return value false: a lane is missing or there are none. *)
Definition PassageSegments (p : Passage) : option (list LaneSegment) :=
  l ← PassageToSegments (passage_segment p); match l with [] => None | _ => Some l end.

Definition GetNeighborPassages (m : PncMap) (rd : list Passage) (start_passage : nat) : option (list nat) :=
  source_passage ← rd !! start_passage;
  if bool_decide (change_lane_type source_passage = FORWARD) || can_exit source_passage then Some [start_passage]
  else match PassageSegments source_passage with
  | None => Some [start_passage]
  | Some source_segments =>
      let pass_first :=
        if next_routing_waypoint_index_ m <? Z.of_nat (length (routing_waypoint_index_ m)) then
          match routing_waypoint_index_ m !! Z.to_nat (next_routing_waypoint_index_ m) with
          | Some w => IsWaypointOnSegment source_segments (waypoint w) | None => false end
        else false in
      if pass_first then Some [start_passage]
      else
        let neighbor_lanes : gset string := list_to_set (source_segments ≫= fun g =>
          match change_lane_type source_passage with
          | LEFT => left_neighbor_forward_lane_id (lane g) | RIGHT => right_neighbor_forward_lane_id (lane g) | FORWARD => []
          end) in
        Some (start_passage :: List.filter (fun i => negb (bool_decide (i = start_passage)) &&
          match rd !! i with Some p => existsb (fun g => bool_decide (rs_id g ∈ neighbor_lanes)) (passage_segment p) | None => false end)
          (seq 0 (length rd)))
  end.

Definition preferred (m : PncMap) (ids : list string) : option LaneInfo :=
  first ← head ids;
  GetLaneById (default first (head (filter (fun id => id ∈ range_lane_ids_ m) ids))).
Definition GetRouteSuccessor (m : PncMap) (l : LaneInfo) : option LaneInfo := preferred m (successor_id l).
Definition GetRoutePredecessor (m : PncMap) (l : LaneInfo) : option LaneInfo := preferred m (predecessor_id l).

(** *** ExtendSegments *)
Definition kRouteEpsilon : double := 1 # 1000.
Local Open Scope Q_scope.
(** The segments found, from the last to the first, and the lanes that have been used. *)
Fixpoint extend_backward (fuel : nat) (m : PncMap) (l : LaneInfo) (s extend_s : double) (found : list LaneSegment) (unique_lanes : gset string)
    : option (list LaneSegment * gset string) :=
  match fuel with
  | O => None
  | S fuel =>
      if dlt kRouteEpsilon extend_s then
        if dle s kRouteEpsilon then
          match GetRoutePredecessor m l with
          | None => Some (found, unique_lanes)
          | Some l => if bool_decide (lane_id l ∈ unique_lanes) then Some (found, unique_lanes)
                      else extend_backward fuel m l (total_length l) extend_s found unique_lanes
          end
        else
          let length := dmin s extend_s in
          extend_backward fuel m l (s - length) (extend_s - length) (mkLaneSeg l (s - length) s :: found) ({[lane_id l]} ∪ unique_lanes)
      else Some (found, unique_lanes)
  end.

Definition set_end (l : list LaneSegment) (e : double) : list LaneSegment :=
  match rev l with [] => [] | g :: r => rev (mkLaneSeg (lane g) (start_s g) e :: r) end.
Definition same_lane_as_last (l : list LaneSegment) (g : LaneSegment) : bool :=
  match last l with Some b => bool_decide (lane_id (lane b) = lane_id (lane g)) | None => false end.

(** The part of the given segments between [start] and [end']; whether a lane came again, and router_s. *)
Fixpoint clip_segments (segments : list LaneSegment) (start end' router_s : double) (out : list LaneSegment) (unique_lanes : gset string)
    : list LaneSegment * gset string * bool * double :=
  match segments with
  | [] => (out, unique_lanes, false, router_s)
  | g :: segments =>
      let adjusted_start_s := dmax (start - router_s + start_s g) (start_s g) in
      let adjusted_end_s := dmin (end' - router_s + start_s g) (end_s g) in
      let next := router_s + (end_s g - start_s g) in
      let continue_with out unique_lanes :=
        if dlt end' next then (out, unique_lanes, false, next) else clip_segments segments start end' next out unique_lanes in
      if dlt adjusted_start_s adjusted_end_s then
        if same_lane_as_last out g then continue_with (set_end out adjusted_end_s) unique_lanes
        else if bool_decide (lane_id (lane g) ∈ unique_lanes) then (out, unique_lanes, true, router_s)
        else continue_with (out ++ [mkLaneSeg (lane g) adjusted_start_s adjusted_end_s]) ({[lane_id (lane g)]} ∪ unique_lanes)
      else continue_with out unique_lanes
  end.

Fixpoint extend_forward (fuel : nat) (m : PncMap) (last_lane : LaneInfo) (router_s end' : double) (out : list LaneSegment) (unique_lanes : gset string)
    : option (list LaneSegment) :=
  match fuel with
  | O => None
  | S fuel =>
      if dlt router_s (end' - kRouteEpsilon) then
        match GetRouteSuccessor m last_lane with
        | None => Some out
        | Some l =>
            if bool_decide (lane_id l ∈ unique_lanes) then Some out
            else
              let length := dmin (end' - router_s) (total_length l) in
              extend_forward fuel m l (router_s + length) end' (out ++ [mkLaneSeg l 0 length]) ({[lane_id l]} ∪ unique_lanes)
        end
      else Some out
  end.

(** The last segment up to the end of its lane. *)
Definition extend_last (out : list LaneSegment) (router_s end' : double) : list LaneSegment * double :=
  if dlt router_s end' then
    match last out with
    | Some back =>
        if dlt (end_s back) (total_length (lane back)) then
          let e := dmin (end_s back + end' - router_s) (total_length (lane back)) in
          (set_end out e, router_s + (e - end_s back))
        else (out, router_s)
    | None => (out, router_s)
    end
  else (out, router_s).

(** The inner [None] is the return value false. *)
Definition ExtendSegments (fuel : nat) (m : PncMap) (segments : list LaneSegment) (start end' : double) : option (option (list LaneSegment)) :=
  match segments, last segments with
  | first_segment :: _, Some last_segment =>
      if dle end' start then Some None
      else
        '(out, unique_lanes) ← (if dlt start 0 then extend_backward fuel m (lane first_segment) (start_s first_segment) (- start) [] ∅ else Some ([], ∅));
        let '(out, unique_lanes, found_loop, router_s) := clip_segments segments start end' 0 out unique_lanes in
        if found_loop : bool then Some (Some out)
        else
          let '(out, router_s) := extend_last out router_s end' in
          out ← extend_forward fuel m (lane last_segment) router_s end' out unique_lanes;
          Some (Some out)
  | _, _ => Some None
  end.

Definition LookForwardDistance (velocity : double) : double :=
  let forward_distance := velocity * look_forward_time_sec flags in
  if dlt (look_forward_short_distance flags) forward_distance then look_forward_long_distance flags else look_forward_short_distance flags.

(** *** GetRouteSegments *)
Definition route_segment_id (road_index passage_index : Z) : string :=
  (to_string road_index +:+ "_" +:+ to_string passage_index)%string.

(** One passage: nothing when it is skipped; the outer [None] as for ExtendSegments, the next one
    is the return value false. *)
Definition passage_route (fuel : nat) (m : PncMap) (road_index : Z) (passage_index : nat) (rd : list Passage)
    (backward_length forward_length : double) (i : nat) : option (option (option RouteSegments)) :=
  passage ← rd !! i;
  match PassageSegments passage with
  | None => Some (Some None)
  | Some segments =>
      adc ← adc_state_ m;
      adc_lane ← wp_lane (adc_waypoint_ m);
      let nearest_point := if bool_decide (i = passage_index) then Lane_GetSmoothPoint adc_lane (wp_s (adc_waypoint_ m)) else mkVec (vx adc) (vy adc) in
      match GetProjection segments nearest_point with
      | None => Some (Some None)
      | Some (sl, _) =>
          can ← (if bool_decide (i = passage_index) then Some true else CanDriveFrom hypot AngleDiff M_PI segments (adc_waypoint_ m));
          if negb can then Some (Some None)
          else
            last_waypoint ← LastWaypoint segments;
            extended ← ExtendSegments fuel m segments (sl_s sl - backward_length) (sl_s sl + forward_length);
            match extended with
            | None => Some None
            | Some out =>
                let on := bool_decide (i = passage_index) in
                Some (Some (Some (mkRouteSegments out
                  (if IsWaypointOnSegment out last_waypoint then last_waypoint else NoWaypoint)
                  (can_exit passage) on false (change_lane_type passage)
                  (if on then FORWARD else if dlt 0 (sl_l sl) then RIGHT else LEFT)
                  (route_segment_id road_index (Z.of_nat i)) (stop_for_destination m))))
            end
      end
  end.

Fixpoint passage_routes (fuel : nat) (m : PncMap) (road_index : Z) (passage_index : nat) (rd : list Passage)
    (backward_length forward_length : double) (todo : list nat) : option (option (list RouteSegments)) :=
  match todo with
  | [] => Some (Some [])
  | i :: todo =>
      r ← passage_route fuel m road_index passage_index rd backward_length forward_length i;
      match r with
      | None => Some None
      | Some r =>
          rest ← passage_routes fuel m road_index passage_index rd backward_length forward_length todo;
          Some (rest ← rest; Some (option_list r ++ rest))
      end
  end.

Definition GetRouteSegments (fuel : nat) (m : PncMap) (v : VehicleState) (backward_length forward_length : double)
    : option (PncMap * option (list RouteSegments)) :=
  let '(m, ok) := UpdateVehicleState m v in
  if negb ok then Some (m, None)
  else match wp_lane (adc_waypoint_ m), route_indices_ m !! Z.to_nat (adc_route_index_ m) with
  | Some _, Some r =>
      if (adc_route_index_ m <? 0)%Z then Some (m, None)
      else
        let '(road_index, passage_index, _) := index r in
        rd ← road (routing_ m) !! Z.to_nat road_index;
        drive_passages ← GetNeighborPassages m rd (Z.to_nat passage_index);
        rs ← passage_routes fuel m road_index (Z.to_nat passage_index) rd backward_length forward_length drive_passages;
        Some (m, rs ← rs; match rs with [] => None | _ => Some rs end)
  | _, _ => Some (m, None)
  end.
Definition GetRouteSegments_ahead (fuel : nat) (m : PncMap) (v : VehicleState) : option (PncMap * option (list RouteSegments)) :=
  GetRouteSegments fuel m v (look_backward_distance flags) (LookForwardDistance (linear_velocity v)).
End map.

(** ** The next waypoint is the first one ahead *)
Definition ordered (a b : WaypointIndex) : Prop :=
  wp_index a < wp_index b \/ (wp_index a = wp_index b /\ (wp_s (waypoint a) <= wp_s (waypoint b))%Q).
Definition passed (cur_index : Z) (s : double) (w : WaypointIndex) : bool :=
  (wp_index w <? cur_index) || (bool_decide (wp_index w = cur_index) && dle (wp_s (waypoint w)) s).
(** How many waypoints are behind the car, from the start of the route. *)
Fixpoint behind (cur_index : Z) (s : double) (wps : list WaypointIndex) : nat :=
  match wps with [] => O | w :: wps => if passed cur_index s w then S (behind cur_index s wps) else O end.

Lemma passed_true cur s w : passed cur s w = true <-> wp_index w < cur \/ (wp_index w = cur /\ (wp_s (waypoint w) <= s)%Q).
Proof. unfold passed. rewrite orb_true_iff, andb_true_iff, Z.ltb_lt, bool_decide_eq_true, dle_true. done. Qed.
Lemma ordered_passed cur s a b : ordered a b -> passed cur s b = true -> passed cur s a = true.
Proof. rewrite !passed_true. unfold ordered. intros [Hi|[Hi Hs]] [Hb|[Hb Hs']]; [left; lia|left; lia|left; lia|right; split; [lia|lra]]. Qed.

Lemma go_back_spec p wps n : (n < length wps)%nat -> let r := go_back p wps n in (r <= n)%nat /\
  (r = O \/ exists w, wps !! r = Some w /\ p w = false).
Proof.
  induction n as [|n IH]; intros Hn; simpl; [split; [lia|by left]|].
  destruct (lookup_lt_is_Some_2 wps (S n) Hn) as [w Ew]. rewrite Ew. destruct (p w) eqn:E.
  - destruct IH as [H1 H2]; [lia|]. split; [lia|done].
  - split; [lia|]. right. eauto.
Qed.
Lemma skip_spec p l n : let r := skip p l n in (n <= r <= n + length l)%nat /\
  (forall i w, (i < r - n)%nat -> l !! i = Some w -> p w = true) /\ (forall w, l !! (r - n)%nat = Some w -> p w = false).
Proof.
  revert n. induction l as [|w l IH]; intros n; simpl; [split; [lia|]; split; [intros; lia|by intros w]|].
  destruct (p w) eqn:E.
  - destruct (IH (S n)) as (H1 & H2 & H3). set (r := skip p l (S n)) in *. split; [lia|].
    replace (r - n)%nat with (S (r - S n)) by lia. split; [|by intros w' Hw'; apply H3].
    intros [|i] w' Hi Hw'; simpl in Hw'; [by simplify_eq|]. eapply (H2 i); [lia|done].
  - rewrite Nat.sub_diag. split; [lia|]. split; [intros; lia|]. intros w' [= <-]. done.
Qed.
Lemma go_forward_spec p wps n : (n <= length wps)%nat -> let r := go_forward p wps n in (n <= r <= length wps)%nat /\
  (forall i w, (n <= i < r)%nat -> wps !! i = Some w -> p w = true) /\ (forall w, wps !! r = Some w -> p w = false).
Proof.
  intros Hn. unfold go_forward. destruct (skip_spec p (drop n wps) n) as (H1 & H2 & H3). set (r := skip _ _ _) in *.
  rewrite length_drop in H1. split; [lia|]. split.
  - intros i w Hi Hw. apply (H2 (i - n)%nat); [lia|]. rewrite lookup_drop. by replace (n + (i - n))%nat with i by lia.
  - intros w Hw. apply H3. rewrite lookup_drop. by replace (n + (r - n))%nat with r by lia.
Qed.

Lemma behind_unique cur s wps n : (n <= length wps)%nat -> (forall i w, (i < n)%nat -> wps !! i = Some w -> passed cur s w = true) ->
  (forall w, wps !! n = Some w -> passed cur s w = false) -> behind cur s wps = n.
Proof.
  revert n. induction wps as [|w wps IH]; intros n Hn Hp Hf; simpl; [simpl in Hn; lia|]. destruct n as [|n].
  - by rewrite (Hf w).
  - rewrite (Hp O w) by (done || lia). f_equal. apply IH; [simpl in Hn; lia| |done]. intros i w' Hi. apply (Hp (S i)). lia.
Qed.

Lemma sorted_lookup (wps : list WaypointIndex) i j a b : StronglySorted ordered wps -> (i < j)%nat -> wps !! i = Some a -> wps !! j = Some b -> ordered a b.
Proof.
  intros Hs. revert i j. induction Hs as [|w wps Hs IH Hall]; intros i j Hij Ha Hb; [done|].
  destruct i as [|i], j as [|j]; simpl in *; [lia| |lia|].
  - simplify_eq. rewrite Forall_forall in Hall. apply Hall. by eapply list_elem_of_lookup_2.
  - eapply IH; [|done|done]. lia.
Qed.

(** UpdateNextRoutingWaypointIndex points at the first waypoint of the request that the car
    has not reached, or at the last one when all are behind it, whatever the index was
    before: driving backwards and jumps are followed as well as driving on. *)
Theorem next_waypoint_is_first_ahead m cur_index : StronglySorted ordered (routing_waypoint_index_ m) -> routing_waypoint_index_ m <> [] ->
  0 <= next_routing_waypoint_index_ m < Z.of_nat (length (routing_waypoint_index_ m)) -> Z.of_nat (length (routing_waypoint_index_ m)) < 2 ^ 64 ->
  0 <= cur_index < Z.of_nat (length (route_indices_ m)) ->
  next_routing_waypoint_index_ (UpdateNextRoutingWaypointIndex m cur_index) =
  Z.min (Z.of_nat (behind cur_index (wp_s (adc_waypoint_ m)) (routing_waypoint_index_ m))) (Z.of_nat (length (routing_waypoint_index_ m)) - 1).
Proof.
  intros Hs Hne Hnext Hlen Hcur. unfold UpdateNextRoutingWaypointIndex. set (wps := routing_waypoint_index_ m) in *. set (s := wp_s (adc_waypoint_ m)).
  rewrite (proj2 (Z.ltb_ge _ _)) by lia. rewrite (proj2 (Z.leb_gt _ _)) by lia. rewrite (proj2 (Z.ltb_lt _ _)) by lia.
  set (p1 := fun w => cur_index <? wp_index w). set (p2 := fun w => bool_decide (wp_index w = cur_index) && dlt s (wp_s (waypoint w))).
  set (p3 := fun w => wp_index w <? cur_index). set (p4 := fun w => bool_decide (cur_index = wp_index w) && dle (wp_s (waypoint w)) s).
  destruct (go_back_spec p1 wps (Z.to_nat (next_routing_waypoint_index_ m))) as [H1 H1']; [lia|]. set (n1 := go_back p1 _ _) in *.
  destruct (go_back_spec p2 wps n1) as [H2 H2']; [lia|]. set (n2 := go_back p2 _ _) in *.
  destruct (go_forward_spec p3 wps n2) as (H3 & H3' & H3''); [lia|]. set (n3 := go_forward p3 _ _) in *.
  destruct (go_forward_spec p4 wps n3) as (H4 & H4' & H4''); [lia|]. set (n4 := go_forward p4 _ _) in *.
  assert (n2 = O \/ exists w, wps !! n2 = Some w /\ passed cur_index s w = true) as Hn2.
  { destruct (decide (n2 = O)) as [|Hnz]; [by left|right].
    destruct H2' as [|(w & Ew & Hp)]; [done|]. destruct H1' as [|(w1 & Ew1 & Hp1)]; [lia|]. exists w. split; [done|].
    assert (wp_index w <= cur_index) as Hle.
    { unfold p1 in Hp1. apply Z.ltb_ge in Hp1. destruct (decide (n2 = n1)) as [E|]; [rewrite E in Ew; by simplify_eq|].
      destruct (sorted_lookup wps n2 n1 w w1 Hs) as [?|[? _]]; try done; lia. }
    apply passed_true. destruct (decide (wp_index w = cur_index)) as [E|]; [right|left; lia]. split; [done|].
    unfold p2 in Hp. rewrite bool_decide_true in Hp by done. simpl in Hp. by dsimp. }
  assert (behind cur_index s wps = n4) as ->.
  { apply behind_unique; [lia| |].
    - intros i w Hi Ew. destruct (decide (i < n2)%nat).
      { destruct Hn2 as [?|(w2 & Ew2 & Hp)]; [lia|]. eapply ordered_passed; [|exact Hp]. by eapply (sorted_lookup wps i n2). }
      apply passed_true. destruct (decide (i < n3)%nat).
      { left. apply Z.ltb_lt. eapply (H3' i); [lia|done]. }
      right. pose proof (H4' i w ltac:(lia) Ew) as [E1%bool_decide_eq_true E2%dle_true]%andb_true_iff. done.
    - intros w Ew. apply not_true_iff_false. rewrite passed_true.
      assert (cur_index <= wp_index w) as Hge.
      { destruct (lookup_lt_is_Some_2 wps n3) as [w3 Ew3]; [apply lookup_lt_Some in Ew; lia|].
        pose proof (H3'' w3 Ew3) as Hp%Z.ltb_ge. destruct (decide (n3 = n4)) as [E|]; [rewrite <- E in Ew; by simplify_eq|].
        destruct (sorted_lookup wps n3 n4 w3 w Hs) as [?|[? _]]; try done; lia. }
      pose proof (H4'' w Ew) as Hp. intros [?|[E Hle]]; [lia|]. unfold p4 in Hp. rewrite bool_decide_true in Hp by done. simpl in Hp. dsimp. lra. }
  unfold u64. destruct (Z.leb_spec (Z.of_nat (length wps)) (Z.of_nat n4)); simpl; [rewrite Z.mod_small by lia|]; lia.
Qed.

(** ** Extended routes *)
Section extend.
Context {HD : HDMap} (m : PncMap).
Local Open Scope Q_scope.

Definition lane_ids (l : list LaneSegment) : list string := (fun g => lane_id (lane g)) <$> l.
(** [out] uses the lanes [unique] once each. *)
Definition uses (out : list LaneSegment) (unique : gset string) : Prop := NoDup (lane_ids out) /\ forall id, id ∈ lane_ids out <-> id ∈ unique.

Lemma lane_ids_app l1 l2 : lane_ids (l1 ++ l2) = lane_ids l1 ++ lane_ids l2.
Proof. apply fmap_app. Qed.
Lemma lane_ids_set_end l e : lane_ids (set_end l e) = lane_ids l.
Proof.
  unfold set_end. destruct (rev l) as [|g r] eqn:E.
  - apply (f_equal (@rev _)) in E. rewrite rev_involutive in E. by rewrite E.
  - apply (f_equal (@rev _)) in E. rewrite rev_involutive in E. rewrite E. simpl. by rewrite !lane_ids_app.
Qed.
Lemma uses_nil : uses [] ∅.
Proof. split; [constructor|]. intros id. simpl. set_solver. Qed.
Lemma uses_cons g out unique : uses out unique -> lane_id (lane g) ∉ unique -> uses (g :: out) ({[lane_id (lane g)]} ∪ unique).
Proof. intros [Hn Hu] Hg. split; simpl; [constructor; [by rewrite Hu|done]|]. intros id. rewrite elem_of_cons, Hu. set_solver. Qed.
Lemma uses_snoc g out unique : uses out unique -> lane_id (lane g) ∉ unique -> uses (out ++ [g]) ({[lane_id (lane g)]} ∪ unique).
Proof.
  intros [Hn Hu] Hg. unfold uses. rewrite lane_ids_app. split.
  - apply NoDup_app. split; [done|]. split; [|apply NoDup_singleton]. intros id Hid ->%list_elem_of_singleton. by apply Hg, Hu.
  - intros id. rewrite elem_of_app, Hu. simpl. rewrite list_elem_of_singleton. set_solver.
Qed.
Lemma uses_set_end out unique e : uses out unique -> uses (set_end out e) unique.
Proof. unfold uses. by rewrite lane_ids_set_end. Qed.

Lemma extend_backward_uses fuel l s ext found unique out unique' : uses found unique ->
  (lane_id l ∉ unique \/ s <= kRouteEpsilon \/ ext <= kRouteEpsilon) ->
  extend_backward fuel m l s ext found unique = Some (out, unique') -> uses out unique'.
Proof.
  revert l s ext found unique. induction fuel as [|fuel IH]; intros l s ext found unique Hu Hl; simpl; [done|].
  destruct (dlt kRouteEpsilon ext) eqn:Ee; [|by intros [= <- <-]]. destruct (dle s kRouteEpsilon) eqn:Es.
  - destruct (GetRoutePredecessor m l) as [l'|]; [|by intros [= <- <-]]. case_bool_decide as Hl'; [by intros [= <- <-]|].
    apply IH; [done|by left].
  - dsimp. destruct Hl as [Hl|[?|?]]; [|lra|lra]. apply IH; [by apply (uses_cons (mkLaneSeg l (s - dmin s ext) s))|].
    right. unfold kRouteEpsilon in *. dcase; [right; lra|left; lra].
Qed.

Lemma clip_segments_uses segments start end' router_s out unique out' unique' b r : uses out unique ->
  clip_segments segments start end' router_s out unique = (out', unique', b, r) -> uses out' unique'.
Proof.
  revert router_s out unique. induction segments as [|g segments IH]; intros router_s out unique Hu; simpl; [by intros [= <- <- _ _]|].
  assert (forall out1 unique1, uses out1 unique1 ->
    (if dlt end' (router_s + (end_s g - start_s g)) then (out1, unique1, false, router_s + (end_s g - start_s g))
     else clip_segments segments start end' (router_s + (end_s g - start_s g)) out1 unique1) = (out', unique', b, r) -> uses out' unique') as Hc.
  { intros out1 unique1 Hu1. destruct (dlt end' _); [by intros [= <- <- _ _]|by apply IH]. }
  destruct (dlt (dmax _ _) _); [|by apply Hc]. destruct (same_lane_as_last out g); [by apply Hc, uses_set_end|].
  case_bool_decide as Hg; [by intros [= <- <- _ _]|]. apply Hc.
  by apply (uses_snoc (mkLaneSeg (lane g) _ _)).
Qed.

Lemma extend_last_uses out router_s end' unique : uses out unique -> uses (extend_last out router_s end').1 unique.
Proof. intros Hu. unfold extend_last. repeat case_match; simpl; try done. by apply uses_set_end. Qed.

Lemma extend_forward_uses fuel l router_s end' out unique out' : uses out unique ->
  extend_forward fuel m l router_s end' out unique = Some out' -> NoDup (lane_ids out').
Proof.
  revert l router_s out unique. induction fuel as [|fuel IH]; intros l router_s out unique Hu; simpl; [done|].
  destruct (dlt router_s _); [|intros [= <-]; apply Hu]. destruct (GetRouteSuccessor m l) as [l'|]; [|intros [= <-]; apply Hu].
  case_bool_decide as Hl; [intros [= <-]; apply Hu|]. apply IH. by apply (uses_snoc (mkLaneSeg l' 0 _)).
Qed.

(** *** Both extensions end *)
Context (lanes : gset string).
Hypothesis known_lanes : forall id l, GetLaneById id = Some l -> lane_id l ∈ lanes /\ kRouteEpsilon < total_length l.

Lemma preferred_known ids l : preferred m ids = Some l -> lane_id l ∈ lanes /\ kRouteEpsilon < total_length l.
Proof. unfold preferred. destruct (head ids); simpl; [|done]. apply known_lanes. Qed.

Lemma size_difference_insert (unique : gset string) id : id ∈ lanes -> id ∉ unique -> (size (lanes ∖ unique) = S (size (lanes ∖ ({[id]} ∪ unique))))%nat.
Proof.
  intros Hin Hn. assert (lanes ∖ unique = {[id]} ∪ lanes ∖ ({[id]} ∪ unique)) as ->.
  { apply set_eq. intros x. rewrite !elem_of_union, !elem_of_difference, elem_of_union, elem_of_singleton.
    destruct (decide (x = id)) as [->|]; naive_solver. }
  rewrite size_union by set_solver. by rewrite size_singleton.
Qed.

Lemma extend_backward_ends fuel l s ext found unique :
  (s <= kRouteEpsilon \/ ext <= kRouteEpsilon \/ (lane_id l ∉ unique /\ lane_id l ∈ lanes)) ->
  ((2 * size (lanes ∖ unique) + (if dle s kRouteEpsilon then 2 else 1) < fuel)%nat \/ (ext <= kRouteEpsilon /\ (0 < fuel)%nat)) ->
  exists r, extend_backward fuel m l s ext found unique = Some r.
Proof.
  revert l s ext found unique. induction fuel as [|fuel IH]; intros l s ext found unique Hl Hf; [lia|]. simpl.
  destruct (dlt kRouteEpsilon ext) eqn:Ee; [|eauto]. dsimp. destruct Hf as [Hf|[Hf _]]; [|lra]. destruct (dle s kRouteEpsilon) eqn:Es.
  - destruct (GetRoutePredecessor m l) as [l'|] eqn:El; [|eauto]. case_bool_decide as Hl'; [eauto|].
    destruct (preferred_known _ _ El) as [Hk Hlen]. apply IH; [by right; right|]. left.
    rewrite (proj2 (dle_false _ _)) by done. lia.
  - dsimp. destruct Hl as [?|[?|[Hn Hin]]]; [lra|lra|]. rewrite (size_difference_insert unique (lane_id l)) in Hf by done.
    assert (s - dmin s ext <= kRouteEpsilon \/ ext - dmin s ext <= kRouteEpsilon) as Hor by (unfold kRouteEpsilon in *; dcase; [right|left]; lra).
    apply IH; [destruct Hor; [by left|by right; left]|]. destruct Hor as [Hor|Hor]; [left|right; split; [done|lia]].
    rewrite (proj2 (dle_true _ _)) by done. lia.
Qed.

Lemma extend_forward_ends fuel l router_s end' out unique : (size (lanes ∖ unique) < fuel)%nat ->
  exists r, extend_forward fuel m l router_s end' out unique = Some r.
Proof.
  revert l router_s out unique. induction fuel as [|fuel IH]; intros l router_s out unique Hf; [lia|]. simpl.
  destruct (dlt router_s _); [|eauto]. destruct (GetRouteSuccessor m l) as [l'|] eqn:El; [|eauto].
  case_bool_decide as Hl; [eauto|]. destruct (preferred_known _ _ El) as [Hk _]. apply IH.
  rewrite (size_difference_insert unique (lane_id l')) in Hf by done. lia.
Qed.

(** C35. ExtendSegments ends on every map whose lanes are longer than kRouteEpsilon, after at
    most two rounds per lane, also when the lanes form circles, and the route it returns uses
    no lane twice. *)
Theorem extended_route_is_simple segments start end' fuel : (forall g, g ∈ segments -> lane_id (lane g) ∈ lanes) ->
  (2 * size lanes + 3 <= fuel)%nat ->
  exists r, ExtendSegments fuel m segments start end' = Some r /\ forall out, r = Some out -> NoDup (lane_ids out).
Proof.
  intros Hseg Hf. unfold ExtendSegments. destruct segments as [|g segments]; [exists None; done|].
  destruct (last (g :: segments)) as [e|]; [|exists None; done]. destruct (dle end' start); [exists None; done|].
  assert (exists out unique, (if dlt start 0 then extend_backward fuel m (lane g) (start_s g) (- start) [] ∅ else Some ([], ∅)) = Some (out, unique) /\ uses out unique)
    as (out & unique & -> & Hu).
  { destruct (dlt start 0); [|eexists _, _; split; [done|apply uses_nil]].
    destruct (extend_backward_ends fuel (lane g) (start_s g) (- start) [] ∅) as [[out unique] Hb].
    - right; right. split; [set_solver|]. apply Hseg. left.
    - left. assert (size (lanes ∖ ∅) <= size lanes)%nat by (apply subseteq_size; set_solver). destruct (dle _ _); lia.
    - eexists _, _. split; [done|]. eapply extend_backward_uses; [apply uses_nil| |exact Hb]. left. set_solver. }
  cbn [mbind option_bind]. destruct (clip_segments (g :: segments) start end' 0 out unique) as [[[out1 unique1] b] r] eqn:Ec.
  apply clip_segments_uses in Ec; [|done]. destruct b; [eexists; split; [done|]; intros o [= <-]; apply Ec|].
  pose proof (extend_last_uses out1 r end' unique1 Ec) as He. destruct (extend_last out1 r end') as [out2 r2]. simpl in He.
  destruct (extend_forward_ends fuel (lane e) r2 end' out2 unique1) as [out3 E3].
  { assert (size (lanes ∖ unique1) <= size lanes)%nat by (apply subseteq_size; set_solver). lia. }
  rewrite E3. cbn [mbind option_bind]. eexists; split; [done|]. intros o [= <-]. by eapply extend_forward_uses.
Qed.
End extend.

(** ** Positions on the route *)
Lemma search_forward_spec w l i : let r := search_forward w l i in i <= r <= i + Z.of_nat (length l) /\
  (r < i + Z.of_nat (length l) -> exists x, l !! Z.to_nat (r - i) = Some x /\ WithinLaneSegment (segment x) w = true) /\
  (forall x, x ∈ l -> WithinLaneSegment (segment x) w = true -> r < i + Z.of_nat (length l)).
Proof.
  revert i. induction l as [|x l IH]; intros i; simpl.
  { split; [lia|]. split; [lia|]. by intros x ?%elem_of_nil. }
  destruct (WithinLaneSegment (segment x) w) eqn:E.
  - split; [lia|]. rewrite Z.sub_diag. split; [eauto|]. intros; lia.
  - destruct (IH (i + 1)) as (H1 & H2 & H3). set (r := search_forward w l (i + 1)) in *. split; [lia|]. split.
    + intros Hr. destruct H2 as (y & Hy & Hw); [lia|]. exists y. split; [|done].
      replace (Z.to_nat (r - i)) with (S (Z.to_nat (r - (i + 1)))) by lia. done.
    + intros y [->|Hy]%elem_of_cons Hw; [congruence|]. specialize (H3 y Hy Hw). lia.
Qed.

Lemma search_backward_spec w l n : (n <= length l)%nat -> let r := search_backward w l n in -1 <= r < Z.of_nat n /\
  (0 <= r -> exists x, l !! Z.to_nat r = Some x /\ WithinLaneSegment (segment x) w = true) /\
  (forall i x, (i < n)%nat -> l !! i = Some x -> WithinLaneSegment (segment x) w = true -> Z.of_nat i <= r).
Proof.
  induction n as [|n IH]; intros Hn; simpl; [split; [lia|]; split; [lia|]; intros; lia|].
  destruct (lookup_lt_is_Some_2 l n ltac:(lia)) as [x Ex]. rewrite Ex. destruct (WithinLaneSegment (segment x) w) eqn:E.
  - split; [lia|]. rewrite Nat2Z.id. split; [eauto|]. intros; lia.
  - destruct IH as (H1 & H2 & H3); [lia|]. split; [lia|]. split; [done|]. intros i y Hi Hy Hw.
    destruct (decide (i = n)) as [->|]; [congruence|]. apply (H3 i y); [lia|done|done].
Qed.

(** A waypoint that lies on the route is found, on a segment that contains it. *)
Theorem waypoint_is_found m w : -1 <= adc_route_index_ m < Z.of_nat (length (route_indices_ m)) ->
  (exists r, r ∈ route_indices_ m /\ WithinLaneSegment (segment r) w = true) ->
  let i := GetWaypointIndex m w in
  0 <= i < Z.of_nat (length (route_indices_ m)) /\ exists r, route_indices_ m !! Z.to_nat i = Some r /\ WithinLaneSegment (segment r) w = true.
Proof.
  intros Hadc (r0 & Hr0 & Hw0). unfold GetWaypointIndex, SearchForwardWaypointIndex, SearchBackwardWaypointIndex.
  set (l := route_indices_ m) in *. set (a := Z.max (adc_route_index_ m) 0).
  destruct (search_forward_spec w (drop (Z.to_nat a) l) a) as (F1 & F2 & F3). set (f := search_forward _ _ _) in *. rewrite length_drop in *.
  assert (f < Z.of_nat (length l) -> exists r, l !! Z.to_nat f = Some r /\ WithinLaneSegment (segment r) w = true) as Ff.
  { intros Hf. destruct F2 as (x & Hx & Hxw); [lia|]. rewrite lookup_drop in Hx. exists x. split; [|done]. by replace (Z.to_nat f) with (Z.to_nat a + Z.to_nat (f - a))%nat by lia. }
  assert (forall i, i = Z.min (Z.of_nat (length l) - 1) (adc_route_index_ m) -> 0 <= i ->
     let b := search_backward w l (S (Z.to_nat i)) in -1 <= b <= i /\ (0 <= b -> exists r, l !! Z.to_nat b = Some r /\ WithinLaneSegment (segment r) w = true)) as Bb.
  { intros i Ei Hi b. destruct (search_backward_spec w l (S (Z.to_nat i)) ltac:(lia)) as (B1 & B2 & _). fold b in B1, B2. split; [lia|done]. }
  set (i := Z.min _ _) in *. destruct (Z.leb_spec (Z.of_nat (length l)) f) as [Hf|Hf].
  - apply list_elem_of_lookup in Hr0 as [k Hk]. pose proof (lookup_lt_Some _ _ _ Hk) as Hkl.
    destruct (decide (Z.to_nat a <= k)%nat) as [Hak|Hak].
    { exfalso. enough (f < a + Z.of_nat (length l - Z.to_nat a)) by lia. apply (F3 r0); [|done].
      apply list_elem_of_lookup. exists (k - Z.to_nat a)%nat. rewrite lookup_drop. by replace (Z.to_nat a + (k - Z.to_nat a))%nat with k by lia. }
    assert (0 <= i) as Hi by lia. rewrite (proj2 (Z.ltb_ge _ _)) by lia. destruct (search_backward_spec w l (S (Z.to_nat i)) ltac:(lia)) as (B1 & B2 & B3).
    specialize (B3 k r0 ltac:(lia) Hk Hw0). split; [lia|]. apply B2. lia.
  - destruct (_ || _); [split; [lia|by apply Ff]|]. destruct (Z.ltb_spec i 0) as [Hi|Hi].
    + rewrite (proj2 (Z.ltb_lt i 0)) by lia. split; [lia|by apply Ff].
    + destruct (Bb i eq_refl Hi) as [B1 B2]. set (b := search_backward _ _ _) in *. destruct (Z.ltb_spec b 0); [split; [lia|by apply Ff]|].
      case_bool_decide; [split; [lia|by apply B2]|split; [lia|by apply Ff]].
Qed.

(** ** The waypoints of a request *)
Definition matched (l : list RouteIndex) (j : Z) (x : WaypointIndex) (w : Routing_LaneWaypoint) : Prop :=
  exists k r, l !! k = Some r /\ wp_index x = j + Z.of_nat k /\ WithinLaneSegment_routing (segment r) w = true /\
    waypoint x = NewLaneWaypoint (lane (segment r)) (default 0%Q (rw_s w)).
Lemma match_here_spec r j ws found rest : match_here r j ws = (found, rest) ->
  exists here, ws = here ++ rest /\ Forall (fun x => wp_index x = j) found /\
    Forall2 (fun x w => WithinLaneSegment_routing (segment r) w = true /\ waypoint x = NewLaneWaypoint (lane (segment r)) (default 0%Q (rw_s w))) found here.
Proof.
  revert found rest. induction ws as [|w ws IH]; intros found rest; simpl; [intros [= <- <-]; exists []; done|].
  destruct (WithinLaneSegment_routing (segment r) w) eqn:E; [|intros [= <- <-]; exists []; done].
  destruct (match_here r j ws) as [f' r'] eqn:Em. intros [= <- <-]. destruct (IH _ _ eq_refl) as (here & -> & H1 & H2).
  exists (w :: here). split; [done|]. split; constructor; done.
Qed.

Lemma Forall2_matched_here r l j found here :
  Forall (fun x => wp_index x = j) found ->
  Forall2 (fun x w => WithinLaneSegment_routing (segment r) w = true /\ waypoint x = NewLaneWaypoint (lane (segment r)) (default 0%Q (rw_s w))) found here ->
  Forall2 (matched (r :: l) j) found here.
Proof.
  intros Hj H2. induction H2 as [|x w found here [Hw Hx] H2 IH]; [constructor|]. apply Forall_cons in Hj as [Hj Hjs].
  constructor; [|by apply IH]. exists O, r. split; [done|]. split; [lia|done].
Qed.
Lemma matched_later r l j found here : Forall2 (matched l (j + 1)) found here -> Forall2 (matched (r :: l) j) found here.
Proof. intros Hm. eapply Forall2_impl; [exact Hm|]. intros x w (k & r' & Hk & Hi & Hw). exists (S k), r'. split; [done|]. split; [lia|done]. Qed.
Lemma sorted_app (l1 l2 : list WaypointIndex) j : Forall (fun x => wp_index x = j) l1 -> StronglySorted (fun a b => wp_index a <= wp_index b) l2 ->
  Forall (fun x => j <= wp_index x) l2 -> StronglySorted (fun a b => wp_index a <= wp_index b) (l1 ++ l2).
Proof.
  intros H1 H2 H3. apply StronglySorted_app. split; [|split; [|done]].
  - intros a b Ha Hb. rewrite Forall_forall in H1, H3. rewrite (H1 a Ha). by apply H3.
  - induction H1 as [|a l1 Ha H1 IH]; constructor; [done|]. eapply Forall_impl; [exact H1|]. simpl. intros; lia.
Qed.

(** What UpdateRoutingResponse notes of the request is a prefix of its waypoints, each on a
    segment of the route that contains it, in the order of the route. *)
Theorem waypoints_are_matched_in_order l j ws :
  exists pre rest, ws = pre ++ rest /\ Forall2 (matched l j) (match_waypoints l j ws) pre /\
    StronglySorted (fun a b => wp_index a <= wp_index b) (match_waypoints l j ws) /\ Forall (fun x => j <= wp_index x) (match_waypoints l j ws).
Proof.
  revert j ws. induction l as [|r l IH]; intros j ws; simpl.
  { exists [], ws. repeat split; constructor. }
  destruct (match_here r j ws) as [found rest] eqn:E. destruct (match_here_spec _ _ _ _ _ E) as (here & -> & H1 & H2).
  destruct (IH (j + 1) rest) as (pre & rest' & -> & H3 & H4 & H5). exists (here ++ pre), rest'. split; [by rewrite app_assoc|].
  split; [apply Forall2_app; [by apply Forall2_matched_here|by apply matched_later]|]. split.
  - eapply sorted_app; [done|done|]. eapply Forall_impl; [exact H5|]. simpl. intros; lia.
  - apply Forall_app. split; [eapply Forall_impl; [exact H1|]|eapply Forall_impl; [exact H5|]]; simpl; intros; lia.
Qed.

(** ** Losing the route *)
Section lost.
Context {HD : HDMap} (flags : Flags) (hypot : double -> double -> double).

Lemma nearest_lane_outside m point lanes d w : (forall l, l ∈ lanes -> lane_id l ∉ range_lane_ids_ m) -> wp_lane w = None ->
  nearest_lane m point lanes d w = (w, false).
Proof.
  intros Hl Hw. induction lanes as [|l lanes IH]; simpl; [by rewrite Hw|].
  rewrite bool_decide_false by (apply Hl; left). simpl. apply IH. intros; apply Hl; by right.
Qed.

(** When no lane near the car is in the current range, the car is not located, although the lanes of
    the whole route are collected for that case, and the range stays as it is. *)
Theorem lost_outside_the_range m v : (forall lanes l, GetLanesWithHeading (mkVec (vx v) (vy v)) (heading v) = Some lanes -> l ∈ lanes ->
    lane_id l ∉ range_lane_ids_ m) ->
  exists m', UpdateVehicleState flags hypot m v = (m', false) /\ range_lane_ids_ m' = range_lane_ids_ m.
Proof.
  intros Hout. unfold UpdateVehicleState. destruct (negb _); [eauto|].
  match goal with |- context [if ?c then mkPnc _ _ _ _ _ _ _ 0 _ _ _ _ else m] => set (m1 := if c then _ else m) end.
  assert (range_lane_ids_ m1 = range_lane_ids_ m) as Er by (unfold m1; destruct (match adc_state_ m with None => _ | Some _ => _ end); done).
  assert (exists w, GetNearestPointFromRouting m1 v (adc_waypoint_ m1) = (w, false)) as [w ->].
  { unfold GetNearestPointFromRouting. destruct (GetLanesWithHeading _ _) as [lanes|] eqn:El; [|eauto]. destruct lanes as [|l0 lanes]; [eauto|].
    eexists. apply nearest_lane_outside; [|done]. intros l Hl. rewrite Er. eapply Hout; [done|].
    destruct (filter (fun l => lane_id l ∈ range_lane_ids_ m1) (l0 :: lanes)) eqn:Ef.
    - by apply list_elem_of_filter in Hl as [_ Hl].
    - rewrite <- Ef in Hl. by apply list_elem_of_filter in Hl as [_ Hl]. }
  simpl. eauto.
Qed.

(** Lanes no longer than kRouteEpsilon that form a circle are followed for ever. *)
Theorem tiny_circle_never_ends fuel m l s ext found unique : GetRoutePredecessor m l = Some l -> (total_length l <= kRouteEpsilon)%Q ->
  (s <= kRouteEpsilon)%Q -> (kRouteEpsilon < ext)%Q -> lane_id l ∉ unique -> extend_backward fuel m l s ext found unique = None.
Proof.
  intros Hp Hl Hs He Hu. revert s Hs. induction fuel as [|fuel IH]; intros s Hs; simpl; [done|].
  rewrite (proj2 (dlt_true _ _) He), (proj2 (dle_true _ _) Hs), Hp, bool_decide_false by done. by apply IH.
Qed.
End lost.

(** ** A route that comes back to a lane

    Three lanes of 100 metres; A leads to B and to C, B leads back to A.  The car on lane A, B or C
    at s is at the point (0, s), (1, s) or (2, s). *)
Section example.
Definition example_lane (id : string) (next before : list string) : LaneInfo :=
  mkLane id 100 next before [] [] (fun p => Some (y_ p, 0)%Q) (fun p => (p, 0)%Q) (fun s => mkVec 0 s) (fun _ => 0%Q) (fun _ => (2, 2)%Q).
Definition lane_A : LaneInfo := example_lane "A" ["B"; "C"] ["B"].
Definition lane_B : LaneInfo := example_lane "B" ["A"] ["A"].
Definition lane_C : LaneInfo := example_lane "C" [] ["A"].
#[local] Instance example_map : HDMap := {|
  GetLaneById id := if bool_decide (id = "A") then Some lane_A else if bool_decide (id = "B") then Some lane_B
                    else if bool_decide (id = "C") then Some lane_C else None;
  GetLanesWithHeading p _ := Some (if dlt (x_ p) (1 # 2) then [lane_A] else if dlt (x_ p) (3 # 2) then [lane_B] else [lane_C]) |}.

Definition whole (id : string) : list Passage := [mkPassage [mkRoutingSegment id 0 100] false FORWARD].
Definition example_routing : RoutingResponse :=
  mkRouting [whole "A"; whole "B"; whole "A"; whole "C"] (Some [mkRoutingWaypoint (Some "A") (Some 10%Q); mkRoutingWaypoint (Some "C") (Some 90%Q)]).
Definition example_flags : Flags := mkFlags 30 8 150 250 (1 # 2) (5 # 2).
Definition at_lane (x s : Q) : VehicleState := mkVehicle x s 0 5.
Definition on_route : PncMap := default NewPncMap (option_map fst (UpdateRoutingResponse NewPncMap example_routing)).
Definition drive (l : list VehicleState) : PncMap * list bool :=
  foldl (fun '(m, bs) v => let '(m, b) := UpdateVehicleState example_flags hypot52 m v in (m, bs ++ [b])) (on_route, []) l.

(** The second visit of A and then C: the car is not located on C, since the range of lanes ended
    where A came again and no lane is ever taken out of it. *)
Example revisited_lane_ends_the_route :
  let '(m, bs) := drive [at_lane 0 20; at_lane 1 21; at_lane 0 22; at_lane 2 23] in
  bs = [true; true; true; false] /\ adc_route_index_ m = 2 /\ range_end_ m = 2 /\ bool_decide ("C" ∈ range_lane_ids_ m) = false.
Proof. vm_compute. done. Qed.

Definition on_A : PncMap := (drive [at_lane 0 50]).1.
Lemma next_waypoint_is_first_ahead_witness :
  next_routing_waypoint_index_ (UpdateNextRoutingWaypointIndex on_A 0) = 1 /\
  next_routing_waypoint_index_ (UpdateNextRoutingWaypointIndex on_A 0) =
  Z.min (Z.of_nat (behind 0 (wp_s (adc_waypoint_ on_A)) (routing_waypoint_index_ on_A))) (Z.of_nat (length (routing_waypoint_index_ on_A)) - 1).
Proof.
  split; [vm_compute; reflexivity|]. apply (next_waypoint_is_first_ahead on_A 0).
  - assert (exists a b, routing_waypoint_index_ on_A = [a; b] /\ wp_index a = 0 /\ wp_index b = 3) as (a & b & -> & Ha & Hb)
      by (eexists _, _; split; [vm_compute; reflexivity|done]).
    apply SSorted_cons; [apply SSorted_cons; [apply SSorted_nil|apply Forall_nil_2]|]. apply Forall_cons_2; [left; lia|apply Forall_nil_2].
  - vm_compute. discriminate.
  - vm_compute. split; [discriminate|reflexivity].
  - vm_compute. reflexivity.
  - vm_compute. split; [discriminate|reflexivity].
Defined.

Lemma extended_route_is_simple_witness : exists r,
  ExtendSegments 9 on_A [mkLaneSeg lane_A 0 100] (-30) 350 = Some r /\ forall out, r = Some out -> NoDup (lane_ids out).
Proof.
  apply (extended_route_is_simple on_A {["A"; "B"; "C"]}).
  - simpl. intros id l. repeat case_bool_decide; intros [= <-]; (split; [set_solver|by apply dlt_true]).
  - intros g ->%list_elem_of_singleton. simpl. set_solver.
  - vm_compute. lia.
Defined.
Example extended_route : option_map (option_map (map (fun g => (lane_id (lane g), Qred (start_s g), Qred (end_s g)))))
  (ExtendSegments 9 on_A [mkLaneSeg lane_A 0 100] (-30) 350) = Some (Some [("B", 70%Q, 100%Q); ("A", 0%Q, 100%Q)]).
Proof. vm_compute. reflexivity. Qed.

(** A circular lane is its own predecessor: the segment in front of its start is merged with the route
    on the same lane, and ends before it starts. *)
Definition circle : LaneInfo := example_lane "O" ["O"] ["O"].
#[local] Instance circle_map : HDMap := {| GetLaneById _ := Some circle; GetLanesWithHeading _ _ := Some [circle] |}.
Example circular_lane_is_reversed : option_map (option_map (map (fun g => (Qred (start_s g), Qred (end_s g)))))
  (@ExtendSegments circle_map 9 NewPncMap [mkLaneSeg circle 0 50] (-20) 40) = Some (Some [(80%Q, 40%Q)]).
Proof. vm_compute. reflexivity. Qed.
End example.
