(* ===== verification/Deriv.v ===== *)
(** Deriv.v -- derivatives of functions on the rational numbers

    What it means that a function of a program computes the derivative of another
    one.  The remainder of the linear approximation is bounded by a multiple of the
    square of the step, which is the case for the functions of this development
    (polynomials, and quotients of them away from their poles). *)

From S2P Require Import Prelude.
From S2P Require Import Double.
From Stdlib Require Import Qabs Qfield.
Local Open Scope Q_scope.
#[local] Instance Q_default : DefaultRelation Qeq := {}.

Definition is_derivative (f : Q -> Q) (x d : Q) : Prop :=
  exists K delta, 0 < delta /\ forall h, Qabs h <= delta -> Qabs (f (x + h) - f x - d * h) <= K * (h * h).

(** ** Bounds *)

Lemma Qabs_mult_le a b x y : Qabs a <= x -> Qabs b <= y -> Qabs (a * b) <= x * y.
Proof.
  intros Ha Hb. rewrite Qabs_Qmult. pose proof (Qabs_nonneg a). pose proof (Qabs_nonneg b). nra.
Qed.
Lemma Qabs_plus_le a b x y : Qabs a <= x -> Qabs b <= y -> Qabs (a + b) <= x + y.
Proof. intros. pose proof (Qabs_triangle a b). lra. Qed.
Lemma Qabs_sq h : Qabs h * Qabs h == h * h.
Proof. rewrite <- Qabs_Qmult. apply Qabs_pos, Qsq_nonneg. Qed.

(** The constant of a remainder can be taken to be nonnegative, and the range to
    be at most any positive number. *)
Lemma is_derivative_bound f x d e : 0 < e -> is_derivative f x d ->
  exists K delta, 0 <= K /\ 0 < delta /\ delta <= e /\
    forall h, Qabs h <= delta -> Qabs (f (x + h) - f x - d * h) <= K * (h * h).
Proof.
  intros He (K & delta & Hd & H). exists (Qabs K), (dmin delta e).
  pose proof (Qle_Qabs K). pose proof (Qabs_nonneg K).
  repeat split; [done|dcase; lra|auto with cyber|].
  intros h Hh. pose proof (dmin_l delta e). pose proof (Qsq_nonneg h).
  eapply Qle_trans; [apply H; lra|nra].
Qed.

(** A function changes at most linearly near a point where it has a derivative. *)
Lemma remainder_is_small f x d K h : 0 <= K -> Qabs h <= 1 ->
  Qabs (f (x + h) - f x - d * h) <= K * (h * h) -> Qabs (f (x + h) - f x) <= (Qabs d + K) * Qabs h.
Proof.
  intros HK Hh H.
  setoid_replace (f (x + h) - f x) with ((f (x + h) - f x - d * h) + d * h) by ring.
  pose proof (Qabs_nonneg h). pose proof (Qabs_sq h).
  assert (h * h <= Qabs h) by nra. assert (K * (h * h) <= K * Qabs h) by nra.
  pose proof (Qabs_plus_le _ _ _ _ H (Qabs_mult_le d h _ _ (Qle_refl _) (Qle_refl _))). lra.
Qed.

(** ** Rules *)

Lemma is_derivative_eq f g x d d' : (forall y, f y == g y) -> d == d' -> is_derivative f x d -> is_derivative g x d'.
Proof.
  intros Hf Hd (K & delta & Hpos & H). exists K, delta. split; [done|]. intros h Hh.
  rewrite <- !Hf, <- Hd. auto.
Qed.

(** Only the values near the point matter. *)
Lemma is_derivative_near f g x d e : 0 < e -> (forall y, Qabs (y - x) <= e -> f y == g y) ->
  is_derivative f x d -> is_derivative g x d.
Proof.
  intros He Hfg Hf. destruct (is_derivative_bound f x d e He Hf) as (K & delta & HK & Hd & Hle & H).
  exists K, delta. split; [done|]. intros h Hh.
  assert (Hx : Qabs (x - x) <= e) by (assert (E : x - x == 0) by ring; rewrite E; apply Qlt_le_weak, He).
  assert (Hxh : Qabs (x + h - x) <= e) by (assert (E : x + h - x == h) by ring; rewrite E; lra).
  rewrite <- (Hfg _ Hx), <- (Hfg _ Hxh). auto.
Qed.

Lemma derive_const c x : is_derivative (fun _ => c) x 0.
Proof.
  exists 0, 1. split; [lra|]. intros h _. setoid_replace (c - c - 0 * h) with 0 by ring. change (Qabs 0) with 0. lra.
Qed.
Lemma derive_id x : is_derivative (fun y => y) x 1.
Proof.
  exists 0, 1. split; [lra|]. intros h _. setoid_replace (x + h - x - 1 * h) with 0 by ring. change (Qabs 0) with 0. lra.
Qed.
Lemma derive_plus f g x d d' : is_derivative f x d -> is_derivative g x d' ->
  is_derivative (fun y => f y + g y) x (d + d').
Proof.
  intros Hf Hg. destruct (is_derivative_bound f x d 1 ltac:(lra) Hf) as (K & e & HK & He & _ & H).
  destruct (is_derivative_bound g x d' e He Hg) as (K' & e' & HK' & He' & Hee & H').
  exists (K + K'), e'. split; [done|]. intros h Hh.
  setoid_replace (f (x + h) + g (x + h) - (f x + g x) - (d + d') * h)
    with ((f (x + h) - f x - d * h) + (g (x + h) - g x - d' * h)) by ring.
  pose proof (Qabs_plus_le _ _ _ _ (H h ltac:(lra)) (H' h Hh)). lra.
Qed.
Lemma derive_mult f g x d d' : is_derivative f x d -> is_derivative g x d' ->
  is_derivative (fun y => f y * g y) x (d * g x + f x * d').
Proof.
  intros Hf Hg. destruct (is_derivative_bound f x d 1 ltac:(lra) Hf) as (K & e & HK & He & He1 & H).
  destruct (is_derivative_bound g x d' e He Hg) as (K' & e' & HK' & He' & Hee & H').
  exists ((Qabs (f x) + (Qabs d + K)) * K' + K * Qabs (g x) + (Qabs d + K) * Qabs d'), e'.
  split; [done|]. intros h Hh. specialize (H h ltac:(lra)). specialize (H' h Hh).
  pose proof (remainder_is_small f x d K h HK ltac:(lra) H) as Hfx.
  pose proof (Qabs_nonneg h). pose proof (Qabs_nonneg d). pose proof (Qabs_sq h) as Hsq.
  assert (Hfh : Qabs (f (x + h)) <= Qabs (f x) + (Qabs d + K)).
  { setoid_replace (f (x + h)) with (f x + (f (x + h) - f x)) by ring.
    apply Qabs_plus_le; [lra|]. nra. }
  setoid_replace (f (x + h) * g (x + h) - f x * g x - (d * g x + f x * d') * h)
    with (f (x + h) * (g (x + h) - g x - d' * h) + (f (x + h) - f x - d * h) * g x + (f (x + h) - f x) * (d' * h)) by ring.
  pose proof (Qabs_mult_le _ _ _ _ Hfh H') as B1.
  pose proof (Qabs_mult_le _ _ _ _ H (Qle_refl (Qabs (g x)))) as B2.
  pose proof (Qabs_mult_le _ _ _ _ Hfx (Qabs_mult_le d' h _ _ (Qle_refl _) (Qle_refl _))) as B3.
  pose proof (Qabs_plus_le _ _ _ _ (Qabs_plus_le _ _ _ _ B1 B2) B3) as B4.
  eapply Qle_trans; [exact B4|]. apply Qle_lteq; right.
  rewrite <- Hsq. ring.
Qed.

Lemma inv_at_least_half F v : 0 < F -> F * (1 # 2) <= v -> 0 < / v /\ / v <= 2 * / F.
Proof.
  intros HF Hv. split; [apply Qinv_lt_0_compat; lra|].
  apply Qle_shift_inv_r; [lra|].
  pose proof (Qinv_lt_0_compat F HF). assert (F * / F == 1) by (apply Qmult_inv_r; lra). nra.
Qed.

Lemma derive_inv f x d : 0 < f x -> is_derivative f x d -> is_derivative (fun y => / f y) x (- d / (f x * f x)).
Proof.
  intros HF Hf. destruct (is_derivative_bound f x d 1 ltac:(lra) Hf) as (K & e & HK & He & He1 & H).
  set (F := f x) in *. set (L := Qabs d + K). pose proof (Qabs_nonneg d).
  set (e' := F * (1 # 2) * / (L + 1)). pose proof (Qinv_lt_0_compat (L + 1) ltac:(unfold L; lra)) as HL.
  assert (HLe : L * e' <= F * (1 # 2)).
  { assert (E : (L + 1) * e' == F * (1 # 2)) by (unfold e', L in *; field; lra).
    assert (0 <= e') by (unfold e'; nra). lra. }
  exists ((F * K + L * Qabs d) * (/ (F * F) * (2 * / F))), (dmin e e').
  split; [unfold dmin; destruct (dlt e' e); [unfold e'; nra|done]|].
  intros h Hh. pose proof (dmin_l e e'). pose proof (dmin_r e e'). specialize (H h ltac:(lra)).
  pose proof (remainder_is_small f x d K h HK ltac:(lra) H) as HD. fold F L in HD, H.
  pose proof (Qabs_nonneg h).
  assert (Hhalf : F * (1 # 2) <= f (x + h)).
  { assert (Qabs (f (x + h) - F) <= F * (1 # 2)) as [? ?]%Qabs_Qle_condition by (unfold L in *; nra). lra. }
  destruct (inv_at_least_half F _ HF Hhalf) as [Hi1 Hi2].
  change (Qabs (/ f (x + h) - / F - - d / (F * F) * h) <= (F * K + L * Qabs d) * (/ (F * F) * (2 * / F)) * (h * h)).
  setoid_replace (/ f (x + h) - / F - - d / (F * F) * h)
    with ((- F * (f (x + h) - F - d * h) + (f (x + h) - F) * (d * h)) * (/ (F * F) * / f (x + h)))
    by (field; split; lra).
  assert (B1 : Qabs (- F * (f (x + h) - F - d * h)) <= F * (K * (h * h))).
  { apply Qabs_mult_le; [|done]. rewrite Qabs_opp, Qabs_pos; lra. }
  pose proof (Qabs_mult_le _ _ _ _ HD (Qabs_mult_le d h _ _ (Qle_refl _) (Qle_refl _))) as B2.
  assert (B3 : Qabs (/ (F * F) * / f (x + h)) <= / (F * F) * (2 * / F)).
  { pose proof (Qinv_lt_0_compat (F * F) ltac:(nra)). rewrite Qabs_pos; nra. }
  pose proof (Qabs_mult_le _ _ _ _ (Qabs_plus_le _ _ _ _ B1 B2) B3) as B4.
  eapply Qle_trans; [exact B4|]. apply Qle_lteq; right. rewrite <- (Qabs_sq h). ring.
Qed.

Lemma derive_opp f x d : is_derivative f x d -> is_derivative (fun y => - f y) x (- d).
Proof.
  intros Hf. refine (is_derivative_eq (fun y => -1 * f y) _ x _ _ _ _ (derive_mult _ _ _ _ _ (derive_const (-1) x) Hf));
    intros; ring.
Qed.

(** Differentiates by the rules; what remains are the signs of denominators. *)
Ltac derive :=
  lazymatch goal with
  | |- is_derivative (fun y => @?f y + @?g y) _ _ => apply (derive_plus f g); derive
  | |- is_derivative (fun y => @?f y - @?g y) _ _ => apply (derive_plus f (fun y => - g y)); derive
  | |- is_derivative (fun y => - @?f y) _ _ => apply (derive_opp f); derive
  | |- is_derivative (fun y => @?f y * @?g y) _ _ => first [apply derive_const | apply (derive_mult f g); derive]
  | |- is_derivative (fun y => @?f y / @?g y) _ _ => first [apply derive_const | apply (derive_mult f (fun y => / g y)); derive]
  | |- is_derivative (fun y => / @?f y) _ _ => first [apply derive_const | apply (derive_inv f); [|derive]]
  | |- is_derivative (fun y => y) _ _ => apply derive_id
  | |- _ => apply derive_const
  end.


(** Two functions that meet with the same derivative make one that has it. *)
Lemma is_derivative_join f g k x d :
  (forall y, y <= x -> f y == g y) -> (forall y, x <= y -> f y == k y) ->
  is_derivative g x d -> is_derivative k x d -> is_derivative f x d.
Proof.
  intros Hg Hk Dg Dk. destruct (is_derivative_bound g x d 1 ltac:(lra) Dg) as (K & e & HK & He & _ & B).
  destruct (is_derivative_bound k x d e He Dk) as (K' & e' & HK' & He' & Hee & B').
  exists (K + K'), e'. split; [done|]. intros h Hh. pose proof (Qsq_nonneg h).
  destruct (Qlt_le_dec h 0).
  - rewrite (Hg x), (Hg (x + h)) by lra. eapply Qle_trans; [apply B; lra|nra].
  - rewrite (Hk x), (Hk (x + h)) by lra. eapply Qle_trans; [apply B'; lra|nra].
Qed.

Lemma derive_shift f x c d : Proper (Qeq ==> Qeq) f -> is_derivative f (x - c) d -> is_derivative (fun y => f (y - c)) x d.
Proof.
  intros Hp (K & e & He & H). exists K, e. split; [done|]. intros h Hh.
  rewrite (Hp (x + h - c) (x - c + h)) by ring. auto.
Qed.
Lemma is_derivative_at f x x' d : Proper (Qeq ==> Qeq) f -> x == x' -> is_derivative f x d -> is_derivative f x' d.
Proof.
  intros Hp E (K & e & He & H). exists K, e. split; [done|]. intros h Hh.
  rewrite (Hp (x' + h) (x + h)) by (rewrite E; ring). rewrite (Hp x' x) by (by rewrite E). auto.
Qed.
