(* ===== verification/Curve1d.v ===== *)
(** Curve1d.v -- polynomial curves and spirals

    - src/src/apollo/modules/planning/math/curve1d/

    A curve is used through the virtual functions of Curve1d and PolynomialCurve1d;
    the records [Curve1d] and [PolynomialCurve1d] are a pointer to such an object.  A
    failed CHECK or DCHECK is [None]. *)

From S2P Require Import Prelude.
From S2P Require Import Double.
From S2P Require Import Deriv.
From Stdlib Require Import Qabs Qfield Qreduction.
Local Open Scope Q_scope.
#[local] Instance Q_default : DefaultRelation Qeq := {}.

Record Curve1d := mkCurve { Evaluate : nat -> double -> option double; ParamLength : option double }.
Record PolynomialCurve1d := mkPoly { curve : Curve1d; Coef : nat -> option double; Order : nat }.

(** A std::array of doubles, indexed within its bounds. *)
Definition aref (l : list double) (i : nat) : double := nth i l 0.
Definition dnat (n : nat) : double := inject_Z (Z.of_nat n).
Definition checked {A} (b : bool) (a : option A) : option A := if b then a else None.

(** std::lower_bound on a sorted vector: the first index whose entry is not less. *)
Fixpoint lower_bound (l : list double) (x : double) : nat :=
  match l with
  | [] => 0
  | y :: l => if dlt y x then S (lower_bound l x) else 0%nat
  end.

(** ** CubicPolynomialCurve1d *)

Record Cubic := mkCubic {
  cubic_coef_ : list double; cubic_start_ : list double; cubic_end_ : double; cubic_param_ : double }.
Definition NewCubic : Cubic := mkCubic [0; 0; 0; 0] [0; 0; 0] 0 0.

Definition Cubic_ComputeCoefficients (x0 dx0 ddx0 x1 param : double) : option (list double) :=
  checked (dlt 0 param)
    (let p2 := param * param in
     let p3 := param * p2 in
     let c2 := (1 # 2) * ddx0 in
     Some [x0; dx0; c2; (x1 - x0 - dx0 * param - c2 * p2) / p3]).
Definition NewCubic_with (x0 dx0 ddx0 x1 param : double) : option Cubic :=
  c ← Cubic_ComputeCoefficients x0 dx0 ddx0 x1 param; Some (mkCubic c [x0; dx0; ddx0] x1 param).

Definition Cubic_Evaluate (c : Cubic) (order : nat) (p : double) : double :=
  let a := aref (cubic_coef_ c) in
  match order with
  | 0%nat => ((a 3%nat * p + a 2%nat) * p + a 1%nat) * p + a 0%nat
  | 1%nat => (3 * a 3%nat * p + 2 * a 2%nat) * p + a 1%nat
  | 2%nat => 6 * a 3%nat * p + 2 * a 2%nat
  | 3%nat => 6 * a 3%nat
  | _ => 0
  end.
Definition Cubic_Coef (c : Cubic) (order : nat) : option double :=
  checked (order <? 4)%nat (Some (aref (cubic_coef_ c) order)).

(** The coefficients Coef(i) * i, for i from 1 on. *)
Definition derived_coefs (other : PolynomialCurve1d) (n : nat) : option (list double) :=
  mapM (fun i => c ← Coef other i; Some (c * dnat i)) (seq 1 n).
(** The coefficients Coef(i) / (i + 1), after the initial value. *)
Definition integrated_coefs (other : PolynomialCurve1d) (init_value : double) (n : nat) : option (list double) :=
  l ← mapM (fun i => c ← Coef other i; Some (c / (dnat i + 1))) (seq 0 n); Some (init_value :: l).

Definition DerivedFromQuarticCurve (c : Cubic) (other : PolynomialCurve1d) : option Cubic :=
  checked (Order other =? 4)%nat
    (param ← ParamLength (curve other); l ← derived_coefs other 4;
     Some (mkCubic l (cubic_start_ c) (cubic_end_ c) param)).

(** ** QuarticPolynomialCurve1d *)

Record Quartic := mkQuartic {
  quartic_coef_ : list double; quartic_start_ : list double; quartic_end_ : list double; quartic_param_ : double }.
Definition NewQuartic : Quartic := mkQuartic [0; 0; 0; 0; 0] [0; 0; 0] [0; 0] 0.

Definition Quartic_ComputeCoefficients (x0 dx0 ddx0 dx1 ddx1 p : double) : option (list double) :=
  checked (dlt 0 p)
    (let b0 := dx1 - ddx0 * p - dx0 in
     let b1 := ddx1 - ddx0 in
     let p2 := p * p in
     let p3 := p2 * p in
     Some [x0; dx0; (1 # 2) * ddx0; (3 * b0 - b1 * p) / (3 * p2); (-2 * b0 + b1 * p) / (4 * p3)]).
Definition NewQuartic_with (x0 dx0 ddx0 dx1 ddx1 param : double) : option Quartic :=
  c ← Quartic_ComputeCoefficients x0 dx0 ddx0 dx1 ddx1 param;
  Some (mkQuartic c [x0; dx0; ddx0] [dx1; ddx1] param).
Definition CopyQuartic (other : Quartic) : Quartic :=
  mkQuartic (quartic_coef_ other) [0; 0; 0] [0; 0] (quartic_param_ other).

Definition Quartic_Evaluate (c : Quartic) (order : nat) (p : double) : double :=
  let a := aref (quartic_coef_ c) in
  match order with
  | 0%nat => (((a 4%nat * p + a 3%nat) * p + a 2%nat) * p + a 1%nat) * p + a 0%nat
  | 1%nat => ((4 * a 4%nat * p + 3 * a 3%nat) * p + 2 * a 2%nat) * p + a 1%nat
  | 2%nat => (12 * a 4%nat * p + 6 * a 3%nat) * p + 2 * a 2%nat
  | 3%nat => 24 * a 4%nat * p + 6 * a 3%nat
  | 4%nat => 24 * a 4%nat
  | _ => 0
  end.
Definition Quartic_Coef (c : Quartic) (order : nat) : option double :=
  checked (order <? 5)%nat (Some (aref (quartic_coef_ c) order)).

Definition FitWithEndPointFirstOrder (c : Quartic) (x0 dx0 ddx0 x1 dx1 p : double) : option Quartic :=
  checked (dlt 0 p)
    (let c2 := (1 # 2) * ddx0 in
     let p2 := p * p in
     let p3 := p2 * p in
     let p4 := p3 * p in
     let b0 := x1 - x0 - dx0 * p - c2 * p2 in
     let b1 := dx1 - dx0 - ddx0 * p in
     Some (mkQuartic [x0; dx0; c2; (4 * b0 - b1 * p) / p3; (b1 * p - 3 * b0) / p4]
             (quartic_start_ c) (quartic_end_ c) p)).
Definition FitWithEndPointSecondOrder (c : Quartic) (x0 dx0 x1 dx1 ddx1 p : double) : option Quartic :=
  checked (dlt 0 p)
    (let p2 := p * p in
     let p3 := p2 * p in
     let p4 := p3 * p in
     let b0 := x1 - x0 - dx0 * p in
     let b1 := dx1 - dx0 in
     let c1 := b1 * p in
     let c2 := ddx1 * p2 in
     Some (mkQuartic [x0; dx0; ((1 # 2) * c2 - 3 * c1 + 6 * b0) / p2; (- c2 + 5 * c1 - 8 * b0) / p3;
                      ((1 # 2) * c2 - 2 * c1 + 3 * b0) / p4]
             (quartic_start_ c) (quartic_end_ c) p)).
Definition IntegratedFromCubicCurve (c : Quartic) (other : PolynomialCurve1d) (init_value : double) : option Quartic :=
  checked (Order other =? 3)%nat
    (param ← ParamLength (curve other); l ← integrated_coefs other init_value 4;
     Some (mkQuartic l (quartic_start_ c) (quartic_end_ c) param)).
Definition DerivedFromQuinticCurve (c : Quartic) (other : PolynomialCurve1d) : option Quartic :=
  checked (Order other =? 5)%nat
    (param ← ParamLength (curve other); l ← derived_coefs other 5;
     Some (mkQuartic l (quartic_start_ c) (quartic_end_ c) param)).

(** ** QuinticPolynomialCurve1d *)

Record Quintic := mkQuintic {
  quintic_coef_ : list double; quintic_start_ : list double; quintic_end_ : list double; quintic_param_ : double }.
Definition NewQuintic : Quintic := mkQuintic [0; 0; 0; 0; 0; 0] [0; 0; 0] [0; 0; 0] 0.

Definition Quintic_ComputeCoefficients (x0 dx0 ddx0 x1 dx1 ddx1 p : double) : option (list double) :=
  checked (dlt 0 p)
    (let p2 := p * p in
     let p3 := p * p2 in
     let c0 := (x1 - (1 # 2) * p2 * ddx0 - dx0 * p - x0) / p3 in
     let c1 := (dx1 - ddx0 * p - dx0) / p2 in
     let c2 := (ddx1 - ddx0) / p in
     Some [x0; dx0; ddx0 / 2; (1 # 2) * (20 * c0 - 8 * c1 + c2); (- (15) * c0 + 7 * c1 - c2) / p;
           (6 * c0 - 3 * c1 + (1 # 2) * c2) / p2]).
Definition NewQuintic_with (x0 dx0 ddx0 x1 dx1 ddx1 param : double) : option Quintic :=
  c ← Quintic_ComputeCoefficients x0 dx0 ddx0 x1 dx1 ddx1 param;
  Some (mkQuintic c [x0; dx0; ddx0] [x1; dx1; ddx1] param).
Definition CopyQuintic (other : Quintic) : Quintic :=
  mkQuintic (quintic_coef_ other) [0; 0; 0] [0; 0; 0] (quintic_param_ other).
Definition SetParam (c : Quintic) (x0 dx0 ddx0 x1 dx1 ddx1 param : double) : option Quintic :=
  l ← Quintic_ComputeCoefficients x0 dx0 ddx0 x1 dx1 ddx1 param;
  Some (mkQuintic l (quintic_start_ c) (quintic_end_ c) param).

Definition Quintic_Evaluate (c : Quintic) (order : nat) (p : double) : double :=
  let a := aref (quintic_coef_ c) in
  match order with
  | 0%nat => ((((a 5%nat * p + a 4%nat) * p + a 3%nat) * p + a 2%nat) * p + a 1%nat) * p + a 0%nat
  | 1%nat => (((5 * a 5%nat * p + 4 * a 4%nat) * p + 3 * a 3%nat) * p + 2 * a 2%nat) * p + a 1%nat
  | 2%nat => (((20 * a 5%nat * p + 12 * a 4%nat) * p) + 6 * a 3%nat) * p + 2 * a 2%nat
  | 3%nat => (60 * a 5%nat * p + 24 * a 4%nat) * p + 6 * a 3%nat
  | 4%nat => 120 * a 5%nat * p + 24 * a 4%nat
  | 5%nat => 120 * a 5%nat
  | _ => 0
  end.
Definition Quintic_Coef (c : Quintic) (order : nat) : option double :=
  checked (order <? 6)%nat (Some (aref (quintic_coef_ c) order)).
Definition IntegratedFromQuarticCurve (c : Quintic) (other : PolynomialCurve1d) (init_value : double) : option Quintic :=
  checked (Order other =? 4)%nat
    (param ← ParamLength (curve other); l ← integrated_coefs other init_value 5;
     Some (mkQuintic l (quintic_start_ c) (quintic_end_ c) param)).

(** The three classes as implementations of the interface. *)
Definition cubic_curve (c : Cubic) : PolynomialCurve1d :=
  mkPoly (mkCurve (fun k p => Some (Cubic_Evaluate c k p)) (Some (cubic_param_ c))) (Cubic_Coef c) 3.
Definition quartic_curve (c : Quartic) : PolynomialCurve1d :=
  mkPoly (mkCurve (fun k p => Some (Quartic_Evaluate c k p)) (Some (quartic_param_ c))) (Quartic_Coef c) 4.
Definition quintic_curve (c : Quintic) : PolynomialCurve1d :=
  mkPoly (mkCurve (fun k p => Some (Quintic_Evaluate c k p)) (Some (quintic_param_ c))) (Quintic_Coef c) 5.

(** Unfolds the operations on curves whose arguments are known. *)
Ltac curve :=
  cbn -[Qplus Qmult Qdiv Qinv Qminus Qopp dlt Qeq is_derivative] in *.

(** Evaluate of every order is the derivative of Evaluate of the order below, for the three
    degrees: velocities, accelerations and jerks of a curve belong to its positions. *)
Lemma cubic_derivative c order x : is_derivative (Cubic_Evaluate c order) x (Cubic_Evaluate c (S order) x).
Proof.
  unfold Cubic_Evaluate; do 5 (destruct order as [|order]; [curve; eapply is_derivative_eq; [reflexivity| |derive]; ring|]).
  apply derive_const.
Qed.
Lemma quartic_derivative c order x : is_derivative (Quartic_Evaluate c order) x (Quartic_Evaluate c (S order) x).
Proof.
  unfold Quartic_Evaluate; do 6 (destruct order as [|order]; [curve; eapply is_derivative_eq; [reflexivity| |derive]; ring|]).
  apply derive_const.
Qed.
Lemma quintic_derivative c order x : is_derivative (Quintic_Evaluate c order) x (Quintic_Evaluate c (S order) x).
Proof.
  unfold Quintic_Evaluate; do 7 (destruct order as [|order]; [curve; eapply is_derivative_eq; [reflexivity| |derive]; ring|]).
  apply derive_const.
Qed.

Lemma dlt_pos p : 0 < p -> dlt 0 p = true.
Proof. intros. by apply dlt_true. Qed.

(** Closes an equation between rational expressions whose denominators are products
    of a positive parameter. *)
Ltac qfield := unfold aref; curve; field; repeat split; nra.

(** Each way to fit a curve, given a positive length of the parameter, succeeds and
    returns a curve that meets all the boundary conditions it was asked for: position,
    velocity and acceleration at the start, and at the end what the curve's degree allows. *)
Theorem fitted_curves_meet_their_ends (x0 dx0 ddx0 x1 dx1 ddx1 p : double) (q : Quartic) (c : Quintic) (Hp : 0 < p) :
  (exists c, NewCubic_with x0 dx0 ddx0 x1 p = Some c /\ cubic_param_ c = p
     /\ Cubic_Evaluate c 0 0 == x0 /\ Cubic_Evaluate c 1 0 == dx0 /\ Cubic_Evaluate c 2 0 == ddx0
     /\ Cubic_Evaluate c 0 p == x1)
  /\ (exists c, NewQuartic_with x0 dx0 ddx0 dx1 ddx1 p = Some c /\ quartic_param_ c = p
     /\ Quartic_Evaluate c 0 0 == x0 /\ Quartic_Evaluate c 1 0 == dx0 /\ Quartic_Evaluate c 2 0 == ddx0
     /\ Quartic_Evaluate c 1 p == dx1 /\ Quartic_Evaluate c 2 p == ddx1)
  /\ (exists c, FitWithEndPointFirstOrder q x0 dx0 ddx0 x1 dx1 p = Some c /\ quartic_param_ c = p
     /\ Quartic_Evaluate c 0 0 == x0 /\ Quartic_Evaluate c 1 0 == dx0 /\ Quartic_Evaluate c 2 0 == ddx0
     /\ Quartic_Evaluate c 0 p == x1 /\ Quartic_Evaluate c 1 p == dx1)
  /\ (exists c, FitWithEndPointSecondOrder q x0 dx0 x1 dx1 ddx1 p = Some c /\ quartic_param_ c = p
     /\ Quartic_Evaluate c 0 0 == x0 /\ Quartic_Evaluate c 1 0 == dx0
     /\ Quartic_Evaluate c 0 p == x1 /\ Quartic_Evaluate c 1 p == dx1 /\ Quartic_Evaluate c 2 p == ddx1)
  /\ (exists c', NewQuintic_with x0 dx0 ddx0 x1 dx1 ddx1 p = Some c'
     /\ SetParam c x0 dx0 ddx0 x1 dx1 ddx1 p
        = Some (mkQuintic (quintic_coef_ c') (quintic_start_ c) (quintic_end_ c) p) /\ quintic_param_ c' = p
     /\ Quintic_Evaluate c' 0 0 == x0 /\ Quintic_Evaluate c' 1 0 == dx0 /\ Quintic_Evaluate c' 2 0 == ddx0
     /\ Quintic_Evaluate c' 0 p == x1 /\ Quintic_Evaluate c' 1 p == dx1 /\ Quintic_Evaluate c' 2 p == ddx1).
Proof.
  pose proof (dlt_pos p Hp) as H.
  unfold NewCubic_with, Cubic_ComputeCoefficients, NewQuartic_with, Quartic_ComputeCoefficients,
    FitWithEndPointFirstOrder, FitWithEndPointSecondOrder, SetParam, NewQuintic_with, Quintic_ComputeCoefficients, checked.
  rewrite H. repeat split; eexists; repeat split; qfield.
Qed.

Lemma quintic_fits x0 dx0 ddx0 x1 dx1 ddx1 p : 0 < p ->
  exists c, NewQuintic_with x0 dx0 ddx0 x1 dx1 ddx1 p = Some c /\ quintic_param_ c = p
  /\ Quintic_Evaluate c 0 0 == x0 /\ Quintic_Evaluate c 1 0 == dx0 /\ Quintic_Evaluate c 2 0 == ddx0
  /\ Quintic_Evaluate c 0 p == x1 /\ Quintic_Evaluate c 1 p == dx1 /\ Quintic_Evaluate c 2 p == ddx1.
Proof.
  intros Hp. destruct (fitted_curves_meet_their_ends x0 dx0 ddx0 x1 dx1 ddx1 p NewQuartic NewQuintic Hp)
    as (_ & _ & _ & _ & c & Hc & _ & H). by exists c.
Qed.

(** ** Derived and integrated curves *)

(** The derivative of an integrated curve is the curve, coefficient by coefficient,
    whatever the constant; integrating a derivative restores the coefficients but the
    first. *)
Definition coefs_eq : relation (list double) := Forall2 Qeq.

(** Deriving a curve and integrating it are inverse: integrating a cubic or
    quartic and deriving the result gives the coefficients back, integrating the
    derivative with the first coefficient gives the curve back, and the derived
    curve evaluates to the derivatives of the curve. *)
Theorem derived_and_integrated_are_inverse (c3 s3 : Cubic) (c4 s4 : Quartic) (c5 s5 : Quintic) (v p : double) (order : nat)
    (H3 : length (cubic_coef_ c3) = 4%nat) (H4 : length (quartic_coef_ c4) = 5%nat) (H5 : length (quintic_coef_ c5) = 6%nat) :
  (exists q c, IntegratedFromCubicCurve s4 (cubic_curve c3) v = Some q
     /\ DerivedFromQuarticCurve s3 (quartic_curve q) = Some c
     /\ coefs_eq (cubic_coef_ c) (cubic_coef_ c3) /\ cubic_param_ c = cubic_param_ c3 /\ Quartic_Evaluate q 0 0 == v)
  /\ (exists q c, IntegratedFromQuarticCurve s5 (quartic_curve c4) v = Some q
     /\ DerivedFromQuinticCurve s4 (quintic_curve q) = Some c
     /\ coefs_eq (quartic_coef_ c) (quartic_coef_ c4) /\ quartic_param_ c = quartic_param_ c4
     /\ Quintic_Evaluate q 0 0 == v)
  /\ (exists q c, DerivedFromQuinticCurve s4 (quintic_curve c5) = Some q
     /\ IntegratedFromQuarticCurve s5 (quartic_curve q) (aref (quintic_coef_ c5) 0) = Some c
     /\ coefs_eq (quintic_coef_ c) (quintic_coef_ c5)
     /\ Quartic_Evaluate q order p == Quintic_Evaluate c5 (S order) p)
  /\ (exists q c, DerivedFromQuarticCurve s3 (quartic_curve c4) = Some q
     /\ IntegratedFromCubicCurve s4 (cubic_curve q) (aref (quartic_coef_ c4) 0) = Some c
     /\ coefs_eq (quartic_coef_ c) (quartic_coef_ c4)
     /\ Cubic_Evaluate q order p == Quartic_Evaluate c4 (S order) p).
Proof.
  destruct c3 as [l3 ? ? ?], c4 as [l4 ? ? ?], c5 as [l5 ? ? ?]. simpl in H3, H4, H5.
  do 4 (destruct l3 as [|? l3]; [done|]). do 5 (destruct l4 as [|? l4]; [done|]). do 6 (destruct l5 as [|? l5]; [done|]).
  destruct l3, l4, l5; try done. unfold coefs_eq.
  repeat split; eexists _, _; (split; [reflexivity|split; [reflexivity|]]).
  all: split; [repeat (constructor; [curve; unfold dnat; curve; field|]); constructor|].
  1,2: split; [reflexivity|]; unfold aref; curve; ring.
  - do 6 (destruct order as [|order]; [unfold aref, dnat; curve; ring|]). reflexivity.
  - do 5 (destruct order as [|order]; [unfold aref, dnat; curve; ring|]). reflexivity.
Qed.

Lemma derived_and_integrated_are_inverse_witness :
  exists q c, DerivedFromQuinticCurve NewQuartic (quintic_curve (mkQuintic [1; 2; 3; 4; 5; 6] [] [] 1)) = Some q
  /\ IntegratedFromQuarticCurve NewQuintic (quartic_curve q) 1 = Some c /\ coefs_eq (quintic_coef_ c) [1; 2; 3; 4; 5; 6].
Proof.
  destruct (derived_and_integrated_are_inverse NewCubic NewCubic NewQuartic NewQuartic
    (mkQuintic [1; 2; 3; 4; 5; 6] [] [] 1) NewQuintic 0 0 0 eq_refl eq_refl eq_refl) as (_ & _ & (q & c & H1 & H2 & H3 & _) & _).
  by exists q, c.
Defined.
Lemma fitted_curves_meet_their_ends_witness : exists c, NewCubic_with 1 2 3 4 5 = Some c /\ Cubic_Evaluate c 0 5 == 4.
Proof.
  destruct (fitted_curves_meet_their_ends 1 2 3 4 0 0 5 NewQuartic NewQuintic eq_refl) as ((c & H & _ & _ & _ & _ & E) & _).
  by exists c.
Defined.
