(* ===== verification/SpiralPath.v ===== *)
(** SpiralPath.v -- quintic spirals and their gradients

    - src/src/apollo/modules/planning/math/curve1d/quintic_spiral_path.{h,cc}

    The deviations in the plane, which integrate sine and cosine, are not modelled. *)

From S2P Require Import Prelude.
From S2P Require Import Double.
From S2P Require Import Deriv.
From S2P Require Import Curve1d.
From Stdlib Require Import Qabs Qfield.
Local Open Scope Q_scope.
#[local] Instance Q_default : DefaultRelation Qeq := {}.

(** ** QuinticSpiralPath *)

(** The indices of the parameters: THETA0, KAPPA0, DKAPPA0, THETA1, KAPPA1, DKAPPA1
    are 0 to 5. *)
Definition DELTA_S : nat := 6.

Record QuinticSpiralPath := mkSpiral { quintic : Quintic; coef_deriv_ : list (list double) }.

Definition coef_deriv_of (x0 dx0 ddx0 x1 dx1 ddx1 p : double) : list (list double) :=
  let p2 := p * p in
  let p3 := p2 * p in
  let p4 := p3 * p in
  let p5 := p2 * p3 in
  let p6 := p3 * p3 in
  [[1; 0; 0; 0; 0; 0; 0];
   [0; 1; 0; 0; 0; 0; 0];
   [0; 0; 1 # 2; 0; 0; 0; 0];
   [- (10) / p3; - (6) / p2; - (3 # 2) / p; 10 / p3; - (4) / p2; (1 # 2) / p;
    30 * x0 / p4 + 12 * dx0 / p3 + (3 # 2) * ddx0 / p2 - 30 * x1 / p4 + 8 * dx1 / p3 - (1 # 2) * ddx1 / p2];
   [15 / p4; 8 / p3; (3 # 2) / p2; - (15) / p4; 7 / p3; - (1) / p2;
    - (60) * x0 / p5 - 24 * dx0 / p4 - 3 * ddx0 / p3 + 60 * x1 / p5 - 21 * dx1 / p4 + 2 * ddx1 / p3];
   [- (6) / p5; - (3) / p4; - (1 # 2) / p3; 6 / p5; - (3) / p4; (1 # 2) / p3;
    30 * x0 / p6 + 12 * dx0 / p5 + (3 # 2) * ddx0 / p4 - 30 * x1 / p6 + 12 * dx1 / p5 - (3 # 2) * ddx1 / p4]].

Definition NewQuinticSpiralPath (x0 dx0 ddx0 x1 dx1 ddx1 p : double) : option QuinticSpiralPath :=
  c ← NewQuintic_with x0 dx0 ddx0 x1 dx1 ddx1 p;
  checked (dlt 0 p) (Some (mkSpiral c (coef_deriv_of x0 dx0 ddx0 x1 dx1 ddx1 p))).

Definition cderiv (c : QuinticSpiralPath) (i param_index : nat) : double :=
  aref (nth i (coef_deriv_ c) []) param_index.

Definition DeriveTheta (c : QuinticSpiralPath) (param_index : nat) (r : double) : double :=
  let a := aref (quintic_coef_ (quintic c)) in
  let s := quintic_param_ (quintic c) * r in
  let s2 := s * s in
  let s3 := s2 * s in
  let s4 := s2 * s2 in
  let s5 := s3 * s2 in
  let derivative := cderiv c 5 param_index * s5 + cderiv c 4 param_index * s4 + cderiv c 3 param_index * s3
    + cderiv c 2 param_index * s2 + cderiv c 1 param_index * s + cderiv c 0 param_index in
  if (param_index =? DELTA_S)%nat then
    derivative + (a 5%nat * 5 * s4 * r + a 4%nat * 4 * s3 * r + a 3%nat * 3 * s2 * r + a 2%nat * 2 * s * r + a 1%nat * r)
  else derivative.

Definition DeriveKappaDerivative (c : QuinticSpiralPath) (param_index : nat) (r : double) : double :=
  let a := aref (quintic_coef_ (quintic c)) in
  let s := quintic_param_ (quintic c) * r in
  let s2 := s * s in
  let s3 := s2 * s in
  let s4 := s2 * s2 in
  let derivative := 5 * cderiv c 5 param_index * s4 + 4 * cderiv c 4 param_index * s3
    + 3 * cderiv c 3 param_index * s2 + 2 * cderiv c 2 param_index * s + cderiv c 1 param_index in
  if (param_index =? DELTA_S)%nat then
    derivative + (5 * a 5%nat * 4 * s3 * r + 4 * a 4%nat * 3 * s2 * r + 3 * a 3%nat * 2 * s * r + 2 * a 2%nat * r)
  else derivative.

Definition DeriveDKappaDerivative (c : QuinticSpiralPath) (param_index : nat) (r : double) : double :=
  let a := aref (quintic_coef_ (quintic c)) in
  let s := quintic_param_ (quintic c) * r in
  let s2 := s * s in
  let s3 := s2 * s in
  let derivative := 20 * cderiv c 5 param_index * s3 + 12 * cderiv c 4 param_index * s2
    + 6 * cderiv c 3 param_index * s + 2 * cderiv c 2 param_index in
  if (param_index =? DELTA_S)%nat then
    derivative + (20 * a 5%nat * 3 * s2 * r + 12 * a 4%nat * 2 * s * r + 6 * a 3%nat * r)
  else derivative.

Definition DeriveD2KappaDerivative (c : QuinticSpiralPath) (param_index : nat) (r : double) : double :=
  let a := aref (quintic_coef_ (quintic c)) in
  let s := quintic_param_ (quintic c) * r in
  let s2 := s * s in
  let derivative := 60 * cderiv c 5 param_index * s2 + 24 * cderiv c 4 param_index * s + 6 * cderiv c 3 param_index in
  if (param_index =? DELTA_S)%nat then
    derivative + (60 * a 5%nat * 2 * s * r + 24 * a 4%nat * r)
  else derivative.

(** *** The gradients

    The seven parameters of a spiral as a vector, and the value of order [order] at
    the fraction [r] of the spiral with these parameters. *)
Definition spiral_of (v : list double) : option QuinticSpiralPath :=
  NewQuinticSpiralPath (aref v 0) (aref v 1) (aref v 2) (aref v 3) (aref v 4) (aref v 5) (aref v 6).
Definition value_at (order : nat) (r : double) (v : list double) : double :=
  match spiral_of v with
  | Some c => Quintic_Evaluate (quintic c) order (quintic_param_ (quintic c) * r)
  | None => 0
  end.
(** The code's derivative of it by a parameter. *)
Definition gradient (c : QuinticSpiralPath) (order : nat) : nat -> double -> double :=
  match order with
  | 0%nat => DeriveTheta c
  | 1%nat => DeriveKappaDerivative c
  | 2%nat => DeriveDKappaDerivative c
  | _ => DeriveD2KappaDerivative c
  end.

(** The same value as an expression, which is the value where the length is positive. *)
Definition value_expr (order : nat) (r : double) (v : list double) : double :=
  let x0 := aref v 0 in let dx0 := aref v 1 in let ddx0 := aref v 2 in
  let x1 := aref v 3 in let dx1 := aref v 4 in let ddx1 := aref v 5 in let p := aref v 6 in
  let p2 := p * p in
  let p3 := p * p2 in
  let c0 := (x1 - (1 # 2) * p2 * ddx0 - dx0 * p - x0) / p3 in
  let c1 := (dx1 - ddx0 * p - dx0) / p2 in
  let c2 := (ddx1 - ddx0) / p in
  Quintic_Evaluate (mkQuintic [x0; dx0; ddx0 / 2; (1 # 2) * (20 * c0 - 8 * c1 + c2); (- (15) * c0 + 7 * c1 - c2) / p;
    (6 * c0 - 3 * c1 + (1 # 2) * c2) / p2] [] [] p) order (p * r).

Lemma value_at_expr order r v : 0 < aref v 6 -> value_at order r v = value_expr order r v.
Proof.
  intros H. unfold value_at, spiral_of, NewQuinticSpiralPath, NewQuintic_with, Quintic_ComputeCoefficients, checked.
  by rewrite (dlt_pos _ H).
Qed.

Lemma is_derivative_linear f x d : (forall h, f (x + h) == f x + d * h) -> is_derivative f x d.
Proof.
  intros H. exists 0, 1. split; [lra|]. intros h _. rewrite H.
  setoid_replace (f x + d * h - f x - d * h) with 0 by ring. change (Qabs 0) with 0. lra.
Qed.

Definition SpiralOf (a b c d e f p : double) : QuinticSpiralPath :=
  mkSpiral (mkQuintic (from_option id [] (Quintic_ComputeCoefficients a b c d e f p)) [a; b; c] [d; e; f] p)
    (coef_deriv_of a b c d e f p).
Lemma spiral_of_some a b c d e f p : 0 < p -> spiral_of [a; b; c; d; e; f; p] = Some (SpiralOf a b c d e f p).
Proof.
  intros H. unfold spiral_of, SpiralOf, NewQuinticSpiralPath, NewQuintic_with, Quintic_ComputeCoefficients, checked.
  unfold aref. cbn [nth]. by rewrite (dlt_pos _ H).
Qed.

Ltac spiral H :=
  unfold gradient, DeriveTheta, DeriveKappaDerivative, DeriveDKappaDerivative, DeriveD2KappaDerivative, cderiv, SpiralOf,
    Quintic_ComputeCoefficients, checked, value_expr, Quintic_Evaluate, coef_deriv_of, aref;
  rewrite (dlt_pos _ H); unfold aref; curve.

Lemma gradient_linear (a b c d e f p : double) order i r : 0 < p -> (order < 4)%nat -> (i < 6)%nat ->
  is_derivative (fun y => value_expr order r (<[i := y]> [a; b; c; d; e; f; p])) (aref [a; b; c; d; e; f; p] i)
    (gradient (SpiralOf a b c d e f p) order i r).
Proof.
  intros Hp Ho Hi. apply is_derivative_linear; intros h.
  do 4 (destruct order as [|order]; [
    do 6 (destruct i as [|i]; [spiral Hp; field; lra|]); lia|]).
  lia.
Qed.

(** In the length y of the spiral, the value of order k is
    (alpha + beta y + gamma y^2) / y^k, where the three are polynomials of the fraction. *)
Definition spiral_term (l : list double) (order : nat) (r : double) : double :=
  Quintic_Evaluate (mkQuintic l [] [] 0) order r.
Definition spiral_alpha (a b c d e f : double) : list double :=
  [a; 0; 0; 10 * (d - a); -15 * (d - a); 6 * (d - a)].
Definition spiral_beta (a b c d e f : double) : list double :=
  [0; b; 0; - (10 * b + 4 * (e - b)); 15 * b + 7 * (e - b); - (6 * b + 3 * (e - b))].
Definition spiral_gamma (a b c d e f : double) : list double :=
  [0; 0; (1 # 2) * c; (1 # 2) * (f - c) - c; (1 # 2) * c - (f - c); (1 # 2) * (f - c)].
Fixpoint over_pow (v y : double) (k : nat) : double :=
  match k with 0%nat => v | S k => over_pow v y k * / y end.

Lemma value_in_length a b c d e f order r y : 0 < y -> (order < 4)%nat ->
  over_pow (spiral_term (spiral_alpha a b c d e f) order r + spiral_term (spiral_beta a b c d e f) order r * y
            + spiral_term (spiral_gamma a b c d e f) order r * (y * y)) y order
  == value_expr order r [a; b; c; d; e; f; y].
Proof.
  intros Hy Ho. unfold spiral_term, spiral_alpha, spiral_beta, spiral_gamma.
  do 4 (destruct order as [|order];
    [unfold value_expr, Quintic_Evaluate; unfold aref; curve; field; lra|]). lia.
Qed.

Lemma derive_over_pow A B C x k : 0 < x ->
  is_derivative (fun y => over_pow (A + B * y + C * (y * y)) y k) x
    (over_pow (B + 2 * C * x - dnat k * (A + B * x + C * (x * x)) * / x) x k).
Proof.
  intros Hx. induction k as [|k IH]; simpl.
  - eapply is_derivative_eq; [reflexivity| |derive]. unfold dnat; simpl. field; lra.
  - eapply is_derivative_eq; [reflexivity| |apply (derive_mult _ (fun y => / y)); [exact IH|derive; lra]].
    assert (E : forall v w, over_pow (v - w) x k == over_pow v x k - over_pow w x k).
    { intros v w. clear. induction k as [|k IH]; simpl; [reflexivity|]. rewrite IH. ring. }
    assert (M : forall v w, over_pow (v * w) x k == v * over_pow w x k).
    { intros v w. clear. induction k as [|k IH]; simpl; [reflexivity|]. rewrite IH. ring. }
    assert (R : Proper (Qeq ==> Qeq) (fun v => over_pow v x k)).
    { intros v w Hvw. clear -Hvw. induction k as [|k IH]; simpl; [done|]. by rewrite IH. }
    rewrite !E.
    setoid_rewrite (R (dnat (S k) * (A + B * x + C * (x * x)) * / x) ((dnat k + 1) * / x * (A + B * x + C * (x * x)))).
    2:{ unfold dnat. rewrite Nat2Z.inj_succ, <- Z.add_1_r, inject_Z_plus. field; lra. }
    setoid_rewrite (R (dnat k * (A + B * x + C * (x * x)) * / x) (dnat k * / x * (A + B * x + C * (x * x)))).
    2:{ field; lra. }
    rewrite !M. field; lra.
Qed.

Lemma gradient_length (a b c d e f p : double) order r : 0 < p -> (order < 4)%nat ->
  is_derivative (fun y => value_expr order r [a; b; c; d; e; f; y]) p (gradient (SpiralOf a b c d e f p) order DELTA_S r).
Proof.
  intros Hp Ho.
  eapply (is_derivative_near _ _ _ _ (p * (1 # 2))); [lra| |].
  { intros y Hy. apply (value_in_length a b c d e f); [|done]. apply Qabs_Qle_condition in Hy. lra. }
  eapply is_derivative_eq; [reflexivity| |apply derive_over_pow, Hp].
  unfold spiral_term, spiral_alpha, spiral_beta, spiral_gamma, DELTA_S.
  do 4 (destruct order as [|order]; [spiral Hp; unfold dnat; curve; field; lra|]). lia.
Qed.

(** C36. The gradients the spiral optimisers use are the derivatives of the spiral: for
    every parameter (angle, curvature and its derivative at both ends, and the length),
    DeriveTheta, DeriveKappaDerivative, DeriveDKappaDerivative and
    DeriveD2KappaDerivative are the partial derivatives, by that parameter, of the
    value of order 0 to 3 at a fixed fraction of the spiral. *)
Theorem spiral_gradients_are_derivatives (a b c d e f p r : double) (order i : nat)
    (Hp : 0 < p) (Ho : (order < 4)%nat) (Hi : (i < 7)%nat) :
  exists s, spiral_of [a; b; c; d; e; f; p] = Some s
  /\ is_derivative (fun y => value_at order r (<[i := y]> [a; b; c; d; e; f; p])) (aref [a; b; c; d; e; f; p] i)
       (gradient s order i r).
Proof.
  exists (SpiralOf a b c d e f p). split; [by apply spiral_of_some|].
  assert (i = DELTA_S \/ i < 6)%nat as [->|Hlt] by (unfold DELTA_S; lia).
  - eapply (is_derivative_near _ _ _ _ (p * (1 # 2))); [lra| |exact (gradient_length a b c d e f p order r Hp Ho)].
    intros y Hy%Qabs_Qle_condition. rewrite value_at_expr; [reflexivity|]. change (0 < y).
    change (aref [a; b; c; d; e; f; p] DELTA_S) with p in Hy. lra.
  - eapply (is_derivative_eq _ _ _ _ _); [|reflexivity|exact (gradient_linear a b c d e f p order i r Hp Ho Hlt)].
    intros y. rewrite value_at_expr; [reflexivity|].
    do 6 (destruct i as [|i]; [exact Hp|]). lia.
Qed.

(** A turn of a tenth over ten metres, by the length and the order of the curvature. *)
Lemma spiral_gradients_are_derivatives_witness : exists s, spiral_of [0; 0; 0; 1 # 10; 0; 0; 10] = Some s
  /\ is_derivative (fun y => value_at 1 (1 # 2) (<[6%nat := y]> [0; 0; 0; 1 # 10; 0; 0; 10])) (aref [0; 0; 0; 1 # 10; 0; 0; 10] 6)
       (gradient s 1 6 (1 # 2)).
Proof.
  apply (spiral_gradients_are_derivatives 0 0 0 (1 # 10) 0 0 10 (1 # 2) 1 6); [reflexivity|lia|lia].
Defined.
