(* ===== verification/PiecewiseSpiral.v ===== *)
(** PiecewiseSpiral.v -- paths made of spirals

    - src/src/apollo/modules/planning/math/curve1d/piecewise_quintic_spiral_path.{h,cc} *)

From S2P Require Import Prelude.
From S2P Require Import Double.
From S2P Require Import Deriv.
From S2P Require Import Curve1d.
From S2P Require Import SpiralPath.
From Stdlib Require Import Qabs Qfield.
Local Open Scope Q_scope.
#[local] Instance Q_default : DefaultRelation Qeq := {}.

(** ** PiecewiseQuinticSpiralPath *)

Record PiecewiseQuinticSpiralPath := mkPQSP {
  pieces_ : list QuinticSpiralPath; accumulated_s_ : list double;
  last_theta_ : double; last_kappa_ : double; last_dkappa_ : double }.

Definition NewPiecewiseQuinticSpiralPath (theta kappa dkappa : double) : PiecewiseQuinticSpiralPath :=
  mkPQSP [] [0] theta kappa dkappa.

Definition Spiral_Append (c : PiecewiseQuinticSpiralPath) (theta kappa dkappa delta_s : double)
    : option PiecewiseQuinticSpiralPath :=
  back ← last (accumulated_s_ c);
  piece ← NewQuinticSpiralPath (last_theta_ c) (last_kappa_ c) (last_dkappa_ c) theta kappa dkappa delta_s;
  Some (mkPQSP (pieces_ c ++ [piece]) (accumulated_s_ c ++ [delta_s + back]) theta kappa dkappa).

Definition LocatePiece (c : PiecewiseQuinticSpiralPath) (s : double) : option nat :=
  front ← head (accumulated_s_ c);
  back ← last (accumulated_s_ c);
  checked (dle front s && dle s back)
    (Some (match lower_bound (accumulated_s_ c) s with 0%nat => 0%nat | S i => i end)).

Definition Spiral_Evaluate (c : PiecewiseQuinticSpiralPath) (order : nat) (s : double) : option double :=
  index ← LocatePiece c s;
  piece ← pieces_ c !! index;
  s0 ← accumulated_s_ c !! index;
  Some (Quintic_Evaluate (quintic piece) order (s - s0)).

Definition DeriveKappaS (c : PiecewiseQuinticSpiralPath) (s : double) : option double :=
  index ← LocatePiece c s;
  piece ← pieces_ c !! index;
  s0 ← accumulated_s_ c !! index;
  Some (DeriveKappaDerivative piece DELTA_S ((s - s0) / quintic_param_ (quintic piece))).

Definition Spiral_ParamLength (c : PiecewiseQuinticSpiralPath) : option double := last (accumulated_s_ c).

(** *** Knots

    A path is built from its start by a list of (theta, kappa, dkappa, delta_s). *)
Notation knot := (double * double * double)%type.
Definition append_all (c : PiecewiseQuinticSpiralPath) (l : list (knot * double)) : option PiecewiseQuinticSpiralPath :=
  foldl (fun c '(theta, kappa, dkappa, ds) => c ← c; Spiral_Append c theta kappa dkappa ds) (Some c) l.
Definition path_of (k : knot) (l : list (knot * double)) : option PiecewiseQuinticSpiralPath :=
  let '(theta, kappa, dkappa) := k in append_all (NewPiecewiseQuinticSpiralPath theta kappa dkappa) l.

(** The spirals between consecutive knots, and where they start and end. *)
Fixpoint spirals (k : knot) (l : list (knot * double)) : list QuinticSpiralPath :=
  match l with
  | [] => []
  | ((x1, dx1, ddx1), ds) :: l => let '(x0, dx0, ddx0) := k in SpiralOf x0 dx0 ddx0 x1 dx1 ddx1 ds :: spirals (x1, dx1, ddx1) l
  end.
Fixpoint positions (s : double) (l : list (knot * double)) : list double :=
  match l with [] => [s] | (_, ds) :: l => s :: positions (ds + s) l end.
Definition end_knot (k : knot) (l : list (knot * double)) : knot := from_option fst k (last l).

Lemma spiral_some a b c d e f p : 0 < p -> NewQuinticSpiralPath a b c d e f p = Some (SpiralOf a b c d e f p).
Proof. apply spiral_of_some. Qed.
Lemma spirals_snoc k l k' ds : spirals k (l ++ [(k', ds)])
  = spirals k l ++ [let '(a, b, c) := end_knot k l in let '(d, e, f) := k' in SpiralOf a b c d e f ds].
Proof.
  revert k. induction l as [|[[[d e] f] ds'] l IH]; intros [[a b] c]; simpl; [by destruct k' as [[??]?]|].
  rewrite IH. unfold end_knot. rewrite last_cons. destruct (last l) as [[[[??]?]?]|]; done.
Qed.
Lemma knot_positions_snoc s l k ds : exists b, last (positions s l) = Some b /\ positions s (l ++ [(k, ds)]) = positions s l ++ [ds + b].
Proof.
  revert s. induction l as [|[k' ds'] l IH]; intros s; simpl.
  - by exists s.
  - destruct (IH (ds' + s)) as (b & Hb & ->). exists b. split; [|done].
    rewrite last_cons, Hb. done.
Qed.

Lemma path_of_is k l : Forall (fun e => 0 < e.2) l ->
  path_of k l = Some (let '(a, b, c) := end_knot k l in mkPQSP (spirals k l) (positions 0 l) a b c).
Proof.
  destruct k as [[a b] c]. unfold path_of, append_all. intros H. induction l as [|[[[d e] f] ds] l IH] using rev_ind; [done|].
  apply Forall_app in H as [Hl Hds]. apply Forall_cons in Hds as [Hds _]; simpl in Hds.
  rewrite foldl_app, (IH Hl). cbn [foldl mbind option_bind]. clear IH. rewrite spirals_snoc.
  destruct (knot_positions_snoc 0 l (d, e, f) ds) as (s & Hs & ->).
  assert (E : end_knot (a, b, c) (l ++ [(d, e, f, ds)]) = (d, e, f)) by (unfold end_knot; by rewrite last_snoc).
  rewrite E. destruct (end_knot (a, b, c) l) as [[a' b'] c']. unfold Spiral_Append; simpl.
  rewrite Hs; simpl. rewrite spiral_some by done. done.
Qed.

(** *** Values at the knots *)

Definition meets (k : knot) (f : nat -> option double) : Prop :=
  let '(theta, kappa, dkappa) := k in
  exists v0 v1 v2, f 0%nat = Some v0 /\ v0 == theta /\ f 1%nat = Some v1 /\ v1 == kappa /\ f 2%nat = Some v2 /\ v2 == dkappa.

Lemma spiral_starts a b c d e f p s : 0 < p -> s == 0 ->
  meets (a, b, c) (fun order => Some (Quintic_Evaluate (quintic (SpiralOf a b c d e f p)) order s)).
Proof.
  intros Hp Hs. eexists _, _, _. repeat (split; [reflexivity|]). split; [|split; [reflexivity|split; [|split; [reflexivity|]]]];
    spiral Hp; rewrite Hs; field; lra.
Qed.
Lemma spiral_ends a b c d e f p s : 0 < p -> s == p ->
  meets (d, e, f) (fun order => Some (Quintic_Evaluate (quintic (SpiralOf a b c d e f p)) order s)).
Proof.
  intros Hp Hs. eexists _, _, _. split; [reflexivity|]. split; [|split; [reflexivity|split; [|split; [reflexivity|]]]];
    spiral Hp; rewrite Hs; field; lra.
Qed.

Lemma lower_bound_at l i s : StronglySorted Qlt l -> l !! i = Some s -> lower_bound l s = i.
Proof.
  intros Hs. revert i. induction Hs as [|x l Hs IH Hx]; intros [|i] Hi; simplify_eq/=.
  - destruct (dlt_spec s s); [lra|done].
  - assert (x < s) by (eapply Forall_lookup_1; [exact Hx|exact Hi]). rewrite (IH i Hi).
    destruct (dlt_spec x s); [done|lra].
Qed.
Lemma positions_above s l : Forall (fun e => 0 < e.2) l -> forall b, b < s -> Forall (Qlt b) (positions s l).
Proof.
  revert s. induction l as [|[k ds] l IH]; intros s H b Hb; simpl; [by constructor|].
  apply Forall_cons in H as [Hds H]; simpl in Hds. constructor; [done|]. apply IH; [done|lra].
Qed.
Lemma positions_sorted s l : Forall (fun e => 0 < e.2) l -> StronglySorted Qlt (positions s l).
Proof.
  revert s. induction l as [|[k ds] l IH]; intros s H; simpl; [repeat constructor|].
  apply Forall_cons in H as [Hds H]; simpl in Hds. constructor; [by apply IH|]. apply positions_above; [done|lra].
Qed.
Lemma sorted_between l i s : StronglySorted Qlt l -> l !! i = Some s ->
  exists a b, head l = Some a /\ last l = Some b /\ a <= s /\ s <= b.
Proof.
  intros Hs. revert i. induction Hs as [|x l Hs IH Hx]; intros i Hi; [done|].
  rewrite last_cons. exists x. destruct i as [|i]; simplify_eq/=.
  - exists (from_option id s (last l)). destruct (last l) as [b|] eqn:Hb; simpl; repeat split; try lra.
    apply last_Some in Hb as [l' ->]. apply Forall_app in Hx as [_ Hx]. apply Forall_cons in Hx as [Hx _]. lra.
  - destruct (IH i Hi) as (a & b & Ha & Hb & Hab). rewrite Hb. exists b.
    assert (x < s) by (eapply Forall_lookup_1; [exact Hx|exact Hi]). repeat split; try done; lra.
Qed.

(** Piece [i] runs from knot [i] at position [i] to knot [S i] at position [S i]. *)
Lemma spirals_lookup k l i s : Forall (fun e => 0 < e.2) l -> positions s l !! S i <> None ->
  exists a b c d e f ds s0 s1, (k :: map fst l) !! i = Some (a, b, c) /\ (k :: map fst l) !! S i = Some (d, e, f)
    /\ spirals k l !! i = Some (SpiralOf a b c d e f ds) /\ 0 < ds
    /\ positions s l !! i = Some s0 /\ positions s l !! S i = Some s1 /\ s1 == s0 + ds.
Proof.
  revert k i s. induction l as [|[[[d e] f] ds] l IH]; intros [[a b] c] i s H Hi; [done|].
  apply Forall_cons in H as [Hds H]; simpl in Hds.
  destruct i as [|i].
  - exists a, b, c, d, e, f, ds, s, (ds + s). repeat split; try done; [by destruct l as [|[??]?]|ring].
  - destruct (IH (d, e, f) i (ds + s) H Hi) as (a' & b' & c' & d' & e' & f' & ds' & s0 & s1 & Ha & Hd & Hp & Hpos & H0 & H1 & Hs).
    exists a', b', c', d', e', f', ds', s0, s1. repeat split; done.
Qed.

Lemma length_positions s l : length (positions s l) = S (length l).
Proof. revert s. induction l as [|[k ds] l IH]; intros s; simpl; [done|]. by rewrite IH. Qed.

(** A path made of spirals passes its knots: built with positive lengths, it has at
    the position of each knot the angle, the curvature and the derivative of the
    curvature that were asked for, and the piece that starts there starts with the same
    values, so that the three are continuous along the whole path. *)
Theorem spiral_path_passes_its_knots (k : knot) (l : list (knot * double)) (i : nat) (s : double) (k' : knot)
    (Hl : l <> []) (Hpos : Forall (fun e => 0 < e.2) l)
    (Hs : positions 0 l !! i = Some s) (Hk : (k :: map fst l) !! i = Some k') :
  exists c, path_of k l = Some c /\ meets k' (fun order => Spiral_Evaluate c order s)
    /\ (forall piece, pieces_ c !! i = Some piece -> meets k' (fun order => Some (Quintic_Evaluate (quintic piece) order 0)))
    /\ Spiral_ParamLength c = last (positions 0 l).
Proof.
  rewrite (path_of_is _ _ Hpos). destruct (end_knot k l) as [[a b] c].
  eexists. split; [reflexivity|].
  pose proof (positions_sorted 0 l Hpos) as Hsort.
  destruct (sorted_between _ _ _ Hsort Hs) as (s0 & s1 & Hh & Hla & Hs0 & Hs1).
  assert (Hloc : LocatePiece (mkPQSP (spirals k l) (positions 0 l) a b c) s = Some (pred i)).
  { unfold LocatePiece; simpl. rewrite Hh, Hla; simpl. rewrite (lower_bound_at _ _ _ Hsort Hs).
    apply dle_true in Hs0, Hs1. rewrite Hs0, Hs1. by destruct i. }
  split; [|split; [|done]].
  - unfold Spiral_Evaluate. rewrite Hloc. cbn [mbind option_bind pieces_ accumulated_s_].
    destruct i as [|i].
    + destruct (spirals_lookup k l 0 0 Hpos) as (a' & b' & c' & d' & e' & f' & ds & t0 & t1 & Ha & Hd & Hp & Hds & H0 & H1 & Ht).
      { destruct l as [|[??] [|[??]?]]; done. }
      simpl pred. rewrite Hp, H0. rewrite Hs in H0. simplify_eq. cbn [mbind option_bind].
      apply spiral_starts; [done|ring].
    + destruct (spirals_lookup k l i 0 Hpos) as (a' & b' & c' & d' & e' & f' & ds & t0 & t1 & Ha & Hd & Hp & Hds & H0 & H1 & Ht).
      { by rewrite Hs. }
      simpl pred. rewrite Hp, H0. rewrite Hs in H1. rewrite Hk in Hd. simplify_eq. cbn [mbind option_bind].
      apply spiral_ends; [done|]. rewrite Ht. ring.
  - intros piece Hp. cbn [pieces_] in Hp.
    destruct (spirals_lookup k l i 0 Hpos) as (a' & b' & c' & d' & e' & f' & ds & t0 & t1 & Ha & Hd & Hp' & Hds & H0 & H1 & Ht).
    { intros Hn. apply lookup_lt_Some in Hp. apply lookup_ge_None_1 in Hn. rewrite length_positions in Hn.
      assert (length (spirals k l) = length l); [|lia].
      clear. revert k. induction l as [|[[[??]?]?] l IH]; intros [[??]?]; simpl; [done|]. by rewrite IH. }
    rewrite Hp in Hp'. rewrite Hk in Ha. simplify_eq. apply spiral_starts; [done|reflexivity].
Qed.

Lemma spiral_path_passes_its_knots_witness : exists c, path_of (0, 0, 0) [((1 # 10, 0, 0), 10); ((0, 0, 0), 5)] = Some c
  /\ meets (1 # 10, 0, 0) (fun order => Spiral_Evaluate c order (10 + 0))
  /\ (forall piece, pieces_ c !! 1%nat = Some piece -> meets (1 # 10, 0, 0) (fun order => Some (Quintic_Evaluate (quintic piece) order 0)))
  /\ Spiral_ParamLength c = last (positions 0 [((1 # 10, 0, 0), 10); ((0, 0, 0), 5)]).
Proof.
  apply (spiral_path_passes_its_knots (0, 0, 0) [((1 # 10, 0, 0), 10); ((0, 0, 0), 5)] 1 (10 + 0) (1 # 10, 0, 0)); try done.
  repeat constructor.
Defined.
