(* ===== verification/Trajectory1d.v ===== *)
(** Trajectory1d.v -- motions along a line

    - src/src/apollo/modules/planning/common/trajectory1d/
    - src/src/apollo/modules/planning/lattice/trajectory_generation/piecewise_braking_trajectory_generator.cc
    - src/src/apollo/modules/planning/lattice/trajectory_generation/trajectory_evaluator.cc
      (ComputeLongitudinalGuideVelocity)
    - src/src/apollo/modules/common/math/linear_interpolation.h (lerp)

    [None] is a failed CHECK, an access outside of a vector, or a quotient that is not
    finite.  std::sqrt is a parameter. *)

From S2P Require Import Prelude.
From S2P Require Import Double.
From S2P Require Import Deriv.
From S2P Require Import Curve1d.
From Stdlib Require Import Qabs Qfield.
Local Open Scope Q_scope.
#[local] Instance Q_default : DefaultRelation Qeq := {}.

(** FLAGS_numerical_epsilon *)
Definition numerical_epsilon : double := 1 # 1000000.

(** ** ConstantJerkTrajectory1d *)

Record ConstantJerk := mkCJ {
  p0_ : double; v0_ : double; a0_ : double; p1_ : double; v1_ : double; a1_ : double;
  cj_param_ : double; jerk_ : double }.

(** The switch of Evaluate. *)
Definition jerk_motion (p0 v0 a0 jerk : double) (order : nat) (param : double) : double :=
  match order with
  | 0%nat => p0 + v0 * param + (1 # 2) * a0 * param * param + jerk * param * param * param / 6
  | 1%nat => v0 + a0 * param + (1 # 2) * jerk * param * param
  | 2%nat => a0 + jerk * param
  | 3%nat => jerk
  | _ => 0
  end.
Definition CJ_Evaluate (c : ConstantJerk) (order : nat) (param : double) : option double :=
  checked (dlt (- numerical_epsilon) param) (Some (jerk_motion (p0_ c) (v0_ c) (a0_ c) (jerk_ c) order param)).

Definition NewConstantJerk (p0 v0 a0 j param : double) : option ConstantJerk :=
  checked (dlt numerical_epsilon param)
    (let c := mkCJ p0 v0 a0 0 0 0 param j in
     p1 ← CJ_Evaluate c 0 param; v1 ← CJ_Evaluate c 1 param; a1 ← CJ_Evaluate c 2 param;
     Some (mkCJ p0 v0 a0 p1 v1 a1 param j)).

(** ** PiecewiseJerkTrajectory1d *)

Record PiecewiseJerk := mkPJ {
  segments_ : list ConstantJerk; last_p_ : double; last_v_ : double; last_a_ : double; param_ : list double }.

Definition NewPiecewiseJerk (p v a : double) : PiecewiseJerk := mkPJ [] p v a [0].

Definition PJ_AppendSegment (c : PiecewiseJerk) (jerk param : double) : option PiecewiseJerk :=
  checked (dlt numerical_epsilon param)
    (back ← last (param_ c);
     seg ← NewConstantJerk (last_p_ c) (last_v_ c) (last_a_ c) jerk param;
     Some (mkPJ (segments_ c ++ [seg]) (p1_ seg) (v1_ seg) (a1_ seg) (param_ c ++ [back + param]))).

Definition PJ_Evaluate (c : PiecewiseJerk) (order : nat) (param : double) : option double :=
  checked (dle (- numerical_epsilon) param)
    (let it_lower := lower_bound (param_ c) param in
     if (it_lower =? 0)%nat then seg ← segments_ c !! 0%nat; CJ_Evaluate seg order param
     else if (it_lower =? length (param_ c))%nat then
       seg ← last (segments_ c); p ← param_ c !! (length (param_ c) - 2)%nat; CJ_Evaluate seg order (param - p)
     else
       seg ← segments_ c !! (it_lower - 1)%nat; p ← param_ c !! (it_lower - 1)%nat; CJ_Evaluate seg order (param - p)).
Definition PJ_ParamLength (c : PiecewiseJerk) : option double := last (param_ c).

(** ** ConstantDecelerationTrajectory1d *)

Record ConstantDeceleration := mkCD {
  init_s_ : double; init_v_ : double; deceleration_ : double; end_t_ : double; end_s_ : double }.

Definition NewConstantDeceleration (init_s init_v a : double) : option ConstantDeceleration :=
  let v := fabs init_v in
  let d := - a in
  checked (dlt 0 d) (Some (mkCD init_s v d (v / d) (v * v / (2 * d) + init_s))).

Definition CD_Evaluate_s (c : ConstantDeceleration) (t : double) : double :=
  if dlt t (end_t_ c) then
    let curr_v := init_v_ c - deceleration_ c * t in
    let delta_s := (curr_v + init_v_ c) * t * (1 # 2) in
    init_s_ c + delta_s
  else end_s_ c.
Definition CD_Evaluate_v (c : ConstantDeceleration) (t : double) : double :=
  if dlt t (end_t_ c) then init_v_ c - deceleration_ c * t else 0.
Definition CD_Evaluate_a (c : ConstantDeceleration) (t : double) : double :=
  if dlt t (end_t_ c) then - deceleration_ c else 0.
Definition CD_Evaluate (c : ConstantDeceleration) (order : nat) (param : double) : double :=
  match order with
  | 0%nat => CD_Evaluate_s c param
  | 1%nat => CD_Evaluate_v c param
  | 2%nat => CD_Evaluate_a c param
  | _ => 0
  end.

(** ** StandingStillTrajectory1d *)

Record StandingStill := mkSS { fixed_position_ : double; duration_ : double }.
Definition SS_Evaluate (c : StandingStill) (order : nat) (param : double) : double :=
  match order with 0%nat => fixed_position_ c | _ => 0 end.

(** ** PiecewiseAccelerationTrajectory1d *)

Definition lerp (x0 t0 x1 t1 t : double) : double :=
  if dle (fabs (t1 - t0)) (1 # 1000000) then x0 else x0 + (t - t0) / (t1 - t0) * (x1 - x0).

Record PiecewiseAcceleration := mkPA {
  s_ : list double; v_ : list double; t_ : list double; a_ : list double }.

Definition NewPiecewiseAcceleration (start_s start_v : double) : PiecewiseAcceleration :=
  mkPA [start_s] [start_v] [0] [0].

Definition PA_AppendSegment (c : PiecewiseAcceleration) (a t_duration : double) : option PiecewiseAcceleration :=
  s0 ← last (s_ c); v0 ← last (v_ c); t0 ← last (t_ c);
  let v1 := v0 + a * t_duration in
  checked (dle (- numerical_epsilon) v1)
    (let delta_s := (v0 + v1) * t_duration * (1 # 2) in
     let s1 := s0 + delta_s in
     let t1 := t0 + t_duration in
     checked (dle (s0 - numerical_epsilon) s1)
       (let s1 := dmax s1 s0 in
        Some (mkPA (s_ c ++ [s1]) (v_ c ++ [v1]) (t_ c ++ [t1]) (a_ c ++ [a])))).

Definition pop_back {A} (l : list A) : list A := take (length l - 1) l.
Definition PA_PopSegment (c : PiecewiseAcceleration) : PiecewiseAcceleration :=
  if (0 <? length (a_ c))%nat then mkPA (pop_back (s_ c)) (pop_back (v_ c)) (pop_back (t_ c)) (pop_back (a_ c)) else c.

Definition PA_ParamLength (c : PiecewiseAcceleration) : option double :=
  checked (1 <? length (t_ c))%nat (b ← last (t_ c); f ← head (t_ c); Some (b - f)).

(** The element before the index: none at index 0. *)
Definition before {A} (l : list A) (index : nat) : option A :=
  match index with 0%nat => None | S i => l !! i end.

Definition PA_Evaluate_s (c : PiecewiseAcceleration) (t : double) : option double :=
  let index := lower_bound (t_ c) t in
  s0 ← before (s_ c) index; v0 ← before (v_ c) index; t0 ← before (t_ c) index;
  v1 ← v_ c !! index; t1 ← t_ c !! index;
  let v := lerp v0 t0 v1 t1 t in
  Some ((v0 + v) * (t - t0) * (1 # 2) + s0).
Definition PA_Evaluate_v (c : PiecewiseAcceleration) (t : double) : option double :=
  let index := lower_bound (t_ c) t in
  v0 ← before (v_ c) index; t0 ← before (t_ c) index;
  v1 ← v_ c !! index; t1 ← t_ c !! index;
  Some (lerp v0 t0 v1 t1 t).
Definition PA_Evaluate_a (c : PiecewiseAcceleration) (t : double) : option double :=
  let index := lower_bound (t_ c) t in before (a_ c) index.

Definition PA_Evaluate (c : PiecewiseAcceleration) (order : nat) (param : double) : option double :=
  f ← head (t_ c); b ← last (t_ c);
  checked ((1 <? length (t_ c))%nat && (dle f param && dle param b))
    match order with
    | 0%nat => PA_Evaluate_s c param
    | 1%nat => PA_Evaluate_v c param
    | 2%nat => PA_Evaluate_a c param
    | _ => Some 0
    end.

(** Evaluate with one argument: s, v, a, j. *)
Definition PA_Evaluate_all (c : PiecewiseAcceleration) (t : double) : option (list double) :=
  f ← head (t_ c); b ← last (t_ c);
  checked ((1 <? length (t_ c))%nat && (dle f t && dle t b))
    (let index := lower_bound (t_ c) t in
     s0 ← before (s_ c) index; v0 ← before (v_ c) index; t0 ← before (t_ c) index;
     v1 ← v_ c !! index; t1 ← t_ c !! index;
     let v := lerp v0 t0 v1 t1 t in
     let s := (v0 + v) * (t - t0) * (1 # 2) + s0 in
     a ← before (a_ c) index;
     Some [s; v; a; 0]).

(** ** PiecewiseTrajectory1d *)

Record PiecewiseTrajectory := mkPT {
  trajectory_segments_ : list Curve1d; accumulated_param_lengths_ : list double }.
Definition NewPiecewiseTrajectory : PiecewiseTrajectory := mkPT [] [].

Definition PT_Evaluate (c : PiecewiseTrajectory) (order : nat) (param : double) : option double :=
  let index := lower_bound (accumulated_param_lengths_ c) param in
  checked (index <? length (accumulated_param_lengths_ c))%nat
    (let param_overhead := from_option id 0 (before (accumulated_param_lengths_ c) index) in
     seg ← trajectory_segments_ c !! index;
     Evaluate seg order (param - param_overhead)).
Definition PT_ParamLength (c : PiecewiseTrajectory) : double :=
  from_option id 0 (last (accumulated_param_lengths_ c)).

(** The values the warnings compare are computed, so that an evaluation can fail. *)
Definition evaluate4 (c : Curve1d) (param : double) : option unit :=
  _ ← Evaluate c 0 param; _ ← Evaluate c 1 param; _ ← Evaluate c 2 param; _ ← Evaluate c 3 param; Some tt.
Definition PT_AppendSegment (c : PiecewiseTrajectory) (trajectory : Curve1d) : option PiecewiseTrajectory :=
  _ ← match last (trajectory_segments_ c) with
      | None => Some tt
      | Some last_trajectory =>
        _ ← evaluate4 trajectory 0; l ← ParamLength last_trajectory; evaluate4 last_trajectory l
      end;
  l ← ParamLength trajectory;
  let accumulated := match last (accumulated_param_lengths_ c) with Some b => l + b | None => l end in
  Some (mkPT (trajectory_segments_ c ++ [trajectory]) (accumulated_param_lengths_ c ++ [accumulated])).
Definition PT_PopSegment (c : PiecewiseTrajectory) : PiecewiseTrajectory :=
  match trajectory_segments_ c with
  | [] => c
  | _ => mkPT (pop_back (trajectory_segments_ c)) (pop_back (accumulated_param_lengths_ c))
  end.
Definition PT_NumOfSegments (c : PiecewiseTrajectory) : nat := length (trajectory_segments_ c).

(** ** PiecewiseBrakingTrajectoryGenerator *)

(** A quotient of doubles, where it is finite. *)
Definition ddiv (a b : double) : option double := if Qeq_bool b 0 then None else Some (a / b).

Definition ComputeStopDistance (v dec : double) : option double := checked (dlt 0 dec) (Some (v * v / dec * (1 # 2))).
Definition ComputeStopDeceleration (dist v : double) : option double := q ← ddiv (v * v) dist; Some (q * (1 # 2)).

(** The tail of each branch: standing still until max_time. *)
Definition fill_up (tr : PiecewiseAcceleration) (max_time : double) : option PiecewiseAcceleration :=
  l ← PA_ParamLength tr;
  if dlt l max_time then PA_AppendSegment tr 0 (max_time - l) else Some tr.

Section braking.
Context (sqrt : double -> double).

Definition Generate (s_target s_curr v_target v_curr a_comfort d_comfort max_time : double)
    : option PiecewiseAcceleration :=
  let tr := NewPiecewiseAcceleration s_curr v_curr in
  let s_dist := s_target - s_curr in
  comfort_stop_dist ← ComputeStopDistance v_curr d_comfort;
  if dlt s_dist comfort_stop_dist then
    stop_d ← ComputeStopDeceleration s_dist v_curr;
    stop_t ← ddiv v_curr stop_d;
    tr ← PA_AppendSegment tr (- stop_d) stop_t;
    fill_up tr max_time
  else if dlt v_target v_curr then
    t_cruise ← ddiv (s_dist - comfort_stop_dist) v_target;
    t_rampdown ← ddiv (v_curr - v_target) d_comfort;
    t_dec ← ddiv v_target d_comfort;
    tr ← PA_AppendSegment tr (- d_comfort) t_rampdown;
    tr ← PA_AppendSegment tr 0 t_cruise;
    tr ← PA_AppendSegment tr (- d_comfort) t_dec;
    fill_up tr max_time
  else
    t_rampup ← ddiv (v_target - v_curr) a_comfort;
    t_rampdown ← ddiv (v_target - v_curr) d_comfort;
    let s_ramp := (v_curr + v_target) * (t_rampup + t_rampdown) * (1 # 2) in
    let s_rest := s_dist - s_ramp - comfort_stop_dist in
    if dlt 0 s_rest then
      t_cruise ← ddiv s_rest v_target;
      t_dec ← ddiv v_target d_comfort;
      tr ← PA_AppendSegment tr a_comfort t_rampup;
      tr ← PA_AppendSegment tr 0 t_cruise;
      tr ← PA_AppendSegment tr (- d_comfort) t_dec;
      fill_up tr max_time
    else
      let s_rampup_rampdown := s_dist - comfort_stop_dist in
      q ← ddiv (2 * a_comfort * d_comfort * s_rampup_rampdown) (a_comfort + d_comfort);
      let v_max := sqrt (v_curr * v_curr + q) in
      t_acc ← ddiv (v_max - v_curr) a_comfort;
      t_dec ← ddiv v_max d_comfort;
      tr ← PA_AppendSegment tr a_comfort t_acc;
      tr ← PA_AppendSegment tr (- d_comfort) t_dec;
      fill_up tr max_time.

(** ** ComputeLongitudinalGuideVelocity *)

Definition trajectory_time_length : double := 8.
Definition trajectory_time_resolution : double := 1 # 10.

(** The loop over the times; it has at most as many rounds as the quotient of length
    and resolution. *)
Fixpoint sample_velocities (fuel : nat) (tr : PiecewiseAcceleration) (t : double) : option (list double) :=
  match fuel with
  | 0%nat => None
  | S fuel =>
    if dlt t trajectory_time_length then
      v ← PA_Evaluate tr 1 t;
      l ← sample_velocities fuel tr (t + trajectory_time_resolution);
      Some (v :: l)
    else Some []
  end.

Definition ComputeLongitudinalGuideVelocity (init_s init_v cruise_v : double) (stop_point : option double)
    : option (list double) :=
  match stop_point with
  | None =>
    tr ← PA_AppendSegment (NewPiecewiseAcceleration init_s cruise_v) 0 (trajectory_time_length + numerical_epsilon);
    sample_velocities 81 tr 0
  | Some stop_s =>
    let dist_s := stop_s - init_s in
    if dlt dist_s numerical_epsilon then
      tr ← PA_AppendSegment (NewPiecewiseAcceleration init_s 0) 0 (trajectory_time_length + numerical_epsilon);
      sample_velocities 81 tr 0
    else
      tr ← Generate stop_s init_s cruise_v init_v (4 * (1 # 2)) (- - (9 # 2) * (1 # 2))
             (trajectory_time_length + numerical_epsilon);
      sample_velocities 81 tr 0
  end.
End braking.

(** ** Piecewise constant jerk is smooth motion *)

#[export] Instance jerk_motion_proper p v a j order : Proper (Qeq ==> Qeq) (jerk_motion p v a j order).
Proof. intros x y H. do 4 (destruct order as [|order]; [simpl; by rewrite ?H|]). done. Qed.

Lemma jerk_motion_derivative p v a j order x : is_derivative (jerk_motion p v a j order) x (jerk_motion p v a j (S order) x).
Proof.
  unfold jerk_motion; do 4 (destruct order as [|order]; [eapply is_derivative_eq; [reflexivity| |derive]; field|]).
  apply derive_const.
Qed.

(** The motion that starts at [p] with velocity [v] and acceleration [a] and has the
    given jerks for the given times; the last of them goes on forever. *)
Fixpoint motion (p v a : double) (l : list (double * double)) (order : nat) (t : double) : double :=
  match l with
  | [] => 0
  | (j, d) :: l' =>
    match l' with
    | [] => jerk_motion p v a j order t
    | _ => if dle t d then jerk_motion p v a j order t
           else motion (jerk_motion p v a j 0 d) (jerk_motion p v a j 1 d) (jerk_motion p v a j 2 d) l' order (t - d)
    end
  end.

#[export] Instance motion_proper p v a l order : Proper (Qeq ==> Qeq) (motion p v a l order).
Proof.
  revert p v a. induction l as [|[j d] l IH]; intros p v a x y H; [done|]. cbn [motion].
  destruct l; [by apply jerk_motion_proper|]. rewrite H. destruct (dle y d); [by apply jerk_motion_proper|].
  apply IH. by rewrite H.
Qed.

Definition state_at (p v a : double) (order : nat) : double := match order with 0%nat => p | 1%nat => v | _ => a end.
Lemma jerk_motion_start p v a j order x : (order <= 2)%nat -> x == 0 -> jerk_motion p v a j order x == state_at p v a order.
Proof.
  intros Ho Hx. do 3 (destruct order as [|order]; [simpl; rewrite ?Hx; field|]). lia.
Qed.
Lemma motion_start p v a l order x : l <> [] -> Forall (fun e => 0 < e.2) l -> (order <= 2)%nat -> x == 0 ->
  motion p v a l order x == state_at p v a order.
Proof.
  intros Hl H Ho Hx. destruct l as [|[j d] [|e l]]; [done|by apply jerk_motion_start|].
  apply Forall_cons in H as [Hd _]. cbn [motion]. destruct (dle_spec x d); [by apply jerk_motion_start|simpl in *; lra].
Qed.

Lemma motion_derivative p v a l order x : l <> [] -> Forall (fun e => 0 < e.2) l -> (order <= 1)%nat ->
  is_derivative (motion p v a l order) x (motion p v a l (S order) x).
Proof.
  revert p v a x. induction l as [|[j d] l IH]; intros p v a x Hl H Ho; [done|].
  apply Forall_cons in H as [Hd H]; simpl in Hd.
  destruct l as [|e l]; [apply jerk_motion_derivative|]. cbn [motion].
  set (p' := jerk_motion p v a j 0 d). set (v' := jerk_motion p v a j 1 d). set (a' := jerk_motion p v a j 2 d).
  assert (Hjoin : forall y, y == d ->
    motion p' v' a' (e :: l) order (y - d) == jerk_motion p v a j order y
    /\ motion p' v' a' (e :: l) (S order) (y - d) == jerk_motion p v a j (S order) y).
  { intros y Hy. rewrite !motion_start by (try done; try lia; rewrite Hy; ring).
    rewrite Hy. destruct order as [|[|order]]; [done..|lia]. }
  assert (Hright : forall y, d <= y ->
    (if dle y d then jerk_motion p v a j order y else motion p' v' a' (e :: l) order (y - d))
    == motion p' v' a' (e :: l) order (y - d)).
  { intros y Hy. destruct (dle_spec y d); [|done]. symmetry. apply Hjoin. lra. }
  assert (Hleft : forall y, y <= d ->
    (if dle y d then jerk_motion p v a j order y else motion p' v' a' (e :: l) order (y - d)) == jerk_motion p v a j order y).
  { intros y Hy. destruct (dle_spec y d); [done|lra]. }
  assert (Dr : is_derivative (fun y => motion p' v' a' (e :: l) order (y - d)) x (motion p' v' a' (e :: l) (S order) (x - d))).
  { apply derive_shift; [apply _|]. by apply IH. }
  pose proof (jerk_motion_derivative p v a j order x) as Dl.
  destruct (dle_spec x d) as [Hx|Hx].
  - destruct (Qlt_le_dec x d) as [Hlt|Hge].
    + eapply (is_derivative_near _ _ _ _ (d - x)); [lra| |exact Dl].
      intros y Hy%Qabs_Qle_condition. symmetry. apply Hleft. lra.
    + eapply (is_derivative_join _ _ _ x _); [intros; apply Hleft; lra|intros; apply Hright; lra|exact Dl|].
      eapply is_derivative_eq; [reflexivity| |exact Dr]. apply Hjoin. lra.
  - apply Qnot_le_lt in Hx. eapply (is_derivative_near _ _ _ _ (x - d)); [lra| |exact Dr].
    intros y Hy%Qabs_Qle_condition. symmetry. apply Hright. lra.
Qed.

(** *** The trajectory the code builds *)

Definition append_jerks (c : PiecewiseJerk) (l : list (double * double)) : option PiecewiseJerk :=
  foldl (fun c '(j, d) => c ← c; PJ_AppendSegment c j d) (Some c) l.

Fixpoint jerk_segments (p v a : double) (l : list (double * double)) : list ConstantJerk :=
  match l with
  | [] => []
  | (j, d) :: l =>
    let p1 := jerk_motion p v a j 0 d in let v1 := jerk_motion p v a j 1 d in let a1 := jerk_motion p v a j 2 d in
    mkCJ p v a p1 v1 a1 d j :: jerk_segments p1 v1 a1 l
  end.
Fixpoint jerk_times (s : double) (l : list (double * double)) : list double :=
  match l with [] => [s] | (_, d) :: l => s :: jerk_times (s + d) l end.
Fixpoint jerk_end (p v a : double) (l : list (double * double)) : double * double * double :=
  match l with
  | [] => (p, v, a)
  | (j, d) :: l => jerk_end (jerk_motion p v a j 0 d) (jerk_motion p v a j 1 d) (jerk_motion p v a j 2 d) l
  end.

Lemma new_constant_jerk p v a j d : numerical_epsilon < d ->
  NewConstantJerk p v a j d = Some (mkCJ p v a (jerk_motion p v a j 0 d) (jerk_motion p v a j 1 d) (jerk_motion p v a j 2 d) d j).
Proof.
  intros H. unfold NewConstantJerk, CJ_Evaluate, checked. rewrite (proj2 (dlt_true _ _) H).
  assert (Hd : - numerical_epsilon < d) by (unfold numerical_epsilon in *; lra).
  by rewrite (proj2 (dlt_true _ _) Hd).
Qed.

Lemma append_jerks_from l : forall segs p v a ts s, Forall (fun e => numerical_epsilon < e.2) l ->
  append_jerks (mkPJ segs p v a (ts ++ [s])) l
  = Some (let '(p', v', a') := jerk_end p v a l in mkPJ (segs ++ jerk_segments p v a l) p' v' a' (ts ++ jerk_times s l)).
Proof.
  unfold append_jerks. induction l as [|[j d] l IH]; intros segs p v a ts s H; [by rewrite app_nil_r|].
  apply Forall_cons in H as [Hd H]; simpl in Hd. cbn [foldl mbind option_bind].
  unfold PJ_AppendSegment at 2. cbn [param_ segments_ last_p_ last_v_ last_a_].
  unfold checked. rewrite (proj2 (dlt_true _ _) Hd), last_snoc. cbn [mbind option_bind].
  rewrite new_constant_jerk by done. cbn [mbind option_bind p1_ v1_ a1_].
  rewrite IH by done. cbn [jerk_end jerk_segments jerk_times].
  destruct (jerk_end _ _ _ l) as [[??]?]. by rewrite <- !app_assoc.
Qed.

(** Segment and start time the evaluation picks. *)
Definition pick (n k : nat) : nat := if (k =? n)%nat then (k - 1)%nat else k.

Lemma length_jerk_segments p v a l : length (jerk_segments p v a l) = length l.
Proof. revert p v a. induction l as [|[j d] l IH]; intros; simpl; [done|]. by rewrite IH. Qed.
Lemma length_jerk_times s l : length (jerk_times s l) = S (length l).
Proof. revert s. induction l as [|[j d] l IH]; intros; simpl; [done|]. by rewrite IH. Qed.

Lemma pick_is_motion l : forall p v a s order t, l <> [] -> Forall (fun e => 0 < e.2) l -> s < t ->
  exists seg s0, jerk_segments p v a l !! pick (length l) (lower_bound (drop 1 (jerk_times s l)) t) = Some seg
  /\ jerk_times s l !! pick (length l) (lower_bound (drop 1 (jerk_times s l)) t) = Some s0
  /\ s0 < t /\ jerk_motion (p0_ seg) (v0_ seg) (a0_ seg) (jerk_ seg) order (t - s0) == motion p v a l order (t - s).
Proof.
  induction l as [|[j d] l IH]; intros p v a s order t Hl H Hs; [done|].
  apply Forall_cons in H as [Hd H]; simpl in Hd.
  destruct l as [|e l].
  - eexists _, s. cbn -[jerk_motion dlt]. destruct (dlt (s + d) t); repeat split; done.
  - set (l' := e :: l) in *.
    assert (E : lower_bound (jerk_times (s + d) l') t
      = if dlt (s + d) t then S (lower_bound (drop 1 (jerk_times (s + d) l')) t) else 0%nat) by (by destruct e).
    change (drop 1 (jerk_times s ((j, d) :: l'))) with (jerk_times (s + d) l'). rewrite E.
    cbn [jerk_times jerk_segments length motion].
    destruct (dlt_spec (s + d) t) as [Hlt|Hge].
    + destruct (IH (jerk_motion p v a j 0 d) (jerk_motion p v a j 1 d) (jerk_motion p v a j 2 d) (s + d) order t
        ltac:(done) H Hlt) as (seg & s0 & Hseg & Hs0 & Hlt0 & Heq).
      exists seg, s0. set (k := lower_bound (drop 1 (jerk_times (s + d) l')) t) in *.
      assert (Ep : pick (S (length l')) (S k) = S (pick (length l') k)).
      { unfold pick. change (S k =? S (length l'))%nat with (k =? length l')%nat. assert (length l' = S (length l)) by done. destruct (Nat.eqb_spec k (length l')); lia. }
      rewrite Ep. repeat split; try done. rewrite Heq. unfold l'. destruct (dle_spec (t - s) d); [lra|].
      apply motion_proper. ring.
    + eexists _, s. repeat split; [done|]. cbn [p0_ v0_ a0_ jerk_]. unfold l'.
      destruct (dle_spec (t - s) d); [done|]. lra.
Qed.

Lemma epsilon_pos l : Forall (fun e : double * double => numerical_epsilon < e.2) l -> Forall (fun e => 0 < e.2) l.
Proof. intros H. eapply Forall_impl; [exact H|]. unfold numerical_epsilon. intros; simpl in *; lra. Qed.

(** Evaluate of the built trajectory is the motion, from the start on. *)
Lemma evaluate_is_motion p v a l order t : l <> [] -> Forall (fun e => numerical_epsilon < e.2) l -> 0 <= t ->
  exists c w, append_jerks (NewPiecewiseJerk p v a) l = Some c /\ PJ_Evaluate c order t = Some w /\ w == motion p v a l order t.
Proof.
  intros Hl H Ht. pose proof (epsilon_pos l H) as Hp.
  unfold NewPiecewiseJerk. change [0] with ([] ++ [0]). rewrite append_jerks_from by done.
  destruct (jerk_end p v a l) as [[p' v'] a'] eqn:He. cbn [app].
  eexists. enough (exists w, PJ_Evaluate (mkPJ (jerk_segments p v a l) p' v' a' (jerk_times 0 l)) order t = Some w
    /\ w == motion p v a l order t) as (w & Hw & Eq) by (exists w; done).
  assert (Hcj : forall seg x, 0 <= x -> CJ_Evaluate seg order x = Some (jerk_motion (p0_ seg) (v0_ seg) (a0_ seg) (jerk_ seg) order x)).
  { intros seg x Hx. unfold CJ_Evaluate, checked. by destruct (dlt_spec (- numerical_epsilon) x) as [|[]]; [|unfold numerical_epsilon; lra]. }
  unfold PJ_Evaluate, checked. destruct (dle_spec (- numerical_epsilon) t) as [_|[]]; [|unfold numerical_epsilon; lra].
  cbn [param_ segments_]. rewrite length_jerk_times.
  destruct (Qlt_le_dec 0 t) as [Hlt|Hle].
  - destruct (pick_is_motion l p v a 0 order t Hl Hp Hlt) as (seg & s0 & Hseg & Hs0 & Hlt0 & Heq).
    assert (E : lower_bound (jerk_times 0 l) t = S (lower_bound (drop 1 (jerk_times 0 l)) t)).
    { destruct l as [|[j d] l]; [done|]. simpl. destruct (dlt_spec 0 t); [done|lra]. }
    rewrite E. set (k := lower_bound _ t) in *. cbn [Nat.eqb]. unfold pick in Hseg, Hs0.
    destruct (Nat.eqb_spec k (length l)) as [Ek|Ek].
    + rewrite last_lookup, length_jerk_segments. replace (pred (length l)) with (k - 1)%nat by lia.
      replace (S (length l) - 2)%nat with (k - 1)%nat by lia. rewrite Hseg, Hs0. cbn [mbind option_bind].
      rewrite Hcj by lra. eexists. split; [done|]. rewrite Heq. apply motion_proper. ring.
    + replace (S k - 1)%nat with k by lia. rewrite Hseg, Hs0. cbn [mbind option_bind].
      rewrite Hcj by lra. eexists. split; [done|]. rewrite Heq. apply motion_proper. ring.
  - assert (E : t == 0) by lra. destruct l as [|[j d] l]; [done|]. apply Forall_cons in Hp as [Hd _]; simpl in Hd.
    cbn [jerk_times lower_bound]. destruct (dlt_spec 0 t); [lra|]. cbn [Nat.eqb jerk_segments lookup list_lookup mbind option_bind].
    rewrite Hcj by done. eexists. split; [done|]. cbn [motion p0_ v0_ a0_ jerk_].
    destruct l; [done|]. by destruct (dle_spec t d); [|lra].
Qed.

(** C37. A trajectory of pieces of constant jerk is smooth motion: for any segments longer
    than the epsilon, it is built, has a value at every time from the start on, also after
    the end, and everywhere, also where segments meet, its velocity is the derivative of
    its position and its acceleration the derivative of its velocity. *)
Theorem jerk_trajectory_is_smooth (p v a t : double) (l : list (double * double)) (order : nat)
    (Hl : l <> []) (Hd : Forall (fun e => numerical_epsilon < e.2) l) (Ht : 0 < t) (Ho : (order <= 1)%nat) :
  exists c w, append_jerks (NewPiecewiseJerk p v a) l = Some c
  /\ PJ_Evaluate c (S order) t = Some w
  /\ is_derivative (fun t => from_option id 0 (PJ_Evaluate c order t)) t w
  /\ (exists w0, PJ_Evaluate c order 0 = Some w0 /\ w0 == state_at p v a order).
Proof.
  destruct (evaluate_is_motion p v a l (S order) t Hl Hd ltac:(lra)) as (c & w & Hc & Hw & Eq).
  exists c, w. split; [done|]. split; [done|]. split.
  - eapply is_derivative_eq; [reflexivity|symmetry; exact Eq|].
    eapply (is_derivative_near _ _ _ _ t); [done| |apply motion_derivative; [done|by apply epsilon_pos|done]].
    intros y Hy%Qabs_Qle_condition.
    destruct (evaluate_is_motion p v a l order y Hl Hd ltac:(lra)) as (c' & w' & Hc' & Hw' & Eq').
    rewrite Hc in Hc'. simplify_eq. rewrite Hw'. simpl. by rewrite Eq'.
  - destruct (evaluate_is_motion p v a l order 0 Hl Hd ltac:(lra)) as (c' & w' & Hc' & Hw' & Eq').
    rewrite Hc in Hc'. simplify_eq. exists w'. split; [done|]. rewrite Eq'.
    apply motion_start; [done|by apply epsilon_pos|lia|reflexivity].
Qed.

(** ** Braking *)

(** The positions belong to the velocities and times: each segment adds its mean velocity
    times its duration. *)
Definition joined (c : PiecewiseAcceleration) : Prop :=
  length (s_ c) = length (t_ c) /\ length (v_ c) = length (t_ c)
  /\ forall i s0 s1 v0 v1 t0 t1, s_ c !! i = Some s0 -> s_ c !! S i = Some s1 -> v_ c !! i = Some v0 -> v_ c !! S i = Some v1 ->
       t_ c !! i = Some t0 -> t_ c !! S i = Some t1 -> s1 == s0 + (v0 + v1) * (t1 - t0) * (1 # 2).

Lemma last_at {A} (l : list A) x n : last l = Some x -> length l = S n -> l !! n = Some x.
Proof. rewrite last_lookup. intros H E. by rewrite E in H. Qed.

(** A pair of neighbours in an extended list is an old pair or the last one. *)
Lemma snoc_pair {A} (l : list A) n z w i x y : length l = S n -> last l = Some z -> (l ++ [w]) !! i = Some x -> (l ++ [w]) !! S i = Some y ->
  (i < n)%nat /\ l !! i = Some x /\ l !! S i = Some y \/ i = n /\ x = z /\ y = w.
Proof.
  intros Hn Hz Hx Hy. assert (Hi : (i < n)%nat \/ i = n) by (apply lookup_lt_Some in Hy; rewrite length_app in Hy; simpl in Hy; lia).
  destruct Hi as [Hi| ->]; [left|right].
  - rewrite lookup_app_l in Hx, Hy by lia. done.
  - rewrite lookup_app_l, (last_at _ _ _ Hz Hn) in Hx by lia. rewrite lookup_app_r, Hn, Nat.sub_diag in Hy by lia. by simplify_eq/=.
Qed.

Lemma append_joined c a a' s0 v0 t0 v1 d : joined c -> last (s_ c) = Some s0 -> last (v_ c) = Some v0 -> last (t_ c) = Some t0 ->
  joined (mkPA (s_ c ++ [s0 + (v0 + v1) * d * (1 # 2)]) (v_ c ++ [v1]) (t_ c ++ [t0 + d]) (a ++ a')).
Proof.
  intros (Ls & Lv & Hj) Es Ev Et. unfold joined. cbn [s_ v_ t_]. rewrite !length_app. simpl. split; [lia|]. split; [lia|].
  assert (exists n, length (t_ c) = S n) as [n Hn] by (destruct (t_ c) as [|x l]; [done|by exists (length l)]).
  intros i x0 x1 y0 y1 z0 z1 H1 H2 H3 H4 H5 H6.
  assert (length (s_ c) = S n /\ length (v_ c) = S n) as [Hns Hnv] by lia.
  destruct (snoc_pair _ n _ _ _ _ _ Hns Es H1 H2) as [(? & ? & ?)|(? & -> & ->)],
    (snoc_pair _ n _ _ _ _ _ Hnv Ev H3 H4) as [(? & ? & ?)|(? & -> & ->)],
    (snoc_pair _ n _ _ _ _ _ Hn Et H5 H6) as [(? & ? & ?)|(? & -> & ->)]; try lia.
  - by eapply Hj.
  - ring.
Qed.

(** What is known of a trajectory while it is built: where it ends, that the vehicle
    never moves backwards, and the bound of its velocities. *)
Definition tracks (c : PiecewiseAcceleration) (s v t v_bound : double) : Prop :=
  (exists s1 v1 t1, last (s_ c) = Some s1 /\ s1 == s /\ last (v_ c) = Some v1 /\ v1 == v /\ last (t_ c) = Some t1 /\ t1 == t)
  /\ head (t_ c) = Some 0 /\ Sorted Qle (s_ c) /\ Sorted Qle (t_ c) /\ Forall (fun v => 0 <= v /\ v <= v_bound) (v_ c) /\ joined c.

#[export] Instance tracks_proper c : Proper (Qeq ==> Qeq ==> Qeq ==> Qeq ==> impl) (tracks c).
Proof.
  intros s s' Hs v v' Hv t t' Ht b b' Hb [(s1 & v1 & t1 & ? & Es & ? & Ev & ? & Et) [Hh [Ss [St [Hf Hj]]]]].
  split; [|split; [done|split; [done|split; [done|split; [|done]]]]].
  - exists s1, v1, t1. rewrite <- Hs, <- Hv, <- Ht. done.
  - eapply Forall_impl; [exact Hf|]. intros w. simpl. by rewrite Hb.
Qed.

Lemma sorted_snoc l x y : Sorted Qle l -> last l = Some x -> x <= y -> Sorted Qle (l ++ [y]).
Proof.
  induction l as [|z l IH]; intros Hs Hx Hy; [done|].
  apply Sorted_inv in Hs as [Hs Hz]. rewrite last_cons in Hx.
  destruct l as [|w l]; simplify_eq/=; [by repeat constructor|].
  apply HdRel_inv in Hz. destruct (last_is_Some (w :: l)) as [_ [u Hu]]; [done|]. rewrite Hu in Hx. simplify_eq.
  constructor; [by apply IH|]. by constructor.
Qed.

Lemma append_tracks c s v t b a d : tracks c s v t b -> 0 <= d -> 0 <= v -> 0 <= v + a * d -> v + a * d <= b ->
  exists c', PA_AppendSegment c a d = Some c' /\ tracks c' (s + (v + (v + a * d)) * d * (1 # 2)) (v + a * d) (t + d) b
    /\ length (t_ c') = S (length (t_ c)).
Proof.
  intros [(s1 & v1 & t1 & Ls & Es & Lv & Ev & Lt & Et) [Hh [Ss [St [Hf Hj]]]]] Hd Hv Hv1 Hb.
  unfold PA_AppendSegment. rewrite Ls, Lv, Lt. cbn [mbind option_bind].
  assert (Hds : 0 <= (v1 + (v1 + a * d)) * d * (1 # 2)) by (rewrite Ev; nra).
  unfold checked. destruct (dle_spec (- numerical_epsilon) (v1 + a * d)) as [_|[]]; [|unfold numerical_epsilon; rewrite Ev; lra].
  destruct (dle_spec (s1 - numerical_epsilon) (s1 + (v1 + (v1 + a * d)) * d * (1 # 2))) as [_|[]]; [|unfold numerical_epsilon; lra].
  eexists. split; [reflexivity|]. cbn [t_]. split; [|rewrite length_app; simpl; lia].
  unfold dmax. destruct (dlt_spec (s1 + (v1 + (v1 + a * d)) * d * (1 # 2)) s1); [lra|].
  split; cbn [s_ v_ t_].
  - eexists _, _, _. rewrite !last_snoc. repeat split; rewrite ?Es, ?Ev, ?Et; reflexivity.
  - split; [destruct (t_ c); done|]. split; [eapply sorted_snoc; [done..|lra]|].
    split; [eapply sorted_snoc; [done..|lra]|].
    split; [|by apply append_joined]. apply Forall_app. split; [done|]. repeat constructor; rewrite Ev; lra.
Qed.

Lemma new_tracks s v b : 0 <= v -> v <= b -> tracks (NewPiecewiseAcceleration s v) s v 0 b.
Proof. intros. split; [by exists s, v, 0|]. repeat split; repeat constructor; done. Qed.

Lemma fill_up_tracks c s t b max_time : tracks c s 0 t b -> (1 < length (t_ c))%nat -> 0 <= b ->
  exists c' t', fill_up c max_time = Some c' /\ tracks c' s 0 t' b /\ max_time <= t'.
Proof.
  intros Ht Hn Hb. destruct Ht as [(s1 & v1 & t1 & Ls & Es & Lv & Ev & Lt & Et) [Hh [Ss [St [Hf Hj]]]]] eqn:E.
  unfold fill_up, PA_ParamLength, checked. destruct (Nat.ltb_spec 1 (length (t_ c))); [|lia].
  rewrite Lt, Hh. cbn [mbind option_bind].
  destruct (dlt_spec (t1 - 0) max_time) as [Hlt|Hge].
  - destruct (append_tracks c s 0 t b 0 (max_time - (t1 - 0)) Ht ltac:(lra) ltac:(lra) ltac:(lra) ltac:(lra)) as (c' & -> & Hc' & _).
    exists c', max_time. split; [done|]. split; [|lra].
    eapply tracks_proper; [..|exact Hc']; rewrite <- ?Et; ring.
  - exists c, t. split; [done|]. split; [done|]. lra.
Qed.

Lemma ddiv_some a b : ~ b == 0 -> ddiv a b = Some (a / b).
Proof. intros H. unfold ddiv. destruct (Qeq_bool b 0) eqn:E; [|done]. by apply Qeq_bool_iff in E. Qed.

Lemma quot_nonneg x d : 0 < d -> 0 <= x -> 0 <= x / d.
Proof. intros Hd Hx. unfold Qdiv. pose proof (Qinv_lt_0_compat d Hd). nra. Qed.
Lemma quot_mult x d : 0 < d -> d * (x / d) == x.
Proof. intros. field. lra. Qed.
Lemma quot_le x y d : 0 < d -> x / d <= y -> x <= y * d.
Proof. intros Hd H. pose proof (quot_mult x d Hd). nra. Qed.

Section brake.
Context (sqrt : double -> double) (s_target s_curr v_target v_curr a d max_time : double).
Hypotheses (Hs : s_curr < s_target) (Hv : 0 <= v_curr) (Hvt : 0 < v_target) (Ha : 0 < a) (Hd : 0 < d).
Notation s_dist := (s_target - s_curr).
Notation stop_dist := (v_curr * v_curr / d * (1 # 2)).

(** A trajectory that ends at rest at the target, however it was put together. *)
Definition stops_at_target (tr : option PiecewiseAcceleration) (b : double) : Prop :=
  exists c t, tr = Some c /\ tracks c s_target 0 t b /\ max_time <= t.

(** Appends a segment and goes on with what is known of the result. *)
Ltac append H :=
  match type of H with
  | tracks ?c ?s ?v ?t ?b =>
    match goal with |- context [PA_AppendSegment c ?x ?y] =>
      let c' := fresh "c" in let Hc := fresh "Hc" in let Hlen := fresh "Hlen" in
      destruct (append_tracks c s v t b x y H) as (c' & -> & Hc & Hlen);
      [| | | |cbn [mbind option_bind]]
    end
  end.

Lemma brake_at_once : s_dist < stop_dist -> 0 < v_curr ->
  stops_at_target (stop_d ← ComputeStopDeceleration s_dist v_curr; stop_t ← ddiv v_curr stop_d;
    tr ← PA_AppendSegment (NewPiecewiseAcceleration s_curr v_curr) (- stop_d) stop_t; fill_up tr max_time) v_curr.
Proof.
  intros Hlt Hv0. unfold ComputeStopDeceleration. rewrite ddiv_some by lra. cbn [mbind option_bind].
  set (stop_d := v_curr * v_curr / s_dist * (1 # 2)).
  assert (Hsd : 0 < stop_d).
  { unfold stop_d, Qdiv. pose proof (Qinv_lt_0_compat s_dist ltac:(lra)). assert (0 < v_curr * v_curr) by nra. nra. }
  rewrite ddiv_some by lra. cbn [mbind option_bind].
  pose proof (quot_mult v_curr stop_d Hsd) as Hq. pose proof (quot_nonneg v_curr stop_d Hsd Hv) as Hq0.
  pose proof (new_tracks s_curr v_curr v_curr Hv ltac:(lra)) as Hnew.
  append Hnew; [lra..|].
  assert (Hend : tracks c s_target 0 (0 + v_curr / stop_d) v_curr).
  { eapply tracks_proper; [..|exact Hc]; try reflexivity; [|lra].
    setoid_replace (v_curr + - stop_d * (v_curr / stop_d)) with 0 by lra.
    unfold stop_d. field. repeat split; lra. }
  destruct (fill_up_tracks c s_target _ v_curr max_time Hend ltac:(rewrite Hlen; simpl; lia) Hv) as (c' & t' & -> & Hc' & Ht').
  by exists c', t'.
Qed.

Lemma brake_from_above : stop_dist <= s_dist -> v_target < v_curr ->
  stops_at_target (t_cruise ← ddiv (s_dist - stop_dist) v_target; t_rampdown ← ddiv (v_curr - v_target) d;
    t_dec ← ddiv v_target d;
    tr ← PA_AppendSegment (NewPiecewiseAcceleration s_curr v_curr) (- d) t_rampdown;
    tr ← PA_AppendSegment tr 0 t_cruise; tr ← PA_AppendSegment tr (- d) t_dec; fill_up tr max_time) v_curr.
Proof.
  intros Hge Hgt. rewrite !ddiv_some by lra. cbn [mbind option_bind].
  pose proof (quot_mult (v_curr - v_target) d Hd) as Q1. pose proof (quot_nonneg (v_curr - v_target) d Hd ltac:(lra)).
  pose proof (quot_mult v_target d Hd) as Q2. pose proof (quot_nonneg v_target d Hd ltac:(lra)).
  pose proof (quot_nonneg (s_dist - stop_dist) v_target Hvt ltac:(lra)).
  pose proof (new_tracks s_curr v_curr v_curr Hv ltac:(lra)) as Hnew.
  append Hnew; [lra..|]. append Hc; [lra..|]. append Hc0; [lra..|].
  eassert (Hend : tracks c1 s_target 0 _ v_curr).
  { eapply tracks_proper; [..|exact Hc1]; try reflexivity; [|lra]. field. lra. }
  destruct (fill_up_tracks c1 s_target _ v_curr max_time Hend ltac:(rewrite Hlen1, Hlen0, Hlen; simpl; lia) Hv) as (c' & t' & -> & Hc' & Ht').
  by exists c', t'.
Qed.

Lemma brake_after_cruise : v_curr <= v_target ->
  0 < s_dist - (v_curr + v_target) * ((v_target - v_curr) / a + (v_target - v_curr) / d) * (1 # 2) - stop_dist ->
  stops_at_target (t_cruise ← ddiv (s_dist - (v_curr + v_target) * ((v_target - v_curr) / a + (v_target - v_curr) / d) * (1 # 2) - stop_dist) v_target;
    t_dec ← ddiv v_target d;
    tr ← PA_AppendSegment (NewPiecewiseAcceleration s_curr v_curr) a ((v_target - v_curr) / a);
    tr ← PA_AppendSegment tr 0 t_cruise; tr ← PA_AppendSegment tr (- d) t_dec; fill_up tr max_time) v_target.
Proof.
  intros Hle Hrest. rewrite !ddiv_some by lra. cbn [mbind option_bind].
  set (s_rest := s_dist - _ - stop_dist) in *.
  pose proof (quot_mult (v_target - v_curr) a Ha) as Q1. pose proof (quot_nonneg (v_target - v_curr) a Ha ltac:(lra)).
  pose proof (quot_mult v_target d Hd) as Q2. pose proof (quot_nonneg v_target d Hd ltac:(lra)).
  pose proof (quot_nonneg s_rest v_target Hvt ltac:(lra)).
  pose proof (new_tracks s_curr v_curr v_target Hv ltac:(lra)) as Hnew.
  append Hnew; [lra..|]. append Hc; [lra..|]. append Hc0; [lra..|].
  eassert (Hend : tracks c1 s_target 0 _ v_target).
  { eapply tracks_proper; [..|exact Hc1]; try reflexivity; [|lra]. unfold s_rest. field. lra. }
  destruct (fill_up_tracks c1 s_target _ v_target max_time Hend ltac:(rewrite Hlen1, Hlen0, Hlen; simpl; lia) ltac:(lra)) as (c' & t' & -> & Hc' & Ht').
  by exists c', t'.
Qed.

(** The highest speed of a trajectory that accelerates and brakes at once. *)
Notation peak_sq := (v_curr * v_curr + 2 * a * d * (s_dist - stop_dist) / (a + d)).

Lemma peak_bounds v_max : stop_dist <= s_dist -> v_curr <= v_target ->
  s_dist - (v_curr + v_target) * ((v_target - v_curr) / a + (v_target - v_curr) / d) * (1 # 2) - stop_dist <= 0 ->
  0 <= v_max -> v_max * v_max == peak_sq -> v_curr <= v_max /\ v_max <= v_target.
Proof.
  intros Hge Hle Hrest Hv0 Hsq. split; apply Qsq_lt_inv; try lra.
  - rewrite Hsq. pose proof (quot_nonneg (2 * a * d * (s_dist - stop_dist)) (a + d) ltac:(lra)). assert (0 <= 2 * a * d * (s_dist - stop_dist)); [|lra].
    repeat apply Qmult_le_0_compat; lra.
  - rewrite Hsq.
    set (gap := s_dist - stop_dist) in *.
    assert (Hgap : gap <= (v_target * v_target - v_curr * v_curr) * ((a + d) / (2 * a * d))).
    { assert (E : (v_curr + v_target) * ((v_target - v_curr) / a + (v_target - v_curr) / d) * (1 # 2)
        == (v_target * v_target - v_curr * v_curr) * ((a + d) / (2 * a * d))) by (field; lra).
      rewrite <- E. unfold gap. lra. }
    assert (Hm : 2 * a * d * gap / (a + d) <= v_target * v_target - v_curr * v_curr); [|lra].
    assert (E : v_target * v_target - v_curr * v_curr
      == 2 * a * d * ((v_target * v_target - v_curr * v_curr) * ((a + d) / (2 * a * d))) / (a + d)) by (field; lra).
    rewrite E. apply Qmult_le_compat_r; [|apply Qlt_le_weak, Qinv_lt_0_compat; lra].
    assert (0 < 2 * a * d) by nra. nra.
Qed.

Lemma brake_after_peak : stop_dist <= s_dist -> v_curr <= v_target ->
  s_dist - (v_curr + v_target) * ((v_target - v_curr) / a + (v_target - v_curr) / d) * (1 # 2) - stop_dist <= 0 ->
  0 <= sqrt peak_sq -> sqrt peak_sq * sqrt peak_sq == peak_sq ->
  stops_at_target (t_acc ← ddiv (sqrt peak_sq - v_curr) a; t_dec ← ddiv (sqrt peak_sq) d;
    tr ← PA_AppendSegment (NewPiecewiseAcceleration s_curr v_curr) a t_acc;
    tr ← PA_AppendSegment tr (- d) t_dec; fill_up tr max_time) v_target.
Proof.
  intros Hge Hle Hrest Hv0 Hsq. destruct (peak_bounds _ Hge Hle Hrest Hv0 Hsq) as [B1 B2].
  rewrite !ddiv_some by lra. cbn [mbind option_bind]. set (v_max := sqrt peak_sq) in *.
  pose proof (quot_mult (v_max - v_curr) a Ha) as Q1. pose proof (quot_nonneg (v_max - v_curr) a Ha ltac:(lra)).
  pose proof (quot_mult v_max d Hd) as Q2. pose proof (quot_nonneg v_max d Hd ltac:(lra)).
  pose proof (new_tracks s_curr v_curr v_target Hv ltac:(lra)) as Hnew.
  append Hnew; [lra..|]. append Hc; [lra..|].
  eassert (Hend : tracks c0 s_target 0 _ v_target).
  { eapply tracks_proper; [..|exact Hc0]; try reflexivity; [|lra].
    transitivity (s_curr + (v_max * v_max - v_curr * v_curr) / (2 * a) + v_max * v_max / (2 * d)); [field; lra|].
    rewrite Hsq. field. lra. }
  destruct (fill_up_tracks c0 s_target _ v_target max_time Hend ltac:(rewrite Hlen0, Hlen; simpl; lia) ltac:(lra)) as (c' & t' & -> & Hc' & Ht').
  by exists c', t'.
Qed.
End brake.

(** The branch on which a square root is taken: there is room to brake comfortably, the
    vehicle is not faster than the target speed, and the target speed cannot be reached. *)
Definition accelerates_to_peak (s_target s_curr v_target v_curr a d : double) : Prop :=
  v_curr * v_curr / d * (1 # 2) <= s_target - s_curr /\ v_curr <= v_target
  /\ s_target - s_curr - (v_curr + v_target) * ((v_target - v_curr) / a + (v_target - v_curr) / d) * (1 # 2)
       - v_curr * v_curr / d * (1 # 2) <= 0.

(** However the trajectory is built; the square root matters on one branch only. *)
Lemma braking_tracks (sqrt : double -> double) (s_target s_curr v_target v_curr a d max_time : double) :
  s_curr < s_target -> 0 <= v_curr -> 0 < v_target -> 0 < a -> 0 < d ->
  (accelerates_to_peak s_target s_curr v_target v_curr a d ->
   let x := v_curr * v_curr + 2 * a * d * (s_target - s_curr - v_curr * v_curr / d * (1 # 2)) / (a + d) in
   0 <= sqrt x /\ sqrt x * sqrt x == x) ->
  exists c t, Generate sqrt s_target s_curr v_target v_curr a d max_time = Some c
  /\ tracks c s_target 0 t (dmax v_curr v_target) /\ max_time <= t.
Proof.
  intros Hs Hv Hvt Ha Hd Hsqrt.
  assert (Hw : forall tr b, b <= dmax v_curr v_target -> stops_at_target s_target max_time tr b ->
    exists c t, tr = Some c /\ tracks c s_target 0 t (dmax v_curr v_target) /\ max_time <= t).
  { intros tr b Hb (c & t & -> & (He & Hh & Ss & St & Hf) & Ht). exists c, t. split; [done|]. split; [|done].
    split; [done|]. split; [done|]. split; [done|]. split; [done|]. split; [|by apply Hf].
    eapply Forall_impl; [apply Hf|]. simpl. intros; lra. }
  unfold Generate, ComputeStopDistance, checked. rewrite (dlt_pos _ Hd). cbn [mbind option_bind].
  destruct (dlt_spec (s_target - s_curr) (v_curr * v_curr / d * (1 # 2))) as [Hlt|Hge].
  - apply (Hw _ v_curr (dmax_l _ _)). eapply brake_at_once; [done..|exact Hlt|].
    destruct (Qlt_le_dec 0 v_curr); [done|]. exfalso. assert (E : v_curr == 0) by lra. rewrite E in Hlt.
    unfold Qdiv in Hlt. lra.
  - apply Qnot_lt_le in Hge. destruct (dlt_spec v_target v_curr) as [Hgt|Hle].
    + apply (Hw _ v_curr (dmax_l _ _)). by apply brake_from_above.
    + apply Qnot_lt_le in Hle. rewrite (ddiv_some (v_target - v_curr) a), (ddiv_some (v_target - v_curr) d) by lra. cbn [mbind option_bind].
      apply (Hw _ v_target (dmax_r _ _)).
      cbv zeta in *. match goal with |- context [dlt 0 ?r] => destruct (dlt_spec 0 r) as [Hrest|Hrest] end; [by apply brake_after_cruise|].
      apply Qnot_lt_le in Hrest. rewrite (ddiv_some _ (a + d)) by lra. cbn [mbind option_bind].
      destruct Hsqrt; [done|]. by apply brake_after_peak.
Qed.

(** ** Constant deceleration *)

(** The vehicle comes to rest at end_t_ and stays there, and its velocity is the
    derivative of its position at every time, also at the end. *)
Lemma deceleration_is_motion s v a c t : NewConstantDeceleration s v a = Some c ->
  is_derivative (CD_Evaluate c 0) t (CD_Evaluate c 1 t)
  /\ CD_Evaluate c 0 (end_t_ c) = end_s_ c /\ CD_Evaluate c 1 (end_t_ c) = 0
  /\ (0 <= t -> s <= CD_Evaluate c 0 t /\ CD_Evaluate c 0 t <= end_s_ c).
Proof.
  unfold NewConstantDeceleration, checked. destruct (dlt_spec 0 (- a)) as [Ha|]; [|done]. intros [= <-].
  set (w := fabs v). assert (Hw : 0 <= w) by (unfold w; dcase; lra).
  set (d := - a) in *. unfold CD_Evaluate, CD_Evaluate_s, CD_Evaluate_v. simpl.
  set (e := w / d). assert (He : d * e == w) by (apply quot_mult, Ha).
  assert (Hend : forall y, y == e -> s + (w - d * y + w) * y * (1 # 2) == w * w / (2 * d) + s).
  { intros y ->. unfold e. field. lra. }
  assert (Dl : forall y, is_derivative (fun y => s + (w - d * y + w) * y * (1 # 2)) y (w - d * y)).
  { intros y. eapply is_derivative_eq; [reflexivity| |derive]. ring. }
  assert (Hee : 0 <= e) by (apply quot_nonneg; done).
  split; [|split; [|split]].
  - destruct (dlt_spec t e) as [Hlt|Hge].
    + eapply (is_derivative_near _ _ _ _ ((e - t) * (1 # 2))); [lra| |apply Dl].
      intros y Hy%Qabs_Qle_condition. destruct (dlt_spec y e); [reflexivity|lra].
    + apply Qnot_lt_le in Hge. destruct (Qlt_le_dec e t) as [Hlt|Hle].
      * eapply (is_derivative_near _ _ _ _ (t - e)); [lra| |apply derive_const].
        intros y Hy%Qabs_Qle_condition. destruct (dlt_spec y e); [lra|reflexivity].
      * assert (Et : t == e) by lra.
        eapply (is_derivative_join _ (fun y => s + (w - d * y + w) * y * (1 # 2)) (fun _ => w * w / (2 * d) + s)).
        -- intros y Hy. destruct (dlt_spec y e); [reflexivity|]. symmetry. apply Hend. lra.
        -- intros y Hy. destruct (dlt_spec y e); [lra|reflexivity].
        -- eapply is_derivative_eq; [reflexivity| |apply Dl]. rewrite Et. lra.
        -- apply derive_const.
  - destruct (dlt_spec e e); [lra|done].
  - destruct (dlt_spec e e); [lra|done].
  - intros Ht. pose proof (Hend e (Qeq_refl e)) as E.
    assert (0 <= d * e * e) by (apply Qmult_le_0_compat; lra).
    destruct (dlt_spec t e) as [Hlt|Hge]; rewrite <- E, <- He; [|split; lra].
    assert (0 <= d * (e - t) * (e - t)) by (apply Qmult_le_0_compat; [apply Qmult_le_0_compat|]; lra).
    assert (0 <= d * (e - t) * t) by (apply Qmult_le_0_compat; [apply Qmult_le_0_compat|]; lra).
    assert (0 <= d * e * t) by (apply Qmult_le_0_compat; [apply Qmult_le_0_compat|]; lra). split; lra.
Qed.

(** ** Piecewise acceleration *)

(** Each stored velocity belongs to the velocity, the times and the acceleration
    before it: what AppendSegment keeps. *)
Definition linked (c : PiecewiseAcceleration) : Prop :=
  length (s_ c) = length (t_ c) /\ length (v_ c) = length (t_ c) /\ length (a_ c) = length (t_ c)
  /\ forall i v0 v1 t0 t1 a, v_ c !! i = Some v0 -> v_ c !! S i = Some v1 -> t_ c !! i = Some t0 ->
       t_ c !! S i = Some t1 -> a_ c !! S i = Some a -> v1 == v0 + a * (t1 - t0).

Lemma new_linked s v : linked (NewPiecewiseAcceleration s v).
Proof. by repeat split. Qed.

Lemma append_linked c c' a d : linked c -> PA_AppendSegment c a d = Some c' -> linked c'.
Proof.
  intros (Ls & Lv & La & Hl) H. unfold PA_AppendSegment, checked in H.
  destruct (last (s_ c)) as [s0|] eqn:Es; [|done]. destruct (last (v_ c)) as [v0|] eqn:Ev; [|done].
  destruct (last (t_ c)) as [t0|] eqn:Et; [|done]. cbn [mbind option_bind] in H.
  destruct (dle _ _); [|done]. destruct (dle _ _); [|done]. simplify_eq. unfold linked. cbn [s_ v_ t_ a_].
  rewrite !length_app. simpl. split; [lia|]. split; [lia|]. split; [lia|].
  assert (exists n, length (t_ c) = S n) as [n Hn] by (destruct (t_ c) as [|x l]; [done|by exists (length l)]).
  intros i w0 w1 u0 u1 b Hw0 Hw1 Hu0 Hu1 Hb.
  assert (Hi : (i < n)%nat \/ i = n).
  { apply lookup_lt_Some in Hw1. rewrite length_app in Hw1. simpl in Hw1. lia. }
  destruct Hi as [Hi| ->].
  - rewrite lookup_app_l in Hw0, Hw1, Hu0, Hu1, Hb by lia. eapply Hl; eauto.
  - rewrite lookup_app_l in Hw0, Hu0 by lia. rewrite lookup_app_r in Hw1, Hu1, Hb by lia.
    rewrite Lv, Hn, Nat.sub_diag in Hw1. rewrite Hn, Nat.sub_diag in Hu1. rewrite La, Hn, Nat.sub_diag in Hb.
    rewrite (last_at _ _ n Ev ltac:(lia)) in Hw0. rewrite (last_at _ _ n Et Hn) in Hu0. simplify_eq/=. ring.
Qed.

Lemma lower_bound_between l i x y z : Sorted Qle l -> l !! i = Some x -> l !! S i = Some y -> x < z -> z <= y ->
  lower_bound l z = S i.
Proof.
  revert i. induction l as [|w l IH]; intros i Hs Hx Hy Hxz Hzy; [done|]. pose proof Hs as Hs0.
  apply Sorted_inv in Hs as [Hs _]. destruct i as [|i]; simplify_eq/=.
  - destruct l as [|y' l]; simplify_eq/=. destruct (dlt_spec x z); [|lra]. destruct (dlt_spec y z); [lra|done].
  - rewrite (IH i Hs Hx Hy Hxz Hzy). destruct (dlt_spec w z) as [|Hn]; [done|]. exfalso. apply Hn.
    apply Sorted_StronglySorted in Hs0; [|intros ???; apply Qle_trans].
    apply StronglySorted_inv in Hs0 as [_ Hall]. assert (w <= x) by (eapply Forall_lookup_1; [exact Hall|exact Hx]). lra.
Qed.

Lemma sorted_head_last l i x : Sorted Qle l -> l !! i = Some x ->
  exists f b, head l = Some f /\ last l = Some b /\ f <= x /\ x <= b.
Proof.
  intros Hs%Sorted_StronglySorted; [|intros ???; apply Qle_trans].
  revert i. induction Hs as [|y l Hs IH Hy]; intros i Hi; [done|]. rewrite last_cons. exists y.
  destruct i as [|i]; simplify_eq/=.
  - exists (from_option id x (last l)). destruct (last l) as [b|] eqn:Hb; simpl; repeat split; try lra.
    apply last_Some in Hb as [l' ->]. apply Forall_app in Hy as [_ Hy]. by apply Forall_cons in Hy as [Hy _].
  - destruct (IH i Hi) as (f & b & Hf & Hb & Hfx & Hxb). rewrite Hb. exists b.
    assert (y <= x) by (eapply Forall_lookup_1; [exact Hy|exact Hi]). done.
Qed.

(** Inside a segment a trajectory of pieces of constant acceleration moves by the
    acceleration of that segment: with the trajectory's times in order, at a time after
    the i-th up to the next one, at least a microsecond apart, the velocity is the
    velocity at the i-th time plus acceleration times duration, and the position is the
    mean velocity times the duration further.  The acceleration Evaluate reports there is
    another one, that of the segment before. *)
Theorem acceleration_trajectory_is_motion (c : PiecewiseAcceleration) (i : nat) (s0 v0 t0 v1 t1 a a' t : double)
    (Hc : linked c) (Hsort : Sorted Qle (t_ c))
    (Hs0 : s_ c !! i = Some s0) (Hv0 : v_ c !! i = Some v0) (Ht0 : t_ c !! i = Some t0)
    (Hv1 : v_ c !! S i = Some v1) (Ht1 : t_ c !! S i = Some t1)
    (Ha : a_ c !! S i = Some a) (Ha' : a_ c !! i = Some a')
    (Hlt : t0 < t) (Hle : t <= t1) (Hgap : (1 # 1000000) < t1 - t0) :
  exists v s, PA_Evaluate c 1 t = Some v /\ v == v0 + a * (t - t0)
  /\ PA_Evaluate c 0 t = Some s /\ s == s0 + (v0 + v) * (t - t0) / 2
  /\ PA_Evaluate c 2 t = Some a' /\ PA_Evaluate_all c t = Some [s; v; a'; 0].
Proof.
  destruct (sorted_head_last _ _ _ Hsort Ht0) as (f & b & Hf & Hb & Hf0 & _).
  destruct (sorted_head_last _ _ _ Hsort Ht1) as (f' & b' & _ & Hb' & _ & Hb1).
  rewrite Hb in Hb'. simplify_eq.
  pose proof (lower_bound_between _ _ _ _ _ Hsort Ht0 Ht1 Hlt Hle) as Hlb.
  assert (Hlerp : lerp v0 t0 v1 t1 t = v0 + (t - t0) / (t1 - t0) * (v1 - v0)).
  { unfold lerp. destruct (dle_spec (fabs (t1 - t0)) (1 # 1000000)) as [Hle'|]; [|done].
    exfalso. revert Hle'. dcase; lra. }
  destruct Hc as (_ & _ & _ & Hlink). pose proof (Hlink i v0 v1 t0 t1 a Hv0 Hv1 Ht0 Ht1 Ha) as Ev1.
  exists (lerp v0 t0 v1 t1 t), ((v0 + lerp v0 t0 v1 t1 t) * (t - t0) * (1 # 2) + s0).
  assert (Hlen : (1 < length (t_ c))%nat) by (apply lookup_lt_Some in Ht1; lia).
  apply Nat.ltb_lt in Hlen.
  assert (G1 : dle f t = true) by (apply dle_true; lra). assert (G2 : dle t b' = true) by (apply dle_true; lra).
  unfold PA_Evaluate, PA_Evaluate_all, PA_Evaluate_s, PA_Evaluate_v, PA_Evaluate_a, before, checked.
  rewrite Hf, Hb, Hlb. cbn [mbind option_bind]. rewrite Hlen, G1, G2, Hs0, Hv0, Ht0, Hv1, Ht1, Ha'. cbn [andb mbind option_bind].
  rewrite Hlerp. repeat split; [rewrite Ev1; field; lra|field; lra].
Qed.

(** *** At every time *)

(** Every time after the first and up to the last is in a segment of positive length. *)
Lemma segment_of l f b t : head l = Some f -> last l = Some b -> f < t -> t <= b ->
  exists i x y, l !! i = Some x /\ l !! S i = Some y /\ x < t /\ t <= y /\ lower_bound l t = S i.
Proof.
  revert f. induction l as [|z l IH]; intros f Hf Hb Hft Htb; simplify_eq/=. destruct (dlt_spec f t); [|lra].
  destruct l as [|w l]; simplify_eq/=; [lra|]. destruct (dlt_spec w t) as [Hw|Hw].
  - destruct (IH w eq_refl Hb Hw Htb) as (i & x & y & Hx & Hy & ? & ? & E). exists (S i), x, y. repeat split; try done.
    f_equal. simpl in E. destruct (dlt_spec w t); [done|lra].
  - exists 0%nat, f, w. repeat split; try done. lra.
Qed.

Lemma evaluate_inside c i s0 v0 t0 v1 t1 f b t : s_ c !! i = Some s0 -> v_ c !! i = Some v0 -> t_ c !! i = Some t0 ->
  v_ c !! S i = Some v1 -> t_ c !! S i = Some t1 -> head (t_ c) = Some f -> last (t_ c) = Some b -> f <= t -> t <= b ->
  lower_bound (t_ c) t = S i ->
  PA_Evaluate c 1 t = Some (lerp v0 t0 v1 t1 t) /\ PA_Evaluate c 0 t = Some ((v0 + lerp v0 t0 v1 t1 t) * (t - t0) * (1 # 2) + s0).
Proof.
  intros Hs0 Hv0 Ht0 Hv1 Ht1 Hf Hb Hft Htb Hlb.
  assert (Hlen : (1 < length (t_ c))%nat) by (apply lookup_lt_Some in Ht1; lia). apply Nat.ltb_lt in Hlen.
  apply dle_true in Hft, Htb. unfold PA_Evaluate, PA_Evaluate_s, PA_Evaluate_v, before, checked.
  rewrite Hf, Hb, Hlb. cbn [mbind option_bind]. by rewrite Hlen, Hft, Htb, Hs0, Hv0, Ht0, Hv1, Ht1.
Qed.

(** The position inside a segment, as Evaluate computes it. *)
Definition inside (s0 v0 t0 v1 t1 t : double) : double := (v0 + lerp v0 t0 v1 t1 t) * (t - t0) * (1 # 2) + s0.

Lemma lerp_cases v0 t0 v1 t1 t : t0 < t1 ->
  t1 - t0 <= (1 # 1000000) /\ lerp v0 t0 v1 t1 t = v0
  \/ (1 # 1000000) < t1 - t0 /\ lerp v0 t0 v1 t1 t == v0 + (t - t0) / (t1 - t0) * (v1 - v0).
Proof.
  intros Hlt. unfold lerp. destruct (dle_spec (fabs (t1 - t0)) (1 # 1000000)) as [H|H]; [left|right]; (split; [|done]); revert H; dcase; lra.
Qed.

Lemma part_bounds t0 t t1 : t0 <= t -> t <= t1 -> t0 < t1 -> 0 <= (t - t0) / (t1 - t0) /\ (t - t0) / (t1 - t0) <= 1.
Proof.
  intros H0 H1 Hlt. split; [apply quot_nonneg; lra|]. pose proof (quot_nonneg (t1 - t) (t1 - t0) ltac:(lra) ltac:(lra)) as H.
  assert ((t - t0) / (t1 - t0) == 1 - (t1 - t) / (t1 - t0)) as -> by (field; lra). lra.
Qed.

Lemma lerp_bounds v0 t0 v1 t1 t b : t0 <= t -> t <= t1 -> t0 < t1 -> 0 <= v0 -> v0 <= b -> 0 <= v1 -> v1 <= b ->
  0 <= lerp v0 t0 v1 t1 t /\ lerp v0 t0 v1 t1 t <= b.
Proof.
  intros H0 H1 Hlt. intros. destruct (lerp_cases v0 t0 v1 t1 t Hlt) as [[_ ->]|[_ ->]]; [done|].
  destruct (part_bounds t0 t t1 H0 H1 Hlt) as [P0 P1]. set (q := (t - t0) / (t1 - t0)) in *.
  assert (v0 + q * (v1 - v0) == (1 - q) * v0 + q * v1) as -> by ring.
  pose proof (Qmult_le_0_compat (1 - q) v0 ltac:(lra) ltac:(lra)). pose proof (Qmult_le_0_compat q v1 ltac:(lra) ltac:(lra)).
  pose proof (Qmult_le_0_compat (1 - q) (b - v0) ltac:(lra) ltac:(lra)). pose proof (Qmult_le_0_compat q (b - v1) ltac:(lra) ltac:(lra)). lra.
Qed.

(** Inside a segment the position does not decrease. *)
Lemma inside_mono s0 v0 t0 v1 t1 t t' : t0 <= t -> t <= t' -> t' <= t1 -> t0 < t1 -> 0 <= v0 -> 0 <= v1 ->
  inside s0 v0 t0 v1 t1 t <= inside s0 v0 t0 v1 t1 t'.
Proof.
  intros H0 Ht H1 Hlt Hv0 Hv1. unfold inside.
  pose proof (lerp_bounds v0 t0 v1 t1 t (v0 + v1) ltac:(lra) ltac:(lra) Hlt Hv0 ltac:(lra) Hv1 ltac:(lra)) as [L _].
  pose proof (lerp_bounds v0 t0 v1 t1 t' (v0 + v1) ltac:(lra) ltac:(lra) Hlt Hv0 ltac:(lra) Hv1 ltac:(lra)) as [L' _].
  destruct (lerp_cases v0 t0 v1 t1 t Hlt) as [[Hs E]|[Hs E]], (lerp_cases v0 t0 v1 t1 t' Hlt) as [[Hs' E']|[Hs' E']]; try lra.
  - rewrite E, E'. pose proof (Qmult_le_0_compat v0 (t' - t) Hv0 ltac:(lra)). lra.
  - pose proof (Qmult_le_0_compat (lerp v0 t0 v1 t1 t + lerp v0 t0 v1 t1 t') (t' - t) ltac:(lra) ltac:(lra)) as P.
    enough ((v0 + lerp v0 t0 v1 t1 t') * (t' - t0) * (1 # 2) + s0 - ((v0 + lerp v0 t0 v1 t1 t) * (t - t0) * (1 # 2) + s0)
      == (lerp v0 t0 v1 t1 t + lerp v0 t0 v1 t1 t') * (t' - t) * (1 # 2)) by lra.
    rewrite E, E'. field. lra.
Qed.

(** It stays between the stored positions, but for the way of a microsecond: in a segment
    that is not longer than that, lerp takes the speed at the start for all of it. *)
Lemma inside_bounds s0 s1 v0 t0 v1 t1 b t : t0 <= t -> t <= t1 -> t0 < t1 -> 0 <= v0 -> v0 <= b -> 0 <= v1 -> v1 <= b ->
  s1 == s0 + (v0 + v1) * (t1 - t0) * (1 # 2) ->
  s0 <= inside s0 v0 t0 v1 t1 t /\ inside s0 v0 t0 v1 t1 t <= s1 + b * (1 # 1000000).
Proof.
  intros H0 H1 Hlt Hv0 Hb0 Hv1 Hb1 Hs. pose proof (Qmult_le_0_compat (v0 + v1) (t1 - t0) ltac:(lra) ltac:(lra)). split.
  - pose proof (inside_mono s0 v0 t0 v1 t1 t0 t ltac:(lra) H0 H1 Hlt Hv0 Hv1) as M.
    enough (inside s0 v0 t0 v1 t1 t0 == s0) by lra. unfold inside. ring.
  - unfold inside. destruct (lerp_cases v0 t0 v1 t1 t Hlt) as [[Hsh E]|[Hsh E]].
    + rewrite E. pose proof (Qmult_le_0_compat v0 ((1 # 1000000) - (t - t0)) Hv0 ltac:(lra)). lra.
    + pose proof (inside_mono s0 v0 t0 v1 t1 t t1 H0 H1 ltac:(lra) Hlt Hv0 Hv1) as M. unfold inside in M.
      destruct (lerp_cases v0 t0 v1 t1 t1 Hlt) as [[? ?]|[_ E1]]; [lra|].
      assert (lerp v0 t0 v1 t1 t1 == v1) as E2 by (rewrite E1; field; lra). rewrite E2 in M. lra.
Qed.

(** *** The start of a trajectory

    At the first time the binary search returns the first index, and the segment before
    it is read. *)
Lemma start_is_out_of_range c order : head (t_ c) = Some 0 -> (order <= 2)%nat -> PA_Evaluate c order 0 = None.
Proof.
  intros Hh Ho. destruct (t_ c) as [|x l] eqn:E; [done|]. simplify_eq/=.
  assert (Hlb : lower_bound (t_ c) 0 = 0%nat) by (rewrite E; simpl; destruct (dlt_spec 0 0); [lra|done]).
  unfold PA_Evaluate. rewrite E. cbn [head mbind option_bind].
  destruct (last (0 :: l)) as [b|]; [|done]. cbn [mbind option_bind].
  unfold checked. destruct (_ && _); [|done].
  unfold PA_Evaluate_s, PA_Evaluate_v, PA_Evaluate_a. rewrite Hlb. by destruct order as [|[|[|order]]]; [| | |lia].
Qed.

Lemma append_head c c' a d x : head (t_ c) = Some x -> PA_AppendSegment c a d = Some c' -> head (t_ c') = Some x.
Proof.
  intros Hh H. unfold PA_AppendSegment, checked in H.
  destruct (last (s_ c)); [|done]. destruct (last (v_ c)); [|done]. destruct (last (t_ c)); [|done].
  cbn [mbind option_bind] in H. destruct (dle _ _); [|done]. destruct (dle _ _); [|done]. simplify_eq. simpl.
  by destruct (t_ c).
Qed.

Lemma fill_up_head c c' m x : head (t_ c) = Some x -> fill_up c m = Some c' -> head (t_ c') = Some x.
Proof.
  intros Hh H. unfold fill_up in H. destruct (PA_ParamLength c) as [l|]; [|done]. cbn [mbind option_bind] in H.
  destruct (dlt l m); [by eapply append_head|by simplify_eq].
Qed.

(** Goes through the steps of a generator whose result is known. *)
Ltac steps H :=
  repeat (cbn [mbind option_bind] in H; cbv zeta in H;
    lazymatch type of H with
    | context [if ?b then _ else _] => destruct b
    | match ?o with Some _ => _ | None => _ end = _ => destruct o as [?|] eqn:?; [|done]
    | option_bind _ _ _ ?o = _ => destruct o as [?|] eqn:?; [|done]
    | (_ ← ?o; _) = _ => destruct o as [?|] eqn:?; [|done]
    end).

Lemma generated_head sqrt st sc vt vc a d m c : Generate sqrt st sc vt vc a d m = Some c -> head (t_ c) = Some 0.
Proof.
  intros H. unfold Generate in H. steps H.
  all: eapply fill_up_head; [|exact H]; repeat (eapply append_head; [|eassumption]); reflexivity.
Qed.

Lemma append_start c c' a d x : head (s_ c) = Some x -> PA_AppendSegment c a d = Some c' -> head (s_ c') = Some x.
Proof.
  intros Hh H. unfold PA_AppendSegment, checked in H.
  destruct (last (s_ c)); [|done]. destruct (last (v_ c)); [|done]. destruct (last (t_ c)); [|done].
  cbn [mbind option_bind] in H. destruct (dle _ _); [|done]. destruct (dle _ _); [|done]. simplify_eq. simpl.
  by destruct (s_ c).
Qed.

Lemma generated_start sqrt st sc vt vc a d m c : Generate sqrt st sc vt vc a d m = Some c -> head (s_ c) = Some sc.
Proof.
  assert (F : forall c c' x, head (s_ c) = Some x -> fill_up c m = Some c' -> head (s_ c') = Some x).
  { intros c0 c' x Hh H. unfold fill_up in H. destruct (PA_ParamLength c0) as [l|]; [|done]. cbn [mbind option_bind] in H.
    destruct (dlt l m); [by eapply append_start|by simplify_eq]. }
  intros H. unfold Generate in H. steps H.
  all: eapply F; [|exact H]; repeat (eapply append_start; [|eassumption]); reflexivity.
Qed.

(** *** What a trajectory that was built does at every time *)

Lemma sorted_times_at l i j x y : Sorted Qle l -> (i <= j)%nat -> l !! i = Some x -> l !! j = Some y -> x <= y.
Proof.
  intros Hs%Sorted_StronglySorted; [|intros ???; apply Qle_trans]. revert i j.
  induction Hs as [|z l Hs IH Hz]; intros [|i] [|j] Hij Hx Hy; simplify_eq/=; try lia; [lra| |by eapply (IH i j); [lia|..]].
  by eapply Forall_lookup_1.
Qed.

(** The segment of a time and what Evaluate computes there. *)
Lemma tracks_at c s v T b t : tracks c s v T b -> 0 < t -> t <= T ->
  exists i s0 s1 v0 v1 t0 t1, s_ c !! i = Some s0 /\ s_ c !! S i = Some s1 /\ t_ c !! i = Some t0 /\ t_ c !! S i = Some t1
  /\ v_ c !! i = Some v0 /\ v_ c !! S i = Some v1
  /\ t0 < t /\ t <= t1 /\ (0 <= v0 /\ v0 <= b) /\ (0 <= v1 /\ v1 <= b) /\ s1 == s0 + (v0 + v1) * (t1 - t0) * (1 # 2)
  /\ PA_Evaluate c 1 t = Some (lerp v0 t0 v1 t1 t) /\ PA_Evaluate c 0 t = Some (inside s0 v0 t0 v1 t1 t).
Proof.
  intros [(s1' & v1' & t1' & _ & _ & _ & _ & Lt & Et) [Hh [Ss [St [Hf (Ls & Lv & Hj)]]]]] H0 HT.
  destruct (segment_of (t_ c) 0 t1' t Hh Lt H0 ltac:(lra)) as (i & t0 & t1 & Ht0 & Ht1 & Hlt & Hle & Hlb).
  assert (S i < length (t_ c))%nat as Hi by (by eapply lookup_lt_Some).
  destruct (lookup_lt_is_Some_2 (s_ c) i ltac:(lia)) as [s0 Hs0]. destruct (lookup_lt_is_Some_2 (s_ c) (S i) ltac:(lia)) as [s1 Hs1].
  destruct (lookup_lt_is_Some_2 (v_ c) i ltac:(lia)) as [v0 Hv0]. destruct (lookup_lt_is_Some_2 (v_ c) (S i) ltac:(lia)) as [v1 Hv1].
  exists i, s0, s1, v0, v1, t0, t1.
  destruct (evaluate_inside c i s0 v0 t0 v1 t1 0 t1' t Hs0 Hv0 Ht0 Hv1 Ht1 Hh Lt ltac:(lra) ltac:(lra) Hlb) as [E1 E0].
  pose proof (Forall_lookup_1 _ _ _ _ Hf Hv0). pose proof (Forall_lookup_1 _ _ _ _ Hf Hv1). repeat (split; [done|]). split; [by eapply Hj|]. done.
Qed.

(** The vehicle's speed is within the bound at every time, and it does not move backwards:
    no later position is before an earlier one by more than the way of a microsecond. *)
Definition drives (c : PiecewiseAcceleration) (s_from s_to T b : double) : Prop :=
  forall t, 0 < t -> t <= T -> exists s v, PA_Evaluate c 0 t = Some s /\ PA_Evaluate c 1 t = Some v
  /\ 0 <= v /\ v <= b /\ s_from <= s /\ s <= s_to + b * (1 # 1000000)
  /\ forall t', t <= t' -> t' <= T -> exists s', PA_Evaluate c 0 t' = Some s' /\ s <= s' + b * (1 # 1000000).

Lemma tracks_drives c s_from s v T b : tracks c s v T b -> head (s_ c) = Some s_from -> drives c s_from s T b.
Proof.
  intros Htr Hfrom t H0 HT. pose proof Htr as [(s2 & v2 & t2 & Ls & Es & _ & _ & Lt & Et) [_ [Ss [St _]]]].
  destruct (tracks_at c s v T b t Htr H0 HT) as (i & s0 & s1 & v0 & v1 & t0 & t1 & Hs0 & Hs1 & Ht0 & Ht1 & Hv0 & Hv1 & Hlt & Hle & [] & [] & Hj & E1 & E0).
  destruct (inside_bounds s0 s1 v0 t0 v1 t1 b t) as [B1 B2]; try done; [lra..|].
  destruct (lerp_bounds v0 t0 v1 t1 t b) as [B3 B4]; try done; [lra..|].
  destruct (sorted_head_last _ _ _ Ss Hs0) as (f & ? & Hf & _ & Hfs & _). destruct (sorted_head_last _ _ _ Ss Hs1) as (? & l & _ & Hl & _ & Hsl).
  rewrite Hfrom in Hf. rewrite Ls in Hl. simplify_eq.
  eexists _, _. split; [exact E0|]. split; [exact E1|]. split; [done|]. split; [done|]. split; [lra|]. split; [lra|].
  intros t' Htt HT'.
  destruct (tracks_at c s v T b t' Htr ltac:(lra) HT') as (j & s0' & s1' & v0' & v1' & t0' & t1' & Hs0' & Hs1' & Ht0' & Ht1' & Hv0' & Hv1' & Hlt' & Hle' & [] & [] & Hj' & _ & E0').
  eexists. split; [exact E0'|]. assert (0 <= b * (1 # 1000000)) by (apply Qmult_le_0_compat; lra).
  destruct (Nat.lt_trichotomy i j) as [Hij|[->|Hij]].
  - destruct (inside_bounds s0' s1' v0' t0' v1' t1' b t') as [B5 _]; try done; [lra..|].
    pose proof (sorted_times_at _ (S i) j _ _ Ss ltac:(lia) Hs1 Hs0'). lra.
  - simplify_eq. pose proof (inside_mono s0 v0 t0 v1 t1 t t' ltac:(lra) Htt ltac:(lra) ltac:(lra) ltac:(lra) ltac:(lra)). lra.
  - pose proof (sorted_times_at _ (S j) i _ _ St ltac:(lia) Ht1' Ht0). lra.
Qed.

(** C38. The trajectory that guides the vehicle to a stop ends at rest exactly at the stop
    point, at or after the time asked for, whether the vehicle brakes at once, slows
    down to the target speed first, accelerates to it first, or cannot reach it; and at every
    time after the start, as Evaluate computes them, its speed is between zero and the larger
    of the current and the target speed, its position between the start and the stop point,
    and it does not move backwards, both but for the way of a microsecond at
    that speed, because lerp takes segments that are not longer for points.  The vehicle
    does not move backwards at the start, the point is ahead, the target speed and the
    accelerations are positive; the square root need be exact only on the branch that
    takes it, and there only at the one place where it is taken. *)
Theorem braking_ends_at_the_stop_point (sqrt : double -> double) (s_target s_curr v_target v_curr a d max_time : double)
    (Hs : s_curr < s_target) (Hv : 0 <= v_curr) (Hvt : 0 < v_target) (Ha : 0 < a) (Hd : 0 < d)
    (Hsqrt : accelerates_to_peak s_target s_curr v_target v_curr a d ->
             let x := v_curr * v_curr + 2 * a * d * (s_target - s_curr - v_curr * v_curr / d * (1 # 2)) / (a + d) in
             0 <= sqrt x /\ sqrt x * sqrt x == x) :
  exists c T, Generate sqrt s_target s_curr v_target v_curr a d max_time = Some c
  /\ tracks c s_target 0 T (dmax v_curr v_target) /\ max_time <= T
  /\ drives c s_curr s_target T (dmax v_curr v_target).
Proof.
  destruct (braking_tracks sqrt s_target s_curr v_target v_curr a d max_time Hs Hv Hvt Ha Hd Hsqrt) as (c & T & Hc & Ht & HT).
  exists c, T. repeat (split; [done|]). eapply tracks_drives; [exact Ht|by eapply generated_start].
Qed.

(** The guide velocities cannot be computed within the rules of the language: their
    first sample is at time 0. *)
Lemma guide_velocity_reads_out_of_range sqrt init_s init_v cruise_v stop_point :
  ComputeLongitudinalGuideVelocity sqrt init_s init_v cruise_v stop_point = None.
Proof.
  assert (Hs : forall tr, head (t_ tr) = Some 0 -> sample_velocities 81 tr 0 = None).
  { intros tr Htr. cbn [sample_velocities]. change (dlt 0 trajectory_time_length) with true. cbn iota.
    by rewrite start_is_out_of_range by (done || lia). }
  unfold ComputeLongitudinalGuideVelocity.
  destruct stop_point as [stop_s|]; [cbv zeta; destruct (dlt _ _)|].
  - destruct (PA_AppendSegment _ _ _) as [tr|] eqn:E; [|done]. apply Hs. by eapply append_head; [|exact E].
  - destruct (Generate _ _ _ _ _ _ _ _) as [tr|] eqn:E; [|done]. apply Hs. by eapply generated_head.
  - destruct (PA_AppendSegment _ _ _) as [tr|] eqn:E; [|done]. apply Hs. by eapply append_head; [|exact E].
Qed.

(** Within one second at 2 m/s^2 the speed rises by 1 m/s in the first half second, and
    the reported acceleration is 0. *)
Example acceleration_of_the_segment_before :
  (c ← PA_AppendSegment (NewPiecewiseAcceleration 0 0) 2 1;
   v ← PA_Evaluate c 1 (1 # 2); a ← PA_Evaluate c 2 (1 # 2); Some (Qred v, a)) = Some (1, 0).
Proof. vm_compute. reflexivity. Qed.

(** PopSegment of a trajectory without segments removes its start, and nothing can be
    appended any more. *)
Lemma start_can_be_popped s v a d : PA_AppendSegment (PA_PopSegment (NewPiecewiseAcceleration s v)) a d = None.
Proof. done. Qed.

(** ** Pieces of any curves *)

Lemma pop_back_snoc {A} (l : list A) x : pop_back (l ++ [x]) = l.
Proof. unfold pop_back. rewrite length_app. simpl. by rewrite Nat.add_sub, take_app_length. Qed.

Lemma pop_snoc l x acc y : PT_PopSegment (mkPT (l ++ [x]) (acc ++ [y])) = mkPT l acc.
Proof.
  unfold PT_PopSegment. cbn [trajectory_segments_ accumulated_param_lengths_]. rewrite !pop_back_snoc. by destruct l.
Qed.

(** Popping undoes appending. *)
Lemma append_then_pop c x c' : PT_AppendSegment c x = Some c' ->
  PT_PopSegment c' = c /\ PT_NumOfSegments c' = S (PT_NumOfSegments c).
Proof.
  unfold PT_AppendSegment. intros H. destruct (match last _ with Some _ => _ | None => _ end) as [[]|]; [|done].
  cbn [mbind option_bind] in H. destruct (ParamLength x) as [len|]; [|done]. cbn [mbind option_bind] in H. simplify_eq.
  rewrite pop_snoc. destruct c. unfold PT_NumOfSegments. simpl. rewrite length_app. simpl. split; [done|lia].
Qed.

(** Evaluation uses the segment whose end is the first one not before the parameter, from
    the start of that segment; beyond the last end it fails. *)
Lemma evaluate_picks_segment c i b e seg order x : Sorted Qle (accumulated_param_lengths_ c) ->
  accumulated_param_lengths_ c !! i = Some b -> accumulated_param_lengths_ c !! S i = Some e -> b < x -> x <= e ->
  trajectory_segments_ c !! S i = Some seg -> PT_Evaluate c order x = Evaluate seg order (x - b).
Proof.
  intros Hs Hb He Hbx Hxe Hseg. unfold PT_Evaluate. rewrite (lower_bound_between _ _ _ _ _ Hs Hb He Hbx Hxe).
  unfold before, checked. apply lookup_lt_Some in He as Hlt. apply Nat.ltb_lt in Hlt. rewrite Hlt, Hb, Hseg. done.
Qed.

(** A trajectory of accelerations cannot follow another segment: its value at 0, which
    AppendSegment compares, is out of range. *)
Lemma accelerations_cannot_be_appended c tr : trajectory_segments_ c <> [] -> head (t_ tr) = Some 0 ->
  PT_AppendSegment c (mkCurve (PA_Evaluate tr) (PA_ParamLength tr)) = None.
Proof.
  intros Hc Hh. unfold PT_AppendSegment. destruct (last (trajectory_segments_ c)) as [x|] eqn:E.
  - unfold evaluate4. cbn [Evaluate]. by rewrite (start_is_out_of_range tr 0) by (done || lia).
  - by apply last_None in E.
Qed.

(** ** Witnesses *)

Lemma jerk_trajectory_is_smooth_witness : exists c w,
  append_jerks (NewPiecewiseJerk 0 1 0) [(1, 1); (-2, 1)] = Some c /\ PJ_Evaluate c 1 1 = Some w
  /\ is_derivative (fun t => from_option id 0 (PJ_Evaluate c 0 t)) 1 w
  /\ (exists w0, PJ_Evaluate c 0 0 = Some w0 /\ w0 == state_at 0 1 0 0).
Proof.
  apply (jerk_trajectory_is_smooth 0 1 0 1 [(1, 1); (-2, 1)] 0); [done| |reflexivity|lia].
  repeat constructor.
Defined.

(** A vehicle at 6 m/s has 14 m/s as its target, 23 m before the stop; it accelerates
    and brakes with 2 m/s^2 and turns from one to the other at
    sqrt (36 + 2 * (23 - 9)) = 8 m/s. *)
Definition sqrt_example (x : double) : double := if Qeq_bool x 64 then 8 else 0.
Lemma braking_ends_at_the_stop_point_witness : exists c T,
  Generate sqrt_example 23 0 14 6 2 2 8 = Some c /\ tracks c 23 0 T (dmax 6 14) /\ 8 <= T /\ drives c 0 23 T (dmax 6 14).
Proof.
  apply (braking_ends_at_the_stop_point sqrt_example 23 0 14 6 2 2 8); try reflexivity; [by vm_compute|].
  intros _. vm_compute. split; [done|reflexivity].
Defined.
(** With no square root at all it slows down from 14 m/s to 6 m/s. *)
Lemma braking_needs_no_square_root : exists c T,
  Generate (fun _ => 0) 60 0 6 14 2 2 8 = Some c /\ tracks c 60 0 T (dmax 14 6) /\ 8 <= T.
Proof.
  apply (braking_tracks (fun _ => 0) 60 0 6 14 2 2 8); try reflexivity; [by vm_compute|].
  intros (_ & H & _). exfalso. vm_compute in H. by apply H.
Qed.
Lemma acceleration_trajectory_is_motion_witness : exists v s,
  PA_Evaluate (mkPA [0; 1] [0; 2] [0; 1] [0; 2]) 1 (1 # 2) = Some v /\ v == 0 + 2 * ((1 # 2) - 0)
  /\ PA_Evaluate (mkPA [0; 1] [0; 2] [0; 1] [0; 2]) 0 (1 # 2) = Some s /\ s == 0 + (0 + v) * ((1 # 2) - 0) / 2
  /\ PA_Evaluate (mkPA [0; 1] [0; 2] [0; 1] [0; 2]) 2 (1 # 2) = Some 0
  /\ PA_Evaluate_all (mkPA [0; 1] [0; 2] [0; 1] [0; 2]) (1 # 2) = Some [s; v; 0; 0].
Proof.
  apply (acceleration_trajectory_is_motion (mkPA [0; 1] [0; 2] [0; 1] [0; 2]) 0 0 0 0 2 1 2 0 (1 # 2)); try reflexivity.
  - repeat split; try done. intros i v0 v1 t0 t1 a H0 H1 H2 H3 H4. destruct i as [|[|i]]; simplify_eq/=. reflexivity.
  - repeat constructor. by vm_compute.
  - by vm_compute.
Defined.
