(* ===== verification/Polygon2d.v ===== *)
(** Polygon2d.v -- polygons as they are built

    - src/src/apollo/modules/common/math/polygon2d.{h,cc} (the data, Next, Prev and
      BuildFromPoints)

    [None] is a failed CHECK.  std::hypot and std::atan2 are the parameters of
    [LineSegment2d].  The queries and the clipping of polygons are not modelled. *)

From S2P Require Import Prelude.
From S2P Require Import Double.
From S2P Require Import Geometry.
From S2P Require Import Curve1d.
From Stdlib Require Import Qfield.
Local Open Scope Q_scope.

Record Polygon2d := mkPolygon {
  points_ : list Vec2d; num_points_ : nat; line_segments_ : list LineSegment2d; is_convex_ : bool; area_ : double;
  poly_min_x_ : double; poly_max_x_ : double; poly_min_y_ : double; poly_max_y_ : double }.
Definition NewPolygon2d : Polygon2d := mkPolygon [] 0 [] false 0 0 0 0 0.

Definition Next (num_points at' : nat) : nat := if (num_points - 1 <=? at')%nat then 0%nat else S at'.
Definition Prev (num_points at' : nat) : nat := if (at' =? 0)%nat then (num_points - 1)%nat else (at' - 1)%nat.

Section polygon.
Context (hypot atan2 : double -> double -> double).

(** The loop over i = 1, ...: the triangles from the first point. *)
Fixpoint fan (start : Vec2d) (l : list Vec2d) (area : double) : double :=
  match l with
  | p :: (q :: _) as l' => fan start l' (area + CrossProd3 start p q)
  | _ => area
  end.

(** A point of the polygon; the indexes the loops use are in range. *)
Definition at_ (points : list Vec2d) (i : nat) : Vec2d := default (mkVec 0 0) (points !! i).

Definition BuildFromPoints (points : list Vec2d) : option Polygon2d :=
  let num_points := length points in
  checked (3 <=? num_points)%nat
    (let area := fan (at_ points 0) points 0 in
     let '(area, points) := if dlt area 0 then (- area, rev points) else (area, points) in
     let area := area / 2 in
     checked (dlt kMathEpsilon area)
       (let line_segments := map (fun i => NewSegment hypot atan2 (at_ points i) (at_ points (Next num_points i))) (seq 0 num_points) in
        let is_convex := forallb (fun i => negb (dle (CrossProd3 (at_ points (Prev num_points i)) (at_ points i)
                                                        (at_ points (Next num_points i))) (- kMathEpsilon))) (seq 0 num_points) in
        let first := at_ points 0 in
        Some (mkPolygon points num_points line_segments is_convex area
                (foldl (fun m p => dmin m (x_ p)) (x_ first) points) (foldl (fun m p => dmax m (x_ p)) (x_ first) points)
                (foldl (fun m p => dmin m (y_ p)) (y_ first) points) (foldl (fun m p => dmax m (y_ p)) (y_ first) points)))).
End polygon.

(** ** The area *)

(** Twice the area on the left of a segment, seen from the origin. *)
Definition cross (p q : Vec2d) : double := x_ p * y_ q - y_ p * x_ q.
Fixpoint path (l : list Vec2d) : double :=
  match l with p :: (q :: _) as l' => cross p q + path l' | _ => 0 end.

Lemma path_cons p q l : path (p :: q :: l) == cross p q + path (q :: l).
Proof. reflexivity. Qed.
Lemma fan_cons o p q l a : fan o (p :: q :: l) a = fan o (q :: l) (a + CrossProd3 o p q).
Proof. done. Qed.
(** The triangles from the first point sum up to the closed path. *)
Lemma fan_is_path o l : forall p a e, last (p :: l) = Some e -> fan o (p :: l) a == a + path (p :: l) + cross o p - cross o e.
Proof.
  induction l as [|q l IH]; intros p a e He; [injection He as ->; simpl; ring|].
  rewrite last_cons_cons in He. rewrite fan_cons, (IH q _ e He), path_cons. unfold CrossProd3, CrossProd, vsub, cross. simpl. ring.
Qed.

Lemma path_snoc l p q : path (l ++ [p; q]) == path (l ++ [p]) + cross p q.
Proof.
  induction l as [|x l IH]; [simpl; ring|]. destruct l as [|y l]; [simpl; ring|].
  change ((x :: y :: l) ++ [p; q]) with (x :: y :: (l ++ [p; q])). change ((x :: y :: l) ++ [p]) with (x :: y :: (l ++ [p])).
  rewrite !path_cons. change (y :: l ++ [p; q]) with ((y :: l) ++ [p; q]). rewrite IH. simpl app. ring.
Qed.

Lemma path_rev l : path (rev l) == - path l.
Proof.
  induction l as [|p l IH]; [reflexivity|]. destruct l as [|q l]; [reflexivity|].
  change (rev (p :: q :: l)) with ((rev l ++ [q]) ++ [p]). rewrite <- app_assoc. cbn [app]. rewrite path_snoc.
  change (rev l ++ [q]) with (rev (q :: l)). rewrite IH, path_cons. unfold cross. ring.
Qed.

Lemma path_app l k p q : last l = Some p -> head k = Some q -> path (l ++ k) == path l + cross p q + path k.
Proof.
  revert p. induction l as [|x l IH]; intros p Hp Hq; [done|]. destruct l as [|y l].
  - injection Hp as ->. destruct k as [|z k]; [done|]. injection Hq as ->. cbn [app]. rewrite path_cons. cbn [path]. ring.
  - rewrite last_cons_cons in Hp. change ((x :: y :: l) ++ k) with (x :: y :: (l ++ k)). rewrite !path_cons.
    change (y :: l ++ k) with ((y :: l) ++ k). rewrite (IH p Hp Hq). ring.
Qed.

(** The points along a lower chain and back along an upper one enclose the area
    between the chains, over the same times. *)
Lemma two_chains_area lo up fl ll fu lu : head lo = Some fl -> last lo = Some ll -> head up = Some fu -> last up = Some lu ->
  fan fl (lo ++ rev up) 0 == path lo - path up + cross ll lu + cross fu fl.
Proof.
  intros Hfl Hll Hfu Hlu. destruct lo as [|p lo]; [done|]. injection Hfl as ->.
  assert (last ((fl :: lo) ++ rev up) = Some fu) as Hlast.
  { destruct up as [|q up]; [done|]. injection Hfu as ->. simpl rev. rewrite app_assoc. apply last_snoc. }
  assert (head (rev up) = Some lu) as Hhd.
  { apply last_Some in Hlu as [up' ->]. by rewrite rev_app_distr. }
  cbn [app] in *. rewrite (fan_is_path fl (lo ++ rev up) fl 0 fu Hlast).
  change (fl :: lo ++ rev up) with ((fl :: lo) ++ rev up). rewrite (path_app _ _ ll lu Hll Hhd), path_rev. unfold cross. ring.
Qed.

(** What BuildFromPoints returns when the points are in counterclockwise order. *)
Lemma BuildFromPoints_ccw hypot atan2 p l : (2 <= length l)%nat -> 0 <= fan p (p :: l) 0 ->
  match BuildFromPoints hypot atan2 (p :: l) with
  | Some g => kMathEpsilon < area_ g /\ points_ g = p :: l /\ area_ g == fan p (p :: l) 0 / 2
  | None => fan p (p :: l) 0 / 2 <= kMathEpsilon
  end.
Proof.
  intros Hl Ha. unfold BuildFromPoints, checked. destruct (Nat.leb_spec 3 (length (p :: l))) as [_|Hn]; [|simpl in Hn; lia].
  change (at_ (p :: l) 0) with p. destruct (dlt_spec (fan p (p :: l) 0) 0) as [Hneg|_]; [lra|].
  destruct (dlt_spec kMathEpsilon (fan p (p :: l) 0 / 2)) as [Hlt|Hge]; [|lra]. by cbn [points_ area_].
Qed.
