(* ===== verification/StBoundary.v ===== *)
(** StBoundary.v -- the area an obstacle takes in space and time

    - src/src/apollo/modules/planning/common/speed/st_point.{h,cc}
    - src/src/apollo/modules/planning/common/speed/st_boundary.{h,cc}

    A boundary is two chains of points over the same times; an STPoint is a [Vec2d] whose
    first coordinate is the time.  std::hypot and std::atan2 are the parameters of
    [LineSegment2d].  A boundary is also a polygon, its base class: the points of the lower
    chain and back along the upper one ([Polygon2d]).  [None] is a failed CHECK or DCHECK, an
    access to an empty vector, or a value that is not a number. *)

From S2P Require Import Prelude.
From S2P Require Import Double.
From S2P Require Import Geometry.
From S2P Require Import Polygon2d.
From S2P Require Import Curve1d.
From S2P Require Import Trajectory1d.
From Stdlib Require Import Qfield.
Local Open Scope Q_scope.

Definition STPoint (s t : double) : Vec2d := mkVec t s.
Definition pt_s (p : Vec2d) : double := y_ p.
Definition pt_t (p : Vec2d) : double := x_ p.

Inductive BoundaryType := UNKNOWN | STOP | FOLLOW | YIELD | OVERTAKE | KEEP_CLEAR.

Record STBoundary := mkST {
  boundary_type_ : BoundaryType; upper_points_ : list Vec2d; lower_points_ : list Vec2d; id_ : string;
  characteristic_length_ : double; min_s_ : double; max_s_ : double; min_t_ : double; max_t_ : double;
  bottom_left_point_ : Vec2d; bottom_right_point_ : Vec2d; upper_left_point_ : Vec2d; upper_right_point_ : Vec2d;
  polygon_ : Polygon2d }.

Definition NewSTBoundary : STBoundary :=
  let o := mkVec 0 0 in mkST UNKNOWN [] [] EmptyString 1 DBL_MAX (- DBL_MAX) DBL_MAX (- DBL_MAX) o o o o NewPolygon2d.

(** FLAGS_speed_lon_decision_horizon *)
Definition speed_lon_decision_horizon : double := 200.
Definition kStBoundaryEpsilon : double := 1 # 1000000000.
Definition kMinDeltaT : double := 1 # 1000000.

Definition valid_pair (p : Vec2d * Vec2d) : bool :=
  negb (dlt (pt_s p.2) (pt_s p.1)) && negb (dlt kStBoundaryEpsilon (fabs (pt_t p.1 - pt_t p.2))).
Definition valid_step (p q : Vec2d * Vec2d) : bool :=
  negb (dle (dmin (pt_t q.1) (pt_t q.2)) (dmax (pt_t p.1) (pt_t p.2) + kMinDeltaT)).
Fixpoint valid_from (l : list (Vec2d * Vec2d)) : bool :=
  match l with
  | [] => true
  | p :: l' => valid_pair p && match l' with [] => true | q :: _ => valid_step p q end && valid_from l'
  end.
Definition IsValid (point_pairs : list (Vec2d * Vec2d)) : bool :=
  negb (length point_pairs <? 2)%nat && valid_from point_pairs.

Section boundary.
Context (hypot atan2 : double -> double -> double).

Definition kMaxDist : double := 1 # 10.
Definition IsPointNear (seg : LineSegment2d) (point : Vec2d) (max_dist : double) : bool :=
  dlt (Seg_DistanceSquareTo seg point) (max_dist * max_dist).

(** The test of the loop: is the pair [p] between [a] and [q] redundant? *)
Definition redundant (a p q : Vec2d * Vec2d) : bool :=
  IsPointNear (NewSegment hypot atan2 a.1 q.1) p.1 kMaxDist && IsPointNear (NewSegment hypot atan2 a.2 q.2) p.2 kMaxDist.

(** The loop works on one vector: entries up to i are the result so far. *)
Fixpoint remove_loop (fuel : nat) (pts : list (Vec2d * Vec2d)) (i j : nat) : option (list (Vec2d * Vec2d) * nat) :=
  match fuel with
  | 0%nat => None
  | S fuel =>
    if ((i <? length pts) && (j + 1 <? length pts))%nat then
      a ← pts !! i; p ← pts !! j; q ← pts !! (j + 1)%nat;
      if redundant a p q then remove_loop fuel pts i (j + 1)
      else
        let i := S i in
        let pts := if (i =? j)%nat then pts else <[i := p]> pts in
        remove_loop fuel pts i (j + 1)
    else Some (pts, i)
  end.
Definition RemoveRedundantPoints (pts : list (Vec2d * Vec2d)) : option (list (Vec2d * Vec2d)) :=
  if (length pts <=? 2)%nat then Some pts
  else
    '(pts, i) ← remove_loop (length pts) pts 0 1;
    back ← last pts;
    if (S i <? length pts)%nat then Some (take (S i + 1) (<[S i := back]> pts)) else None.

Definition STBoundary_of (point_pairs : list (Vec2d * Vec2d)) : option STBoundary :=
  checked (IsValid point_pairs)
    (reduced_pairs ← RemoveRedundantPoints point_pairs;
     let lower := map (fun item => STPoint (pt_s item.1) (pt_t item.1)) reduced_pairs in
     let upper := map (fun item => STPoint (pt_s item.2) (pt_t item.1)) reduced_pairs in
     polygon ← BuildFromPoints hypot atan2 (map (fun p => mkVec (pt_t p) (pt_s p)) lower ++ map (fun p => mkVec (pt_t p) (pt_s p)) (rev upper));
     let min_s := foldl (fun m p => dmin m (pt_s p)) DBL_MAX lower in
     let max_s := foldl (fun m p => dmax m (pt_s p)) (- DBL_MAX) upper in
     front ← head lower; back ← last lower;
     let o := mkVec 0 0 in
     Some (mkST UNKNOWN upper lower EmptyString 1 min_s max_s (pt_t front) (pt_t back) o o o o polygon)).

Definition GetIndexRange (points : list Vec2d) (t : double) : option (option (nat * nat)) :=
  front ← head points; back ← last points;
  if dlt t (pt_t front) || dlt (pt_t back) t then Some None
  else
    let index := lower_bound (map pt_t points) t in
    Some (Some (if (index =? 0)%nat then (0%nat, 0%nat)
                else if (index =? length points)%nat then ((length points - 1)%nat, (length points - 1)%nat)
                else ((index - 1)%nat, index))).

Definition IsPointInBoundary (b : STBoundary) (st_point : Vec2d) : option bool :=
  if dle (pt_t st_point) (min_t_ b) || dle (max_t_ b) (pt_t st_point) then Some false
  else
    r ← GetIndexRange (lower_points_ b) (pt_t st_point);
    match r with
    | None => Some false
    | Some (lft, rgt) =>
      ul ← upper_points_ b !! lft; ur ← upper_points_ b !! rgt;
      ll ← lower_points_ b !! lft; lr ← lower_points_ b !! rgt;
      let check_upper := CrossProd3 st_point ul ur in
      let check_lower := CrossProd3 st_point ll lr in
      Some (dlt (check_upper * check_lower) 0)
    end.

Definition upper_left_point (b : STBoundary) : option Vec2d := head (upper_points_ b).
Definition upper_right_point (b : STBoundary) : option Vec2d := last (upper_points_ b).
Definition bottom_left_point (b : STBoundary) : option Vec2d := head (lower_points_ b).
Definition bottom_right_point (b : STBoundary) : option Vec2d := last (lower_points_ b).

Definition ExpandByS (b : STBoundary) (s : double) : option STBoundary :=
  match lower_points_ b with
  | [] => Some NewSTBoundary
  | _ => STBoundary_of (zip_with (fun l u => (STPoint (pt_s l - s) (pt_t l), STPoint (pt_s u + s) (pt_t u)))
                          (lower_points_ b) (upper_points_ b))
  end.

Definition kMinSEpsilon : double := 1 # 1000.
Definition ExpandByT (b : STBoundary) (t : double) : option STBoundary :=
  match lower_points_ b with
  | [] => Some NewSTBoundary
  | _ =>
    l0 ← lower_points_ b !! 0%nat; l1 ← lower_points_ b !! 1%nat;
    u0 ← upper_points_ b !! 0%nat; u1 ← upper_points_ b !! 1%nat;
    let left_delta_t := pt_t l1 - pt_t l0 in
    dl ← ddiv (t * (pt_s l1 - pt_s l0)) left_delta_t;
    du ← ddiv (t * (pt_s u1 - pt_s u0)) left_delta_t;
    let front_upper := STPoint (pt_s u0 - du) (pt_t u0 - t) in
    let front_lower := STPoint (dmin (pt_s front_upper - kMinSEpsilon) (pt_s l0 - dl)) (pt_t l0 - t) in
    let length := length (lower_points_ b) in
    m1 ← lower_points_ b !! (length - 1)%nat; m0 ← lower_points_ b !! (length - 2)%nat;
    w1 ← upper_points_ b !! (length - 1)%nat; w0 ← upper_points_ b !! (length - 2)%nat;
    let right_delta_t := pt_t m1 - pt_t m0 in
    dm ← ddiv (t * (pt_s m1 - pt_s m0)) right_delta_t;
    dw ← ddiv (t * (pt_s w1 - pt_s w0)) right_delta_t;
    let back_lower := STPoint (pt_s m1 + dm) (pt_t m1 + t) in
    let back_upper := STPoint (dmax (pt_s w1 + dw) (pt_s back_lower + kMinSEpsilon)) (pt_t w1 + t) in
    STBoundary_of ([(front_lower, front_upper)] ++ zip (lower_points_ b) (upper_points_ b) ++ [(back_lower, back_upper)])
  end.

(** The values at a time between two points, by the ratio of the times. *)
Definition cross_s (points : list Vec2d) (lft rgt : nat) (r : double) : option double :=
  pl ← points !! lft; pr ← points !! rgt; Some (pt_s pl + r * (pt_s pr - pt_s pl)).
Definition ratio (points : list Vec2d) (lft rgt : nat) (t : double) : option double :=
  pl ← points !! lft; pr ← points !! rgt; ddiv (t - pt_t pl) (pt_t pr - pt_t pl).

(** (returned bool, s_upper, s_lower) *)
Definition GetUnblockSRange (b : STBoundary) (curr_time : double) : option (bool * double * double) :=
  if dlt curr_time (min_t_ b) || dlt (max_t_ b) curr_time then Some (true, speed_lon_decision_horizon, 0)
  else
    range ← GetIndexRange (lower_points_ b) curr_time;
    match range with
    | None => Some (false, speed_lon_decision_horizon, 0)
    | Some (lft, rgt) =>
      r ← ratio (upper_points_ b) lft rgt curr_time;
      upper_cross_s ← cross_s (upper_points_ b) lft rgt r;
      lower_cross_s ← cross_s (lower_points_ b) lft rgt r;
      match boundary_type_ b with
      | STOP | YIELD | FOLLOW => Some (true, lower_cross_s, 0)
      | OVERTAKE => Some (true, speed_lon_decision_horizon, dmax 0 upper_cross_s)
      | _ => Some (false, speed_lon_decision_horizon, 0)
      end
    end.

(** Nothing when it returns false. *)
Definition GetBoundarySRange (b : STBoundary) (curr_time : double) : option (option (double * double)) :=
  if dlt curr_time (min_t_ b) || dlt (max_t_ b) curr_time then Some None
  else
    range ← GetIndexRange (lower_points_ b) curr_time;
    match range with
    | None => Some None
    | Some (lft, rgt) =>
      r ← ratio (upper_points_ b) lft rgt curr_time;
      s_upper ← cross_s (upper_points_ b) lft rgt r;
      s_lower ← cross_s (lower_points_ b) lft rgt r;
      Some (Some (dmin s_upper speed_lon_decision_horizon, dmax s_lower 0))
    end.

Definition CreateInstance (lower_points upper_points : list Vec2d) : option STBoundary :=
  if (negb (length lower_points =? length upper_points) || (length lower_points <? 2))%nat then Some NewSTBoundary
  else STBoundary_of (zip lower_points upper_points).
Definition CutOffByT (b : STBoundary) (t : double) : option STBoundary :=
  let kept := filter (fun p => dlt (pt_t p.1) t = false) (zip (lower_points_ b) (upper_points_ b)) in
  CreateInstance (map fst kept) (map snd kept).

(** The setters of the corners. *)
Definition set_corners (b : STBoundary) (bl br ul ur : Vec2d) : STBoundary :=
  mkST (boundary_type_ b) (upper_points_ b) (lower_points_ b) (id_ b) (characteristic_length_ b)
    (min_s_ b) (max_s_ b) (min_t_ b) (max_t_ b) bl br ul ur (polygon_ b).
Definition set_bottom_left_point (b : STBoundary) (p : Vec2d) : STBoundary :=
  set_corners b p (bottom_right_point_ b) (upper_left_point_ b) (upper_right_point_ b).
Definition set_bottom_right_point (b : STBoundary) (p : Vec2d) : STBoundary :=
  set_corners b (bottom_left_point_ b) p (upper_left_point_ b) (upper_right_point_ b).
Definition set_upper_left_point (b : STBoundary) (p : Vec2d) : STBoundary :=
  set_corners b (bottom_left_point_ b) (bottom_right_point_ b) p (upper_right_point_ b).
Definition set_upper_right_point (b : STBoundary) (p : Vec2d) : STBoundary :=
  set_corners b (bottom_left_point_ b) (bottom_right_point_ b) (upper_left_point_ b) p.
Definition set_id (b : STBoundary) (id : string) : STBoundary :=
  mkST (boundary_type_ b) (upper_points_ b) (lower_points_ b) id (characteristic_length_ b)
    (min_s_ b) (max_s_ b) (min_t_ b) (max_t_ b) (bottom_left_point_ b) (bottom_right_point_ b) (upper_left_point_ b) (upper_right_point_ b) (polygon_ b).
Definition SetBoundaryType (b : STBoundary) (boundary_type : BoundaryType) : STBoundary :=
  mkST boundary_type (upper_points_ b) (lower_points_ b) (id_ b) (characteristic_length_ b)
    (min_s_ b) (max_s_ b) (min_t_ b) (max_t_ b) (bottom_left_point_ b) (bottom_right_point_ b) (upper_left_point_ b) (upper_right_point_ b) (polygon_ b).
End boundary.

(** ** RemoveRedundantPoints as a function on lists *)
Section reduction.
Context (hypot atan2 : double -> double -> double).
Notation pair2 := (Vec2d * Vec2d)%type.

(** Keeps a pair unless it is near the lines from the last kept pair to the next one. *)
Fixpoint reduce (a : pair2) (l : list pair2) : list pair2 :=
  match l with
  | [] => []
  | p :: l' =>
    match l' with
    | [] => [p]
    | q :: _ => if redundant hypot atan2 a p q then reduce a l' else p :: reduce p l'
    end
  end.

Lemma remove_loop_reduces l : forall fuel pts i j a, (length l <= fuel)%nat -> l <> [] -> (i < j)%nat ->
  pts !! i = Some a -> drop j pts = l ->
  exists pts' i' init b, remove_loop hypot atan2 fuel pts i j = Some (pts', i') /\ length pts' = length pts
    /\ (S i' < length pts)%nat /\ last pts' = last l /\ last l = Some b /\ reduce a l = init ++ [b]
    /\ take (S i') pts' = take (S i) pts ++ init.
Proof.
  induction l as [|p l IH]; intros fuel pts i j a Hf Hl Hij Ha Hd; [done|].
  destruct fuel as [|fuel]; [simpl in Hf; lia|]. cbn [remove_loop].
  assert (Hp : pts !! j = Some p) by (rewrite <- (Nat.add_0_r j), <- lookup_drop, Hd; done).
  assert (Hlen : length pts = (j + S (length l))%nat).
  { apply (f_equal length) in Hd. rewrite length_drop in Hd. apply lookup_lt_Some in Hp. simpl in Hd. lia. }
  assert (Hlast : last pts = last (p :: l)).
  { rewrite <- (take_drop j pts), Hd. rewrite last_app. destruct (last_is_Some (p :: l)) as [_ [b ->]]; done. }
  destruct l as [|q l].
  - assert (E : (j + 1 <? length pts)%nat = false) by (apply Nat.ltb_ge; simpl in Hlen; lia).
    rewrite E, andb_false_r. exists pts, i, [], p. repeat split; try done; [simpl in Hlen; lia|by rewrite app_nil_r].
  - assert (E : ((i <? length pts) && (j + 1 <? length pts))%nat = true).
    { apply andb_true_iff; split; apply Nat.ltb_lt; simpl in Hlen; lia. }
    assert (Hd' : drop (j + 1) pts = q :: l) by (rewrite <- drop_drop, Hd; done).
    assert (Hq : pts !! (j + 1)%nat = Some q) by (rewrite <- (Nat.add_0_r (j + 1)), <- lookup_drop, Hd'; done).
    rewrite E, Ha, Hp, Hq. cbn [mbind option_bind]. cbn [reduce].
    destruct (redundant hypot atan2 a p q) eqn:Er.
    + destruct (IH fuel pts i (j + 1)%nat a ltac:(simpl in *; lia) ltac:(done) ltac:(lia) Ha Hd')
        as (pts' & i' & init & b & H1 & H2 & H3 & H4 & H5 & H6 & H7).
      exists pts', i', init, b. rewrite last_cons_cons. done.
    + set (pts1 := if (S i =? j)%nat then pts else <[S i := p]> pts).
      assert (L1 : length pts1 = length pts) by (unfold pts1; destruct (_ =? _)%nat; [done|apply length_insert]).
      assert (Hp1 : pts1 !! S i = Some p).
      { unfold pts1. destruct (Nat.eqb_spec (S i) j) as [->|]; [done|]. apply list_lookup_insert_eq. lia. }
      assert (Hd1 : drop (j + 1) pts1 = q :: l).
      { unfold pts1. destruct (_ =? _)%nat; [done|]. rewrite drop_insert_lt by lia. done. }
      assert (Ht1 : take (S i) pts1 = take (S i) pts).
      { unfold pts1. destruct (_ =? _)%nat; [done|]. apply take_insert_ge. lia. }
      destruct (IH fuel pts1 (S i) (j + 1)%nat p ltac:(simpl in *; lia) ltac:(done) ltac:(lia) Hp1 Hd1)
        as (pts' & i' & init & b & H1 & H2 & H3 & H4 & H5 & H6 & H7).
      exists pts', i', (p :: init), b. rewrite last_cons_cons, <- L1. repeat split; try done.
      * cbn [app]. f_equal. exact H6.
      * rewrite H7, (take_S_r _ _ p) by done. by rewrite Ht1, <- app_assoc.
Qed.

(** RemoveRedundantPoints, which moves entries inside one vector, computes this function. *)
Lemma remove_redundant_is_reduce a l : RemoveRedundantPoints hypot atan2 (a :: l) = Some (a :: reduce a l).
Proof.
  unfold RemoveRedundantPoints. destruct (Nat.leb_spec (length (a :: l)) 2) as [Hle|Hgt].
  - by destruct l as [|p [|q l]]; [..|simpl in Hle; lia].
  - destruct (remove_loop_reduces l (length (a :: l)) (a :: l) 0 1 a) as (pts' & i' & init & b & H1 & H2 & H3 & H4 & H5 & H6 & H7);
      [simpl; lia|intros ->; simpl in Hgt; lia|lia|done..|].
    rewrite H1. cbn [mbind option_bind]. rewrite H4, H5. cbn [mbind option_bind].
    rewrite <- H2 in H3. apply Nat.ltb_lt in H3 as H3'. rewrite H3'. f_equal.
    rewrite Nat.add_1_r, (take_S_r _ _ b) by (by apply list_lookup_insert_eq).
    rewrite take_insert_ge by lia. rewrite H7, H6. done.
Qed.

Lemma reduce_sublist l : forall a, reduce a l `sublist_of` l.
Proof.
  induction l as [|p l IH]; intros a; [done|]. cbn [reduce]. destruct l as [|q l]; [done|].
  destruct (redundant hypot atan2 a p q); [by apply sublist_cons, IH|by apply sublist_skip, IH].
Qed.
Lemma reduce_last l : forall a, last (reduce a l) = last l.
Proof.
  induction l as [|p l IH]; intros a; [done|]. cbn [reduce]. destruct l as [|q l]; [done|].
  rewrite last_cons_cons. destruct (redundant hypot atan2 a p q); [apply IH|].
  rewrite last_cons, IH. by destruct (last_is_Some (q :: l)) as [_ [b ->]].
Qed.
End reduction.

(** ** Well-formed boundaries *)

Definition pair_times (l : list (Vec2d * Vec2d)) : list double := map (fun p => pt_t p.1) l.

Lemma valid_times l : valid_from l = true ->
  StronglySorted (fun p q : Vec2d * Vec2d => pt_t p.1 < pt_t q.1) l /\ Forall (fun p => pt_s p.1 <= pt_s p.2) l.
Proof.
  induction l as [|p l IH]; intros H; [repeat constructor|]. cbn [valid_from] in H.
  apply andb_true_iff in H as [[Hp Hs]%andb_true_iff Hv]. destruct (IH Hv) as [Hst Hle].
  apply andb_true_iff in Hp as [Hp Ht]. apply negb_true_iff in Hp. dsimp.
  split; [|by constructor]. constructor; [done|].
  destruct l as [|q l]; [constructor|].
  unfold valid_step in Hs. apply negb_true_iff in Hs. dsimp.
  pose proof (dmin_l (pt_t q.1) (pt_t q.2)). pose proof (dmax_l (pt_t p.1) (pt_t p.2)).
  assert (Hpq : pt_t p.1 < pt_t q.1) by (unfold kMinDeltaT in *; lra).
  apply StronglySorted_inv in Hst as [_ Hall]. constructor; [done|].
  eapply Forall_impl; [exact Hall|]. intros r Hr. cbn beta in Hr. lra.
Qed.

Lemma sublist_all {A} (P : A -> Prop) l k : l `sublist_of` k -> Forall P k -> Forall P l.
Proof. intros Hs H. apply Forall_forall. intros x Hx. eapply Forall_forall; [exact H|]. by eapply elem_of_sublist. Qed.
Lemma sublist_sorted {A} (R : relation A) l k : l `sublist_of` k -> StronglySorted R k -> StronglySorted R l.
Proof.
  induction 1 as [|x l k Hs IH|x l k Hs IH]; intros H; [constructor| |].
  - apply StronglySorted_inv in H as [H Hall]. constructor; [auto|]. by eapply sublist_all.
  - apply StronglySorted_inv in H as [H _]. auto.
Qed.

(** What the constructor establishes. *)
Definition boundary_wf (b : STBoundary) : Prop :=
  (2 <= length (lower_points_ b))%nat
  /\ map pt_t (upper_points_ b) = map pt_t (lower_points_ b)
  /\ StronglySorted (fun p q => pt_t p < pt_t q) (lower_points_ b)
  /\ Forall2 (fun l u => pt_s l <= pt_s u) (lower_points_ b) (upper_points_ b)
  /\ (exists f, head (lower_points_ b) = Some f /\ min_t_ b = pt_t f)
  /\ (exists e, last (lower_points_ b) = Some e /\ max_t_ b = pt_t e).

(** The area between the chains through pairs of points, trapezoid by trapezoid. *)
Fixpoint area_between (r : list (Vec2d * Vec2d)) : double :=
  match r with
  | p :: (q :: _) as r' =>
      (pt_t q.1 - pt_t p.1) * ((pt_s p.2 - pt_s p.1) + (pt_s q.2 - pt_s q.1)) / 2 + area_between r'
  | _ => 0
  end.

Definition lower_of (r : list (Vec2d * Vec2d)) : list Vec2d := map (fun p => STPoint (pt_s p.1) (pt_t p.1)) r.
Definition upper_of (r : list (Vec2d * Vec2d)) : list Vec2d := map (fun p => STPoint (pt_s p.2) (pt_t p.1)) r.

Lemma area_between_nonneg r : StronglySorted (fun p q : Vec2d * Vec2d => pt_t p.1 < pt_t q.1) r -> Forall (fun p => pt_s p.1 <= pt_s p.2) r ->
  0 <= area_between r.
Proof.
  induction r as [|p r IH]; intros Hs Hle; [simpl; lra|]. destruct r as [|q r]; [simpl; lra|].
  apply StronglySorted_inv in Hs as [Hs Hall]. apply Forall_cons in Hle as [Hp Hle]. specialize (IH Hs Hle).
  apply Forall_cons in Hall as [Hpq _]. apply Forall_cons in Hle as [Hq _].
  change (area_between (p :: q :: r)) with
    ((pt_t q.1 - pt_t p.1) * ((pt_s p.2 - pt_s p.1) + (pt_s q.2 - pt_s q.1)) / 2 + area_between (q :: r)).
  pose proof (Qmult_le_0_compat (pt_t q.1 - pt_t p.1) ((pt_s p.2 - pt_s p.1) + (pt_s q.2 - pt_s q.1)) ltac:(lra) ltac:(lra)).
  unfold Qdiv. change (/ 2) with (1 # 2). lra.
Qed.

(** The paths along the chains, closed at both ends, enclose it. *)
Lemma chains_enclose_area r : forall p e, last (p :: r) = Some e ->
  path (lower_of (p :: r)) - path (upper_of (p :: r)) + pt_t e.1 * (pt_s e.2 - pt_s e.1) - pt_t p.1 * (pt_s p.2 - pt_s p.1)
    == 2 * area_between (p :: r).
Proof.
  induction r as [|q r IH]; intros p e He; [injection He as ->; simpl; ring|]. rewrite last_cons_cons in He. specialize (IH q e He).
  change (area_between (p :: q :: r)) with
    ((pt_t q.1 - pt_t p.1) * ((pt_s p.2 - pt_s p.1) + (pt_s q.2 - pt_s q.1)) / 2 + area_between (q :: r)).
  change (lower_of (p :: q :: r)) with (STPoint (pt_s p.1) (pt_t p.1) :: lower_of (q :: r)) in *.
  change (upper_of (p :: q :: r)) with (STPoint (pt_s p.2) (pt_t p.1) :: upper_of (q :: r)) in *.
  change (lower_of (q :: r)) with (STPoint (pt_s q.1) (pt_t q.1) :: lower_of r) in *.
  change (upper_of (q :: r)) with (STPoint (pt_s q.2) (pt_t q.1) :: upper_of r) in *.
  rewrite !path_cons. unfold Qdiv. change (/ 2) with (1 # 2).
  unfold cross, STPoint, pt_s, pt_t in *. cbn [x_ y_] in *. lra.
Qed.

Section wf.
Context (hypot atan2 : double -> double -> double).

(** The polygon of two chains over the same times: its area is the area between them,
    and it is built when that is larger than kMathEpsilon. *)
Lemma polygon_of_chains r : (2 <= length r)%nat ->
  StronglySorted (fun p q : Vec2d * Vec2d => pt_t p.1 < pt_t q.1) r -> Forall (fun p => pt_s p.1 <= pt_s p.2) r ->
  match BuildFromPoints hypot atan2 (map (fun p => mkVec (pt_t p) (pt_s p)) (lower_of r) ++ map (fun p => mkVec (pt_t p) (pt_s p)) (rev (upper_of r))) with
  | Some g => kMathEpsilon < area_ g /\ area_ g == area_between r /\ points_ g = lower_of r ++ rev (upper_of r)
  | None => area_between r <= kMathEpsilon
  end.
Proof.
  intros Hn Hst Hle. destruct r as [|p r]; [simpl in Hn; lia|]. destruct (last_is_Some (p :: r)) as [_ [e He]]; [done|].
  assert (forall l, map (fun q => mkVec (pt_t q) (pt_s q)) l = l) as Hid.
  { induction l as [|[] l IH]; simpl; [done|]. by rewrite IH. }
  rewrite !Hid. set (P := STPoint (pt_s p.1) (pt_t p.1)).
  assert (fan P (lower_of (p :: r) ++ rev (upper_of (p :: r))) 0 == 2 * area_between (p :: r)) as Hfan.
  { assert (last (lower_of (p :: r)) = Some (STPoint (pt_s e.1) (pt_t e.1))) as Hl.
    { pose proof (fmap_last (fun p : Vec2d * Vec2d => STPoint (pt_s p.1) (pt_t p.1)) (p :: r)) as E. by rewrite He in E. }
    assert (last (upper_of (p :: r)) = Some (STPoint (pt_s e.2) (pt_t e.1))) as Hu.
    { pose proof (fmap_last (fun p : Vec2d * Vec2d => STPoint (pt_s p.2) (pt_t p.1)) (p :: r)) as E. by rewrite He in E. }
    rewrite (two_chains_area (lower_of (p :: r)) (upper_of (p :: r)) P _ _ _ eq_refl Hl eq_refl Hu).
    rewrite <- (chains_enclose_area r p e He). unfold cross, P, STPoint, pt_s, pt_t. cbn [x_ y_]. ring. }
  pose proof (area_between_nonneg _ Hst Hle) as H0.
  change (lower_of (p :: r)) with (P :: lower_of r) in *. cbn [app] in *.
  pose proof (BuildFromPoints_ccw hypot atan2 P (lower_of r ++ rev (upper_of (p :: r)))) as HB.
  destruct (BuildFromPoints hypot atan2 _) as [g|]; rewrite Hfan in HB; unfold Qdiv in HB; change (/ 2) with (1 # 2) in HB.
  - destruct HB as (H1 & H2 & H3); [|lra|split_and!; [lra|rewrite H3; ring|done]].
    rewrite length_app, length_rev. unfold lower_of, upper_of. rewrite !length_map. simpl in *. lia.
  - enough (2 * area_between (p :: r) * (1 # 2) <= kMathEpsilon) by lra. apply HB; [|lra].
    rewrite length_app, length_rev. unfold lower_of, upper_of. rewrite !length_map. simpl in *. lia.
Qed.

Lemma boundary_of_valid pairs : IsValid pairs = true ->
  exists a l, let r := a :: reduce hypot atan2 a l in pairs = a :: l /\
  match STBoundary_of hypot atan2 pairs with
  | Some b => kMathEpsilon < area_between r /\ area_ (polygon_ b) == area_between r
      /\ points_ (polygon_ b) = lower_of r ++ rev (upper_of r) /\ boundary_wf b /\ lower_points_ b = lower_of r /\ upper_points_ b = upper_of r
  | None => area_between r <= kMathEpsilon
  end.
Proof.
  intros H. pose proof H as Hval. apply andb_true_iff in H as [Hlen Hv].
  apply negb_true_iff, Nat.ltb_ge in Hlen. destruct pairs as [|a l]; [simpl in Hlen; lia|]. exists a, l.
  set (r := a :: reduce hypot atan2 a l). cbv zeta. split; [done|].
  destruct (valid_times _ Hv) as [Hst Hle].
  assert (Hsub : r `sublist_of` a :: l) by apply sublist_skip, reduce_sublist.
  apply (sublist_sorted _ _ _ Hsub) in Hst. apply (sublist_all _ _ _ Hsub) in Hle.
  assert (Hr : (2 <= length r)%nat).
  { simpl. assert (reduce hypot atan2 a l <> []); [|by destruct (reduce hypot atan2 a l); [|simpl; lia]].
    intros E. pose proof (reduce_last hypot atan2 l a) as Hl. rewrite E in Hl. destruct l; [simpl in Hlen; lia|].
    symmetry in Hl. by apply last_None in Hl. }
  destruct (last_is_Some r) as [_ [e He]]; [done|].
  unfold STBoundary_of. rewrite Hval. cbn [checked]. rewrite remove_redundant_is_reduce. cbn [mbind option_bind]. fold r.
  fold (lower_of r) (upper_of r). pose proof (polygon_of_chains r Hr Hst Hle) as Hpoly.
  destruct (BuildFromPoints hypot atan2 _) as [g|]; [|done]. cbn [mbind option_bind]. destruct Hpoly as (Ha & Hab & Hpts).
  assert (Hlast : last (lower_of r) = Some (STPoint (pt_s e.1) (pt_t e.1))).
  { pose proof (fmap_last (fun item : Vec2d * Vec2d => STPoint (pt_s item.1) (pt_t item.1)) r) as E. by rewrite He in E. }
  assert (Hhead : head (lower_of r) = Some (STPoint (pt_s a.1) (pt_t a.1))) by done.
  rewrite Hlast, Hhead. cbn [mbind option_bind polygon_ lower_points_ upper_points_]. split; [lra|]. split; [done|]. split; [done|].
  split; [|done]. unfold boundary_wf. cbn [lower_points_ upper_points_ min_t_ max_t_]. unfold lower_of, upper_of in *.
  split; [by rewrite length_map|]. split; [rewrite !map_map; done|].
  split; [|split; [|split]].
  - clear -Hst. induction Hst as [|p k Hs IH Hall]; [constructor|]. simpl. constructor; [done|].
    apply Forall_map. done.
  - clear -Hle. induction Hle; simpl; constructor; done.
  - by eexists.
  - by eexists.
Qed.
End wf.

(** ** Values between the points *)

(** The chain of segments through the points, at a time after its start. *)
Fixpoint interp (l : list Vec2d) (t : double) : option double :=
  match l with
  | [] => None
  | p :: l' =>
    match l' with
    | [] => None
    | q :: _ =>
      if dle t (pt_t q) then Some (pt_s p + (t - pt_t p) / (pt_t q - pt_t p) * (pt_s q - pt_s p))
      else interp l' t
    end
  end.

(** The binary search finds the segment the chain uses, on every chain over the times. *)
Lemma search_finds_segment ts : StronglySorted Qlt ts -> forall t f b, head ts = Some f -> last ts = Some b -> f < t -> t <= b ->
  exists i, lower_bound ts t = S i /\ (S i < length ts)%nat
  /\ forall l, map pt_t l = ts -> exists p q, l !! i = Some p /\ l !! S i = Some q /\ pt_t p < t /\ t <= pt_t q
       /\ interp l t = Some (pt_s p + (t - pt_t p) / (pt_t q - pt_t p) * (pt_s q - pt_s p)).
Proof.
  induction 1 as [|x ts Hs IH Hall]; intros t f b Hf Hb Hft Htb; [done|]. simplify_eq/=.
  destruct (dlt_spec f t) as [_|]; [|lra]. destruct ts as [|y ts]; [simplify_eq/=; lra|].
  rewrite last_cons_cons in Hb. destruct (dle t y) eqn:Ety.
  - exists 0%nat. dsimp. split; [simpl; destruct (dlt_spec y t); [lra|done]|]. split; [simpl; lia|].
    intros [|p [|q l]] Hl; simplify_eq/=. exists p, q. repeat split; try done. cbn [interp].
    destruct (dle_spec t (pt_t q)); [done|lra].
  - dsimp. destruct (IH t y b) as (i & Hi & Hlt & Hl); [done..|lra|].
    exists (S i). rewrite Hi. split; [done|]. split; [simpl in *; lia|].
    intros [|p [|q l]] Hm; [done..|]. injection Hm as Hp Hq Hm.
    destruct (Hl (q :: l)) as (p' & q' & H1 & H2 & H3 & H4 & H5); [simpl; by rewrite Hq, Hm|].
    exists p', q'. repeat split; try done. cbn [interp]. destruct (dle_spec t (pt_t q)); [subst; lra|]. exact H5.
Qed.

Lemma wf_times b : boundary_wf b ->
  StronglySorted Qlt (map pt_t (lower_points_ b)) /\ head (map pt_t (lower_points_ b)) = Some (min_t_ b)
  /\ last (map pt_t (lower_points_ b)) = Some (max_t_ b) /\ length (upper_points_ b) = length (lower_points_ b).
Proof.
  intros (_ & Ht & Hs & _ & (f & Hf & ->) & (e & He & ->)). split; [|split; [|split]].
  - clear -Hs. induction Hs; simpl; constructor; [done|]. by apply Forall_map.
  - destruct (lower_points_ b); simplify_eq/=. done.
  - pose proof (fmap_last pt_t (lower_points_ b)) as E. rewrite He in E. exact E.
  - apply (f_equal length) in Ht. by rewrite !length_map in Ht.
Qed.

(** At a time after the start of a boundary: the segments of both chains, and that the
    lower one is below. *)
Lemma segments_at b t : boundary_wf b -> min_t_ b < t -> t <= max_t_ b ->
  exists i l0 l1 u0 u1 lo up, GetIndexRange (lower_points_ b) t = Some (Some (i, S i))
  /\ lower_points_ b !! i = Some l0 /\ lower_points_ b !! S i = Some l1
  /\ upper_points_ b !! i = Some u0 /\ upper_points_ b !! S i = Some u1
  /\ pt_t u0 = pt_t l0 /\ pt_t u1 = pt_t l1 /\ pt_t l0 < t /\ t <= pt_t l1
  /\ interp (lower_points_ b) t = Some lo /\ lo = pt_s l0 + (t - pt_t l0) / (pt_t l1 - pt_t l0) * (pt_s l1 - pt_s l0)
  /\ interp (upper_points_ b) t = Some up /\ up = pt_s u0 + (t - pt_t l0) / (pt_t l1 - pt_t l0) * (pt_s u1 - pt_s u0)
  /\ lo <= up.
Proof.
  intros Hb Hlt Hle. destruct (wf_times b Hb) as (Hs & Hh & Hla & Hlen).
  destruct (search_finds_segment _ Hs t _ _ Hh Hla Hlt Hle) as (i & Hi & Hlti & Hseg).
  rewrite length_map in Hlti.
  destruct (Hseg (lower_points_ b) eq_refl) as (l0 & l1 & Hl0 & Hl1 & Ht0 & Ht1 & HIl).
  destruct Hb as (Hn & Ht & _ & Hle2 & (f & Hf & Ef) & (e & He & Ee)).
  destruct (Hseg (upper_points_ b) Ht) as (u0 & u1 & Hu0 & Hu1 & _ & _ & HIu).
  assert (Et : forall k u l, upper_points_ b !! k = Some u -> lower_points_ b !! k = Some l -> pt_t u = pt_t l).
  { intros k u l Hu Hl. apply (f_equal (fun x => x !! k)) in Ht. change (map pt_t) with (fmap (M := list) pt_t) in Ht. rewrite !list_lookup_fmap, Hu, Hl in Ht. by simplify_eq/=. }
  pose proof (Et _ _ _ Hu0 Hl0) as E0. pose proof (Et _ _ _ Hu1 Hl1) as E1. rewrite E0, E1 in HIu.
  eexists i, l0, l1, u0, u1, _, _. split.
  { unfold GetIndexRange. rewrite Hf, He. cbn [mbind option_bind].
    destruct (dlt_spec t (pt_t f)); [rewrite Ef in Hlt; lra|]. destruct (dlt_spec (pt_t e) t); [rewrite Ee in Hle; lra|].
    cbn [orb]. rewrite Hi. change (S i =? 0)%nat with false. cbn iota. destruct (Nat.eqb_spec (S i) (length (lower_points_ b))); [lia|].
    by replace (S i - 1)%nat with i by lia. }
  repeat (split; [done|]).
  assert (B0 : pt_s l0 <= pt_s u0) by (eapply Forall2_lookup_lr in Hle2; eauto).
  assert (B1 : pt_s l1 <= pt_s u1) by (eapply Forall2_lookup_lr in Hle2; eauto).
  set (r := (t - pt_t l0) / (pt_t l1 - pt_t l0)).
  assert (0 <= r) by (apply quot_nonneg; lra).
  assert (r <= 1) by (apply Qle_shift_div_r; lra).
  nra.
Qed.

Section membership.
Context (hypot atan2 : double -> double -> double).

(** The cross product tells on which side of a segment a point lies. *)
Lemma cross_is_side (s t : double) a b : pt_t a < pt_t b ->
  CrossProd3 (STPoint s t) a b == (pt_t b - pt_t a) * (s - (pt_s a + (t - pt_t a) / (pt_t b - pt_t a) * (pt_s b - pt_s a))).
Proof. intros H. unfold CrossProd3, CrossProd, vsub, STPoint, pt_s, pt_t in *. simpl. field. lra. Qed.

Lemma opposite_sides (k s lo up : Q) : 0 < k -> lo <= up -> (k * (s - up)) * (k * (s - lo)) < 0 <-> lo < s /\ s < up.
Proof.
  intros Hk Hle. split.
  - intros H. assert (Hk2 : 0 < k * k) by nra. assert (H' : (s - up) * (s - lo) < 0).
    { destruct (Qlt_le_dec ((s - up) * (s - lo)) 0); [done|]. exfalso. nra. }
    split; [destruct (Qlt_le_dec lo s)|destruct (Qlt_le_dec s up)]; try done; exfalso; nra.
  - intros [H1 H2]. assert (0 < k * (up - s)) by nra. assert (0 < k * (s - lo)) by nra. nra.
Qed.

(** C39. A boundary is what lies between its chains.  From a valid list of pairs the
    constructor builds a boundary exactly when the area between the chains through the pairs that
    RemoveRedundantPoints keeps (the first and the last among them) is larger than
    kMathEpsilon, and aborts in the polygon's CHECK otherwise; the polygon has that area.  At
    every time strictly between its first and last one, the boundary contains exactly the
    positions strictly between the chains: the search for the segment and the cross products
    of IsPointInBoundary decide it.  After the first time and up to the last,
    GetBoundarySRange returns the values of the chains, limited to the horizon. *)
Theorem boundary_is_between_its_chains (pairs : list (Vec2d * Vec2d)) (s t : double) (Hv : IsValid pairs = true) :
  exists a l, let r := a :: reduce hypot atan2 a l in pairs = a :: l /\ last (reduce hypot atan2 a l) = last l /\
  match STBoundary_of hypot atan2 pairs with
  | None => area_between r <= kMathEpsilon
  | Some b => kMathEpsilon < area_between r /\ area_ (polygon_ b) == area_between r
    /\ lower_points_ b = map (fun p => STPoint (pt_s p.1) (pt_t p.1)) r
    /\ upper_points_ b = map (fun p => STPoint (pt_s p.2) (pt_t p.1)) r
    /\ (min_t_ b < t -> t < max_t_ b ->
        exists lo up c, interp (lower_points_ b) t = Some lo /\ interp (upper_points_ b) t = Some up
        /\ IsPointInBoundary b (STPoint s t) = Some c /\ (c = true <-> lo < s /\ s < up))
    /\ (min_t_ b < t -> t <= max_t_ b ->
        exists lo up, interp (lower_points_ b) t = Some lo /\ interp (upper_points_ b) t = Some up
        /\ GetBoundarySRange b t = Some (Some (dmin up speed_lon_decision_horizon, dmax lo 0)))
  end.
Proof.
  destruct (boundary_of_valid hypot atan2 pairs Hv) as (a & l & E & Hb). exists a, l. cbv zeta in *. split; [done|]. split; [apply reduce_last|].
  destruct (STBoundary_of hypot atan2 pairs) as [b|]; [|done]. destruct Hb as (Ha & Har & _ & Hwf & Hlo & Hup). repeat (split; [done|]). split.
  - intros Ht0 Ht1.
    destruct (segments_at b t Hwf Ht0 ltac:(lra)) as (i & l0 & l1 & u0 & u1 & lo & up & Hr & Hl0 & Hl1 & Hu0 & Hu1 & E0 & E1 & T0 & T1 & HIl & El & HIu & Eu & Hle).
    exists lo, up. eexists. split; [done|]. split; [done|].
    unfold IsPointInBoundary. cbn [STPoint pt_t x_]. destruct (dle_spec t (min_t_ b)); [lra|]. destruct (dle_spec (max_t_ b) t); [lra|].
    cbn [orb]. rewrite Hr. cbn [mbind option_bind]. rewrite Hl0, Hl1, Hu0, Hu1. cbn [mbind option_bind].
    split; [reflexivity|]. rewrite dlt_true.
    change (mkVec t s) with (STPoint s t). pose proof (cross_is_side s t u0 u1 ltac:(rewrite E0, E1; lra)) as Cu. pose proof (cross_is_side s t l0 l1 ltac:(lra)) as Cl.
    rewrite E0, E1, <- Eu in Cu. rewrite <- El in Cl. rewrite Cu, Cl. apply opposite_sides; [lra|done].
  - intros Ht0 Ht1.
    destruct (segments_at b t Hwf Ht0 ltac:(lra)) as (i & l0 & l1 & u0 & u1 & lo & up & Hr & Hl0 & Hl1 & Hu0 & Hu1 & E0 & E1 & T0 & T1 & HIl & El & HIu & Eu & Hle).
    exists lo, up. split; [done|]. split; [done|].
    unfold GetBoundarySRange. destruct (dlt_spec t (min_t_ b)); [lra|]. destruct (dlt_spec (max_t_ b) t); [lra|].
    cbn [orb]. rewrite Hr. cbn [mbind option_bind]. unfold ratio, cross_s. rewrite Hl0, Hl1, Hu0, Hu1. cbn [mbind option_bind].
    rewrite E0, E1, ddiv_some by lra. cbn [mbind option_bind]. by subst.
Qed.
End membership.

(** ** Where the boundary is not the area of the obstacle *)

(** At the first time both ends of the segment are the first point, and the ratio is 0/0. *)
Lemma first_instant_has_no_range b : boundary_wf b -> GetBoundarySRange b (min_t_ b) = None /\ GetUnblockSRange b (min_t_ b) = None.
Proof.
  intros (Hn & Ht & Hs & Hle & (f & Hf & Ef) & (e & He & Ee)).
  assert (Hfe : pt_t f <= pt_t e).
  { destruct (lower_points_ b) as [|x l]; [done|]. injection Hf as ->. rewrite last_cons in He.
    apply StronglySorted_inv in Hs as [_ Hall]. destruct (last l) as [y|] eqn:El; simplify_eq; [|lra].
    apply last_Some in El as [l' ->]. apply Forall_app in Hall as [_ Hall]. apply Forall_cons in Hall as [Hall _]. lra. }
  assert (Hr : GetIndexRange (lower_points_ b) (min_t_ b) = Some (Some (0%nat, 0%nat))).
  { unfold GetIndexRange. rewrite Hf, He, Ef. cbn [mbind option_bind].
    destruct (dlt_spec (pt_t f) (pt_t f)); [lra|]. destruct (dlt_spec (pt_t e) (pt_t f)); [lra|]. cbn [orb].
    destruct (lower_points_ b) as [|x l]; simplify_eq/=. by destruct (dlt_spec (pt_t f) (pt_t f)); [lra|]. }
  assert (Hn0 : ratio (upper_points_ b) 0 0 (min_t_ b) = None).
  { unfold ratio. destruct (upper_points_ b !! 0%nat) as [p|]; [|done]. cbn [mbind option_bind]. unfold ddiv.
    by rewrite (proj2 (Qeq_bool_iff (pt_t p - pt_t p) 0) ltac:(ring)). }
  unfold GetBoundarySRange, GetUnblockSRange. rewrite Hr.
  destruct (dlt_spec (min_t_ b) (min_t_ b)); [lra|]. destruct (dlt_spec (max_t_ b) (min_t_ b)); [rewrite Ee, Ef in *; lra|].
  cbn [orb mbind option_bind]. by rewrite Hn0.
Qed.

(** The setters of the corners store what the getters of the corners do not read. *)
Lemma corners_are_not_read b p q r s :
  upper_left_point (set_corners b p q r s) = upper_left_point b /\ upper_right_point (set_corners b p q r s) = upper_right_point b
  /\ bottom_left_point (set_corners b p q r s) = bottom_left_point b
  /\ bottom_right_point (set_corners b p q r s) = bottom_right_point b
  /\ min_t_ (set_corners b p q r s) = min_t_ b /\ max_t_ (set_corners b p q r s) = max_t_ b.
Proof. done. Qed.

(** An obstacle of 5 m that accelerates with 0.2 m/s^2 for 8 s, sampled every 0.1 s.  Each
    sample is near the line from the first one to the next one, so that all of them are
    removed, and at 4 s the boundary starts 1.6 m ahead of the obstacle: a position the
    obstacle takes is reported as free. *)
Definition accelerating_obstacle : list (Vec2d * Vec2d) :=
  map (fun i => let t := dnat i * (1 # 10) in (STPoint ((1 # 10) * t * t) t, STPoint ((1 # 10) * t * t + 5) t)) (seq 0 81).
Definition atan2_zero (_ _ : double) : double := 0.

Example redundant_points_cut_the_boundary :
  IsValid accelerating_obstacle = true
  /\ option_map (fun b => length (lower_points_ b)) (STBoundary_of hypot52 atan2_zero accelerating_obstacle) = Some 2%nat
  /\ (b ← STBoundary_of hypot52 atan2_zero accelerating_obstacle; IsPointInBoundary b (STPoint (5 # 2) 4)) = Some false
  /\ (exists l u, accelerating_obstacle !! 40%nat = Some (l, u) /\ pt_t l == 4 /\ pt_s l < (5 # 2) /\ (5 # 2) < pt_s u).
Proof.
  split; [vm_compute; reflexivity|]. split; [vm_compute; reflexivity|]. split; [vm_compute; reflexivity|].
  eexists _, _. split; [reflexivity|]. vm_compute. done.
Qed.

Definition stopped_obstacle : list (Vec2d * Vec2d) := [(STPoint 10 0, STPoint 15 0); (STPoint 10 8, STPoint 15 8)].
Lemma boundary_is_between_its_chains_witness :
  exists b, STBoundary_of hypot52 atan2_zero stopped_obstacle = Some b /\ area_ (polygon_ b) == 40
  /\ exists lo up c, interp (lower_points_ b) 2 = Some lo /\ interp (upper_points_ b) 2 = Some up
      /\ IsPointInBoundary b (STPoint 12 2) = Some c /\ (c = true <-> lo < 12 /\ 12 < up).
Proof.
  destruct (boundary_is_between_its_chains hypot52 atan2_zero stopped_obstacle 12 2 eq_refl) as (a & l & E & _ & H).
  injection E as <- <-. destruct (STBoundary_of hypot52 atan2_zero stopped_obstacle) as [b|] eqn:Eb; [|vm_compute in Eb; discriminate].
  destruct H as (_ & Ha & _ & _ & H & _). exists b. split; [done|]. split; [rewrite Ha; vm_compute; reflexivity|].
  apply H; vm_compute in Eb; injection Eb as <-; vm_compute; reflexivity.
Defined.

(** An obstacle of no length, valid by the test of the constructor, is a polygon without area:
    the process aborts. *)
Definition point_obstacle : list (Vec2d * Vec2d) := [(STPoint 10 0, STPoint 10 0); (STPoint 10 8, STPoint 10 8)].
Example flat_boundary_aborts : IsValid point_obstacle = true /\ STBoundary_of hypot52 atan2_zero point_obstacle = None.
Proof. split; vm_compute; reflexivity. Qed.
