(* ===== verification/PathTimeGraph.v ===== *)
(** PathTimeGraph.v -- obstacles in the path-time graph of the lattice planner

    - src/src/apollo/modules/planning/lattice/behavior/path_time_graph.{h,cc}

    The coordinates of a point along the reference line (PathMatcher) and the widths of the
    lane (ReferenceLine::GetLaneWidth) are parameters; an obstacle is what the graph reads
    of it.  Loops over times run on fuel, of which they have enough ([setup_is_total]).
    [None] is as in [StBoundary]. *)

From S2P Require Import Prelude.
From S2P Require Import Double.
From S2P Require Import Geometry.
From S2P Require Import Curve1d.
From S2P Require Import Trajectory1d.
From S2P Require Import StBoundary.
From S2P Require Import Unordered.
From stdpp Require Import sorting.
From Stdlib Require Import Qfield Qround.
Local Open Scope Q_scope.

Record SLBoundary := mkSL { start_s : double; end_s : double; start_l : double; end_l : double }.

(** Polygon and, for each time, corners of the box at the predicted position. *)
Record Obstacle := mkObstacle {
  Id : string; IsVirtual : bool; HasTrajectory : bool;
  PerceptionPolygon : list Vec2d; corners_at : double -> list Vec2d }.

Record PathTimeGraph := mkGraph {
  time_range_ : double * double; path_range_ : double * double; init_d_ : double;
  path_time_obstacle_map_ : gmap string STBoundary; path_time_obstacles_ : list STBoundary;
  static_obs_sl_boundaries_ : list SLBoundary }.

(** FLAGS_default_reference_line_width, FLAGS_bound_buffer, FLAGS_nudge_buffer *)
Definition default_reference_line_width : double := 4.
Definition bound_buffer : double := 1 # 10.
Definition nudge_buffer : double := 3 # 10.

(** std::upper_bound: the first index whose entry is greater. *)
Fixpoint upper_bound (l : list double) (x : double) : nat :=
  match l with
  | [] => 0
  | y :: l => if dlt x y then 0%nat else S (upper_bound l x)
  end.

(** The number of rounds of a loop from [a] up to [b]. *)
Definition rounds (a b step : double) : nat := S (Z.to_nat (Qceiling ((b - a) / step))).

Section graph.
Context {HO : HashOrder} (frenet : Vec2d -> double * double) (GetLaneWidth : double -> option (double * double)).
Context (ego_width : double).

Definition ComputeObstacleBoundary (vertices : list Vec2d) : SLBoundary :=
  foldl (fun b point =>
    let sl_point := frenet point in
    mkSL (dmin (start_s b) sl_point.1) (dmax (end_s b) sl_point.1)
         (dmin (start_l b) sl_point.2) (dmax (end_l b) sl_point.2))
    (mkSL DBL_MAX (- DBL_MAX) DBL_MAX (- DBL_MAX)) vertices.

(** The widths, which GetLaneWidth leaves as they are when it fails. *)
Definition lane_width (s : double) : double * double :=
  from_option id (default_reference_line_width * (1 # 2), default_reference_line_width * (1 # 2)) (GetLaneWidth s).

Definition out_of_range (g : PathTimeGraph) (sl : SLBoundary) : bool :=
  let '(left_width, right_width) := lane_width (start_s sl) in
  dlt (path_range_ g).2 (start_s sl) || dlt (end_s sl) (path_range_ g).1
  || dlt left_width (start_l sl) || dlt (end_l sl) (- right_width).

(** path_time_obstacle_map_[id], which makes an entry if there is none. *)
Definition entry (g : PathTimeGraph) (id : string) : STBoundary :=
  from_option (fun b => b) NewSTBoundary (path_time_obstacle_map_ g !! id).
Definition set_entry (g : PathTimeGraph) (id : string) (b : STBoundary) : PathTimeGraph :=
  mkGraph (time_range_ g) (path_range_ g) (init_d_ g) (<[id := b]> (path_time_obstacle_map_ g))
    (path_time_obstacles_ g) (static_obs_sl_boundaries_ g).

Definition SetStaticObstacle (g : PathTimeGraph) (obstacle : Obstacle) : PathTimeGraph :=
  let sl := ComputeObstacleBoundary (PerceptionPolygon obstacle) in
  if out_of_range g sl then g
  else
    let b := set_id (entry g (Id obstacle)) (Id obstacle) in
    let b := set_bottom_left_point b (STPoint (start_s sl) 0) in
    let b := set_bottom_right_point b (STPoint (start_s sl) trajectory_time_length) in
    let b := set_upper_left_point b (STPoint (end_s sl) 0) in
    let b := set_upper_right_point b (STPoint (end_s sl) trajectory_time_length) in
    let g := set_entry g (Id obstacle) b in
    mkGraph (time_range_ g) (path_range_ g) (init_d_ g) (path_time_obstacle_map_ g) (path_time_obstacles_ g)
      (static_obs_sl_boundaries_ g ++ [sl]).

Fixpoint dynamic_loop (fuel : nat) (g : PathTimeGraph) (obstacle : Obstacle) (relative_time : double)
    : option PathTimeGraph :=
  match fuel with
  | 0%nat => None
  | S fuel =>
    if dlt relative_time (time_range_ g).2 then
      let sl := ComputeObstacleBoundary (corners_at obstacle relative_time) in
      let next := relative_time + trajectory_time_resolution in
      if out_of_range g sl then
        match path_time_obstacle_map_ g !! Id obstacle with
        | Some _ => Some g
        | None => dynamic_loop fuel g obstacle next
        end
      else
        let b := match path_time_obstacle_map_ g !! Id obstacle with
                 | Some b => b
                 | None =>
                   set_upper_left_point
                     (set_bottom_left_point (set_id NewSTBoundary (Id obstacle)) (STPoint (start_s sl) relative_time))
                     (STPoint (end_s sl) relative_time)
                 end in
        let b := set_bottom_right_point b (STPoint (start_s sl) relative_time) in
        let b := set_upper_right_point b (STPoint (end_s sl) relative_time) in
        dynamic_loop fuel (set_entry g (Id obstacle) b) obstacle next
    else Some g
  end.
Definition SetDynamicObstacle (g : PathTimeGraph) (obstacle : Obstacle) : option PathTimeGraph :=
  let '(t0, t1) := time_range_ g in
  dynamic_loop (rounds t0 t1 trajectory_time_resolution) g obstacle t0.

Definition setup_one (g : option PathTimeGraph) (obstacle : Obstacle) : option PathTimeGraph :=
  g ← g;
  if IsVirtual obstacle then Some g
  else if HasTrajectory obstacle then SetDynamicObstacle g obstacle else Some (SetStaticObstacle g obstacle).

(** std::sort by start_s: a sorted permutation. *)
Definition by_start_s (a b : SLBoundary) : Prop := dle (start_s a) (start_s b) = true.
#[local] Instance by_start_s_dec : RelDecision by_start_s.
Proof. intros a b. unfold by_start_s. apply _. Defined.
Definition SetupObstacles (g : PathTimeGraph) (obstacles : list Obstacle) : option PathTimeGraph :=
  g ← foldl setup_one (Some g) obstacles;
  Some (mkGraph (time_range_ g) (path_range_ g) (init_d_ g) (path_time_obstacle_map_ g)
          (path_time_obstacles_ g ++ (Unordered.iter (path_time_obstacle_map_ g)).*2)
          (merge_sort by_start_s (static_obs_sl_boundaries_ g))).

Definition NewPathTimeGraph (obstacles : list Obstacle) (s_start s_end' t_start t_end init_d : double)
    : option PathTimeGraph :=
  checked (dlt s_start s_end' && dlt t_start t_end)
    (SetupObstacles (mkGraph (t_start, t_end) (s_start, s_end') init_d ∅ [] []) obstacles).

Definition GetPathTimeObstacle (g : PathTimeGraph) (id : string) : option STBoundary := path_time_obstacle_map_ g !! id.
Definition IsObstacleInGraph (g : PathTimeGraph) (id : string) : bool := bool_decide (is_Some (path_time_obstacle_map_ g !! id)).

Definition blocking_interval (b : STBoundary) (t : double) : option (double * double) :=
  ul ← upper_left_point b; ur ← upper_right_point b; bl ← bottom_left_point b; br ← bottom_right_point b;
  let s_upper := lerp (pt_s ul) (pt_t ul) (pt_s ur) (pt_t ur) t in
  let s_lower := lerp (pt_s bl) (pt_t bl) (pt_s br) (pt_t br) t in
  Some (s_lower, s_upper).
Definition blocked_at (t : double) (b : STBoundary) : bool := negb (dlt (max_t_ b) t || dlt t (min_t_ b)).
Definition GetPathBlockingIntervals (g : PathTimeGraph) (t : double) : option (list (double * double)) :=
  checked (dle (time_range_ g).1 t && dle t (time_range_ g).2)
    (mapM (fun b => blocking_interval b t) (filter (fun b => blocked_at t b = true) (path_time_obstacles_ g))).

Fixpoint intervals_loop (fuel : nat) (g : PathTimeGraph) (t t_end t_resolution : double) : option (list (list (double * double))) :=
  match fuel with
  | 0%nat => None
  | S fuel =>
    if dle t t_end then
      i ← GetPathBlockingIntervals g t; l ← intervals_loop fuel g (t + t_resolution) t_end t_resolution; Some (i :: l)
    else Some []
  end.
Definition GetPathBlockingIntervals_range (g : PathTimeGraph) (t_start t_end t_resolution : double) :=
  intervals_loop (S (rounds t_start t_end t_resolution)) g t_start t_end t_resolution.

Definition GetObstacleSurroundingPoints (g : PathTimeGraph) (obstacle_id : string) (s_dist t_min_density : double)
    : option (list Vec2d) :=
  checked (dlt 0 t_min_density)
    match path_time_obstacle_map_ g !! obstacle_id with
    | None => Some []
    | Some b =>
      p0 ← (if dlt 0 s_dist then upper_left_point b else bottom_left_point b);
      p1 ← (if dlt 0 s_dist then upper_right_point b else bottom_right_point b);
      let time_gap := pt_t p1 - pt_t p0 in
      checked (dlt (- numerical_epsilon) time_gap)
        (let time_gap := fabs time_gap in
         let num_sections := Z.to_nat (Qfloor (time_gap / t_min_density + 1)) in
         let t_interval := time_gap / dnat num_sections in
         Some (map (fun i =>
           let t := t_interval * dnat i + pt_t p0 in
           STPoint (lerp (pt_s p0) (pt_t p0) (pt_s p1) (pt_t p1) t + s_dist) t) (seq 0 (S num_sections))))
    end.

(** *** Lateral bounds *)

(** Changes the bounds with indices from [i] on that are below [n]. *)
Definition update_range (f : double * double -> double * double) (i n : nat) (bounds : list (double * double)) :=
  imap (fun k b => if (i <=? k)%nat && (k <? n)%nat then f b else b) bounds.

Definition UpdateLateralBoundsByObstacle (sl : SLBoundary) (discretized_path : list double) (s_start s_end' : double)
    (bounds : list (double * double)) : list (double * double) :=
  if dlt s_end' (start_s sl) || dlt (end_s sl) s_start then bounds
  else
    let start_index := lower_bound discretized_path (start_s sl) in
    let end_index := upper_bound discretized_path (start_s sl) in
    if dlt (- numerical_epsilon) (end_l sl) && dlt (start_l sl) numerical_epsilon then
      update_range (fun _ => (- numerical_epsilon, numerical_epsilon)) start_index end_index bounds
    else if dlt (end_l sl) numerical_epsilon then
      update_range (fun b => (dmax b.1 (end_l sl + nudge_buffer), b.2)) start_index (Nat.min (end_index + 1) (length bounds)) bounds
    else if dlt (- numerical_epsilon) (start_l sl) then
      update_range (fun b => (b.1, dmin b.2 (start_l sl - nudge_buffer))) start_index (Nat.min (end_index + 1) (length bounds)) bounds
    else bounds.

Definition initial_bound (g : PathTimeGraph) (s : double) : double * double :=
  let '(left_width, right_width) := lane_width s in
  (dmin (- right_width) (init_d_ g - ego_width / 2 - bound_buffer), dmax left_width (init_d_ g + ego_width / 2 + bound_buffer)).
Definition final_bound (b : double * double) : double * double :=
  let b := (b.1 + ego_width / 2, b.2 - ego_width / 2) in
  if dle b.2 b.1 then (0, 0) else b.
Fixpoint samples (n : nat) (s step : double) : list double :=
  match n with 0%nat => [] | S n => s :: samples n (s + step) step end.

Definition GetLateralBounds (g : PathTimeGraph) (s_start s_end' s_resolution : double) : option (list (double * double)) :=
  checked (dlt s_start s_end' && dlt numerical_epsilon s_resolution)
    (let num_bound := Z.to_nat (Qfloor ((s_end' - s_start) / s_resolution)) in
     let discretized_path := samples num_bound s_start s_resolution in
     let bounds := map (initial_bound g) discretized_path in
     let bounds := foldl (fun bounds sl => UpdateLateralBoundsByObstacle sl discretized_path s_start s_end' bounds)
                     bounds (static_obs_sl_boundaries_ g) in
     Some (map final_bound bounds)).
End graph.

(** ** The loops end *)

Lemma dnat_S n : dnat (S n) == dnat n + 1.
Proof. unfold dnat. rewrite Nat2Z.inj_succ, <- Z.add_1_r, inject_Z_plus. reflexivity. Qed.
Lemma rounds_enough a b step : 0 < step -> exists n, rounds a b step = S n /\ b <= a + dnat n * step.
Proof.
  intros Hs. eexists. split; [reflexivity|]. pose proof (Qle_ceiling ((b - a) / step)) as H.
  assert (Hn : inject_Z (Qceiling ((b - a) / step)) <= dnat (Z.to_nat (Qceiling ((b - a) / step)))).
  { unfold dnat. rewrite <- Zle_Qle. lia. }
  assert ((b - a) == (b - a) / step * step) by (field; lra). nra.
Qed.

Section laws.
Context {HO : HashOrder} (frenet : Vec2d -> double * double) (GetLaneWidth : double -> option (double * double)).
Context (ego_width : double).
Notation setup_one' := (setup_one frenet GetLaneWidth).

Lemma dynamic_loop_total fuel : forall g o t, (time_range_ g).2 <= t + dnat fuel * trajectory_time_resolution ->
  is_Some (dynamic_loop frenet GetLaneWidth (S fuel) g o t).
Proof.
  induction fuel as [|fuel IH]; intros g o t H.
  - cbn [dynamic_loop]. destruct (dlt_spec t (time_range_ g).2) as [Hlt|]; [|by eexists]. exfalso.
    change (dnat 0) with 0 in H. lra.
  - assert (Hn : (time_range_ g).2 <= t + trajectory_time_resolution + dnat fuel * trajectory_time_resolution).
    { pose proof (dnat_S fuel) as E. rewrite E in H. lra. }
    clear H. remember (S fuel) as n eqn:En. clear En. cbn [dynamic_loop]. destruct (dlt t (time_range_ g).2); [|by eexists].
    destruct (out_of_range _ _ _); [destruct (_ !! _); [by eexists|]; by apply IH|]. by apply IH.
Qed.

(** What is known of the graph while it is set up: a boundary of it has no points, and its
    name is its key. *)
Definition no_points (b : STBoundary) : Prop :=
  upper_points_ b = [] /\ lower_points_ b = [] /\ min_t_ b = DBL_MAX /\ max_t_ b = - DBL_MAX.
Definition pointless (g : PathTimeGraph) : Prop := map_Forall (fun id b => no_points b /\ id_ b = id) (path_time_obstacle_map_ g).

Lemma entry_no_points g id : pointless g -> no_points (entry g id).
Proof. intros H. unfold entry. destruct (path_time_obstacle_map_ g !! id) as [b|] eqn:E; [by apply (H id) in E as [??]|done]. Qed.
Lemma set_entry_pointless g id b : pointless g -> no_points b -> id_ b = id -> pointless (set_entry g id b).
Proof. intros Hg Hb Hid. by apply map_Forall_insert_2. Qed.

Lemma dynamic_loop_pointless fuel : forall g o t g', pointless g ->
  dynamic_loop frenet GetLaneWidth fuel g o t = Some g' -> pointless g' /\ time_range_ g' = time_range_ g.
Proof.
  induction fuel as [|fuel IH]; intros g o t g' Hg H; [done|]. cbn [dynamic_loop] in H.
  destruct (dlt t (time_range_ g).2); [|by simplify_eq].
  destruct (out_of_range _ _ _).
  - destruct (path_time_obstacle_map_ g !! Id o); [by simplify_eq|]. by eapply IH.
  - apply IH in H; [done|]. apply set_entry_pointless; [done|..];
      (destruct (path_time_obstacle_map_ g !! Id o) as [b|] eqn:E; [by apply (Hg (Id o)) in E as [??]|done]).
Qed.

Lemma setup_one_total g o : pointless g -> exists g', setup_one' (Some g) o = Some g' /\ pointless g' /\ time_range_ g' = time_range_ g.
Proof.
  intros Hg. unfold setup_one. cbn [mbind option_bind]. destruct (IsVirtual o); [by exists g|].
  destruct (HasTrajectory o).
  - unfold SetDynamicObstacle. destruct (time_range_ g) as [t0 t1] eqn:Et.
    destruct (rounds_enough t0 t1 trajectory_time_resolution) as (n & -> & Hn); [reflexivity|].
    destruct (dynamic_loop_total n g o t0) as [g' Hg']; [by rewrite Et|].
    rewrite Hg'. exists g'. apply dynamic_loop_pointless in Hg' as [??]; [|done]. rewrite <- Et. done.
  - unfold SetStaticObstacle. destruct (out_of_range _ _ _); [by exists g|]. eexists. split; [done|]. split; [|done].
    apply (set_entry_pointless g); [done| |done]. apply (entry_no_points g (Id o) Hg).
Qed.

Lemma setup_pointless obstacles : forall g, pointless g ->
  exists g', foldl setup_one' (Some g) obstacles = Some g' /\ pointless g' /\ time_range_ g' = time_range_ g.
Proof.
  induction obstacles as [|o obstacles IH]; intros g Hg; [by exists g|]. cbn [foldl].
  destruct (setup_one_total g o Hg) as (g1 & -> & Hg1 & Et). destruct (IH g1 Hg1) as (g' & Hg' & Hp & Et').
  exists g'. rewrite Et' , Et. done.
Qed.

(** Every graph is built, for any obstacles, and no boundary in it has a point. *)
Lemma setup_is_total obstacles s0 s1 t0 t1 d : s0 < s1 -> t0 < t1 ->
  exists g, NewPathTimeGraph frenet GetLaneWidth obstacles s0 s1 t0 t1 d = Some g /\ pointless g
  /\ Forall (fun b => no_points b /\ path_time_obstacle_map_ g !! id_ b = Some b) (path_time_obstacles_ g)
  /\ time_range_ g = (t0, t1)
  /\ (forall id, is_Some (path_time_obstacle_map_ g !! id) -> exists b, b ∈ path_time_obstacles_ g /\ path_time_obstacle_map_ g !! id = Some b).
Proof.
  intros Hs Ht. unfold NewPathTimeGraph, checked. apply dlt_true in Hs, Ht. rewrite Hs, Ht. cbn [andb].
  unfold SetupObstacles. set (g0 := mkGraph (t0, t1) (s0, s1) d ∅ [] []).
  destruct (setup_pointless obstacles g0) as (g & Hg & Hp & Et); [by apply map_Forall_empty|].
  rewrite Hg. cbn [mbind option_bind]. eexists. split; [done|]. split; [done|].
  assert (Hobs : path_time_obstacles_ g = []).
  { clear -Hg. assert (Hd : forall fuel g o t g', dynamic_loop frenet GetLaneWidth fuel g o t = Some g' -> path_time_obstacles_ g' = path_time_obstacles_ g).
    { induction fuel as [|fuel IH]; intros g1 o t g' H; [done|]. cbn [dynamic_loop] in H.
      destruct (dlt _ _); [|by simplify_eq]. destruct (out_of_range _ _ _).
      - destruct (_ !! _); [by simplify_eq|by eapply IH].
      - by apply IH in H. }
    assert (Hf : forall l g1 g', foldl setup_one' (Some g1) l = Some g' -> path_time_obstacles_ g' = path_time_obstacles_ g1).
    { induction l as [|o l IH]; intros g1 g' H; [by simplify_eq/=|]. cbn [foldl] in H.
      destruct (setup_one' (Some g1) o) as [g2|] eqn:E.
      - rewrite (IH _ _ H). unfold setup_one in E. cbn [mbind option_bind] in E. destruct (IsVirtual o); [by simplify_eq|].
        destruct (HasTrajectory o).
        + unfold SetDynamicObstacle in E. destruct (time_range_ g1). by apply Hd in E.
        + unfold SetStaticObstacle in E. destruct (out_of_range _ _ _); by simplify_eq.
      - exfalso. clear -H. induction l; simpl in H; [done|]. by apply IHl. }
    by rewrite (Hf _ _ _ Hg). }
  cbn [path_time_obstacles_ path_time_obstacle_map_ time_range_]. rewrite Hobs. cbn [app]. split; [|split; [by rewrite Et|]].
  - apply Forall_forall. intros b (k & Hk)%elem_of_iter_values. destruct (Hp k b Hk) as [Hb ->]. done.
  - intros id [b Hb]. exists b. split; [|done]. apply elem_of_iter_values. by exists id.
Qed.

(** No obstacle ever blocks the path of the lattice planner: for any obstacles, the
    graph is built, but the corners that are set for an obstacle are stored where no
    function reads them and its times keep their initial values, so that the blocking
    intervals are empty at every time, and the points around an obstacle of the graph
    cannot be read. *)
Theorem graph_never_blocks (obstacles : list Obstacle) (s0 s1 t0 t1 d t : double) (id : string) (s_dist density : double)
    (Hs : s0 < s1) (Ht : t0 < t1) (Hlo : t0 <= t) (Hhi : t <= t1) (Hmax : - DBL_MAX < t) (Hden : 0 < density) :
  exists g, NewPathTimeGraph frenet GetLaneWidth obstacles s0 s1 t0 t1 d = Some g
  /\ GetPathBlockingIntervals g t = Some []
  /\ (IsObstacleInGraph g id = true -> GetObstacleSurroundingPoints g id s_dist density = None).
Proof.
  destruct (setup_is_total obstacles s0 s1 t0 t1 d Hs Ht) as (g & Hg & Hp & Hf & Et & _).
  exists g. split; [done|]. split.
  - unfold GetPathBlockingIntervals, checked. rewrite Et. cbn [fst snd]. apply dle_true in Hlo, Hhi. rewrite Hlo, Hhi. cbn [andb].
    assert (E : filter (fun b => blocked_at t b = true) (path_time_obstacles_ g) = []).
    { clear -Hf Hmax. induction Hf as [|b l ((_ & _ & _ & Hb) & _) Hf IH]; [done|]. rewrite filter_cons, IH.
      unfold blocked_at. rewrite Hb. destruct (dlt_spec (- DBL_MAX) t); [|lra]. done. }
    by rewrite E.
  - unfold IsObstacleInGraph, GetObstacleSurroundingPoints, checked. intros [b Hb]%bool_decide_eq_true_1.
    rewrite (dlt_pos _ Hden), Hb. destruct (Hp id b Hb) as ((Hu & Hl & _) & _).
    unfold upper_left_point, bottom_left_point. rewrite Hu, Hl. by destruct (dlt 0 s_dist).
Qed.

(** ** The boundary of an obstacle along the reference line *)

Definition inside (sl : SLBoundary) (p : double * double) : Prop :=
  start_s sl <= p.1 /\ p.1 <= end_s sl /\ start_l sl <= p.2 /\ p.2 <= end_l sl.
Lemma obstacle_boundary_contains vertices p : p ∈ vertices -> inside (ComputeObstacleBoundary frenet vertices) (frenet p).
Proof.
  unfold ComputeObstacleBoundary. induction vertices as [|q l IH] using rev_ind; [by intros ?%not_elem_of_nil|].
  rewrite foldl_app. cbn [foldl]. set (b := foldl _ _ l) in *. unfold inside. cbn [start_s end_s start_l end_l].
  pose proof (dmin_l (start_s b) (frenet q).1). pose proof (dmin_r (start_s b) (frenet q).1).
  pose proof (dmax_l (end_s b) (frenet q).1). pose proof (dmax_r (end_s b) (frenet q).1).
  pose proof (dmin_l (start_l b) (frenet q).2). pose proof (dmin_r (start_l b) (frenet q).2).
  pose proof (dmax_l (end_l b) (frenet q).2). pose proof (dmax_r (end_l b) (frenet q).2).
  intros [Hp| ->%list_elem_of_singleton]%elem_of_app; [destruct (IH Hp) as (?&?&?&?)|]; repeat split; lra.
Qed.

(** ** Lateral bounds *)

Lemma length_update f i n l : length (update_range f i n l) = length l.
Proof. apply length_imap. Qed.
Lemma length_UpdateLateral sl path s0 s1 l : length (UpdateLateralBoundsByObstacle sl path s0 s1 l) = length l.
Proof.
  unfold UpdateLateralBoundsByObstacle. destruct (_ || _); [done|]. destruct (_ && _); [apply length_update|].
  destruct (dlt _ _); [apply length_update|]. destruct (dlt _ _); [apply length_update|done].
Qed.
Lemma length_samples n s step : length (samples n s step) = n.
Proof. revert s. induction n as [|n IH]; intros s; simpl; [done|]. by rewrite IH. Qed.

(** The bounds the optimiser gets are never crossed: at every sample the lower one is at
    most the upper one, whatever the obstacles. *)
Lemma lateral_bounds_are_ordered g s0 s1 r : s0 < s1 -> numerical_epsilon < r ->
  exists l, GetLateralBounds GetLaneWidth ego_width g s0 s1 r = Some l
  /\ length l = Z.to_nat (Qfloor ((s1 - s0) / r)) /\ Forall (fun b => b.1 <= b.2) l.
Proof.
  intros Hs Hr. unfold GetLateralBounds, checked. apply dlt_true in Hs, Hr. rewrite Hs, Hr. cbn [andb].
  eexists. split; [done|]. split.
  - rewrite length_map. set (n := Z.to_nat _).
    assert (H : forall obs l, length (foldl (fun bounds sl => UpdateLateralBoundsByObstacle sl (samples n s0 r) s0 s1 bounds) l obs) = length l).
    { induction obs as [|sl obs IH]; intros l; [done|]. cbn [foldl]. by rewrite IH, length_UpdateLateral. }
    by rewrite H, length_map, length_samples.
  - apply Forall_map, Forall_true. intros b. unfold final_bound. cbn [fst snd].
    destruct (dle_spec (b.2 - ego_width / 2) (b.1 + ego_width / 2)); simpl; lra.
Qed.

(** *** An obstacle bounds at most two samples *)

Lemma bounds_of_start path x : StronglySorted Qlt path -> (upper_bound path x <= S (lower_bound path x))%nat.
Proof.
  induction 1 as [|y path Hs IH Hall]; simpl; [lia|].
  destruct (dlt_spec x y); [lia|]. destruct (dlt_spec y x); [lia|].
  assert (E : upper_bound path x = 0%nat); [|rewrite E; lia].
  destruct path as [|z path]; [done|]. apply Forall_cons in Hall as [Hz _]. simpl. destruct (dlt_spec x z); [done|lra].
Qed.

Lemma update_outside f i n l k : (k < i \/ n <= k)%nat -> update_range f i n l !! k = l !! k.
Proof.
  intros H. unfold update_range. rewrite list_lookup_imap. destruct (l !! k) as [b|]; [|done]. simpl. f_equal.
  destruct (Nat.leb_spec i k), (Nat.ltb_spec k n); simpl; done || lia.
Qed.

(** The search for the end of an obstacle looks for its start, so that an obstacle of any
    length bounds only the two samples next to its start. *)
Lemma obstacle_bounds_two_samples sl path s0 s1 l k : StronglySorted Qlt path ->
  (k < lower_bound path (start_s sl) \/ lower_bound path (start_s sl) + 1 < k)%nat ->
  UpdateLateralBoundsByObstacle sl path s0 s1 l !! k = l !! k.
Proof.
  intros Hp Hk. pose proof (bounds_of_start path (start_s sl) Hp).
  unfold UpdateLateralBoundsByObstacle. destruct (_ || _); [done|].
  destruct (_ && _); [apply update_outside; lia|]. destruct (dlt _ _); [apply update_outside; lia|].
  destruct (dlt _ _); [apply update_outside; lia|done].
Qed.
End laws.

(** A wall along metres 10 to 30, 0.6 m left of the reference line, on a lane of 4 m with a
    car of 2 m: the bounds keep away from it at 10 and 11 m, and at 20 m they allow the car
    to drive into it. *)
Definition wall : SLBoundary := mkSL 10 30 (6 # 10) 2.
Example long_obstacle_is_driven_into :
  (l ← GetLateralBounds (fun _ => None) 2
         (mkGraph (0, 8) (0, 100) 0 ∅ [] [wall]) 0 40 1;
   a ← l !! 11%nat; b ← l !! 20%nat; Some (Qred a.2, Qred b.2)) = Some (-7 # 10, 1).
Proof. vm_compute. reflexivity. Qed.

Definition parked : Obstacle := mkObstacle "parked" false false [mkVec 10 (-1); mkVec 14 1] (fun _ => []).
Lemma graph_never_blocks_witness : exists g,
  NewPathTimeGraph (fun p => (x_ p, y_ p)) (fun _ => None) [parked] 0 100 0 8 0 = Some g
  /\ GetPathBlockingIntervals g 1 = Some []
  /\ (IsObstacleInGraph g "parked" = true -> GetObstacleSurroundingPoints g "parked" 1 1 = None).
Proof.
  apply (graph_never_blocks (fun p => (x_ p, y_ p)) (fun _ => None) [parked] 0 100 0 8 0 1 "parked" 1 1); by vm_compute.
Defined.
(** The obstacle is in that graph. *)
Example parked_is_in_the_graph :
  option_map (fun g => IsObstacleInGraph g "parked")
    (NewPathTimeGraph (fun p => (x_ p, y_ p)) (fun _ => None) [parked] 0 100 0 8 0) = Some true.
Proof. vm_compute. reflexivity. Qed.
