(* ===== verification/Lattice.v ===== *)
(** Lattice.v -- sampling of trajectories by the lattice planner

    - src/src/apollo/modules/planning/lattice/behavior/feasible_region.{h,cc}
    - src/src/apollo/modules/planning/lattice/trajectory_generation/end_condition_sampler.{h,cc},
      trajectory1d_generator.{h,cc}, lattice_trajectory1d.{h,cc}
    - src/src/apollo/modules/planning/constraint_checker/constraint_checker1d.{h,cc}

    The projected velocity of an obstacle (PredictionQuerier), std::sqrt and the length of
    the vehicle are parameters.  The lateral optimiser is not modelled.  [None] is a failed
    CHECK, an access outside of a vector, or a conversion that is not defined. *)

From S2P Require Import Prelude.
From S2P Require Import Double.
From S2P Require Import Deriv.
From S2P Require Import Geometry.
From S2P Require Import Curve1d.
From S2P Require Import Trajectory1d.
From S2P Require Import StBoundary.
From S2P Require Import Unordered.
From S2P Require Import PathTimeGraph.
From Stdlib Require Import Qabs Qfield Qround.
Local Open Scope Q_scope.
#[local] Instance Q_default : DefaultRelation Qeq := {}.

(** The flags of the same names. *)
Definition longitudinal_acceleration_lower_bound : double := - (9 # 2).
Definition longitudinal_acceleration_upper_bound : double := 4.
Definition polynomial_minimal_param : double := 1 # 100.
Definition num_velocity_sample : nat := 6.
Definition min_velocity_sample_gap : double := 1.
Definition num_sample_follow_per_timestamp : nat := 3.
Definition default_lon_buffer : double := 5.
Definition time_min_density : double := 1.

(** ** FeasibleRegion *)

Record FeasibleRegion := mkFR {
  fr_s : double; fr_v : double; t_at_zero_speed_ : double; s_at_zero_speed_ : double }.

Definition NewFeasibleRegion (s v : double) : option FeasibleRegion :=
  checked (dle 0 v)
    (let max_deceleration := - longitudinal_acceleration_lower_bound in
     Some (mkFR s v (v / max_deceleration) (s + v * v / (2 * max_deceleration)))).
Definition SUpper (r : FeasibleRegion) (t : double) : option double :=
  checked (dle 0 t) (Some (fr_s r + fr_v r * t + (1 # 2) * longitudinal_acceleration_upper_bound * t * t)).
Definition SLower (r : FeasibleRegion) (t : double) : double :=
  if dlt t (t_at_zero_speed_ r) then fr_s r + fr_v r * t + (1 # 2) * longitudinal_acceleration_lower_bound * t * t
  else s_at_zero_speed_ r.
Definition VUpper (r : FeasibleRegion) (t : double) : double := fr_v r + longitudinal_acceleration_upper_bound * t.
Definition VLower (r : FeasibleRegion) (t : double) : double :=
  if dlt t (t_at_zero_speed_ r) then fr_v r + longitudinal_acceleration_lower_bound * t else 0.
Definition TLower (sqrt : double -> double) (r : FeasibleRegion) (s : double) : option double :=
  checked (dle (fr_s r) s)
    (let a := longitudinal_acceleration_upper_bound in
     Some ((sqrt (fr_v r * fr_v r + 2 * a * (s - fr_s r)) - fr_v r) / a)).

(** ** EndConditionSampler *)

(** Position, velocity and acceleration. *)
Definition State : Type := double * double * double.
Definition Condition : Type := State * double.

Definition SampleLatEndConditions : list Condition :=
  s ← [10; 20; 40; 80]; d ← [0; - (1 # 2); 1 # 2]; [((d, 0, 0), s)].

Definition time_samples : list double :=
  polynomial_minimal_param :: map (fun i => trajectory_time_length * (dnat i / dnat 8)) (seq 1 8).

(** The conversion of a double to size_t, defined for values above -1. *)
Definition to_size_t (q : double) : option nat := checked (dlt (-1) q) (Some (Z.to_nat (Qfloor q))).

Definition cruise_conditions_at (r : FeasibleRegion) (ref_cruise_speed time : double) : option (list Condition) :=
  let v_upper := dmin (VUpper r time) ref_cruise_speed in
  let v_lower := VLower r time in
  let v_range := v_upper - v_lower in
  n ← to_size_t (v_range / min_velocity_sample_gap);
  let num_of_mid_points := Nat.min (num_velocity_sample - 2) n in
  let velocity_seg := v_range / dnat (num_of_mid_points + 1) in
  Some ([((0, v_lower, 0), time); ((0, v_upper, 0), time)]
        ++ map (fun i => ((0, v_lower + velocity_seg * dnat i, 0), time)) (seq 1 num_of_mid_points)).
Definition SampleLonEndConditionsForCruising (r : FeasibleRegion) (ref_cruise_speed : double) : option (list Condition) :=
  l ← mapM (cruise_conditions_at r ref_cruise_speed) time_samples; Some (concat l).

Definition SampleLonEndConditionsForStopping (init_s ref_stop_point : double) : list Condition :=
  map (fun time => ((dmax init_s ref_stop_point, 0, 0), time)) time_samples.

Section sampler.
Context (project_velocity : string -> double -> double -> option double) (front_edge_to_center : double).

(** A point and its reference velocity. *)
Definition SamplePoint : Type := Vec2d * double.

Definition QueryFollowPathTimePoints (g : PathTimeGraph) (id : string) : option (list SamplePoint) :=
  points ← GetObstacleSurroundingPoints g id (- numerical_epsilon) time_min_density;
  l ← mapM (fun p =>
    v ← project_velocity id (pt_s p) (pt_t p);
    let s_upper := pt_s p - front_edge_to_center in
    let s_lower := s_upper - default_lon_buffer in
    let s_gap := default_lon_buffer / dnat (num_sample_follow_per_timestamp - 1) in
    Some (map (fun i => (STPoint (s_lower + s_gap * dnat i) (pt_t p), v)) (seq 0 num_sample_follow_per_timestamp))) points;
  Some (concat l).
Definition QueryOvertakePathTimePoints (g : PathTimeGraph) (id : string) : option (list SamplePoint) :=
  points ← GetObstacleSurroundingPoints g id numerical_epsilon time_min_density;
  mapM (fun p => v ← project_velocity id (pt_s p) (pt_t p); Some (STPoint (pt_s p + default_lon_buffer) (pt_t p), v)) points.
Definition QueryPathTimeObstacleSamplePoints (g : PathTimeGraph) : option (list SamplePoint) :=
  l ← mapM (fun b => f ← QueryFollowPathTimePoints g (id_ b); o ← QueryOvertakePathTimePoints g (id_ b); Some (f ++ o))
        (path_time_obstacles_ g);
  Some (concat l).

Definition path_time_condition (r : FeasibleRegion) (p : SamplePoint) : option (list Condition) :=
  let '(s, t) := (pt_s p.1, pt_t p.1) in
  if dlt t polynomial_minimal_param then Some []
  else
    upper ← SUpper r t;
    if dlt upper s || dlt s (SLower r t) then Some [] else Some [((s, p.2, 0), t)].
Definition SampleLonEndConditionsForPathTimePoints (r : FeasibleRegion) (g : PathTimeGraph) : option (list Condition) :=
  points ← QueryPathTimeObstacleSamplePoints g; l ← mapM (path_time_condition r) points; Some (concat l).

(** ** LatticeTrajectory1d *)

Record LatticeTrajectory1d := mkLattice {
  ptr_trajectory1d_ : Curve1d; target_position_ : option double; target_velocity_ : option double; target_time_ : option double }.

Definition Lattice_Evaluate (c : LatticeTrajectory1d) (order : nat) (param : double) : option double :=
  param_length ← ParamLength (ptr_trajectory1d_ c);
  if dlt param param_length then Evaluate (ptr_trajectory1d_ c) order param
  else
    p ← Evaluate (ptr_trajectory1d_ c) 0 param_length;
    v ← Evaluate (ptr_trajectory1d_ c) 1 param_length;
    a ← Evaluate (ptr_trajectory1d_ c) 2 param_length;
    let t := param - param_length in
    Some match order with
         | 0%nat => p + v * t + (1 # 2) * a * t * t
         | 1%nat => v + a * t
         | 2%nat => a
         | _ => 0
         end.
Definition lattice_curve (c : LatticeTrajectory1d) : Curve1d := mkCurve (Lattice_Evaluate c) (ParamLength (ptr_trajectory1d_ c)).

(** ** Trajectory1dGenerator *)

Definition bundle4 (init_state : State) (c : Condition) : option LatticeTrajectory1d :=
  let '(x0, dx0, ddx0) := init_state in
  let '((_, dx1, ddx1), param) := c in
  q ← NewQuartic_with x0 dx0 ddx0 dx1 ddx1 param;
  Some (mkLattice (curve (quartic_curve q)) None (Some dx1) (Some param)).
Definition bundle5 (init_state : State) (c : Condition) : option LatticeTrajectory1d :=
  let '(x0, dx0, ddx0) := init_state in
  let '((x1, dx1, ddx1), param) := c in
  q ← NewQuintic_with x0 dx0 ddx0 x1 dx1 ddx1 param;
  Some (mkLattice (curve (quintic_curve q)) (Some x1) (Some dx1) (Some param)).

(** Trajectories of a bundle are appended to it. *)
Definition GenerateTrajectory1DBundle (f : State -> Condition -> option LatticeTrajectory1d) (init_state : State)
    (end_conditions : list Condition) (bundle : list LatticeTrajectory1d) : option (list LatticeTrajectory1d) :=
  match end_conditions with
  | [] => None
  | _ => l ← mapM (f init_state) end_conditions; Some (bundle ++ l)
  end.
Definition GenerateSpeedProfilesForCruising (r : FeasibleRegion) (init_lon_state : State) (target_speed : double)
    (bundle : list LatticeTrajectory1d) : option (list LatticeTrajectory1d) :=
  end_conditions ← SampleLonEndConditionsForCruising r target_speed;
  match end_conditions with [] => Some bundle | _ => GenerateTrajectory1DBundle bundle4 init_lon_state end_conditions bundle end.
Definition GenerateSpeedProfilesForStopping (init_lon_state : State) (stop_point : double)
    (bundle : list LatticeTrajectory1d) : option (list LatticeTrajectory1d) :=
  let end_conditions := SampleLonEndConditionsForStopping init_lon_state.1.1 stop_point in
  match end_conditions with [] => Some bundle | _ => GenerateTrajectory1DBundle bundle5 init_lon_state end_conditions bundle end.
Definition GenerateSpeedProfilesForPathTimeObstacles (r : FeasibleRegion) (g : PathTimeGraph) (init_lon_state : State)
    (bundle : list LatticeTrajectory1d) : option (list LatticeTrajectory1d) :=
  end_conditions ← SampleLonEndConditionsForPathTimePoints r g;
  match end_conditions with [] => Some bundle | _ => GenerateTrajectory1DBundle bundle5 init_lon_state end_conditions bundle end.
Definition GenerateLongitudinalTrajectoryBundle (g : PathTimeGraph) (init_lon_state : State) (cruise_speed : double)
    (stop_point : option double) : option (list LatticeTrajectory1d) :=
  r ← NewFeasibleRegion init_lon_state.1.1 init_lon_state.1.2;
  bundle ← GenerateSpeedProfilesForCruising r init_lon_state cruise_speed [];
  bundle ← GenerateSpeedProfilesForPathTimeObstacles r g init_lon_state bundle;
  match stop_point with
  | Some s => GenerateSpeedProfilesForStopping init_lon_state s bundle
  | None => Some bundle
  end.
(** Without lateral optimisation. *)
Definition GenerateLateralTrajectoryBundle (init_lat_state : State) : option (list LatticeTrajectory1d) :=
  GenerateTrajectory1DBundle bundle5 init_lat_state SampleLatEndConditions [].
End sampler.

(** ** ConstraintChecker1d *)

Definition fuzzy_within (v lower upper : double) : bool := dlt (lower - (1 # 10000)) v && dlt v (upper + (1 # 10000)).
Definition speed_lower_bound : double := - (1 # 10).
Definition speed_upper_bound : double := 40.
Definition longitudinal_jerk_lower_bound : double := -4.
Definition longitudinal_jerk_upper_bound : double := 2.
Definition lateral_acceleration_bound : double := 4.
Definition lateral_jerk_bound : double := 4.

(** One round of the loop: is the trajectory within the bounds at this time? *)
Definition lon_sample_valid (c : Curve1d) (t : double) : option bool :=
  v ← Evaluate c 1 t;
  if negb (fuzzy_within v speed_lower_bound speed_upper_bound) then Some false
  else
    a ← Evaluate c 2 t;
    if negb (fuzzy_within a longitudinal_acceleration_lower_bound longitudinal_acceleration_upper_bound) then Some false
    else j ← Evaluate c 3 t; Some (fuzzy_within j longitudinal_jerk_lower_bound longitudinal_jerk_upper_bound).
Definition lat_sample_valid (lat lon : Curve1d) (t : double) : option bool :=
  s ← Evaluate lon 0 t;
  dd_ds ← Evaluate lat 1 s; ds_dt ← Evaluate lon 1 t;
  d2d_ds2 ← Evaluate lat 2 s; d2s_dt2 ← Evaluate lon 2 t;
  len ← ParamLength lat;
  let a := if dlt s len then d2d_ds2 * ds_dt * ds_dt + dd_ds * d2s_dt2 else 0 in
  if negb (fuzzy_within a (- lateral_acceleration_bound) lateral_acceleration_bound) then Some false
  else
    j ← (if dlt s len then x ← Evaluate lat 3 s; y ← Evaluate lon 3 t; Some (x * y) else Some 0);
    Some (fuzzy_within j (- lateral_jerk_bound) lateral_jerk_bound).

(** The loops over the times of the longitudinal trajectory, on enough fuel. *)
Fixpoint check_loop (sample : double -> option bool) (fuel : nat) (len t : double) : option bool :=
  match fuel with
  | 0%nat => None
  | S fuel =>
    if dlt t len then
      match sample t with
      | None => None
      | Some false => Some false
      | Some true => check_loop sample fuel len (t + trajectory_time_resolution)
      end
    else Some true
  end.
Definition IsValidLongitudinalTrajectory (lon : Curve1d) : option bool :=
  len ← ParamLength lon; check_loop (lon_sample_valid lon) (rounds 0 len trajectory_time_resolution) len 0.
Definition IsValidLateralTrajectory (lat lon : Curve1d) : option bool :=
  len ← ParamLength lon; check_loop (lat_sample_valid lat lon) (rounds 0 len trajectory_time_resolution) len 0.

(** ** Extrapolated trajectories are smooth *)

(** What a fitted curve is: its values are defined, and each order is the derivative of
    the one below. *)
Definition smooth_curve (c : Curve1d) (f : nat -> double -> double) (len : double) : Prop :=
  ParamLength c = Some len /\ (forall order x, Evaluate c order x = Some (f order x))
  /\ forall order x, is_derivative (f order) x (f (S order) x).

Lemma quartic_smooth q : smooth_curve (curve (quartic_curve q)) (Quartic_Evaluate q) (quartic_param_ q).
Proof. split; [done|]. split; [done|]. intros order x. apply (quartic_derivative q). Qed.
Lemma quintic_smooth q : smooth_curve (curve (quintic_curve q)) (Quintic_Evaluate q) (quintic_param_ q).
Proof. split; [done|]. split; [done|]. intros order x. apply (quintic_derivative q). Qed.

(** The value of a lattice trajectory as a function. *)
Definition lattice_value (f : nat -> double -> double) (len : double) (order : nat) (t : double) : double :=
  if dlt t len then f order t
  else let u := t - len in
       match order with
       | 0%nat => f 0%nat len + f 1%nat len * u + (1 # 2) * f 2%nat len * u * u
       | 1%nat => f 1%nat len + f 2%nat len * u
       | 2%nat => f 2%nat len
       | _ => 0
       end.
Lemma lattice_evaluates c f len order t : smooth_curve (ptr_trajectory1d_ c) f len ->
  Lattice_Evaluate c order t = Some (lattice_value f len order t).
Proof.
  intros (Hl & He & _). unfold Lattice_Evaluate, lattice_value. rewrite Hl. cbn [mbind option_bind].
  destruct (dlt t len); [apply He|]. by rewrite !He.
Qed.

(** Velocity and acceleration stay derivatives where a trajectory is extrapolated, and
    where the extrapolation begins. *)
Lemma extrapolation_is_smooth f len order t : (forall k x, is_derivative (f k) x (f (S k) x)) ->
  (forall k, Proper (Qeq ==> Qeq) (f k)) -> (order <= 1)%nat ->
  is_derivative (lattice_value f len order) t (lattice_value f len (S order) t).
Proof.
  intros Hf Hp Ho. set (ext := fun u => match order with
    | 0%nat => f 0%nat len + f 1%nat len * u + (1 # 2) * f 2%nat len * u * u
    | _ => f 1%nat len + f 2%nat len * u end).
  set (ext' := fun u => match order with 0%nat => f 1%nat len + f 2%nat len * u | _ => f 2%nat len end).
  assert (Dext : forall x, is_derivative ext x (ext' x)).
  { intros x. unfold ext, ext'. destruct order as [|[|order]]; [..|lia];
      (eapply is_derivative_eq; [reflexivity| |derive]; ring). }
  assert (Pext : Proper (Qeq ==> Qeq) ext) by (intros x y E; unfold ext; destruct order; by rewrite E).
  assert (Dr : is_derivative (fun y => ext (y - len)) t (ext' (t - len))) by (apply derive_shift; [done|apply Dext]).
  assert (E : forall x, lattice_value f len order x = if dlt x len then f order x else ext (x - len)).
  { intros x. unfold lattice_value, ext. by destruct order as [|[|order]]; [..|lia]. }
  assert (E' : lattice_value f len (S order) t = if dlt t len then f (S order) t else ext' (t - len)).
  { unfold lattice_value, ext'. by destruct order as [|[|order]]; [..|lia]. }
  rewrite E'. destruct (dlt_spec t len) as [Hlt|Hge].
  - eapply (is_derivative_near _ _ _ _ ((len - t) * (1 # 2))); [lra| |apply Hf].
    intros y Hy%Qabs_Qle_condition. rewrite E. destruct (dlt_spec y len); [reflexivity|lra].
  - apply Qnot_lt_le in Hge. destruct (Qlt_le_dec len t) as [Hlt|Hle].
    + eapply (is_derivative_near _ _ _ _ (t - len)); [lra| |exact Dr].
      intros y Hy%Qabs_Qle_condition. rewrite E. destruct (dlt_spec y len); [lra|reflexivity].
    + assert (Et : t == len) by lra.
      eapply (is_derivative_join _ (f order) (fun y => ext (y - len)) t _); [..|exact Dr].
      * intros y Hy. rewrite E. destruct (dlt_spec y len); [reflexivity|].
        assert (Ey : y == len) by lra. pose proof (Hp order y len Ey) as Ef. cbn beta in Ef.
        unfold ext. destruct order as [|[|order]]; [..|lia]; rewrite Ef, Ey; ring.
      * intros y Hy. rewrite E. destruct (dlt_spec y len); [lra|reflexivity].
      * eapply is_derivative_eq; [reflexivity| |apply (Hf order t)].
        pose proof (Hp (S order) t len Et) as Ef. unfold ext'. destruct order as [|[|order]]; [..|lia]; rewrite Ef, ?Et; ring.
Qed.

#[export] Instance quartic_proper q k : Proper (Qeq ==> Qeq) (Quartic_Evaluate q k).
Proof. intros x y E. unfold Quartic_Evaluate. do 5 (destruct k as [|k]; [by rewrite ?E|]). done. Qed.
#[export] Instance quintic_proper q k : Proper (Qeq ==> Qeq) (Quintic_Evaluate q k).
Proof. intros x y E. unfold Quintic_Evaluate. do 6 (destruct k as [|k]; [by rewrite ?E|]). done. Qed.

(** ** Stopping *)

Lemma time_samples_pos : Forall (fun t => 0 < t) time_samples.
Proof. repeat constructor. Qed.

(** A trajectory starts in a state; from a time on it rests at a position. *)
Definition starts_in (c : LatticeTrajectory1d) (x : State) : Prop :=
  exists p v a, Lattice_Evaluate c 0 0 = Some p /\ Lattice_Evaluate c 1 0 = Some v /\ Lattice_Evaluate c 2 0 = Some a
  /\ p == x.1.1 /\ v == x.1.2 /\ a == x.2.
Definition rests_at (c : LatticeTrajectory1d) (t0 s : double) : Prop :=
  forall t, t0 <= t -> exists p v a, Lattice_Evaluate c 0 t = Some p /\ Lattice_Evaluate c 1 t = Some v
  /\ Lattice_Evaluate c 2 t = Some a /\ p == s /\ v == 0 /\ a == 0.

Lemma bundle5_stops x s t : 0 < t -> exists c, bundle5 x ((s, 0, 0), t) = Some c
  /\ ParamLength (ptr_trajectory1d_ c) = Some t /\ starts_in c x /\ rests_at c t s.
Proof.
  intros Ht. destruct x as [[x0 dx0] ddx0]. unfold bundle5.
  destruct (quintic_fits x0 dx0 ddx0 s 0 0 t Ht) as (q & Hq & Hp & E0 & E1 & E2 & F0 & F1 & F2).
  rewrite Hq. cbn [mbind option_bind].
  set (c := mkLattice (curve (quintic_curve q)) (Some s) (Some 0) (Some t)). exists c. split; [reflexivity|].
  assert (Hsm : smooth_curve (ptr_trajectory1d_ c) (Quintic_Evaluate q) t) by (rewrite <- Hp; apply quintic_smooth).
  split; [apply Hsm|]. split.
  - eexists _, _, _. rewrite !(lattice_evaluates _ _ _ _ _ Hsm). repeat (split; [reflexivity|]). unfold lattice_value.
    destruct (dlt_spec 0 t); [|lra]. done.
  - intros u Hu. eexists _, _, _. rewrite !(lattice_evaluates _ _ _ _ _ Hsm). repeat (split; [reflexivity|]). unfold lattice_value.
    destruct (dlt_spec u t); [lra|]. cbv zeta. rewrite F0, F1, F2. repeat split; ring.
Qed.

Lemma mapM_all {A B} (f : A -> option B) (P : B -> Prop) l : Forall (fun x => exists y, f x = Some y /\ P y) l ->
  exists k, mapM f l = Some k /\ length k = length l /\ Forall P k.
Proof.
  induction 1 as [|x l (y & Hy & HP) H IH]; [by exists []|]. destruct IH as (k & Hk & Hlen & Hf).
  exists (y :: k). cbn. rewrite Hy. cbn. rewrite Hk. split; [done|]. split; [by rewrite <- Hlen|by constructor].
Qed.

(** The trajectories sampled for a stop bring the vehicle to rest at the stop point:
    from any state, nine trajectories are added to the bundle, each starts in that state
    and, at the end of the planning time at the latest, stands at the stop point (or where
    the vehicle is, if the point lies behind) with velocity and acceleration zero, and
    stays there. *)
Theorem stopping_bundle_rests_at_the_stop (x : State) (stop : double) (bundle : list LatticeTrajectory1d) :
  exists l, GenerateSpeedProfilesForStopping x stop bundle = Some (bundle ++ l) /\ length l = 9%nat
  /\ Forall (fun c => starts_in c x /\ rests_at c trajectory_time_length (dmax x.1.1 stop)) l.
Proof.
  unfold GenerateSpeedProfilesForStopping, SampleLonEndConditionsForStopping.
  set (s := dmax x.1.1 stop). set (conditions := map (fun time => ((s, 0, 0), time)) time_samples).
  destruct (mapM_all (bundle5 x) (fun c => starts_in c x /\ rests_at c trajectory_time_length s) conditions) as (l & Hl & Hlen & Hf).
  { unfold conditions. apply Forall_map.
    assert (Hmax : Forall (fun t => 0 < t /\ t <= trajectory_time_length) time_samples) by (repeat constructor; by vm_compute).
    eapply Forall_impl; [exact Hmax|]. intros t [Ht Hle]. cbn beta.
    destruct (bundle5_stops x s t Ht) as (c & Hc & _ & Hst & Hr). exists c. split; [done|]. split; [done|].
    intros u Hu. apply Hr. lra. }
  exists l. split; [|done]. unfold GenerateTrajectory1DBundle. unfold conditions, time_samples in *. cbn [map] in *.
  by rewrite Hl.
Qed.

(** ** Samples for cruising *)

Lemma vlower_le_vupper s v r t : NewFeasibleRegion s v = Some r -> 0 <= t -> 0 <= VLower r t /\ VLower r t <= VUpper r t.
Proof.
  unfold NewFeasibleRegion, checked. destruct (dle_spec 0 v) as [Hv|]; [|done]. intros [= <-] Ht.
  unfold VLower, VUpper, longitudinal_acceleration_upper_bound. cbn [fr_v t_at_zero_speed_].
  set (d := - longitudinal_acceleration_lower_bound).
  assert (Hd : 0 < d) by reflexivity. assert (Ed : longitudinal_acceleration_lower_bound == - d) by reflexivity.
  destruct (dlt_spec t (v / d)) as [Hlt|]; [|lra].
  assert (t * d < v). { pose proof (quot_mult v d Hd) as E. nra. }
  rewrite Ed. split; nra.
Qed.

(** When the cruise speed can be reached from below, every sampled end condition has a
    velocity the vehicle can have at its time, at most the cruise speed, and is sampled. *)
Lemma cruise_samples_are_feasible s v r cruise t : NewFeasibleRegion s v = Some r -> 0 <= t -> VLower r t <= cruise ->
  exists l, cruise_conditions_at r cruise t = Some l /\ (2 <= length l <= num_velocity_sample)%nat
  /\ Forall (fun c => c.2 = t /\ c.1.2 = 0 /\ VLower r t <= c.1.1.2 /\ c.1.1.2 <= dmin (VUpper r t) cruise) l.
Proof.
  intros Hr Ht Hc. destruct (vlower_le_vupper s v r t Hr Ht) as [_ Hlu].
  unfold cruise_conditions_at. set (lo := VLower r t) in *. set (up := dmin (VUpper r t) cruise).
  assert (Hup : lo <= up) by (unfold up; dcase; lra).
  assert (Hq : 0 <= (up - lo) / min_velocity_sample_gap) by (apply quot_nonneg; [reflexivity|lra]).
  unfold to_size_t, checked. destruct (dlt_spec (-1) ((up - lo) / min_velocity_sample_gap)); [|lra]. cbn [mbind option_bind].
  set (n := Nat.min (num_velocity_sample - 2) _). eexists. split; [reflexivity|].
  assert (Hn : (n <= 4)%nat) by (unfold n, num_velocity_sample; lia).
  split; [rewrite length_app, length_map, length_seq; unfold num_velocity_sample; simpl; lia|].
  apply Forall_app. split; [repeat constructor; simpl; lra|]. apply Forall_map, Forall_forall. intros i [Hi1 Hi2]%elem_of_seq.
  simpl. repeat split.
  all: assert (Hi : 0 <= dnat i /\ dnat i <= dnat (n + 1)) by (unfold dnat; rewrite <- !Zle_Qle; change 0 with (inject_Z 0); rewrite <- Zle_Qle; lia).
  all: assert (Hpos : 0 < dnat (n + 1)) by (unfold dnat; change 0 with (inject_Z 0); rewrite <- Zlt_Qlt; lia).
  all: pose proof (quot_mult (up - lo) (dnat (n + 1)) Hpos) as Hm; pose proof (quot_nonneg (up - lo) (dnat (n + 1)) Hpos ltac:(lra)); nra.
Qed.

(** A vehicle faster than the cruise speed has a negative range of velocities, whose
    number of samples is a conversion the language does not define. *)
Example too_fast_to_cruise : exists r, NewFeasibleRegion 0 15 = Some r /\ SampleLonEndConditionsForCruising r 5 = None.
Proof. eexists. split; [reflexivity|]. vm_compute. reflexivity. Qed.

(** ** The feasible region *)

Definition acceleration_allowed (a : double) : Prop :=
  longitudinal_acceleration_lower_bound <= a /\ a <= longitudinal_acceleration_upper_bound.

(** Position and velocity at a time are inside the region. *)
Definition within (r : FeasibleRegion) (s v t : double) : Prop :=
  0 <= t /\ 0 <= v /\ VLower r t <= v /\ v <= VUpper r t
  /\ SLower r t <= s /\ s <= fr_s r + fr_v r * t + (1 # 2) * longitudinal_acceleration_upper_bound * t * t.

Lemma step_upper (v0 A t v a d s s0 : Q) : 0 <= d -> v <= v0 + A * t -> a <= A ->
  s <= s0 + v0 * t + (1 # 2) * A * t * t ->
  v + a * d <= v0 + A * (t + d)
  /\ s + (v + (v + a * d)) * d * (1 # 2) <= s0 + v0 * (t + d) + (1 # 2) * A * (t + d) * (t + d).
Proof.
  intros Hd Hv Ha Hs. assert (a * d <= A * d) by nra. assert (v * d <= (v0 + A * t) * d) by nra.
  assert (a * d * d <= A * d * d) by nra. split; nra.
Qed.

(** One segment of constant acceleration cannot leave the lower border: D is the largest
    deceleration and e the time of standstill. *)
Lemma step_lower (v0 D t v a d s s0 e : Q) : 0 < D -> D * e == v0 -> 0 <= t -> 0 <= d -> 0 <= v -> 0 <= v + a * d -> - D <= a ->
  (if dlt t e then v0 + - D * t else 0) <= v ->
  (if dlt t e then s0 + v0 * t + (1 # 2) * - D * t * t else s0 + v0 * v0 / (2 * D)) <= s ->
  (if dlt (t + d) e then v0 + - D * (t + d) else 0) <= v + a * d
  /\ (if dlt (t + d) e then s0 + v0 * (t + d) + (1 # 2) * - D * (t + d) * (t + d) else s0 + v0 * v0 / (2 * D))
     <= s + (v + (v + a * d)) * d * (1 # 2).
Proof.
  intros HD He Ht Hd Hv Hv1 Ha Hvl Hsl.
  assert (Had : - (D * d) <= a * d) by nra.
  assert (E2 : v0 * v0 / (2 * D) == (1 # 2) * D * e * e) by (rewrite <- He; field; lra).
  destruct (dlt_spec (t + d) e) as [Hlt|Hge]; destruct (dlt_spec t e) as [Hlt'|Hge']; try lra.
  - assert ((v0 + - D * t) * d <= v * d) by nra. assert (- (D * d) * d <= a * d * d) by nra.
    split; nra.
  - split; [done|]. rewrite E2 in *. apply Qnot_lt_le in Hge.
    set (u := e - t). assert (Hu : 0 < u) by (unfold u; lra). assert (Hud : u <= d) by (unfold u; lra).
    assert (Hv' : D * u <= v) by (unfold u; lra).
    assert (Hmain : (1 # 2) * D * u * u <= (v + (v + a * d)) * d * (1 # 2)).
    { assert (D * u * u <= v * u) by nra. assert (v * u <= v * d) by nra.
      assert (0 <= (v + a * d) * d) by nra. nra. }
    unfold u in Hmain. rewrite <- He in *. nra.
  - split; [done|]. assert (0 <= (v + (v + a * d)) * d * (1 # 2)) by nra. lra.
Qed.

Lemma within_step r s0 v0 s v t a d : NewFeasibleRegion s0 v0 = Some r -> within r s v t ->
  acceleration_allowed a -> 0 <= d -> 0 <= v + a * d -> within r (s + (v + (v + a * d)) * d * (1 # 2)) (v + a * d) (t + d).
Proof.
  unfold NewFeasibleRegion, checked. destruct (dle_spec 0 v0) as [Hv0|]; [|done]. intros [= <-].
  unfold within, acceleration_allowed, SLower, VLower, VUpper. cbn [fr_s fr_v t_at_zero_speed_ s_at_zero_speed_].
  set (D := - longitudinal_acceleration_lower_bound).
  assert (HD : 0 < D) by reflexivity. assert (ED : longitudinal_acceleration_lower_bound == - D) by reflexivity.
  intros (Ht & Hv & Hvl & Hvu & Hsl & Hsu) [Ha1 Ha2] Hd Hv1.
  destruct (step_upper v0 longitudinal_acceleration_upper_bound t v a d s s0 Hd Hvu Ha2 Hsu) as [U1 U2].
  assert (Hvl' : (if dlt t (v0 / D) then v0 + - D * t else 0) <= v) by (destruct (dlt t (v0 / D)); [rewrite <- ED|]; done).
  assert (Hsl' : (if dlt t (v0 / D) then s0 + v0 * t + (1 # 2) * - D * t * t else s0 + v0 * v0 / (2 * D)) <= s)
    by (destruct (dlt t (v0 / D)); [rewrite <- ED|]; done).
  destruct (step_lower v0 D t v a d s s0 (v0 / D) HD (quot_mult v0 D HD) Ht Hd Hv Hv1 ltac:(rewrite <- ED; done) Hvl' Hsl') as [L1 L2].
  split; [lra|]. split; [done|]. split; [destruct (dlt (t + d) (v0 / D)); [rewrite ED|]; done|]. split; [lra|].
  split; [destruct (dlt (t + d) (v0 / D)); [rewrite ED|]; done|]. done.
Qed.

(** Motions from position [s0] with velocity [v0]: pieces of constant allowed acceleration
    without driving backwards. *)
Inductive driven (s0 v0 : double) : double -> double -> double -> Prop :=
| driven_start : driven s0 v0 s0 v0 0
| driven_segment s v t a d : driven s0 v0 s v t -> acceleration_allowed a -> 0 <= d -> 0 <= v + a * d ->
    driven s0 v0 (s + (v + (v + a * d)) * d * (1 # 2)) (v + a * d) (t + d).

(** C40. The feasible region of the end condition sampler is what the vehicle can reach:
    every motion made of pieces of allowed constant acceleration, never backwards, is at
    every time between SLower and SUpper with a velocity between VLower and VUpper, and
    for every time there are motions that attain SUpper and SLower. *)
Theorem feasible_region_is_reachable (s0 v0 : double) (r : FeasibleRegion) (Hr : NewFeasibleRegion s0 v0 = Some r) :
  (forall s v t, driven s0 v0 s v t ->
     exists upper, SUpper r t = Some upper /\ SLower r t <= s /\ s <= upper /\ VLower r t <= v /\ v <= VUpper r t)
  /\ forall t, 0 <= t ->
       (exists s v t' upper, driven s0 v0 s v t' /\ t' == t /\ SUpper r t = Some upper /\ s == upper)
       /\ (exists s v t', driven s0 v0 s v t' /\ t' == t /\ s == SLower r t).
Proof.
  pose proof Hr as Hr'. unfold NewFeasibleRegion, checked in Hr'. destruct (dle_spec 0 v0) as [Hv0|]; [|done].
  injection Hr' as Er. set (D := - longitudinal_acceleration_lower_bound) in *.
  assert (HD : 0 < D) by reflexivity. pose proof (quot_mult v0 D HD) as He. pose proof (quot_nonneg v0 D HD Hv0) as He0.
  split.
  - assert (Hw : forall s v t, driven s0 v0 s v t -> within r s v t).
    { induction 1 as [|s v t a d H IH Ha Hd Hv]; [|by eapply within_step].
      subst r. unfold within, SLower, VLower, VUpper. cbn [fr_s fr_v t_at_zero_speed_ s_at_zero_speed_].
      split; [lra|]. split; [done|]. destruct (dlt_spec 0 (v0 / D)) as [Hlt|Hge]; [repeat split; lra|].
      apply Qnot_lt_le in Hge. assert (E : v0 == 0) by (rewrite <- He; setoid_replace (v0 / D) with 0 by lra; ring).
      repeat split; try lra. unfold Qdiv. rewrite E. lra. }
    intros s v t H. destruct (Hw s v t H) as (Ht & Hv & Hvl & Hvu & Hsl & Hsu).
    eexists. unfold SUpper, checked. destruct (dle_spec 0 t); [|done]. done.
  - intros t Ht. split.
    + eexists _, _, _, _. split; [apply (driven_segment s0 v0 _ _ _ longitudinal_acceleration_upper_bound t (driven_start s0 v0))|].
      1:{ split; by vm_compute. } 1: done. 1:{ unfold longitudinal_acceleration_upper_bound. lra. }
      split; [ring|]. unfold SUpper, checked. destruct (dle_spec 0 t); [|done]. split; [reflexivity|].
      subst r. cbn [fr_s fr_v]. ring.
    + subst r. unfold SLower. cbn [fr_s fr_v t_at_zero_speed_ s_at_zero_speed_].
      assert (Ha : acceleration_allowed (- D)) by (split; by vm_compute).
      destruct (dlt_spec t (v0 / D)) as [Hlt|Hge].
      * assert (D * t < D * (v0 / D)) by nra.
        eexists _, _, _. split; [apply (driven_segment s0 v0 _ _ _ (- D) t (driven_start s0 v0)); [done..|lra]|].
        split; [ring|]. change longitudinal_acceleration_lower_bound with (- (9 # 2)). change D with (9 # 2). ring.
      * apply Qnot_lt_le in Hge.
        eexists _, _, _. split.
        { apply (driven_segment s0 v0 _ _ _ 0 (t - v0 / D)
            (driven_segment s0 v0 _ _ _ (- D) (v0 / D) (driven_start s0 v0) Ha He0 ltac:(lra)));
            [split; by vm_compute|lra|lra]. }
        split; [ring|]. setoid_replace (v0 + - D * (v0 / D)) with 0 by lra. field. lra.
Qed.

Lemma feasible_region_is_reachable_witness :
  exists r, NewFeasibleRegion 10 9 = Some r /\ SLower r 4 == 19
  /\ (exists s v t', driven 10 9 s v t' /\ t' == 4 /\ s == SLower r 4).
Proof.
  eexists. split; [reflexivity|]. split; [reflexivity|].
  match goal with |- context [SLower ?r] =>
    exact (proj2 (proj2 (feasible_region_is_reachable 10 9 r eq_refl) 4 ltac:(by vm_compute))) end.
Defined.

(** ** Obstacles and the sampler *)

(** A graph with an obstacle makes the sampler read a corner that is not there. *)
Lemma obstacle_stops_the_sampler `{HashOrder} frenet width project front obstacles s0 s1 t0 t1 d g id x cruise stop :
  s0 < s1 -> t0 < t1 -> NewPathTimeGraph frenet width obstacles s0 s1 t0 t1 d = Some g ->
  IsObstacleInGraph g id = true -> GenerateLongitudinalTrajectoryBundle project front g x cruise stop = None.
Proof.
  intros Hs Ht Hg Hid. destruct (setup_is_total frenet width obstacles s0 s1 t0 t1 d Hs Ht) as (g' & Hg' & _ & Hf & _ & Hin).
  rewrite Hg in Hg'. injection Hg' as <-. apply bool_decide_eq_true_1 in Hid. destruct (Hin id Hid) as (b & Hb & _).
  assert (Hq : QueryPathTimeObstacleSamplePoints project front g = None).
  { unfold QueryPathTimeObstacleSamplePoints. destruct (path_time_obstacles_ g) as [|b' l]; [by apply not_elem_of_nil in Hb|].
    apply Forall_cons in Hf as [((Hu & Hl & _) & Hm) _]. cbn.
    assert (E : QueryFollowPathTimePoints project front g (id_ b') = None); [|by rewrite E].
    unfold QueryFollowPathTimePoints, GetObstacleSurroundingPoints. rewrite Hm.
    unfold bottom_left_point. rewrite Hl. done. }
  unfold GenerateLongitudinalTrajectoryBundle. destruct (NewFeasibleRegion _ _) as [r|]; [|done]. cbn [mbind option_bind].
  destruct (GenerateSpeedProfilesForCruising _ _ _ _) as [bundle|]; [|done]. cbn [mbind option_bind].
  unfold GenerateSpeedProfilesForPathTimeObstacles, SampleLonEndConditionsForPathTimePoints. by rewrite Hq.
Qed.

(** ** Constraints *)

(** The times of the loop. *)
Definition tick (k : nat) (t : double) : double := Nat.iter k (fun t => t + trajectory_time_resolution) t.

(** The loop of the checkers ends and accepts exactly when every sampled time before the
    end of the trajectory is within the bounds. *)
Lemma tick_value k t : tick k t == t + dnat k * trajectory_time_resolution.
Proof. unfold tick. induction k as [|k IH]; simpl; [change (dnat 0) with 0; ring|]. rewrite IH, dnat_S. ring. Qed.
Lemma check_loop_spec sample ok len n : forall t, len <= t + dnat n * trajectory_time_resolution ->
  (forall x, sample x = Some (ok x)) ->
  exists b, check_loop sample (S n) len t = Some b /\ (b = true <-> forall k, tick k t < len -> ok (tick k t) = true).
Proof.
  assert (Hover : forall t k, len <= t -> ~ tick k t < len).
  { intros t k Hle. pose proof (tick_value k t) as E. rewrite E.
    assert (0 <= dnat k) by (unfold dnat; change 0 with (inject_Z 0); rewrite <- Zle_Qle; lia).
    assert (0 < trajectory_time_resolution) by reflexivity. nra. }
  induction n as [|n IH]; intros t Hlen Hs.
  - change (dnat 0) with 0 in Hlen. cbn [check_loop]. destruct (dlt_spec t len); [lra|]. exists true. split; [done|].
    split; [|done]. intros _ k Hk. exfalso. apply (Hover t k); [lra|done].
  - assert (Hlen' : len <= t + trajectory_time_resolution + dnat n * trajectory_time_resolution).
    { pose proof (dnat_S n) as E. rewrite E in Hlen. lra. }
    destruct (IH _ Hlen' Hs) as (b & Hb & Hiff). clear IH Hlen Hlen'. remember (S n) as m eqn:Em. clear Em n.
    cbn [check_loop]. destruct (dlt_spec t len) as [Hlt|Hge].
    + rewrite Hs. destruct (ok t) eqn:Eok.
      * exists b. split; [done|]. rewrite Hiff. split; intros H [|k] Hk; [done| |apply (H 1%nat)|].
        -- revert Hk. unfold tick. rewrite Nat.iter_succ_r. apply H.
        -- done.
        -- specialize (H (S (S k))). unfold tick in *. rewrite Nat.iter_succ_r in H. by apply H.
      * exists false. split; [done|]. split; [done|]. intros H. specialize (H 0%nat Hlt). simpl in H. congruence.
    + exists true. split; [done|]. split; [|done]. intros _ k Hk. exfalso. apply (Hover t k); [lra|done].
Qed.

(** A longitudinal trajectory is accepted exactly when speed, acceleration and jerk are
    within their bounds, up to 0.0001, at each multiple of a tenth of a second before its
    end. *)
Lemma longitudinal_check_spec c f len : ParamLength c = Some len -> (forall order x, Evaluate c order x = Some (f order x)) ->
  exists b, IsValidLongitudinalTrajectory c = Some b
  /\ (b = true <-> forall k, tick k 0 < len ->
        fuzzy_within (f 1%nat (tick k 0)) speed_lower_bound speed_upper_bound = true
        /\ fuzzy_within (f 2%nat (tick k 0)) longitudinal_acceleration_lower_bound longitudinal_acceleration_upper_bound = true
        /\ fuzzy_within (f 3%nat (tick k 0)) longitudinal_jerk_lower_bound longitudinal_jerk_upper_bound = true).
Proof.
  intros Hlen He. unfold IsValidLongitudinalTrajectory. rewrite Hlen. cbn [mbind option_bind].
  destruct (rounds_enough 0 len trajectory_time_resolution) as (n & -> & Hn); [reflexivity|].
  set (ok := fun t => fuzzy_within (f 1%nat t) speed_lower_bound speed_upper_bound
    && fuzzy_within (f 2%nat t) longitudinal_acceleration_lower_bound longitudinal_acceleration_upper_bound
    && fuzzy_within (f 3%nat t) longitudinal_jerk_lower_bound longitudinal_jerk_upper_bound).
  destruct (check_loop_spec (lon_sample_valid c) ok len n 0 Hn) as (b & Hb & Hiff).
  { intros x. unfold lon_sample_valid, ok. rewrite !He. cbn [mbind option_bind].
    destruct (fuzzy_within (f 1%nat x) _ _); [|done]. cbn [negb andb]. by destruct (fuzzy_within (f 2%nat x) _ _). }
  exists b. split; [done|]. rewrite Hiff. unfold ok.
  split; intros H k Hk; specialize (H k Hk).
  - by apply andb_true_iff in H as [[? ?]%andb_true_iff ?].
  - destruct H as (-> & -> & ->). done.
Qed.
