(* ===== verification/LruCache.v ===== *)
(** LruCache.v -- src/src/apollo/modules/common/util/lru_cache.h

    A bounded cache: a hash map of nodes that are doubly linked, most recently used
    first, between the members head_ and tail_.  A pointer is the address of one of
    these or of the node of a key; [None] is nullptr.  Nodes of an unordered_map do
    not move. *)

From S2P Require Import Prelude.
Local Open Scope Z_scope.

Section lru.
Context {K : Type} `{Countable K} {V : Type}.

Inductive Ptr := PHead | PTail | PKey (k : K).
#[export] Instance ptr_eq : EqDecision Ptr.
Proof. solve_decision. Defined.

Record Node := mkNode { key : K; val : V; prev : option Ptr; next : option Ptr }.
Record LRUCache := mkLRU {
  capacity_ : Z;
  size_ : Z;
  map_ : gmap K Node;
  head_prev : option Ptr; head_next : option Ptr;
  tail_prev : option Ptr; tail_next : option Ptr
}.

Definition Init (c : LRUCache) : LRUCache := mkLRU (capacity_ c) 0 (map_ c) None (Some PTail) (Some PHead) None.
Definition NewLRU (capacity : Z) : LRUCache := Init (mkLRU capacity 0 ∅ None None None None).

(** Member access through a pointer. *)
Definition nxt (c : LRUCache) (p : Ptr) : option Ptr :=
  match p with PHead => head_next c | PTail => tail_next c | PKey k => match map_ c !! k with Some n => next n | None => None end end.
Definition prv (c : LRUCache) (p : Ptr) : option Ptr :=
  match p with PHead => head_prev c | PTail => tail_prev c | PKey k => match map_ c !! k with Some n => prev n | None => None end end.
Definition set_next (c : LRUCache) (p : Ptr) (q : option Ptr) : LRUCache :=
  match p with
  | PHead => mkLRU (capacity_ c) (size_ c) (map_ c) (head_prev c) q (tail_prev c) (tail_next c)
  | PTail => mkLRU (capacity_ c) (size_ c) (map_ c) (head_prev c) (head_next c) (tail_prev c) q
  | PKey k => mkLRU (capacity_ c) (size_ c) (alter (fun n => mkNode (key n) (val n) (prev n) q) k (map_ c))
                (head_prev c) (head_next c) (tail_prev c) (tail_next c)
  end.
Definition set_prev (c : LRUCache) (p : Ptr) (q : option Ptr) : LRUCache :=
  match p with
  | PHead => mkLRU (capacity_ c) (size_ c) (map_ c) q (head_next c) (tail_prev c) (tail_next c)
  | PTail => mkLRU (capacity_ c) (size_ c) (map_ c) (head_prev c) (head_next c) q (tail_next c)
  | PKey k => mkLRU (capacity_ c) (size_ c) (alter (fun n => mkNode (key n) (val n) q (next n)) k (map_ c))
                (head_prev c) (head_next c) (tail_prev c) (tail_next c)
  end.
Definition set_size (c : LRUCache) (s : Z) : LRUCache :=
  mkLRU (capacity_ c) s (map_ c) (head_prev c) (head_next c) (tail_prev c) (tail_next c).
Definition set_map (c : LRUCache) (m : gmap K Node) : LRUCache :=
  mkLRU (capacity_ c) (size_ c) m (head_prev c) (head_next c) (tail_prev c) (tail_next c).

Definition Detach (c : LRUCache) (node : Ptr) : LRUCache :=
  let c := match prv c node with Some p => set_next c p (nxt c node) | None => c end in
  let c := match nxt c node with Some n => set_prev c n (prv c node) | None => c end in
  let c := set_next (set_prev c node None) node None in
  set_size c (u64 (size_ c - 1)).

Definition Attach (c : LRUCache) (node : Ptr) : LRUCache :=
  let c := set_prev c node (Some PHead) in
  let c := set_next c node (head_next c) in
  let c := set_next c PHead (Some node) in
  let c := match nxt c node with Some n => set_prev c n (Some node) | None => c end in
  set_size c (u64 (size_ c + 1)).

Definition Full (c : LRUCache) : bool := (0 <? size_ c) && (capacity_ c <=? size_ c).
Definition Empty (c : LRUCache) : bool := size_ c =? 0.
Definition Contains (c : LRUCache) (k : K) : bool := bool_decide (is_Some (map_ c !! k)).

(** The evicted key, when there is one; a null or wrong tail pointer is undefined
    behaviour and gives nothing here. *)
Definition GetObsolete (c : LRUCache) : option K * LRUCache :=
  if Full c then
    match tail_prev c with
    | Some (PKey k) =>
        match map_ c !! k with
        | Some n => let c := Detach c (PKey k) in (Some (key n), set_map c (delete (key n) (map_ c)))
        | None => (None, c)
        end
    | _ => (None, c)
    end
  else (None, c).

(** The private Update.  [obs] tells whether the pointer to the evicted key is given
    (not null); the result has what is stored through it, if anything is. *)
Definition Update_ (c : LRUCache) (k : K) (v : V) (obs add_only silent_update : bool) : bool * option K * LRUCache :=
  if negb obs then (false, None, c)
  else if Contains c k then
    if add_only then (true, None, c)
    else
      let c := set_map c (alter (fun n => mkNode (key n) v (prev n) (next n)) k (map_ c)) in
      if silent_update then (false, None, c) else (true, None, Attach (Detach c (PKey k)) (PKey k))
  else
    let '(failed, evicted, c) :=
      if Full c then match GetObsolete c with (Some j, c) => (false, Some j, c) | (None, c) => (true, None, c) end else (false, None, c) in
    if (failed : bool) then (false, None, c)
    else
      let c := set_map c (<[k := mkNode k v None None]> (map_ c)) in
      (true, evicted, Attach c (PKey k)).

(** The callers that keep the evicted key in a variable of their own. *)
Definition returned (r : bool * option K * LRUCache) : bool * LRUCache := (r.1.1, r.2).
Definition Put (c : LRUCache) (k : K) (v : V) : bool * LRUCache := returned (Update_ c k v true false false).
Definition Update (c : LRUCache) (k : K) (v : V) : bool * LRUCache :=
  if negb (Contains c k) then (false, c) else returned (Update_ c k v true true false).
Definition UpdateSilently (c : LRUCache) (k : K) (v : V) : bool * LRUCache :=
  if negb (Contains c k) then (false, c) else returned (Update_ c k v true true true).
Definition Add (c : LRUCache) (k : K) (v : V) : bool * LRUCache := returned (Update_ c k v true true false).
Definition PutAndGetObsolete (c : LRUCache) (k : K) (v : V) (obs : bool) : bool * option K * LRUCache := Update_ c k v obs false false.
Definition AddAndGetObsolete (c : LRUCache) (k : K) (v : V) (obs : bool) : bool * option K * LRUCache := Update_ c k v obs true false.

Definition Get_ (c : LRUCache) (k : K) (silent : bool) : option V * LRUCache :=
  if Contains c k then
    let c := if silent then c else Attach (Detach c (PKey k)) (PKey k) in
    (val <$> map_ c !! k, c)
  else (None, c).
Definition Get (c : LRUCache) (k : K) : option V * LRUCache := Get_ c k false.
Definition GetSilently (c : LRUCache) (k : K) : option V * LRUCache := Get_ c k true.

(** GetCopy; the result is what is stored through the pointer when it returns true. *)
Definition GetCopy_ (c : LRUCache) (k : K) (silent : bool) : option V * LRUCache :=
  if Contains c k then
    let c := if silent then c else Attach (Detach c (PKey k)) (PKey k) in
    (val <$> map_ c !! k, c)
  else (None, c).
Definition GetCopy (c : LRUCache) (k : K) : option V * LRUCache := GetCopy_ c k false.
Definition GetCopySilently (c : LRUCache) (k : K) : option V * LRUCache := GetCopy_ c k true.

(** GetCache writes every entry over what the given map has. *)
Definition GetCache (c : LRUCache) (cache : gmap K V) : gmap K V := (val <$> map_ c) ∪ cache.
Definition First (c : LRUCache) : option Ptr := if 0 <? size_ c then head_next c else None.

Definition Prioritize (c : LRUCache) (k : K) : bool * LRUCache :=
  if Contains c k then (true, Attach (Detach c (PKey k)) (PKey k)) else (false, c).

Definition Clear (c : LRUCache) : LRUCache := Init (set_map c ∅).

(** operator[]; [dk] and [dv] are the default key and value. *)
Definition index (dk : K) (dv : V) (c : LRUCache) (k : K) : V * LRUCache :=
  let c := if Contains c k then c else snd (GetObsolete c) in
  match map_ c !! k with
  | Some n => (val n, c)
  | None => (dv, set_map c (<[k := mkNode dk dv None None]> (map_ c)))
  end.

(** ** Links *)

(** What the nodes hold, without their links. *)
Definition data (c : LRUCache) (k : K) : option (K * V) := (fun n => (key n, val n)) <$> map_ c !! k.
Definition valid (c : LRUCache) (p : Ptr) : Prop := match p with PKey k => is_Some (map_ c !! k) | _ => True end.

Lemma valid_data c p : valid c p <-> match p with PKey k => is_Some (data c k) | _ => True end.
Proof. destruct p; simpl; [done|done|]. unfold data. by rewrite fmap_is_Some. Qed.

Lemma lookup_alter_links (f : Node -> Node) (m : gmap K Node) k j :
  (forall n, key (f n) = key n /\ val (f n) = val n) ->
  (fun n => (key n, val n)) <$> alter f k m !! j = (fun n => (key n, val n)) <$> m !! j.
Proof.
  intros Hf. destruct (decide (j = k)) as [->|Hne]; [|by rewrite lookup_alter_ne].
  rewrite lookup_alter_eq. destruct (m !! k) as [n|]; [|done]. simpl. by destruct (Hf n) as [-> ->].
Qed.

Lemma set_next_data c p q k : data (set_next c p q) k = data c k.
Proof. destruct p; try done. unfold data. simpl. by apply lookup_alter_links. Qed.
Lemma set_prev_data c p q k : data (set_prev c p q) k = data c k.
Proof. destruct p; try done. unfold data. simpl. by apply lookup_alter_links. Qed.
Lemma valid_ext c c' p : (forall k, data c' k = data c k) -> valid c p -> valid c' p.
Proof. intros E. rewrite !valid_data. destruct p; [done|done|by rewrite E]. Qed.

Lemma nxt_set_next c p q r : valid c p -> nxt (set_next c p q) r = if decide (r = p) then q else nxt c r.
Proof.
  intros Hv. destruct (decide (r = p)) as [->|Hne]; destruct p as [| |k]; simpl in *; try done.
  - destruct Hv as [n Hn]. by rewrite lookup_alter_eq, Hn.
  - by destruct r.
  - by destruct r.
  - destruct r as [| |j]; try done. simpl. rewrite lookup_alter_ne; [done|congruence].
Qed.
Lemma prv_set_next c p q r : prv (set_next c p q) r = prv c r.
Proof.
  destruct p as [| |k], r as [| |j]; try done. simpl. destruct (decide (j = k)) as [->|Hne]; [|by rewrite lookup_alter_ne].
  rewrite lookup_alter_eq. by destruct (map_ c !! k).
Qed.
Lemma prv_set_prev c p q r : valid c p -> prv (set_prev c p q) r = if decide (r = p) then q else prv c r.
Proof.
  intros Hv. destruct (decide (r = p)) as [->|Hne]; destruct p as [| |k]; simpl in *; try done.
  - destruct Hv as [n Hn]. by rewrite lookup_alter_eq, Hn.
  - by destruct r.
  - by destruct r.
  - destruct r as [| |j]; try done. simpl. rewrite lookup_alter_ne; [done|congruence].
Qed.
Lemma nxt_set_prev c p q r : nxt (set_prev c p q) r = nxt c r.
Proof.
  destruct p as [| |k], r as [| |j]; try done. simpl. destruct (decide (j = k)) as [->|Hne]; [|by rewrite lookup_alter_ne].
  rewrite lookup_alter_eq. by destruct (map_ c !! k).
Qed.

(** A doubly linked list. *)
Fixpoint dll (c : LRUCache) (ps : list Ptr) : Prop :=
  match ps with
  | a :: (b :: _) as rest => nxt c a = Some b /\ prv c b = Some a /\ dll c rest
  | _ => True
  end.

Lemma dll_cons c a b ps : dll c (a :: b :: ps) <-> nxt c a = Some b /\ prv c b = Some a /\ dll c (b :: ps).
Proof. done. Qed.

Lemma dll_app c A a B : dll c (A ++ a :: B) <-> dll c (A ++ [a]) /\ dll c (a :: B).
Proof.
  induction A as [|x A IH]; [simpl; tauto|]. destruct A as [|y A].
  - simpl app. rewrite !dll_cons. simpl. tauto.
  - change ((x :: y :: A) ++ a :: B) with (x :: y :: (A ++ a :: B)). change ((x :: y :: A) ++ [a]) with (x :: y :: (A ++ [a])).
    rewrite !dll_cons. change (y :: A ++ a :: B) with ((y :: A) ++ a :: B). rewrite IH. simpl app. tauto.
Qed.

Lemma dll_frame_l c c' A a : dll c (A ++ [a]) -> (forall x, x ∈ A -> nxt c' x = nxt c x) -> (forall x, x ∈ A ++ [a] -> prv c' x = prv c x) ->
  dll c' (A ++ [a]).
Proof.
  induction A as [|x A IH]; intros Hd Hn Hp; [done|]. destruct A as [|y A]; simpl app in *.
  - destruct Hd as (E1 & E2 & _). rewrite dll_cons, Hn, Hp by (rewrite ?elem_of_cons; tauto). done.
  - rewrite dll_cons in *. destruct Hd as (E1 & E2 & Hd). rewrite Hn, Hp by (rewrite ?elem_of_cons; tauto). split_and!; try done.
    apply IH; [done| |]; intros z Hz; [apply Hn|apply Hp]; by right.
Qed.

Lemma dll_frame_r c c' b B : dll c (b :: B) -> (forall x, x ∈ b :: B -> nxt c' x = nxt c x) -> (forall x, x ∈ B -> prv c' x = prv c x) ->
  dll c' (b :: B).
Proof.
  revert b. induction B as [|y B IH]; intros b Hd Hn Hp; [done|]. rewrite dll_cons in *. destruct Hd as (E1 & E2 & Hd).
  rewrite Hn, Hp by (rewrite ?elem_of_cons; tauto). split_and!; try done. apply IH; [done| |]; intros z Hz; [apply Hn|apply Hp]; by right.
Qed.

(** ** Detach and Attach *)

Lemma nxt_set_size c s r : nxt (set_size c s) r = nxt c r.
Proof. by destruct r. Qed.
Lemma prv_set_size c s r : prv (set_size c s) r = prv c r.
Proof. by destruct r. Qed.

Lemma set_next_size c p q : size_ (set_next c p q) = size_ c /\ capacity_ (set_next c p q) = capacity_ c.
Proof. by destruct p. Qed.
Lemma set_prev_size c p q : size_ (set_prev c p q) = size_ c /\ capacity_ (set_prev c p q) = capacity_ c.
Proof. by destruct p. Qed.


Lemma Detach_links c p a b :
  prv c p = Some a -> nxt c p = Some b -> a <> p -> b <> p -> valid c a -> valid c b -> valid c p ->
  (forall k, data (Detach c p) k = data c k) /\
  (forall r, nxt (Detach c p) r = if decide (r = p) then None else if decide (r = a) then Some b else nxt c r) /\
  (forall r, prv (Detach c p) r = if decide (r = p) then None else if decide (r = b) then Some a else prv c r) /\
  size_ (Detach c p) = u64 (size_ c - 1) /\ capacity_ (Detach c p) = capacity_ c.
Proof.
  intros Ep En Na Nb Va Vb Vp. unfold Detach. rewrite Ep, En.
  rewrite (nxt_set_next c a) by done. rewrite decide_False by done. rewrite En.
  rewrite (prv_set_next c a), Ep.
  set (c1 := set_next c a (Some b)). set (c2 := set_prev c1 b (Some a)). set (c3 := set_prev c2 p None).
  assert (D1 : forall k, data c1 k = data c k) by (intros; apply set_next_data).
  assert (D2 : forall k, data c2 k = data c k) by (intros; unfold c2; by rewrite set_prev_data).
  assert (D3 : forall k, data c3 k = data c k) by (intros; unfold c3; by rewrite set_prev_data).
  split_and!.
  - intros k. change (data (set_next c3 p None) k = data c k). by rewrite set_next_data.
  - intros r. rewrite nxt_set_size, nxt_set_next by (by apply (valid_ext c)). case_decide; [done|].
    unfold c3, c2. rewrite !nxt_set_prev. unfold c1. by rewrite nxt_set_next.
  - intros r. rewrite prv_set_size, prv_set_next. unfold c3. rewrite prv_set_prev by (by apply (valid_ext c)). case_decide; [done|].
    unfold c2. rewrite prv_set_prev by (by apply (valid_ext c)). case_decide; [done|]. unfold c1. by rewrite prv_set_next.
  - simpl. unfold c3, c2, c1. do 2 f_equal. by rewrite (proj1 (set_next_size _ _ _)), (proj1 (set_prev_size _ _ _)), (proj1 (set_prev_size _ _ _)), (proj1 (set_next_size _ _ _)).
  - simpl. unfold c3, c2, c1. by rewrite (proj2 (set_next_size _ _ _)), (proj2 (set_prev_size _ _ _)), (proj2 (set_prev_size _ _ _)), (proj2 (set_next_size _ _ _)).
Qed.

Lemma Attach_links c p q :
  nxt c PHead = Some q -> p <> PHead -> q <> p -> valid c p -> valid c q ->
  (forall k, data (Attach c p) k = data c k) /\
  (forall r, nxt (Attach c p) r = if decide (r = PHead) then Some p else if decide (r = p) then Some q else nxt c r) /\
  (forall r, prv (Attach c p) r = if decide (r = q) then Some p else if decide (r = p) then Some PHead else prv c r) /\
  size_ (Attach c p) = u64 (size_ c + 1) /\ capacity_ (Attach c p) = capacity_ c.
Proof.
  intros En Np Nq Vp Vq. unfold Attach.
  set (c1 := set_prev c p (Some PHead)). assert (Eh : head_next c1 = Some q) by (change (nxt c1 PHead = Some q); unfold c1; by rewrite nxt_set_prev).
  rewrite Eh. set (c2 := set_next c1 p (Some q)). set (c3 := set_next c2 PHead (Some p)).
  assert (D1 : forall k, data c1 k = data c k) by (intros; apply set_prev_data).
  assert (D2 : forall k, data c2 k = data c k) by (intros; unfold c2; by rewrite set_next_data).
  assert (D3 : forall k, data c3 k = data c k) by (intros; unfold c3; by rewrite set_next_data).
  assert (N3 : forall r, nxt c3 r = if decide (r = PHead) then Some p else if decide (r = p) then Some q else nxt c r).
  { intros r. unfold c3. rewrite nxt_set_next by done. case_decide; [done|]. unfold c2. rewrite nxt_set_next by (by apply (valid_ext c)).
    case_decide; [done|]. unfold c1. by rewrite nxt_set_prev. }
  rewrite (N3 p), decide_False, decide_True by done. split_and!.
  - intros k. change (data (set_prev c3 q (Some p)) k = data c k). by rewrite set_prev_data.
  - intros r. rewrite nxt_set_size, nxt_set_prev. apply N3.
  - intros r. rewrite prv_set_size, prv_set_prev by (by apply (valid_ext c)). case_decide; [done|].
    unfold c3, c2, c1. rewrite !prv_set_next. by rewrite prv_set_prev.
  - simpl. unfold c3, c2, c1. do 2 f_equal. by rewrite (proj1 (set_prev_size _ _ _)), (proj1 (set_next_size _ _ _)), (proj1 (set_next_size _ _ _)), (proj1 (set_prev_size _ _ _)).
  - simpl. unfold c3, c2, c1. by rewrite (proj2 (set_prev_size _ _ _)), (proj2 (set_next_size _ _ _)), (proj2 (set_next_size _ _ _)), (proj2 (set_prev_size _ _ _)).
Qed.

Lemma Detach_dll c A a p b B :
  NoDup (A ++ a :: p :: b :: B) -> (forall x, x ∈ A ++ a :: p :: b :: B -> valid c x) -> dll c (A ++ a :: p :: b :: B) ->
  dll (Detach c p) (A ++ a :: b :: B) /\ (forall k, data (Detach c p) k = data c k) /\
  size_ (Detach c p) = u64 (size_ c - 1) /\ capacity_ (Detach c p) = capacity_ c.
Proof.
  intros Hnd Hv Hd. apply dll_app in Hd as [HA Hd]. rewrite !dll_cons in Hd. destruct Hd as (E1 & E2 & E3 & E4 & HB).
  apply NoDup_app in Hnd as (NA & NAB & NB). setoid_rewrite elem_of_cons in NAB. rewrite !NoDup_cons, !elem_of_cons in NB.
  destruct NB as (Na & Np & Nb & NB).
  assert (p <> a) as Npa by (intros ->; tauto). assert (p <> b) as Npb by tauto. assert (b <> a) as Nba by (intros ->; tauto).
  destruct (Detach_links c p a b) as (D & N & P & S & C); try done; try (by intros ->);
    try (apply Hv; rewrite elem_of_app, !elem_of_cons; tauto).
  split_and!; try done. apply dll_app. split.
  - apply (dll_frame_l c); [done| |]; intros x Hx.
    + specialize (NAB x Hx). rewrite N, !decide_False; [done|intros ->; tauto|intros ->; apply NAB; rewrite elem_of_cons; tauto].
    + apply elem_of_app in Hx as [Hx| ->%list_elem_of_singleton]; [|by rewrite P, !decide_False].
      specialize (NAB x Hx). rewrite !elem_of_cons in NAB. rewrite P, !decide_False; [done|intros ->; tauto|intros ->; tauto].
  - rewrite dll_cons. split_and!.
    + by rewrite N, decide_False, decide_True.
    + by rewrite P, decide_False, decide_True.
    + apply (dll_frame_r c); [done| |]; intros x Hx.
      * apply elem_of_cons in Hx. rewrite N, !decide_False; [done| |]; intros ->; destruct Hx as [->|]; tauto.
      * rewrite P, !decide_False; [done| |]; intros ->; tauto.
Qed.

Lemma Attach_dll c p q B :
  NoDup (PHead :: p :: q :: B) -> (forall x, x ∈ p :: q :: B -> valid c x) -> dll c (PHead :: q :: B) ->
  dll (Attach c p) (PHead :: p :: q :: B) /\ (forall k, data (Attach c p) k = data c k) /\
  size_ (Attach c p) = u64 (size_ c + 1) /\ capacity_ (Attach c p) = capacity_ c.
Proof.
  intros Hnd Hv. rewrite dll_cons. intros (E1 & E2 & HB). rewrite !NoDup_cons, !elem_of_cons in Hnd.
  destruct Hnd as (Nh & Np & Nq & NB).
  assert (p <> PHead) as Nph by (intros ->; tauto). assert (p <> q) as Npq by tauto. assert (q <> PHead) as Nqh by (intros ->; tauto).
  destruct (Attach_links c p q) as (D & N & P & S & C); try done; try (by intros ->); try (apply Hv; rewrite !elem_of_cons; tauto).
  split_and!; try done. rewrite !dll_cons. split_and!.
  - by rewrite N, decide_True.
  - by rewrite P, decide_False, decide_True.
  - by rewrite N, decide_False, decide_True.
  - by rewrite P, decide_True.
  - apply (dll_frame_r c); [done| |]; intros x Hx.
    + apply elem_of_cons in Hx. rewrite N, !decide_False; [done| |]; intros ->; destruct Hx as [Hx|]; try tauto; congruence.
    + rewrite P, !decide_False; [done| |]; intros ->; tauto.
Qed.

(** ** The cache as a list of keys and a map *)

Definition ring (ks : list K) : list Ptr := PHead :: (PKey <$> ks) ++ [PTail].

Lemma ring_NoDup ks : NoDup ks -> NoDup (ring ks).
Proof.
  intros Hk. unfold ring. apply NoDup_cons. split; [rewrite elem_of_app, list_elem_of_fmap; intros [(k & ? & _)|?]; set_solver|].
  apply NoDup_app. split_and!; [apply NoDup_fmap_2; [intros x y; congruence|done]| |apply NoDup_singleton].
  intros x (k & -> & _)%list_elem_of_fmap. set_solver.
Qed.

Lemma ring_split l1 k l2 : exists A a b B,
  ring (l1 ++ k :: l2) = A ++ a :: PKey k :: b :: B /\ ring (l1 ++ l2) = A ++ a :: b :: B.
Proof.
  assert (exists A a, PHead :: (PKey <$> l1) = A ++ [a]) as (A & a & EA).
  { destruct (exists_last (l := PHead :: (PKey <$> l1))) as (A & a & ?); [done|eauto]. }
  assert (exists b B, (PKey <$> l2) ++ [PTail] = b :: B) as (b & B & EB) by (destruct l2; simpl; eauto).
  exists A, a, b, B. unfold ring. rewrite !fmap_app, fmap_cons. rewrite <-!app_assoc, !app_comm_cons, EA. simpl.
  rewrite EB. by rewrite <-!app_assoc.
Qed.

Record state (c : LRUCache) (m : gmap K V) (ks : list K) : Prop := {
  state_data : forall k, data c k = (fun v => (k, v)) <$> m !! k;
  state_keys : forall k, k ∈ ks -> is_Some (m !! k);
  state_nodup : NoDup ks;
  state_dll : dll c (ring ks);
  state_size : size_ c = u64 (zlen ks)
}.

Lemma state_valid c m ks : state c m ks -> forall x, x ∈ ring ks -> valid c x.
Proof.
  intros Hs x. unfold ring. rewrite elem_of_cons, elem_of_app, list_elem_of_fmap. rewrite valid_data. destruct x as [| |k]; [done|done|].
  intros [|[(j & [= ->] & Hj)|]]; [done| |set_solver]. rewrite (state_data _ _ _ Hs), fmap_is_Some. by apply (state_keys _ _ _ Hs).
Qed.

Lemma Detach_state c m l1 k l2 : state c m (l1 ++ k :: l2) -> state (Detach c (PKey k)) m (l1 ++ l2) /\ capacity_ (Detach c (PKey k)) = capacity_ c.
Proof.
  intros Hs. pose proof (state_valid _ _ _ Hs) as Hv. destruct (ring_split l1 k l2) as (A & a & b & B & E1 & E2).
  pose proof (ring_NoDup _ (state_nodup _ _ _ Hs)) as Hnd. pose proof (state_dll _ _ _ Hs) as Hd. rewrite E1 in *.
  destruct (Detach_dll _ _ _ _ _ _ Hnd Hv Hd) as (D1 & D2 & D3 & D4). split; [|done]. constructor.
  - intros j. rewrite D2. apply Hs.
  - intros j Hj. apply (state_keys _ _ _ Hs). set_solver.
  - pose proof (state_nodup _ _ _ Hs) as Hn. apply NoDup_app in Hn as (? & ? & [??]%NoDup_cons). apply NoDup_app. set_solver.
  - by rewrite E2.
  - rewrite D3, (state_size _ _ _ Hs). unfold u64, zlen. rewrite Zminus_mod_idemp_l. f_equal. rewrite !length_app. simpl. lia.
Qed.

Lemma Attach_state c m k ks : state c m ks -> k ∉ ks -> is_Some (m !! k) ->
  state (Attach c (PKey k)) m (k :: ks) /\ capacity_ (Attach c (PKey k)) = capacity_ c.
Proof.
  intros Hs Hk Hm. assert (exists q B, (PKey <$> ks) ++ [PTail] = q :: B) as (q & B & E) by (destruct ks; simpl; eauto).
  assert (NoDup (k :: ks)) as Hnd by (apply NoDup_cons; split; [done|apply Hs]).
  pose proof (ring_NoDup _ Hnd) as HR. pose proof (state_valid _ _ _ Hs) as Hv. pose proof (state_dll _ _ _ Hs) as Hd.
  unfold ring in *. rewrite fmap_cons in *. simpl app in *. rewrite E in *.
  destruct (Attach_dll c (PKey k) q B) as (D1 & D2 & D3 & D4); [done| |done|].
  { intros x [->|Hx]%elem_of_cons; [|apply Hv; set_solver]. rewrite valid_data, (state_data _ _ _ Hs). by rewrite fmap_is_Some. }
  split; [|done]. constructor.
  - intros j. rewrite D2. apply Hs.
  - intros j [->|Hj]%elem_of_cons; [done|]. by apply (state_keys _ _ _ Hs).
  - done.
  - unfold ring. rewrite fmap_cons. simpl app. by rewrite E.
  - rewrite D3, (state_size _ _ _ Hs). unfold u64, zlen. rewrite Zplus_mod_idemp_l. f_equal. simpl. lia.
Qed.

(** Changing the nodes without changing the links of the listed ones. *)
Lemma set_map_state c m ks nm m' :
  state c m ks -> (forall j, (fun n => (key n, val n)) <$> nm !! j = (fun v => (j, v)) <$> m' !! j) ->
  (forall j, j ∈ ks -> (fun n => (prev n, next n)) <$> nm !! j = (fun n => (prev n, next n)) <$> map_ c !! j) ->
  state (set_map c nm) m' ks.
Proof.
  intros Hs Hdat Hl. assert (Hk : forall j, j ∈ ks -> is_Some (nm !! j) /\ is_Some (m' !! j)).
  { intros j Hj. assert (is_Some (nm !! j)) as Hn.
    - pose proof (state_valid _ _ _ Hs (PKey j)) as Hv. specialize (Hl j Hj). destruct Hv as [n Hn].
      { unfold ring. rewrite elem_of_cons, elem_of_app, list_elem_of_fmap. eauto. }
      rewrite Hn in Hl. destruct (nm !! j); [eauto|done].
    - split; [done|]. rewrite <-(fmap_is_Some (fun v => (j, v))), <-Hdat, fmap_is_Some. done. }
  constructor.
  - done.
  - intros j Hj. by apply Hk.
  - apply Hs.
  - pose proof (state_dll _ _ _ Hs) as Hd. unfold ring in *.
    assert (forall x, x ∈ PHead :: (PKey <$> ks) ++ [PTail] -> nxt (set_map c nm) x = nxt c x /\ prv (set_map c nm) x = prv c x) as Hx.
    { intros [| |j]; try done. rewrite elem_of_cons, elem_of_app, list_elem_of_fmap, list_elem_of_singleton.
      intros [?|[(i & [= ->] & Hj)|?]]; try done. specialize (Hl i Hj). simpl. destruct (nm !! i), (map_ c !! i); naive_solver. }
    apply (dll_frame_r c); [done| |]; intros x H'; apply Hx; [done|by right].
  - apply Hs.
Qed.

Lemma touch_state c m l1 k l2 : state c m (l1 ++ k :: l2) ->
  state (Attach (Detach c (PKey k)) (PKey k)) m (k :: l1 ++ l2) /\ capacity_ (Attach (Detach c (PKey k)) (PKey k)) = capacity_ c.
Proof.
  intros Hs. destruct (Detach_state _ _ _ _ _ Hs) as [H1 C1].
  destruct (Attach_state (Detach c (PKey k)) m k (l1 ++ l2)) as [H2 C2]; [done| | |split; [done|congruence]].
  - pose proof (state_nodup _ _ _ Hs) as (? & ? & [??]%NoDup_cons)%NoDup_app. rewrite elem_of_app. set_solver.
  - apply (state_keys _ _ _ Hs). set_solver.
Qed.

Lemma evict_state c m ks k : state c m (ks ++ [k]) -> Full c = true ->
  exists c', GetObsolete c = (Some k, c') /\ state c' (delete k m) ks /\ capacity_ c' = capacity_ c.
Proof.
  intros Hs Hf. unfold GetObsolete. rewrite Hf.
  assert (prv c PTail = Some (PKey k)) as E.
  { pose proof (state_dll _ _ _ Hs) as Hd. unfold ring in Hd. rewrite fmap_app in Hd. rewrite <-app_assoc in Hd. simpl app in Hd.
    rewrite app_comm_cons in Hd. apply dll_app in Hd as [_ Hd]. by destruct Hd as (_ & ? & _). }
  simpl in E. rewrite E. destruct (state_keys _ _ _ Hs k) as [v Hv]; [set_solver|].
  pose proof (state_data _ _ _ Hs k) as Hd. unfold data in Hd. rewrite Hv in Hd.
  destruct (map_ c !! k) as [n|] eqn:En; [|done]. simpl in Hd. injection Hd as Ek Evl. rewrite Ek.
  destruct (Detach_state c m ks k [] Hs) as [H1 C1]. rewrite app_nil_r in H1. eexists. split_and!; [done| |done].
  pose proof (state_nodup _ _ _ Hs) as (_ & Hnin & _)%NoDup_app.
  apply (set_map_state _ m).
  - done.
  - intros j. destruct (decide (j = k)) as [->|Hne]; [by rewrite !lookup_delete_eq|]. rewrite !lookup_delete_ne by done. apply H1.
  - intros j Hj. rewrite lookup_delete_ne; [done|]. intros <-. apply (Hnin k Hj). set_solver.
Qed.

Lemma insert_state c m ks k v : state c m ks -> k ∉ ks ->
  let c' := Attach (set_map c (<[k := mkNode k v None None]> (map_ c))) (PKey k) in
  state c' (<[k := v]> m) (k :: ks) /\ capacity_ c' = capacity_ c.
Proof.
  intros Hs Hk c'. destruct (Attach_state (set_map c (<[k := mkNode k v None None]> (map_ c))) (<[k := v]> m) k ks) as [H1 H2].
  - apply (set_map_state _ m); [done| |].
    + intros j. destruct (decide (j = k)) as [->|Hne]; [by rewrite !lookup_insert_eq|]. rewrite !lookup_insert_ne by done. apply Hs.
    + intros j Hj. rewrite lookup_insert_ne; [done|]. by intros <-.
  - done.
  - rewrite lookup_insert_eq. eauto.
  - done.
Qed.

Lemma assign_state c m ks k v : state c m ks -> is_Some (m !! k) ->
  state (set_map c (alter (fun n => mkNode (key n) v (prev n) (next n)) k (map_ c))) (<[k := v]> m) ks.
Proof.
  intros Hs [w Hw]. pose proof (state_data _ _ _ Hs) as Hd. unfold data in Hd. apply (set_map_state _ m); [done| |]; intros j.
  - destruct (decide (j = k)) as [->|Hne].
    + rewrite lookup_alter_eq, lookup_insert_eq. specialize (Hd k). rewrite Hw in Hd. destruct (map_ c !! k); [|done]. simpl in *. congruence.
    + rewrite lookup_alter_ne, lookup_insert_ne by done. apply Hd.
  - intros _. destruct (decide (j = k)) as [->|Hne]; [|by rewrite lookup_alter_ne]. rewrite lookup_alter_eq. by destruct (map_ c !! k).
Qed.

(** ** Specification: a list of entries, most recently used first *)

Local Notation entries := (list (K * V)).
Definition remove (k : K) (l : entries) : entries := filter (fun e => e.1 <> k) l.
Definition find (k : K) (l : entries) : option V := (list_to_map l : gmap K V) !! k.
Definition has (k : K) (l : entries) : bool := bool_decide (is_Some (find k l)).
Definition limit (cap : Z) : nat := Z.to_nat (Z.max 1 cap).

(** The calls.  operator[], which leaves the list, and Update and UpdateSilently, which
    do not update, are apart (below). *)
Inductive op := OPut (k : K) (v : V) | OAdd (k : K) (v : V) | OPutAndGetObsolete (k : K) (v : V) (obs : bool)
  | OAddAndGetObsolete (k : K) (v : V) (obs : bool) | OGet (k : K) | OGetSilently (k : K) | OGetCopy (k : K) | OGetCopySilently (k : K)
  | OGetCache (cache : gmap K V) | OSize | OFull | OEmpty | OFirst | OContains (k : K) | OPrioritize (k : K) | OClear.
Inductive out := RBool (b : bool) | RObs (b : bool) (o : option K) | RVal (o : option V) | RCache (m : gmap K V) | RSize (n : Z)
  | RPtr (p : option Ptr) | RVoid.

(** A key moves to the front; a new one goes there, and the last leaves when there is no room. *)
Definition front (k : K) (l : entries) : entries := match find k l with Some v => (k, v) :: remove k l | None => l end.
Definition obsolete (cap : Z) (l : entries) : option K := fst <$> l !! pred (limit cap).
Definition spec_put (cap : Z) (l : entries) (k : K) (v : V) : option K * entries :=
  if has k l then (None, (k, v) :: remove k l) else (obsolete cap l, take (limit cap) ((k, v) :: l)).
Definition spec_add (cap : Z) (l : entries) (k : K) (v : V) : option K * entries :=
  if has k l then (None, l) else (obsolete cap l, take (limit cap) ((k, v) :: l)).

Definition spec_op (cap : Z) (l : entries) (o : op) : out * entries :=
  match o with
  | OPut k v => (RBool true, snd (spec_put cap l k v))
  | OAdd k v => (RBool true, snd (spec_add cap l k v))
  | OPutAndGetObsolete k v obs => if obs then let '(j, l') := spec_put cap l k v in (RObs true j, l') else (RObs false None, l)
  | OAddAndGetObsolete k v obs => if obs then let '(j, l') := spec_add cap l k v in (RObs true j, l') else (RObs false None, l)
  | OGet k | OGetCopy k => (RVal (find k l), front k l)
  | OGetSilently k | OGetCopySilently k => (RVal (find k l), l)
  | OGetCache m => (RCache (list_to_map l ∪ m), l)
  | OSize => (RSize (zlen l), l)
  | OFull => (RBool (bool_decide (Z.max 1 cap <= zlen l)), l)
  | OEmpty => (RBool (bool_decide (l = [])), l)
  | OFirst => (RPtr ((fun e => PKey e.1) <$> head l), l)
  | OContains k => (RBool (has k l), l)
  | OPrioritize k => (RBool (has k l), front k l)
  | OClear => (RVoid, [])
  end.

Definition run_op (c : LRUCache) (o : op) : out * LRUCache :=
  match o with
  | OPut k v => let '(b, c) := Put c k v in (RBool b, c)
  | OAdd k v => let '(b, c) := Add c k v in (RBool b, c)
  | OPutAndGetObsolete k v obs => let '(b, j, c) := PutAndGetObsolete c k v obs in (RObs b j, c)
  | OAddAndGetObsolete k v obs => let '(b, j, c) := AddAndGetObsolete c k v obs in (RObs b j, c)
  | OGet k => let '(r, c) := Get c k in (RVal r, c)
  | OGetSilently k => let '(r, c) := GetSilently c k in (RVal r, c)
  | OGetCopy k => let '(r, c) := GetCopy c k in (RVal r, c)
  | OGetCopySilently k => let '(r, c) := GetCopySilently c k in (RVal r, c)
  | OGetCache m => (RCache (GetCache c m), c)
  | OSize => (RSize (size_ c), c)
  | OFull => (RBool (Full c), c)
  | OEmpty => (RBool (Empty c), c)
  | OFirst => (RPtr (First c), c)
  | OContains k => (RBool (Contains c k), c)
  | OPrioritize k => let '(b, c) := Prioritize c k in (RBool b, c)
  | OClear => (RVoid, Clear c)
  end.

Fixpoint run {S : Type} (step : S -> op -> out * S) (s : S) (os : list op) : list out * S :=
  match os with
  | [] => ([], s)
  | o :: os => let '(r, s) := step s o in let '(rs, s) := run step s os in (r :: rs, s)
  end.

Record rep (cap : Z) (c : LRUCache) (l : entries) : Prop := {
  rep_state : state c (list_to_map l) l.*1;
  rep_cap : capacity_ c = cap;
  rep_len : (length l <= limit cap)%nat
}.

Lemma remove_absent k (l : entries) : k ∉ l.*1 -> remove k l = l.
Proof.
  unfold remove. induction l as [|[j w] l IH]; [done|]. rewrite fmap_cons, not_elem_of_cons. simpl. intros [Hj Hk].
  rewrite filter_cons_True by (simpl; congruence). by rewrite IH.
Qed.

Lemma remove_split k v l1 l2 : NoDup (l1 ++ (k, v) :: l2).*1 -> remove k (l1 ++ (k, v) :: l2) = l1 ++ l2.
Proof.
  rewrite fmap_app, fmap_cons. simpl. intros (_ & H1 & [H2 _]%NoDup_cons)%NoDup_app. unfold remove.
  rewrite filter_app, filter_cons_False by (simpl; tauto).
  f_equal; apply remove_absent; [intros Hk; apply (H1 k Hk); set_solver|done].
Qed.

Lemma find_split k v l : NoDup l.*1 -> find k l = Some v -> exists l1 l2, l = l1 ++ (k, v) :: l2.
Proof. intros Hn Hf. apply list_elem_of_split. by apply elem_of_list_to_map. Qed.

Lemma find_None k l : find k l = None <-> k ∉ l.*1.
Proof. unfold find. symmetry. apply not_elem_of_list_to_map. Qed.

Lemma entries_front k w v l1 l2 : NoDup (l1 ++ (k, w) :: l2).*1 ->
  (list_to_map ((k, v) :: l1 ++ l2) : gmap K V) = <[k := v]> (list_to_map (l1 ++ (k, w) :: l2)).
Proof.
  intros Hn. rewrite (list_to_map_proper (l1 ++ (k, w) :: l2) ((k, w) :: l1 ++ l2)); [|done|symmetry; apply Permutation_middle].
  simpl. by rewrite insert_insert_eq.
Qed.

Lemma rep_contains cap c l k : rep cap c l -> Contains c k = has k l.
Proof.
  intros Hr. unfold Contains, has. apply bool_decide_ext. pose proof (state_data _ _ _ (rep_state _ _ _ Hr) k) as Hd.
  unfold data in Hd. rewrite <-(fmap_is_Some (fun n => (key n, val n))), Hd, fmap_is_Some. done.
Qed.

Lemma rep_full cap c l : 0 <= cap < 2 ^ 64 -> rep cap c l -> Full c = bool_decide (length l = limit cap).
Proof.
  intros Hc Hr. pose proof (rep_len _ _ _ Hr) as Hl. unfold Full.
  rewrite (state_size _ _ _ (rep_state _ _ _ Hr)), (rep_cap _ _ _ Hr). unfold limit, zlen in *. rewrite length_fmap.
  rewrite u64_small by (unfold is_u64; lia). case_bool_decide; destruct (Z.ltb_spec 0 (Z.of_nat (length l))), (Z.leb_spec cap (Z.of_nat (length l)));
    simpl; try done; lia.
Qed.

Lemma rep_front cap c l k v : rep cap c l -> find k l = Some v ->
  rep cap (Attach (Detach c (PKey k)) (PKey k)) ((k, v) :: remove k l).
Proof.
  intros Hr Hf. pose proof (state_nodup _ _ _ (rep_state _ _ _ Hr)) as Hn. destruct (find_split _ _ _ Hn Hf) as (l1 & l2 & ->).
  rewrite remove_split by done. pose proof (rep_state _ _ _ Hr) as Hs. pose proof (rep_len _ _ _ Hr) as Hl. rewrite fmap_app, fmap_cons in Hs.
  apply touch_state in Hs as [Hs Hc]. constructor.
  - rewrite (entries_front k v v) by done. rewrite insert_id by done. by rewrite fmap_cons, fmap_app.
  - etransitivity; [exact Hc|apply Hr].
  - rewrite length_app in Hl. simpl in *. rewrite length_app. lia.
Qed.

Lemma rep_insert cap c l k v : 0 <= cap < 2 ^ 64 -> rep cap c l -> find k l = None ->
  exists c', (let '(failed, evicted, c) :=
                if Full c then match GetObsolete c with (Some j, c) => (false, Some j, c) | (None, c) => (true, None, c) end else (false, None, c) in
              if (failed : bool) then (false, None, c)
              else (true, evicted, Attach (set_map c (<[k := mkNode k v None None]> (map_ c))) (PKey k))) = (true, obsolete cap l, c') /\
             rep cap c' (take (limit cap) ((k, v) :: l)).
Proof.
  intros Hc Hr Hf. apply find_None in Hf. pose proof (rep_full _ _ _ Hc Hr) as HF. pose proof (rep_len _ _ _ Hr) as Hl.
  destruct (Full c) eqn:EF; symmetry in HF.
  - apply bool_decide_eq_true in HF. destruct l as [|e l _] using rev_ind; [unfold limit in HF; simpl in HF; lia|].
    destruct e as [j w]. pose proof (rep_state _ _ _ Hr) as Hs. rewrite fmap_app in Hs. simpl in Hs.
    destruct (evict_state _ _ _ _ Hs EF) as (c1 & -> & Hs1 & C1). eexists. split.
    { unfold obsolete. rewrite <- HF, length_app. simpl. rewrite Nat.add_1_r. simpl. by rewrite list_lookup_middle. }
    pose proof (state_nodup _ _ _ Hs) as Hnd. rewrite length_app in *. simpl in *.
    assert (delete j (list_to_map (l ++ [(j, w)])) = (list_to_map l : gmap K V)) as Ed.
    { rewrite (list_to_map_proper (l ++ [(j, w)]) ((j, w) :: l)); [| |symmetry; apply Permutation_cons_append].
      - simpl. apply delete_insert_id. apply not_elem_of_list_to_map. apply NoDup_app in Hnd as (_ & Hn & _). intros Hj. apply (Hn j Hj). set_solver.
      - by rewrite fmap_app. }
    rewrite Ed in Hs1. destruct (insert_state _ _ _ k v Hs1) as [Hs2 C2]; [rewrite fmap_app in Hf; set_solver|].
    rewrite <-HF. replace (length l + 1)%nat with (S (length l)) by lia. simpl. rewrite take_app_length. constructor; [done| |simpl; lia].
    rewrite C2, C1. apply Hr.
  - apply bool_decide_eq_false in HF. eexists. split.
    { unfold obsolete. rewrite lookup_ge_None_2; [done|]. unfold limit in *. lia. } destruct (insert_state _ _ _ k v (rep_state _ _ _ Hr) Hf) as [Hs2 C2].
    rewrite take_ge by (simpl; lia). constructor; [done| |simpl; lia]. rewrite C2. apply Hr.
Qed.

Lemma rep_assign_front cap c l k v w : rep cap c l -> find k l = Some w ->
  let c1 := set_map c (alter (fun n => mkNode (key n) v (prev n) (next n)) k (map_ c)) in
  rep cap (Attach (Detach c1 (PKey k)) (PKey k)) ((k, v) :: remove k l).
Proof.
  intros Hr Hf c1. pose proof (state_nodup _ _ _ (rep_state _ _ _ Hr)) as Hn. destruct (find_split _ _ _ Hn Hf) as (l1 & l2 & ->).
  pose proof (assign_state _ _ _ k v (rep_state _ _ _ Hr)) as Hs. pose proof (rep_len _ _ _ Hr) as Hl.
  specialize (Hs ltac:(unfold find in Hf; eauto)). rewrite <-(entries_front k w v) in Hs by done. rewrite fmap_app, fmap_cons in Hs.
  apply touch_state in Hs as [Hs Hc]. rewrite remove_split by done. constructor.
  - by rewrite fmap_cons, fmap_app.
  - etransitivity; [exact Hc|apply Hr].
  - rewrite length_app in Hl. simpl in *. rewrite length_app. lia.
Qed.

Lemma remove_length k l : (length (remove k l) <= length l)%nat.
Proof. apply length_filter. Qed.

Lemma has_find k l : has k l = match find k l with Some _ => true | None => false end.
Proof. unfold has. destruct (find k l); [by rewrite bool_decide_true by eauto|]. by rewrite bool_decide_false by (by intros []). Qed.

Lemma rep_lookup cap c l k : rep cap c l -> val <$> map_ c !! k = find k l.
Proof.
  intros Hr. pose proof (state_data _ _ _ (rep_state _ _ _ Hr) k) as Hd. unfold data, find in *.
  destruct (map_ c !! k), (list_to_map l !! k); simpl in *; congruence.
Qed.

Lemma rep_front_length cap c l k v w : rep cap c l -> find k l = Some w -> (length ((k, v) :: remove k l) <= limit cap)%nat.
Proof. intros Hr Hf. pose proof (rep_len _ _ _ (rep_front _ _ _ _ _ Hr Hf)) as Hl. done. Qed.

Lemma rep_size cap c l : 0 <= cap < 2 ^ 64 -> rep cap c l -> size_ c = zlen l.
Proof.
  intros Hc Hr. pose proof (rep_len _ _ _ Hr) as Hl. unfold limit in Hl. rewrite (state_size _ _ _ (rep_state _ _ _ Hr)).
  unfold zlen in *. rewrite length_fmap. apply u64_small. unfold is_u64. lia.
Qed.

Lemma rep_put cap c l k v : 0 <= cap < 2 ^ 64 -> rep cap c l ->
  exists c', Update_ c k v true false false = (true, (spec_put cap l k v).1, c') /\ rep cap c' (spec_put cap l k v).2.
Proof.
  intros Hc Hr. unfold Update_, spec_put. rewrite (rep_contains _ _ _ _ Hr), has_find. destruct (find k l) as [w|] eqn:Ef; simpl.
  - eexists. split; [done|]. by eapply rep_assign_front.
  - by apply rep_insert.
Qed.

Lemma rep_add cap c l k v : 0 <= cap < 2 ^ 64 -> rep cap c l ->
  exists c', Update_ c k v true true false = (true, (spec_add cap l k v).1, c') /\ rep cap c' (spec_add cap l k v).2.
Proof.
  intros Hc Hr. unfold Update_, spec_add. rewrite (rep_contains _ _ _ _ Hr), has_find. destruct (find k l) as [w|] eqn:Ef; simpl.
  - eauto.
  - by apply rep_insert.
Qed.

Lemma rep_get cap c l k : rep cap c l -> (Get_ c k false).1 = find k l /\ rep cap (Get_ c k false).2 (front k l).
Proof.
  intros Hr. unfold Get_, front. rewrite (rep_contains _ _ _ _ Hr), has_find. destruct (find k l) as [w|] eqn:Ef; simpl; [|done].
  pose proof (rep_front _ _ _ _ _ Hr Ef) as Hf. split; [|done]. rewrite (rep_lookup _ _ _ _ Hf). unfold find. simpl. by rewrite lookup_insert_eq.
Qed.

Lemma rep_peek cap c l k : rep cap c l -> Get_ c k true = (find k l, c).
Proof. intros Hr. unfold Get_. rewrite (rep_contains _ _ _ _ Hr), has_find. destruct (find k l) as [w|] eqn:Ef; [|done]. by rewrite (rep_lookup _ _ _ _ Hr), Ef. Qed.

Lemma rep_step cap c l o : 0 <= cap < 2 ^ 64 -> rep cap c l ->
  (run_op c o).1 = (spec_op cap l o).1 /\ rep cap (run_op c o).2 (spec_op cap l o).2.
Proof.
  intros Hc Hr. pose proof (rep_size _ _ _ Hc Hr) as Hs. destruct o as [k v|k v|k v obs|k v obs|k|k|k|k|m| | | | |k|k|]; simpl.
  - unfold Put. destruct (rep_put _ _ _ k v Hc Hr) as (c' & -> & ?). done.
  - unfold Add. destruct (rep_add _ _ _ k v Hc Hr) as (c' & -> & ?). done.
  - unfold PutAndGetObsolete. destruct obs; [|done]. destruct (rep_put _ _ _ k v Hc Hr) as (c' & -> & ?). by destruct (spec_put cap l k v).
  - unfold AddAndGetObsolete. destruct obs; [|done]. destruct (rep_add _ _ _ k v Hc Hr) as (c' & -> & ?). by destruct (spec_add cap l k v).
  - unfold Get. destruct (rep_get _ _ _ k Hr) as [E ?]. destruct (Get_ c k false). simpl in *. by subst.
  - unfold GetSilently. by rewrite (rep_peek _ _ _ k Hr).
  - change (GetCopy c k) with (Get_ c k false). destruct (rep_get _ _ _ k Hr) as [E ?]. destruct (Get_ c k false). simpl in *. by subst.
  - change (GetCopySilently c k) with (Get_ c k true). by rewrite (rep_peek _ _ _ k Hr).
  - split; [|done]. unfold GetCache. do 2 f_equal. apply map_eq. intros k. rewrite lookup_fmap. by apply (rep_lookup cap).
  - by rewrite Hs.
  - split; [|done]. rewrite (rep_full _ _ _ Hc Hr). f_equal. apply bool_decide_ext. pose proof (rep_len _ _ _ Hr). unfold limit, zlen in *. lia.
  - split; [|done]. f_equal. unfold Empty. rewrite Hs. unfold zlen. by destruct l.
  - split; [|done]. f_equal. unfold First. rewrite Hs. pose proof (state_dll _ _ _ (rep_state _ _ _ Hr)) as Hd. unfold zlen, ring in *.
    destruct l as [|e l]; [done|]. by destruct Hd as [? _].
  - by rewrite (rep_contains _ _ _ _ Hr).
  - unfold Prioritize, front. rewrite (rep_contains _ _ _ _ Hr), has_find. destruct (find k l) as [w|] eqn:Ef; [|done].
    split; [done|]. by apply rep_front.
  - split; [done|]. constructor; [constructor| |simpl; lia]; try done; [intros j; set_solver|constructor|apply Hr].
Qed.

Lemma lru_rep_new cap : rep cap (NewLRU cap) [].
Proof. constructor; [constructor| |simpl; lia]; try done; [intros j; set_solver|constructor]. Qed.

Lemma rep_run cap os : forall c l, 0 <= cap < 2 ^ 64 -> rep cap c l ->
  (run run_op c os).1 = (run (spec_op cap) l os).1 /\ rep cap (run run_op c os).2 (run (spec_op cap) l os).2.
Proof.
  induction os as [|o os IH]; intros c l Hc Hr; simpl; [done|]. destruct (rep_step cap c l o Hc Hr) as [H1 H2].
  destruct (run_op c o) as [r c1], (spec_op cap l o) as [r' l1]. simpl in *. subst r'. destruct (IH c1 l1 Hc H2) as [E1 E2].
  destruct (run run_op c1 os), (run (spec_op cap) l1 os). simpl in *. by subst.
Qed.

(** The public Update and UpdateSilently pass add_only = true: they leave the cache
    as it is, whatever the value. *)
Theorem update_changes_nothing c k v : (Update c k v).2 = c /\ (UpdateSilently c k v).2 = c.
Proof. unfold Update, UpdateSilently, Update_. simpl. by destruct (Contains c k). Qed.

(** operator[] adds entries that are never attached: they are not counted, so the
    cache never becomes full and the entries are never evicted. *)
Theorem indexed_entries_are_never_evicted dk dv ks : forall c, size_ c = 0 ->
  size_ (foldl (fun c k => (index dk dv c k).2) c ks) = 0 /\
  (forall k, k ∈ ks \/ is_Some (map_ c !! k) -> is_Some (map_ (foldl (fun c k => (index dk dv c k).2) c ks) !! k)).
Proof.
  induction ks as [|k ks IH]; intros c Hs; simpl; [split; [done|]; intros j [?|?]; [set_solver|done]|].
  assert ((index dk dv c k).2 = match map_ c !! k with Some _ => c | None => set_map c (<[k := mkNode dk dv None None]> (map_ c)) end) as E.
  { unfold index, GetObsolete, Full. rewrite Hs. simpl. replace (if Contains c k then c else c) with c by (by destruct (Contains c k)).
    by destruct (map_ c !! k). }
  rewrite E. destruct (IH (match map_ c !! k with Some _ => c | None => set_map c (<[k := mkNode dk dv None None]> (map_ c)) end)) as [I1 I2];
    [by destruct (map_ c !! k)|]. split; [done|]. intros j Hj. apply I2. rewrite elem_of_cons in Hj.
  destruct (decide (j = k)) as [->|Hne].
  - right. destruct (map_ c !! k) eqn:Ek; [rewrite Ek; eauto|]. simpl. rewrite lookup_insert_eq. eauto.
  - destruct Hj as [[->|Hj]|Hj]; [done|by left|]. right. destruct (map_ c !! k) eqn:Ek; [done|]. simpl. by rewrite lookup_insert_ne.
Qed.

(** C30. For every sequence of calls to Put, Add, PutAndGetObsolete,
    AddAndGetObsolete (with and without a place for the evicted key), Get, GetSilently, GetCopy,
    GetCopySilently, GetCache, size, Full, Empty, First, Contains, Prioritize and Clear on a
    new cache of any capacity, every call returns what the same call returns on a plain
    list of entries ordered by recency (Put moves to the front, Add inserts only
    absent keys, a new entry evicts the last one when there is no room, and that is
    the key reported as obsolete, Get, GetCopy and Prioritize move to the front), and
    afterwards the hash map holds exactly the entries of that list, size_ is its
    length, at most the capacity (at least one), and the pointers link head_, its
    keys in order and tail_ in both directions.  operator[], Update and
    UpdateSilently are not among the calls: what they do is stated above. *)
Theorem lru_refines cap os :
  is_u64 cap ->
  let '(rs, c) := run run_op (NewLRU cap) os in
  let '(rs', l) := run (spec_op cap) [] os in
  rs = rs' /\ size_ c = zlen l /\ zlen l <= Z.max 1 cap /\ (forall k, val <$> map_ c !! k = find k l) /\ dll c (ring l.*1).
Proof.
  intros Hc. destruct (rep_run cap os (NewLRU cap) [] Hc (lru_rep_new cap)) as [E Hr].
  destruct (run run_op (NewLRU cap) os) as [rs c], (run (spec_op cap) [] os) as [rs' l]. simpl in *.
  pose proof (rep_len _ _ _ Hr) as Hl. unfold limit in Hl. unfold is_u64 in Hc. assert (zlen l <= Z.max 1 cap) by (unfold zlen; lia).
  split_and!; try done; [by eapply rep_size|intros k; by apply (rep_lookup cap)|apply Hr].
Qed.
End lru.

Lemma lru_refines_witness :
  (run run_op (NewLRU 2) [OPut 1 10; OPut 2 20; OGet 1; OPutAndGetObsolete 3 30 true; OGetSilently 2; OAdd 1 11; OGetCopy 1; OSize; OFirst]).1
    = [RBool true; RBool true; RVal (Some 10); RObs true (Some 2); RVal None; RBool true; RVal (Some 10); RSize 2; RPtr (Some (PKey 1))].
Proof.
  pose proof (lru_refines 2 [OPut 1 10; OPut 2 20; OGet 1; OPutAndGetObsolete 3 30 true; OGetSilently 2; OAdd 1 11; OGetCopy 1; OSize; OFirst]
    ltac:(unfold is_u64; lia)) as H.
  revert H. destruct (run run_op _ _) as [rs c]. vm_compute. intros (-> & _). reflexivity.
Defined.
