(* ===== verification/Angle.v ===== *)
(** Angle.v -- angles

    - src/src/apollo/modules/common/math/angle.{h,cc}: angles as signed integers of w bits
    - src/src/apollo/modules/common/math/math_utils.cc: WrapAngle, NormalizeAngle, AngleDiff
    - src/src/apollo/modules/common/math/linear_interpolation.cc: slerp

    A full turn is 2^w of the integers, so that their wrap-around is that of angles; pi is
    the least integer.  The integer conversions of the source wrap as they do on every
    compiler of the project.  [None] is a result of std::lround out of the range of long.
    M_PI and M_1_PI are the doubles nearest to the two numbers, and rational.  The table of
    sines is a parameter. *)

From S2P Require Import Prelude.
From S2P Require Import Double.
From Stdlib Require Import Qround.
Local Open Scope Z_scope.

Definition M_PI : double := 884279719003555 # 281474976710656.
Definition M_1_PI : double := 5734161139222659 # 18014398509481984.

(** ** Angle<T> *)
Definition lround (q : double) : option Z :=
  let z := if dlt q 0 then - Qfloor (- q + (1 # 2)) else Qfloor (q + (1 # 2)) in
  if bool_decide (- 2 ^ 63 <= z < 2 ^ 63) then Some z else None.

Section angle.
Context (w : Z).
Definition wrap (z : Z) : Z := (z + 2 ^ (w - 1)) mod 2 ^ w - 2 ^ (w - 1).
Definition RAW_PI : Z := - 2 ^ (w - 1).
Definition RAW_PI_2 : Z := wrap (- (Z.shiftr RAW_PI 1)).
Definition DEG_TO_RAW : double := (inject_Z RAW_PI / - 180)%Q.
Definition RAD_TO_RAW : double := (inject_Z RAW_PI * - M_1_PI)%Q.
Definition RAW_TO_DEG : double := (- 180 / inject_Z RAW_PI)%Q.
Definition RAW_TO_RAD : double := (- M_PI / inject_Z RAW_PI)%Q.

Record Angle := mkAngle { raw : Z }.
Definition from_deg (value : double) : option Angle := z ← lround (value * DEG_TO_RAW)%Q; Some (mkAngle (wrap z)).
Definition from_rad (value : double) : option Angle := z ← lround (value * RAD_TO_RAW)%Q; Some (mkAngle (wrap z)).
Definition to_deg (a : Angle) : double := (inject_Z (raw a) * RAW_TO_DEG)%Q.
Definition to_rad (a : Angle) : double := (inject_Z (raw a) * RAW_TO_RAD)%Q.
Definition Angle_add (a other : Angle) : Angle := mkAngle (wrap (raw a + raw other)).
Definition Angle_sub (a other : Angle) : Angle := mkAngle (wrap (raw a - raw other)).
Definition Angle_mul (a : Angle) (s : double) : option Angle := z ← lround (inject_Z (raw a) * s)%Q; Some (mkAngle (wrap z)).
Definition Angle_div (a : Angle) (s : double) : option Angle := z ← lround (inject_Z (raw a) / s)%Q; Some (mkAngle (wrap z)).
Definition Angle_ratio (a b : Angle) : double := (inject_Z (raw a) / inject_Z (raw b))%Q.
Definition Angle_eqb (a b : Angle) : bool := bool_decide (raw a = raw b).
End angle.

(** *** Sine and cosine of 16-bit and 8-bit angles, by a table of a quarter turn *)
Definition SIN_TABLE_SIZE : Z := 16385.
Section trigonometry.
Context (SIN_TABLE : list double).
Definition table (i : Z) : option double := if bool_decide (0 <= i) then SIN_TABLE !! Z.to_nat i else None.
Definition sin16 (a : Angle) : option double :=
  let idx := raw a in
  if bool_decide (idx < - RAW_PI_2 16) then
    let idx := wrap 16 (idx + RAW_PI 16) in v ← table (Z.rem idx SIN_TABLE_SIZE); Some (- v)%Q
  else if bool_decide (idx < 0) then v ← table (Z.rem (- idx) SIN_TABLE_SIZE); Some (- v)%Q
  else if bool_decide (idx < RAW_PI_2 16) then table (Z.rem idx SIN_TABLE_SIZE)
  else
    let idx := wrap 16 (RAW_PI 16 - idx) in table (Z.rem idx SIN_TABLE_SIZE).
Definition cos16 (a : Angle) : option double := sin16 (mkAngle (wrap 16 (RAW_PI_2 16 - raw a))).
Definition tan16 (a : Angle) : option double := s ← sin16 a; c ← cos16 a; Some (s / c)%Q.
Definition widen (a : Angle) : Angle := mkAngle (wrap 16 (Z.shiftl (raw a) 8)).
Definition sin8 (a : Angle) : option double := sin16 (widen a).
Definition cos8 (a : Angle) : option double := cos16 (widen a).
Definition tan8 (a : Angle) : option double := tan16 (widen a).
End trigonometry.

(** ** Angles as doubles *)
Definition trunc (q : double) : Z := if dlt q 0 then - Qfloor (- q) else Qfloor q.
Definition fmod (x y : double) : double := (x - y * inject_Z (trunc (x / y)))%Q.
Definition WrapAngle (angle : double) : double :=
  let new_angle := fmod angle (M_PI * 2) in (if dlt new_angle 0 then new_angle + M_PI * 2 else new_angle)%Q.
Definition NormalizeAngle (angle : double) : double :=
  let a := fmod (angle + M_PI) (2 * M_PI) in
  let a := (if dlt a 0 then a + 2 * M_PI else a)%Q in (a - M_PI)%Q.
Definition AngleDiff (from to : double) : double := NormalizeAngle (to - from).

Definition slerp_epsilon : double := 1 # 10000000000.
Definition slerp (a0 t0 a1 t1 t : double) : double :=
  (if dle (fabs (t1 - t0)) slerp_epsilon then NormalizeAngle a0
  else
    let a0_n := NormalizeAngle a0 in
    let a1_n := NormalizeAngle a1 in
    let d := a1_n - a0_n in
    let d := if dlt M_PI d then d - 2 * M_PI else if dlt d (- M_PI) then d + 2 * M_PI else d in
    let r := (t - t0) / (t1 - t0) in
    let a := a0_n + d * r in
    NormalizeAngle a)%Q.

(** ** Integers modulo a full turn *)
Definition is_raw (w z : Z) : Prop := - 2 ^ (w - 1) <= z < 2 ^ (w - 1).
Lemma pow_half w : 1 <= w -> 2 ^ w = 2 * 2 ^ (w - 1).
Proof. intros. rewrite <- Z.pow_succ_r by lia. f_equal. lia. Qed.
Lemma wrap_range w z : 1 <= w -> is_raw w (wrap w z).
Proof.
  intros Hw. unfold is_raw, wrap. pose proof (pow_half w Hw). assert (0 < 2 ^ (w - 1)) by (apply Z.pow_pos_nonneg; lia).
  pose proof (Z.mod_pos_bound (z + 2 ^ (w - 1)) (2 ^ w)). lia.
Qed.
Lemma wrap_small w z : 1 <= w -> is_raw w z -> wrap w z = z.
Proof. intros Hw Hz. unfold is_raw, wrap in *. pose proof (pow_half w Hw). rewrite Z.mod_small; lia. Qed.
Lemma wrap_mod w z : 1 <= w -> exists k, z = wrap w z + k * 2 ^ w.
Proof.
  intros Hw. unfold wrap. assert (0 < 2 ^ w) by (apply Z.pow_pos_nonneg; lia). exists ((z + 2 ^ (w - 1)) / 2 ^ w).
  pose proof (Z.div_mod (z + 2 ^ (w - 1)) (2 ^ w)). lia.
Qed.
Lemma wrap_unique w z z' k : 1 <= w -> is_raw w z' -> z = z' + k * 2 ^ w -> wrap w z = z'.
Proof.
  intros Hw Hr ->. unfold wrap. assert (2 ^ w <> 0) by (apply Z.pow_nonzero; lia).
  replace (z' + k * 2 ^ w + 2 ^ (w - 1)) with (z' + 2 ^ (w - 1) + k * 2 ^ w) by lia.
  rewrite Z_mod_plus_full. apply (wrap_small w z' Hw Hr).
Qed.
Lemma wrap_turn w z k : 1 <= w -> wrap w (z + k * 2 ^ w) = wrap w z.
Proof.
  intros Hw. destruct (wrap_mod w z Hw) as [k' E]. apply (wrap_unique w _ _ (k + k') Hw); [by apply wrap_range|]. lia.
Qed.
Lemma wrap_wrap_l w a b : 1 <= w -> wrap w (wrap w a + b) = wrap w (a + b).
Proof. intros Hw. destruct (wrap_mod w a Hw) as [k E]. rewrite E at 2. rewrite <- (wrap_turn w _ k Hw). f_equal. lia. Qed.

Section group.
Context (w : Z) (Hw : 1 <= w).
Notation "a +w b" := (Angle_add w a b) (at level 50).
Notation "a -w b" := (Angle_sub w a b) (at level 50).

(** Adding and subtracting angles are the operations of the group of rotations: what leaves
    the range of the integers comes back a full turn later. *)
Theorem angles_are_rotations a b c : is_raw w (raw a) ->
  (a +w b) +w c = a +w (b +w c) /\ a +w b = b +w a /\ a +w mkAngle 0 = a /\ (a +w b) -w b = a /\
  (a -w b) +w b = a /\ is_raw w (raw (a +w b)) /\ is_raw w (raw (a -w b)).
Proof using Hw.
  intros Ha. unfold Angle_add, Angle_sub. simpl.
  split; [|split; [|split; [|split; [|split; [|split; by apply wrap_range]]]]].
  - f_equal. rewrite wrap_wrap_l by done. rewrite (Z.add_comm (raw a) (wrap _ _)), (wrap_wrap_l w (raw b + raw c)) by done. f_equal. lia.
  - do 2 f_equal. lia.
  - rewrite Z.add_0_r, wrap_small by done. by destruct a.
  - rewrite <- Z.add_opp_r, wrap_wrap_l by done. rewrite <- Z.add_assoc, Z.add_opp_diag_r, Z.add_0_r, wrap_small by done. by destruct a.
  - rewrite wrap_wrap_l by done. rewrite Z.sub_add, wrap_small by done. by destruct a.
Qed.

Lemma pow_pos_Q : (0 < inject_Z (2 ^ (w - 1)))%Q.
Proof using Hw. rewrite <- (Zlt_Qlt 0). apply Z.pow_pos_nonneg; lia. Qed.
Lemma raw_to_deg_turn : (inject_Z (2 ^ w) * RAW_TO_DEG w == 360)%Q.
Proof using Hw.
  pose proof pow_pos_Q. unfold RAW_TO_DEG, RAW_PI. rewrite (pow_half w Hw), inject_Z_mult, inject_Z_opp. field. lra.
Qed.
Lemma raw_to_deg_inv (v : Q) : (v * DEG_TO_RAW w * RAW_TO_DEG w == v)%Q.
Proof using Hw. pose proof pow_pos_Q. unfold RAW_TO_DEG, DEG_TO_RAW, RAW_PI. rewrite inject_Z_opp. field. lra. Qed.
Lemma wrap_degrees z : exists k, (inject_Z z * RAW_TO_DEG w == inject_Z (wrap w z) * RAW_TO_DEG w + 360 * inject_Z k)%Q.
Proof using Hw.
  destruct (wrap_mod w z Hw) as [k E]. exists k. rewrite E at 1. rewrite inject_Z_plus, inject_Z_mult.
  rewrite <- raw_to_deg_turn. ring.
Qed.

Lemma lround_near (q : Q) z : lround q = Some z -> (inject_Z z - (1 # 2) <= q /\ q <= inject_Z z + (1 # 2))%Q.
Proof.
  unfold lround. destruct (bool_decide _); [|done]. intros E. apply (inj Some) in E. subst z. destruct (dlt q 0); rewrite ?inject_Z_opp.
  - pose proof (Qfloor_le (- q + (1 # 2))). pose proof (Qlt_floor (- q + (1 # 2))) as H1. rewrite inject_Z_plus in H1.
    change (inject_Z 1) with 1%Q in H1. split; lra.
  - pose proof (Qfloor_le (q + (1 # 2))). pose proof (Qlt_floor (q + (1 # 2))) as H1. rewrite inject_Z_plus in H1.
    change (inject_Z 1) with 1%Q in H1. split; lra.
Qed.

(** An angle given in degrees comes back in degrees within half a unit of the integers, up
    to full turns; sums in degrees agree up to full turns. *)
Theorem degrees_round_trip (v : Q) a : from_deg w v = Some a ->
  is_raw w (raw a) /\ exists k, (v - RAW_TO_DEG w / 2 <= to_deg w a + 360 * inject_Z k /\ to_deg w a + 360 * inject_Z k <= v + RAW_TO_DEG w / 2)%Q.
Proof using Hw.
  unfold from_deg. destruct (lround _) as [z|] eqn:E; [|done]. simpl. intros [= <-]. split; [by apply wrap_range|].
  apply lround_near in E as [E1 E2]. destruct (wrap_degrees z) as [k Hk]. exists k. unfold to_deg. simpl. rewrite <- Hk.
  assert (0 < RAW_TO_DEG w)%Q as Hpos.
  { pose proof pow_pos_Q as Hp. unfold RAW_TO_DEG, RAW_PI. rewrite inject_Z_opp.
    setoid_replace (- 180 / - inject_Z (2 ^ (w - 1)))%Q with (180 * / inject_Z (2 ^ (w - 1)))%Q using relation Qeq by (field; lra).
    apply Qinv_lt_0_compat in Hp. nra. }
  pose proof (raw_to_deg_inv v) as Hv. unfold Qdiv. change (/ 2)%Q with (1 # 2). split; nra.
Qed.
Lemma sum_in_degrees a b : exists k, (to_deg w a + to_deg w b == to_deg w (a +w b) + 360 * inject_Z k)%Q.
Proof using Hw.
  destruct (wrap_degrees (raw a + raw b)) as [k Hk]. exists k. unfold to_deg. simpl. rewrite <- Hk, inject_Z_plus. ring.
Qed.
End group.

(** Half a turn cannot be given to an angle of 64 bits: its integer is not a long. *)
Theorem half_a_turn_is_out_of_range : from_deg 64 180 = None /\ from_deg 32 180 = Some (mkAngle (RAW_PI 32)).
Proof. split; vm_compute; reflexivity. Qed.

(** ** The table of sines *)
Section sine.
Context (SIN_TABLE : list double) (f : Z -> Q).
Hypothesis f_odd : forall x, (f (- x) == - f x)%Q.
Hypothesis f_half : forall x, (f (x + 32768) == - f x)%Q.
Hypothesis f_table : forall i, 0 <= i <= 16384 -> exists v, SIN_TABLE !! Z.to_nat i = Some v /\ (v == f i)%Q.

Lemma table_at i : 0 <= i <= 16384 -> exists v, table SIN_TABLE (Z.rem i SIN_TABLE_SIZE) = Some v /\ (v == f i)%Q.
Proof using f_table.
  intros Hi. unfold SIN_TABLE_SIZE, table. rewrite Z.rem_small by lia. rewrite bool_decide_true by lia. by apply f_table.
Qed.

(** Sine and cosine read the table inside its bounds for every angle, and extend the quarter
    turn the table has by the symmetries of the function it was computed from. *)
Theorem sine_extends_the_table a : is_raw 16 (raw a) ->
  (exists v, sin16 SIN_TABLE a = Some v /\ v == f (raw a))%Q /\ (exists v, cos16 SIN_TABLE a = Some v /\ v == f (16384 - raw a))%Q.
Proof using f_odd f_half f_table.
  assert (forall a, is_raw 16 (raw a) -> exists v, sin16 SIN_TABLE a = Some v /\ v == f (raw a))%Q as Hsin.
  { intros [r] Hr. unfold is_raw in Hr. simpl in *. unfold sin16. simpl. change (RAW_PI_2 16) with 16384.
    repeat case_bool_decide.
    - rewrite (wrap_unique 16 _ (r + 32768) (-1)) by (unfold is_raw, RAW_PI; lia).
      destruct (table_at (r + 32768)) as (v & -> & Hv); [lia|]. eexists; split; [done|]. rewrite Hv, f_half. ring.
    - destruct (table_at (- r)) as (v & -> & Hv); [lia|]. eexists; split; [done|]. rewrite Hv, f_odd. ring.
    - apply table_at. lia.
    - rewrite (wrap_unique 16 _ (32768 - r) (-1)) by (unfold is_raw, RAW_PI; lia).
      destruct (table_at (32768 - r)) as (v & -> & Hv); [lia|]. eexists; split; [done|]. rewrite Hv.
      replace (32768 - r) with (- r + 32768) by lia. rewrite f_half, f_odd. ring. }
  intros Ha. split; [by apply Hsin|]. unfold cos16. change (RAW_PI_2 16) with 16384.
  destruct (Hsin (mkAngle (wrap 16 (16384 - raw a)))) as (v & -> & Hv); [by apply wrap_range|].
  eexists; split; [done|]. rewrite Hv. simpl. unfold is_raw in Ha.
  destruct (decide (16384 - raw a < 32768)).
  - by rewrite wrap_small by (unfold is_raw; lia).
  - rewrite (wrap_unique 16 _ (16384 - raw a - 65536) 1) by (unfold is_raw; lia).
    set (y := 16384 - raw a). replace (f y) with (f (y - 65536 + 32768 + 32768)) by (f_equal; lia). rewrite !f_half. ring.
Qed.
End sine.

(** ** Doubles modulo a full turn *)
Section modulo.
Local Open Scope Q_scope.
Lemma pi_pos : 3 < M_PI.
Proof. by apply dlt_true. Qed.
Lemma fmod_spec (x y : Q) : 0 < y -> (exists k, x == fmod x y + y * inject_Z k) /\ - y < fmod x y /\ fmod x y < y /\
  (0 <= x -> 0 <= fmod x y).
Proof.
  intros Hy. unfold fmod. split; [exists (trunc (x / y)); ring|].
  assert (x == y * (x / y)) as Ex by (field; lra). set (q := x / y) in *. clearbody q.
  assert (-1 < q - inject_Z (trunc q) /\ q - inject_Z (trunc q) < 1 /\ (0 <= q -> 0 <= q - inject_Z (trunc q))) as (H1 & H2 & H3).
  { unfold trunc. destruct (dlt q 0) eqn:E; dsimp.
    - pose proof (Qfloor_le (- q)). pose proof (Qlt_floor (- q)) as Hf. rewrite inject_Z_plus in Hf. change (inject_Z 1) with 1 in Hf.
      rewrite inject_Z_opp. repeat split; intros; lra.
    - pose proof (Qfloor_le q). pose proof (Qlt_floor q) as Hf. rewrite inject_Z_plus in Hf. change (inject_Z 1) with 1 in Hf.
      repeat split; intros; lra. }
  rewrite Ex. repeat split; intros; try nra.
Qed.

(** NormalizeAngle gives the angle in [-pi, pi) that differs by full turns. *)
Lemma NormalizeAngle_spec (a : Q) : - M_PI <= NormalizeAngle a /\ NormalizeAngle a < M_PI /\
  exists k, a == NormalizeAngle a + 2 * M_PI * inject_Z k.
Proof.
  pose proof pi_pos. destruct (fmod_spec (a + M_PI) (2 * M_PI) ltac:(lra)) as ((k & Ek) & H1 & H2 & _).
  unfold NormalizeAngle. cbv zeta. destruct (dlt _ 0) eqn:E; dsimp.
  - split; [lra|]. split; [lra|]. exists (k - 1)%Z. unfold Z.sub. rewrite inject_Z_plus. change (inject_Z (- (1))) with (-1). lra.
  - split; [lra|]. split; [lra|]. exists k. lra.
Qed.
Lemma WrapAngle_spec (a : Q) : 0 <= WrapAngle a /\ WrapAngle a < 2 * M_PI /\ exists k, a == WrapAngle a + 2 * M_PI * inject_Z k.
Proof.
  pose proof pi_pos. destruct (fmod_spec a (M_PI * 2) ltac:(lra)) as ((k & Ek) & H1 & H2 & _).
  unfold WrapAngle. cbv zeta. destruct (dlt _ 0) eqn:E; dsimp.
  - split; [lra|]. split; [lra|]. exists (k - 1)%Z. unfold Z.sub. rewrite inject_Z_plus. change (inject_Z (- (1))) with (-1). lra.
  - split; [lra|]. split; [lra|]. exists k. lra.
Qed.

Definition same_angle (a b : Q) : Prop := exists k, a == b + 2 * M_PI * inject_Z k.
Lemma same_angle_normal (a : Q) : same_angle a (NormalizeAngle a).
Proof. apply NormalizeAngle_spec. Qed.

(** slerp goes from the first angle to the second along the shorter arc. *)
Theorem slerp_is_the_short_way (a0 t0 a1 t1 t : Q) : slerp_epsilon < fabs (t1 - t0) ->
  exists d, (- M_PI <= d /\ d <= M_PI) /\ same_angle (a0 + d) a1 /\ same_angle (a0 + d * ((t - t0) / (t1 - t0))) (slerp a0 t0 a1 t1 t).
Proof.
  intros Hlen. unfold slerp. rewrite (proj2 (dle_false _ _) Hlen). cbv zeta.
  destruct (NormalizeAngle_spec a0) as (L0 & U0 & k0 & E0). destruct (NormalizeAngle_spec a1) as (L1 & U1 & k1 & E1).
  set (n0 := NormalizeAngle a0) in *. set (n1 := NormalizeAngle a1) in *. set (r := (t - t0) / (t1 - t0)).
  set (d := if dlt M_PI _ then _ else _). pose proof pi_pos.
  assert (exists k, (- M_PI <= d /\ d <= M_PI) /\ n0 + d == n1 + 2 * M_PI * inject_Z k) as (k & Hd & Ed).
  { unfold d. destruct (dlt M_PI _) eqn:E; [|destruct (dlt _ (- M_PI)) eqn:E']; dsimp.
    - exists (-1)%Z. change (inject_Z (-1)) with (-1). repeat split; lra.
    - exists 1%Z. change (inject_Z 1) with 1. repeat split; lra.
    - exists 0%Z. change (inject_Z 0) with 0. repeat split; lra. }
  exists d. split; [done|]. split.
  - exists (k0 + k - k1)%Z. unfold Z.sub. rewrite !inject_Z_plus, inject_Z_opp. nra.
  - destruct (NormalizeAngle_spec (n0 + d * r)) as (_ & _ & k2 & E2). exists (k0 + k2)%Z. rewrite inject_Z_plus. rewrite E0. nra.
Qed.
End modulo.

(** ** Examples *)
(** A wave of straight lines in place of the sine. *)
Definition wave (x : Z) : Q :=
  let y := wrap 16 x in
  if bool_decide (y < -16384) then inject_Z (- 32768 - y) / 16384
  else if bool_decide (y <= 16384) then inject_Z y / 16384 else inject_Z (32768 - y) / 16384.
Definition wave_table : list double := map wave (seqZ 0 16385).
Ltac wave_lia := repeat case_bool_decide; try lia; unfold Qeq, Qdiv, Qopp, Qmult, Qinv, inject_Z; cbn [Qnum Qden]; lia.
Lemma wave_odd x : (wave (- x) == - wave x)%Q.
Proof.
  destruct (wrap_mod 16 x ltac:(lia)) as [k E]. pose proof (wrap_range 16 x ltac:(lia)) as Hr. unfold is_raw in Hr.
  unfold wave. set (y := wrap 16 x) in *. clearbody y. simpl in Hr. destruct (decide (y = -32768)) as [->|Hy].
  - rewrite (wrap_unique 16 _ (-32768) (1 - k)) by (unfold is_raw; simpl; lia). done.
  - rewrite (wrap_unique 16 _ (- y) (- k)) by (unfold is_raw; simpl; lia).
    wave_lia.
Qed.
Lemma wave_half x : (wave (x + 32768) == - wave x)%Q.
Proof.
  destruct (wrap_mod 16 x ltac:(lia)) as [k E]. pose proof (wrap_range 16 x ltac:(lia)) as Hr. unfold is_raw in Hr.
  unfold wave. set (y := wrap 16 x) in *. clearbody y. simpl in Hr. destruct (decide (y < 0)).
  - rewrite (wrap_unique 16 _ (y + 32768) k) by (unfold is_raw; simpl; lia).
    wave_lia.
  - rewrite (wrap_unique 16 _ (y - 32768) (k + 1)) by (unfold is_raw; simpl; lia).
    wave_lia.
Qed.
Lemma wave_table_at i : 0 <= i <= 16384 -> exists v, wave_table !! Z.to_nat i = Some v /\ (v == wave i)%Q.
Proof.
  intros Hi. exists (wave i). split; [|done]. unfold wave_table. rewrite list_lookup_fmap, lookup_seqZ_lt by lia. simpl.
  by rewrite Z2Nat.id by lia.
Qed.

Lemma sine_extends_the_table_witness :
  (exists v, sin16 wave_table (mkAngle (-30000)) = Some v /\ v == wave (-30000))%Q /\
  (exists v, cos16 wave_table (mkAngle (-30000)) = Some v /\ v == wave (16384 - -30000))%Q.
Proof.
  apply (sine_extends_the_table wave_table wave wave_odd wave_half wave_table_at (mkAngle (-30000))).
  unfold is_raw; simpl; lia.
Defined.

Example angles_at : option_map raw (from_deg 16 (-150 - 360)) = Some (-27307) /\
  raw (Angle_add 16 (mkAngle 30000) (mkAngle 5000)) = -30536 /\ Qeq_bool (NormalizeAngle (7 # 2)) ((7 # 2) - 2 * M_PI) = true.
Proof. split; [vm_compute; reflexivity|]. split; vm_compute; reflexivity. Qed.
