(* ===== verification/LaneInfo.v ===== *)
(** LaneInfo.v -- the geometry of a lane of the map

    - src/src/apollo/modules/map/hdmap/hdmap_common.{h,cc}: the points and segments of
      curves, and LaneInfo
    - src/src/apollo/modules/map/proto: the fields of messages that are read

    std::hypot, std::atan2 and std::sqrt are parameters.  [None] is a failed CHECK, an
    access beyond the end of a vector, or fuel of the tree that has run out.  An Id is its
    string.  What a lane knows of its overlaps and its road is set by the map. *)

From S2P Require Import Prelude.
From S2P Require Import Double.
From S2P Require Import Geometry.
From S2P Require Import KDTree.
From S2P Require Import Curve1d.
From S2P Require Import Angle.
Local Open Scope Q_scope.

(** ** Messages *)
Record PointENU := mkPoint { px : double; py : double; pz : double }.
Inductive CurveSegment := line_segment (point : list PointENU) | other_curve.
Definition Curve : Type := list CurveSegment.
Inductive LaneTurn := NO_TURN | LEFT_TURN | RIGHT_TURN | U_TURN.
#[export] Instance lane_turn_eq : EqDecision LaneTurn.
Proof. solve_decision. Defined.

Record Lane := mkLane {
  lane_id : string; central_curve : Curve; lane_overlap_id : list string;
  predecessor_id : list string; successor_id : list string; turn : LaneTurn;
  left_sample : list (double * double); right_sample : list (double * double);
  left_road_sample : list (double * double); right_road_sample : list (double * double) }.

Inductive OverlapKind :=
| no_overlap_info | lane_overlap_info (start_s end_s : double) | signal_overlap_info | stop_sign_overlap_info | crosswalk_overlap_info
| junction_overlap_info | yield_sign_overlap_info | clear_area_overlap_info | speed_bump_overlap_info
| parking_space_overlap_info | pnc_junction_overlap_info.
Record ObjectOverlapInfo := mkOverlapObject { oo_id : string; overlap_info : OverlapKind }.
Record Overlap := mkOverlap { overlap_id : string; overlap_object : list ObjectOverlapInfo }.

(** ** Points of curves *)
Definition kDuplicatedPointsEpsilon : double := 1 # 10000000.
(** The points are moved to the front of the vector while it is read: [n] points are left. *)
Fixpoint remove_duplicates (n i count : nat) (points : list Vec2d) : list Vec2d :=
  match n with
  | O => take count points
  | S n =>
    match points !! i with
    | Some point =>
      let limit := kDuplicatedPointsEpsilon * kDuplicatedPointsEpsilon in
      if (count =? 0)%nat || (if points !! (count - 1)%nat is Some last then dlt limit (DistanceSquareTo point last) else false)
      then remove_duplicates n (S i) (S count) (<[count := point]> points)
      else remove_duplicates n (S i) count points
    | None => points
    end
  end.
Definition RemoveDuplicates (points : list Vec2d) : list Vec2d := remove_duplicates (length points) 0 0 points.

Definition curve_points (c : CurveSegment) : list Vec2d :=
  match c with line_segment points => map (fun p => mkVec (px p) (py p)) points | other_curve => [] end.
Definition PointsFromCurve (input_curve : Curve) : list Vec2d := RemoveDuplicates (concat (map curve_points input_curve)).

Section lane.
Context (hypot atan2 : double -> double -> double) (sqrt : double -> double).
Context {SS : StdSort}.
Notation segment := (NewSegment hypot atan2).

Fixpoint segments_of (points : list Vec2d) : list LineSegment2d :=
  match points with
  | p :: ((q :: _) as rest) => segment p q :: segments_of rest
  | _ => []
  end.
Definition SegmentsFromCurve (curve : Curve) (segments : list LineSegment2d) : list LineSegment2d :=
  segments ++ segments_of (PointsFromCurve curve).
Definition PointFromVec2d (p : Vec2d) : PointENU := mkPoint (x_ p) (y_ p) 0.

(** ** LaneInfo *)
Record LaneOverlaps := mkLaneOverlaps {
  overlaps_ : list Overlap; cross_lanes_ : list Overlap; signals_ : list Overlap; yield_signs_ : list Overlap;
  stop_signs_ : list Overlap; crosswalks_ : list Overlap; junctions_ : list Overlap; clear_areas_ : list Overlap;
  speed_bumps_ : list Overlap; parking_spaces_ : list Overlap; pnc_junctions_ : list Overlap }.
Definition no_overlaps : LaneOverlaps := mkLaneOverlaps [] [] [] [] [] [] [] [] [] [] [].

Definition LaneSegmentBox : Type := ObjectWithAABox string LineSegment2d.
Record LaneInfo := mkLaneInfo {
  lane_ : Lane; points_ : list Vec2d; unit_directions_ : list Vec2d; headings_ : list double;
  segments_ : list LineSegment2d; accumulated_s_ : list double; overlap_ids_ : list string; lane_overlaps_ : LaneOverlaps;
  total_length_ : double;
  sampled_left_width_ : list (double * double); sampled_right_width_ : list (double * double);
  sampled_left_road_width_ : list (double * double); sampled_right_road_width_ : list (double * double);
  segment_box_list_ : list LaneSegmentBox; lane_segment_kdtree_ : Node LaneSegmentBox;
  road_id_ : string; section_id_ : string }.

Definition lane_params : AABoxKDTreeParams := mkParams (-1) 16 5.
Definition segment_boxes {Object : Type} (object : Object) (segments : list LineSegment2d) : option (list (ObjectWithAABox Object LineSegment2d)) :=
  mapM (fun '(id, g) => segment_box object id g) (imap pair segments).
Definition CreateKDTree (id : string) (segments : list LineSegment2d) : option (list LaneSegmentBox * Node LaneSegmentBox) :=
  boxes ← segment_boxes id segments;
  tree ← AABoxKDTree2d (length boxes) boxes lane_params;
  Some (boxes, tree).

Fixpoint accumulate (s : double) (segments : list LineSegment2d) : list double * double :=
  match segments with
  | [] => ([], s)
  | g :: segments => let '(l, total) := accumulate (s + seg_length_ g) segments in (s :: l, total)
  end.
Definition NewLaneInfo (lane : Lane) : option LaneInfo :=
  let points := PointsFromCurve (central_curve lane) in
  checked (2 <=? length points)%nat
    (let segments := segments_of points in
     let '(accumulated, s) := accumulate 0 segments in
     let directions := map unit_direction_ segments in
     back ← last directions;
     let directions := directions ++ [back] in
     '(boxes, tree) ← CreateKDTree (lane_id lane) segments;
     Some (mkLaneInfo lane points directions (map (Geometry.Angle atan2) directions) segments (accumulated ++ [s])
             (lane_overlap_id lane) no_overlaps s (left_sample lane) (right_sample lane) (left_road_sample lane) (right_road_sample lane)
             boxes tree EmptyString EmptyString)).

(** *** Widths *)
Fixpoint width_search (fuel : nat) (samples : list (double * double)) (s : double) (low high : nat) : option (nat * nat) :=
  match fuel with
  | O => None
  | S fuel =>
    if (low + 1 <? high)%nat then
      let mid := ((low + high) / 2)%nat in
      sample ← samples !! mid;
      if dle sample.1 s then width_search fuel samples s mid high else width_search fuel samples s low mid
    else Some (low, high)
  end.
Definition GetWidthFromSample (samples : list (double * double)) (s : double) : option double :=
  match samples, last samples with
  | front :: _, Some back =>
    if dle s front.1 then Some front.2
    else if dle back.1 s then Some back.2
    else
      '(low, high) ← width_search (length samples) samples s 0 (length samples);
      sample1 ← samples !! low;
      sample2 ← samples !! high;
      let ratio := (sample2.1 - s) / (sample2.1 - sample1.1) in
      Some (sample1.2 * ratio + sample2.2 * (1 - ratio))
  | _, _ => Some 0
  end.
Definition GetWidth (l : LaneInfo) (s : double) : option (double * double) :=
  left_width ← GetWidthFromSample (sampled_left_width_ l) s;
  right_width ← GetWidthFromSample (sampled_right_width_ l) s;
  Some (left_width, right_width).
Definition GetWidth_total (l : LaneInfo) (s : double) : option double := '(left_width, right_width) ← GetWidth l s; Some (left_width + right_width).
Definition GetEffectiveWidth (l : LaneInfo) (s : double) : option double :=
  '(left_width, right_width) ← GetWidth l s; Some (2 * dmin left_width right_width).
Definition GetRoadWidth (l : LaneInfo) (s : double) : option (double * double) :=
  left_width ← GetWidthFromSample (sampled_left_road_width_ l) s;
  right_width ← GetWidthFromSample (sampled_right_road_width_ l) s;
  Some (left_width, right_width).
Definition GetRoadWidth_total (l : LaneInfo) (s : double) : option double := '(left_width, right_width) ← GetRoadWidth l s; Some (left_width + right_width).

(** *** Heading and curvature *)
Definition Heading (l : LaneInfo) (s : double) : option double :=
  let kEpsilon := 1 # 1000 in
  front ← head (accumulated_s_ l);
  back ← last (accumulated_s_ l);
  if dlt (s + kEpsilon) front then Some 0
  else if dlt back (s - kEpsilon) then Some 0
  else
    let index := lower_bound (accumulated_s_ l) s in
    if (index =? 0)%nat then headings_ l !! index
    else
      iter ← accumulated_s_ l !! index;
      if dle (iter - s) kMathEpsilon then headings_ l !! index
      else
        h0 ← headings_ l !! (index - 1)%nat; s0 ← accumulated_s_ l !! (index - 1)%nat;
        h1 ← headings_ l !! index; s1 ← accumulated_s_ l !! index;
        Some (slerp h0 s0 h1 s1 s).
Definition Curvature (l : LaneInfo) (s : double) : option double :=
  if (length (points_ l) <? 2)%nat then Some 0
  else
    let kEpsilon := 1 # 1000 in
    front ← head (accumulated_s_ l);
    back ← last (accumulated_s_ l);
    if dlt (s + kEpsilon) front then Some 0
    else if dlt (back + kEpsilon) s then Some 0
    else
      let index := lower_bound (accumulated_s_ l) s in
      if (index =? length (accumulated_s_ l))%nat then Some 0
      else if (index =? 0)%nat then Some 0
      else
        h0 ← headings_ l !! (index - 1)%nat; s0 ← accumulated_s_ l !! (index - 1)%nat;
        h1 ← headings_ l !! index; s1 ← accumulated_s_ l !! index;
        Some ((h1 - h0) / (s1 - s0 + kEpsilon)).

(** *** Points and distances *)
Definition empty_point : PointENU := mkPoint 0 0 0.
Definition GetSmoothPoint (l : LaneInfo) (s : double) : option PointENU :=
  if (length (points_ l) <? 2)%nat then Some empty_point
  else if dle s 0 then PointFromVec2d <$> head (points_ l)
  else if dle (total_length_ l) s then PointFromVec2d <$> last (points_ l)
  else
    let index := lower_bound (accumulated_s_ l) s in
    match accumulated_s_ l !! index with
    | None => Some empty_point
    | Some low =>
      let delta_s := low - s in
      p ← points_ l !! index;
      if dlt delta_s kMathEpsilon then Some (PointFromVec2d p)
      else
        checked (negb (index =? 0)%nat)
          (u ← unit_directions_ l !! (index - 1)%nat; Some (PointFromVec2d (vsub p (vmul u delta_s))))
    end.

Definition Lane_DistanceTo (l : LaneInfo) (point : Vec2d) : double :=
  match GetNearestObject (lane_segment_kdtree_ l) point with
  | Some segment_box => Seg_DistanceTo hypot (geo_object_ segment_box) point
  | None => 0
  end.
(** The distance, and what is written to map_point, s_offset and s_offset_index. *)
Definition Lane_DistanceTo_s (l : LaneInfo) (point : Vec2d) : option (double * option (Vec2d * double * nat)) :=
  match GetNearestObject (lane_segment_kdtree_ l) point with
  | Some segment_box =>
    let index := Z.to_nat (id_ segment_box) in
    g ← segments_ l !! index;
    let '(distance, map_point) := Seg_DistanceTo_nearest hypot g point in
    s0 ← accumulated_s_ l !! index;
    Some (distance, Some (map_point, s0 + DistanceTo hypot (start_ g) map_point, index))
  | None => Some (0, None)
  end.
Definition GetNearestPoint (l : LaneInfo) (point : Vec2d) : option (PointENU * option double) :=
  match GetNearestObject (lane_segment_kdtree_ l) point with
  | Some segment_box =>
    g ← segments_ l !! Z.to_nat (id_ segment_box);
    let '(distance, nearest_point) := Seg_DistanceTo_nearest hypot g point in
    Some (PointFromVec2d nearest_point, Some distance)
  | None => Some (empty_point, None)
  end.

(** The index and the squared distance of the nearest of the segments from [i] on. *)
Fixpoint nearest_segment (i : nat) (segments : list LineSegment2d) (point : Vec2d) (min : nat * option double) : nat * option double :=
  match segments with
  | [] => min
  | g :: segments =>
    let distance := Seg_DistanceSquareTo g point in
    nearest_segment (S i) segments point
      (if (if min.2 is Some m then dlt distance m else true) then (i, Some distance) else min)
  end.
(** Nothing is returned for [false]. *)
Definition GetProjection (l : LaneInfo) (point : Vec2d) : option (option (double * double)) :=
  match segments_ l with
  | [] => Some None
  | _ =>
    let seg_num := length (segments_ l) in
    let '(min_index, m) := nearest_segment 0 (segments_ l) point (0%nat, None) in
    m ← m;
    let min_dist := sqrt m in
    nearest_seg ← segments_ l !! min_index;
    s0 ← accumulated_s_ l !! min_index;
    let prod := ProductOntoUnit nearest_seg point in
    let proj := ProjectOntoUnit nearest_seg point in
    let side := (if dlt 0 prod then 1 else -1) * min_dist in
    Some (Some
      (if (min_index =? 0)%nat then
        (dmin proj (seg_length_ nearest_seg), if dlt proj 0 then prod else side)
      else if (min_index =? seg_num - 1)%nat then
        (s0 + dmax 0 proj, if dlt 0 proj then prod else side)
      else (s0 + dmax 0 (dmin proj (seg_length_ nearest_seg)), side)))
  end.

Definition kEpsilon : double := 1 # 10.
Definition IsOnLane (l : LaneInfo) (point : Vec2d) : option bool :=
  r ← GetProjection l point;
  match r with
  | None => Some false
  | Some (accumulate_s, lateral) =>
    if dlt (total_length_ l + kEpsilon) accumulate_s || dlt (accumulate_s + kEpsilon) 0 then Some false
    else '(left_width, right_width) ← GetWidth l accumulate_s; Some (dlt lateral left_width && dlt (- right_width) lateral)
  end.
(** The corners of the box are those of Box2d::GetAllCorners. *)
Fixpoint IsOnLane_corners (l : LaneInfo) (corners : list Vec2d) : option bool :=
  match corners with
  | [] => Some true
  | corner :: corners => on ← IsOnLane l corner; if (on : bool) then IsOnLane_corners l corners else Some false
  end.
End lane.

(** ** Removing duplicates *)
(** A point is kept when it is apart from the last one kept. *)
Definition apart (p q : Vec2d) : Prop := kDuplicatedPointsEpsilon * kDuplicatedPointsEpsilon < DistanceSquareTo q p.
Fixpoint dedup (kept : option Vec2d) (l : list Vec2d) : list Vec2d :=
  match l with
  | [] => []
  | p :: l =>
    if (if kept is Some q then dlt (kDuplicatedPointsEpsilon * kDuplicatedPointsEpsilon) (DistanceSquareTo p q) else true)
    then p :: dedup (Some p) l else dedup kept l
  end.

Lemma last_lookup_pred {A} (l : list A) : l <> [] -> l !! (length l - 1)%nat = last l.
Proof. intros Hl. rewrite last_lookup. f_equal. destruct l; [done|simpl; lia]. Qed.
Lemma remove_duplicates_dedup out junk rest : (out = [] -> junk = []) ->
  remove_duplicates (length rest) (length out + length junk) (length out) (out ++ junk ++ rest) = out ++ dedup (last out) rest.
Proof.
  revert out junk. induction rest as [|p rest IH]; intros out junk Hj; cbn [length remove_duplicates dedup].
  { by rewrite take_app_length, app_nil_r. }
  assert ((out ++ junk ++ p :: rest) !! (length out + length junk)%nat = Some p) as ->.
  { rewrite app_assoc, <- length_app. by apply list_lookup_middle. }
  assert (((length out =? 0)%nat || (if (out ++ junk ++ p :: rest) !! (length out - 1)%nat is Some last
    then dlt (kDuplicatedPointsEpsilon * kDuplicatedPointsEpsilon) (DistanceSquareTo p last) else false)) =
    (if last out is Some q then dlt (kDuplicatedPointsEpsilon * kDuplicatedPointsEpsilon) (DistanceSquareTo p q) else true)) as ->.
  { destruct (decide (out = [])) as [->|Ho]; [done|]. rewrite lookup_app_l by (destruct out; [done|simpl; lia]).
    rewrite last_lookup_pred by done. destruct (last out) eqn:El; [|by apply last_None in El].
    by destruct out. }
  destruct (if last out is Some q then _ else _) eqn:E.
  - assert (<[length out := p]> (out ++ junk ++ p :: rest) = (out ++ [p]) ++ (tail (junk ++ [p])) ++ rest) as ->.
    { rewrite insert_app_r_alt, Nat.sub_diag by lia. rewrite <- !app_assoc. f_equal. destruct junk; simpl; [done|].
      by rewrite <- app_assoc. }
    specialize (IH (out ++ [p]) (tail (junk ++ [p])) ltac:(by destruct out)). rewrite last_snoc in IH.
    replace (length (out ++ [p]) + length (tail (junk ++ [p])))%nat with (S (length out + length junk)) in IH
      by (rewrite length_app; destruct junk; simpl; rewrite ?length_app; simpl; lia).
    replace (length (out ++ [p])) with (S (length out)) in IH by (rewrite length_app; simpl; lia).
    rewrite IH. by rewrite <- app_assoc.
  - rewrite <- (IH out (junk ++ [p])).
    + rewrite length_app. simpl. rewrite <- app_assoc. f_equal. lia.
    + intros ->. simpl in E. done.
Qed.
(** Compacting in place gives what a pass over the points gives. *)
Lemma RemoveDuplicates_dedup points : RemoveDuplicates points = dedup None points.
Proof. apply (remove_duplicates_dedup [] [] points). done. Qed.

Lemma dedup_apart l kept i p q : (default [] (option_map (fun k => [k]) kept) ++ dedup kept l) !! i = Some p ->
  (default [] (option_map (fun k => [k]) kept) ++ dedup kept l) !! S i = Some q -> apart p q.
Proof.
  revert kept i. induction l as [|a l IH]; intros kept i.
  { destruct kept; simpl; [by destruct i|done]. }
  cbn [dedup]. destruct kept as [k|]; simpl.
  - destruct (dlt _ _) eqn:E; [|apply (IH (Some k))]. dsimp. destruct i as [|i].
    + simpl. intros [= <-] [= <-]. done.
    + apply (IH (Some a) i).
  - apply (IH (Some a) i).
Qed.
Lemma PointsFromCurve_apart c i p q : PointsFromCurve c !! i = Some p -> PointsFromCurve c !! S i = Some q -> apart p q.
Proof. unfold PointsFromCurve. rewrite RemoveDuplicates_dedup. apply (dedup_apart _ None i). Qed.

(** ** The shape of a lane *)
Section shape.
Context (hypot atan2 : double -> double -> double) (sqrt : double -> double).
Context {SS : StdSort} {SL : StdSortLaws}.
Notation segment := (NewSegment hypot atan2).
Notation NewLaneInfo := (NewLaneInfo hypot atan2).
Implicit Types (l : LaneInfo).

Lemma segments_of_lookup points i p q : points !! i = Some p -> points !! S i = Some q ->
  segments_of hypot atan2 points !! i = Some (segment p q).
Proof.
  revert i. induction points as [|a points IH]; intros i; [done|]. destruct points as [|b points]; [by destruct i|].
  destruct i as [|i]; [simpl; by intros [= <-] [= <-]|]. intros Hp Hq. by apply IH.
Qed.
Lemma segments_of_inv points i g : segments_of hypot atan2 points !! i = Some g ->
  exists p q, points !! i = Some p /\ points !! S i = Some q /\ g = segment p q.
Proof.
  revert i. induction points as [|a points IH]; intros i; [done|]. destruct points as [|b points]; [done|].
  destruct i as [|i]; [simpl; intros [= <-]; eauto|]. intros Hg. by apply IH.
Qed.
Lemma segments_of_length points : length (segments_of hypot atan2 points) = (length points - 1)%nat.
Proof.
  induction points as [|a points IH]; [done|]. destruct points as [|b points]; [done|]. cbn [segments_of length] in *. rewrite IH. lia.
Qed.

Lemma accumulate_spec s gs acc total : accumulate s gs = (acc, total) ->
  length acc = length gs /\ (acc ++ [total]) !! 0%nat = Some s /\
  forall i g, gs !! i = Some g -> exists a, (acc ++ [total]) !! i = Some a /\ (acc ++ [total]) !! S i = Some (a + seg_length_ g).
Proof.
  revert s acc. induction gs as [|g gs IH]; intros s acc; simpl.
  { intros [= <- <-]. done. }
  destruct (accumulate _ gs) as [acc' total'] eqn:E. intros [= <- <-]. destruct (IH _ _ E) as (H1 & H2 & H3).
  split; [simpl; lia|]. split; [done|]. intros [|i] g' Hg; simpl in *.
  - injection Hg as <-. exists s. by split.
  - by apply H3.
Qed.

Lemma mapM_total {A B} (f : A -> option B) (xs : list A) : (forall a, a ∈ xs -> exists b, f a = Some b) -> exists k, mapM f xs = Some k.
Proof. intros Hf. apply mapM_is_Some, Forall_forall. intros a Ha. unfold is_Some. auto. Qed.
Lemma segment_boxes_total {Object} (object : Object) gs : exists boxes, segment_boxes object gs = Some boxes.
Proof.
  apply mapM_total. intros [id g] _. destruct (segment_box_ok hypot atan2 object id g) as (o & E & _). eauto.
Qed.
Lemma segment_boxes_lookup {Object} (object : Object) gs boxes : segment_boxes object gs = Some boxes ->
  length boxes = length gs /\
  (forall i g, gs !! i = Some g -> exists o, boxes !! i = Some o /\ segment_box object i g = Some o).
Proof.
  intros E. apply mapM_Some in E. pose proof (Forall2_length _ _ _ E) as El. rewrite length_imap in El. split; [done|].
  intros i g Hg. rewrite Forall2_lookup in E. specialize (E i). rewrite list_lookup_imap, Hg in E. simpl in E.
  destruct (boxes !! i) as [o|]; inversion E as [? ? E'|]; simplify_eq. eauto.
Qed.
Lemma segment_boxes_elem {Object} (object : Object) gs boxes o : segment_boxes object gs = Some boxes -> o ∈ boxes ->
  exists i g, gs !! i = Some g /\ object_ o = object /\ geo_object_ o = g /\ id_ o = Z.of_nat i /\ (segment_ok hypot atan2 g -> object_ok o).
Proof.
  intros E [i Ho]%list_elem_of_lookup. destruct (segment_boxes_lookup _ _ _ E) as [El Hl].
  pose proof (lookup_lt_Some _ _ _ Ho) as Hi. rewrite El in Hi. apply lookup_lt_is_Some in Hi as [g Hg].
  destruct (Hl i g Hg) as (o' & Ho' & Hb). rewrite Ho in Ho'. injection Ho' as <-.
  destruct (segment_box_ok hypot atan2 object i g) as (o' & Hb' & ? & ? & ? & ?). rewrite Hb in Hb'. injection Hb' as <-. eauto 8.
Qed.

(** The vectors of a lane belong together: one heading and one length per point, and the
    tree over its segments. *)
Record lane_wf l : Prop := {
  wf_points : (2 <= length (points_ l))%nat;
  wf_segments : segments_ l = segments_of hypot atan2 (points_ l);
  wf_acc : length (accumulated_s_ l) = length (points_ l);
  wf_start : accumulated_s_ l !! 0%nat = Some 0;
  wf_step i g : segments_ l !! i = Some g ->
    exists a, accumulated_s_ l !! i = Some a /\ accumulated_s_ l !! S i = Some (a + seg_length_ g);
  wf_total : last (accumulated_s_ l) = Some (total_length_ l);
  wf_dirs : length (unit_directions_ l) = length (points_ l);
  wf_dir i g : segments_ l !! i = Some g -> unit_directions_ l !! i = Some (unit_direction_ g);
  wf_headings : headings_ l = map (Geometry.Angle atan2) (unit_directions_ l);
  wf_apart i p q : points_ l !! i = Some p -> points_ l !! S i = Some q -> apart p q;
  wf_boxes : segment_boxes (lane_id (lane_ l)) (segments_ l) = Some (segment_box_list_ l);
  wf_tree : AABoxKDTree2d (length (segment_box_list_ l)) (segment_box_list_ l) lane_params = Some (lane_segment_kdtree_ l) }.

(** A lane is built exactly when its curve has two points that are apart. *)
Theorem lane_is_built lane : (2 <= length (PointsFromCurve (central_curve lane)))%nat <-> exists l, NewLaneInfo lane = Some l.
Proof.
  unfold LaneInfo.NewLaneInfo. split.
  - intros Hp. unfold checked. rewrite (proj2 (Nat.leb_le _ _) Hp). destruct (accumulate _ _) as [acc s].
    set (gs := segments_of hypot atan2 _). assert (length gs <> 0%nat) by (unfold gs; rewrite segments_of_length; lia).
    destruct (last (map unit_direction_ gs)) as [u|] eqn:Eu.
    2: { apply last_None in Eu. apply (f_equal length) in Eu. rewrite length_map in Eu. done. }
    simpl. unfold CreateKDTree. destruct (segment_boxes_total (lane_id lane) gs) as [boxes ->]. simpl.
    destruct (kdtree_is_built (length boxes) boxes lane_params) as [n ->]; [lia|by apply dle_true|]. simpl. eauto.
  - intros [l E]. unfold checked in E. destruct (2 <=? _)%nat eqn:E2; [|done]. by apply Nat.leb_le.
Qed.

Lemma NewLaneInfo_wf lane l : NewLaneInfo lane = Some l -> lane_wf l /\ lane_ l = lane /\ road_id_ l = EmptyString /\
  section_id_ l = EmptyString /\ overlap_ids_ l = lane_overlap_id lane /\ lane_overlaps_ l = no_overlaps.
Proof.
  unfold LaneInfo.NewLaneInfo, checked. destruct (2 <=? _)%nat eqn:E2; [|done]. apply Nat.leb_le in E2.
  set (points := PointsFromCurve (central_curve lane)) in *. destruct (accumulate _ _) as [acc s] eqn:Ea.
  destruct (last _) as [u|] eqn:Eu; [|done]. simpl. unfold CreateKDTree.
  destruct (segment_boxes _ _) as [boxes|] eqn:Eb; [|done]. simpl. destruct (AABoxKDTree2d _ _ _) as [n|] eqn:En; [|done]. simpl.
  intros [= <-]. split; [|done]. destruct (accumulate_spec _ _ _ _ Ea) as (L1 & L2 & L3).
  assert (length (segments_of hypot atan2 points) = (length points - 1)%nat) as Ls by apply segments_of_length.
  split; simpl; try done.
  - rewrite length_app, L1, Ls. simpl. lia.
  - apply last_snoc.
  - rewrite length_app, length_map, Ls. simpl. lia.
  - intros i g Hg. rewrite lookup_app_l by (rewrite length_map; by eapply lookup_lt_Some).
    by rewrite list_lookup_fmap, Hg.
  - intros i p q. apply PointsFromCurve_apart.
Qed.

(** ** Lanes whose lengths are exact *)
Definition lane_exact l : Prop := forall i p q, points_ l !! i = Some p -> points_ l !! S i = Some q -> seg_exact hypot p q.

Lemma lane_segment l i g : lane_wf l -> segments_ l !! i = Some g ->
  exists p q, points_ l !! i = Some p /\ points_ l !! S i = Some q /\ g = segment p q.
Proof. intros Hwf. rewrite (wf_segments l Hwf). apply segments_of_inv. Qed.
Lemma segment_at l i : lane_wf l -> (S i < length (points_ l))%nat -> exists g, segments_ l !! i = Some g.
Proof.
  intros Hwf Hi. apply lookup_lt_is_Some. rewrite (wf_segments l Hwf), segments_of_length. lia.
Qed.

Lemma apart_long p q : apart p q -> seg_exact hypot p q -> kMathEpsilon < seg_length_ (segment p q).
Proof.
  unfold apart, seg_exact, hypot_exact, DistanceSquareTo. simpl. intros Ha [H0 H1].
  set (L := hypot _ _) in *. clearbody L. unfold kDuplicatedPointsEpsilon, kMathEpsilon in *.
  destruct (Qlt_le_dec (1 # 10000000000) L) as [|Hle]; [done|]. nra.
Qed.
Lemma lane_segment_ok l i g : lane_wf l -> lane_exact l -> segments_ l !! i = Some g -> segment_ok hypot atan2 g.
Proof.
  intros Hwf Hx Hg. destruct (lane_segment l i g Hwf Hg) as (p & q & Hp & Hq & ->).
  split; [done|]. split; [by eapply Hx|]. apply apart_long; [by eapply wf_apart|by eapply Hx].
Qed.
Lemma lane_boxes_ok l : lane_wf l -> lane_exact l -> all_ok (segment_box_list_ l).
Proof.
  intros Hwf Hx o Ho. destruct (segment_boxes_elem _ _ _ _ (wf_boxes l Hwf) Ho) as (i & g & Hg & _ & _ & _ & Hok).
  apply Hok. by eapply lane_segment_ok.
Qed.

(** ** Points along the lane *)
Lemma lower_bound_spec (xs : list double) (x : Q) : (lower_bound xs x <= length xs)%nat /\
  (forall j y, (j < lower_bound xs x)%nat -> xs !! j = Some y -> y < x) /\
  (forall y, xs !! lower_bound xs x = Some y -> x <= y).
Proof.
  induction xs as [|a xs (H1 & H2 & H3)]; simpl; [split; [lia|split; [lia|done]]|].
  destruct (dlt a x) eqn:E; dsimp.
  - split; [lia|]. split; [|done]. intros [|j] y Hj; simpl; [by intros [= <-]|]. intros Hy. apply (H2 j); [lia|done].
  - split; [lia|]. split; [lia|]. by intros y [= <-].
Qed.
(** Beyond the last entry, lower_bound is the end. *)
Lemma lower_bound_end (xs : list double) (x : Q) : (forall y, y ∈ xs -> y < x) -> lower_bound xs x = length xs.
Proof.
  intros Hall. destruct (lower_bound_spec xs x) as (H1 & _ & H3). destruct (decide (lower_bound xs x = length xs)) as [|Hne]; [done|].
  destruct (lookup_lt_is_Some_2 xs (lower_bound xs x) ltac:(lia)) as [y Hy]. specialize (H3 y Hy).
  specialize (Hall y (list_elem_of_lookup_2 _ _ _ Hy)). lra.
Qed.

Lemma seg_pos g : segment_ok hypot atan2 g -> 0 < seg_length_ g.
Proof. intros (_ & _ & H). unfold kMathEpsilon in H. lra. Qed.

(** Lengths along the lane increase. *)
Lemma acc_mono l i j a b : lane_wf l -> lane_exact l -> (i <= j)%nat -> accumulated_s_ l !! i = Some a -> accumulated_s_ l !! j = Some b ->
  a <= b.
Proof.
  intros Hwf Hx Hij Ha. revert b. induction Hij as [|j Hij IH]; intros b Hb.
  { rewrite Ha in Hb. injection Hb as <-. lra. }
  pose proof (lookup_lt_Some _ _ _ Hb) as Hlt. rewrite (wf_acc l Hwf) in Hlt. destruct (segment_at l j Hwf Hlt) as [g Hg].
  destruct (wf_step l Hwf j g Hg) as (c & Hc & Hc'). rewrite Hb in Hc'. injection Hc' as ->. specialize (IH c Hc).
  pose proof (seg_pos g (lane_segment_ok l j g Hwf Hx Hg)). lra.
Qed.

(** The segment that contains the length [s]. *)
Lemma segment_around l (s : Q) : lane_wf l -> lane_exact l -> 0 < s -> s <= total_length_ l ->
  let index := lower_bound (accumulated_s_ l) s in
  exists i g a, index = S i /\ segments_ l !! i = Some g /\ accumulated_s_ l !! i = Some a /\
    accumulated_s_ l !! S i = Some (a + seg_length_ g) /\ a < s /\ s <= a + seg_length_ g.
Proof.
  intros Hwf Hx H0 Hs index. destruct (lower_bound_spec (accumulated_s_ l) s) as (H1 & H2 & H3). fold index in H1, H2, H3.
  assert (index <> 0%nat) as Hn0 by (intros E; rewrite E in H3; specialize (H3 0 (wf_start l Hwf)); lra).
  assert (index < length (accumulated_s_ l))%nat as Hlt.
  { pose proof (wf_total l Hwf) as Ht. rewrite last_lookup in Ht. pose proof (lookup_lt_Some _ _ _ Ht).
    destruct (decide (index < length (accumulated_s_ l))%nat) as [|Hge]; [done|].
    specialize (H2 _ _ ltac:(instantiate (1 := (pred (length (accumulated_s_ l)))); lia) Ht). lra. }
  destruct index as [|i] eqn:Ei; [done|]. rewrite (wf_acc l Hwf) in Hlt. destruct (segment_at l i Hwf Hlt) as [g Hg].
  destruct (wf_step l Hwf i g Hg) as (a & Ha & Ha'). exists i, g, a. repeat split; try done; [by apply (H2 i); [lia|]|by apply H3].
Qed.

Definition at_length (g : LineSegment2d) (d : Q) : Vec2d := vadd (start_ g) (vmul (unit_direction_ g) d).
Definition vec (p : PointENU) : Vec2d := mkVec (px p) (py p).
Lemma dist_same (p q : Vec2d) : x_ p == x_ q -> y_ p == y_ q -> DistanceSquareTo p q == 0.
Proof. intros Ex Ey. unfold DistanceSquareTo. rewrite Ex, Ey. ring. Qed.
Lemma segment_end g : segment_ok hypot atan2 g -> let e := at_length g (seg_length_ g) in x_ (end_ g) == x_ e /\ y_ (end_ g) == y_ e.
Proof.
  intros (Hg & He & Hl). rewrite Hg in Hl |- *. simpl start_ in *; simpl end_ in *.
  destruct (seg_unit hypot atan2 _ _ He Hl) as (_ & _ & Hx & Hy). unfold at_length, vadd, vmul. cbn [x_ y_]. cbn [x_ y_ start_ end_ NewSegment] in *. split; lra.
Qed.

(** GetSmoothPoint at a length within the lane is the point at that length of one of its
    segments, up to kMathEpsilon where it takes the end of the segment instead. *)
Lemma smooth_point_at l (s : Q) : lane_wf l -> lane_exact l -> 0 <= s -> s <= total_length_ l ->
  exists p i g a, GetSmoothPoint l s = Some p /\ segments_ l !! i = Some g /\ accumulated_s_ l !! i = Some a /\
    (a <= s /\ s <= a + seg_length_ g) /\ DistanceSquareTo (vec p) (at_length g (s - a)) <= kMathEpsilon * kMathEpsilon.
Proof.
  intros Hwf Hx H0 Hs. unfold GetSmoothPoint. pose proof (wf_points l Hwf) as Hp.
  rewrite (proj2 (Nat.ltb_ge _ _) Hp). assert (0 <= kMathEpsilon * kMathEpsilon) as He by apply Qsq_nonneg.
  destruct (dle s 0) eqn:E0; dsimp.
  { destruct (points_ l) as [|p [|q ps]] eqn:Ep; [simpl in Hp; lia|simpl in Hp; lia|]. 
    destruct (segment_at l 0 Hwf ltac:(rewrite Ep; simpl; lia)) as [g Hg]. destruct (lane_segment l 0 g Hwf Hg) as (p' & q' & Hp' & _ & ->).
    rewrite Ep in Hp'. injection Hp' as <-. exists (PointFromVec2d p), 0%nat, (segment p q'), 0. simpl.
    pose proof (seg_pos _ (lane_segment_ok l 0 _ Hwf Hx Hg)).
    split; [done|]. split; [done|]. split; [apply (wf_start l Hwf)|]. split; [simpl in *; split; lra|].
    rewrite dist_same; [done|..]; unfold at_length, vadd, vmul; simpl; assert (s == 0) as -> by lra; ring. }
  destruct (segment_around l s Hwf Hx E0 Hs) as (i & g & a & Ei & Hg & Ha & Ha' & H1 & H2).
  pose proof (lane_segment_ok l i g Hwf Hx Hg) as Hok. destruct (segment_end g Hok) as [Eex Eey].
  destruct (lane_segment l i g Hwf Hg) as (p & q & Hpi & Hqi & Eg). assert (end_ g = q) as Eq by (by rewrite Eg). rewrite Eq in Eex, Eey.
  destruct (dle (total_length_ l) s) eqn:Et; dsimp.
  { pose proof (wf_total l Hwf) as Ht. rewrite last_lookup in Ht.
    assert (a + seg_length_ g <= total_length_ l).
    { eapply (acc_mono l (S i)); [done|done| |exact Ha'|exact Ht]. apply lookup_lt_Some in Ha'. lia. }
    destruct (decide (S i = pred (length (accumulated_s_ l)))) as [Elast|Hne].
    - rewrite last_lookup, <- (wf_acc l Hwf), <- Elast, Hqi. exists (PointFromVec2d q), i, g, a. split; [done|]. split; [done|]. split; [done|].
      split; [lra|]. rewrite dist_same; [done|..]; simpl; rewrite ?Eex, ?Eey; unfold at_length, vadd, vmul; simpl;
        assert (s - a == seg_length_ g) as -> by lra; ring.
    - exfalso. assert (S (S i) < length (accumulated_s_ l))%nat as Hlt by (apply lookup_lt_Some in Ha'; lia).
      rewrite (wf_acc l Hwf) in Hlt. destruct (segment_at l (S i) Hwf Hlt) as [g' Hg']. destruct (wf_step l Hwf _ _ Hg') as (c & Hc & Hc').
      rewrite Ha' in Hc. injection Hc as <-. pose proof (seg_pos g' (lane_segment_ok l _ g' Hwf Hx Hg')).
      assert (a + seg_length_ g + seg_length_ g' <= total_length_ l).
      { eapply (acc_mono l (S (S i))); [done|done| |exact Hc'|exact Ht]. apply lookup_lt_Some in Hc'. lia. }
      lra. }
  rewrite Ei, Ha', Hqi. simpl. destruct (dlt _ kMathEpsilon) eqn:Ed; dsimp.
  - exists (PointFromVec2d q), i, g, a. split; [done|]. split; [done|]. split; [done|]. split; [lra|].
    destruct Hok as (Hg' & He' & Hl). rewrite Hg' in Hl. destruct (seg_unit hypot atan2 _ _ He' Hl) as (_ & Hu & _ & _).
    rewrite <- Hg' in Hu. unfold DistanceSquareTo. simpl. rewrite Eex, Eey. simpl.
    set (d := a + seg_length_ g - s) in *. set (ux := x_ (unit_direction_ g)) in *. set (uy := y_ (unit_direction_ g)) in *.
    apply Qle_trans with (d * d * (ux * ux + uy * uy)); [apply Qle_lteq; right; unfold d, ux, uy; ring|].
    rewrite Hu. assert (0 <= d) by (unfold d; lra). assert (d <= kMathEpsilon) by lra. nra.
  - unfold checked. simpl. rewrite Nat.sub_0_r, (wf_dir l Hwf i g Hg). simpl.
    eexists _, i, g, a. split; [done|]. split; [done|]. split; [done|]. split; [lra|]. rewrite dist_same; [done|..]; simpl;
      rewrite ?Eex, ?Eey; unfold at_length, vadd, vmul; simpl; ring.
Qed.

(** ** The nearest point of a lane *)
(** The tree finds a segment such that none is nearer by more than kMathEpsilon in squared distance. *)
Lemma lane_nearest l p : lane_wf l -> lane_exact l -> (Z.of_nat (length (points_ l)) < 2 ^ 31)%Z ->
  exists o i g, GetNearestObject (lane_segment_kdtree_ l) p = Some o /\ Z.to_nat (id_ o) = i /\ geo_object_ o = g /\
    segments_ l !! i = Some g /\ forall j g', segments_ l !! j = Some g' -> Seg_DistanceSquareTo g p <= Seg_DistanceSquareTo g' p + kMathEpsilon.
Proof using SL.
  intros Hwf Hx Hlen. destruct (segment_boxes_lookup _ _ _ (wf_boxes l Hwf)) as [El Hl].
  assert (length (segments_ l) = (length (points_ l) - 1)%nat) as Es by (rewrite (wf_segments l Hwf); apply segments_of_length).
  pose proof (wf_points l Hwf). assert (Z.of_nat (length (segment_box_list_ l)) < 2 ^ 31)%Z as Hlen' by (unfold LaneSegmentBox in *; lia).
  pose proof (GetNearestObject_tree _ _ p (AABoxKDTree2d_tree _ _ _ _ Hlen' (lane_boxes_ok l Hwf Hx) (wf_tree l Hwf))) as Hn.
  destruct (GetNearestObject _ p) as [o|]; [|rewrite Hn in El; simpl in El; lia]. destruct Hn as [Ho Hmin].
  destruct (segment_boxes_elem _ _ _ _ (wf_boxes l Hwf) Ho) as (i & g & Hg & _ & Eg & Ei & _).
  exists o, i, g. split; [done|]. split; [by rewrite Ei, Nat2Z.id|]. split; [done|]. split; [done|].
  intros j g' Hg'. destruct (Hl j g' Hg') as (o' & Ho' & Hb').
  destruct (segment_box_ok hypot atan2 (lane_id (lane_ l)) j g') as (o'' & Hb'' & _ & Eg' & _). rewrite Hb' in Hb''. injection Hb'' as <-.
  specialize (Hmin o' (list_elem_of_lookup_2 _ _ _ Ho')). simpl in Hmin. by rewrite Eg, Eg' in Hmin.
Qed.

Lemma on_segment_distance g (q p : Vec2d) : segment_ok hypot atan2 g -> on_segment (start_ g) (end_ g) q ->
  Seg_DistanceSquareTo g p <= DistanceSquareTo p q.
Proof.
  intros (Hg & He & Hl) Hq. rewrite Hg in Hl. pose proof (segment_distance_is_minimal hypot atan2 _ _ p He Hl) as Hm.
  rewrite <- Hg in Hm. destruct (Seg_DistanceSquareTo_nearest g p) as [d q']. destruct Hm as (-> & _ & _ & Hm). by apply Hm.
Qed.
Lemma at_length_on g (d : Q) : segment_ok hypot atan2 g -> 0 <= d -> d <= seg_length_ g -> on_segment (start_ g) (end_ g) (at_length g d).
Proof.
  intros Hok H0 H1. pose proof (seg_pos g Hok). destruct (segment_end g Hok) as [Ex Ey]. exists (d / seg_length_ g).
  assert (~ seg_length_ g == 0) by lra. split.
  - split; [apply Qle_shift_div_l; lra|apply Qle_shift_div_r; lra].
  - unfold point_at; cbn [x_ y_]. rewrite Ex, Ey. unfold at_length, vadd, vmul; cbn [x_ y_]. split; field; done.
Qed.

(** C33. The point GetSmoothPoint gives for a length within the lane is on the lane: it is
    given for every length, it is the point at that length of the segment the length falls
    into, and DistanceTo finds a segment of the lane at it; all up to kMathEpsilon, for
    lanes whose segments have exact lengths. *)
Theorem smooth_points_are_on_the_lane lane l (s : Q) : NewLaneInfo lane = Some l -> lane_exact l ->
  (Z.of_nat (length (points_ l)) < 2 ^ 31)%Z -> 0 <= s -> s <= total_length_ l ->
  exists p i g a, GetSmoothPoint l s = Some p /\
    (segments_ l !! i = Some g /\ accumulated_s_ l !! i = Some a /\ a <= s /\ s <= a + seg_length_ g) /\
    DistanceSquareTo (vec p) (at_length g (s - a)) <= kMathEpsilon * kMathEpsilon /\
    exists d q s' j g', Lane_DistanceTo_s hypot l (vec p) = Some (d, Some (q, s', j)) /\ segments_ l !! j = Some g' /\
      Seg_DistanceSquareTo g' (vec p) <= kMathEpsilon * (1 + kMathEpsilon).
Proof using SL.
  intros HL Hx Hlen H0 Hs. destruct (NewLaneInfo_wf lane l HL) as [Hwf _].
  destruct (smooth_point_at l s Hwf Hx H0 Hs) as (p & i & g & a & Hp & Hg & Ha & [H1 H2] & Hd). exists p, i, g, a.
  split; [done|]. split; [done|]. split; [done|].
  destruct (lane_nearest l (vec p) Hwf Hx Hlen) as (o & j & g' & Ho & Ej & _ & Hg' & Hmin).
  destruct (wf_step l Hwf j g' Hg') as (b & Hb & _). unfold Lane_DistanceTo_s. rewrite Ho, Ej, Hg'. simpl.
  destruct (Seg_DistanceTo_nearest hypot g' (vec p)) as [d q]. rewrite Hb. simpl.
  eexists _, _, _, _, g'. split; [done|]. split; [done|]. specialize (Hmin i g Hg).
  pose proof (on_segment_distance g _ (vec p) (lane_segment_ok l i g Hwf Hx Hg)
    (at_length_on g (s - a) (lane_segment_ok l i g Hwf Hx Hg) ltac:(lra) ltac:(lra))) as Hon.
  setoid_replace (kMathEpsilon * (1 + kMathEpsilon)) with (kMathEpsilon + kMathEpsilon * kMathEpsilon) using relation Qeq by ring. lra.
Qed.

(** ** Projections *)
Lemma nearest_segment_spec gs p i0 k m : let r := nearest_segment i0 gs p (k, Some m) in
  exists d, r.2 = Some d /\ d <= m /\ (r = (k, Some m) \/ exists i g, r.1 = (i0 + i)%nat /\ gs !! i = Some g /\ d = Seg_DistanceSquareTo g p) /\
  forall g, g ∈ gs -> d <= Seg_DistanceSquareTo g p.
Proof.
  cbv zeta. revert i0 k m. induction gs as [|g gs IH]; intros i0 k m; cbn [nearest_segment].
  { exists m. split; [done|]. split; [lra|]. split; [by left|]. by intros g ?%elem_of_nil. }
  cbn [snd]. destruct (dlt _ m) eqn:E; dsimp.
  - destruct (IH (S i0) i0 (Seg_DistanceSquareTo g p)) as (d & Ed & Hle & Hr & Hall). exists d. split; [done|]. split; [lra|]. split.
    + right. destruct Hr as [Hr|(i & g' & Hi & Hg' & ->)]; [exists 0%nat, g; rewrite Hr in Ed |- *; simpl in *; simplify_eq; split; [lia|done]|].
      exists (S i), g'. split; [lia|done].
    + intros g' [->|Hg']%elem_of_cons; [done|by apply Hall].
  - destruct (IH (S i0) k m) as (d & Ed & Hle & Hr & Hall). exists d. split; [done|]. split; [done|]. split.
    + destruct Hr as [Hr|(i & g' & Hi & Hg' & ->)]; [by left|]. right. exists (S i), g'. split; [lia|done].
    + intros g' [->|Hg']%elem_of_cons; [lra|by apply Hall].
Qed.
Lemma nearest_segment_first gs p : gs <> [] -> exists i g d, nearest_segment 0 gs p (0%nat, None) = (i, Some d) /\ gs !! i = Some g /\
  d = Seg_DistanceSquareTo g p /\ forall g', g' ∈ gs -> d <= Seg_DistanceSquareTo g' p.
Proof.
  destruct gs as [|g gs]; [done|]. intros _. cbn [nearest_segment snd].
  destruct (nearest_segment_spec gs p 1 0 (Seg_DistanceSquareTo g p)) as (d & Ed & Hle & Hr & Hall).
  destruct (nearest_segment 1 gs p _) as [i r] eqn:En. simpl in *. subst r.
  assert (forall g', g' ∈ g :: gs -> d <= Seg_DistanceSquareTo g' p) as Hall' by (intros g' [->|Hg']%elem_of_cons; [done|by apply Hall]).
  destruct Hr as [[= -> ->]|(j & g' & -> & Hg' & ->)]; [by exists 0%nat, g, (Seg_DistanceSquareTo g p)|].
  by exists (S j), g', (Seg_DistanceSquareTo g' p).
Qed.

(** GetProjection always succeeds on a lane.  It projects onto a segment at the least
    distance; except before the first and after the last segment the length is one of that
    segment, and the offset has the distance as its absolute value, with the sign of the side
    the point is on. *)
Theorem projection_is_on_the_nearest_segment l p : lane_wf l ->
  exists i g a s lateral, GetProjection sqrt l p = Some (Some (s, lateral)) /\ segments_ l !! i = Some g /\ accumulated_s_ l !! i = Some a /\
    (forall g', g' ∈ segments_ l -> Seg_DistanceSquareTo g p <= Seg_DistanceSquareTo g' p) /\
    (0 <= seg_length_ g -> (0 <= ProjectOntoUnit g p \/ (0 < i)%nat) -> (ProjectOntoUnit g p <= seg_length_ g \/ (S i < length (segments_ l))%nat) ->
       a <= s /\ s <= a + seg_length_ g) /\
    ((ProjectOntoUnit g p < 0 /\ i = 0%nat \/ 0 < ProjectOntoUnit g p /\ S i = length (segments_ l)) /\ lateral = ProductOntoUnit g p \/
     lateral = (if dlt 0 (ProductOntoUnit g p) then 1 else -1) * sqrt (Seg_DistanceSquareTo g p)).
Proof.
  intros Hwf. unfold GetProjection. pose proof (wf_points l Hwf) as Hp.
  assert (length (segments_ l) = (length (points_ l) - 1)%nat) as Es by (rewrite (wf_segments l Hwf); apply segments_of_length).
  assert (segments_ l <> []) as Hne by (intros E; rewrite E in Es; simpl in Es; lia).
  destruct (nearest_segment_first (segments_ l) p Hne) as (i & g & d & En & Hg & -> & Hmin).
  destruct (wf_step l Hwf i g Hg) as (a & Ha & _). pose proof (lookup_lt_Some _ _ _ Hg) as Hi.
  assert (i = 0%nat -> a = 0) as H0 by (intros ->; rewrite (wf_start l Hwf) in Ha; by injection Ha).
  rewrite En. destruct (segments_ l) as [|g0 gs] eqn:Eg; [done|]. rewrite <- Eg in *. simpl. rewrite Hg. simpl. rewrite Ha. simpl.
  set (r := if (i =? 0)%nat then _ else _).
  exists i, g, a, r.1, r.2. split; [by destruct r|]. split; [done|]. split; [done|]. split; [done|]. subst r.
  set (pr := ProjectOntoUnit g p). set (pd := ProductOntoUnit g p). clearbody pr.
  destruct (i =? 0)%nat eqn:E0; cbn [fst snd].
  - apply Nat.eqb_eq in E0. specialize (H0 E0). subst a. split.
    + intros Hl [H1|H1]; [|lia]. intros _. split; dcase; lra.
    + destruct (dlt pr 0) eqn:Ep; dsimp; [left; split; [by left|done]|by right].
  - destruct (i =? length (segments_ l) - 1)%nat eqn:E1; cbn [fst snd].
    + apply Nat.eqb_eq in E1. split.
      * intros Hl _ [H1|H1]; [split; dcase; lra|lia].
      * destruct (dlt 0 pr) eqn:Ep; dsimp; [left; split; [right; split; [done|lia]|done]|by right].
    + split; [|by right]. intros Hl _ _. split; dcase; lra.
Qed.

(** ** Widths *)
Definition between (a b w : Q) : Prop := (a <= w /\ w <= b) \/ (b <= w /\ w <= a).
Lemma width_search_spec fuel samples (s : Q) low high back : last samples = Some back -> s < back.1 -> (low < high)%nat -> (high - low <= fuel)%nat ->
  (exists a, samples !! low = Some a /\ a.1 <= s) -> (high = length samples \/ exists b, samples !! high = Some b /\ s < b.1) ->
  exists i a b, width_search fuel samples s low high = Some (i, S i) /\ samples !! i = Some a /\ samples !! S i = Some b /\ a.1 <= s /\ s < b.1.
Proof.
  intros Hlast Hback. revert low high. induction fuel as [|fuel IH]; intros low high Hlt Hf (a & Ha & Has) Hhigh; [lia|]. cbn [width_search].
  destruct (low + 1 <? high)%nat eqn:E.
  - apply Nat.ltb_lt in E. pose proof (Nat.div_mod_eq (low + high) 2) as Hdm. pose proof (Nat.mod_upper_bound (low + high) 2 ltac:(lia)).
    set (mid := ((low + high) / 2)%nat) in *. assert (low < mid < high)%nat as Hmid by lia.
    assert (mid < length samples)%nat as Hml.
    { destruct Hhigh as [->|(b & Hb & _)]; [lia|]. apply lookup_lt_Some in Hb. lia. }
    destruct (lookup_lt_is_Some_2 _ _ Hml) as [c Hc]. rewrite Hc. simpl. destruct (dle c.1 s) eqn:Ec; dsimp.
    + apply IH; [lia|lia|eauto|done].
    + apply IH; [lia|lia|eauto|eauto].
  - apply Nat.ltb_ge in E. assert (high = S low) as -> by lia. destruct Hhigh as [Hend|(b & Hb & Hbs)].
    + exfalso. rewrite last_lookup, <- Hend in Hlast. simpl in Hlast. rewrite Ha in Hlast. injection Hlast as ->. lra.
    + by exists low, a, b.
Qed.

(** The binary search for a width ends for any samples, also unsorted ones, and inside them:
    between the first and the last sample the width is interpolated between two consecutive
    samples that enclose the length, and outside of them it is that of the nearer end. *)
Theorem width_is_interpolated samples (s : Q) : exists w, GetWidthFromSample samples s = Some w /\
  match samples, last samples with
  | front :: _, Some back =>
    (s <= front.1 /\ w = front.2) \/ (front.1 < s /\ back.1 <= s /\ w = back.2) \/
    (exists i a b, samples !! i = Some a /\ samples !! S i = Some b /\ a.1 <= s /\ s < b.1 /\ between a.2 b.2 w /\
       (w - a.2) * (b.1 - a.1) == (b.2 - a.2) * (s - a.1))
  | _, _ => w = 0
  end.
Proof.
  unfold GetWidthFromSample. destruct samples as [|front samples]; [by exists 0|].
  destruct (last (front :: samples)) as [back|] eqn:El; [|by apply last_None in El].
  destruct (dle s front.1) eqn:E1; dsimp; [exists front.2; split; [done|by left]|].
  destruct (dle back.1 s) eqn:E2; dsimp; [exists back.2; split; [done|right; by left]|].
  destruct (width_search_spec (length (front :: samples)) (front :: samples) s 0 (length (front :: samples)) back) as (i & a & b & Hw & Ha & Hb & Has & Hbs);
    [done|done|simpl; lia|lia|exists front; split; [done|lra]|by left|].
  rewrite Hw. cbn [mbind option_bind]. rewrite Ha. cbn [mbind option_bind]. rewrite Hb. cbn [mbind option_bind].
  eexists; split; [reflexivity|]. right; right. exists i, a, b. do 4 (split; [done|]).
  assert (~ b.1 - a.1 == 0) by lra. set (r := (b.1 - s) / (b.1 - a.1)).
  assert (r * (b.1 - a.1) == b.1 - s) as Er by (unfold r; field; done).
  assert (0 <= r /\ r <= 1) as [Hr0 Hr1] by (unfold r; split; [apply Qle_shift_div_l; lra|apply Qle_shift_div_r; lra]).
  split.
  - destruct (Qlt_le_dec a.2 b.2); [left|right]; split; nra.
  - setoid_replace (a.2 * r + b.2 * (1 - r) - a.2) with ((b.2 - a.2) * (1 - r)) using relation Qeq by ring.
    transitivity ((b.2 - a.2) * ((b.1 - a.1) - r * (b.1 - a.1))); [ring|]. rewrite Er. ring.
Qed.

(** IsOnLane answers for every point. *)
Lemma is_on_lane_total l p : lane_wf l -> exists b, IsOnLane sqrt l p = Some b.
Proof.
  intros Hwf. destruct (projection_is_on_the_nearest_segment l p Hwf) as (_ & _ & _ & s & lateral & E & _).
  unfold IsOnLane. rewrite E. cbn [mbind option_bind]. destruct (_ || _); [eauto|]. unfold GetWidth.
  destruct (width_is_interpolated (sampled_left_width_ l) s) as (wl & -> & _).
  destruct (width_is_interpolated (sampled_right_width_ l) s) as (wr & -> & _). simpl. eauto.
Qed.

(** ** Headings *)
Lemma last_acc l : lane_wf l -> exists n, length (accumulated_s_ l) = S n /\ accumulated_s_ l !! n = Some (total_length_ l).
Proof.
  intros Hwf. pose proof (wf_total l Hwf) as Ht. rewrite last_lookup in Ht. pose proof (wf_points l Hwf). pose proof (wf_acc l Hwf).
  exists (pred (length (accumulated_s_ l))). split; [lia|done].
Qed.
Lemma heading_length l : lane_wf l -> length (headings_ l) = length (accumulated_s_ l).
Proof. intros Hwf. by rewrite (wf_headings l Hwf), length_map, (wf_dirs l Hwf), (wf_acc l Hwf). Qed.
Lemma lower_bound_inside l (s : Q) : lane_wf l -> s <= total_length_ l -> (lower_bound (accumulated_s_ l) s < length (accumulated_s_ l))%nat.
Proof.
  intros Hwf Hs. destruct (last_acc l Hwf) as (n & En & Hn). destruct (lower_bound_spec (accumulated_s_ l) s) as (H1 & H2 & _).
  destruct (decide (lower_bound (accumulated_s_ l) s = length (accumulated_s_ l))) as [E|]; [|lia].
  specialize (H2 n (total_length_ l) ltac:(lia) Hn). lra.
Qed.
(** Up to the end of the lane there is a heading, and a curvature everywhere. *)
Lemma heading_total l (s : Q) : lane_wf l -> s <= total_length_ l -> exists h, Heading l s = Some h.
Proof.
  intros Hwf Hs. unfold Heading. pose proof (lower_bound_inside l s Hwf Hs) as Hlt. pose proof (heading_length l Hwf) as Eh.
  pose proof (wf_start l Hwf) as H0. rewrite <- head_lookup in H0. rewrite H0, (wf_total l Hwf). cbn [mbind option_bind].
  destruct (dlt _ 0); [eauto|]. destruct (dlt _ _); [eauto|]. set (i := lower_bound _ _) in *.
  assert (forall j, (j < length (accumulated_s_ l))%nat -> exists h, headings_ l !! j = Some h) as Hh
    by (intros j Hj; apply lookup_lt_is_Some; lia).
  destruct (i =? 0)%nat; [by apply Hh|].
  destruct (lookup_lt_is_Some_2 _ _ Hlt) as [a ->]. cbn [mbind option_bind]. destruct (dle _ _); [by apply Hh|].
  destruct (Hh (i - 1)%nat ltac:(lia)) as [h0 ->]. destruct (lookup_lt_is_Some_2 (accumulated_s_ l) (i - 1)%nat ltac:(lia)) as [s0 ->].
  destruct (Hh i Hlt) as [h1 ->]. simpl. eauto.
Qed.
Lemma curvature_total l (s : Q) : lane_wf l -> exists k, Curvature l s = Some k.
Proof.
  intros Hwf. unfold Curvature. destruct (length (points_ l) <? 2)%nat; [eauto|]. pose proof (heading_length l Hwf) as Eh.
  pose proof (wf_start l Hwf) as H0. rewrite <- head_lookup in H0. rewrite H0, (wf_total l Hwf). cbn [mbind option_bind].
  destruct (dlt _ 0); [eauto|]. destruct (dlt _ _); [eauto|]. destruct (lower_bound_spec (accumulated_s_ l) s) as (H1 & _ & _).
  set (i := lower_bound _ _) in *. destruct (i =? length (accumulated_s_ l))%nat eqn:E1; [eauto|]. apply Nat.eqb_neq in E1.
  destruct (i =? 0)%nat; [eauto|].
  assert (forall j, (j < length (accumulated_s_ l))%nat -> exists h, headings_ l !! j = Some h) as Hh
    by (intros j Hj; apply lookup_lt_is_Some; lia).
  destruct (Hh (i - 1)%nat ltac:(lia)) as [h0 ->]. destruct (lookup_lt_is_Some_2 (accumulated_s_ l) (i - 1)%nat ltac:(lia)) as [s0 ->].
  destruct (Hh i ltac:(lia)) as [h1 ->]. destruct (lookup_lt_is_Some_2 (accumulated_s_ l) i ltac:(lia)) as [s1 ->]. simpl. eauto.
Qed.

(** Within a millimetre behind the end of the lane Heading passes its check, and reads
    behind the end of the vectors: lower_bound found no length that is large enough. *)
Theorem heading_reads_past_the_end l (s : Q) : lane_wf l -> lane_exact l -> total_length_ l < s -> s <= total_length_ l + (1 # 1000) ->
  Heading l s = None.
Proof.
  intros Hwf Hx H1 H2. destruct (last_acc l Hwf) as (n & En & Hn). unfold Heading.
  assert (forall y, y ∈ accumulated_s_ l -> y <= total_length_ l) as Hle.
  { intros y [i Hi]%list_elem_of_lookup. eapply (acc_mono l i n); [done|done| |done|done]. apply lookup_lt_Some in Hi. lia. }
  rewrite (lower_bound_end (accumulated_s_ l) s) by (intros y Hy; specialize (Hle y Hy); lra).
  pose proof (wf_start l Hwf) as H0. pose proof (Hle 0 (list_elem_of_lookup_2 _ _ _ H0)). rewrite <- head_lookup in H0.
  rewrite H0, (wf_total l Hwf). cbn [mbind option_bind]. rewrite (proj2 (dlt_false _ _)) by lra. rewrite (proj2 (dlt_false _ _)) by lra.
  rewrite En. simpl. rewrite (lookup_ge_None_2 (accumulated_s_ l)) by lia. done.
Qed.
End shape.
Arguments lane_exact hypot l : assert.

(** ** A lane *)
Definition point_of (p : Vec2d) : PointENU := mkPoint (x_ p) (y_ p) 0.
Definition bent_lane : Lane := mkLane "lane" [line_segment (map point_of (take 3 lane_points)); other_curve; line_segment (map point_of (drop 2 lane_points))]
  [] [] [] NO_TURN [(0, 1); (10, 2); (60, 3)] [(0, 2)] [] [].
Definition bent_info : LaneInfo := default (mkLaneInfo bent_lane [] [] [] [] [] [] no_overlaps 0 [] [] [] [] [] Null EmptyString EmptyString)
  (NewLaneInfo root_hypot no_angle bent_lane).
Definition exactb (points : list Vec2d) : bool :=
  forallb (fun '(p, q) => segment_okb (NewSegment root_hypot no_angle p q)) (zip points (tail points)).
Lemma exactb_exact l : exactb (points_ l) = true -> lane_exact root_hypot l.
Proof.
  unfold exactb. rewrite forallb_forall. intros Hall i p q Hp Hq.
  assert ((p, q) ∈ zip (points_ l) (tail (points_ l))) as Hin.
  { apply list_elem_of_lookup. exists i. rewrite lookup_zip_with, Hp. simpl. rewrite lookup_tail, Hq. done. }
  apply list_elem_of_In, Hall in Hin. apply (segment_okb_ok p q Hin).
Qed.

Lemma smooth_points_are_on_the_lane_witness :
  option_map (fun p => (Qred (px p), Qred (py p))) (GetSmoothPoint bent_info 20) = Some (14, 12) /\
  exists p i g a, GetSmoothPoint bent_info 20 = Some p /\
    (segments_ bent_info !! i = Some g /\ accumulated_s_ bent_info !! i = Some a /\ a <= 20 /\ 20 <= a + seg_length_ g) /\
    DistanceSquareTo (vec p) (at_length g (20 - a)) <= kMathEpsilon * kMathEpsilon /\
    exists d q s' j g', Lane_DistanceTo_s root_hypot bent_info (vec p) = Some (d, Some (q, s', j)) /\ segments_ bent_info !! j = Some g' /\
      Seg_DistanceSquareTo g' (vec p) <= kMathEpsilon * (1 + kMathEpsilon).
Proof.
  split; [vm_compute; reflexivity|].
  apply (smooth_points_are_on_the_lane root_hypot no_angle bent_lane bent_info 20);
    [vm_compute; reflexivity|apply exactb_exact; vm_compute; reflexivity|vm_compute; reflexivity|by apply dle_true|apply dle_true; vm_compute; reflexivity].
Defined.

Example bent_lane_at : map Qred (accumulated_s_ bent_info) = [0; 5; 15; 35; 45; 51; 64] /\
  option_map Qred (GetWidthFromSample (sampled_left_width_ bent_info) 20) = Some (11 # 5) /\
  Heading bent_info (64 + (1 # 2000)) = None.
Proof. split; [vm_compute; reflexivity|]. split; vm_compute; reflexivity. Qed.
